(* ===== verification/_CoqProject ===== *)
-Q . S2P
Prelude.v
Identity.v
HashCache.v
Plan.v
GoJson.v
Redact.v
RedactParse.v
EventFilter.v
Interest.v
Resolver.v
Watch.v
WatchSpec.v
Normalize.v
Coalesce.v
SinkTypes.v
ScopeRecorder.v
ScopeLog.v
Incarnations.v
Diff.v
QueryFilter.v
Replay.v
Calendar.v
Duration.v
Pointer.v
Render.v
ScopeWorker.v
S3Object.v
S3Writer.v
Layout.v
Archive.v
ArchiveSpec.v
ArchiveEndToEnd.v
ArchiveState.v
Blame.v
BlameSpec.v
Ownership.v
ArchiveQueries.v
Reference.v
Rfc6902.v
ReferenceSpec.v
Coldscan.v
Gather.v
GatherSpec.v
Table.v
TableSpec.v
Envelope.v
TimelineStream.v
Commands.v
S3ScopeWriter.v
CHWriter.v
CHScopeWriter.v
Process.v
Warm.v
Coordinator.v
SinkManager.v
Conditions.v
RuleController.v
RuleSpec.v
SinkConfig.v
SinkController.v
SinkSpec.v
Samples.v
ArchiveSamples.v
QuerySamples.v
ReferenceSamples.v
GatherArchive.v
ProcessSpec.v
System.v
Lifecycle.v
Isolation.v
WarmSpec.v
Invariants.v
EndToEnd.v
ControlPlane.v
History.v
