(* ===== verification/Prelude.v ===== *)
(** * kuberecord, modelled and verified

    kuberecord records the history of Kubernetes objects. Rules say what to watch
    and where to send it; informers keep a live cache of the watched objects; for
    every change a work item reaches a pipeline worker, which normalizes and
    redacts the object, deduplicates it against a per-sink cache and hands a row -
    Added, Snapshot, Modified, Checkpoint or Deleted - to the sink's writer. The
    sink confirms or abandons the row later through a commit callback. After a
    restart the cache is seeded from the sink's own history, and what happened
    while the process was down is reconciled with it. Beside the rows a sink keeps
    a log of when which scope was being watched. One kind of sink is an archive of
    compressed objects in a store; the read plane answers questions from it -
    timelines, past states, coverage, owners - and rebuilds an object from its
    rows. The command line shows those answers: timelines with the values each change
    replaced, and which change last wrote every field. This library models that core
    and proves what makes the recorded history, and what is read out of it,
    trustworthy.

    ** How the parts interact

    The rule controller ([RuleController]) checks each rule against its sink's policy,
    the cluster's kinds and the operator's own permissions, and installs the targets
    that pass. [Plan] (internal/plan) merges the rules' targets and wakes the watch
    manager.
    [Watch] turns a snapshot of it into interests ([Interest]) and a set of running
    informers, whose objects pass [Normalize.TransformObject], and enqueues a work
    item named by [Identity.Key] for every sink that wants the change. [Process]
    settles one item: it asks the watch manager what the watch cache holds, the
    sink manager ([SinkManager]) for the sink's writer, the watch manager again for
    the redaction policy in force, then works on the sink's state - dedup cache
    ([HashCache]), Event coalescer ([Coalesce]), warm scopes, close-outs awaiting a
    retry - and enqueues a [Process.Job]. [Warm] seeds that state and closes what
    history left open; [Coordinator] decides which warms run. [ScopeRecorder] turns
    the edges of interests into Started and Stopped rows. The archive sink batches
    rows into objects ([S3Object], [S3Writer]) and transitions into scope objects
    ([S3ScopeWriter]); the ClickHouse sink batches them into typed INSERTs
    ([CHWriter], [CHScopeWriter]). The sink controllers ([SinkController]) resolve
    a sink's credential, build its configuration ([SinkConfig]), declare it to the
    sink manager and report the verdicts of its probes. [Archive], [ArchiveState] and [ArchiveQueries] read them
    back, through the prefixes of [Layout]; [ScopeLog], [QueryFilter], [Ownership]
    and [Replay] are the parts of the read plane every backend shares, and [Reference]
    is the plain engine backends are compared with. [Blame] and [Render] turn
    answers into what a terminal shows, addressing documents with [Pointer]. [Gather]
    puts one question to a read plane behind the guard of [Coldscan] and says what
    the answer, and above all its silence, means; [Table] lays it out for a terminal,
    [Envelope] and [TimelineStream] write it as a document, and [Commands] is the
    timeline and the diff command from an opened read plane to the exit code.

    ** Files

    Definitions, each with the code it models:
    - [Prelude]: integers at Go's width, results of fallible calls, the state
      monad, strings, shared automation and lemmas.
    - [Identity]: internal/sink/id.go, internal/pipeline/identity.go and
      special_kinds.go.
    - [HashCache]: internal/pipeline/hashcache.go. Every method holds the cache's
      mutex, so it is one function from a cache to a cache.
    - [Plan]: internal/plan/registry.go.
    - [GoJson]: decoded JSON and the parameters for the Kubernetes accessors,
      encoding/json and sha256.
    - [Redact], [RedactParse]: internal/pipeline/redact.go.
    - [EventFilter], [Interest], [Resolver]: eventfilter.go, interest.go and
      resolver.go of internal/watch.
    - [Watch]: pool.go and manager.go of internal/watch.
    - [Normalize]: internal/pipeline/actors.go, the normalization functions of
      process.go, and [TransformObject] of internal/watch/pool.go.
    - [Coalesce]: internal/pipeline/coalesce.go.
    - [SinkTypes]: the values and interfaces of internal/sink/record.go, scope.go
      and sink.go.
    - [ScopeRecorder]: internal/watch/scope_recorder.go.
    - [ScopeLog], [QueryFilter], [Replay], [Ownership]: scope.go, filter.go,
      replay.go and ownership.go of internal/query, with the types of types.go.
    - [Incarnations], [Warm], [Coordinator]: internal/pipeline/warm.go - the pure
      classification of history, the passes, and the bookkeeping of requests.
    - [Diff]: [ComputeDiff] and the checkpoint policy of process.go.
    - [Calendar]: hourStart and dayStart, and the part of Go's time package the
      partitions use: the proleptic Gregorian calendar and its rendering.
    - [Duration]: Go's rendering of durations, which fingerprints contain.
    - [S3Object], [S3Writer], [S3ScopeWriter]: encoder.go with object.go, writer.go
      and scopewriter.go of internal/sink/s3. [CHWriter], [CHScopeWriter]: writer.go
      and scopewriter.go of internal/sink/clickhouse. [ScopeWorker]: the worker both
      scopewriter.go files contain, over a class [ScopeTransport] of deliveries.
    - [Layout], [Archive], [ArchiveState], [ArchiveQueries]: internal/query/
      objectsource - layout.go; line.go, scan.go, engine.go and timeline.go;
      state.go; coverage.go, clusters.go, estimate.go, ownership.go and the
      incarnations of timeline.go.
    - [SinkManager]: internal/sink/manager.go.
    - [Conditions]: conditions.go, redaction.go and eventfilter.go of
      internal/controller, and [readyFor] of sink_controller.go.
    - [RuleController]: internal/controller/streamrule_controller.go, with the rule
      types of api/v1alpha1/shared_types.go.
    - [SinkConfig]: the sink types of api/v1alpha1, the configurations and
      fingerprints of both backends (instanceconfig.go, instance.go), and the
      builders and the factory of cmd/main.go.
    - [SinkController]: sink_controller.go and s3sink_controller.go of
      internal/controller, over a class [SinkRuntime] that [SinkSpec] discharges
      with the sink manager.
    - [Pointer]: the JSON Pointer functions of internal/cli/replay (attribute.go,
      prior.go). [Blame]: the rest of that package and the seeding of
      internal/cli/blame.go, with the rows of internal/cli/render/blame.go.
    - [Render]: path.go, zone.go, change.go and the text functions of render.go in
      internal/cli/render.
    - [Coldscan]: internal/cli/coldscan/coldscan.go with the exit codes of
      internal/cli/exit and the notices of internal/cli/render.
    - [Gather]: gather.go, incarnation.go, coverage.go and owned.go of internal/cli,
      with the parts of timeline.go, structured.go and options/window.go they call.
    - [Table]: event.go, timeline.go, diff.go, blame.go, scopes.go and severity.go of
      internal/cli/render. [Envelope]: structured.go there and in internal/cli.
      [TimelineStream]: internal/cli/timelinestream.go. [Commands]: RunTimeline and
      RunDiff of internal/cli, and the formats the commands accept.
    - [Reference]: internal/query/conformance/reference.go with the histories of
      conformance.go and support.go, and the capabilities of internal/query/query.go.
    - [Process]: the rest of process.go and the per-sink state of pipeline.go.
    - [System]: the transition system made of the above, and a family of
      invariants of its reachable states.

    Theorems are beside their definitions, and for those that span components in
    [WatchSpec], [ProcessSpec], [Lifecycle], [Isolation], [WarmSpec], [Invariants],
    [EndToEnd], [History], [RuleSpec], [SinkSpec], [ControlPlane], [ArchiveSpec],
    [ArchiveEndToEnd], [BlameSpec], [Rfc6902] (the standard as a relation, and
    the reference's applier against it), [ReferenceSpec], [TableSpec], [GatherSpec] and
    [GatherArchive], which puts the archive behind the command. [Samples], [ArchiveSamples],
    [QuerySamples] and [ReferenceSamples] implement the parameters on concrete data,
    for the evaluations that show hypotheses can be met.

    ** How state and effects correspond to the code

    A Go [sinkState] is shared: a worker and every commit callback it created hold
    the same pointer, also after the registry replaced it. It is a cell of the
    store [Process.ps_states]; [ps_registry] is the registry's map from sink to
    cell. A commit callback is the data it captures ([Process.commit]); [settle]
    runs it. [ps_jobs] are the accepted, unsettled rows in order, [ps_queue] the
    calls on the work queue in order, [ps_clock] and [ps_attempts] index the clock
    readings and the writer's answers. [System.step] interleaves worker rounds,
    settlements in any order and with either outcome, evictions, sink removal and
    the writes of a warm.

    The other concurrent components are runs of operations as well: a list of
    [writerOp], [scopeOp] or [managerOp] is one interleaving of callers, workers,
    timers, background goroutines and the shutdown, and a theorem holds of every
    such list. A channel is a list, a goroutine its position in its own code, a
    live sink instance a cell of a store that keeps the cancelled ones, a commit
    callback of the archive writer a number.

    ** What the theorems show

    - Recorded history: the rows of any confirmed run of observations replay to
      what decoding the last observation's canonical bytes gives, up to a collision
      of the hash ([History.recorded_history_rebuilds]), with fewer patches than the
      checkpoint interval ([History.replay_is_bounded]); a write that
      fails after a newer one overtook it breaks this
      ([History.overtaken_lost_write_breaks_history]).
    - From rules to rows: redaction and watching hold through registry, watch
      manager and pipeline ([EndToEnd]), for payloads and baselines; the labels column
      is read before redaction ([EndToEnd.EndToEndSamples.labels_not_redacted]).
    - Rules: what a pass leaves installed is exactly what its gates admitted, Ready
      says so ([RuleSpec]) except after a failed read of the sink
      ([RuleSpec.ready_despite_unread_sink]); from rule objects to rows, Secrets are
      never recorded and a sink's redaction floor binds the payloads of
      every rule ([ControlPlane]).
    - Sinks: Ready is True exactly when the credential, the declaration and the latest
      verdict are good, any changed setting of the built configuration replaces the running instance, and the hub
      loses and reorders nothing ([SinkSpec]); a recreated sink can inherit a verdict
      ([SinkSpec.recreated_sink_inherits_verdict]) and no specification sets the
      coalescing window ([SinkSpec.coalesce_window_never_set]).
    - Every reachable state: rows have the shape of their event type, checkpoints
      bound the cached count of patches, nothing redacted is emitted or retained
      ([Invariants]); sinks do not share fate ([Isolation]).
    - Watching: absence is never guessed, a pass converges, notifications reach
      exactly the interested sinks, pushed-down selectors change nothing, edges are
      guarded ([WatchSpec]); filters compile to their union ([EventFilter]); the
      retry gate is bounded ([Resolver]).
    - Scope log: rows alternate per scope and are handed over in order
      ([ScopeRecorder]); read back, they cover exactly what was watched
      ([ScopeLog]), also through the archive ([S3ScopeWriter], [ArchiveQueries]).
    - One work item: deduplication and rollback ([ProcessSpec]); Snapshot tagging,
      replacement and exactly-once deletion ([Lifecycle]).
    - The cache: stale settlements are inert and delete claims exclusive under any
      interleaving without removals, the claim on every branch, exact eviction,
      and the reuse of versions after a removal ([HashCache]).
    - Redaction: every path is scrubbed, the result does not depend on scrubbed
      values, copy-on-write equals the reference scrub, merging is a union
      ([Redact]); the path grammar round-trips and compilation is all-or-nothing
      ([RedactParse]).
    - Normalization: the transform is invisible, volatile and redacted fields are
      not hashed, actors are canonical ([Normalize]). Coalescing: the lazy sweep is
      invisible, suppression is exact ([Coalesce]). Patches: no empty interior
      pointer token is accepted ([Diff]).
    - Warm-up: a warm is a run of the system, writes rows only behind its gates,
      spares live objects, never overwrites a live entry, and boot reconciliation
      closes exactly the orphaned scopes ([WarmSpec]); history is classified as
      specified ([Incarnations]); at most one warm runs per scope ([Coordinator]).
    - Desired state: the reference-counted registry refines the set of last
      accepted requests, wakes the data plane exactly on change and answers rule
      queries exactly ([Plan]).
    - The archive: streamed and batched encoding agree and decode
      ([S3Object]); accepted rows settle exactly once and successes are in the
      store ([S3Writer]), and so for ClickHouse, where a row refused at Append or at
      Send fails alone ([CHWriter]) and no transition is lost but by overflow ([CHScopeWriter]); pruned, concurrent and newest-first reading answer what
      the whole archive says ([ArchiveSpec], [ArchiveState], [ArchiveQueries]); a
      confirmed row is found where objects are filed in order, which the writer does
      not ensure ([ArchiveEndToEnd]).
    - Owners: the bounded walk is breadth-first, exact within its bounds and
      reports what it left out ([Ownership]).
    - Against the reference: the archive answers every timeline query with the rows
      of the reference engine, and states, coverage and incarnations like it; its
      iterator never hides a failure ([ReferenceSpec]); its patch applier implements
      RFC 6902 where the standard defines a result ([Rfc6902]).
    - Blame: a field is attributed to the newest write that touched it, the table
      counts every field once, prior values are those of the reconstruction
      ([BlameSpec]); the order of pointers is not transitive
      ([BlameSpec.BlameSamples.compare_pointers_cycle]).
    - What is shown: cells fit their columns, a printed path filters for itself, a
      printed instant determines the instant, values are one line ([Render]).
    - Commands: the streamed document holds the changes of the gathered page with its
      notices and exit code, and a success is the whole document ([TimelineStream]);
      columns begin under their headings and rows fit the terminal ([TableSpec]); the
      exit code of a diff is that of its answer ([Commands]).
    - Silence: the finding that exits 3 is made exactly when nothing was recorded and
      nothing was watching, every other page without a change of the object carries
      the sentence that accounts for it, the header names the object of every row
      shown ([GatherSpec]), and over the archive exit 3 is true of the whole archive
      and its scope log ([GatherArchive]); a costly scan runs only with consent and its
      breaker trips on the first excess ([Coldscan]).
    - Sink instances: each is routed or drained by exactly one goroutine, the
      routing table is what was last declared, eviction waits for the drain, the
      shutdown ends when the writers return and not before
      ([SinkManager.ManagerSamples.wedged_writer_holds_shutdown]), probes keep their schedule ([SinkManager]).

    ** Parameters, bounds and fuel

    Code outside the repository enters as classes: [Unstructured] (apimachinery
    accessors), [Encoders] (encoding/json, sha256), [ZstdCodec] and [FrameWriter]
    (zstd, whole and streaming), [JsonDiff], [JsonPatch], [PatchPaths], [Strconv],
    [Selectors], [LabelSelectors], [FieldSelectors], [FilterCodec], [Schema],
    [InformerObjects], [RESTMapping] (client-go and apimachinery), [LineCodec],
    [ScopeLineCodec], [OwnerCodec] and [FrameReader] (encoding/json on lines and
    frames), [ObjectSource] (the store's listings and bodies, which may fail or
    break off anywhere), [Backends] (the sink factories), [BackOff] (the backoff
    library), [ConditionHelpers], [APIErrors], [KindStrings] and [ErrorText] (the
    condition helpers, error predicates and renderings of apimachinery), [AnyCodec],
    [PatchCodec] and [OpCodec] (encoding/json into loose values and patches),
    [EnvelopeCodec] and [Floats] (encoding/json and YAML on documents),
    [SlicesSort] (slices.SortFunc), [MapRange] and [MapOrder] (the order a map is
    visited in). What the
    API server answers during one controller pass is a [RuleController.cluster] or a
    [SinkController.sinkWorld], what a flush of the ClickHouse writer meets a
    [CHWriter.flushWorld]. The [...Laws] classes state the documented behaviour a
    theorem relies on ([QuoteLaws]: strconv.Quote can be read back; [LineLaws] and [FormatLaws]: lines of
    valid UTF-8 read back; [FrameLaws] and [ZstdLaws]: a frame that is not empty
    decodes; [PatchLibrary]: plain patches are applied as RFC 6902 says); the sample files and the witnesses satisfy them. The lister, router,
    redaction registry, clock and writer answers are the fields of [Process.env]
    and [Process.Writer], arbitrary in every theorem; history readers and the watch
    layer are a [Warm.world].

    Cache versions are [uint64] and wrap ([u64_succ]); a theorem that needs them
    not to wrap bounds the number of calls by 2^64. Durations are [int64];
    [Time.Sub] saturates. The path parser runs on fuel [S (length raw)], proved to
    be enough. The loops over partitions ([spans_loop], [hours_loop]) run on the
    number of hours left, the walks ([walk], [walk_days]) on the number of
    partitions or days left, the grouping of prefixes ([chunk]) on their number;
    each round uses up at least one, and the theorems on them say that nothing of
    the range is left out. An unbounded [backoff.Retry] runs over the list of
    worlds its attempts meet; the end of the list is the cancellation of its
    context.

    ** Not modelled

    Logging, metrics and gauges; the rate limiting of the work queue and the worker
    pool (client-go): a round is one step; tickers and debouncing: a timer that
    fires is an operation; the store clients and the database, whose
    answers the components above are proved against; the SQL of the
    ClickHouse schema, state reader and query backend; of the command line the
    resolution of profiles and sinks, the wizards, the flags, and the commands get,
    blame and scopes; the conformance suites around the reference engine, which are tests; the
    wiring of the controllers. *)

From Stdlib Require Ascii.
From stdpp Require Export base option tactics sorting gmap strings list.
Declare Scope char_scope.
Delimit Scope char_scope with char.
Export Ascii.AsciiSyntax.

(** * Machine integers *)

(** Go's [uint64]: addition wraps modulo 2^64. *)
Definition u64_modulus : Z := 2 ^ 64.

Definition u64_succ (v : Z) : Z := (v + 1) `mod` u64_modulus.

Definition u64_range (v : Z) : Prop := (0 <= v < u64_modulus)%Z.

(** Go's [int64], the representation of [time.Duration]. *)
Definition i64_max : Z := 2 ^ 63 - 1.
Definition i64_min : Z := - 2 ^ 63.

Definition i64_wrap (z : Z) : Z := (z + 2 ^ 63) `mod` 2 ^ 64 - 2 ^ 63.

(** An instant in nanoseconds; [Time.Sub] saturates instead of overflowing. *)
Definition time_sub (t u : Z) : Z := Z.max i64_min (Z.min i64_max (t - u)).

(** * The kuberecord scope: byte-string concatenation and Go's short-circuit
    result notation. *)

Declare Scope kr_scope.
Delimit Scope kr_scope with kr.

(** * Results of fallible operations

    A Go function returning [(T, error)] is a value of [result E T]. *)
Inductive result (E A : Type) : Type :=
| Ok (a : A)
| Err (e : E).

Arguments Ok {E A} a.
Arguments Err {E A} e.

Definition result_bind {E A B} (r : result E A) (k : A -> result E B) : result E B :=
  match r with
  | Ok a => k a
  | Err e => Err e
  end.

Notation "'let!' x ':=' r 'in' k" := (result_bind r (fun x => k))
  (at level 10, x pattern, r at level 200, k at level 200)
  : kr_scope.

(** * A state monad for code that threads a mutable object *)

Definition state (S A : Type) : Type := S -> A * S.

#[export] Instance state_ret {S} : MRet (state S) := fun A a s => (a, s).

#[export] Instance state_bind {S} : MBind (state S) :=
  fun A B k m s => let '(a, s') := m s in k a s'.

Definition state_get {S} : state S S := fun s => (s, s).
Definition state_modify {S} (f : S -> S) : state S unit := fun s => (tt, f s).
Definition state_gets {S A} (f : S -> A) : state S A := fun s => (f s, s).

(** * Tactics *)

(** Split every [match] and [if] of the goal, closing what [simplify_eq] closes. *)
Ltac split_cases := repeat (case_match || case_decide); simplify_eq/=; try done.

(** * Lemmas shared by the components *)

Create HintDb kr.
Create Rewrite HintDb kr.

Lemma u64_succ_range v : u64_range (u64_succ v).
Proof. unfold u64_range, u64_succ, u64_modulus. apply Z.mod_pos_bound. lia. Qed.

Lemma u64_succ_no_wrap v : (0 <= v < u64_modulus - 1)%Z -> u64_succ v = (v + 1)%Z.
Proof. intros. unfold u64_succ. apply Z.mod_small. lia. Qed.

Lemma u64_succ_ne v : u64_succ v <> v.
Proof.
  unfold u64_succ, u64_modulus. intros E.
  assert (Hr := Z.mod_pos_bound (v + 1) (2 ^ 64) ltac:(lia)). rewrite E in Hr.
  destruct (decide (v + 1 < 2 ^ 64)%Z).
  - rewrite Z.mod_small in E; lia.
  - assert (v + 1 = 2 ^ 64)%Z as Hv by lia. rewrite Hv, Z_mod_same_full in E. lia.
Qed.

Lemma i64_wrap_id z : (i64_min <= z <= i64_max)%Z -> i64_wrap z = z.
Proof.
  unfold i64_wrap, i64_min, i64_max. intros Hz. rewrite Z.mod_small; lia.
Qed.

#[export] Hint Resolve u64_succ_range u64_succ_ne : kr.

(** ** Byte strings *)

Lemma string_app_nil_l (s : string) : "" +:+ s = s.
Proof. done. Qed.

Lemma string_app_cons (a : Ascii.ascii) (s t : string) :
  String a s +:+ t = String a (s +:+ t).
Proof. done. Qed.

Lemma string_app_nil_r (s : string) : s +:+ "" = s.
Proof. induction s as [|a s IH]; [done|]. by rewrite string_app_cons, IH. Qed.

Lemma string_app_assoc (s t u : string) : (s +:+ t) +:+ u = s +:+ (t +:+ u).
Proof. induction s as [|a s IH]; [done|]. by rewrite !string_app_cons, IH. Qed.

Lemma string_app_inj_l (s t u : string) : s +:+ t = s +:+ u -> t = u.
Proof. induction s as [|a s IH]; [done|]. rewrite !string_app_cons. intros [=]. auto. Qed.

Lemma string_length_app (s t : string) : String.length (s +:+ t) = String.length s + String.length t.
Proof. induction s as [|a s IH]; [done|]. rewrite string_app_cons. cbn. by rewrite IH. Qed.

(** [strings.HasPrefix]. *)
Definition has_prefix (s p : string) : bool := String.prefix p s.

Lemma has_prefix_spec (s p : string) :
  has_prefix s p = true <-> exists t, s = p +:+ t.
Proof.
  unfold has_prefix. revert s. induction p as [|a p IH]; intros s.
  - destruct s; simpl; split; eauto.
  - destruct s as [|b s]; simpl.
    + split; [done|]. intros [t Ht]. rewrite string_app_cons in Ht. done.
    + destruct (Ascii.ascii_dec a b) as [->|Hne].
      * rewrite IH. split.
        -- intros [t ->]. exists t. by rewrite string_app_cons.
        -- intros [t Ht]. exists t. rewrite string_app_cons in Ht. by injection Ht.
      * split; [done|]. intros [t Ht]. rewrite string_app_cons in Ht.
        injection Ht. congruence.
Qed.

(** Whether byte [c] occurs in [s]. *)
Fixpoint string_mem (c : Ascii.ascii) (s : string) : bool :=
  match s with
  | EmptyString => false
  | String a s' => bool_decide (a = c) || string_mem c s'
  end.

(** Two decompositions of one string around a separator that occurs in neither
    left part are the same decomposition. *)
Lemma string_sep_inj (c : Ascii.ascii) (s t u v : string) :
  string_mem c s = false -> string_mem c t = false ->
  s +:+ String c u = t +:+ String c v -> s = t /\ u = v.
Proof.
  revert t. induction s as [|a s IH]; intros [|b t] Hs Ht E;
    rewrite ?string_app_nil_l, ?string_app_cons in E; simpl in Hs, Ht.
  - injection E. auto.
  - injection E as -> _. by rewrite bool_decide_true in Ht.
  - injection E as -> _. by rewrite bool_decide_true in Hs.
  - injection E as -> E. apply orb_false_iff in Hs as [_ Hs], Ht as [_ Ht].
    destruct (IH t Hs Ht E) as [-> ->]. done.
Qed.

(** [strings.Split(s, c)] for a one-byte separator: never empty. *)
Fixpoint split_on (c : Ascii.ascii) (s : string) : list string :=
  match s with
  | EmptyString => [EmptyString]
  | String a s' =>
      if bool_decide (a = c) then EmptyString :: split_on c s'
      else match split_on c s' with
           | part :: parts => String a part :: parts
           | [] => [String a EmptyString]
           end
  end.

(** [strings.Join(parts, sep)]. *)
Fixpoint join (sep : string) (parts : list string) : string :=
  match parts with
  | [] => ""
  | [p] => p
  | p :: rest => p +:+ sep +:+ join sep rest
  end.

Lemma split_on_app c s t :
  string_mem c s = false -> split_on c (s +:+ String c t) = s :: split_on c t.
Proof.
  induction s as [|a s IH]; cbn [string_mem].
  - intros _. rewrite string_app_nil_l. cbn [split_on]. by rewrite bool_decide_true.
  - intros [Ha Hs]%orb_false_iff. rewrite string_app_cons. cbn [split_on].
    by rewrite Ha, (IH Hs).
Qed.

Lemma split_on_none c s : string_mem c s = false -> split_on c s = [s].
Proof.
  induction s as [|a s IH]; [done|]. cbn [string_mem split_on].
  intros [Ha Hs]%orb_false_iff. by rewrite Ha, (IH Hs).
Qed.

Lemma split_on_join c parts :
  parts <> [] -> Forall (fun p => string_mem c p = false) parts ->
  split_on c (join (String c "") parts) = parts.
Proof.
  induction parts as [|p [|q parts] IH]; intros Hne Hf; [done|..];
    inversion_clear Hf as [|?? Hp Hps].
  - by apply split_on_none.
  - change (join (String c "") (p :: q :: parts)) with
      (p +:+ String c (join (String c "") (q :: parts))).
    rewrite (split_on_app _ _ _ Hp). f_equal. by apply IH.
Qed.

(** ** Sorted key sets

    [slices.Sorted(maps.Keys(m))]. *)
Definition sorted_keys {V} (m : gmap string V) : list string :=
  merge_sort String.le (map fst (map_to_list m)).

(** ** A text form of countable data

    Instantiates codec parameters on concrete inputs: the binary digits of the
    countable encoding, after a leading byte. *)

Fixpoint bits_of (p : positive) : string :=
  match p with
  | xH => ""
  | xO q => String "0" (bits_of q)
  | xI q => String "1" (bits_of q)
  end.

Fixpoint of_bits (s : string) : positive :=
  match s with
  | EmptyString => xH
  | String c rest => if bool_decide (c = "0"%char) then xO (of_bits rest) else xI (of_bits rest)
  end.

Lemma of_bits_of p : of_bits (bits_of p) = p.
Proof. induction p as [p IH|p IH|]; cbn; by rewrite ?IH. Qed.

Definition text_of `{Countable A} (a : A) : string := String "#" (bits_of (encode a)).

Definition of_text `{Countable A} (s : string) : option A :=
  match s with
  | String _ rest => decode (of_bits rest)
  | EmptyString => None
  end.

Lemma of_text_of `{Countable A} (a : A) : of_text (text_of a) = Some a.
Proof. cbn [text_of of_text]. by rewrite of_bits_of, decode_encode. Qed.

(** A loop of map insertions, when equal keys carry equal values. *)
Lemma lookup_foldl_insert {A V} `{Countable K} (f : A -> K) (g : A -> V) (l : list A) k v :
  (forall x y, x ∈ l -> y ∈ l -> f x = f y -> g x = g y) ->
  foldl (fun m x => <[f x := g x]> m) (∅ : gmap K V) l !! k = Some v <->
  exists x, x ∈ l /\ f x = k /\ g x = v.
Proof.
  induction l as [|x l IH] using rev_ind; intros Hinj; simpl.
  - rewrite lookup_empty. split; [done|]. intros (? & ?%elem_of_nil & _). done.
  - rewrite foldl_snoc, lookup_insert_Some, IH.
    + setoid_rewrite elem_of_app. setoid_rewrite list_elem_of_singleton. split.
      * intros [[<- <-]|[Hne (y & Hy & Hk & Hv)]]; eauto.
      * intros (y & Hy & <- & <-). destruct (decide (f x = f y)) as [E|E].
        -- left. split; [done|]. apply Hinj; rewrite ?elem_of_app, ?list_elem_of_singleton; naive_solver.
        -- right. split; [done|]. destruct Hy as [Hy| ->]; [eauto|done].
    + intros y z Hy Hz. apply Hinj; apply elem_of_app; by left.
Qed.

Lemma foldl_bind {A B C} (f : C -> B -> C) (h : A -> list B) (l : list A) (c : C) :
  foldl f c (l ≫= h) = foldl (fun c x => foldl f c (h x)) c l.
Proof. revert c. induction l as [|x l IH]; intros c; [done|]. simpl. by rewrite foldl_app, IH. Qed.

Lemma foldl_fmap {A B C} (f : C -> B -> C) (h : A -> B) (l : list A) (c : C) :
  foldl f c (map h l) = foldl (fun c x => f c (h x)) c l.
Proof. revert c. induction l as [|x l IH]; intros c; [done|]. simpl. by rewrite IH. Qed.

(** A loop updating two accumulators independently. *)
Lemma foldl_pair {A B C} (f : B -> A -> B) (g : C -> A -> C) (l : list A) b c :
  foldl (fun acc x => (f acc.1 x, g acc.2 x)) (b, c) l = (foldl f b l, foldl g c l).
Proof. revert b c. induction l as [|x l IH]; intros b c; [done|]. simpl. by rewrite IH. Qed.

Lemma omap_step {A B} (f : A -> option B) x (l : list A) :
  omap f (x :: l) = match f x with Some y => y :: omap f l | None => omap f l end.
Proof. done. Qed.

Lemma keep_all {A} (f : A -> bool) l : Forall (fun x => f x = true) l -> List.filter f l = l.
Proof. induction 1 as [|x l Hx _ IH]; simpl; [done|]. by rewrite Hx, IH. Qed.

Lemma keep_none {A} (f : A -> bool) l : Forall (fun x => f x = false) l -> List.filter f l = [].
Proof. induction 1 as [|x l Hx _ IH]; simpl; [done|]. by rewrite Hx. Qed.

Lemma keep_app {A} (f : A -> bool) l l' : List.filter f (l ++ l') = List.filter f l ++ List.filter f l'.
Proof. induction l as [|x l IH]; simpl; [done|]. rewrite IH. by destruct (f x). Qed.

(** ** Stable sorting, as [slices.SortStableFunc] *)

Section stable_sort.
Context {A : Type} (R : A -> A -> Prop) `{!RelDecision R}.

Fixpoint insert_before (x : A) (l : list A) : list A :=
  match l with
  | [] => [x]
  | y :: rest => if decide (R x y) then x :: l else y :: insert_before x rest
  end.

Definition stable_sort (l : list A) : list A := foldr insert_before [] l.

Lemma insert_before_Permutation x l : insert_before x l ≡ₚ x :: l.
Proof.
  induction l as [|y l IH]; simpl; [done|]. case_decide; [done|]. rewrite IH. apply perm_swap.
Qed.

Lemma stable_sort_Permutation l : stable_sort l ≡ₚ l.
Proof. induction l as [|x l IH]; simpl; [done|]. by rewrite insert_before_Permutation, IH. Qed.

Lemma stable_sort_sorted `{!Transitive R, !Total R} l : StronglySorted R (stable_sort l).
Proof.
  induction l as [|x l IH]; simpl; [constructor|]. induction IH as [|y l' Hs IH Hf]; simpl; [by repeat constructor|].
  case_decide as Hxy.
  - constructor; [by constructor|]. constructor; [done|]. eapply Forall_impl; [exact Hf|]. intros z. by transitivity y.
  - constructor; [done|]. rewrite insert_before_Permutation. constructor; [|done]. by destruct (total R x y).
Qed.

(** Elements that tie keep their order. *)
Lemma stable_sort_ties (f : A -> bool) l :
  (forall x y, f x = true -> f y = true -> R x y) -> List.filter f (stable_sort l) = List.filter f l.
Proof.
  intros Ht. induction l as [|x l IH]; simpl; [done|]. rewrite <-IH. generalize (stable_sort l). intros l'.
  induction l' as [|y l' IHl]; simpl; [done|]. case_decide as Hxy; simpl; [done|]. rewrite IHl.
  destruct (f x) eqn:Ex, (f y) eqn:Ey; try done. destruct Hxy. by apply Ht.
Qed.

Lemma insert_before_filter `{!Transitive R, !Total R} (f : A -> bool) x l : StronglySorted R l ->
  List.filter f (insert_before x l) = if f x then insert_before x (List.filter f l) else List.filter f l.
Proof.
  induction 1 as [|y l Hs IH Hf]; simpl; [by destruct (f x)|]. case_decide as Hxy; simpl.
  - destruct (f x); [|done]. destruct (f y); simpl; [by rewrite decide_True|].
    clear IH. induction l as [|z l IHl]; simpl; [done|]. apply Forall_cons in Hf as [Hyz Hf].
    inversion_clear Hs. destruct (f z); simpl; [|by apply IHl]. rewrite decide_True; [done|]. by transitivity y.
  - rewrite IH. destruct (f x), (f y); simpl; try done. by rewrite decide_False.
Qed.

(** Selecting commutes with sorting. *)
Lemma stable_sort_filter `{!Transitive R, !Total R} (f : A -> bool) l :
  List.filter f (stable_sort l) = stable_sort (List.filter f l).
Proof.
  induction l as [|x l IH]; simpl; [done|]. rewrite insert_before_filter by apply stable_sort_sorted.
  rewrite IH. by destruct (f x).
Qed.

(** A sorted list is cut in two by a selection closed upwards. *)
Lemma sorted_cut (f : A -> bool) l : (forall x y, R x y -> f x = true -> f y = true) -> StronglySorted R l ->
  l = List.filter (fun x => negb (f x)) l ++ List.filter f l.
Proof.
  intros Hup. induction 1 as [|x l Hs IH Hf]; simpl; [done|]. destruct (f x) eqn:Ex; simpl; [|by rewrite <-IH].
  assert (Hl : Forall (fun y => f y = true) l) by (eapply Forall_impl; [exact Hf|]; naive_solver).
  rewrite (keep_all f l), (keep_none (fun x => negb (f x)) l); [done| |done].
  eapply Forall_impl; [exact Hl|]. simpl. by intros y ->.
Qed.

Lemma insert_before_last `{!Transitive R} x l m : StronglySorted R l -> last l = Some m ->
  last (insert_before x l) = Some (if decide (R x m) then m else x).
Proof.
  induction 1 as [|y l Hs IH Hf]; [done|]. cbn [insert_before]. destruct l as [|z l].
  - intros [= ->]. cbn [insert_before]. by case_decide.
  - intros Hm. assert (Hym : R y m).
    { rewrite last_cons_cons in Hm. apply last_Some_elem_of in Hm. by rewrite Forall_forall in Hf; apply Hf. }
    destruct (decide (R x y)) as [Hxy|Hxy].
    + rewrite decide_True by (by transitivity y). done.
    + rewrite last_cons_cons in Hm. specialize (IH Hm). rewrite last_cons, IH. done.
Qed.

(** The last element of a stable sort: the greatest, and of equals the latest. *)
Lemma stable_sort_last `{!Transitive R, !Total R} l :
  last (stable_sort l) =
  foldr (fun x newest => Some match newest with Some m => if decide (R x m) then m else x | None => x end) None l.
Proof.
  induction l as [|x l IH]; [done|]. cbn [stable_sort foldr]. rewrite <-IH. fold (stable_sort l).
  destruct (last (stable_sort l)) as [m|] eqn:E.
  - by rewrite (insert_before_last x _ m) by (done || apply stable_sort_sorted).
  - apply last_None in E. by rewrite E.
Qed.
End stable_sort.

(** ** Positions by key

    The idiom of a slice beside a map from key to position, one entry per key. *)

Section indexed.
Context {A : Type} (key : A -> string).

Definition indexed (l : list A) (m : gmap string nat) : Prop :=
  forall k i, m !! k = Some i <-> exists x, l !! i = Some x /\ key x = k.

Lemma indexed_nil : indexed [] ∅.
Proof. intros k i. rewrite lookup_empty. split; [done|by intros (? & ? & _)]. Qed.

Lemma indexed_snoc l m x : indexed l m -> m !! key x = None -> indexed (l ++ [x]) (<[key x := length l]> m).
Proof.
  intros Hi Hn k i. destruct (decide (k = key x)) as [->|Hne].
  - rewrite lookup_insert_eq. split; [intros [= <-]; exists x; split; [by apply list_lookup_middle|done]|].
    intros (y & [Hy|[Hle Hy]]%lookup_app_Some & Hk).
    + assert (m !! key x = Some i) by (apply Hi; by exists y). congruence.
    + apply list_lookup_singleton_Some in Hy as [? _]. f_equal. lia.
  - rewrite lookup_insert_ne, (Hi k i) by done. split.
    + intros (y & Hy & Hk). exists y. split; [by apply lookup_app_l_Some|done].
    + intros (y & [Hy|[_ Hy]]%lookup_app_Some & Hk); [by exists y|].
      apply list_lookup_singleton_Some in Hy as [_ <-]. congruence.
Qed.

Lemma indexed_alter (g : A -> A) (i : nat) l m : (forall x, key (g x) = key x) -> indexed l m -> indexed (alter g i l) m.
Proof.
  intros Hg Hi k j. rewrite (Hi k j), list_lookup_alter. case_decide as Hij; [subst j|done].
  destruct (l !! i) as [x|]; cbn; [|done]. split; intros (y & [= <-] & <-); eexists; (split; [done|]); by rewrite ?Hg.
Qed.

Lemma indexed_NoDup l m : indexed l m -> NoDup (map key l).
Proof.
  intros Hx. apply NoDup_alt. intros i j k Hi Hj. rewrite list_lookup_fmap in Hi, Hj.
  destruct (l !! i) as [x|] eqn:Ei; [|done]. destruct (l !! j) as [y|] eqn:Ej; [|done].
  injection Hi as Hi. injection Hj as Hj. assert (m !! k = Some i) by (apply Hx; by exists x).
  assert (m !! k = Some j) by (apply Hx; by exists y). congruence.
Qed.

Lemma indexed_elem l m k : indexed l m -> k ∈ map key l <-> is_Some (m !! k).
Proof.
  intros Hx. split.
  - intros (x & -> & [i Hi]%list_elem_of_lookup)%list_elem_of_fmap. exists i. apply Hx. by exists x.
  - intros [i (x & Hi & <-)%Hx]. apply list_elem_of_fmap_2. by eapply list_elem_of_lookup_2.
Qed.

Lemma indexed_at l m i j x : indexed l m -> m !! key x = Some i -> l !! j = Some x -> j = i.
Proof. intros Hx Hi Hj. assert (m !! key x = Some j) by (apply Hx; by exists x). congruence. Qed.
End indexed.
