(* ===== verification/Identity.v ===== *)
(** * Identity: sink identities, work keys and watch scopes

    Models [src/internal/sink/id.go], [src/internal/pipeline/identity.go] and
    [src/internal/pipeline/special_kinds.go]: the typed sink identity, the
    version-agnostic object identity that is the work-queue item, the canonical
    cache key built from it, the watch scope and the key prefix a scope is
    evicted by, and the predicate that singles out Kubernetes Events. *)

From S2P Require Import Prelude.

(** ** Sink identity *)

Record ID := mkID { ID_Kind : string; ID_Name : string }.

#[export] Instance ID_eq_dec : EqDecision ID.
Proof. solve_decision. Defined.

#[export] Instance ID_countable : Countable ID.
Proof.
  apply (inj_countable' (fun i => (ID_Kind i, ID_Name i)) (fun p => mkID p.1 p.2)).
  by intros [].
Defined.

Definition DefaultSinkKind : string := "ClickHouseSink".

Definition ID_String (id : ID) : string := ID_Kind id +:+ "/" +:+ ID_Name id.

(** [cmp.Or] returns its first non-zero argument. *)
Definition cmp_or (a b : comparison) : comparison :=
  match a with Eq => b | _ => a end.

Definition ID_Compare (id other : ID) : comparison :=
  cmp_or (String.compare (ID_Kind id) (ID_Kind other))
         (String.compare (ID_Name id) (ID_Name other)).

(** ** Watch scopes and work keys *)

Record ScopeKey := mkScopeKey {
  sk_Group : string;
  sk_Kind : string;
  sk_Namespace : string;
}.

#[export] Instance ScopeKey_eq_dec : EqDecision ScopeKey.
Proof. solve_decision. Defined.

#[export] Instance ScopeKey_countable : Countable ScopeKey.
Proof.
  apply (inj_countable' (fun s => (sk_Group s, sk_Kind s, sk_Namespace s))
           (fun p => mkScopeKey p.1.1 p.1.2 p.2)).
  by intros [].
Defined.

Record Key := mkKey {
  k_Sink : ID;
  k_Group : string;
  k_Kind : string;
  k_Namespace : string;
  k_Name : string;
}.

#[export] Instance Key_eq_dec : EqDecision Key.
Proof. solve_decision. Defined.

#[export] Instance Key_countable : Countable Key.
Proof.
  apply (inj_countable'
           (fun k => (k_Sink k, k_Group k, k_Kind k, k_Namespace k, k_Name k))
           (fun p => mkKey p.1.1.1.1 p.1.1.1.2 p.1.1.2 p.1.2 p.2)).
  by intros [].
Defined.

Definition cacheKey (k : Key) : string :=
  k_Group k +:+ "|" +:+ k_Kind k +:+ "|" +:+ k_Namespace k +:+ "/" +:+ k_Name k.

Definition Scope (k : Key) : ScopeKey :=
  mkScopeKey (k_Group k) (k_Kind k) (k_Namespace k).

Definition Key_String (k : Key) : string :=
  ID_String (k_Sink k) +:+ "/" +:+ cacheKey k.

Definition scopeKeyPrefix (s : ScopeKey) : string :=
  let prefix := sk_Group s +:+ "|" +:+ sk_Kind s +:+ "|" in
  if bool_decide (sk_Namespace s = "") then prefix
  else prefix +:+ sk_Namespace s +:+ "/".

(** ** Kubernetes Events *)

Definition eventKind : string := "Event".
Definition coreGroup : string := "".
Definition eventsGroup : string := "events.k8s.io".

Definition ephemeralKind (group kind : string) : bool :=
  if negb (bool_decide (kind = eventKind)) then false
  else bool_decide (group = coreGroup) || bool_decide (group = eventsGroup).

Definition Key_ephemeral (k : Key) : bool := ephemeralKind (k_Group k) (k_Kind k).

Definition ScopeKey_ephemeral (s : ScopeKey) : bool :=
  ephemeralKind (sk_Group s) (sk_Kind s).

(** ** Well-formed identities

    The API server validates groups (DNS subdomains), kinds (CamelCase) and
    namespaces (DNS labels); all that the key format relies on is that none of
    them contains the byte that ends its field. *)

Definition wf_group_kind (group kind : string) : Prop :=
  string_mem "|"%char group = false /\ string_mem "|"%char kind = false.

Definition wf_Key (k : Key) : Prop :=
  wf_group_kind (k_Group k) (k_Kind k) /\ string_mem "/"%char (k_Namespace k) = false.

Definition wf_ScopeKey (s : ScopeKey) : Prop :=
  wf_group_kind (sk_Group s) (sk_Kind s) /\ string_mem "/"%char (sk_Namespace s) = false.

(** The objects a scope covers: its kind, in its namespace or in every one. *)
Definition in_scope (s : ScopeKey) (k : Key) : Prop :=
  k_Group k = sk_Group s /\ k_Kind k = sk_Kind s /\
  (sk_Namespace s = "" \/ k_Namespace k = sk_Namespace s).

#[export] Instance in_scope_dec s k : Decision (in_scope s k).
Proof. unfold in_scope. apply _. Defined.

(** ** Lemmas *)

Lemma cacheKey_fields (k : Key) :
  cacheKey k = k_Group k +:+ String "|" (k_Kind k +:+ String "|"
                 (k_Namespace k +:+ String "/" (k_Name k))).
Proof. done. Qed.

Lemma group_kind_inj g1 k1 g2 k2 r1 r2 :
  wf_group_kind g1 k1 -> wf_group_kind g2 k2 ->
  g1 +:+ String "|" (k1 +:+ String "|" r1) = g2 +:+ String "|" (k2 +:+ String "|" r2) ->
  g1 = g2 /\ k1 = k2 /\ r1 = r2.
Proof.
  intros [Hg1 Hk1] [Hg2 Hk2] E.
  apply string_sep_inj in E as [-> E]; [|done..].
  apply string_sep_inj in E as [-> ->]; done.
Qed.

Lemma cacheKey_eq_iff (k1 k2 : Key) :
  wf_Key k1 -> wf_Key k2 ->
  cacheKey k1 = cacheKey k2 <->
  k_Group k1 = k_Group k2 /\ k_Kind k1 = k_Kind k2 /\
  k_Namespace k1 = k_Namespace k2 /\ k_Name k1 = k_Name k2.
Proof.
  intros [Hw1 Hn1] [Hw2 Hn2]. rewrite !cacheKey_fields. split.
  - intros E. apply group_kind_inj in E as (? & ? & E); [|done..].
    apply string_sep_inj in E as [? ?]; done.
  - intros (-> & -> & -> & ->). done.
Qed.

Lemma scopeKeyPrefix_shape (s : ScopeKey) (t : string) :
  scopeKeyPrefix s +:+ t =
  sk_Group s +:+ String "|" (sk_Kind s +:+ String "|"
    (if bool_decide (sk_Namespace s = "") then t else sk_Namespace s +:+ String "/" t)).
Proof.
  unfold scopeKeyPrefix. case_bool_decide; rewrite !string_app_assoc; done.
Qed.

Lemma cacheKey_prefix_iff (s : ScopeKey) (k : Key) :
  wf_ScopeKey s -> wf_Key k ->
  has_prefix (cacheKey k) (scopeKeyPrefix s) = true <-> in_scope s k.
Proof.
  intros [Hws Hns] [Hwk Hnk]. rewrite has_prefix_spec.
  setoid_rewrite scopeKeyPrefix_shape. rewrite cacheKey_fields. unfold in_scope. split.
  - intros [t E]. apply group_kind_inj in E as (-> & -> & E); [|done..].
    case_bool_decide; [by auto|].
    apply string_sep_inj in E as [-> _]; auto.
  - intros (-> & -> & Hns'). case_bool_decide.
    + by eexists.
    + destruct Hns' as [?| ->]; [done|]. by eexists.
Qed.

(** ** Comparison functions

    What a sort relies on, and that chaining with [cmp.Or] keeps it. *)

Record lawful {A} (cmp : A -> A -> comparison) : Prop := {
  lawful_sym : forall a b, cmp b a = CompOpp (cmp a b);
  lawful_trans : forall a b c, cmp a b <> Gt -> cmp b c <> Gt -> cmp a c <> Gt;
}.

Lemma lawful_string {A} (f : A -> string) : lawful (fun a b => String.compare (f a) (f b)).
Proof.
  split; [intros a b; apply String.compare_antisym|]. intros a b c.
  assert (forall s t, String.compare s t <> Gt <-> String.le s t) as Hle.
  { intros s t. unfold String.le, String.leb. by destruct (String.compare s t). }
  rewrite !Hle. apply transitivity.
Qed.

Lemma lawful_Z {A} (f : A -> Z) : lawful (fun a b => Z.compare (f a) (f b)).
Proof. split; [intros a b; apply Z.compare_antisym|]. intros a b c. rewrite !Z.compare_le_iff. lia. Qed.

Lemma lawful_Eq {A} (cmp : A -> A -> comparison) a b c : lawful cmp -> cmp a b = Eq -> cmp a c = cmp b c.
Proof.
  intros [Hs Ht] E. assert (Eb : cmp b a = Eq) by (rewrite Hs, E; done).
  pose proof (Ht a b c) as T1. pose proof (Ht b a c) as T2. pose proof (Ht c a b) as T3. pose proof (Ht c b a) as T4.
  rewrite E in T1, T3. rewrite Eb in T2, T4. rewrite (Hs a c), (Hs b c) in T3, T4.
  destruct (cmp a c), (cmp b c); simpl in *; try done; exfalso;
    first [by apply T1|by apply T2|by apply T3|by apply T4].
Qed.

Lemma lawful_or {A} (c1 c2 : A -> A -> comparison) :
  lawful c1 -> lawful c2 -> lawful (fun a b => cmp_or (c1 a b) (c2 a b)).
Proof.
  intros L1 L2. split.
  - intros a b. rewrite (lawful_sym _ L1), (lawful_sym _ L2). unfold cmp_or. by destruct (c1 a b).
  - intros a b c. unfold cmp_or.
    destruct (c1 a b) eqn:E1.
    + rewrite <-(lawful_Eq _ _ _ _ L1 E1). destruct (c1 a c); try done. apply (lawful_trans _ L2).
    + intros _. destruct (c1 b c) eqn:E2; [|..|done].
      * assert (E3 : c1 c b = Eq) by (rewrite (lawful_sym _ L1 b c), E2; done).
        assert (E4 : c1 a c = Lt); [|by rewrite E4].
        rewrite (lawful_sym _ L1 c a), (lawful_Eq _ _ _ _ L1 E3), (lawful_sym _ L1 a b), E1. done.
      * intros _. pose proof (lawful_trans _ L1 a b c) as T. rewrite E1, E2 in T.
        destruct (c1 a c) eqn:E3; [|done|by destruct T]. exfalso.
        assert (E4 : c1 c b = Lt) by (rewrite <-(lawful_Eq _ _ _ _ L1 E3); done).
        rewrite (lawful_sym _ L1 b c), E2 in E4. done.
    + done.
Qed.

Lemma lawful_total {A} (cmp : A -> A -> comparison) : lawful cmp -> Total (fun a b => cmp a b <> Gt).
Proof. intros L a b. rewrite (lawful_sym _ L a b). destruct (cmp a b); simpl; auto. Qed.
