(* ===== verification/HashCache.v ===== *)
(** * HashCache: the version-gated dedup cache

    Models [src/internal/pipeline/hashcache.go]. A [hashCache] is the map from
    identity key to [CacheEntry]; every method runs under the cache's mutex, so
    it is one atomic function from a cache to a cache. Versions are [uint64] and
    wrap. The zstd codec is third-party code: the class [ZstdCodec] carries the
    two process-wide codec singletons, each of which may be absent. *)

From S2P Require Import Prelude Identity.

(** ** Entries *)

Inductive entryEncoding :=
| encodingRaw
| encodingZstd
| encodingOther (n : Z).

Record CacheEntry := mkCacheEntry {
  Hash : string;
  (** [None] is Go's nil slice: no confirmed baseline. *)
  JSON : option string;
  Encoding : entryEncoding;
  UID : string;
  APIVersion : string;
  ModifiedSinceCheckpoint : Z;
  Version : Z;
  PendingDelete : bool;
}.

(** [CacheEntry{}]. *)
Definition CacheEntry_zero : CacheEntry :=
  mkCacheEntry "" None encodingRaw "" "" 0 0 false.

(** [entry.Version = v]. *)
Definition with_Version (v : Z) (e : CacheEntry) : CacheEntry :=
  mkCacheEntry (Hash e) (JSON e) (Encoding e) (UID e) (APIVersion e)
    (ModifiedSinceCheckpoint e) v (PendingDelete e).

(** [entry.PendingDelete = b]. *)
Definition with_PendingDelete (b : bool) (e : CacheEntry) : CacheEntry :=
  mkCacheEntry (Hash e) (JSON e) (Encoding e) (UID e) (APIVersion e)
    (ModifiedSinceCheckpoint e) (Version e) b.

Abbreviation hashCache := (gmap string CacheEntry).

(** ** Operations *)

Definition Len (c : hashCache) : nat := size c.

Definition Load (key : string) (c : hashCache) : option CacheEntry := c !! key.

(** [c.data[key].Version]: an absent key reads as the zero entry. *)
Definition currentVersion (key : string) (c : hashCache) : Z :=
  match c !! key with Some e => Version e | None => 0 end.

Definition Reserve (key : string) (entry : CacheEntry) (c : hashCache) : Z * hashCache :=
  let v := u64_succ (currentVersion key c) in
  (v, <[key := with_Version v entry]> c).

Definition CommitIfCurrent (key : string) (expectedVersion : Z) (entry : CacheEntry)
    (c : hashCache) : bool * hashCache :=
  match c !! key with
  | Some cur =>
      if decide (Version cur = expectedVersion)
      then (true, <[key := with_Version expectedVersion entry]> c)
      else (false, c)
  | None =>
      if decide (expectedVersion = 0%Z)
      then (true, <[key := with_Version expectedVersion entry]> c)
      else (false, c)
  end.

Definition DeleteIfCurrent (key : string) (expectedVersion : Z)
    (c : hashCache) : bool * hashCache :=
  match c !! key with
  | Some cur =>
      if decide (Version cur = expectedVersion) then (true, delete key c) else (false, c)
  | None => (false, c)
  end.

Inductive deleteClaimOutcome :=
| deleteClaimed
| deleteClaimAbsent
| deleteClaimInFlight
| deleteClaimUIDMismatch.

#[export] Instance deleteClaimOutcome_eq_dec : EqDecision deleteClaimOutcome.
Proof. solve_decision. Defined.

Definition deleteClaimOutcome_String (o : deleteClaimOutcome) : string :=
  match o with
  | deleteClaimed => "claimed"
  | deleteClaimAbsent => "absent"
  | deleteClaimInFlight => "in-flight"
  | deleteClaimUIDMismatch => "uid-mismatch"
  end.

(** The result triple [(entry, version, outcome)] of a claim. *)
Record claim := mkClaim {
  cl_entry : CacheEntry;
  cl_version : Z;
  cl_outcome : deleteClaimOutcome;
}.

Definition refused (o : deleteClaimOutcome) : claim := mkClaim CacheEntry_zero 0 o.

Definition ReserveDelete (key expectedUID : string) (c : hashCache) : claim * hashCache :=
  match c !! key with
  | None => (refused deleteClaimAbsent, c)
  | Some cur =>
      if PendingDelete cur then (refused deleteClaimInFlight, c)
      else if decide (expectedUID <> "" /\ UID cur <> expectedUID)
      then (refused deleteClaimUIDMismatch, c)
      else
        let v := u64_succ (Version cur) in
        (mkClaim cur v deleteClaimed,
         <[key := with_PendingDelete true (with_Version v cur)]> c)
  end.

Definition UnclaimDelete (key : string) (expectedVersion : Z) (c : hashCache) : hashCache :=
  match c !! key with
  | Some cur =>
      if decide (Version cur = expectedVersion)
      then <[key := with_PendingDelete false cur]> c else c
  | None => c
  end.

Definition StoreIfAbsent (key : string) (entry : CacheEntry) (c : hashCache) : hashCache :=
  match c !! key with
  | Some _ => c
  | None => <[key := with_Version 1 entry]> c
  end.

Definition DeletePrefix (prefix : string) (c : hashCache) : nat * hashCache :=
  let kept := filter (fun kv => has_prefix kv.1 prefix = false) c in
  (size c - size kept, kept).

(** ** Baselines *)

Definition zstdMagic : string :=
  String.string_of_list_ascii (map Ascii.ascii_of_nat [0x28; 0xB5; 0x2F; 0xFD]%nat).

Inductive decodeError :=
| errMissingMagic (nbytes : nat)
| errDecoderUnavailable
| errDecodeAll (reason : string)
| errUnknownEncoding (n : Z).

Class ZstdCodec := {
  (** [None] is a codec whose construction failed. *)
  zstdEncoder : option (string -> string);
  zstdDecoder : option (string -> result string string);
}.

Definition compressBaseline `{ZstdCodec} (raw : string) : string * entryEncoding * bool :=
  match zstdEncoder with
  | Some encode =>
      if decide (raw = "") then (raw, encodingRaw, false)
      else (encode raw, encodingZstd, true)
  | None => (raw, encodingRaw, false)
  end.

(** [Ok None] is the [(nil, nil)] return of a nil baseline. *)
Definition decodeBaseline `{ZstdCodec} (e : CacheEntry) : result decodeError (option string) :=
  match JSON e with
  | None => Ok None
  | Some data =>
      match Encoding e with
      | encodingRaw => Ok (Some data)
      | encodingZstd =>
          if negb (has_prefix data zstdMagic) then Err (errMissingMagic (String.length data))
          else
            match zstdDecoder with
            | None => Err errDecoderUnavailable
            | Some decode =>
                match decode data with
                | Ok raw => Ok (Some raw)
                | Err reason => Err (errDecodeAll reason)
                end
            end
      | encodingOther n => Err (errUnknownEncoding n)
      end
  end.

(** What the code relies on of the zstd library: the frame of a text that
    is not empty opens with the magic number of RFC 8878 and decodes to the text (the
    encoder may render the empty text as no frame at all). *)
Class ZstdLaws `{ZstdCodec} := {
  zstd_frame : forall encode raw, zstdEncoder = Some encode -> raw <> "" ->
    has_prefix (encode raw) zstdMagic = true;
  zstd_roundtrip : forall encode decode raw, zstdEncoder = Some encode ->
    zstdDecoder = Some decode -> raw <> "" -> decode (encode raw) = Ok raw;
}.

(** ** Interleaved operations

    The cache is shared by every worker, every sink settlement, the warm-up and
    the garbage-collection pass. [cache_op] is one method call and [apply_op]
    its effect on the shared map. *)

Inductive cache_op :=
| OpReserve (key : string) (entry : CacheEntry)
| OpCommit (key : string) (version : Z) (entry : CacheEntry)
| OpDelete (key : string) (version : Z)
| OpReserveDelete (key uid : string)
| OpUnclaim (key : string) (version : Z)
| OpStoreIfAbsent (key : string) (entry : CacheEntry)
| OpDeletePrefix (prefix : string).

Definition apply_op (op : cache_op) (c : hashCache) : hashCache :=
  match op with
  | OpReserve k e => (Reserve k e c).2
  | OpCommit k v e => (CommitIfCurrent k v e c).2
  | OpDelete k v => (DeleteIfCurrent k v c).2
  | OpReserveDelete k uid => (ReserveDelete k uid c).2
  | OpUnclaim k v => UnclaimDelete k v c
  | OpStoreIfAbsent k e => StoreIfAbsent k e c
  | OpDeletePrefix p => (DeletePrefix p c).2
  end.

(** How many versions [op] assigns to [key]. *)
Definition bumps (key : string) (op : cache_op) (c : hashCache) : Z :=
  match op with
  | OpReserve k _ => if decide (k = key) then 1 else 0
  | OpReserveDelete k uid =>
      if decide (k = key /\ cl_outcome (ReserveDelete k uid c).1 = deleteClaimed) then 1 else 0
  | _ => 0
  end.

(** [evolves key c n c']: some interleaving of cache operations leads from [c]
    to [c'], assigning [n] versions to [key] and never removing it. *)
Inductive evolves (key : string) (c : hashCache) : Z -> hashCache -> Prop :=
| evolves_refl : is_Some (c !! key) -> evolves key c 0 c
| evolves_step n c' op :
    evolves key c n c' ->
    is_Some (apply_op op c' !! key) ->
    evolves key c (n + bumps key op c')%Z (apply_op op c').

(** Operations that may end a delete claim held on [key] at [version]: a newer
    reservation, a settlement of that very version, or an eviction. *)
Definition ends_claim (key : string) (version : Z) (op : cache_op) : bool :=
  match op with
  | OpReserve k _ => bool_decide (k = key)
  | OpCommit k v _ | OpDelete k v | OpUnclaim k v => bool_decide (k = key /\ v = version)
  | OpDeletePrefix p => has_prefix key p
  | OpReserveDelete _ _ | OpStoreIfAbsent _ _ => false
  end.

(** ** Lemmas *)

Lemma lookup_Reserve key key' entry c :
  (Reserve key entry c).2 !! key' =
  if decide (key = key') then Some (with_Version (u64_succ (currentVersion key c)) entry)
  else c !! key'.
Proof. unfold Reserve; simpl. by rewrite lookup_insert. Qed.

Lemma lookup_CommitIfCurrent_ne key key' v e c :
  key <> key' -> (CommitIfCurrent key v e c).2 !! key' = c !! key'.
Proof. intros. unfold CommitIfCurrent. split_cases; by rewrite lookup_insert_ne. Qed.

Lemma lookup_DeleteIfCurrent_ne key key' v c :
  key <> key' -> (DeleteIfCurrent key v c).2 !! key' = c !! key'.
Proof. intros. unfold DeleteIfCurrent. split_cases; by rewrite lookup_delete_ne. Qed.

Lemma lookup_ReserveDelete_ne key key' uid c :
  key <> key' -> (ReserveDelete key uid c).2 !! key' = c !! key'.
Proof. intros. unfold ReserveDelete. split_cases; by rewrite lookup_insert_ne. Qed.

Lemma lookup_UnclaimDelete_ne key key' v c :
  key <> key' -> UnclaimDelete key v c !! key' = c !! key'.
Proof. intros. unfold UnclaimDelete. split_cases; by rewrite lookup_insert_ne. Qed.

Lemma lookup_StoreIfAbsent_ne key key' e c :
  key <> key' -> StoreIfAbsent key e c !! key' = c !! key'.
Proof. intros. unfold StoreIfAbsent. split_cases; by rewrite lookup_insert_ne. Qed.

Lemma lookup_Reserve_ne key key' entry c :
  key <> key' -> (Reserve key entry c).2 !! key' = c !! key'.
Proof. intros. by rewrite lookup_Reserve, decide_False. Qed.

#[export] Hint Rewrite lookup_Reserve_ne lookup_CommitIfCurrent_ne lookup_DeleteIfCurrent_ne
  lookup_ReserveDelete_ne lookup_UnclaimDelete_ne lookup_StoreIfAbsent_ne
  using done : kr.

Lemma lookup_DeletePrefix prefix key c :
  (DeletePrefix prefix c).2 !! key =
  if has_prefix key prefix then None else c !! key.
Proof.
  unfold DeletePrefix; simpl. destruct (has_prefix key prefix) eqn:E.
  - apply map_lookup_filter_None. right. intros x _. simpl. congruence.
  - destruct (c !! key) as [x|] eqn:Hx.
    + apply map_lookup_filter_Some. done.
    + apply map_lookup_filter_None. auto.
Qed.

(** A settlement that carries a version other than the current one is inert. *)
Lemma stale_commit_inert key v e entry c :
  c !! key = Some entry -> Version entry <> v ->
  CommitIfCurrent key v e c = (false, c) /\
  DeleteIfCurrent key v c = (false, c) /\
  UnclaimDelete key v c = c.
Proof.
  intros Hc Hv. unfold CommitIfCurrent, DeleteIfCurrent, UnclaimDelete.
  rewrite Hc, !decide_False by done. done.
Qed.

(** One operation moves the version of a surviving key by its [bumps]. *)
Lemma apply_op_version key op c entry entry' :
  c !! key = Some entry -> apply_op op c !! key = Some entry' ->
  u64_range (Version entry) ->
  Version entry' = ((Version entry + bumps key op c) mod u64_modulus)%Z.
Proof.
  intros Hc Hc' Hr.
  assert (Hid : forall x, Version x = Version entry ->
                Version x = ((Version entry + 0) mod u64_modulus)%Z).
  { intros x ->. rewrite Z.add_0_r, Z.mod_small; [done|]. exact Hr. }
  destruct op as [k e|k v e|k v|k uid|k v|k e|p]; cbn [apply_op bumps] in *.
  - rewrite lookup_Reserve in Hc'. case_decide; simplify_eq/=.
    + unfold currentVersion, u64_succ. by rewrite Hc.
    + by apply Hid.
  - apply Hid. destruct (decide (k = key)) as [->|]; [|autorewrite with kr in Hc'; congruence].
    unfold CommitIfCurrent in Hc'. rewrite Hc in Hc'. case_decide; simplify_map_eq; done.
  - apply Hid. destruct (decide (k = key)) as [->|]; [|autorewrite with kr in Hc'; congruence].
    unfold DeleteIfCurrent in Hc'. rewrite Hc in Hc'. case_decide; simplify_map_eq; done.
  - destruct (decide (k = key)) as [->|].
    + unfold ReserveDelete in *. rewrite Hc in Hc' |- *.
      destruct (PendingDelete entry); [|destruct (decide (uid <> "" /\ _))]; cbn in *;
        [rewrite decide_False by naive_solver; apply Hid; congruence..|].
      rewrite decide_True by done. simplify_map_eq. done.
    + autorewrite with kr in Hc'. case_decide; [naive_solver|]. apply Hid. congruence.
  - apply Hid. destruct (decide (k = key)) as [->|]; [|autorewrite with kr in Hc'; congruence].
    unfold UnclaimDelete in Hc'. rewrite Hc in Hc'. case_decide; simplify_map_eq; done.
  - apply Hid. destruct (decide (k = key)) as [->|]; [|autorewrite with kr in Hc'; congruence].
    unfold StoreIfAbsent in Hc'. rewrite Hc in Hc'. congruence.
  - apply Hid. rewrite lookup_DeletePrefix in Hc'. case_match; congruence.
Qed.

Lemma evolves_version key c n c' entry :
  evolves key c n c' -> c !! key = Some entry -> u64_range (Version entry) ->
  exists entry', c' !! key = Some entry' /\
    Version entry' = ((Version entry + n) mod u64_modulus)%Z.
Proof.
  intros Hev Hc Hr. induction Hev as [|n c' op Hev IH [e2 He2]].
  - exists entry. split; [done|]. rewrite Z.add_0_r, Z.mod_small; [done|exact Hr].
  - destruct IH as (e1 & He1 & Hv1). exists e2. split; [done|].
    assert (u64_range (Version e1)) as Hr1.
    { rewrite Hv1. apply Z.mod_pos_bound. unfold u64_modulus. lia. }
    rewrite (apply_op_version _ _ _ _ _ He1 He2 Hr1), Hv1.
    rewrite Zplus_mod_idemp_l. f_equal. lia.
Qed.

Lemma version_moved v n :
  u64_range v -> (0 < n < u64_modulus)%Z -> ((v + n) mod u64_modulus)%Z <> v.
Proof.
  intros Hv Hn E. unfold u64_range in Hv.
  destruct (decide (v + n < u64_modulus)%Z).
  - rewrite Z.mod_small in E; lia.
  - replace (v + n)%Z with ((v + n - u64_modulus) + 1 * u64_modulus)%Z in E by lia.
    rewrite Z_mod_plus_full, Z.mod_small in E; lia.
Qed.

(** Every operation that does not end the claim leaves a claimed entry as it is. *)
Lemma claimed_entry_stable key v op c entry :
  c !! key = Some entry -> PendingDelete entry = true -> Version entry = v ->
  ends_claim key v op = false -> apply_op op c !! key = Some entry.
Proof.
  intros Hc Hp Hv He.
  destruct op as [k e|k v'|k v'|k uid|k v'|k e|p]; cbn [apply_op ends_claim] in *;
    try (destruct (decide (k = key)) as [->|Hne]; [|by autorewrite with kr]).
  - by rewrite bool_decide_true in He.
  - unfold CommitIfCurrent. rewrite Hc, decide_False; [done|].
    intros ?. rewrite bool_decide_true in He; naive_solver.
  - unfold DeleteIfCurrent. rewrite Hc, decide_False; [done|].
    intros ?. rewrite bool_decide_true in He; naive_solver.
  - unfold ReserveDelete. rewrite Hc, Hp. done.
  - unfold UnclaimDelete. rewrite Hc, decide_False; [done|].
    intros ?. rewrite bool_decide_true in He; naive_solver.
  - unfold StoreIfAbsent. by rewrite Hc.
  - by rewrite lookup_DeletePrefix, He.
Qed.

Lemma claimed_entry_stable_ops key v ops c entry :
  c !! key = Some entry -> PendingDelete entry = true -> Version entry = v ->
  Forall (fun op => ends_claim key v op = false) ops ->
  foldl (fun c op => apply_op op c) c ops !! key = Some entry.
Proof.
  intros Hc Hp Hv. revert c Hc. induction ops as [|op ops IH]; intros c Hc Hops; [done|].
  inversion_clear Hops. simpl. apply IH; [|done]. by eapply claimed_entry_stable.
Qed.

Lemma decode_compress `{ZstdCodec, !ZstdLaws} raw e :
  is_Some zstdDecoder ->
  JSON e = Some (compressBaseline raw).1.1 -> Encoding e = (compressBaseline raw).1.2 ->
  decodeBaseline e = Ok (Some raw).
Proof.
  intros [decode Hd] HJ HE. unfold decodeBaseline. rewrite HJ, HE.
  unfold compressBaseline. destruct zstdEncoder as [encode|] eqn:Henc; [|done].
  case_decide as Hne; [done|]. simpl.
  rewrite (zstd_frame encode raw Henc Hne), Hd. simpl.
  by rewrite (zstd_roundtrip encode decode raw Henc Hd Hne).
Qed.

(** ** Properties *)

(** Whatever cache calls interleave after a write reserved version [v] for a
    key, as long as the key is never removed and between 1 and 2^64 - 1 newer
    versions were assigned, the late settlement of [v] changes nothing: its
    commit and its delete are refused and its unclaim is a no-op. *)
Theorem stale_settlement_inert key c n c' entry v e :
  c !! key = Some entry -> Version entry = v -> u64_range v ->
  evolves key c n c' -> (0 < n < u64_modulus)%Z ->
  CommitIfCurrent key v e c' = (false, c') /\
  DeleteIfCurrent key v c' = (false, c') /\
  UnclaimDelete key v c' = c'.
Proof.
  intros Hc <- Hr Hev Hn.
  destruct (evolves_version _ _ _ _ _ Hev Hc Hr) as (entry' & Hc' & Hv').
  eapply stale_commit_inert; [exact Hc'|]. rewrite Hv'. by apply version_moved.
Qed.

Definition sample_entry (uid hash : string) : CacheEntry :=
  mkCacheEntry hash None encodingRaw uid "v1" 0 1 false.

Lemma stale_settlement_inert_witness :
  let c := {["k" := sample_entry "u1" "h1"]} in
  let c' := apply_op (OpReserve "k" (sample_entry "u1" "h2")) c in
  CommitIfCurrent "k" 1 (sample_entry "u1" "h1") c' = (false, c').
Proof.
  intros c c'.
  refine (proj1 (stale_settlement_inert "k" c (0 + bumps "k" (OpReserve "k" (sample_entry "u1" "h2")) c)
            c' (sample_entry "u1" "h1") 1 (sample_entry "u1" "h1") _ _ _ _ _)).
  - reflexivity.
  - reflexivity.
  - split; vm_compute; congruence.
  - apply evolves_step; [apply evolves_refl|]; eexists; reflexivity.
  - split; vm_compute; congruence.
Defined.

(** a delete claim is exclusive. Once [ReserveDelete] has claimed a key, no
    interleaving of cache calls short of a newer reservation, the settlement of
    the claim's own version or an eviction lets anybody claim it again: every
    further [ReserveDelete], whatever UID it expects, reports in-flight. *)
Theorem claim_is_exclusive key uid c ops uid' :
  cl_outcome (ReserveDelete key uid c).1 = deleteClaimed ->
  let v := cl_version (ReserveDelete key uid c).1 in
  let c' := foldl (fun c op => apply_op op c) (ReserveDelete key uid c).2 ops in
  Forall (fun op => ends_claim key v op = false) ops ->
  ReserveDelete key uid' c' = (refused deleteClaimInFlight, c').
Proof.
  unfold ReserveDelete at 1 2 3. destruct (c !! key) as [cur|] eqn:Hc; [|done].
  destruct (PendingDelete cur) eqn:Hp; [done|]. case_decide; [done|]. intros _. cbn.
  intros Hops. unfold ReserveDelete at 1.
  erewrite claimed_entry_stable_ops; [|apply lookup_insert_eq|done|done|exact Hops].
  done.
Qed.

Lemma claim_is_exclusive_witness :
  let c := {["k" := sample_entry "u1" "h1"]} in
  let c' := apply_op (OpUnclaim "k" 1) (ReserveDelete "k" "u1" c).2 in
  ReserveDelete "k" "" c' = (refused deleteClaimInFlight, c').
Proof.
  intros c c'.
  refine (claim_is_exclusive "k" "u1" c [OpUnclaim "k" 1] "" _ _).
  - reflexivity.
  - repeat constructor.
Defined.

(** The delete claim on every branch. It succeeds exactly on a present,
    unclaimed entry whose UID the caller does not contradict, hands back that
    entry, bumps its version and flags it; any refusal returns the zero entry
    and leaves the cache alone; the reason is absent, in-flight or UID mismatch
    in that order of precedence. *)
Theorem reserve_delete_spec key uid c :
  let '(cl, c') := ReserveDelete key uid c in
  match cl_outcome cl with
  | deleteClaimed => exists cur, c !! key = Some cur /\ PendingDelete cur = false /\
      (uid = "" \/ UID cur = uid) /\ cl_entry cl = cur /\
      cl_version cl = u64_succ (Version cur) /\ cl_version cl <> Version cur /\
      c' = <[key := with_PendingDelete true (with_Version (cl_version cl) cur)]> c
  | deleteClaimAbsent => c !! key = None /\ cl = refused deleteClaimAbsent /\ c' = c
  | deleteClaimInFlight => cl = refused deleteClaimInFlight /\ c' = c /\
      exists cur, c !! key = Some cur /\ PendingDelete cur = true
  | deleteClaimUIDMismatch => cl = refused deleteClaimUIDMismatch /\ c' = c /\
      exists cur, c !! key = Some cur /\ PendingDelete cur = false /\
        uid <> "" /\ UID cur <> uid
  end.
Proof.
  unfold ReserveDelete. destruct (c !! key) as [cur|] eqn:Hc; [|done].
  destruct (PendingDelete cur) eqn:Hp; [by cbn; eauto|].
  destruct (decide (uid <> "" /\ UID cur <> uid)) as [[??]|Hn]; [by cbn; eauto 10|].
  cbn. exists cur. split_and!; try done.
  - destruct (decide (uid = "")), (decide (UID cur = uid)); auto. destruct Hn; auto.
  - cbn. auto with kr.
Qed.

(** Removing an entry forgets its version, so versions are only comparable
    between removals. For any key with no entry: reserve a write, claim and
    settle its deletion, then reserve a newer write. The newer write is given the
    version of the first one, and the first write's late commit is accepted,
    replacing the newer entry with the older one. *)
Theorem version_reused_after_removal key c older newer :
  c !! key = None ->
  let '(v1, c1) := Reserve key older c in
  let '(cl, c2) := ReserveDelete key "" c1 in
  let '(_, c3) := DeleteIfCurrent key (cl_version cl) c2 in
  let '(v4, c4) := Reserve key newer c3 in
  let '(applied, c5) := CommitIfCurrent key v1 older c4 in
  PendingDelete older = false ->
  v4 = v1 /\ applied = true /\ Load key c5 = Some (with_Version v1 older).
Proof.
  intros Hc. unfold Reserve, currentVersion. rewrite Hc.
  unfold ReserveDelete. rewrite lookup_insert_eq. cbn.
  destruct (PendingDelete older) eqn:Hp; cbn.
  - split_cases.
  - rewrite decide_False by (by intros [? _]). unfold DeleteIfCurrent. cbn.
    rewrite lookup_insert_eq, decide_True by done.
    rewrite lookup_delete_eq. unfold CommitIfCurrent.
    rewrite lookup_insert_eq, decide_True by done.
    intros _. split_and!; [done..|]. unfold Load. by rewrite lookup_insert_eq.
Qed.

Lemma version_reused_after_removal_witness :
  let '(v1, c1) := Reserve "k" (sample_entry "u1" "h1") ∅ in
  let '(cl, c2) := ReserveDelete "k" "" c1 in
  let '(_, c3) := DeleteIfCurrent "k" (cl_version cl) c2 in
  let '(v4, c4) := Reserve "k" (sample_entry "u2" "h2") c3 in
  let '(applied, c5) := CommitIfCurrent "k" v1 (sample_entry "u1" "h1") c4 in
  v4 = v1 /\ applied = true /\ Load "k" c5 = Some (with_Version v1 (sample_entry "u1" "h1")).
Proof.
  exact (version_reused_after_removal "k" ∅ (sample_entry "u1" "h1") (sample_entry "u2" "h2")
           eq_refl eq_refl).
Defined.

(** Scope eviction is exact. Dropping the prefix of a watch scope removes the
    baselines of the objects the scope covers - in every namespace for an
    all-namespaces scope - and leaves every other well-formed identity's entry
    untouched; the returned count is the number of entries that went. *)
Theorem scope_eviction_exact s c k :
  wf_ScopeKey s -> wf_Key k ->
  let '(removed, c') := DeletePrefix (scopeKeyPrefix s) c in
  c' !! cacheKey k = (if decide (in_scope s k) then None else c !! cacheKey k) /\
  removed + Len c' = Len c.
Proof.
  intros Hs Hk. destruct (DeletePrefix _ _) as [removed c'] eqn:E.
  assert (c' = (DeletePrefix (scopeKeyPrefix s) c).2) as -> by (by rewrite E).
  split.
  - rewrite lookup_DeletePrefix. case_decide as Hin.
    + by apply cacheKey_prefix_iff in Hin as ->.
    + destruct (has_prefix _ _) eqn:Hp; [|done].
      apply cacheKey_prefix_iff in Hp; done.
  - unfold DeletePrefix in *. simplify_eq/=. unfold Len.
    pose proof (map_size_filter (fun kv => has_prefix kv.1 (scopeKeyPrefix s) = false) c). lia.
Qed.

Lemma scope_eviction_exact_witness :
  let k ns := mkKey (mkID "S3Sink" "a") "apps" "Deployment" ns "web" in
  let s := mkScopeKey "apps" "Deployment" "foo" in
  let c := <[cacheKey (k "foo") := sample_entry "u" "h"]>
             {[cacheKey (k "foobar") := sample_entry "u" "h"]} in
  (DeletePrefix (scopeKeyPrefix s) c).2 !! cacheKey (k "foo") = None /\
  (DeletePrefix (scopeKeyPrefix s) c).2 !! cacheKey (k "foobar") = Some (sample_entry "u" "h").
Proof.
  intros k s c. split.
  - exact (proj1 (scope_eviction_exact s c (k "foo") (conj (conj eq_refl eq_refl) eq_refl) (conj (conj eq_refl eq_refl) eq_refl))).
  - exact (proj1 (scope_eviction_exact s c (k "foobar") (conj (conj eq_refl eq_refl) eq_refl) (conj (conj eq_refl eq_refl) eq_refl))).
Defined.
