(* ===== verification/Plan.v ===== *)
(** * Plan: the desired-state registry

    Models [src/internal/plan/registry.go]: rules in, merged reference-counted
    watch targets out. Go's [map[K]struct{}] is a [gset], a counting map a
    [gmap string Z]; ranging over a map visits its elements in an unspecified
    order, for which [elements] stands. The capacity-1 change channel is the flag
    [rg_changes]. The label-selector parser of apimachinery is the class
    [Selectors]. *)

From S2P Require Import Prelude Identity.

(** ** Targets *)

Record GroupVersionKind := mkGVK { gvk_Group : string; gvk_Version : string; gvk_Kind : string }.

#[export] Instance GVK_eq_dec : EqDecision GroupVersionKind.
Proof. solve_decision. Defined.
#[export] Instance GVK_countable : Countable GroupVersionKind.
Proof.
  apply (inj_countable' (fun g => (gvk_Group g, gvk_Version g, gvk_Kind g))
           (fun p => mkGVK p.1.1 p.1.2 p.2)). by intros [].
Defined.

Record WatchTarget := mkWatchTarget {
  wt_Sink : ID;
  wt_GVK : GroupVersionKind;
  wt_Namespace : string;
  wt_Selector : string;
  wt_Redaction : string;
  wt_EventFilter : string;
}.

#[export] Instance WatchTarget_eq_dec : EqDecision WatchTarget.
Proof. solve_decision. Defined.
#[export] Instance WatchTarget_countable : Countable WatchTarget.
Proof.
  apply (inj_countable'
           (fun t => (wt_Sink t, wt_GVK t, wt_Namespace t, wt_Selector t, wt_Redaction t, wt_EventFilter t))
           (fun p => mkWatchTarget p.1.1.1.1.1 p.1.1.1.1.2 p.1.1.1.2 p.1.1.2 p.1.2 p.2)). by intros [].
Defined.

Record TargetKey := mkTargetKey {
  tk_Sink : ID;
  tk_GVK : GroupVersionKind;
  tk_Namespace : string;
}.

#[export] Instance TargetKey_eq_dec : EqDecision TargetKey.
Proof. solve_decision. Defined.
#[export] Instance TargetKey_countable : Countable TargetKey.
Proof.
  apply (inj_countable' (fun k => (tk_Sink k, tk_GVK k, tk_Namespace k))
           (fun p => mkTargetKey p.1.1 p.1.2 p.2)). by intros [].
Defined.

Definition WatchTarget_Key (t : WatchTarget) : TargetKey :=
  mkTargetKey (wt_Sink t) (wt_GVK t) (wt_Namespace t).

Record TargetState := mkTargetState {
  ts_Key : TargetKey;
  ts_RuleKeys : list string;
  ts_Selectors : list string;
  ts_Redactions : list string;
  ts_EventFilters : list string;
}.

(** ** Selectors *)

Class Selectors := {
  (** [metav1.LabelSelector]. *)
  LabelSelector : Type;
  (** [labels.Parse(s)] followed by [String()]. *)
  parse_selector : string -> result string string;
  (** [metav1.LabelSelectorAsSelector(ls)] followed by [String()]. *)
  as_selector : LabelSelector -> result string string;
}.

Definition CanonicalSelector `{Selectors} (ls : option LabelSelector) : result string string :=
  match ls with
  | None => Ok ""
  | Some ls =>
      match as_selector ls with
      | Err e => Err ("canonicalize label selector: " +:+ e)
      | Ok s => Ok s
      end
  end.

Definition canonicalizeSelectorString `{Selectors} (s : string) : result string string :=
  if decide (s = "") then Ok "" else parse_selector s.

(** ** The registry *)

Record targetEntry := mkTargetEntry {
  te_rules : gmap string Z;
  te_selectors : gmap string Z;
  te_redactions : gmap string Z;
  te_eventFilters : gmap string Z;
}.

Definition targetEntry_new : targetEntry := mkTargetEntry ∅ ∅ ∅ ∅.

Record Registry := mkRegistry {
  rg_rules : gmap string (gset WatchTarget);
  rg_targets : gmap TargetKey targetEntry;
  rg_changes : bool;
}.

Definition New : Registry := mkRegistry ∅ ∅ false.

(** [m[k]++], a missing key reading as zero. *)
Definition incr (k : string) (m : gmap string Z) : gmap string Z :=
  <[k := (default 0 (m !! k) + 1)%Z]> m.

(** [if m[k]--; m[k] <= 0 { delete(m, k) }]. *)
Definition decr (k : string) (m : gmap string Z) : gmap string Z :=
  let n := (default 0 (m !! k) - 1)%Z in
  if decide (n <= 0)%Z then delete k m else <[k := n]> m.

Definition addRefLocked (ruleKey : string) (t : WatchTarget) (targets : gmap TargetKey targetEntry)
    : gmap TargetKey targetEntry :=
  let key := WatchTarget_Key t in
  let entry := default targetEntry_new (targets !! key) in
  <[key := mkTargetEntry (incr ruleKey (te_rules entry)) (incr (wt_Selector t) (te_selectors entry))
             (if decide (wt_Redaction t <> "") then incr (wt_Redaction t) (te_redactions entry)
              else te_redactions entry)
             (incr (wt_EventFilter t) (te_eventFilters entry))]> targets.

Definition dropRefLocked (ruleKey : string) (t : WatchTarget) (targets : gmap TargetKey targetEntry)
    : gmap TargetKey targetEntry :=
  let key := WatchTarget_Key t in
  match targets !! key with
  | None => targets
  | Some entry =>
      let entry' := mkTargetEntry (decr ruleKey (te_rules entry)) (decr (wt_Selector t) (te_selectors entry))
             (if decide (wt_Redaction t <> "") then decr (wt_Redaction t) (te_redactions entry)
              else te_redactions entry)
             (decr (wt_EventFilter t) (te_eventFilters entry)) in
      if decide (size (te_rules entry') = 0) then delete key targets else <[key := entry']> targets
  end.

(** A non-blocking send on the capacity-1 channel. *)
Definition notifyLocked (r : Registry) : Registry := mkRegistry (rg_rules r) (rg_targets r) true.

(** The canonicalized argument, as a set. *)
Fixpoint desired_targets `{Selectors} (targets : list WatchTarget) : result string (gset WatchTarget) :=
  match targets with
  | [] => Ok ∅
  | t :: rest =>
      match canonicalizeSelectorString (wt_Selector t) with
      | Err e => Err e
      | Ok sel =>
          match desired_targets rest with
          | Err e => Err e
          | Ok desired =>
              Ok ({[mkWatchTarget (wt_Sink t) (wt_GVK t) (wt_Namespace t) sel (wt_Redaction t)
                      (wt_EventFilter t)]} ∪ desired)
          end
      end
  end.

(** A loop body that applies [f] to the targets not in [skip], noting a change. *)
Definition apply_missing (f : WatchTarget -> gmap TargetKey targetEntry -> gmap TargetKey targetEntry)
    (skip : gset WatchTarget) (acc : gmap TargetKey targetEntry * bool) (t : WatchTarget)
    : gmap TargetKey targetEntry * bool :=
  if decide (t ∈ skip) then acc else (f t acc.1, true).

Definition Upsert `{Selectors} (ruleKey : string) (targets : list WatchTarget) (r : Registry)
    : result string Registry :=
  match desired_targets targets with
  | Err e => Err e
  | Ok desired =>
      let current := default ∅ (rg_rules r !! ruleKey) in
      let added := foldl (apply_missing (addRefLocked ruleKey) current) (rg_targets r, false) (elements desired) in
      let '(targets', changed) :=
        foldl (apply_missing (dropRefLocked ruleKey) desired) added (elements current) in
      let rules' := if decide (size desired = 0) then delete ruleKey (rg_rules r)
                    else <[ruleKey := desired]> (rg_rules r) in
      let r' := mkRegistry rules' targets' (rg_changes r) in
      Ok (if (changed : bool) then notifyLocked r' else r')
  end.

Definition Remove (ruleKey : string) (r : Registry) : Registry :=
  match rg_rules r !! ruleKey with
  | None => r
  | Some current =>
      notifyLocked (mkRegistry (delete ruleKey (rg_rules r))
        (foldl (fun targets t => dropRefLocked ruleKey t targets) (rg_targets r) (elements current))
        (rg_changes r))
  end.

Definition Snapshot (r : Registry) : gmap TargetKey TargetState :=
  map_imap (fun key entry => Some (mkTargetState key (sorted_keys (te_rules entry))
    (sorted_keys (te_selectors entry)) (sorted_keys (te_redactions entry))
    (sorted_keys (te_eventFilters entry)))) (rg_targets r).

Definition sorted_set (s : gset string) : list string := merge_sort String.le (elements s).

Definition RulesForSink (id : ID) (r : Registry) : list string :=
  sorted_set (map_fold (fun key entry rules =>
    if decide (tk_Sink key = id) then dom (te_rules entry) ∪ rules else rules) ∅ (rg_targets r)).

Definition TargetCountForRule (ruleKey : string) (r : Registry) : nat :=
  size (set_map WatchTarget_Key (default ∅ (rg_rules r !! ruleKey)) : gset TargetKey).

(** ** Reference counts as cardinalities *)

Section tally.
Context {A : Type} `{Countable A}.

(** [tally f S m]: [m] counts, per value of [f], the elements of [S] mapped to it. *)
Definition tally (f : A -> string) (S : gset A) (m : gmap string Z) : Prop :=
  forall k, m !! k = match size (filter (fun x => f x = k) S) with
                     | 0 => None
                     | n => Some (Z.of_nat n)
                     end.

Lemma size_filter_add (P : A -> Prop) `{!forall x, Decision (P x)} x (S : gset A) :
  x ∉ S -> size (filter P ({[x]} ∪ S)) = (if decide (P x) then 1 else 0) + size (filter P S).
Proof.
  intros Hx. rewrite (filter_union_L P ({[x]} : gset A) S). case_decide as Hp.
  - rewrite (filter_singleton_True_L P x Hp), size_union, size_singleton; [done|].
    apply disjoint_singleton_l. rewrite elem_of_filter. tauto.
  - rewrite (filter_singleton_False_L P x Hp). by rewrite union_empty_l_L.
Qed.

Lemma filter_none (P : A -> Prop) `{!forall x, Decision (P x)} : filter P (∅ : gset A) = ∅.
Proof. set_solver. Qed.

Lemma filter_add (P : A -> Prop) `{!forall x, Decision (P x)} x (C : gset A) :
  filter P ({[x]} ∪ C) = if decide (P x) then {[x]} ∪ filter P C else filter P C.
Proof.
  apply set_eq. intros y. destruct (decide (P x));
    rewrite ?elem_of_union, !elem_of_filter, elem_of_union, elem_of_singleton; naive_solver.
Qed.

Lemma filter_drop (P : A -> Prop) `{!forall x, Decision (P x)} x (C : gset A) :
  filter P (C ∖ {[x]}) = filter P C ∖ {[x]}.
Proof.
  apply set_eq. intros y. rewrite elem_of_difference, !elem_of_filter, elem_of_difference. tauto.
Qed.

Lemma filter_drop_out (P : A -> Prop) `{!forall x, Decision (P x)} x (C : gset A) :
  ~ P x -> filter P C ∖ {[x]} = filter P C.
Proof.
  intros Hx. apply set_eq. intros y.
  rewrite elem_of_difference, elem_of_filter, elem_of_singleton. naive_solver.
Qed.

Lemma tally_empty f : tally f ∅ ∅.
Proof. intros k. by rewrite filter_none. Qed.

Lemma tally_add f S m x : x ∉ S -> tally f S m -> tally f ({[x]} ∪ S) (incr (f x) m).
Proof.
  intros Hx Ht k. rewrite size_filter_add by done. unfold incr. rewrite lookup_insert, (Ht (f x)).
  destruct (decide (f x = k)) as [<-|Hne].
  - destruct (size _); simpl; f_equal; lia.
  - apply Ht.
Qed.

Lemma tally_drop f S m x : x ∈ S -> tally f S m -> tally f (S ∖ {[x]}) (decr (f x) m).
Proof.
  intros Hx Ht. rewrite (union_difference_singleton_L x S Hx) in Ht.
  set (S' := S ∖ {[x]}) in *. assert (x ∉ S') by set_solver. intros k.
  unfold decr. pose proof (Ht (f x)) as Hfx. rewrite size_filter_add, decide_True in Hfx by done.
  rewrite Hfx. simpl. specialize (Ht k). rewrite size_filter_add in Ht by done.
  destruct (decide (f x = k)) as [<-|Hne].
  - destruct (size (filter _ S')) as [|n]; case_decide; try lia.
    + apply lookup_delete_eq.
    + rewrite lookup_insert_eq. f_equal. lia.
  - case_decide; [rewrite lookup_delete_ne by done|rewrite lookup_insert_ne by done]; exact Ht.
Qed.

Lemma tally_lookup f S m k : tally f S m -> is_Some (m !! k) <-> exists x, x ∈ S /\ f x = k.
Proof.
  intros Ht. rewrite Ht. destruct (size (filter (fun x => f x = k) S)) eqn:Es.
  - apply size_empty_inv in Es. split; [by intros []|]. intros (x & Hx & Hf).
    assert (x ∈ filter (fun x => f x = k) S) as Hin by (apply elem_of_filter; done). set_solver.
  - split; [intros _|by eexists].
    destruct (size_pos_elem_of (filter (fun x => f x = k) S)) as [x Hx]; [lia|].
    apply elem_of_filter in Hx as [??]. eauto.
Qed.

Lemma tally_size_0 f S m : tally f S m -> size m = 0 <-> S = ∅.
Proof.
  intros Ht. rewrite map_size_empty_iff. split.
  - intros ->. apply set_eq. intros x. split; [|set_solver]. intros Hx.
    destruct (proj2 (tally_lookup f S ∅ (f x) Ht)) as [? Hn]; [eauto|]. by rewrite lookup_empty in Hn.
  - intros ->. apply map_eq. intros k. by rewrite Ht, filter_none, lookup_empty.
Qed.
End tally.

(** ** The abstract registry: a set of contributions *)

(** [(r, t)]: rule [r] asks for target [t]. *)
Abbreviation contributions := (gset (string * WatchTarget)).

Definition contribs_at (key : TargetKey) (C : contributions) : contributions :=
  filter (fun x => WatchTarget_Key x.2 = key) C.

Definition with_redaction (C : contributions) : contributions :=
  filter (fun x => wt_Redaction x.2 <> "") C.

(** What the bookkeeping of one target must be, given the contributions to it. *)
Definition counts (C : contributions) (entry : targetEntry) : Prop :=
  tally fst C (te_rules entry) /\
  tally (fun x => wt_Selector x.2) C (te_selectors entry) /\
  tally (fun x => wt_Redaction x.2) (with_redaction C) (te_redactions entry) /\
  tally (fun x => wt_EventFilter x.2) C (te_eventFilters entry).

Definition merged (C : contributions) (targets : gmap TargetKey targetEntry) : Prop :=
  forall key, match targets !! key with
              | None => contribs_at key C = ∅
              | Some entry => contribs_at key C <> ∅ /\ counts (contribs_at key C) entry
              end.

Lemma contribs_at_add key x C :
  contribs_at key ({[x]} ∪ C) =
  if decide (WatchTarget_Key x.2 = key) then {[x]} ∪ contribs_at key C else contribs_at key C.
Proof. unfold contribs_at. by rewrite (filter_add (fun y => WatchTarget_Key y.2 = key) x C). Qed.

Lemma contribs_at_drop key x C :
  contribs_at key (C ∖ {[x]}) = contribs_at key C ∖ {[x]}.
Proof. apply filter_drop. Qed.

Lemma with_redaction_add x C :
  with_redaction ({[x]} ∪ C) =
  if decide (wt_Redaction x.2 <> "") then {[x]} ∪ with_redaction C else with_redaction C.
Proof. unfold with_redaction. by rewrite (filter_add (fun y => wt_Redaction y.2 <> "") x C). Qed.

Lemma with_redaction_drop x C : with_redaction (C ∖ {[x]}) = with_redaction C ∖ {[x]}.
Proof. apply filter_drop. Qed.

Lemma counts_new : counts ∅ targetEntry_new.
Proof.
  assert (with_redaction ∅ = ∅) as E by apply filter_none.
  split_and!; simpl; rewrite ?E; apply tally_empty.
Qed.

Lemma merged_add ruleKey t C targets :
  (ruleKey, t) ∉ C -> merged C targets ->
  merged ({[(ruleKey, t)]} ∪ C) (addRefLocked ruleKey t targets).
Proof.
  intros Hn Hm key. unfold addRefLocked. rewrite lookup_insert, contribs_at_add. simpl.
  case_decide as Hk; [|apply Hm]. split; [set_solver|].
  specialize (Hm key). rewrite Hk.
  assert (Hc : counts (contribs_at key C) (default targetEntry_new (targets !! key))).
  { destruct (targets !! key); [apply Hm|]. rewrite Hm. apply counts_new. }
  assert (Hn' : (ruleKey, t) ∉ contribs_at key C) by (intros [_ ?]%elem_of_filter; done).
  destruct Hc as (H1 & H2 & H3 & H4). split_and!; simpl; rewrite ?with_redaction_add.
  - by apply (tally_add fst _ _ (ruleKey, t)).
  - by apply (tally_add (fun x => wt_Selector x.2) _ _ (ruleKey, t)).
  - simpl. case_decide; [|done]. apply (tally_add (fun x => wt_Redaction x.2) _ _ (ruleKey, t)); [|done].
    by intros [_ ?]%elem_of_filter.
  - by apply (tally_add (fun x => wt_EventFilter x.2) _ _ (ruleKey, t)).
Qed.

Lemma merged_drop ruleKey t C targets :
  (ruleKey, t) ∈ C -> merged C targets ->
  merged (C ∖ {[(ruleKey, t)]}) (dropRefLocked ruleKey t targets).
Proof.
  intros Hin Hm.
  assert (Hin' : (ruleKey, t) ∈ contribs_at (WatchTarget_Key t) C)
    by (apply elem_of_filter; done).
  unfold dropRefLocked. pose proof (Hm (WatchTarget_Key t)) as Hk.
  destruct (targets !! WatchTarget_Key t) as [entry|] eqn:Et; [|rewrite Hk in Hin'; by apply elem_of_empty in Hin'].
  destruct Hk as [_ (H1 & H2 & H3 & H4)]. set (entry' := mkTargetEntry _ _ _ _).
  assert (Hc : counts (contribs_at (WatchTarget_Key t) C ∖ {[(ruleKey, t)]}) entry').
  { split_and!; simpl; rewrite ?with_redaction_drop.
    - by apply (tally_drop fst _ _ (ruleKey, t)).
    - by apply (tally_drop (fun x => wt_Selector x.2) _ _ (ruleKey, t)).
    - case_decide as Hr.
      + apply (tally_drop (fun x => wt_Redaction x.2) _ _ (ruleKey, t)); [|done].
        by apply elem_of_filter.
      + assert (with_redaction (contribs_at (WatchTarget_Key t) C) ∖ {[(ruleKey, t)]} =
                with_redaction (contribs_at (WatchTarget_Key t) C)) as ->; [|done].
        unfold with_redaction. rewrite filter_drop_out; [done|by intros Hx; apply Hx].
    - by apply (tally_drop (fun x => wt_EventFilter x.2) _ _ (ruleKey, t)). }
  pose proof (tally_size_0 _ _ _ (proj1 Hc)) as Hz.
  intros key. rewrite contribs_at_drop.
  destruct (decide (key = WatchTarget_Key t)) as [->|Hne].
  - case_decide as Hs; [rewrite lookup_delete_eq|rewrite lookup_insert_eq]; [by apply Hz|].
    split; [|done]. by rewrite <-Hz.
  - assert (contribs_at key C ∖ {[(ruleKey, t)]} = contribs_at key C) as ->
      by (apply filter_drop_out; naive_solver).
    case_decide; [rewrite lookup_delete_ne by done|rewrite lookup_insert_ne by done]; apply Hm.
Qed.

(** The contributions of the rules map. *)
Definition contributed (rules : gmap string (gset WatchTarget)) (C : contributions) : Prop :=
  forall r t, (r, t) ∈ C <-> t ∈ default ∅ (rules !! r).

(** The registry's invariant: the merged view is the merge of the rules. *)
Definition consistent (r : Registry) : Prop :=
  map_Forall (fun _ targets => targets <> ∅) (rg_rules r) /\
  exists C, contributed (rg_rules r) C /\ merged C (rg_targets r).

(** ** The two loops of an upsert *)

Lemma loop_changed f skip ts acc :
  (foldl (apply_missing f skip) acc ts).2 = true <->
  acc.2 = true \/ exists t, t ∈ ts /\ t ∉ skip.
Proof.
  revert acc. induction ts as [|t ts IH]; intros acc; simpl.
  - setoid_rewrite elem_of_nil. naive_solver.
  - rewrite IH. unfold apply_missing. setoid_rewrite elem_of_cons. case_decide; naive_solver.
Qed.

Lemma add_loop ruleKey skip ts acc C :
  NoDup ts -> (forall t, t ∈ ts -> t ∉ skip -> (ruleKey, t) ∉ C) -> merged C acc.1 ->
  exists C', merged C' (foldl (apply_missing (addRefLocked ruleKey) skip) acc ts).1 /\
    forall x, x ∈ C' <-> x ∈ C \/ exists t, t ∈ ts /\ (t ∉ skip) /\ x = (ruleKey, t).
Proof.
  intros Hnd. revert acc C. induction Hnd as [|t ts Ht Hnd IH]; intros acc C Hfresh Hm; simpl.
  - exists C. split; [done|]. setoid_rewrite elem_of_nil. naive_solver.
  - unfold apply_missing at 2. setoid_rewrite elem_of_cons. case_decide as Hs.
    + destruct (IH acc C) as (C' & Hm' & Hin'); [set_solver|done|].
      exists C'. split; [done|]. intros x. rewrite Hin'. naive_solver.
    + destruct (IH (addRefLocked ruleKey t acc.1, true) ({[(ruleKey, t)]} ∪ C)) as (C' & Hm' & Hin').
      * intros u Hu Hsu. rewrite elem_of_union, elem_of_singleton.
        intros [[= ->]|Hc]; [done|]. eapply Hfresh; [by right|done|done].
      * apply merged_add; [|done]. apply Hfresh; [by left|done].
      * exists C'. split; [done|]. intros x. rewrite Hin', elem_of_union, elem_of_singleton. naive_solver.
Qed.

Lemma drop_loop ruleKey skip ts acc C :
  NoDup ts -> (forall t, t ∈ ts -> t ∉ skip -> (ruleKey, t) ∈ C) -> merged C acc.1 ->
  exists C', merged C' (foldl (apply_missing (dropRefLocked ruleKey) skip) acc ts).1 /\
    forall x, x ∈ C' <-> x ∈ C /\ ~ (exists t, t ∈ ts /\ (t ∉ skip) /\ x = (ruleKey, t)).
Proof.
  intros Hnd. revert acc C. induction Hnd as [|t ts Ht Hnd IH]; intros acc C Hheld Hm; simpl.
  - exists C. split; [done|]. setoid_rewrite elem_of_nil. naive_solver.
  - unfold apply_missing at 2. setoid_rewrite elem_of_cons. case_decide as Hs.
    + destruct (IH acc C) as (C' & Hm' & Hin'); [set_solver|done|].
      exists C'. split; [done|]. intros x. rewrite Hin'. naive_solver.
    + destruct (IH (dropRefLocked ruleKey t acc.1, true) (C ∖ {[(ruleKey, t)]})) as (C' & Hm' & Hin').
      * intros u Hu Hsu. rewrite elem_of_difference, elem_of_singleton.
        split; [apply Hheld; [by right|done]|]. intros [= ->]. done.
      * apply merged_drop; [|done]. apply Hheld; [by left|done].
      * exists C'. split; [done|]. intros x. rewrite Hin', elem_of_difference, elem_of_singleton. naive_solver.
Qed.

Lemma remove_loop ruleKey ts targets :
  foldl (fun targets t => dropRefLocked ruleKey t targets) targets ts =
  (foldl (apply_missing (dropRefLocked ruleKey) ∅) (targets, false) ts).1.
Proof.
  generalize false. revert targets. induction ts as [|t ts IH]; intros targets b; [done|]. simpl.
  rewrite (IH _ true). unfold apply_missing at 3. by rewrite decide_False by set_solver.
Qed.

Section registry.
Context `{Selectors}.

Lemma consistent_New : consistent New.
Proof.
  split; [apply map_Forall_empty|]. exists ∅. split; [|intros key; apply filter_none].
  intros r t. simpl. rewrite lookup_empty. simpl. set_solver.
Qed.

Lemma consistent_Upsert ruleKey targets r r' :
  consistent r -> Upsert ruleKey targets r = Ok r' ->
  exists desired, desired_targets targets = Ok desired /\ consistent r' /\
    (forall rule, default ∅ (rg_rules r' !! rule) =
       if decide (rule = ruleKey) then desired else default ∅ (rg_rules r !! rule)) /\
    (rg_changes r' = true <->
       rg_changes r = true \/ desired <> default ∅ (rg_rules r !! ruleKey)).
Proof.
  intros (Hne & C & HC & Hm). unfold Upsert. destruct (desired_targets targets) as [desired|]; [|done].
  set (current := default ∅ (rg_rules r !! ruleKey)).
  destruct (add_loop ruleKey current (elements desired) (rg_targets r, false) C) as (C1 & Hm1 & Hin1);
    [apply NoDup_elements|intros t _ Ht Hc; by apply Ht, HC|done|].
  set (added := foldl _ _ (elements desired)) in *.
  destruct (drop_loop ruleKey desired (elements current) added C1) as (C2 & Hm2 & Hin2);
    [apply NoDup_elements| |done|].
  { intros t Ht _. apply Hin1. left. apply HC. by apply elem_of_elements. }
  pose proof (loop_changed (dropRefLocked ruleKey) desired (elements current) added) as Hch.
  pose proof (loop_changed (addRefLocked ruleKey) current (elements desired) (rg_targets r, false)) as Hch1.
  fold added in Hch1. destruct (foldl _ added (elements current)) as [targets' changed]. simpl in *.
  set (rules' := if decide _ then _ else _).
  assert (Hrules : forall rule, default ∅ (rules' !! rule) =
            if decide (rule = ruleKey) then desired else default ∅ (rg_rules r !! rule)).
  { intros rule. unfold rules'. destruct (decide (size desired = 0)) as [Hz|Hz].
    - apply size_empty_inv in Hz. apply leibniz_equiv in Hz. case_decide as Hr.
      + subst rule. by rewrite lookup_delete_eq, Hz.
      + by rewrite lookup_delete_ne.
    - case_decide as Hr; [subst rule; by rewrite lookup_insert_eq|by rewrite lookup_insert_ne]. }
  assert (HC2 : contributed rules' C2).
  { intros rule t. rewrite Hrules, Hin2, Hin1, (HC rule t). setoid_rewrite elem_of_elements.
    case_decide as Hr; [subst rule; fold current|naive_solver].
    destruct (decide (t ∈ desired)), (decide (t ∈ current)); naive_solver. }
  assert (Heq : changed = true <-> desired <> current).
  { rewrite Hch, Hch1. setoid_rewrite elem_of_elements. split.
    - intros [[?|(t & ? & ?)]|(t & ? & ?)]; [done|set_solver..].
    - intros Hd. destruct (set_choose_or_empty (current ∖ desired)) as [[t Ht]|He1]; [set_solver|].
      destruct (set_choose_or_empty (desired ∖ current)) as [[t Ht]|He2]; [set_solver|].
      exfalso. apply Hd. apply set_eq. intros t. specialize (He1 t). specialize (He2 t).
      destruct (decide (t ∈ desired)), (decide (t ∈ current)); set_solver. }
  assert (Hne' : map_Forall (fun _ targets => targets <> ∅) rules').
  { unfold rules'. case_decide as Hz; [by apply map_Forall_delete|].
    apply map_Forall_insert_2; [|done]. intros ->. by rewrite size_empty in Hz. }
  intros [= <-]. exists desired. split; [done|]. destruct changed; simpl.
  - split; [split; [done|by exists C2]|]. split; [done|]. tauto.
  - split; [split; [done|by exists C2]|]. split; [done|]. intuition congruence.
Qed.

Lemma consistent_Remove ruleKey r :
  consistent r -> consistent (Remove ruleKey r) /\
  (forall rule, default ∅ (rg_rules (Remove ruleKey r) !! rule) =
     if decide (rule = ruleKey) then ∅ else default ∅ (rg_rules r !! rule)).
Proof.
  intros (Hne & C & HC & Hm). unfold Remove.
  destruct (rg_rules r !! ruleKey) as [current|] eqn:Ec; cycle 1.
  { split; [by split; eauto|]. intros rule. case_decide; [subst; by rewrite Ec|done]. }
  assert (Hrules : forall rule, default ∅ (delete ruleKey (rg_rules r) !! rule) =
            if decide (rule = ruleKey) then ∅ else default ∅ (rg_rules r !! rule)).
  { intros rule. case_decide; [subst; by rewrite lookup_delete_eq|by rewrite lookup_delete_ne]. }
  split; [|exact Hrules]. split; [by apply map_Forall_delete|]. simpl. rewrite remove_loop.
  destruct (drop_loop ruleKey ∅ (elements current) (rg_targets r, false) C) as (C2 & Hm2 & Hin2);
    [apply NoDup_elements| |done|].
  { intros t Ht _. apply HC. rewrite Ec. by apply elem_of_elements. }
  exists C2. split; [|done]. intros rule t. rewrite Hrules, Hin2, (HC rule t).
  setoid_rewrite elem_of_elements.
  case_decide as Hr; [subst rule; rewrite Ec; simpl; set_solver|naive_solver].
Qed.
End registry.

(** ** The specification: what each rule last asked for *)

Inductive registry_op :=
| OpUpsert (ruleKey : string) (targets : list WatchTarget)
| OpRemove (ruleKey : string).

(** A rejected upsert leaves the registry as it was. *)
Definition run_registry `{Selectors} (op : registry_op) (r : Registry) : Registry :=
  match op with
  | OpUpsert ruleKey targets => match Upsert ruleKey targets r with Ok r' => r' | Err _ => r end
  | OpRemove ruleKey => Remove ruleKey r
  end.

Definition spec_op `{Selectors} (op : registry_op) (asked : string -> gset WatchTarget)
    : string -> gset WatchTarget :=
  fun rule =>
    match op with
    | OpUpsert ruleKey targets =>
        match desired_targets targets with
        | Ok desired => if decide (rule = ruleKey) then desired else asked rule
        | Err _ => asked rule
        end
    | OpRemove ruleKey => if decide (rule = ruleKey) then ∅ else asked rule
    end.

Definition run_all `{Selectors} (ops : list registry_op) : Registry :=
  foldl (fun r op => run_registry op r) New ops.

Definition asked_after `{Selectors} (ops : list registry_op) : string -> gset WatchTarget :=
  foldl (fun asked op => spec_op op asked) (fun _ => ∅) ops.

Lemma run_all_consistent `{Selectors} ops :
  consistent (run_all ops) /\
  forall rule, default ∅ (rg_rules (run_all ops) !! rule) = asked_after ops rule.
Proof.
  unfold run_all, asked_after. induction ops as [|op ops [IH1 IH2]] using rev_ind.
  { split; [apply consistent_New|]. intros rule. simpl. by rewrite lookup_empty. }
  rewrite !foldl_app. simpl. set (r := foldl _ New ops) in *. set (asked := foldl _ _ ops) in *.
  destruct op as [ruleKey targets|ruleKey]; simpl.
  - destruct (Upsert ruleKey targets r) as [r'|] eqn:E.
    + destruct (consistent_Upsert _ _ _ _ IH1 E) as (desired & -> & Hc & Hr & _).
      split; [done|]. intros rule. rewrite Hr. case_decide; [done|apply IH2].
    + split; [done|]. unfold Upsert in E. destruct (desired_targets targets); [|done].
      by destruct (foldl _ (foldl _ _ _) _).
  - destruct (consistent_Remove ruleKey r IH1) as [Hc Hr]. split; [done|].
    intros rule. rewrite Hr. case_decide; [done|apply IH2].
Qed.

(** [l] lists exactly the strings satisfying [P], sorted, once each. *)
Definition lists (l : list string) (P : string -> Prop) : Prop :=
  Sorted String.le l /\ NoDup l /\ forall x, x ∈ l <-> P x.

Lemma sorted_keys_lists {V} (m : gmap string V) P :
  (forall k, is_Some (m !! k) <-> P k) -> lists (sorted_keys m) P.
Proof.
  intros HP. unfold lists, sorted_keys. split; [apply (Sorted_merge_sort String.le)|].
  split; [rewrite merge_sort_Permutation; apply NoDup_fst_map_to_list|].
  intros k. rewrite merge_sort_Permutation, <-HP, list_elem_of_fmap. split.
  - intros ([k' v] & -> & Hin%elem_of_map_to_list). by eexists.
  - intros [v Hv]. exists (k, v). split; [done|]. by apply elem_of_map_to_list.
Qed.

Lemma sorted_set_lists (s : gset string) P : (forall k, k ∈ s <-> P k) -> lists (sorted_set s) P.
Proof.
  intros HP. unfold lists, sorted_set. split; [apply (Sorted_merge_sort String.le)|].
  split; [rewrite merge_sort_Permutation; apply NoDup_elements|].
  intros k. by rewrite merge_sort_Permutation, elem_of_elements.
Qed.

Lemma contribs_elem (C : contributions) rules key rule t :
  contributed rules C -> (rule, t) ∈ contribs_at key C <-> t ∈ default ∅ (rules !! rule) /\ WatchTarget_Key t = key.
Proof. intros HC. unfold contribs_at. rewrite elem_of_filter, (HC rule t). simpl. tauto. Qed.

(** What the merged view knows of a rule. *)
Lemma targets_of_rule `{Selectors} ops key entry rule :
  rg_targets (run_all ops) !! key = Some entry ->
  is_Some (te_rules entry !! rule) <-> exists t, t ∈ asked_after ops rule /\ WatchTarget_Key t = key.
Proof.
  intros He. destruct (run_all_consistent ops) as [(_ & C & HC & Hm) Ha].
  specialize (Hm key). rewrite He in Hm. destruct Hm as [_ (T1 & _)].
  rewrite (tally_lookup _ _ _ _ T1). split.
  - intros ([r t] & Hx & <-). apply (contribs_elem _ _ _ _ _ HC) in Hx. rewrite Ha in Hx. eauto.
  - intros (t & Hx). exists (rule, t). split; [|done]. apply (contribs_elem _ _ _ _ _ HC). by rewrite Ha.
Qed.

Lemma target_present `{Selectors} ops rule t :
  t ∈ asked_after ops rule -> is_Some (rg_targets (run_all ops) !! WatchTarget_Key t).
Proof.
  intros Ht. destruct (run_all_consistent ops) as [(_ & C & HC & Hm) Ha].
  specialize (Hm (WatchTarget_Key t)). destruct (rg_targets _ !! _); [by eexists|]. exfalso.
  assert (Hx : (rule, t) ∈ contribs_at (WatchTarget_Key t) C).
  { apply (contribs_elem _ _ _ _ _ HC). by rewrite Ha. }
  rewrite Hm in Hx. by apply elem_of_empty in Hx.
Qed.

(** Every entry of the snapshot is somebody's request, and lists its redactions. *)
Lemma snapshot_contribution `{Selectors} ops key st :
  Snapshot (run_all ops) !! key = Some st ->
  ts_Key st = key /\ exists rule t, t ∈ asked_after ops rule /\ WatchTarget_Key t = key /\
    (wt_Redaction t <> "" -> wt_Redaction t ∈ ts_Redactions st).
Proof.
  destruct (run_all_consistent ops) as [(_ & C & HC & Hm) Ha]. specialize (Hm key).
  unfold Snapshot. rewrite map_lookup_imap. destruct (rg_targets (run_all ops) !! key) as [entry|]; [|done].
  intros [= <-]. destruct Hm as [Hne (_ & _ & T3 & _)]. split; [done|].
  destruct (set_choose_or_empty (contribs_at key C)) as [[[rule t] Hx]|He]; cycle 1.
  { exfalso. apply Hne. by apply leibniz_equiv. }
  exists rule, t. pose proof Hx as Hx'. apply (contribs_elem _ _ _ _ _ HC) in Hx' as [Ht Hk].
  rewrite Ha in Ht. split_and!; [done..|]. intros Hr. simpl.
  destruct (sorted_keys_lists (te_redactions entry) (fun k => is_Some (te_redactions entry !! k))) as (_ & _ & Hs); [done|].
  apply Hs, (tally_lookup _ _ _ _ T3). exists (rule, t). split; [|done]. by apply elem_of_filter.
Qed.

Lemma elem_of_sink_rules id (targets : gmap TargetKey targetEntry) rule :
  rule ∈ map_fold (fun key entry rules =>
    if decide (tk_Sink key = id) then dom (te_rules entry) ∪ rules else rules) (∅ : gset string) targets <->
  exists key entry, targets !! key = Some entry /\ tk_Sink key = id /\ is_Some (te_rules entry !! rule).
Proof.
  revert targets. refine (map_fold_weak_ind (fun (s : gset string) (m : gmap TargetKey targetEntry) =>
    rule ∈ s <-> exists key entry, m !! key = Some entry /\ tk_Sink key = id /\
      is_Some (te_rules entry !! rule)) _ _ _ _).
  - split; [set_solver|]. intros (key & entry & Hl & _). by rewrite lookup_empty in Hl.
  - intros key entry m s Hn IH. split.
    + intros Hin. assert ((tk_Sink key = id /\ rule ∈ dom (te_rules entry)) \/ rule ∈ s) as [[Hk Hd]|Hs].
      { case_decide; [|by right]. apply elem_of_union in Hin as [?|?]; [left|right]; done. }
      * exists key, entry. rewrite lookup_insert_eq. by apply elem_of_dom in Hd.
      * apply IH in Hs as (key' & entry' & Hl & Hrest). exists key', entry'.
        rewrite lookup_insert_ne by (intros ->; congruence). done.
    + intros (key' & entry' & [[<- <-]|[Hne Hl]]%lookup_insert_Some & Hk & Hd).
      * rewrite decide_True by done. apply elem_of_union. left. by apply elem_of_dom.
      * assert (rule ∈ s) by (apply IH; eauto). case_decide; set_solver.
Qed.

(** ** Properties *)

(** C36: the incremental registry implements its specification. After any sequence
    of upserts - accepted or rejected - and removals, the snapshot has an entry for
    a target exactly when some rule's last accepted request contains it, and lists
    the rules, selectors, redaction sets and Event filters of exactly the requests
    that land on it, sorted and without duplicates: the reference counts never
    lose a contribution another rule, or the same rule under another selector,
    still holds, and never keep one nobody holds. *)
Theorem snapshot_refines_rules `{Selectors} ops key :
  let asked := asked_after ops in
  let lands rule t := t ∈ asked rule /\ WatchTarget_Key t = key in
  match Snapshot (run_all ops) !! key with
  | None => forall rule t, ~ lands rule t
  | Some st =>
      ts_Key st = key /\ (exists rule t, lands rule t) /\
      lists (ts_RuleKeys st) (fun rule => exists t, lands rule t) /\
      lists (ts_Selectors st) (fun s => exists rule t, lands rule t /\ wt_Selector t = s) /\
      lists (ts_Redactions st) (fun s => exists rule t, lands rule t /\ wt_Redaction t = s /\ s <> "") /\
      lists (ts_EventFilters st) (fun s => exists rule t, lands rule t /\ wt_EventFilter t = s)
  end.
Proof.
  intros asked lands. destruct (run_all_consistent ops) as [(_ & C & HC & Hm) Ha].
  assert (Hl : forall rule t, lands rule t <-> (rule, t) ∈ contribs_at key C).
  { intros rule t. rewrite (contribs_elem _ _ _ _ _ HC), Ha. done. }
  unfold Snapshot. rewrite map_lookup_imap. specialize (Hm key).
  destruct (rg_targets (run_all ops) !! key) as [entry|]; simpl.
  - destruct Hm as [Hne (T1 & T2 & T3 & T4)]. split; [done|].
    split; [|split_and!; apply sorted_keys_lists; intros k].
    + destruct (set_choose_or_empty (contribs_at key C)) as [[[rule t] Hx]|He].
      * exists rule, t. by apply Hl.
      * exfalso. apply Hne. by apply leibniz_equiv.
    + rewrite (tally_lookup _ _ _ _ T1). setoid_rewrite Hl. split.
      * intros ([rule t] & Hx & <-). eauto.
      * intros (t & Hx). by exists (k, t).
    + rewrite (tally_lookup _ _ _ _ T2). setoid_rewrite Hl. split.
      * intros ([rule t] & Hx & <-). eauto.
      * intros (rule & t & Hx & <-). by exists (rule, t).
    + rewrite (tally_lookup _ _ _ _ T3). setoid_rewrite Hl. split.
      * intros ([rule t] & [Hr Hx]%elem_of_filter & <-). by exists rule, t.
      * intros (rule & t & Hx & <- & Hr). exists (rule, t). split; [|done]. by apply elem_of_filter.
    + rewrite (tally_lookup _ _ _ _ T4). setoid_rewrite Hl. split.
      * intros ([rule t] & Hx & <-). eauto.
      * intros (rule & t & Hx & <-). by exists (rule, t).
  - intros rule t Hx%Hl. rewrite Hm in Hx. by apply elem_of_empty in Hx.
Qed.

(** A reconcile wakes the data plane exactly when it changed something. An
    accepted upsert leaves a pending wake-up exactly if there was one or the rule's
    canonical target set is different from before; when it is the same set - the
    list reordered, duplicated, or its selectors spelled differently - the whole
    registry is left exactly as it was; and an upsert with one selector that does
    not parse is rejected. *)
Theorem upsert_notifies_on_change `{Selectors} ops ruleKey targets :
  let r := run_all ops in
  match desired_targets targets with
  | Err e => Upsert ruleKey targets r = Err e
  | Ok desired =>
      exists r', Upsert ruleKey targets r = Ok r' /\
        (rg_changes r' = true <-> rg_changes r = true \/ desired <> asked_after ops ruleKey) /\
        (desired = asked_after ops ruleKey -> r' = r)
  end.
Proof.
  intros r. destruct (run_all_consistent ops) as [Hcons Ha]. fold r in Hcons, Ha.
  destruct (desired_targets targets) as [desired|e] eqn:Ed; [|unfold Upsert; by rewrite Ed].
  destruct (Upsert ruleKey targets r) as [r'|] eqn:E; cycle 1.
  { unfold Upsert in E. rewrite Ed in E. by destruct (foldl _ (foldl _ _ _) _). }
  exists r'. split; [done|]. rewrite <-Ha.
  destruct (consistent_Upsert _ _ _ _ Hcons E) as (d & Ed' & _ & _ & Hch).
  assert (d = desired) as -> by congruence. split; [exact Hch|]. intros Hsame.
  unfold Upsert in E. rewrite Ed in E.
  assert (Hskip : forall f (ts : list WatchTarget) (acc : gmap TargetKey targetEntry * bool) skip,
            (forall t, t ∈ ts -> t ∈ skip) -> foldl (apply_missing f skip) acc ts = acc).
  { intros f ts. induction ts as [|t ts IH]; intros acc skip Hin; [done|]. simpl.
    unfold apply_missing at 2. rewrite decide_True by (apply Hin; by left). apply IH. intros u Hu. apply Hin. by right. }
  rewrite (Hskip _ (elements desired)) in E by (intros t; rewrite elem_of_elements; by rewrite Hsame).
  rewrite Hskip in E by (intros t; rewrite elem_of_elements; by rewrite Hsame).
  injection E as <-. destruct r as [rules tgts chs]. simpl in *. f_equal.
  destruct Hcons as [Hne _]. simpl in Hne. case_decide as Hz.
  - apply size_empty_inv, leibniz_equiv in Hz. apply delete_id.
    destruct (rules !! ruleKey) as [s|] eqn:Er; [|done]. exfalso. apply (Hne _ _ Er).
    rewrite <-Hz, Hsame. done.
  - apply insert_id. destruct (rules !! ruleKey) as [s|] eqn:Er; simpl in Hsame; [by rewrite Hsame|].
    exfalso. apply Hz. by rewrite Hsame, size_empty.
Qed.

(** Who depends on a sink. [RulesForSink] lists, sorted and once each, exactly
    the rules whose last accepted request streams to that very sink - kind and
    name - and [TargetCountForRule] is the number of targets of the snapshot that
    name the rule, scopes and not requests. *)
Theorem rules_for_sink_exact `{Selectors} ops id rule :
  lists (RulesForSink id (run_all ops))
    (fun rule => exists t, t ∈ asked_after ops rule /\ wt_Sink t = id) /\
  TargetCountForRule rule (run_all ops) =
    size (filter (fun kv => rule ∈ ts_RuleKeys kv.2) (Snapshot (run_all ops))).
Proof.
  split.
  - apply sorted_set_lists. intros r. rewrite elem_of_sink_rules. split.
    + intros (key & entry & He & <- & Hr). apply (targets_of_rule _ _ _ _ He) in Hr as (t & Ht & <-). eauto.
    + intros (t & Ht & <-). destruct (target_present ops r t Ht) as [entry He].
      exists (WatchTarget_Key t), entry. split; [done|]. split; [done|].
      apply (targets_of_rule _ _ _ _ He). eauto.
  - unfold TargetCountForRule. destruct (run_all_consistent ops) as [_ ->]. rewrite <-size_dom.
    f_equal. apply set_eq. intros key. rewrite elem_of_map, elem_of_dom. unfold Snapshot.
    assert (Hk : forall entry, rg_targets (run_all ops) !! key = Some entry ->
              rule ∈ sorted_keys (te_rules entry) <->
              exists t, t ∈ asked_after ops rule /\ WatchTarget_Key t = key).
    { intros entry He. rewrite <-(targets_of_rule _ _ _ _ He).
      by apply (sorted_keys_lists (te_rules entry) (fun k => is_Some (te_rules entry !! k))). }
    split.
    + intros (t & -> & Ht). destruct (target_present ops rule t Ht) as [entry He].
      eexists. apply map_lookup_filter_Some. rewrite map_lookup_imap, He. split; [done|].
      apply (Hk _ He). eauto.
    + intros [st Hst]. apply map_lookup_filter_Some in Hst as [Hst Hin].
      rewrite map_lookup_imap in Hst. destruct (rg_targets _ !! key) as [entry|] eqn:He; [|done].
      injection Hst as <-. apply (Hk _ eq_refl) in Hin as (t & Ht & Hkey). by exists t.
Qed.
