(* ===== verification/GoJson.v ===== *)
(** * GoJson: the dynamic values of an unstructured Kubernetes object

    A Go [any] holding decoded JSON. An object is a [map[string]any], whose
    iteration order carries no meaning, so it is a finite map and two objects
    with the same members are equal. The accessors of the Kubernetes
    [unstructured] package are third-party code: the class [Unstructured]
    carries the ones the pipeline calls. [encoding/json] and [crypto/sha256]
    enter as functions too ([Encoders]): all that is used of them is that they
    are functions of the value. *)

From S2P Require Import Prelude.

Inductive json :=
| JNull
| JBool (b : bool)
| JInt (z : Z)
| JFloat (repr : string)
| JStr (s : string)
| JArr (items : list json)
| JObj (members : gmap string json).

Abbreviation object := (gmap string json).

(** Go type assertions [v.(T)] in comma-ok form. *)
Definition as_obj (v : json) : option object :=
  match v with JObj m => Some m | _ => None end.

Definition as_arr (v : json) : option (list json) :=
  match v with JArr l => Some l | _ => None end.

Definition as_str (v : json) : option string :=
  match v with JStr s => Some s | _ => None end.

Class Encoders := {
  (** [json.Marshal], [None] on its error return. *)
  json_marshal : object -> option string;
  (** [json.Unmarshal] into a [map[string]any]. *)
  json_unmarshal : string -> option object;
  (** [hex.EncodeToString(sha256.Sum256(b))]. *)
  sha256_hex : string -> string;
}.

Class Unstructured := {
  GetUID : object -> string;
  GetResourceVersion : object -> string;
  GVKVersion : object -> string;
  (** [None] is the nil map. *)
  GetLabels : object -> option (gmap string string);
  GetAnnotations : object -> option (gmap string string);
  SetAnnotations : gmap string string -> object -> object;
  (** [NestedFieldNoCopy]: [Ok None] is found=false. *)
  NestedFieldNoCopy : object -> list string -> result string (option json);
  RemoveNestedField : list string -> object -> object;
}.

(** ** Documented behaviour of the accessors

    What the code relies on, for an object whose [metadata] is a map. *)

(** A map of strings as a JSON object. *)
Definition string_map (m : gmap string string) : json := JObj (JStr <$> m).

Class UnstructuredLaws `{Unstructured} := {
  nested_metadata_field : forall o meta field, o !! "metadata" = Some (JObj meta) ->
    NestedFieldNoCopy o ["metadata"; field] = Ok (meta !! field);
  get_annotations_absent : forall o meta, o !! "metadata" = Some (JObj meta) ->
    meta !! "annotations" = None -> GetAnnotations o = None;
  get_annotations_strings : forall o meta ann, o !! "metadata" = Some (JObj meta) ->
    meta !! "annotations" = Some (string_map ann) -> GetAnnotations o = Some ann;
  set_annotations : forall o meta ann, o !! "metadata" = Some (JObj meta) ->
    SetAnnotations ann o =
      <["metadata" := JObj (<["annotations" := string_map ann]> meta)]> o;
  remove_metadata_field : forall o meta field, o !! "metadata" = Some (JObj meta) ->
    RemoveNestedField ["metadata"; field] o = <["metadata" := JObj (delete field meta)]> o;
}.

(** A direct implementation of those accessors over the JSON tree, for
    evaluation. *)
Definition as_string_map (v : json) : option (gmap string string) :=
  match as_obj v with
  | Some m =>
      let strings := omap as_str m in
      if decide (size strings = size m) then Some strings else None
  | None => None
  end.

Definition metadata_of (o : object) : option object :=
  match o !! "metadata" with Some (JObj meta) => Some meta | _ => None end.

Definition metadata_field (field : string) (o : object) : option json :=
  match metadata_of o with Some meta => meta !! field | None => None end.

Definition metadata_string (field : string) (o : object) : string :=
  match metadata_field field o with Some (JStr s) => s | _ => "" end.

Definition tree_unstructured : Unstructured := {|
  GetUID := metadata_string "uid";
  GetResourceVersion := metadata_string "resourceVersion";
  GVKVersion o := match o !! "apiVersion" with Some (JStr s) => s | _ => "" end;
  GetLabels o := match metadata_field "labels" o with Some v => as_string_map v | None => None end;
  GetAnnotations o := match metadata_field "annotations" o with Some v => as_string_map v | None => None end;
  SetAnnotations ann o :=
    match metadata_of o with
    | Some meta => <["metadata" := JObj (<["annotations" := string_map ann]> meta)]> o
    | None => o
    end;
  NestedFieldNoCopy o path :=
    match path with
    | ["metadata"; field] =>
        match o !! "metadata" with
        | Some (JObj meta) => Ok (meta !! field)
        | Some JNull | None => Ok None
        | Some _ => Err "accessor error"
        end
    | _ => Err "unsupported path"
    end;
  RemoveNestedField path o :=
    match path, metadata_of o with
    | ["metadata"; field], Some meta => <["metadata" := JObj (delete field meta)]> o
    | _, _ => o
    end;
|}.

Lemma as_string_map_string_map m : as_string_map (string_map m) = Some m.
Proof.
  unfold as_string_map, string_map. simpl.
  assert (omap as_str (JStr <$> m) = m) as ->.
  { apply map_eq. intros i. rewrite lookup_omap, lookup_fmap. by destruct (m !! i). }
  rewrite decide_True; [done|]. by rewrite map_size_fmap.
Qed.

#[export] Instance tree_unstructured_laws : @UnstructuredLaws tree_unstructured.
Proof.
  split; cbn -[as_string_map string_map]; unfold metadata_field, metadata_of.
  - by intros o meta field ->.
  - intros o meta -> Hann. by rewrite Hann.
  - intros o meta ann -> Hann. rewrite Hann. apply as_string_map_string_map.
  - by intros o meta ann ->.
  - by intros o meta field ->.
Qed.

(** ** Documents as trees *)

#[export] Instance json_eq_dec : EqDecision json.
Proof.
  refine (fix go v w := let _ : EqDecision json := @go in
    match v, w with
    | JNull, JNull => left eq_refl
    | JBool a, JBool b => cast_if (decide (a = b))
    | JInt a, JInt b => cast_if (decide (a = b))
    | JFloat a, JFloat b => cast_if (decide (a = b))
    | JStr a, JStr b => cast_if (decide (a = b))
    | JArr a, JArr b => cast_if (decide (a = b))
    | JObj a, JObj b => cast_if (decide (a = b))
    | _, _ => right _
    end); congruence.
Defined.

Fixpoint json_size (v : json) : nat :=
  match v with
  | JArr items => S (sum_list (map json_size items))
  | JObj members => S (map_fold (fun _ v n => json_size v + n) 0 members)
  | _ => 1
  end.

Lemma member_size m k v : m !! k = Some v -> json_size v < json_size (JObj m).
Proof.
  intros Hm. cbn [json_size]. rewrite map_fold_foldr. apply elem_of_map_to_list in Hm.
  induction (map_to_list m) as [|[k' v'] l IH]; [by apply not_elem_of_nil in Hm|].
  apply elem_of_cons in Hm as [[= -> ->]|Hm]; cbn [foldr uncurry]; [lia|]. specialize (IH Hm). lia.
Qed.

Lemma item_size l v : v ∈ l -> json_size v < json_size (JArr l).
Proof.
  intros Hl. cbn [json_size]. induction l as [|w l IH]; [by apply not_elem_of_nil in Hl|].
  apply elem_of_cons in Hl as [->|Hl]; simpl; [lia|]. specialize (IH Hl). lia.
Qed.

Lemma json_tree_ind (P : json -> Prop) :
  (forall v, as_arr v = None -> as_obj v = None -> P v) ->
  (forall items, Forall P items -> P (JArr items)) ->
  (forall members, map_Forall (fun _ => P) members -> P (JObj members)) ->
  forall v, P v.
Proof.
  intros Hleaf Harr Hobj v. induction (well_founded_ltof _ json_size v) as [v _ IH].
  destruct v; try (by apply Hleaf).
  - apply Harr, Forall_forall. intros x Hx. by apply IH, item_size.
  - apply Hobj. intros k x Hx. by eapply IH, member_size.
Qed.
