(* ===== verification/Redact.v ===== *)
(** * Redact: value scrubbing

    Models the application half of [src/internal/pipeline/redact.go]: compiled
    paths, the copy-on-write scrub of one path, the application of a policy and
    the union of policies. Values are immutable here, so what the Go code
    guarantees by copying only the maps on a changed path (never mutating the
    informer's object) is the typing of the functions; what remains to show is
    which values they scrub. *)

From S2P Require Import Prelude GoJson.

Definition RedactionSentinel : string := "[REDACTED]".

Definition LastAppliedConfigAnnotation : string :=
  "kubectl.kubernetes.io/last-applied-configuration".

Record redactionSegment := mkSegment { seg_name : string; seg_wildcard : bool }.

#[export] Instance redactionSegment_eq_dec : EqDecision redactionSegment.
Proof. solve_decision. Defined.

Record redactionPath := mkPath { rp_raw : string; rp_segments : list redactionSegment }.

#[export] Instance redactionPath_eq_dec : EqDecision redactionPath.
Proof. solve_decision. Defined.

Record RedactionPolicy := mkPolicy { rp_paths : list redactionPath }.

(** The loop of [redactElements]: replace the elements that changed. *)
Fixpoint redact_items (f : json -> json * bool) (items : list json) : list json * bool :=
  match items with
  | [] => ([], false)
  | item :: rest =>
      let '(replacement, itemChanged) := f item in
      let '(out, changed) := redact_items f rest in
      ((if itemChanged then replacement else item) :: out, itemChanged || changed)
  end.

Definition redactElements (f : json -> json * bool) (value : json) : json * bool :=
  match as_arr value with
  | None => (value, false)
  | Some items =>
      let '(out, changed) := redact_items f items in
      if changed then (JArr out, true) else (value, false)
  end.

Fixpoint redactValue (segments : list redactionSegment) (value : json) : json * bool :=
  match segments with
  | [] =>
      if decide (as_str value = Some RedactionSentinel) then (value, false)
      else (JStr RedactionSentinel, true)
  | segment :: rest =>
      match as_obj value with
      | None => (value, false)
      | Some object =>
          match object !! seg_name segment with
          | None => (value, false)
          | Some child =>
              let '(replacement, changed) :=
                if seg_wildcard segment
                then redactElements (redactValue rest) child
                else redactValue rest child in
              if changed then (JObj (<[seg_name segment := replacement]> object), true)
              else (value, false)
          end
      end
  end.

(** One iteration of [Apply]'s loop. [None] is the panic of the type assertion
    [next.(map[string]any)]. *)
Definition apply_path (current : object) (path : redactionPath) : option object :=
  let '(next, changed) := redactValue (rp_segments path) (JObj current) in
  if changed then as_obj next else Some current.

Fixpoint apply_paths (paths : list redactionPath) (current : object) : option object :=
  match paths with
  | [] => Some current
  | path :: rest =>
      match apply_path current path with
      | Some current' => apply_paths rest current'
      | None => None
      end
  end.

(** The compiled form of [AnnotationRedactionPath(LastAppliedConfigAnnotation)]. *)
Definition builtinPath : redactionPath :=
  mkPath ("metadata.annotations[" +:+ String (Ascii.ascii_of_nat 34)
            (LastAppliedConfigAnnotation +:+ String (Ascii.ascii_of_nat 34) "]"))
    [mkSegment "metadata" false; mkSegment "annotations" false;
     mkSegment LastAppliedConfigAnnotation false].

Definition builtinRedaction : RedactionPolicy := mkPolicy [builtinPath].

(** [None] is the nil policy: the built-in scrubs only. *)
Definition Apply (p : option RedactionPolicy) (o : object) : option object :=
  apply_paths (rp_paths (default builtinRedaction p)) o.

Definition Paths (p : option RedactionPolicy) : list string :=
  map rp_raw (rp_paths (default builtinRedaction p)).

(** [slices.SortFunc(_, strings.Compare on raw)]. *)
Definition path_le (a b : redactionPath) : Prop := String.le (rp_raw a) (rp_raw b).

#[export] Instance path_le_dec : RelDecision path_le.
Proof. intros a b. unfold path_le. apply _. Defined.

Definition sort_paths (l : list redactionPath) : list redactionPath :=
  merge_sort path_le l.

(** Append the paths whose text has not been seen, in order. *)
Fixpoint collect_paths (seen : gset string) (l : list redactionPath) : list redactionPath :=
  match l with
  | [] => []
  | path :: rest =>
      if decide (rp_raw path ∈ seen) then collect_paths seen rest
      else path :: collect_paths ({[rp_raw path]} ∪ seen) rest
  end.

(** The paths of a list of policies, nil policies contributing none. *)
Definition policy_paths (policies : list (option RedactionPolicy)) : list redactionPath :=
  concat (map (fun p => match p with Some q => rp_paths q | None => [] end) policies).

Definition MergeRedaction (policies : list (option RedactionPolicy)) : option RedactionPolicy :=
  let merged := collect_paths ∅ (policy_paths policies) in
  match merged with
  | [] => None
  | _ => Some (mkPolicy (sort_paths merged))
  end.

(** ** What a path addresses *)

(** [resolves segs v leaf]: [leaf] is a value that the path reaches in [v]. *)
Inductive resolves : list redactionSegment -> json -> json -> Prop :=
| resolves_here v : resolves [] v v
| resolves_key seg rest m child leaf :
    seg_wildcard seg = false -> m !! seg_name seg = Some child ->
    resolves rest child leaf -> resolves (seg :: rest) (JObj m) leaf
| resolves_element seg rest m items item leaf :
    seg_wildcard seg = true -> m !! seg_name seg = Some (JArr items) -> item ∈ items ->
    resolves rest item leaf -> resolves (seg :: rest) (JObj m) leaf.

(** Every value the path reaches in [v] is the sentinel. *)
Definition scrubbed (segs : list redactionSegment) (v : json) : Prop :=
  forall leaf, resolves segs v leaf -> leaf = JStr RedactionSentinel.

(** [agree segs v1 v2]: the two values differ at most in what the path reaches. *)
Inductive agree : list redactionSegment -> json -> json -> Prop :=
| agree_same segs v : agree segs v v
| agree_leaf v1 v2 : agree [] v1 v2
| agree_key seg rest m1 m2 c1 c2 :
    seg_wildcard seg = false ->
    m1 !! seg_name seg = Some c1 -> m2 !! seg_name seg = Some c2 ->
    delete (seg_name seg) m1 = delete (seg_name seg) m2 ->
    agree rest c1 c2 -> agree (seg :: rest) (JObj m1) (JObj m2)
| agree_element seg rest m1 m2 l1 l2 :
    seg_wildcard seg = true ->
    m1 !! seg_name seg = Some (JArr l1) -> m2 !! seg_name seg = Some (JArr l2) ->
    delete (seg_name seg) m1 = delete (seg_name seg) m2 ->
    Forall2 (agree rest) l1 l2 -> agree (seg :: rest) (JObj m1) (JObj m2).

(** A policy whose every path has a segment, as every parsed path has. *)
Definition wf_policy (p : option RedactionPolicy) : Prop :=
  Forall (fun path => rp_segments path <> []) (rp_paths (default builtinRedaction p)).

(** ** The reference scrub

    Replace everything the path reaches, with no change tracking and no sharing. *)

Definition scrub_elements (f : json -> json) (child : json) : json :=
  match child with JArr items => JArr (map f items) | _ => child end.

Fixpoint scrub (segs : list redactionSegment) (v : json) : json :=
  match segs with
  | [] => JStr RedactionSentinel
  | seg :: rest =>
      match v with
      | JObj m =>
          match m !! seg_name seg with
          | Some child =>
              JObj (<[seg_name seg :=
                        if seg_wildcard seg then scrub_elements (scrub rest) child
                        else scrub rest child]> m)
          | None => v
          end
      | _ => v
      end
  end.

(** ** Lemmas: the copy-on-write routine computes the reference scrub *)

Section redact_items.
Context (f : json -> json * bool) (g : json -> json).
Context (Hf : forall v, (f v).1 = g v /\ ((f v).2 = false -> g v = v)).

Lemma redact_items_spec items :
  (redact_items f items).1 = map g items /\
  ((redact_items f items).2 = false -> map g items = items).
Proof.
  induction items as [|v items [IH1 IH2]]; [done|]. simpl.
  destruct (f v) as [r ch] eqn:E. destruct (redact_items f items) as [out chs].
  specialize (Hf v). rewrite E in Hf. simpl in *. destruct Hf as [-> Hf2]. subst out. split.
  - destruct ch; [done|]. by rewrite Hf2.
  - intros [-> ->]%orb_false_iff. f_equal; auto.
Qed.

Lemma redactElements_spec v :
  (redactElements f v).1 = scrub_elements g v /\
  ((redactElements f v).2 = false -> scrub_elements g v = v).
Proof.
  destruct v; try done. unfold redactElements; simpl.
  destruct (redact_items_spec items) as [H1 H2].
  destruct (redact_items f items) as [out []]; simpl in *; subst; [done|].
  rewrite H2; done.
Qed.
End redact_items.

Lemma redactValue_spec segs v :
  (redactValue segs v).1 = scrub segs v /\
  ((redactValue segs v).2 = false -> scrub segs v = v).
Proof.
  revert v. induction segs as [|[name wild] rest IH]; intros v; simpl.
  - case_decide as E; [|done]. destruct v; simplify_eq/=. done.
  - destruct v as [| | | | | |m]; try done. simpl.
    destruct (m !! name) as [child|] eqn:Hm; [|done].
    assert (Hc : forall r : json * bool, r =
        (if wild then redactElements (redactValue rest) child else redactValue rest child) ->
        r.1 = (if wild then scrub_elements (scrub rest) child else scrub rest child) /\
        (r.2 = false ->
         (if wild then scrub_elements (scrub rest) child else scrub rest child) = child)).
    { intros r ->. destruct wild; [by apply redactElements_spec|apply IH]. }
    specialize (Hc _ eq_refl).
    destruct (if wild then _ else _) as [r []]; simpl in Hc |- *; destruct Hc as [-> Hc]; [done|].
    rewrite Hc, insert_id; done.
Qed.

Lemma scrub_root seg rest m : exists m', scrub (seg :: rest) (JObj m) = JObj m'.
Proof. simpl. case_match; eauto. Qed.

Lemma apply_path_spec current path :
  rp_segments path <> [] ->
  exists next, apply_path current path = Some next /\
               JObj next = scrub (rp_segments path) (JObj current).
Proof.
  intros Hne. unfold apply_path. pose proof (redactValue_spec (rp_segments path) (JObj current)) as [H1 H2].
  destruct (redactValue _ _) as [next ch]; simpl in *. subst next.
  destruct (rp_segments path) as [|seg rest]; [done|].
  destruct (scrub_root seg rest current) as [m' E]. rewrite E in *.
  destruct ch; [by exists m'|]. exists current. by rewrite H2.
Qed.

(** The whole policy as successive reference scrubs. *)
Definition scrub_all (paths : list redactionPath) (v : json) : json :=
  foldl (fun v path => scrub (rp_segments path) v) v paths.

Lemma apply_paths_spec paths current :
  Forall (fun path => rp_segments path <> []) paths ->
  exists next, apply_paths paths current = Some next /\
               JObj next = scrub_all paths (JObj current).
Proof.
  revert current. induction paths as [|path paths IH]; intros current Hwf; simpl; [by eauto|].
  inversion_clear Hwf as [|?? Hp Hps].
  destruct (apply_path_spec current path Hp) as (next & -> & <-). by apply IH.
Qed.

(** ** Lemmas: what the scrub does to what paths reach *)

Lemma scrub_scrubbed segs v : scrubbed segs (scrub segs v).
Proof.
  revert v. induction segs as [|[name wild] rest IH]; intros v leaf Hres.
  - by inversion_clear Hres.
  - destruct v as [| | | | | |m]; try (by inversion Hres). simpl in Hres.
    destruct (m !! name) as [child|] eqn:Hm.
    + inversion Hres as [|? ? ? c ? Hw Hl Hr|? ? ? items item ? Hw Hl Hin Hr];
        simplify_map_eq; [by eapply IH|].
      destruct child; simplify_eq/=. apply list_elem_of_fmap in Hin as (x & -> & _).
      by eapply IH.
    + inversion Hres; simplify_map_eq.
Qed.

Lemma scrubbed_scrub_id segs v : scrubbed segs v -> scrub segs v = v.
Proof.
  revert v. induction segs as [|[name wild] rest IH]; intros v Hs.
  - simpl. by rewrite (Hs v) by constructor.
  - destruct v as [| | | | | |m]; try done. simpl.
    destruct (m !! name) as [child|] eqn:Hm; [|done]. f_equal. apply insert_id. rewrite Hm.
    f_equal. symmetry. destruct wild; cycle 1.
    + apply IH. intros leaf Hl. apply Hs. by eapply (resolves_key (mkSegment name false)).
    + destruct child as [| | | | |items|]; try done. simpl. f_equal.
      rewrite <-(list_fmap_id items) at 2. apply list_fmap_ext. intros i x Hx. apply IH.
      intros leaf Hl. apply Hs. eapply (resolves_element (mkSegment name true)); try done.
      by eapply list_elem_of_lookup_2.
Qed.

Lemma scrubbed_sentinel segs : scrubbed segs (JStr RedactionSentinel).
Proof. intros leaf Hl. by inversion Hl. Qed.

(** Scrubbing one path keeps every other path scrubbed. *)
Lemma scrubbed_preserved p q v : scrubbed p v -> scrubbed p (scrub q v).
Proof.
  revert q v. induction p as [|[name wild] p IH]; intros q v Hs.
  - assert (v = JStr RedactionSentinel) as -> by (apply Hs; constructor).
    by destruct q; simpl; apply scrubbed_sentinel.
  - destruct q as [|[name' wild'] q]; [apply scrubbed_sentinel|].
    destruct v as [| | | | | |m]; try done. simpl.
    destruct (m !! name') as [child|] eqn:Hm; [|done].
    destruct (decide (name' = name)) as [->|Hne]; cycle 1.
    { intros leaf Hl. apply Hs. inversion Hl; simplify_map_eq;
        [eapply resolves_key | eapply resolves_element]; eauto. }
    intros leaf Hl. inversion Hl as [|? ? ? c ? Hw E Hr|? ? ? items item ? Hw E Hin Hr];
      simplify_map_eq.
    + assert (scrubbed p child) as Hc.
      { intros x Hx. apply Hs. by eapply (resolves_key (mkSegment name false)). }
      destruct wild'; [|by eapply IH].
      destruct child as [| | | | |l|]; simpl in Hr; try (by apply Hc).
      (* an array has no members, so only the empty path reaches anything in it *)
      inversion Hr; subst. exfalso. by specialize (Hc (JArr l) (resolves_here _)).
    + destruct wild'; cycle 1.
      { destruct q as [|[n w] q]; [done|].
        destruct child as [| | | | |l|m']; simpl in E; try (by repeat case_match).
        simplify_eq. apply Hs. by eapply (resolves_element (mkSegment name true)). }
      destruct child as [| | | | |l|]; simplify_eq/=.
      apply list_elem_of_fmap in Hin as (x & -> & Hx).
      eapply IH; [|exact Hr]. intros y Hy. apply Hs.
      by eapply (resolves_element (mkSegment name true)).
Qed.

Lemma scrub_all_scrubbed paths v path :
  path ∈ paths -> scrubbed (rp_segments path) (scrub_all paths v).
Proof.
  assert (Hk : forall ps u p, scrubbed p u -> scrubbed p (scrub_all ps u)).
  { induction ps as [|p' ps IH]; intros u p Hu; [done|]. apply IH. by apply scrubbed_preserved. }
  revert v. induction paths as [|p paths IH]; intros v; [by intros ?%elem_of_nil|].
  intros [->|Hin]%elem_of_cons; [|by apply IH].
  exact (Hk paths _ _ (scrub_scrubbed _ v)).
Qed.

Lemma scrub_all_id paths v :
  (forall path, path ∈ paths -> scrubbed (rp_segments path) v) -> scrub_all paths v = v.
Proof.
  induction paths as [|p paths IH]; intros Hs; [done|]. simpl.
  rewrite scrubbed_scrub_id by (apply Hs; left). apply IH. intros q Hq. apply Hs. by right.
Qed.

(** ** Lemmas: values a path reaches do not influence the result *)

Lemma insert_same_rest name (m1 m2 : object) x :
  delete name m1 = delete name m2 -> <[name := x]> m1 = <[name := x]> m2.
Proof. intros Hd. by rewrite <-(insert_delete_eq m1 name x), Hd, insert_delete_eq. Qed.

Lemma agree_scrub_eq segs v1 v2 : agree segs v1 v2 -> scrub segs v1 = scrub segs v2.
Proof.
  revert v1 v2. induction segs as [|[name wild] rest IH]; intros v1 v2 Ha; [done|].
  inversion Ha as [|?|? ? m1 m2 c1 c2 Hw H1 H2 Hd Hc|? ? m1 m2 l1 l2 Hw H1 H2 Hd Hl];
    simplify_eq/=; [done|..]; rewrite H1, H2; f_equal.
  - rewrite (IH c1 c2 Hc). by apply insert_same_rest.
  - rewrite (insert_same_rest name m1 m2 _ Hd). simpl.
    assert (map (scrub rest) l1 = map (scrub rest) l2) as ->; [|done].
    clear -IH Hl. induction Hl; simpl; f_equal; auto.
Qed.

Lemma agree_same_lookup (name : string) (m1 m2 : object) name' :
  delete name m1 = delete name m2 -> name' <> name -> m1 !! name' = m2 !! name'.
Proof. intros Hd Hne. rewrite <-(lookup_delete_ne m1 name), Hd, lookup_delete_ne; done. Qed.

Lemma agree_preserved p q v1 v2 : agree p v1 v2 -> agree p (scrub q v1) (scrub q v2).
Proof.
  revert q v1 v2. induction p as [|[name wild] p IH]; intros q v1 v2 Ha; [apply agree_leaf|].
  destruct q as [|[name' wild'] q]; [apply agree_same|].
  inversion Ha as [|?|? ? m1 m2 c1 c2 Hw H1 H2 Hd Hc|? ? m1 m2 l1 l2 Hw H1 H2 Hd Hl];
    simplify_eq/=; [apply agree_same|..];
    (destruct (decide (name' = name)) as [->|Hne];
     [rewrite H1, H2 |
      rewrite (agree_same_lookup name m1 m2 name' Hd Hne); destruct (m2 !! name'); [|done];
      first [eapply agree_key; [done|..] | eapply agree_element; [done|..]]; simpl;
      rewrite ?lookup_insert_ne by done; eauto;
      rewrite !delete_insert_ne by done; congruence]).
  - eapply agree_key; simpl; rewrite ?lookup_insert_eq, ?delete_insert_eq; try done.
    destruct wild'; [|by apply IH].
    (* scrubbing the elements of an array the path does not enter *)
    by inversion Hc; subst; simpl; first [apply agree_same | apply agree_leaf | exact Hc].
  - destruct wild'; cycle 1.
    + destruct q; [rewrite (insert_same_rest _ m1 m2 _ Hd); apply agree_same|].
      eapply agree_element; simpl; rewrite ?lookup_insert_eq, ?delete_insert_eq; try done.
    + eapply agree_element; simpl; rewrite ?lookup_insert_eq, ?delete_insert_eq; try done.
      apply Forall2_fmap. eapply Forall2_impl; [exact Hl|]. intros. by apply IH.
Qed.

Lemma agree_scrub_all paths v1 v2 path :
  path ∈ paths -> agree (rp_segments path) v1 v2 -> scrub_all paths v1 = scrub_all paths v2.
Proof.
  revert v1 v2. induction paths as [|p paths IH]; intros v1 v2; [by intros ?%elem_of_nil|].
  intros [->|Hin]%elem_of_cons Ha; simpl.
  - by rewrite (agree_scrub_eq _ _ _ Ha).
  - by apply IH, agree_preserved.
Qed.

(** ** Lemmas: merging *)

Lemma collect_paths_raws seen l path :
  path ∈ l -> rp_raw path ∉ seen ->
  exists path', path' ∈ collect_paths seen l /\ rp_raw path' = rp_raw path.
Proof.
  revert seen. induction l as [|p l IH]; intros seen; [by intros ?%elem_of_nil|].
  intros [->|Hin]%elem_of_cons Hs; simpl.
  - rewrite decide_False by done. exists p. split; [left|done].
  - case_decide; [by apply IH|].
    destruct (decide (rp_raw path = rp_raw p)) as [E|E].
    + exists p. split; [left|done].
    + destruct (IH ({[rp_raw p]} ∪ seen) Hin) as (p' & ? & ?); [set_solver|].
      exists p'. split; [by right|done].
Qed.

Lemma collect_paths_sub seen l path : path ∈ collect_paths seen l -> path ∈ l /\ rp_raw path ∉ seen.
Proof.
  revert seen. induction l as [|p l IH]; intros seen; simpl; [by intros ?%elem_of_nil|].
  case_decide.
  - intros Hp%IH. split; [right|]; apply Hp.
  - intros [->|Hp]%elem_of_cons; [split; [left|done]|].
    apply IH in Hp as [??]. split; [by right|set_solver].
Qed.

Lemma collect_paths_NoDup seen l : NoDup (map rp_raw (collect_paths seen l)).
Proof.
  revert seen. induction l as [|p l IH]; intros seen; simpl; [constructor|].
  case_decide; [done|]. simpl. constructor; [|done].
  intros (q & Hq & Hin)%list_elem_of_fmap. apply collect_paths_sub in Hin as [_ Hn]. set_solver.
Qed.

#[export] Instance path_le_total : Total path_le.
Proof. intros a b. apply (total String.le). Qed.

#[export] Instance path_le_trans : Transitive path_le.
Proof. intros a b c. unfold path_le. apply transitivity. Qed.

Lemma elem_of_sort_paths l path : path ∈ sort_paths l <-> path ∈ l.
Proof. unfold sort_paths. by rewrite merge_sort_Permutation. Qed.

Lemma elem_of_policy_paths policies path :
  path ∈ policy_paths policies <-> exists q, Some q ∈ policies /\ path ∈ rp_paths q.
Proof.
  unfold policy_paths. induction policies as [|[q|] policies IH]; simpl.
  - split; [by intros ?%elem_of_nil|]. intros (? & ?%elem_of_nil & _). done.
  - rewrite elem_of_app, IH. setoid_rewrite elem_of_cons. naive_solver.
  - rewrite IH. setoid_rewrite elem_of_cons. naive_solver.
Qed.

(** Path texts determine paths, as they do when every policy was compiled. *)
Definition texts_determine (paths : list redactionPath) : Prop :=
  forall p q, p ∈ paths -> q ∈ paths -> rp_raw p = rp_raw q -> p = q.

Lemma elem_of_collect_paths l path :
  texts_determine l -> path ∈ collect_paths ∅ l <-> path ∈ l.
Proof.
  intros Hd. split; [intros Hp; by apply collect_paths_sub in Hp as [? _]|]. intros Hin.
  destruct (collect_paths_raws ∅ l path Hin) as (p' & Hp' & E); [set_solver|].
  assert (p' = path) as <-; [|done].
  apply Hd; [by apply collect_paths_sub in Hp' as [? _]|done|done].
Qed.

Lemma sort_paths_determined l1 l2 :
  NoDup (map rp_raw l1) -> NoDup (map rp_raw l2) -> texts_determine (l1 ++ l2) ->
  (forall p, p ∈ l1 <-> p ∈ l2) -> sort_paths l1 = sort_paths l2.
Proof.
  intros Hn1 Hn2 Hd Heq. unfold sort_paths.
  assert (l1 ≡ₚ l2) as Hperm.
  { apply NoDup_Permutation; [by eapply NoDup_fmap_1..|done]. }
  eapply (Sorted_unique_strong path_le).
  - intros x1 x2 H1 H2 Hle1 Hle2. rewrite merge_sort_Permutation in H1, H2.
    apply Hd; [apply elem_of_app; auto..|]. by apply (anti_symm String.le).
  - apply (Sorted_merge_sort path_le).
  - apply (Sorted_merge_sort path_le).
  - by rewrite !merge_sort_Permutation.
Qed.

(** ** Properties *)

(** Applying a policy never panics, and afterwards everything any of its paths
    reaches in the object - through maps and every element of wildcarded arrays -
    is the sentinel, whatever other paths overlap it and in whatever order they
    were applied; applying the policy again changes nothing. *)
Theorem apply_scrubs_every_path p o :
  wf_policy p ->
  exists o', Apply p o = Some o' /\
    (forall path, path ∈ rp_paths (default builtinRedaction p) ->
       scrubbed (rp_segments path) (JObj o')) /\
    Apply p o' = Some o'.
Proof.
  intros Hwf. unfold Apply. destruct (apply_paths_spec _ o Hwf) as (o' & -> & E).
  assert (Hs : forall path, path ∈ rp_paths (default builtinRedaction p) ->
                 scrubbed (rp_segments path) (JObj o')).
  { intros path Hp. rewrite E. by apply scrub_all_scrubbed. }
  exists o'. split_and!; [done..|].
  destruct (apply_paths_spec _ o' Hwf) as (o'' & -> & E').
  rewrite scrub_all_id in E' by done. congruence.
Qed.

Definition sample_path : redactionPath :=
  mkPath "spec.containers[*].env" [mkSegment "spec" false; mkSegment "containers" true; mkSegment "env" false].

Definition sample_object (secret : string) : object :=
  {["spec" := JObj {["containers" := JArr [JObj {["env" := JStr secret; "name" := JStr "a"]}; JNull]]}]}.

Lemma apply_scrubs_every_path_witness :
  exists o', Apply (Some (mkPolicy [builtinPath; sample_path])) (sample_object "s3cr3t") = Some o' /\
    scrubbed (rp_segments sample_path) (JObj o').
Proof.
  destruct (apply_scrubs_every_path (Some (mkPolicy [builtinPath; sample_path]))
              (sample_object "s3cr3t")) as (o' & H1 & H2 & _).
  - repeat constructor; discriminate.
  - exists o'. split; [exact H1|]. apply H2. simpl. apply list_elem_of_further, list_elem_of_here.
Defined.

(** Non-interference. Two objects that differ only in values one path of the
    policy reaches become the same object, so nothing derived from the redacted
    object - hash, diff or stored row - can depend on a scrubbed value. *)
Theorem apply_noninterference p o1 o2 path :
  wf_policy p -> path ∈ rp_paths (default builtinRedaction p) ->
  agree (rp_segments path) (JObj o1) (JObj o2) ->
  Apply p o1 = Apply p o2.
Proof.
  intros Hwf Hin Ha. unfold Apply.
  destruct (apply_paths_spec _ o1 Hwf) as (o1' & -> & E1).
  destruct (apply_paths_spec _ o2 Hwf) as (o2' & -> & E2).
  rewrite (agree_scrub_all _ _ _ _ Hin Ha) in E1. congruence.
Qed.

Lemma apply_noninterference_witness :
  Apply (Some (mkPolicy [builtinPath; sample_path])) (sample_object "hunter2") =
  Apply (Some (mkPolicy [builtinPath; sample_path])) (sample_object "correct horse").
Proof.
  apply (apply_noninterference _ _ _ sample_path).
  - repeat constructor; discriminate.
  - simpl. apply list_elem_of_further, list_elem_of_here.
  - eapply agree_key; [reflexivity..|].
    eapply agree_element; [reflexivity..|].
    constructor; [|constructor; [apply agree_same|constructor]].
    eapply agree_key; [reflexivity..|]. apply agree_leaf.
Defined.

(** The copy-on-write scrub, which copies only the maps and arrays on a path
    that changed something and reports whether it did, computes the reference
    scrub that rewrites the path unconditionally; and when it reports no change
    the value it was given is the scrubbed value. *)
Theorem redactValue_is_scrub segments value :
  (redactValue segments value).1 = scrub segments value /\
  ((redactValue segments value).2 = false -> scrub segments value = value).
Proof. apply redactValue_spec. Qed.

(** Merging is a union that does not depend on the order the rules were
    merged in, and the merged policy scrubs everything any of the merged policies
    asked to scrub. *)
Theorem merge_is_union ps1 ps2 q path o :
  texts_determine (policy_paths ps1) -> ps1 ≡ₚ ps2 ->
  Some q ∈ ps1 -> path ∈ rp_paths q ->
  Forall (fun path => rp_segments path <> []) (policy_paths ps1) ->
  MergeRedaction ps1 = MergeRedaction ps2 /\
  exists o', Apply (MergeRedaction ps1) o = Some o' /\ scrubbed (rp_segments path) (JObj o').
Proof.
  intros Hd Hperm Hq Hpath Hwf.
  assert (Hpp : policy_paths ps1 ≡ₚ policy_paths ps2) by (unfold policy_paths; by rewrite Hperm).
  assert (Hd2 : texts_determine (policy_paths ps2)).
  { intros x y. rewrite <-Hpp. apply Hd. }
  assert (Hin : path ∈ collect_paths ∅ (policy_paths ps1)).
  { apply elem_of_collect_paths; [done|]. apply elem_of_policy_paths. eauto. }
  assert (Hsort : sort_paths (collect_paths ∅ (policy_paths ps1)) =
                  sort_paths (collect_paths ∅ (policy_paths ps2))).
  { apply sort_paths_determined; [apply collect_paths_NoDup..| |].
    - intros x y. rewrite !elem_of_app, !elem_of_collect_paths, <-!Hpp by done.
      intros [?|?] [?|?]; by apply Hd.
    - intros x. rewrite !elem_of_collect_paths by done. by rewrite Hpp. }
  unfold MergeRedaction.
  destruct (collect_paths ∅ (policy_paths ps1)) as [|a l] eqn:E1; [by apply elem_of_nil in Hin|].
  destruct (collect_paths ∅ (policy_paths ps2)) as [|b l2] eqn:E2.
  { exfalso. apply (elem_of_nil path). rewrite <-E2, elem_of_collect_paths, <-Hpp by done.
    apply elem_of_policy_paths. eauto. }
  split; [by rewrite Hsort|].
  unfold Apply. simpl. destruct (apply_paths_spec (sort_paths (a :: l)) o) as (o' & -> & E).
  - apply Forall_forall. intros x Hx. rewrite elem_of_sort_paths, <-E1 in Hx.
    apply collect_paths_sub in Hx as [Hx _]. rewrite Forall_forall in Hwf. by apply Hwf.
  - exists o'. split; [done|]. rewrite E. apply scrub_all_scrubbed. by apply elem_of_sort_paths.
Qed.

Lemma merge_is_union_witness :
  MergeRedaction [Some (mkPolicy [sample_path]); None; Some builtinRedaction] =
  MergeRedaction [None; Some (mkPolicy [sample_path]); Some builtinRedaction].
Proof.
  refine (proj1 (merge_is_union _ _ (mkPolicy [sample_path]) sample_path ∅ _ _ _ _ _)).
  - intros p q. simpl. unfold policy_paths. simpl.
    intros [->|[->|?%elem_of_nil]%elem_of_cons]%elem_of_cons
           [->|[->|?%elem_of_nil]%elem_of_cons]%elem_of_cons;
      intros E; try reflexivity; try contradiction; vm_compute in E; discriminate E.
  - apply perm_swap.
  - apply list_elem_of_here.
  - apply list_elem_of_here.
  - repeat constructor; discriminate.
Defined.
