(* ===== verification/RedactParse.v ===== *)
(** * RedactParse: the redaction path grammar

    Models the parsing half of [src/internal/pipeline/redact.go]: the segment
    pattern, the path loop, the annotation shorthand and the compilation of a
    policy. The loop runs on fuel; [S (length raw)] is enough because every round
    but the last consumes at least the [.] it stopped at. [strconv.Quote] and
    [strconv.Unquote] depend on Unicode tables and enter through the class
    [Strconv]. *)

From S2P Require Import Prelude GoJson Redact.

Open Scope kr_scope.

Class Strconv := {
  Quote : string -> string;
  Unquote : string -> option string;
}.

Definition quote_char : Ascii.ascii := Ascii.ascii_of_nat 34.

Definition AnnotationRedactionPath `{Strconv} (key : string) : string :=
  "metadata.annotations[" +:+ Quote key +:+ "]".

Definition builtinPaths `{Strconv} : list string :=
  [AnnotationRedactionPath LastAppliedConfigAnnotation].

(** ** The segment pattern [^[a-zA-Z_][a-zA-Z0-9_-]*$] *)

Definition in_range (lo hi : nat) (c : Ascii.ascii) : bool :=
  Nat.leb lo (Ascii.nat_of_ascii c) && Nat.leb (Ascii.nat_of_ascii c) hi.

Definition is_letter (c : Ascii.ascii) : bool := in_range 97 122 c || in_range 65 90 c.
Definition is_digit (c : Ascii.ascii) : bool := in_range 48 57 c.

Definition is_segment_start (c : Ascii.ascii) : bool :=
  is_letter c || bool_decide (c = "_"%char).

Definition is_segment_char (c : Ascii.ascii) : bool :=
  is_letter c || is_digit c || bool_decide (c = "_"%char) || bool_decide (c = "-"%char).

Fixpoint string_forall (f : Ascii.ascii -> bool) (s : string) : bool :=
  match s with
  | EmptyString => true
  | String c s' => f c && string_forall f s'
  end.

Definition redactionSegmentPattern (name : string) : bool :=
  match name with
  | EmptyString => false
  | String c rest => is_segment_start c && string_forall is_segment_char rest
  end.

(** ** The parser *)

Inductive parseError :=
| errEmptyRedactionPath
| errInvalidFieldName (name : string)
| errUnterminatedSubscript
| errNotQuotedKey (subscript : string)
| errEmptyQuotedKey
| errBadSubscript (subscript : string)
| errTrailingDot
| errExpectedDot (rest : string)
| errOutOfFuel.

(** Split before the first byte satisfying [f]; the whole string when none does. *)
Fixpoint split_before (f : Ascii.ascii -> bool) (s : string) : string * string :=
  match s with
  | EmptyString => (EmptyString, EmptyString)
  | String c s' =>
      if f c then (EmptyString, s)
      else let '(a, b) := split_before f s' in (String c a, b)
  end.

(** [strings.Index(s, c)] with the text before and after the byte found. *)
Fixpoint cut (c : Ascii.ascii) (s : string) : option (string * string) :=
  match s with
  | EmptyString => None
  | String a s' =>
      if bool_decide (a = c) then Some (EmptyString, s')
      else match cut c s' with
           | Some (x, y) => Some (String a x, y)
           | None => None
           end
  end.

(** The set of [strings.IndexAny(rest, ".[")]. *)
Definition stop_char (c : Ascii.ascii) : bool :=
  bool_decide (c = "."%char) || bool_decide (c = "["%char).

Definition parseSegmentName (rest : string) : result parseError (string * string) :=
  let '(name, remainder) :=
    split_before stop_char rest in
  if redactionSegmentPattern name then Ok (name, remainder)
  else Err (errInvalidFieldName name).

(** The subscript half of one round: the segments it yields and what follows. *)
Definition parseSubscript `{Strconv} (name rest : string)
    : result parseError (list redactionSegment * string) :=
  match rest with
  | String "["%char inner =>
      match cut "]"%char inner with
      | None => Err errUnterminatedSubscript
      | Some (subscript, rest') =>
          if bool_decide (subscript = "*") then Ok ([mkSegment name true], rest')
          else if has_prefix subscript (String quote_char "") then
            match Unquote subscript with
            | None => Err (errNotQuotedKey subscript)
            | Some key =>
                if bool_decide (key = "") then Err errEmptyQuotedKey
                else Ok ([mkSegment name false; mkSegment key false], rest')
            end
          else Err (errBadSubscript subscript)
      end
  | _ => Ok ([mkSegment name false], rest)
  end.

Fixpoint parse_loop `{Strconv} (fuel : nat) (rest : string) (segments : list redactionSegment)
    : result parseError (list redactionSegment) :=
  match fuel with
  | O => Err errOutOfFuel
  | S fuel' =>
      let! (name, remainder) := parseSegmentName rest in
      let! (new, rest') := parseSubscript name remainder in
      match rest' with
      | EmptyString => Ok (segments ++ new)
      | String "."%char rest'' =>
          if bool_decide (rest'' = "") then Err errTrailingDot
          else parse_loop fuel' rest'' (segments ++ new)
      | _ => Err (errExpectedDot rest')
      end
  end.

Definition parseRedactionPath `{Strconv} (raw : string) : result parseError redactionPath :=
  if bool_decide (raw = "") then Err errEmptyRedactionPath
  else
    let! segments := parse_loop (S (String.length raw)) raw [] in
    Ok (mkPath raw segments).

(** The loop of [CompileRedaction]: parse what has not been seen, fail on the
    first path that does not parse. *)
Fixpoint compile_loop `{Strconv} (seen : gset string) (raws : list string)
    : result parseError (list redactionPath) :=
  match raws with
  | [] => Ok []
  | raw :: rest =>
      if decide (raw ∈ seen) then compile_loop seen rest
      else
        let! path := parseRedactionPath raw in
        let! paths := compile_loop ({[raw]} ∪ seen) rest in
        Ok (path :: paths)
  end.

Definition CompileRedaction `{Strconv} (paths : list string) : result parseError RedactionPolicy :=
  let! compiled := compile_loop ∅ (paths ++ builtinPaths) in
  Ok (mkPolicy (sort_paths compiled)).

(** ** Plain keys

    Printable ASCII apart from the double quote, the backslash and the closing
    bracket. Every valid Kubernetes annotation key is one. *)
Definition is_plain (c : Ascii.ascii) : bool :=
  in_range 32 126 c && negb (bool_decide (c = quote_char)) &&
  negb (bool_decide (c = Ascii.ascii_of_nat 92)) && negb (bool_decide (c = "]"%char)).

Definition plain_key (key : string) : bool := string_forall is_plain key.

(** What is relied on of [strconv]: a plain key is quoted by wrapping it in
    double quotes, and [Unquote] undoes [Quote]. *)
Class StrconvLaws `{Strconv} := {
  Quote_plain : forall key, plain_key key = true ->
    Quote key = String quote_char (key +:+ String quote_char "");
  Unquote_Quote : forall key, plain_key key = true -> Unquote (Quote key) = Some key;
}.

(** The text of a path of plain and wildcarded names. *)
Definition render_segment (seg : redactionSegment) : string :=
  seg_name seg +:+ (if seg_wildcard seg then "[*]" else "").

Fixpoint render (segs : list redactionSegment) : string :=
  match segs with
  | [] => ""
  | [seg] => render_segment seg
  | seg :: rest => render_segment seg +:+ "." +:+ render rest
  end.

(** ** Lemmas: scanning *)

Lemma string_forall_impl (f g : Ascii.ascii -> bool) s :
  (forall c, f c = true -> g c = true) -> string_forall f s = true -> string_forall g s = true.
Proof.
  intros Hfg. induction s as [|c s IH]; [done|]. simpl.
  rewrite !andb_true_iff. intros [? ?]. auto.
Qed.

Lemma string_forall_mem f s c :
  string_forall f s = true -> f c = false -> string_mem c s = false.
Proof.
  induction s as [|a s IH]; [done|]. simpl. rewrite andb_true_iff. intros [Ha Hs] Hc.
  rewrite (IH Hs Hc), orb_false_r. apply bool_decide_false. intros ->. congruence.
Qed.

Lemma split_before_app f s t :
  string_forall (fun c => negb (f c)) s = true ->
  match t with EmptyString => True | String c _ => f c = true end ->
  split_before f (s +:+ t) = (s, t).
Proof.
  intros Hs Ht. induction s as [|c s IH].
  - rewrite string_app_nil_l. destruct t as [|c t]; [done|]. simpl. by rewrite Ht.
  - simpl in Hs. apply andb_true_iff in Hs as [Hc Hs]. rewrite string_app_cons. simpl.
    apply negb_true_iff in Hc as ->. by rewrite (IH Hs).
Qed.

Lemma split_before_concat f s :
  (split_before f s).1 +:+ (split_before f s).2 = s.
Proof.
  induction s as [|c s IH]; [done|]. simpl. destruct (f c); [done|].
  destruct (split_before f s) as [a b]; simpl in *. by rewrite string_app_cons, IH.
Qed.

Lemma cut_app c s t : string_mem c s = false -> cut c (s +:+ String c t) = Some (s, t).
Proof.
  induction s as [|a s IH].
  - intros _. rewrite string_app_nil_l. cbn [cut]. by rewrite bool_decide_true.
  - cbn [string_mem]. intros [Ha Hs]%orb_false_iff. rewrite string_app_cons. cbn [cut].
    by rewrite Ha, (IH Hs).
Qed.

Lemma cut_length c s x y : cut c s = Some (x, y) -> String.length y < String.length s.
Proof.
  revert x. induction s as [|a s IH]; intros x; simpl; [done|].
  case_bool_decide; [intros [= <- <-]; lia|].
  destruct (cut c s) as [[x' y']|]; [|done]. intros [= <- <-].
  specialize (IH x' eq_refl). lia.
Qed.

(** ** Lemmas: one round of the loop *)

Lemma segment_char_not_stop c : is_segment_char c = true -> negb (stop_char c) = true.
Proof.
  unfold stop_char. destruct (decide (c = "."%char)) as [->|?]; [done|].
  destruct (decide (c = "["%char)) as [->|?]; [done|].
  by rewrite !bool_decide_false.
Qed.

Lemma segment_start_char c : is_segment_start c = true -> is_segment_char c = true.
Proof.
  unfold is_segment_start, is_segment_char. rewrite !orb_true_iff. tauto.
Qed.

Lemma pattern_no_stop name :
  redactionSegmentPattern name = true -> string_forall (fun c => negb (stop_char c)) name = true.
Proof.
  destruct name as [|c name]; [done|]. simpl. rewrite !andb_true_iff. intros [Hc Hn]. split.
  - by apply segment_char_not_stop, segment_start_char.
  - eapply string_forall_impl; [|exact Hn]. exact segment_char_not_stop.
Qed.

Lemma parseSegmentName_app name t :
  redactionSegmentPattern name = true ->
  match t with EmptyString => True | String c _ => stop_char c = true end ->
  parseSegmentName (name +:+ t) = Ok (name, t).
Proof.
  intros Hn Ht. unfold parseSegmentName.
  rewrite (split_before_app stop_char name t (pattern_no_stop _ Hn) Ht). by rewrite Hn.
Qed.

Lemma parseSegmentName_length rest name remainder :
  parseSegmentName rest = Ok (name, remainder) -> String.length remainder <= String.length rest.
Proof.
  unfold parseSegmentName. pose proof (split_before_concat stop_char rest) as E.
  destruct (split_before stop_char rest) as [a b]. simpl in E.
  case_match; [|done]. intros [= <- <-]. rewrite <-E, string_length_app. lia.
Qed.

Section with_strconv.
Context `{Strconv}.

Lemma parseSubscript_length name rest new rest' :
  parseSubscript name rest = Ok (new, rest') -> String.length rest' <= String.length rest.
Proof.
  unfold parseSubscript. intros Hp. destruct rest as [|c inner]; [by simplify_eq/=|].
  destruct (decide (c = "["%char)) as [->|Hc].
  - simpl in *. destruct (cut "]"%char inner) as [[sub r]|] eqn:Hcut; [|done].
    apply cut_length in Hcut. repeat case_match; simplify_eq/=; lia.
  - assert (Ok ([mkSegment name false], String c inner) = Ok (new, rest') :> result parseError _)
      as E by (destruct c as [[] [] [] [] [] [] [] []]; done).
    by simplify_eq.
Qed.

Lemma parseSubscript_new name rest new rest' :
  parseSubscript name rest = Ok (new, rest') -> new <> [].
Proof.
  unfold parseSubscript. intros Hp ->. repeat case_match; simplify_eq/=.
Qed.

Lemma parse_loop_fuel fuel rest segs :
  String.length rest < fuel -> parse_loop fuel rest segs <> Err errOutOfFuel.
Proof.
  revert rest segs. induction fuel as [|fuel IH]; intros rest segs Hl; [lia|]. simpl.
  destruct (parseSegmentName rest) as [[name remainder]|e] eqn:Hn; simpl; cycle 1.
  { unfold parseSegmentName in Hn. repeat case_match; simplify_eq/=. done. }
  apply parseSegmentName_length in Hn.
  destruct (parseSubscript name remainder) as [[new rest']|e] eqn:Hs; simpl; cycle 1.
  { unfold parseSubscript in Hs. repeat case_match; simplify_eq/=; done. }
  apply parseSubscript_length in Hs.
  destruct rest' as [|c rest'']; [done|]. simpl in Hs.
  repeat case_match; try done. apply IH. lia.
Qed.

Lemma parse_loop_grows fuel rest segs out :
  parse_loop fuel rest segs = Ok out -> exists new, new <> [] /\ out = segs ++ new.
Proof.
  revert rest segs. induction fuel as [|fuel IH]; intros rest segs; simpl; [done|].
  destruct (parseSegmentName rest) as [[name remainder]|e]; simpl; [|done].
  destruct (parseSubscript name remainder) as [[new rest']|e] eqn:Hs; simpl; [|done].
  apply parseSubscript_new in Hs.
  destruct rest' as [|c rest'']; [intros [= <-]; by eauto|].
  intros Hp. assert (exists r, parse_loop fuel r (segs ++ new) = Ok out) as [r Hr]
    by (repeat case_match; simplify_eq/=; eauto).
  destruct (IH _ _ Hr) as (more & _ & ->). exists (new ++ more). rewrite app_assoc. split; [|done].
  by destruct new.
Qed.

Lemma parse_path_spec raw path :
  parseRedactionPath raw = Ok path -> rp_raw path = raw /\ rp_segments path <> [].
Proof.
  unfold parseRedactionPath. case_bool_decide; [done|].
  destruct (parse_loop _ raw []) as [segs|e] eqn:E; simpl; [|done].
  intros [= <-]. apply parse_loop_grows in E as (new & ? & ->). done.
Qed.

Lemma parse_path_no_fuel raw : parseRedactionPath raw <> Err errOutOfFuel.
Proof.
  unfold parseRedactionPath. case_bool_decide; [done|].
  pose proof (parse_loop_fuel (S (String.length raw)) raw [] ltac:(lia)) as Hf.
  by destruct (parse_loop _ raw []); simpl; naive_solver.
Qed.

(** ** Lemmas: compilation *)

Lemma compile_loop_Ok seen raws paths :
  compile_loop seen raws = Ok paths ->
  Forall (fun p => parseRedactionPath (rp_raw p) = Ok p /\ rp_raw p ∉ seen) paths /\
  NoDup (map rp_raw paths) /\
  (forall raw, raw ∈ raws -> raw ∉ seen -> raw ∈ map rp_raw paths) /\
  (forall raw, raw ∈ map rp_raw paths -> raw ∈ raws).
Proof.
  revert seen paths. induction raws as [|raw raws IH]; intros seen paths; simpl.
  { intros [= <-]. split_and!; [done|constructor|by intros ? ?%elem_of_nil|done]. }
  case_decide as Hseen.
  { intros (H1 & H2 & H3 & H4)%IH. split_and!; try done.
    - intros r [->|?]%elem_of_cons ?; [done|auto].
    - intros r Hr. right. auto. }
  destruct (parseRedactionPath raw) as [p|e] eqn:Hp; simpl; [|done].
  destruct (compile_loop _ raws) as [ps|e] eqn:Hc; simpl; [|done]. intros [= <-].
  destruct (IH _ _ Hc) as (H1 & H2 & H3 & H4).
  destruct (parse_path_spec _ _ Hp) as [Hraw _]. simpl. rewrite Hraw. split_and!.
  - constructor; [by rewrite Hraw|]. eapply Forall_impl; [exact H1|]. set_solver.
  - constructor; [|done]. intros (q & Hq & Hin)%list_elem_of_fmap.
    rewrite Forall_forall in H1. destruct (H1 q Hin) as [_ Hn].
    set_solver.
  - intros r [->|Hr]%elem_of_cons Hs; [left|].
    destruct (decide (r = raw)) as [->|]; [left|]. right. apply H3; set_solver.
  - intros r [->|Hr]%elem_of_cons; [left|right; auto].
Qed.

Lemma compile_loop_Err seen raws e :
  compile_loop seen raws = Err e -> exists raw, raw ∈ raws /\ parseRedactionPath raw = Err e.
Proof.
  revert seen. induction raws as [|raw raws IH]; intros seen; simpl; [done|].
  case_decide.
  { intros (r & ? & ?)%IH. exists r. split; [by right|done]. }
  destruct (parseRedactionPath raw) as [p|e'] eqn:Hp; simpl.
  - destruct (compile_loop _ raws) as [ps|e'] eqn:Hc; simpl; [done|]. intros [= <-].
    destruct (IH _ Hc) as (r & ? & ?). exists r. split; [by right|done].
  - intros [= <-]. exists raw. split; [left|done].
Qed.

(** ** Lemmas: round trips *)

Lemma parse_loop_render segs acc fuel :
  segs <> [] -> Forall (fun s => redactionSegmentPattern (seg_name s) = true) segs ->
  length segs <= fuel -> parse_loop fuel (render segs) acc = Ok (acc ++ segs).
Proof.
  revert acc fuel. induction segs as [|[name wild] segs IH]; intros acc fuel Hne Hf Hl; [done|].
  inversion_clear Hf as [|?? Hn Hf']. destruct fuel as [|fuel]; [simpl in Hl; lia|].
  assert (Hround : forall t, match t with EmptyString => True | String c _ => c = "."%char end ->
    parseSegmentName (render_segment (mkSegment name wild) +:+ t) =
      Ok (name, (if wild then "[*]" else "") +:+ t) /\
    parseSubscript name ((if wild then "[*]" else "") +:+ t) = Ok ([mkSegment name wild], t)).
  { intros t Ht. unfold render_segment; simpl. rewrite string_app_assoc. split.
    - apply parseSegmentName_app; [done|].
      destruct wild; [done|]. rewrite string_app_nil_l. destruct t as [|c t]; [done|]. by subst.
    - destruct wild; [done|]. rewrite string_app_nil_l. destruct t as [|c t]; [done|]. by subst. }
  destruct segs as [|seg segs].
  - cbn [render parse_loop]. rewrite <-(string_app_nil_r (render_segment _)).
    destruct (Hround "" I) as [-> H2]. cbn [result_bind]. rewrite H2. done.
  - change (render (mkSegment name wild :: seg :: segs)) with
      (render_segment (mkSegment name wild) +:+ "." +:+ render (seg :: segs)).
    cbn [parse_loop]. destruct (Hround ("." +:+ render (seg :: segs)) eq_refl) as [-> H2].
    cbn [result_bind]. rewrite H2. cbn [result_bind].
    change ("." +:+ render (seg :: segs)) with (String "." (render (seg :: segs))). cbn match.
    rewrite bool_decide_false.
    + rewrite IH; [|done..|simpl in Hl |- *; lia]. by rewrite <-app_assoc.
    + inversion_clear Hf' as [|?? Hseg _].
      destruct seg as [[|c n] w]; [done|]. destruct segs; simpl; done.
Qed.

Lemma render_length segs :
  Forall (fun s => redactionSegmentPattern (seg_name s) = true) segs ->
  length segs <= String.length (render segs).
Proof.
  assert (Hs : forall s, redactionSegmentPattern (seg_name s) = true ->
                 1 <= String.length (render_segment s)).
  { intros [[|c n] w] ?; [done|]. unfold render_segment. rewrite string_length_app. simpl. lia. }
  induction segs as [|s [|s' segs] IH]; intros Hf; [simpl; lia|..];
    inversion_clear Hf as [|?? H1 H2].
  - simpl. by apply Hs.
  - change (render (s :: s' :: segs)) with (render_segment s +:+ "." +:+ render (s' :: segs)).
    rewrite !string_length_app. specialize (IH H2). specialize (Hs s H1). simpl in *. lia.
Qed.
End with_strconv.

(** ** Properties *)

(** Printing and parsing a path are inverse: the text of any non-empty path
    of valid field names, wildcarded or not, parses back to exactly those
    segments. *)
Theorem parse_render_roundtrip `{Strconv} segs :
  segs <> [] -> Forall (fun s => redactionSegmentPattern (seg_name s) = true) segs ->
  parseRedactionPath (render segs) = Ok (mkPath (render segs) segs).
Proof.
  intros Hne Hf. pose proof (render_length segs Hf) as Hl. unfold parseRedactionPath.
  rewrite bool_decide_false.
  - rewrite parse_loop_render; [done..|lia].
  - intros E. rewrite E in Hl. destruct segs; [done|]. simpl in Hl. lia.
Qed.

(** A [strconv] restricted to keys that need no escaping, for evaluation. *)
Definition plain_strconv : Strconv := {|
  Quote key := String quote_char (key +:+ String quote_char "");
  Unquote s :=
    match s with
    | String c rest =>
        if bool_decide (c = quote_char)
        then match cut quote_char rest with Some (key, "") => Some key | _ => None end
        else None
    | EmptyString => None
    end;
|}.

Lemma plain_no_quote key : plain_key key = true -> string_mem quote_char key = false.
Proof. intros Hk. by eapply string_forall_mem; [exact Hk|]. Qed.

Lemma plain_no_bracket key : plain_key key = true -> string_mem "]"%char key = false.
Proof. intros Hk. by eapply string_forall_mem; [exact Hk|]. Qed.

#[local] Instance plain_strconv_laws : @StrconvLaws plain_strconv.
Proof.
  split; [done|]. intros key Hk. unfold Unquote, Quote, plain_strconv.
  rewrite bool_decide_true by done. by rewrite (cut_app _ _ _ (plain_no_quote _ Hk)).
Qed.

Lemma parse_render_roundtrip_witness :
  let segs := [mkSegment "spec" false; mkSegment "containers" true; mkSegment "env" false] in
  @parseRedactionPath plain_strconv (render segs) = Ok (mkPath "spec.containers[*].env" segs).
Proof.
  intros segs. apply (@parse_render_roundtrip plain_strconv segs).
  - discriminate.
  - repeat constructor.
Defined.

(** The annotation shorthand names the annotation it was given: the path
    rendered for a plain key parses to the three map lookups that lead to that
    key, dots and slashes included. *)
Theorem annotation_path_roundtrip `{Strconv, !StrconvLaws} key :
  key <> "" -> plain_key key = true ->
  parseRedactionPath (AnnotationRedactionPath key) =
  Ok (mkPath (AnnotationRedactionPath key)
        [mkSegment "metadata" false; mkSegment "annotations" false; mkSegment key false]).
Proof.
  intros Hne Hk. unfold parseRedactionPath, AnnotationRedactionPath.
  rewrite bool_decide_false by done. pose proof (Unquote_Quote key Hk) as HU.
  rewrite (Quote_plain key Hk) in *.
  set (q := String quote_char (key +:+ String quote_char "")) in *.
  assert (Hloop : forall fuel, parse_loop (S (S fuel)) ("metadata.annotations[" +:+ q +:+ "]") [] =
            Ok [mkSegment "metadata" false; mkSegment "annotations" false; mkSegment key false]).
  { intros fuel. cbn [parse_loop].
    change ("metadata.annotations[" +:+ q +:+ "]") with
      ("metadata" +:+ String "." ("annotations" +:+ String "[" (q +:+ "]"))).
    rewrite parseSegmentName_app by done. cbn [result_bind].
    change (parseSubscript "metadata" (String "." ("annotations" +:+ String "[" (q +:+ "]")))) with
      (Ok ([mkSegment "metadata" false], String "." ("annotations" +:+ String "[" (q +:+ "]")))
         : result parseError (list redactionSegment * string)).
    cbn [result_bind]. cbn match. rewrite bool_decide_false by done.
    rewrite parseSegmentName_app by done. cbn [result_bind]. unfold parseSubscript.
    assert (Hq : string_mem "]"%char q = false).
    { unfold q. cbn [string_mem]. rewrite bool_decide_false by done. simpl.
      assert (Happ : forall s, string_mem "]"%char s = false ->
                string_mem "]"%char (s +:+ String quote_char "") = false).
      { induction s as [|a s IH]; [done|]. rewrite string_app_cons. cbn [string_mem].
        intros [-> ?]%orb_false_iff. by apply IH. }
      by apply Happ, plain_no_bracket. }
    rewrite (cut_app "]"%char q "" Hq).
    rewrite bool_decide_false by (unfold q; intros [= Ec _]; vm_compute in Ec; done).
    replace (has_prefix q (String quote_char "")) with true
      by (symmetry; apply has_prefix_spec; by eexists).
    rewrite HU, bool_decide_false by done. done. }
  destruct (String.length ("metadata.annotations[" +:+ q +:+ "]")) as [|n] eqn:El;
    [by rewrite string_length_app in El|]. by rewrite Hloop.
Qed.

Lemma annotation_path_roundtrip_witness :
  @parseRedactionPath plain_strconv (@AnnotationRedactionPath plain_strconv LastAppliedConfigAnnotation) =
  Ok builtinPath.
Proof.
  apply (@annotation_path_roundtrip plain_strconv plain_strconv_laws LastAppliedConfigAnnotation).
  - discriminate.
  - reflexivity.
Defined.

(** Compiling a policy is total and all-or-nothing. It fails exactly with the
    error of some path that does not parse (never by running out of fuel);
    otherwise the policy holds the parse of every requested path and of the
    built-in one and nothing else, without duplicates, in the order of the path
    texts, and every path has a segment. *)
Theorem compile_redaction_spec `{Strconv} paths :
  match CompileRedaction paths with
  | Err e => exists raw, raw ∈ paths ++ builtinPaths /\ parseRedactionPath raw = Err e /\
                         e <> errOutOfFuel
  | Ok p =>
      (forall raw, raw ∈ map rp_raw (rp_paths p) <-> raw ∈ paths ++ builtinPaths) /\
      Forall (fun path => parseRedactionPath (rp_raw path) = Ok path) (rp_paths p) /\
      NoDup (map rp_raw (rp_paths p)) /\
      StronglySorted String.le (map rp_raw (rp_paths p)) /\
      wf_policy (Some p) /\ texts_determine (rp_paths p)
  end.
Proof.
  unfold CompileRedaction. destruct (compile_loop ∅ _) as [ps|e] eqn:E; simpl.
  - apply compile_loop_Ok in E as (H1 & H2 & H3 & H4).
    assert (Hperm : sort_paths ps ≡ₚ ps) by apply merge_sort_Permutation.
    assert (HF : Forall (fun path => parseRedactionPath (rp_raw path) = Ok path) (sort_paths ps)).
    { rewrite Hperm. eapply Forall_impl; [exact H1|]. naive_solver. }
    split_and!; [|done|..].
    + intros raw. rewrite Hperm. split; [apply H4|]. intros Hr. apply H3; set_solver.
    + by rewrite Hperm.
    + apply StronglySorted_fmap with (R1 := path_le); [by intros ???|].
      apply (StronglySorted_merge_sort path_le).
    + unfold wf_policy. simpl. eapply Forall_impl; [exact HF|].
      intros path Hp. by apply parse_path_spec in Hp as [_ Hp].
    + intros p q Hp Hq Er. rewrite Forall_forall in HF.
      pose proof (HF p Hp). pose proof (HF q Hq). congruence.
  - apply compile_loop_Err in E as (raw & Hin & Hp). exists raw. split_and!; [done..|].
    intros ->. by apply (parse_path_no_fuel raw).
Qed.
