(* ===== verification/EventFilter.v ===== *)
(** * EventFilter: which Kubernetes Events a rule records

    Models [src/internal/watch/eventfilter.go]: the canonical rendering of a
    rule's Event filter, its compilation into the matcher every Event of an
    informer is evaluated against, and the field selector that narrows the watch
    on the server. [encoding/json] of a filter is the class [FilterCodec]; the
    [fields] package of apimachinery and the API server's evaluation of a field
    selector are the class [FieldSelectors]. *)

From S2P Require Import Prelude GoJson.

Record GroupResource := mkGR { gr_Group : string; gr_Resource : string }.

#[export] Instance GroupResource_eq_dec : EqDecision GroupResource.
Proof. solve_decision. Defined.

(** ** A rule's filter *)

Record EventFilterSpec := mkSpec {
  ef_Types : list string;
  ef_Reasons : list string;
  ef_ExcludeReasons : list string;
  ef_SourceComponents : list string;
  ef_SubjectKinds : list string;
  ef_SubjectNames : list string;
}.

Class FilterCodec := {
  (** [json.Marshal] of a filter and [json.Unmarshal] into one. *)
  filter_marshal : EventFilterSpec -> result string string;
  filter_unmarshal : string -> result string EventFilterSpec;
  (** the text [encoding/json] carries unchanged: valid UTF-8 *)
  valid_utf8 : string -> bool;
}.

Definition spec_values (s : EventFilterSpec) : list string :=
  ef_Types s ++ ef_Reasons s ++ ef_ExcludeReasons s ++ ef_SourceComponents s ++
  ef_SubjectKinds s ++ ef_SubjectNames s.

Class FilterCodecLaws `{FilterCodec} := {
  filter_roundtrip : forall s raw, Forall (fun v => valid_utf8 v = true) (spec_values s) ->
    filter_marshal s = Ok raw -> raw <> "" /\ filter_unmarshal raw = Ok s;
}.

(** [slices.Compact]: collapse runs of equal elements. *)
Fixpoint compact (l : list string) : list string :=
  match l with
  | x :: rest =>
      match compact rest with
      | (y :: _) as out => if bool_decide (x = y) then out else x :: out
      | [] => [x]
      end
  | [] => []
  end.

Definition canonicalEventFilterList (values : list string) : list string :=
  compact (merge_sort String.le (filter (fun v => v <> "") values)).

Definition constrainsNothing (s : EventFilterSpec) : bool :=
  bool_decide (length (ef_Types s) = 0) && bool_decide (length (ef_Reasons s) = 0) &&
  bool_decide (length (ef_ExcludeReasons s) = 0) &&
  bool_decide (length (ef_SourceComponents s) = 0) &&
  bool_decide (length (ef_SubjectKinds s) = 0) && bool_decide (length (ef_SubjectNames s) = 0).

Definition canonical_spec (s : EventFilterSpec) : EventFilterSpec :=
  mkSpec (canonicalEventFilterList (ef_Types s)) (canonicalEventFilterList (ef_Reasons s))
    (canonicalEventFilterList (ef_ExcludeReasons s))
    (canonicalEventFilterList (ef_SourceComponents s))
    (canonicalEventFilterList (ef_SubjectKinds s)) (canonicalEventFilterList (ef_SubjectNames s)).

Definition CanonicalEventFilter `{FilterCodec} (spec : EventFilterSpec) : result string string :=
  let canonical := canonical_spec spec in
  if constrainsNothing canonical then Ok ""
  else filter_marshal canonical.

(** ** Reading an Event *)

Definition plainString (obj : object) (field : string) : string :=
  match obj !! field with Some (JStr value) => value | _ => "" end.

Definition nestedString (obj : object) (outer field : string) : string :=
  match obj !! outer with
  | Some (JObj inner) => plainString inner field
  | _ => ""
  end.

Definition subjectField (obj : object) (field : string) : string :=
  let value := nestedString obj "involvedObject" field in
  if bool_decide (value <> "") then value else nestedString obj "regarding" field.

Definition inEventFilterSet (set : gset string) (value : string) : bool :=
  if bool_decide (value = "") then false else bool_decide (value ∈ set).

Definition componentMatches (set : gset string) (obj : object) : bool :=
  inEventFilterSet set (nestedString obj "source" "component") ||
  inEventFilterSet set (plainString obj "reportingComponent") ||
  inEventFilterSet set (plainString obj "reportingController") ||
  inEventFilterSet set (nestedString obj "deprecatedSource" "component").

(** ** Compiled filters *)

Record compiledEventFilter := mkCompiled {
  cf_types : gset string;
  cf_reasons : gset string;
  cf_excludeReasons : gset string;
  cf_sourceComponents : gset string;
  cf_subjectKinds : gset string;
  cf_subjectNames : gset string;
}.

(** [len(set) > 0]. *)
Definition names (set : gset string) : bool := bool_decide (0 < size set).

Definition compiled_matches (f : compiledEventFilter) (obj : object) : bool :=
  if names (cf_types f) && negb (inEventFilterSet (cf_types f) (plainString obj "type")) then false
  else if names (cf_reasons f) && negb (inEventFilterSet (cf_reasons f) (plainString obj "reason"))
  then false
  else if names (cf_excludeReasons f) &&
          inEventFilterSet (cf_excludeReasons f) (plainString obj "reason") then false
  else if names (cf_sourceComponents f) && negb (componentMatches (cf_sourceComponents f) obj)
  then false
  else if names (cf_subjectKinds f) &&
          negb (inEventFilterSet (cf_subjectKinds f) (subjectField obj "kind")) then false
  else if names (cf_subjectNames f) &&
          negb (inEventFilterSet (cf_subjectNames f) (subjectField obj "name")) then false
  else true.

Definition newEventFieldSet (values : list string) : gset string := list_to_set values.

(** ** Field selectors *)

Inductive fieldTerm :=
| OneTermEqualSelector (label value : string)
| OneTermNotEqualSelector (label value : string).

Class FieldSelectors := {
  (** [fields.AndSelectors(terms...).String()] *)
  and_selectors : list fieldTerm -> string;
  (** whether a List or Watch of the resource with this field selector returns
      the object *)
  server_selects : GroupResource -> string -> object -> bool;
}.

Record eventFieldLabels := mkLabels {
  fl_eventType : string;
  fl_reason : string;
  fl_subjectKind : string;
  fl_subjectName : string;
}.

Definition core_events : GroupResource := mkGR "" "events".
Definition modern_events : GroupResource := mkGR "events.k8s.io" "events".

Definition eventSelectableFields (gr : GroupResource) : option eventFieldLabels :=
  if bool_decide (gr = core_events)
  then Some (mkLabels "type" "reason" "involvedObject.kind" "involvedObject.name")
  else if bool_decide (gr = modern_events)
  then Some (mkLabels "type" "reason" "regarding.kind" "regarding.name")
  else None.

(** [label=value] for a single-valued include. *)
Definition sole_term (label : string) (values : list string) : list fieldTerm :=
  match values with [v] => [OneTermEqualSelector label v] | _ => [] end.

Definition reason_terms (label : string) (reasons excludeReasons : list string) : list fieldTerm :=
  match reasons, excludeReasons with
  | [reason], [] => [OneTermEqualSelector label reason]
  | [], _ :: _ => map (OneTermNotEqualSelector label) excludeReasons
  | _, _ => []
  end.

Definition derived_terms (labels : eventFieldLabels) (spec : EventFilterSpec) : list fieldTerm :=
  sole_term (fl_eventType labels) (ef_Types spec) ++
  reason_terms (fl_reason labels) (ef_Reasons spec) (ef_ExcludeReasons spec) ++
  sole_term (fl_subjectKind labels) (ef_SubjectKinds spec) ++
  sole_term (fl_subjectName labels) (ef_SubjectNames spec).

Section matcher.
Context `{FilterCodec, FieldSelectors}.

Definition deriveEventFieldSelector (gr : GroupResource) (spec : EventFilterSpec) : string :=
  match eventSelectableFields gr with
  | None => ""
  | Some labels =>
      match derived_terms labels spec with
      | [] => ""
      | terms => and_selectors terms
      end
  end.

Record eventMatcher := mkMatcher {
  em_matchAll : bool;
  em_filters : list compiledEventFilter;
  em_fieldSelector : string;
}.

Definition compiled (spec : EventFilterSpec) : compiledEventFilter :=
  mkCompiled (newEventFieldSet (ef_Types spec)) (newEventFieldSet (ef_Reasons spec))
    (newEventFieldSet (ef_ExcludeReasons spec)) (newEventFieldSet (ef_SourceComponents spec))
    (newEventFieldSet (ef_SubjectKinds spec)) (newEventFieldSet (ef_SubjectNames spec)).

(** The loop over the merged set: [matchAll], the filters in order, and [sole],
    the last one decoded. *)
Fixpoint compile_filters (canonical : list string) (matchAll : bool)
    (filters : list compiledEventFilter) (sole : EventFilterSpec)
    : result string (bool * list compiledEventFilter * EventFilterSpec) :=
  match canonical with
  | [] => Ok (matchAll, filters, sole)
  | raw :: rest =>
      if bool_decide (raw = "") then compile_filters rest true filters sole
      else
        match filter_unmarshal raw with
        | Err e => Err e
        | Ok spec => compile_filters rest matchAll (filters ++ [compiled spec]) spec
        end
  end.

Definition spec_zero : EventFilterSpec := mkSpec [] [] [] [] [] [].

Definition compileEventFilters (gr : GroupResource) (canonical : list string)
    : result string eventMatcher :=
  match compile_filters canonical false [] spec_zero with
  | Err e => Err e
  | Ok (matchAll, filters, sole) =>
      let matchAll := matchAll || bool_decide (length filters = 0) in
      Ok (mkMatcher matchAll filters
            (if negb matchAll && bool_decide (length filters = 1)
             then deriveEventFieldSelector gr sole else ""))
  end.

(** A nil matcher accepts everything. *)
Definition matchesAll (m : option eventMatcher) : bool :=
  match m with None => true | Some m => em_matchAll m end.

Definition event_matches (m : option eventMatcher) (obj : object) : bool :=
  if matchesAll m then true
  else match m with
       | None => true
       | Some m => existsb (fun f => compiled_matches f obj) (em_filters m)
       end.
End matcher.

(** ** Documented behaviour of field selectors

    What each selectable label reads, as registered by the two Event APIs, and
    what a conjunction of terms returns. *)

Definition label_value (label : string) (obj : object) : string :=
  if bool_decide (label = "involvedObject.kind") then nestedString obj "involvedObject" "kind"
  else if bool_decide (label = "involvedObject.name") then nestedString obj "involvedObject" "name"
  else if bool_decide (label = "regarding.kind") then nestedString obj "regarding" "kind"
  else if bool_decide (label = "regarding.name") then nestedString obj "regarding" "name"
  else plainString obj label.

Definition term_holds (obj : object) (t : fieldTerm) : bool :=
  match t with
  | OneTermEqualSelector label value => bool_decide (label_value label obj = value)
  | OneTermNotEqualSelector label value => bool_decide (label_value label obj <> value)
  end.

Definition term_label (t : fieldTerm) : string :=
  match t with OneTermEqualSelector label _ | OneTermNotEqualSelector label _ => label end.

Definition registered (labels : eventFieldLabels) (label : string) : Prop :=
  label = fl_eventType labels \/ label = fl_reason labels \/
  label = fl_subjectKind labels \/ label = fl_subjectName labels.

Class FieldSelectorLaws `{FieldSelectors} := {
  and_selectors_nonempty : forall t ts, and_selectors (t :: ts) <> "";
  selects_unfiltered : forall gr obj, server_selects gr "" obj = true;
  selects_terms : forall gr labels ts obj, eventSelectableFields gr = Some labels ->
    Forall (fun t => registered labels (term_label t)) ts ->
    server_selects gr (and_selectors ts) obj = forallb (term_holds obj) ts;
}.

(** Each API spells the subject its own way only. *)
Definition served_by (gr : GroupResource) (obj : object) : Prop :=
  (gr = core_events -> obj !! "regarding" = None) /\
  (gr = modern_events -> obj !! "involvedObject" = None).

(** ** What a filter means

    Within a list any entry, across lists all of them; a list without a non-empty
    entry is no constraint; an absent field satisfies no list and is excluded by
    none. *)

Definition no_constraint (values : list string) : Prop := Forall (fun v => v = "") values.

Definition one_of (values : list string) (v : string) : Prop := v <> "" /\ v ∈ values.

Definition spec_accepts (s : EventFilterSpec) (obj : object) : Prop :=
  (no_constraint (ef_Types s) \/ one_of (ef_Types s) (plainString obj "type")) /\
  (no_constraint (ef_Reasons s) \/ one_of (ef_Reasons s) (plainString obj "reason")) /\
  ~ one_of (ef_ExcludeReasons s) (plainString obj "reason") /\
  (no_constraint (ef_SourceComponents s) \/
   one_of (ef_SourceComponents s) (nestedString obj "source" "component") \/
   one_of (ef_SourceComponents s) (plainString obj "reportingComponent") \/
   one_of (ef_SourceComponents s) (plainString obj "reportingController") \/
   one_of (ef_SourceComponents s) (nestedString obj "deprecatedSource" "component")) /\
  (no_constraint (ef_SubjectKinds s) \/ one_of (ef_SubjectKinds s) (subjectField obj "kind")) /\
  (no_constraint (ef_SubjectNames s) \/ one_of (ef_SubjectNames s) (subjectField obj "name")).

(** ** Lemmas *)

Lemma elem_of_compact l x : x ∈ compact l <-> x ∈ l.
Proof.
  induction l as [|a l IH]; [done|]. simpl. rewrite elem_of_cons, <-IH.
  destruct (compact l) as [|b out]; [by rewrite elem_of_cons|].
  case_bool_decide; rewrite !elem_of_cons; naive_solver.
Qed.

Lemma elem_of_canonical l x : x ∈ canonicalEventFilterList l <-> x <> "" /\ x ∈ l.
Proof.
  unfold canonicalEventFilterList. by rewrite elem_of_compact, merge_sort_Permutation, list_elem_of_filter.
Qed.

Lemma canonical_nil l : canonicalEventFilterList l = [] <-> no_constraint l.
Proof.
  unfold no_constraint. rewrite Forall_forall. split.
  - intros E x Hx. destruct (decide (x = "")); [done|].
    assert (x ∈ canonicalEventFilterList l) as H by by apply elem_of_canonical.
    rewrite E in H. by apply elem_of_nil in H.
  - intros H. destruct (canonicalEventFilterList l) as [|x rest] eqn:E; [done|].
    assert (x ∈ canonicalEventFilterList l) as [Hne Hx]%elem_of_canonical by (rewrite E; left).
    by destruct Hne; apply H.
Qed.

Lemma in_filter_set l v :
  inEventFilterSet (newEventFieldSet (canonicalEventFilterList l)) v = true <-> one_of l v.
Proof.
  unfold inEventFilterSet, newEventFieldSet, one_of. case_bool_decide; [naive_solver|].
  rewrite bool_decide_eq_true, elem_of_list_to_set, elem_of_canonical. naive_solver.
Qed.

Lemma names_canonical l :
  names (newEventFieldSet (canonicalEventFilterList l)) = false <-> no_constraint l.
Proof.
  unfold names, newEventFieldSet. rewrite bool_decide_eq_false, <-canonical_nil. split.
  - intros Hs. destruct (canonicalEventFilterList l) as [|x rest]; [done|].
    destruct Hs. apply Nat.neq_0_lt_0. rewrite size_non_empty_iff. set_solver.
  - intros ->. rewrite list_to_set_nil, size_empty. lia.
Qed.

(** One include axis of the compiled matcher. *)
Lemma axis_include l (b : bool) (P : Prop) :
  (b = true <-> P) ->
  names (newEventFieldSet (canonicalEventFilterList l)) && negb b = false <-> no_constraint l \/ P.
Proof.
  intros Hb. pose proof (names_canonical l) as Hn.
  destruct (names _), b; simpl; naive_solver.
Qed.

Lemma axis_exclude l v :
  names (newEventFieldSet (canonicalEventFilterList l)) &&
  inEventFilterSet (newEventFieldSet (canonicalEventFilterList l)) v = false <-> ~ one_of l v.
Proof.
  rewrite <-in_filter_set. pose proof (names_canonical l) as Hn. unfold no_constraint in Hn.
  destruct (names _) eqn:En; simpl; [by rewrite not_true_iff_false|].
  split; [|done]. intros _ Hin%in_filter_set. destruct Hin as [Hne Hin].
  rewrite Forall_forall in Hn. by apply Hne, Hn.
Qed.

Lemma compiled_spec s obj :
  compiled_matches (compiled (canonical_spec s)) obj = true <-> spec_accepts s obj.
Proof.
  unfold compiled_matches, compiled, canonical_spec, spec_accepts. simpl.
  rewrite <-(axis_include (ef_Types s) _ _ (in_filter_set _ _)).
  rewrite <-(axis_include (ef_Reasons s) _ _ (in_filter_set _ _)).
  rewrite <-(axis_exclude (ef_ExcludeReasons s)).
  rewrite <-(axis_include (ef_SubjectKinds s) _ _ (in_filter_set _ _)).
  rewrite <-(axis_include (ef_SubjectNames s) _ _ (in_filter_set _ _)).
  rewrite <-(axis_include (ef_SourceComponents s)
    (componentMatches (newEventFieldSet (canonicalEventFilterList (ef_SourceComponents s))) obj));
    [|by unfold componentMatches; rewrite !orb_true_iff, !in_filter_set; tauto].
  repeat case_match; naive_solver.
Qed.

Lemma constrains_nothing s :
  constrainsNothing (canonical_spec s) = true ->
  no_constraint (ef_Types s) /\ no_constraint (ef_Reasons s) /\ no_constraint (ef_ExcludeReasons s) /\
  no_constraint (ef_SourceComponents s) /\ no_constraint (ef_SubjectKinds s) /\
  no_constraint (ef_SubjectNames s).
Proof.
  unfold constrainsNothing, canonical_spec. simpl.
  rewrite !andb_true_iff, !bool_decide_eq_true, !length_zero_iff_nil, !canonical_nil. tauto.
Qed.

Lemma constrains_nothing_accepts s obj :
  constrainsNothing (canonical_spec s) = true -> spec_accepts s obj.
Proof.
  intros (H1 & H2 & H3 & H4 & H5 & H6)%constrains_nothing. unfold spec_accepts.
  split_and!; try by left. intros [Hne Hin]. unfold no_constraint in H3.
  rewrite Forall_forall in H3. by apply Hne, H3.
Qed.

Lemma nested_absent obj outer field : obj !! outer = None -> nestedString obj outer field = "".
Proof. unfold nestedString. by intros ->. Qed.

(** The labels of an API read the fields the matcher reads. *)
Lemma labels_read gr labels obj :
  eventSelectableFields gr = Some labels -> served_by gr obj ->
  label_value (fl_eventType labels) obj = plainString obj "type" /\
  label_value (fl_reason labels) obj = plainString obj "reason" /\
  label_value (fl_subjectKind labels) obj = subjectField obj "kind" /\
  label_value (fl_subjectName labels) obj = subjectField obj "name".
Proof.
  unfold eventSelectableFields. intros El [Hcore Hmod]. unfold subjectField.
  case_bool_decide as Hc; [|case_bool_decide as Hd; [|done]]; injection El as <-;
    simpl fl_eventType; simpl fl_reason; simpl fl_subjectKind; simpl fl_subjectName;
    (split_and!; [done|done|..]).
  1, 2: rewrite (nested_absent obj "regarding") by auto; case_bool_decide as Hv; [done|exact Hv].
  all: rewrite (nested_absent obj "involvedObject") by auto; done.
Qed.

Lemma sole_term_registered labels label values :
  registered labels label ->
  Forall (fun t => registered labels (term_label t)) (sole_term label values).
Proof. intros Hl. unfold sole_term. destruct values as [|v [|]]; [done|by apply Forall_singleton|done]. Qed.

Lemma derived_terms_registered labels spec :
  Forall (fun t => registered labels (term_label t)) (derived_terms labels spec).
Proof.
  unfold derived_terms. rewrite !Forall_app.
  split_and!; try (apply sole_term_registered; unfold registered; by auto).
  assert (registered labels (fl_reason labels)) as Hl by (unfold registered; auto).
  unfold reason_terms. destruct (ef_Reasons spec) as [|r [|]], (ef_ExcludeReasons spec) as [|x xs];
    try done; [|by apply Forall_singleton].
  apply Forall_forall. intros y Hy. by apply list_elem_of_fmap in Hy as (z & -> & _).
Qed.

Section compiled.
Context `{FilterCodec, !FilterCodecLaws}.

(** A rule's filter and the string its target carries. *)
Definition rendered (s : EventFilterSpec) (raw : string) : Prop :=
  Forall (fun v => valid_utf8 v = true) (spec_values s) /\ CanonicalEventFilter s = Ok raw.

Lemma canonical_values s v : v ∈ spec_values (canonical_spec s) -> v <> "" /\ v ∈ spec_values s.
Proof.
  unfold spec_values, canonical_spec. simpl. rewrite !elem_of_app, !elem_of_canonical. naive_solver.
Qed.

Lemma rendered_decodes s raw :
  rendered s raw ->
  if constrainsNothing (canonical_spec s) then raw = ""
  else raw <> "" /\ filter_unmarshal raw = Ok (canonical_spec s).
Proof.
  unfold rendered, CanonicalEventFilter. intros [Hv E]. destruct (constrainsNothing _); [congruence|].
  apply filter_roundtrip; [|done]. rewrite Forall_forall in *. intros v Hin. by apply Hv, canonical_values.
Qed.

Definition unconstrained (s : EventFilterSpec) : bool := constrainsNothing (canonical_spec s).

Lemma compile_filters_rendered specs raws matchAll filters sole :
  Forall2 rendered specs raws ->
  exists last, compile_filters raws matchAll filters sole =
    Ok (matchAll || existsb unconstrained specs,
        filters ++ map (fun s => compiled (canonical_spec s))
                     (List.filter (fun s => negb (unconstrained s)) specs), last) /\
    (last = sole \/ exists s, s ∈ specs /\ unconstrained s = false /\ last = canonical_spec s) /\
    (forall s, List.filter (fun s => negb (unconstrained s)) specs = [s] -> last = canonical_spec s).
Proof.
  intros Hr. revert matchAll filters sole.
  induction Hr as [|s raw specs raws Hs Hr IH]; intros matchAll filters sole; simpl.
  - exists sole. rewrite orb_false_r, app_nil_r. split_and!; [done|by left|done].
  - apply rendered_decodes in Hs. fold (unconstrained s) in Hs.
    destruct (unconstrained s) eqn:Ec; simpl.
    + subst raw. rewrite bool_decide_true by done.
      destruct (IH true filters sole) as (last & -> & Hl & Ho). exists last.
      rewrite orb_true_r. split_and!; [done| |done].
      destruct Hl as [?|(x & ? & ?)]; [by left|right; exists x; split; [by right|done]].
    + destruct Hs as [Hne ->]. rewrite bool_decide_false by done.
      destruct (IH matchAll (filters ++ [compiled (canonical_spec s)]) (canonical_spec s))
        as (last & -> & Hl & Ho). exists last. rewrite <-app_assoc.
      split_and!; [done| |].
      * right. destruct Hl as [->|(x & ? & ?)].
        -- exists s. split_and!; [by left|done|done].
        -- exists x. split; [by right|done].
      * intros x [= -> E]. destruct Hl as [->|(y & Hy & Hc & ->)]; [done|].
        assert (y ∈ List.filter (fun s => negb (unconstrained s)) specs) as Hin.
        { apply list_elem_of_In, filter_In. split; [by apply list_elem_of_In|by rewrite Hc]. }
        rewrite E in Hin. by apply elem_of_nil in Hin.
Qed.

Context `{FieldSelectors, !FieldSelectorLaws}.

Lemma existsb_accepts specs obj :
  existsb (fun f => compiled_matches f obj)
    (map (fun s => compiled (canonical_spec s)) (List.filter (fun s => negb (unconstrained s)) specs)) = true ->
  exists s, s ∈ specs /\ spec_accepts s obj.
Proof.
  rewrite existsb_exists. intros (f & Hf & Hm). apply in_map_iff in Hf as (s & <- & Hs).
  apply filter_In in Hs as [Hs _]. exists s. split; [by apply list_elem_of_In|by apply compiled_spec].
Qed.

(** The push-down terms are implied by the filter they are derived from. *)
Lemma sole_term_holds label values v obj :
  label_value label obj = v ->
  no_constraint values \/ one_of values v ->
  forallb (term_holds obj) (sole_term label (canonicalEventFilterList values)) = true.
Proof.
  intros Hv Hor. unfold sole_term. case_match eqn:E; [done|]. case_match; [|done]. subst.
  simpl. rewrite andb_true_r, bool_decide_eq_true. destruct Hor as [Hn|Hone].
  - apply canonical_nil in Hn. by rewrite Hn in E.
  - assert (label_value label obj ∈ canonicalEventFilterList values) as Hin
      by by apply elem_of_canonical.
    rewrite E in Hin. by apply list_elem_of_singleton in Hin.
Qed.

Lemma reason_terms_hold label reasons excludes v obj :
  label_value label obj = v ->
  no_constraint reasons \/ one_of reasons v -> ~ one_of excludes v ->
  forallb (term_holds obj)
    (reason_terms label (canonicalEventFilterList reasons) (canonicalEventFilterList excludes)) = true.
Proof.
  intros Hv Hinc Hexc. unfold reason_terms.
  pose proof (sole_term_holds label reasons v obj Hv Hinc) as Hsole. unfold sole_term in Hsole.
  destruct (canonicalEventFilterList reasons) as [|r [|]]; [|by case_match|done].
  destruct (canonicalEventFilterList excludes) as [|x rest] eqn:E; [done|]. rewrite <-E.
  apply forallb_forall. intros t Ht. apply in_map_iff in Ht as (y & <- & Hy). simpl.
  apply bool_decide_eq_true. rewrite Hv. intros <-. apply Hexc, elem_of_canonical.
  by apply list_elem_of_In.
Qed.
End compiled.

(** Every Event an API serves and the matcher accepts is returned by a List or a
    Watch narrowed with the derived selector. *)
Lemma matched_is_selected
    `{FilterCodec, !FilterCodecLaws, FieldSelectors, !FieldSelectorLaws} gr specs raws m obj :
  Forall2 rendered specs raws -> compileEventFilters gr raws = Ok m -> served_by gr obj ->
  event_matches (Some m) obj = true -> server_selects gr (em_fieldSelector m) obj = true.
Proof.
  intros Hr Hm Hsrv Hacc. destruct (compile_filters_rendered _ _ false [] spec_zero Hr) as (last & E & _ & Hone).
  unfold compileEventFilters in Hm. rewrite E in Hm. injection Hm as <-.
  unfold event_matches, matchesAll in Hacc. simpl in *. revert Hacc.
  destruct (existsb unconstrained specs); simpl; [intros _; apply selects_unfiltered|].
  case_bool_decide as Hz; simpl; [intros _; apply selects_unfiltered|]. intros Hacc.
  case_bool_decide as Hl; [|apply selects_unfiltered]. rewrite length_map in Hl.
  destruct (List.filter _ specs) as [|s [|]] eqn:Ef; [done| |done]. simpl in Hacc.
  rewrite orb_false_r in Hacc. apply compiled_spec in Hacc.
  destruct Hacc as (Ht & Hre & Hx & _ & Hk & Hn). rewrite (Hone s eq_refl).
  unfold deriveEventFieldSelector. destruct (eventSelectableFields gr) as [labels|] eqn:El;
    [|apply selects_unfiltered].
  pose proof (labels_read gr labels obj El Hsrv) as Hval.
  destruct Hval as (V1 & V2 & V3 & V4).
  destruct (derived_terms labels (canonical_spec s)) as [|t ts] eqn:Ed; [apply selects_unfiltered|].
  rewrite <-Ed, (selects_terms gr labels); [|done|].
  - unfold derived_terms, canonical_spec. simpl. rewrite !forallb_app, !andb_true_iff.
    split_and!; try (by eapply sole_term_holds); by eapply reason_terms_hold.
  - apply derived_terms_registered.
Qed.

(** ** Properties *)

(** what the compiled matcher accepts. From the strings the rules' targets
    carry, compilation never fails, and the matcher accepts an Event exactly when
    some contributing rule's filter, read as its author wrote it, accepts it:
    within a list any entry, across lists all, no constraint from a list without
    entries, and an Event without a field neither included nor excluded by it. *)
Theorem compiled_filters_are_union
    `{FilterCodec, !FilterCodecLaws, FieldSelectors} gr specs raws :
  Forall2 rendered specs raws ->
  exists m, compileEventFilters gr raws = Ok m /\
    forall obj, event_matches (Some m) obj = true <->
      specs = [] \/ exists s, s ∈ specs /\ spec_accepts s obj.
Proof.
  intros Hr. destruct (compile_filters_rendered _ _ false [] spec_zero Hr) as (last & E & _).
  unfold compileEventFilters. rewrite E. eexists. split; [done|]. intros obj.
  unfold event_matches, matchesAll. simpl.
  destruct (existsb unconstrained specs) eqn:Eu; simpl.
  - split; [|done]. intros _. right. apply existsb_exists in Eu as (s & Hs & Hc).
    exists s. split; [by apply list_elem_of_In|by apply constrains_nothing_accepts].
  - assert (forall s, s ∈ specs -> unconstrained s = false) as Hall.
    { intros s Hs. destruct (unconstrained s) eqn:Ec; [|done].
      rewrite <-Eu. symmetry. apply existsb_exists. exists s. by rewrite list_elem_of_In in Hs. }
    case_bool_decide as Hlen.
    + split; [|done]. intros _. left. destruct specs as [|s rest]; [done|].
      simpl in Hlen. rewrite (Hall s) in Hlen by left. done.
    + split; [by right; apply existsb_accepts|]. intros [->|(s & Hs & Hacc)]; [done|].
      apply existsb_exists. exists (compiled (canonical_spec s)). split; [|by apply compiled_spec].
      apply (in_map (fun s => compiled (canonical_spec s))), filter_In.
      split; [by apply list_elem_of_In|by rewrite Hall].
Qed.

(** ** Evaluation on concrete filters *)

#[export] Instance EventFilterSpec_eq_dec : EqDecision EventFilterSpec.
Proof. solve_decision. Defined.

#[export] Instance EventFilterSpec_countable : Countable EventFilterSpec.
Proof.
  apply (inj_countable'
    (fun s => (ef_Types s, ef_Reasons s, ef_ExcludeReasons s, ef_SourceComponents s,
               ef_SubjectKinds s, ef_SubjectNames s))
    (fun p => mkSpec p.1.1.1.1.1 p.1.1.1.1.2 p.1.1.1.2 p.1.1.2 p.1.2 p.2)). by intros [].
Defined.

#[export] Instance fieldTerm_eq_dec : EqDecision fieldTerm.
Proof. solve_decision. Defined.

#[export] Instance fieldTerm_countable : Countable fieldTerm.
Proof.
  apply (inj_countable'
    (fun t => match t with OneTermEqualSelector l v => (true, l, v) | OneTermNotEqualSelector l v => (false, l, v) end)
    (fun p => if p.1.1 : bool then OneTermEqualSelector p.1.2 p.2 else OneTermNotEqualSelector p.1.2 p.2)).
  by intros [].
Defined.

Definition text_filters : FilterCodec := {|
  filter_marshal s := Ok (text_of s);
  filter_unmarshal raw := match of_text raw with Some s => Ok s | None => Err "invalid" end;
  valid_utf8 _ := true;
|}.

#[export] Instance text_filters_laws : @FilterCodecLaws text_filters.
Proof.
  split. intros s raw _ E. injection E as <-. split; [done|].
  unfold filter_unmarshal, text_filters. by rewrite of_text_of.
Qed.

Definition text_selectors : FieldSelectors := {|
  and_selectors ts := text_of ts;
  server_selects _ sel obj :=
    match of_text sel with
    | Some ts => forallb (term_holds obj) ts
    | None => true
    end;
|}.

#[export] Instance text_selectors_laws : @FieldSelectorLaws text_selectors.
Proof.
  split; [done|done|]. intros gr labels ts obj _ _. unfold server_selects, and_selectors, text_selectors.
  by rewrite of_text_of.
Qed.

(** A rule that keeps Warnings and drops two reasons. *)
Definition sample_filter : EventFilterSpec :=
  mkSpec ["Warning"; "Warning"] [] ["Pulled"; ""; "Created"] [] [] [].

Definition sample_event : object :=
  {["type" := JStr "Warning"; "reason" := JStr "BackOff"]}.

Lemma compiled_filters_are_union_witness :
  exists m, @compileEventFilters text_filters text_selectors core_events
              [match @CanonicalEventFilter text_filters sample_filter with Ok raw => raw | Err _ => "" end] = Ok m /\
    event_matches (Some m) sample_event = true.
Proof.
  destruct (@compiled_filters_are_union text_filters _ text_selectors core_events [sample_filter]
              [match @CanonicalEventFilter text_filters sample_filter with Ok raw => raw | Err _ => "" end])
    as (m & E & Hm).
  - constructor; [|constructor]. split; [by repeat constructor|vm_compute; reflexivity].
  - exists m. split; [exact E|]. apply Hm. right. exists sample_filter. split; [left|].
    apply compiled_spec. vm_compute. reflexivity.
Defined.

