(* ===== verification/Interest.v ===== *)
(** * Interest: who wants which stream

    Models [src/internal/watch/interest.go]: the interest of one sink in one
    informer's stream, built from a merged target of the registry, and the table
    both the informers' notification path and the pipeline's lookups read.
    Interests are immutable once installed, so they are values; the table's two
    indexes are rebuilt wholesale by [replace]. Ranging over a Go map visits its
    elements in an unspecified order, for which [map_to_list] stands. Label
    selectors and the rendering of a resource are apimachinery's: the classes
    [LabelSelectors] and [Schema]. *)

From S2P Require Import Prelude Identity Plan GoJson Redact RedactParse EventFilter.

(** ** Identities *)

Record GroupVersionResource := mkGVR { gvr_Group : string; gvr_Version : string; gvr_Resource : string }.

#[export] Instance GVR_eq_dec : EqDecision GroupVersionResource.
Proof. solve_decision. Defined.
#[export] Instance GVR_countable : Countable GroupVersionResource.
Proof.
  apply (inj_countable' (fun g => (gvr_Group g, gvr_Version g, gvr_Resource g))
           (fun p => mkGVR p.1.1 p.1.2 p.2)). by intros [].
Defined.

Definition GVR_GroupResource (g : GroupVersionResource) : GroupResource :=
  mkGR (gvr_Group g) (gvr_Resource g).

Class Schema := {
  (** [schema.GroupVersionResource.String] *)
  GVR_String : GroupVersionResource -> string;
}.

Record informerScope := mkInformerScope { is_GVR : GroupVersionResource; is_Namespace : string }.

#[export] Instance informerScope_eq_dec : EqDecision informerScope.
Proof. solve_decision. Defined.
#[export] Instance informerScope_countable : Countable informerScope.
Proof.
  apply (inj_countable' (fun s => (is_GVR s, is_Namespace s)) (fun p => mkInformerScope p.1 p.2)).
  by intros [].
Defined.

Definition informerScope_String `{Schema} (s : informerScope) : string :=
  if bool_decide (is_Namespace s = "") then GVR_String (is_GVR s) +:+ " (cluster-wide)"
  else GVR_String (is_GVR s) +:+ " in namespace " +:+ is_Namespace s.

Record informerKey := mkInformerKey { ik_scope : informerScope; ik_FieldSelector : string }.

#[export] Instance informerKey_eq_dec : EqDecision informerKey.
Proof. solve_decision. Defined.
#[export] Instance informerKey_countable : Countable informerKey.
Proof.
  apply (inj_countable' (fun k => (ik_scope k, ik_FieldSelector k)) (fun p => mkInformerKey p.1 p.2)).
  by intros [].
Defined.

Definition informerKey_String `{Schema} (k : informerKey) : string :=
  if bool_decide (ik_FieldSelector k = "") then informerScope_String (ik_scope k)
  else informerScope_String (ik_scope k) +:+ " (field selector " +:+ ik_FieldSelector k +:+ ")".

Record interestID := mkInterestID { ii_informer : informerScope; ii_sink : ID }.

#[export] Instance interestID_eq_dec : EqDecision interestID.
Proof. solve_decision. Defined.
#[export] Instance interestID_countable : Countable interestID.
Proof.
  apply (inj_countable' (fun i => (ii_informer i, ii_sink i)) (fun p => mkInterestID p.1 p.2)).
  by intros [].
Defined.

Record identityKey := mkIdentityKey {
  idk_Group : string;
  idk_Kind : string;
  idk_Namespace : string;
  idk_Sink : ID;
}.

#[export] Instance identityKey_eq_dec : EqDecision identityKey.
Proof. solve_decision. Defined.
#[export] Instance identityKey_countable : Countable identityKey.
Proof.
  apply (inj_countable' (fun i => (idk_Group i, idk_Kind i, idk_Namespace i, idk_Sink i))
           (fun p => mkIdentityKey p.1.1.1 p.1.1.2 p.1.2 p.2)). by intros [].
Defined.

(** ** Interests *)

Class LabelSelectors := {
  (** a parsed [labels.Selector] *)
  Selector : Type;
  (** [labels.Parse] *)
  labels_Parse : string -> result string Selector;
  (** [Selector.Matches]; the nil label map is empty *)
  selector_Matches : Selector -> gmap string string -> bool;
}.

(** [ScopeTransition] of [src/internal/watch/manager.go]. *)
Record ScopeTransition := mkTransition {
  st_Sink : ID;
  st_Scope : ScopeKey;
  st_Target : string;
  st_APIVersion : string;
  st_RuleKeys : list string;
  st_At : Z;
}.

Section interest.
Context `{LabelSelectors, Strconv, FilterCodec, FieldSelectors, Schema}.

Record scopeInterest := mkInterest {
  si_informer : informerKey;
  si_gvk : GroupVersionKind;
  si_sink : ID;
  si_scope : ScopeKey;
  si_ruleKeys : list string;
  si_selectors : list Selector;
  si_matchAll : bool;
  si_events : option eventMatcher;
  si_fieldSelector : string;
  si_redaction : option RedactionPolicy;
}.

Inductive interestError :=
| errParseSelector (raw reason : string)
| errCompileRedaction (e : parseError)
| errCompileFilter (reason : string).

Definition newline : Ascii.ascii := Ascii.ascii_of_nat 10.

(** Both loops of [redactionPaths]: the paths in order of first occurrence. *)
Fixpoint collect_redactions (raws : list string) (seen : gset string) : list string :=
  match raws with
  | [] => []
  | path :: rest =>
      if bool_decide (path = "") then collect_redactions rest seen
      else if bool_decide (path ∈ seen) then collect_redactions rest seen
      else path :: collect_redactions rest ({[path]} ∪ seen)
  end.

Definition redactionPaths (redactions : list string) : list string :=
  merge_sort String.le (collect_redactions (redactions ≫= split_on newline) ∅).

(** The selector loop of [newScopeInterest]. *)
Fixpoint parse_selectors (raws : list string) (matchAll : bool) (selectors : list Selector)
    : result interestError (bool * list Selector) :=
  match raws with
  | [] => Ok (matchAll, selectors)
  | raw :: rest =>
      if bool_decide (raw = "") then parse_selectors rest true selectors
      else
        match labels_Parse raw with
        | Err reason => Err (errParseSelector raw reason)
        | Ok sel => parse_selectors rest matchAll (selectors ++ [sel])
        end
  end.

Definition compile_redaction_set (redactions : list string)
    : result interestError (option RedactionPolicy) :=
  let paths := redactionPaths redactions in
  if bool_decide (0 < length paths) then
    match CompileRedaction paths with
    | Err e => Err (errCompileRedaction e)
    | Ok policy => Ok (Some policy)
    end
  else Ok None.

Definition newScopeInterest (state : TargetState) (scope : informerScope)
    : result interestError scopeInterest :=
  let key := ts_Key state in
  match parse_selectors (ts_Selectors state) false [] with
  | Err e => Err e
  | Ok (matchAll, selectors) =>
      match compile_redaction_set (ts_Redactions state) with
      | Err e => Err e
      | Ok redaction =>
          match compileEventFilters (GVR_GroupResource (is_GVR scope)) (ts_EventFilters state) with
          | Err reason => Err (errCompileFilter reason)
          | Ok events =>
              Ok (mkInterest (mkInformerKey scope "") (tk_GVK key) (tk_Sink key)
                    (mkScopeKey (gvk_Group (tk_GVK key)) (gvk_Kind (tk_GVK key)) (tk_Namespace key))
                    (ts_RuleKeys state) selectors
                    (matchAll || bool_decide (length selectors = 0)) (Some events)
                    (em_fieldSelector events) redaction)
          end
      end
  end.

Definition interest_id (i : scopeInterest) : interestID :=
  mkInterestID (ik_scope (si_informer i)) (si_sink i).

Definition transition (i : scopeInterest) (at_ : Z) : ScopeTransition :=
  mkTransition (si_sink i) (si_scope i) (informerScope_String (ik_scope (si_informer i)))
    (gvk_Version (si_gvk i)) (si_ruleKeys i) at_.

Definition interest_identity (i : scopeInterest) : identityKey :=
  mkIdentityKey (gvk_Group (si_gvk i)) (gvk_Kind (si_gvk i))
    (is_Namespace (ik_scope (si_informer i))) (si_sink i).

Definition keyFor (i : scopeInterest) (namespace name : string) : Key :=
  mkKey (si_sink i) (gvk_Group (si_gvk i)) (gvk_Kind (si_gvk i)) namespace name.

Definition interest_matches (i : scopeInterest) (objLabels : option (gmap string string)) : bool :=
  if si_matchAll i then true
  else existsb (fun sel => selector_Matches sel (default ∅ objLabels)) (si_selectors i).

Definition matchesEither (i : scopeInterest) (current previous : option (gmap string string)) : bool :=
  if interest_matches i current then true
  else match previous with None => false | Some _ => interest_matches i previous end.

Definition matchesEvent (i : scopeInterest) (obj : object) : bool := event_matches (si_events i) obj.

Definition recordsEveryEvent (i : scopeInterest) : bool := matchesAll (si_events i).

(** ** The table *)

Record interestTable := mkTable {
  it_current : gmap interestID scopeInterest;
  it_byInformer : gmap informerKey (list scopeInterest);
  it_byIdentity : gmap identityKey (list scopeInterest);
}.

Definition newInterestTable : interestTable := mkTable ∅ ∅ ∅.

(** [m[k] = append(m[k], v)] over the interests in order. *)
Definition index_by {K} `{Countable K} (f : scopeInterest -> K) (l : list scopeInterest)
    : gmap K (list scopeInterest) :=
  foldl (fun m i => <[f i := default [] (m !! f i) ++ [i]]> m) ∅ l.

Definition compare_scopes (a b : scopeInterest) : comparison :=
  cmp_or (ID_Compare (si_sink a) (si_sink b))
    (cmp_or (String.compare (sk_Group (si_scope a)) (sk_Group (si_scope b)))
       (cmp_or (String.compare (sk_Kind (si_scope a)) (sk_Kind (si_scope b)))
          (String.compare (sk_Namespace (si_scope a)) (sk_Namespace (si_scope b))))).

Definition scope_le (a b : scopeInterest) : Prop := compare_scopes a b <> Gt.
Definition sink_le (a b : scopeInterest) : Prop := ID_Compare (si_sink a) (si_sink b) <> Gt.

#[local] Instance scope_le_dec : RelDecision scope_le.
Proof. intros a b. unfold scope_le. apply _. Defined.
#[local] Instance sink_le_dec : RelDecision sink_le.
Proof. intros a b. unfold sink_le. apply _. Defined.

Definition sortInterests (l : list scopeInterest) : list scopeInterest := merge_sort scope_le l.

Definition replace (desired : gmap interestID scopeInterest) (t : interestTable)
    : list scopeInterest * interestTable :=
  let removed := map snd (map_to_list (filter (fun p => desired !! p.1 = None) (it_current t))) in
  let interests := map snd (map_to_list desired) in
  (sortInterests removed,
   mkTable desired (merge_sort sink_le <$> index_by si_informer interests)
     (index_by interest_identity interests)).

Definition interestsFor (t : interestTable) (key : informerKey) : list scopeInterest :=
  default [] (it_byInformer t !! key).

Definition lookupIdentity (t : interestTable) (ref : Key) : list scopeInterest :=
  let exact := mkIdentityKey (k_Group ref) (k_Kind ref) (k_Namespace ref) (k_Sink ref) in
  let clusterWide := mkIdentityKey (k_Group ref) (k_Kind ref) "" (k_Sink ref) in
  let interests := default [] (it_byIdentity t !! exact) in
  if bool_decide (exact = clusterWide) then interests
  else
    let clusterWideInterests := default [] (it_byIdentity t !! clusterWide) in
    match interests, clusterWideInterests with
    | [], _ => clusterWideInterests
    | _, [] => interests
    | _, _ => interests ++ clusterWideInterests
    end.

Definition interestsForScope (t : interestTable) (id : ID) (scope : ScopeKey) : list scopeInterest :=
  default [] (it_byIdentity t !! mkIdentityKey (sk_Group scope) (sk_Kind scope) (sk_Namespace scope) id).

Definition table_size (t : interestTable) : nat := size (it_current t).

(** ** Well-formed tables

    Installed interests are stored under their own identity, and their scope is
    the one their kind and informer name. *)

Definition wf_interest (i : scopeInterest) : Prop :=
  si_scope i = mkScopeKey (gvk_Group (si_gvk i)) (gvk_Kind (si_gvk i))
                 (is_Namespace (ik_scope (si_informer i))).

Definition wf_desired (m : gmap interestID scopeInterest) : Prop :=
  map_Forall (fun id i => interest_id i = id /\ wf_interest i) m.

(** The indexes are what [current] says. *)
Record wf_table (t : interestTable) : Prop := {
  wt_desired : wf_desired (it_current t);
  wt_byInformer : forall k i, i ∈ interestsFor t k <->
    exists id, it_current t !! id = Some i /\ si_informer i = k;
  wt_byIdentity : forall k i, i ∈ default [] (it_byIdentity t !! k) <->
    exists id, it_current t !! id = Some i /\ interest_identity i = k;
  wt_NoDup : forall k, NoDup (interestsFor t k);
}.

Lemma elem_of_index_by {K} `{Countable K} (f : scopeInterest -> K) l k i :
  i ∈ default [] (index_by f l !! k) <-> i ∈ l /\ f i = k.
Proof.
  unfold index_by. assert (forall m, i ∈ default [] (foldl (fun m i => <[f i := default [] (m !! f i) ++ [i]]> m) m l !! k)
    <-> i ∈ default [] (m !! k) \/ i ∈ l /\ f i = k) as ->; [|by rewrite lookup_empty, elem_of_nil; tauto].
  induction l as [|x l IH]; intros m; simpl; [rewrite elem_of_nil; tauto|].
  rewrite IH, elem_of_cons. destruct (decide (f x = k)) as [<-|Hne].
  - rewrite lookup_insert_eq. simpl. rewrite elem_of_app, list_elem_of_singleton. naive_solver.
  - rewrite lookup_insert_ne by done. naive_solver.
Qed.

Lemma elem_of_values (m : gmap interestID scopeInterest) i :
  i ∈ map snd (map_to_list m) <-> exists id, m !! id = Some i.
Proof.
  rewrite list_elem_of_fmap. split.
  - intros ([id x] & -> & Hin). exists id. by apply elem_of_map_to_list.
  - intros [id Hin]. exists (id, i). split; [done|]. by apply elem_of_map_to_list.
Qed.

Lemma values_NoDup (m : gmap interestID scopeInterest) : wf_desired m -> NoDup (map snd (map_to_list m)).
Proof.
  intros Hm. apply NoDup_fmap_2_strong; [|apply NoDup_map_to_list].
  intros [id1 i1] [id2 i2] Hx1%elem_of_map_to_list Hx2%elem_of_map_to_list E. simpl in E. subst.
  destruct (Hm _ _ Hx1) as [<- _], (Hm _ _ Hx2) as [<- _]. done.
Qed.

Lemma index_by_NoDup {K} `{Countable K} (f : scopeInterest -> K) l k :
  NoDup l -> NoDup (default [] (index_by f l !! k)).
Proof.
  induction l as [|x l IH] using rev_ind; [by intros _; unfold index_by; simpl; rewrite lookup_empty; constructor|].
  intros (Hl & Hd & _)%NoDup_app. specialize (IH Hl). unfold index_by. rewrite foldl_snoc. fold (index_by f l).
  destruct (decide (f x = k)) as [<-|Hne]; [|by rewrite lookup_insert_ne].
  rewrite lookup_insert_eq. simpl. apply NoDup_app. split_and!; [done| |apply NoDup_singleton].
  intros y [Hy _]%elem_of_index_by. by apply Hd.
Qed.

Lemma replace_wf desired t : wf_desired desired -> wf_table (replace desired t).2.
Proof.
  intros Hd. split; simpl; [done|..].
  - intros k i. unfold interestsFor. simpl. rewrite lookup_fmap.
    assert (i ∈ default [] (merge_sort sink_le <$> index_by si_informer (map snd (map_to_list desired)) !! k)
      <-> i ∈ default [] (index_by si_informer (map snd (map_to_list desired)) !! k)) as ->.
    { destruct (index_by _ _ !! k); simpl; [by rewrite merge_sort_Permutation|done]. }
    rewrite elem_of_index_by, elem_of_values. naive_solver.
  - intros k i. rewrite elem_of_index_by, elem_of_values. naive_solver.
  - intros k. unfold interestsFor. simpl. rewrite lookup_fmap.
    pose proof (index_by_NoDup si_informer _ k (values_NoDup _ Hd)) as Hn.
    destruct (index_by _ _ !! k); simpl in *; [by rewrite merge_sort_Permutation|done].
Qed.

(** What a replacement reports as removed. *)
Lemma elem_of_removed desired t i :
  i ∈ (replace desired t).1 <->
  exists id, it_current t !! id = Some i /\ desired !! id = None.
Proof.
  simpl. unfold sortInterests. rewrite merge_sort_Permutation, elem_of_values.
  setoid_rewrite map_lookup_filter_Some. simpl. done.
Qed.

(** The interests that cover an object: its kind and sink, in its namespace or in
    every one. *)
Lemma elem_of_lookupIdentity t ref i :
  wf_table t ->
  i ∈ lookupIdentity t ref <->
  exists id, it_current t !! id = Some i /\ si_sink i = k_Sink ref /\ in_scope (si_scope i) ref.
Proof.
  intros [Hd _ Hi _]. unfold lookupIdentity.
  set (exact := mkIdentityKey _ _ (k_Namespace ref) _). set (wide := mkIdentityKey _ _ "" _).
  transitivity (i ∈ default [] (it_byIdentity t !! exact) \/ i ∈ default [] (it_byIdentity t !! wide)).
  { case_bool_decide as E; [rewrite <-E; tauto|].
    destruct (default [] (it_byIdentity t !! exact)) as [|x xs]; [rewrite elem_of_nil; tauto|].
    destruct (default [] (it_byIdentity t !! wide)); [rewrite elem_of_nil; tauto|by rewrite elem_of_app]. }
  rewrite !Hi. unfold in_scope. split.
  - intros [(id & Hc & E)|(id & Hc & E)]; exists id; destruct (Hd id i Hc) as [_ Hw];
      rewrite Hw; unfold interest_identity, exact, wide in E; injection E; simpl; naive_solver.
  - intros (id & Hc & Hs & Hg & Hk & Hn). destruct (Hd id i Hc) as [_ Hw].
    rewrite Hw in Hg, Hk, Hn. simpl in *. unfold interest_identity, exact, wide.
    destruct Hn as [Hn|Hn]; [right|left]; exists id; (split; [done|]); congruence.
Qed.

Lemma elem_of_interestsForScope t id scope i :
  wf_table t ->
  i ∈ interestsForScope t id scope <->
  exists n, it_current t !! n = Some i /\ si_sink i = id /\ si_scope i = scope.
Proof.
  intros [Hd _ Hi _]. unfold interestsForScope. rewrite Hi. unfold interest_identity.
  split; intros (n & Hc & E); exists n; destruct (Hd n i Hc) as [_ Hw]; (split; [done|]).
  - destruct scope. injection E as E1 E2 E3 E4. simpl in *. split; [done|]. rewrite Hw. by subst.
  - destruct E as [<- <-]. by rewrite Hw.
Qed.
End interest.
