(* ===== verification/Resolver.v ===== *)
(** * Resolver: from kinds to resources, with a retry gate

    Models [src/internal/watch/resolver.go]. The REST mapper and its errors are
    controller-runtime's: the class [RESTMapping] carries the type of its errors and
    the test the code classifies them with; what the mapper answers is an argument of
    each call. The clock is read once at the gate and once when a failure is parked;
    both readings are arguments. Instants and delays are nanoseconds. *)

From S2P Require Import Prelude Plan EventFilter Interest.

Class RESTMapping := {
  mapper_error : Type;
  (** [meta.IsNoMatchError] *)
  IsNoMatchError : mapper_error -> bool;
}.

Definition ReasonKindNotFound : string := "KindNotFound".
Definition ReasonClusterScopedKind : string := "ClusterScopedKind".

Inductive RuleScope := NamespacedRule | ClusterRule.

Definition second : Z := 1000000000.
Definition baseRetryDelay : Z := second.
Definition maxRetryDelay : Z := 30 * second.

Section resolver.
Context `{RESTMapping}.

Inductive resolveError :=
| ErrKindNotFound (gvk : GroupVersionKind) (err : mapper_error)
| ErrClusterScopedKind (gvk : GroupVersionKind) (resource : GroupVersionResource)
| errResolve (gvk : GroupVersionKind) (err : mapper_error).

Record parkedKind := mkParked { pk_err : resolveError; pk_delay : Z; pk_retryAt : Z }.

Record Resolver := mkResolver {
  rv_parked : gmap GroupVersionKind parkedKind;
  rv_baseDelay : Z;
  rv_maxDelay : Z;
}.

Definition NewResolver : Resolver := mkResolver ∅ baseRetryDelay maxRetryDelay.

Definition set_parked (parked : gmap GroupVersionKind parkedKind) (r : Resolver) : Resolver :=
  mkResolver parked (rv_baseDelay r) (rv_maxDelay r).

Definition classify (gvk : GroupVersionKind) (err : mapper_error) : resolveError :=
  if IsNoMatchError err then ErrKindNotFound gvk err else errResolve gvk err.

Definition gatedError (gvk : GroupVersionKind) (now : Z) (r : Resolver) : option resolveError :=
  match rv_parked r !! gvk with
  | None => None
  | Some parked => if bool_decide (now < pk_retryAt parked)%Z then Some (pk_err parked) else None
  end.

Definition park (gvk : GroupVersionKind) (err : resolveError) (now : Z) (r : Resolver) : Resolver :=
  let delay := match rv_parked r !! gvk with
               | None => rv_baseDelay r
               | Some parked => Z.min (i64_wrap (pk_delay parked * 2)) (rv_maxDelay r)
               end in
  set_parked (<[gvk := mkParked err delay (now + delay)]> (rv_parked r)) r.

Definition unpark (gvk : GroupVersionKind) (r : Resolver) : Resolver :=
  set_parked (delete gvk (rv_parked r)) r.

(** [answer] is what [RESTMapping] returns if it is asked, [now] and [later] the
    instants the clock shows at the gate and after the mapper's answer. *)
Definition Resolve (answer : result mapper_error (GroupVersionResource * bool)) (now later : Z)
    (gvk : GroupVersionKind) (r : Resolver)
    : result resolveError (GroupVersionResource * bool) * Resolver :=
  match gatedError gvk now r with
  | Some err => (Err err, r)
  | None =>
      match answer with
      | Err err => (Err (classify gvk err), park gvk (classify gvk err) later r)
      | Ok mapping => (Ok mapping, unpark gvk r)
      end
  end.

Definition checkScope (gvk : GroupVersionKind) (gvr : GroupVersionResource) (namespaced : bool)
    (rule : RuleScope) : option resolveError :=
  match rule with
  | NamespacedRule => if negb namespaced then Some (ErrClusterScopedKind gvk gvr) else None
  | ClusterRule => None
  end.

Definition ResolveForScope (answer : result mapper_error (GroupVersionResource * bool)) (now later : Z)
    (gvk : GroupVersionKind) (rule : RuleScope) (r : Resolver)
    : result resolveError (GroupVersionResource * bool) * Resolver :=
  let '(res, r1) := Resolve answer now later gvk r in
  match res with
  | Err err => (Err err, r1)
  | Ok (gvr, namespaced) =>
      match checkScope gvk gvr namespaced rule with
      | Some err => (Err err, r1)
      | None => (Ok (gvr, namespaced), r1)
      end
  end.

(** ** Runs of calls *)

Record call := mkCall {
  c_gvk : GroupVersionKind;
  c_rule : RuleScope;
  c_now : Z;
  c_later : Z;
  c_answer : result mapper_error (GroupVersionResource * bool);
}.

Definition resolve_call (r : Resolver) (c : call) : Resolver :=
  (ResolveForScope (c_answer c) (c_now c) (c_later c) (c_gvk c) (c_rule c) r).2.

Definition resolver_after (calls : list call) : Resolver := foldl resolve_call NewResolver calls.

(** The calls for a kind that reached the mapper, up to now. *)
Fixpoint attempts_of (gvk : GroupVersionKind) (r : Resolver) (calls : list call) : list call :=
  match calls with
  | [] => []
  | c :: rest =>
      let reached := bool_decide (c_gvk c = gvk) &&
                     match gatedError gvk (c_now c) r with Some _ => false | None => true end in
      (if reached then [c] else []) ++ attempts_of gvk (resolve_call r c) rest
  end.

(** How often the mapper has failed for a kind since it last succeeded, and when and
    how it failed last. *)
Fixpoint failing (attempts : list call) (n : nat) (last : option (Z * mapper_error))
    : nat * option (Z * mapper_error) :=
  match attempts with
  | [] => (n, last)
  | c :: rest => match c_answer c with
                 | Ok _ => failing rest 0 None
                 | Err err => failing rest (S n) (Some (c_later c, err))
                 end
  end.

(** The delay after the [n]-th failure in a row. *)
Definition backoff (n : nat) : Z := Z.min (baseRetryDelay * 2 ^ (Z.of_nat n - 1)) maxRetryDelay.

(** ** Lemmas *)

Lemma resolve_call_eq r c :
  resolve_call r c =
  match gatedError (c_gvk c) (c_now c) r with
  | Some _ => r
  | None => match c_answer c with
            | Err err => park (c_gvk c) (classify (c_gvk c) err) (c_later c) r
            | Ok _ => unpark (c_gvk c) r
            end
  end.
Proof.
  unfold resolve_call, ResolveForScope, Resolve. destruct (gatedError _ _ r); [done|].
  destruct (c_answer c) as [[gvr b]|]; [|done]. by destruct (checkScope _ _ _ _).
Qed.

Lemma attempts_snoc gvk r calls c :
  attempts_of gvk r (calls ++ [c]) =
  attempts_of gvk r calls ++
    (if bool_decide (c_gvk c = gvk) &&
        match gatedError gvk (c_now c) (foldl resolve_call r calls) with Some _ => false | None => true end
     then [c] else []).
Proof.
  revert r. induction calls as [|x calls IH]; intros r; simpl; [by rewrite app_nil_r|].
  by rewrite IH, app_assoc.
Qed.

Lemma failing_snoc attempts n last c :
  failing (attempts ++ [c]) n last =
  match c_answer c with
  | Ok _ => (0, None)
  | Err err => (S (failing attempts n last).1, Some (c_later c, err))
  end.
Proof.
  revert n last. induction attempts as [|x l IH]; intros n last; simpl; [by destruct (c_answer c)|].
  destruct (c_answer x); apply IH.
Qed.

Lemma backoff_step n : (0 < n)%nat -> Z.min (i64_wrap (backoff n * 2)) maxRetryDelay = backoff (S n).
Proof.
  intros Hn. unfold backoff. rewrite i64_wrap_id.
  - replace (Z.of_nat (S n) - 1)%Z with (Z.succ (Z.of_nat n - 1)) by lia.
    rewrite Z.pow_succ_r by lia. unfold maxRetryDelay, second. lia.
  - pose proof (Z.pow_nonneg 2 (Z.of_nat n - 1)). unfold baseRetryDelay, maxRetryDelay, second, i64_min, i64_max. lia.
Qed.

Lemma backoff_range n : (0 < n)%nat -> (baseRetryDelay <= backoff n <= maxRetryDelay)%Z.
Proof.
  intros Hn. unfold backoff. assert (0 < 2 ^ (Z.of_nat n - 1))%Z by (apply Z.pow_pos_nonneg; lia).
  unfold baseRetryDelay, maxRetryDelay, second. lia.
Qed.

(** The gate of every kind is what its failures since the last success make it. *)
Definition gate_of (gvk : GroupVersionKind) (attempts : list call) : option parkedKind :=
  match failing attempts 0 None with
  | (n, Some (at_, err)) => Some (mkParked (classify gvk err) (backoff n) (at_ + backoff n))
  | (_, None) => None
  end.

Lemma failing_count attempts n last :
  (is_Some last <-> 0 < n) -> is_Some (failing attempts n last).2 <-> 0 < (failing attempts n last).1.
Proof.
  revert n last. induction attempts as [|x l IH]; intros n last Hl; simpl; [done|].
  destruct (c_answer x); apply IH; split; try lia; [by intros [??]|eauto].
Qed.

Lemma gate_spec calls gvk :
  rv_parked (resolver_after calls) !! gvk = gate_of gvk (attempts_of gvk NewResolver calls) /\
  rv_baseDelay (resolver_after calls) = baseRetryDelay /\ rv_maxDelay (resolver_after calls) = maxRetryDelay.
Proof.
  unfold resolver_after. induction calls as [|c calls (IH & IHb & IHm)] using rev_ind; [done|].
  rewrite foldl_snoc, attempts_snoc. set (r := foldl _ _ calls) in *.
  rewrite resolve_call_eq. destruct (decide (c_gvk c = gvk)) as [<-|Hne].
  - rewrite bool_decide_eq_true_2 by done. simpl.
    destruct (gatedError (c_gvk c) (c_now c) r); [by rewrite app_nil_r|].
    unfold gate_of. rewrite failing_snoc. destruct (c_answer c) eqn:Ea; simpl.
    + split; [apply lookup_delete_eq|done].
    + split; [|done]. rewrite lookup_insert_eq, IH, IHb, IHm. unfold gate_of.
      pose proof (failing_count (attempts_of (c_gvk c) NewResolver calls) 0 None) as Hc.
      destruct (failing _ 0 None) as [n [[at_ last]|]] eqn:Ef; simpl in Hc.
      * assert (Hn : 0 < n) by (apply Hc; [split; [by intros [??]|lia]|eauto]).
        simpl. by rewrite backoff_step.
      * assert (n = 0) as -> by (destruct (decide (0 < n)); [|lia]; destruct Hc as [_ Hc]; [split; [by intros [??]|lia]|by destruct Hc]).
        done.
  - rewrite bool_decide_eq_false_2 by done. simpl. rewrite app_nil_r, <-IH.
    destruct (gatedError (c_gvk c) (c_now c) r); [done|]. destruct (c_answer c); simpl.
    + split; [by apply lookup_delete_ne|done].
    + split; [by apply lookup_insert_ne|done].
Qed.
End resolver.

(** ** Properties *)

(** The retry gate. After any calls, for any kinds, with any clock readings and
    answers of the mapper: a kind that has failed [n] times since it last resolved is
    closed for 1s, 2s, 4s, ... and never more than 30s after its last failure, during
    which every call gets that failure back, the mapper is not consulted and nothing
    changes; any other call returns what the mapper answers, so the first one after
    the kind is installed resolves it. No call under the authority of a namespaced rule
    ever yields a cluster-scoped resource. *)
Theorem retry_gate `{RESTMapping} calls gvk answer now later rule :
  let r := resolver_after calls in
  let out := Resolve answer now later gvk r in
  let asked := match answer with Ok m => Ok m | Err e => Err (classify gvk e) end in
  match failing (attempts_of gvk NewResolver calls) 0 None with
  | (n, Some (at_, err)) =>
      (baseRetryDelay <= backoff n <= maxRetryDelay)%Z /\
      if bool_decide (now < at_ + backoff n)%Z then out = (Err (classify gvk err), r) else out.1 = asked
  | (_, None) => out.1 = asked
  end /\
  (forall gvr b, (ResolveForScope answer now later gvk rule r).1 = Ok (gvr, b) ->
     rule = NamespacedRule -> b = true).
Proof.
  intros r out asked. destruct (gate_spec calls gvk) as (Hg & _ & _). fold r in Hg. split.
  - unfold gate_of in Hg.
    pose proof (failing_count (attempts_of gvk NewResolver calls) 0 None) as Hc.
    unfold out, Resolve, gatedError. rewrite Hg.
    destruct (failing _ 0 None) as [n [[at_ err]|]]; simpl in *; [|by destruct answer].
    split; [apply backoff_range, Hc; [split; [by intros [??]|lia]|eauto]|].
    case_bool_decide; [done|]. by destruct answer.
  - intros gvr b E ->. unfold ResolveForScope in E. destruct (Resolve _ _ _ _ r) as [[[g nsd]|] r1]; [|done].
    simpl in E. destruct nsd; simpl in E; [by injection E as <- <-|done].
Qed.
