(* ===== verification/Watch.v ===== *)
(** * Watch: the informer pool and the watch manager

    Models [src/internal/watch/pool.go] (but for [TransformObject], which is in
    [Normalize]) and [src/internal/watch/manager.go]. An informer is client-go's:
    the pool is the map of the running ones, and what their caches answer at an
    instant is a [caches]. A reconcile pass is a function of the registry's
    snapshot, of what the resolver answers for each target, of which informers
    client-go lets start and of the instant; the calls it makes on the recorder, the
    pipeline and the informers are its trace of [effect]s, in order. Goroutines,
    timers and logging are left out. *)

From S2P Require Import Prelude Identity Plan GoJson Redact RedactParse EventFilter Interest.

(** ** Informers and what they deliver *)

(** The [any] an informer hands to a handler. *)
Inductive delivered :=
| DUnstructured (o : object)
(** [cache.DeletedFinalStateUnknown]; the nil object is [None] *)
| DTombstone (key : string) (inner : option delivered)
| DOther (typename : string).

Class InformerObjects := {
  GetNamespace : object -> string;
  GetName : object -> string;
  (** [cache.SplitMetaNamespaceKey] *)
  SplitMetaNamespaceKey : string -> result string (string * string);
}.

(** What a running informer's indexer and sync state answer. *)
Record caches := mkCaches {
  GetByKey : informerKey -> string -> result string (option delivered);
  HasSynced : informerKey -> bool;
}.

(** The running informers, with the kind each resource was resolved from. *)
Abbreviation pool := (gmap informerKey GroupVersionKind).

Definition entryFor (p : pool) (key : informerKey) : option GroupVersionKind := p !! key.

Definition pool_size (p : pool) : nat := size p.

Definition compareInformerKeys `{Schema} (a b : informerKey) : comparison :=
  cmp_or (String.compare (GVR_String (is_GVR (ik_scope a))) (GVR_String (is_GVR (ik_scope b))))
    (cmp_or (String.compare (is_Namespace (ik_scope a)) (is_Namespace (ik_scope b)))
       (String.compare (ik_FieldSelector a) (ik_FieldSelector b))).

Definition key_le `{Schema} (a b : informerKey) : Prop := compareInformerKeys a b <> Gt.

#[export] Instance key_le_dec `{Schema} : RelDecision key_le.
Proof. intros a b. unfold key_le. apply _. Defined.

Definition sorted_informers `{Schema} (m : gmap informerKey GroupVersionKind) : list informerKey :=
  merge_sort key_le (map fst (map_to_list m)).

Definition pool_keys `{Schema} (p : pool) : list informerKey := sorted_informers p.

(** ** What a pass does to the outside *)

Inductive effect :=
| eff_ScopeStopped (id : interestID) (t : ScopeTransition)
| eff_EvictScope (id : ID) (scope : ScopeKey)
| eff_StopInformer (key : informerKey)
| eff_StartInformer (key : informerKey)
| eff_ScopeStarted (id : interestID) (t : ScopeTransition).

(** ** The pool's lifecycle *)

Definition pool_stop (key : informerKey) (p : pool) : list effect * pool :=
  match p !! key with
  | None => ([], p)
  | Some _ => ([eff_StopInformer key], delete key p)
  end.

(** [starts] says whether client-go accepts the transform, the error handler and the
    event handler; the flag is the absence of an error. *)
Definition pool_start (starts : informerKey -> bool) (key : informerKey) (gvk : GroupVersionKind)
    (p : pool) : bool * (list effect * pool) :=
  if starts key then
    match p !! key with
    | Some _ => (false, ([], p))
    | None => (true, ([eff_StartInformer key], <[key := gvk]> p))
    end
  else (false, ([], p)).

Definition retain_stops (wanted : gmap informerKey GroupVersionKind) (keys : list informerKey)
    (p : pool) : list effect * pool :=
  foldl (fun acc key =>
    match wanted !! key with
    | Some _ => acc
    | None => let '(effects, p) := pool_stop key acc.2 in (acc.1 ++ effects, p)
    end) ([], p) keys.

Definition retain_starts (starts : informerKey -> bool) (wanted : gmap informerKey GroupVersionKind)
    (keys : list informerKey) (p : pool) : list effect * pool :=
  foldl (fun acc key =>
    match entryFor acc.2 key, wanted !! key with
    | None, Some gvk =>
        let '(_, (effects, p)) := pool_start starts key gvk acc.2 in (acc.1 ++ effects, p)
    | _, _ => acc
    end) ([], p) keys.

Definition retain `{Schema} (starts : informerKey -> bool)
    (wanted : gmap informerKey GroupVersionKind) (p : pool) : list effect * pool :=
  let '(stops, p1) := retain_stops wanted (pool_keys p) p in
  let '(started, p2) := retain_starts starts wanted (sorted_informers wanted) p1 in
  (stops ++ started, p2).

Definition stopAll `{Schema} (p : pool) : list effect * pool :=
  (map eff_StopInformer (map fst (map_to_list p)), ∅).

(** The field selector an informer narrows its List and its Watch with; the options
    the reflector hands in are [given]. *)
Definition narrow (key : informerKey) (given : string) : string :=
  if bool_decide (ik_FieldSelector key <> "") then ik_FieldSelector key else given.

(** ** Fan-out *)

Record eventTarget := mkEventTarget {
  et_namespace : string;
  et_name : string;
  et_obj : option object;
}.

Definition labelsKnown (t : eventTarget) : bool := match et_obj t with Some _ => true | None => false end.

Definition labelsOf `{Unstructured} (t : eventTarget) : option (gmap string string) :=
  match et_obj t with None => None | Some o => GetLabels o end.

Inductive targetError :=
| errSplitTombstone (key reason : string)
| errWrongType.

Definition unstructured_target `{InformerObjects} (obj : delivered) : result targetError eventTarget :=
  match obj with
  | DUnstructured u => Ok (mkEventTarget (GetNamespace u) (GetName u) (Some u))
  | _ => Err errWrongType
  end.

Definition eventTargetOf `{InformerObjects} (obj : delivered) : result targetError eventTarget :=
  match obj with
  | DTombstone key None =>
      match SplitMetaNamespaceKey key with
      | Err reason => Err (errSplitTombstone key reason)
      | Ok (namespace, name) => Ok (mkEventTarget namespace name None)
      end
  | DTombstone _ (Some inner) => unstructured_target inner
  | _ => unstructured_target obj
  end.

(** What [Resolver.Resolve] answers for a target's kind: the resource and whether it
    is namespaced. *)
Abbreviation resolution := (TargetKey -> option (GroupVersionResource * bool)).

Abbreviation by_scope := (gmap informerScope (list scopeInterest) * gmap informerScope GroupVersionKind)%type.

Section watch.
Context `{LabelSelectors, Strconv, FilterCodec, FieldSelectors, Schema}.

Section fan_out.
Context `{Unstructured, InformerObjects}.

Definition previous_labels (previous : option delivered) : option (gmap string string) :=
  match previous with
  | None => None
  | Some obj => match eventTargetOf obj with Ok prev => labelsOf prev | Err _ => None end
  end.

(** Whether the loop of [fanOut] reaches its [Add] for an interest. *)
Definition fans_to (target : eventTarget) (previous : option delivered) (i : scopeInterest) : bool :=
  if negb (si_matchAll i) && labelsKnown target &&
     negb (matchesEither i (labelsOf target) (previous_labels previous))
  then false
  else negb (negb (recordsEveryEvent i) &&
             match et_obj target with Some o => negb (matchesEvent i o) | None => false end).

(** The keys handed to the queue, in order. *)
Definition fanOut (table : interestTable) (key : informerKey) (obj : delivered)
    (previous : option delivered) : list Key :=
  match eventTargetOf obj with
  | Err _ => []
  | Ok target =>
      map (fun i => keyFor i (et_namespace target) (et_name target))
        (List.filter (fans_to target previous) (interestsFor table key))
  end.

(** The three handlers of [handlerFor]. *)
Inductive notification :=
| AddFunc (obj : delivered)
| UpdateFunc (oldObj newObj : delivered)
| DeleteFunc (obj : delivered).

Definition handlerFor (table : interestTable) (key : informerKey) (n : notification) : list Key :=
  match n with
  | AddFunc obj => fanOut table key obj None
  | UpdateFunc oldObj newObj => fanOut table key newObj (Some oldObj)
  | DeleteFunc obj => fanOut table key obj None
  end.
End fan_out.

(** ** The manager *)

Record WatchManager := mkManager {
  wm_table : interestTable;
  wm_pool : pool;
  wm_startedTargets : gset interestID;
  wm_settleDone : bool;
  (** how often the settle channel was closed; Go panics on the second *)
  wm_settled : nat;
  wm_poolDiffs : Z;
}.

Definition manager_New : WatchManager := mkManager newInterestTable ∅ ∅ false 0 0.

Definition markSettled (m : WatchManager) : WatchManager :=
  if wm_settleDone m then m
  else mkManager (wm_table m) (wm_pool m) (wm_startedTargets m) true (S (wm_settled m)) (wm_poolDiffs m).

(** *** Lookups *)

Inductive getError :=
| errLookup (reason : string)
| errNotUnstructured
| errInformerNotRunning (key : informerKey).

Definition watch_cache_key (ref : Key) : string :=
  if bool_decide (k_Namespace ref <> "") then k_Namespace ref +:+ "/" +:+ k_Name ref else k_Name ref.

(** The loop of [Get]; [missing] is the last interest seen without an informer. *)
Fixpoint get_loop (view : caches) (p : pool) (cacheKey : string) (interests : list scopeInterest)
    (missing : option scopeInterest) : result getError (option object * bool) :=
  match interests with
  | [] =>
      match missing with
      | Some i => Err (errInformerNotRunning (si_informer i))
      | None => Ok (None, true)
      end
  | i :: rest =>
      match entryFor p (si_informer i) with
      | None => get_loop view p cacheKey rest (Some i)
      | Some _ =>
          match GetByKey view (si_informer i) cacheKey with
          | Err reason => Err (errLookup reason)
          | Ok None => get_loop view p cacheKey rest missing
          | Ok (Some (DUnstructured u)) => Ok (Some u, true)
          | Ok (Some _) => Err errNotUnstructured
          end
      end
  end.

(** The object if found, and [scopeActive]; every error comes with [scopeActive]. *)
Definition Get (view : caches) (m : WatchManager) (ref : Key) : result getError (option object * bool) :=
  match lookupIdentity (wm_table m) ref with
  | [] => Ok (None, false)
  | interests => get_loop view (wm_pool m) (watch_cache_key ref) interests None
  end.

Definition RedactionFor (m : WatchManager) (ref : Key) : option (option RedactionPolicy) :=
  match lookupIdentity (wm_table m) ref with
  | [] => None
  | [i] => Some (si_redaction i)
  | interests => Some (MergeRedaction (map si_redaction interests))
  end.

Definition ScopeDesired (m : WatchManager) (id : ID) (scope : ScopeKey) : bool :=
  bool_decide (0 < length (interestsForScope (wm_table m) id scope)).

Definition ScopeSynced (view : caches) (m : WatchManager) (id : ID) (scope : ScopeKey) : bool :=
  let interests := interestsForScope (wm_table m) id scope in
  if bool_decide (length interests = 0) then false
  else forallb (fun i => match entryFor (wm_pool m) (si_informer i) with
                         | None => false
                         | Some _ => HasSynced view (si_informer i)
                         end) interests.

Definition PoolSize (m : WatchManager) : nat := pool_size (wm_pool m).

(** *** Translation *)

Definition agreedFieldSelector (interests : list scopeInterest) : string :=
  match interests with
  | [] => ""
  | first :: rest =>
      let selector := si_fieldSelector first in
      if bool_decide (selector = "") then ""
      else if forallb (fun i => bool_decide (si_fieldSelector i = selector)) rest then selector else ""
  end.

(** [in.informer = informer]. *)
Definition stamp (key : informerKey) (i : scopeInterest) : scopeInterest :=
  mkInterest key (si_gvk i) (si_sink i) (si_scope i) (si_ruleKeys i) (si_selectors i)
    (si_matchAll i) (si_events i) (si_fieldSelector i) (si_redaction i).

Definition translate_target (resolve : resolution) (acc : by_scope) (target : TargetKey * TargetState)
    : by_scope :=
  let '(key, state) := target in
  match resolve key with
  | None => acc
  | Some (gvr, namespaced) =>
      if bool_decide (tk_Namespace key <> "") && negb namespaced then acc
      else
        let scope := mkInformerScope gvr (tk_Namespace key) in
        match newScopeInterest state scope with
        | Err _ => acc
        | Ok i => (<[scope := default [] (acc.1 !! scope) ++ [i]]> acc.1, <[scope := tk_GVK key]> acc.2)
        end
  end.

Definition settle_scope (kinds : gmap informerScope GroupVersionKind)
    (acc : gmap interestID scopeInterest * gmap informerKey GroupVersionKind)
    (entry : informerScope * list scopeInterest) :=
  let '(scope, interests) := entry in
  let informer := mkInformerKey scope (agreedFieldSelector interests) in
  (foldl (fun desired i => let i := stamp informer i in <[interest_id i := i]> desired) acc.1 interests,
   <[informer := default (mkGVK "" "" "") (kinds !! scope)]> acc.2).

Definition translate (resolve : resolution) (snapshot : gmap TargetKey TargetState)
    : gmap interestID scopeInterest * gmap informerKey GroupVersionKind :=
  let '(byScope, kinds) := foldl (translate_target resolve) (∅, ∅) (map_to_list snapshot) in
  foldl (settle_scope kinds) (∅, ∅) (map_to_list byScope).

(** *** The reconcile pass *)

Definition newlyServing (desired : gmap interestID scopeInterest) (m : WatchManager)
    : list scopeInterest :=
  sortInterests
    (map snd (List.filter
       (fun p => negb (bool_decide (p.1 ∈ wm_startedTargets m)) &&
                 match entryFor (wm_pool m) (si_informer p.2) with None => false | Some _ => true end)
       (map_to_list desired))).

Definition stop_effects (at_ : Z) (i : scopeInterest) : list effect :=
  [eff_ScopeStopped (interest_id i) (transition i at_); eff_EvictScope (si_sink i) (si_scope i)].

Definition start_effect (at_ : Z) (i : scopeInterest) : effect :=
  eff_ScopeStarted (interest_id i) (transition i at_).

(** The outside of a pass: the snapshot, the resolver, client-go and the clock. *)
Record inputs := mkInputs {
  in_snapshot : gmap TargetKey TargetState;
  in_resolve : resolution;
  in_starts : informerKey -> bool;
  in_at : Z;
}.

Definition reconcilePool (x : inputs) (m : WatchManager) : list effect * WatchManager :=
  let '(desired, wanted) := translate (in_resolve x) (in_snapshot x) in
  let '(removed, table) := replace desired (wm_table m) in
  let started1 := wm_startedTargets m ∖ list_to_set (map interest_id removed) in
  let '(pool_effects, pool) := retain (in_starts x) wanted (wm_pool m) in
  let m1 := mkManager table pool started1 (wm_settleDone m) (wm_settled m) (wm_poolDiffs m) in
  let serving := newlyServing desired m1 in
  ((removed ≫= stop_effects (in_at x)) ++ pool_effects ++ map (start_effect (in_at x)) serving,
   mkManager table pool (started1 ∪ list_to_set (map interest_id serving)) (wm_settleDone m)
     (wm_settled m) (wm_poolDiffs m + 1)).

(** *** The loop

    One wake-up of [Start]: a pass (the initial one, a change notification after its
    debounce window, or the safety tick), the settle timer, or the cancellation. *)
Inductive wake :=
| WakePass (x : inputs)
| WakeSettle
| WakeDone.

Definition on_wake (w : wake) (m : WatchManager) : list effect * WatchManager :=
  match w with
  | WakePass x => reconcilePool x m
  | WakeSettle => ([], markSettled m)
  | WakeDone =>
      let '(effects, p) := stopAll (wm_pool m) in
      (effects, mkManager (wm_table m) p (wm_startedTargets m) (wm_settleDone m) (wm_settled m)
                  (wm_poolDiffs m))
  end.

Fixpoint run_wakes (ws : list wake) (m : WatchManager) : list effect * WatchManager :=
  match ws with
  | [] => ([], m)
  | w :: rest =>
      let '(effects, m1) := on_wake w m in
      let '(effects', m2) := run_wakes rest m1 in
      (effects ++ effects', m2)
  end.
End watch.
