(* ===== verification/WatchSpec.v ===== *)
(** * WatchSpec: what the watch manager guarantees

    Lemmas and properties of [Watch]: what a registry snapshot is translated into,
    the invariant the reconcile passes keep, what the lookups answer, and what an
    informer's events are fanned out to. *)

From S2P Require Import Prelude Identity Plan GoJson Redact RedactParse EventFilter Interest Watch.

Section translate.
Context `{LabelSelectors, Strconv, FilterCodec, FieldSelectors, Schema}.

(** ** Translation *)

Definition iscope (i : scopeInterest) : informerScope := ik_scope (si_informer i).

(** A snapshot maps a key to the state of that key. *)
Definition keyed (snapshot : gmap TargetKey TargetState) : Prop :=
  map_Forall (fun key st => ts_Key st = key) snapshot.

(** A resource has one kind. *)
Definition resolves_distinctly (resolve : resolution) : Prop :=
  forall k1 k2 gvr b1 b2, resolve k1 = Some (gvr, b1) -> resolve k2 = Some (gvr, b2) ->
    tk_GVK k1 = tk_GVK k2.

Definition valid_inputs (x : inputs) : Prop :=
  keyed (in_snapshot x) /\ resolves_distinctly (in_resolve x).

(** The interest a target contributes, before push-down is settled. *)
Definition candidate (resolve : resolution) (target : TargetKey * TargetState) : option scopeInterest :=
  match resolve target.1 with
  | None => None
  | Some (gvr, namespaced) =>
      if bool_decide (tk_Namespace target.1 <> "") && negb namespaced then None
      else match newScopeInterest target.2 (mkInformerScope gvr (tk_Namespace target.1)) with
           | Err _ => None
           | Ok i => Some i
           end
  end.

Lemma newScopeInterest_fields st scope i :
  newScopeInterest st scope = Ok i ->
  si_informer i = mkInformerKey scope "" /\ si_gvk i = tk_GVK (ts_Key st) /\
  si_sink i = tk_Sink (ts_Key st) /\
  si_scope i = mkScopeKey (gvk_Group (tk_GVK (ts_Key st))) (gvk_Kind (tk_GVK (ts_Key st))) (tk_Namespace (ts_Key st)) /\
  compile_redaction_set (ts_Redactions st) = Ok (si_redaction i) /\
  exists m, compileEventFilters (GVR_GroupResource (is_GVR scope)) (ts_EventFilters st) = Ok m /\
    si_events i = Some m /\ si_fieldSelector i = em_fieldSelector m.
Proof.
  unfold newScopeInterest. intros E. destruct (parse_selectors _ _ _) as [[matchAll sels]|]; [|done].
  destruct (compile_redaction_set _); [|done].
  destruct (compileEventFilters _ _) as [m|]; [|done]. injection E as <-. split_and!; eauto.
Qed.

Lemma candidate_fields resolve key st i :
  candidate resolve (key, st) = Some i -> ts_Key st = key ->
  exists gvr b, resolve key = Some (gvr, b) /\ iscope i = mkInformerScope gvr (tk_Namespace key) /\
    si_gvk i = tk_GVK key /\ si_sink i = tk_Sink key /\
    si_scope i = mkScopeKey (gvk_Group (tk_GVK key)) (gvk_Kind (tk_GVK key)) (tk_Namespace key) /\
    newScopeInterest st (iscope i) = Ok i.
Proof.
  unfold candidate. simpl. intros E Hk. destruct (resolve key) as [[gvr b]|]; [|done].
  case_match; [done|]. case_match eqn:En; [|done]. injection E as ->.
  destruct (newScopeInterest_fields _ _ _ En) as (E1 & E2 & E3 & E4 & _). rewrite Hk in *.
  exists gvr, b. unfold iscope. rewrite E1. done.
Qed.

(** The first loop of [translate] and what it has accumulated for [done]. *)
Record gathered (resolve : resolution) (done : list (TargetKey * TargetState)) (acc : by_scope) : Prop := {
  g_interests : forall s i, i ∈ default [] (acc.1 !! s) <->
    exists target, target ∈ done /\ candidate resolve target = Some i /\ iscope i = s;
  g_kinds : forall s l, acc.1 !! s = Some l ->
    exists i, i ∈ l /\ acc.2 !! s = Some (si_gvk i);
}.

Lemma gathered_step resolve done acc key st :
  ts_Key st = key -> gathered resolve done acc ->
  gathered resolve (done ++ [(key, st)]) (translate_target resolve acc (key, st)).
Proof.
  intros Hkey [Hi Hk].
  assert (E : translate_target resolve acc (key, st) =
    match candidate resolve (key, st) with
    | None => acc
    | Some i => (<[iscope i := default [] (acc.1 !! iscope i) ++ [i]]> acc.1, <[iscope i := si_gvk i]> acc.2)
    end).
  { unfold translate_target, candidate. simpl. destruct (resolve key) as [[gvr b]|]; [|done].
    case_match; [done|]. case_match eqn:En; [|done].
    destruct (newScopeInterest_fields _ _ _ En) as (E1 & E2 & _).
    unfold iscope. by rewrite E1, E2, Hkey. }
  rewrite E. destruct (candidate resolve (key, st)) as [x|] eqn:Ec; split; simpl.
  - intros s i. destruct (decide (iscope x = s)) as [<-|Hne].
    + rewrite lookup_insert_eq. simpl. rewrite elem_of_app, list_elem_of_singleton, Hi.
      setoid_rewrite elem_of_app. setoid_rewrite list_elem_of_singleton. naive_solver.
    + rewrite lookup_insert_ne, Hi by done.
      setoid_rewrite elem_of_app. setoid_rewrite list_elem_of_singleton. naive_solver.
  - intros s l. destruct (decide (iscope x = s)) as [<-|Hne].
    + rewrite !lookup_insert_eq. intros [= <-]. exists x. rewrite elem_of_app, list_elem_of_singleton. auto.
    + rewrite !lookup_insert_ne by done. apply Hk.
  - intros s i. rewrite Hi. setoid_rewrite elem_of_app. setoid_rewrite list_elem_of_singleton. naive_solver.
  - apply Hk.
Qed.

Lemma gathered_all resolve l :
  (forall key st, (key, st) ∈ l -> ts_Key st = key) ->
  gathered resolve l (foldl (translate_target resolve) (∅, ∅) l).
Proof.
  induction l as [|[key st] l IH] using rev_ind; intros Hk.
  - split; simpl; intros s; rewrite lookup_empty; [|done]. simpl. intros i.
    split; [by intros ?%elem_of_nil|]. intros (? & ?%elem_of_nil & _). done.
  - rewrite foldl_snoc. apply gathered_step.
    + apply Hk. apply elem_of_app. right. by apply list_elem_of_singleton.
    + apply IH. intros. apply Hk. apply elem_of_app. by left.
Qed.

(** The second loop as two independent loops of insertions. *)
Definition informer_of (entry : informerScope * list scopeInterest) : informerKey :=
  mkInformerKey entry.1 (agreedFieldSelector entry.2).

Definition stamped (entry : informerScope * list scopeInterest) : list scopeInterest :=
  map (stamp (informer_of entry)) entry.2.

Lemma settle_scopes kinds entries :
  foldl (settle_scope kinds) (∅, ∅) entries =
  (foldl (fun m i => <[interest_id i := i]> m) ∅ (entries ≫= stamped),
   foldl (fun m e => <[informer_of e := default (mkGVK "" "" "") (kinds !! e.1)]> m) ∅ entries).
Proof.
  rewrite foldl_bind, <-foldl_pair. generalize (∅ : gmap interestID scopeInterest).
  generalize (∅ : gmap informerKey GroupVersionKind). induction entries as [|[scope l] entries IH]; intros w d; [done|].
  simpl. rewrite IH. unfold stamped, informer_of. simpl. by rewrite foldl_fmap.
Qed.

(** The targets that land on one scope, and what is settled for it. *)
Lemma translate_entries resolve snapshot :
  keyed snapshot ->
  exists entries : gmap informerScope (list scopeInterest),
  exists kinds : gmap informerScope GroupVersionKind,
    translate resolve snapshot =
      (foldl (fun m i => <[interest_id i := i]> m) ∅ (map_to_list entries ≫= stamped),
       foldl (fun m e => <[informer_of e := default (mkGVK "" "" "") (kinds !! e.1)]> m) ∅ (map_to_list entries)) /\
    gathered resolve (map_to_list snapshot) (entries, kinds).
Proof.
  intros Hk. pose proof (gathered_all resolve (map_to_list snapshot)) as Hg.
  unfold translate. destruct (foldl _ _ _) as [entries kinds] eqn:E. exists entries, kinds.
  rewrite settle_scopes. split; [done|]. rewrite <-E. rewrite E. apply Hg.
  intros key st Hin%elem_of_map_to_list. by apply Hk.
Qed.

Lemma gathered_scope resolve snapshot entries kinds s l i :
  gathered resolve (map_to_list snapshot) (entries, kinds) -> entries !! s = Some l -> i ∈ l ->
  iscope i = s /\ exists key st, snapshot !! key = Some st /\ candidate resolve (key, st) = Some i.
Proof.
  intros [Hi _] Hl Hin. specialize (Hi s i). simpl in Hi. rewrite Hl in Hi. simpl in Hi.
  apply Hi in Hin as ([key st] & Ht%elem_of_map_to_list & Hc & Hs). split; [done|]. eauto.
Qed.

Lemma elem_of_stamped resolve snapshot entries kinds j :
  gathered resolve (map_to_list snapshot) (entries, kinds) ->
  j ∈ map_to_list entries ≫= stamped <->
  exists i l, entries !! iscope i = Some l /\ i ∈ l /\ j = stamp (informer_of (iscope i, l)) i.
Proof.
  intros Hg. rewrite list_elem_of_bind. split.
  - intros ([s l] & Hj & Hs%elem_of_map_to_list). unfold stamped in Hj. simpl in Hj.
    apply list_elem_of_fmap in Hj as (i & -> & Hi).
    destruct (gathered_scope _ _ _ _ _ _ _ Hg Hs Hi) as [<- _]. eauto.
  - intros (i & l & Hl & Hi & ->). exists (iscope i, l). split; [|by apply elem_of_map_to_list].
    unfold stamped. by apply list_elem_of_fmap_2.
Qed.

(** Distinct resolution keeps the interests of a sink on a scope apart. *)
Lemma candidate_unique resolve snapshot k1 k2 st1 st2 i1 i2 :
  keyed snapshot -> resolves_distinctly resolve ->
  snapshot !! k1 = Some st1 -> snapshot !! k2 = Some st2 ->
  candidate resolve (k1, st1) = Some i1 -> candidate resolve (k2, st2) = Some i2 ->
  iscope i1 = iscope i2 -> si_sink i1 = si_sink i2 -> i1 = i2.
Proof.
  intros Hk Hd Ha1 Ha2 C1 C2 Es Ek.
  destruct (candidate_fields _ _ _ _ C1 (Hk _ _ Ha1)) as (g1 & b1 & R1 & S1 & V1 & K1 & _).
  destruct (candidate_fields _ _ _ _ C2 (Hk _ _ Ha2)) as (g2 & b2 & R2 & S2 & V2 & K2 & _).
  rewrite S1, S2 in Es. injection Es as -> Hns.
  pose proof (Hd _ _ _ _ _ R1 R2) as Hg. destruct k1, k2. simpl in *.
  assert (E : st1 = st2) by congruence. congruence.
Qed.

Lemma translate_desired resolve snapshot entries kinds id j :
  keyed snapshot -> resolves_distinctly resolve ->
  gathered resolve (map_to_list snapshot) (entries, kinds) ->
  foldl (fun m i => <[interest_id i := i]> m) (∅ : gmap interestID scopeInterest) (map_to_list entries ≫= stamped) !! id = Some j <->
  interest_id j = id /\
  exists i l, entries !! iscope i = Some l /\ i ∈ l /\ j = stamp (informer_of (iscope i, l)) i.
Proof.
  intros Hk Hd Hg. rewrite lookup_foldl_insert.
  - setoid_rewrite (elem_of_stamped _ _ _ _ _ Hg). naive_solver.
  - intros x y Hx Hy E. apply (elem_of_stamped _ _ _ _ _ Hg) in Hx as (i & l & Hl & Hi & ->).
    apply (elem_of_stamped _ _ _ _ _ Hg) in Hy as (i' & l' & Hl' & Hi' & ->).
    unfold interest_id in E. simpl in E. injection E as Es Ek.
    destruct (gathered_scope _ _ _ _ _ _ _ Hg Hl Hi) as [_ (k1 & st1 & Ha1 & C1)].
    destruct (gathered_scope _ _ _ _ _ _ _ Hg Hl' Hi') as [_ (k2 & st2 & Ha2 & C2)].
    pose proof (candidate_unique _ _ _ _ _ _ _ _ Hk Hd Ha1 Ha2 C1 C2 Es Ek) as ->. congruence.
Qed.

Lemma agreed_selector l i :
  i ∈ l -> agreedFieldSelector l = "" \/ agreedFieldSelector l = si_fieldSelector i.
Proof.
  unfold agreedFieldSelector. destruct l as [|x l]; [by left|].
  case_bool_decide; [by left|]. case_match eqn:E; [|by left].
  rewrite forallb_forall in E. intros [->|Hi]%elem_of_cons; [by right|]. right.
  apply list_elem_of_In, E, bool_decide_eq_true in Hi. done.
Qed.

(** What a pass wants, stated of targets: the interests are the targets that
    resolve, are allowed and compile, each with the informer of its scope. *)
Record translated (resolve : resolution) (snapshot : gmap TargetKey TargetState)
    (desired : gmap interestID scopeInterest) (wanted : gmap informerKey GroupVersionKind) : Prop := {
  tr_wf : wf_desired desired;
  tr_sound : forall id j, desired !! id = Some j ->
    exists key st i sel, snapshot !! key = Some st /\ candidate resolve (key, st) = Some i /\
      j = stamp (mkInformerKey (iscope i) sel) i /\ (sel = "" \/ sel = si_fieldSelector i);
  tr_complete : forall key st i, snapshot !! key = Some st -> candidate resolve (key, st) = Some i ->
    exists sel, desired !! interest_id i = Some (stamp (mkInformerKey (iscope i) sel) i);
  tr_shared : forall id1 id2 j1 j2, desired !! id1 = Some j1 -> desired !! id2 = Some j2 ->
    iscope j1 = iscope j2 -> si_informer j1 = si_informer j2;
  tr_wanted : forall k, is_Some (wanted !! k) <-> exists id j, desired !! id = Some j /\ si_informer j = k;
}.

Lemma translate_spec resolve snapshot :
  keyed snapshot -> resolves_distinctly resolve ->
  translated resolve snapshot (translate resolve snapshot).1 (translate resolve snapshot).2.
Proof.
  intros Hk Hd. destruct (translate_entries resolve snapshot Hk) as (entries & kinds & -> & Hg). simpl.
  split; simpl.
  - intros id j Hj. apply (translate_desired _ _ _ _ _ _ Hk Hd Hg) in Hj as (Hid & i & l & Hl & Hi & ->).
    split; [done|]. destruct (gathered_scope _ _ _ _ _ _ _ Hg Hl Hi) as [_ (key & st & Hs & Hc)].
    destruct (candidate_fields _ _ _ _ Hc (Hk _ _ Hs)) as (g & b & _ & Es & Ev & _ & Esc & _).
    unfold wf_interest. simpl. by rewrite Es, Ev, Esc.
  - intros id j Hj. apply (translate_desired _ _ _ _ _ _ Hk Hd Hg) in Hj as (Hid & i & l & Hl & Hi & ->).
    destruct (gathered_scope _ _ _ _ _ _ _ Hg Hl Hi) as [_ (key & st & Hs & Hc)].
    exists key, st, i, (agreedFieldSelector l). split_and!; [done..|]. by apply agreed_selector.
  - intros key st i Hs Hc. destruct Hg as [Hgi Hgk] eqn:Eg.
    assert (i ∈ default [] (entries !! iscope i)) as Hin.
    { apply Hgi. exists (key, st). split_and!; [by apply elem_of_map_to_list|done|done]. }
    destruct (entries !! iscope i) as [l|] eqn:El; [|by apply elem_of_nil in Hin].
    exists (agreedFieldSelector l). apply (translate_desired _ _ _ _ _ _ Hk Hd Hg). split; [done|].
    exists i, l. done.
  - intros id1 id2 j1 j2 Ha1 Ha2.
    apply (translate_desired _ _ _ _ _ _ Hk Hd Hg) in Ha1 as (_ & i1 & l1 & L1 & _ & ->).
    apply (translate_desired _ _ _ _ _ _ Hk Hd Hg) in Ha2 as (_ & i2 & l2 & L2 & _ & ->).
    intros E. change (iscope i1 = iscope i2) in E. simpl. rewrite E in *. congruence.
  - intros k. split.
    + intros [g Hw]. apply lookup_foldl_insert in Hw as ([s l] & Hs & <- & _).
      * apply elem_of_map_to_list in Hs. destruct Hg as [Hgi Hgk] eqn:Eg.
        destruct (Hgk s l Hs) as (i & Hi & _).
        destruct (gathered_scope _ _ _ _ _ _ _ Hg Hs Hi) as [<- _].
        exists (interest_id i), (stamp (informer_of (iscope i, l)) i). split; [|done].
        apply (translate_desired _ _ _ _ _ _ Hk Hd Hg). split; [done|]. exists i, l. done.
      * intros [s1 l1] [s2 l2] _ _ E. unfold informer_of in E. simpl in *. injection E as -> _. done.
    + intros (id & j & Hj & <-).
      apply (translate_desired _ _ _ _ _ _ Hk Hd Hg) in Hj as (_ & i & l & Hl & _ & ->).
      eexists. apply lookup_foldl_insert.
      * intros [s1 l1] [s2 l2] _ _ E. unfold informer_of in E. simpl in *. injection E as -> _. done.
      * exists (iscope i, l). split; [by apply elem_of_map_to_list|done].
Qed.
End translate.

(** ** The pool *)

Section retain.
Context `{Schema}.

Lemma retain_stops_lookup wanted keys p k :
  (retain_stops wanted keys p).2 !! k =
    (if decide (k ∈ keys /\ wanted !! k = None) then None else p !! k).
Proof.
  unfold retain_stops. induction keys as [|x keys IH] using rev_ind; cbn [foldl snd fst].
  - rewrite decide_False; [done|]. by intros [?%elem_of_nil _].
  - rewrite foldl_snoc. destruct (wanted !! x) as [g|] eqn:Ex.
    + rewrite IH. apply decide_ext. rewrite elem_of_app, list_elem_of_singleton. naive_solver.
    + unfold pool_stop. set (acc := foldl _ _ _) in *.
      assert (E : snd (let '(effects, p0) := match acc.2 !! x with
        | Some _ => ([eff_StopInformer x], delete x acc.2) | None => ([], acc.2) end in
        (acc.1 ++ effects, p0)) = delete x acc.2).
      { destruct (acc.2 !! x) eqn:Ea; simpl; [done|]. by rewrite delete_id. }
      cbn [snd fst] in *. rewrite E. destruct (decide (x = k)) as [<-|Hne].
      * rewrite lookup_delete_eq, decide_True; [done|]. by rewrite elem_of_app, list_elem_of_singleton; auto.
      * rewrite lookup_delete_ne, IH by done. apply decide_ext.
        rewrite elem_of_app, list_elem_of_singleton. naive_solver.
Qed.

Lemma retain_starts_lookup starts wanted keys p k :
  (retain_starts starts wanted keys p).2 !! k =
    match p !! k with
    | Some g => Some g
    | None => if decide (k ∈ keys /\ starts k = true) then wanted !! k else None
    end.
Proof.
  unfold retain_starts. induction keys as [|x keys IH] using rev_ind; cbn [foldl snd fst].
  - rewrite decide_False by (by intros [?%elem_of_nil _]). by destruct (p !! k).
  - rewrite foldl_snoc. set (acc := foldl _ _ _) in *. unfold entryFor, pool_start.
    destruct (decide (x = k)) as [<-|Hne].
    + destruct (acc.2 !! x) as [g|] eqn:Ea.
      * rewrite Ea. rewrite IH in Ea. destruct (p !! x); [done|].
        case_decide as Hd; [|done]. rewrite decide_True; [done|].
        rewrite elem_of_app. naive_solver.
      * destruct (p !! x) eqn:Ep; [by rewrite IH in Ea|].
        destruct (wanted !! x) as [g|] eqn:Ew.
        -- destruct (starts x) eqn:Es; simpl.
           ++ rewrite lookup_insert_eq, decide_True; [done|].
              rewrite elem_of_app, list_elem_of_singleton. auto.
           ++ rewrite Ea, decide_False; [done|]. by intros [_ ?].
        -- rewrite Ea. by repeat case_match.
    + assert (E : snd (match acc.2 !! x, wanted !! x with
        | None, Some gvk => let '(_, (effects, p0)) := (if starts x then
            match acc.2 !! x with Some _ => (false, ([], acc.2)) | None => (true, ([eff_StartInformer x], <[x:=gvk]> acc.2)) end
            else (false, ([], acc.2))) in (acc.1 ++ effects, p0)
        | _, _ => acc end) !! k = acc.2 !! k).
      { destruct (acc.2 !! x) eqn:Ea; [done|]. destruct (wanted !! x); [|done].
        destruct (starts x); simpl; [|done]. by rewrite lookup_insert_ne. }
      cbn [snd fst] in *. rewrite E, IH. destruct (p !! k); [done|]. apply decide_ext.
      rewrite elem_of_app, list_elem_of_singleton. naive_solver.
Qed.

Lemma elem_of_sorted_informers m k : k ∈ sorted_informers m <-> is_Some (m !! k).
Proof.
  unfold sorted_informers. rewrite merge_sort_Permutation, list_elem_of_fmap. split.
  - intros ([k' g] & -> & Hin%elem_of_map_to_list). eauto.
  - intros [g Hg]. exists (k, g). split; [done|]. by apply elem_of_map_to_list.
Qed.

(** After a pass exactly the wanted informers run, except those whose start failed. *)
Lemma retain_lookup starts wanted p k :
  (retain starts wanted p).2 !! k =
    match wanted !! k with
    | None => None
    | Some g => match p !! k with Some g0 => Some g0 | None => if starts k then Some g else None end
    end.
Proof.
  unfold retain. pose proof (retain_stops_lookup wanted (pool_keys p) p k) as Hs1.
  destruct (retain_stops _ _ _) as [stops p1].
  pose proof (retain_starts_lookup starts wanted (sorted_informers wanted) p1 k) as Hs2.
  destruct (retain_starts _ _ _ _) as [started p2]. cbn [snd fst] in *. rewrite Hs2, Hs1.
  unfold pool_keys. destruct (wanted !! k) as [g|] eqn:Ew.
  - rewrite decide_False by naive_solver. destruct (p !! k); [done|].
    destruct (starts k) eqn:Es.
    + rewrite decide_True; [done|]. split; [|done]. apply elem_of_sorted_informers. by rewrite Ew.
    + rewrite decide_False; [done|]. by intros [_ ?].
  - destruct (p !! k) as [g|] eqn:Ep.
    + rewrite decide_True; [by repeat case_match|]. split; [|done]. apply elem_of_sorted_informers. by rewrite Ep.
    + rewrite decide_False; [by repeat case_match|]. intros [Hk%elem_of_sorted_informers _]. rewrite Ep in Hk. by destruct Hk.
Qed.

Definition pool_effect (f : effect) : Prop :=
  match f with eff_StopInformer _ | eff_StartInformer _ => True | _ => False end.

Lemma retain_effects starts wanted p : Forall pool_effect (retain starts wanted p).1.
Proof.
  assert (Hstops : forall keys q, Forall pool_effect (retain_stops wanted keys q).1).
  { intros keys q. unfold retain_stops. induction keys as [|x keys IH] using rev_ind; [done|].
    rewrite foldl_snoc. destruct (wanted !! x); [done|]. unfold pool_stop.
    destruct (_ !! x); simpl; apply Forall_app; (split; [done|]); by repeat constructor. }
  assert (Hstarts : forall keys q, Forall pool_effect (retain_starts starts wanted keys q).1).
  { intros keys q. unfold retain_starts. induction keys as [|x keys IH] using rev_ind; [done|].
    rewrite foldl_snoc. destruct (entryFor _ x), (wanted !! x); try done. unfold pool_start.
    repeat case_match; simplify_eq; simpl; rewrite ?app_nil_r; try done;
      apply Forall_app; (split; [done|]); by repeat constructor. }
  unfold retain. specialize (Hstops (pool_keys p) p). destruct (retain_stops _ _ _) as [s p1].
  specialize (Hstarts (sorted_informers wanted) p1). destruct (retain_starts _ _ _ _).
  by apply Forall_app.
Qed.

(** A pool that is where it should be is left alone. *)
Lemma retain_settled starts wanted p :
  (forall k g, p !! k = Some g -> is_Some (wanted !! k)) ->
  (forall k, is_Some (wanted !! k) -> p !! k = None -> starts k = false) ->
  retain starts wanted p = ([], p).
Proof.
  intros Hp Hw. unfold retain.
  assert (retain_stops wanted (pool_keys p) p = ([], p)) as ->.
  { unfold retain_stops. assert (Hall : Forall (fun k => is_Some (wanted !! k)) (pool_keys p)).
    { apply Forall_forall. intros k [g Hg]%elem_of_sorted_informers. eauto. }
    induction Hall as [|x l [g Hx] _ IH]; [done|]. simpl. by rewrite Hx. }
  assert (forall keys, retain_starts starts wanted keys p = ([], p)) as ->; [|done].
  intros keys. unfold retain_starts. induction keys as [|x keys IH] using rev_ind; [done|].
  rewrite foldl_snoc, IH. simpl. unfold entryFor, pool_start. destruct (p !! x) eqn:Ep; [done|].
  destruct (wanted !! x) eqn:Ew; [|done]. by rewrite (Hw x).
Qed.
End retain.

(** ** Passes *)

(** A list in which an identity occurs at most once. *)
Lemma omap_at {A K B} `{EqDecision K} (f : A -> K) (k : K) (b : B) (l : list A) :
  NoDup (map f l) ->
  omap (fun x => if decide (f x = k) then Some b else None) l =
    if decide (k ∈ map f l) then [b] else [].
Proof.
  set (g := fun x => _). induction l as [|x l IH]; intros Hn;
    [by rewrite decide_False by (by intros ?%elem_of_nil)|].
  rewrite omap_step. cbn [map] in *. apply NoDup_cons in Hn as [Hx Hn]. rewrite (IH Hn). unfold g.
  destruct (decide (f x = k)), (decide (k ∈ map f l)), (decide (k ∈ f x :: map f l)) as [Hc|Hc];
    rewrite elem_of_cons in Hc; naive_solver.
Qed.

Section manager.
Context `{LabelSelectors, Strconv, FilterCodec, FieldSelectors, Schema}.

(** The scope edges a trace reports for one interest: [true] is Started. *)
Definition edge_of (id : interestID) (f : effect) : option bool :=
  match f with
  | eff_ScopeStarted id' _ => if decide (id' = id) then Some true else None
  | eff_ScopeStopped id' _ => if decide (id' = id) then Some false else None
  | _ => None
  end.

Definition edges (id : interestID) (l : list effect) : list bool := omap (edge_of id) l.

(** No Started while one is standing. *)
Fixpoint starts_guarded (standing : bool) (l : list bool) : Prop :=
  match l with
  | [] => True
  | true :: rest => standing = false /\ starts_guarded true rest
  | false :: rest => starts_guarded false rest
  end.

(** Whether a Started is standing after the edges. *)
Definition standing (s : bool) (l : list bool) : bool := default s (last l).

Lemma starts_guarded_app s l1 l2 :
  starts_guarded s (l1 ++ l2) <-> starts_guarded s l1 /\ starts_guarded (standing s l1) l2.
Proof.
  unfold standing. revert s. induction l1 as [|b l1 IH]; intros s; [simpl; tauto|].
  assert (E : default s (last (b :: l1)) = default b (last l1)) by (rewrite last_cons; by destruct (last l1)).
  rewrite E. simpl. destruct b; rewrite IH; simpl; tauto.
Qed.

Lemma standing_app s l1 l2 : standing s (l1 ++ l2) = standing (standing s l1) l2.
Proof. unfold standing. rewrite last_app. by destruct (last l2). Qed.

Record manager_inv (m : WatchManager) : Prop := {
  mi_table : wf_table (wm_table m);
  mi_shared : forall id1 id2 i1 i2, it_current (wm_table m) !! id1 = Some i1 ->
    it_current (wm_table m) !! id2 = Some i2 -> iscope i1 = iscope i2 -> si_informer i1 = si_informer i2;
  mi_started : forall id, id ∈ wm_startedTargets m -> is_Some (it_current (wm_table m) !! id);
  mi_pool : forall k, is_Some (wm_pool m !! k) ->
    exists id i, it_current (wm_table m) !! id = Some i /\ si_informer i = k;
  mi_settled : wm_settled m = if wm_settleDone m then 1 else 0;
}.

Lemma manager_inv_New : manager_inv manager_New.
Proof.
  split; simpl; try done.
  - split; simpl; [apply map_Forall_empty|..|intros k; constructor]; intros k i;
      (split; [by intros ?%elem_of_nil|intros (id & E & _); by rewrite lookup_empty in E]).
  - intros k [g Hg]. by rewrite lookup_empty in Hg.
Qed.

(** *** One pass, unfolded *)

Definition pass_desired (x : inputs) := (translate (in_resolve x) (in_snapshot x)).1.
Definition pass_wanted (x : inputs) := (translate (in_resolve x) (in_snapshot x)).2.
Definition pass_removed (x : inputs) (m : WatchManager) : list scopeInterest :=
  (replace (pass_desired x) (wm_table m)).1.
Definition pass_pool (x : inputs) (m : WatchManager) : pool :=
  (retain (in_starts x) (pass_wanted x) (wm_pool m)).2.
Definition pass_kept (x : inputs) (m : WatchManager) : gset interestID :=
  wm_startedTargets m ∖ list_to_set (map interest_id (pass_removed x m)).
Definition pass_serving (x : inputs) (m : WatchManager) : list scopeInterest :=
  newlyServing (pass_desired x)
    (mkManager (replace (pass_desired x) (wm_table m)).2 (pass_pool x m) (pass_kept x m)
       (wm_settleDone m) (wm_settled m) (wm_poolDiffs m)).

Lemma reconcilePool_eq x m :
  reconcilePool x m =
  ((pass_removed x m ≫= stop_effects (in_at x)) ++
     (retain (in_starts x) (pass_wanted x) (wm_pool m)).1 ++
     map (start_effect (in_at x)) (pass_serving x m),
   mkManager (replace (pass_desired x) (wm_table m)).2 (pass_pool x m)
     (pass_kept x m ∪ list_to_set (map interest_id (pass_serving x m)))
     (wm_settleDone m) (wm_settled m) (wm_poolDiffs m + 1)).
Proof.
  unfold reconcilePool, pass_serving, pass_kept, pass_pool, pass_removed, pass_desired, pass_wanted.
  destruct (translate _ _) as [d w]. simpl. destruct (retain _ _ _) as [e p]. done.
Qed.

Lemma elem_of_newlyServing d m i :
  i ∈ newlyServing d m <->
  exists id, d !! id = Some i /\ (id ∉ wm_startedTargets m) /\ is_Some (wm_pool m !! si_informer i).
Proof.
  unfold newlyServing, sortInterests. rewrite merge_sort_Permutation, list_elem_of_fmap.
  setoid_rewrite list_elem_of_In.
  setoid_rewrite filter_In.
  setoid_rewrite <-list_elem_of_In.
  unfold entryFor. split.
  - intros ([id i'] & -> & Hin%elem_of_map_to_list & Hf). simpl in *. exists id.
    apply andb_true_iff in Hf as [Hs Hp]. apply negb_true_iff, bool_decide_eq_false in Hs.
    split_and!; [done..|]. by case_match.
  - intros (id & Hd & Hs & [g Hp]). exists (id, i). split; [done|].
    split; [by apply elem_of_map_to_list|]. simpl. rewrite Hp, bool_decide_eq_false_2; done.
Qed.

Lemma NoDup_fst_filter {A B} (f : A * B -> bool) (l : list (A * B)) :
  NoDup (map fst l) -> NoDup (map fst (List.filter f l)).
Proof.
  induction l as [|x l IH]; simpl; [done|]. intros [Hx Hn]%NoDup_cons. destruct (f x); [|by apply IH].
  simpl. apply NoDup_cons. split; [|by apply IH]. intros Hin. apply Hx.
  apply list_elem_of_fmap in Hin as (y & -> & Hy%list_elem_of_In%filter_In).
  apply list_elem_of_fmap_2, list_elem_of_In. apply Hy.
Qed.

(** Installed interests are listed under their own identity. *)
Lemma ids_of_entries d (l : list (interestID * scopeInterest)) :
  wf_desired d -> (forall p, p ∈ l -> d !! p.1 = Some p.2) ->
  map interest_id (map snd l) = map fst l.
Proof.
  intros Hd Hl. rewrite map_map. apply map_ext_in. intros [id i] Hin%list_elem_of_In.
  apply Hl in Hin. by destruct (Hd _ _ Hin).
Qed.

Lemma serving_NoDup d m : wf_desired d -> NoDup (map interest_id (newlyServing d m)).
Proof.
  intros Hd. unfold newlyServing, sortInterests.
  assert (forall l, NoDup (map interest_id l) -> NoDup (map interest_id (merge_sort scope_le l))) as Hs.
  { intros l. by rewrite merge_sort_Permutation. }
  apply Hs. rewrite (ids_of_entries d); [|done|].
  - apply NoDup_fst_filter, NoDup_fst_map_to_list.
  - intros p Hp%list_elem_of_In%filter_In. destruct p. apply elem_of_map_to_list, list_elem_of_In, Hp.
Qed.

Lemma removed_NoDup d t : wf_desired (it_current t) -> NoDup (map interest_id (replace d t).1).
Proof.
  intros Hd. unfold replace, sortInterests. simpl.
  assert (forall l, NoDup (map interest_id l) -> NoDup (map interest_id (merge_sort scope_le l))) as Hs.
  { intros l. by rewrite merge_sort_Permutation. }
  apply Hs. rewrite (ids_of_entries (it_current t)); [|done|].
  - apply NoDup_fst_map_to_list.
  - intros [id i] Hp%elem_of_map_to_list. by apply map_lookup_filter_Some in Hp as [??].
Qed.

(** *** The invariant and the trace of one pass *)

Lemma elem_of_removed_ids d t id :
  wf_desired (it_current t) ->
  id ∈ map interest_id (replace d t).1 <-> is_Some (it_current t !! id) /\ d !! id = None.
Proof.
  intros Hd. rewrite list_elem_of_fmap. setoid_rewrite elem_of_removed. split.
  - intros (i & -> & id' & Hc & Hn). destruct (Hd _ _ Hc) as [-> _]. split; eauto.
  - intros [[i Hc] Hn]. destruct (Hd _ _ Hc) as [E _]. exists i. split; [done|]. eauto.
Qed.

Lemma pass_translated x : valid_inputs x ->
  translated (in_resolve x) (in_snapshot x) (pass_desired x) (pass_wanted x).
Proof. intros [Hk Hd]. by apply translate_spec. Qed.

Lemma elem_of_kept x m id :
  manager_inv m -> id ∈ pass_kept x m <-> id ∈ wm_startedTargets m /\ is_Some (pass_desired x !! id).
Proof.
  intros Hm. unfold pass_kept. rewrite elem_of_difference, elem_of_list_to_set.
  unfold pass_removed. rewrite (elem_of_removed_ids _ _ _ (wt_desired _ (mi_table _ Hm))).
  pose proof (mi_started _ Hm id). destruct (pass_desired x !! id); naive_solver.
Qed.

Lemma elem_of_serving_ids x m id :
  wf_desired (pass_desired x) ->
  id ∈ map interest_id (pass_serving x m) <->
  exists i, pass_desired x !! id = Some i /\ (id ∉ pass_kept x m) /\ is_Some (pass_pool x m !! si_informer i).
Proof.
  intros Hd. rewrite list_elem_of_fmap. unfold pass_serving. setoid_rewrite elem_of_newlyServing. split.
  - intros (i & -> & id' & Hc & Hn & Hp). destruct (Hd _ _ Hc) as [-> _]. eauto.
  - intros (i & Hc & Hn & Hp). destruct (Hd _ _ Hc) as [E _]. exists i. split; [done|]. eauto.
Qed.

Lemma pass_pool_wanted x m k :
  is_Some (pass_pool x m !! k) <->
  is_Some (pass_wanted x !! k) /\ (is_Some (wm_pool m !! k) \/ in_starts x k = true).
Proof.
  unfold pass_pool. rewrite retain_lookup. destruct (pass_wanted x !! k); [|by split; [intros [??]|intros [[??] _]]].
  destruct (wm_pool m !! k), (in_starts x k); split; naive_solver.
Qed.

Lemma reconcile_inv x m : valid_inputs x -> manager_inv m -> manager_inv (reconcilePool x m).2.
Proof.
  intros Hx Hm. pose proof (pass_translated x Hx) as Ht. rewrite reconcilePool_eq. split; simpl.
  - exact (replace_wf _ (wm_table m) (tr_wf _ _ _ _ Ht)).
  - apply (tr_shared _ _ _ _ Ht).
  - intros id. rewrite elem_of_union, (elem_of_kept _ _ _ Hm), elem_of_list_to_set.
    rewrite (elem_of_serving_ids _ _ _ (tr_wf _ _ _ _ Ht)). intros [[_ ?]|(i & Hi & _)]; [done|].
    by rewrite Hi.
  - intros k [Hw _]%pass_pool_wanted. by apply (tr_wanted _ _ _ _ Ht).
  - apply Hm.
Qed.

Lemma edges_app id l1 l2 : edges id (l1 ++ l2) = edges id l1 ++ edges id l2.
Proof. apply omap_app. Qed.

Lemma edges_pool id l : Forall pool_effect l -> edges id l = [].
Proof. unfold edges. induction 1 as [|f l Hf _ IH]; [done|]. by destruct f. Qed.

Lemma edges_stops id at_ l :
  NoDup (map interest_id l) ->
  edges id (l ≫= stop_effects at_) = if decide (id ∈ map interest_id l) then [false] else [].
Proof.
  intros Hn. rewrite <-(omap_at _ _ _ _ Hn). unfold edges. clear Hn.
  induction l as [|i l IH]; [done|]. change ((i :: l) ≫= stop_effects at_) with (stop_effects at_ i ++ (l ≫= stop_effects at_)).
  rewrite omap_app, IH. simpl. by case_decide.
Qed.

Lemma edges_starts id at_ l :
  NoDup (map interest_id l) ->
  edges id (map (start_effect at_) l) = if decide (id ∈ map interest_id l) then [true] else [].
Proof.
  intros Hn. rewrite <-(omap_at _ _ _ _ Hn). unfold edges. clear Hn.
  induction l as [|i l IH]; [done|]. cbn [map]. rewrite !omap_step, IH. simpl. by case_decide.
Qed.

Lemma pass_edges x m id :
  valid_inputs x -> manager_inv m ->
  edges id (reconcilePool x m).1 =
    (if decide (id ∈ map interest_id (pass_removed x m)) then [false] else []) ++
    (if decide (id ∈ map interest_id (pass_serving x m)) then [true] else []).
Proof.
  intros Hx Hm. rewrite reconcilePool_eq. cbn [fst]. rewrite !edges_app.
  rewrite (edges_pool _ _ (retain_effects _ _ _)), edges_stops, edges_starts; [done|..].
  - apply serving_NoDup, (pass_translated x Hx).
  - apply removed_NoDup, (mi_table _ Hm).
Qed.

(** A pass keeps the record of standing Starteds in step with what it reports. *)
Lemma pass_standing x m id :
  valid_inputs x -> manager_inv m ->
  let s := bool_decide (id ∈ wm_startedTargets m) in
  starts_guarded s (edges id (reconcilePool x m).1) /\
  standing s (edges id (reconcilePool x m).1) = bool_decide (id ∈ wm_startedTargets (reconcilePool x m).2).
Proof.
  intros Hx Hm s. rewrite (pass_edges _ _ _ Hx Hm), reconcilePool_eq. cbn [snd wm_startedTargets].
  pose proof (elem_of_removed_ids (pass_desired x) _ id (wt_desired _ (mi_table _ Hm))) as Hr.
  fold (pass_removed x m) in Hr.
  pose proof (elem_of_serving_ids x m id (tr_wf _ _ _ _ (pass_translated x Hx))) as Hs.
  pose proof (elem_of_kept x m id Hm) as Hk. pose proof (mi_started _ Hm id) as Hi.
  assert (Hu : id ∈ pass_kept x m ∪ list_to_set (map interest_id (pass_serving x m)) <->
    id ∈ pass_kept x m \/ id ∈ map interest_id (pass_serving x m)).
  { by rewrite elem_of_union, elem_of_list_to_set. }
  rewrite (bool_decide_ext _ _ Hu). subst s. unfold standing.
  destruct (decide (id ∈ map interest_id (pass_removed x m))) as [R|R],
    (decide (id ∈ map interest_id (pass_serving x m))) as [S|S]; simpl.
  - apply Hr in R as [_ R]. apply Hs in S as (i & E & _). congruence.
  - split; [done|]. symmetry. apply bool_decide_eq_false. apply Hr in R as [_ R].
    intros [K|?]; [|done]. apply Hk in K as [_ K]. rewrite R in K. by destruct K.
  - split; [|by symmetry; apply bool_decide_eq_true; auto]. split; [|done].
    apply bool_decide_eq_false. intros Hin. apply Hs in S as (i & E & Hnk & _). apply Hnk, Hk.
    split; [done|]. by rewrite E.
  - split; [done|]. apply bool_decide_ext. rewrite Hk. destruct (pass_desired x !! id) eqn:E; [naive_solver|].
    split; [|by intros [[_ [??]]|?]]. intros Hin. destruct R. apply Hr. auto.
Qed.

Definition valid_wake (w : wake) : Prop :=
  match w with WakePass x => valid_inputs x | _ => True end.

Lemma on_wake_inv w m : valid_wake w -> manager_inv m -> manager_inv (on_wake w m).2.
Proof.
  intros Hw Hm. destruct w as [x| |]; simpl in *.
  - by apply reconcile_inv.
  - unfold markSettled. destruct (wm_settleDone m) eqn:E; [done|]. destruct Hm as [??? ? Hs].
    split; simpl; try done. by rewrite Hs, E.
  - destruct Hm. split; simpl; try done. intros k [g Hg]. by rewrite lookup_empty in Hg.
Qed.

Lemma on_wake_standing w m id :
  valid_wake w -> manager_inv m ->
  let s := bool_decide (id ∈ wm_startedTargets m) in
  starts_guarded s (edges id (on_wake w m).1) /\
  standing s (edges id (on_wake w m).1) = bool_decide (id ∈ wm_startedTargets (on_wake w m).2).
Proof.
  intros Hw Hm s. destruct w as [x| |]; simpl in *.
  - by apply pass_standing.
  - unfold markSettled. by destruct (wm_settleDone m).
  - rewrite edges_pool; [done|]. apply Forall_forall. intros f Hf.
    apply list_elem_of_fmap in Hf as (k & -> & _). done.
Qed.

Lemma run_wakes_inv ws m :
  Forall valid_wake ws -> manager_inv m -> manager_inv (run_wakes ws m).2.
Proof.
  intros Hws. revert m. induction Hws as [|w ws Hw _ IH]; intros m Hm; [done|]. simpl.
  pose proof (on_wake_inv w m Hw Hm) as Hm1. destruct (on_wake w m) as [e m1].
  specialize (IH m1 Hm1). by destruct (run_wakes ws m1).
Qed.

Lemma run_wakes_standing ws m id :
  Forall valid_wake ws -> manager_inv m ->
  let s := bool_decide (id ∈ wm_startedTargets m) in
  starts_guarded s (edges id (run_wakes ws m).1) /\
  standing s (edges id (run_wakes ws m).1) = bool_decide (id ∈ wm_startedTargets (run_wakes ws m).2).
Proof.
  intros Hws. revert m. induction Hws as [|w ws Hw _ IH]; intros m Hm; [done|]. simpl.
  pose proof (on_wake_inv w m Hw Hm) as Hm1. pose proof (on_wake_standing w m id Hw Hm) as [G1 S1].
  destruct (on_wake w m) as [e m1]. specialize (IH m1 Hm1). destruct (run_wakes ws m1) as [e' m2].
  simpl in *. destruct IH as [G2 S2]. rewrite edges_app, starts_guarded_app, standing_app, S1. done.
Qed.

(** *** Lookups *)

Definition installed (m : WatchManager) (i : scopeInterest) : Prop :=
  exists id, it_current (wm_table m) !! id = Some i.

(** The installed interests that cover an identity. *)
Definition covers (m : WatchManager) (ref : Key) (i : scopeInterest) : Prop :=
  installed m i /\ si_sink i = k_Sink ref /\ in_scope (si_scope i) ref.

Definition serving (m : WatchManager) (i : scopeInterest) : Prop := is_Some (wm_pool m !! si_informer i).

Lemma elem_of_covering m ref i :
  manager_inv m -> i ∈ lookupIdentity (wm_table m) ref <-> covers m ref i.
Proof.
  intros Hm. rewrite (elem_of_lookupIdentity _ _ _ (mi_table _ Hm)). unfold covers, installed. naive_solver.
Qed.

(** Why a lookup through an interest fails. *)
Definition unreadable (view : caches) (m : WatchManager) (ck : string) (i : scopeInterest) : Prop :=
  ~ serving m i \/ match GetByKey view (si_informer i) ck with
                   | Err _ | Ok (Some (DTombstone _ _ | DOther _)) => True
                   | _ => False
                   end.

Lemma get_loop_spec view m ck interests missing :
  match get_loop view (wm_pool m) ck interests missing with
  | Ok (Some o, active) => active = true /\
      exists i, i ∈ interests /\ serving m i /\ GetByKey view (si_informer i) ck = Ok (Some (DUnstructured o))
  | Ok (None, active) => active = true /\ missing = None /\
      forall i, i ∈ interests -> serving m i /\ GetByKey view (si_informer i) ck = Ok None
  | Err _ => is_Some missing \/ exists i, i ∈ interests /\ unreadable view m ck i
  end.
Proof.
  unfold unreadable, serving. revert missing. induction interests as [|i interests IH]; intros missing; simpl.
  - destruct missing; [by left|]. split_and!; [done..|]. by intros ? ?%elem_of_nil.
  - unfold entryFor. destruct (wm_pool m !! si_informer i) as [g|] eqn:Ep.
    + destruct (GetByKey view (si_informer i) ck) as [[[o|k inner|t]|]|] eqn:Eg;
        [|right; exists i; rewrite Eg; split; [left|by right]..| |right; exists i; rewrite Eg; split; [left|by right]].
      * split; [done|]. exists i. rewrite Ep. split_and!; [left|done|done].
      * specialize (IH missing). destruct (get_loop _ _ _ _ _) as [[[o|] active]|].
        -- destruct IH as (-> & j & Hj & ?). split; [done|]. exists j. split; [by right|done].
        -- destruct IH as (-> & -> & IH). split_and!; [done..|].
           intros j [->|Hj]%elem_of_cons; [by rewrite Ep|by apply IH].
        -- destruct IH as [?|(j & Hj & ?)]; [by left|]. right. exists j. split; [by right|done].
    + specialize (IH (Some i)). destruct (get_loop _ _ _ _ _) as [[[o|] active]|].
      * destruct IH as (-> & j & Hj & ?). split; [done|]. exists j. split; [by right|done].
      * by destruct IH as (_ & ? & _).
      * right. destruct IH as [_|(j & Hj & ?)].
        -- exists i. rewrite Ep. split; [left|]. left. by intros [??].
        -- exists j. split; [by right|done].
Qed.
End manager.

(** ** Properties *)

(** C10: absence is never reported on a guess. In every state the loop reaches, the
    lookup the pipeline deletes by answers "not found, scope active" only when some
    installed interest covers the identity, every one that does is served by a
    running informer, and every such informer's cache lacks the object; an object is
    one a covering informer holds; "scope inactive" means that no installed interest
    covers the identity, which is exactly when no redaction policy is returned
    either; and an error names a covering interest that could not be read. *)
Theorem absence_is_never_guessed
    `{LabelSelectors, Strconv, FilterCodec, FieldSelectors, Schema} ws view ref :
  Forall valid_wake ws ->
  let m := (run_wakes ws manager_New).2 in
  let ck := watch_cache_key ref in
  match Get view m ref with
  | Ok (Some o, active) => active = true /\ exists i, covers m ref i /\ serving m i /\
      GetByKey view (si_informer i) ck = Ok (Some (DUnstructured o))
  | Ok (None, true) => (exists i, covers m ref i) /\
      forall i, covers m ref i -> serving m i /\ GetByKey view (si_informer i) ck = Ok None
  | Ok (None, false) => forall i, ~ covers m ref i
  | Err _ => exists i, covers m ref i /\ unreadable view m ck i
  end /\
  (RedactionFor m ref = None <-> Get view m ref = Ok (None, false)).
Proof.
  intros Hws m ck. pose proof (run_wakes_inv ws _ Hws manager_inv_New) as Hm. fold m in Hm.
  pose proof (elem_of_covering m ref) as Hc. unfold Get, RedactionFor. fold ck.
  destruct (lookupIdentity (wm_table m) ref) as [|i rest] eqn:El.
  - split; [|done]. intros i Hi. apply (Hc i Hm), elem_of_nil in Hi. done.
  - pose proof (get_loop_spec view m ck (i :: rest) None) as Hg.
    assert (Hi : covers m ref i) by (apply (Hc i Hm); left).
    destruct (get_loop _ _ _ _ _) as [[[o|] active]|].
    + destruct Hg as (-> & j & Hj & ?). split; [|by destruct rest]. split; [done|].
      exists j. split; [by apply Hc|done].
    + destruct Hg as (-> & _ & Hg). split; [|by destruct rest]. split; [eauto|].
      intros j Hj. by apply Hg, Hc.
    + split; [|by destruct rest]. destruct Hg as [[??]|(j & Hj & ?)]; [done|].
      exists j. split; [by apply Hc|done].
Qed.

(** no epoch is opened twice. Over any sequence of reconcile passes, settle
    timers and shutdowns, with any snapshots, resolutions and failing informer
    starts, the manager reports a Started for an interest only when none is
    standing, and the interests whose last reported edge is Started are exactly the
    ones it remembers as started; the settle channel is closed at most once. *)
Theorem scope_edges_guarded
    `{LabelSelectors, Strconv, FilterCodec, FieldSelectors, Schema} ws id :
  Forall valid_wake ws ->
  let '(effects, m) := run_wakes ws manager_New in
  starts_guarded false (edges id effects) /\
  (last (edges id effects) = Some true <-> id ∈ wm_startedTargets m) /\
  wm_settled m <= 1.
Proof.
  intros Hws. pose proof (run_wakes_standing ws manager_New id Hws manager_inv_New) as [Hg Hs].
  pose proof (run_wakes_inv ws _ Hws manager_inv_New) as Hm. rewrite bool_decide_eq_false_2 in Hg, Hs by done.
  destruct (run_wakes ws manager_New) as [effects m]. simpl in *. split_and!; [done|..].
  - unfold standing in Hs. split.
    + intros E. rewrite E in Hs. simpl in Hs. symmetry in Hs. by apply bool_decide_eq_true in Hs.
    + intros Hin. rewrite bool_decide_eq_true_2 in Hs by done. by destruct (last _) as [[]|].
  - rewrite (mi_settled _ Hm). destruct (wm_settleDone m); lia.
Qed.

(** C37: one pass converges. From every reachable state, whatever the snapshot, the
    resolver and the informer starts did: afterwards every target that resolves, is
    allowed and compiles has an installed interest; an informer runs exactly if it
    serves an installed interest and was running or could be started; every served
    interest has been reported Started; and repeating the pass with the same inputs
    has no effect and changes nothing but the pass counter. *)
Theorem pass_converges
    `{LabelSelectors, Strconv, FilterCodec, FieldSelectors, Schema} ws x :
  Forall valid_wake ws -> valid_inputs x ->
  let m := (run_wakes ws manager_New).2 in
  let m1 := (reconcilePool x m).2 in
  (forall key st i, in_snapshot x !! key = Some st -> candidate (in_resolve x) (key, st) = Some i ->
     exists j, it_current (wm_table m1) !! interest_id i = Some j /\
       si_redaction j = si_redaction i /\ si_events j = si_events i /\ si_selectors j = si_selectors i) /\
  (forall k, is_Some (wm_pool m1 !! k) <->
     (exists i, installed m1 i /\ si_informer i = k) /\ (is_Some (wm_pool m !! k) \/ in_starts x k = true)) /\
  (forall i, installed m1 i -> serving m1 i -> interest_id i ∈ wm_startedTargets m1) /\
  reconcilePool x m1 = ([], mkManager (wm_table m1) (wm_pool m1) (wm_startedTargets m1)
                              (wm_settleDone m1) (wm_settled m1) (wm_poolDiffs m1 + 1)).
Proof.
  intros Hws Hx m m1. pose proof (run_wakes_inv ws _ Hws manager_inv_New) as Hm. fold m in Hm.
  pose proof (pass_translated x Hx) as Ht. pose proof (reconcile_inv x m Hx Hm) as Hm1. fold m1 in Hm1.
  assert (E1 : m1 = mkManager (replace (pass_desired x) (wm_table m)).2 (pass_pool x m)
     (pass_kept x m ∪ list_to_set (map interest_id (pass_serving x m)))
     (wm_settleDone m) (wm_settled m) (wm_poolDiffs m + 1)) by (unfold m1; by rewrite reconcilePool_eq).
  assert (Hst : forall id i, pass_desired x !! id = Some i -> is_Some (pass_pool x m !! si_informer i) ->
    id ∈ wm_startedTargets m1).
  { intros id i Hi Hp. rewrite E1. cbn [wm_startedTargets]. rewrite elem_of_union, elem_of_list_to_set.
    destruct (decide (id ∈ pass_kept x m)); [by left|right].
    apply (elem_of_serving_ids _ _ _ (tr_wf _ _ _ _ Ht)). eauto. }
  split_and!.
  - intros key st i Hs Hc. destruct (tr_complete _ _ _ _ Ht _ _ _ Hs Hc) as [sel Hd].
    rewrite E1. eexists. split; [exact Hd|]. done.
  - intros k. rewrite E1. cbn [wm_pool]. rewrite pass_pool_wanted, (tr_wanted _ _ _ _ Ht).
    unfold installed. simpl. naive_solver.
  - intros i [id Hi] Hs. destruct (wt_desired _ (mi_table _ Hm1) _ _ Hi) as [-> _].
    rewrite E1 in Hi, Hs. apply (Hst _ _ Hi Hs).
  - rewrite (reconcilePool_eq x m1).
    assert (Hr : pass_removed x m1 = []).
    { unfold pass_removed. destruct (replace _ _).1 as [|i l] eqn:El; [done|]. exfalso.
      assert (i ∈ (replace (pass_desired x) (wm_table m1)).1) as (id & Hc & Hn)%elem_of_removed by (rewrite El; left).
      rewrite E1 in Hc. simpl in Hc. congruence. }
    assert (Hk : pass_kept x m1 = wm_startedTargets m1).
    { unfold pass_kept. rewrite Hr. apply leibniz_equiv. set_solver. }
    assert (Hp : retain (in_starts x) (pass_wanted x) (wm_pool m1) = ([], wm_pool m1)).
    { rewrite E1. cbn [wm_pool]. apply retain_settled.
      - intros k g Hg. apply (pass_pool_wanted x m k). by rewrite Hg.
      - intros k Hw Hn. destruct (in_starts x k) eqn:Es; [|done].
        assert (is_Some (pass_pool x m !! k)) as [??] by (apply pass_pool_wanted; auto). congruence. }
    assert (Hv : pass_serving x m1 = []).
    { unfold pass_serving. destruct (newlyServing _ _) as [|i l] eqn:El; [done|]. exfalso.
      assert (Hin : i ∈ i :: l) by left. rewrite <-El in Hin. apply elem_of_newlyServing in Hin as (id & Hc & Hn & Hrun).
      simpl in Hn, Hrun. unfold pass_pool in Hrun. rewrite Hp in Hrun. rewrite Hk in Hn.
      apply Hn, (Hst _ _ Hc). by rewrite E1 in Hrun. }
    rewrite Hr, Hp, Hv. cbn [mbind list_bind map fst snd app]. unfold pass_pool. rewrite Hp, Hk.
    cbn [snd]. rewrite list_to_set_nil, union_empty_r_L. by rewrite E1.
Qed.

(** ** Fan-out *)

Section fan_out.
Context `{LabelSelectors, Strconv, FilterCodec, FieldSelectors, Schema, Unstructured, InformerObjects}.

(** What an interest wants of an event: a tombstone without its object always; else
    an object its selectors accept - before or after the update - that its Event
    filter accepts as it is now. *)
Definition wants (i : scopeInterest) (target : eventTarget) (previous : option delivered) : Prop :=
  match et_obj target with
  | None => True
  | Some o =>
      (si_matchAll i = true \/
       exists sel, sel ∈ si_selectors i /\
         (selector_Matches sel (default ∅ (GetLabels o)) = true \/
          exists labels, previous_labels previous = Some labels /\ selector_Matches sel labels = true)) /\
      event_matches (si_events i) o = true
  end.

Lemma interest_matches_spec i labels :
  interest_matches i labels = true <->
  si_matchAll i = true \/ exists sel, sel ∈ si_selectors i /\ selector_Matches sel (default ∅ labels) = true.
Proof.
  unfold interest_matches. destruct (si_matchAll i); [by split; [left|]|].
  rewrite existsb_exists. setoid_rewrite list_elem_of_In. split; [by right|]. by intros [?|?].
Qed.

Lemma matchesAll_matches events o : matchesAll events = true -> event_matches events o = true.
Proof. unfold event_matches. by intros ->. Qed.

Lemma matchesEither_spec i current previous :
  matchesEither i current previous = true <->
  interest_matches i current = true \/
  exists labels, previous = Some labels /\ interest_matches i previous = true.
Proof.
  unfold matchesEither. destruct (interest_matches i current), previous as [labels|]; naive_solver.
Qed.

Lemma fans_to_spec target previous i : fans_to target previous i = true <-> wants i target previous.
Proof.
  unfold fans_to, wants, labelsKnown, labelsOf, recordsEveryEvent, matchesEvent.
  destruct (et_obj target) as [o|]; [|by rewrite andb_false_r; simpl; rewrite andb_false_r].
  pose proof (matchesEither_spec i (GetLabels o) (previous_labels previous)) as He.
  pose proof (interest_matches_spec i (GetLabels o)) as Hm.
  pose proof (interest_matches_spec i (previous_labels previous)) as Hp.
  assert (Hev : negb (negb (matchesAll (si_events i)) && negb (event_matches (si_events i) o)) = true <->
    event_matches (si_events i) o = true).
  { destruct (matchesAll (si_events i)) eqn:Ea; [by rewrite (matchesAll_matches _ o Ea)|].
    by destruct (event_matches (si_events i) o). }
  destruct (si_matchAll i) eqn:Ea; simpl.
  - rewrite Hev. split; [|by intros [_ ?]]. intros ?. split; [by left|done].
  - destruct (matchesEither _ _ _); simpl.
    + rewrite Hev. split; [|by intros [_ ?]]. intros ?. split; [|done]. right.
      destruct (proj1 He eq_refl) as [[?|(sel & ? & ?)]%Hm|(labels & El & [?|(sel & ? & Hs)]%Hp)];
        [done|by exists sel; auto|done|]. exists sel. rewrite El in Hs. eauto.
    + split; [done|]. intros [[?|(sel & Hin & Hs)] _]; [done|]. apply He. destruct Hs as [Hs|(labels & El & Hs)].
      * left. apply Hm. eauto.
      * right. exists labels. split; [done|]. apply Hp. right. exists sel. by rewrite El.
Qed.

(** The interests of one informer stream to different sinks. *)
Lemma sinks_distinct m k :
  manager_inv m -> NoDup (map si_sink (interestsFor (wm_table m) k)).
Proof.
  intros Hm. destruct (mi_table _ Hm) as [Hd Hi _ Hn]. apply NoDup_fmap_2_strong; [|apply Hn].
  intros i j Hx Hy E. apply Hi in Hx as (id1 & C1 & K1). apply Hi in Hy as (id2 & C2 & K2).
  destruct (Hd _ _ C1) as [E1 _], (Hd _ _ C2) as [E2 _].
  unfold interest_id in E1, E2. rewrite K1 in E1. rewrite K2 in E2. congruence.
Qed.

Lemma NoDup_map_filter {A B} (f : A -> B) (g : A -> bool) l : NoDup (map f l) -> NoDup (map f (List.filter g l)).
Proof.
  induction l as [|x l IH]; simpl; [done|]. intros [Hx Hn]%NoDup_cons. destruct (g x); [|by apply IH].
  simpl. apply NoDup_cons. split; [|by apply IH]. intros Hin. apply Hx.
  apply list_elem_of_fmap in Hin as (y & -> & Hy%list_elem_of_In%filter_In).
  apply list_elem_of_fmap_2, list_elem_of_In. apply Hy.
Qed.

Lemma fanOut_elem m k obj previous target key :
  manager_inv m -> eventTargetOf obj = Ok target ->
  key ∈ fanOut (wm_table m) k obj previous <->
  exists i, installed m i /\ si_informer i = k /\ wants i target previous /\
    key = keyFor i (et_namespace target) (et_name target).
Proof.
  intros Hm Et. unfold fanOut, installed. rewrite Et, list_elem_of_fmap.
  setoid_rewrite list_elem_of_In. setoid_rewrite filter_In. setoid_rewrite <-list_elem_of_In.
  setoid_rewrite fans_to_spec. setoid_rewrite (wt_byInformer _ (mi_table _ Hm)). naive_solver.
Qed.
End fan_out.

(** whom an event wakes. In every reachable state, a notification of an informer
    enqueues exactly the identity of its object once for each sink with an interest
    installed on that informer that wants it - so never for a sink whose interest is
    on another informer, whose selectors accept the object neither now nor before the
    update, or whose Event filter declines it - while a tombstone that lost its
    object wakes every one of them; an event without an identity wakes none. *)
Theorem fan_out_exact
    `{LabelSelectors, Strconv, FilterCodec, FieldSelectors, Schema, Unstructured, InformerObjects}
    ws k n :
  Forall valid_wake ws ->
  let m := (run_wakes ws manager_New).2 in
  let '(obj, previous) := match n with
    | AddFunc obj | DeleteFunc obj => (obj, None)
    | UpdateFunc oldObj newObj => (newObj, Some oldObj)
    end in
  let keys := handlerFor (wm_table m) k n in
  NoDup (map k_Sink keys) /\
  match eventTargetOf obj with
  | Err _ => keys = []
  | Ok target => forall key, key ∈ keys <->
      exists i, installed m i /\ si_informer i = k /\ wants i target previous /\
        key = keyFor i (et_namespace target) (et_name target)
  end.
Proof.
  intros Hws m. pose proof (run_wakes_inv ws _ Hws manager_inv_New) as Hm. fold m in Hm.
  destruct (match n with AddFunc obj | DeleteFunc obj => (obj, None)
                       | UpdateFunc oldObj newObj => (newObj, Some oldObj) end) as [obj previous] eqn:En.
  assert (handlerFor (wm_table m) k n = fanOut (wm_table m) k obj previous) as -> by (destruct n; by injection En as <- <-).
  simpl. split.
  - unfold fanOut. destruct (eventTargetOf obj) as [target|]; [|constructor].
    rewrite map_map. simpl. by apply NoDup_map_filter, sinks_distinct.
  - destruct (eventTargetOf obj) as [target|] eqn:Et; [|by unfold fanOut; rewrite Et].
    intros key. by apply fanOut_elem.
Qed.

(** C24: push-down never changes what is recorded. After any pass whose targets carry
    the filters their rules asked for, whatever field selector an informer ended up
    narrowed with, an Event the API server withholds because of it would have been
    enqueued for nobody: the narrowed stream and the full stream wake the same sinks. *)
Theorem pushdown_changes_nothing
    `{LabelSelectors, Strconv, FilterCodec, !FilterCodecLaws, FieldSelectors, !FieldSelectorLaws, Schema,
      Unstructured, InformerObjects} ws x k o previous :
  Forall valid_wake ws -> valid_inputs x ->
  (forall key st, in_snapshot x !! key = Some st -> exists specs, Forall2 rendered specs (ts_EventFilters st)) ->
  let gr := GVR_GroupResource (is_GVR (ik_scope k)) in
  served_by gr o -> server_selects gr (ik_FieldSelector k) o = false ->
  let m := (reconcilePool x (run_wakes ws manager_New).2).2 in
  fanOut (wm_table m) k (DUnstructured o) previous = [].
Proof.
  intros Hws Hx Hr gr Hsrv Hsel m. pose proof (run_wakes_inv ws _ Hws manager_inv_New) as Hm0.
  pose proof (reconcile_inv x _ Hx Hm0) as Hm. fold m in Hm.
  destruct (fanOut _ _ _ _) as [|key rest] eqn:Ef; [done|]. exfalso.
  assert (Hin : key ∈ key :: rest) by left. rewrite <-Ef in Hin.
  apply (fanOut_elem m k (DUnstructured o) _ (mkEventTarget (GetNamespace o) (GetName o) (Some o)) key Hm eq_refl) in Hin
    as (j & [id Hj] & Hk & [_ Hev] & _).
  unfold m in Hj. rewrite reconcilePool_eq in Hj. simpl in Hj.
  destruct (tr_sound _ _ _ _ (pass_translated x Hx) _ _ Hj) as (key' & st & i & sel & Hs & Hc & -> & Hsl).
  destruct (candidate_fields _ _ _ _ Hc (proj1 Hx _ _ Hs)) as (gvr & b & _ & _ & _ & _ & _ & En).
  destruct (newScopeInterest_fields _ _ _ En) as (_ & _ & _ & _ & _ & me & Ecm & Eev & Efs).
  simpl in Hk, Hev. subst k. simpl in *. rewrite Eev in Hev. destruct Hsl as [->|Hsl].
  - by rewrite selects_unfiltered in Hsel.
  - destruct (Hr _ _ Hs) as [specs Hspecs].
    pose proof (matched_is_selected _ _ _ _ _ Hspecs Ecm Hsrv Hev) as Hyes.
    rewrite Hsl, Efs in Hsel. unfold gr in Hsel. simpl in *. rewrite Hyes in Hsel. done.
Qed.

(** A scope is evicted while it is still watched. Whenever an interest is
    removed while another interest of the same sink in the same version-agnostic
    scope stays, as when one of two rules naming two API versions of a resource goes
    away, the pass evicts the scope's dedup baselines and its warm mark - although
    the scope is still desired, and no Started is reported for it that would warm it
    again if the interest that stays has been started already. *)
Theorem evicts_scope_still_desired
    `{LabelSelectors, Strconv, FilterCodec, FieldSelectors, Schema} ws x i j :
  Forall valid_wake ws -> valid_inputs x ->
  let m := (run_wakes ws manager_New).2 in
  let effects := (reconcilePool x m).1 in
  let m1 := (reconcilePool x m).2 in
  installed m i -> pass_desired x !! interest_id i = None ->
  pass_desired x !! interest_id j = Some j -> interest_id j ∈ wm_startedTargets m ->
  si_sink j = si_sink i -> si_scope j = si_scope i ->
  eff_EvictScope (si_sink i) (si_scope i) ∈ effects /\
  ScopeDesired m1 (si_sink i) (si_scope i) = true /\
  edges (interest_id j) effects = [].
Proof.
  intros Hws Hx m effects m1. pose proof (run_wakes_inv ws _ Hws manager_inv_New) as Hm. fold m in Hm.
  assert (E1 : effects = (reconcilePool x m).1) by done.
  assert (E2 : m1 = (reconcilePool x m).2) by done. clearbody effects m1.
  intros [id Hi] Hgone Hj Hstj Es Ec.
  pose proof (reconcile_inv x m Hx Hm) as Hm1. rewrite <-E2 in Hm1.
  pose proof (pass_translated x Hx) as Ht. destruct (mi_table _ Hm) as [Hd _ _ _].
  destruct (Hd _ _ Hi) as [Eid _]. split_and!.
  - rewrite E1, reconcilePool_eq. cbn [fst]. apply elem_of_app. left. apply list_elem_of_bind.
    exists i. split; [right; left|]. unfold pass_removed. apply elem_of_removed. exists id. by subst id.
  - unfold ScopeDesired. apply bool_decide_eq_true.
    assert (j ∈ interestsForScope (wm_table m1) (si_sink i) (si_scope i)) as Hin.
    { apply (elem_of_interestsForScope _ _ _ _ (mi_table _ Hm1)). exists (interest_id j).
      rewrite E2, reconcilePool_eq. done. }
    destruct (interestsForScope _ _ _); [by apply elem_of_nil in Hin|]. simpl. lia.
  - rewrite E1, (pass_edges _ _ _ Hx Hm). rewrite !decide_False; [done|..].
    + rewrite (elem_of_serving_ids _ _ _ (tr_wf _ _ _ _ Ht)). intros (? & _ & Hnk & _). apply Hnk.
      apply (elem_of_kept _ _ _ Hm). split; [done|]. by rewrite Hj.
    + unfold pass_removed. rewrite (elem_of_removed_ids _ _ _ Hd). rewrite Hj. by intros [_ ?].
Qed.

(** ** Evaluation on concrete passes *)

Definition sample_label_selectors : LabelSelectors := {|
  Selector := string;
  labels_Parse s := Ok s;
  selector_Matches key labels := bool_decide (is_Some (labels !! key));
|}.

Definition sample_schema : Schema := {|
  GVR_String g := gvr_Group g +:+ "/" +:+ gvr_Version g +:+ ", Resource=" +:+ gvr_Resource g;
|}.

Definition tree_informer_objects : InformerObjects := {|
  GetNamespace := metadata_string "namespace";
  GetName := metadata_string "name";
  SplitMetaNamespaceKey key :=
    match split_on "/"%char key with
    | [name] => Ok ("", name)
    | [namespace; name] => Ok (namespace, name)
    | _ => Err "unexpected key format"
    end;
|}.

Module WatchSamples.
#[local] Existing Instances sample_label_selectors plain_strconv text_filters text_selectors
  sample_schema tree_unstructured tree_informer_objects.

Definition sink : ID := mkID "ClickHouseSink" "main".

(** A rule's target on the Deployments of one namespace, in one API version. *)
Definition deployments (version : string) : TargetKey :=
  mkTargetKey sink (mkGVK "apps" version "Deployment") "web".

Definition target (key : TargetKey) (selectors redactions filters : list string) : TargetState :=
  mkTargetState key ["rule"] selectors redactions filters.

Definition snapshot_of (versions : list string) : gmap TargetKey TargetState :=
  list_to_map (map (fun v => (deployments v, target (deployments v) ["app"] ["spec.template"] [""])) versions).

(** A cluster that serves Deployments of any version and core Events. *)
Definition resolve : resolution := fun key =>
  let gvk := tk_GVK key in
  if bool_decide (gvk_Kind gvk = "Deployment") then Some (mkGVR (gvk_Group gvk) (gvk_Version gvk) "deployments", true)
  else if bool_decide (gvk_Kind gvk = "Event") then Some (mkGVR (gvk_Group gvk) (gvk_Version gvk) "events", true)
  else None.

Lemma resolve_distinct : resolves_distinctly resolve.
Proof.
  intros [? [g1 v1 d1] ?] [? [g2 v2 d2] ?] gvr b1 b2. unfold resolve. simpl.
  repeat case_bool_decide; intros; simplify_eq; done.
Qed.

Definition pass (versions : list string) (up : bool) (at_ : Z) : inputs :=
  mkInputs (snapshot_of versions) resolve (fun _ => up) at_.

Lemma pass_valid versions up at_ : keyed (snapshot_of versions) -> valid_inputs (pass versions up at_).
Proof. intros Hk. split; [exact Hk|exact resolve_distinct]. Qed.

(** Informers that hold one Deployment. *)
Definition web_object : object :=
  {["metadata" := JObj {["name" := JStr "shop"; "namespace" := JStr "web";
                        "labels" := string_map {["app" := "shop"]}]}]}.

Definition view : caches :=
  mkCaches (fun _ key => Ok (if bool_decide (key = "web/shop") then Some (DUnstructured web_object) else None))
    (fun _ => true).

Definition wakes : list wake :=
  [WakePass (pass ["v1"; "v2"] false 1); WakeSettle; WakePass (pass ["v1"; "v2"] true 2); WakeSettle].

Lemma wakes_valid : Forall valid_wake wakes.
Proof.
  assert (forall up at_, valid_inputs (pass ["v1"; "v2"] up at_)) as Hv.
  { intros up at_. apply pass_valid, (bool_decide_unpack _). vm_compute. exact I. }
  apply Forall_cons; split; [apply Hv|]. apply Forall_cons; split; [exact I|].
  apply Forall_cons; split; [apply Hv|]. apply Forall_cons; split; [exact I|constructor].
Qed.

Definition gone_key : Key := mkKey sink "apps" "Deployment" "web" "cart".

Lemma absence_is_never_guessed_witness :
  let m := (run_wakes wakes manager_New).2 in
  Get view m gone_key = Ok (None, true) /\
  (forall i, covers m gone_key i -> serving m i /\ GetByKey view (si_informer i) "web/cart" = Ok None).
Proof.
  pose proof (absence_is_never_guessed wakes view gone_key wakes_valid) as [Hg _]. cbv zeta in *.
  assert (E : Get view (run_wakes wakes manager_New).2 gone_key = Ok (None, true)) by (vm_compute; reflexivity).
  rewrite E in Hg. split; [exact E|]. exact (proj2 Hg).
Defined.

Definition deployment_id (version : string) : interestID :=
  mkInterestID (mkInformerScope (mkGVR "apps" version "deployments") "web") sink.

Lemma scope_edges_guarded_witness :
  edges (deployment_id "v1") (run_wakes wakes manager_New).1 = [true] /\
  deployment_id "v1" ∈ wm_startedTargets (run_wakes wakes manager_New).2.
Proof.
  pose proof (scope_edges_guarded wakes (deployment_id "v1") wakes_valid) as Hg.
  destruct (run_wakes wakes manager_New) as [effects m] eqn:E. destruct Hg as (_ & Hl & _).
  assert (Ee : edges (deployment_id "v1") effects = [true]).
  { change effects with (effects, m).1. rewrite <-E. vm_compute. reflexivity. }
  split; [exact Ee|]. apply Hl. cbn [fst]. rewrite Ee. reflexivity.
Defined.

Lemma pass_converges_witness :
  let m := (run_wakes wakes manager_New).2 in
  let m1 := (reconcilePool (pass ["v1"; "v2"] true 3) m).2 in
  PoolSize m1 = 2 /\ (reconcilePool (pass ["v1"; "v2"] true 3) m1).1 = [].
Proof.
  intros m m1. split; [vm_compute; reflexivity|].
  destruct (pass_converges wakes (pass ["v1"; "v2"] true 3) wakes_valid) as (_ & _ & _ & E).
  { apply pass_valid, (bool_decide_unpack _). vm_compute. exact I. }
  unfold m1, m. rewrite E. reflexivity.
Defined.

(** Two informers, one version-agnostic scope: the rule naming v1 goes away. *)
Lemma evicts_scope_still_desired_witness :
  let x := pass ["v2"] true 3 in
  let m := (run_wakes wakes manager_New).2 in
  let scope := mkScopeKey "apps" "Deployment" "web" in
  eff_EvictScope sink scope ∈ (reconcilePool x m).1 /\ ScopeDesired (reconcilePool x m).2 sink scope = true.
Proof.
  intros x m scope.
  destruct (it_current (wm_table m) !! deployment_id "v1") as [i|] eqn:Ei; cycle 1.
  { exfalso. assert (is_Some (it_current (wm_table m) !! deployment_id "v1")) as [? ?];
      [apply (bool_decide_unpack _); vm_compute; exact I|congruence]. }
  destruct (pass_desired x !! deployment_id "v2") as [j|] eqn:Ej; cycle 1.
  { exfalso. assert (is_Some (pass_desired x !! deployment_id "v2")) as [? ?];
      [apply (bool_decide_unpack _); vm_compute; exact I|congruence]. }
  assert (Fi : interest_id i = deployment_id "v1" /\ si_sink i = sink /\ si_scope i = scope).
  { vm_compute in Ei. injection Ei as <-. repeat split. }
  assert (Fj : interest_id j = deployment_id "v2" /\ si_sink j = sink /\ si_scope j = scope).
  { vm_compute in Ej. injection Ej as <-. repeat split. }
  destruct Fi as (Ii & Si & Ci), Fj as (Ij & Sj & Cj).
  assert (Hx : valid_inputs x) by (apply pass_valid, (bool_decide_unpack _); vm_compute; exact I).
  assert (Hi : installed m i) by (exists (deployment_id "v1"); exact Ei).
  assert (Hn : pass_desired x !! interest_id i = None) by (rewrite Ii; vm_compute; reflexivity).
  assert (Hj : pass_desired x !! interest_id j = Some j) by (rewrite Ij; exact Ej).
  assert (Hs : interest_id j ∈ wm_startedTargets m)
    by (rewrite Ij; apply (bool_decide_unpack _); vm_compute; exact I).
  rewrite <-Si, <-Ci.
  split; [apply (evicts_scope_still_desired wakes x i j wakes_valid Hx Hi Hn Hj Hs); congruence|].
  apply (evicts_scope_still_desired wakes x i j wakes_valid Hx Hi Hn Hj Hs); congruence.
Defined.

Definition shop_key : Key := mkKey sink "apps" "Deployment" "web" "shop".

Lemma fan_out_exact_witness :
  let m := (run_wakes wakes manager_New).2 in
  let k := mkInformerKey (ii_informer (deployment_id "v1")) "" in
  NoDup (map k_Sink (handlerFor (wm_table m) k (AddFunc (DUnstructured web_object)))) /\
  handlerFor (wm_table m) k (AddFunc (DUnstructured web_object)) = [shop_key].
Proof.
  intros m k. split; [|vm_compute; reflexivity].
  exact (proj1 (fan_out_exact wakes k (AddFunc (DUnstructured web_object)) wakes_valid)).
Defined.

(** A rule on core Events that keeps Warnings, alone on its informer. *)
Definition events_key : TargetKey := mkTargetKey sink (mkGVK "" "v1" "Event") "".

Definition warnings_only : EventFilterSpec := mkSpec ["Warning"] [] [] [] [] [].

Definition events_pass : inputs :=
  mkInputs {[events_key := target events_key [""] []
               [match CanonicalEventFilter warnings_only with Ok raw => raw | Err _ => "" end]]}
    resolve (fun _ => true) 1.

Definition warnings_informer : informerKey :=
  mkInformerKey (mkInformerScope (mkGVR "" "v1" "events") "")
    (and_selectors [OneTermEqualSelector "type" "Warning"]).

Definition normal_event : object := {["type" := JStr "Normal"; "reason" := JStr "Pulled"]}.

Lemma pushdown_changes_nothing_witness :
  let m := (reconcilePool events_pass (run_wakes [] manager_New).2).2 in
  is_Some (wm_pool m !! warnings_informer) /\
  fanOut (wm_table m) warnings_informer (DUnstructured normal_event) None = [].
Proof.
  intros m. split; [apply (bool_decide_unpack _); vm_compute; exact I|].
  apply (pushdown_changes_nothing [] events_pass).
  - constructor.
  - split; [apply (bool_decide_unpack _); vm_compute; exact I|exact resolve_distinct].
  - intros key st Hs. exists [warnings_only].
    simpl in Hs. apply lookup_singleton_Some in Hs as [<- <-].
    constructor; [|constructor]. split; [by repeat constructor|vm_compute; reflexivity].
  - split; vm_compute; done.
  - vm_compute. reflexivity.
Defined.
End WatchSamples.
