(* ===== verification/Normalize.v ===== *)
(** * Normalize: from a live object to the bytes that are hashed and diffed

    Models [src/internal/pipeline/actors.go], the normalization half of
    [src/internal/pipeline/process.go] ([normalizeObject], [stripVolatileFields],
    [ObjectHash], [NormalizedJSON]) and the informer transform [TransformObject]
    of [src/internal/watch/pool.go], which runs before it on every cached object. *)

From stdpp Require Import pretty.
From S2P Require Import Prelude GoJson Redact.

(** ** Actors *)

Definition ActorsAnnotation : string := "internal.kuberecord.io/actors".
Definition actorsSeparator : string := ",".

Definition EncodeActors (actors : list string) : string := join actorsSeparator actors.

Definition decodeActors (value : string) : list string :=
  filter (fun part => part <> "") (split_on ","%char value).

(** The manager a managedFields entry names; a missing, non-string or empty one
    is ["unknown"]. *)
Definition entry_manager (m : object) : string :=
  let manager := match m !! "manager" with Some (JStr s) => s | _ => "" end in
  if decide (manager = "") then "unknown" else manager.

(** The loop that fills [seen], skipping entries that are not maps. *)
Definition seen_managers (managedFields : list json) : gset string :=
  foldl (fun seen entry =>
           match as_obj entry with
           | Some m => {[entry_manager m]} ∪ seen
           | None => seen
           end) ∅ managedFields.

Section normalize.
Context `{Unstructured}.

Definition ExtractActors (obj : object) : list string :=
  match NestedFieldNoCopy obj ["metadata"; "managedFields"] with
  | Err _ | Ok None => []
  | Ok (Some raw) =>
      match as_arr raw with
      | None | Some [] => []
      | Some managedFields =>
          let seen := seen_managers managedFields in
          if decide (size seen = 0%nat) then []
          else merge_sort String.le (elements seen)
      end
  end.

(** ** Stripping *)

(** One round of the loop over [metadata]: [None] drops the field. *)
Definition strip_field (stripActorsAnnotation : bool) (field : string) (value : json) : option json :=
  if decide (field = "managedFields" \/ field = "resourceVersion" \/ field = "generation") then None
  else if decide (field = "annotations") then
    if negb stripActorsAnnotation then Some value
    else
      match as_obj value with
      | None => Some value
      | Some existing =>
          if decide (size existing = 1%nat) then None
          else Some (JObj (filter (fun kv => kv.1 <> ActorsAnnotation) existing))
      end
  else Some value.

Definition stripVolatileFields (o : object) (stripActorsAnnotation : bool) : object :=
  match o !! "metadata" with
  | Some (JObj metadata) =>
      <["metadata" := JObj (map_imap (strip_field stripActorsAnnotation) metadata)]> o
  | _ => o
  end.

(** ** Normalization *)

Record normalizedObject := mkNormalized {
  no_JSON : string;
  no_Hash : string;
  no_UID : string;
  no_ResourceVersion : string;
  no_APIVersion : string;
  no_Labels : gmap string string;
  no_Actors : list string;
  no_normalized : object;
}.

Inductive normalizeError :=
| errMarshal
| errRedactionPanic.

Context `{Encoders}.

Definition hasActorsAnnotation (obj : object) : bool :=
  match GetAnnotations obj with
  | Some annotations => bool_decide (is_Some (annotations !! ActorsAnnotation))
  | None => false
  end.

Definition object_actors (obj : object) : list string :=
  match GetAnnotations obj with
  | Some annotations =>
      match annotations !! ActorsAnnotation with
      | Some value => decodeActors value
      | None => ExtractActors obj
      end
  | None => ExtractActors obj
  end.

Definition normalizeObject (obj : object) (policy : option RedactionPolicy)
    : result normalizeError normalizedObject :=
  match Apply policy (stripVolatileFields obj (hasActorsAnnotation obj)) with
  | None => Err errRedactionPanic
  | Some normalized =>
      match json_marshal normalized with
      | None => Err errMarshal
      | Some objJSON =>
          Ok {| no_JSON := objJSON;
                no_Hash := sha256_hex objJSON;
                no_UID := GetUID obj;
                no_ResourceVersion := GetResourceVersion obj;
                no_APIVersion := GVKVersion obj;
                no_Labels := default ∅ (GetLabels obj);
                no_Actors := object_actors obj;
                no_normalized := normalized |}
      end
  end.

Definition ObjectHash (obj : object) (policy : option RedactionPolicy) : result normalizeError string :=
  match normalizeObject obj policy with
  | Err e => Err e
  | Ok norm => Ok (no_Hash norm)
  end.

Definition NormalizedJSON (obj : object) (policy : option RedactionPolicy) : result normalizeError string :=
  match normalizeObject obj policy with
  | Err e => Err e
  | Ok norm => Ok (no_JSON norm)
  end.

(** ** The informer transform *)

Definition TransformObject (o : object) : object :=
  match NestedFieldNoCopy o ["metadata"; "managedFields"] with
  | Err _ | Ok None => o
  | Ok (Some _) =>
      let actors := ExtractActors o in
      let o1 :=
        if decide (actors = []) then o
        else
          let annotations := default ∅ (GetAnnotations o) in
          SetAnnotations (<[ActorsAnnotation := EncodeActors actors]> annotations) o in
      RemoveNestedField ["metadata"; "managedFields"] o1
  end.
End normalize.

(** ** Lemmas: actors *)

Lemma elem_of_seen_managers l name :
  name ∈ seen_managers l <-> exists m, JObj m ∈ l /\ entry_manager m = name.
Proof.
  assert (Hgen : forall acc : gset string, name ∈ foldl (fun seen entry =>
            match as_obj entry with Some m => {[entry_manager m]} ∪ seen | None => seen end)
            acc l <-> name ∈ acc \/ exists m : object, JObj m ∈ l /\ entry_manager m = name).
  { induction l as [|v l IH]; intros acc; simpl.
    - setoid_rewrite elem_of_nil. naive_solver.
    - rewrite IH. setoid_rewrite elem_of_cons. destruct v; simpl; set_solver. }
  unfold seen_managers. rewrite Hgen. set_solver.
Qed.

Lemma entry_manager_nonempty m : entry_manager m <> "".
Proof. unfold entry_manager. by case_decide. Qed.

(** What [ExtractActors] returns: the sorted set of managers, or nothing. *)
Lemma ExtractActors_cases `{Unstructured} obj :
  (exists l, NestedFieldNoCopy obj ["metadata"; "managedFields"] = Ok (Some (JArr l)) /\
     ExtractActors obj = merge_sort String.le (elements (seen_managers l))) \/
  ExtractActors obj = [].
Proof.
  unfold ExtractActors. destruct (NestedFieldNoCopy _ _) as [[raw|]|] eqn:E; [|by right..].
  destruct raw as [| | | | |l|]; try by right. simpl. destruct l as [|v l]; [by right|].
  case_decide; [by right|]. left. by eexists.
Qed.

Lemma ExtractActors_nonempty_names `{Unstructured} obj : Forall (fun a => a <> "") (ExtractActors obj).
Proof.
  destruct (ExtractActors_cases obj) as [(l & _ & ->)| ->]; [|constructor].
  apply Forall_forall. intros a. rewrite merge_sort_Permutation, elem_of_elements.
  intros (m & _ & <-)%elem_of_seen_managers. apply entry_manager_nonempty.
Qed.

Lemma decode_encode_actors actors :
  Forall (fun a => a <> "" /\ string_mem ","%char a = false) actors ->
  decodeActors (EncodeActors actors) = actors.
Proof.
  intros Hf. unfold decodeActors, EncodeActors.
  destruct (decide (actors = [])) as [->|Hne]; [done|].
  rewrite split_on_join; [|done|by eapply Forall_impl; [exact Hf|]; naive_solver].
  clear Hne. induction Hf as [|a l [Ha _] _ IH]; [done|].
  by rewrite filter_cons_True, IH.
Qed.

(** ** Lemmas: stripping and the transform *)

Lemma strip_metadata o meta b :
  o !! "metadata" = Some (JObj meta) ->
  stripVolatileFields o b = <["metadata" := JObj (map_imap (strip_field b) meta)]> o.
Proof. intros Hm. unfold stripVolatileFields. by rewrite Hm. Qed.

(** The annotations an API server serves: absent, or a non-empty map of strings
    that does not carry the operator's own transport annotation. *)
Definition served_annotations (meta : object) : Prop :=
  meta !! "annotations" = None \/
  exists ann, meta !! "annotations" = Some (string_map ann) /\ ann <> ∅ /\
              ann !! ActorsAnnotation = None.

Section transform.
Context `{Unstructured, !UnstructuredLaws}.

Lemma served_annotations_get o meta :
  o !! "metadata" = Some (JObj meta) -> served_annotations meta ->
  GetAnnotations o = None /\ meta !! "annotations" = None \/
  exists ann, GetAnnotations o = Some ann /\ meta !! "annotations" = Some (string_map ann) /\
    ann <> ∅ /\ ann !! ActorsAnnotation = None.
Proof.
  intros Hm [Ha|(ann & Ha & Hne & Hno)].
  - left. split; [by eapply get_annotations_absent|done].
  - right. exists ann. split_and!; [by eapply get_annotations_strings|done..].
Qed.

Lemma served_no_actors o meta :
  o !! "metadata" = Some (JObj meta) -> served_annotations meta ->
  hasActorsAnnotation o = false /\ object_actors o = ExtractActors o.
Proof.
  intros Hm Hs. unfold hasActorsAnnotation, object_actors.
  destruct (served_annotations_get o meta Hm Hs) as [[-> _]|(ann & -> & _ & _ & Hno)]; [done|].
  rewrite Hno. split; [|done]. apply bool_decide_false. by intros [].
Qed.

(** Taking the transport annotation out again restores the served annotations. *)
Lemma strip_field_annotated (meta : object) (ann : gmap string string) (v : string) :
  ann !! ActorsAnnotation = None ->
  (ann = ∅ /\ meta !! "annotations" = None \/
   ann <> ∅ /\ meta !! "annotations" = Some (string_map ann)) ->
  strip_field true "annotations" (string_map (<[ActorsAnnotation := v]> ann)) =
  meta !! "annotations" ≫= strip_field false "annotations".
Proof.
  intros Hno Hcase. unfold strip_field. rewrite !decide_False by naive_solver.
  rewrite decide_True by done. unfold string_map. cbn [negb as_obj].
  rewrite map_size_fmap, map_size_insert_None by done.
  destruct Hcase as [[-> ->]|[Hne ->]].
  - rewrite map_size_empty. by rewrite decide_True.
  - rewrite decide_False; [|rewrite <-map_size_empty_iff in Hne; lia]. simpl.
    unfold string_map. do 2 f_equal. apply map_eq. intros i. rewrite fmap_insert.
    destruct (decide (i = ActorsAnnotation)) as [->|Hi].
    + rewrite lookup_fmap, Hno. apply map_lookup_filter_None. right. naive_solver.
    + destruct ((JStr <$> ann) !! i) eqn:E.
      * apply map_lookup_filter_Some. rewrite lookup_insert_ne by done. done.
      * apply map_lookup_filter_None. left. by rewrite lookup_insert_ne.
Qed.

(** The metadata the transform leaves behind. *)
Definition transformed_meta (o : object) (meta : object) : object :=
  delete "managedFields"
    (if decide (ExtractActors o = []) then meta
     else <["annotations" := string_map (<[ActorsAnnotation := EncodeActors (ExtractActors o)]>
                                           (default ∅ (GetAnnotations o)))]> meta).

Lemma TransformObject_metadata o meta raw :
  o !! "metadata" = Some (JObj meta) -> meta !! "managedFields" = Some raw ->
  TransformObject o = <["metadata" := JObj (transformed_meta o meta)]> o.
Proof.
  intros Hm Hr. unfold TransformObject, transformed_meta.
  rewrite (nested_metadata_field o meta _ Hm), Hr. case_decide as Hact.
  - by apply remove_metadata_field.
  - rewrite (set_annotations o meta _ Hm).
    erewrite remove_metadata_field by apply lookup_insert_eq. by rewrite insert_insert_eq.
Qed.

Lemma transformed_strip o meta :
  o !! "metadata" = Some (JObj meta) -> served_annotations meta ->
  map_imap (strip_field (bool_decide (ExtractActors o <> []))) (transformed_meta o meta) =
  map_imap (strip_field false) meta.
Proof.
  intros Hm Hs. apply map_eq. intros i. rewrite !map_lookup_imap. unfold transformed_meta.
  destruct (decide (i = "managedFields")) as [->|Hi].
  { rewrite lookup_delete_eq. simpl. by destruct (meta !! "managedFields"). }
  rewrite lookup_delete_ne by done. case_decide as Hact.
  { by rewrite bool_decide_false by (intros Hn; by apply Hn). }
  rewrite bool_decide_true by done.
  destruct (decide (i = "annotations")) as [->|Hi2].
  - rewrite lookup_insert_eq. simpl. apply strip_field_annotated.
    + destruct (served_annotations_get o meta Hm Hs) as [[-> _]|(ann & -> & _ & _ & Hno)]; done.
    + destruct (served_annotations_get o meta Hm Hs) as [[-> ?]|(ann & -> & ? & ? & _)]; auto.
  - rewrite lookup_insert_ne by done. destruct (meta !! i); [|done]. simpl.
    unfold strip_field. repeat case_decide; done.
Qed.

Lemma transformed_actors o meta :
  o !! "metadata" = Some (JObj meta) -> served_annotations meta ->
  Forall (fun a => string_mem ","%char a = false) (ExtractActors o) ->
  let o' := <["metadata" := JObj (transformed_meta o meta)]> o in
  hasActorsAnnotation o' = bool_decide (ExtractActors o <> []) /\ object_actors o' = ExtractActors o.
Proof.
  intros Hm Hs Hc o'.
  assert (Hm' : o' !! "metadata" = Some (JObj (transformed_meta o meta))) by apply lookup_insert_eq.
  destruct (decide (ExtractActors o = [])) as [Hact|Hact].
  - assert (Ht : transformed_meta o meta = delete "managedFields" meta)
      by (unfold transformed_meta; by rewrite decide_True).
    destruct (served_no_actors o' _ Hm') as [-> ->].
    { rewrite Ht. unfold served_annotations in *. by rewrite lookup_delete_ne. }
    rewrite bool_decide_false by (intros Hn; by apply Hn). split; [done|]. rewrite Hact.
    unfold ExtractActors. rewrite (nested_metadata_field _ _ _ Hm'), Ht. by rewrite lookup_delete_eq.
  - assert (Hg : GetAnnotations o' = Some (<[ActorsAnnotation := EncodeActors (ExtractActors o)]>
                                             (default ∅ (GetAnnotations o)))).
    { eapply get_annotations_strings; [exact Hm'|]. unfold transformed_meta.
      rewrite decide_False, lookup_delete_ne, lookup_insert_eq by done. done. }
    unfold hasActorsAnnotation, object_actors. rewrite Hg, lookup_insert_eq.
    rewrite !bool_decide_true by (done || by eexists). split; [done|].
    apply decode_encode_actors. pose proof (ExtractActors_nonempty_names o) as Hn.
    apply Forall_forall. intros a Ha. rewrite Forall_forall in Hn, Hc. auto.
Qed.

Lemma TransformObject_idempotent o meta :
  o !! "metadata" = Some (JObj meta) -> TransformObject (TransformObject o) = TransformObject o.
Proof.
  intros Hm. destruct (meta !! "managedFields") as [raw|] eqn:Hr.
  - rewrite (TransformObject_metadata o meta raw Hm Hr). unfold TransformObject.
    erewrite nested_metadata_field by apply lookup_insert_eq.
    unfold transformed_meta. by rewrite lookup_delete_eq.
  - assert (Ht : TransformObject o = o); [|by rewrite Ht].
    unfold TransformObject. by rewrite (nested_metadata_field o meta _ Hm), Hr.
Qed.
End transform.

(** ** Properties *)

(** The content a normalization determines: bytes, hash, normalized map, actors. *)
Definition content (r : result normalizeError normalizedObject)
    : result normalizeError (string * string * object * list string) :=
  match r with
  | Ok n => Ok (no_JSON n, no_Hash n, no_normalized n, no_Actors n)
  | Err e => Err e
  end.

(** The informer transform never perturbs what is recorded. Harvesting the
    field managers into the transport annotation and dropping managedFields
    leaves the normalized bytes, the hash and the actors of an object exactly as
    they are without the transform - also when the object had no annotations -
    and transforming twice is transforming once. *)
Theorem transform_preserves_content `{Unstructured, !UnstructuredLaws, Encoders} o meta policy :
  o !! "metadata" = Some (JObj meta) -> served_annotations meta ->
  Forall (fun a => string_mem ","%char a = false) (ExtractActors o) ->
  content (normalizeObject (TransformObject o) policy) = content (normalizeObject o policy) /\
  TransformObject (TransformObject o) = TransformObject o.
Proof.
  intros Hm Hs Hc. split; [|by eapply TransformObject_idempotent].
  destruct (meta !! "managedFields") as [raw|] eqn:Hr; cycle 1.
  { unfold TransformObject. by rewrite (nested_metadata_field o meta _ Hm), Hr. }
  rewrite (TransformObject_metadata o meta raw Hm Hr).
  destruct (transformed_actors o meta Hm Hs Hc) as [Hh Ha].
  destruct (served_no_actors o meta Hm Hs) as [Hh0 Ha0].
  unfold normalizeObject. rewrite Hh, Hh0, Ha, Ha0.
  rewrite (strip_metadata o meta _ Hm).
  erewrite strip_metadata by apply lookup_insert_eq.
  rewrite (transformed_strip o meta Hm Hs), insert_insert_eq.
  by repeat case_match.
Qed.

(** A printer for evaluation: member names, nested values and scalars in the
    sorted order [encoding/json] writes them, without escaping. *)
Fixpoint print_json (v : json) : string :=
  match v with
  | JNull => "null"
  | JBool b => if b then "true" else "false"
  | JInt z => pretty.pretty z
  | JFloat r => r
  | JStr s => String (Ascii.ascii_of_nat 34) (s +:+ String (Ascii.ascii_of_nat 34) "")
  | JArr l => "[" +:+ join "," (map print_json l) +:+ "]"
  | JObj m =>
      let printed := print_json <$> m in
      "{" +:+ join "," (map (fun kv => kv.1 +:+ ":" +:+ kv.2)
                          (merge_sort (fun a b => String.le a.1 b.1) (map_to_list printed))) +:+ "}"
  end.

(** Encoders for evaluation: the printer above, and a "digest" that keeps the
    whole text, which is as collision-free as the real one is assumed to be. *)
Definition sample_encoders : Encoders := {|
  json_marshal o := Some (print_json (JObj o));
  json_unmarshal _ := None;
  sha256_hex s := "sha:" +:+ s;
|}.

Definition sample_live (rv : Z) : object :=
  {["kind" := JStr "ConfigMap";
    "metadata" := JObj {["uid" := JStr "u1"; "resourceVersion" := JInt rv;
       "managedFields" := JArr [JObj {["manager" := JStr "kubectl"]}; JNull; JObj ∅]]}]}.

Lemma transform_preserves_content_witness :
  content (@normalizeObject tree_unstructured sample_encoders
             (@TransformObject tree_unstructured (sample_live 7)) None) =
  content (@normalizeObject tree_unstructured sample_encoders (sample_live 7) None).
Proof.
  refine (proj1 (@transform_preserves_content tree_unstructured _ sample_encoders
                   (sample_live 7) _ None _ _ _)).
  - reflexivity.
  - left. reflexivity.
  - vm_compute. repeat constructor.
Defined.

(** ResourceVersion, generation and managedFields are invisible. Objects that
    differ in nothing else have the same normalized bytes and the same hash, so a
    write that only bumped them deduplicates away. *)
Theorem volatile_fields_not_hashed `{Unstructured, Encoders} o1 o2 meta1 meta2 policy :
  o1 !! "metadata" = Some (JObj meta1) -> o2 !! "metadata" = Some (JObj meta2) ->
  delete "metadata" o1 = delete "metadata" o2 ->
  (forall field, field <> "managedFields" -> field <> "resourceVersion" ->
     field <> "generation" -> meta1 !! field = meta2 !! field) ->
  GetAnnotations o1 = GetAnnotations o2 ->
  NormalizedJSON o1 policy = NormalizedJSON o2 policy /\ ObjectHash o1 policy = ObjectHash o2 policy.
Proof.
  intros H1 H2 Hd Hf Ha.
  assert (Hh : hasActorsAnnotation o1 = hasActorsAnnotation o2)
    by (unfold hasActorsAnnotation; by rewrite Ha).
  assert (Hstrip : forall b, stripVolatileFields o1 b = stripVolatileFields o2 b).
  { intros b. rewrite (strip_metadata _ _ _ H1), (strip_metadata _ _ _ H2).
    assert (map_imap (strip_field b) meta1 = map_imap (strip_field b) meta2) as ->.
    { apply map_eq. intros i. rewrite !map_lookup_imap.
      destruct (decide (i = "managedFields" \/ i = "resourceVersion" \/ i = "generation")) as [Hv|Hv].
      - by destruct (meta1 !! i), (meta2 !! i); simpl; unfold strip_field;
          rewrite ?decide_True by done.
      - rewrite Hf; [done|tauto..]. }
    by apply insert_same_rest. }
  unfold NormalizedJSON, ObjectHash, normalizeObject. rewrite Hstrip, Hh.
  destruct (Apply _ _); [|done]. destruct (json_marshal _); done.
Qed.

Lemma volatile_fields_not_hashed_witness :
  @ObjectHash tree_unstructured sample_encoders (sample_live 7) None =
  @ObjectHash tree_unstructured sample_encoders (sample_live 8) None.
Proof.
  refine (proj2 (@volatile_fields_not_hashed tree_unstructured sample_encoders
                   (sample_live 7) (sample_live 8) _ _ None eq_refl eq_refl eq_refl _ eq_refl)).
  intros field H1 H2 H3. rewrite !lookup_insert, !lookup_singleton.
  repeat case_decide; congruence.
Defined.

(** Scrubbed values leak into neither hash nor stored bytes. Objects that
    differ only in what some path of the policy reaches, after stripping, have
    the same normalized bytes and the same hash. *)
Theorem redacted_values_not_hashed `{Unstructured, Encoders} o1 o2 policy path :
  wf_policy policy -> path ∈ rp_paths (default builtinRedaction policy) ->
  agree (rp_segments path) (JObj (stripVolatileFields o1 (hasActorsAnnotation o1)))
                           (JObj (stripVolatileFields o2 (hasActorsAnnotation o2))) ->
  NormalizedJSON o1 policy = NormalizedJSON o2 policy /\ ObjectHash o1 policy = ObjectHash o2 policy.
Proof.
  intros Hwf Hin Ha.
  assert (HA : Apply policy (stripVolatileFields o1 (hasActorsAnnotation o1)) =
               Apply policy (stripVolatileFields o2 (hasActorsAnnotation o2))).
  { unfold Apply.
    destruct (apply_paths_spec _ (stripVolatileFields o1 (hasActorsAnnotation o1)) Hwf) as (r1 & -> & E1).
    destruct (apply_paths_spec _ (stripVolatileFields o2 (hasActorsAnnotation o2)) Hwf) as (r2 & -> & E2).
    rewrite (agree_scrub_all _ _ _ _ Hin Ha) in E1. congruence. }
  unfold NormalizedJSON, ObjectHash, normalizeObject. rewrite HA.
  by destruct (Apply policy (stripVolatileFields o2 _)); [destruct (json_marshal _)|].
Qed.

Definition sample_applied (submitted : string) : object :=
  {["metadata" := JObj {["annotations" := JObj {[LastAppliedConfigAnnotation := JStr submitted;
                                                  "team" := JStr "a"]}]}]}.

Lemma redacted_values_not_hashed_witness :
  @ObjectHash tree_unstructured sample_encoders (sample_applied "password=1") None =
  @ObjectHash tree_unstructured sample_encoders (sample_applied "password=2") None.
Proof.
  refine (proj2 (@redacted_values_not_hashed tree_unstructured sample_encoders
                   (sample_applied "password=1") (sample_applied "password=2") None builtinPath _ _ _)).
  - repeat constructor; discriminate.
  - apply list_elem_of_here.
  - eapply agree_key; [reflexivity..|]. eapply agree_key; [reflexivity..|].
    eapply agree_key; [reflexivity..|]. apply agree_leaf.
Defined.

(** The actors of an object are a canonical rendering of its managedFields:
    sorted, without duplicates, never the empty name, exactly the managers some
    map entry names - so they depend on the set of managers and not on the order
    or the multiplicity of the entries, and malformed entries are skipped. *)
Theorem extract_actors_canonical `{Unstructured} obj l :
  NestedFieldNoCopy obj ["metadata"; "managedFields"] = Ok (Some (JArr l)) ->
  Sorted String.le (ExtractActors obj) /\ NoDup (ExtractActors obj) /\
  (forall name, name ∈ ExtractActors obj <-> exists m, JObj m ∈ l /\ entry_manager m = name) /\
  "" ∉ ExtractActors obj.
Proof.
  intros Hn.
  assert (E : ExtractActors obj = merge_sort String.le (elements (seen_managers l))).
  { unfold ExtractActors. rewrite Hn. simpl. destruct l as [|v l]; [done|].
    case_decide as Hz; [|done]. apply size_empty_inv in Hz. by rewrite (leibniz_equiv _ _ Hz). }
  split_and!.
  - rewrite E. apply (Sorted_merge_sort String.le).
  - rewrite E, merge_sort_Permutation. apply NoDup_elements.
  - intros name. rewrite E, merge_sort_Permutation, elem_of_elements. apply elem_of_seen_managers.
  - pose proof (ExtractActors_nonempty_names obj) as Hf. rewrite Forall_forall in Hf.
    intros Hin. by apply (Hf "").
Qed.

Lemma extract_actors_canonical_witness :
  @ExtractActors tree_unstructured (sample_live 7) = ["kubectl"; "unknown"] /\
  NoDup (@ExtractActors tree_unstructured (sample_live 7)).
Proof.
  split; [vm_compute; reflexivity|].
  exact (proj1 (proj2 (@extract_actors_canonical tree_unstructured (sample_live 7) _ eq_refl))).
Defined.
