(* ===== verification/Coalesce.v ===== *)
(** * Coalesce: bounding the Event volume amplifier

    Models [src/internal/pipeline/coalesce.go]. Instants are nanoseconds and
    durations [int64]. A writer's optional coalescing policy is a duration, absent
    when the backend declares none. The coalescer's map is swept lazily; the
    reference coalescer at the end of the definitions never sweeps. *)

From S2P Require Import Prelude GoJson Identity.

(** ** The projection *)

Definition eventBumpFields : gset string :=
  {["count"; "lastTimestamp"; "eventTime"; "series"; "deprecatedCount"; "deprecatedLastTimestamp"]}.

(** Everything a normalized Event carries except the bump fields. *)
Definition event_projection (normalized : object) : object :=
  filter (fun kv => kv.1 ∉ eventBumpFields) normalized.

Definition eventCoalesceHash `{Encoders} (normalized : object) : option string :=
  sha256_hex <$> json_marshal (event_projection normalized).

Definition coalesceWindowFor (policy : option Z) : Z := default 0%Z policy.

(** ** The coalescer *)

Definition coalesceSweepFloor : Z := 128.

Record coalesceEntry := mkCoalesceEntry { ce_hash : string; ce_at : Z }.

Record coalescer := mkCoalescer {
  co_entries : gmap string coalesceEntry;
  co_sweepAt : Z;
}.

Definition coalescer_zero : coalescer := mkCoalescer ∅ 0.

(** [Some flushAfter] is a skip. *)
Definition coalesce_decide (key hash : string) (window now : Z) (c : coalescer) : option Z :=
  if decide (window <= 0)%Z then None
  else
    match co_entries c !! key with
    | None => None
    | Some last =>
        if decide (ce_hash last <> hash) then None
        else
          let elapsed := time_sub now (ce_at last) in
          if decide (elapsed >= window)%Z then None
          else Some (i64_wrap (window - elapsed))
    end.

Definition next_sweep (entries : gmap string coalesceEntry) : Z :=
  Z.max (2 * Z.of_nat (size entries)) coalesceSweepFloor.

Definition sweepLocked (now window : Z) (c : coalescer) : coalescer :=
  if decide (Z.of_nat (size (co_entries c)) < co_sweepAt c)%Z then c
  else
    let kept := filter (fun kv => ~ (time_sub now (ce_at kv.2) >= window)%Z) (co_entries c) in
    mkCoalescer kept (next_sweep kept).

Definition remember (key hash : string) (stampedAt window : Z) (c : coalescer) : coalescer :=
  if decide (window <= 0)%Z then c
  else
    sweepLocked stampedAt window
      (mkCoalescer (<[key := mkCoalesceEntry hash stampedAt]> (co_entries c)) (co_sweepAt c)).

Definition forget (key : string) (c : coalescer) : coalescer :=
  mkCoalescer (delete key (co_entries c)) (co_sweepAt c).

Definition coalescer_deletePrefix (prefix : string) (c : coalescer) : nat * coalescer :=
  let kept := filter (fun kv => has_prefix kv.1 prefix = false) (co_entries c) in
  let removed := size (co_entries c) - size kept in
  (removed, mkCoalescer kept (if decide (0 < removed) then next_sweep kept else co_sweepAt c)).

Definition coalescer_len (c : coalescer) : nat := size (co_entries c).

(** ** The reference coalescer: the same decisions from a map that only grows *)

Inductive coalesce_op :=
| OpRemember (key hash : string) (stampedAt : Z)
| OpForget (key : string)
| OpEvict (prefix : string)
| OpDecide (key hash : string) (now : Z).

(** The instant an operation carries, if it carries one. *)
Definition op_time (op : coalesce_op) : option Z :=
  match op with
  | OpRemember _ _ t | OpDecide _ _ t => Some t
  | OpForget _ | OpEvict _ => None
  end.

Definition run_op (window : Z) (op : coalesce_op) (c : coalescer) : option (option Z) * coalescer :=
  match op with
  | OpRemember k h t => (None, remember k h t window c)
  | OpForget k => (None, forget k c)
  | OpEvict p => (None, (coalescer_deletePrefix p c).2)
  | OpDecide k h now => (Some (coalesce_decide k h window now c), c)
  end.

Definition ref_op (window : Z) (op : coalesce_op) (m : gmap string coalesceEntry)
    : option (option Z) * gmap string coalesceEntry :=
  match op with
  | OpRemember k h t =>
      (None, if decide (window <= 0)%Z then m else <[k := mkCoalesceEntry h t]> m)
  | OpForget k => (None, delete k m)
  | OpEvict p => (None, filter (fun kv => has_prefix kv.1 p = false) m)
  | OpDecide k h now => (Some (coalesce_decide k h window now (mkCoalescer m 0)), m)
  end.

Fixpoint run_ops (window : Z) (ops : list coalesce_op) (c : coalescer) : list (option (option Z)) :=
  match ops with
  | [] => []
  | op :: rest => (run_op window op c).1 :: run_ops window rest (run_op window op c).2
  end.

Fixpoint ref_ops (window : Z) (ops : list coalesce_op) (m : gmap string coalesceEntry)
    : list (option (option Z)) :=
  match ops with
  | [] => []
  | op :: rest => (ref_op window op m).1 :: ref_ops window rest (ref_op window op m).2
  end.

(** The instants of a run never go back. *)
Fixpoint times_from (t : Z) (ops : list coalesce_op) : Prop :=
  match ops with
  | [] => True
  | op :: rest =>
      match op_time op with
      | Some t' => (t <= t')%Z /\ times_from t' rest
      | None => times_from t rest
      end
  end.

(** ** Lemmas *)

Lemma time_sub_mono t t' u : (t <= t')%Z -> (time_sub t u <= time_sub t' u)%Z.
Proof. unfold time_sub. lia. Qed.

Lemma event_projection_eq_iff o1 o2 :
  event_projection o1 = event_projection o2 <->
  forall field, field ∉ eventBumpFields -> o1 !! field = o2 !! field.
Proof.
  assert (Hl : forall o field, event_projection o !! field =
                 if decide (field ∈ eventBumpFields) then None else o !! field).
  { intros o field. unfold event_projection. case_decide as Hf.
    - apply map_lookup_filter_None. right. naive_solver.
    - destruct (o !! field) eqn:E; [by apply map_lookup_filter_Some|].
      apply map_lookup_filter_None. auto. }
  split.
  - intros E field Hf. pose proof (Hl o1 field) as H1. rewrite E, Hl in H1.
    by rewrite !decide_False in H1.
  - intros Hf. apply map_eq. intros field. rewrite !Hl. case_decide; auto.
Qed.

(** [c] has forgotten, compared with [m], only entries too old at [t] to matter. *)
Definition swept (window t : Z) (c : coalescer) (m : gmap string coalesceEntry) : Prop :=
  forall key, co_entries c !! key = m !! key \/
    co_entries c !! key = None /\
    exists e, m !! key = Some e /\ (time_sub t (ce_at e) >= window)%Z.

Lemma swept_later window t t' c m : (t <= t')%Z -> swept window t c m -> swept window t' c m.
Proof.
  intros Ht Hs key. destruct (Hs key) as [?|(? & e & ? & ?)]; [by left|right].
  split; [done|]. exists e. split; [done|]. pose proof (time_sub_mono t t' (ce_at e) Ht). lia.
Qed.

Lemma swept_decide window t c m key hash now :
  swept window t c m -> (t <= now)%Z ->
  coalesce_decide key hash window now c = coalesce_decide key hash window now (mkCoalescer m 0).
Proof.
  intros Hs Ht. unfold coalesce_decide. cbn [co_entries].
  destruct (Hs key) as [->|(-> & e & -> & He)]; [done|].
  pose proof (time_sub_mono t now (ce_at e) Ht).
  repeat case_decide; try done. lia.
Qed.

Lemma lookup_sweepLocked now window c key :
  co_entries (sweepLocked now window c) !! key = co_entries c !! key \/
  co_entries (sweepLocked now window c) !! key = None /\
  exists e, co_entries c !! key = Some e /\ (time_sub now (ce_at e) >= window)%Z.
Proof.
  unfold sweepLocked. case_decide; [by left|]. cbn [co_entries].
  destruct (co_entries c !! key) as [e|] eqn:E.
  - destruct (decide (time_sub now (ce_at e) >= window)%Z).
    + right. split; [|by eauto]. apply map_lookup_filter_None. right. intros x Hx. simplify_eq. simpl. auto.
    + left. by apply map_lookup_filter_Some.
  - left. apply map_lookup_filter_None. auto.
Qed.

Lemma swept_step window t c m op :
  swept window t c m -> match op_time op with Some t' => (t <= t')%Z | None => True end ->
  swept window (default t (op_time op)) (run_op window op c).2 (ref_op window op m).2.
Proof.
  intros Hs Ht. destruct op as [k h s|k|p|k h now]; simpl in *.
  - unfold remember. case_decide; [by eapply swept_later|]. intros key.
    pose proof (swept_later _ _ _ _ _ Ht Hs key) as Hk.
    destruct (lookup_sweepLocked s window
                (mkCoalescer (<[k := mkCoalesceEntry h s]> (co_entries c)) (co_sweepAt c)) key)
      as [->|(-> & e & He & Hold)]; cbn [co_entries] in *.
    + destruct (decide (k = key)) as [->|]; [left; by rewrite !lookup_insert_eq|].
      by rewrite !lookup_insert_ne.
    + destruct (decide (k = key)) as [->|].
      * rewrite lookup_insert_eq in *. right. split; [done|]. by exists e.
      * rewrite lookup_insert_ne in He |- * by done. right. split; [done|].
        destruct Hk as [E|[E _]]; [|congruence]. exists e. split; [congruence|done].
  - intros key. unfold forget; cbn [co_entries].
    destruct (decide (k = key)) as [->|]; [left; by rewrite !lookup_delete_eq|].
    rewrite !lookup_delete_ne by done. apply Hs.
  - intros key. unfold coalescer_deletePrefix; cbn [snd co_entries].
    destruct (Hs key) as [E|(E & e & He & Hold)].
    + left. apply option_eq. intros x. rewrite !map_lookup_filter_Some. by rewrite E.
    + destruct (has_prefix key p) eqn:Hp.
      * left. trans (@None coalesceEntry); [|symmetry]; apply map_lookup_filter_None; right;
          intros ? _; simpl; congruence.
      * right. split; [apply map_lookup_filter_None; auto|]. exists e. split; [|done].
        by apply map_lookup_filter_Some.
  - by eapply swept_later.
Qed.

Lemma swept_run window ops t c m :
  swept window t c m -> times_from t ops -> run_ops window ops c = ref_ops window ops m.
Proof.
  revert t c m. induction ops as [|op ops IH]; intros t c m Hs Ht; [done|]. cbn [run_ops ref_ops].
  assert (Hop : match op_time op with Some t' => (t <= t')%Z | None => True end)
    by (simpl in Ht; destruct (op_time op); naive_solver).
  f_equal.
  - destruct op; simpl in *; try done. f_equal. eapply swept_decide; [exact Hs|tauto].
  - eapply IH; [by eapply swept_step|]. simpl in Ht. destruct (op_time op); simpl; tauto.
Qed.

(** ** Properties *)

(** The lazy, amortized sweep changes no decision. Over any sequence of
    recorded rows, expiries, scope evictions and decisions whose instants do not
    go back, every skip and every flush delay is the one a coalescer that never
    drops an entry would give. *)
Theorem sweep_changes_no_decision window t ops :
  times_from t ops -> run_ops window ops coalescer_zero = ref_ops window ops ∅.
Proof. apply swept_run. intros key. by left. Qed.

Lemma sweep_changes_no_decision_witness :
  run_ops 10 [OpRemember "a" "h" 0; OpRemember "b" "h" 20; OpDecide "a" "h" 21; OpDecide "b" "h" 21]
    coalescer_zero = [None; None; Some None; Some (Some 9%Z)].
Proof.
  rewrite (sweep_changes_no_decision 10 0).
  - vm_compute. reflexivity.
  - cbn. lia.
Defined.

(** A bump is suppressed exactly when the sink enabled coalescing and a row
    with the same projection was recorded for the identity less than a window
    ago; the key then comes back after a positive delay of at most the window,
    and reconsidering it at that instant is never suppressed by the same row, so
    the last bump of a burst is written. *)
Theorem coalesce_decide_spec key hash window now c :
  (forall e, co_entries c !! key = Some e -> (0 <= now - ce_at e <= i64_max)%Z) ->
  (window <= i64_max)%Z ->
  match coalesce_decide key hash window now c with
  | Some flushAfter => exists e, (0 < window)%Z /\ co_entries c !! key = Some e /\
      ce_hash e = hash /\ (now - ce_at e < window)%Z /\
      flushAfter = (window - (now - ce_at e))%Z /\ (0 < flushAfter <= window)%Z /\
      coalesce_decide key hash window (now + flushAfter) c = None
  | None => (window <= 0)%Z \/ (forall e, co_entries c !! key = Some e -> ce_hash e = hash ->
              (window <= now - ce_at e)%Z)
  end.
Proof.
  intros Hpast Hw. unfold coalesce_decide. case_decide as Hoff; [by left|].
  destruct (co_entries c !! key) as [e|] eqn:E; [|right; done].
  specialize (Hpast e eq_refl).
  destruct (decide (ce_hash e <> hash)) as [Hne|Hh]; [right; naive_solver|].
  apply dec_stable in Hh.
  assert (Hs : time_sub now (ce_at e) = (now - ce_at e)%Z) by (unfold time_sub, i64_min, i64_max in *; lia).
  rewrite Hs. case_decide as Hel; [right; intros ? [= <-] _; lia|].
  rewrite i64_wrap_id by (unfold i64_min in *; lia).
  exists e. split_and!; try done; try lia.
  rewrite decide_True; [done|].
  unfold time_sub. unfold i64_max in *. unfold i64_min. lia.
Qed.

Lemma coalesce_decide_spec_witness :
  coalesce_decide "k" "h" 30 (10 + 20)
    (mkCoalescer {["k" := mkCoalesceEntry "h" 0]} 128) = None.
Proof.
  pose proof (coalesce_decide_spec "k" "h" 30 10 (mkCoalescer {["k" := mkCoalesceEntry "h" 0]} 128)) as H.
  destruct H as (e & _ & _ & _ & _ & _ & _ & H).
  - intros e. cbn [co_entries]. rewrite lookup_singleton_eq. intros [= <-]. split; vm_compute; discriminate.
  - vm_compute. discriminate.
  - exact H.
Defined.

(** The comparison is by exclusion. Two states of an Event project to the
    same object exactly when they agree on every field other than the listed
    bump fields - so a bump alone never changes the coalescing hash, and a change
    of any other field, known or not, changes the projection it is computed from. *)
Theorem coalesce_hash_by_exclusion `{Encoders} o1 o2 :
  (event_projection o1 = event_projection o2 <->
   forall field, field ∉ eventBumpFields -> o1 !! field = o2 !! field) /\
  ((forall field, field ∉ eventBumpFields -> o1 !! field = o2 !! field) ->
   eventCoalesceHash o1 = eventCoalesceHash o2).
Proof.
  split; [apply event_projection_eq_iff|].
  intros Hf%event_projection_eq_iff. unfold eventCoalesceHash. by rewrite Hf.
Qed.
