(* ===== verification/SinkTypes.v ===== *)
(** * SinkTypes: the values exchanged with a sink

    Models [src/internal/sink/record.go], [src/internal/sink/scope.go] and the
    value types of [src/internal/sink/sink.go]: the row, the scope-log event, the
    history row a reader returns and the scope filter. *)

From S2P Require Import Prelude.

(** [sink.Record]. Instants are nanoseconds. *)
Record Record_ := mkRecord {
  r_Timestamp : Z;
  r_ClusterID : string;
  r_EventType : string;
  r_APIGroup : string;
  r_APIVersion : string;
  r_Kind : string;
  r_Namespace : string;
  r_Name : string;
  r_UID : string;
  r_ResourceVersion : string;
  r_Labels : gmap string string;
  r_Actors : list string;
  r_Data : string;
  r_Diff : string;
  r_SHA256 : string;
}.

#[export] Instance Record__eq_dec : EqDecision Record_.
Proof. solve_decision. Defined.

(** How a select over a send, the caller's context and a timer comes out. *)
Inductive sendOutcome := Sent | ContextDone | TimedOut.

Inductive ScopeAction := ScopeActionStarted | ScopeActionStopped.

#[export] Instance ScopeAction_eq_dec : EqDecision ScopeAction.
Proof. solve_decision. Defined.

Record ScopeFilter := mkScopeFilter {
  sf_ClusterID : string;
  sf_APIGroup : string;
  sf_Kind : string;
  sf_Namespace : string;
}.

#[export] Instance ScopeFilter_eq_dec : EqDecision ScopeFilter.
Proof. solve_decision. Defined.

Record ScopeEvent := mkScopeEvent {
  se_Action : ScopeAction;
  se_Scope : ScopeFilter;
  se_APIVersion : string;
  se_RuleRef : string;
  se_TS : Z;
}.

(** One incarnation's last-known state, as a [StateReader] returns it. *)
Record KnownState := mkKnownState {
  ks_Namespace : string;
  ks_Name : string;
  ks_UID : string;
  ks_SHA256 : string;
  ks_APIVersion : string;
  ks_TS : Z;
}.

#[export] Instance KnownState_eq_dec : EqDecision KnownState.
Proof. solve_decision. Defined.
