(* ===== verification/ScopeRecorder.v ===== *)
(** * ScopeRecorder: watch edges become scope epochs

    Models [src/internal/watch/scope_recorder.go]: interest edges are refcounted per
    (sink, scope) pair, the first and the last of them are queued as Started and
    Stopped rows, and a flush loop hands the queue to the sinks in order. The mutex
    makes [ScopeStarted], [ScopeStopped] and each locked section of [flush] atomic;
    the flush loop runs concurrently with the first two, so it is split where it
    gives the lock up. What was handed to sinks and to the warm coordinator is kept
    in the state, in order. Timers, logging and shutdown reports are left out. *)

From S2P Require Import Prelude Identity Plan EventFilter Interest SinkTypes.

Record scopeKey := mkScopeRefKey { rk_sink : ID; rk_scope : ScopeKey }.

#[export] Instance scopeKey_eq_dec : EqDecision scopeKey.
Proof. solve_decision. Defined.
#[export] Instance scopeKey_countable : Countable scopeKey.
Proof.
  apply (inj_countable' (fun k => (rk_sink k, rk_scope k)) (fun p => mkScopeRefKey p.1 p.2)). by intros [].
Defined.

#[export] Instance ScopeEvent_eq_dec : EqDecision ScopeEvent.
Proof. solve_decision. Defined.

Record pendingScopeEvent := mkPending { pe_sink : ID; pe_event : ScopeEvent }.

#[export] Instance pendingScopeEvent_eq_dec : EqDecision pendingScopeEvent.
Proof. solve_decision. Defined.

(** Calls on the warm coordinator. *)
Inductive warm_call :=
| CallWarmScope (sink : ID) (scope : ScopeKey) (epochStart : Z)
| CallStopScope (sink : ID) (scope : ScopeKey).

(** Where the flush loop is between two locked sections. *)
Inductive flush_point :=
| FlushIdle
(** it read the head of the queue and is calling the sink *)
| FlushHanding (next : pendingScopeEvent)
(** the sink accepted it *)
| FlushAccepted (next : pendingScopeEvent).

Record ScopeEpochRecorder := mkRecorder {
  rc_clusterID : string;
  rc_queueLimit : nat;
  rc_active : gmap scopeKey (gset string);
  rc_pending : list pendingScopeEvent;
  rc_dropped : nat;
  rc_wake : bool;
  rc_flush : flush_point;
  (** outputs *)
  rc_delivered : list pendingScopeEvent;
  rc_warm : list warm_call;
}.

Definition defaultScopeQueueLimit : nat := 4096.

(** The queue limit's zero or negative value means the default. *)
Definition NewScopeEpochRecorder (clusterID : string) (queueLimit : Z) : ScopeEpochRecorder :=
  mkRecorder clusterID
    (if bool_decide (queueLimit <= 0)%Z then defaultScopeQueueLimit else Z.to_nat queueLimit)
    ∅ [] 0 false FlushIdle [] [].

Definition triggeringRule (ruleKeys : list string) : string :=
  match ruleKeys with [] => "" | first :: _ => first end.

Definition eventFor (clusterID : string) (t : ScopeTransition) (action : ScopeAction) : ScopeEvent :=
  mkScopeEvent action
    (mkScopeFilter clusterID (sk_Group (st_Scope t)) (sk_Kind (st_Scope t)) (sk_Namespace (st_Scope t)))
    (st_APIVersion t) (triggeringRule (st_RuleKeys t)) (st_At t).

Definition set_active (active : gmap scopeKey (gset string)) (r : ScopeEpochRecorder) : ScopeEpochRecorder :=
  mkRecorder (rc_clusterID r) (rc_queueLimit r) active (rc_pending r) (rc_dropped r) (rc_wake r) (rc_flush r)
    (rc_delivered r) (rc_warm r).

Definition set_pending (pending : list pendingScopeEvent) (r : ScopeEpochRecorder) : ScopeEpochRecorder :=
  mkRecorder (rc_clusterID r) (rc_queueLimit r) (rc_active r) pending (rc_dropped r) (rc_wake r) (rc_flush r)
    (rc_delivered r) (rc_warm r).

Definition set_flush (f : flush_point) (r : ScopeEpochRecorder) : ScopeEpochRecorder :=
  mkRecorder (rc_clusterID r) (rc_queueLimit r) (rc_active r) (rc_pending r) (rc_dropped r) (rc_wake r) f
    (rc_delivered r) (rc_warm r).

Definition enqueueLocked (id : ID) (event : ScopeEvent) (r : ScopeEpochRecorder) : ScopeEpochRecorder :=
  let pending := rc_pending r ++ [mkPending id event] in
  let overflow := (Z.of_nat (length pending) - Z.of_nat (rc_queueLimit r))%Z in
  if bool_decide (0 < overflow)%Z then
    mkRecorder (rc_clusterID r) (rc_queueLimit r) (rc_active r) (drop (Z.to_nat overflow) pending)
      (rc_dropped r + Z.to_nat overflow) (rc_wake r) (rc_flush r) (rc_delivered r) (rc_warm r)
  else set_pending pending r.

(** [signal], then the call on the warm coordinator. *)
Definition signal_and_call (call : warm_call) (r : ScopeEpochRecorder) : ScopeEpochRecorder :=
  mkRecorder (rc_clusterID r) (rc_queueLimit r) (rc_active r) (rc_pending r) (rc_dropped r) true (rc_flush r)
    (rc_delivered r) (rc_warm r ++ [call]).

Definition ScopeStarted (t : ScopeTransition) (r : ScopeEpochRecorder) : ScopeEpochRecorder :=
  let key := mkScopeRefKey (st_Sink t) (st_Scope t) in
  let targets := default ∅ (rc_active r !! key) in
  let held := bool_decide (st_Target t ∈ targets) in
  let targets := {[st_Target t]} ∪ targets in
  let r := set_active (<[key := targets]> (rc_active r)) r in
  let first := negb held && bool_decide (size targets = 1) in
  if first then
    signal_and_call (CallWarmScope (st_Sink t) (st_Scope t) (st_At t))
      (enqueueLocked (st_Sink t) (eventFor (rc_clusterID r) t ScopeActionStarted) r)
  else r.

Definition ScopeStopped (t : ScopeTransition) (r : ScopeEpochRecorder) : ScopeEpochRecorder :=
  let key := mkScopeRefKey (st_Sink t) (st_Scope t) in
  let targets := default ∅ (rc_active r !! key) in
  if bool_decide (st_Target t ∈ targets) then
    let targets := targets ∖ {[st_Target t]} in
    if bool_decide (size targets = 0) then
      signal_and_call (CallStopScope (st_Sink t) (st_Scope t))
        (enqueueLocked (st_Sink t) (eventFor (rc_clusterID r) t ScopeActionStopped)
           (set_active (delete key (rc_active r)) r))
    else set_active (<[key := targets]> (rc_active r)) r
  else r.

Definition reportDrops (r : ScopeEpochRecorder) : ScopeEpochRecorder :=
  mkRecorder (rc_clusterID r) (rc_queueLimit r) (rc_active r) (rc_pending r) 0 (rc_wake r) (rc_flush r)
    (rc_delivered r) (rc_warm r).

(** ** One round of the flush loop, in the three parts others may run between *)

Definition flush_take (r : ScopeEpochRecorder) : ScopeEpochRecorder :=
  match rc_flush r, rc_pending r with
  | FlushIdle, next :: _ => set_flush (FlushHanding next) r
  | _, _ => r
  end.

(** [accepted]: the sink has a live scope-log writer and it took the event. *)
Definition flush_hand (accepted : bool) (r : ScopeEpochRecorder) : ScopeEpochRecorder :=
  match rc_flush r with
  | FlushHanding next =>
      if accepted then
        mkRecorder (rc_clusterID r) (rc_queueLimit r) (rc_active r) (rc_pending r) (rc_dropped r) (rc_wake r)
          (FlushAccepted next) (rc_delivered r ++ [next]) (rc_warm r)
      else set_flush FlushIdle r
  | _ => r
  end.

Definition flush_pop (r : ScopeEpochRecorder) : ScopeEpochRecorder :=
  match rc_flush r with
  | FlushAccepted next =>
      set_flush FlushIdle
        match rc_pending r with
        | head :: rest => if bool_decide (head = next) then set_pending rest r else r
        | [] => r
        end
  | _ => r
  end.

(** [flush] when nothing interleaves: [accepts] is the sinks' answer. *)
Fixpoint flush_loop (fuel : nat) (accepts : pendingScopeEvent -> bool) (r : ScopeEpochRecorder)
    : ScopeEpochRecorder :=
  match fuel with
  | O => r
  | S fuel =>
      match rc_pending r with
      | [] => r
      | next :: _ =>
          let r := flush_hand (accepts next) (flush_take r) in
          if accepts next then flush_loop fuel accepts (flush_pop r) else r
      end
  end.

(** The queue only shrinks, so its length is enough fuel. *)
Definition flush (accepts : pendingScopeEvent -> bool) (r : ScopeEpochRecorder) : ScopeEpochRecorder :=
  let r := reportDrops r in flush_loop (S (length (rc_pending r))) accepts r.

(** ** Interleavings *)

Inductive recorder_op :=
| RStarted (t : ScopeTransition)
| RStopped (t : ScopeTransition)
| RReport
| RTake
| RHand (accepted : bool)
| RPop.

Definition run_recorder_op (op : recorder_op) (r : ScopeEpochRecorder) : ScopeEpochRecorder :=
  match op with
  | RStarted t => ScopeStarted t r
  | RStopped t => ScopeStopped t r
  | RReport => reportDrops r
  | RTake => flush_take r
  | RHand accepted => flush_hand accepted r
  | RPop => flush_pop r
  end.

Definition run_recorder (ops : list recorder_op) (r : ScopeEpochRecorder) : ScopeEpochRecorder :=
  foldl (fun r op => run_recorder_op op r) r ops.

(** ** The specification

    Per (sink, scope) pair the set of targets whose last edge is Started; an epoch
    opens when the set becomes inhabited and closes when it becomes empty. *)

Definition transition_key (t : ScopeTransition) : scopeKey := mkScopeRefKey (st_Sink t) (st_Scope t).

Definition spec_held (held : scopeKey -> gset string) (op : recorder_op) : scopeKey -> gset string :=
  match op with
  | RStarted t => fun k => if decide (transition_key t = k) then {[st_Target t]} ∪ held k else held k
  | RStopped t => fun k => if decide (transition_key t = k) then held k ∖ {[st_Target t]} else held k
  | _ => held
  end.

(** The row an operation opens or closes an epoch with. *)
Definition spec_edge (clusterID : string) (held : scopeKey -> gset string) (op : recorder_op)
    : option pendingScopeEvent :=
  match op with
  | RStarted t =>
      if decide (held (transition_key t) = ∅)
      then Some (mkPending (st_Sink t) (eventFor clusterID t ScopeActionStarted)) else None
  | RStopped t =>
      if decide (held (transition_key t) = {[st_Target t]})
      then Some (mkPending (st_Sink t) (eventFor clusterID t ScopeActionStopped)) else None
  | _ => None
  end.

(** The rows of a run, in order. *)
Fixpoint spec_rows (clusterID : string) (held : scopeKey -> gset string) (ops : list recorder_op)
    : list pendingScopeEvent :=
  match ops with
  | [] => []
  | op :: rest => option_list (spec_edge clusterID held op) ++ spec_rows clusterID (spec_held held op) rest
  end.

Definition held_after (ops : list recorder_op) : scopeKey -> gset string :=
  foldl spec_held (fun _ => ∅) ops.

(** The key a row belongs to. *)
Definition row_key (e : pendingScopeEvent) : scopeKey :=
  mkScopeRefKey (pe_sink e)
    (mkScopeKey (sf_APIGroup (se_Scope (pe_event e))) (sf_Kind (se_Scope (pe_event e)))
       (sf_Namespace (se_Scope (pe_event e)))).

(** The rows of one (sink, scope) pair. *)
Definition rows_at (k : scopeKey) (rows : list pendingScopeEvent) : list ScopeAction :=
  map (fun e => se_Action (pe_event e)) (List.filter (fun e => bool_decide (row_key e = k)) rows).

(** Started, Stopped, Started, ... from an open or a closed epoch. *)
Fixpoint alternates (open : bool) (l : list ScopeAction) : Prop :=
  match l with
  | [] => True
  | ScopeActionStarted :: rest => open = false /\ alternates true rest
  | ScopeActionStopped :: rest => open = true /\ alternates false rest
  end.

Definition warm_of (e : pendingScopeEvent) : warm_call :=
  match se_Action (pe_event e) with
  | ScopeActionStarted => CallWarmScope (rk_sink (row_key e)) (rk_scope (row_key e)) (se_TS (pe_event e))
  | ScopeActionStopped => CallStopScope (rk_sink (row_key e)) (rk_scope (row_key e))
  end.

(** ** Lemmas *)

(** The newest [limit] events. *)
Definition trim (limit : nat) (l : list pendingScopeEvent) : list pendingScopeEvent :=
  drop (length l - limit) l.

Lemma enqueue_pending id event r :
  rc_pending (enqueueLocked id event r) = trim (rc_queueLimit r) (rc_pending r ++ [mkPending id event]).
Proof.
  unfold enqueueLocked, trim. case_bool_decide as Ho; simpl.
  - f_equal. lia.
  - replace (_ - _) with 0 by lia. done.
Qed.

Lemma enqueue_rest id event r :
  let r' := enqueueLocked id event r in
  rc_clusterID r' = rc_clusterID r /\ rc_queueLimit r' = rc_queueLimit r /\ rc_active r' = rc_active r /\
  rc_flush r' = rc_flush r /\ rc_delivered r' = rc_delivered r /\ rc_warm r' = rc_warm r.
Proof. unfold enqueueLocked. by case_bool_decide. Qed.

Lemma first_target (t : string) (targets : gset string) :
  negb (bool_decide (t ∈ targets)) && bool_decide (size ({[t]} ∪ targets) = 1) = bool_decide (targets = ∅).
Proof.
  apply eq_true_iff_eq. rewrite andb_true_iff, negb_true_iff, bool_decide_eq_false, !bool_decide_eq_true. split.
  - intros [Hn Hs]. rewrite size_union in Hs by set_solver. rewrite size_singleton in Hs.
    apply leibniz_equiv, size_empty_iff. lia.
  - intros ->. rewrite union_empty_r_L, size_singleton. set_solver.
Qed.

Lemma last_target (t : string) (targets : gset string) :
  t ∈ targets -> bool_decide (size (targets ∖ {[t]}) = 0) = bool_decide (targets = {[t]}).
Proof.
  intros Ht. apply bool_decide_ext. rewrite size_empty_iff. split.
  - intros He. apply set_eq. intros y. split; [|set_solver]. intros Hy.
    destruct (decide (y = t)); [set_solver|]. assert (y ∈ targets ∖ {[t]}) by set_solver. set_solver.
  - intros ->. set_solver.
Qed.

Lemma stop_keeps (t : string) (targets : gset string) :
  targets <> {[t]} -> targets ∖ {[t]} = ∅ <-> targets = ∅.
Proof.
  intros Hne. split; [|intros ->; set_solver]. intros E.
  destruct (set_choose_or_empty targets) as [[y Hy]|He]; [|by apply leibniz_equiv]. exfalso. apply Hne.
  assert (Hall : forall z, z ∈ targets -> z = t).
  { intros z Hz. destruct (decide (z = t)); [done|]. assert (z ∈ targets ∖ {[t]}) as Hin by set_solver.
    rewrite E in Hin. by apply elem_of_empty in Hin. }
  apply set_eq. intros z. rewrite elem_of_singleton. split; [apply Hall|]. intros ->. by rewrite <-(Hall y Hy).
Qed.

(** What an edge does, against the targets held before it. *)
Lemma edge_step op r held :
  (forall k, default ∅ (rc_active r !! k) = held k) ->
  let r' := run_recorder_op op r in
  let row := option_list (spec_edge (rc_clusterID r) held op) in
  (forall k, default ∅ (rc_active r' !! k) = spec_held held op k) /\
  rc_warm r' = rc_warm r ++ map warm_of row /\
  rc_clusterID r' = rc_clusterID r /\ rc_queueLimit r' = rc_queueLimit r /\
  (match op with RStarted _ | RStopped _ => True | _ => False end ->
   rc_flush r' = rc_flush r /\ rc_delivered r' = rc_delivered r /\
   (rc_pending r' = match row with [] => rc_pending r | _ => trim (rc_queueLimit r) (rc_pending r ++ row) end)).
Proof.
  intros Hh. destruct op as [t|t| | |accepted|]; simpl.
  - unfold ScopeStarted. fold (transition_key t). rewrite first_target, (Hh (transition_key t)).
    assert (Ha : forall k, default ∅ (<[transition_key t := {[st_Target t]} ∪ held (transition_key t)]> (rc_active r) !! k)
      = if decide (transition_key t = k) then {[st_Target t]} ∪ held k else held k).
    { intros k. case_decide as E; [subst; by rewrite lookup_insert_eq|]. by rewrite lookup_insert_ne, Hh. }
    destruct (decide (held (transition_key t) = ∅)) as [He|He].
    + rewrite bool_decide_eq_true_2 by done. simpl.
      destruct (enqueue_rest (st_Sink t) (eventFor (rc_clusterID r) t ScopeActionStarted)
        (set_active (<[transition_key t:={[st_Target t]} ∪ held (transition_key t)]> (rc_active r)) r))
        as (E1 & E2 & E3 & E4 & E5 & E6).
      rewrite E1, E2, E3, E4, E5, E6, enqueue_pending. simpl. split_and!; try done.
      unfold warm_of, row_key. simpl. by destruct (st_Scope t).
    + rewrite bool_decide_eq_false_2 by done. simpl. rewrite app_nil_r. done.
  - unfold ScopeStopped. fold (transition_key t). rewrite (Hh (transition_key t)).
    destruct (decide (st_Target t ∈ held (transition_key t))) as [Hin|Hin].
    + rewrite bool_decide_eq_true_2 by done. rewrite (last_target _ _ Hin).
      destruct (decide (held (transition_key t) = {[st_Target t]})) as [He|He].
      * rewrite bool_decide_eq_true_2 by done. simpl.
        destruct (enqueue_rest (st_Sink t) (eventFor (rc_clusterID r) t ScopeActionStopped)
          (set_active (delete (transition_key t) (rc_active r)) r)) as (E1 & E2 & E3 & E4 & E5 & E6).
        rewrite E1, E2, E3, E4, E5, E6, enqueue_pending. simpl. split_and!; try done.
        -- intros k. case_decide as E; [subst; rewrite lookup_delete_eq, He; simpl; set_solver|].
           by rewrite lookup_delete_ne, Hh.
        -- unfold warm_of, row_key. simpl. by destruct (st_Scope t).
      * rewrite bool_decide_eq_false_2 by done. simpl. rewrite app_nil_r. split_and!; try done.
        intros k. case_decide as E; [subst; by rewrite lookup_insert_eq|]. by rewrite lookup_insert_ne, Hh.
    + rewrite bool_decide_eq_false_2 by done. simpl.
      rewrite decide_False by (intros E; rewrite E in Hin; set_solver). rewrite app_nil_r. split_and!; try done.
      intros k. case_decide as E; [subst; rewrite Hh; set_solver|apply Hh].
  - rewrite app_nil_r. done.
  - unfold flush_take. destruct (rc_flush r), (rc_pending r); simpl; rewrite app_nil_r; done.
  - unfold flush_hand. destruct (rc_flush r); simpl; rewrite app_nil_r; try done. by destruct accepted.
  - unfold flush_pop. destruct (rc_flush r); simpl; rewrite app_nil_r; try done.
    destruct (rc_pending r); [done|]. by case_bool_decide.
Qed.

Lemma spec_rows_snoc c held ops op :
  spec_rows c held (ops ++ [op]) = spec_rows c held ops ++ option_list (spec_edge c (foldl spec_held held ops) op).
Proof.
  revert held. induction ops as [|x ops IH]; intros held; simpl; [by rewrite app_nil_r|].
  by rewrite IH, app_assoc.
Qed.

(** The run so far, against the specification. *)
Lemma run_spec c limit ops :
  let r := run_recorder ops (NewScopeEpochRecorder c limit) in
  (forall k, default ∅ (rc_active r !! k) = held_after ops k) /\
  rc_warm r = map warm_of (spec_rows c (fun _ => ∅) ops) /\
  rc_clusterID r = c /\ rc_queueLimit r = rc_queueLimit (NewScopeEpochRecorder c limit).
Proof.
  unfold run_recorder, held_after. induction ops as [|op ops IH] using rev_ind; simpl.
  - done.
  - rewrite !foldl_snoc, spec_rows_snoc, map_app. destruct IH as (Ha & Hw & Hc & Hl).
    destruct (edge_step op _ _ Ha) as (Ha' & Hw' & Hc' & Hl' & _).
    split_and!; [exact Ha'|rewrite Hw', Hw, Hc; done|exact (eq_trans Hc' Hc)|exact (eq_trans Hl' Hl)].
Qed.

(** *** Epochs alternate *)

Lemma rows_at_app k l1 l2 : rows_at k (l1 ++ l2) = rows_at k l1 ++ rows_at k l2.
Proof. unfold rows_at. by rewrite List.filter_app, map_app. Qed.

Lemma alternates_snoc open l a :
  alternates open l -> (match a with ScopeActionStarted => false | ScopeActionStopped => true end) =
    match last l with None => open | Some ScopeActionStarted => true | Some ScopeActionStopped => false end ->
  alternates open (l ++ [a]).
Proof.
  revert open. induction l as [|b l IH]; intros open; simpl.
  - intros _ E. by destruct a.
  - intros Hb Ha. assert (E : match last (b :: l) with None => open | Some ScopeActionStarted => true | Some ScopeActionStopped => false end =
      match last l with None => match b with ScopeActionStarted => true | ScopeActionStopped => false end
                      | Some ScopeActionStarted => true | Some ScopeActionStopped => false end).
    { rewrite last_cons. by destruct (last l). }
    simpl in E. rewrite E in Ha. destruct b; destruct Hb as [-> Hb]; (split; [done|]); by apply IH.
Qed.

Lemma rows_at_row k c t a :
  rows_at k [mkPending (st_Sink t) (eventFor c t a)] = if decide (transition_key t = k) then [a] else [].
Proof.
  unfold rows_at. simpl. assert (row_key (mkPending (st_Sink t) (eventFor c t a)) = transition_key t) as ->
    by (unfold row_key, transition_key; simpl; by destruct (st_Scope t)).
  case_decide; [by rewrite bool_decide_eq_true_2|by rewrite bool_decide_eq_false_2].
Qed.

Lemma epochs_spec c ops k :
  let rows := rows_at k (spec_rows c (fun _ => ∅) ops) in
  alternates false rows /\ (last rows = Some ScopeActionStarted <-> held_after ops k <> ∅).
Proof.
  unfold held_after. induction ops as [|op ops [IHa IHl]] using rev_ind; [done|]. simpl.
  rewrite spec_rows_snoc, foldl_snoc, rows_at_app. set (held := foldl spec_held _ ops) in *.
  set (rows := rows_at k (spec_rows c (fun _ => ∅) ops)) in *.
  assert (Hsame : forall h : gset string, (h = ∅ <-> held k = ∅) ->
    alternates false (rows ++ []) /\ (last (rows ++ []) = Some ScopeActionStarted <-> h <> ∅)).
  { intros h Hh. rewrite app_nil_r. split; [done|]. rewrite IHl. naive_solver. }
  assert (Hlast : last rows = None \/ last rows = Some ScopeActionStopped <-> held k = ∅).
  { destruct (last rows) as [[]|]; split; try naive_solver; intros _; apply dec_stable; naive_solver. }
  destruct op as [t|t| | |accepted|]; try (by apply Hsame); simpl.
  - destruct (decide (held (transition_key t) = ∅)) as [He|He]; simpl.
    + rewrite rows_at_row. destruct (decide (transition_key t = k)) as [<-|Hne].
      * rewrite last_snoc. split; [|split; [set_solver|done]].
        apply alternates_snoc; [done|]. apply Hlast in He as [-> | ->]; done.
      * by apply Hsame.
    + change (rows_at k []) with (@nil ScopeAction). apply Hsame.
      destruct (decide (transition_key t = k)) as [<-|]; [set_solver|done].
  - destruct (decide (held (transition_key t) = {[st_Target t]})) as [He|He]; simpl.
    + rewrite rows_at_row. destruct (decide (transition_key t = k)) as [<-|Hne].
      * rewrite last_snoc. split; [|split; [done|rewrite He; set_solver]].
        apply alternates_snoc; [done|]. assert (held (transition_key t) <> ∅) as Hn by (rewrite He; set_solver).
        apply IHl in Hn. by rewrite Hn.
      * by apply Hsame.
    + change (rows_at k []) with (@nil ScopeAction). apply Hsame.
      destruct (decide (transition_key t = k)) as [<-|]; [by apply stop_keeps|done].
Qed.

(** *** The queue *)

Record fifo (rows : list pendingScopeEvent) (r : ScopeEpochRecorder) : Prop := {
  ff_bound : length (rc_pending r) <= rc_queueLimit r;
  ff_order : exists n, n <= length rows /\ rc_pending r = drop n rows /\
    match rc_flush r with
    | FlushIdle => rc_delivered r `sublist_of` take n rows
    | FlushHanding next => exists j, rows !! j = Some next /\ j <= n /\ rc_delivered r `sublist_of` take j rows
    | FlushAccepted next => exists j d, rows !! j = Some next /\ j <= n /\
        rc_delivered r = d ++ [next] /\ d `sublist_of` take j rows
    end;
}.

Lemma sublist_take_le {A} (l rows : list A) i j :
  i <= j -> l `sublist_of` take i rows -> l `sublist_of` take j rows.
Proof.
  intros Hij Hl. etrans; [exact Hl|]. replace j with (i + (j - i)) by lia.
  rewrite <-take_take_drop. by apply sublist_inserts_r.
Qed.

Lemma trim_length limit l : length (trim limit l) <= limit.
Proof. unfold trim. rewrite length_drop. lia. Qed.

Lemma fifo_enqueue rows r r' e :
  fifo rows r -> rc_queueLimit r' = rc_queueLimit r -> rc_flush r' = rc_flush r ->
  rc_delivered r' = rc_delivered r -> rc_pending r' = trim (rc_queueLimit r) (rc_pending r ++ [e]) ->
  fifo (rows ++ [e]) r'.
Proof.
  intros [_ (n & Hn & Hp & Ho)] El Ef Ed Ep. split; [rewrite Ep, El; apply trim_length|].
  exists (n + (length (rc_pending r ++ [e]) - rc_queueLimit r)).
  assert (Hdrop : rc_pending r ++ [e] = drop n (rows ++ [e])) by (rewrite Hp, drop_app_le; [done|lia]).
  rewrite Ep, Ef, Ed. unfold trim. rewrite Hdrop, drop_drop, length_drop, length_app. simpl.
  split; [lia|]. split; [done|].
  assert (Htake : forall i l, i <= length rows -> l `sublist_of` take i rows -> l `sublist_of` take i (rows ++ [e])).
  { intros i l Hi. by rewrite take_app_le by lia. }
  destruct (rc_flush r) as [|next|next].
  - eapply sublist_take_le; [|by apply Htake]. lia.
  - destruct Ho as (j & Hj & Hjn & Hs). exists j. split_and!; [by apply lookup_app_l_Some|lia|].
    apply Htake; [lia|done].
  - destruct Ho as (j & d & Hj & Hjn & -> & Hs). exists j, d. split_and!; [by apply lookup_app_l_Some|lia|done|].
    apply Htake; [lia|done].
Qed.

Lemma fifo_same rows r r' :
  fifo rows r -> rc_queueLimit r' = rc_queueLimit r -> rc_flush r' = rc_flush r ->
  rc_delivered r' = rc_delivered r -> rc_pending r' = rc_pending r -> fifo rows r'.
Proof. intros [Hb Ho] El Ef Ed Ep. split; [by rewrite Ep, El|]. by rewrite Ef, Ed, Ep. Qed.

Lemma fifo_flush rows r op :
  match op with RTake | RHand _ | RPop => True | _ => False end ->
  fifo rows r -> fifo rows (run_recorder_op op r).
Proof.
  intros Hop [Hb (n & Hn & Hp & Ho)]. destruct op as [t|t| | |accepted|]; try done; simpl.
  - unfold flush_take. destruct (rc_flush r) eqn:Ef; [|split; [done|exists n; by rewrite Ef]..].
    destruct (rc_pending r) as [|next rest] eqn:Ep; [split; [by rewrite Ep|exists n; by rewrite Ep, Ef]|].
    split; simpl; [by rewrite Ep|]. exists n. rewrite Ep. split_and!; [done..|]. exists n. split_and!; [|done|done].
    rewrite <-(Nat.add_0_r n), <-lookup_drop, <-Hp. done.
  - unfold flush_hand. destruct (rc_flush r) eqn:Ef; [split; [done|exists n; by rewrite Ef]| |split; [done|exists n; by rewrite Ef]].
    destruct Ho as (j & Hj & Hjn & Hs). destruct accepted; split; simpl; try done; exists n; (split_and!; [done..|]).
    + exists j, (rc_delivered r). done.
    + by eapply sublist_take_le.
  - unfold flush_pop. destruct (rc_flush r) eqn:Ef; [split; [done|exists n; by rewrite Ef]..|].
    destruct Ho as (j & d & Hj & Hjn & Hd & Hs).
    assert (Hall : forall i, j < i -> rc_delivered r `sublist_of` take i rows).
    { intros i Hi. rewrite Hd. eapply (sublist_take_le _ _ (S j)); [lia|].
      rewrite (take_S_r _ _ _ Hj). by apply sublist_app. }
    destruct (rc_pending r) as [|head rest] eqn:Ep.
    + split; simpl; [rewrite Ep; simpl; lia|]. exists n. rewrite Ep. split_and!; [done..|].
      apply Hall. apply lookup_lt_Some in Hj. assert (length (drop n rows) = 0) as Hl by by rewrite <-Hp.
      rewrite length_drop in Hl. lia.
    + assert (Hhead : rows !! n = Some head).
      { rewrite <-(Nat.add_0_r n), <-lookup_drop, <-Hp. done. }
      case_bool_decide as Eh; simpl.
      * split; simpl; [simpl in Hb; lia|]. exists (S n). apply lookup_lt_Some in Hhead.
        split; [lia|]. split; [|apply Hall; lia].
        rewrite <-Nat.add_1_r, <-drop_drop, <-Hp. done.
      * split; simpl; [by rewrite Ep|]. exists n. rewrite Ep. split_and!; [done..|]. apply Hall.
        destruct (decide (j = n)); [subst; congruence|lia].
Qed.

Lemma run_fifo c limit ops :
  fifo (spec_rows c (fun _ => ∅) ops) (run_recorder ops (NewScopeEpochRecorder c limit)).
Proof.
  induction ops as [|op ops IH] using rev_ind.
  - split; simpl; [lia|]. exists 0. done.
  - destruct (run_spec c limit ops) as (Ha & _ & Hc & _).
    rewrite spec_rows_snoc. unfold run_recorder in *. rewrite foldl_snoc.
    set (r := foldl _ _ ops) in *. fold (held_after ops).
    destruct (edge_step op r _ Ha) as (_ & _ & _ & Hl & Hedge). rewrite Hc in Hedge.
    destruct op as [t|t| | |accepted|]; cbn [spec_edge option_list] in *; rewrite ?app_nil_r;
      try (by apply fifo_flush); [| |by eapply fifo_same; [exact IH|..]];
      destruct (Hedge I) as (Ef & Ed & Ep); clear Hedge;
      (destruct (decide _); cbn [option_list] in *;
        [by eapply fifo_enqueue|rewrite app_nil_r; by eapply fifo_same]).
Qed.

(** Nothing was dropped: what was handed over and what waits are all the rows. *)
Definition complete (rows : list pendingScopeEvent) (r : ScopeEpochRecorder) : Prop :=
  match rc_flush r with
  | FlushIdle => rc_delivered r ++ rc_pending r = rows
  | FlushHanding next => rc_delivered r ++ rc_pending r = rows /\ head (rc_pending r) = Some next
  | FlushAccepted next => exists d, rc_delivered r = d ++ [next] /\ d ++ rc_pending r = rows /\
      head (rc_pending r) = Some next
  end.

Lemma complete_enqueue rows r r' e :
  complete rows r -> rc_flush r' = rc_flush r -> rc_delivered r' = rc_delivered r ->
  rc_pending r' = rc_pending r ++ [e] -> complete (rows ++ [e]) r'.
Proof.
  unfold complete. intros Hc -> -> ->. destruct (rc_flush r).
  - by rewrite app_assoc, Hc.
  - destruct Hc as [<- Hh]. rewrite app_assoc. split; [done|]. by destruct (rc_pending r).
  - destruct Hc as (d & -> & <- & Hh). exists d. rewrite app_assoc. split_and!; [done..|]. by destruct (rc_pending r).
Qed.

Lemma complete_flush rows r op :
  match op with RTake | RHand _ | RPop => True | _ => False end ->
  complete rows r -> complete rows (run_recorder_op op r).
Proof.
  unfold complete. intros Hop Hc. destruct op as [t|t| | |accepted|]; try done; simpl.
  - unfold flush_take. destruct (rc_flush r) eqn:Ef; [|by rewrite Ef..].
    destruct (rc_pending r) eqn:Ep; simpl; [by rewrite Ef, Ep|by rewrite Ep].
  - unfold flush_hand. destruct (rc_flush r) eqn:Ef; [by rewrite Ef| |by rewrite Ef].
    destruct Hc as [Hc Hh]. destruct accepted; simpl; eauto.
  - unfold flush_pop. destruct (rc_flush r) eqn:Ef; [by rewrite Ef..|].
    destruct Hc as (d & Hd & Hc & Hh). destruct (rc_pending r) as [|head rest] eqn:Ep; [done|].
    injection Hh as ->. rewrite bool_decide_eq_true_2 by done. simpl. rewrite Hd, <-Hc, <-app_assoc. done.
Qed.

Lemma trim_fits limit l : length l <= limit -> trim limit l = l.
Proof. unfold trim. intros. by replace (length l - limit) with 0 by lia. Qed.

Lemma run_complete c limit ops :
  (forall ops1 ops2, ops = ops1 ++ ops2 ->
     length (rc_pending (run_recorder ops1 (NewScopeEpochRecorder c limit))) <
     rc_queueLimit (NewScopeEpochRecorder c limit)) ->
  complete (spec_rows c (fun _ => ∅) ops) (run_recorder ops (NewScopeEpochRecorder c limit)).
Proof.
  induction ops as [|op ops IH] using rev_ind; intros Hroom; [done|].
  assert (Hlen := Hroom ops [op] eq_refl).
  assert (IH' := IH (fun o1 o2 E => Hroom o1 (o2 ++ [op]) ltac:(by rewrite E, app_assoc))). clear IH.
  destruct (run_spec c limit ops) as (Ha & _ & Hc & Hlim). rewrite spec_rows_snoc.
  unfold run_recorder in *. rewrite foldl_snoc. set (r := foldl _ _ ops) in *. fold (held_after ops).
  destruct (edge_step op r _ Ha) as (_ & _ & _ & _ & Hedge). rewrite Hc in Hedge.
  destruct op as [t|t| | |accepted|]; cbn [spec_edge option_list] in *; rewrite ?app_nil_r;
    try (by apply complete_flush); [| |done];
    destruct (Hedge I) as (Ef & Ed & Ep); clear Hedge;
    (destruct (decide _); cbn [option_list] in *;
      [rewrite trim_fits in Ep by (rewrite length_app; simpl; lia); by eapply complete_enqueue
      |rewrite app_nil_r; unfold complete; by rewrite Ef, Ed, Ep]).
Qed.

(** *** A flush nothing interleaves with *)

(** The longest prefix of accepted events, and the rest. *)
Fixpoint span (f : pendingScopeEvent -> bool) (l : list pendingScopeEvent)
    : list pendingScopeEvent * list pendingScopeEvent :=
  match l with
  | [] => ([], [])
  | x :: rest => if f x then (x :: (span f rest).1, (span f rest).2) else ([], l)
  end.

Lemma flush_loop_spec fuel accepts r :
  rc_flush r = FlushIdle -> length (rc_pending r) < fuel ->
  let r' := flush_loop fuel accepts r in
  rc_delivered r' = rc_delivered r ++ (span accepts (rc_pending r)).1 /\
  rc_pending r' = (span accepts (rc_pending r)).2 /\ rc_flush r' = FlushIdle /\ rc_active r' = rc_active r.
Proof.
  revert r. induction fuel as [|fuel IH]; intros r Hi Hl; [lia|]. simpl.
  destruct (rc_pending r) as [|next rest] eqn:Ep; simpl; [rewrite app_nil_r, Ep; done|].
  unfold flush_take. rewrite Hi, Ep. unfold flush_hand. simpl. destruct (accepts next) eqn:Ea; simpl.
  - unfold flush_pop at 1 2 3 4. simpl. rewrite Ep, bool_decide_eq_true_2 by done.
    match goal with |- context [flush_loop fuel accepts ?r1] => destruct (IH r1) as (H1 & H2 & H3 & H4) end;
      simpl in *; [done|lia|]. rewrite H1, H2, H3, H4, <-app_assoc. done.
  - rewrite app_nil_r, Ep. done.
Qed.

(** ** Properties *)

(** epochs alternate. Whatever interest edges arrive in whatever order - repeated
    starts, stops of interests never started, several informers on one scope, sinks
    sharing a name - and however the flush loop interleaves, the rows queued for a
    (sink, scope) pair are Started, Stopped, Started, ...; the last one is Started
    exactly while some interest holds the pair, and these are the targets the recorder
    remembers; and the warm coordinator is told of exactly these rows, a warm carrying
    the instant of its Started row. *)
Theorem scope_epochs_alternate c limit ops k :
  let r := run_recorder ops (NewScopeEpochRecorder c limit) in
  let rows := spec_rows c (fun _ => ∅) ops in
  alternates false (rows_at k rows) /\
  (last (rows_at k rows) = Some ScopeActionStarted <-> held_after ops k <> ∅) /\
  default ∅ (rc_active r !! k) = held_after ops k /\
  rc_warm r = map warm_of rows.
Proof.
  intros r rows. destruct (epochs_spec c ops k) as [Ha Hl].
  destruct (run_spec c limit ops) as (Hh & Hw & _). done.
Qed.

(** The scope log keeps its order. Through every interleaving of edges and
    hand-overs, refusals included, what the sinks accepted is a subsequence of the
    rows in the order they were queued, each at most once; what waits is the newest
    rows and never more than the limit; and as long as the queue never fills up,
    everything that is not waiting has been handed over: no row is lost or repeated. *)
Theorem scope_rows_in_order c limit ops :
  let fresh := NewScopeEpochRecorder c limit in
  let r := run_recorder ops fresh in
  let rows := spec_rows c (fun _ => ∅) ops in
  rc_delivered r `sublist_of` rows /\
  (exists gone, rows = gone ++ rc_pending r) /\ length (rc_pending r) <= rc_queueLimit fresh /\
  (rc_flush r = FlushIdle ->
   (forall ops1 ops2, ops = ops1 ++ ops2 -> length (rc_pending (run_recorder ops1 fresh)) < rc_queueLimit fresh) ->
   rc_delivered r ++ rc_pending r = rows).
Proof.
  intros fresh r rows. destruct (run_fifo c limit ops) as [Hb (n & Hn & Hp & Ho)]. fold fresh r rows in Hb, Hn, Hp, Ho.
  destruct (run_spec c limit ops) as (_ & _ & _ & Hl). fold fresh r in Hl. split_and!.
  - destruct (rc_flush r) as [|next|next].
    + etrans; [exact Ho|]. apply sublist_take.
    + destruct Ho as (j & _ & _ & Hs). etrans; [exact Hs|]. apply sublist_take.
    + destruct Ho as (j & d & Hj & _ & -> & Hs). etrans; [|apply (sublist_take _ (S j))].
      rewrite (take_S_r _ _ _ Hj). by apply sublist_app.
  - exists (take n rows). rewrite Hp. by rewrite take_drop.
  - by rewrite <-Hl.
  - intros Hi Hroom. pose proof (run_complete c limit ops Hroom) as Hc. unfold complete in Hc.
    fold fresh r rows in Hc. by rewrite Hi in Hc.
Qed.

(** One flush hands over everything the sinks in front of the queue accept, in
    order, and terminates: the longest accepted prefix goes, the rest stays, nothing
    is lost. So with every sink live the queue is emptied; and a row whose sink has no
    live scope-log writer holds back every row behind it, whatever sink it is for. *)
Theorem flush_hands_over_prefix accepts r :
  rc_flush r = FlushIdle ->
  let r' := flush accepts r in
  rc_delivered r' = rc_delivered r ++ (span accepts (rc_pending r)).1 /\
  rc_pending r' = (span accepts (rc_pending r)).2 /\ rc_flush r' = FlushIdle /\
  (Forall (fun e => accepts e = true) (rc_pending r) ->
     rc_pending r' = [] /\ rc_delivered r' = rc_delivered r ++ rc_pending r) /\
  (forall stuck rest, rc_pending r = stuck :: rest -> accepts stuck = false ->
     rc_delivered r' = rc_delivered r /\ rc_pending r' = stuck :: rest).
Proof.
  intros Hi. simpl. unfold flush. set (r0 := reportDrops r).
  destruct (flush_loop_spec (S (length (rc_pending r0))) accepts r0 Hi ltac:(lia)) as (H1 & H2 & H3 & _).
  rewrite H1, H2, H3. simpl. split_and!; try done.
  - intros Hall. assert (span accepts (rc_pending r) = (rc_pending r, [])) as ->; [|done].
    induction Hall as [|x l Hx _ IH]; [done|]. simpl. rewrite Hx, IH. done.
  - intros stuck rest -> E. simpl. rewrite E. simpl. by rewrite app_nil_r.
Qed.

(** ** Evaluation *)

Definition sample_transition (sink target : string) (at_ : Z) : ScopeTransition :=
  mkTransition (mkID "ClickHouseSink" sink) (mkScopeKey "apps" "Deployment" "web") target "v1" ["rule"] at_.

(** The rows of a deleted sink stand in front of a live one's. *)
Lemma flush_hands_over_prefix_witness :
  let r := run_recorder [RStarted (sample_transition "gone" "v1" 1); RStarted (sample_transition "live" "v1" 2)]
             (NewScopeEpochRecorder "c" 0) in
  let accepts e := bool_decide (ID_Name (pe_sink e) = "live") in
  length (rc_pending r) = 2 /\ rc_delivered (flush accepts r) = [].
Proof.
  intros r accepts. split; [vm_compute; reflexivity|].
  destruct (rc_pending r) as [|stuck rest] eqn:E; [vm_compute in E; discriminate|].
  destruct (flush_hands_over_prefix accepts r ltac:(vm_compute; reflexivity)) as (_ & _ & _ & _ & Hs).
  destruct (Hs stuck rest E) as [Hd _].
  - vm_compute in E. injection E as <- <-. vm_compute. reflexivity.
  - rewrite Hd. vm_compute. reflexivity.
Defined.
