(* ===== verification/ScopeLog.v ===== *)
(** * ScopeLog: reading a scope log back

    Models [src/internal/query/scope.go]: the pairing of Started and Stopped rows into
    the intervals a coverage answer consists of. Instants are nanoseconds; an absent
    window bound (the zero [time.Time]) is [None]. The recorded action is text, since
    the reader must cope with words it does not know. *)

From S2P Require Import Prelude Identity Plan EventFilter Interest SinkTypes ScopeRecorder.

Definition action_Started : string := "Started".
Definition action_Stopped : string := "Stopped".

Record ScopeChange := mkScopeChange {
  sc_APIGroup : string;
  sc_Kind : string;
  sc_Namespace : string;
  sc_Action : string;
  sc_RuleRef : string;
  sc_TS : Z;
}.

Record ScopeInterval := mkScopeInterval {
  iv_APIGroup : string;
  iv_Kind : string;
  iv_Namespace : string;
  iv_RuleRef : string;
  iv_From : Z;
  iv_To : option Z;
}.

Definition compare_changes (a b : ScopeChange) : comparison :=
  cmp_or (String.compare (sc_APIGroup a) (sc_APIGroup b))
    (cmp_or (String.compare (sc_Kind a) (sc_Kind b))
       (cmp_or (String.compare (sc_Namespace a) (sc_Namespace b)) (Z.compare (sc_TS a) (sc_TS b)))).

Definition change_le (a b : ScopeChange) : Prop := compare_changes a b <> Gt.
Definition from_le (a b : ScopeInterval) : Prop := (iv_From a <= iv_From b)%Z.

#[export] Instance change_le_dec : RelDecision change_le.
Proof. intros a b. unfold change_le. apply _. Defined.
#[export] Instance from_le_dec : RelDecision from_le.
Proof. intros a b. unfold from_le. apply _. Defined.

Definition sameScope (a b : ScopeChange) : bool :=
  bool_decide (sc_APIGroup a = sc_APIGroup b) && bool_decide (sc_Kind a = sc_Kind b) &&
  bool_decide (sc_Namespace a = sc_Namespace b).

(** [intervals[open].To = &stop]. *)
Definition close_at (stop : Z) (i : ScopeInterval) : ScopeInterval :=
  mkScopeInterval (iv_APIGroup i) (iv_Kind i) (iv_Namespace i) (iv_RuleRef i) (iv_From i) (Some stop).

Fixpoint pair_loop (transitions : list ScopeChange) (intervals : list ScopeInterval) (open : option nat)
    : list ScopeInterval :=
  match transitions with
  | [] => intervals
  | t :: rest =>
      if bool_decide (sc_Action t = action_Started) then
        match open with
        | Some _ => pair_loop rest intervals open
        | None =>
            let intervals := intervals ++ [mkScopeInterval (sc_APIGroup t) (sc_Kind t) (sc_Namespace t)
                                             (sc_RuleRef t) (sc_TS t) None] in
            pair_loop rest intervals (Some (length intervals - 1))
        end
      else if bool_decide (sc_Action t = action_Stopped) then
        match open with
        | None => pair_loop rest intervals open
        | Some i => pair_loop rest (alter (close_at (sc_TS t)) i intervals) None
        end
      else pair_loop rest intervals open
  end.

Definition pairScope (transitions : list ScopeChange) : list ScopeInterval := pair_loop transitions [] None.

Definition overlapsWindow (interval : ScopeInterval) (from to : option Z) : bool :=
  if match to with Some to => bool_decide (to < iv_From interval)%Z | None => false end then false
  else match from, iv_To interval with
       | Some from, Some stop => negb (bool_decide (stop < from)%Z)
       | _, _ => true
       end.

(** The inner loop: the longest prefix in the scope of [first], and what follows it. *)
Fixpoint scope_run (first : ScopeChange) (l : list ScopeChange) : list ScopeChange * list ScopeChange :=
  match l with
  | [] => ([], [])
  | x :: rest => if sameScope x first then (x :: (scope_run first rest).1, (scope_run first rest).2) else ([], l)
  end.

(** The outer loop; every round consumes an element, so the length is enough fuel. *)
Fixpoint coverage_loop (fuel : nat) (from to : option Z) (ordered : list ScopeChange)
    : list ScopeInterval :=
  match fuel, ordered with
  | S fuel, first :: _ =>
      let '(run, rest) := scope_run first ordered in
      List.filter (fun i => overlapsWindow i from to) (pairScope run) ++ coverage_loop fuel from to rest
  | _, _ => []
  end.

Definition CoverageOf (changes : list ScopeChange) (from to : option Z) : list ScopeInterval :=
  let ordered := stable_sort change_le changes in
  stable_sort from_le (coverage_loop (length ordered) from to ordered).

(** ** The specification *)

Definition in_scope_of (k : ScopeKey) (c : ScopeChange) : Prop :=
  sc_APIGroup c = sk_Group k /\ sc_Kind c = sk_Kind k /\ sc_Namespace c = sk_Namespace k.

Definition marks (c : ScopeChange) : Prop := sc_Action c = action_Started \/ sc_Action c = action_Stopped.

(** The log says a scope is being watched at [t]: its latest mark up to [t] is a
    Started. *)
Definition watched (log : list ScopeChange) (k : ScopeKey) (t : Z) : Prop :=
  exists c, c ∈ log /\ in_scope_of k c /\ sc_Action c = action_Started /\ (sc_TS c <= t)%Z /\
    forall c', c' ∈ log -> in_scope_of k c' -> marks c' -> (sc_TS c' <= t)%Z -> (sc_TS c' <= sc_TS c)%Z.

Definition interval_of (k : ScopeKey) (i : ScopeInterval) : Prop :=
  iv_APIGroup i = sk_Group k /\ iv_Kind i = sk_Kind k /\ iv_Namespace i = sk_Namespace k.

Definition contains (i : ScopeInterval) (t : Z) : Prop :=
  (iv_From i <= t)%Z /\ match iv_To i with Some stop => (t < stop)%Z | None => True end.

Definition covered (intervals : list ScopeInterval) (k : ScopeKey) (t : Z) : Prop :=
  exists i, i ∈ intervals /\ interval_of k i /\ contains i t.

(** No Started and Stopped of one scope carry the same instant. *)
Definition distinct_marks (log : list ScopeChange) : Prop :=
  forall c c', c ∈ log -> c' ∈ log -> sameScope c c' = true -> marks c -> marks c' ->
    sc_TS c = sc_TS c' -> sc_Action c = sc_Action c'.

(** ** Lemmas: one scope *)

(** The pairing as closed intervals and at most one open interval. *)
Definition pair_step (acc : list ScopeInterval * option ScopeInterval) (t : ScopeChange)
    : list ScopeInterval * option ScopeInterval :=
  if bool_decide (sc_Action t = action_Started) then
    match acc.2 with
    | Some _ => acc
    | None => (acc.1, Some (mkScopeInterval (sc_APIGroup t) (sc_Kind t) (sc_Namespace t) (sc_RuleRef t) (sc_TS t) None))
    end
  else if bool_decide (sc_Action t = action_Stopped) then
    match acc.2 with
    | None => acc
    | Some i => (acc.1 ++ [close_at (sc_TS t) i], None)
    end
  else acc.

Lemma pair_loop_steps transitions closed open :
  pair_loop transitions (closed ++ option_list open) (match open with Some _ => Some (length closed) | None => None end) =
  (foldl pair_step (closed, open) transitions).1 ++ option_list (foldl pair_step (closed, open) transitions).2.
Proof.
  revert closed open. induction transitions as [|t rest IH]; intros closed open; simpl; [done|].
  unfold pair_step at 2 4. simpl.
  case_bool_decide; [|case_bool_decide].
  - destruct open as [i|]; [apply IH|]. rewrite app_nil_r, length_app. simpl.
    replace (length closed + 1 - 1) with (length closed) by lia.
    apply (IH closed (Some (mkScopeInterval (sc_APIGroup t) (sc_Kind t) (sc_Namespace t) (sc_RuleRef t) (sc_TS t) None))).
  - destruct open as [i|]; simpl; [|apply (IH closed None)].
    rewrite alter_app_r_alt, Nat.sub_diag by lia. simpl. rewrite <-(IH (closed ++ [close_at (sc_TS t) i]) None).
    by rewrite app_nil_r.
  - apply IH.
Qed.

Lemma pairScope_steps transitions :
  pairScope transitions = (foldl pair_step ([], None) transitions).1 ++ option_list (foldl pair_step ([], None) transitions).2.
Proof. exact (pair_loop_steps transitions [] None). Qed.

(** The latest mark of [l] up to [t] is a Started. *)
Definition latest (l : list ScopeChange) (t : Z) : Prop :=
  exists c, c ∈ l /\ sc_Action c = action_Started /\ (sc_TS c <= t)%Z /\
    forall c', c' ∈ l -> marks c' -> (sc_TS c' <= t)%Z -> (sc_TS c' <= sc_TS c)%Z.

(** [x] comes after everything in [l]. *)
Definition follows (l : list ScopeChange) (x : ScopeChange) : Prop :=
  forall c, c ∈ l -> (sc_TS c <= sc_TS x)%Z /\
    (marks c -> marks x -> (sc_TS c < sc_TS x)%Z \/ sc_Action c = sc_Action x).

Lemma latest_before l x t : (t < sc_TS x)%Z \/ ~ marks x -> latest (l ++ [x]) t <-> latest l t.
Proof.
  intros Hx. unfold latest. setoid_rewrite elem_of_app. setoid_rewrite list_elem_of_singleton. split.
  - intros (c & [Hc| ->] & Ha & Ht & Hall); [exists c; split_and!; auto|].
    destruct Hx as [?|Hx]; [lia|]. destruct Hx. by left.
  - intros (c & Hc & Ha & Ht & Hall). exists c. split_and!; auto. intros c' [Hc'| ->] Hm Hle; [auto|].
    destruct Hx as [?|Hx]; [lia|done].
Qed.

Lemma latest_started l x t :
  follows l x -> sc_Action x = action_Started -> (sc_TS x <= t)%Z -> latest (l ++ [x]) t.
Proof.
  intros Hf Ha Ht. exists x. split_and!; [apply elem_of_app; right; by apply list_elem_of_singleton|done..|].
  intros c' [Hc'|Hc']%elem_of_app _ _; [by apply Hf|]. apply list_elem_of_singleton in Hc'. by subst.
Qed.

Lemma latest_stopped l x t :
  follows l x -> sc_Action x = action_Stopped -> (sc_TS x <= t)%Z -> ~ latest (l ++ [x]) t.
Proof.
  intros Hf Ha Ht (c & [Hc|Hc]%elem_of_app & Hs & Hle & Hall).
  - assert (marks x) as Hm by by right. specialize (Hall x). rewrite elem_of_app, list_elem_of_singleton in Hall.
    specialize (Hall (or_intror eq_refl) Hm Ht). destruct (Hf c Hc) as [_ Hlt].
    destruct (Hlt (or_introl Hs) Hm) as [?|E]; [lia|]. by rewrite Hs, Ha in E.
  - apply list_elem_of_singleton in Hc as ->. by rewrite Ha in Hs.
Qed.

(** What one scope's pairing knows after an ordered prefix [l]. *)
Record paired (l : list ScopeChange) (acc : list ScopeInterval * option ScopeInterval) : Prop := {
  pd_closed : forall i, i ∈ acc.1 -> exists stop, iv_To i = Some stop /\ exists c, c ∈ l /\ (stop <= sc_TS c)%Z;
  pd_open : forall i, acc.2 = Some i -> iv_To i = None;
  pd_from : forall i, i ∈ acc.1 ++ option_list acc.2 -> exists c, c ∈ l /\ iv_From i = sc_TS c /\
    iv_APIGroup i = sc_APIGroup c /\ iv_Kind i = sc_Kind c /\ iv_Namespace i = sc_Namespace c;
  pd_watch : forall t, (exists i, i ∈ acc.1 ++ option_list acc.2 /\ contains i t) <-> latest l t;
}.

Lemma elem_of_opt {A} (x : A) o : x ∈ option_list o <-> o = Some x.
Proof. destruct o; simpl; [rewrite list_elem_of_singleton; naive_solver|rewrite elem_of_nil; naive_solver]. Qed.

Lemma closed_not_contains l acc x t i :
  paired l acc -> follows l x -> (sc_TS x <= t)%Z -> i ∈ acc.1 -> ~ contains i t.
Proof.
  intros Hp Hf Ht Hi [_ Hc]. destruct (pd_closed _ _ Hp i Hi) as (stop & E & c & Hin & Hle).
  rewrite E in Hc. destruct (Hf c Hin) as [? _]. lia.
Qed.

Lemma elem_of_snoc {A} (x : A) l : x ∈ l ++ [x].
Proof. apply elem_of_app. right. by apply list_elem_of_singleton. Qed.

Lemma closed_extends l x (closed : list ScopeInterval) :
  (forall i, i ∈ closed -> exists stop, iv_To i = Some stop /\ exists c, c ∈ l /\ (stop <= sc_TS c)%Z) ->
  forall i, i ∈ closed -> exists stop, iv_To i = Some stop /\ exists c, c ∈ l ++ [x] /\ (stop <= sc_TS c)%Z.
Proof.
  intros Hc i Hi. destruct (Hc i Hi) as (stop & E & c & Hin & Hle). exists stop. split; [done|].
  exists c. split; [apply elem_of_app; by left|done].
Qed.

Lemma from_extends l acc x i :
  paired l acc -> i ∈ acc.1 ++ option_list acc.2 -> exists c, c ∈ l ++ [x] /\ iv_From i = sc_TS c /\
    iv_APIGroup i = sc_APIGroup c /\ iv_Kind i = sc_Kind c /\ iv_Namespace i = sc_Namespace c.
Proof.
  intros Hp Hi. destruct (pd_from _ _ Hp i Hi) as (c & Hin & ?). exists c. split; [apply elem_of_app; by left|done].
Qed.

(** A row that changes nothing. *)
Lemma paired_keep l acc x :
  paired l acc ->
  (marks x -> forall t, (sc_TS x <= t)%Z ->
     (exists i, i ∈ acc.1 ++ option_list acc.2 /\ contains i t) <-> latest (l ++ [x]) t) ->
  paired (l ++ [x]) acc.
Proof.
  intros Hp Hlate. split; [apply closed_extends, Hp|apply Hp|by intros i; apply from_extends|].
  intros t. destruct (decide (sc_Action x = action_Started \/ sc_Action x = action_Stopped)) as [Hm|Hm].
  - destruct (decide (sc_TS x <= t)%Z); [by apply Hlate|]. rewrite latest_before by (left; lia). apply Hp.
  - rewrite latest_before by (by right). apply Hp.
Qed.

(** A Started opens an interval. *)
Lemma paired_open l closed x :
  paired l (closed, None) -> follows l x -> sc_Action x = action_Started ->
  paired (l ++ [x]) (closed, Some (mkScopeInterval (sc_APIGroup x) (sc_Kind x) (sc_Namespace x) (sc_RuleRef x) (sc_TS x) None)).
Proof.
  intros Hp Hf Ha. split; simpl; [apply closed_extends, Hp|by intros i [= <-]|..].
  - intros i [Hi|Hi]%elem_of_app.
    + apply (from_extends l (closed, None)); [done|]. apply elem_of_app. by left.
    + apply list_elem_of_singleton in Hi as ->. exists x. split; [apply elem_of_snoc|done].
  - intros t. destruct (decide (sc_TS x <= t)%Z) as [Ht|Ht].
    + split; [intros _; by apply latest_started|]. intros _. eexists. split; [apply elem_of_snoc|]. by split.
    + rewrite latest_before, <-(pd_watch _ _ Hp) by (left; lia). simpl. rewrite app_nil_r. split.
      * intros (i & [Hi|Hi]%elem_of_app & Hct); [eauto|]. apply list_elem_of_singleton in Hi as ->.
        destruct Hct as [? _]. simpl in *. lia.
      * intros (i & Hi & Hct). exists i. split; [apply elem_of_app; by left|done].
Qed.

(** A Stopped closes it. *)
Lemma paired_close l closed i x :
  paired l (closed, Some i) -> follows l x -> sc_Action x = action_Stopped ->
  paired (l ++ [x]) (closed ++ [close_at (sc_TS x) i], None).
Proof.
  intros Hp Hf Ha. split; simpl; [|done|..].
  - intros j [Hj|Hj]%elem_of_app; [apply (closed_extends l x closed); [apply Hp|done]|].
    apply list_elem_of_singleton in Hj as ->. exists (sc_TS x). split; [done|]. exists x. split; [apply elem_of_snoc|lia].
  - rewrite app_nil_r. intros j [Hj|Hj]%elem_of_app.
    + apply (from_extends l (closed, Some i)); [done|]. apply elem_of_app. by left.
    + apply list_elem_of_singleton in Hj as ->. apply (from_extends l (closed, Some i) x i Hp), elem_of_snoc.
  - intros t. rewrite app_nil_r. destruct (decide (sc_TS x <= t)%Z) as [Ht|Ht].
    + split; [|by intros ?%latest_stopped]. intros (j & [Hj|Hj]%elem_of_app & Hct).
      * exfalso. by apply (closed_not_contains _ _ x t j Hp Hf Ht Hj).
      * apply list_elem_of_singleton in Hj as ->. destruct Hct as [_ Hct]. simpl in Hct. lia.
    + rewrite latest_before, <-(pd_watch _ _ Hp) by (left; lia). setoid_rewrite elem_of_app.
      setoid_rewrite elem_of_opt. setoid_rewrite list_elem_of_singleton.
      assert (contains (close_at (sc_TS x) i) t <-> contains i t) as Hcc.
      { unfold contains. rewrite (pd_open _ _ Hp i eq_refl). simpl. split; intros [? ?]; split; try done; lia. }
      split; (intros (j & [Hj|Hj] & Hct); [by exists j; auto|]).
      * subst. exists i. split; [by right|]. by apply Hcc.
      * injection Hj as <-. eexists. split; [by right|]. by apply Hcc.
Qed.

Lemma paired_step l acc x : paired l acc -> follows l x -> paired (l ++ [x]) (pair_step acc x).
Proof.
  intros Hp Hf. destruct acc as [closed open]. unfold pair_step. simpl.
  case_bool_decide as Ha; [|case_bool_decide as Hb]; [| |apply paired_keep; [done|by intros [?|?]]].
  - destruct open as [i|]; [|by apply paired_open]. apply paired_keep; [done|]. intros _ t Ht.
    split; [intros _; by apply latest_started|]. intros _. exists i. split; [apply elem_of_snoc|].
    destruct (pd_from _ _ Hp i (elem_of_snoc i closed)) as (c & Hin & E & _).
    split; [|by rewrite (pd_open _ _ Hp i eq_refl)]. rewrite E. destruct (Hf c Hin) as [? _]. lia.
  - destruct open as [i|]; [by apply paired_close|]. apply paired_keep; [done|]. intros _ t Ht.
    split; [|by intros ?%latest_stopped]. intros (j & Hj & Hct). simpl in Hj. rewrite app_nil_r in Hj.
    exfalso. by apply (closed_not_contains _ _ x t j Hp Hf Ht Hj).
Qed.

(** ** Lemmas: sorting and grouping *)

Definition compare_scope_of (a b : ScopeChange) : comparison :=
  cmp_or (String.compare (sc_APIGroup a) (sc_APIGroup b))
    (cmp_or (String.compare (sc_Kind a) (sc_Kind b)) (String.compare (sc_Namespace a) (sc_Namespace b))).

Lemma scope_lawful : lawful compare_scope_of.
Proof. apply lawful_or; [apply lawful_string|]. apply lawful_or; apply lawful_string. Qed.

Lemma changes_lawful : lawful compare_changes.
Proof.
  apply lawful_or; [apply lawful_string|]. apply lawful_or; [apply lawful_string|].
  apply lawful_or; [apply lawful_string|apply lawful_Z].
Qed.

Lemma compare_changes_split a b :
  compare_changes a b = cmp_or (compare_scope_of a b) (Z.compare (sc_TS a) (sc_TS b)).
Proof. unfold compare_changes, compare_scope_of, cmp_or. by repeat case_match. Qed.

Lemma string_compare_eq s t : String.compare s t = Eq <-> s = t.
Proof.
  split; [apply String.compare_eq_iff|]. intros ->. pose proof (String.compare_antisym t t) as E.
  by destruct (String.compare t t).
Qed.

Lemma compare_scope_eq a b : compare_scope_of a b = Eq <-> sameScope a b = true.
Proof.
  unfold compare_scope_of, sameScope, cmp_or. rewrite !andb_true_iff, !bool_decide_eq_true, <-!string_compare_eq.
  repeat case_match; naive_solver.
Qed.

#[export] Instance change_le_trans : Transitive change_le.
Proof. intros a b c. apply (lawful_trans _ changes_lawful). Qed.
#[export] Instance change_le_total : Total change_le.
Proof. exact (lawful_total _ changes_lawful). Qed.

Lemma scope_run_app first l : l = (scope_run first l).1 ++ (scope_run first l).2.
Proof. induction l as [|x l IH]; simpl; [done|]. destruct (sameScope x first); simpl; [by rewrite <-IH|done]. Qed.

Lemma scope_run_same first l x : x ∈ (scope_run first l).1 -> sameScope x first = true.
Proof.
  induction l as [|y l IH]; simpl; [by intros ?%elem_of_nil|]. destruct (sameScope y first) eqn:E; simpl.
  - intros [->|Hx]%elem_of_cons; auto.
  - by intros ?%elem_of_nil.
Qed.

(** In an ordered list what follows a run is of other scopes. *)
Lemma scope_run_rest first l x :
  StronglySorted change_le (first :: l) -> x ∈ (scope_run first l).2 -> sameScope x first = false.
Proof.
  intros Hs Hx. apply StronglySorted_inv in Hs as [Hs Hf]. induction l as [|y l IH]; simpl in *; [by apply elem_of_nil in Hx|].
  apply StronglySorted_inv in Hs as [Hs Hy]. apply Forall_cons in Hf as [Hfy Hf].
  destruct (sameScope y first) eqn:E; simpl in *; [by apply IH|].
  assert (Hyx : compare_scope_of y x <> Gt).
  { apply elem_of_cons in Hx as [->|Hx].
    - by rewrite (proj2 (compare_scope_eq y y)) by (unfold sameScope; by rewrite !bool_decide_eq_true_2).
    - rewrite Forall_forall in Hy. specialize (Hy x Hx). unfold change_le in Hy.
      rewrite compare_changes_split in Hy. unfold cmp_or in Hy. by destruct (compare_scope_of y x). }
  unfold change_le in Hfy. rewrite compare_changes_split in Hfy.
  destruct (sameScope x first) eqn:Ex; [|done]. exfalso. apply compare_scope_eq in Ex.
  assert (E2 : compare_scope_of y first <> Gt).
  { intros Eg. apply Hyx. rewrite (lawful_sym _ scope_lawful x y), (lawful_Eq _ _ _ y scope_lawful Ex).
    rewrite (lawful_sym _ scope_lawful y first), Eg. done. }
  assert (E3 : compare_scope_of first y <> Gt) by (unfold cmp_or in Hfy; by destruct (compare_scope_of first y)).
  rewrite (lawful_sym _ scope_lawful first y) in E2. destruct (compare_scope_of first y) eqn:Ef; try done.
  assert (compare_scope_of y first = Eq) as Heq%compare_scope_eq by (rewrite (lawful_sym _ scope_lawful first y), Ef; done).
  congruence.
Qed.

Definition change_key (c : ScopeChange) : ScopeKey := mkScopeKey (sc_APIGroup c) (sc_Kind c) (sc_Namespace c).
Definition interval_key (i : ScopeInterval) : ScopeKey := mkScopeKey (iv_APIGroup i) (iv_Kind i) (iv_Namespace i).

Lemma sameScope_key a b : sameScope a b = true <-> change_key a = change_key b.
Proof.
  unfold sameScope, change_key. rewrite !andb_true_iff, !bool_decide_eq_true. split; [|by intros [= -> -> ->]].
  intros [[-> ->] ->]. done.
Qed.

(** One scope's part of a log. *)
Definition scoped (k : ScopeKey) (l : list ScopeChange) : list ScopeChange :=
  List.filter (fun c => bool_decide (change_key c = k)) l.

Lemma elem_of_scoped k l c : c ∈ scoped k l <-> c ∈ l /\ change_key c = k.
Proof.
  unfold scoped. rewrite list_elem_of_In, filter_In, bool_decide_eq_true, <-list_elem_of_In. done.
Qed.

Lemma scoped_app k l1 l2 : scoped k (l1 ++ l2) = scoped k l1 ++ scoped k l2.
Proof. apply List.filter_app. Qed.

Lemma scoped_all k l : (forall c, c ∈ l -> change_key c = k) -> scoped k l = l.
Proof.
  induction l as [|c l IH]; intros Hl; [done|]. simpl. rewrite bool_decide_eq_true_2 by (apply Hl; left).
  rewrite IH; [done|]. intros c' Hc'. apply Hl. by right.
Qed.

Lemma scoped_none k l : (forall c, c ∈ l -> change_key c <> k) -> scoped k l = [].
Proof.
  induction l as [|c l IH]; intros Hl; [done|]. simpl. rewrite bool_decide_eq_false_2 by (apply Hl; left).
  apply IH. intros c' Hc'. apply Hl. by right.
Qed.

(** Intervals are in the scope of the rows they were paired from. *)
Lemma pair_steps_scope l i :
  i ∈ (foldl pair_step ([], None) l).1 ++ option_list (foldl pair_step ([], None) l).2 ->
  exists c, c ∈ l /\ interval_key i = change_key c.
Proof.
  revert i. induction l as [|x l IH] using rev_ind; intros i; [by intros ?%elem_of_nil|].
  rewrite foldl_snoc. destruct (foldl pair_step ([], None) l) as [closed open]. simpl in IH.
  setoid_rewrite elem_of_app in IH.
  assert (Hold : forall j, j ∈ closed \/ j ∈ option_list open -> exists c, c ∈ l ++ [x] /\ interval_key j = change_key c).
  { intros j (c & Hc & E)%IH. exists c. split; [apply elem_of_app; by left|done]. }
  rewrite elem_of_app. unfold pair_step. simpl. case_bool_decide; [|case_bool_decide]; [..|by apply Hold].
  - destruct open; [by apply Hold|]. simpl. intros [Hi|Hi]; [by apply Hold; left|].
    apply list_elem_of_singleton in Hi as ->. exists x. split; [apply elem_of_app; right; by apply list_elem_of_singleton|done].
  - destruct open as [j|]; [|by apply Hold]. simpl. intros [[Hi|Hi]%elem_of_app|?%elem_of_nil]; [by apply Hold; left| |done].
    apply list_elem_of_singleton in Hi as ->. destruct (Hold j) as (c & Hc & E); [right; left|]. by exists c.
Qed.

Lemma elem_of_coverage fuel from to ordered i :
  StronglySorted change_le ordered -> length ordered <= fuel ->
  i ∈ coverage_loop fuel from to ordered <->
  overlapsWindow i from to = true /\ i ∈ pairScope (scoped (interval_key i) ordered).
Proof.
  revert ordered. induction fuel as [|fuel IH]; intros ordered Hs Hl.
  { destruct ordered; [|simpl in Hl; lia]. simpl. rewrite elem_of_nil. split; [done|]. by intros [_ ?%elem_of_nil]. }
  destruct ordered as [|first l]; [simpl; rewrite elem_of_nil; split; [done|]; by intros [_ ?%elem_of_nil]|].
  assert (Ef : sameScope first first = true) by by apply sameScope_key.
  cbn [coverage_loop]. pose proof (scope_run_app first (first :: l)) as Eapp.
  pose proof (scope_run_same first (first :: l)) as Hsame.
  assert (Hrest : forall x, x ∈ (scope_run first (first :: l)).2 -> sameScope x first = false).
  { intros x. simpl. rewrite Ef. simpl. by apply scope_run_rest. }
  assert (Hrun : exists r, (scope_run first (first :: l)).1 = first :: r) by (simpl; rewrite Ef; simpl; eauto).
  destruct (scope_run first (first :: l)) as [run rest]. simpl in Eapp, Hsame, Hrest, Hrun. rewrite Eapp in *.
  assert (Hlen : length rest <= fuel).
  { destruct Hrun as [r Er]. rewrite Er in Hl. simpl in Hl. rewrite length_app in Hl. lia. }
  assert (Hsr : StronglySorted change_le rest).
  { clear -Hs. induction run as [|y run IH]; [done|]. apply IH. by apply StronglySorted_inv in Hs as [? _]. }
  rewrite elem_of_app, (IH _ Hsr Hlen), list_elem_of_In, filter_In, <-list_elem_of_In, scoped_app.
  destruct (decide (interval_key i = change_key first)) as [E|E].
  - rewrite (scoped_none (interval_key i) rest), (scoped_all (interval_key i) run), app_nil_r.
    + split; [|naive_solver]. intros [?|[_ ?%elem_of_nil]]; [naive_solver|done].
    + intros c Hc. rewrite E. by apply sameScope_key, Hsame.
    + intros c Hc Ek. rewrite E in Ek. apply sameScope_key in Ek. by rewrite Hrest in Ek.
  - rewrite (scoped_none (interval_key i) run).
    + simpl. split; [|naive_solver]. intros [[Hi _]|?]; [|done]. exfalso. apply E.
      rewrite pairScope_steps in Hi. apply pair_steps_scope in Hi as (c & Hc & ->). by apply sameScope_key, Hsame.
    + intros c Hc Ek. apply E. rewrite <-Ek. by apply sameScope_key, Hsame.
Qed.

Lemma elem_of_CoverageOf changes from to i :
  i ∈ CoverageOf changes from to <->
  overlapsWindow i from to = true /\ i ∈ pairScope (scoped (interval_key i) (stable_sort change_le changes)).
Proof.
  unfold CoverageOf. rewrite stable_sort_Permutation. apply elem_of_coverage; [|done].
  apply (stable_sort_sorted change_le).
Qed.

Lemma StronglySorted_scoped k l : StronglySorted change_le l -> StronglySorted change_le (scoped k l).
Proof.
  induction 1 as [|x l Hs IH Hf]; simpl; [constructor|]. case_bool_decide; [|done]. constructor; [done|].
  apply Forall_forall. intros y [Hy _]%elem_of_scoped. rewrite Forall_forall in Hf. by apply Hf.
Qed.

Lemma scoped_paired l :
  StronglySorted change_le l -> (forall a b, a ∈ l -> b ∈ l -> sameScope a b = true) -> distinct_marks l ->
  paired l (foldl pair_step ([], None) l).
Proof.
  induction l as [|x l IH] using rev_ind; intros Hs Hk Hd.
  { split; simpl; try done; [by intros i ?%elem_of_nil..|]. intros t.
    split; [by intros (? & ?%elem_of_nil & _)|by intros (? & ?%elem_of_nil & _)]. }
  apply StronglySorted_app in Hs as (Hx & Hs & _). rewrite foldl_snoc. apply paired_step.
  - apply IH; [done| |intros a b Ha Hb; apply Hd; apply elem_of_app; by left].
    intros a b Ha Hb. apply Hk; apply elem_of_app; by left.
  - intros c Hc. assert (Hle : change_le c x) by (apply Hx; [done|by apply list_elem_of_singleton]).
    assert (Hin : x ∈ l ++ [x]) by (apply elem_of_app; right; by apply list_elem_of_singleton).
    assert (Hcin : c ∈ l ++ [x]) by (apply elem_of_app; by left).
    assert (Hts : (sc_TS c <= sc_TS x)%Z).
    { unfold change_le in Hle. rewrite compare_changes_split, (proj2 (compare_scope_eq c x)) in Hle by (by apply Hk).
      simpl in Hle. by apply Z.compare_le_iff in Hle. }
    split; [done|]. intros Mc Mx. destruct (decide (sc_TS c = sc_TS x)); [|left; lia]. right. apply Hd; auto.
Qed.

Lemma watched_scoped l k t : watched l k t <-> latest (scoped k (stable_sort change_le l)) t.
Proof.
  unfold watched, latest. setoid_rewrite elem_of_scoped. setoid_rewrite stable_sort_Permutation.
  assert (forall c, in_scope_of k c <-> change_key c = k) as Hk.
  { intros c. unfold in_scope_of, change_key. destruct k. simpl. split; [by intros (-> & -> & ->)|by intros [= -> -> ->]]. }
  setoid_rewrite Hk. split.
  - intros (c & H1 & H2 & H3 & H4 & H5). exists c. split_and!; [done..|]. intros c' [? ?] ? ?. by apply H5.
  - intros (c & [H1 H2] & H3 & H4 & H5). exists c. split_and!; [done..|]. intros c' ? ? ? ?. by apply H5.
Qed.

Lemma coverage_watched changes k t :
  distinct_marks changes -> covered (CoverageOf changes None None) k t <-> watched changes k t.
Proof.
  intros Hd. rewrite watched_scoped. set (l := scoped k (stable_sort change_le changes)).
  assert (Hp : paired l (foldl pair_step ([], None) l)).
  { apply scoped_paired.
    - apply StronglySorted_scoped, (stable_sort_sorted change_le).
    - intros a b [_ Ha]%elem_of_scoped [_ Hb]%elem_of_scoped. apply sameScope_key. congruence.
    - intros a b [Ha _]%elem_of_scoped [Hb _]%elem_of_scoped. rewrite stable_sort_Permutation in Ha, Hb. by apply Hd. }
  rewrite <-(pd_watch _ _ Hp), <-pairScope_steps. unfold covered. setoid_rewrite elem_of_CoverageOf.
  assert (Hk : forall i, interval_of k i <-> interval_key i = k).
  { intros i. unfold interval_of, interval_key. destruct k. simpl. split; [by intros (-> & -> & ->)|by intros [= -> -> ->]]. }
  setoid_rewrite Hk. split.
  - intros (i & [_ Hi] & E & Hc). rewrite E in Hi. eauto.
  - intros (i & Hi & Hc). pose proof Hi as Hi'. rewrite pairScope_steps in Hi'.
    apply pair_steps_scope in Hi' as (c & [_ Hck]%elem_of_scoped & E). rewrite Hck in E.
    exists i. by rewrite E.
Qed.

(** ** The log the recorder writes *)

Definition action_text (a : ScopeAction) : string :=
  match a with ScopeActionStarted => action_Started | ScopeActionStopped => action_Stopped end.

(** A row as a sink's reader returns it. *)
Definition change_of (e : pendingScopeEvent) : ScopeChange :=
  let f := se_Scope (pe_event e) in
  mkScopeChange (sf_APIGroup f) (sf_Kind f) (sf_Namespace f) (action_text (se_Action (pe_event e)))
    (se_RuleRef (pe_event e)) (se_TS (pe_event e)).

Definition log_of (sink : ID) (rows : list pendingScopeEvent) : list ScopeChange :=
  map change_of (List.filter (fun e => bool_decide (pe_sink e = sink)) rows).

Definition rows_of (k : scopeKey) (rows : list pendingScopeEvent) : list pendingScopeEvent :=
  List.filter (fun e => bool_decide (row_key e = k)) rows.

Definition ts_lt (a b : pendingScopeEvent) : Prop := (se_TS (pe_event a) < se_TS (pe_event b))%Z.

Lemma elem_of_log sink rows k c :
  c ∈ log_of sink rows /\ in_scope_of k c <-> exists e, e ∈ rows_of (mkScopeRefKey sink k) rows /\ c = change_of e.
Proof.
  unfold log_of, rows_of. rewrite list_elem_of_fmap. setoid_rewrite list_elem_of_In. setoid_rewrite filter_In.
  setoid_rewrite bool_decide_eq_true. unfold row_key, in_scope_of. destruct k as [g kd ns]. split.
  - intros [(e & -> & He & <-) (Eg & Ek & En)]. exists e. simpl in *. by rewrite Eg, Ek, En.
  - intros (e & [He E] & ->). injection E as <- <- <- <-. simpl. naive_solver.
Qed.

Lemma marks_change e : marks (change_of e).
Proof. unfold marks. simpl. destruct (se_Action (pe_event e)); auto. Qed.

(** When rows carry increasing instants the last one is the latest. *)
Lemma watched_last sink rows k now :
  StronglySorted ts_lt (rows_of (mkScopeRefKey sink k) rows) ->
  Forall (fun e => se_TS (pe_event e) <= now)%Z rows ->
  watched (log_of sink rows) k now <->
  last (rows_at (mkScopeRefKey sink k) rows) = Some ScopeActionStarted.
Proof.
  intros Hs Hnow. unfold rows_at. fold (rows_of (mkScopeRefKey sink k) rows).
  set (R := rows_of (mkScopeRefKey sink k) rows) in *.
  assert (HR : forall e, e ∈ R -> (se_TS (pe_event e) <= now)%Z).
  { intros e He. rewrite Forall_forall in Hnow. apply Hnow. apply list_elem_of_In in He.
    apply list_elem_of_In. by apply filter_In in He as [? _]. }
  assert (Hlog : forall c, c ∈ log_of sink rows /\ in_scope_of k c <-> exists e, e ∈ R /\ c = change_of e)
    by apply elem_of_log.
  assert (Hw : watched (log_of sink rows) k now <->
    exists e, e ∈ R /\ se_Action (pe_event e) = ScopeActionStarted /\ forall e', e' ∈ R -> (se_TS (pe_event e') <= se_TS (pe_event e))%Z).
  { split.
    - intros (c & Hc & Hk & Ha & Ht & Hall). destruct (proj1 (Hlog c) (conj Hc Hk)) as (e & He & ->).
      exists e. split; [done|]. split; [simpl in Ha; by destruct (se_Action (pe_event e))|].
      intros e' He'. destruct (proj2 (Hlog (change_of e')) ltac:(eauto)) as [Hl' Hk'].
      apply (Hall _ Hl' Hk' (marks_change e')). by apply HR.
    - intros (e & He & Ha & Hall). destruct (proj2 (Hlog (change_of e)) ltac:(eauto)) as [Hl Hk].
      exists (change_of e). split_and!; [done|done|simpl; by rewrite Ha|by apply HR|].
      intros c' Hc' Hk' _ _. destruct (proj1 (Hlog c') (conj Hc' Hk')) as (e' & He' & ->). by apply Hall. }
  rewrite Hw. destruct R as [|x R' _] using rev_ind.
  { simpl. split; [by intros (? & ?%elem_of_nil & _)|done]. }
  rewrite map_app. simpl. rewrite last_snoc. apply StronglySorted_app in Hs as (Hx & _ & _).
  assert (Hin : x ∈ R' ++ [x]) by (apply elem_of_app; right; by apply list_elem_of_singleton). split.
  - intros (e & [He|He]%elem_of_app & Ha & Hall).
    + specialize (Hx e x He ltac:(by apply list_elem_of_singleton)). specialize (Hall x Hin).
      unfold ts_lt in Hx. lia.
    + apply list_elem_of_singleton in He as ->. by rewrite Ha.
  - intros [= Ha]. exists x. split_and!; [done..|]. intros e' [He'|He']%elem_of_app.
    + specialize (Hx e' x He' ltac:(by apply list_elem_of_singleton)). unfold ts_lt in Hx. lia.
    + apply list_elem_of_singleton in He' as ->. lia.
Qed.

(** ** Properties *)

(** coverage is what the log says. Given the rows of a scope log in any order, with
    any repetitions, stray Stoppeds and unknown actions, over any number of scopes: as
    long as no Started and Stopped of one scope carry the same instant, an instant is
    inside an interval of a scope exactly when the scope's latest mark up to it is a
    Started; and a window keeps exactly the intervals that overlap it, whole. *)
Theorem coverage_is_watching changes k t from to :
  distinct_marks changes ->
  (covered (CoverageOf changes None None) k t <-> watched changes k t) /\
  (forall i, i ∈ CoverageOf changes from to <->
     i ∈ CoverageOf changes None None /\ overlapsWindow i from to = true).
Proof.
  intros Hd. split; [by apply coverage_watched|]. intros i. rewrite !elem_of_CoverageOf.
  assert (overlapsWindow i None None = true) as -> by (by destruct i as [????? []]). tauto.
Qed.

(** the scope log tells who is watched. Take any run of the recorder in which the
    rows of each scope carry increasing instants, and what a sink was handed, read back
    in any order: the coverage computed from it contains the present instant exactly
    for the scopes some interest of that sink still holds. *)
Theorem coverage_agrees_with_recorder c ops sink k now log :
  let rows := spec_rows c (fun _ => ∅) ops in
  (forall key, StronglySorted ts_lt (rows_of key rows)) ->
  Forall (fun e => se_TS (pe_event e) <= now)%Z rows -> log ≡ₚ log_of sink rows ->
  covered (CoverageOf log None None) k now <-> held_after ops (mkScopeRefKey sink k) <> ∅.
Proof.
  intros rows Hinc Hnow Hlog. destruct (epochs_spec c ops (mkScopeRefKey sink k)) as [_ Hl]. fold rows in Hl.
  rewrite <-Hl, <-watched_last by done. rewrite coverage_watched.
  - unfold watched. setoid_rewrite Hlog. done.
  - intros a b Ha Hb Hsame _ _ E. rewrite Hlog in Ha, Hb.
    set (kk := change_key a). assert (Hka : in_scope_of kk a) by done.
    assert (Hkb : in_scope_of kk b).
    { apply sameScope_key in Hsame. unfold kk. rewrite Hsame. done. }
    destruct (proj1 (elem_of_log sink rows kk a) (conj Ha Hka)) as (ea & Hea & ->).
    destruct (proj1 (elem_of_log sink rows kk b) (conj Hb Hkb)) as (eb & Heb & ->).
    assert (ea = eb) as ->; [|done]. specialize (Hinc (mkScopeRefKey sink kk)). simpl in E.
    clear -Hinc Hea Heb E. induction Hinc as [|x R _ IH Hf]; [by apply elem_of_nil in Hea|].
    rewrite Forall_forall in Hf. unfold ts_lt in Hf.
    apply elem_of_cons in Hea as [->|Hea]; apply elem_of_cons in Heb as [->|Heb]; auto.
    + specialize (Hf eb Heb). lia.
    + specialize (Hf ea Hea). lia.
Qed.

(** One pass can make the log ambiguous. A pass stamps all its edges with one
    instant, so a rule that moves to another API version in one edit closes and reopens
    its scope at the same instant. Of two orders in which such a log may be read back,
    one reports the scope as no longer watched although its interest holds it. *)
Theorem coverage_ambiguous_within_pass :
  let v1 := sample_transition "main" "v1" 1 in
  let ops := [RStarted v1; RStopped (sample_transition "main" "v1" 5); RStarted (sample_transition "main" "v2" 5)] in
  let sink := st_Sink v1 in
  exists a b d, log_of sink (spec_rows "c" (fun _ => ∅) ops) = [a; b; d] /\ sc_TS b = sc_TS d /\
    held_after ops (transition_key v1) <> ∅ /\
    covered (CoverageOf [a; b; d] None None) (st_Scope v1) 9 /\
    ~ covered (CoverageOf [a; d; b] None None) (st_Scope v1) 9.
Proof.
  do 3 eexists. split; [vm_compute; reflexivity|]. split; [reflexivity|]. split; [vm_compute; discriminate|]. split.
  - eexists. split; [vm_compute; right; left|]. split; [split_and!; reflexivity|]. split; [simpl; lia|exact I].
  - intros (i & Hi & _ & Hc). vm_compute in Hi. apply list_elem_of_singleton in Hi as ->.
    destruct Hc as [_ Hc]. simpl in Hc. lia.
Qed.

(** ** Evaluation *)

Definition sample_ops : list recorder_op :=
  [RStarted (sample_transition "main" "v1" 1); RStopped (sample_transition "main" "v1" 5);
   RStarted (sample_transition "main" "v2" 7)].

Definition sample_log : list ScopeChange :=
  log_of (mkID "ClickHouseSink" "main") (spec_rows "c" (fun _ => ∅) sample_ops).

Definition web_deployments : ScopeKey := mkScopeKey "apps" "Deployment" "web".

Lemma coverage_is_watching_witness :
  distinct_marks (rev sample_log) /\ ~ covered (CoverageOf (rev sample_log) None None) web_deployments 6.
Proof.
  assert (Hd : distinct_marks (rev sample_log)).
  { intros c c' Hc Hc'. vm_compute in Hc, Hc'.
    repeat (apply elem_of_cons in Hc as [->|Hc]); repeat (apply elem_of_cons in Hc' as [->|Hc']);
      try (by apply elem_of_nil in Hc); try (by apply elem_of_nil in Hc');
      intros _ _ _ E; try reflexivity; discriminate E. }
  split; [exact Hd|]. rewrite (proj1 (coverage_is_watching (rev sample_log) web_deployments 6 None None Hd)).
  intros (c & Hc & _ & Ha & Ht & Hall). specialize (Hall (mkScopeChange "apps" "Deployment" "web" action_Stopped "rule" 5)).
  assert (5 <= sc_TS c)%Z.
  { apply Hall; [vm_compute; right; left|repeat split|by right|simpl; lia]. }
  vm_compute in Hc. repeat (apply elem_of_cons in Hc as [->|Hc]); [..|by apply elem_of_nil in Hc];
    simpl in *; first [lia|discriminate Ha].
Defined.

Lemma coverage_agrees_with_recorder_witness :
  covered (CoverageOf sample_log None None) web_deployments 9.
Proof.
  apply (coverage_agrees_with_recorder "c" sample_ops (mkID "ClickHouseSink" "main") web_deployments 9).
  - intros key. assert (E : spec_rows "c" (fun _ => ∅) sample_ops =
      map (fun p => mkPending (mkID "ClickHouseSink" "main") (mkScopeEvent p.1 (mkScopeFilter "c" "apps" "Deployment" "web") "v1" "rule" p.2))
        [(ScopeActionStarted, 1%Z); (ScopeActionStopped, 5%Z); (ScopeActionStarted, 7%Z)]) by (vm_compute; reflexivity).
    rewrite E. unfold rows_of, row_key. simpl. case_bool_decide; [|constructor].
    constructor; [constructor; [constructor; [constructor|]|]|]; repeat (constructor; [reflexivity|]); constructor.
  - apply Forall_forall. intros e He. vm_compute in He.
    repeat (apply elem_of_cons in He as [->|He]); [..|by apply elem_of_nil in He]; simpl; lia.
  - reflexivity.
  - vm_compute. discriminate.
Defined.
