(* ===== verification/Incarnations.v ===== *)
(** * Incarnations: classifying a scope's recorded history

    Models the pure half of [src/internal/pipeline/warm.go]: scope references,
    grouping of the per-incarnation history by identity, the choice of the current
    incarnation, the index the close-out recovery reads, and the Deleted row that
    closes a prior incarnation. *)

From S2P Require Import Prelude Identity SinkTypes.

(** ** Scope references *)

Record scopeRef := mkScopeRef { sr_sink : ID; sr_scope : ScopeKey }.

#[export] Instance scopeRef_eq_dec : EqDecision scopeRef.
Proof. solve_decision. Defined.
#[export] Instance scopeRef_countable : Countable scopeRef.
Proof.
  apply (inj_countable' (fun r => (sr_sink r, sr_scope r)) (fun p => mkScopeRef p.1 p.2)). by intros [].
Defined.

Definition scopeRef_key (r : scopeRef) (namespace name : string) : Key :=
  mkKey (sr_sink r) (sk_Group (sr_scope r)) (sk_Kind (sr_scope r)) namespace name.

Definition scopeRef_filter (r : scopeRef) (clusterID : string) : ScopeFilter :=
  mkScopeFilter clusterID (sk_Group (sr_scope r)) (sk_Kind (sr_scope r)) (sk_Namespace (sr_scope r)).

(** ** Targets and incarnations *)

Record identity := mkIdentity { id_namespace : string; id_name : string }.

#[export] Instance identity_eq_dec : EqDecision identity.
Proof. solve_decision. Defined.
#[export] Instance identity_countable : Countable identity.
Proof.
  apply (inj_countable' (fun i => (id_namespace i, id_name i)) (fun p => mkIdentity p.1 p.2)). by intros [].
Defined.

Record gcTarget := mkGCTarget { gt_namespace : string; gt_name : string; gt_uid : string }.

#[export] Instance gcTarget_eq_dec : EqDecision gcTarget.
Proof. solve_decision. Defined.
#[export] Instance gcTarget_countable : Countable gcTarget.
Proof.
  apply (inj_countable' (fun t => (gt_namespace t, gt_name t, gt_uid t))
           (fun p => mkGCTarget p.1.1 p.1.2 p.2)). by intros [].
Defined.

Record reincarnation := mkReincarnation {
  rn_namespace : string;
  rn_name : string;
  rn_uid : string;
  rn_apiVersion : string;
  rn_ts : Z;
}.

(** Every field comes from history; nothing is sampled from the process. *)
Definition closeOutRecord (r : reincarnation) (clusterID : string) (key : Key) : Record_ :=
  mkRecord (rn_ts r) clusterID "Deleted" (k_Group key) (rn_apiVersion r) (k_Kind key)
    (k_Namespace key) (k_Name key) (rn_uid r) "" ∅ [] "" "" "".

(** ** Grouping *)

Definition identity_of (s : KnownState) : identity := mkIdentity (ks_Namespace s) (ks_Name s).

(** The loop: [groups] maps an identity to its bucket of [out]. *)
Fixpoint group_loop (states : list KnownState) (groups : gmap identity nat)
    (out : list (list KnownState)) : list (list KnownState) :=
  match states with
  | [] => out
  | state :: rest =>
      let id := identity_of state in
      match groups !! id with
      | Some idx => group_loop rest groups (<[idx := default [] (out !! idx) ++ [state]]> out)
      | None => group_loop rest (<[id := length out]> groups) (out ++ [[state]])
      end
  end.

Definition groupByIdentity (states : list KnownState) : list (list KnownState) :=
  group_loop states ∅ [].

(** ** The current incarnation *)

(** [state.TS.After(current.TS) || (state.TS.Equal(current.TS) && state.UID > current.UID)]. *)
Definition newer (state current : KnownState) : bool :=
  bool_decide (ks_TS current < ks_TS state)%Z ||
  (bool_decide (ks_TS state = ks_TS current) &&
   negb (bool_decide (String.le (ks_UID state) (ks_UID current)))).

Definition newest (current : KnownState) (rest : list KnownState) : KnownState :=
  foldl (fun current state => if newer state current then state else current) current rest.

(** [None] is the panic on an empty group. *)
Definition splitIncarnations (group : list KnownState) : option (KnownState * list KnownState) :=
  match group with
  | [] => None
  | first :: rest =>
      let current := newest first rest in
      Some (current, filter (fun state => ks_UID state <> ks_UID current) group)
  end.

(** The two lookups of the recovery pass: open incarnations by identity and UID,
    and the current UID of each identity. *)
Definition indexIncarnations (states : list KnownState)
    : gmap gcTarget KnownState * gmap identity string :=
  foldl (fun '(rows, current) group =>
    match splitIncarnations group with
    | None => (rows, current)
    | Some (newest, _) =>
        (foldl (fun rows state =>
           <[mkGCTarget (ks_Namespace state) (ks_Name state) (ks_UID state) := state]> rows) rows group,
         <[identity_of newest := ks_UID newest]> current)
    end) (∅, ∅) (groupByIdentity states).

(** ** The reference grouping *)

(** Identities in the order they are first seen. *)
Definition first_seen (states : list KnownState) : list identity :=
  foldl (fun ids s => if decide (identity_of s ∈ ids) then ids else ids ++ [identity_of s]) [] states.

Definition rows_of (states : list KnownState) (id : identity) : list KnownState :=
  filter (fun s => identity_of s = id) states.

Lemma first_seen_app states s :
  first_seen (states ++ [s]) =
  if decide (identity_of s ∈ first_seen states) then first_seen states
  else first_seen states ++ [identity_of s].
Proof. unfold first_seen. by rewrite foldl_app. Qed.

Lemma elem_of_first_seen states id : id ∈ first_seen states <-> exists s, s ∈ states /\ identity_of s = id.
Proof.
  induction states as [|s states IH] using rev_ind.
  - unfold first_seen. simpl. setoid_rewrite elem_of_nil. naive_solver.
  - rewrite first_seen_app. setoid_rewrite elem_of_app. setoid_rewrite list_elem_of_singleton.
    case_decide as Hd; [naive_solver|]. rewrite elem_of_app, list_elem_of_singleton. naive_solver.
Qed.

Lemma NoDup_first_seen states : NoDup (first_seen states).
Proof.
  induction states as [|s states IH] using rev_ind; [constructor|].
  rewrite first_seen_app. case_decide; [done|]. apply NoDup_app. split_and!; [done| |apply NoDup_singleton].
  intros id Hid ->%list_elem_of_singleton. done.
Qed.

Lemma rows_of_app states s id :
  rows_of (states ++ [s]) id = rows_of states id ++ (if decide (identity_of s = id) then [s] else []).
Proof. unfold rows_of. rewrite filter_app. f_equal. Qed.

Lemma group_loop_spec states pre groups out :
  (forall id i, groups !! id = Some i <-> first_seen pre !! i = Some id) ->
  out = map (rows_of pre) (first_seen pre) ->
  group_loop states groups out = map (rows_of (pre ++ states)) (first_seen (pre ++ states)).
Proof.
  revert pre groups out. induction states as [|s states IH]; intros pre groups out Hg ->; simpl.
  { by rewrite app_nil_r. }
  assert (Hpre : pre ++ s :: states = (pre ++ [s]) ++ states) by by rewrite <-app_assoc.
  rewrite Hpre. destruct (groups !! identity_of s) as [i|] eqn:Ei.
  - apply IH.
    + intros id j. rewrite first_seen_app, decide_True; [apply Hg|].
      apply Hg in Ei. by eapply list_elem_of_lookup_2.
    + apply Hg in Ei. rewrite first_seen_app, decide_True by (by eapply list_elem_of_lookup_2).
      apply list_eq. intros j. rewrite !list_lookup_fmap.
      destruct (decide (i = j)) as [<-|Hne].
      * rewrite list_lookup_insert_eq by (rewrite length_map; by eapply lookup_lt_Some).
        rewrite Ei. simpl. by rewrite rows_of_app, decide_True.
      * rewrite list_lookup_insert_ne, list_lookup_fmap by done.
        destruct (first_seen pre !! j) as [id|] eqn:Ej; [|done]. simpl. f_equal.
        rewrite rows_of_app, decide_False, app_nil_r; [done|]. intros Hid. apply Hne.
        eapply NoDup_lookup; [apply NoDup_first_seen|exact Ei|]. by rewrite Hid.
  - assert (Hn : identity_of s ∉ first_seen pre).
    { intros [i Hi]%list_elem_of_lookup. apply Hg in Hi. congruence. }
    apply IH.
    + intros id j. rewrite first_seen_app, decide_False by done. rewrite lookup_insert_Some, length_map.
      rewrite lookup_app_Some, list_lookup_singleton_Some. rewrite Hg. split.
      * intros [[<- <-]|[Hne Hj]]; [right|by left]. split; [lia|]. split; [lia|done].
      * intros [Hj|(Hge & Hj & <-)]; [right|left]; [|split; [done|lia]].
        split; [|done]. intros <-. apply Hn. by eapply list_elem_of_lookup_2.
    + rewrite first_seen_app, decide_False, map_app by done. simpl. f_equal.
      * apply map_ext_in. intros id Hid%list_elem_of_In. rewrite rows_of_app, decide_False, app_nil_r; [done|].
        by intros <-.
      * f_equal. rewrite rows_of_app, decide_True by done.
        assert (rows_of pre (identity_of s) = []) as ->; [|done].
        unfold rows_of. destruct (filter _ pre) as [|x l] eqn:Ef; [done|]. exfalso.
        assert (x ∈ filter (fun s' => identity_of s' = identity_of s) pre) as Hx by (rewrite Ef; by left).
        apply list_elem_of_filter in Hx as [Hid Hx]. apply Hn, elem_of_first_seen. eauto.
Qed.

Lemma groupByIdentity_spec states :
  groupByIdentity states = map (rows_of states) (first_seen states).
Proof. apply (group_loop_spec states []); [|done]. intros id i. by rewrite lookup_empty. Qed.

(** ** The newest incarnation *)

(** [older_eq s c]: [s] is not newer than [c]. *)
Definition older_eq (s c : KnownState) : Prop :=
  (ks_TS s < ks_TS c)%Z \/ ks_TS s = ks_TS c /\ String.le (ks_UID s) (ks_UID c).

#[export] Instance older_eq_preorder : PreOrder older_eq.
Proof.
  split.
  - intros s. by right.
  - intros a b c [H1|[E1 L1]] [H2|[E2 L2]]; [left; lia..|]. right. split; [congruence|]. by etransitivity.
Qed.

Lemma newer_spec s c : newer s c = false <-> older_eq s c.
Proof.
  unfold newer, older_eq. destruct (Z.lt_trichotomy (ks_TS s) (ks_TS c)) as [Hlt|[Heq|Hgt]].
  - rewrite !bool_decide_false by lia. simpl. tauto.
  - rewrite (bool_decide_false (ks_TS c < ks_TS s)%Z), (bool_decide_true (ks_TS s = ks_TS c)) by lia.
    simpl. rewrite negb_false_iff, bool_decide_eq_true.
    split; [by right|]. intros [?|[_ ?]]; [lia|done].
  - rewrite bool_decide_true by lia. simpl. split; [done|]. intros [?|[? _]]; lia.
Qed.

Lemma newer_older s c : newer s c = true -> older_eq c s.
Proof.
  unfold newer, older_eq. rewrite orb_true_iff, andb_true_iff, negb_true_iff, !bool_decide_eq_true,
    bool_decide_eq_false. intros [?|[-> Hn]]; [by left|]. right. split; [done|].
  by destruct (total String.le (ks_UID s) (ks_UID c)).
Qed.

Lemma newest_spec first rest :
  newest first rest ∈ first :: rest /\ forall s, s ∈ first :: rest -> older_eq s (newest first rest).
Proof.
  revert first. induction rest as [|s rest IH]; intros first; unfold newest; simpl.
  - split; [by left|]. intros s ->%list_elem_of_singleton. done.
  - fold (newest (if newer s first then s else first) rest).
    destruct (IH (if newer s first then s else first)) as [Hin Hmax]. split.
    + destruct (newer s first); set_solver.
    + assert (Hf : older_eq first (if newer s first then s else first) /\
                   older_eq s (if newer s first then s else first)).
      { destruct (newer s first) eqn:E; [by split; [apply newer_older|]|by split; [|apply newer_spec]]. }
      destruct Hf as [Hf Hs]. intros u [->|[->|Hu]%elem_of_cons]%elem_of_cons.
      * etransitivity; [exact Hf|]. apply Hmax. by left.
      * etransitivity; [exact Hs|]. apply Hmax. by left.
      * apply Hmax. by right.
Qed.

(** ** Properties *)

(** The classification of a scope's history. Grouping returns the reference
    grouping: one bucket per identity, in the order identities are first seen, each
    holding exactly that identity's rows in their order. In a bucket the current
    incarnation is the one with the greatest timestamp, ties broken by the greater
    UID; the unclosed priors are exactly the rows of other UIDs, none dated after
    it - so a close-out dated from history never sorts after its successor's last
    row. When UIDs and timestamps identify the rows, the result does not depend on
    the order the sink returned them in. *)
Theorem incarnations_classified states group group' :
  groupByIdentity states = map (rows_of states) (first_seen states) /\
  (group <> [] -> exists current unclosed, splitIncarnations group = Some (current, unclosed) /\
     current ∈ group /\ (forall s, s ∈ group -> older_eq s current) /\
     (forall s, s ∈ unclosed <-> s ∈ group /\ ks_UID s <> ks_UID current) /\
     (forall s, s ∈ unclosed -> (ks_TS s <= ks_TS current)%Z) /\
     (group ≡ₚ group' ->
      (forall s1 s2, s1 ∈ group -> s2 ∈ group -> ks_TS s1 = ks_TS s2 -> ks_UID s1 = ks_UID s2 -> s1 = s2) ->
      exists unclosed', splitIncarnations group' = Some (current, unclosed') /\ unclosed ≡ₚ unclosed')).
Proof.
  split; [apply groupByIdentity_spec|]. intros Hne. destruct group as [|first rest]; [done|].
  destruct (newest_spec first rest) as [Hin Hmax]. eexists _, _. split; [done|].
  split; [done|]. split; [done|].
  assert (Hun : forall s, s ∈ filter (fun state => ks_UID state <> ks_UID (newest first rest)) (first :: rest) <->
    s ∈ first :: rest /\ ks_UID s <> ks_UID (newest first rest)).
  { intros s. rewrite list_elem_of_filter. tauto. }
  split; [done|]. split.
  { intros s [Hs _]%Hun. destruct (Hmax s Hs) as [?|[? _]]; lia. }
  intros Hperm Hid. destruct group' as [|first' rest'].
  { by apply Permutation_nil_r in Hperm. }
  destruct (newest_spec first' rest') as [Hin' Hmax']. simpl.
  assert (newest first' rest' = newest first rest) as ->.
  { rewrite <-Hperm in Hin'. setoid_rewrite <-Hperm in Hmax'.
    specialize (Hmax _ Hin'). specialize (Hmax' _ Hin). symmetry.
    destruct Hmax as [?|[E1 L1]], Hmax' as [?|[E2 L2]]; try lia.
    apply Hid; [done|done|done|]. by apply (anti_symm String.le). }
  eexists. split; [done|]. by rewrite Hperm.
Qed.

Lemma incarnations_classified_witness :
  let old := mkKnownState "ns" "cm" "u1" "h1" "v1" 5 in
  let new := mkKnownState "ns" "cm" "u2" "h2" "v1" 9 in
  exists unclosed unclosed', splitIncarnations [old; new] = Some (new, unclosed) /\
    splitIncarnations [new; old] = Some (new, unclosed') /\ unclosed ≡ₚ unclosed'.
Proof.
  intros old new.
  destruct (proj2 (incarnations_classified [old; new] [old; new] [new; old]))
    as (current & unclosed & Hs & _ & _ & _ & _ & Hperm); [discriminate|].
  destruct Hperm as (unclosed' & Hs' & Hp).
  - apply perm_swap.
  - intros s1 s2 [->|[->|[]%elem_of_nil]%elem_of_cons]%elem_of_cons
      [->|[->|[]%elem_of_nil]%elem_of_cons]%elem_of_cons; simpl; congruence.
  - exists unclosed, unclosed'. vm_compute in Hs, Hs'. injection Hs as <- <-. injection Hs' as <-.
    split; [reflexivity|]. split; [reflexivity|exact Hp].
Defined.
