(* ===== verification/Diff.v ===== *)
(** * Diff: the patch a row carries, and when it is accompanied by full state

    Models the diff half of [src/internal/pipeline/process.go]:
    [hasEmptyInteriorToken], [ComputeDiff], [checkpointEveryFor] and
    [checkpointDue]. The patch producer (wI2L/jsondiff) is third-party: the class
    [JsonDiff] carries its comparison and the rendering of its patch. *)

From S2P Require Import Prelude.

(** ** JSON Pointers *)

Definition hasEmptyInteriorToken (pointer : string) : bool :=
  let tokens := split_on "/"%char pointer in
  if Nat.ltb (length tokens) 3 then false
  else existsb (fun t => bool_decide (t = "")) (removelast (tail tokens)).

(** ** The patch producer *)

Record Operation := mkOperation {
  op_Type : string;
  op_Path : string;
  op_From : string;
  op_Value : string;
}.

Class JsonDiff := {
  CompareJSON : string -> string -> result string (list Operation);
  marshal_patch : list Operation -> option string;
}.

Inductive diffError :=
| errCompare (reason : string)
| errEmptyInteriorToken (op : Operation)
| errMarshalPatch.

Definition is_refusal (e : diffError) : bool :=
  match e with errEmptyInteriorToken _ => true | _ => false end.

Definition refused_op (op : Operation) : bool :=
  hasEmptyInteriorToken (op_Path op) || hasEmptyInteriorToken (op_From op).

Definition ComputeDiff `{JsonDiff} (before after : string) : result diffError string :=
  match CompareJSON before after with
  | Err reason => Err (errCompare reason)
  | Ok patch =>
      match List.find refused_op patch with
      | Some op => Err (errEmptyInteriorToken op)
      | None =>
          match marshal_patch patch with
          | Some bytes => Ok bytes
          | None => Err errMarshalPatch
          end
      end
  end.

(** ** Checkpoints *)

(** A writer's optional checkpoint policy. *)
Definition checkpointEveryFor (policy : option Z) : Z := default 0%Z policy.

Inductive checkpointReason := checkpointReasonCount | checkpointReasonSize.

Definition checkpointDue (every modifiedRun : Z) (diffBytes fullJSON : string)
    : option checkpointReason :=
  if decide (every <= 0)%Z then None
  else if decide (modifiedRun >= every)%Z then Some checkpointReasonCount
  else if decide (String.length fullJSON < String.length diffBytes) then Some checkpointReasonSize
  else None.

(** ** Pointers as token lists *)

(** RFC 6901: a pointer is a sequence of tokens, each preceded by a slash. *)
Fixpoint pointer_of (tokens : list string) : string :=
  match tokens with
  | [] => ""
  | t :: rest => "/" +:+ t +:+ pointer_of rest
  end.

Lemma split_pointer tokens :
  Forall (fun t => string_mem "/"%char t = false) tokens ->
  split_on "/"%char (pointer_of tokens) = "" :: tokens.
Proof.
  assert (Hgen : forall t ts, string_mem "/"%char t = false ->
             Forall (fun t => string_mem "/"%char t = false) ts ->
             split_on "/"%char (t +:+ pointer_of ts) = t :: ts).
  { intros t ts Ht Hts. revert t Ht. induction Hts as [|u ts Hu _ IH]; intros t Ht.
    - simpl. rewrite string_app_nil_r. by apply split_on_none.
    - change (t +:+ pointer_of (u :: ts)) with (t +:+ String "/" (u +:+ pointer_of ts)).
      rewrite (split_on_app _ _ _ Ht). f_equal. by apply IH. }
  intros Hts. exact (Hgen "" tokens eq_refl Hts).
Qed.

(** ** Properties *)

(** No recorded patch walks through an empty key. A pointer is refused
    exactly when a token other than its last is empty, and whenever [ComputeDiff]
    returns a patch every operation of it is addressed - target and source -
    without such a token. *)
Theorem compute_diff_refuses_empty_interior `{JsonDiff} before after bytes :
  (forall tokens, Forall (fun t => string_mem "/"%char t = false) tokens ->
     hasEmptyInteriorToken (pointer_of tokens) = true <-> "" ∈ removelast tokens) /\
  (ComputeDiff before after = Ok bytes ->
   exists patch, CompareJSON before after = Ok patch /\ marshal_patch patch = Some bytes /\
     forall op, op ∈ patch -> hasEmptyInteriorToken (op_Path op) = false /\
                              hasEmptyInteriorToken (op_From op) = false).
Proof.
  split.
  - intros tokens Hts. unfold hasEmptyInteriorToken. rewrite (split_pointer _ Hts). simpl tail.
    assert (Hex : existsb (fun t => bool_decide (t = "")) (removelast tokens) = true <->
                  "" ∈ removelast tokens).
    { rewrite existsb_exists, list_elem_of_In. split.
      - intros (x & Hx & ->%bool_decide_eq_true). done.
      - intros Hx. exists "". by rewrite bool_decide_eq_true. }
    case_match eqn:Hl; [|done]. apply Nat.ltb_lt in Hl.
    destruct tokens as [|a [|b tokens]]; simpl in *; [..|lia].
    all: split; [done|]; by intros ?%elem_of_nil.
  - unfold ComputeDiff. destruct (CompareJSON before after) as [patch|]; [|done].
    destruct (List.find refused_op patch) eqn:Hf; [done|].
    destruct (marshal_patch patch) eqn:Hm; [|done]. intros [= <-]. exists patch. split_and!; [done..|].
    intros op Hop. apply list_elem_of_In in Hop.
    pose proof (List.find_none _ _ Hf op Hop) as Hr. by apply orb_false_iff in Hr.
Qed.
