(* ===== verification/QueryFilter.v ===== *)
(** * QueryFilter: the predicates of a timeline query

    Models [src/internal/query/filter.go] and the [Change] of
    [src/internal/query/types.go]. The decoding of a stored patch into its pointers is
    [encoding/json]'s, the class [PatchPaths]. *)

From S2P Require Import Prelude Diff.

(** [query.Change]: one recorded change, as an engine returns it. *)
Record Change := mkChange {
  ch_TS : Z;
  ch_EventType : string;
  ch_Actors : list string;
  ch_UID : string;
  ch_ResourceVersion : string;
  ch_APIVersion : string;
  ch_Data : string;
  ch_Diff : string;
  ch_SHA256 : string;
  ch_Labels : gmap string string;
}.

#[export] Instance Change_eq_dec : EqDecision Change.
Proof. solve_decision. Defined.

Class PatchPaths := {
  (** [json.Unmarshal] into a [[]patchOp], the pointers only *)
  patch_paths : string -> option (list string);
}.

Definition held (c : Change) (names : list string) : bool :=
  existsb (fun a => bool_decide (a ∈ names)) (ch_Actors c).

Definition MatchesActors (c : Change) (include exclude : list string) : bool :=
  if bool_decide (0 < length include) && negb (held c include) then false else negb (held c exclude).

(** [strings.TrimPrefix(s, "/")]. *)
Definition trim_slash (s : string) : string :=
  match s with String a rest => if bool_decide (a = "/"%char) then rest else s | EmptyString => s end.

(** [strings.ReplaceAll(s, old, new)] for a two-byte [old]. *)
Fixpoint replace_pair (a b : Ascii.ascii) (new : string) (s : string) : string :=
  match s with
  | String x ((String y rest) as tl) =>
      if bool_decide (x = a) && bool_decide (y = b) then new +:+ replace_pair a b new rest
      else String x (replace_pair a b new tl)
  | _ => s
  end.

Definition unescape (segment : string) : string :=
  replace_pair "~"%char "0"%char "~" (replace_pair "~"%char "1"%char "/" segment).

Definition dottedPath (pointer : string) : string :=
  join "." (map unescape (split_on "/"%char (trim_slash pointer))).

Definition MatchesFieldPath (pointer : string) (paths : list string) : bool :=
  if bool_decide (length paths = 0) then true
  else
    let dotted := dottedPath pointer in
    existsb (fun want => bool_decide (dotted = want) || has_prefix dotted (want +:+ ".")) paths.

Definition MatchesFieldPaths `{PatchPaths} (c : Change) (paths : list string) : bool :=
  if bool_decide (length paths = 0) || bool_decide (ch_Diff c = "") then true
  else match patch_paths (ch_Diff c) with
       | None => true
       | Some ops => existsb (fun path => MatchesFieldPath path paths) ops
       end.

(** ** Pointers and what they address *)

(** RFC 6901: [~] and [/] inside a token. *)
Fixpoint escape (token : string) : string :=
  match token with
  | EmptyString => EmptyString
  | String c rest =>
      if bool_decide (c = "~"%char) then String "~" (String "0" (escape rest))
      else if bool_decide (c = "/"%char) then String "~" (String "1" (escape rest))
      else String c (escape rest)
  end.

(** Only the tilde escaped. *)
Fixpoint escape_tilde (token : string) : string :=
  match token with
  | EmptyString => EmptyString
  | String c rest =>
      if bool_decide (c = "~"%char) then String "~" (String "0" (escape_tilde rest)) else String c (escape_tilde rest)
  end.

(** The first character of an escaped text is never a digit that completes an escape
    begun before it, since a tilde is always followed by its own. *)
Lemma replace_pair_plain a b new c s :
  c <> a -> replace_pair a b new (String c s) = String c (replace_pair a b new s).
Proof. intros Hc. destruct s as [|y rest]; simpl; [done|]. by rewrite bool_decide_eq_false_2. Qed.

Lemma replace_pair_other a b c new s :
  b <> c -> c <> a -> replace_pair a b new (String a (String c s)) = String a (String c (replace_pair a b new s)).
Proof.
  intros Hb Hc. rewrite <-(replace_pair_plain a b new c s Hc).
  change (replace_pair a b new (String a (String c s))) with
    (if bool_decide (a = a) && bool_decide (c = b) then new +:+ replace_pair a b new s
     else String a (replace_pair a b new (String c s))).
  rewrite (bool_decide_eq_false_2 (c = b)), andb_false_r by congruence. done.
Qed.

Lemma replace_pair_hit a b new s :
  replace_pair a b new (String a (String b s)) = new +:+ replace_pair a b new s.
Proof.
  change (replace_pair a b new (String a (String b s))) with
    (if bool_decide (a = a) && bool_decide (b = b) then new +:+ replace_pair a b new s
     else String a (replace_pair a b new (String b s))).
  rewrite (bool_decide_eq_true_2 (a = a)), (bool_decide_eq_true_2 (b = b)) by done. done.
Qed.

Lemma unescape_slashes token : replace_pair "~"%char "1"%char "/" (escape token) = escape_tilde token.
Proof.
  induction token as [|c rest IH]; [done|]. cbn [escape escape_tilde]. case_bool_decide; [|case_bool_decide as E].
  - rewrite replace_pair_other by done. by rewrite IH.
  - rewrite replace_pair_hit, IH, E. done.
  - rewrite replace_pair_plain by done. by rewrite IH.
Qed.

Lemma unescape_tildes token : replace_pair "~"%char "0"%char "~" (escape_tilde token) = token.
Proof.
  induction token as [|c rest IH]; [done|]. cbn [escape_tilde]. case_bool_decide as E.
  - rewrite replace_pair_hit, IH, E. done.
  - rewrite replace_pair_plain by done. by rewrite IH.
Qed.

Lemma unescape_escape token : unescape (escape token) = token.
Proof. unfold unescape. by rewrite unescape_slashes, unescape_tildes. Qed.

Lemma escape_no_slash token : string_mem "/"%char (escape token) = false.
Proof.
  induction token as [|c rest IH]; [done|]. cbn [escape].
  case_bool_decide; [|case_bool_decide]; cbn [string_mem]; rewrite IH; simpl; try done.
  by rewrite bool_decide_eq_false_2.
Qed.

(** The dotted form of the pointer that addresses [tokens]. *)
Lemma dotted_pointer tokens :
  tokens <> [] -> dottedPath (pointer_of (map escape tokens)) = join "." tokens.
Proof.
  intros Hne. destruct tokens as [|t rest]; [done|]. unfold dottedPath.
  assert (E : split_on "/"%char (trim_slash (pointer_of (map escape (t :: rest)))) = map escape (t :: rest)).
  { assert (Hf : Forall (fun x => string_mem "/"%char x = false) (map escape (t :: rest))).
    { apply Forall_forall. intros x Hx. apply list_elem_of_fmap in Hx as (y & -> & _). apply escape_no_slash. }
    pose proof (split_pointer _ Hf) as Hs.
    change (pointer_of (map escape (t :: rest))) with (String "/" (escape t +:+ pointer_of (map escape rest))) in *.
    cbn [trim_slash]. cbn [split_on] in Hs. rewrite bool_decide_eq_true_2 in Hs |- * by done.
    by injection Hs as Hs. }
  rewrite E, map_map. rewrite (map_ext _ id); [by rewrite map_id|]. intros x. apply unescape_escape.
Qed.

Lemma join_app_dot ws ts :
  ws <> [] -> ts <> [] -> join "." (ws ++ ts) = join "." ws +:+ "." +:+ join "." ts.
Proof.
  intros Hw Ht. induction ws as [|w [|w2 ws] IH]; [done| |].
  - simpl. destruct ts; [done|]. done.
  - change (join "." ((w :: w2 :: ws) ++ ts)) with (w +:+ "." +:+ join "." ((w2 :: ws) ++ ts)).
    rewrite IH by done. change (join "." (w :: w2 :: ws)) with (w +:+ "." +:+ join "." (w2 :: ws)).
    by rewrite !string_app_assoc.
Qed.

(** Splitting what begins with a joined path. *)
Lemma split_on_prefix ws u :
  ws <> [] -> Forall (fun w => string_mem "."%char w = false) ws ->
  split_on "."%char (join "." ws +:+ "." +:+ u) = ws ++ split_on "."%char u.
Proof.
  intros Hne Hf. induction Hf as [|w ws Hw Hf IH]; [done|]. destruct ws as [|w2 ws].
  - simpl. by apply split_on_app.
  - change (join "." (w :: w2 :: ws)) with (w +:+ String "." (join "." (w2 :: ws))).
    rewrite string_app_assoc, string_app_cons, split_on_app by done. by rewrite IH.
Qed.

(** ** Properties *)

(** A field filter selects subtrees. The pointer of a path through any keys - with
    tildes and slashes in them, escaped as RFC 6901 wants - renders as the dotted path
    of exactly those keys; and as long as the keys and the requested names carry no dot
    of their own, a requested path selects a pointer exactly when it is that path or an
    ancestor of it, never when it merely begins with the same letters. *)
Theorem field_filter_selects_subtrees tokens wants :
  tokens <> [] -> wants <> [] ->
  dottedPath (pointer_of (map escape tokens)) = join "." tokens /\
  (Forall (fun t => string_mem "."%char t = false) tokens ->
   Forall (fun w => string_mem "."%char w = false) wants ->
   MatchesFieldPath (pointer_of (map escape tokens)) [join "." wants] = true <-> wants `prefix_of` tokens).
Proof.
  intros Ht Hw. split; [by apply dotted_pointer|]. intros Ft Fw. unfold MatchesFieldPath. simpl.
  rewrite dotted_pointer, orb_false_r, orb_true_iff, bool_decide_eq_true by done. unfold has_prefix.
  pose proof (has_prefix_spec (join "." tokens) (join "." wants +:+ ".")) as Hp. unfold has_prefix in Hp. rewrite Hp. split.
  - intros [E|(u & E)].
    + exists []. rewrite app_nil_r, <-(split_on_join "."%char wants Hw Fw), <-E. symmetry. by apply split_on_join.
    + rewrite string_app_assoc in E. exists (split_on "."%char u). rewrite <-(split_on_prefix wants u Hw Fw).
      change ("." +:+ u) with (String "." u) in *. rewrite <-E. symmetry. by apply split_on_join.
  - intros [rest ->]. destruct rest as [|r rest]; [left; by rewrite app_nil_r|]. right.
    rewrite join_app_dot by done. exists (join "." (r :: rest)). by rewrite string_app_assoc.
Qed.

Lemma field_filter_selects_subtrees_witness :
  MatchesFieldPath "/metadata/annotations/a~1b" ["metadata.annotations"] = true /\
  MatchesFieldPath "/metadata/annotationsX" ["metadata.annotations"] = false.
Proof.
  split.
  - assert (E : "/metadata/annotations/a~1b" = pointer_of (map escape ["metadata"; "annotations"; "a/b"])) by reflexivity.
    rewrite E. apply (field_filter_selects_subtrees ["metadata"; "annotations"; "a/b"] ["metadata"; "annotations"]).
    + discriminate.
    + discriminate.
    + repeat constructor.
    + repeat constructor.
    + by exists ["a/b"].
  - vm_compute. reflexivity.
Defined.
