(* ===== verification/Replay.v ===== *)
(** * Replay: reconstructing an object from its recorded history

    Models [src/internal/query/replay.go], the single definition of the
    reconstruction every backend's StateAt uses. The patch consumer
    (evanphx/json-patch) is third-party: the class [JsonPatch] carries its decoder
    and its application, and [PatchLaws] what the write and the read plane rely on
    together: what was encoded can be decoded, though not into the value it was encoded
    from - an integer comes back as a float - and a patch the producer computed between
    two encoded documents, without an empty interior token, takes any text of the first
    to a text of the second. *)

From S2P Require Import Prelude GoJson Diff.

Class JsonPatch := {
  patch : Type;
  DecodePatch : string -> result string patch;
  patch_Apply : patch -> string -> result string string;
}.

Class PatchLaws `{Encoders, JsonDiff, JsonPatch} := {
  (** The document a text decodes to, of a map with members. *)
  marshal_reads : forall x text, json_marshal x = Some text -> x <> ∅ -> exists o, json_unmarshal text = Some o /\ o <> ∅;
  unmarshal_empty : json_unmarshal "" = None;
  patch_correct : forall x y before after o o' ops bytes,
    json_marshal x = Some before -> json_marshal y = Some after ->
    json_unmarshal before = Some o -> json_unmarshal after = Some o' -> o <> ∅ -> o' <> ∅ ->
    CompareJSON before after = Ok ops -> marshal_patch ops = Some bytes ->
    (forall op, op ∈ ops -> refused_op op = false) ->
    bytes <> "" /\ exists p, DecodePatch bytes = Ok p /\
      forall state, json_unmarshal state = Some o ->
        exists next, patch_Apply p state = Ok next /\ json_unmarshal next = Some o';
}.

Record ReplayRow := mkReplayRow {
  rr_TS : Z;
  rr_EventType : string;
  rr_Data : string;
  rr_Diff : string;
  rr_SHA256 : string;
}.

Record Reconstruction := mkReconstruction {
  rc_Object : object;
  rc_BaseTS : Z;
  rc_BaseEvent : string;
  rc_PatchesApplied : Z;
  rc_SHA256 : string;
}.

Inductive replayError :=
| errIndex
| errDecodePatch (ts : Z) (reason : string)
| errApplyPatch (ts : Z) (reason : string)
| errDecodeState (ts : Z).

(** The backward scan: the last of the first [n] rows carrying full state. *)
Fixpoint base_below (history : list ReplayRow) (n : nat) : option nat :=
  match n with
  | 0 => None
  | S i =>
      match history !! i with
      | Some row => if decide (rr_Data row <> "") then Some i else base_below history i
      | None => base_below history i
      end
  end.

(** [None] is the -1 return. *)
Definition BaseRow (history : list ReplayRow) : option nat := base_below history (length history).

Section replay.
Context `{Encoders, JsonPatch}.

(** The loop over the rows after the base: state, patches applied, last row. *)
Fixpoint replay_loop (rows : list ReplayRow) (state : string) (applied : Z) (last : ReplayRow)
    : result replayError (string * Z * ReplayRow) :=
  match rows with
  | [] => Ok (state, applied, last)
  | row :: rest =>
      if decide (rr_Data row <> "") then replay_loop rest (rr_Data row) applied row
      else if decide (rr_Diff row <> "") then
        match DecodePatch (rr_Diff row) with
        | Err reason => Err (errDecodePatch (rr_TS row) reason)
        | Ok p =>
            match patch_Apply p state with
            | Err reason => Err (errApplyPatch (rr_TS row) reason)
            | Ok next => replay_loop rest next (applied + 1) row
            end
        end
      else replay_loop rest state applied row
  end.

Definition Replay (history : list ReplayRow) (base : nat) : result replayError Reconstruction :=
  match history !! base with
  | None => Err errIndex
  | Some b =>
      match replay_loop (drop (S base) history) (rr_Data b) 0 b with
      | Err err => Err err
      | Ok (state, applied, last) =>
          match json_unmarshal state with
          | None => Err (errDecodeState (rr_TS last))
          | Some o => Ok (mkReconstruction o (rr_TS b) (rr_EventType b) applied (rr_SHA256 last))
          end
      end
  end.

(** ** Lemmas *)

Lemma base_below_app history row n :
  n <= length history -> base_below (history ++ [row]) n = base_below history n.
Proof.
  induction n as [|n IH]; [done|]. intros Hn. simpl. rewrite lookup_app_l, IH by lia. done.
Qed.

Lemma BaseRow_app history row :
  BaseRow (history ++ [row]) =
  if decide (rr_Data row <> "") then Some (length history) else BaseRow history.
Proof.
  unfold BaseRow. rewrite length_app, Nat.add_comm. simpl. rewrite list_lookup_middle by done.
  case_decide; [done|]. by rewrite base_below_app.
Qed.

Lemma BaseRow_Some history i :
  BaseRow history = Some i -> exists row, history !! i = Some row /\ rr_Data row <> "".
Proof.
  unfold BaseRow. generalize (length history). induction n as [|n IH]; [done|]. simpl.
  destruct (history !! n) as [row|] eqn:El; [|done]. case_decide; [|done]. intros [= <-]. eauto.
Qed.

Lemma replay_loop_app rows row state applied last :
  replay_loop (rows ++ [row]) state applied last =
  match replay_loop rows state applied last with
  | Err err => Err err
  | Ok (state', applied', last') => replay_loop [row] state' applied' last'
  end.
Proof.
  revert state applied last. induction rows as [|r rows IH]; intros state applied last; [done|].
  change ((r :: rows) ++ [row]) with (r :: (rows ++ [row])).
  cbn [replay_loop]. case_decide; [apply IH|]. case_decide; [|apply IH].
  destruct (DecodePatch (rr_Diff r)); [|done]. destruct (patch_Apply _ _); [apply IH|done].
Qed.

(** The history rebuilds [o], finishing on a row with digest [sha]. *)
Definition rebuilds (history : list ReplayRow) (o : object) (sha : string) : Prop :=
  exists i r, BaseRow history = Some i /\ Replay history i = Ok r /\ rc_Object r = o /\ rc_SHA256 r = sha.

(** A full-state row rebuilds its own object, whatever came before. *)
Lemma rebuilds_full history row o :
  rr_Data row <> "" -> json_unmarshal (rr_Data row) = Some o ->
  rebuilds (history ++ [row]) o (rr_SHA256 row).
Proof.
  intros Hd Hu. exists (length history). eexists. rewrite BaseRow_app, decide_True by done.
  split; [done|]. unfold Replay. rewrite list_lookup_middle by done.
  rewrite drop_ge by (rewrite length_app; simpl; lia). simpl. rewrite Hu. done.
Qed.

(** A diff row takes what the history rebuilds to the target of its patch. *)
Lemma rebuilds_diff `{JsonDiff, !PatchLaws} history row o sha x y before after o' :
  rebuilds history o sha -> rr_Data row = "" -> ComputeDiff before after = Ok (rr_Diff row) ->
  json_marshal x = Some before -> json_marshal y = Some after ->
  json_unmarshal before = Some o -> json_unmarshal after = Some o' -> o <> ∅ -> o' <> ∅ ->
  rebuilds (history ++ [row]) o' (rr_SHA256 row).
Proof.
  intros (i & r & Hb & Hr & <- & _) Hd Hdiff Hx Hy Hbe Haf Hno Hno'. unfold ComputeDiff in Hdiff.
  destruct (CompareJSON before after) as [ops|] eqn:Ec; [|done].
  destruct (List.find refused_op ops) eqn:Ef; [done|].
  destruct (marshal_patch ops) as [bytes|] eqn:Em; [|done]. injection Hdiff as ->.
  destruct (patch_correct _ _ _ _ _ _ _ _ Hx Hy Hbe Haf Hno Hno' Ec Em) as (Hne & p & Hp & Happly).
  { intros op Hop%list_elem_of_In. by apply (List.find_none _ _ Ef). }
  destruct (BaseRow_Some _ _ Hb) as (b & Hlb & _). pose proof (lookup_lt_Some _ _ _ Hlb) as Hlt.
  unfold Replay in Hr. rewrite Hlb in Hr.
  destruct (replay_loop (drop (S i) history) _ _ _) as [[[state applied] last]|] eqn:Eloop; [|done].
  destruct (json_unmarshal state) as [ob|] eqn:Eu; [|done]. injection Hr as <-. simpl in *.
  destruct (Happly state Eu) as (next & Hn & Hu).
  exists i. eexists. rewrite BaseRow_app, decide_False by (intros Hne'; by apply Hne').
  split; [done|]. unfold Replay. rewrite lookup_app_l, Hlb by done.
  rewrite drop_app_le, replay_loop_app, Eloop by lia. simpl.
  rewrite (decide_False (P := rr_Data row <> "")) by (intros Hne'; by apply Hne').
  rewrite decide_True, Hp, Hn by done. simpl. rewrite Hu. by split.
Qed.
End replay.
