(* ===== verification/Calendar.v ===== *)
(** * Calendar: the UTC calendar of the archive's partitions

    What the S3 writer and the archive reader use of Go's [time] package: the UTC
    hour and day an instant falls in, and the rendering of the two in the layouts
    ["2006-01-02"] and ["15"]. Instants are nanoseconds since the Unix epoch; Go's
    calendar is the proleptic Gregorian one without leap seconds, so the start of an
    hour or of a day is a multiple of its length. Also the byte-string functions of
    [strings] the key layout is built with. *)

From stdpp Require Import pretty.
From S2P Require Import Prelude.

(** ** Hours and days *)

Definition second : Z := 1000000000.
Definition hour : Z := 3600 * second.
Definition day : Z := 24 * hour.

(** [time.Date(u.Year(), u.Month(), u.Day(), u.Hour(), 0, 0, 0, time.UTC)]. *)
Definition hourStart (t : Z) : Z := (t / hour) * hour.

(** [time.Date(u.Year(), u.Month(), u.Day(), 0, 0, 0, 0, time.UTC)]. *)
Definition dayStart (t : Z) : Z := (t / day) * day.

(** ** Civil dates *)

Definition leap_adjust (doe : Z) : Z := (doe - doe / 1460 + doe / 36524 - doe / 146096) / 365.

(** Year, month and day of a day number, counted from 1970-01-01; the calendar is
    computed in eras of 400 years that begin on the first of March. *)
Definition civil_of_days (z : Z) : Z * Z * Z :=
  let z := (z + 719468)%Z in
  let era := (z / 146097)%Z in
  let doe := (z `mod` 146097)%Z in
  let yoe := leap_adjust doe in
  let doy := (doe - (365 * yoe + yoe / 4 - yoe / 100))%Z in
  let mp := ((5 * doy + 2) / 153)%Z in
  let d := (doy - (153 * mp + 2) / 5 + 1)%Z in
  let m := (if (mp <? 10)%Z then mp + 3 else mp - 9)%Z in
  ((yoe + era * 400 + (if (m <=? 2)%Z then 1 else 0))%Z, m, d).

Definition days_of_civil (date : Z * Z * Z) : Z :=
  let '(y, m, d) := date in
  let y := (if (m <=? 2)%Z then y - 1 else y)%Z in
  let era := (y / 400)%Z in
  let yoe := (y `mod` 400)%Z in
  let doy := ((153 * (if (m <=? 2)%Z then m + 9 else m - 3) + 2) / 5 + d - 1)%Z in
  (era * 146097 + (yoe * 365 + yoe / 4 - yoe / 100 + doy) - 719468)%Z.

(** ** Rendering *)

Fixpoint zeros (n : nat) : string := match n with O => EmptyString | S n => String "0" (zeros n) end.

(** [time.appendInt]: decimal, zero-padded to [width] digits. *)
Definition appendInt (x : Z) (width : nat) : string :=
  let digits := pretty (Z.to_N (Z.abs x)) in
  (if (x <? 0)%Z then "-" else "") +:+ zeros (width - String.length digits) +:+ digits.

(** [t.UTC().Format("2006-01-02")]. *)
Definition format_date (t : Z) : string :=
  let '(y, m, d) := civil_of_days (t / day) in
  appendInt y 4 +:+ "-" +:+ appendInt m 2 +:+ "-" +:+ appendInt d 2.

(** [t.UTC().Format("15")]. *)
Definition format_hour (t : Z) : string := appendInt ((t / hour) `mod` 24) 2.

(** The instants whose year has four digits: outside them [time.Time] refuses to
    marshal, so no line of an archive carries one. *)
Definition representable (t : Z) : Prop := (-62167219200 * second <= t < 253402300800 * second)%Z.

(** ** [strings] *)

Fixpoint trim_left (c : Ascii.ascii) (s : string) : string :=
  match s with
  | EmptyString => EmptyString
  | String a rest => if bool_decide (a = c) then trim_left c rest else s
  end.

(** [strings.Trim(s, "/")] and the like, for a one-byte cutset. *)
Definition trim (c : Ascii.ascii) (s : string) : string :=
  String.rev (trim_left c (String.rev (trim_left c s))).

(** [strings.HasSuffix]. *)
Definition has_suffix (s suffix : string) : bool := has_prefix (String.rev s) (String.rev suffix).

(** [strings.CutPrefix]. *)
Fixpoint cut_prefix (s p : string) : option string :=
  match p, s with
  | EmptyString, _ => Some s
  | String a p, String b s => if bool_decide (a = b) then cut_prefix s p else None
  | String _ _, EmptyString => None
  end.

(** [strings.Cut] at a one-byte separator. *)
Fixpoint cut (c : Ascii.ascii) (s : string) : option (string * string) :=
  match s with
  | EmptyString => None
  | String a rest =>
      if bool_decide (a = c) then Some (EmptyString, rest)
      else match cut c rest with None => None | Some (before, after) => Some (String a before, after) end
  end.

Lemma cut_prefix_app p t : cut_prefix (p +:+ t) p = Some t.
Proof.
  induction p as [|a p IH]; [by destruct t|]. change (String a p +:+ t) with (String a (p +:+ t)). cbn [cut_prefix].
  by rewrite bool_decide_eq_true_2.
Qed.

Example format_epoch : format_date 0 = "1970-01-01" /\ format_hour 0 = "00".
Proof. split; vm_compute; reflexivity. Qed.

Example format_leap_day :
  format_date (1709210096 * second) = "2024-02-29" /\ format_hour (1709210096 * second) = "12".
Proof. split; vm_compute; reflexivity. Qed.

(** ** Arithmetic of hours and days *)

Ltac solve_time := unfold hourStart, dayStart, representable, day, hour, second in *; Z.div_mod_to_equations; lia.

Lemma hourStart_bounds t : (hourStart t <= t < hourStart t + hour)%Z.
Proof. solve_time. Qed.

Lemma dayStart_bounds t : (dayStart t <= t < dayStart t + day)%Z.
Proof. solve_time. Qed.

Lemma hourStart_mono t u : (t <= u)%Z -> (hourStart t <= hourStart u)%Z.
Proof. solve_time. Qed.

Lemma dayStart_mono t u : (t <= u)%Z -> (dayStart t <= dayStart u)%Z.
Proof. solve_time. Qed.

(** Multiples of an hour: their difference is a whole number of hours. *)
Definition on_hour (t : Z) : Prop := (t `mod` hour = 0)%Z.

Lemma hourStart_on_hour t : on_hour (hourStart t).
Proof. unfold on_hour, hourStart. apply Z_mod_mult. Qed.

Lemma on_hour_add t n : on_hour t -> on_hour (t + n * hour).
Proof. unfold on_hour. intros <-. apply Z_mod_plus_full. Qed.

Lemma dayStart_on_hour t : on_hour (dayStart t).
Proof. unfold on_hour. solve_time. Qed.

Lemma on_hour_step t u : on_hour t -> on_hour u -> (t < u)%Z -> (t + hour <= u)%Z.
Proof. unfold on_hour. solve_time. Qed.

Lemma on_hour_hourStart t : on_hour t -> hourStart t = t.
Proof. unfold on_hour. solve_time. Qed.

(** ** The calendar is one to one *)

(** Evaluated for each of the 146097 days of an era. *)
Definition era_day_ok (doe : Z) : bool :=
  let yoe := leap_adjust doe in
  let doy := (doe - (365 * yoe + yoe / 4 - yoe / 100))%Z in
  let mp := ((5 * doy + 2) / 153)%Z in
  let d := (doy - (153 * mp + 2) / 5 + 1)%Z in
  ((0 <=? yoe) && (yoe <? 400) && (0 <=? mp) && (mp <? 12) && (1 <=? d) && (d <=? 31))%Z.

Fixpoint below (n : nat) (from : Z) (f : Z -> bool) : bool :=
  match n with O => true | S n => f from && below n (from + 1) f end.

Lemma below_spec n from f x : below n from f = true -> (from <= x < from + Z.of_nat n)%Z -> f x = true.
Proof.
  revert from. induction n as [|n IH]; intros from; [lia|]. cbn [below]. intros [Hf Hb]%andb_prop Hx.
  destruct (decide (x = from)) as [->|]; [done|]. apply (IH (from + 1)%Z); [done|lia].
Qed.

Lemma era_days_ok doe : (0 <= doe < 146097)%Z -> era_day_ok doe = true.
Proof.
  intros Hd. apply (below_spec (Z.to_nat 146097) 0); [|lia]. vm_cast_no_check (eq_refl true).
Qed.

Lemma civil_bounds z y m d :
  civil_of_days z = (y, m, d) -> (1 <= m <= 12 /\ 1 <= d <= 31)%Z /\ days_of_civil (y, m, d) = z.
Proof.
  intros [= <- <- <-]. set (doe := ((z + 719468) `mod` 146097)%Z).
  assert (Hok : era_day_ok doe = true) by (apply era_days_ok; subst doe; apply Z.mod_pos_bound; lia).
  unfold era_day_ok in Hok. set (yoe := leap_adjust doe) in *.
  set (doy := (doe - (365 * yoe + yoe / 4 - yoe / 100))%Z) in *.
  set (mp := ((5 * doy + 2) / 153)%Z) in *. rewrite !andb_true_iff in Hok.
  split; [destruct (mp <? 10)%Z eqn:?; lia|].
  set (m := (if (mp <? 10)%Z then mp + 3 else mp - 9)%Z).
  assert (Hmp : (if (m <=? 2)%Z then m + 9 else m - 3)%Z = mp).
  { subst m. destruct (mp <? 10)%Z eqn:?; destruct (_ <=? 2)%Z eqn:?; lia. }
  unfold days_of_civil. rewrite Hmp. set (era := ((z + 719468) / 146097)%Z).
  assert (Hy : (if (m <=? 2)%Z then yoe + era * 400 + (if (m <=? 2)%Z then 1 else 0) - 1
                else yoe + era * 400 + (if (m <=? 2)%Z then 1 else 0))%Z = (yoe + era * 400)%Z)
    by (destruct (m <=? 2)%Z; lia).
  rewrite Hy, Z_div_plus_full, Z_mod_plus_full by lia.
  rewrite Z.div_small, Z.mod_small by lia.
  pose proof (Z.div_mod (z + 719468) 146097). lia.
Qed.

Lemma civil_inj z z' : civil_of_days z = civil_of_days z' -> z = z'.
Proof.
  intros He. destruct (civil_of_days z) as [[y m] d] eqn:Hz.
  apply civil_bounds in Hz as [_ <-]. by apply eq_sym, civil_bounds in He as [_ <-].
Qed.

Lemma civil_year z y m d :
  (-719528 <= z < 2932897)%Z -> civil_of_days z = (y, m, d) -> (0 <= y <= 9999)%Z.
Proof.
  intros Hz [(Hm & Hd) He]%civil_bounds. unfold days_of_civil in He.
  destruct (m <=? 2)%Z eqn:E; Z.div_mod_to_equations; nia.
Qed.

(** ** Rendered dates and hours determine what they render *)

Fixpoint read_decimal (s : string) (acc : Z) : Z :=
  match s with
  | EmptyString => acc
  | String c s => read_decimal s (acc * 10 + (Z.of_N (Ascii.N_of_ascii c) - 48))
  end.

Definition rendered_ok (width : nat) (x : Z) : bool :=
  let s := appendInt x width in
  Nat.eqb (String.length s) width && (read_decimal s 0 =? x)%Z && negb (string_mem "/"%char s).

Lemma appendInt_year x : (0 <= x <= 9999)%Z -> rendered_ok 4 x = true.
Proof. intros Hx. apply (below_spec (Z.to_nat 10000) 0); [|lia]. vm_cast_no_check (eq_refl true). Qed.

Lemma appendInt_pair x : (0 <= x <= 99)%Z -> rendered_ok 2 x = true.
Proof. intros Hx. apply (below_spec (Z.to_nat 100) 0); [|lia]. vm_cast_no_check (eq_refl true). Qed.

Lemma rendered_inj width x y : rendered_ok width x = true -> rendered_ok width y = true ->
  appendInt x width = appendInt y width -> x = y.
Proof.
  unfold rendered_ok. rewrite !andb_true_iff, !Z.eqb_eq. intros [[_ Hx] _] [[_ Hy] _] He.
  by rewrite <-Hx, <-Hy, He.
Qed.

Lemma rendered_length width x : rendered_ok width x = true -> String.length (appendInt x width) = width.
Proof. unfold rendered_ok. rewrite !andb_true_iff, Nat.eqb_eq. tauto. Qed.

Lemma rendered_no_slash width x : rendered_ok width x = true -> string_mem "/"%char (appendInt x width) = false.
Proof. unfold rendered_ok. rewrite !andb_true_iff, negb_true_iff. tauto. Qed.

Lemma string_mem_app c s t : string_mem c (s +:+ t) = string_mem c s || string_mem c t.
Proof. induction s as [|a s IH]; [done|]. rewrite string_app_cons. cbn. by rewrite IH, orb_assoc. Qed.

Lemma string_app_inj s s' t t' :
  String.length s = String.length s' -> s +:+ t = s' +:+ t' -> s = s' /\ t = t'.
Proof.
  revert s'. induction s as [|a s IH]; intros [|b s']; try done.
  rewrite !string_app_cons. intros [= Hl] [= -> He]. by destruct (IH s' Hl He) as [-> ->].
Qed.

(** What the fields of a representable instant's date satisfy. *)
Lemma date_fields t : representable t ->
  exists y m d, civil_of_days (t / day) = (y, m, d) /\
    rendered_ok 4 y = true /\ rendered_ok 2 m = true /\ rendered_ok 2 d = true.
Proof.
  intros Ht. destruct (civil_of_days (t / day)) as [[y m] d] eqn:E. exists y, m, d.
  split; [done|]. destruct (civil_bounds _ _ _ _ E) as [[Hm Hd] _].
  split; [|split; apply appendInt_pair; lia]. apply appendInt_year, (civil_year (t / day) y m d); [|done].
  clear E Hm Hd. destruct Ht. split; [apply Z.div_le_lower_bound|apply Z.div_lt_upper_bound]; unfold day, hour, second in *; lia.
Qed.

Lemma format_date_length t : representable t -> String.length (format_date t) = 10.
Proof.
  intros (y & m & d & E & Hy & Hm & Hd)%date_fields. unfold format_date. rewrite E.
  rewrite !string_length_app, (rendered_length 4 y), (rendered_length 2 m), (rendered_length 2 d) by done. done.
Qed.

Lemma format_date_no_slash t : representable t -> string_mem "/"%char (format_date t) = false.
Proof.
  intros (y & m & d & E & Hy & Hm & Hd)%date_fields. unfold format_date. rewrite E.
  by rewrite !string_mem_app, !rendered_no_slash by done.
Qed.

Lemma format_date_inj t u : representable t -> representable u ->
  format_date t = format_date u <-> dayStart t = dayStart u.
Proof.
  intros (y & m & d & E & Hy & Hm & Hd)%date_fields (y' & m' & d' & E' & Hy' & Hm' & Hd')%date_fields.
  unfold format_date, dayStart. split; [|intros He].
  - rewrite E, E'. intros He.
    apply string_app_inj in He as [He1 He]; [|by rewrite !rendered_length].
    apply string_app_inj in He as [_ He]; [|done].
    apply string_app_inj in He as [He2 He]; [|by rewrite !rendered_length].
    apply string_app_inj in He as [_ He3]; [|done].
    apply rendered_inj in He1, He2, He3; try done. subst. f_equal. apply civil_inj. congruence.
  - assert (t / day = u / day)%Z as -> by (unfold day, hour, second in *; lia). done.
Qed.

Lemma format_hour_ok t : rendered_ok 2 ((t / hour) `mod` 24) = true.
Proof. apply appendInt_pair. pose proof (Z.mod_pos_bound (t / hour) 24). lia. Qed.

Lemma format_hour_length t : String.length (format_hour t) = 2.
Proof. apply rendered_length, format_hour_ok. Qed.

Lemma format_hour_no_slash t : string_mem "/"%char (format_hour t) = false.
Proof. apply rendered_no_slash, format_hour_ok. Qed.

Lemma format_hour_inj t u : dayStart t = dayStart u ->
  format_hour t = format_hour u <-> hourStart t = hourStart u.
Proof.
  intros Hd. unfold format_hour. split; intros He.
  - apply rendered_inj in He; [|apply format_hour_ok..]. solve_time.
  - assert (t / hour = u / hour)%Z as -> by (unfold hourStart, hour, second in *; lia). done.
Qed.
