(* ===== verification/Duration.v ===== *)
(** * Duration: how Go renders a span of time

    [time.Duration.String] of the standard library, which the sink configurations put
    into their fingerprints, and the proof that the rendering determines the duration:
    a reader of its units gives it back. *)

From stdpp Require Import pretty.
From S2P Require Import Prelude Calendar.

Definition microsecond : Z := 1000.
Definition millisecond : Z := 1000000.
Definition minute : Z := 60 * second.

Definition digit_char (d : Z) : Ascii.ascii := Ascii.ascii_of_N (Z.to_N (48 + d)).

(** [fmtFrac]: the low [prec] digits of [v] behind a point, without trailing zeros, put
    in front of [buf]; and what is left of [v]. *)
Fixpoint fmtFrac (prec : nat) (v : Z) (print : bool) (buf : string) : string * Z :=
  match prec with
  | O => (if print then String "." buf else buf, v)
  | S prec =>
      let digit := (v `mod` 10)%Z in
      let print := print || negb (bool_decide (digit = 0%Z)) in
      fmtFrac prec (v / 10) print (if print then String (digit_char digit) buf else buf)
  end.

Definition fmtInt (v : Z) (buf : string) : string := pretty (Z.to_N v) +:+ buf.

(** The micro sign in UTF-8, and the unit after it. *)
Definition micros : string := String (Ascii.ascii_of_nat 194) (String (Ascii.ascii_of_nat 181) "s").

Definition Duration_String (d : Z) : string :=
  let u := Z.abs d in
  let scaled prec unit := let '(buf, v) := fmtFrac prec u false unit in fmtInt v buf in
  if (u =? 0)%Z then "0s"
  else
    (if (d <? 0)%Z then "-" else "") +:+
    (if (u <? microsecond)%Z then scaled 0 "ns"
     else if (u <? millisecond)%Z then scaled 3 micros
     else if (u <? second)%Z then scaled 6 "ms"
     else
       let '(buf, secs) := fmtFrac 9 u false "s" in
       let buf := fmtInt (secs `mod` 60) buf in
       let mins := (secs / 60)%Z in
       if (mins <=? 0)%Z then buf
       else
         let buf := fmtInt (mins `mod` 60) (String "m" buf) in
         let hours := (mins / 60)%Z in
         if (hours <=? 0)%Z then buf else fmtInt hours (String "h" buf)).

Example durations : map Duration_String [0; 90 * second; 1500; -1500000; 7260 * second + 10; 1; 100 * millisecond]%Z =
  ["0s"; "1m30s"; "1.5" +:+ micros; "-1.5ms"; "2h1m0.00000001s"; "1ns"; "100ms"].
Proof. vm_compute. reflexivity. Qed.

(** ** Reading it back *)

Definition digit_of (c : Ascii.ascii) : Z := Z.of_N (Ascii.N_of_ascii c) - 48.
Definition digit_ok (c : Ascii.ascii) : bool := (0 <=? digit_of c)%Z && (digit_of c <=? 9)%Z.

(** [n / scale] is the number read so far, [frac] whether the point has been passed. *)
Fixpoint read_units (s : string) (total n scale : Z) (frac : bool) : Z :=
  match s with
  | EmptyString => total
  | String c rest =>
      let add unit rest := read_units rest (total + n * unit / scale) 0 1 false in
      if digit_ok c then read_units rest total (n * 10 + digit_of c) (if frac then scale * 10 else scale) frac
      else if bool_decide (c = "."%char) then read_units rest total n 1 true
      else if bool_decide (c = "h"%char) then add hour rest
      else if bool_decide (c = "m"%char) then
        match rest with
        | String c' rest' => if bool_decide (c' = "s"%char) then add millisecond rest' else add minute rest
        | _ => add minute rest
        end
      else if bool_decide (c = "s"%char) then add second rest
      else if bool_decide (c = "n"%char) then match rest with String _ rest => add 1%Z rest | _ => total end
      else match rest with String _ (String _ rest) => add microsecond rest | _ => total end
  end.

Definition read_duration (s : string) : Z :=
  match s with
  | String "-" rest => - read_units rest 0 0 1 false
  | _ => read_units s 0 0 1 false
  end.

Lemma digit_char_reads d : (0 <= d <= 9)%Z -> digit_ok (digit_char d) = true /\ digit_of (digit_char d) = d.
Proof.
  intros Hd. unfold digit_ok, digit_of, digit_char. rewrite Ascii.N_ascii_embedding by lia.
  rewrite Z2N.id by lia. replace (48 + d - 48)%Z with d by lia. split; [|done]. by rewrite andb_true_iff, !Z.leb_le.
Qed.

Lemma read_digit d rest total n scale frac : (0 <= d <= 9)%Z ->
  read_units (String (digit_char d) rest) total n scale frac =
  read_units rest total (n * 10 + d) (if frac then scale * 10 else scale) frac.
Proof. intros [Hok Hof]%digit_char_reads. cbn [read_units]. by rewrite Hok, Hof. Qed.

Lemma pretty_char_digit x : (x < 10)%N -> pretty_N_char x = digit_char (Z.of_N x).
Proof.
  intros Hx. assert (x = 0 \/ x = 1 \/ x = 2 \/ x = 3 \/ x = 4 \/ x = 5 \/ x = 6 \/ x = 7 \/ x = 8 \/ x = 9)%N as Hc by lia.
  by repeat destruct Hc as [-> |Hc]; [..|rewrite Hc].
Qed.

Lemma read_pretty_go x rest total : read_units (pretty_N_go x rest) total 0 1 false = read_units rest total (Z.of_N x) 1 false.
Proof.
  revert rest. induction (N.lt_wf_0 x) as [x _ IH]; intros rest.
  destruct (decide (x = 0)%N) as [-> |Hx]; [by rewrite pretty_N_go_0|].
  assert (Hm : (x `mod` 10 < 10)%N) by (apply N.mod_lt; lia).
  rewrite pretty_N_go_step by lia. rewrite IH by (apply N.div_lt; lia).
  rewrite (pretty_char_digit _ Hm), read_digit by (split; [apply N2Z.is_nonneg|rewrite <-(N2Z.inj_le _ 9); lia]). f_equal.
  rewrite N2Z.inj_div, N2Z.inj_mod. pose proof (Z.div_mod (Z.of_N x) 10). simpl in *. lia.
Qed.

Lemma read_int v rest total : (0 <= v)%Z -> read_units (fmtInt v rest) total 0 1 false = read_units rest total v 1 false.
Proof.
  intros Hv. unfold fmtInt, pretty, pretty_N. destruct (decide (Z.to_N v = 0)%N) as [E|E].
  - assert (v = 0%Z) as -> by lia. done.
  - rewrite <-(Z2N.id v Hv) at 2. rewrite <-read_pretty_go. f_equal.
    generalize (Z.to_N v). clear. intros x. revert rest.
    enough (H : forall s rest, pretty_N_go x s +:+ rest = pretty_N_go x (s +:+ rest)) by (intros; apply H).
    induction (N.lt_wf_0 x) as [x _ IH]; intros s rest.
    destruct (decide (x = 0)%N) as [-> |Hx]; [by rewrite !pretty_N_go_0|].
    rewrite !(pretty_N_go_step x) by lia. by rewrite IH by (apply N.div_lt; lia).
Qed.

Lemma fmtInt_head v rest : exists c r, fmtInt v rest = String c r /\ digit_ok c = true.
Proof.
  unfold fmtInt, pretty, pretty_N. destruct (decide (Z.to_N v = 0)%N) as [E|E]; [by eexists _, _|].
  enough (H : forall x s, (x <> 0)%N -> exists c r, pretty_N_go x s = String c r /\ digit_ok c = true).
  { destruct (H (Z.to_N v) "" E) as (c & r & -> & Hc). rewrite string_app_cons. by exists c, (r +:+ rest). }
  clear. intros x. induction (N.lt_wf_0 x) as [x _ IH]; intros s Hx.
  assert (Hm : (x `mod` 10 < 10)%N) by (apply N.mod_lt; lia).
  rewrite pretty_N_go_step by lia. destruct (decide (x / 10 = 0)%N) as [E|E].
  - rewrite E, pretty_N_go_0, (pretty_char_digit _ Hm). eexists _, _. split; [done|].
    apply digit_char_reads. split; [apply N2Z.is_nonneg|rewrite <-(N2Z.inj_le _ 9); lia].
  - apply IH; [apply N.div_lt; lia|done].
Qed.

Lemma read_minutes v rest total n :
  read_units (String "m" (fmtInt v rest)) total n 1 false = read_units (fmtInt v rest) (total + n * minute) 0 1 false.
Proof.
  destruct (fmtInt_head v rest) as (c & r & -> & Hc).
  change (read_units (String "m" (String c r)) total n 1 false) with
    (if bool_decide (c = "s"%char) then read_units r (total + n * millisecond / 1) 0 1 false
     else read_units (String c r) (total + n * minute / 1) 0 1 false).
  rewrite bool_decide_eq_false_2 by (by intros ->). by rewrite Z.div_1_r.
Qed.

(** ** The fraction *)

(** What the digits in front of the unit are worth: [k] of them, worth [f]. *)
Definition frac_digits (ds : string) (k : nat) (f : Z) : Prop :=
  (0 <= f)%Z /\ forall rest total n scale,
    read_units (ds +:+ rest) total n scale true = read_units rest total (n * 10 ^ Z.of_nat k + f) (scale * 10 ^ Z.of_nat k) true.

Lemma frac_digits_cons d ds k f : (0 <= d <= 9)%Z -> frac_digits ds k f ->
  frac_digits (String (digit_char d) ds) (S k) (d * 10 ^ Z.of_nat k + f).
Proof.
  intros Hd [Hf Hds]. split; [nia|]. intros rest total n scale. rewrite string_app_cons, read_digit, Hds by done.
  rewrite Nat2Z.inj_succ, Z.pow_succ_r by lia. f_equal; ring.
Qed.

(** [low] is what the digits dropped so far are worth, [j] their number. *)
Lemma fmtFrac_reads prec v print ds unit k f j low :
  (0 <= v)%Z -> frac_digits ds k f -> k <= j -> low = (f * 10 ^ Z.of_nat (j - k))%Z -> (print = false -> ds = "" /\ low = 0%Z /\ k = 0) ->
  exists ds' k' f' (print' : bool), fmtFrac prec v print (ds +:+ unit) = ((if print' then String "." (ds' +:+ unit) else unit), (v / 10 ^ Z.of_nat prec)%Z) /\
    frac_digits ds' k' f' /\ k' <= j + prec /\
    (low + 10 ^ Z.of_nat j * (v `mod` 10 ^ Z.of_nat prec) = f' * 10 ^ Z.of_nat (j + prec - k'))%Z /\
    (print' = false -> low + 10 ^ Z.of_nat j * (v `mod` 10 ^ Z.of_nat prec) = 0)%Z.
Proof.
  revert v print ds k f j low. induction prec as [|prec IH]; intros v print ds k f j low Hv Hds Hk Hlow Hp; simpl fmtFrac.
  - exists ds, k, f, print. rewrite Z.pow_0_r, Z.div_1_r, Z.mod_1_r, Z.mul_0_r, Z.add_0_r, !Nat.add_0_r. split_and!; try done.
    + destruct print; [done|]. by destruct Hp as [-> _].
    + intros ->. by apply Hp.
  - assert (Hm : (0 <= v `mod` 10 <= 9)%Z) by (pose proof (Z.mod_pos_bound v 10); lia).
    assert (Hnum : (v `mod` 10 ^ Z.of_nat (S prec) = v `mod` 10 + 10 * ((v / 10) `mod` 10 ^ Z.of_nat prec))%Z).
    { rewrite Nat2Z.inj_succ, Z.pow_succ_r by lia. rewrite Z.rem_mul_r by (try apply Z.pow_pos_nonneg; lia). done. }
    assert (Hdiv : (v / 10 ^ Z.of_nat (S prec) = v / 10 / 10 ^ Z.of_nat prec)%Z).
    { rewrite Nat2Z.inj_succ, Z.pow_succ_r by lia. by rewrite Z.div_div by (try apply Z.pow_pos_nonneg; lia). }
    assert (Hj : (10 ^ Z.of_nat (S j) = 10 * 10 ^ Z.of_nat j)%Z) by (rewrite Nat2Z.inj_succ, Z.pow_succ_r; lia).
    set (digit := (v `mod` 10)%Z) in *.
    destruct (print || negb (bool_decide (digit = 0%Z))) eqn:Epr.
    + destruct (IH (v / 10)%Z true (String (digit_char digit) ds) (S k) (digit * 10 ^ Z.of_nat k + f)%Z (S j)
        (low + 10 ^ Z.of_nat j * digit)%Z) as (ds' & k' & f' & print' & E & Hd' & Hk' & Hn & Hz).
      * apply Z.div_pos; lia.
      * by apply frac_digits_cons.
      * lia.
      * rewrite Hlow. replace (S j - S k) with (j - k) by lia.
        replace (Z.of_nat j) with (Z.of_nat k + Z.of_nat (j - k))%Z at 1 by lia. rewrite Z.pow_add_r by lia. ring.
      * done.
      * exists ds', k', f', print'. rewrite Hdiv. split; [exact E|]. split; [done|]. split; [lia|]. rewrite Hnum, Hj in *.
        replace (j + S prec - k') with (S j + prec - k') by lia. split; [lia|]. intros Hpr. specialize (Hz Hpr). lia.
    + apply orb_false_iff in Epr as [-> Ed]. apply negb_false_iff, bool_decide_eq_true_1 in Ed.
      destruct (Hp eq_refl) as (-> & -> & ->).
      destruct (IH (v / 10)%Z false "" 0 f (S j) 0%Z) as (ds' & k' & f' & print' & E & Hd' & Hk' & Hn & Hz).
      * apply Z.div_pos; lia.
      * done.
      * lia.
      * assert (f = 0)%Z as -> by (assert (0 < 10 ^ Z.of_nat (j - 0))%Z by (apply Z.pow_pos_nonneg; lia); nia). lia.
      * done.
      * exists ds', k', f', print'. rewrite Hdiv. split; [exact E|]. split; [done|]. split; [lia|]. rewrite Hnum, Ed, Hj in *.
        replace (j + S prec - k') with (S j + prec - k') by lia. split; [lia|]. intros Hpr. specialize (Hz Hpr). lia.
Qed.

(** A unit of [10 ^ prec] nanoseconds: reading a number of them, with the fraction
    that [v] has, adds both to the total. *)
Lemma fraction_reads prec v unit n total :
  (forall total n scale frac, read_units unit total n scale frac = (total + n * 10 ^ Z.of_nat prec / scale)%Z) ->
  (0 <= v)%Z -> (0 <= n)%Z ->
  (fmtFrac prec v false unit).2 = (v / 10 ^ Z.of_nat prec)%Z /\
  read_units (fmtInt n (fmtFrac prec v false unit).1) total 0 1 false = (total + n * 10 ^ Z.of_nat prec + v `mod` 10 ^ Z.of_nat prec)%Z.
Proof.
  intros Hu Hv Hn0.
  destruct (fmtFrac_reads prec v false "" unit 0 0 0 0 Hv) as (ds & k & f & print & E & [Hf Hds] & Hk & Hn & Hz);
    [split; [done|]; intros; f_equal; simpl; lia|lia|done|done|].
  change ("" +:+ unit) with unit in E. rewrite E. split; [done|]. simpl fst. rewrite read_int by done.
  rewrite Z.pow_0_r, Z.mul_1_l, !Z.add_0_l in Hn, Hz. simpl in Hn. destruct print.
  - assert (Hsplit : (10 ^ Z.of_nat prec = 10 ^ Z.of_nat k * 10 ^ Z.of_nat (prec - k))%Z) by (rewrite <-Z.pow_add_r by lia; f_equal; lia).
    assert (Hp : (0 < 10 ^ Z.of_nat k)%Z) by (apply Z.pow_pos_nonneg; lia).
    cbn [read_units]. rewrite (bool_decide_eq_true_2 ("."%char = "."%char)) by done. change (digit_ok "."%char) with false. cbn iota.
    rewrite Hds, Hu, Hn. rewrite Hsplit.
    replace ((n * 10 ^ Z.of_nat k + f) * (10 ^ Z.of_nat k * 10 ^ Z.of_nat (prec - k)))%Z
      with ((n * (10 ^ Z.of_nat k * 10 ^ Z.of_nat (prec - k)) + f * 10 ^ Z.of_nat (prec - k)) * (1 * 10 ^ Z.of_nat k))%Z by ring.
    rewrite Z.div_mul by lia. lia.
  - rewrite Hu, Z.div_1_r. specialize (Hz eq_refl). lia.
Qed.

Lemma scaled_reads prec v unit :
  (forall total n scale frac, read_units unit total n scale frac = (total + n * 10 ^ Z.of_nat prec / scale)%Z) ->
  (0 <= v)%Z -> read_units (let '(buf, w) := fmtFrac prec v false unit in fmtInt w buf) 0 0 1 false = v.
Proof.
  intros Hu Hv. destruct (fraction_reads prec v unit (v / 10 ^ Z.of_nat prec) 0 Hu Hv) as [E Hr].
  { apply Z.div_pos; [done|]. apply Z.pow_pos_nonneg; lia. }
  destruct (fmtFrac prec v false unit) as [buf w]. simpl in *. subst w. rewrite Hr.
  pose proof (Z.div_mod v (10 ^ Z.of_nat prec)). assert (0 < 10 ^ Z.of_nat prec)%Z by (apply Z.pow_pos_nonneg; lia). lia.
Qed.

Lemma rendered_magnitude d : (0 < d)%Z -> read_units (Duration_String d) 0 0 1 false = d.
Proof.
  intros Hd. unfold Duration_String. rewrite Z.abs_eq by lia.
  rewrite (proj2 (Z.eqb_neq d 0)), (proj2 (Z.ltb_ge d 0)) by lia. cbn [String.append].
  destruct (d <? microsecond)%Z; [apply (scaled_reads 0 d "ns"); [|lia]; intros; by rewrite Z.pow_0_r|].
  destruct (d <? millisecond)%Z; [apply (scaled_reads 3 d micros); [done|lia]|].
  destruct (d <? second)%Z; [apply (scaled_reads 6 d "ms"); [done|lia]|].
  set (buf := fmtFrac 9 d false "s").
  assert (Hf : forall n total, (0 <= n)%Z -> buf.2 = (d / second)%Z /\
            read_units (fmtInt n buf.1) total 0 1 false = (total + n * second + d `mod` second)%Z).
  { intros n total Hn. apply (fraction_reads 9 d "s" n total); [done|lia|done]. }
  clearbody buf. destruct buf as [buf secs]. simpl in Hf.
  destruct (Hf 0%Z 0%Z ltac:(lia)) as [-> _]. set (secs := (d / second)%Z) in *.
  assert (Hs : (d = second * secs + d `mod` second)%Z) by (apply Z.div_mod; done).
  assert (Hs0 : (0 <= secs)%Z) by (apply Z.div_pos; [lia|done]). assert (Hq0 : (0 <= secs / 60)%Z) by (apply Z.div_pos; lia).
  assert (Hq1 : (0 <= secs / 60 / 60)%Z) by (apply Z.div_pos; lia).
  clearbody secs. set (below := (d `mod` second)%Z) in *. clearbody below.
  pose proof (Z.div_mod secs 60 ltac:(done)) as Hm. pose proof (Z.mod_pos_bound secs 60 ltac:(done)) as Hmb.
  pose proof (Z.div_mod (secs / 60) 60 ltac:(done)) as Hh. pose proof (Z.mod_pos_bound (secs / 60) 60 ltac:(done)) as Hhb.
  destruct (Z.leb_spec (secs / 60) 0) as [Hm0|Hm0]; [rewrite (proj2 (Hf _ _ (proj1 Hmb))); unfold second in *; lia|].
  assert (Hmin : forall total, read_units (fmtInt ((secs / 60) `mod` 60) (String "m" (fmtInt (secs `mod` 60) buf))) total 0 1 false =
            (total + (secs / 60) `mod` 60 * minute + secs `mod` 60 * second + below)%Z).
  { intros total. rewrite read_int, read_minutes by lia. apply (Hf _ _ (proj1 Hmb)). }
  destruct (Z.leb_spec (secs / 60 / 60) 0) as [Hh0|Hh0].
  - rewrite Hmin. unfold minute, second in *. lia.
  - match goal with |- read_units ("" +:+ ?x) _ _ _ _ = _ => change ("" +:+ x) with x end. rewrite read_int by lia.
    match goal with |- read_units (String _ ?r) 0 ?n 1 false = _ => transitivity (read_units r (0 + n * hour / 1) 0 1 false); [done|] end.
    rewrite Z.div_1_r, Hmin. unfold minute, hour, second in *. lia.
Qed.

(** The text of a duration is read back as the duration. *)
Lemma read_duration_String d : read_duration (Duration_String d) = d.
Proof.
  destruct (Z.lt_trichotomy d 0) as [Hd|[-> |Hd]]; [|done|].
  - assert (E : Duration_String d = String "-" (Duration_String (- d))).
    { unfold Duration_String. rewrite Z.abs_opp, (proj2 (Z.eqb_neq (Z.abs d) 0)), (proj2 (Z.ltb_lt d 0)) by lia.
      by rewrite (proj2 (Z.ltb_ge (- d) 0)) by lia. }
    rewrite E. cbn [read_duration]. rewrite rendered_magnitude by lia. lia.
  - transitivity (read_units (Duration_String d) 0 0 1 false); [|by apply rendered_magnitude].
    assert (Hh : exists c r, Duration_String d = String c r /\ digit_ok c = true).
    { unfold Duration_String. rewrite (proj2 (Z.eqb_neq (Z.abs d) 0)), (proj2 (Z.ltb_ge d 0)) by lia. cbn [String.append].
      repeat case_match; apply fmtInt_head. }
    destruct Hh as (c & r & -> & Hc). unfold read_duration. destruct c as [[] [] [] [] [] [] [] []]; try done.
Qed.

#[export] Instance Duration_String_inj : Inj (=) (=) Duration_String.
Proof. intros d e H. by rewrite <-(read_duration_String d), <-(read_duration_String e), H. Qed.
