(* ===== verification/Pointer.v ===== *)
(** * Pointer: JSON Pointers and the fields of a document

    The pointer functions of [src/internal/cli/replay/attribute.go] and [prior.go]:
    resolving an RFC 6901 pointer in a decoded document, its tokens, parent and order,
    and the enumeration of a document's leaves. [Atoi] and [Itoa] are those of
    [strconv]. *)

From stdpp Require Import pretty.
From S2P Require Import Prelude GoJson Diff Duration QueryFilter.

(** ** Numbers in tokens *)

Fixpoint parse_digits (acc : Z) (s : string) : option Z :=
  match s with
  | EmptyString => Some acc
  | String c rest => if digit_ok c then parse_digits (acc * 10 + digit_of c) rest else None
  end.

(** [strconv.Atoi] with a 64-bit [int]; [None] is its error return. *)
Definition Atoi (s : string) : option Z :=
  let '(negative, digits) :=
    match s with
    | String c rest =>
        if bool_decide (c = "-"%char) then (true, rest) else if bool_decide (c = "+"%char) then (false, rest) else (false, s)
    | EmptyString => (false, s)
    end in
  if bool_decide (digits = "") then None
  else match parse_digits 0 digits with
       | Some z =>
           let z := if negative then (- z)%Z else z in
           if bool_decide (i64_min <= z <= i64_max)%Z then Some z else None
       | None => None
       end.

(** [strconv.Itoa] of a slice index. *)
Definition Itoa (i : nat) : string := pretty i.

(** ** Pointers *)

(** [pointerTokens]: still escaped. *)
Definition pointerTokens (pointer : string) : list string :=
  if bool_decide (pointer = "") then [] else split_on "/"%char (trim_slash pointer).

(** What precedes the last occurrence of [c]. *)
Fixpoint before_last (c : Ascii.ascii) (s : string) : option string :=
  match s with
  | EmptyString => None
  | String a rest =>
      match before_last c rest with
      | Some p => Some (String a p)
      | None => if bool_decide (a = c) then Some "" else None
      end
  end.

Definition parentPointer (pointer : string) : string :=
  match before_last "/"%char pointer with
  | Some parent => if bool_decide (0 < String.length parent) then parent else ""
  | None => ""
  end.

Definition collapseTo (pointer : string) (depth : Z) : string :=
  if bool_decide (depth <= 0)%Z then pointer
  else
    let tokens := pointerTokens pointer in
    if bool_decide (Z.of_nat (length tokens) <= depth)%Z then pointer
    else "/" +:+ join "/" (take (Z.to_nat depth) tokens).

(** [strings.Compare]. *)
Definition string_compare (a b : string) : Z :=
  match String.compare a b with Eq => 0 | Lt => -1 | Gt => 1 end.

Fixpoint compare_tokens (left right : list string) : Z :=
  match left, right with
  | l :: left', r :: right' =>
      if bool_decide (l = r) then compare_tokens left' right'
      else match Atoi l, Atoi r with
           | Some i, Some j => if bool_decide (i = j) then string_compare l r else i64_wrap (i - j)
           | _, _ => string_compare l r
           end
  | _, _ => (Z.of_nat (length left) - Z.of_nat (length right))%Z
  end.

Definition comparePointers (a b : string) : Z := compare_tokens (pointerTokens a) (pointerTokens b).

(** [strings.ReplaceAll] for a one-byte [old]. *)
Fixpoint replace_char (c : Ascii.ascii) (new : string) (s : string) : string :=
  match s with
  | EmptyString => EmptyString
  | String a rest => (if bool_decide (a = c) then new else String a "") +:+ replace_char c new rest
  end.

Definition escapeToken (name : string) : string := replace_char "/"%char "~1" (replace_char "~"%char "~0" name).

(** ** Documents

    A nil [any] is [JNull], as is the JSON null it decodes to. *)

Fixpoint descend (current : json) (segments : list string) : option json :=
  match segments with
  | [] => Some current
  | segment :: rest =>
      let segment := unescape segment in
      match current with
      | JObj node => match node !! segment with Some value => descend value rest | None => None end
      | JArr node =>
          match Atoi segment with
          | Some index =>
              if bool_decide (index < 0)%Z || bool_decide (Z.of_nat (length node) <= index)%Z then None
              else match node !! Z.to_nat index with Some value => descend value rest | None => None end
          | None => None
          end
      | _ => None
      end
  end.

Definition valueAtPointer (document : json) (pointer : string) : option json :=
  if bool_decide (pointer = "") then Some document
  else descend document (split_on "/"%char (trim_slash pointer)).

(** The [walk] closure of [leafPointers]. *)
Fixpoint leaf_walk (node : json) (prefix : string) {struct node} : list string :=
  match node with
  | JObj value =>
      if bool_decide (size value = 0) then [prefix]
      else
        let walks := leaf_walk <$> value in
        concat (map (fun key => match walks !! key with
                                | Some walk => walk (prefix +:+ "/" +:+ escapeToken key)
                                | None => []
                                end) (sorted_keys value))
  | JArr value =>
      if bool_decide (length value = 0) then [prefix]
      else concat (imap (fun i walk => walk (prefix +:+ "/" +:+ Itoa i)) (map leaf_walk value))
  | _ => [prefix]
  end.

Definition leafPointers (document : json) : list string :=
  match document with JNull => [] | _ => leaf_walk document "" end.

Example leaves_in_order :
  leafPointers (JObj (<["b" := JArr [JInt 1; JObj ∅]]> (<["a/b" := JNull]> ∅))) = ["/a~1b"; "/b/0"; "/b/1"].
Proof. vm_compute. reflexivity. Qed.

(** ** Pointers and token lists *)

Definition slash_free (token : string) : Prop := string_mem "/"%char token = false.

(** The strings that are pointers: every token behind its own slash. *)
Definition is_pointer (p : string) : Prop := exists tokens, Forall slash_free tokens /\ p = pointer_of tokens.

Lemma pointer_of_app a b : pointer_of (a ++ b) = pointer_of a +:+ pointer_of b.
Proof. induction a as [|t a IH]; [done|]. cbn [pointer_of app]. by rewrite IH, !string_app_assoc. Qed.

Lemma pointer_of_snoc a t : pointer_of (a ++ [t]) = pointer_of a +:+ "/" +:+ t.
Proof. rewrite pointer_of_app. cbn [pointer_of]. by rewrite string_app_nil_r. Qed.

Lemma split_trimmed t ts : Forall slash_free (t :: ts) ->
  split_on "/"%char (trim_slash (pointer_of (t :: ts))) = t :: ts.
Proof.
  intros Hf. pose proof (split_pointer _ Hf) as Hs.
  change (pointer_of (t :: ts)) with (String "/" (t +:+ pointer_of ts)) in *.
  cbn [trim_slash]. rewrite bool_decide_eq_true_2 by done. cbn [split_on] in Hs. rewrite bool_decide_eq_true_2 in Hs by done.
  by injection Hs.
Qed.

Lemma pointerTokens_of ts : Forall slash_free ts -> pointerTokens (pointer_of ts) = ts.
Proof.
  intros Hf. unfold pointerTokens. destruct ts as [|t ts]; [done|].
  rewrite bool_decide_eq_false_2 by done. by apply split_trimmed.
Qed.

Lemma pointer_of_tokens p : is_pointer p -> pointer_of (pointerTokens p) = p /\ Forall slash_free (pointerTokens p).
Proof. intros (ts & Hf & ->). by rewrite pointerTokens_of. Qed.

Lemma pointer_of_inj ts us : Forall slash_free ts -> Forall slash_free us -> pointer_of ts = pointer_of us -> ts = us.
Proof. intros Ht Hu E. by rewrite <-(pointerTokens_of ts Ht), E, pointerTokens_of. Qed.

Lemma before_last_app c s t : string_mem c t = false -> before_last c (s +:+ String c t) = Some s.
Proof.
  intros Ht. assert (Hn : before_last c t = None).
  { induction t as [|a t IH]; [done|]. apply orb_false_iff in Ht as [Ha Ht]. cbn [before_last]. by rewrite (IH Ht), Ha. }
  induction s as [|a s IH].
  - rewrite string_app_nil_l. cbn [before_last]. by rewrite Hn, bool_decide_eq_true_2.
  - rewrite string_app_cons. cbn [before_last]. by rewrite IH.
Qed.

Lemma parent_of_snoc ts t : slash_free t -> parentPointer (pointer_of (ts ++ [t])) = pointer_of ts.
Proof.
  intros Ht. unfold parentPointer. rewrite pointer_of_snoc. change ("/" +:+ t) with (String "/" t).
  rewrite before_last_app by done. by destruct ts as [|u ts].
Qed.

Lemma parent_of_root : parentPointer "" = "".
Proof. done. Qed.

Lemma split_on_free c s : Forall (fun part => string_mem c part = false) (split_on c s).
Proof.
  induction s as [|a s IH]; [by repeat constructor|]. cbn [split_on]. case_bool_decide as E; [by constructor|].
  destruct (split_on c s) as [|part parts]; [constructor; [|done]|apply Forall_cons in IH as [Hp Hps]; constructor; [|done]];
    cbn [string_mem]; by rewrite bool_decide_eq_false_2.
Qed.

Lemma pointer_of_split s : pointer_of (split_on "/"%char s) = "/" +:+ s.
Proof.
  induction s as [|a s IH]; [done|]. cbn [split_on]. case_bool_decide as E.
  - subst a. cbn [pointer_of]. rewrite IH. done.
  - destruct (split_on "/"%char s) as [|part parts] eqn:Es; [by destruct s as [|b s]; [|cbn [split_on] in Es; case_bool_decide; [|case_match]]|].
    cbn [pointer_of] in *. change ("/" +:+ ?x) with (String "/" x) in *. injection IH as IH. rewrite string_app_cons. by rewrite IH.
Qed.

Lemma slash_is_pointer s : is_pointer ("/" +:+ s).
Proof. exists (split_on "/"%char s). split; [apply split_on_free|by rewrite pointer_of_split]. Qed.

(** A pointer begins with another and a slash exactly when it addresses something
    strictly beneath. *)
Lemma pointer_beneath ts us : Forall slash_free ts -> Forall slash_free us ->
  has_prefix (pointer_of ts) (pointer_of us +:+ "/") = true <-> us `prefix_of` ts /\ us <> ts.
Proof.
  intros Ht Hu. rewrite has_prefix_spec. split.
  - intros [rest E]. rewrite string_app_assoc, <-pointer_of_split, <-pointer_of_app in E.
    apply pointer_of_inj in E as ->; [|done|apply Forall_app; split; [done|apply split_on_free]].
    split; [by apply prefix_app_r|]. intros En. assert (Hnil : split_on "/"%char rest = []).
    { apply (app_inv_head us). by rewrite app_nil_r. }
    pose proof (pointer_of_split rest) as Hp. by rewrite Hnil in Hp.
  - intros [[rest ->] Hne]. destruct rest as [|r rest]; [by rewrite app_nil_r in Hne|].
    exists (r +:+ pointer_of rest). rewrite pointer_of_app. cbn [pointer_of]. by rewrite !string_app_assoc.
Qed.

(** ** Tokens *)

Lemma replace_char_app c new s t : replace_char c new (s +:+ t) = replace_char c new s +:+ replace_char c new t.
Proof.
  induction s as [|a s IH]; [done|]. rewrite string_app_cons. cbn [replace_char]. by rewrite IH, string_app_assoc.
Qed.

Lemma escapeToken_escape name : escapeToken name = escape name.
Proof.
  unfold escapeToken. induction name as [|a name IH]; [done|]. cbn [replace_char escape]. rewrite replace_char_app, IH.
  case_bool_decide as E; [done|]. cbn [replace_char]. by case_bool_decide.
Qed.

Lemma escape_slash_free names : Forall slash_free (map escape names).
Proof. apply Forall_fmap, Forall_true. intros x. apply escape_no_slash. Qed.

Lemma escape_inj a b : escape a = escape b -> a = b.
Proof. intros E. by rewrite <-(unescape_escape a), E, unescape_escape. Qed.

(** Digits need no escape. *)
Fixpoint all_digits (s : string) : bool :=
  match s with EmptyString => true | String c rest => digit_ok c && all_digits rest end.

Lemma digits_unescaped s : all_digits s = true -> escape s = s.
Proof.
  induction s as [|c s IH]; [done|]. cbn [all_digits escape]. intros [Hc Hs]%andb_true_iff.
  rewrite !bool_decide_eq_false_2; [by rewrite IH|..]; by intros ->.
Qed.

Lemma pretty_go_digits x s : all_digits s = true -> all_digits (pretty_N_go x s) = true.
Proof.
  revert s. induction (N.lt_wf_0 x) as [x _ IH]; intros s Hs.
  destruct (decide (x = 0)%N) as [-> |Hx]; [by rewrite pretty_N_go_0|].
  assert (Hm : (x `mod` 10 < 10)%N) by (apply N.mod_lt; lia).
  rewrite pretty_N_go_step by lia. apply IH; [apply N.div_lt; lia|]. cbn [all_digits]. rewrite Hs, andb_true_r, (pretty_char_digit _ Hm).
  apply digit_char_reads. split; [apply N2Z.is_nonneg|rewrite <-(N2Z.inj_le _ 9); lia].
Qed.

Lemma parse_pretty_go x s acc : exists k, (0 <= k)%Z /\
  parse_digits acc (pretty_N_go x s) = parse_digits (acc * 10 ^ k + Z.of_N x) s.
Proof.
  revert s. induction (N.lt_wf_0 x) as [x _ IH]; intros s.
  destruct (decide (x = 0)%N) as [-> |Hx].
  - exists 0%Z. rewrite pretty_N_go_0. split; [done|]. f_equal. lia.
  - assert (Hm : (x `mod` 10 < 10)%N) by (apply N.mod_lt; lia).
    rewrite pretty_N_go_step by lia. destruct (IH (x / 10)%N ltac:(apply N.div_lt; lia) (String (pretty_N_char (x `mod` 10)) s)) as (k & Hk & ->).
    exists (k + 1)%Z. split; [lia|]. cbn [parse_digits]. rewrite (pretty_char_digit _ Hm).
    destruct (digit_char_reads (Z.of_N (x `mod` 10))) as [-> ->]; [split; [apply N2Z.is_nonneg|rewrite <-(N2Z.inj_le _ 9); lia]|].
    f_equal. rewrite Z.pow_add_r, N2Z.inj_div, N2Z.inj_mod by lia. pose proof (Z.div_mod (Z.of_N x) 10). simpl in *. lia.
Qed.

Lemma Itoa_digits i : all_digits (Itoa i) = true /\ Itoa i <> "" /\ parse_digits 0 (Itoa i) = Some (Z.of_nat i).
Proof.
  unfold Itoa, pretty, pretty_nat, pretty, pretty_N. case_decide as E.
  - assert (i = 0) as -> by lia. by vm_compute.
  - split_and!.
    + by apply pretty_go_digits.
    + intros En. destruct (parse_pretty_go (N.of_nat i) "" 0) as (k & _ & Ek). rewrite En in Ek. cbn [parse_digits] in Ek.
      injection Ek. rewrite Z.mul_0_l. lia.
    + destruct (parse_pretty_go (N.of_nat i) "" 0) as (k & _ & ->). cbn [parse_digits]. f_equal. rewrite Z.mul_0_l. lia.
Qed.

Lemma Itoa_inj i j : Itoa i = Itoa j -> i = j.
Proof.
  intros E. destruct (Itoa_digits i) as (_ & _ & Hi), (Itoa_digits j) as (_ & _ & Hj). rewrite E, Hj in Hi. injection Hi. lia.
Qed.

Lemma Atoi_Itoa i : (Z.of_nat i <= i64_max)%Z -> Atoi (Itoa i) = Some (Z.of_nat i).
Proof.
  intros Hi. destruct (Itoa_digits i) as (Hd & Hne & Hp). unfold Atoi. destruct (Itoa i) as [|c rest] eqn:E; [done|].
  cbn [all_digits] in Hd. apply andb_true_iff in Hd as [Hc _].
  rewrite !(bool_decide_eq_false_2 (c = _)) by (by intros ->). rewrite bool_decide_eq_false_2 by done.
  rewrite Hp. rewrite bool_decide_eq_true_2; [done|]. unfold i64_min. lia.
Qed.

(** ** Leaves *)

(** Where a value is: through members by name and items by position. *)
Inductive at_path : json -> list string -> json -> Prop :=
| at_here v : at_path v [] v
| at_member m k v names w : m !! k = Some v -> at_path v names w -> at_path (JObj m) (k :: names) w
| at_item l i v names w : l !! i = Some v -> at_path v names w -> at_path (JArr l) (Itoa i :: names) w.

Definition is_leaf (v : json) : Prop := match v with JObj m => m = ∅ | JArr l => l = [] | _ => True end.

(** Every array's length is an [int], as every slice's is. *)
Definition fits (v : json) : Prop :=
  forall names l, at_path v names (JArr l) -> (Z.of_nat (length l) <= i64_max)%Z.

(** The pointer to the value reached by these names. *)
Definition pointer_to (names : list string) : string := pointer_of (map escape names).

Lemma pointer_to_inj a b : pointer_to a = pointer_to b -> a = b.
Proof.
  intros E%pointer_of_inj; [|apply escape_slash_free..]. revert E.
  apply (list_fmap_eq_inj escape). intros x y. apply escape_inj.
Qed.

Lemma value_descend v names : valueAtPointer v (pointer_to names) = descend v (map escape names).
Proof.
  unfold valueAtPointer, pointer_to. destruct names as [|n names]; [done|]. rewrite bool_decide_eq_false_2 by done.
  cbn [map]. by rewrite split_trimmed by apply (escape_slash_free (n :: names)).
Qed.

Lemma at_path_value v names w : fits v -> at_path v names w -> valueAtPointer v (pointer_to names) = Some w.
Proof.
  intros Hf Hp. rewrite value_descend. induction Hp as [v|m k v names w Hm Hp IH|l i v names w Hl Hp IH]; [done|..].
  - cbn [map descend]. rewrite unescape_escape, Hm. apply IH. intros ns l Hl. eapply (Hf (k :: ns)). by econstructor.
  - cbn [map descend]. rewrite unescape_escape. pose proof (lookup_lt_Some _ _ _ Hl) as Hlt.
    pose proof (Hf [] l (at_here _)). rewrite Atoi_Itoa by lia. rewrite !bool_decide_eq_false_2 by lia. simpl. rewrite Nat2Z.id, Hl.
    apply IH. intros ns l' Hl'. eapply (Hf (Itoa i :: ns)). by econstructor.
Qed.

(** The walk over an array, by position. *)
Lemma concat_imap {A B} (f : nat -> A -> list B) l :
  concat (imap f l) = seq 0 (length l) ≫= (fun i => match l !! i with Some x => f i x | None => [] end).
Proof.
  revert f. induction l as [|x l IH]; intros f; [done|]. cbn [imap concat length seq]. rewrite IH. simpl. f_equal.
  rewrite <-fmap_S_seq, list_fmap_bind. done.
Qed.

Lemma concat_map {A B} (f : A -> list B) l : concat (map f l) = l ≫= f.
Proof. induction l as [|x l IH]; [done|]. simpl. by rewrite IH. Qed.

Lemma leaf_walk_object value prefix : size value <> 0 ->
  leaf_walk (JObj value) prefix =
  sorted_keys value ≫= (fun key => match value !! key with Some v => leaf_walk v (prefix +:+ "/" +:+ escape key) | None => [] end).
Proof.
  intros Hs. cbn [leaf_walk]. rewrite bool_decide_eq_false_2 by done. rewrite concat_map. apply list_bind_ext; [|done].
  intros k. rewrite lookup_fmap, escapeToken_escape. by destruct (value !! k).
Qed.

Lemma Itoa_escape i : escape (Itoa i) = Itoa i.
Proof. apply digits_unescaped, Itoa_digits. Qed.

Lemma leaf_walk_array value prefix : length value <> 0 ->
  leaf_walk (JArr value) prefix =
  seq 0 (length value) ≫= (fun i => match value !! i with Some v => leaf_walk v (prefix +:+ "/" +:+ escape (Itoa i)) | None => [] end).
Proof.
  intros Hs. cbn [leaf_walk]. rewrite bool_decide_eq_false_2 by done. rewrite concat_imap, length_map. apply list_bind_ext; [|done].
  intros i. change (map leaf_walk value) with (leaf_walk <$> value). rewrite list_lookup_fmap, Itoa_escape. by destruct (value !! i).
Qed.

Lemma sorted_keys_elem {V} (m : gmap string V) k : k ∈ sorted_keys m <-> is_Some (m !! k).
Proof.
  unfold sorted_keys. rewrite merge_sort_Permutation, list_elem_of_fmap. split.
  - intros ([k' v] & -> & Hm%elem_of_map_to_list). by eexists.
  - intros [v Hm]. exists (k, v). split; [done|]. by apply elem_of_map_to_list.
Qed.

Lemma pointer_to_snoc pre t : pointer_to (pre ++ [t]) = pointer_to pre +:+ "/" +:+ escape t.
Proof. unfold pointer_to. rewrite map_app. apply pointer_of_snoc. Qed.

(** The walk lists the leaves under its prefix, exactly. *)
Lemma leaf_walk_spec v pre p :
  p ∈ leaf_walk v (pointer_to pre) <-> exists names w, at_path v names w /\ is_leaf w /\ p = pointer_to (pre ++ names).
Proof.
  revert pre. induction v as [v Ha Ho|l IH|m IH] using json_tree_ind; intros pre.
  - assert (E : leaf_walk v (pointer_to pre) = [pointer_to pre]) by (by destruct v). rewrite E, list_elem_of_singleton. split.
    + intros ->. exists [], v. rewrite app_nil_r. split_and!; [constructor| |done]. by destruct v.
    + intros (names & w & Hp & _ & ->). by inversion Hp; subst; rewrite ?app_nil_r.
  - destruct (decide (length l = 0)) as [E|E].
    + apply length_zero_iff_nil in E as ->. cbn [leaf_walk]. rewrite bool_decide_eq_true_2, list_elem_of_singleton by done. split.
      * intros ->. exists [], (JArr []). rewrite app_nil_r. by split_and!; [constructor|..].
      * intros (names & w & Hp & _ & ->). by inversion Hp; subst; rewrite ?app_nil_r.
    + rewrite leaf_walk_array by done. rewrite list_elem_of_bind. rewrite Forall_forall in IH. split.
      * intros (i & Hi & _). destruct (l !! i) as [x|] eqn:El; [|by apply not_elem_of_nil in Hi].
        rewrite <-pointer_to_snoc in Hi. apply IH in Hi as (names & w & Hp & Hw & ->); [|by eapply list_elem_of_lookup_2].
        exists (Itoa i :: names), w. split_and!; [by econstructor|done|]. by rewrite <-app_assoc.
      * intros (names & w & Hp & Hw & ->). inversion Hp as [| |l' i x ns w' Hl Hp']; subst; [by rewrite Hw in E|].
        exists i. split; [|apply elem_of_seq; apply lookup_lt_Some in Hl; lia]. rewrite Hl.
        rewrite <-pointer_to_snoc. apply IH; [by eapply list_elem_of_lookup_2|]. exists ns, w. by rewrite <-app_assoc.
  - destruct (decide (size m = 0)) as [E|E].
    + apply map_size_empty_iff in E as ->. cbn [leaf_walk]. rewrite bool_decide_eq_true_2, list_elem_of_singleton by done. split.
      * intros ->. exists [], (JObj ∅). rewrite app_nil_r. by split_and!; [constructor|..].
      * intros (names & w & Hp & _ & ->). by inversion Hp; subst; rewrite ?app_nil_r; simplify_map_eq.
    + rewrite leaf_walk_object by done. rewrite list_elem_of_bind. split.
      * intros (k & Hi & _). destruct (m !! k) as [x|] eqn:El; [|by apply not_elem_of_nil in Hi].
        rewrite <-pointer_to_snoc in Hi. apply (IH k x El) in Hi as (names & w & Hp & Hw & ->).
        exists (k :: names), w. split_and!; [by econstructor|done|]. by rewrite <-app_assoc.
      * intros (names & w & Hp & Hw & ->). inversion Hp as [|m' k x ns w' Hl Hp'|]; subst; [by rewrite Hw, map_size_empty in E|].
        exists k. split; [|by apply sorted_keys_elem; eexists]. rewrite Hl. rewrite <-pointer_to_snoc.
        apply (IH k x Hl). exists ns, w. by rewrite <-app_assoc.
Qed.

Lemma leaf_walk_NoDup v pre : NoDup (leaf_walk v (pointer_to pre)).
Proof.
  revert pre. induction v as [v Ha Ho|l IH|m IH] using json_tree_ind; intros pre.
  - assert (leaf_walk v (pointer_to pre) = [pointer_to pre]) as -> by (by destruct v). apply NoDup_singleton.
  - destruct (decide (length l = 0)) as [E|E]; [apply length_zero_iff_nil in E as ->; apply NoDup_singleton|].
    rewrite leaf_walk_array by done. rewrite Forall_forall in IH. apply NoDup_bind; [| |apply NoDup_seq].
    + intros i j p _ _. destruct (l !! i), (l !! j); try (by intros Hi%not_elem_of_nil); try (by intros _ Hj%not_elem_of_nil).
      rewrite <-!pointer_to_snoc, !leaf_walk_spec.
      intros (ns & w & _ & _ & ->) (ns' & w' & _ & _ & E'%pointer_to_inj). rewrite <-!app_assoc in E'.
      apply app_inv_head in E'. injection E' as ?%Itoa_inj _. done.
    + intros i _. destruct (l !! i) eqn:El; [|constructor]. rewrite <-pointer_to_snoc.
      apply IH. by eapply list_elem_of_lookup_2.
  - destruct (decide (size m = 0)) as [E|E]; [cbn [leaf_walk]; rewrite bool_decide_eq_true_2 by done; apply NoDup_singleton|].
    rewrite leaf_walk_object by done. apply NoDup_bind.
    + intros i j p _ _. destruct (m !! i), (m !! j); try (by intros Hi%not_elem_of_nil); try (by intros _ Hj%not_elem_of_nil).
      rewrite <-!pointer_to_snoc, !leaf_walk_spec.
      intros (ns & w & _ & _ & ->) (ns' & w' & _ & _ & E'%pointer_to_inj). rewrite <-!app_assoc in E'.
      apply app_inv_head in E'. by injection E' as ? _.
    + intros k _. destruct (m !! k) eqn:El; [|constructor]. rewrite <-pointer_to_snoc. by apply (IH k).
    + unfold sorted_keys. rewrite merge_sort_Permutation. apply NoDup_fst_map_to_list.
Qed.

(** The leaves of a document: each once, under the pointer that resolves to it. *)
Lemma leafPointers_spec document p : document <> JNull ->
  p ∈ leafPointers document <-> exists names w, at_path document names w /\ is_leaf w /\ p = pointer_to names.
Proof. intros Hn. rewrite <-(leaf_walk_spec document [] p). by destruct document. Qed.

Lemma leafPointers_NoDup document : NoDup (leafPointers document).
Proof. destruct document; [constructor|apply (leaf_walk_NoDup _ [])..]. Qed.

Lemma leaf_resolves document p : fits document -> p ∈ leafPointers document ->
  is_pointer p /\ exists w, valueAtPointer document p = Some w /\ is_leaf w.
Proof.
  intros Hf Hp. destruct (decide (document = JNull)) as [->|Hn]; [by apply not_elem_of_nil in Hp|].
  apply leafPointers_spec in Hp as (names & w & Hat & Hw & ->); [|done].
  split; [by exists (map escape names); split; [apply escape_slash_free|]|]. exists w. split; [by apply at_path_value|done].
Qed.
