(* ===== verification/Render.v ===== *)
(** * Render: text the command line prints

    The leaf functions of [src/internal/cli/render]: columns counted in runes and cells
    cut to a width ([render.go]), the frame of an instant ([zone.go]), field paths in
    their three grammars ([path.go]) and the text of one patch operation
    ([change.go]). Strings are bytes; a rune is what Go's UTF-8 decoder takes at once.
    The decoding and encoding of JSON values are [encoding/json]'s, the class
    [AnyCodec]; a time zone is the offset it has at each instant. *)

From stdpp Require Import pretty.
From S2P Require Import Prelude GoJson Diff Calendar Duration QueryFilter Pointer.

(** ** Runes *)

Definition byte_of (c : Ascii.ascii) : Z := Z.of_N (Ascii.N_of_ascii c).
Definition in_range (lo hi : Z) (c : Ascii.ascii) : bool := (lo <=? byte_of c)%Z && (byte_of c <=? hi)%Z.
Definition continues (c : Ascii.ascii) : bool := in_range 128 191 c.
Definition is_ascii (c : Ascii.ascii) : bool := (byte_of c <? 128)%Z.

(** The sequences [unicode/utf8] accepts, by their first byte. *)
Definition two_bytes (a b : Ascii.ascii) : bool := in_range 194 223 a && continues b.
Definition three_bytes (a b c : Ascii.ascii) : bool :=
  in_range 224 239 a && continues b && continues c &&
  negb (bool_decide (byte_of a = 224%Z) && in_range 128 159 b) && negb (bool_decide (byte_of a = 237%Z) && in_range 160 191 b).
Definition four_bytes (a b c d : Ascii.ascii) : bool :=
  in_range 240 244 a && continues b && continues c && continues d &&
  negb (bool_decide (byte_of a = 240%Z) && in_range 128 143 b) && negb (bool_decide (byte_of a = 244%Z) && in_range 144 191 b).

(** The text cut where the decoder cuts it; a byte it refuses stands alone. *)
Fixpoint spans (s : string) : list string :=
  match s with
  | EmptyString => []
  | String a s1 =>
      if is_ascii a then String a "" :: spans s1
      else match s1 with
           | EmptyString => [String a ""]
           | String b s2 =>
               if two_bytes a b then String a (String b "") :: spans s2
               else match s2 with
                    | EmptyString => String a "" :: spans s1
                    | String c s3 =>
                        if three_bytes a b c then String a (String b (String c "")) :: spans s3
                        else match s3 with
                             | EmptyString => String a "" :: spans s1
                             | String d s4 =>
                                 if four_bytes a b c d then String a (String b (String c (String d ""))) :: spans s4
                                 else String a "" :: spans s1
                             end
                    end
           end
  end.

Definition bytes (l : list Z) : string := foldr (fun z s => String (Ascii.ascii_of_N (Z.to_N z)) s) "" l.

(** U+FFFD, what a refused byte becomes in a [[]rune]. *)
Definition replacement : string := bytes [239; 191; 189]%Z.

Definition rune_text (span : string) : string :=
  match span with
  | String a EmptyString => if is_ascii a then span else replacement
  | _ => span
  end.

(** [[]rune(text)], each rune as its encoding. *)
Definition runes (text : string) : list string := map rune_text (spans text).

(** [string(runes)]. *)
Definition of_runes (rs : list string) : string := foldr String.append "" rs.

(** [utf8.ValidString]: no byte that is not ASCII stands alone. *)
Definition valid_span (span : string) : bool :=
  match span with String a EmptyString => is_ascii a | _ => true end.
Definition ValidString (s : string) : bool := forallb valid_span (spans s).

(** ** render.go *)

Definition Ellipsis : string := bytes [226; 128; 166]%Z.
Definition Arrow : string := bytes [226; 134; 146]%Z.
Definition DefaultWidth : Z := 120.
Definition minChangeWidth : Z := 32.
Definition minPathWidth : Z := 24.

Definition displayWidth (text : string) : Z := Z.of_nat (length (runes text)).

Fixpoint spaces (n : nat) : string := match n with O => "" | S n => String " " (spaces n) end.

Definition pad (text : string) (width : Z) : string :=
  let gap := (width - displayWidth text)%Z in
  if bool_decide (0 < gap)%Z then text +:+ spaces (Z.to_nat gap) else text.

Definition truncate (text : string) (width : Z) : string :=
  if bool_decide (width <= 0)%Z then ""
  else if bool_decide (displayWidth text <= width)%Z then text
  else if bool_decide (width = 1)%Z then Ellipsis
  else of_runes (take (Z.to_nat (width - 1)) (runes text)) +:+ Ellipsis.

(** ** path.go *)

Definition pointerSegments (pointer : string) : list string :=
  let trimmed := trim_slash pointer in
  if bool_decide (pointer = "") || (bool_decide (trimmed = "") && bool_decide (pointer = "/")) then []
  else map unescape (split_on "/"%char trimmed).

Definition isIndex (segment : string) : bool :=
  match segment with
  | EmptyString => false
  | String c rest =>
      if bool_decide (1 < String.length segment) && bool_decide (c = "0"%char) then false else all_digits segment
  end.

Definition display_segment (i : nat) (segment : string) : string :=
  if bool_decide (0 < i) && isIndex segment then "[" +:+ segment +:+ "]"
  else if bool_decide (0 < i) then "." +:+ segment
  else segment.

Definition DisplayPath (pointer : string) : string :=
  let segments := pointerSegments pointer in
  if bool_decide (length segments = 0) then "/" else of_runes (imap display_segment segments).

Definition NormalizeFieldPath (path : string) : string :=
  if negb (string_mem "["%char path || string_mem "]"%char path) then path
  else of_runes (map (fun r => if bool_decide (r = "[") then "." else if bool_decide (r = "]") then "" else r) (runes path)).

(** A range over the path's runes writes each back, U+FFFD for a refused byte. *)
Definition splitDisplayPath (path : string) : list string := split_on "."%char (of_runes (runes path)).

Definition joinDisplaySegments (segments : list string) : string := join "." segments.

(** The backward loop: the longest tail of segments that fits. *)
Fixpoint elide_tail (segments : list string) (fixed width : Z) (i : nat) (tail : string) : string :=
  match i with
  | O => tail
  | S j =>
      let candidate := joinDisplaySegments (drop i segments) in
      if bool_decide (width < fixed + displayWidth candidate)%Z then tail
      else elide_tail segments fixed width j candidate
  end.

Definition Elide (path : string) (width : Z) : string :=
  if bool_decide (width <= 0)%Z || bool_decide (displayWidth path <= width)%Z then path
  else
    let segments := splitDisplayPath path in
    match segments with
    | [] | [_] => truncate path width
    | head :: _ =>
        let fixed := (displayWidth head + 1 + displayWidth Ellipsis)%Z in
        let tail := elide_tail segments fixed width (length segments - 1) "" in
        if bool_decide (tail = "")
        then Ellipsis +:+ truncate (joinDisplaySegments (drop (length segments - 1) segments)) (width - displayWidth Ellipsis)
        else head +:+ "." +:+ Ellipsis +:+ tail
    end.

(** ** zone.go *)

(** A [*time.Location]: its name and its offset east of UTC at an instant, in seconds. *)
Record location := mkLocation { lo_String : string; lo_offset : Z -> Z }.

Record Zone := mkZone { zn_loc : option location; zn_label : string }.

Definition UTC : Zone := mkZone None "".

(** [utc] says whether the location is the [time.UTC] pointer. *)
Definition NewZone (loc : option location) (utc : bool) (label : string) : Zone :=
  match loc with
  | None => UTC
  | Some l =>
      if utc || bool_decide (lo_String l = "UTC") then UTC
      else
        let label := if bool_decide (label = "") then lo_String l else label in
        let label := if bool_decide (label = "") || bool_decide (label = "Local") then "local" else label in
        mkZone (Some l) label
  end.

Definition IsUTC (z : Zone) : bool := match zn_loc z with None => true | Some _ => false end.
Definition Label (z : Zone) : string := if IsUTC z then "UTC" else zn_label z.

Definition columnTime : string := "TIME".
Definition TimeColumn (z : Zone) : string := columnTime +:+ " (" +:+ Label z +:+ ")".

(** [time.Time.Format] for the fields the layouts name. *)
Definition format_clock (t : Z) : string :=
  let secs := ((t / second) `mod` 86400)%Z in
  appendInt (secs / 3600) 2 +:+ ":" +:+ appendInt ((secs / 60) `mod` 60) 2 +:+ ":" +:+ appendInt (secs `mod` 60) 2.

Definition format_fraction (t : Z) (digits : nat) : string :=
  "." +:+ appendInt ((t `mod` second) / 10 ^ (9 - Z.of_nat digits)) digits.

(** The layout element [-07:00]. *)
Definition format_offset (offset : Z) : string :=
  let minutes := Z.quot offset 60 in
  (if bool_decide (minutes < 0)%Z then "-" else "+") +:+
  appendInt (Z.abs minutes / 60) 2 +:+ ":" +:+ appendInt (Z.abs minutes `mod` 60) 2.

Inductive layout := narrowLayout | wideLayout | headerLayout.

Definition format_local (l : layout) (t : Z) : string :=
  match l with
  | narrowLayout => format_date t +:+ " " +:+ format_clock t +:+ format_fraction t 3
  | wideLayout => format_date t +:+ "T" +:+ format_clock t +:+ format_fraction t 9
  | headerLayout => format_date t +:+ "T" +:+ format_clock t
  end.

(** [ts.UTC().Format] of the UTC layout, or [ts.In(loc).Format] of the zoned one. *)
Definition zone_format (l : layout) (z : Zone) (ts : Z) : string :=
  match zn_loc z with
  | None => format_local l ts +:+ "Z"
  | Some loc => format_local l (ts + lo_offset loc ts * second) +:+ format_offset (lo_offset loc ts)
  end.

Definition Narrow (z : Zone) (ts : Z) : string := zone_format narrowLayout z ts.
Definition Wide (z : Zone) (ts : Z) : string := zone_format wideLayout z ts.
Definition Instant (z : Zone) (ts : Z) : string := zone_format headerLayout z ts.

Example instants :
  let warsaw := mkZone (Some (mkLocation "Europe/Warsaw" (fun _ => 7200%Z))) "Europe/Warsaw" in
  let t := (1789080073 * second + 263000000)%Z in
  [Narrow UTC t; Wide warsaw t; Instant warsaw t] =
  ["2026-09-10 22:41:13.263Z"; "2026-09-11T00:41:13.263000000+02:00"; "2026-09-11T00:41:13+02:00"].
Proof. vm_compute. reflexivity. Qed.

(** ** change.go *)

Class AnyCodec := {
  (** [json.Unmarshal] into an [any]. *)
  decode_any : string -> option json;
  (** [json.Marshal] of a decoded value. *)
  encode_any : json -> option string;
}.

(** An element of the decoded [[]struct{op, path, from, value}]. *)
Record wireOp := mkWireOp { wo_Op : string; wo_Path : string; wo_From : string; wo_Value : string }.

Class PatchCodec := {
  (** [json.Unmarshal] of a recorded patch. *)
  decode_ops : string -> result string (list wireOp);
}.

Definition OpAdd : string := "add".
Definition OpRemove : string := "remove".
Definition OpReplace : string := "replace".

Record Op := mkOp {
  ro_Type : string;
  ro_Path : string;
  ro_From : string;
  (** the raw JSON, empty when absent *)
  ro_Value : string;
  ro_Old : json;
  ro_OldKnown : bool;
}.

(** [unicode.IsSpace], on the encoding of a rune. *)
Definition space_runes : list string :=
  map bytes ([[9]; [10]; [11]; [12]; [13]; [32]; [194; 133]; [194; 160]; [225; 154; 128]; [226; 128; 168]; [226; 128; 169];
              [226; 128; 175]; [226; 129; 159]; [227; 128; 128]] ++ map (fun i => [226; 128; 128 + Z.of_nat i]) (seq 0 11))%Z.

Definition is_space (span : string) : bool := bool_decide (span ∈ space_runes).

(** [strings.TrimSpace(s) == ""]. *)
Definition blank (s : string) : bool := forallb is_space (spans s).

(** [strings.Fields]. *)
Fixpoint fields_loop (l : list string) (current : string) : list string :=
  let flush := if bool_decide (current = "") then [] else [current] in
  match l with
  | [] => flush
  | span :: rest => if is_space span then flush ++ fields_loop rest "" else fields_loop rest (current +:+ span)
  end.
Definition Fields (s : string) : list string := fields_loop (spans s) "".

Definition newline : Ascii.ascii := Ascii.ascii_of_nat 10.
Definition carriage : Ascii.ascii := Ascii.ascii_of_nat 13.
Definition tab : Ascii.ascii := Ascii.ascii_of_nat 9.

(** The [strings.NewReplacer] of [collapseWhitespace]. *)
Fixpoint flatten_breaks (text : string) : string :=
  match text with
  | EmptyString => ""
  | String a rest =>
      if bool_decide (a = carriage) then
        match rest with
        | String b rest' => if bool_decide (b = newline) then String " " (flatten_breaks rest') else String " " (flatten_breaks rest)
        | EmptyString => " "
        end
      else if bool_decide (a = newline) || bool_decide (a = tab) then String " " (flatten_breaks rest)
      else String a (flatten_breaks rest)
  end.

Definition collapseWhitespace (text : string) : string :=
  if negb (string_mem newline text || string_mem carriage text || string_mem tab text) then text
  else join " " (Fields (flatten_breaks text)).

Definition glyph (opType : string) : string :=
  if bool_decide (opType = OpAdd) then "+"
  else if bool_decide (opType = OpRemove) then "-"
  else if bool_decide (opType = OpReplace) then "~"
  else opType.

Definition opMarker (op : Op) : string := glyph (ro_Type op) +:+ " ".
Definition valueSuffix (values : string) : string := if bool_decide (values = "") then "" else ": " +:+ values.
Definition multiOpSummary (count : nat) : string := Itoa count +:+ " ops".

Section operations.
Context `{AnyCodec, PatchCodec}.

Definition PatchOps (diff : string) : result string (list Op) :=
  if blank diff then Ok []
  else match decode_ops diff with
       | Err reason => Err ("decoding the recorded patch: " +:+ reason)
       | Ok wire => Ok (map (fun w => mkOp (wo_Op w) (wo_Path w) (wo_From w) (wo_Value w) JNull false) wire)
       end.

(** [bytes.TrimSpace] on the raw value is [blank] too. *)
Definition valueText (raw : string) : string :=
  if blank raw then ""
  else match decode_any raw with
       | None => collapseWhitespace raw
       | Some (JStr text) => collapseWhitespace text
       | Some decoded => match encode_any decoded with Some compacted => collapseWhitespace compacted | None => collapseWhitespace raw end
       end.

(** [rendered] is the [%v] of a value that will not marshal. *)
Definition valueOf (rendered : json -> string) (value : json) : string :=
  match encode_any value with Some encoded => valueText encoded | None => rendered value end.

Variable rendered : json -> string.

Definition opValues (op : Op) : string :=
  let newValue := valueText (ro_Value op) in
  if bool_decide (ro_Type op = OpAdd) then newValue
  else if bool_decide (ro_Type op = OpRemove) then (if ro_OldKnown op then valueOf rendered (ro_Old op) else "")
  else if bool_decide (ro_Type op = OpReplace) then
    (if ro_OldKnown op then valueOf rendered (ro_Old op) +:+ " " +:+ Arrow +:+ " " +:+ newValue else newValue)
  else if negb (bool_decide (ro_From op = "")) then DisplayPath (ro_From op)
  else newValue.

Definition fitValues (op : Op) (avail : Z) : string :=
  if bool_decide (avail <= 0)%Z then ""
  else
    let newValue := valueText (ro_Value op) in
    if negb (bool_decide (ro_Type op = OpReplace)) || negb (ro_OldKnown op) then truncate (opValues op) avail
    else
      let oldValue := valueOf rendered (ro_Old op) in
      let remaining := (avail - displayWidth (" " +:+ Arrow +:+ " "))%Z in
      if bool_decide (remaining < 2)%Z then truncate newValue avail
      else
        let oldBudget := Z.min (displayWidth oldValue) (Z.quot remaining 2) in
        let newBudget := (remaining - oldBudget)%Z in
        let '(oldBudget, newBudget) :=
          if bool_decide (displayWidth newValue < newBudget)%Z
          then (Z.min (displayWidth oldValue) (remaining - displayWidth newValue), displayWidth newValue)
          else (oldBudget, newBudget) in
        truncate oldValue oldBudget +:+ " " +:+ Arrow +:+ " " +:+ truncate newValue newBudget.

Definition opText (op : Op) (width : Z) : string :=
  let prefix := opMarker op in
  let path := DisplayPath (ro_Path op) in
  let values := opValues op in
  if bool_decide (width <= 0)%Z then prefix +:+ path +:+ valueSuffix values
  else
    let budget := (width - displayWidth prefix - displayWidth (valueSuffix values))%Z in
    let path := if bool_decide (budget < displayWidth path)%Z then Elide path (Z.max budget minPathWidth) else path in
    let remaining := (width - displayWidth prefix - displayWidth path - displayWidth ": ")%Z in
    let values := if negb (bool_decide (values = "")) && bool_decide (remaining < displayWidth values)%Z
                  then fitValues op remaining else values in
    truncate (prefix +:+ path +:+ valueSuffix values) width.

Definition opTextParts (op : Op) : string * string :=
  let marker := opMarker op in
  (marker, match cut_prefix (opText op 0) marker with Some detail => detail | None => opText op 0 end).
End operations.

(** ** Runes: what the decoder takes *)

Fixpoint str_take (n : nat) (s : string) : string :=
  match n, s with S n, String a s => String a (str_take n s) | _, _ => "" end.
Fixpoint str_drop (n : nat) (s : string) : string :=
  match n, s with S n, String _ s => str_drop n s | _, _ => s end.

(** How many bytes of [s] go with the first byte [a]. *)
Definition taken (a : Ascii.ascii) (s : string) : nat :=
  if is_ascii a then 0
  else match s with
       | EmptyString => 0
       | String b s2 =>
           if two_bytes a b then 1
           else match s2 with
                | EmptyString => 0
                | String c s3 =>
                    if three_bytes a b c then 2
                    else match s3 with
                         | EmptyString => 0
                         | String d _ => if four_bytes a b c d then 3 else 0
                         end
                end
       end.

Ltac by_bytes := repeat (first [done | case_match | progress (cbn [str_take str_drop String.length]) | progress simplify_eq]).

Lemma spans_cons a s : spans (String a s) = String a (str_take (taken a s) s) :: spans (str_drop (taken a s) s).
Proof. cbn [spans]. unfold taken. by_bytes. Qed.

Lemma str_take_drop n s : str_take n s +:+ str_drop n s = s.
Proof. revert n. induction s as [|a s IH]; intros [|n]; cbn [str_take str_drop]; [done..|]. by rewrite string_app_cons, IH. Qed.

Lemma str_drop_length n s : String.length (str_drop n s) <= String.length s.
Proof. revert n. induction s as [|a s IH]; intros [|n]; cbn [str_drop String.length]; [lia..|]. specialize (IH n). lia. Qed.

Lemma spans_ind (P : string -> Prop) :
  P "" -> (forall a s, P (str_drop (taken a s) s) -> P (String a s)) -> forall s, P s.
Proof.
  intros Hnil Hcons s. induction (well_founded_ltof _ String.length s) as [s _ IH]. destruct s as [|a s]; [done|].
  apply Hcons, IH. unfold ltof. cbn [String.length]. pose proof (str_drop_length (taken a s) s). lia.
Qed.

Lemma of_spans s : of_runes (spans s) = s.
Proof.
  induction s as [|a s IH] using spans_ind; [done|]. rewrite spans_cons. cbn [of_runes foldr]. fold (of_runes (spans (str_drop (taken a s) s))).
  by rewrite IH, string_app_cons, str_take_drop.
Qed.

(** A text that does not begin inside a sequence. *)
Definition starts (t : string) : Prop := match t with EmptyString => True | String c _ => continues c = false end.

Lemma taken_app a s t : starts t -> taken a (s +:+ t) = taken a s /\ str_take (taken a s) (s +:+ t) = str_take (taken a s) s /\
  str_drop (taken a s) (s +:+ t) = str_drop (taken a s) s +:+ t.
Proof.
  intros Ht. unfold taken. destruct (is_ascii a); [done|].
  assert (Hno : forall b b' c', continues c' = false -> two_bytes b c' = false /\ three_bytes b c' b' = false /\ three_bytes b b' c' = false).
  { intros b b' c' Hc. unfold two_bytes, three_bytes. rewrite Hc, !andb_false_r. by destruct (continues b'). }
  assert (Hno4 : forall b b' b'' c', continues c' = false ->
            four_bytes b c' b' b'' = false /\ four_bytes b b' c' b'' = false /\ four_bytes b b' b'' c' = false).
  { intros b b' b'' c' Hc. unfold four_bytes. rewrite Hc, !andb_false_r. by destruct (in_range 240 244 b), (continues b'), (continues b''). }
  destruct s as [|b [|c [|d s]]].
  - rewrite string_app_nil_l. destruct t as [|b [|c [|d t]]]; try done; cbn [starts] in Ht; rewrite ?(proj1 (Hno a b b Ht)); try done;
      rewrite ?(proj1 (proj2 (Hno a c b Ht))); try done. by rewrite (proj1 (Hno4 a c d b Ht)).
  - rewrite string_app_cons, string_app_nil_l. destruct (two_bytes a b); [done|]. destruct t as [|c [|d t]]; try done; cbn [starts] in Ht;
      rewrite ?(proj2 (proj2 (Hno a b c Ht))); try done. by rewrite (proj1 (proj2 (Hno4 a b d c Ht))).
  - rewrite !string_app_cons, string_app_nil_l. destruct (two_bytes a b); [done|]. destruct (three_bytes a b c); [done|].
    destruct t as [|d t]; [done|]. cbn [starts] in Ht. by rewrite (proj2 (proj2 (Hno4 a b c d Ht))).
  - rewrite !string_app_cons. by_bytes.
Qed.

Lemma spans_app s t : starts t -> spans (s +:+ t) = spans s ++ spans t.
Proof.
  intros Ht. induction s as [|a s IH] using spans_ind; [done|]. rewrite string_app_cons, !spans_cons.
  destruct (taken_app a s t Ht) as (-> & -> & ->). by rewrite IH.
Qed.

(** A whole rune is taken as one, whatever follows. *)
Definition is_rune (r : string) : Prop := forall t, spans (r +:+ t) = r :: spans t /\ rune_text r = r.

Lemma rune_texts s : Forall (fun span => is_rune (rune_text span)) (spans s).
Proof.
  assert (Hrep : is_rune replacement) by (intros t; by split).
  induction s as [|a s IH] using spans_ind; [constructor|]. rewrite spans_cons. constructor; [|done]. clear IH.
  unfold taken. destruct (is_ascii a) eqn:Ea.
  - cbn [str_take rune_text]. rewrite Ea. intros t. cbn [rune_text]. rewrite Ea, string_app_cons, string_app_nil_l. cbn [spans]. by rewrite Ea.
  - destruct s as [|b s]; [cbn [str_take rune_text]; by rewrite Ea|].
    destruct (two_bytes a b) eqn:E2.
    { intros t. cbn [str_take rune_text]. rewrite !string_app_cons, string_app_nil_l. cbn [spans]. by rewrite Ea, E2. }
    destruct s as [|c s]; [cbn [str_take rune_text]; by rewrite Ea|].
    destruct (three_bytes a b c) eqn:E3.
    { intros t. cbn [str_take rune_text]. rewrite !string_app_cons, string_app_nil_l. cbn [spans]. by rewrite Ea, E2, E3. }
    destruct s as [|d s]; [cbn [str_take rune_text]; by rewrite Ea|].
    destruct (four_bytes a b c d) eqn:E4; [|cbn [str_take rune_text]; by rewrite Ea].
    intros t. cbn [str_take rune_text]. rewrite !string_app_cons, string_app_nil_l. cbn [spans]. by rewrite Ea, E2, E3, E4.
Qed.

Lemma runes_are_runes s : Forall is_rune (runes s).
Proof. unfold runes. apply Forall_fmap, rune_texts. Qed.

Lemma runes_of_runes rs t : Forall is_rune rs -> runes (of_runes rs +:+ t) = rs ++ runes t.
Proof.
  induction 1 as [|r rs Hr _ IH]; [done|]. cbn [of_runes foldr]. fold (of_runes rs). rewrite string_app_assoc. unfold runes in *.
  destruct (Hr (of_runes rs +:+ t)) as [-> Ht]. cbn [map]. by rewrite Ht, IH.
Qed.

Lemma width_app s t : starts t -> displayWidth (s +:+ t) = (displayWidth s + displayWidth t)%Z.
Proof. intros Ht. unfold displayWidth, runes. rewrite (spans_app _ _ Ht), map_app, length_app. lia. Qed.

Lemma width_rune r t : is_rune r -> displayWidth (r +:+ t) = (1 + displayWidth t)%Z.
Proof.
  intros Hr. unfold displayWidth. pose proof (runes_of_runes [r] t (proj2 (Forall_singleton _ _) Hr)) as E. cbn [of_runes foldr] in E.
  rewrite string_app_nil_r in E. rewrite E. simpl. lia.
Qed.

Lemma width_nonneg s : (0 <= displayWidth s)%Z.
Proof. unfold displayWidth. lia. Qed.

Lemma ellipsis_rune : is_rune Ellipsis.
Proof. intros t. by split. Qed.
Lemma arrow_rune : is_rune Arrow.
Proof. intros t. by split. Qed.
Lemma ascii_rune c : is_ascii c = true -> is_rune (String c "").
Proof. intros Hc t. rewrite string_app_cons, string_app_nil_l. cbn [spans rune_text]. by rewrite Hc. Qed.

Lemma truncate_fits text width : (displayWidth (truncate text width) <= Z.max width 0)%Z.
Proof.
  unfold truncate. repeat case_bool_decide.
  - change (displayWidth "") with 0%Z. lia.
  - lia.
  - change (displayWidth Ellipsis) with 1%Z. lia.
  - unfold displayWidth. rewrite runes_of_runes; [|by apply Forall_take, runes_are_runes].
    change (runes Ellipsis) with [Ellipsis]. rewrite length_app, length_take. simpl. lia.
Qed.

(** ** Cells fit their columns *)

Lemma elide_tail_fits segments fixed width i tail :
  (fixed + displayWidth tail <= width)%Z \/ tail = "" ->
  let out := elide_tail segments fixed width i tail in (fixed + displayWidth out <= width)%Z \/ out = "".
Proof.
  revert tail. induction i as [|i IH]; intros tail Ht; cbn [elide_tail]; [done|]. case_bool_decide; [done|]. apply IH. left. lia.
Qed.

Lemma elide_fits path width : (0 < width)%Z -> (displayWidth (Elide path width) <= width)%Z.
Proof.
  intros Hw. unfold Elide. rewrite (bool_decide_eq_false_2 (width <= 0)%Z) by lia. cbn [orb]. case_bool_decide; [done|].
  pose proof (truncate_fits path width) as Ht. destruct (splitDisplayPath path) as [|head [|next rest]]; [lia..|].
  set (segments := head :: next :: rest). set (fixed := (displayWidth head + 1 + displayWidth Ellipsis)%Z).
  pose proof (elide_tail_fits segments fixed width (length segments - 1) "" (or_intror eq_refl)) as Hf. cbv zeta in Hf.
  revert Hf. generalize (elide_tail segments fixed width (length segments - 1) ""). intros tail Hf.
  destruct (bool_decide_reflect (tail = "")) as [E|E].
  - rewrite (width_rune _ _ ellipsis_rune).
    pose proof (truncate_fits (joinDisplaySegments (drop (length segments - 1) segments)) (width - displayWidth Ellipsis)).
    change (displayWidth Ellipsis) with 1%Z in *. lia.
  - destruct Hf as [Hf|Hf]; [|done].
    rewrite width_app by done. rewrite (width_rune "."), (width_rune _ _ ellipsis_rune) by (by apply ascii_rune).
    unfold fixed in Hf. change (displayWidth Ellipsis) with 1%Z in Hf. lia.
Qed.

Lemma fit_values_fits `{AnyCodec} rendered op avail : (0 < avail)%Z -> (displayWidth (fitValues rendered op avail) <= avail)%Z.
Proof.
  intros Ha. unfold fitValues. rewrite bool_decide_eq_false_2 by lia. cbv zeta.
  change (displayWidth (" " +:+ Arrow +:+ " ")) with 3%Z.
  case_match; [pose proof (truncate_fits (opValues rendered op) avail); lia|].
  set (old := valueOf rendered (ro_Old op)). set (new := valueText (ro_Value op)).
  destruct (bool_decide_reflect (avail - 3 < 2)%Z) as [Hr|Hr]; [pose proof (truncate_fits new avail); lia|].
  assert (Hsum : forall a b, (0 <= a)%Z -> (0 <= b)%Z -> (a + b + 3 <= avail)%Z ->
            (displayWidth (truncate old a +:+ " " +:+ Arrow +:+ " " +:+ truncate new b) <= avail)%Z).
  { intros a b A1 A2 A3. rewrite width_app by done. rewrite (width_rune " "), (width_rune _ _ arrow_rune), (width_rune " ") by (by apply ascii_rune).
    pose proof (truncate_fits old a). pose proof (truncate_fits new b). lia. }
  pose proof (width_nonneg old). pose proof (width_nonneg new).
  pose proof (Z.quot_pos (avail - 3) 2). pose proof (Z.mul_quot_le (avail - 3) 2).
  match goal with |- context [bool_decide (displayWidth new < ?n)%Z] => destruct (bool_decide_reflect (displayWidth new < n)%Z) end; apply Hsum; lia.
Qed.

Lemma pad_width text width : displayWidth (pad text width) = Z.max width (displayWidth text).
Proof.
  unfold pad. case_bool_decide; [|lia].
  assert (Hs : forall n, displayWidth (spaces n) = Z.of_nat n /\ starts (spaces n)).
  { induction n as [|n [IH _]]; [done|]. split; [|done]. change (spaces (S n)) with (" " +:+ spaces n).
    rewrite (width_rune " ") by (by apply ascii_rune). lia. }
  destruct (Hs (Z.to_nat (width - displayWidth text))) as [Hw Ht]. rewrite width_app, Hw by done. lia.
Qed.

(** no cell overflows its column. Counted in runes, with refused bytes counted as
    the replacement character they print as, a path elided to a positive width, a pair of
    values fitted to a positive width and an operation rendered into a positive width all
    take at most that many columns, whatever the text; padding a cell makes it exactly as
    wide as the wider of column and text; and an operation rendered without a limit
    splits into its marker and its detail without losing a byte. *)
Theorem cells_fit `{AnyCodec} rendered (op : Op) (path text : string) width : (0 < width)%Z ->
  (displayWidth (Elide path width) <= width)%Z /\
  (displayWidth (fitValues rendered op width) <= width)%Z /\
  (displayWidth (opText rendered op width) <= width)%Z /\
  (displayWidth (truncate text width) <= width)%Z /\
  displayWidth (pad text width) = Z.max width (displayWidth text) /\
  (let '(marker, detail) := opTextParts rendered op in marker +:+ detail = opText rendered op 0).
Proof.
  intros Hw. split_and!.
  - by apply elide_fits.
  - by apply fit_values_fits.
  - unfold opText. rewrite bool_decide_eq_false_2 by lia. cbv zeta.
    match goal with |- context [truncate ?t width] => pose proof (truncate_fits t width) end. lia.
  - pose proof (truncate_fits text width). lia.
  - apply pad_width.
  - unfold opTextParts. assert (E : exists detail, opText rendered op 0 = opMarker op +:+ detail) by (by eexists).
    destruct E as [detail ->]. by rewrite cut_prefix_app.
Qed.

(** ** The three grammars of a path *)

Definition valid_text (s : string) : Prop := of_runes (runes s) = s.
Definition no_bracket (s : string) : Prop := string_mem "["%char s = false /\ string_mem "]"%char s = false.

(** What [NormalizeFieldPath] writes for one rune. *)
Definition dot_bracket (r : string) : string :=
  if bool_decide (r = "[") then "." else if bool_decide (r = "]") then "" else r.

Lemma of_runes_app a b : of_runes (a ++ b) = of_runes a +:+ of_runes b.
Proof. induction a as [|r a IH]; [done|]. cbn [of_runes foldr app]. fold (of_runes (a ++ b)). fold (of_runes a). by rewrite IH, string_app_assoc. Qed.

Lemma string_mem_of_runes c rs : string_mem c (of_runes rs) = existsb (string_mem c) rs.
Proof. induction rs as [|r rs IH]; [done|]. cbn [of_runes foldr existsb]. fold (of_runes rs). by rewrite string_mem_app, IH. Qed.

Lemma dot_bracket_plain s : valid_text s -> no_bracket s -> of_runes (map dot_bracket (runes s)) = s.
Proof.
  unfold valid_text. intros Hv [Hl Hr]. rewrite <-Hv in Hl, Hr. rewrite string_mem_of_runes in Hl, Hr.
  assert (E : map dot_bracket (runes s) = runes s); [|by rewrite E].
  clear Hv. induction (runes s) as [|r rs IH]; [done|]. cbn [existsb] in Hl, Hr. apply orb_false_iff in Hl as [Hl Hls], Hr as [Hr Hrs].
  cbn [map]. rewrite IH by done. unfold dot_bracket. rewrite !bool_decide_eq_false_2; [done|..]; by intros ->.
Qed.

(** The runes of the concatenation of valid texts. *)
Lemma runes_of_valid parts : Forall valid_text parts -> runes (of_runes parts) = parts ≫= runes.
Proof.
  induction 1 as [|p parts Hp _ IH]; [done|]. cbn [of_runes foldr]. fold (of_runes parts). rewrite <-(Hp : of_runes (runes p) = p) at 1.
  rewrite runes_of_runes by apply runes_are_runes. simpl. by rewrite IH.
Qed.

Lemma valid_app s t : valid_text s -> valid_text t -> valid_text (s +:+ t).
Proof.
  intros Hs Ht. unfold valid_text in *. rewrite <-Hs at 1. rewrite runes_of_runes by apply runes_are_runes. by rewrite of_runes_app, Hs, Ht.
Qed.

Lemma display_segment_valid i s : valid_text s -> valid_text (display_segment i s).
Proof.
  intros Hs. unfold display_segment. repeat case_match; [|by apply valid_app|done]. apply valid_app; [done|]. by apply valid_app.
Qed.

Lemma isIndex_digits s : isIndex s = true -> all_digits s = true.
Proof. unfold isIndex. destruct s; [done|]. by case_match. Qed.

(** A segment as the filter grammar spells it. *)
Lemma dot_bracket_segment i s : valid_text s -> no_bracket s ->
  of_runes (map dot_bracket (runes (display_segment i s))) = if bool_decide (0 < i) then "." +:+ s else s.
Proof.
  intros Hv Hb. unfold display_segment. destruct (bool_decide_reflect (0 < i)) as [Hi|Hi]; simpl; [|by apply dot_bracket_plain].
  assert (Hdot : forall t, valid_text t -> of_runes (map dot_bracket (runes ("." +:+ t))) = "." +:+ of_runes (map dot_bracket (runes t)))
    by (intros t _; done).
  destruct (isIndex s); [|rewrite (Hdot _ Hv); by rewrite dot_bracket_plain].
  change ("[" +:+ s +:+ "]") with (of_runes ["["; s; "]"]). rewrite runes_of_valid by (by repeat constructor). simpl.
  rewrite map_app, of_runes_app. rewrite dot_bracket_plain by done. simpl. by rewrite string_app_nil_r.
Qed.

Lemma display_segments_dotted n segments : Forall valid_text segments -> Forall no_bracket segments ->
  of_runes (map dot_bracket (imap (fun i => display_segment (S n + i)) segments ≫= runes)) =
  of_runes (map (fun s => "." +:+ s) segments).
Proof.
  intros Hv. revert n. induction Hv as [|s segments Hs Hv IH]; intros n Hb; [done|]. apply Forall_cons in Hb as [Hsb Hb].
  cbn [imap mbind list_bind]. rewrite map_app, of_runes_app, dot_bracket_segment by done. rewrite bool_decide_eq_true_2 by lia.
  cbn [map of_runes foldr]. fold (of_runes (map (fun s => "." +:+ s) segments)). f_equal. rewrite <-(IH (S n) Hb).
  do 3 f_equal.
Qed.

Lemma of_bind_runes parts : Forall valid_text parts -> of_runes (parts ≫= runes) = of_runes parts.
Proof.
  induction 1 as [|p parts Hp _ IH]; [done|]. change ((p :: parts) ≫= runes) with (runes p ++ (parts ≫= runes)).
  rewrite of_runes_app, IH. by rewrite (Hp : of_runes (runes p) = p).
Qed.

Lemma display_valid segments : Forall valid_text segments -> Forall valid_text (imap display_segment segments).
Proof.
  intros Hv. apply Forall_lookup. intros i x Hx. rewrite list_lookup_imap in Hx. apply fmap_Some in Hx as (y & Hy & ->).
  rewrite Forall_lookup in Hv. by eapply display_segment_valid, Hv.
Qed.

Lemma join_dots s segments : s +:+ of_runes (map (fun s => "." +:+ s) segments) = join "." (s :: segments).
Proof.
  revert s. induction segments as [|t segments IH]; intros s; [apply string_app_nil_r|].
  change (join "." (s :: t :: segments)) with (s +:+ "." +:+ join "." (t :: segments)). rewrite <-IH.
  cbn [map of_runes foldr]. by rewrite string_app_assoc.
Qed.

Lemma pointerSegments_to names : names <> [] -> names <> [""] -> pointerSegments (pointer_to names) = names.
Proof.
  intros H1 H2. unfold pointerSegments. destruct names as [|n names]; [done|].
  assert (Ht : split_on "/"%char (trim_slash (pointer_to (n :: names))) = map escape (n :: names)).
  { unfold pointer_to. cbn [map]. apply split_trimmed, (escape_slash_free (n :: names)). }
  rewrite (bool_decide_eq_false_2 (pointer_to (n :: names) = "")) by done. cbn [orb]. rewrite (bool_decide_eq_false_2 (pointer_to (n :: names) = "/")).
  - rewrite andb_false_r, Ht, map_map. rewrite (map_ext _ id); [by rewrite map_id|]. intros x. apply unescape_escape.
  - intros E. rewrite E in Ht. cbn in Ht. injection Ht as Hn Hrest. symmetry in Hrest. apply map_eq_nil in Hrest as ->.
    apply H2. f_equal. apply escape_inj. by rewrite <-Hn.
Qed.

(** C40: a printed path can be typed back. A pointer through members whose names are
    valid text without square brackets - dots, slashes, tildes and digits allowed - is
    printed in the display grammar; normalizing what was printed gives exactly the dotted
    path the filter compares with, so the filter matches the pointer it was copied from,
    and everything beneath it. This is of the path as [DisplayPath] gives it, which a
    table too narrow for it then elides; a name with brackets does not come back
    ([bracketed_name_lost]). *)
Theorem displayed_path_filters names rest :
  names <> [] -> names <> [""] -> Forall valid_text names -> Forall no_bracket names ->
  NormalizeFieldPath (DisplayPath (pointer_to names)) = dottedPath (pointer_to names) /\
  MatchesFieldPath (pointer_to (names ++ rest)) [NormalizeFieldPath (DisplayPath (pointer_to names))] = true.
Proof.
  intros Hne Hne2 Hv Hb. assert (E : NormalizeFieldPath (DisplayPath (pointer_to names)) = join "." names).
  { unfold DisplayPath. rewrite pointerSegments_to by done. rewrite bool_decide_eq_false_2 by (by destruct names).
    assert (Hd : of_runes (map dot_bracket (runes (of_runes (imap display_segment names)))) = join "." names).
    { rewrite runes_of_valid by (by apply display_valid).
      destruct names as [|s segments]; [done|]. apply Forall_cons in Hv as [Hsv Hv], Hb as [Hsb Hb].
      cbn [imap mbind list_bind]. rewrite map_app, of_runes_app, dot_bracket_segment by done. rewrite bool_decide_eq_false_2 by lia.
      rewrite <-join_dots. f_equal. by rewrite <-(display_segments_dotted 0). }
    unfold NormalizeFieldPath. case_match eqn:Em; [|done]. rewrite <-Hd. apply negb_true_iff, orb_false_iff in Em.
    rewrite dot_bracket_plain; [done| |done]. clear -Hv. unfold valid_text. rewrite runes_of_valid.
    - by apply of_bind_runes, display_valid.
    - by apply display_valid. }
  rewrite E. unfold pointer_to. split; [symmetry; by apply dotted_pointer|]. unfold MatchesFieldPath. simpl.
  rewrite dotted_pointer by (by destruct names). rewrite orb_false_r. apply orb_true_iff.
  destruct rest as [|r rest]; [left; apply bool_decide_eq_true; by rewrite app_nil_r|]. right.
  rewrite join_app_dot by done. apply has_prefix_spec. exists (join "." (r :: rest)). by rewrite string_app_assoc.
Qed.

(** ** Printed instants *)

Lemma parse_zeros n s : parse_digits 0 (zeros n +:+ s) = parse_digits 0 s.
Proof. induction n as [|n IH]; [done|]. cbn [zeros]. rewrite string_app_cons. cbn [parse_digits]. done. Qed.

Lemma digits_app s t : all_digits (s +:+ t) = all_digits s && all_digits t.
Proof. induction s as [|a s IH]; [done|]. rewrite string_app_cons. cbn [all_digits]. by rewrite IH, andb_assoc. Qed.

Lemma pretty_digits x : all_digits (pretty x) = true /\ parse_digits 0 (pretty x) = Some (Z.of_N x).
Proof.
  unfold pretty, pretty_N. case_decide as E; [by subst|]. split; [by apply pretty_go_digits|].
  destruct (parse_pretty_go x "" 0) as (k & _ & ->). cbn [parse_digits]. by rewrite Z.mul_0_l.
Qed.

Lemma appendInt_digits x width : (0 <= x)%Z -> all_digits (appendInt x width) = true /\ parse_digits 0 (appendInt x width) = Some x.
Proof.
  intros Hx. unfold appendInt. rewrite (proj2 (Z.ltb_ge x 0)) by lia. rewrite string_app_nil_l.
  destruct (pretty_digits (Z.to_N (Z.abs x))) as [Hd Hp]. rewrite parse_zeros, Hp. split; [|f_equal; lia].
  rewrite digits_app, Hd, andb_true_r. induction (width - String.length (pretty (Z.to_N (Z.abs x)))) as [|n IH]; [done|]. by cbn [zeros all_digits].
Qed.

(** A run of digits ends where it ends. *)
Lemma digits_split s s' t t' : all_digits s = true -> all_digits s' = true ->
  (forall c r, t = String c r -> digit_ok c = false) -> (forall c r, t' = String c r -> digit_ok c = false) ->
  s +:+ t = s' +:+ t' -> s = s' /\ t = t'.
Proof.
  intros Hs Hs' Ht Ht'. revert s' Hs'. induction s as [|a s IH]; intros [|a' s'] Hs' E;
    rewrite ?string_app_nil_l, ?string_app_cons in E; cbn [all_digits] in Hs, Hs'; [done|..].
  - apply andb_true_iff in Hs' as [Ha _]. by rewrite (Ht _ _ E) in Ha.
  - apply andb_true_iff in Hs as [Ha _]. symmetry in E. by rewrite (Ht' _ _ E) in Ha.
  - injection E as -> E. apply andb_true_iff in Hs as [_ Hs], Hs' as [_ Hs']. by destruct (IH Hs s' Hs' E) as [-> ->].
Qed.

Lemma number_split x y width t t' : (0 <= x)%Z -> (0 <= y)%Z ->
  (forall c r, t = String c r -> digit_ok c = false) -> (forall c r, t' = String c r -> digit_ok c = false) ->
  appendInt x width +:+ t = appendInt y width +:+ t' -> x = y /\ t = t'.
Proof.
  intros Hx Hy Ht Ht' E. destruct (appendInt_digits x width Hx) as [Hdx Hpx], (appendInt_digits y width Hy) as [Hdy Hpy].
  destruct (digits_split _ _ _ _ Hdx Hdy Ht Ht' E) as [Exy ->]. rewrite Exy, Hpy in Hpx. by injection Hpx.
Qed.

Ltac no_digit := intros ?c ?r [= <- _]; reflexivity.

(** The local time a wide instant shows, and what follows it. *)
Lemma wide_local t u s s' : representable t -> representable u ->
  (forall c r, s = String c r -> digit_ok c = false) -> (forall c r, s' = String c r -> digit_ok c = false) ->
  format_local wideLayout t +:+ s = format_local wideLayout u +:+ s' -> t = u /\ s = s'.
Proof.
  intros Rt Ru Hs Hs'. unfold format_local. rewrite !string_app_assoc. intros E.
  apply string_app_inj in E as [Ed E]; [|by rewrite !format_date_length]. injection E as E.
  unfold format_clock in E. cbv zeta in E. rewrite !string_app_assoc in E.
  set (x := ((t / second) `mod` 86400)%Z) in *. set (y := ((u / second) `mod` 86400)%Z) in *.
  assert (Hx : (0 <= x < 86400)%Z) by (apply Z.mod_pos_bound; lia). assert (Hy : (0 <= y < 86400)%Z) by (apply Z.mod_pos_bound; lia).
  apply number_split in E as [E1 E]; [|apply Z.div_pos; lia..|no_digit|no_digit]. injection E as E.
  apply number_split in E as [E2 E]; [|apply Z.mod_pos_bound; lia..|no_digit|no_digit]. injection E as E.
  apply number_split in E as [E3 E]; [|apply Z.mod_pos_bound; lia..|no_digit|no_digit]. injection E as E.
  apply number_split in E as [E4 E]; [|apply Z.div_pos; [apply Z.mod_pos_bound; done|done]..|done|done]. split; [|done].
  rewrite !Z.div_1_r in E4. apply format_date_inj in Ed; [|done..].
  assert (Exy : x = y).
  { clear -E1 E2 E3. Z.to_euclidean_division_equations. lia. }
  unfold dayStart, day, hour, x, y, second in *. clear -Ed Exy E4. Z.to_euclidean_division_equations. lia.
Qed.

(** The local reading of an instant is one a timestamp can show, at an offset of whole
    minutes. *)
Definition shown (z : Zone) (ts : Z) : Prop :=
  match zn_loc z with
  | None => representable ts
  | Some loc => representable (ts + lo_offset loc ts * second) /\ (lo_offset loc ts `mod` 60 = 0)%Z
  end.

Lemma offset_inj o o' : (o `mod` 60 = 0)%Z -> (o' `mod` 60 = 0)%Z -> format_offset o = format_offset o' -> o = o'.
Proof.
  intros Ho Ho'. unfold format_offset. cbv zeta. set (m := Z.quot o 60). set (m' := Z.quot o' 60). intros E.
  apply string_app_inj in E as [Es E]; [|by repeat case_bool_decide].
  apply number_split in E as [E1 E]; [|apply Z.div_pos; lia..|no_digit|no_digit]. injection E as E.
  rewrite <-(string_app_nil_r (appendInt _ _)), <-(string_app_nil_r (appendInt (Z.abs m' `mod` 60) _)) in E.
  apply number_split in E as [E2 _]; [|apply Z.mod_pos_bound; lia..|done|done].
  assert (Ha : Z.abs m = Z.abs m') by (clear -E1 E2; Z.to_euclidean_division_equations; lia).
  assert (Hm : m = m') by (revert Es; repeat case_bool_decide; (done || lia)).
  unfold m, m' in *. clear -Hm Ho Ho'. Z.to_euclidean_division_equations. lia.
Qed.

(** A printed instant names one instant. In any frame, or in two different ones, the wide
    rendering - local time and offset - is that of a single nanosecond: two instants that
    print the same are the same. *)
Theorem wide_instant_determines z z' t t' : shown z t -> shown z' t' -> Wide z t = Wide z' t' -> t = t'.
Proof.
  unfold shown, Wide, zone_format.
  assert (Hsign : forall o c r, format_offset o = String c r -> digit_ok c = false).
  { intros o c r. unfold format_offset. cbv zeta. case_bool_decide; rewrite string_app_cons; by intros [= <- _]. }
  destruct (zn_loc z) as [loc|], (zn_loc z') as [loc'|].
  - intros [R M] [R' M'] E. apply wide_local in E as [El Eo]; [|done|done|apply Hsign|apply Hsign].
    apply offset_inj in Eo; [|done..]. rewrite Eo in El. lia.
  - intros [R M] R' E. apply wide_local in E as [El Eo]; [|done|done|apply Hsign|no_digit].
    unfold format_offset in Eo. cbv zeta in Eo. by revert Eo; case_bool_decide; rewrite string_app_cons.
  - intros R [R' M'] E. apply wide_local in E as [El Eo]; [|done|done|no_digit|apply Hsign].
    unfold format_offset in Eo. cbv zeta in Eo. by revert Eo; case_bool_decide; rewrite string_app_cons.
  - intros R R' E. by apply wide_local in E as [El Eo]; [|done|done|no_digit|no_digit].
Qed.

(** ** Values on one line *)

Lemma string_mem_join c sep parts : string_mem c sep = false -> Forall (fun p => string_mem c p = false) parts ->
  string_mem c (join sep parts) = false.
Proof.
  intros Hs. induction 1 as [|p parts Hp Hf IH]; [done|]. destruct parts as [|q parts]; [done|].
  change (join sep (p :: q :: parts)) with (p +:+ sep +:+ join sep (q :: parts)). by rewrite !string_mem_app, Hp, Hs, IH.
Qed.

Lemma flatten_breaks_plain c text : c = newline \/ c = carriage \/ c = tab -> string_mem c (flatten_breaks text) = false.
Proof.
  intros Hc. assert (Hsp : bool_decide (" "%char = c) = false) by (apply bool_decide_eq_false; by destruct Hc as [->|[->| ->]]).
  induction (well_founded_ltof _ String.length text) as [text _ IH]. destruct text as [|a rest]; [done|]. cbn [flatten_breaks].
  unfold ltof in IH. cbn [String.length] in IH.
  destruct (bool_decide_reflect (a = carriage)) as [E|E].
  - destruct rest as [|b rest]; [cbn [string_mem]; by rewrite Hsp|]. cbn [String.length] in IH.
    destruct (bool_decide (b = newline)); cbn [string_mem]; rewrite Hsp; apply IH; cbn [String.length]; lia.
  - destruct (bool_decide_reflect (a = newline)) as [E'|E'], (bool_decide_reflect (a = tab)) as [E''|E'']; cbn [orb string_mem];
      rewrite ?Hsp; try (apply IH; lia). rewrite bool_decide_eq_false_2 by (destruct Hc as [->|[->| ->]]; congruence). apply IH. lia.
Qed.

Lemma fields_loop_plain c l current : string_mem c current = false -> Forall (fun p => string_mem c p = false) l ->
  Forall (fun p => string_mem c p = false) (fields_loop l current).
Proof.
  revert current. induction l as [|span l IH]; intros current Hc Hl; cbn [fields_loop].
  - case_bool_decide; by repeat constructor.
  - apply Forall_cons in Hl as [Hs Hl]. destruct (is_space span); [|by apply IH; [rewrite string_mem_app, Hc|]].
    apply Forall_app. split; [case_bool_decide; by repeat constructor|by apply IH].
Qed.

(** Whatever a value holds, its text is one line: no newline, carriage return or tab is
    left in it. *)
Theorem values_are_one_line `{AnyCodec} raw c : c = newline \/ c = carriage \/ c = tab -> string_mem c (valueText raw) = false.
Proof.
  intros Hc. assert (Hw : forall t, string_mem c (collapseWhitespace t) = false).
  { intros t. unfold collapseWhitespace. case_match eqn:E.
    - apply negb_true_iff in E. rewrite !orb_false_iff in E. by destruct E as [[E1 E2] E3], Hc as [->|[->| ->]].
    - apply string_mem_join; [by destruct Hc as [->|[->| ->]]|]. apply fields_loop_plain; [done|].
      apply Forall_forall. intros span Hs. pose proof (flatten_breaks_plain c t Hc) as Hf. rewrite <-(of_spans (flatten_breaks t)), string_mem_of_runes in Hf.
      destruct (string_mem c span) eqn:Em; [|done]. rewrite <-Hf. symmetry. apply existsb_exists. exists span.
      by rewrite <-list_elem_of_In. }
  unfold valueText. repeat case_match; done || apply Hw.
Qed.

(** ** Evaluation *)

Module RenderSamples.
Definition sample_any : AnyCodec := {| decode_any s := Some (JStr s); encode_any v := match v with JStr s => Some s | _ => None end |}.
#[local] Existing Instance sample_any.

Definition sample_op : Op :=
  mkOp OpReplace "/spec/template/spec/containers/0/resources/limits/memory" "" "512Mi" (JStr "2Gi") true.

Lemma cells_fit_witness :
  opText (fun _ => "") sample_op 0 = "~ spec.template.spec.containers[0].resources.limits.memory: 2Gi " +:+ Arrow +:+ " 512Mi" /\
  opText (fun _ => "") sample_op 44 = "~ spec." +:+ Ellipsis +:+ "resources.limits.memory: 2Gi " +:+ Arrow +:+ " 512Mi" /\
  (displayWidth (opText (fun _ => "") sample_op 44) <= 44)%Z.
Proof.
  split; [vm_compute; reflexivity|]. split; [vm_compute; reflexivity|].
  destruct (cells_fit (fun _ => "") sample_op "" "" 44) as (_ & _ & Hfit & _); [lia|]. exact Hfit.
Defined.

Lemma displayed_path_filters_witness :
  DisplayPath "/spec/containers/0/image" = "spec.containers[0].image" /\
  MatchesFieldPath "/spec/containers/0/image" [NormalizeFieldPath "spec.containers[0]"] = true.
Proof.
  split; [vm_compute; reflexivity|].
  exact (proj2 (displayed_path_filters ["spec"; "containers"; "0"] ["image"] ltac:(discriminate) ltac:(discriminate)
    ltac:(repeat constructor) ltac:(repeat constructor))).
Defined.

(** A member name with brackets, and the whole document, print as paths the filter does
    not match. *)
Example bracketed_name_lost :
  DisplayPath "/data/a[b]" = "data.a[b]" /\
  MatchesFieldPath "/data/a[b]" [NormalizeFieldPath (DisplayPath "/data/a[b]")] = false /\
  MatchesFieldPath "" [NormalizeFieldPath (DisplayPath "")] = false.
Proof. vm_compute. split_and!; reflexivity. Qed.
End RenderSamples.
