(* ===== verification/ScopeWorker.v ===== *)
(** * ScopeWorker: the worker both sinks write their scope log with

    The S3 sink ([src/internal/sink/s3/scopewriter.go]) and the ClickHouse sink
    ([src/internal/sink/clickhouse/scopewriter.go]) hand watch-scope transitions to one
    worker each, and the two workers are the same: a bounded channel, a batch with a
    timer, a bounded retry queue with a tick, and a drain. They differ in how a batch is
    delivered, which is the class [ScopeTransport]; what a transport promises is
    [ScopeTransportLaws]. The channel is [sc_queue]; [sc_landed] is what the transport
    has brought to the store. What is lost - a batch that cannot be encoded, the oldest
    rows of an overflowing retry queue - is kept in [sc_dropped], where the code logs
    it. *)

From S2P Require Import Prelude SinkTypes.

Definition scopeQueueSize : nat := 2048.
Definition scopeBatchMaxRows : nat := 64.
Definition scopeRetryQueueMaxLen : nat := 4096.

Inductive scopeError := errScopesClosing | errScopesContext | errScopesFull.

(** What a delivery came to; a batch that cannot be encoded is not attempted. *)
Inductive delivery := Unencodable | Delivered | Undelivered.

Class ScopeTransport (L : Type) := {
  (** the n-th delivery of a batch: its outcome, and what has landed by then *)
  deliver : nat -> list ScopeEvent -> list L -> delivery * list L;
  (** the transitions a landed item holds *)
  contents : L -> list ScopeEvent;
  (** the item is a faithful rendering of its contents *)
  rendered : L -> Prop;
}.

Class ScopeTransportLaws (L : Type) `{ScopeTransport L} := {
  deliver_lands : forall n batch landed outcome landed', deliver n batch landed = (outcome, landed') ->
    exists more, landed' = landed ++ more /\
      (forall l, l ∈ more -> contents l ⊆ batch /\ rendered l) /\
      (outcome = Delivered -> forall e, e ∈ batch -> exists l, l ∈ more /\ e ∈ contents l);
}.

(** ** The writer's state *)

Record scopeWriter (L : Type) := mkScopeWriter {
  sc_queue : list ScopeEvent;
  sc_batch : list ScopeEvent;
  (** the batch timer *)
  sc_armed : bool;
  sc_retries : list ScopeEvent;
  sc_closing : bool;
  sc_exited : bool;
  sc_landed : list L;
  sc_confirmed : list ScopeEvent;
  sc_dropped : list ScopeEvent;
  sc_flushes : nat;
}.
Arguments mkScopeWriter {L}.
Arguments sc_queue {L}.
Arguments sc_batch {L}.
Arguments sc_armed {L}.
Arguments sc_retries {L}.
Arguments sc_closing {L}.
Arguments sc_exited {L}.
Arguments sc_landed {L}.
Arguments sc_confirmed {L}.
Arguments sc_dropped {L}.
Arguments sc_flushes {L}.

Definition newScopeWriter {L} : scopeWriter L := mkScopeWriter [] [] false [] false false [] [] [] 0.

Section scope_state.
Context {L : Type}.

Definition with_batch (batch : list ScopeEvent) (armed : bool) (w : scopeWriter L) : scopeWriter L :=
  mkScopeWriter (sc_queue w) batch armed (sc_retries w) (sc_closing w) (sc_exited w) (sc_landed w) (sc_confirmed w)
    (sc_dropped w) (sc_flushes w).

Definition queueScopeRetries (batch : list ScopeEvent) (w : scopeWriter L) : scopeWriter L :=
  let retries := sc_retries w ++ batch in
  let overflow := length retries - scopeRetryQueueMaxLen in
  mkScopeWriter (sc_queue w) (sc_batch w) (sc_armed w) (drop overflow retries) (sc_closing w) (sc_exited w) (sc_landed w)
    (sc_confirmed w) (sc_dropped w ++ take overflow retries) (sc_flushes w).

Definition takeScopeRetries (w : scopeWriter L) : list ScopeEvent * scopeWriter L :=
  (sc_retries w, mkScopeWriter (sc_queue w) (sc_batch w) (sc_armed w) [] (sc_closing w) (sc_exited w) (sc_landed w)
     (sc_confirmed w) (sc_dropped w) (sc_flushes w)).
End scope_state.

Inductive scopeOp :=
| ScopeEnqueue (event : ScopeEvent) (outcome : sendOutcome)
| ScopeReceive
| ScopeTimer
| ScopeTick
| ScopeClose.

Section scope_worker.
Context `{ScopeTransport L}.

Definition flushScopeBatch (batch : list ScopeEvent) (w : scopeWriter L) : scopeWriter L :=
  if bool_decide (length batch = 0) then w
  else
    let '(outcome, landed) := deliver (sc_flushes w) batch (sc_landed w) in
    let settled confirmed dropped flushes :=
      mkScopeWriter (sc_queue w) (sc_batch w) (sc_armed w) (sc_retries w) (sc_closing w) (sc_exited w) landed confirmed dropped flushes in
    match outcome with
    | Unencodable => settled (sc_confirmed w) (sc_dropped w ++ batch) (sc_flushes w)
    | Delivered => settled (sc_confirmed w ++ batch) (sc_dropped w) (S (sc_flushes w))
    | Undelivered => queueScopeRetries batch (settled (sc_confirmed w) (sc_dropped w) (S (sc_flushes w)))
    end.

(** [EnqueueScopeEvent]; a send without room waits for one of the other two. *)
Definition EnqueueScopeEvent (event : ScopeEvent) (outcome : sendOutcome) (w : scopeWriter L) : result scopeError (scopeWriter L) :=
  if sc_closing w then Err errScopesClosing
  else match outcome with
       | Sent =>
           if bool_decide (length (sc_queue w) < scopeQueueSize)
           then Ok (mkScopeWriter (sc_queue w ++ [event]) (sc_batch w) (sc_armed w) (sc_retries w) (sc_closing w) (sc_exited w)
                      (sc_landed w) (sc_confirmed w) (sc_dropped w) (sc_flushes w))
           else Err errScopesFull
       | ContextDone => Err errScopesContext
       | TimedOut => Err errScopesFull
       end.

(** The worker's receive: an event, or the closed and drained channel. *)
Definition scope_receive (w : scopeWriter L) : scopeWriter L :=
  match sc_queue w with
  | event :: rest =>
      let batch := sc_batch w ++ [event] in
      let armed := if bool_decide (length batch = 1) then true else sc_armed w in
      let w := mkScopeWriter rest batch armed (sc_retries w) (sc_closing w) (sc_exited w) (sc_landed w) (sc_confirmed w)
                 (sc_dropped w) (sc_flushes w) in
      if bool_decide (scopeBatchMaxRows <= length batch) then with_batch [] false (flushScopeBatch batch w) else w
  | [] =>
      if sc_closing w then
        let '(pending, w1) := takeScopeRetries w in
        let w2 := flushScopeBatch (sc_batch w ++ pending) w1 in
        mkScopeWriter (sc_queue w2) [] false (sc_retries w2) (sc_closing w2) true (sc_landed w2) (sc_confirmed w2)
          (sc_dropped w2) (sc_flushes w2)
      else w
  end.

Definition scope_timer (w : scopeWriter L) : scopeWriter L :=
  if sc_armed w then with_batch [] false (flushScopeBatch (sc_batch w) w) else w.

Definition scope_retryTick (w : scopeWriter L) : scopeWriter L :=
  let '(pending, w') := takeScopeRetries w in
  if bool_decide (0 < length pending) then with_batch [] false (flushScopeBatch (pending ++ sc_batch w) w') else w.

Definition scope_close (w : scopeWriter L) : scopeWriter L :=
  mkScopeWriter (sc_queue w) (sc_batch w) (sc_armed w) (sc_retries w) true (sc_exited w) (sc_landed w) (sc_confirmed w)
    (sc_dropped w) (sc_flushes w).

(** One call of a recorder, or one case of the worker's select; after its return the
    worker selects no more. *)
Definition step_scopes (op : scopeOp) (w : scopeWriter L) : scopeWriter L :=
  match op with
  | ScopeEnqueue event outcome => match EnqueueScopeEvent event outcome w with Ok w' => w' | Err _ => w end
  | ScopeReceive => if sc_exited w then w else scope_receive w
  | ScopeTimer => if sc_exited w then w else scope_timer w
  | ScopeTick => if sc_exited w then w else scope_retryTick w
  | ScopeClose => scope_close w
  end.

Definition run_scopes (ops : list scopeOp) (w : scopeWriter L) : scopeWriter L := foldl (fun w op => step_scopes op w) w ops.

(** The events a run accepted, in order. *)
Fixpoint scopes_accepted (ops : list scopeOp) (w : scopeWriter L) : list ScopeEvent :=
  match ops with
  | [] => []
  | op :: rest =>
      match op with
      | ScopeEnqueue event outcome => match EnqueueScopeEvent event outcome w with Ok _ => [event] | Err _ => [] end
      | _ => []
      end ++ scopes_accepted rest (step_scopes op w)
  end.
End scope_worker.

(** ** Every transition is accounted for *)

Section account.
Context `{ScopeTransportLaws L}.
Implicit Types (w : scopeWriter L).

Record scopes_account (acc : list ScopeEvent) (w : scopeWriter L) : Prop := {
  sa_all : acc ≡ₚ sc_confirmed w ++ sc_dropped w ++ sc_retries w ++ sc_batch w ++ sc_queue w;
  sa_landed : forall l, l ∈ sc_landed w -> rendered l /\ contents l ⊆ acc;
  sa_confirmed : forall e, e ∈ sc_confirmed w -> exists l, l ∈ sc_landed w /\ e ∈ contents l;
  sa_retries : length (sc_retries w) <= scopeRetryQueueMaxLen;
  sa_queue : length (sc_queue w) <= scopeQueueSize;
  sa_batch : length (sc_batch w) < scopeBatchMaxRows;
  sa_armed : sc_armed w = true <-> sc_batch w <> [];
  sa_exited : sc_exited w = true -> sc_closing w = true /\ sc_queue w = [] /\ sc_batch w = [];
}.

(** What one flush of [batch] does: it moves its rows to one of three places. *)
Record flushed (batch : list ScopeEvent) (w w' : scopeWriter L) : Prop := {
  fl_queue : sc_queue w' = sc_queue w;
  fl_batch : sc_batch w' = sc_batch w;
  fl_flags : sc_armed w' = sc_armed w /\ sc_closing w' = sc_closing w /\ sc_exited w' = sc_exited w;
  fl_rows : sc_confirmed w' ++ sc_dropped w' ++ sc_retries w' ≡ₚ sc_confirmed w ++ sc_dropped w ++ sc_retries w ++ batch;
  fl_confirmed : forall e, e ∈ sc_confirmed w' -> e ∈ sc_confirmed w \/ exists l, l ∈ sc_landed w' /\ e ∈ contents l;
  fl_landed : forall l, l ∈ sc_landed w' -> l ∈ sc_landed w \/ rendered l /\ contents l ⊆ batch;
  fl_kept : forall l, l ∈ sc_landed w -> l ∈ sc_landed w';
  fl_retries : length (sc_retries w) <= scopeRetryQueueMaxLen -> length (sc_retries w') <= scopeRetryQueueMaxLen;
}.

Lemma queueScopeRetries_rows batch w :
  sc_dropped (queueScopeRetries batch w) ++ sc_retries (queueScopeRetries batch w) = sc_dropped w ++ sc_retries w ++ batch.
Proof. cbn [sc_dropped sc_retries queueScopeRetries]. by rewrite <-app_assoc, take_drop. Qed.

Lemma flush_flushed batch w : flushed batch w (flushScopeBatch batch w).
Proof.
  unfold flushScopeBatch. case_bool_decide as Hz.
  { destruct batch; [|done]. split; try done; [by rewrite app_nil_r|by left|by left]. }
  destruct (deliver _ _ _) as [outcome landed] eqn:E. apply deliver_lands in E as (more & -> & Hin & Hall).
  destruct outcome.
  - split; cbn; try done; [solve_Permutation|by left|..]; set_solver.
  - split; cbn; try done; [solve_Permutation| |set_solver..].
    intros e [He|He]%elem_of_app; [by left|right]. destruct (Hall eq_refl e He) as (l & Hl & ?). exists l. set_solver.
  - set (w1 := mkScopeWriter _ _ _ _ _ _ _ _ _ _). pose proof (queueScopeRetries_rows batch w1) as Hrows.
    split; try done; [by rewrite Hrows|by left|cbn; set_solver|cbn; set_solver|].
    cbn [queueScopeRetries sc_retries]. rewrite length_drop. lia.
Qed.

(** Moving rows from the queue, the batch and the retries through a flush keeps the
    account. *)
Lemma flush_account acc w w1 w' batch :
  scopes_account acc w ->
  sc_confirmed w1 = sc_confirmed w -> sc_dropped w1 = sc_dropped w -> sc_landed w1 = sc_landed w ->
  sc_closing w1 = sc_closing w -> sc_exited w1 = sc_exited w -> length (sc_queue w1) <= length (sc_queue w) ->
  length (sc_retries w1) <= scopeRetryQueueMaxLen ->
  sc_retries w1 ++ batch ++ sc_queue w1 ≡ₚ sc_retries w ++ sc_batch w ++ sc_queue w -> flushed batch w1 w' ->
  scopes_account acc (with_batch [] false w').
Proof.
  intros [A La C R Q B T X] Hc Hd Hl Hcl Hex Hq Hr Hp [Fq Fb (Fa & Fc & Fe) Frows Fconf Fland Fkept Fret].
  rewrite Hc, Hd in Frows. rewrite Hc in Fconf. rewrite Hl in Fland, Fkept.
  assert (Hbatch : batch ⊆ acc).
  { intros e He. rewrite A. assert (e ∈ sc_retries w ++ sc_batch w ++ sc_queue w) by (rewrite <-Hp; set_solver). set_solver. }
  split; cbn [with_batch sc_queue sc_batch sc_armed sc_retries sc_closing sc_exited sc_landed sc_confirmed sc_dropped app];
    rewrite ?Fq, ?Fc, ?Fe, ?Hcl, ?Hex.
  - rewrite A, <-Hp. rewrite (app_assoc (sc_dropped w')), (app_assoc (sc_confirmed w')), Frows. solve_Permutation.
  - intros l [Hin|[Hr' Hsub]]%Fland; [by apply La|]. split; [done|set_solver].
  - intros e [(l & Hin & He)%C|(l & Hin & He)]%Fconf; exists l; [|done]. split; [by apply Fkept|done].
  - by apply Fret.
  - lia.
  - unfold scopeBatchMaxRows. cbn. lia.
  - naive_solver.
  - intros [? [Hz _]]%X. split; [done|]. split; [|done]. rewrite Hz in Hq. by destruct (sc_queue w1); [|cbn in Hq; lia].
Qed.

Lemma scope_step_account acc op w : scopes_account acc w ->
  scopes_account (acc ++ scopes_accepted [op] w) (step_scopes op w).
Proof.
  intros Hacc. pose proof Hacc as [A La C R Q B T X]. cbn [scopes_accepted]. rewrite app_nil_r.
  destruct op as [event outcome| | | |]; cbn [step_scopes]; rewrite ?app_nil_r.
  - unfold EnqueueScopeEvent. destruct (sc_closing w) eqn:Hcl; [by rewrite app_nil_r|].
    destruct outcome; [|by rewrite app_nil_r..]. case_bool_decide as Hroom; [|by rewrite app_nil_r].
    split; cbn [sc_queue sc_batch sc_armed sc_retries sc_closing sc_exited sc_landed sc_confirmed sc_dropped]; try done.
    + rewrite A. solve_Permutation.
    + intros l [? Hb]%La. split; [done|]. set_solver.
    + rewrite length_app. cbn [length]. lia.
    + intros (? & _)%X. congruence.
  - destruct (sc_exited w) eqn:He; [done|]. unfold scope_receive. destruct (sc_queue w) as [|event rest] eqn:Hq.
    + destruct (sc_closing w) eqn:Hcl; [|done]. cbn [takeScopeRetries]. set (w1 := mkScopeWriter _ _ _ [] _ _ _ _ _ _).
      pose proof (flush_flushed (sc_batch w ++ sc_retries w) w1) as Hf.
      assert (Hacc' : scopes_account acc (with_batch [] false (flushScopeBatch (sc_batch w ++ sc_retries w) w1))).
      { eapply (flush_account acc w w1); [done..|cbn; rewrite Hq; done|cbn; lia| |exact Hf]. cbn. rewrite Hq. solve_Permutation. }
      destruct Hacc' as [A' La' C' R' Q' B' T' X']. destruct Hf as [Fq Fb (Fa & Fc & Fe) _ _ _ _ _].
      split; cbn in *; try done. intros _. rewrite Fc, Fq. cbn. by rewrite Hcl, Hq.
    + set (w1 := mkScopeWriter rest _ _ _ _ _ _ _ _ _). case_bool_decide as Hfull.
      * eapply (flush_account acc w w1); [done..|cbn; rewrite Hq; cbn; lia|done| |apply flush_flushed].
        cbn. rewrite Hq. solve_Permutation.
      * split; cbn [w1 sc_queue sc_batch sc_armed sc_retries sc_closing sc_exited sc_landed sc_confirmed sc_dropped]; try done.
        -- rewrite A. solve_Permutation.
        -- cbn in Q. lia.
        -- lia.
        -- rewrite length_app. cbn [length]. split; [by destruct (sc_batch w)|]. intros _. case_bool_decide as Hone; [done|].
           apply T. intros Hz. rewrite Hz in Hone. by cbn in Hone.
        -- congruence.
  - destruct (sc_exited w) eqn:He; [done|]. unfold scope_timer. destruct (sc_armed w); [|done].
    by eapply (flush_account acc w w); [..|apply flush_flushed].
  - destruct (sc_exited w) eqn:He; [done|]. unfold scope_retryTick. cbn [takeScopeRetries]. case_bool_decide; [|done].
    set (w1 := mkScopeWriter _ _ _ [] _ _ _ _ _ _).
    eapply (flush_account acc w w1); [done..|cbn; lia| |apply flush_flushed]. cbn. solve_Permutation.
  - split; cbn; try done. intros [? ?]%X. done.
Qed.

Lemma run_scopes_account ops acc w : scopes_account acc w ->
  scopes_account (acc ++ scopes_accepted ops w) (run_scopes ops w).
Proof.
  revert acc w. induction ops as [|op ops IH]; intros acc w Hacc; [cbn; by rewrite app_nil_r|].
  pose proof (scope_step_account acc op w Hacc) as Hstep. apply IH in Hstep. cbn [scopes_accepted run_scopes foldl] in *.
  rewrite app_nil_r in Hstep. by rewrite app_assoc.
Qed.

Lemma new_scopes_account : scopes_account [] newScopeWriter.
Proof. split; cbn; try done; try lia; try set_solver. unfold scopeBatchMaxRows. lia. Qed.
End account.

(** ** Nothing is dropped without a cause *)

Section no_drop.
Context `{ScopeTransportLaws L}.
Implicit Types (w : scopeWriter L).

(** Every non-empty batch of these events can be encoded. *)
Definition encodable (events : list ScopeEvent) : Prop :=
  forall n b landed, b ⊆ events -> b <> [] -> (deliver n b landed).1 <> Unencodable.

Lemma flush_no_drop acc batch w : encodable acc -> batch ⊆ acc ->
  length (sc_retries w) + length batch <= scopeRetryQueueMaxLen -> sc_dropped w = [] ->
  sc_dropped (flushScopeBatch batch w) = [].
Proof.
  intros He Hb Hlen Hd. unfold flushScopeBatch. case_bool_decide as Hz; [done|].
  specialize (He (sc_flushes w) batch (sc_landed w) Hb). destruct (deliver _ _ _) as [[] landed]; [by destruct He; [intros ->|]|done|].
  cbn [queueScopeRetries sc_dropped sc_retries]. rewrite Hd, length_app. by replace (_ - _) with 0 by lia.
Qed.

Lemma step_no_drop acc all op w : scopes_account acc w -> acc ⊆ all -> encodable all ->
  length acc <= scopeRetryQueueMaxLen -> sc_dropped w = [] -> sc_dropped (step_scopes op w) = [].
Proof.
  intros [A La C R Q B T X] Hsub He Hlen Hd.
  assert (Hparts : length (sc_retries w) + length (sc_batch w) + length (sc_queue w) <= scopeRetryQueueMaxLen).
  { apply Permutation_length in A. rewrite !length_app in A. lia. }
  assert (Hin : sc_retries w ++ sc_batch w ++ sc_queue w ⊆ all) by (intros x Hx; apply Hsub; rewrite A; set_solver).
  destruct op as [event outcome| | | |]; cbn [step_scopes]; [| | | |done].
  - unfold EnqueueScopeEvent. destruct (sc_closing w); [done|]. destruct outcome; [|done..]. by case_bool_decide.
  - destruct (sc_exited w); [done|]. unfold scope_receive. destruct (sc_queue w) as [|event rest] eqn:Hq.
    + destruct (sc_closing w); [|done]. cbn [takeScopeRetries]. cbn [sc_dropped].
      apply (flush_no_drop all); [done|set_solver|cbn [sc_retries]; rewrite length_app; cbn; lia|done].
    + case_bool_decide; [|done]. cbn [with_batch sc_dropped].
      apply (flush_no_drop all); [done|set_solver|cbn [sc_retries]; rewrite length_app; cbn in *; lia|done].
  - destruct (sc_exited w); [done|]. unfold scope_timer. destruct (sc_armed w); [|done]. cbn [with_batch sc_dropped].
    apply (flush_no_drop all); [done|set_solver|lia|done].
  - destruct (sc_exited w); [done|]. unfold scope_retryTick. cbn [takeScopeRetries]. case_bool_decide; [|done].
    cbn [with_batch sc_dropped]. apply (flush_no_drop all); [done|set_solver|cbn [sc_retries]; rewrite length_app; cbn; lia|done].
Qed.

Lemma run_no_drop ops acc w : scopes_account acc w -> sc_dropped w = [] ->
  encodable (acc ++ scopes_accepted ops w) ->
  length (acc ++ scopes_accepted ops w) <= scopeRetryQueueMaxLen ->
  sc_dropped (run_scopes ops w) = [].
Proof.
  revert acc w. induction ops as [|op ops IH]; intros acc w Hacc Hd He Hlen; [done|].
  pose proof (scope_step_account acc op w Hacc) as Hstep. cbn [scopes_accepted] in *. rewrite app_nil_r in Hstep.
  rewrite app_assoc in He, Hlen. apply (IH _ _ Hstep); [|done|done].
  rewrite !length_app in Hlen. eapply (step_no_drop acc); [done| |exact He|lia|done]. set_solver.
Qed.

(** What the worker has still to take before it returns. *)
Definition scopes_remaining (w : scopeWriter L) : nat := length (sc_queue w) + if sc_exited w then 0 else 1.

Lemma receive_shrinks w : sc_closing w = true -> sc_exited w = false ->
  scopes_remaining (step_scopes ScopeReceive w) < scopes_remaining w.
Proof.
  intros Hc He. unfold scopes_remaining. cbn [step_scopes]. rewrite He. unfold scope_receive.
  destruct (sc_queue w) as [|event rest] eqn:Hq.
  - rewrite Hc. cbn [takeScopeRetries sc_queue sc_exited].
    match goal with |- context [flushScopeBatch ?b ?x] => pose proof (flush_flushed b x) as [Fq _ _ _ _ _ _ _] end.
    rewrite Fq. cbn [sc_queue]. rewrite Hq. cbn. lia.
  - case_bool_decide; cbn [with_batch sc_queue sc_exited].
    + match goal with |- context [flushScopeBatch ?b ?x] => pose proof (flush_flushed b x) as [Fq _ (_ & _ & Fe) _ _ _ _ _] end.
      rewrite Fq, Fe. cbn [sc_queue sc_exited length]. rewrite He. lia.
    + rewrite He. cbn. lia.
Qed.
End no_drop.
