(* ===== verification/S3Object.v ===== *)
(** * S3Object: one archive object, its key and its bytes

    Models [src/internal/sink/s3/encoder.go] and [src/internal/sink/s3/object.go]:
    the key layout, the one-shot [Encode] and [Decode], and the [objectBuilder] the
    write path fills one line at a time. The zstd library's one-shot codec is the
    class [ZstdCodec] of [HashCache], its streaming writer the class [FrameWriter],
    and [encoding/json]'s rendering of a record the class [LineCodec]. *)

From S2P Require Import Prelude Calendar GoJson HashCache SinkTypes Render.
Local Open Scope kr_scope.

(** ** The key layout *)

Definition formatPartition : string := "format=jsonl-v1".
Definition objectSuffix : string := ".jsonl.zst".

Definition objectKey (prefix clusterID : string) (ts : Z) (contentHash : string) : string :=
  join "/" ((if bool_decide (prefix <> "") then [prefix] else []) ++
            [formatPartition; "cluster_id=" +:+ clusterID; "date=" +:+ format_date ts;
             "hour=" +:+ format_hour ts; contentHash +:+ objectSuffix]).

Record Object := mkObject {
  o_Key : string;
  o_ContentHash : string;
  o_Payload : string;
}.

(** ** Codecs *)

Class LineCodec := {
  (** [encoding/json]'s rendering of a record, without HTML escaping *)
  encode_json : Record_ -> result string string;
  (** [json.Decoder.Decode] until it fails; the flag is the end of the input *)
  decode_lines : string -> list Record_ * option string;
}.

(** [json.Encoder.Encode] of a record: its rendering and a terminating newline. *)
Definition encode_line `{LineCodec} (record : Record_) : result string string :=
  let! json := encode_json record in Ok (json +:+ String newline "").

(** [zstd.NewWriter] over a buffer: the bytes of the buffer are read after a Flush or
    a Close only. *)
Class FrameWriter := {
  frame : Type;
  NewWriter : result string frame;
  frame_Write : frame -> string -> result string frame;
  frame_Flush : frame -> result string frame;
  frame_Len : frame -> Z;
  frame_Close : frame -> result string string;
}.

(** What the code relies on: a closed frame decodes to what was written into it. A
    frame nothing was written into may come out as no bytes at all, so nothing is
    asked of it. *)
Class FrameLaws `{ZstdCodec, FrameWriter} := {
  frame_content : frame -> string;
  content_new : forall f, NewWriter = Ok f -> frame_content f = "";
  content_write : forall f line f', frame_Write f line = Ok f' -> frame_content f' = frame_content f +:+ line;
  content_flush : forall f f', frame_Flush f = Ok f' -> frame_content f' = frame_content f;
  content_close : forall f payload decode, frame_Close f = Ok payload -> zstdDecoder = Some decode ->
    frame_content f <> "" -> has_prefix payload zstdMagic = true /\ decode payload = Ok (frame_content f);
}.

(** The bytes of a sequence of writes. *)
Definition text (lines : list string) : string := foldr String.append "" lines.

(** The records [encoding/json] renders without loss: every string of theirs is valid
    UTF-8 (a byte that is not is rendered as U+FFFD). *)
Definition record_strings (r : Record_) : list string :=
  [r_ClusterID r; r_EventType r; r_APIGroup r; r_APIVersion r; r_Kind r; r_Namespace r; r_Name r; r_UID r;
   r_ResourceVersion r; r_Data r; r_Diff r; r_SHA256 r] ++ r_Actors r ++
  flat_map (fun kv => [kv.1; kv.2]) (map_to_list (r_Labels r)).

Definition valid_record (r : Record_) : bool := forallb ValidString (record_strings r).

Class LineLaws `{LineCodec} := {
  lines_roundtrip : forall records lines, Forall (fun r => valid_record r = true) records -> Forall2 (fun r line => encode_line r = Ok line) records lines ->
    decode_lines (text lines) = (records, None);
}.

Inductive objectError :=
| errEmptyBatch
| errNoEncoder
| errNoDecoder
| errEmptyCluster
| errMixedClusters (index : nat)
| errMarshal (index : nat) (reason : string)
| errClusterMismatch
| errCompress (reason : string)
| errFlush (reason : string)
| errCloseFrame (reason : string)
| errOpenFrame (reason : string)
| errNotAFrame (length : nat)
| errDecompress (reason : string)
| errDecodeRecord (index : nat) (reason : string).

Section object.
Context `{ZstdCodec, Encoders, LineCodec, FrameWriter}.

(** ** The one-shot form *)

Fixpoint encode_loop (clusterID : string) (i : nat) (records : list Record_) (jsonl : string)
    : result objectError string :=
  match records with
  | [] => Ok jsonl
  | record :: rest =>
      if bool_decide (r_ClusterID record <> clusterID) then Err (errMixedClusters i)
      else match encode_line record with
           | Err reason => Err (errMarshal i reason)
           | Ok line => encode_loop clusterID (S i) rest (jsonl +:+ line)
           end
  end.

Definition Encode (prefix : string) (records : list Record_) : result objectError Object :=
  match records with
  | [] => Err errEmptyBatch
  | first :: _ =>
      match zstdEncoder with
      | None => Err errNoEncoder
      | Some EncodeAll =>
          let clusterID := r_ClusterID first in
          if bool_decide (clusterID = "") then Err errEmptyCluster
          else
            let! jsonl := encode_loop clusterID 0 records "" in
            let contentHash := sha256_hex jsonl in
            Ok (mkObject (objectKey prefix clusterID (r_Timestamp first) contentHash) contentHash
                  (EncodeAll jsonl))
      end
  end.

Definition decompress (payload : string) : result objectError string :=
  if negb (has_prefix payload zstdMagic) then Err (errNotAFrame (String.length payload))
  else match zstdDecoder with
       | None => Err errNoDecoder
       | Some DecodeAll =>
           match DecodeAll payload with Err reason => Err (errDecompress reason) | Ok jsonl => Ok jsonl end
       end.

Definition Decode (payload : string) : result objectError (list Record_) :=
  let! jsonl := decompress payload in
  match decode_lines jsonl with
  | (records, None) => Ok records
  | (records, Some reason) => Err (errDecodeRecord (length records) reason)
  end.

(** ** The accumulating form *)

Definition objectFlushSlack : Z := Z.shiftl 256 10.

Record objectBuilder := mkBuilder {
  b_maxBytes : Z;
  b_enc : frame;
  (** the bytes the digest has taken in *)
  b_digest : string;
  b_records : nat;
  b_emitted : Z;
  b_pending : Z;
  b_clusterID : string;
  b_firstTS : Z;
}.

Definition newObjectBuilder (maxBytes : Z) : result objectError objectBuilder :=
  match NewWriter with
  | Err reason => Err (errOpenFrame reason)
  | Ok enc => Ok (mkBuilder maxBytes enc "" 0 0 0 "" 0)
  end.

Definition marshalRecordLine (record : Record_) : result objectError string :=
  match encode_line record with Err reason => Err (errMarshal 0 reason) | Ok line => Ok line end.

Definition refreshDue (b : objectBuilder) : bool :=
  bool_decide (objectFlushSlack <= b_pending b)%Z ||
  (bool_decide (0 < b_maxBytes b)%Z && bool_decide (b_maxBytes b <= b_emitted b + b_pending b)%Z).

Definition full (b : objectBuilder) : bool :=
  bool_decide (0 < b_maxBytes b)%Z && bool_decide (b_maxBytes b <= b_emitted b)%Z.

(** [objectBuilder.append]. An error other than a cluster mismatch leaves a frame the
    caller throws away, so what became of it is not kept. *)
Definition builder_append (b : objectBuilder) (line clusterID : string) (ts : Z)
    : result objectError objectBuilder :=
  if bool_decide (clusterID = "") then Err errEmptyCluster
  else if bool_decide (b_records b <> 0) && bool_decide (clusterID <> b_clusterID b) then Err errClusterMismatch
  else
    let '(cluster, first) :=
      if bool_decide (b_records b = 0) then (clusterID, ts) else (b_clusterID b, b_firstTS b) in
    match frame_Write (b_enc b) line with
    | Err reason => Err (errCompress reason)
    | Ok enc =>
        let b := mkBuilder (b_maxBytes b) enc (b_digest b +:+ line) (S (b_records b)) (b_emitted b)
                   (b_pending b + Z.of_nat (String.length line)) cluster first in
        if refreshDue b then
          match frame_Flush enc with
          | Err reason => Err (errFlush reason)
          | Ok enc => Ok (mkBuilder (b_maxBytes b) enc (b_digest b) (b_records b) (frame_Len enc) 0 cluster first)
          end
        else Ok b
    end.

Definition build (prefix : string) (b : objectBuilder) : result objectError Object :=
  if bool_decide (b_records b = 0) then Err errEmptyBatch
  else match frame_Close (b_enc b) with
       | Err reason => Err (errCloseFrame reason)
       | Ok payload =>
           let contentHash := sha256_hex (b_digest b) in
           Ok (mkObject (objectKey prefix (b_clusterID b) (b_firstTS b) contentHash) contentHash payload)
       end.

(** A whole batch through the accumulating form, as a worker that never rotates would. *)
Fixpoint append_all (records : list Record_) (b : objectBuilder) : result objectError objectBuilder :=
  match records with
  | [] => Ok b
  | record :: rest =>
      let! line := marshalRecordLine record in
      let! b := builder_append b line (r_ClusterID record) (r_Timestamp record) in
      append_all rest b
  end.

End object.

(** ** Lemmas *)

Lemma text_app lines lines' : text (lines ++ lines') = text lines +:+ text lines'.
Proof. unfold text. induction lines as [|l lines IH]; cbn; [done|]. by rewrite IH, string_app_assoc. Qed.

Lemma text_snoc lines line : text (lines ++ [line]) = text lines +:+ line.
Proof. by rewrite text_app; cbn; rewrite string_app_nil_r. Qed.

Lemma encode_line_nonempty `{LineCodec} record line : encode_line record = Ok line -> line <> "".
Proof.
  unfold encode_line. destruct (encode_json record) as [json|]; [|done]. intros [= <-] Hn.
  apply (f_equal String.length) in Hn. rewrite string_length_app in Hn. cbn in Hn. lia.
Qed.

Lemma text_nonempty lines : lines <> [] -> Forall (fun line => line <> "") lines -> text lines <> "".
Proof.
  destruct lines as [|line lines]; [done|]. intros _ [Hl _]%Forall_cons Hn.
  apply (f_equal String.length) in Hn. cbn [text foldr] in Hn. rewrite string_length_app in Hn.
  destruct line; [done|]. cbn in Hn. lia.
Qed.

Lemma encoded_nonempty `{LineCodec} records lines :
  Forall2 (fun r line => encode_line r = Ok line) records lines -> Forall (fun line => line <> "") lines.
Proof. induction 1; constructor; [by eapply encode_line_nonempty|done]. Qed.

(** A line on its way into an object: its bytes, cluster and instant. *)
Definition entry : Type := string * string * Z.

Definition e_line (e : entry) : string := e.1.1.
Definition e_cluster (e : entry) : string := e.1.2.
Definition e_ts (e : entry) : Z := e.2.

(** What an open object holds: the entries appended to it, in order. *)
Record holding `{ZstdCodec, FrameWriter, !FrameLaws} (b : objectBuilder) (entries : list entry) : Prop := {
  h_records : b_records b = length entries;
  h_digest : b_digest b = text (map e_line entries);
  h_content : frame_content (b_enc b) = text (map e_line entries);
  h_first : forall e rest, entries = e :: rest -> b_clusterID b = e_cluster e /\ b_firstTS b = e_ts e;
  h_cluster : forall e, e ∈ entries -> e_cluster e = b_clusterID b /\ e_cluster e <> "";
  h_bound : (0 < b_maxBytes b)%Z -> full b = false -> (b_emitted b + b_pending b < b_maxBytes b)%Z;
}.

Section builder.
Context `{ZstdCodec, Encoders, LineCodec, FrameWriter, !FrameLaws}.

Lemma new_holding maxBytes b : newObjectBuilder maxBytes = Ok b -> holding b [] /\ b_maxBytes b = maxBytes.
Proof.
  unfold newObjectBuilder. destruct NewWriter as [f|] eqn:E; intros [= <-]. split; [|done].
  split; cbn; try done; [by apply content_new|intros e He; by apply elem_of_nil in He].
Qed.

(** What a successful append checked, and what it leaves. *)
Lemma append_holding b entries line cluster ts b' : holding b entries ->
  builder_append b line cluster ts = Ok b' ->
  holding b' (entries ++ [(line, cluster, ts)]) /\ b_maxBytes b' = b_maxBytes b.
Proof.
  intros [Hr Hd Hc Hf Hcl Hb]. unfold builder_append. case_bool_decide as Hne; [done|].
  destruct (_ && _) eqn:Em; [done|].
  set (cf := if bool_decide (b_records b = 0) then (cluster, ts) else (b_clusterID b, b_firstTS b)).
  assert (Hcf : cf.1 = cluster /\ (entries = [] -> cf.2 = ts) /\
                (entries <> [] -> cf = (b_clusterID b, b_firstTS b))).
  { subst cf. rewrite Hr. rewrite andb_false_iff in Em. destruct entries as [|e entries]; cbn in *; [done|].
    split; [|done]. destruct Em as [Em|Em]; case_bool_decide; try done; try lia. }
  assert (Hall : forall b1, b_records b1 = S (b_records b) -> b_digest b1 = b_digest b +:+ line ->
     frame_content (b_enc b1) = frame_content (b_enc b) +:+ line -> b_clusterID b1 = cf.1 ->
     b_firstTS b1 = cf.2 -> ((0 < b_maxBytes b1)%Z -> full b1 = false -> (b_emitted b1 + b_pending b1 < b_maxBytes b1)%Z) ->
     holding b1 (entries ++ [(line, cluster, ts)])).
  { destruct Hcf as (Hc1 & Hc2 & Hc3). intros b1 G1 G2 G3 G4 G5 G6. split.
    - by rewrite G1, Hr, length_app, Nat.add_1_r.
    - rewrite G2, Hd, map_app. symmetry. apply text_snoc.
    - rewrite G3, Hc, map_app. symmetry. apply text_snoc.
    - intros e rest He. rewrite G4, G5. destruct entries as [|e' entries]; injection He as <- _.
      + by rewrite Hc1, Hc2.
      + rewrite Hc3 by done. by eapply Hf.
    - intros e [He|He%list_elem_of_singleton]%elem_of_app; rewrite G4.
      + rewrite Hc3 by (by intros ->; apply elem_of_nil in He). by apply Hcl.
      + subst e. by rewrite Hc1.
    - done. }
  destruct cf as [cl first]. destruct (frame_Write _ _) as [enc|] eqn:Ew; [|done].
  apply content_write in Ew. destruct (refreshDue _) eqn:Er.
  - destruct (frame_Flush enc) as [enc'|] eqn:Efl; [|done]. apply content_flush in Efl.
    intros [= <-]. split; [|done]. apply Hall; cbn; try done; [by rewrite Efl|].
    unfold full. cbn. intros Hp. rewrite andb_false_iff, !bool_decide_eq_false. lia.
  - intros [= <-]. split; [|done]. apply Hall; cbn; try done.
    intros Hp _. unfold refreshDue in Er. cbn in Er. apply orb_false_iff in Er as [_ Er].
    rewrite bool_decide_eq_true_2 in Er by done. cbn in Er. apply bool_decide_eq_false in Er. lia.
Qed.

Definition entries_of (records : list Record_) (lines : list string) : list entry :=
  zip_with (fun r line => (line, r_ClusterID r, r_Timestamp r)) records lines.

Lemma append_all_holding records b entries b' : holding b entries -> append_all records b = Ok b' ->
  exists lines, Forall2 (fun r line => encode_line r = Ok line) records lines /\
    holding b' (entries ++ entries_of records lines).
Proof.
  revert b entries. induction records as [|r records IH]; intros b entries Hb; cbn [append_all].
  - intros [= <-]. exists []. split; [constructor|]. cbn. by rewrite app_nil_r.
  - unfold marshalRecordLine. destruct (encode_line r) as [line|] eqn:El; [|done]. cbn.
    destruct (builder_append _ _ _ _) as [b1|] eqn:Ea; [|done]. cbn. intros Ho.
    destruct (append_holding _ _ _ _ _ _ Hb Ea) as [Hb1 _].
    destruct (IH _ _ Hb1 Ho) as (lines & Hl & Hb'). exists (line :: lines). split; [by constructor|].
    by rewrite <-app_assoc in Hb'.
Qed.

Lemma entries_lines records lines : length records = length lines ->
  map e_line (entries_of records lines) = lines.
Proof. revert lines. induction records as [|r rs IH]; intros [|l ls]; cbn; try done. intros [= ?]. by rewrite IH. Qed.

Lemma encode_loop_ok cluster i records lines jsonl :
  Forall (fun r => r_ClusterID r = cluster) records ->
  Forall2 (fun r line => encode_line r = Ok line) records lines ->
  encode_loop cluster i records jsonl = Ok (jsonl +:+ text lines).
Proof.
  intros Hc Hl. revert i jsonl. induction Hl as [|r line records lines Hr Hl IH]; intros i jsonl; cbn [encode_loop].
  - cbn. by rewrite string_app_nil_r.
  - apply Forall_cons in Hc as [Hc Hcs]. rewrite bool_decide_eq_false_2 by (intros Hn; by apply Hn).
    rewrite Hr, IH by done. cbn. by rewrite string_app_assoc.
Qed.
End builder.

(** ** Properties *)

(** The write path and the reference form produce the same object, and it reads
    back. Whenever the accumulating builder takes in a batch record by record and
    finishes it, the one-shot encoder succeeds on the same batch with the same key and
    the same content hash; both payloads decompress to the same text although the
    frames differ; and decoding the object gives back exactly the batch, if its strings
    are valid UTF-8. *)
Theorem builder_agrees_with_encode
    `{ZstdCodec, !ZstdLaws, Encoders, LineCodec, !LineLaws, FrameWriter, !FrameLaws}
    encode decode prefix maxBytes records fresh b obj :
  zstdEncoder = Some encode -> zstdDecoder = Some decode ->
  newObjectBuilder maxBytes = Ok fresh -> append_all records fresh = Ok b -> build prefix b = Ok obj ->
  exists obj', Encode prefix records = Ok obj' /\
    o_Key obj' = o_Key obj /\ o_ContentHash obj' = o_ContentHash obj /\
    decompress (o_Payload obj') = decompress (o_Payload obj) /\
    (Forall (fun r => valid_record r = true) records -> Decode (o_Payload obj) = Ok records).
Proof.
  intros He Hd Hn Ha Hb. destruct (new_holding _ _ Hn) as [Hf _].
  destruct (append_all_holding _ _ _ _ Hf Ha) as (lines & Hl & Hh). rewrite app_nil_l in Hh.
  assert (Hlen : length records = length lines) by (by eapply Forall2_length).
  destruct Hh as [Hr Hdig Hc Hfirst Hcl _]. rewrite entries_lines in Hdig, Hc by done.
  unfold build in Hb. case_bool_decide as Hz; [done|].
  destruct (frame_Close _) as [payload|] eqn:Ep; [|done]. injection Hb as <-.
  destruct records as [|r records]; [by rewrite Hr in Hz|]. destruct lines as [|line lines]; [done|].
  assert (Htext : text (line :: lines) <> "") by (apply text_nonempty; [done|by eapply encoded_nonempty]).
  destruct (content_close _ _ _ Ep Hd) as [Hm Hdec]; [by rewrite Hc|].
  destruct (Hfirst _ _ eq_refl) as [Hc1 Hts].
  assert (Hall : Forall (fun r' => r_ClusterID r' = r_ClusterID r) (r :: records)).
  { apply Forall_lookup. intros i r' Hi. destruct (Forall2_lookup_l _ _ _ _ _ Hl Hi) as (l' & Hi' & _).
    destruct (Hcl (l', r_ClusterID r', r_Timestamp r')) as [Hx _]; [|by rewrite Hc1 in Hx].
    apply list_elem_of_lookup. exists i. unfold entries_of. by rewrite lookup_zip_with, Hi, Hi'. }
  assert (Hne : r_ClusterID r <> "") by (by destruct (Hcl (line, r_ClusterID r, r_Timestamp r)); [constructor|]).
  unfold Encode. rewrite He, bool_decide_eq_false_2 by done. rewrite (encode_loop_ok _ _ _ _ _ Hall Hl).
  cbn [result_bind]. eexists. split; [done|]. cbn [o_Key o_ContentHash]. rewrite Hdig, Hc1, Hts. split; [done|]. split; [done|].
  unfold Decode, decompress. cbn [o_Payload]. change ("" +:+ text (line :: lines)) with (text (line :: lines)).
  rewrite Hm, (zstd_frame _ _ He Htext), Hd, Hdec, (zstd_roundtrip _ _ _ He Hd Htext), Hc.
  split; [done|]. intros Hv. cbn [negb result_bind]. by rewrite (lines_roundtrip _ _ Hv Hl).
Qed.
