(* ===== verification/S3Writer.v ===== *)
(** * S3Writer: the write path of the archive sink

    Models [Enqueue], [Start], [worker], [flush], [abandon], [settle] and [put] of
    [src/internal/sink/s3/writer.go]. A commit callback is the number it was enqueued
    under ([None] is a nil callback); a call of it is an entry of [sw_settled], which
    is also what the writes counter counts. The hand-off channel is the list
    [sw_jobs]; its workers interleave in any way, one message each at a time.
    [sw_landed] are the objects the store has received, in order: a PUT whose answer
    was lost lands as well. *)

From S2P Require Import Prelude Calendar GoJson HashCache SinkTypes S3Object.

(** ** The writer's values *)

Record writeJob := mkWriteJob {
  wj_line : string;
  wj_clusterID : string;
  wj_ts : Z;
  wj_commit : option nat;
}.

#[export] Instance writeJob_eq_dec : EqDecision writeJob.
Proof. solve_decision. Defined.

(** What one [PutObject] attempt does: it is acknowledged, it fails, or it lands and
    its acknowledgement is lost. *)
Inductive putAnswer := PutAccepted | PutRefused | PutUnacknowledged.

Inductive enqueueError :=
| errRefusedCluster
| errRefusedLine (reason : objectError)
| errClosing
| errContext
| errQueueFull.

Section writer.
Context `{ZstdCodec, Encoders, LineCodec, FrameWriter}.

Record openObject := mkOpen {
  oo_builder : objectBuilder;
  oo_commits : list (option nat);
}.

(** [Config], as far as the write path reads it. *)
Record writerConfig := mkWriterConfig {
  wc_prefix : string;
  wc_maxObjectBytes : Z;
  wc_queueSize : nat;
  (** what the attempts of the n-th flush meet, until the retry budget is spent *)
  wc_answers : nat -> list putAnswer;
}.

Record worker := mkWorker {
  wk_open : option openObject;
  (** the age timer *)
  wk_armed : bool;
  wk_exited : bool;
}.

Record writerState := mkWriterState {
  sw_jobs : list writeJob;
  sw_workers : list worker;
  sw_closing : bool;
  sw_settled : list (option nat * bool);
  sw_landed : list Object;
  sw_flushes : nat;
}.

Definition NewWriter_state (workers : nat) : writerState :=
  mkWriterState [] (replicate workers (mkWorker None false false)) false [] [] 0.

(** ** Settling and writing one object *)

Definition settle_one (commit : option nat) (ok : bool) (s : writerState) : writerState :=
  mkWriterState (sw_jobs s) (sw_workers s) (sw_closing s) (sw_settled s ++ [(commit, ok)]) (sw_landed s)
    (sw_flushes s).

Definition settleAll (commits : list (option nat)) (ok : bool) (s : writerState) : writerState :=
  foldl (fun s commit => settle_one commit ok s) s commits.

(** [put]: the same object until an attempt is acknowledged. *)
Fixpoint put (obj : Object) (answers : list putAnswer) (landed : list Object) : bool * list Object :=
  match answers with
  | [] => (false, landed)
  | PutAccepted :: _ => (true, landed ++ [obj])
  | PutRefused :: rest => put obj rest landed
  | PutUnacknowledged :: rest => put obj rest (landed ++ [obj])
  end.

Definition flush_object (cfg : writerConfig) (o : openObject) (s : writerState) : writerState :=
  if bool_decide (length (oo_commits o) = 0) then s
  else match build (wc_prefix cfg) (oo_builder o) with
       | Err _ => settleAll (oo_commits o) false s
       | Ok obj =>
           let '(ok, landed) := put obj (wc_answers cfg (sw_flushes s)) (sw_landed s) in
           settleAll (oo_commits o) ok
             (mkWriterState (sw_jobs s) (sw_workers s) (sw_closing s) (sw_settled s) landed (S (sw_flushes s)))
       end.

Definition abandon (o : openObject) (s : writerState) : writerState := settleAll (oo_commits o) false s.

(** [openObject.append]: the commit is taken on only with the line. *)
Definition open_append (o : openObject) (job : writeJob) : result objectError openObject :=
  match builder_append (oo_builder o) (wj_line job) (wj_clusterID job) (wj_ts job) with
  | Err e => Err e
  | Ok b => Ok (mkOpen b (oo_commits o ++ [wj_commit job]))
  end.

(** ** One worker

    A worker's own variables go beside the shared state and come back changed. *)

Definition closeOpen (cfg : writerConfig) (w : worker) (s : writerState) : worker * writerState :=
  (mkWorker None false (wk_exited w), match wk_open w with Some o => flush_object cfg o s | None => s end).

(** The body of the worker's loop over [attempt]; [retry] is what [continue] runs. *)
Definition take_attempt (cfg : writerConfig) (job : writeJob) (w : worker) (s : writerState)
    (retry : option (worker -> writerState -> worker * writerState)) : worker * writerState :=
  let opened :=
    match wk_open w with
    | Some o => Ok (o, wk_armed w)
    | None => match newObjectBuilder (wc_maxObjectBytes cfg) with
              | Err e => Err e
              | Ok b => Ok (mkOpen b [], true)
              end
    end in
  match opened with
  | Err _ => (w, settle_one (wj_commit job) false s)
  | Ok (o, armed) =>
      match open_append o job with
      | Ok o' =>
          let w' := mkWorker (Some o') armed (wk_exited w) in
          if full (oo_builder o') then closeOpen cfg w' s else (w', s)
      | Err e =>
          let abandoned := (mkWorker None false (wk_exited w), settle_one (wj_commit job) false (abandon o s)) in
          match e, retry with
          | errClusterMismatch, Some again =>
              let '(w', s') := closeOpen cfg (mkWorker (Some o) armed (wk_exited w)) s in again w' s'
          | _, _ => abandoned
          end
      end
  end.

Definition take_job (cfg : writerConfig) (job : writeJob) (w : worker) (s : writerState) : worker * writerState :=
  take_attempt cfg job w s (Some (fun w s => take_attempt cfg job w s None)).

(** ** The system: callers, workers, timers and the shutdown *)

Inductive writerOp :=
| OpEnqueue (record : Record_) (commit : option nat) (outcome : sendOutcome)
| OpReceive (i : nat)
| OpTimer (i : nat)
| OpShutdown.

Definition set_worker (i : nat) (w : worker) (s : writerState) : writerState :=
  mkWriterState (sw_jobs s) (<[i := w]> (sw_workers s)) (sw_closing s) (sw_settled s) (sw_landed s) (sw_flushes s).

Definition set_jobs (jobs : list writeJob) (s : writerState) : writerState :=
  mkWriterState jobs (sw_workers s) (sw_closing s) (sw_settled s) (sw_landed s) (sw_flushes s).

(** [Enqueue]. [Sent] needs room in the channel; without it the call waits until one
    of the other two comes, and is modelled as the timeout. *)
Definition Enqueue (cfg : writerConfig) (record : Record_) (commit : option nat) (outcome : sendOutcome)
    (s : writerState) : result enqueueError writerState :=
  if bool_decide (r_ClusterID record = "") then Err errRefusedCluster
  else match marshalRecordLine record with
       | Err e => Err (errRefusedLine e)
       | Ok line =>
           if sw_closing s then Err errClosing
           else match outcome with
                | Sent =>
                    if bool_decide (length (sw_jobs s) < wc_queueSize cfg)
                    then Ok (set_jobs (sw_jobs s ++ [mkWriteJob line (r_ClusterID record) (r_Timestamp record) commit]) s)
                    else Err errQueueFull
                | ContextDone => Err errContext
                | TimedOut => Err errQueueFull
                end
       end.

(** One receive of a worker: a job, or the closed and drained channel. *)
Definition receive (cfg : writerConfig) (i : nat) (s : writerState) : writerState :=
  match sw_workers s !! i with
  | None => s
  | Some w =>
      if wk_exited w then s
      else match sw_jobs s with
           | job :: rest => let '(w', s') := take_job cfg job w (set_jobs rest s) in set_worker i w' s'
           | [] =>
               if sw_closing s then
                 let '(w', s') := closeOpen cfg w s in set_worker i (mkWorker (wk_open w') (wk_armed w') true) s'
               else s
           end
  end.

Definition age_timer (cfg : writerConfig) (i : nat) (s : writerState) : writerState :=
  match sw_workers s !! i with
  | Some w =>
      if wk_armed w && negb (wk_exited w) then let '(w', s') := closeOpen cfg w s in set_worker i w' s' else s
  | None => s
  end.

Definition shutdown (s : writerState) : writerState :=
  mkWriterState (sw_jobs s) (sw_workers s) true (sw_settled s) (sw_landed s) (sw_flushes s).

Definition step_writer (cfg : writerConfig) (op : writerOp) (s : writerState) : writerState :=
  match op with
  | OpEnqueue record commit outcome => match Enqueue cfg record commit outcome s with Ok s' => s' | Err _ => s end
  | OpReceive i => receive cfg i s
  | OpTimer i => age_timer cfg i s
  | OpShutdown => shutdown s
  end.

Definition run_writer (cfg : writerConfig) (ops : list writerOp) (s : writerState) : writerState :=
  foldl (fun s op => step_writer cfg op s) s ops.

End writer.

(** ** What an object carries *)

Definition entry_of (job : writeJob) : entry := (wj_line job, wj_clusterID job, wj_ts job).

(** The object of a run of jobs: keyed by the first one's cluster and instant and by
    the hash of the lines, which its frame decompresses to. *)
Record carries `{ZstdCodec, Encoders, FrameWriter} (prefix : string) (obj : Object) (jobs : list writeJob) : Prop := {
  c_key : forall first rest, jobs = first :: rest ->
    o_Key obj = objectKey prefix (wj_clusterID first) (wj_ts first) (sha256_hex (text (map wj_line jobs)));
  c_hash : o_ContentHash obj = sha256_hex (text (map wj_line jobs));
  c_payload : forall decode, zstdDecoder = Some decode -> decompress (o_Payload obj) = Ok (text (map wj_line jobs));
  c_cluster : forall j j', j ∈ jobs -> j' ∈ jobs -> wj_clusterID j = wj_clusterID j';
  c_nonempty : jobs <> [];
}.

(** The object of a run of jobs whose lines need not be known to be of any length. *)
Record seals `{ZstdCodec, Encoders, FrameWriter} (prefix : string) (obj : Object) (jobs : list writeJob) : Prop := {
  sl_key : forall first rest, jobs = first :: rest ->
    o_Key obj = objectKey prefix (wj_clusterID first) (wj_ts first) (sha256_hex (text (map wj_line jobs)));
  sl_hash : o_ContentHash obj = sha256_hex (text (map wj_line jobs));
  sl_payload : forall decode, zstdDecoder = Some decode -> text (map wj_line jobs) <> "" ->
    decompress (o_Payload obj) = Ok (text (map wj_line jobs));
  sl_cluster : forall j j', j ∈ jobs -> j' ∈ jobs -> wj_clusterID j = wj_clusterID j';
  sl_nonempty : jobs <> [];
}.

Lemma seals_carries `{ZstdCodec, Encoders, FrameWriter} prefix obj jobs :
  seals prefix obj jobs -> Forall (fun j => wj_line j <> "") jobs -> carries prefix obj jobs.
Proof.
  intros [K Hh P Cl N] Hl. split; try done. intros decode Hd. apply (P decode Hd).
  apply text_nonempty; [by destruct jobs|]. by apply Forall_map.
Qed.

(** The object a worker is filling holds [jobs]. *)
Definition holds_jobs `{ZstdCodec, FrameWriter, !FrameLaws} (o : openObject) (jobs : list writeJob) : Prop :=
  holding (oo_builder o) (map entry_of jobs) /\ oo_commits o = map wj_commit jobs.

Definition worker_holds `{ZstdCodec, FrameWriter, !FrameLaws} (w : worker) (jobs : list writeJob) : Prop :=
  match wk_open w with
  | None => jobs = [] /\ wk_armed w = false
  | Some o => holds_jobs o jobs /\ jobs <> [] /\ wk_armed w = true /\ wk_exited w = false
  end.

(** From [s] to [s'] exactly the jobs of [done] were settled, in order and with these
    outcomes; what landed meanwhile carries runs of them, and a success is backed by
    an object that landed. *)
Record progress `{ZstdCodec, Encoders, FrameWriter} (cfg : writerConfig) (s s' : writerState)
    (done_ : list (writeJob * bool)) : Prop := {
  pg_jobs : sw_jobs s' = sw_jobs s;
  pg_workers : sw_workers s' = sw_workers s;
  pg_closing : sw_closing s' = sw_closing s;
  pg_settled : sw_settled s' = sw_settled s ++ map (fun d => (wj_commit d.1, d.2)) done_;
  pg_landed : exists more, sw_landed s' = sw_landed s ++ more /\
    (forall obj, obj ∈ more -> exists jobs, seals (wc_prefix cfg) obj jobs /\ jobs ⊆ map fst done_) /\
    (forall j, (j, true) ∈ done_ -> exists obj jobs, obj ∈ more /\ seals (wc_prefix cfg) obj jobs /\
       jobs ⊆ map fst done_ /\ j ∈ jobs);
}.

Section progress.
Context `{ZstdCodec, Encoders, LineCodec, FrameWriter, !FrameLaws}.
Implicit Types (cfg : writerConfig) (s : writerState) (w : worker).

Lemma progress_refl cfg s : progress cfg s s [].
Proof.
  split; try done; [by rewrite app_nil_r|]. exists []. rewrite app_nil_r.
  split; [done|]. split; intros ? He; by apply elem_of_nil in He.
Qed.

Lemma progress_trans cfg s1 s2 s3 d1 d2 :
  progress cfg s1 s2 d1 -> progress cfg s2 s3 d2 -> progress cfg s1 s3 (d1 ++ d2).
Proof.
  intros [Ja Wa Ca Sa (ma & La & Oa & Ta)] [Jb Wb Cb Sb (mb & Lb & Ob & Tb)].
  split; try congruence; [by rewrite Sb, Sa, map_app, app_assoc|]. exists (ma ++ mb).
  split; [by rewrite Lb, La, app_assoc|]. setoid_rewrite elem_of_app. rewrite map_app. split.
  - intros obj [(jobs & Hc & Hs)%Oa|(jobs & Hc & Hs)%Ob]; exists jobs; (split; [done|]); set_solver.
  - intros j [(obj & jobs & ? & ? & ? & ?)%Ta|(obj & jobs & ? & ? & ? & ?)%Tb]; exists obj, jobs;
      (split; [tauto|]); (split; [done|]); set_solver.
Qed.

Lemma settleAll_eq commits ok s :
  settleAll commits ok s =
  mkWriterState (sw_jobs s) (sw_workers s) (sw_closing s) (sw_settled s ++ map (fun c => (c, ok)) commits)
    (sw_landed s) (sw_flushes s).
Proof.
  unfold settleAll. revert s. induction commits as [|c commits IH]; intros s; cbn.
  - rewrite app_nil_r. by destruct s.
  - rewrite IH. cbn. by rewrite <-app_assoc.
Qed.

(** Settling as failed needs no object. *)
Lemma settle_failed cfg s jobs :
  progress cfg s (settleAll (map wj_commit jobs) false s) (map (fun j => (j, false)) jobs).
Proof.
  rewrite settleAll_eq. split; cbn; try done; [by rewrite !map_map|]. exists [].
  rewrite app_nil_r. split; [done|]. split; [intros ? He; by apply elem_of_nil in He|].
  intros j (? & ? & ?)%list_elem_of_fmap. done.
Qed.

Lemma put_landed obj answers landed ok landed' : put obj answers landed = (ok, landed') ->
  exists n, landed' = landed ++ replicate n obj /\ (ok = true -> n <> 0).
Proof.
  revert landed. induction answers as [|[] answers IH]; intros landed; cbn.
  - intros [= <- <-]. exists 0. by rewrite app_nil_r.
  - intros [= <- <-]. by exists 1.
  - apply IH.
  - intros (n & -> & Hn)%IH. exists (S n). by rewrite <-app_assoc.
Qed.

Lemma holds_seals cfg o jobs obj :
  holds_jobs o jobs -> jobs <> [] -> build (wc_prefix cfg) (oo_builder o) = Ok obj ->
  seals (wc_prefix cfg) obj jobs.
Proof.
  intros [[Hr Hd Hc Hf Hcl _] _] Hne Hb. unfold build in Hb. case_bool_decide; [done|].
  destruct (frame_Close _) as [payload|] eqn:Ep; [|done]. injection Hb as <-.
  assert (Hl : map e_line (map entry_of jobs) = map wj_line jobs) by (rewrite map_map; done).
  rewrite Hl in Hd, Hc. split; cbn; try done.
  - intros first rest ->. destruct (Hf _ _ eq_refl) as [-> ->]. by rewrite Hd.
  - by rewrite Hd.
  - intros decode Hdec Htext. destruct (content_close _ _ _ Ep Hdec) as [Hm Hx]; [by rewrite Hc|].
    unfold decompress. by rewrite Hm, Hdec, Hx, Hc.
  - intros j j' Hj Hj'. transitivity (b_clusterID (oo_builder o)); [|symmetry]; apply (Hcl (entry_of _));
      by apply list_elem_of_fmap_2.
Qed.

Lemma flush_progress cfg o jobs s : holds_jobs o jobs -> jobs <> [] ->
  exists ok, progress cfg s (flush_object cfg o s) (map (fun j => (j, ok)) jobs).
Proof.
  intros Ho Hne. unfold flush_object. rewrite (proj2 Ho), length_map.
  rewrite bool_decide_eq_false_2 by (by destruct jobs).
  destruct (build _ _) as [obj|] eqn:Eb; [|exists false; apply settle_failed].
  pose proof (holds_seals _ _ _ _ Ho Hne Eb) as Hc.
  destruct (put _ _ _) as [ok landed] eqn:Ep. destruct (put_landed _ _ _ _ _ Ep) as (n & -> & Hn).
  exists ok. rewrite settleAll_eq. split; cbn; try done; [by rewrite !map_map|].
  exists (replicate n obj). split; [done|]. rewrite map_map, map_id. split.
  - intros obj' [-> _]%elem_of_replicate. by exists jobs.
  - intros j (j' & [= -> <-] & Hj)%list_elem_of_fmap. exists obj, jobs.
    split; [|done]. apply elem_of_replicate. auto.
Qed.

Lemma closeOpen_progress cfg w jobs s : worker_holds w jobs ->
  exists ok, progress cfg s (closeOpen cfg w s).2 (map (fun j => (j, ok)) jobs) /\
    worker_holds (closeOpen cfg w s).1 [] /\ wk_exited (closeOpen cfg w s).1 = wk_exited w.
Proof.
  unfold worker_holds, closeOpen. cbn. destruct (wk_open w) as [o|].
  - intros (Ho & Hne & _). destruct (flush_progress cfg o jobs s Ho Hne) as [ok Hp]. by exists ok.
  - intros [-> _]. exists false. split; [apply progress_refl|done].
Qed.
End progress.

(** ** Every accepted job is settled exactly once *)

Section accounting.
Context `{ZstdCodec, Encoders, LineCodec, FrameWriter, !FrameLaws}.
Implicit Types (cfg : writerConfig) (s : writerState) (w : worker).

Lemma open_append_holds o jobs job o' : holds_jobs o jobs -> open_append o job = Ok o' ->
  holds_jobs o' (jobs ++ [job]).
Proof.
  intros [Hh Hc] Ha. unfold open_append in Ha. destruct (builder_append _ _ _ _) as [b|] eqn:E; [|done].
  injection Ha as <-. split; cbn; [|by rewrite Hc, map_app].
  rewrite map_app. by destruct (append_holding _ _ _ _ _ _ Hh E).
Qed.

(** One attempt settles a prefix of what the worker held with the job, and keeps the
    rest. *)
Definition takes cfg (w : worker) (s : writerState) (job : writeJob) (jobs : list writeJob)
    (out : worker * writerState) : Prop :=
  exists done_ held, progress cfg s out.2 done_ /\ worker_holds out.1 held /\
    wk_exited out.1 = wk_exited w /\ jobs ++ [job] = map fst done_ ++ held.

Lemma take_attempt_takes cfg job w s jobs retry :
  wk_exited w = false -> worker_holds w jobs ->
  (forall again, retry = Some again -> forall w1 s1, worker_holds w1 [] -> wk_exited w1 = false ->
     takes cfg w1 s1 job [] (again w1 s1)) ->
  takes cfg w s job jobs (take_attempt cfg job w s retry).
Proof.
  intros Hx Hw Hretry. unfold take_attempt.
  set (opened := match wk_open w with Some o => _ | None => _ end).
  assert (Ho : match opened with
               | Ok (o, armed) => holds_jobs o jobs /\ armed = true
               | Err _ => jobs = [] /\ wk_open w = None end).
  { subst opened. unfold worker_holds in Hw. destruct (wk_open w) as [o|]; [by destruct Hw as (? & ? & ? & ?)|].
    destruct Hw as [-> Ha]. destruct (newObjectBuilder _) as [b|] eqn:En; [|done].
    destruct (new_holding _ _ En) as [Hh _]. by split. }
  destruct opened as [[o armed]|e].
  - destruct Ho as [Ho ->]. destruct (open_append o job) as [o'|e] eqn:Ea.
    + pose proof (open_append_holds _ _ _ _ Ho Ea) as Ho'.
      assert (Hw' : worker_holds (mkWorker (Some o') true (wk_exited w)) (jobs ++ [job])).
      { unfold worker_holds. cbn. split; [done|]. split; [by destruct jobs|done]. }
      destruct (full _).
      * destruct (closeOpen_progress cfg _ _ s Hw') as (ok & Hp & Hh & Hx'). exists (map (fun j => (j, ok)) (jobs ++ [job])), [].
        split; [done|]. split; [done|]. split; [done|]. by rewrite map_map, map_id, app_nil_r.
      * exists [], (jobs ++ [job]). split; [apply progress_refl|]. done.
    + assert (Hab : takes cfg w s job jobs (mkWorker None false (wk_exited w), settle_one (wj_commit job) false (abandon o s))).
      { exists (map (fun j => (j, false)) (jobs ++ [job])), []. unfold abandon. rewrite (proj2 Ho). split.
        - rewrite map_app. cbn. eapply progress_trans; [apply settle_failed|]. apply (settle_failed cfg _ [job]).
        - split; [done|]. split; [done|]. by rewrite map_map, map_id, app_nil_r. }
      destruct e; try exact Hab. destruct retry as [again|]; [|exact Hab].
      destruct (decide (jobs = [])) as [->|Hne].
      { exfalso. destruct Ho as [[Hr _ _ _ _ _] _]. unfold open_append, builder_append in Ea. rewrite Hr in Ea. cbn in Ea.
        repeat case_match; simplify_eq. }
      destruct (closeOpen_progress cfg (mkWorker (Some o) true (wk_exited w)) jobs s) as (ok & Hp & Hh & Hx').
      { by split. }
      destruct (closeOpen _ _ _) as [w1 s1]. cbn in *.
      destruct (Hretry again eq_refl w1 s1 Hh) as (d & held & Hp' & Hh' & Hx'' & He); [by rewrite Hx'|].
      exists (map (fun j => (j, ok)) jobs ++ d), held. split; [by eapply progress_trans|].
      split; [done|]. split; [congruence|]. rewrite map_app, map_map, map_id, <-app_assoc. by f_equal.
  - destruct Ho as [-> Hn]. exists [(job, false)], []. split; [apply (settle_failed cfg s [job])|].
    unfold worker_holds in *. cbn. rewrite Hn in *. done.
Qed.

Lemma take_job_takes cfg job w s jobs : wk_exited w = false -> worker_holds w jobs ->
  takes cfg w s job jobs (take_job cfg job w s).
Proof.
  intros Hx Hw. apply take_attempt_takes; try done. intros again [= <-] w1 s1 Hw1 Hx1.
  by apply take_attempt_takes.
Qed.

(** The jobs accepted during a run, in order. *)
Fixpoint accepted cfg (ops : list writerOp) (s : writerState) : list writeJob :=
  match ops with
  | [] => []
  | op :: rest =>
      drop (length (sw_jobs s)) (match op with OpEnqueue _ _ _ => sw_jobs (step_writer cfg op s) | _ => [] end) ++
      accepted cfg rest (step_writer cfg op s)
  end.

(** A job is accepted with its line rendered. *)
Lemma accepted_nonempty cfg ops s : Forall (fun j => wj_line j <> "") (accepted cfg ops s).
Proof.
  revert s. induction ops as [|op ops IH]; intros s; cbn [accepted]; [done|]. apply Forall_app. split; [|done].
  destruct op as [r c o| | |]; rewrite ?drop_nil; try done. cbn [step_writer]. unfold Enqueue, marshalRecordLine.
  destruct (encode_line r) as [line|] eqn:El; repeat case_match; simplify_eq;
    try case_bool_decide; cbn [sw_jobs set_jobs]; rewrite ?drop_all, ?drop_app_length; try done.
  all: try (constructor; [|done]; by eapply encode_line_nonempty).
Qed.

Lemma accepted_seals cfg ops s prefix obj jobs :
  seals prefix obj jobs -> jobs ⊆ accepted cfg ops s -> carries prefix obj jobs.
Proof.
  intros Hs Hsub. apply seals_carries; [done|]. apply Forall_forall. intros j Hj%Hsub.
  by apply (proj1 (Forall_forall _ _) (accepted_nonempty cfg ops s)).
Qed.

(** The account of a state: what each worker holds, and what was settled how. *)
Record account cfg (acc : list writeJob) (s : writerState) (held : list (list writeJob))
    (done_ : list (writeJob * bool)) : Prop := {
  ac_held : Forall2 worker_holds (sw_workers s) held;
  ac_settled : sw_settled s = map (fun d => (wj_commit d.1, d.2)) done_;
  ac_all : acc ≡ₚ map fst done_ ++ concat held ++ sw_jobs s;
  ac_landed : forall obj, obj ∈ sw_landed s -> exists jobs, seals (wc_prefix cfg) obj jobs /\ jobs ⊆ map fst done_;
  ac_backed : forall j, (j, true) ∈ done_ ->
    exists obj jobs, obj ∈ sw_landed s /\ seals (wc_prefix cfg) obj jobs /\ jobs ⊆ map fst done_ /\ j ∈ jobs;
  ac_exited : forall w, w ∈ sw_workers s -> wk_exited w = true -> sw_closing s = true /\ sw_jobs s = [];
}.

(** A worker's move: its own entry changes, a prefix of what it had is settled. *)
Lemma account_move cfg acc s held done_ i w jobs queued s0 w' s' d kept :
  account cfg acc s held done_ -> sw_workers s !! i = Some w -> held !! i = Some jobs ->
  sw_jobs s = queued ++ sw_jobs s0 -> s0 = set_jobs (sw_jobs s0) s ->
  progress cfg s0 s' d -> worker_holds w' kept -> jobs ++ queued = map fst d ++ kept ->
  (wk_exited w' = true -> sw_closing s = true /\ sw_jobs s0 = []) ->
  account cfg acc (set_worker i w' s') (<[i := kept]> held) (done_ ++ d).
Proof.
  intros [Hh Hs Ha Hl Hb He] Hw Hi Hq Hs0 [Pj Pw Pc Ps (more & Pl & Po & Pb)] Hw' Hsplit Hex.
  assert (Hws : sw_workers s' = sw_workers s) by (rewrite Pw, Hs0; done).
  assert (Hcl : sw_closing s' = sw_closing s) by (rewrite Pc, Hs0; done).
  assert (Hse : sw_settled s0 = sw_settled s) by (rewrite Hs0; done).
  assert (Hla : sw_landed s0 = sw_landed s) by (rewrite Hs0; done).
  split; unfold set_worker; cbn.
  - rewrite Hws. by apply Forall2_insert.
  - by rewrite Ps, Hse, Hs, map_app.
  - rewrite Ha, Hq, Pj, map_app. rewrite <-(list_insert_id held i jobs) at 1 by done.
    pose proof (lookup_lt_Some _ _ _ Hi). rewrite !insert_take_drop, !concat_app by done. cbn. clear -Hsplit.
    transitivity (map fst done_ ++ concat (take i held) ++ concat (drop (S i) held) ++ (jobs ++ queued) ++ sw_jobs s0).
    { solve_Permutation. }
    rewrite Hsplit. solve_Permutation.
  - intros obj. rewrite Pl, Hla, map_app. intros [(js & Hc & Hss)%Hl|(js & Hc & Hss)%Po]%elem_of_app;
      exists js; (split; [done|]); set_solver.
  - intros j. rewrite Pl, Hla. setoid_rewrite elem_of_app.
    rewrite map_app. intros [(obj & js & ? & ? & ? & ?)%Hb|(obj & js & ? & ? & ? & ?)%Pb]; exists obj, js;
      (split; [tauto|]); (split; [done|]); set_solver.
  - intros w1 Hw1 Hx1. rewrite Hcl, Pj. rewrite Hws in Hw1.
    apply list_elem_of_lookup in Hw1 as [k Hk]. apply list_lookup_insert_Some in Hk as [(<- & <- & _)|[_ Hk]].
    + by apply Hex.
    + destruct (He w1) as [Hc Hj]; [by eapply list_elem_of_lookup_2|done|]. rewrite Hq in Hj. by apply app_nil in Hj as [_ ?].
Qed.

Lemma step_account cfg acc op s held done_ : account cfg acc s held done_ ->
  exists held' done', account cfg (acc ++ accepted cfg [op] s) (step_writer cfg op s) held' done'.
Proof.
  intros Hacc. cbn [accepted]. rewrite app_nil_r. pose proof Hacc as [Hh Hs Ha Hl Hb He].
  destruct op as [r c o|i|i|]; cbn [step_writer]; rewrite ?drop_nil, ?app_nil_r.
  - unfold Enqueue. repeat case_match; simplify_eq; rewrite ?drop_all, ?app_nil_r; try by exists held, done_.
    case_bool_decide; rewrite ?drop_all, ?app_nil_r; [|by exists held, done_]. exists held, done_. cbn.
    rewrite drop_app_length. split; cbn; try done; [by rewrite Ha, <-!app_assoc|].
    intros w Hw Hx. destruct (He w Hw Hx). congruence.
  - unfold receive. destruct (sw_workers s !! i) as [w|] eqn:Ew; [|by exists held, done_].
    destruct (wk_exited w) eqn:Ex; [by exists held, done_|].
    destruct (Forall2_lookup_l _ _ _ _ _ Hh Ew) as (jobs & Hi & Hw).
    destruct (sw_jobs s) as [|job rest] eqn:Ej.
    + destruct (sw_closing s) eqn:Ec; [|by exists held, done_].
      destruct (closeOpen_progress cfg w jobs s Hw) as (ok & Hp & Hw' & Hx').
      destruct (closeOpen cfg w s) as [w' s']. cbn in *. do 2 eexists.
      eapply (account_move _ _ _ _ _ _ _ _ [] s); try done; [by destruct s| |].
      * unfold worker_holds in Hw'. destruct (wk_open w') eqn:Eo; [by destruct Hw' as (_ & ? & _)|].
        instantiate (1 := []). by unfold worker_holds.
      * by rewrite !app_nil_r, map_map, map_id.
    + destruct (take_job_takes cfg job w (set_jobs rest s) jobs Ex Hw) as (d & kept & Hp & Hw' & Hx' & Hsplit).
      destruct (take_job _ _ _ _) as [w' s']. cbn in *. do 2 eexists.
      eapply (account_move _ _ _ _ _ _ _ _ [job] (set_jobs rest s)); try done.
      intros Hx''. congruence.
  - unfold age_timer. destruct (sw_workers s !! i) as [w|] eqn:Ew; [|by exists held, done_].
    destruct (_ && _) eqn:Eg; [|by exists held, done_].
    destruct (Forall2_lookup_l _ _ _ _ _ Hh Ew) as (jobs & Hi & Hw).
    destruct (closeOpen_progress cfg w jobs s Hw) as (ok & Hp & Hw' & Hx').
    destruct (closeOpen cfg w s) as [w' s']. cbn in *. do 2 eexists.
    eapply (account_move _ _ _ _ _ _ _ _ [] s); try done; [by destruct s| |].
    + by rewrite !app_nil_r, map_map, map_id.
    + rewrite Hx'. intros Hx''. rewrite Hx'' in Eg. by destruct (wk_armed w).
  - exists held, done_. split; try done. cbn. intros w Hw Hx. by destruct (He w Hw Hx).
Qed.

Lemma run_account cfg ops acc s held done_ : account cfg acc s held done_ ->
  exists held' done', account cfg (acc ++ accepted cfg ops s) (run_writer cfg ops s) held' done'.
Proof.
  revert acc s held done_. induction ops as [|op ops IH]; intros acc s held done_ Hacc.
  - cbn. rewrite app_nil_r. by exists held, done_.
  - destruct (step_account cfg acc op s held done_ Hacc) as (held1 & done1 & Hacc1).
    destruct (IH _ _ _ _ Hacc1) as (held2 & done2 & Hacc2). exists held2, done2.
    cbn [accepted] in *. by rewrite app_nil_r, <-app_assoc in Hacc2.
Qed.

Lemma fresh_account cfg n : account cfg [] (NewWriter_state n) (replicate n []) [].
Proof.
  split; cbn; try done.
  - apply Forall2_replicate. done.
  - rewrite app_nil_r. induction n; [done|]. cbn. done.
  - intros obj Ho. by apply elem_of_nil in Ho.
  - intros j Hj. by apply elem_of_nil in Hj.
  - intros w [-> _]%elem_of_replicate. done.
Qed.

(** What a shutdown has left to do: jobs to receive and workers to end. *)
Definition running (ws : list worker) : nat := length (List.filter (fun w => negb (wk_exited w)) ws).
Definition remaining (s : writerState) : nat := length (sw_jobs s) + running (sw_workers s).

Lemma running_insert ws i w w' : ws !! i = Some w -> wk_exited w = false ->
  running (<[i := w']> ws) + (if wk_exited w' then 1 else 0) = running ws.
Proof.
  unfold running. revert i. induction ws as [|x ws IH]; intros [|i] Hi Hx; try done; simpl in *.
  - injection Hi as ->. rewrite Hx. destruct (wk_exited w'); simpl; lia.
  - specialize (IH i Hi Hx). destruct (wk_exited x); simpl; lia.
Qed.

Lemma receive_remaining cfg acc s held done_ i w : account cfg acc s held done_ ->
  sw_closing s = true -> sw_workers s !! i = Some w -> wk_exited w = false ->
  remaining (receive cfg i s) < remaining s.
Proof.
  intros [Hh _ _ _ _ _] Hc Hi Hx. unfold receive, remaining. rewrite Hi, Hx.
  destruct (Forall2_lookup_l _ _ _ _ _ Hh Hi) as (jobs & Hj & Hw).
  destruct (sw_jobs s) as [|job rest] eqn:Ej.
  - rewrite Hc. destruct (closeOpen_progress cfg w jobs s Hw) as (ok & [Pj Pw _ _ _] & _ & _).
    destruct (closeOpen cfg w s) as [w' s']. cbn in *. rewrite Pj, Pw, Ej.
    pose proof (running_insert (sw_workers s) i w (mkWorker (wk_open w') (wk_armed w') true) Hi Hx) as Hr. unfold running in *. simpl in *. lia.
  - destruct (take_job_takes cfg job w (set_jobs rest s) jobs Hx Hw) as (d & kept & [Pj Pw _ _ _] & _ & Hx' & _).
    destruct (take_job _ _ _ _) as [w' s']. cbn in *. rewrite Pj, Pw.
    pose proof (running_insert (sw_workers s) i w w' Hi Hx) as Hr. rewrite Hx', Hx in Hr. unfold running in *. simpl in *. lia.
Qed.

Lemma exited_account cfg acc s held done_ : account cfg acc s held done_ ->
  sw_workers s <> [] -> Forall (fun w => wk_exited w = true) (sw_workers s) -> concat held ++ sw_jobs s = [].
Proof.
  intros [Hh _ _ _ _ He] Hne Hall.
  assert (Hj : sw_jobs s = []).
  { destruct (sw_workers s) as [|w ws] eqn:E; [done|]. apply (He w); [by left|]. by apply Forall_cons in Hall as [? _]. }
  rewrite Hj, app_nil_r. clear -Hh Hall. induction Hh as [|w jobs ws held Hw Hh IH]; [done|].
  apply Forall_cons in Hall as [Hx Hall]. cbn. rewrite (IH Hall), app_nil_r. unfold worker_holds in Hw.
  destruct (wk_open w); [|by destruct Hw]. destruct Hw as (_ & _ & _ & Hx'). congruence.
Qed.
End accounting.

(** ** Properties *)

(** C21: every accepted record is settled exactly once, and never on a guess. However
    callers, workers, rotations, age timers, refused and half-acknowledged PUTs and the
    shutdown interleave: the callbacks called so far are, one for one, those of
    accepted jobs that are no longer queued or in an open object; a callback that
    reported success belongs to a job whose line is in an object the store received,
    together with nothing but other accepted jobs of its cluster, under the key and the
    hash of exactly those lines. After the shutdown began each receive of a worker
    still running leaves less to do, and when all of them have ended nothing is left
    unsettled. *)
Theorem accepted_jobs_settle_once
    `{ZstdCodec, Encoders, LineCodec, FrameWriter, !FrameLaws} cfg n ops :
  let s := run_writer cfg ops (NewWriter_state n) in
  let acc := accepted cfg ops (NewWriter_state n) in
  (exists unsettled, map wj_commit acc ≡ₚ map fst (sw_settled s) ++ map wj_commit unsettled /\
     (sw_workers s <> [] -> Forall (fun w => wk_exited w = true) (sw_workers s) -> unsettled = [])) /\
  (forall c, (c, true) ∈ sw_settled s -> exists job obj jobs,
     job ∈ jobs /\ wj_commit job = c /\ jobs ⊆ acc /\ obj ∈ sw_landed s /\ carries (wc_prefix cfg) obj jobs) /\
  (forall i w, sw_closing s = true -> sw_workers s !! i = Some w -> wk_exited w = false ->
     remaining (step_writer cfg (OpReceive i) s) < remaining s).
Proof.
  intros s acc. destruct (run_account cfg ops _ _ _ _ (fresh_account cfg n)) as (held & d & Hacc).
  change ([] ++ accepted cfg ops (NewWriter_state n)) with acc in Hacc. fold s in Hacc.
  pose proof Hacc as [Hh Hs Ha Hl Hb He]. split; [|split].
  - exists (concat held ++ sw_jobs s). split; [|by apply exited_account with (1 := Hacc)].
    rewrite Ha, Hs, map_app, !map_map. done.
  - intros c. rewrite Hs. intros ([job ok] & [= -> <-] & Hd)%list_elem_of_fmap.
    destruct (Hb job Hd) as (obj & jobs & Ho & Hc & Hsub & Hj). exists job, obj, jobs.
    assert (Hacc' : jobs ⊆ acc) by (intros j Hj'%Hsub; rewrite Ha; by apply elem_of_app; left).
    split; [done|]. split; [done|]. split; [done|]. split; [done|]. by eapply accepted_seals.
  - intros i w. by apply receive_remaining with (1 := Hacc).
Qed.
