(* ===== verification/Layout.v ===== *)
(** * Layout: the archive's key layout as the reader understands it

    Models [src/internal/query/objectsource/layout.go], with [clusterIDOf] of
    clusters.go: which prefixes cover a window, and that they are the right ones for
    the keys the writer of [S3Object] builds. *)

From S2P Require Import Prelude Calendar GoJson HashCache SinkTypes S3Object.

(** ** Keys and prefixes *)

Definition scopesPartition : string := "scopes".
Definition clusterSegment : string := "cluster_id=".
Definition dateSegment : string := "date=".
Definition hourSegment : string := "hour=".
Definition hoursPerDay : Z := 24.

Definition joinSegments (segments : list string) : string :=
  join "/" (map (trim "/"%char) (List.filter (fun s => bool_decide (s <> "")) segments)).

Definition recordsRoot (prefix clusterID : string) : string :=
  joinSegments [prefix; formatPartition; clusterSegment +:+ clusterID] +:+ "/".

Definition scopesRoot (prefix : string) : string :=
  joinSegments [prefix; formatPartition; scopesPartition] +:+ "/".

Definition isObjectKey (key : string) : bool := has_suffix key objectSuffix.

Definition clusterIDOf (key root : string) : option string :=
  match cut_prefix key root with
  | None => None
  | Some rest =>
      match cut "/"%char rest with
      | None => None
      | Some (segment, _) =>
          match cut_prefix segment clusterSegment with
          | Some id => if bool_decide (id = "") then None else Some id
          | None => None
          end
      end
  end.

(** ** Partitions *)

Record partition := mkPartition {
  pt_prefix : string;
  pt_start : Z;
}.

Definition day_prefix (root : string) (t : Z) : string := root +:+ dateSegment +:+ format_date t +:+ "/".

Definition hour_prefix (root : string) (t : Z) : string :=
  root +:+ dateSegment +:+ format_date t +:+ "/" +:+ hourSegment +:+ format_hour t +:+ "/".

(** The loop of [partitionSpans]. Every round advances by an hour or a day; [fuel] is
    the number of hours from [cur] to [end_]. *)
Fixpoint spans_loop (fuel : nat) (root : string) (cur end_ : Z) : list partition :=
  match fuel with
  | O => []
  | S fuel =>
      if bool_decide (end_ < cur)%Z then []
      else
        let today := dayStart cur in
        let lastHourOfDay := (today + (hoursPerDay - 1) * hour)%Z in
        if bool_decide (cur = today) && negb (bool_decide (end_ < lastHourOfDay)%Z)
        then mkPartition (day_prefix root today) today :: spans_loop fuel root (today + day)%Z end_
        else mkPartition (hour_prefix root cur) cur :: spans_loop fuel root (cur + hour)%Z end_
  end.

Definition partitionSpans (root : string) (from to span : Z) : list partition :=
  let start := hourStart (from - span) in
  let end_ := hourStart to in
  spans_loop (Z.to_nat ((end_ - start) / hour + 1)) root start end_.

Definition prefixesOf (spans : list partition) : list string := map pt_prefix spans.

Definition partitionPrefixes (root : string) (from to span : Z) : list string :=
  prefixesOf (partitionSpans root from to span).

Fixpoint hours_loop (fuel : nat) (root : string) (cur last : Z) : list string :=
  match fuel with
  | O => []
  | S fuel =>
      if bool_decide (last < cur)%Z then [] else hour_prefix root cur :: hours_loop fuel root (cur + hour)%Z last
  end.

Definition dayPrefixes (root : string) (d through : Z) : list string :=
  let d := dayStart d in
  let last := hourStart through in
  if bool_decide (last < d)%Z then []
  else if negb (bool_decide (last < d + (hoursPerDay - 1) * hour)%Z) then [day_prefix root d]
  else hours_loop (Z.to_nat ((last - d) / hour + 1)) root d last.

Example spans_of_a_morning :
  partitionPrefixes "r/" (1709168400 * second) (1709177400 * second) hour =
  ["r/date=2024-02-29/hour=00/"; "r/date=2024-02-29/hour=01/"; "r/date=2024-02-29/hour=02/";
   "r/date=2024-02-29/hour=03/"].
Proof. vm_compute. reflexivity. Qed.

Example spans_of_three_days :
  partitionPrefixes "r/" (1709161200 * second) (1709254800 * second) hour =
  ["r/date=2024-02-28/hour=22/"; "r/date=2024-02-28/hour=23/"; "r/date=2024-02-29/";
   "r/date=2024-03-01/hour=00/"; "r/date=2024-03-01/hour=01/"].
Proof. vm_compute. reflexivity. Qed.

(** ** The windows of a run of partitions *)

(** The window of each partition: up to the start of the next one, or to [stop]. *)
Fixpoint windows (spans : list partition) (stop : Z) : list (Z * Z) :=
  match spans with
  | [] => []
  | p :: rest => (pt_start p, match rest with q :: _ => pt_start q | [] => stop end) :: windows rest stop
  end.

Definition within (w : Z * Z) (t : Z) : Prop := (w.1 <= t < w.2)%Z.

(** A partition whose prefix is that of its whole window: one hour or one day. *)
Definition covers_window (root : string) (p : partition) (w : Z * Z) : Prop :=
  w.1 = pt_start p /\
  ((pt_prefix p = hour_prefix root (pt_start p) /\ w.2 = (pt_start p + hour)%Z /\ on_hour (pt_start p)) \/
   (pt_prefix p = day_prefix root (pt_start p) /\ w.2 = (pt_start p + day)%Z /\ dayStart (pt_start p) = pt_start p)).

(** The run [spans] tiles the hours from [cur] to [stop] in ascending order. *)
Fixpoint tiles (root : string) (cur stop : Z) (spans : list partition) : Prop :=
  match spans with
  | [] => (stop <= cur)%Z
  | p :: rest => exists w, pt_start p = cur /\ covers_window root p w /\ w.1 = cur /\ (w.2 <= stop)%Z /\ tiles root w.2 stop rest
  end.

Lemma spans_loop_tiles fuel root cur end_ : on_hour cur -> on_hour end_ ->
  (end_ + hour - cur <= Z.of_nat fuel * hour)%Z ->
  tiles root cur (end_ + hour) (spans_loop fuel root cur end_).
Proof.
  assert (Hd : (day = 24 * hour /\ 0 < hour)%Z) by (unfold day, hour, second; lia).
  revert cur. induction fuel as [|fuel IH]; intros cur Hc He Hf; cbn [spans_loop tiles]; [lia|].
  case_bool_decide as Hend; [cbn [tiles]; pose proof (on_hour_step end_ cur He Hc Hend); lia|].
  destruct (_ && _) eqn:E; cbn [tiles].
  - apply andb_true_iff in E as [E1%bool_decide_eq_true E2%negb_true_iff%bool_decide_eq_false].
    exists (cur, cur + day)%Z. rewrite <-E1. unfold hoursPerDay in *.
    split; [done|]. split; [split; [done|]; right; cbn; rewrite <-E1; done|]. split; [done|]. cbn.
    split; [lia|]. apply IH; [|done|lia]. rewrite (proj1 Hd). apply on_hour_add, Hc.
  - exists (cur, cur + hour)%Z. split; [done|]. split; [split; [done|]; by left|]. split; [done|]. cbn.
    split; [destruct (decide (cur = end_)) as [->|]; [lia|]; pose proof (on_hour_step cur end_ Hc He); lia|].
    apply IH; [|done|lia]. rewrite <-(Z.mul_1_l hour) at 1. apply on_hour_add, Hc.
Qed.

Lemma partitionSpans_tiles root from to span :
  tiles root (hourStart (from - span)) (hourStart to + hour) (partitionSpans root from to span).
Proof.
  unfold partitionSpans. apply spans_loop_tiles; [apply hourStart_on_hour..|].
  set (d := (hourStart to - hourStart (from - span))%Z).
  assert (Hm : (d `mod` hour = 0)%Z).
  { unfold d, hourStart. rewrite <-Z.mul_sub_distr_r. apply Z_mod_mult. }
  assert (Hh : (0 < hour)%Z) by (unfold hour, second; lia).
  pose proof (Z.div_mod d hour ltac:(lia)).
  destruct (Z.le_gt_cases 0 (d / hour + 1)).
  - rewrite Z2Nat.id by done. nia.
  - assert (Z.to_nat (d / hour + 1) = 0) as -> by lia. nia.
Qed.

(** ** The writer's keys under the reader's prefixes *)

Lemma rev_app_mem c s t : string_mem c (String.rev_app s t) = string_mem c s || string_mem c t.
Proof.
  revert t. induction s as [|a s IH]; intros t; cbn; [done|]. rewrite IH. cbn.
  rewrite !orb_assoc. f_equal. apply orb_comm.
Qed.

Lemma rev_app_rev_app s t u : String.rev_app (String.rev_app s t) u = String.rev_app t (s +:+ u).
Proof. revert t. induction s as [|a s IH]; intros t; cbn; [done|]. rewrite IH. cbn. done. Qed.

Lemma trim_left_none c s : string_mem c s = false -> trim_left c s = s.
Proof. destruct s as [|a s]; cbn; [done|]. intros [Ha _]%orb_false_iff. by rewrite Ha. Qed.

Lemma trim_none c s : string_mem c s = false -> trim c s = s.
Proof.
  intros Hs. unfold trim. rewrite (trim_left_none c s), trim_left_none by (done || by unfold String.rev; rewrite rev_app_mem, Hs).
  unfold String.rev. rewrite rev_app_rev_app. cbn. by rewrite string_app_nil_r.
Qed.

Section keys.
Context (prefix cluster : string).
(** The CRD's pattern for a prefix, and an identifier that is one key segment. *)
Hypothesis Hprefix : trim "/"%char prefix = prefix.
Hypothesis Hcluster : string_mem "/"%char cluster = false.

Lemma objectKey_root ts hash :
  objectKey prefix cluster ts hash =
  recordsRoot prefix cluster +:+ dateSegment +:+ format_date ts +:+ "/" +:+ hourSegment +:+ format_hour ts +:+ "/" +:+
  hash +:+ objectSuffix.
Proof.
  unfold objectKey, recordsRoot, joinSegments. cbn [List.filter].
  rewrite (bool_decide_eq_true_2 (formatPartition <> "")), (bool_decide_eq_true_2 (clusterSegment +:+ cluster <> "")) by done.
  assert (Hc : trim "/"%char (clusterSegment +:+ cluster) = clusterSegment +:+ cluster).
  { apply trim_none. by rewrite string_mem_app, Hcluster. }
  case_bool_decide; cbn [map app join]; rewrite ?Hprefix, Hc;
    change (trim "/"%char formatPartition) with formatPartition; by rewrite !string_app_assoc.
Qed.

Lemma has_prefix_app s p q : has_prefix (s +:+ p) (s +:+ q) = has_prefix p q.
Proof.
  apply eq_true_iff_eq. rewrite !has_prefix_spec. split; intros [r Hr]; exists r.
  - rewrite string_app_assoc in Hr. by apply string_app_inj_l in Hr.
  - by rewrite Hr, string_app_assoc.
Qed.

Lemma has_prefix_same_length s s' t t' : String.length s = String.length s' ->
  has_prefix (s +:+ t) (s' +:+ t') = bool_decide (s = s') && has_prefix t t'.
Proof.
  intros Hl. apply eq_true_iff_eq. rewrite andb_true_iff, bool_decide_eq_true, !has_prefix_spec. split.
  - intros [r Hr]. rewrite string_app_assoc in Hr. apply string_app_inj in Hr as [-> Hr]; [|done]. by split; [|exists r].
  - intros [-> [r ->]]. exists r. by rewrite string_app_assoc.
Qed.

(** A key is listed under a day's prefix exactly if it was filed on that day. *)
Lemma key_under_day ts hash t : representable ts -> representable t ->
  has_prefix (objectKey prefix cluster ts hash) (day_prefix (recordsRoot prefix cluster) t) = true <->
  dayStart ts = dayStart t.
Proof.
  intros Hts Ht. rewrite objectKey_root. unfold day_prefix. rewrite !has_prefix_app.
  rewrite has_prefix_same_length by (by rewrite !format_date_length).
  rewrite andb_true_iff, bool_decide_eq_true, format_date_inj by done.
  split; [tauto|]. intros ?. split; [done|]. apply has_prefix_spec. by eexists.
Qed.

Lemma key_under_hour ts hash t : representable ts -> representable t ->
  has_prefix (objectKey prefix cluster ts hash) (hour_prefix (recordsRoot prefix cluster) t) = true <->
  hourStart ts = hourStart t.
Proof.
  intros Hts Ht. rewrite objectKey_root. unfold hour_prefix. rewrite !has_prefix_app.
  rewrite has_prefix_same_length by (by rewrite !format_date_length). rewrite !has_prefix_app.
  rewrite has_prefix_same_length by (by rewrite !format_hour_length).
  rewrite !andb_true_iff, !bool_decide_eq_true, format_date_inj by done. split.
  - intros (Hd & Hh & _). by apply format_hour_inj.
  - intros Hh. assert (Hd : dayStart ts = dayStart t) by solve_time. split; [done|].
    split; [by apply format_hour_inj|]. apply has_prefix_spec. by eexists.
Qed.

(** The same for a partition of a tiling: its window decides. *)
Lemma key_under_partition p w ts hash : covers_window (recordsRoot prefix cluster) p w ->
  representable ts -> representable (pt_start p) ->
  has_prefix (objectKey prefix cluster ts hash) (pt_prefix p) = true <-> within w ts.
Proof.
  intros [Hw [(Hp & Hend & Ho)|(Hp & Hend & Ho)]] Hts Ht; rewrite Hp; unfold within; rewrite Hw, Hend.
  - rewrite key_under_hour by done. rewrite (on_hour_hourStart _ Ho). unfold on_hour in Ho. solve_time.
  - rewrite key_under_day by done. rewrite Ho. clear Hend Hw Hp. solve_time.
Qed.

Lemma window_positive root p w : covers_window root p w -> (w.1 < w.2)%Z.
Proof. unfold covers_window, day, hour, second. intros [-> [(_ & -> & _)|(_ & -> & _)]]; lia. Qed.

Lemma tiles_bounds root cur stop spans : tiles root cur stop spans -> spans <> [] -> (cur < stop)%Z.
Proof.
  destruct spans as [|p rest]; [done|]. intros (w & _ & Hw & Hc & Hs & _) _.
  apply window_positive in Hw. lia.
Qed.

(** A key is listed under exactly one partition of a tiling if it was filed inside it,
    and under none otherwise. *)
Lemma listed_once cur stop spans ts hash : tiles (recordsRoot prefix cluster) cur stop spans ->
  representable ts -> representable cur -> representable (stop - 1) ->
  length (List.filter (fun p => has_prefix (objectKey prefix cluster ts hash) (pt_prefix p)) spans) =
  if bool_decide (cur <= ts < stop)%Z then 1 else 0.
Proof.
  intros Ht Hts Hc Hs. revert cur Ht Hc. induction spans as [|p rest IH]; intros cur Ht Hc; cbn [List.filter].
  - cbn in *. rewrite bool_decide_eq_false_2 by lia. done.
  - destruct Ht as (w & Hcur & Hw & Hw1 & Hw2 & Ht). pose proof (window_positive _ _ _ Hw) as Hpos.
    assert (Hrest : length (List.filter (fun p => has_prefix (objectKey prefix cluster ts hash) (pt_prefix p)) rest) =
                    if bool_decide (w.2 <= ts < stop)%Z then 1 else 0).
    { destruct rest as [|q rest]; [cbn in *; rewrite bool_decide_eq_false_2 by lia; done|].
      apply IH; [done|]. pose proof (tiles_bounds _ _ _ _ Ht ltac:(done)). unfold representable in *. lia. }
    destruct (has_prefix _ _) eqn:E; cbn [length]; rewrite Hrest.
    + apply (key_under_partition _ _ _ _ Hw) in E; [|done|by rewrite Hcur]. unfold within in E.
      rewrite bool_decide_eq_false_2, bool_decide_eq_true_2 by lia. done.
    + assert (Hn : ~ within w ts).
      { intros Hin. apply (key_under_partition _ _ _ hash Hw) in Hin; [congruence|done|by rewrite Hcur]. }
      unfold within in Hn. repeat case_bool_decide; try done; lia.
Qed.

(** What is filed in a partition below another one was filed before that one's start. *)
Lemma filed_below cur stop spans k pk p ts hash : tiles (recordsRoot prefix cluster) cur stop spans ->
  representable ts -> representable cur -> representable (stop - 1) ->
  spans !! k = Some pk -> p ∈ take k spans ->
  has_prefix (objectKey prefix cluster ts hash) (pt_prefix p) = true -> (ts < pt_start pk)%Z.
Proof.
  intros Ht Hts Hc Hs. revert cur k Ht Hc. induction spans as [|q rest IH]; intros cur k Ht Hc Hk Hp; [done|].
  destruct k as [|k]; [by apply elem_of_nil in Hp|]. destruct Ht as (w & Hcur & Hw & Hw1 & Hw2 & Ht).
  pose proof (window_positive _ _ _ Hw) as Hpos. cbn in Hk, Hp.
  assert (Hne : rest <> []) by (by intros ->). pose proof (tiles_bounds _ _ _ _ Ht Hne).
  assert (Hrw : representable w.2) by (unfold representable in *; lia).
  assert (Hle : (w.2 <= pt_start pk)%Z).
  { clear -Ht Hk. revert k Hk. generalize dependent (w.2). induction rest as [|q rest IH]; intros c Ht k Hk; [done|].
    destruct Ht as (w' & Hcur & Hw & Hw1 & _ & Ht). apply window_positive in Hw.
    destruct k as [|k]; cbn in Hk; [injection Hk as ->; lia|]. specialize (IH _ Ht k Hk). lia. }
  apply elem_of_cons in Hp as [->|Hp]; intros E.
  - apply (key_under_partition _ _ _ _ Hw) in E; [|done|by rewrite Hcur]. unfold within in E. lia.
  - by apply (IH (w.2) k).
Qed.
End keys.
