(* ===== verification/Archive.v ===== *)
(** * Archive: reading an archive of objects

    Models the core of the object-store query engine, [src/internal/query/objectsource]:
    the lines of an object (line.go), the bounded, deterministic scan of a set of
    partitions (scan.go), timelines and the newest-first walk (timeline.go) and the
    engine's options and guards (engine.go). The other questions are in [ArchiveState]
    and [ArchiveQueries].

    Storage is behind [ObjectSource], [encoding/json] over a zstd reader behind
    [FrameReader]. A cancelled context is [interrupted], asked per group of
    partitions: which of the group's fetches still ran is arbitrary. *)

From S2P Require Import Prelude Calendar HashCache GoJson Diff QueryFilter SinkTypes S3Object ScopeLog Layout.

(** ** Lines *)

Record ObjectRef := mkRef {
  or_ClusterID : string;
  or_APIGroup : string;
  or_Kind : string;
  or_Namespace : string;
  or_Name : string;
}.

#[export] Instance ObjectRef_eq_dec : EqDecision ObjectRef.
Proof. solve_decision. Defined.

Record recordLine := mkLine {
  ln_Timestamp : Z;
  ln_ClusterID : string;
  ln_EventType : string;
  ln_APIGroup : string;
  ln_APIVersion : string;
  ln_Kind : string;
  ln_Namespace : string;
  ln_Name : string;
  ln_UID : string;
  ln_ResourceVersion : string;
  ln_Labels : gmap string string;
  ln_Actors : list string;
  ln_Data : string;
  ln_Diff : string;
  ln_SHA256 : string;
}.

Definition line_change (l : recordLine) : Change :=
  mkChange (ln_Timestamp l) (ln_EventType l) (ln_Actors l) (ln_UID l) (ln_ResourceVersion l) (ln_APIVersion l)
    (ln_Data l) (ln_Diff l) (ln_SHA256 l) (ln_Labels l).

Definition namesObject (l : recordLine) (ref : ObjectRef) : bool :=
  bool_decide (ln_ClusterID l = or_ClusterID ref) && bool_decide (ln_APIGroup l = or_APIGroup ref) &&
  bool_decide (ln_Kind l = or_Kind ref) && bool_decide (ln_Namespace l = or_Namespace ref) &&
  bool_decide (ln_Name l = or_Name ref).

Definition eventKind : string := "Event".
Definition eventGroups : string * string := ("", "events.k8s.io").

Definition isEvent (l : recordLine) : bool :=
  if bool_decide (ln_Kind l <> eventKind) then false
  else bool_decide (ln_APIGroup l = eventGroups.1) || bool_decide (ln_APIGroup l = eventGroups.2).

Record eventSubject := mkSubject {
  es_Kind : string;
  es_Namespace : string;
  es_Name : string;
  es_UID : string;
}.

Record scopeLine := mkScopeLine {
  sl_TS : Z;
  sl_ClusterID : string;
  sl_APIGroup : string;
  sl_APIVersion : string;
  sl_Kind : string;
  sl_Namespace : string;
  sl_Action : string;
  sl_RuleRef : string;
}.

Definition line_scopeChange (l : scopeLine) : ScopeChange :=
  mkScopeChange (sl_APIGroup l) (sl_Kind l) (sl_Namespace l) (sl_Action l) (sl_RuleRef l) (sl_TS l).

(** The decoders under this package: the lines of a frame up to the end or to the
    first failure, and the subjects an Event's data names. *)
Class FrameReader := {
  record_stream : string -> list recordLine * option string;
  scope_stream : string -> list scopeLine * option string;
  (** [json.Unmarshal] into an [eventEnvelope]: involvedObject and regarding *)
  event_envelope : string -> option (eventSubject * eventSubject);
}.

Definition coalesce_field (first second : string) : string := if bool_decide (first <> "") then first else second.

Definition subject `{FrameReader} (l : recordLine) : eventSubject :=
  match event_envelope (ln_Data l) with
  | None => mkSubject "" "" "" ""
  | Some (involved, regarding) =>
      mkSubject (coalesce_field (es_Kind involved) (es_Kind regarding))
        (coalesce_field (es_Namespace involved) (es_Namespace regarding))
        (coalesce_field (es_Name involved) (es_Name regarding))
        (coalesce_field (es_UID involved) (es_UID regarding))
  end.

Definition namesTarget (s : eventSubject) (ref : ObjectRef) : bool :=
  bool_decide (es_Kind s = or_Kind ref) && bool_decide (es_Namespace s = or_Namespace ref) &&
  bool_decide (es_Name s = or_Name ref).

(** ** The source and its failures *)

Record listing := mkListing {
  (** keys and sizes, in byte order of the keys *)
  ls_objects : list (string * Z);
  ls_err : option string;
  ls_close : option string;
}.

Inductive openError := ErrKeyNotFound | OpenFailed (reason : string).

Record body := mkBody { bd_bytes : string; bd_close : option string }.

Inductive interruption := InListing (cause : string) | InFetching (cause : string) (ran : nat -> bool).

Class ObjectSource := {
  src_List : string -> listing;
  src_Open : string -> result openError body;
  interrupted : list string -> option interruption;
}.

Inductive scanError :=
| errListing (prefix reason : string)
| errReleaseListing (reason : string)
| errAbandoned (cause : string)
| errGone (key : string)
| errFetching (key reason : string)
| errReading (key : string) (reason : frameError)
| errReleasing (key reason : string)
| errJoin (first second : scanError)
with frameError :=
| errShortObject (bytes : nat)
| errNoMagic
| errDecodeLine (reason : string).

Definition join_errors (first second : option scanError) : option scanError :=
  match first, second with
  | Some a, Some b => Some (errJoin a b)
  | None, e | e, None => e
  end.

(** [streamFrame] and the loop over its lines. *)
Definition streamFrame {L} (stream : string -> list L * option string) (bytes : string) : list L * option frameError :=
  if bool_decide (String.length bytes < String.length zstdMagic) then ([], Some (errShortObject (String.length bytes)))
  else if negb (has_prefix bytes zstdMagic) then ([], Some errNoMagic)
  else let '(lines, failure) := stream bytes in (lines, errDecodeLine <$> failure).

Definition decodeFrame `{FrameReader} {A} (visit : A -> recordLine -> A) (acc : A) (bytes : string)
    : A * option frameError :=
  let '(lines, failure) := streamFrame record_stream bytes in (foldl visit acc lines, failure).

Definition decodeScopeFrame `{FrameReader} {A} (visit : A -> scopeLine -> A) (acc : A) (bytes : string)
    : A * option frameError :=
  let '(lines, failure) := streamFrame scope_stream bytes in (foldl visit acc lines, failure).

(** ** The scan *)

Definition listOnePrefix `{ObjectSource} (prefix : string) : result scanError (list string) :=
  let l := src_List prefix in
  match ls_err l, ls_close l with
  | Some reason, _ => Err (errListing prefix reason)
  | None, Some reason => Err (errReleaseListing reason)
  | None, None => Ok (List.filter isObjectKey (map fst (ls_objects l)))
  end.

Fixpoint first_failure {A B} (results : list (A * option B)) : option B :=
  match results with
  | [] => None
  | (_, Some failure) :: _ => Some failure
  | (_, None) :: rest => first_failure rest
  end.

Fixpoint collect {E A} (results : list (result E A)) : result E (list A) :=
  match results with
  | [] => Ok []
  | Err e :: _ => Err e
  | Ok a :: rest => match collect rest with Err e => Err e | Ok l => Ok (a :: l) end
  end.

Definition listObjectKeys `{ObjectSource} (prefixes : list string) : result scanError (list (list string)) :=
  match interrupted prefixes with
  | Some (InListing cause) => Err (errAbandoned cause)
  | _ => collect (map listOnePrefix prefixes)
  end.

(** [slices.Chunk]: runs of [n], the last one shorter. *)
Fixpoint chunk_loop {A} (fuel n : nat) (l : list A) : list (list A) :=
  match fuel, l with
  | O, _ | _, [] => []
  | S fuel, _ => take n l :: chunk_loop fuel n (drop n l)
  end.

Definition chunk {A} (n : nat) (l : list A) : list (list A) := chunk_loop (length l) n l.

Section scan.
Context `{ObjectSource}.
Context {A T : Type} (zero : A) (decode : A -> string -> A * option frameError) (fold : T -> A -> T).

Definition readObject (key : string) : A * option scanError :=
  match src_Open key with
  | Err ErrKeyNotFound => (zero, Some (errGone key))
  | Err (OpenFailed reason) => (zero, Some (errFetching key reason))
  | Ok b =>
      let '(acc, failure) := decode zero (bd_bytes b) in
      (acc, join_errors (errReading key <$> failure) (errReleasing key <$> bd_close b))
  end.

(** The slots of a group, in listing order; a fetch that did not run leaves its slot
    as it was. *)
Definition fetchObjects (prefixes : list string) (parts : list (list string))
    : list (A * option scanError) * option string :=
  match interrupted prefixes with
  | Some (InFetching cause ran) =>
      (imap (fun i key => if ran i then readObject key else (zero, None)) (concat parts), Some cause)
  | _ => (map readObject (concat parts), None)
  end.

Definition scanOneGroup (prefixes : list string) (t : T) : T * option scanError * bool :=
  match listObjectKeys prefixes with
  | Err e => (t, Some e, true)
  | Ok parts =>
      let '(results, cancelled) := fetchObjects prefixes parts in
      let t := foldl fold t (map fst results) in
      match cancelled with
      | Some cause => (t, Some (errAbandoned cause), true)
      | None => (t, first_failure results, false)
      end
  end.

Fixpoint scan_groups (groups : list (list string)) (t : T) (failure : option scanError) : T * option scanError :=
  match groups with
  | [] => (t, failure)
  | group :: rest =>
      let '(t, err, abort) := scanOneGroup group t in
      if abort then (t, join_errors failure err)
      else scan_groups rest t (match failure with Some _ => failure | None => err end)
  end.

Definition scanPartitions (concurrency : nat) (prefixes : list string) (t : T) : T * option scanError :=
  scan_groups (chunk concurrency prefixes) t None.
End scan.

(** ** The engine *)

Record Engine := mkEngine {
  en_prefix : string;
  en_concurrency : nat;
  en_objectSpan : Z;
  en_stateLookback : Z;
  en_closed : bool;
}.

Record Options := mkOptions {
  op_Prefix : string;
  op_Concurrency : Z;
  op_ObjectSpan : Z;
  op_StateLookback : Z;
}.

Definition DefaultObjectSpan : Z := hour.
Definition NoObjectSpan : Z := -1.
Definition DefaultConcurrency : nat := 8.
Definition DefaultStateLookback : Z := 30 * 24 * hour.

Inductive queryError :=
| errNegativeSpan (span : Z)
| errEngineClosed
| ErrTimeBoundRequired
| errZeroInstant
| errScan (failure : scanError).

Definition resolveObjectSpan (span : Z) : result queryError Z :=
  if bool_decide (span = 0)%Z then Ok DefaultObjectSpan
  else if bool_decide (span = NoObjectSpan) then Ok 0%Z
  else if bool_decide (span < 0)%Z then Err (errNegativeSpan span)
  else Ok span.

(** [NewEngine], for a source that is there. *)
Definition NewEngine (opts : Options) : result queryError Engine :=
  match resolveObjectSpan (op_ObjectSpan opts) with
  | Err e => Err e
  | Ok span =>
      Ok (mkEngine (op_Prefix opts)
            (if bool_decide (op_Concurrency opts <= 0)%Z then DefaultConcurrency else Z.to_nat (op_Concurrency opts))
            span
            (if bool_decide (op_StateLookback opts <= 0)%Z then DefaultStateLookback else op_StateLookback opts)
            false)
  end.

Definition engine_Close (e : Engine) : Engine :=
  mkEngine (en_prefix e) (en_concurrency e) (en_objectSpan e) (en_stateLookback e) true.

(** [None] is the zero time. *)
Definition requireWindow (from to : option Z) : result queryError (Z * Z) :=
  match from, to with
  | Some from, Some to => if bool_decide (to < from)%Z then Err ErrTimeBoundRequired else Ok (from, to)
  | _, _ => Err ErrTimeBoundRequired
  end.

Definition recordPartitions (e : Engine) (clusterID : string) (from to : Z) : list partition :=
  partitionSpans (recordsRoot (en_prefix e) clusterID) from to (en_objectSpan e).

Definition recordPrefixes (e : Engine) (clusterID : string) (from to : Z) : list string :=
  partitionPrefixes (recordsRoot (en_prefix e) clusterID) from to (en_objectSpan e).

(** ** Timelines *)

Record TimelineQuery := mkTimelineQuery {
  tq_Ref : ObjectRef;
  tq_From : option Z;
  tq_To : option Z;
  tq_UID : string;
  tq_AllIncarnations : bool;
  tq_Actors : list string;
  tq_ExcludeActors : list string;
  tq_FieldPaths : list string;
  tq_Limit : Z;
  tq_Reverse : bool;
  tq_IncludeEvents : bool;
  tq_EventsOnly : bool;
  tq_Subjects : list ObjectRef;
}.

Definition EventKubernetes : string := "Event".

Record incarnationMark := mkMark {
  im_uid : string;
  im_ts : Z;
  im_deleted : bool;
}.

Record correlatedEvent := mkCorrelated {
  ce_change : Change;
  ce_subjectUID : string;
  ce_root : bool;
}.

Record timelineAccumulator := mkAcc {
  ta_changes : list Change;
  ta_marks : list incarnationMark;
  ta_events : list correlatedEvent;
}.

Definition acc_zero : timelineAccumulator := mkAcc [] [] [].

Definition acc_merge (a other : timelineAccumulator) : timelineAccumulator :=
  mkAcc (ta_changes a ++ ta_changes other) (ta_marks a ++ ta_marks other) (ta_events a ++ ta_events other).

Record recordScan := mkRecordScan {
  rs_ref : ObjectRef;
  rs_from : option Z;
  rs_to : option Z;
  (** [None] is the nil predicate *)
  rs_keep : option (Change -> bool);
  rs_retain : bool;
  rs_events : bool;
  rs_subjects : list ObjectRef;
}.

Definition in_window (from to : option Z) (ts : Z) : bool :=
  negb (match from with Some f => bool_decide (ts < f)%Z | None => false end) &&
  match to with Some t => negb (bool_decide (t < ts)%Z) | None => true end.

Definition namesSubject (s : recordScan) (sub : eventSubject) : bool := existsb (namesTarget sub) (rs_subjects s).

Definition with_type (c : Change) (eventType : string) : Change :=
  mkChange (ch_TS c) eventType (ch_Actors c) (ch_UID c) (ch_ResourceVersion c) (ch_APIVersion c) (ch_Data c)
    (ch_Diff c) (ch_SHA256 c) (ch_Labels c).

(** What [recordScan.decode] does with one line. *)
Definition scan_line `{FrameReader} (s : recordScan) (acc : timelineAccumulator) (line : recordLine)
    : timelineAccumulator :=
  if negb (in_window (rs_from s) (rs_to s) (ln_Timestamp line)) then acc
  else if namesObject line (rs_ref s) then
    let acc := mkAcc (ta_changes acc)
                 (ta_marks acc ++ [mkMark (ln_UID line) (ln_Timestamp line) (bool_decide (ln_EventType line = "Deleted"))])
                 (ta_events acc) in
    if negb (rs_retain s) then acc
    else
      let change := line_change line in
      if match rs_keep s with Some keep => negb (keep change) | None => false end then acc
      else mkAcc (ta_changes acc ++ [change]) (ta_marks acc) (ta_events acc)
  else if rs_events s && bool_decide (ln_ClusterID line = or_ClusterID (rs_ref s)) && isEvent line then
    let sub := subject line in
    let root := namesTarget sub (rs_ref s) in
    if negb root && negb (namesSubject s sub) then acc
    else mkAcc (ta_changes acc) (ta_marks acc)
           (ta_events acc ++ [mkCorrelated (with_type (line_change line) EventKubernetes) (es_UID sub) root])
  else acc.

Definition scan_decode `{FrameReader} (s : recordScan) (acc : timelineAccumulator) (bytes : string)
    : timelineAccumulator * option frameError :=
  decodeFrame (scan_line s) acc bytes.

Definition timelineScan `{PatchPaths} (q : TimelineQuery) : recordScan :=
  mkRecordScan (tq_Ref q) (tq_From q) (tq_To q)
    (Some (fun c => MatchesActors c (tq_Actors q) (tq_ExcludeActors q) && MatchesFieldPaths c (tq_FieldPaths q)))
    (negb (tq_EventsOnly q)) (tq_IncludeEvents q) (tq_Subjects q).

Definition reverseLimited (q : TimelineQuery) : bool := tq_Reverse q && bool_decide (0 < tq_Limit q)%Z.

Definition change_le (a b : Change) : Prop := (ch_TS a <= ch_TS b)%Z.
Definition mark_le (a b : incarnationMark) : Prop := (im_ts a <= im_ts b)%Z.

#[export] Instance change_le_dec : RelDecision change_le.
Proof. intros a b. apply Z_le_dec. Defined.

#[export] Instance mark_le_dec : RelDecision mark_le.
Proof. intros a b. apply Z_le_dec. Defined.

Definition resolveIncarnation (q : TimelineQuery) (marks : list incarnationMark) : string * bool :=
  if bool_decide (tq_UID q <> "") then (tq_UID q, true)
  else if tq_AllIncarnations q then ("", true)
  else match last marks with None => ("", false) | Some mark => (im_uid mark, true) end.

(** The commentary before [ts], and the rest. *)
Fixpoint commentary_before (ts : Z) (commentary : list Change) : list Change * list Change :=
  match commentary with
  | [] => ([], [])
  | c :: rest =>
      if bool_decide (ch_TS c < ts)%Z
      then let '(before, after) := commentary_before ts rest in (c :: before, after)
      else ([], commentary)
  end.

Fixpoint merge_loop (changes commentary : list Change) : list Change :=
  match changes with
  | [] => commentary
  | change :: rest =>
      let '(before, after) := commentary_before (ch_TS change) commentary in
      before ++ change :: merge_loop rest after
  end.

Definition pinned (uid : string) (event : correlatedEvent) : bool :=
  negb (bool_decide (uid <> "") && ce_root event && bool_decide (ce_subjectUID event <> uid)).

Definition mergeCommentary (changes : list Change) (events : list correlatedEvent) (uid : string) : list Change :=
  let commentary := map ce_change (List.filter (pinned uid) events) in
  if bool_decide (length commentary = 0) then changes
  else merge_loop changes (stable_sort change_le commentary).

(** The assembly every timeline shares, from the sort down. *)
Definition assemble (q : TimelineQuery) (collected : timelineAccumulator) : list Change :=
  let changes := stable_sort change_le (ta_changes collected) in
  let marks := stable_sort mark_le (ta_marks collected) in
  let '(uid, recorded) := if tq_EventsOnly q then (tq_UID q, false) else resolveIncarnation q marks in
  if negb recorded && negb (tq_IncludeEvents q) then []
  else
    let changes := if bool_decide (uid <> "") then List.filter (fun c => bool_decide (ch_UID c = uid)) changes else changes in
    let changes := if tq_IncludeEvents q then mergeCommentary changes (ta_events collected) uid else changes in
    let changes := if tq_Reverse q then reverse changes else changes in
    if bool_decide (0 < tq_Limit q)%Z then take (Z.to_nat (tq_Limit q)) changes else changes.

(** ** The newest-first walk *)

Record timelineWalkStep := mkWalkStep {
  ws_acc : timelineAccumulator;
  ws_failure : option scanError;
}.

(** [newestMark]: the steps come newest first and are visited from the last one. *)
Definition newestMark (steps : list timelineWalkStep) : option incarnationMark :=
  foldl (fun newest mark =>
           match newest with
           | Some m => if bool_decide (im_ts mark < im_ts m)%Z then newest else Some mark
           | None => Some mark
           end)
    None (concat (map (fun step => ta_marks (ws_acc step)) (reverse steps))).

Definition settled_uid (q : TimelineQuery) (steps : list timelineWalkStep) (ceiling : Z) : option string :=
  if tq_EventsOnly q then Some (tq_UID q)
  else if bool_decide (tq_UID q <> "") then Some (tq_UID q)
  else if tq_AllIncarnations q then Some ""
  else match newestMark steps with
       | None => None
       | Some newest => if bool_decide (im_ts newest < ceiling)%Z then None else Some (im_uid newest)
       end.

(** The rows of a step the answer is sure to hold. *)
Definition settled_rows (q : TimelineQuery) (uid : string) (ceiling : Z) (step : timelineWalkStep) : nat :=
  length (List.filter (fun c => (bool_decide (uid = "") || bool_decide (ch_UID c = uid)) &&
                               negb (bool_decide (ch_TS c < ceiling)%Z)) (ta_changes (ws_acc step))) +
  (if negb (tq_IncludeEvents q) then 0
   else length (List.filter (fun e => (bool_decide (uid = "") || negb (ce_root e) || bool_decide (ce_subjectUID e = uid)) &&
                                     negb (bool_decide (ch_TS (ce_change e) < ceiling)%Z)) (ta_events (ws_acc step)))).

Definition answerIsSettled (e : Engine) (q : TimelineQuery) (steps : list timelineWalkStep) (lo : Z) : bool :=
  let ceiling := (lo + en_objectSpan e)%Z in
  match settled_uid q steps ceiling with
  | None => false
  | Some uid => bool_decide (tq_Limit q <= Z.of_nat (sum_list_with (settled_rows q uid ceiling) steps))%Z
  end.

Section timeline.
Context `{ObjectSource, FrameReader, PatchPaths}.

(** The loop of [scanNewestFirst]; [end_] is the number of partitions not read yet,
    and every round reads at least one, so [fuel] beyond it changes nothing. *)
Fixpoint walk (fuel : nat) (e : Engine) (q : TimelineQuery) (scan : recordScan) (spans : list partition)
    (end_ width : nat) (steps : list timelineWalkStep) : list timelineWalkStep :=
  match fuel with
  | O => steps
  | S fuel =>
      if bool_decide (end_ = 0) then steps
      else
        let start := end_ - width in
        let '(acc, failure, abort) :=
          scanOneGroup acc_zero (scan_decode scan) acc_merge
            (prefixesOf (drop start (take end_ spans))) acc_zero in
        let steps := steps ++ [mkWalkStep acc failure] in
        let lo := match spans !! start with Some p => pt_start p | None => 0%Z end in
        if abort || answerIsSettled e q steps lo then steps
        else walk fuel e q scan spans start (Nat.min (width * 2) (en_concurrency e)) steps
  end.

Fixpoint fold_steps (steps : list timelineWalkStep) (into : timelineAccumulator) (failure : option scanError)
    : timelineAccumulator * option scanError :=
  match steps with
  | [] => (into, failure)
  | step :: rest =>
      fold_steps rest (acc_merge into (ws_acc step)) (match failure with Some _ => failure | None => ws_failure step end)
  end.

Definition scanNewestFirst (e : Engine) (q : TimelineQuery) (scan : recordScan) (from to : Z)
    : timelineAccumulator * option scanError :=
  let spans := recordPartitions e (or_ClusterID (tq_Ref q)) from to in
  fold_steps (reverse (walk (length spans) e q scan spans (length spans) 1 [])) acc_zero None.

Definition scanForward (e : Engine) (q : TimelineQuery) (scan : recordScan) (from to : Z)
    : timelineAccumulator * option scanError :=
  scanPartitions acc_zero (scan_decode scan) acc_merge (en_concurrency e)
    (recordPrefixes e (or_ClusterID (tq_Ref q)) from to) acc_zero.

Definition scanTimeline (e : Engine) (q : TimelineQuery) (from to : Z) : list Change * option scanError :=
  let scan := timelineScan q in
  let '(collected, failure) :=
    if reverseLimited q then scanNewestFirst e q scan from to else scanForward e q scan from to in
  (assemble q collected, failure).

(** [Timeline] and the draining of its iterator: the rows, and what [Err] reports
    after the last one. *)
Definition Timeline (e : Engine) (q : TimelineQuery) : result queryError (list Change * option scanError) :=
  if en_closed e then Err errEngineClosed
  else match requireWindow (tq_From q) (tq_To q) with
       | Err err => Err err
       | Ok (from, to) => Ok (scanTimeline e q from to)
       end.
End timeline.
