(* ===== verification/ArchiveSpec.v ===== *)
(** * ArchiveSpec: what a timeline over an archive answers

    The newest-first walk of a reverse-limited timeline against the full scan; the
    completeness of the partition range for the objects the writer builds; and where
    that completeness ends. *)

From S2P Require Import Prelude Calendar HashCache GoJson Diff QueryFilter SinkTypes S3Object ScopeLog Layout Archive.

#[export] Instance change_le_trans : Transitive change_le.
Proof. intros a b c. unfold change_le. lia. Qed.
#[export] Instance change_le_refl : Reflexive change_le.
Proof. intros a. unfold change_le. lia. Qed.
#[export] Instance change_le_total : Total change_le.
Proof. intros a b. unfold change_le. lia. Qed.
#[export] Instance mark_le_trans : Transitive mark_le.
Proof. intros a b c. unfold mark_le. lia. Qed.
#[export] Instance mark_le_refl : Reflexive mark_le.
Proof. intros a. unfold mark_le. lia. Qed.
#[export] Instance mark_le_total : Total mark_le.
Proof. intros a b. unfold mark_le. lia. Qed.

(** ** Merging commentary *)

Lemma commentary_before_app t low high :
  Forall (fun c => (t <= ch_TS c)%Z) high ->
  commentary_before t (low ++ high) =
  ((commentary_before t low).1, (commentary_before t low).2 ++ high).
Proof.
  intros Hh. induction low as [|c low IH]; cbn [commentary_before app].
  - destruct Hh as [|c high Hc Hh]; [done|]. cbn. by rewrite bool_decide_eq_false_2 by lia.
  - case_bool_decide; [|done]. rewrite IH. by destruct (commentary_before t low).
Qed.

Lemma commentary_before_all t low high :
  Forall (fun c => (ch_TS c < t)%Z) low ->
  commentary_before t (low ++ high) =
  (low ++ (commentary_before t high).1, (commentary_before t high).2).
Proof.
  induction 1 as [|c low Hc _ IH]; cbn [commentary_before app]; [by destruct (commentary_before t high)|].
  rewrite bool_decide_eq_true_2, IH by done. done.
Qed.

Lemma commentary_before_split t l : l = (commentary_before t l).1 ++ (commentary_before t l).2.
Proof.
  induction l as [|c l IH]; cbn [commentary_before]; [done|]. case_bool_decide; [|done].
  destruct (commentary_before t l). cbn in *. by f_equal.
Qed.

Lemma merge_loop_nil changes : merge_loop changes [] = changes.
Proof. induction changes as [|c cs IH]; cbn; [done|]. by rewrite IH. Qed.

Lemma merge_loop_Permutation changes commentary : merge_loop changes commentary ≡ₚ changes ++ commentary.
Proof.
  revert commentary. induction changes as [|c cs IH]; intros commentary; cbn; [done|].
  pose proof (commentary_before_split (ch_TS c) commentary) as Hs.
  destruct (commentary_before _ _) as [b a]. cbn in Hs. rewrite IH, Hs. solve_Permutation.
Qed.

(** Two levels merge separately. *)
Lemma merge_loop_app cl ch el eh ceiling :
  Forall (fun c => (ch_TS c < ceiling)%Z) cl -> Forall (fun c => (ceiling <= ch_TS c)%Z) ch ->
  Forall (fun c => (ch_TS c < ceiling)%Z) el -> Forall (fun c => (ceiling <= ch_TS c)%Z) eh ->
  merge_loop (cl ++ ch) (el ++ eh) = merge_loop cl el ++ merge_loop ch eh.
Proof.
  intros Hcl Hch Hel Heh. revert el Hel. induction Hcl as [|c cl Hc _ IH]; intros el Hel; cbn [app merge_loop].
  - destruct Hch as [|c ch Hc Hch]; cbn [merge_loop]; [done|].
    rewrite commentary_before_all by (eapply Forall_impl; [exact Hel|]; cbn; lia).
    destruct (commentary_before _ eh) as [b a]. cbn. by rewrite <-app_assoc.
  - rewrite commentary_before_app by (eapply Forall_impl; [exact Heh|]; cbn; lia).
    pose proof (commentary_before_split (ch_TS c) el) as Hs. destruct (commentary_before _ el) as [b a]. cbn in *.
    rewrite Hs in Hel. apply Forall_app in Hel as [_ Ha]. rewrite IH by done. by rewrite <-app_assoc.
Qed.

Lemma mergeCommentary_loop changes events uid :
  mergeCommentary changes events uid =
  merge_loop changes (stable_sort change_le (map ce_change (List.filter (pinned uid) events))).
Proof.
  unfold mergeCommentary. case_bool_decide as Hz; [|done].
  apply length_zero_iff_nil in Hz. rewrite Hz. by rewrite merge_loop_nil.
Qed.

(** ** Accumulators *)

Lemma acc_merge_assoc a b c : acc_merge a (acc_merge b c) = acc_merge (acc_merge a b) c.
Proof. unfold acc_merge. cbn. by rewrite !app_assoc. Qed.

Lemma acc_merge_zero_l a : acc_merge acc_zero a = a.
Proof. by destruct a. Qed.

Lemma acc_merge_zero_r a : acc_merge a acc_zero = a.
Proof. destruct a. unfold acc_merge. cbn. by rewrite !app_nil_r. Qed.

Definition merge_all (accs : list timelineAccumulator) : timelineAccumulator := foldr acc_merge acc_zero accs.

Lemma merge_all_app l l' : merge_all (l ++ l') = acc_merge (merge_all l) (merge_all l').
Proof.
  unfold merge_all. induction l as [|a l IH]; cbn [app foldr]; [by rewrite acc_merge_zero_l|].
  by rewrite IH, acc_merge_assoc.
Qed.

Lemma foldl_merge t l : foldl acc_merge t l = acc_merge t (merge_all l).
Proof.
  revert t. induction l as [|a l IH]; intros t; cbn; [by rewrite acc_merge_zero_r|]. by rewrite IH, acc_merge_assoc.
Qed.

(** Every row of the accumulator is dated before [ceiling]. *)
Definition acc_below (ceiling : Z) (a : timelineAccumulator) : Prop :=
  Forall (fun c => (ch_TS c < ceiling)%Z) (ta_changes a) /\ Forall (fun m => (im_ts m < ceiling)%Z) (ta_marks a) /\
  Forall (fun e => (ch_TS (ce_change e) < ceiling)%Z) (ta_events a).

Lemma acc_below_merge ceiling a b : acc_below ceiling (acc_merge a b) <-> acc_below ceiling a /\ acc_below ceiling b.
Proof. unfold acc_below, acc_merge. cbn. rewrite !Forall_app. tauto. Qed.

(** ** A settled answer does not depend on older rows *)

(** The rows of a sorted collection at or above an instant. *)
Lemma sorted_levels ceiling (l : list Change) :
  stable_sort change_le l =
  stable_sort change_le (List.filter (fun c => bool_decide (ch_TS c < ceiling)%Z) l) ++
  stable_sort change_le (List.filter (fun c => negb (bool_decide (ch_TS c < ceiling)%Z)) l).
Proof.
  rewrite <-!(stable_sort_filter change_le).
  rewrite (sorted_cut change_le (fun c => negb (bool_decide (ch_TS c < ceiling)%Z)) (stable_sort change_le l)) at 1.
  - f_equal. apply List.filter_ext. intros c. by rewrite negb_involutive.
  - unfold change_le. intros x y Hxy. rewrite !negb_true_iff, !bool_decide_eq_false. lia.
  - apply stable_sort_sorted; apply _.
Qed.

Definition above (ceiling : Z) (l : list Change) : list Change :=
  List.filter (fun c => negb (bool_decide (ch_TS c < ceiling)%Z)) l.

Definition under (ceiling : Z) (l : list Change) : list Change :=
  List.filter (fun c => bool_decide (ch_TS c < ceiling)%Z) l.

Lemma above_below ceiling l : Forall (fun c => (ch_TS c < ceiling)%Z) l -> above ceiling l = [].
Proof.
  intros Hl. apply keep_none. eapply Forall_impl; [exact Hl|]. cbn. intros c Hc. by rewrite bool_decide_eq_true_2.
Qed.

Lemma above_app ceiling l l' : above ceiling (l ++ l') = above ceiling l ++ above ceiling l'.
Proof. apply keep_app. Qed.

Lemma keep_Forall {A} (P : A -> Prop) f l : Forall P l -> Forall P (List.filter f l).
Proof. induction 1; cbn; [done|]. destruct (f x); [by constructor|done]. Qed.

Lemma Forall_above ceiling l : Forall (fun c => (ceiling <= ch_TS c)%Z) (stable_sort change_le (above ceiling l)).
Proof.
  rewrite stable_sort_Permutation. apply Forall_forall. intros c [_ Hc]%list_elem_of_In%filter_In.
  apply negb_true_iff, bool_decide_eq_false in Hc. lia.
Qed.

Lemma Forall_under ceiling l : Forall (fun c => (ch_TS c < ceiling)%Z) (stable_sort change_le (under ceiling l)).
Proof.
  rewrite stable_sort_Permutation. apply Forall_forall. intros c [_ Hc]%list_elem_of_In%filter_In.
  by apply bool_decide_eq_true in Hc.
Qed.

(** The answer rows before they are reversed and cut: one incarnation's changes with
    the commentary on it. *)
Definition of_incarnation (uid : string) (c : Change) : bool := bool_decide (uid = "") || bool_decide (ch_UID c = uid).

Definition rows_for (q : TimelineQuery) (uid : string) (a : timelineAccumulator) : list Change :=
  merge_loop (stable_sort change_le (List.filter (of_incarnation uid) (ta_changes a)))
    (if tq_IncludeEvents q
     then stable_sort change_le (map ce_change (List.filter (pinned uid) (ta_events a))) else []).

Lemma rows_levels q uid a ceiling : exists low,
  rows_for q uid a = low ++
    merge_loop (stable_sort change_le (above ceiling (List.filter (of_incarnation uid) (ta_changes a))))
      (if tq_IncludeEvents q
       then stable_sort change_le (above ceiling (map ce_change (List.filter (pinned uid) (ta_events a)))) else []).
Proof.
  unfold rows_for. rewrite (sorted_levels ceiling). destruct (tq_IncludeEvents q).
  - rewrite (sorted_levels ceiling (map _ _)). eexists.
    apply (merge_loop_app _ _ _ _ ceiling); [apply Forall_under|apply Forall_above|apply Forall_under|apply Forall_above].
  - rewrite !merge_loop_nil. by eexists.
Qed.

(** The incarnation an answer is about; [None] for no answer. *)
Definition resolution (q : TimelineQuery) (a : timelineAccumulator) : option string :=
  let '(uid, recorded) :=
    if tq_EventsOnly q then (tq_UID q, false) else resolveIncarnation q (stable_sort mark_le (ta_marks a)) in
  if negb recorded && negb (tq_IncludeEvents q) then None else Some uid.

Lemma incarnation_filter uid l :
  (if bool_decide (uid <> "") then List.filter (fun c => bool_decide (ch_UID c = uid)) (stable_sort change_le l)
   else stable_sort change_le l) = stable_sort change_le (List.filter (of_incarnation uid) l).
Proof.
  unfold of_incarnation. case_bool_decide as Hu.
  - rewrite (stable_sort_filter change_le). f_equal. apply List.filter_ext. intros c.
    by rewrite (bool_decide_eq_false_2 (uid = "")).
  - subst uid. f_equal. symmetry. apply keep_all. apply Forall_true. done.
Qed.

Lemma assemble_rows q a : assemble q a =
  match resolution q a with
  | None => []
  | Some uid =>
      let rows := if tq_Reverse q then reverse (rows_for q uid a) else rows_for q uid a in
      if bool_decide (0 < tq_Limit q)%Z then take (Z.to_nat (tq_Limit q)) rows else rows
  end.
Proof.
  unfold assemble, resolution. destruct (if tq_EventsOnly q then _ else _) as [uid recorded].
  destruct (negb recorded && negb (tq_IncludeEvents q)); [done|].
  rewrite incarnation_filter. unfold rows_for.
  destruct (tq_IncludeEvents q); [by rewrite mergeCommentary_loop|by rewrite merge_loop_nil].
Qed.

(** ** The steps of a walk, put together *)

Definition step_accs (steps : list timelineWalkStep) : timelineAccumulator := merge_all (reverse (map ws_acc steps)).

Lemma step_accs_snoc steps step : step_accs (steps ++ [step]) = acc_merge (ws_acc step) (step_accs steps).
Proof. unfold step_accs. rewrite map_app, reverse_app. cbn. done. Qed.

Lemma merge_all_marks l : ta_marks (merge_all l) = concat (map ta_marks l).
Proof. unfold merge_all. induction l as [|a l IH]; cbn; [done|]. by rewrite <-IH. Qed.

Definition newer_mark (a b : incarnationMark) : incarnationMark := if bool_decide (im_ts b < im_ts a)%Z then a else b.

Lemma newer_mark_assoc a b c : newer_mark (newer_mark a b) c = newer_mark a (newer_mark b c).
Proof. unfold newer_mark. repeat (case_bool_decide; cbn in *); try done; lia. Qed.

Lemma newestMark_last steps : newestMark steps = last (stable_sort mark_le (ta_marks (step_accs steps))).
Proof.
  rewrite (stable_sort_last mark_le). unfold step_accs, newestMark.
  rewrite merge_all_marks, <-fmap_reverse. change (fmap ?f ?l) with (map f l). rewrite map_map.
  set (l := concat _). clearbody l.
  set (op := fun (x : incarnationMark) newest => Some match newest with Some m => if decide (mark_le x m) then m else x | None => x end).
  assert (Hop : forall x m, op x (Some m) = Some (newer_mark x m)).
  { intros x m. unfold op, newer_mark, mark_le. repeat case_match; try done; case_bool_decide; try done; lia. }
  assert (Hf : forall l m, foldl (fun newest mark => match newest with
                | Some m => if bool_decide (im_ts mark < im_ts m)%Z then newest else Some mark
                | None => Some mark end) (Some m) l =
              Some match foldr op None l with Some m' => newer_mark m m' | None => m end).
  { clear l. induction l as [|x l IH]; intros m; cbn [foldl foldr]; [done|].
    assert ((if bool_decide (im_ts x < im_ts m)%Z then Some m else Some x) = Some (newer_mark m x)) as ->
      by (unfold newer_mark; by case_bool_decide).
    rewrite IH. destruct (foldr op None l) as [m'|]; [|done]. by rewrite Hop, newer_mark_assoc. }
  destruct l as [|x l]; [done|]. cbn [foldl foldr]. rewrite Hf. fold op.
  destruct (foldr op None l) as [m'|]; [|done]. by rewrite Hop.
Qed.

(** The newest mark survives older marks beside it. *)
Lemma last_mark_above old new m ceiling :
  Forall (fun m => (im_ts m < ceiling)%Z) old -> last (stable_sort mark_le new) = Some m -> (ceiling <= im_ts m)%Z ->
  last (stable_sort mark_le (old ++ new)) = Some m.
Proof.
  rewrite !(stable_sort_last mark_le), foldr_app. intros Ho -> Hm.
  induction Ho as [|x old Hx _ IH]; cbn [foldr]; [done|]. rewrite IH.
  rewrite decide_True; [done|]. unfold mark_le. lia.
Qed.

(** ** Counting settled rows *)

Definition sure_rows (q : TimelineQuery) (uid : string) (ceiling : Z) (a : timelineAccumulator) : nat :=
  length (above ceiling (List.filter (of_incarnation uid) (ta_changes a))) +
  (if tq_IncludeEvents q then length (above ceiling (map ce_change (List.filter (pinned uid) (ta_events a)))) else 0).

Lemma filter_filter {A} (f g : A -> bool) l : List.filter f (List.filter g l) = List.filter (fun x => g x && f x) l.
Proof. induction l as [|x l IH]; cbn; [done|]. destruct (g x); cbn; by rewrite ?IH. Qed.

Lemma filter_map_comm {A B} (f : B -> bool) (h : A -> B) l : List.filter f (map h l) = map h (List.filter (fun x => f (h x)) l).
Proof. induction l as [|x l IH]; cbn; [done|]. destruct (f (h x)); cbn; by rewrite IH. Qed.

Lemma settled_rows_sure q uid ceiling step : settled_rows q uid ceiling step = sure_rows q uid ceiling (ws_acc step).
Proof.
  unfold settled_rows, sure_rows, above. rewrite filter_filter. f_equal. destruct (tq_IncludeEvents q); [|done].
  cbn. rewrite filter_map_comm, length_map, filter_filter. f_equal. apply List.filter_ext. intros e. f_equal.
  unfold pinned. destruct (ce_root e); repeat case_bool_decide; done.
Qed.

Lemma sure_rows_merge q uid ceiling a b :
  sure_rows q uid ceiling (acc_merge a b) = sure_rows q uid ceiling a + sure_rows q uid ceiling b.
Proof.
  unfold sure_rows, acc_merge, above. cbn. rewrite !keep_app, map_app, keep_app, !length_app.
  destruct (tq_IncludeEvents q); lia.
Qed.

Lemma settled_rows_steps q uid ceiling steps :
  sum_list_with (settled_rows q uid ceiling) steps = sure_rows q uid ceiling (step_accs steps).
Proof.
  induction steps as [|step steps IH] using rev_ind.
  - unfold sure_rows, above. cbn. by destruct (tq_IncludeEvents q).
  - rewrite step_accs_snoc, sure_rows_merge, sum_list_with_app, IH. cbn. rewrite settled_rows_sure. lia.
Qed.

(** Once settled, rows dated below the ceiling do not change the answer. *)
Lemma settled_answer e q steps lo old : reverseLimited q = true -> answerIsSettled e q steps lo = true ->
  acc_below (lo + en_objectSpan e) old ->
  assemble q (acc_merge old (step_accs steps)) = assemble q (step_accs steps).
Proof.
  unfold reverseLimited, answerIsSettled. set (new := step_accs steps). set (ceiling := (lo + en_objectSpan e)%Z).
  intros [Hrev Hlim%bool_decide_eq_true]%andb_true_iff Hs (Hbc & Hbm & Hbe).
  destruct (settled_uid q steps ceiling) as [uid|] eqn:Eu; [|done]. apply bool_decide_eq_true in Hs.
  rewrite settled_rows_steps in Hs. fold new in Hs.
  assert (Hres : resolution q (acc_merge old new) = resolution q new /\
                 (resolution q new = None \/ resolution q new = Some uid)).
  { unfold resolution, settled_uid, resolveIncarnation in *. destruct (tq_EventsOnly q); [|destruct (bool_decide (tq_UID q <> ""))].
    - injection Eu as <-. split; [done|]. destruct (negb false && _); auto.
    - injection Eu as <-. auto.
    - destruct (tq_AllIncarnations q); [injection Eu as <-; auto|].
      rewrite newestMark_last in Eu. fold new in Eu. destruct (last (stable_sort mark_le (ta_marks new))) as [m|] eqn:El; [|done].
      case_bool_decide; [done|]. injection Eu as <-. cbn [acc_merge ta_marks].
      rewrite (last_mark_above _ _ m ceiling) by (done || lia). auto. }
  destruct Hres as [Hres Hru]. rewrite !assemble_rows, Hres. destruct Hru as [->| ->]; [done|].
  rewrite Hrev, bool_decide_eq_true_2 by done. cbv zeta.
  destruct (rows_levels q uid (acc_merge old new) ceiling) as [low ->].
  destruct (rows_levels q uid new ceiling) as [low' ->].
  set (high := merge_loop (stable_sort change_le (above ceiling (List.filter (of_incarnation uid) (ta_changes new)))) _).
  assert (Hhigh : Z.to_nat (tq_Limit q) <= length high).
  { subst high. rewrite merge_loop_Permutation, length_app. unfold sure_rows in Hs.
    destruct (tq_IncludeEvents q); rewrite ?(stable_sort_Permutation change_le); cbn; lia. }
  assert (Hc : above ceiling (List.filter (of_incarnation uid) (ta_changes (acc_merge old new))) =
               above ceiling (List.filter (of_incarnation uid) (ta_changes new))).
  { cbn [acc_merge ta_changes]. rewrite keep_app, above_app, above_below by (by apply keep_Forall). done. }
  assert (He : above ceiling (map ce_change (List.filter (pinned uid) (ta_events (acc_merge old new)))) =
               above ceiling (map ce_change (List.filter (pinned uid) (ta_events new)))).
  { cbn [acc_merge ta_events]. rewrite keep_app, map_app, above_app, above_below; [done|]. apply Forall_map. by apply keep_Forall. }
  rewrite Hc, He. fold high. rewrite !reverse_app, !take_app_le by (by rewrite length_reverse). done.
Qed.

(** ** Scans of a source that can be listed *)

Lemma first_failure_app {A B} (l l' : list (A * option B)) :
  first_failure (l ++ l') = match first_failure l with Some f => Some f | None => first_failure l' end.
Proof. induction l as [|[a [f|]] l IH]; cbn; done. Qed.

Lemma concat_chunk_loop {A} fuel n (l : list A) : n <> 0 -> length l <= fuel -> concat (chunk_loop fuel n l) = l.
Proof.
  intros Hn. revert l. induction fuel as [|fuel IH]; intros [|x l] Hl; try done; [cbn in Hl; lia|].
  cbn [chunk_loop concat]. rewrite IH; [by rewrite take_drop|]. rewrite length_drop. cbn in *. lia.
Qed.

Lemma concat_chunk {A} n (l : list A) : n <> 0 -> concat (chunk n l) = l.
Proof. intros Hn. by apply concat_chunk_loop. Qed.

Section clean.
Context `{ObjectSource, FrameReader, PatchPaths} (scan : recordScan).

Definition listable (prefix : string) : Prop := exists keys, listOnePrefix prefix = Ok keys.
Definition keys_of (prefix : string) : list string := match listOnePrefix prefix with Ok keys => keys | Err _ => [] end.
Definition read_key (key : string) : timelineAccumulator * option scanError := readObject acc_zero (scan_decode scan) key.

(** What lies under a prefix, and the first failure to read it. *)
Definition read_prefix (prefix : string) : timelineAccumulator := merge_all (map (fun k => (read_key k).1) (keys_of prefix)).
Definition read_failure (prefixes : list string) : option scanError :=
  first_failure (map read_key (concat (map keys_of prefixes))).

Definition read_all (prefixes : list string) : timelineAccumulator := merge_all (map read_prefix prefixes).

Hypothesis Hcalm : forall group, interrupted group = None.

Lemma collect_listable prefixes : Forall listable prefixes -> collect (map listOnePrefix prefixes) = Ok (map keys_of prefixes).
Proof.
  induction 1 as [|p ps [keys Hp] _ IH]; cbn; [done|]. unfold keys_of at 1. by rewrite Hp, IH.
Qed.

Lemma group_clean prefixes t : Forall listable prefixes ->
  scanOneGroup acc_zero (scan_decode scan) acc_merge prefixes t =
  (acc_merge t (read_all prefixes), read_failure prefixes, false).
Proof.
  intros Hl. unfold scanOneGroup, listObjectKeys, fetchObjects. rewrite Hcalm, collect_listable by done.
  rewrite foldl_merge. do 3 f_equal. unfold read_all. clear.
  induction prefixes as [|p ps IH]; cbn [map concat]; [done|].
  rewrite map_app, map_app, merge_all_app, IH. cbn. f_equal. unfold read_prefix. by rewrite map_map.
Qed.

Lemma read_all_app l l' : read_all (l ++ l') = acc_merge (read_all l) (read_all l').
Proof. unfold read_all. by rewrite map_app, merge_all_app. Qed.

Lemma read_failure_app l l' :
  read_failure (l ++ l') = match read_failure l with Some f => Some f | None => read_failure l' end.
Proof. unfold read_failure. by rewrite map_app, concat_app, map_app, first_failure_app. Qed.

Lemma groups_clean groups t failure : Forall listable (concat groups) ->
  scan_groups acc_zero (scan_decode scan) acc_merge groups t failure =
  (acc_merge t (read_all (concat groups)),
   match failure with Some _ => failure | None => read_failure (concat groups) end).
Proof.
  revert t failure. induction groups as [|g gs IH]; intros t failure; cbn [concat scan_groups].
  - intros _. cbn. rewrite acc_merge_zero_r. by destruct failure.
  - intros [Hg Hgs]%Forall_app. rewrite group_clean by done. cbv beta iota. rewrite IH by done.
    rewrite read_all_app, acc_merge_assoc, read_failure_app. by destruct failure, (read_failure g).
Qed.

Lemma forward_clean n prefixes : n <> 0 -> Forall listable prefixes ->
  scanPartitions acc_zero (scan_decode scan) acc_merge n prefixes acc_zero = (read_all prefixes, read_failure prefixes).
Proof.
  intros Hn Hl. unfold scanPartitions. rewrite groups_clean by (by rewrite concat_chunk).
  by rewrite concat_chunk, acc_merge_zero_l.
Qed.

(** ** The walk *)

Definition steps_failure (steps : list timelineWalkStep) : option scanError :=
  first_failure (map (fun s => (tt, ws_failure s)) (reverse steps)).

Lemma fold_steps_eq steps into failure : fold_steps steps into failure =
  (acc_merge into (merge_all (map ws_acc steps)),
   match failure with Some _ => failure | None => first_failure (map (fun s => (tt, ws_failure s)) steps) end).
Proof.
  revert into failure. induction steps as [|s steps IH]; intros into failure; cbn [fold_steps].
  - cbn. rewrite acc_merge_zero_r. by destruct failure.
  - rewrite IH. cbn. rewrite acc_merge_assoc. by destruct failure, (ws_failure s).
Qed.

(** The steps hold exactly the partitions from the [k]-th on. *)
Definition reaches (spans : list partition) (steps : list timelineWalkStep) (k : nat) : Prop :=
  step_accs steps = read_all (prefixesOf (drop k spans)) /\ steps_failure steps = read_failure (prefixesOf (drop k spans)).

Lemma reaches_step spans steps k start : reaches spans steps k -> start <= k -> k <= length spans ->
  Forall listable (prefixesOf spans) ->
  let group := prefixesOf (drop start (take k spans)) in
  reaches spans (steps ++ [mkWalkStep (read_all group) (read_failure group)]) start.
Proof.
  intros [Ha Hf] Hs Hk Hl group.
  assert (Hd : prefixesOf (drop start spans) = group ++ prefixesOf (drop k spans)).
  { subst group. unfold prefixesOf. rewrite <-map_app. f_equal. rewrite <-(take_drop k spans) at 1.
    by rewrite drop_app_le by (rewrite length_take; lia). }
  split.
  - by rewrite step_accs_snoc, Ha, Hd, read_all_app.
  - unfold steps_failure in *. rewrite reverse_app. cbn. rewrite Hd, read_failure_app, <-Hf. by destruct (read_failure group).
Qed.

Lemma walk_reaches fuel e q spans k width steps : en_concurrency e <> 0 -> width <> 0 ->
  k <= fuel -> k <= length spans -> Forall listable (prefixesOf spans) -> reaches spans steps k ->
  exists k', k' <= k /\ reaches spans (walk fuel e q scan spans k width steps) k' /\
    (k' = 0 \/ exists p, spans !! k' = Some p /\
       answerIsSettled e q (walk fuel e q scan spans k width steps) (pt_start p) = true).
Proof.
  intros Hc. revert k width steps. induction fuel as [|fuel IH]; intros k width steps Hw Hk Hlen Hl Hr; cbn [walk].
  - exists 0. assert (k = 0) as -> by lia. auto.
  - case_bool_decide as Hz; [subst; exists 0; auto|].
    set (group := prefixesOf (drop (k - width) (take k spans))).
    assert (Hg : Forall listable group).
    { apply Forall_forall. intros p (x & -> & Hx)%list_elem_of_fmap. rewrite Forall_forall in Hl.
      apply Hl, list_elem_of_fmap_2. apply list_elem_of_lookup in Hx as [i Hi].
      rewrite lookup_drop in Hi. apply lookup_take_Some in Hi as [Hi _]. by eapply list_elem_of_lookup_2. }
    rewrite group_clean, acc_merge_zero_l by done. cbn [orb].
    pose proof (reaches_step spans steps k (k - width) Hr ltac:(lia) Hlen Hl) as Hr'. fold group in Hr'. cbv zeta in Hr'.
    destruct (spans !! (k - width)) as [p|] eqn:Ep; [|apply lookup_ge_None in Ep; lia].
    destruct (answerIsSettled _ _ _ (pt_start p)) eqn:Es.
    + exists (k - width). split; [lia|]. split; [done|]. right. by exists p.
    + destruct (IH (k - width) (Nat.min (width * 2) (en_concurrency e)) _ ltac:(lia) ltac:(lia) ltac:(lia) Hl Hr')
        as (k' & Hk' & Hr'' & Hs). exists k'. split; [lia|]. done.
Qed.
End clean.

(** ** What is stored, and where it is filed *)

Section stored.
Context `{ObjectSource, FrameReader, PatchPaths}.

(** The lines a reader gets out of an object, before any failure. *)
Definition key_lines (key : string) : list recordLine :=
  match src_Open key with Ok b => (streamFrame record_stream (bd_bytes b)).1 | Err _ => [] end.

Lemma read_key_lines scan key : (read_key scan key).1 = foldl (scan_line scan) acc_zero (key_lines key).
Proof.
  unfold read_key, readObject, key_lines, scan_decode, decodeFrame.
  destruct (src_Open key) as [b|[]]; [|done..]. by destruct (streamFrame _ _).
Qed.

(** The store holds exactly the keys [stored] and lists each under its prefixes. *)
Record holds_keys (stored : list string) : Prop := {
  hk_nodup : NoDup stored;
  hk_listed : forall prefix, exists keys, listOnePrefix prefix = Ok keys /\
    keys ≡ₚ List.filter (fun key => has_prefix key prefix) stored;
  hk_calm : forall group, interrupted group = None;
}.

(** An object of the cluster as the reader expects it: keyed by an instant, holding
    nothing from before that instant's hour and nothing later than one span after it. *)
Definition in_place (e : Engine) (cluster key : string) : Prop :=
  exists ts hash, key = objectKey (en_prefix e) cluster ts hash /\ representable ts /\
    Forall (fun l => hourStart ts <= ln_Timestamp l <= ts + en_objectSpan e)%Z (key_lines key).

(** An object of something else - another cluster, the scope log - filed outside the
    cluster's records and naming none of its objects. *)
Definition foreign (e : Engine) (cluster key : string) : Prop :=
  has_prefix key (recordsRoot (en_prefix e) cluster) = false /\
  Forall (fun l => ln_ClusterID l <> cluster) (key_lines key).

Definition filed (e : Engine) (cluster key : string) : Prop := in_place e cluster key \/ foreign e cluster key.

(** The setting of a query: an engine over a prefix the CRD admits, a cluster that is
    one key segment, and a window of representable hours. *)
Record askable (e : Engine) (cluster : string) (from to : Z) : Prop := {
  ak_concurrency : en_concurrency e <> 0;
  ak_prefix : trim "/"%char (en_prefix e) = en_prefix e;
  ak_cluster : string_mem "/"%char cluster = false;
  ak_from : representable (hourStart (from - en_objectSpan e));
  ak_to : representable (hourStart to + hour - 1);
}.

Lemma scan_line_acc scan acc l : scan_line scan acc l = acc_merge acc (scan_line scan acc_zero l).
Proof.
  unfold scan_line, acc_merge. destruct acc as [cs ms es].
  repeat case_match; cbn; by rewrite ?app_nil_r.
Qed.

Lemma scan_lines_acc scan lines acc :
  foldl (scan_line scan) acc lines = acc_merge acc (merge_all (map (scan_line scan acc_zero) lines)).
Proof.
  revert acc. induction lines as [|l lines IH]; intros acc; cbn; [by rewrite acc_merge_zero_r|].
  rewrite IH, scan_line_acc. by rewrite acc_merge_assoc.
Qed.

Lemma merge_all_below ceiling l : Forall (acc_below ceiling) l -> acc_below ceiling (merge_all l).
Proof. induction 1; [done|]. cbn. by apply acc_below_merge. Qed.

Lemma scan_line_below scan ceiling l : (ln_Timestamp l < ceiling)%Z -> acc_below ceiling (scan_line scan acc_zero l).
Proof. intros Hl. unfold scan_line. repeat case_match; repeat split; cbn; repeat constructor; done. Qed.

Lemma read_key_below scan ceiling key :
  Forall (fun l => (ln_Timestamp l < ceiling)%Z) (key_lines key) -> acc_below ceiling (read_key scan key).1.
Proof.
  intros Hk. rewrite read_key_lines, scan_lines_acc, acc_merge_zero_l. apply merge_all_below, Forall_map.
  eapply Forall_impl; [exact Hk|]. intros l Hl. by apply scan_line_below.
Qed.

Lemma holds_keys_of stored prefix : holds_keys stored ->
  keys_of prefix ≡ₚ List.filter (fun key => has_prefix key prefix) stored.
Proof. intros [_ Hl _]. destruct (Hl prefix) as (keys & Hk & Hp). unfold keys_of. by rewrite Hk. Qed.

Lemma elem_of_keys_of stored prefix key : holds_keys stored ->
  key ∈ keys_of prefix <-> key ∈ stored /\ has_prefix key prefix = true.
Proof.
  intros Hs. rewrite (holds_keys_of _ _ Hs), list_elem_of_In, filter_In, list_elem_of_In. done.
Qed.

Lemma prefix_below_root key root suffix : has_prefix key (root +:+ suffix) = true -> has_prefix key root = true.
Proof. rewrite !has_prefix_spec. intros [t ->]. exists (suffix +:+ t). by rewrite string_app_assoc. Qed.

(** Every partition of a tiling lies below its root. *)
Lemma tiled_below_root root cur stop spans p key : tiles root cur stop spans -> p ∈ spans ->
  has_prefix key (pt_prefix p) = true -> has_prefix key root = true.
Proof.
  revert cur. induction spans as [|q spans IH]; intros cur Ht Hp; [by apply elem_of_nil in Hp|].
  destruct Ht as (w & _ & [_ Hw] & _ & _ & Ht). apply elem_of_cons in Hp as [->|Hp]; [|by eapply IH].
  by destruct Hw as [(-> & _)|(-> & _)]; apply prefix_below_root.
Qed.

(** Below a partition the walk has reached, everything is older than its ceiling. *)
Lemma unread_below e cluster from to stored scan k p : askable e cluster from to -> holds_keys stored ->
  Forall (filed e cluster) stored -> recordPartitions e cluster from to !! k = Some p ->
  acc_below (pt_start p + en_objectSpan e) (read_all scan (prefixesOf (take k (recordPartitions e cluster from to)))).
Proof.
  intros [Hc Hp Hcl Hf Ht] Hs Hfiled Hk. unfold read_all. apply merge_all_below, Forall_map, Forall_map.
  apply Forall_forall. intros q Hq. cbn. unfold read_prefix. apply merge_all_below, Forall_map.
  apply Forall_forall. intros key Hkey. apply (elem_of_keys_of stored) in Hkey as [Hin Hpre]; [|done].
  apply read_key_below. rewrite Forall_forall in Hfiled.
  destruct (Hfiled key Hin) as [(ts & hash & -> & Hts & Hlines)|[Hout _]].
  2: { rewrite (tiled_below_root (recordsRoot (en_prefix e) cluster) (hourStart (from - en_objectSpan e)) (hourStart to + hour)
         (recordPartitions e cluster from to) q) in Hout; [done|apply partitionSpans_tiles| |done].
       apply elem_of_take in Hq as (j & Hj & _). by eapply list_elem_of_lookup_2. }
  assert (Hlt : (ts < pt_start p)%Z).
  { eapply (filed_below (en_prefix e) cluster Hp Hcl); [apply partitionSpans_tiles|exact Hts|exact Hf|exact Ht|exact Hk|exact Hq|exact Hpre]. }
  eapply Forall_impl; [exact Hlines|]. cbn. lia.
Qed.
End stored.

(** ** Every object of the window is read once *)

Lemma concat_map_Permutation {A B} (f : A -> list B) l l' : l ≡ₚ l' -> concat (map f l) ≡ₚ concat (map f l').
Proof. induction 1; cbn; [done|by f_equiv|by rewrite !app_assoc, (Permutation_app_comm (f y))|by etransitivity]. Qed.

Lemma concat_map_app {A B} (f g : A -> list B) l :
  concat (map (fun x => f x ++ g x) l) ≡ₚ concat (map f l) ++ concat (map g l).
Proof. induction l as [|x l IH]; cbn; [done|]. rewrite IH. solve_Permutation. Qed.

Lemma concat_map_ext_perm {A B} (f g : A -> list B) l : (forall x, x ∈ l -> f x ≡ₚ g x) ->
  concat (map f l) ≡ₚ concat (map g l).
Proof.
  induction l as [|x l IH]; intros Hfg; cbn; [done|]. rewrite (Hfg x) by (by left). f_equiv. apply IH.
  intros y Hy. apply Hfg. by right.
Qed.

#[export] Instance keep_Permutation {A} (f : A -> bool) : Proper (Permutation ==> Permutation) (List.filter f).
Proof.
  induction 1; cbn; [done|destruct (f x); [by f_equiv|done]|destruct (f x), (f y); try done; apply perm_swap|by etransitivity].
Qed.

Lemma sorted_last_max {A} (R : A -> A -> Prop) `{!Reflexive R} l m x :
  StronglySorted R l -> last l = Some m -> x ∈ l -> R x m.
Proof.
  induction 1 as [|y l Hs IH Hf]; [done|]. intros Hl [->|Hx]%elem_of_cons.
  - destruct l as [|z l]; [by injection Hl as ->|]. rewrite last_cons_cons in Hl. apply last_Some_elem_of in Hl.
    rewrite Forall_forall in Hf. by apply Hf.
  - destruct l as [|z l]; [by apply elem_of_nil in Hx|]. rewrite last_cons_cons in Hl. by apply IH.
Qed.

(** Exchanging the order of a doubly indexed collection. *)
Lemma concat_filter_swap {A B} (test : A -> B -> bool) (keys : list A) (groups : list B) :
  concat (map (fun p => List.filter (fun k => test k p) keys) groups) ≡ₚ
  concat (map (fun k => replicate (length (List.filter (test k) groups)) k) keys).
Proof.
  induction keys as [|k keys IH].
  - cbn. induction groups; cbn; done.
  - cbn [map concat]. rewrite <-IH. clear IH.
    transitivity (concat (map (fun p => (if test k p then [k] else []) ++ List.filter (fun k => test k p) keys) groups)).
    { apply concat_map_ext_perm. intros p _. cbn. by destruct (test k p). }
    rewrite concat_map_app. f_equiv. clear. induction groups as [|p groups IH]; cbn; [done|].
    destruct (test k p); cbn; by rewrite IH.
Qed.

Section complete.
Context `{ObjectSource, FrameReader, PatchPaths}.

(** The lines a scan finds, and those of them it keeps. *)
Definition named_by (s : recordScan) (lines : list recordLine) : list recordLine :=
  List.filter (fun l => in_window (rs_from s) (rs_to s) (ln_Timestamp l) && namesObject l (rs_ref s)) lines.

Definition keeps (s : recordScan) (c : Change) : bool := match rs_keep s with Some keep => keep c | None => true end.

Definition line_mark (l : recordLine) : incarnationMark :=
  mkMark (ln_UID l) (ln_Timestamp l) (bool_decide (ln_EventType l = "Deleted")).

Lemma scan_rows s lines : rs_retain s = true ->
  let a := foldl (scan_line s) acc_zero lines in
  ta_changes a = map line_change (List.filter (fun l => keeps s (line_change l)) (named_by s lines)) /\
  ta_marks a = map line_mark (named_by s lines).
Proof.
  intros Hr a. subst a. rewrite scan_lines_acc, acc_merge_zero_l.
  induction lines as [|l lines [IHc IHm]]; [done|]. cbn [map merge_all foldr]. fold (merge_all (map (scan_line s acc_zero) lines)).
  cbn [acc_merge ta_changes ta_marks]. rewrite IHc, IHm. unfold named_by. cbn [List.filter].
  unfold scan_line. rewrite Hr. destruct (in_window _ _ _); cbn [negb andb]; [|done].
  destruct (namesObject l (rs_ref s)); cbn [List.filter].
  - unfold keeps at 2. destruct (rs_keep s) as [keep|]; [|done]. cbn [negb]. destruct (keep (line_change l)); done.
  - destruct (_ && _); [|done]. destruct (_ && _); done.
Qed.

Lemma read_all_lines s prefixes :
  read_all s prefixes = foldl (scan_line s) acc_zero (concat (map key_lines (concat (map keys_of prefixes)))).
Proof.
  rewrite scan_lines_acc, acc_merge_zero_l. unfold read_all, read_prefix.
  induction prefixes as [|p ps IH]; [done|]. cbn [map merge_all foldr concat].
  fold (merge_all (map (fun prefix => merge_all (map (fun k => (read_key s k).1) (keys_of prefix))) ps)).
  rewrite IH, !map_app, concat_app, map_app, merge_all_app. f_equal. clear IH.
  induction (keys_of p) as [|k ks IH]; [done|]. cbn [map merge_all foldr concat].
  fold (merge_all (map (fun k => (read_key s k).1) ks)).
  rewrite IH, map_app, merge_all_app, read_key_lines, scan_lines_acc, acc_merge_zero_l. done.
Qed.

(** The lines under the partitions of a tiling, sorted out by key: a key filed inside
    the tiling is read once, and one filed outside not at all. *)
Lemma tiled_lines e cluster (f : recordLine -> bool) spans cur stop stored :
  trim "/"%char (en_prefix e) = en_prefix e -> string_mem "/"%char cluster = false ->
  representable cur -> representable (stop - 1) -> tiles (recordsRoot (en_prefix e) cluster) cur stop spans ->
  holds_keys stored -> Forall (filed e cluster) stored -> (forall l, f l = true -> ln_ClusterID l = cluster) ->
  exists unread, List.filter f (concat (map key_lines stored)) ≡ₚ
    List.filter f (concat (map key_lines (concat (map keys_of (prefixesOf spans))))) ++ unread /\
    forall l, l ∈ unread -> exists ts, ~ (cur <= ts < stop)%Z /\ (hourStart ts <= ln_Timestamp l <= ts + en_objectSpan e)%Z /\
      f l = true.
Proof.
  intros Hp Hcl Hrc Hrs Ht Hs Hfiled Hfc.
  assert (Hn : forall keys, List.filter f (concat (map key_lines keys)) = concat (map (fun k => List.filter f (key_lines k)) keys)).
  { induction keys as [|k ks IH]; cbn; [done|]. by rewrite keep_app, IH. }
  set (count k := length (List.filter (fun p => has_prefix k (pt_prefix p)) spans)).
  assert (Hread : concat (map keys_of (prefixesOf spans)) ≡ₚ concat (map (fun k => replicate (count k) k) stored)).
  { unfold count. rewrite <-concat_filter_swap. unfold prefixesOf. rewrite map_map.
    apply concat_map_ext_perm. intros p _. by apply holds_keys_of. }
  exists (concat (map (fun k => if bool_decide (count k = 0) then List.filter f (key_lines k) else []) stored)).
  rewrite !Hn. rewrite (concat_map_Permutation (fun k => List.filter f (key_lines k)) _ _ Hread). clear Hn Hread Hs.
  induction Hfiled as [|key stored Hkey Hfiled [IH1 IH2]]; [split; [done|by intros l ?%elem_of_nil]|].
  cbn [map concat]. destruct Hkey as [(ts & hash & -> & Hts & Hlines)|[Hout Hother]].
  - assert (Hc : count (objectKey (en_prefix e) cluster ts hash) = if bool_decide (cur <= ts < stop)%Z then 1 else 0).
    { by apply listed_once. }
    rewrite Hc. clear Hc. destruct (decide (cur <= ts < stop)%Z) as [Hin|Hin];
      [rewrite (bool_decide_eq_true_2 (cur <= ts < stop)%Z) by done|rewrite (bool_decide_eq_false_2 (cur <= ts < stop)%Z) by done];
      rewrite map_app, concat_app, IH1; cbn [replicate map concat].
    + rewrite app_nil_r. split; [by rewrite <-app_assoc|]. intros l [Hl|Hl]%elem_of_app; [by apply elem_of_nil in Hl|by apply IH2].
    + split; [solve_Permutation|]. intros l [Hl|Hl]%elem_of_app; [|by apply IH2].
      apply list_elem_of_In, filter_In in Hl as [Hl Hf]. exists ts. rewrite Forall_forall in Hlines.
      split; [done|]. split; [|done]. apply Hlines. by apply list_elem_of_In.
  - assert (Hc : count key = 0).
    { unfold count. rewrite keep_none; [done|]. apply Forall_forall. intros p Hin.
      destruct (has_prefix key (pt_prefix p)) eqn:E; [|done]. by rewrite (tiled_below_root _ _ _ _ _ _ Ht Hin E) in Hout. }
    assert (Hz : List.filter f (key_lines key) = []).
    { apply keep_none. eapply Forall_impl; [exact Hother|]. intros l Hl. destruct (f l) eqn:E; [|done]. by apply Hfc in E. }
    rewrite Hc, Hz. cbn [replicate app]. by case_bool_decide.
Qed.

(** Whatever asks for lines of a cluster inside a window finds them in the partitions
    of the window. *)
Lemma window_complete e cluster (f : recordLine -> bool) from to stored :
  askable e cluster from to -> holds_keys stored -> Forall (filed e cluster) stored ->
  (forall l, f l = true -> ln_ClusterID l = cluster /\ (from <= ln_Timestamp l <= to)%Z) ->
  List.filter f (concat (map key_lines (concat (map keys_of (recordPrefixes e cluster from to))))) ≡ₚ
  List.filter f (concat (map key_lines stored)).
Proof.
  intros [Hc Hp Hcl Hrf Hrt] Hs Hfiled Hw. symmetry.
  destruct (tiled_lines e cluster f _ _ _ stored Hp Hcl Hrf Hrt (partitionSpans_tiles _ from to (en_objectSpan e)) Hs Hfiled)
    as (unread & Hn & Hu); [by intros l []%Hw|].
  destruct unread as [|l unread]; [by rewrite app_nil_r in Hn|]. exfalso.
  destruct (Hu l) as (ts & Hout & Hl & [_ Hwl]%Hw); [by left|].
  pose proof (hourStart_bounds (from - en_objectSpan e)). pose proof (hourStart_bounds to).
  destruct (decide (ts < hourStart (from - en_objectSpan e))%Z) as [Hlt|Hge]; [lia|].
  assert (Hto : (hourStart to + hour <= ts)%Z) by lia. pose proof (hourStart_mono _ _ Hto) as Hm.
  rewrite (on_hour_hourStart (hourStart to + hour)) in Hm; [lia|].
  rewrite <-(Z.mul_1_l hour) at 1. apply on_hour_add, hourStart_on_hour.
Qed.

Lemma in_window_bounds from to ts : in_window (Some from) (Some to) ts = true <-> (from <= ts <= to)%Z.
Proof. unfold in_window. rewrite andb_true_iff, !negb_true_iff, !bool_decide_eq_false. lia. Qed.

Lemma namesObject_cluster l ref : namesObject l ref = true -> ln_ClusterID l = or_ClusterID ref.
Proof. unfold namesObject. rewrite !andb_true_iff, !bool_decide_eq_true. tauto. Qed.

Definition named (q : TimelineQuery) : list recordLine -> list recordLine := named_by (timelineScan q).
Definition wanted (q : TimelineQuery) : Change -> bool := keeps (timelineScan q).

(** The lines that answer a query are the same in the partitions read and in the
    whole archive. *)
Lemma named_complete e q from to stored : tq_From q = Some from -> tq_To q = Some to ->
  let cluster := or_ClusterID (tq_Ref q) in
  askable e cluster from to -> holds_keys stored -> Forall (filed e cluster) stored ->
  named q (concat (map key_lines (concat (map keys_of (recordPrefixes e cluster from to))))) ≡ₚ
  named q (concat (map key_lines stored)).
Proof.
  intros Hf Ht cluster Ha Hs Hfiled. apply window_complete; [done..|]. cbn. rewrite Hf, Ht.
  intros l [Hw%in_window_bounds Hn%namesObject_cluster]%andb_true_iff. done.
Qed.
End complete.

(** Whom an answer is about: the incarnation asked for, all of them, or the one that
    owns the newest line. *)
Definition about (q : TimelineQuery) (lines : list recordLine) (uid : string) : Prop :=
  if bool_decide (tq_UID q <> "") then uid = tq_UID q
  else if tq_AllIncarnations q then uid = ""
  else lines = [] \/ exists l, l ∈ lines /\ ln_UID l = uid /\ forall l', l' ∈ lines -> (ln_Timestamp l' <= ln_Timestamp l)%Z.

Lemma timeline_rows
    `{ObjectSource, FrameReader, PatchPaths} e q from to stored :
  tq_From q = Some from -> tq_To q = Some to ->
  askable e (or_ClusterID (tq_Ref q)) from to -> holds_keys stored ->
  Forall (filed e (or_ClusterID (tq_Ref q))) stored ->
  tq_IncludeEvents q = false -> tq_EventsOnly q = false -> tq_Reverse q = false -> (tq_Limit q <= 0)%Z ->
  let lines := named q (concat (map key_lines stored)) in
  let answer := (scanTimeline e q from to).1 in
  exists uid, about q lines uid /\ StronglySorted change_le answer /\
    answer ≡ₚ map line_change (List.filter (fun l => wanted q (line_change l) && of_incarnation uid (line_change l)) lines).
Proof.
  intros Hf Ht Ha Hs Hfiled Hi Heo Hrev Hlim lines answer. subst answer.
  unfold scanTimeline, reverseLimited. rewrite Hrev. cbn [andb]. unfold scanForward.
  rewrite (forward_clean (timelineScan q) (hk_calm _ Hs)).
  2: { apply Ha. } 2: { apply Forall_forall. intros p _. destruct (hk_listed _ Hs p) as (keys & Hk & _). by exists keys. }
  cbn [fst]. rewrite assemble_rows, Hrev. rewrite (bool_decide_eq_false_2 (0 < tq_Limit q)%Z) by lia.
  set (a := read_all _ _). pose proof (named_complete e q from to stored Hf Ht Ha Hs Hfiled) as Hn. fold lines in Hn.
  set (read := named q (concat (map key_lines (concat (map keys_of _))))) in *.
  assert (Hretain : rs_retain (timelineScan q) = true) by (cbn; by rewrite Heo).
  destruct (scan_rows (timelineScan q) (concat (map key_lines (concat (map keys_of (recordPrefixes e (or_ClusterID (tq_Ref q)) from to)))))
              Hretain) as [Hc Hm].
  rewrite <-read_all_lines in Hc, Hm. fold a in Hc, Hm. fold (named q) in Hc, Hm. fold read in Hc, Hm.
  assert (Hrows : forall uid, StronglySorted change_le (rows_for q uid a) /\
    rows_for q uid a ≡ₚ map line_change (List.filter (fun l => wanted q (line_change l) && of_incarnation uid (line_change l)) lines)).
  { intros uid. unfold rows_for. rewrite Hi, merge_loop_nil. split; [apply stable_sort_sorted; apply _|].
    rewrite (stable_sort_Permutation change_le), Hc, filter_map_comm, filter_filter.
    apply Permutation_map. by rewrite <-Hn. }
  unfold resolution, resolveIncarnation. rewrite Heo, Hi. unfold about.
  destruct (bool_decide (tq_UID q <> "")); [exists (tq_UID q); split; [done|apply Hrows]|].
  destruct (tq_AllIncarnations q); [exists ""; split; [done|apply Hrows]|].
  destruct (last (stable_sort mark_le (ta_marks a))) as [m|] eqn:El.
  - exists (im_uid m). split; [right|apply Hrows].
    assert (Hmax : forall m', m' ∈ ta_marks a -> mark_le m' m).
    { intros m' Hin. apply (sorted_last_max mark_le (stable_sort mark_le (ta_marks a))); [apply stable_sort_sorted; apply _|done|].
      by rewrite (stable_sort_Permutation mark_le). }
    apply last_Some_elem_of in El. rewrite (stable_sort_Permutation mark_le), Hm in El.
    apply list_elem_of_fmap in El as (l & -> & Hl). exists l. rewrite <-Hn. split; [done|]. split; [done|].
    intros l' Hl'. rewrite <-Hn in Hl'. apply (Hmax (line_mark l')). rewrite Hm.
    by apply (list_elem_of_fmap_2 line_mark).
  - assert (Hz : lines = []).
    { apply last_None in El. pose proof (stable_sort_Permutation mark_le (ta_marks a)) as Hp. rewrite El in Hp.
      apply Permutation_nil_l in Hp. rewrite Hm in Hp. symmetry in Hp. apply map_eq_nil in Hp. rewrite Hp in Hn. by apply Permutation_nil_l in Hn. }
    exists "". rewrite Hz. split; [by left|]. split; [constructor|done].
Qed.

(** The newest-first walk against the full scan. *)
Lemma newest_first_full
    `{ObjectSource, FrameReader, PatchPaths} e q from to stored :
  askable e (or_ClusterID (tq_Ref q)) from to -> holds_keys stored ->
  Forall (filed e (or_ClusterID (tq_Ref q))) stored -> reverseLimited q = true ->
  let full := scanForward e q (timelineScan q) from to in
  (scanTimeline e q from to).1 = assemble q full.1 /\
  (is_Some (scanTimeline e q from to).2 -> is_Some full.2).
Proof.
  intros Ha Hs Hfiled Hrl full. set (cluster := or_ClusterID (tq_Ref q)) in *.
  set (spans := recordPartitions e cluster from to).
  assert (Hl : Forall listable (prefixesOf spans)).
  { apply Forall_forall. intros p _. destruct (hk_listed _ Hs p) as (keys & Hk & _). by exists keys. }
  assert (Hfull : full = (read_all (timelineScan q) (prefixesOf spans), read_failure (timelineScan q) (prefixesOf spans))).
  { apply forward_clean; [apply Hs|apply Ha|done]. }
  unfold scanTimeline. rewrite Hrl. unfold scanNewestFirst. fold cluster spans.
  destruct (walk_reaches (timelineScan q) (hk_calm _ Hs) (length spans) e q spans (length spans) 1 [])
    as (k & Hk & [Hacc Hfail] & Hend); [apply Ha|lia|lia|lia|done| |].
  { split; [by rewrite drop_all|]. by rewrite drop_all. }
  set (steps := walk _ _ _ _ _ _ _ _) in *.
  rewrite fold_steps_eq, acc_merge_zero_l. cbv beta iota.
  assert (Hm : merge_all (map ws_acc (reverse steps)) = step_accs steps).
  { unfold step_accs. f_equal. apply fmap_reverse. }
  rewrite Hm. cbn [fst snd]. fold (steps_failure steps).
  assert (Hsplit : prefixesOf spans = prefixesOf (take k spans) ++ prefixesOf (drop k spans)).
  { unfold prefixesOf. by rewrite <-map_app, take_drop. }
  rewrite Hfull. cbn [fst snd]. split.
  - rewrite Hsplit, read_all_app, <-Hacc. destruct Hend as [Hz|(p & Hp & Hset)].
    { by rewrite Hz. }
    symmetry. eapply settled_answer; [done|exact Hset|]. by apply (unread_below e cluster from to stored).
  - rewrite Hsplit, read_failure_app, <-Hfail. by destruct (read_failure _ (prefixesOf (take k spans))); [eexists|].
Qed.

(** ** Properties *)

(** a timeline is complete. Over an archive whose objects are filed as the reader
    expects, the timeline of an object in a window is exactly the lines of the whole
    archive that name it, fall in the window, pass the filters and belong to the
    incarnation asked for - by default the one that owns the newest such line - each
    once and in time order: pruning to a range of hour and day prefixes loses nothing
    and lists nothing twice. *)
Theorem timeline_is_complete
    `{ObjectSource, FrameReader, PatchPaths} e q from to stored :
  tq_From q = Some from -> tq_To q = Some to -> (from <= to)%Z -> en_closed e = false ->
  askable e (or_ClusterID (tq_Ref q)) from to -> holds_keys stored ->
  Forall (filed e (or_ClusterID (tq_Ref q))) stored ->
  tq_IncludeEvents q = false -> tq_EventsOnly q = false -> tq_Reverse q = false -> (tq_Limit q <= 0)%Z ->
  let lines := named q (concat (map key_lines stored)) in
  exists answer failure uid, Timeline e q = Ok (answer, failure) /\ about q lines uid /\ StronglySorted change_le answer /\
    answer ≡ₚ map line_change (List.filter (fun l => wanted q (line_change l) && of_incarnation uid (line_change l)) lines).
Proof.
  intros Hf Ht Hle Hcl Ha Hs Hfiled Hi Heo Hrev Hlim lines.
  destruct (timeline_rows e q from to stored Hf Ht Ha Hs Hfiled Hi Heo Hrev Hlim) as (uid & Hab & Hsort & Hp).
  unfold Timeline, requireWindow. rewrite Hcl, Hf, Ht, bool_decide_eq_false_2 by lia.
  destruct (scanTimeline e q from to) as [answer failure]. by exists answer, failure, uid.
Qed.

(** the short cut answers like the full scan. For a query of the newest changes,
    over an archive whose objects carry records for at most one span after the instant
    they are filed under, the newest-first walk - which may stop long before the window
    is read - returns exactly the rows, in the order, that reading every partition and
    assembling the answer gives: with incarnation resolution, actor and field filters,
    merged Events, ties and unreadable objects. It reports a failure only if the full
    scan reports one too. *)
Theorem newest_first_is_full_scan
    `{ObjectSource, FrameReader, PatchPaths} e q from to stored :
  askable e (or_ClusterID (tq_Ref q)) from to -> holds_keys stored ->
  Forall (filed e (or_ClusterID (tq_Ref q))) stored -> reverseLimited q = true ->
  let full := scanForward e q (timelineScan q) from to in
  (scanTimeline e q from to).1 = assemble q full.1 /\
  (is_Some (scanTimeline e q from to).2 -> is_Some full.2).
Proof. apply newest_first_full. Qed.
