(* ===== verification/ArchiveEndToEnd.v ===== *)
(** * ArchiveEndToEnd: from the archive sink's callbacks to the archive's timelines

    Composes the write path of [S3Writer] with the reader of [Archive]: a record the
    sink confirmed is in the timeline of its object. Also the boundary of that claim:
    a record that arrived behind a later one across an hour boundary. *)

From S2P Require Import Prelude Calendar HashCache GoJson Diff QueryFilter SinkTypes Render S3Object S3Writer ScopeLog Layout Archive ArchiveSpec.

(** A record as the reader's line. *)
Definition line_of (r : Record_) : recordLine :=
  mkLine (r_Timestamp r) (r_ClusterID r) (r_EventType r) (r_APIGroup r) (r_APIVersion r) (r_Kind r) (r_Namespace r)
    (r_Name r) (r_UID r) (r_ResourceVersion r) (r_Labels r) (r_Actors r) (r_Data r) (r_Diff r) (r_SHA256 r).

(** What the two planes share: the reader's decoder returns the fields the writer's
    encoder rendered, of records whose strings are valid UTF-8. *)
Class FormatLaws `{ZstdCodec, LineCodec, FrameReader} := {
  format_read : forall records lines payload,
    Forall (fun r => valid_record r = true) records ->
    Forall2 (fun r line => encode_line r = Ok line) records lines ->
    decompress payload = Ok (text lines) -> streamFrame record_stream payload = (map line_of records, None);
}.

Section confirmed.
Context `{ZstdCodec, Encoders, LineCodec, FrameWriter, !FrameLaws, ObjectSource, FrameReader, !FormatLaws, PatchPaths}.

(** An accepted job renders a record that was enqueued under its callback. *)
Definition renders (ops : list writerOp) (job : writeJob) (r : Record_) : Prop :=
  OpEnqueue r (wj_commit job) Sent ∈ ops /\ encode_line r = Ok (wj_line job) /\
  wj_clusterID job = r_ClusterID r /\ wj_ts job = r_Timestamp r.

Lemma accepted_renders cfg ops s job : job ∈ accepted cfg ops s -> exists r, renders ops job r.
Proof.
  revert s. induction ops as [|op ops IH]; intros s; cbn [accepted]; [by intros ?%elem_of_nil|].
  intros [Hj|(r & Hin & Hr)%IH]%elem_of_app; [|exists r; split; [by right|done]].
  destruct op as [r c o| | |]; rewrite ?drop_nil in Hj; try by apply elem_of_nil in Hj.
  cbn [step_writer] in Hj. unfold Enqueue, marshalRecordLine in Hj.
  destruct (bool_decide _); [by rewrite drop_all in Hj; apply elem_of_nil in Hj|].
  destruct (encode_line r) as [line|] eqn:El; [|by rewrite drop_all in Hj; apply elem_of_nil in Hj].
  destruct (sw_closing s); [by rewrite drop_all in Hj; apply elem_of_nil in Hj|].
  destruct o; [|by rewrite drop_all in Hj; apply elem_of_nil in Hj..].
  case_bool_decide; [|by rewrite drop_all in Hj; apply elem_of_nil in Hj]. cbn in Hj.
  rewrite drop_app_length in Hj. apply list_elem_of_singleton in Hj as ->. exists r. split; [by left|done].
Qed.

Lemma accepted_records cfg ops s jobs : jobs ⊆ accepted cfg ops s ->
  exists records, Forall2 (renders ops) jobs records.
Proof.
  induction jobs as [|j jobs IH]; intros Hs; [by exists []|].
  destruct (accepted_renders cfg ops s j) as [r Hr]; [apply Hs; by left|].
  destruct IH as [rs Hrs]; [intros x Hx; apply Hs; by right|]. exists (r :: rs). by constructor.
Qed.

(** Nothing but records that JSON renders without loss is handed to the sink. *)
Definition valid_op (op : writerOp) : bool :=
  match op with OpEnqueue r _ _ => valid_record r | _ => true end.

Lemma renders_valid ops jobs records : Forall (fun op => valid_op op = true) ops ->
  Forall2 (renders ops) jobs records -> Forall (fun r => valid_record r = true) records.
Proof.
  intros Hv. induction 1 as [|j r jobs records (Hin & _) _ IH]; constructor; [|done].
  exact (proj1 (Forall_forall _ _) Hv _ Hin).
Qed.

(** The store gives back what landed in it. *)
Definition serves (landed : list Object) (stored : list string) : Prop :=
  forall obj, obj ∈ landed -> o_Key obj ∈ stored /\ exists close, src_Open (o_Key obj) = Ok (mkBody (o_Payload obj) close).

Lemma landed_lines decode landed stored prefix obj jobs ops records : zstdDecoder = Some decode ->
  serves landed stored -> obj ∈ landed -> carries prefix obj jobs -> Forall2 (renders ops) jobs records ->
  Forall (fun r => valid_record r = true) records -> key_lines (o_Key obj) = map line_of records.
Proof.
  intros Hd Hs Ho Hc Hr Hv. destruct (Hs obj Ho) as [_ (close & Hopen)]. unfold key_lines. rewrite Hopen. cbn.
  rewrite (format_read records (map wj_line jobs)); [done|done| |by eapply c_payload].
  clear -Hr. induction Hr as [|j r jobs records (_ & He & _) _ IH]; cbn; by constructor.
Qed.
End confirmed.

(** ** Properties *)

(** C9: what the archive sink confirmed, a timeline shows. Take any run of the sink, in
    which records of any objects were enqueued by anyone, objects rotated, PUTs failed
    and were retried, and a store that serves what landed. If a callback was called
    with success, then one of the records enqueued under it is in every timeline that
    names its object, pins its incarnation or asks for all of them, has its instant in a
    window with two ends, a filter it passes, ascending order and no limit - provided
    the strings handed over are valid UTF-8 and every object of the store is filed as
    the reader expects, which [early_arrival_is_missed] shows the sink not to ensure. *)
Theorem confirmed_records_are_found
    `{ZstdCodec, Encoders, LineCodec, FrameWriter, !FrameLaws, ObjectSource, FrameReader, !FormatLaws, PatchPaths}
    decode cfg n ops e q from to stored c :
  zstdDecoder = Some decode -> wc_prefix cfg = en_prefix e -> Forall (fun op => valid_op op = true) ops ->
  let s := run_writer cfg ops (NewWriter_state n) in
  serves (sw_landed s) stored ->
  tq_From q = Some from -> tq_To q = Some to ->
  askable e (or_ClusterID (tq_Ref q)) from to -> holds_keys stored ->
  Forall (filed e (or_ClusterID (tq_Ref q))) stored ->
  tq_IncludeEvents q = false -> tq_EventsOnly q = false -> tq_Reverse q = false -> (tq_Limit q <= 0)%Z ->
  (c, true) ∈ sw_settled s ->
  exists r, OpEnqueue r c Sent ∈ ops /\
    (namesObject (line_of r) (tq_Ref q) = true -> (from <= r_Timestamp r <= to)%Z ->
     (tq_UID q = r_UID r /\ tq_UID q <> "" \/ tq_UID q = "" /\ tq_AllIncarnations q = true) ->
     wanted q (line_change (line_of r)) = true ->
     line_change (line_of r) ∈ (scanTimeline e q from to).1).
Proof.
  intros Hd Hpre Hvalid s Hserves Hf Ht Ha Hs Hfiled Hi Heo Hrev Hlim Hc.
  destruct (run_account cfg ops _ _ _ _ (fresh_account cfg n)) as (held & d & Hacc). rewrite app_nil_l in Hacc. fold s in Hacc.
  pose proof Hacc as [_ Hset Hall _ Hback _]. rewrite Hset in Hc.
  apply list_elem_of_fmap in Hc as ([job ok] & [= -> <-] & Hd'). destruct (Hback job Hd') as (obj & jobs & Ho & Hcar & Hsub & Hj).
  assert (Hsub' : jobs ⊆ accepted cfg ops (NewWriter_state n)) by (intros j Hj'%Hsub; rewrite Hall; by apply elem_of_app; left).
  destruct (accepted_records cfg ops (NewWriter_state n) jobs Hsub') as [records Hr].
  pose proof (landed_lines _ _ _ _ _ _ _ _ Hd Hserves Ho (accepted_seals _ _ _ _ _ _ Hcar Hsub') Hr
    (renders_valid _ _ _ Hvalid Hr)) as Hlines.
  apply list_elem_of_lookup in Hj as [k Hk]. destruct (Forall2_lookup_l _ _ _ _ _ Hr Hk) as (r & Hkr & Hin & _ & _ & _).
  exists r. split; [done|]. intros Hnames Hwin Hinc Hwant.
  destruct (timeline_rows e q from to stored) as (uid & Habout & _ & Hperm); try done.
  rewrite Hperm. apply list_elem_of_fmap_2, list_elem_of_In, filter_In. split.
  - apply filter_In. split.
    + apply in_concat. exists (key_lines (o_Key obj)). rewrite <-!list_elem_of_In. split.
      * apply list_elem_of_fmap_2. by apply Hserves.
      * rewrite Hlines. apply list_elem_of_fmap_2. by eapply list_elem_of_lookup_2.
    + apply andb_true_iff. split; [|exact Hnames]. unfold in_window. cbn. rewrite Hf, Ht. cbn.
      rewrite !bool_decide_eq_false_2 by lia. done.
  - rewrite Hwant. cbn. unfold about in Habout. unfold of_incarnation. cbn.
    destruct Hinc as [[Hu Hne]|[Hu Hal]].
    + rewrite (bool_decide_eq_true_2 (tq_UID q <> "")) in Habout by done. subst uid. rewrite Hu.
      rewrite (bool_decide_eq_true_2 (r_UID r = r_UID r)) by done. apply orb_true_r.
    + rewrite (bool_decide_eq_false_2 (tq_UID q <> "")), Hal in Habout by (by intros []). subst uid. done.
Qed.

(** A record that arrives behind a later one can be out of reach. An object is
    filed under the instant of the record that arrived first. If that record is from a
    later hour than a window ends in, no prefix the window lists covers the object -
    although another record in it, which the builder accepted behind the first, may
    fall right into the window. *)
Theorem early_arrival_is_missed
    `{ZstdCodec, Encoders, LineCodec, FrameWriter, !FrameLaws} e cluster from to maxBytes fresh b obj first rest :
  askable e cluster from to -> representable (r_Timestamp first) -> r_ClusterID first = cluster ->
  newObjectBuilder maxBytes = Ok fresh -> append_all (first :: rest) fresh = Ok b ->
  build (en_prefix e) b = Ok obj -> (hourStart to < hourStart (r_Timestamp first))%Z ->
  Forall (fun prefix => has_prefix (o_Key obj) prefix = false) (recordPrefixes e cluster from to).
Proof.
  intros [_ Hp Hcl Hrf Hrt] Hts Hc Hn Ha Hb Hlate. destruct (new_holding _ _ Hn) as [Hf _].
  destruct (append_all_holding _ _ _ _ Hf Ha) as (lines & Hl & [_ _ _ Hfirst _ _]).
  destruct lines as [|line lines]; [by inversion Hl|]. destruct (Hfirst _ _ eq_refl) as [Hbc Hbt].
  unfold build in Hb. case_bool_decide; [done|]. destruct (frame_Close _); [|done]. injection Hb as <-.
  cbn [o_Key]. rewrite Hbc, Hbt. cbn [e_cluster e_ts fst snd]. rewrite Hc.
  pose proof (listed_once (en_prefix e) cluster Hp Hcl _ _ _ (r_Timestamp first) (sha256_hex (b_digest b))
                (partitionSpans_tiles _ from to (en_objectSpan e)) Hts Hrf Hrt) as Hone.
  pose proof (hourStart_bounds to). pose proof (hourStart_bounds (r_Timestamp first)).
  pose proof (on_hour_step _ _ (hourStart_on_hour to) (hourStart_on_hour (r_Timestamp first)) Hlate).
  rewrite bool_decide_eq_false_2 in Hone by lia. apply length_zero_iff_nil in Hone.
  unfold recordPrefixes, partitionPrefixes, prefixesOf. apply Forall_map, Forall_forall. intros p Hin. cbn beta.
  destruct (has_prefix _ (pt_prefix p)) eqn:E; [|done].
  exfalso. apply (elem_of_nil p). rewrite <-Hone. apply list_elem_of_In, filter_In. by rewrite <-list_elem_of_In.
Qed.
