(* ===== verification/ArchiveState.v ===== *)
(** * ArchiveState: reconstructing an object from an archive

    Models [src/internal/query/objectsource/state.go]: the backward walk over days
    that collects an object's history up to an instant, the rule that lets it stop,
    and the replay of what it found. *)

From S2P Require Import Prelude Calendar HashCache GoJson Diff Replay QueryFilter SinkTypes S3Object ScopeLog Layout Archive ArchiveSpec.

Definition EventDeleted : string := "Deleted".

Inductive stateError :=
| errStateQuery (reason : queryError)
| errStateScan (failure : scanError)
| errNothingFound
| errDeletedBefore (ts : Z)
| errNoBase (changes : nat)
| errReplay (reason : replayError).

Definition replay_row (c : Change) : ReplayRow :=
  mkReplayRow (ch_TS c) (ch_EventType c) (ch_Data c) (ch_Diff c) (ch_SHA256 c).

Definition replayRows (changes : list Change) (uid : string) : list ReplayRow :=
  map replay_row (List.filter (fun c => bool_decide (ch_UID c = uid)) changes).

Definition baseIsSettled (e : Engine) (d : Z) (collected : list Change) (uid : string) : bool :=
  let history := replayRows collected uid in
  match BaseRow history with
  | None => false
  | Some base =>
      match history !! base with
      | Some row => bool_decide (d < dayStart (rr_TS row - en_objectSpan e))%Z
      | None => false
      end
  end.

(** The scan of a reconstruction: one-sided, everything kept. *)
Definition state_scan (ref : ObjectRef) (at_ : Z) : recordScan := mkRecordScan ref None (Some at_) None true false [].

Definition append_changes (changes : list Change) (a : timelineAccumulator) : list Change := changes ++ ta_changes a.

Section state.
Context `{ObjectSource, FrameReader, PatchPaths, Encoders, JsonPatch}.

(** The loop of [walkBack] from [d] down to [earliest]; [fuel] counts the days. *)
Fixpoint walk_days (fuel : nat) (e : Engine) (ref : ObjectRef) (at_ : Z) (uid : string) (earliest d : Z)
    (collected : list Change) (resolved : string) : result scanError (list Change * string) :=
  match fuel with
  | O => Ok (collected, resolved)
  | S fuel =>
      if bool_decide (d < earliest)%Z then Ok (collected, resolved)
      else
        let root := recordsRoot (en_prefix e) (or_ClusterID ref) in
        match scanPartitions acc_zero (scan_decode (state_scan ref at_)) append_changes (en_concurrency e)
                (dayPrefixes root d at_) [] with
        | (_, Some failure) => Err failure
        | (changes, None) =>
            let '(collected, resolved) :=
              if bool_decide (0 < length changes) then
                let collected := stable_sort change_le (collected ++ changes) in
                (collected,
                 if bool_decide (uid = "") then match last collected with Some c => ch_UID c | None => resolved end
                 else resolved)
              else (collected, resolved) in
            if baseIsSettled e d collected resolved then Ok (collected, resolved)
            else walk_days fuel e ref at_ uid earliest (d - day) collected resolved
        end
  end.

Definition walkBack (e : Engine) (ref : ObjectRef) (at_ : Z) (uid : string) : result scanError (list Change * string) :=
  let earliest := dayStart (at_ - en_stateLookback e) in
  let d := dayStart at_ in
  walk_days (Z.to_nat ((d - earliest) / day + 1)) e ref at_ uid earliest d [] uid.

Fixpoint deleted_row (history : list ReplayRow) : option Z :=
  match history with
  | [] => None
  | row :: rest => if bool_decide (rr_EventType row = EventDeleted) then Some (rr_TS row) else deleted_row rest
  end.

(** [None] is the zero instant. *)
Definition StateAt (e : Engine) (ref : ObjectRef) (at_ : option Z) (uid : string) : result stateError Reconstruction :=
  if en_closed e then Err (errStateQuery errEngineClosed)
  else match at_ with
  | None => Err (errStateQuery errZeroInstant)
  | Some at_ =>
      match walkBack e ref at_ uid with
      | Err failure => Err (errStateScan failure)
      | Ok (collected, resolved) =>
          let history := replayRows collected resolved in
          if bool_decide (length history = 0) then Err errNothingFound
          else match deleted_row history with
               | Some ts => Err (errDeletedBefore ts)
               | None =>
                   match BaseRow history with
                   | None => Err (errNoBase (length history))
                   | Some base => match Replay history base with Err e => Err (errReplay e) | Ok r => Ok r end
                   end
               end
      end
  end.
End state.

(** ** The days of the walk are a tiling *)

Lemma hours_loop_tiles fuel root cur last : on_hour cur -> on_hour last ->
  (last + hour - cur <= Z.of_nat fuel * hour)%Z -> exists spans,
  hours_loop fuel root cur last = prefixesOf spans /\ tiles root cur (last + hour) spans.
Proof.
  assert (Hd : (0 < hour)%Z) by (unfold hour, second; lia).
  revert cur. induction fuel as [|fuel IH]; intros cur Hc He Hf; cbn [hours_loop]; [exists []; split; [done|cbn; lia]|].
  case_bool_decide as Hend; [exists []; split; [done|]; cbn; pose proof (on_hour_step last cur He Hc Hend); lia|].
  assert (Hc' : on_hour (cur + hour)) by (rewrite <-(Z.mul_1_l hour) at 1; by apply on_hour_add).
  destruct (IH (cur + hour)%Z Hc' He ltac:(lia)) as (spans & -> & Ht).
  exists (mkPartition (hour_prefix root cur) cur :: spans). split; [done|]. exists (cur, cur + hour)%Z.
  split; [done|]. split; [split; [done|]; by left|]. split; [done|]. split; [|done]. cbn.
  destruct (decide (cur = last)) as [->|]; [lia|]. pose proof (on_hour_step cur last Hc He). lia.
Qed.

(** The hours of a day up to the hour of [through]. *)
Lemma dayPrefixes_tiles root d through : dayStart d = d -> exists spans,
  dayPrefixes root d through = prefixesOf spans /\ tiles root d (Z.min (d + day) (hourStart through + hour)) spans.
Proof.
  intros Hd. unfold dayPrefixes. rewrite Hd. pose proof (hourStart_on_hour through) as Ho.
  assert (Hod : on_hour d) by (rewrite <-Hd; apply dayStart_on_hour).
  assert (Hh : (0 < hour /\ day = 24 * hour)%Z) by (unfold day, hour, second; lia).
  case_bool_decide as Hlt; [exists []; split; [done|]; cbn; pose proof (on_hour_step _ _ Ho Hod Hlt); lia|].
  case_bool_decide as Hlast; cbn [negb].
  - unfold hoursPerDay in Hlast. destruct (hours_loop_tiles (Z.to_nat ((hourStart through - d) / hour + 1)) root d (hourStart through))
      as (spans & He & Ht); [done|done| |].
    { set (x := (hourStart through - d)%Z). assert (Hx : (x `mod` hour = 0)%Z).
      { subst x. unfold on_hour in *. rewrite Zminus_mod, Ho, Hod. done. }
      pose proof (Z.div_mod x hour ltac:(lia)). rewrite Z2Nat.id; [lia|].
      assert (0 <= x / hour)%Z by (apply Z.div_pos; lia). lia. }
    exists spans. split; [done|]. rewrite Z.min_r by lia. done.
  - unfold hoursPerDay in Hlast. exists [mkPartition (day_prefix root d) d]. split; [done|].
    rewrite Z.min_l by lia. exists (d, d + day)%Z. split; [done|]. split; [split; [done|]; by right|].
    split; [done|]. split; [cbn; lia|]. cbn. lia.
Qed.

Lemma tiles_app root a b c l l' : (a <= b)%Z -> tiles root a b l -> tiles root b c l' -> (b <= c)%Z ->
  tiles root a c (l ++ l').
Proof.
  revert a. induction l as [|p l IH]; intros a Hab Hl Hl' Hbc.
  - cbn in Hl. assert (a = b) as -> by lia. done.
  - destruct Hl as (w & Hs & Hw & H1 & H2 & Hl). exists w. split; [done|]. split; [done|]. split; [done|].
    split; [lia|]. apply IH; [|done..]. pose proof (window_positive _ _ _ Hw). lia.
Qed.

(** ** The scan of a day *)

Section clean_state.
Context `{ObjectSource, FrameReader, PatchPaths}.

(** Folding through a projection. *)
Lemma scan_groups_project {A T U} zero (decode : A -> string -> A * option frameError) (f : T -> A -> T) (g : U -> A -> U)
    (h : T -> U) groups t failure : (forall t a, h (f t a) = g (h t) a) ->
  scan_groups zero decode g groups (h t) failure =
  (h (scan_groups zero decode f groups t failure).1, (scan_groups zero decode f groups t failure).2).
Proof.
  intros Hfg. assert (Hfold : forall l t, foldl g (h t) l = h (foldl f t l)).
  { induction l as [|a l IH]; intros t'; cbn; [done|]. by rewrite <-Hfg, IH. }
  revert t failure. induction groups as [|gr groups IH]; intros t failure; cbn [scan_groups]; [done|].
  unfold scanOneGroup. destruct (listObjectKeys gr) as [parts|e]; [|done].
  destruct (fetchObjects _ _ _ _) as [results [cause|]]; rewrite Hfold; [done|]. apply IH.
Qed.

Lemma scan_changes_clean scan n prefixes : (forall group, interrupted group = None) -> n <> 0 ->
  Forall listable prefixes ->
  scanPartitions acc_zero (scan_decode scan) append_changes n prefixes [] =
  (ta_changes (read_all scan prefixes), read_failure scan prefixes).
Proof.
  intros Hcalm Hn Hl. pose proof (forward_clean scan Hcalm n prefixes Hn Hl) as Hf. unfold scanPartitions in *.
  rewrite (scan_groups_project acc_zero _ acc_merge append_changes ta_changes _ acc_zero None) by done. by rewrite Hf.
Qed.
End clean_state.

(** ** Replays depend on the rows from the base on *)

Lemma BaseRow_append low rows :
  BaseRow (low ++ rows) = match BaseRow rows with Some j => Some (length low + j) | None => BaseRow low end.
Proof.
  induction rows as [|row rows IH] using rev_ind; [by rewrite app_nil_r|].
  rewrite app_assoc, !BaseRow_app. case_decide; [|done]. by rewrite length_app.
Qed.

Lemma Replay_append `{Encoders, JsonPatch} low rows j : Replay (low ++ rows) (length low + j) = Replay rows j.
Proof.
  unfold Replay. rewrite lookup_app_r by lia. replace (length low + j - length low) with j by lia.
  replace (S (length low + j)) with (length low + S j) by lia. by rewrite drop_app_add.
Qed.

Lemma stable_sort_id {A} (R : A -> A -> Prop) `{!RelDecision R} l : StronglySorted R l -> stable_sort R l = l.
Proof.
  induction 1 as [|x l Hs IH Hf]; [done|]. cbn [stable_sort foldr]. fold (stable_sort R l). rewrite IH.
  destruct Hf as [|y l Hxy Hf]; [done|]. cbn [insert_before]. by rewrite decide_True.
Qed.

Lemma keep_sorted {A} (R : A -> A -> Prop) f l : StronglySorted R l -> StronglySorted R (List.filter f l).
Proof.
  induction 1 as [|x l Hs IH Hf]; cbn; [constructor|]. destruct (f x); [|done]. constructor; [done|]. by apply keep_Forall.
Qed.

Section walk_back.
Context `{ObjectSource, FrameReader, PatchPaths, Encoders, JsonPatch}.
Context (e : Engine) (ref : ObjectRef) (at_ : Z) (uid : string) (stored : list string).
Hypothesis Hstored : holds_keys stored.
Hypothesis Hconc : en_concurrency e <> 0.

Let root : string := recordsRoot (en_prefix e) (or_ClusterID ref).
Let scan : recordScan := state_scan ref at_.
Let stop : Z := (hourStart at_ + hour)%Z.

(** Everything filed from day [d] on has been collected, and nothing else. *)
Definition gathered (d : Z) (collected : list Change) : Prop :=
  StronglySorted change_le collected /\ exists spans, tiles root d stop spans /\
    collected ≡ₚ ta_changes (read_all scan (prefixesOf spans)).

Definition resolves (collected : list Change) (resolved : string) : Prop :=
  if bool_decide (uid = "") then match last collected with Some c => resolved = ch_UID c | None => resolved = "" end
  else resolved = uid.

Lemma listable_all prefixes : Forall listable prefixes.
Proof. apply Forall_forall. intros p _. destruct (hk_listed _ Hstored p) as (keys & Hk & _). by exists keys. Qed.

Lemma gathered_day d collected : dayStart d = d -> (d <= dayStart at_)%Z -> gathered (d + day) collected ->
  let changes := ta_changes (read_all scan (dayPrefixes root d at_)) in
  gathered d (if bool_decide (0 < length changes) then stable_sort change_le (collected ++ changes) else collected).
Proof.
  intros Hd Hle (Hsort & spans & Ht & Hp) changes.
  destruct (dayPrefixes_tiles root d at_ Hd) as (spans1 & He & Ht1).
  assert (Htiles : tiles root d stop (spans1 ++ spans)).
  { fold stop in Ht1. assert (Hds : (d < stop)%Z) by (subst stop; pose proof (dayStart_bounds at_); pose proof (hourStart_bounds at_); lia).
    destruct (decide (d + day <= stop)%Z) as [Hle'|Hgt].
    - rewrite Z.min_l in Ht1 by done. eapply tiles_app; [|exact Ht1|exact Ht|done]. unfold day, hour, second. lia.
    - rewrite Z.min_r in Ht1 by lia. destruct spans as [|p spans]; [by rewrite app_nil_r|].
      pose proof (tiles_bounds _ _ _ _ Ht ltac:(done)). lia. }
  assert (Hperm : collected ++ changes ≡ₚ ta_changes (read_all scan (prefixesOf (spans1 ++ spans)))).
  { unfold prefixesOf in *. rewrite map_app, read_all_app. cbn. subst changes. rewrite He, <-Hp. apply Permutation_app_comm. }
  case_bool_decide as Hn; split.
  - apply stable_sort_sorted; apply _.
  - exists (spans1 ++ spans). split; [done|]. by rewrite (stable_sort_Permutation change_le).
  - done.
  - exists (spans1 ++ spans). split; [done|]. rewrite <-Hperm. destruct changes; [by rewrite app_nil_r|cbn in Hn; lia].
Qed.

Lemma walk_days_spec fuel earliest d collected resolved collected' resolved' :
  dayStart d = d -> dayStart earliest = earliest -> (d <= dayStart at_)%Z -> (earliest <= d + day)%Z ->
  (d + day - earliest <= Z.of_nat fuel * day)%Z -> gathered (d + day) collected -> resolves collected resolved ->
  walk_days fuel e ref at_ uid earliest d collected resolved = Ok (collected', resolved') ->
  exists d', (earliest <= d')%Z /\ dayStart d' = d' /\ gathered d' collected' /\ resolves collected' resolved' /\
    (d' = earliest \/ baseIsSettled e d' collected' resolved' = true).
Proof.
  assert (Hday : (0 < day)%Z) by (unfold day, hour, second; lia).
  revert d collected resolved. induction fuel as [|fuel IH]; intros d collected resolved Hd He Hle Hed Hf Hg Hr; cbn [walk_days].
  - intros [= <- <-]. exists (d + day)%Z. split; [lia|]. split; [clear -Hd; solve_time|]. split; [done|]. split; [done|]. left. lia.
  - case_bool_decide as Hend.
    + intros [= <- <-]. exists (d + day)%Z. split; [lia|]. split; [clear -Hd; solve_time|]. split; [done|]. split; [done|].
      left. clear -Hd He Hed Hend. solve_time.
    + fold root scan. rewrite scan_changes_clean by (done || apply Hstored || apply listable_all).
      destruct (read_failure _ _); [done|]. pose proof (gathered_day d collected Hd Hle Hg) as Hg'. cbv zeta in Hg'.
      set (changes := ta_changes (read_all scan (dayPrefixes root d at_))) in *.
      set (next := if bool_decide (0 < length changes) then _ else _).
      assert (Hnext : gathered d next.1 /\ resolves next.1 next.2).
      { subst next. case_bool_decide; (split; [exact Hg'|]); [|done]. unfold resolves in *. cbn [fst snd].
        destruct (bool_decide (uid = "")); [|done].
        destruct (last (stable_sort change_le (collected ++ changes))) eqn:El; [done|]. apply last_None in El.
        pose proof (stable_sort_Permutation change_le (collected ++ changes)) as Hp. rewrite El in Hp.
        apply Permutation_nil_l in Hp. destruct changes; [cbn in *; lia|]. by destruct collected. }
      destruct next as [collected1 resolved1]. cbn [fst snd] in Hnext. destruct Hnext as [Hg1 Hr1].
      destruct (baseIsSettled e d collected1 resolved1) eqn:Es.
      * intros [= <- <-]. exists d. split; [lia|]. auto.
      * intros Hw. apply (IH (d - day)%Z collected1 resolved1); try done; [clear -Hd; solve_time|lia|lia|lia|].
        by replace (d - day + day)%Z with d by lia.
Qed.
End walk_back.

(** ** Completing a collected history *)

(** Rows from before the base, wherever they sort in, change nothing. *)
Lemma replay_complete `{Encoders, JsonPatch} old collected resolved base row :
  StronglySorted change_le collected ->
  BaseRow (replayRows collected resolved) = Some base -> replayRows collected resolved !! base = Some row ->
  Forall (fun c => (ch_TS c < rr_TS row)%Z) old ->
  let complete := replayRows (stable_sort change_le (old ++ collected)) resolved in
  exists base', BaseRow complete = Some base' /\ Replay complete base' = Replay (replayRows collected resolved) base.
Proof.
  intros Hs Hb Hrow Hold complete. set (b := rr_TS row) in *.
  set (mine := fun c => bool_decide (ch_UID c = resolved)).
  assert (Hcut : collected = under b collected ++ above b collected).
  { rewrite <-(stable_sort_id change_le collected Hs) at 1. rewrite (sorted_levels b).
    f_equal; apply stable_sort_id; by apply keep_sorted. }
  assert (Hcut' : stable_sort change_le (old ++ collected) = stable_sort change_le (under b (old ++ collected)) ++ above b collected).
  { rewrite (sorted_levels b). fold (under b (old ++ collected)) (above b (old ++ collected)). f_equal.
    rewrite above_app, above_below by done. cbn [app]. apply stable_sort_id. by apply keep_sorted. }
  set (low := map replay_row (List.filter mine (under b collected))).
  set (high := map replay_row (List.filter mine (above b collected))).
  assert (Hrows : replayRows collected resolved = low ++ high).
  { unfold replayRows. fold mine. rewrite Hcut at 1. by rewrite keep_app, map_app. }
  rewrite Hrows in *. rewrite BaseRow_append in Hb.
  destruct (BaseRow high) as [j|] eqn:Ej.
  - injection Hb as <-. rewrite Replay_append. subst complete. unfold replayRows. fold mine. rewrite Hcut', keep_app, map_app.
    fold high. rewrite BaseRow_append, Ej. eexists. split; [done|]. by rewrite Replay_append.
  - exfalso. assert (Hin : row ∈ low).
    { assert (Hlt : base < length low).
      { destruct (BaseRow_Some _ _ Hb) as (r' & Hr' & _). by eapply lookup_lt_Some. }
      rewrite lookup_app_l in Hrow by done. by eapply list_elem_of_lookup_2. }
    apply list_elem_of_fmap in Hin as (c & Hc & Hin). apply list_elem_of_In, filter_In in Hin as [Hin _].
    apply filter_In in Hin as [_ Hin]. apply bool_decide_eq_true in Hin. subst b. rewrite Hc in Hin. cbn in Hin. lia.
Qed.

(** ** What the walk leaves behind *)

Section walked.
Context `{ObjectSource, FrameReader, PatchPaths, Encoders, JsonPatch} (e : Engine) (ref : ObjectRef) (at_ : Z) (uid : string).
Context (stored : list string).
Hypothesis Hconc : en_concurrency e <> 0.
Hypothesis Hlookback : (0 <= en_stateLookback e)%Z.
Hypothesis Hstored : holds_keys stored.

Lemma walkBack_gathers collected resolved : walkBack e ref at_ uid = Ok (collected, resolved) ->
  let earliest := dayStart (at_ - en_stateLookback e) in
  exists d, (earliest <= d)%Z /\ dayStart d = d /\ gathered e ref at_ d collected /\ resolves uid collected resolved /\
    (d = earliest \/ baseIsSettled e d collected resolved = true).
Proof.
  intros Hw earliest. unfold walkBack in Hw. fold earliest in Hw.
  assert (Hday : (0 < day)%Z) by (unfold day, hour, second; lia).
  assert (Hide : dayStart earliest = earliest /\ dayStart (dayStart at_) = dayStart at_) by (subst earliest; clear; split; solve_time).
  assert (Hea : (earliest <= dayStart at_)%Z) by (apply dayStart_mono; lia).
  eapply (walk_days_spec e ref at_ uid stored Hstored Hconc _ earliest (dayStart at_) [] uid); try exact Hw; try (done || tauto || lia).
  - assert (Hm : ((dayStart at_ - earliest) `mod` day = 0)%Z).
    { subst earliest. unfold dayStart. rewrite <-Z.mul_sub_distr_r. apply Z_mod_mult. }
    pose proof (Z.div_mod (dayStart at_ - earliest) day ltac:(lia)).
    assert (0 <= (dayStart at_ - earliest) / day)%Z by (apply Z.div_pos; lia). rewrite Z2Nat.id by lia. lia.
  - split; [constructor|]. exists []. split; [cbn; clear; solve_time|done].
  - unfold resolves. case_bool_decide; done.
Qed.

End walked.

(** What was not read is older than a base one span and a day above the walk. *)
Lemma unread_before_base e at_ d base l : dayStart d = d -> (d < dayStart (base - en_objectSpan e))%Z ->
  (exists ts, ~ (d <= ts < hourStart at_ + hour)%Z /\ (hourStart ts <= ln_Timestamp l <= ts + en_objectSpan e)%Z /\
     in_window None (Some at_) (ln_Timestamp l) = true) -> (ln_Timestamp l < base)%Z.
Proof.
  intros Hdd Hd (ts & Hout & Hin & Hwin). unfold in_window in Hwin. cbn in Hwin. apply negb_true_iff, bool_decide_eq_false in Hwin.
  assert (Hts : (ts < d)%Z).
  { destruct (decide (ts < d)%Z); [done|]. assert (Hge : (hourStart at_ + hour <= ts)%Z) by lia.
    apply hourStart_mono in Hge. rewrite (on_hour_hourStart (hourStart at_ + hour)) in Hge.
    - pose proof (hourStart_bounds at_). lia.
    - rewrite <-(Z.mul_1_l hour) at 1. apply on_hour_add, hourStart_on_hour. }
  assert (Hstep : (d + day <= dayStart (base - en_objectSpan e))%Z) by (clear -Hd Hdd; solve_time).
  pose proof (dayStart_bounds (base - en_objectSpan e)). lia.
Qed.

(** The incarnation resolved from what was collected is the newest of all. *)
Lemma resolves_newest uid collected resolved (lines read unread : list recordLine) row : lines ≡ₚ read ++ unread ->
  resolves uid collected resolved -> StronglySorted change_le collected -> collected ≡ₚ map line_change read ->
  row ∈ replayRows collected resolved -> Forall (fun c => (ch_TS c < rr_TS row)%Z) (map line_change unread) ->
  if bool_decide (uid = "") then exists l, l ∈ lines /\ resolved = ln_UID l /\
    forall l', l' ∈ lines -> (ln_Timestamp l' <= ln_Timestamp l)%Z else resolved = uid.
Proof.
  unfold resolves. intros Hn Hres Hsort Hcol Hrow Hold. case_bool_decide; [|done].
  apply list_elem_of_fmap in Hrow as (cb & -> & Hcb). apply list_elem_of_In, filter_In in Hcb as [Hcb%list_elem_of_In _].
  destruct (last collected) as [c|] eqn:El; [|apply last_None in El; subst; by apply elem_of_nil in Hcb].
  assert (Hmax : forall c', c' ∈ collected -> (ch_TS c' <= ch_TS c)%Z).
  { intros c' Hc'. by apply (sorted_last_max change_le collected c c'). }
  apply last_Some_elem_of in El. rewrite Hcol in El. apply list_elem_of_fmap in El as (l & -> & Hl).
  exists l. rewrite Hn, elem_of_app. split; [by left|]. split; [done|]. intros l'. rewrite Hn. intros [Hl'|Hl']%elem_of_app.
  - apply (Hmax (line_change l')). rewrite Hcol. by apply list_elem_of_fmap_2.
  - rewrite Forall_forall in Hold. specialize (Hold (line_change l') (list_elem_of_fmap_2 _ _ _ Hl')).
    specialize (Hmax cb Hcb). cbn in *. lia.
Qed.
Lemma deleted_row_none history : deleted_row history = None -> forall row, row ∈ history -> rr_EventType row <> EventDeleted.
Proof.
  induction history as [|r history IH]; cbn [deleted_row]; [by intros _ row ?%elem_of_nil|]. case_bool_decide; [done|].
  intros Hn row [->|Hr]%elem_of_cons; [done|by apply IH].
Qed.

(** The walk against the whole history; what it did not read holds no later deletion. *)
Lemma state_whole_history
    `{ObjectSource, FrameReader, PatchPaths, Encoders, JsonPatch} e ref at_ uid stored r :
  en_concurrency e <> 0 -> trim "/"%char (en_prefix e) = en_prefix e ->
  string_mem "/"%char (or_ClusterID ref) = false ->
  representable (dayStart (at_ - en_stateLookback e)) -> representable (hourStart at_ + hour - 1) ->
  (0 <= en_stateLookback e)%Z -> holds_keys stored -> Forall (filed e (or_ClusterID ref)) stored ->
  StateAt e ref (Some at_) uid = Ok r ->
  (dayStart (at_ - en_stateLookback e) < dayStart (rc_BaseTS r - en_objectSpan e))%Z ->
  let lines := named_by (state_scan ref at_) (concat (map key_lines stored)) in
  exists history resolved base,
    StronglySorted change_le history /\ history ≡ₚ map line_change lines /\
    (if bool_decide (uid = "") then exists l, l ∈ lines /\ resolved = ln_UID l /\
       forall l', l' ∈ lines -> (ln_Timestamp l' <= ln_Timestamp l)%Z else resolved = uid) /\
    BaseRow (replayRows history resolved) = Some base /\ Replay (replayRows history resolved) base = Ok r /\
    forall c, c ∈ history -> ch_UID c = resolved -> ch_EventType c = EventDeleted -> (ch_TS c < rc_BaseTS r)%Z.
Proof.
  intros Hc Hp Hcl Hre Hrs Hlb Hs Hfiled Hst Hdeep lines.
  unfold StateAt in Hst. destruct (en_closed e); [done|]. destruct (walkBack _ _ _ _) as [[collected resolved]|] eqn:Hw; [|done].
  case_bool_decide; [done|]. destruct (deleted_row _) eqn:Hdel; [done|]. destruct (BaseRow _) as [base|] eqn:Hb; [|done].
  destruct (Replay _ base) as [r'|] eqn:Hrep; [|done]. injection Hst as ->.
  destruct (BaseRow_Some _ _ Hb) as (row & Hrow & _).
  assert (Hbase : rc_BaseTS r = rr_TS row) by (unfold Replay in Hrep; rewrite Hrow in Hrep; repeat case_match; by simplify_eq/=).
  destruct (walkBack_gathers e ref at_ uid stored Hc Hlb Hs _ _ Hw) as (d & Hed & Hdd & (Hsort & spans & Ht & Hperm) & Hres & Hend).
  assert (Hd : (d < dayStart (rr_TS row - en_objectSpan e))%Z).
  { destruct Hend as [->|Hset]; [by rewrite <-Hbase|]. unfold baseIsSettled in Hset. rewrite Hb, Hrow in Hset.
    by apply bool_decide_eq_true in Hset. }
  assert (Hds : (d < hourStart at_ + hour)%Z).
  { apply (tiles_bounds _ _ _ _ Ht). intros ->. symmetry in Hperm. apply Permutation_nil_l in Hperm. by rewrite <-Hperm in Hrow. }
  destruct (tiled_lines e (or_ClusterID ref)
    (fun l => in_window None (Some at_) (ln_Timestamp l) && namesObject l ref) spans d (hourStart at_ + hour) stored)
    as (unread & Hn & Hu); try done; [unfold representable in *; lia|by intros l [_ ?%namesObject_cluster]%andb_true_iff|].
  change (lines ≡ₚ named_by (state_scan ref at_) (concat (map key_lines (concat (map keys_of (prefixesOf spans))))) ++ unread) in Hn.
  set (read := named_by _ (concat (map key_lines (concat (map keys_of _))))) in Hn.
  assert (Hcol : collected ≡ₚ map line_change read).
  { rewrite Hperm, read_all_lines. rewrite (proj1 (scan_rows (state_scan ref at_) _ eq_refl)). by rewrite keep_all by (by apply Forall_true). }
  assert (Hold : Forall (fun c => (ch_TS c < rr_TS row)%Z) (map line_change unread)).
  { apply Forall_map, Forall_forall. intros l Hl. apply (unread_before_base e at_ d (rr_TS row) l Hdd Hd).
    destruct (Hu l Hl) as (ts & ? & ? & [? _]%andb_true_iff). by exists ts. }
  destruct (replay_complete (map line_change unread) collected resolved base row Hsort Hb Hrow Hold) as (base' & Hb' & Hrep').
  exists (stable_sort change_le (map line_change unread ++ collected)), resolved, base'.
  split; [apply stable_sort_sorted; apply _|]. split.
  { rewrite (stable_sort_Permutation change_le), Hcol, Hn, map_app. apply Permutation_app_comm. }
  split; [|split; [done|split; [congruence|]]].
  2: { intros c. rewrite (stable_sort_Permutation change_le), elem_of_app. intros [Hin|Hin] Huid Hde.
       - rewrite Hbase. rewrite Forall_forall in Hold. by apply Hold.
       - exfalso. apply (deleted_row_none _ Hdel (replay_row c)); [|done]. apply list_elem_of_fmap_2.
         apply list_elem_of_In, filter_In. split; [by apply list_elem_of_In|]. by apply bool_decide_eq_true_2. }
  eapply resolves_newest; [exact Hn|exact Hres|exact Hsort|exact Hcol|by eapply list_elem_of_lookup_2|exact Hold].
Qed.

(** ** Properties *)

(** a reconstruction is a replay of the whole history. Whenever the backward walk
    answers from a base that lies far enough inside the lookback, the answer is the
    replay, from its newest full-state row, of everything the archive recorded of the
    incarnation up to the instant, in time order - although the walk stopped days
    before the beginning, and although a row between the base and the instant may sit
    in an earlier partition than the base does. The incarnation is the one asked for,
    or that of a newest such line. *)
Theorem state_replays_whole_history
    `{ObjectSource, FrameReader, PatchPaths, Encoders, JsonPatch} e ref at_ uid stored r :
  en_concurrency e <> 0 -> trim "/"%char (en_prefix e) = en_prefix e ->
  string_mem "/"%char (or_ClusterID ref) = false ->
  representable (dayStart (at_ - en_stateLookback e)) -> representable (hourStart at_ + hour - 1) ->
  (0 <= en_stateLookback e)%Z -> holds_keys stored -> Forall (filed e (or_ClusterID ref)) stored ->
  StateAt e ref (Some at_) uid = Ok r ->
  (dayStart (at_ - en_stateLookback e) < dayStart (rc_BaseTS r - en_objectSpan e))%Z ->
  let lines := named_by (state_scan ref at_) (concat (map key_lines stored)) in
  exists history resolved base,
    StronglySorted change_le history /\ history ≡ₚ map line_change lines /\
    (if bool_decide (uid = "") then exists l, l ∈ lines /\ resolved = ln_UID l /\
       forall l', l' ∈ lines -> (ln_Timestamp l' <= ln_Timestamp l)%Z else resolved = uid) /\
    BaseRow (replayRows history resolved) = Some base /\ Replay (replayRows history resolved) base = Ok r.
Proof.
  intros Hc Hp Hcl Hre Hrs Hlb Hs Hfiled Hst Hdeep lines.
  destruct (state_whole_history e ref at_ uid stored r Hc Hp Hcl Hre Hrs Hlb Hs Hfiled Hst Hdeep)
    as (history & resolved & base & Hsort & Hperm & Hres & Hb & Hrep & _). by exists history, resolved, base.
Qed.
