(* ===== verification/Blame.v ===== *)
(** * Blame: which change last wrote each field, and what it replaced

    Models [src/internal/cli/replay] - [rows.go], [attribute.go] and [prior.go] - and the
    seeding of an attribution in [src/internal/cli/blame.go]. A run of recorded changes is
    replayed over a reconstructed state; the attribution keeps the last write of every
    pointer, the table has one row per field, and an operation gets the value it
    replaced. Notices are texts. What is third-party or answered elsewhere enters as
    parameters: encoding/json ([AnyCodec], [PatchCodec]), the patch library
    ([JsonPatch]), the read plane's StateAt, and the order in which Go ranges over a
    map. *)

From S2P Require Import Prelude GoJson Diff QueryFilter Replay Pointer Render Archive ArchiveState.

(** ** Rows *)

Record TimelineRow := mkTimelineRow {
  tr_Change : Change;
  tr_Ops : list Op;
  tr_PatchErr : string;
}.

Definition decode_row `{PatchCodec} (change : Change) : TimelineRow :=
  match PatchOps (ch_Diff change) with
  | Ok ops => mkTimelineRow change ops ""
  | Err err => mkTimelineRow change [] err
  end.

Definition DecodeRows `{PatchCodec} (changes : list Change) : list TimelineRow := map decode_row changes.

(** ** Attribution *)

Record fieldWrite := mkFieldWrite {
  fw_ts : Z;
  fw_actors : list string;
  fw_uid : string;
  fw_resourceVersion : string;
  fw_eventType : string;
  fw_removed : bool;
}.

Record fieldEntry := mkFieldEntry { fe_pointer : string; fe_removed : bool }.

(** [at_state] is the nil-able [[]byte]. *)
Record Attribution := mkAttribution {
  at_writes : gmap string fieldWrite;
  at_state : option string;
  at_stale : bool;
  at_Notices : list string;
}.

Definition write_of (change : Change) : fieldWrite :=
  mkFieldWrite (ch_TS change) (ch_Actors change) (ch_UID change) (ch_ResourceVersion change) (ch_EventType change) false.

Definition with_removed (removed : bool) (w : fieldWrite) : fieldWrite :=
  mkFieldWrite (fw_ts w) (fw_actors w) (fw_uid w) (fw_resourceVersion w) (fw_eventType w) removed.

Definition set_write (pointer : string) (w : fieldWrite) (a : Attribution) : Attribution :=
  mkAttribution (<[pointer := w]> (at_writes a)) (at_state a) (at_stale a) (at_Notices a).

Definition add_notice (text : string) (a : Attribution) : Attribution :=
  mkAttribution (at_writes a) (at_state a) (at_stale a) (at_Notices a ++ [text]).

Section attribution.
Context `{AnyCodec, PatchCodec, JsonPatch}.

Definition mustValueAt (document : json) (pointer : string) : json := default JNull (valueAtPointer document pointer).

(** The state as a document; nil when there is none or it will not decode. *)
Definition decoded_state (state : option string) : json :=
  match state with
  | Some text => if bool_decide (text = "") then JNull else default JNull (decode_any text)
  | None => JNull
  end.

Definition recordFullState (data : string) (write : fieldWrite) (a : Attribution) : Attribution :=
  match decode_any data with
  | None => a
  | Some next =>
      let previous := decoded_state (at_state a) in
      let a := foldl (fun a pointer =>
          match valueAtPointer previous pointer with
          | Some before => if bool_decide (before = mustValueAt next pointer) then a else set_write pointer write a
          | None => set_write pointer write a
          end) a (leafPointers next) in
      foldl (fun a pointer =>
          match valueAtPointer next pointer with
          | Some _ => a
          | None => set_write pointer (with_removed true write) a
          end) a (leafPointers previous)
  end.

Variable zone : Zone.

Definition advance (row : TimelineRow) (a : Attribution) : Attribution :=
  let change := tr_Change row in
  if negb (bool_decide (ch_Data change = "")) then mkAttribution (at_writes a) (Some (ch_Data change)) false (at_Notices a)
  else match at_state a with
       | None => a
       | Some state =>
           if at_stale a || bool_decide (ch_Diff change = "") then a
           else
             let failed err :=
               mkAttribution (at_writes a) (at_state a) true
                 (at_Notices a ++ ["the fields listed below are the ones the object held at " +:+ Instant zone (ch_TS change) +:+
                   ": the patch recorded there did not apply to the reconstructed state (" +:+ err +:+
                   "), so anything added or removed after it is missing from the list. The attribution of the fields that are listed is unaffected"]) in
             match DecodePatch (ch_Diff change) with
             | Err err => failed err
             | Ok patch =>
                 match patch_Apply patch state with
                 | Err err => failed err
                 | Ok next => mkAttribution (at_writes a) (Some next) (at_stale a) (at_Notices a)
                 end
             end
       end.

(** [Attribution.record]. *)
Definition record (row : TimelineRow) (a : Attribution) : Attribution :=
  let change := tr_Change row in
  let write := write_of change in
  let a :=
    if negb (bool_decide (tr_PatchErr row = "")) then
      add_notice ("the patch recorded at " +:+ Instant zone (ch_TS change) +:+ " could not be decoded (" +:+ tr_PatchErr row +:+
        "), so the fields it moved are still attributed to whatever wrote them before it") a
    else if bool_decide (0 < length (tr_Ops row)) then
      foldl (fun a op => set_write (ro_Path op) (with_removed (bool_decide (ro_Type op = OpRemove)) write) a) a (tr_Ops row)
    else if negb (bool_decide (ch_Data change = "")) then recordFullState (ch_Data change) write a
    else a in
  advance row a.

Fixpoint attribute_loop (rows : list TimelineRow) (a : Attribution) : Attribution :=
  match rows with
  | [] => a
  | row :: rest =>
      if bool_decide (ch_EventType (tr_Change row) = EventKubernetes) then attribute_loop rest a
      else if bool_decide (ch_EventType (tr_Change row) = EventDeleted) then
        add_notice ("this incarnation was deleted at " +:+ Instant zone (ch_TS (tr_Change row)) +:+
          ", so the fields below are what it held immediately before the deletion rather than what it holds now") a
      else attribute_loop rest (record row a)
  end.

Definition AttributeRun (seed : option string) (rows : list TimelineRow) : Attribution :=
  attribute_loop rows (mkAttribution ∅ seed false []).
End attribution.

(** ** The table *)

(** The pointer and everything above it, ending at the root; each step is shorter. *)
Fixpoint ancestors_upto (fuel : nat) (pointer : string) : list string :=
  pointer ::
  (if bool_decide (pointer = "") then []
   else match fuel with O => [] | S fuel => ancestors_upto fuel (parentPointer pointer) end).
Definition ancestors (pointer : string) : list string := ancestors_upto (String.length pointer) pointer.

Definition removed_at (writes : gmap string fieldWrite) (pointer : string) : bool :=
  match writes !! pointer with Some write => fw_removed write | None => false end.

Definition removedAncestor (writes : gmap string fieldWrite) (pointer : string) : bool :=
  existsb (fun above => negb (bool_decide (above = "")) && removed_at writes above) (ancestors (parentPointer pointer)) ||
  removed_at writes "".

(** [slices.SortFunc] of the standard library: some order of the elements, the sorted
    one when the comparison is a strict weak ordering of them. *)
Class SlicesSort := { SortFunc : forall {A}, (A -> A -> Z) -> list A -> list A }.

(** The order of one range over a map. *)
Class MapRange := { range : gmap string fieldWrite -> list (string * fieldWrite) }.

Record BlameRow := mkBlameRow {
  br_Path : string;
  br_Pointer : string;
  br_Attributed : bool;
  br_TS : Z;
  br_Actors : list string;
  br_UID : string;
  br_ResourceVersion : string;
  br_EventType : string;
  br_Removed : bool;
  br_Fields : nat;
}.

(** The [better] closure of [lastWrite]: the newest so far with its pointer, if any. *)
Definition better (newest : option (string * fieldWrite)) (at_ : string) (candidate : fieldWrite) : bool :=
  match newest with
  | None => true
  | Some (held_at, held) =>
      if bool_decide (fw_ts held < fw_ts candidate)%Z then true
      else bool_decide (fw_ts candidate = fw_ts held) && bool_decide (comparePointers at_ held_at < 0)%Z
  end.

Definition consider (newest : option (string * fieldWrite)) (p : string * fieldWrite) : option (string * fieldWrite) :=
  if better newest p.1 p.2 then Some p else newest.

Section table.
Context `{AnyCodec, MapRange, SlicesSort}.

Definition lastWrite (writes : gmap string fieldWrite) (pointer : string) : option fieldWrite :=
  let up := omap (fun above => pair above <$> writes !! above) (ancestors pointer) in
  let down := List.filter (fun p => has_prefix p.1 (pointer +:+ "/")) (range writes) in
  snd <$> foldl consider (foldl consider None up) down.

Definition entries (a : Attribution) : list fieldEntry :=
  let decoded := match at_state a with
                 | Some text => if bool_decide (text = "") then None else decode_any text
                 | None => None
                 end in
  let known := match decoded with Some _ => true | None => false end in
  let document := default JNull decoded in
  let present := map (fun pointer => mkFieldEntry pointer false) (leafPointers document) in
  let written := List.filter (fun pointer =>
      if removedAncestor (at_writes a) pointer then false
      else match valueAtPointer document pointer with Some _ => false | None => true end) (map fst (range (at_writes a))) in
  present ++ map (fun pointer => mkFieldEntry pointer (known || removed_at (at_writes a) pointer)) (merge_sort String.le written).

Definition applyWrite (writes : gmap string fieldWrite) (pointer : string) (row : BlameRow) : BlameRow :=
  match lastWrite writes pointer with
  | None => row
  | Some write =>
      if br_Attributed row && negb (bool_decide (br_TS row < fw_ts write)%Z) then row
      else mkBlameRow (br_Path row) (br_Pointer row) true (fw_ts write) (fw_actors write) (fw_uid write)
             (fw_resourceVersion write) (fw_eventType write) (br_Removed row) (br_Fields row)
  end.

Definition compareBlameRows (a b : BlameRow) : Z :=
  if br_Attributed a && br_Attributed b && negb (bool_decide (br_TS a = br_TS b)) then
    (if bool_decide (br_TS b < br_TS a)%Z then -1 else 1)
  else if negb (bool_decide (br_Attributed a = br_Attributed b)) then (if br_Attributed a then -1 else 1)
  else comparePointers (br_Pointer a) (br_Pointer b).

Definition new_row (key : string) (removed : bool) : BlameRow :=
  mkBlameRow (DisplayPath key) key false 0 [] "" "" "" removed 1.

Definition joined_row (removed : bool) (row : BlameRow) : BlameRow :=
  mkBlameRow (br_Path row) (br_Pointer row) (br_Attributed row) (br_TS row) (br_Actors row) (br_UID row)
    (br_ResourceVersion row) (br_EventType row) (br_Removed row && removed) (S (br_Fields row)).

(** One turn of the loop of [BlameRows], over the rows and the index by key. *)
Definition blame_entry (writes : gmap string fieldWrite) (fields : list string) (depth : Z)
    (acc : list BlameRow * gmap string nat) (entry : fieldEntry) : list BlameRow * gmap string nat :=
  let '(rows, index) := acc in
  if negb (MatchesFieldPath (fe_pointer entry) fields) then acc
  else
    let key := collapseTo (fe_pointer entry) depth in
    let '(rows, index, at_) :=
      match index !! key with
      | None => (rows ++ [new_row key (fe_removed entry)], <[key := length rows]> index, length rows)
      | Some i => (alter (joined_row (fe_removed entry)) i rows, index, i)
      end in
    (alter (applyWrite writes (fe_pointer entry)) at_ rows, index).

Definition BlameRows (a : Attribution) (fields : list string) (depth : Z) : list BlameRow :=
  SortFunc compareBlameRows (foldl (blame_entry (at_writes a) fields depth) ([], ∅) (entries a)).1.
End table.

(** ** The values operations replaced *)

(** A failed reconstruction, as [errors.Is] sees it. *)
Inductive stateFailure := CapabilityUnsupported (text : string) | ObjectNotFound (text : string) | OtherFailure (text : string).

Definition failure_text (f : stateFailure) : string :=
  match f with CapabilityUnsupported t | ObjectNotFound t | OtherFailure t => t end.

Definition DescribeStateFailure (err : stateFailure) : string :=
  match err with
  | CapabilityUnsupported _ => "this backend cannot reconstruct state"
  | ObjectNotFound _ => "no full-state row survives before the oldest change shown, so there is nothing to replay from"
  | OtherFailure text => text
  end.

Definition needsPriorValue (op : Op) : bool :=
  bool_decide (ro_Type op = OpReplace) || bool_decide (ro_Type op = OpRemove).

(** One run of positions per UID, in the order of first appearance. The rows are shared:
    a group names the positions of its rows in the caller's slice. *)
Fixpoint group_position (uid : string) (i : nat) (groups : list (string * list nat)) : list (string * list nat) :=
  match groups with
  | [] => [(uid, [i])]
  | (u, positions) :: rest =>
      if bool_decide (u = uid) then (u, positions ++ [i]) :: rest else (u, positions) :: group_position uid i rest
  end.

Definition group_row (acc : list (string * list nat)) (p : nat * TimelineRow) : list (string * list nat) :=
  if bool_decide (ch_EventType (tr_Change p.2) = EventKubernetes) then acc
  else group_position (ch_UID (tr_Change p.2)) p.1 acc.

Definition byIncarnation (rows : list TimelineRow) : list (list nat) :=
  map snd (foldl group_row [] (imap pair rows)).

Definition row_at (rows : list TimelineRow) (i : nat) : TimelineRow :=
  default (mkTimelineRow (mkChange 0 "" [] "" "" "" "" "" "" ∅) [] "") (rows !! i).

(** The index within the group of the first row that destroyed a value. *)
Fixpoint first_needing (rows : list TimelineRow) (group : list nat) (i : nat) : option nat :=
  match group with
  | [] => None
  | position :: rest =>
      if existsb needsPriorValue (tr_Ops (row_at rows position)) then Some i else first_needing rows rest (S i)
  end.
Definition firstNeedingPriorValue (rows : list TimelineRow) (group : list nat) : option nat := first_needing rows group 0.

Section prior.
Context `{Encoders, AnyCodec, JsonPatch}.
(** [engine.StateAt] for the object asked about. *)
Variable state_at : Z -> string -> result stateFailure Reconstruction.
Variable zone : Zone.

(** The last full-state row of the group's first [n]. *)
Fixpoint seed_row (rows : list TimelineRow) (group : list nat) (n : nat) : option (string * nat) :=
  match n with
  | O => None
  | S i =>
      match group !! i with
      | Some position =>
          let data := ch_Data (tr_Change (row_at rows position)) in
          if negb (bool_decide (data = "")) then Some (data, S i) else seed_row rows group i
      | None => seed_row rows group i
      end
  end.

Definition seedState (rows : list TimelineRow) (group : list nat) (first : nat) : result string (string * nat) :=
  match seed_row rows group first with
  | Some seeded => Ok seeded
  | None =>
      let oldest := tr_Change (row_at rows (default 0 (group !! 0))) in
      match state_at (ch_TS oldest - 1) (ch_UID oldest) with
      | Err err => Err (DescribeStateFailure err)
      | Ok reconstruction =>
          match json_marshal (rc_Object reconstruction) with
          | Some encoded => Ok (encoded, 0)
          | None => Err "the reconstructed state could not be re-encoded"
          end
      end
  end.

Definition advanceState (state : string) (change : Change) : result string string :=
  if negb (bool_decide (ch_Data change = "")) then Ok (ch_Data change)
  else if bool_decide (ch_Diff change = "") then Ok state
  else match DecodePatch (ch_Diff change) with
       | Err err => Err ("the patch recorded there could not be decoded: " +:+ err)
       | Ok patch =>
           match patch_Apply patch state with
           | Err err => Err ("the patch recorded there did not apply to the reconstructed state: " +:+ err)
           | Ok next => Ok next
           end
       end.

Definition fill_op (document : json) (op : Op) : Op :=
  if needsPriorValue op then
    match valueAtPointer document (ro_Path op) with
    | Some value => mkOp (ro_Type op) (ro_Path op) (ro_From op) (ro_Value op) value true
    | None => op
    end
  else op.

Definition fillOldValues (state : string) (ops : list Op) : list Op :=
  if negb (existsb needsPriorValue ops) then ops
  else match decode_any state with
       | None => ops
       | Some document => map (fill_op document) ops
       end.

Definition fill_row (state : string) (row : TimelineRow) : TimelineRow :=
  mkTimelineRow (tr_Change row) (fillOldValues state (tr_Ops row)) (tr_PatchErr row).

(** The loop over the group's rows, writing into the shared ones. *)
Fixpoint replay_group (rows : list TimelineRow) (group : list nat) (state : string) : list TimelineRow * option string :=
  match group with
  | [] => (rows, None)
  | position :: rest =>
      let change := tr_Change (row_at rows position) in
      let rows := alter (fill_row state) position rows in
      match advanceState state change with
      | Err err => (rows, Some ("prior values stop at " +:+ Instant zone (ch_TS change) +:+ ": " +:+ err +:+
                                ". Rows after it show the new value only"))
      | Ok next => replay_group rows rest next
      end
  end.

Definition replayGroup (rows : list TimelineRow) (group : list nat) : list TimelineRow * option string :=
  match firstNeedingPriorValue rows group with
  | None => (rows, None)
  | Some first =>
      match seedState rows group first with
      | Err err => (rows, Some ("prior values are not shown: " +:+ err +:+
                      ". The new value of each change is still exact; only the value it replaced is missing"))
      | Ok (state, start) => replay_group rows (drop start group) state
      end
  end.

Fixpoint prior_groups (rows : list TimelineRow) (groups : list (list nat)) : list TimelineRow * list string :=
  match groups with
  | [] => (rows, [])
  | group :: rest =>
      let '(rows, notice) := replayGroup rows group in
      let '(rows, notices) := prior_groups rows rest in
      (rows, match notice with Some text => text :: notices | None => notices end)
  end.

Definition PriorValues (rows : list TimelineRow) : list TimelineRow * list string := prior_groups rows (byIncarnation rows).
End prior.

(** ** Seeding an attribution (blame.go) *)

Definition EventAdded : string := "Added".
Definition BeforeWindow : string := "(before window)".

Definition patchWord (count : Z) : string := if bool_decide (count = 1)%Z then "patch" else "patches".

Section seeding.
Context `{Encoders}.
Variable zone : Zone.

Definition describeBase (reconstruction : Reconstruction) : string :=
  let base := Instant zone (rc_BaseTS reconstruction) +:+ " (" +:+ rc_BaseEvent reconstruction +:+ ")" in
  if bool_decide (rc_PatchesApplied reconstruction = 0)%Z then base
  else base +:+ " plus " +:+ pretty.pretty (rc_PatchesApplied reconstruction) +:+ " " +:+ patchWord (rc_PatchesApplied reconstruction).

(** The seed, the header's sentence and a notice. *)
Definition fallbackSeed (ascending : list TimelineRow) (err : stateFailure) : option string * string * option string :=
  match List.find (fun row => negb (bool_decide (ch_Data (tr_Change row) = ""))) ascending with
  | Some row =>
      let change := tr_Change row in
      (Some (ch_Data change), Instant zone (ch_TS change) +:+ " (" +:+ ch_EventType change +:+ "), the oldest full state in this window",
       Some ("no state survives from before this window (" +:+ DescribeStateFailure err +:+
             "), so the fields the changes below did not touch are shown as " +:+ BeforeWindow +:+ " rather than attributed"))
  | None =>
      (None, "not established",
       Some ("the object's state could not be established (" +:+ DescribeStateFailure err +:+
             "), so only the fields the changes in this window wrote are listed; the rest of the object is missing from the table rather than shown as "
             +:+ BeforeWindow))
  end.

(** [to] and [now] are the window's end and the invocation's clock, unset as [None]. *)
Definition blameAnchor (to now : option Z) (clock : Z) (ascending : list TimelineRow) : Z :=
  match ascending with
  | row :: _ => (ch_TS (tr_Change row) - 1)%Z
  | [] => match to with
          | Some t => t
          | None => match now with Some t => t | None => clock end
          end
  end.

Definition seedBlameState (state_at : Z -> string -> result stateFailure Reconstruction) (to now : option Z) (clock : Z)
    (uid : string) (ascending : list TimelineRow) : option string * string * option string :=
  let reconstruct :=
    match state_at (blameAnchor to now clock ascending) uid with
    | Err err => fallbackSeed ascending err
    | Ok reconstruction =>
        match json_marshal (rc_Object reconstruction) with
        | None => fallbackSeed ascending (OtherFailure "encoding the reconstructed state")
        | Some encoded => (Some encoded, describeBase reconstruction, None)
        end
    end in
  match ascending with
  | row :: _ =>
      if bool_decide (ch_EventType (tr_Change row) = EventAdded)
      then (None, Instant zone (ch_TS (tr_Change row)) +:+ " (" +:+ EventAdded +:+ "), this incarnation's first sighting", None)
      else reconstruct
  | [] => reconstruct
  end.
End seeding.
