(* ===== verification/BlameSpec.v ===== *)
(** * BlameSpec: what an attribution and its arrows say

    The theorems on [Blame]: a field is attributed to the newest change that wrote it,
    something above it or something beneath it; the table partitions the fields it
    shows; and the value an arrow starts from is the one the read plane's reconstruction
    gives for the instant before the change. *)

From stdpp Require Import sorting.
From S2P Require Import Prelude GoJson Diff QueryFilter Replay Pointer Render Archive ArchiveState Blame.

(** ** The log of a run *)

Section log.
Context `{AnyCodec, PatchCodec, JsonPatch}.

(** What one change wrote, given the document before it: the paths of its patch, or the
    leaves in which the full state it carries differs; each with whether it was
    removed. *)
Definition wrote (row : TimelineRow) (previous : json) : list (string * bool) :=
  if negb (bool_decide (tr_PatchErr row = "")) then []
  else if bool_decide (0 < length (tr_Ops row)) then map (fun op => (ro_Path op, bool_decide (ro_Type op = OpRemove))) (tr_Ops row)
  else if bool_decide (ch_Data (tr_Change row) = "") then []
  else match decode_any (ch_Data (tr_Change row)) with
       | None => []
       | Some next =>
           map (fun p => (p, false)) (List.filter (fun p => negb (bool_decide (valueAtPointer previous p = Some (mustValueAt next p)))) (leafPointers next)) ++
           map (fun p => (p, true)) (List.filter (fun p => bool_decide (valueAtPointer next p = None)) (leafPointers previous))
       end.

(** A write with the columns of its change. *)
Definition logged (change : Change) (p : string * bool) : string * fieldWrite := (p.1, with_removed p.2 (write_of change)).

Variable zone : Zone.

(** The writes of a run in order: Events write nothing, and a deletion ends it. *)
Fixpoint run_log (rows : list TimelineRow) (a : Attribution) : list (string * fieldWrite) :=
  match rows with
  | [] => []
  | row :: rest =>
      if bool_decide (ch_EventType (tr_Change row) = EventKubernetes) then run_log rest a
      else if bool_decide (ch_EventType (tr_Change row) = EventDeleted) then []
      else map (logged (tr_Change row)) (wrote row (decoded_state (at_state a))) ++ run_log rest (record zone row a)
  end.

Definition attribution_log (seed : option string) (rows : list TimelineRow) : list (string * fieldWrite) :=
  run_log rows (mkAttribution ∅ seed false []).

Definition insert_all (writes : gmap string fieldWrite) (log : list (string * fieldWrite)) : gmap string fieldWrite :=
  foldl (fun m p => <[p.1 := p.2]> m) writes log.

Lemma set_writes_fold {A} (f : A -> option (string * fieldWrite)) (l : list A) a :
  let a' := foldl (fun a x => match f x with Some p => set_write p.1 p.2 a | None => a end) a l in
  at_writes a' = insert_all (at_writes a) (omap f l) /\ at_state a' = at_state a.
Proof.
  revert a. induction l as [|x l IH]; intros a; [done|]. simpl. destruct (f x) as [p|].
  - destruct (IH (set_write p.1 p.2 a)) as [-> ->]. done.
  - destruct (IH a) as [-> ->]. done.
Qed.

Lemma foldl_ext {A B} (f g : B -> A -> B) l b : (forall b x, f b x = g b x) -> foldl f b l = foldl g b l.
Proof. intros E. revert b. induction l as [|x l IH]; intros b; [done|]. simpl. by rewrite E, IH. Qed.

Lemma omap_filter {A B} (p : A -> bool) (g : A -> B) l :
  omap (fun x => if p x then Some (g x) else None) l = map g (List.filter p l).
Proof. induction l as [|x l IH]; [done|]. rewrite omap_step. cbn [List.filter]. destruct (p x); cbn [map]; by rewrite IH. Qed.

Lemma insert_all_app m l l' : insert_all m (l ++ l') = insert_all (insert_all m l) l'.
Proof. apply foldl_app. Qed.

Lemma recordFullState_writes data next change a : decode_any data = Some next ->
  let previous := decoded_state (at_state a) in
  at_writes (recordFullState data (write_of change) a) = insert_all (at_writes a) (map (logged change)
    (map (fun p => (p, false)) (List.filter (fun p => negb (bool_decide (valueAtPointer previous p = Some (mustValueAt next p)))) (leafPointers next)) ++
     map (fun p => (p, true)) (List.filter (fun p => bool_decide (valueAtPointer next p = None)) (leafPointers previous)))).
Proof.
  intros Hd previous. unfold recordFullState. rewrite Hd. fold previous.
  set (f := fun p => if negb (bool_decide (valueAtPointer previous p = Some (mustValueAt next p))) then Some (logged change (p, false)) else None).
  set (g := fun p => if bool_decide (valueAtPointer next p = None) then Some (logged change (p, true)) else None).
  match goal with |- context [foldl ?h a (leafPointers next)] =>
    rewrite (foldl_ext h (fun a x => match f x with Some p => set_write p.1 p.2 a | None => a end) (leafPointers next) a) end.
  - destruct (set_writes_fold f (leafPointers next) a) as [Hf _]. revert Hf.
    generalize (foldl (fun a x => match f x with Some p => set_write p.1 p.2 a | None => a end) a (leafPointers next)). intros a' Hf.
    rewrite (foldl_ext _ (fun a x => match g x with Some p => set_write p.1 p.2 a | None => a end)) by
      (intros b x; unfold g; by destruct (valueAtPointer next x)).
    destruct (set_writes_fold g (leafPointers previous) a') as [-> _]. rewrite Hf.
    unfold f, g. rewrite !omap_filter, map_app, !map_map. by rewrite insert_all_app.
  - intros b x. unfold f. destruct (valueAtPointer previous x) as [v|]; [|by rewrite bool_decide_eq_false_2].
    by repeat case_bool_decide; simplify_eq/=.
Qed.

Lemma advance_writes row a : at_writes (advance zone row a) = at_writes a.
Proof. unfold advance. by repeat case_match. Qed.

Lemma record_writes row a :
  at_writes (record zone row a) = insert_all (at_writes a) (map (logged (tr_Change row)) (wrote row (decoded_state (at_state a)))).
Proof.
  unfold record, wrote. cbv zeta. rewrite advance_writes. destruct (bool_decide (tr_PatchErr row = "")); simpl; [|done].
  destruct (bool_decide (0 < length (tr_Ops row))).
  - generalize (tr_Ops row). intros ops. revert a. induction ops as [|op ops IH]; intros a; [done|]. simpl. apply IH.
  - destruct (bool_decide (ch_Data (tr_Change row) = "")); simpl; [done|].
    destruct (decode_any (ch_Data (tr_Change row))) as [next|] eqn:Ed; [|unfold recordFullState; by rewrite Ed].
    by apply recordFullState_writes.
Qed.

(** The attribution keeps the last entry of the log for every pointer. *)
Lemma attribute_writes rows a : at_writes (attribute_loop zone rows a) = insert_all (at_writes a) (run_log rows a).
Proof.
  revert a. induction rows as [|row rows IH]; intros a; [done|]. cbn [attribute_loop run_log].
  case_bool_decide; [apply IH|]. case_bool_decide; [done|]. by rewrite insert_all_app, <-record_writes, IH.
Qed.

Lemma run_log_ts rows a q w : (q, w) ∈ run_log rows a -> exists row, row ∈ rows /\ fw_ts w = ch_TS (tr_Change row).
Proof.
  revert a. induction rows as [|row rows IH]; intros a; cbn [run_log]; [by intros ?%not_elem_of_nil|].
  case_bool_decide; [intros (r & Hr & ?)%IH; exists r; split; [by right|done]|].
  case_bool_decide; [by intros ?%not_elem_of_nil|]. rewrite elem_of_app. intros [Hm|(r & Hr & ?)%IH].
  - apply list_elem_of_fmap in Hm as (p & [= -> ->] & _). exists row. split; [by left|done].
  - exists r. split; [by right|done].
Qed.

Definition not_later (x y : string * fieldWrite) : Prop := (fw_ts x.2 <= fw_ts y.2)%Z.

Lemma run_log_ascending rows a : StronglySorted (fun r r' => (ch_TS (tr_Change r) <= ch_TS (tr_Change r'))%Z) rows ->
  StronglySorted not_later (run_log rows a).
Proof.
  intros Hs. revert a. induction Hs as [|row rows Hs IH Hf]; intros a; cbn [run_log]; [constructor|].
  case_bool_decide; [done|]. case_bool_decide; [constructor|]. rewrite Forall_forall in Hf.
  induction (wrote row (decoded_state (at_state a))) as [|p ps IHp]; simpl; [apply IH|]. constructor; [exact IHp|].
  apply Forall_app. split.
  - apply Forall_forall. intros x (p' & -> & _)%list_elem_of_fmap. unfold not_later. simpl. lia.
  - apply Forall_forall. intros [q w] (r & Hr & Hts)%run_log_ts. unfold not_later. simpl. rewrite Hts. by apply Hf.
Qed.

Lemma insert_all_lookup log q : StronglySorted not_later log ->
  match insert_all ∅ log !! q with
  | Some w => (q, w) ∈ log /\ forall w', (q, w') ∈ log -> (fw_ts w' <= fw_ts w)%Z
  | None => forall w, (q, w) ∉ log
  end.
Proof.
  induction log as [|[q' w] log IH] using rev_ind; intros Hs; [unfold insert_all; simpl; rewrite lookup_empty; intros w; apply not_elem_of_nil|].
  apply StronglySorted_app in Hs as (Hall & Hs & _). unfold insert_all. rewrite foldl_snoc. fold (insert_all ∅ log). simpl.
  specialize (IH Hs). assert (Hin : forall x, (x ∈ log ++ [(q', w)]) <-> x ∈ log \/ x = (q', w)).
  { intros x. by rewrite elem_of_app, list_elem_of_singleton. }
  destruct (decide (q' = q)) as [->|Hne].
  - rewrite lookup_insert_eq. split; [apply Hin; by right|]. intros w' [Hw|[= ->]]%Hin; [|done].
    specialize (Hall (q, w') (q, w) Hw). apply Hall. by left.
  - rewrite lookup_insert_ne by done. destruct (insert_all ∅ log !! q) as [w'|].
    + destruct IH as [Hq Hmax]. split; [apply Hin; by left|]. intros w'' [Hw|[= <- _]]%Hin; [by apply Hmax|done].
    + intros w' [Hw|[= <- _]]%Hin; [by apply (IH w')|done].
Qed.
End log.

(** ** The newest write *)

(** The pointer addresses the same node, one above it or one beneath it. *)
Definition related (q p : string) : Prop :=
  pointerTokens q `prefix_of` pointerTokens p \/ pointerTokens p `prefix_of` pointerTokens q.

Lemma pointer_length tokens : length tokens <= String.length (pointer_of tokens).
Proof.
  induction tokens as [|t tokens IH]; [done|]. change (pointer_of (t :: tokens)) with (String "/" (t +:+ pointer_of tokens)).
  cbn [String.length length]. rewrite string_length_app. lia.
Qed.

Lemma prefix_snoc {A} (us ts : list A) t : us `prefix_of` ts ++ [t] -> us = ts ++ [t] \/ us `prefix_of` ts.
Proof.
  intros [rest E]. destruct rest as [|x rest _] using rev_ind; [left; by rewrite app_nil_r in E|].
  right. rewrite app_assoc in E. apply app_inj_tail in E as [-> _]. by exists rest.
Qed.

Lemma ancestors_upto_elem fuel tokens q : length tokens <= fuel -> Forall slash_free tokens ->
  q ∈ ancestors_upto fuel (pointer_of tokens) <-> exists us, us `prefix_of` tokens /\ q = pointer_of us.
Proof.
  revert fuel. induction tokens as [|t tokens IH] using rev_ind; intros fuel Hl Hf.
  - assert (E : ancestors_upto fuel (pointer_of []) = [""]) by (by destruct fuel). rewrite E, list_elem_of_singleton. split.
    + intros ->. by exists [].
    + intros (us & ->%prefix_nil_inv & ->). done.
  - apply Forall_app in Hf as [Hf [Ht _]%Forall_cons]. rewrite length_app in Hl. simpl in Hl. destruct fuel as [|fuel]; [lia|].
    cbn [ancestors_upto]. rewrite bool_decide_eq_false_2 by (rewrite pointer_of_snoc; by destruct (pointer_of tokens)).
    rewrite parent_of_snoc, elem_of_cons, IH by (done || lia). split.
    + intros [->|(us & Hp & ->)]; [by exists (tokens ++ [t])|]. exists us. split; [by apply prefix_app_r|done].
    + intros (us & Hp & ->). apply prefix_snoc in Hp as [->|Hp]; [by left|]. right. by exists us.
Qed.

Lemma ancestors_elem p q : is_pointer p -> is_pointer q -> q ∈ ancestors p <-> pointerTokens q `prefix_of` pointerTokens p.
Proof.
  intros (ts & Ht & ->) (us & Hu & ->). unfold ancestors. rewrite ancestors_upto_elem by (done || apply pointer_length).
  rewrite !pointerTokens_of by done. split; [|by exists us]. intros (us' & Hp & E).
  apply pointer_of_inj in E as ->; [done..|]. destruct Hp as [rest ->]. by apply Forall_app in Ht as [Ht _].
Qed.

Lemma beneath_elem p q : is_pointer p -> is_pointer q ->
  has_prefix q (p +:+ "/") = true <-> pointerTokens p `prefix_of` pointerTokens q /\ pointerTokens p <> pointerTokens q.
Proof. intros (ts & Ht & ->) (us & Hu & ->). rewrite pointer_beneath, !pointerTokens_of by done. done. Qed.

Lemma consider_spec l acc :
  match foldl consider acc l with
  | Some x => (x ∈ l \/ acc = Some x) /\ (forall y, y ∈ l -> (fw_ts y.2 <= fw_ts x.2)%Z) /\
              (forall y, acc = Some y -> (fw_ts y.2 <= fw_ts x.2)%Z)
  | None => l = [] /\ acc = None
  end.
Proof.
  revert acc. induction l as [|x l IH]; intros acc; cbn [foldl].
  - destruct acc as [y|]; [|done]. split_and!; [by right|by intros ? ?%not_elem_of_nil|by intros ? [= ->]].
  - specialize (IH (consider acc x)).
    assert (Hc : exists y, consider acc x = Some y /\ (y = x \/ acc = Some y) /\ (fw_ts x.2 <= fw_ts y.2)%Z /\
              (forall z, acc = Some z -> (fw_ts z.2 <= fw_ts y.2)%Z)).
    { unfold consider, better. destruct acc as [[p w]|]; [|exists x; split_and!; [done|by left|done|done]].
      destruct (bool_decide_reflect (fw_ts w < fw_ts x.2)%Z).
      - exists x. split_and!; [done|by left|done|]. intros z [= <-]. simpl. lia.
      - destruct (_ && _) eqn:E.
        + apply andb_true_iff in E as [E%bool_decide_eq_true _]. exists x. split_and!; [done|by left|done|]. intros z [= <-]. simpl. lia.
        + exists (p, w). split_and!; [done|by right|simpl; lia|]. by intros z [= <-]. }
    destruct Hc as (y & Ey & Hor & Hx & Hacc). rewrite Ey in IH |- *. destruct (foldl consider (Some y) l) as [z|]; [|naive_solver].
    destruct IH as (Hz & Hl & Hy). specialize (Hy y eq_refl). split_and!.
    + destruct Hz as [Hz|[= <-]]; [left; by right|]. destruct Hor as [->|Hor]; [left; by left|by right].
    + intros v [->|Hv]%elem_of_cons; [lia|by apply Hl].
    + intros v Hv. specialize (Hacc v Hv). lia.
Qed.

Class MapRangeLaws `{MapRange} := { range_all : forall m, range m ≡ₚ map_to_list m }.

Lemma lastWrite_spec `{MapRangeLaws} writes p :
  is_pointer p -> (forall q w, writes !! q = Some w -> is_pointer q) ->
  match lastWrite writes p with
  | Some w => exists q, writes !! q = Some w /\ related q p /\
                forall q' w', writes !! q' = Some w' -> related q' p -> (fw_ts w' <= fw_ts w)%Z
  | None => forall q w, writes !! q = Some w -> ~ related q p
  end.
Proof.
  intros Hp Hw. unfold lastWrite. rewrite <-foldl_app. set (l := _ ++ _).
  assert (Hl : forall q w, (q, w) ∈ l <-> writes !! q = Some w /\ related q p).
  { intros q w. unfold l. rewrite elem_of_app, list_elem_of_omap. split.
    - intros [(above & Ha & Hq)|Hq].
      + apply fmap_Some in Hq as (w' & Hl & [= -> ->]). split; [done|]. left. apply ancestors_elem; [done|by eapply Hw|done].
      + apply list_elem_of_In, filter_In in Hq as [Hq%list_elem_of_In Hb]. rewrite range_all in Hq. apply elem_of_map_to_list in Hq.
        split; [done|]. right. by apply beneath_elem in Hb as [Hb _]; [|done|by eapply Hw].
    - intros [Hq Hr]. assert (Hqp : is_pointer q) by (by eapply Hw).
      destruct (decide (pointerTokens q `prefix_of` pointerTokens p)) as [Hpre|Hpre].
      + left. exists q. split; [by apply ancestors_elem|]. by rewrite Hq.
      + right. destruct Hr as [Hr|Hr]; [done|]. apply list_elem_of_In, filter_In. split.
        * apply list_elem_of_In. rewrite range_all. by apply elem_of_map_to_list.
        * apply beneath_elem; [done|done|]. split; [done|]. intros E. apply Hpre. by rewrite E. }
  pose proof (consider_spec l None) as Hc. destruct (foldl consider None l) as [[q w]|]; simpl.
  - destruct Hc as ([Hin|] & Hmax & _); [|done]. apply Hl in Hin as [Hq Hr]. exists q. split_and!; [done..|].
    intros q' w' Hq' Hr'. apply (Hmax (q', w')). by apply Hl.
  - destruct Hc as [Hnil _]. intros q w Hq Hr. assert (Hin : (q, w) ∈ l) by (by apply Hl). rewrite Hnil in Hin. by apply not_elem_of_nil in Hin.
Qed.

(** Every path a patch of the run names is a pointer. *)
Definition pointers_ok (rows : list TimelineRow) : Prop := forall row op, row ∈ rows -> op ∈ tr_Ops row -> is_pointer (ro_Path op).

Lemma leaf_is_pointer document p : p ∈ leafPointers document -> is_pointer p.
Proof.
  intros Hp. destruct (decide (document = JNull)) as [->|Hn]; [by apply not_elem_of_nil in Hp|].
  apply leafPointers_spec in Hp as (names & w & _ & _ & ->); [|done]. exists (map escape names). split; [apply escape_slash_free|done].
Qed.

Lemma run_log_pointers `{AnyCodec, PatchCodec, JsonPatch} zone rows a q w : pointers_ok rows -> (q, w) ∈ run_log zone rows a -> is_pointer q.
Proof.
  revert a. induction rows as [|row rows IH]; intros a Hok; cbn [run_log]; [by intros ?%not_elem_of_nil|].
  assert (Hok' : pointers_ok rows) by (intros r op Hr; apply Hok; by right).
  case_bool_decide; [by apply IH|]. case_bool_decide; [by intros ?%not_elem_of_nil|]. rewrite elem_of_app. intros [Hm|Hm]; [|by eapply IH].
  apply list_elem_of_fmap in Hm as (p & [= -> _] & Hp). revert Hp. unfold wrote.
  case_match; [by intros ?%not_elem_of_nil|]. case_match.
  { intros (op & -> & Ho)%list_elem_of_fmap. apply (Hok row); [by left|done]. }
  case_match; [by intros ?%not_elem_of_nil|]. case_match; [|by intros ?%not_elem_of_nil].
  rewrite elem_of_app. intros [(x & -> & Hx)%list_elem_of_fmap|(x & -> & Hx)%list_elem_of_fmap];
    apply list_elem_of_In, filter_In in Hx as [Hx%list_elem_of_In _]; by eapply leaf_is_pointer.
Qed.

(** C20: a field is attributed to the newest change that wrote it. For a run in the order
    it happened and any field, the attribution finds a write exactly when some change of
    the run - before a deletion, Events aside - wrote that field, something above it or
    something beneath it, whether by a patch or by a full state that differs there; and
    the write it names is one of those, with no other of them later. The order in which
    Go ranges over the writes makes no difference to this. *)
Theorem blame_names_newest `{AnyCodec, PatchCodec, JsonPatch, MapRangeLaws} zone seed rows p :
  StronglySorted (fun r r' => (ch_TS (tr_Change r) <= ch_TS (tr_Change r'))%Z) rows ->
  pointers_ok rows -> is_pointer p ->
  let log := attribution_log zone seed rows in
  match lastWrite (at_writes (AttributeRun zone seed rows)) p with
  | Some w => exists q, (q, w) ∈ log /\ related q p /\
                forall q' w', (q', w') ∈ log -> related q' p -> (fw_ts w' <= fw_ts w)%Z
  | None => forall q w, (q, w) ∈ log -> ~ related q p
  end.
Proof.
  intros Hs Hok Hp log. unfold AttributeRun. rewrite attribute_writes. fold (attribution_log zone seed rows). fold log. simpl.
  assert (Hlog : StronglySorted not_later log) by (by apply run_log_ascending).
  pose proof (lastWrite_spec (insert_all ∅ log) p Hp) as Hlast.
  destruct (lastWrite (insert_all ∅ log) p) as [w|].
  - destruct Hlast as (q & Hq & Hr & Hmax).
    { intros q w' Hq. pose proof (insert_all_lookup log q Hlog) as Hl. rewrite Hq in Hl. destruct Hl as [Hl _]. by eapply run_log_pointers. }
    pose proof (insert_all_lookup log q Hlog) as Hl. rewrite Hq in Hl. exists q. split_and!; [by apply Hl|done|].
    intros q' w' Hw' Hr'. pose proof (insert_all_lookup log q' Hlog) as Hl'. destruct (insert_all ∅ log !! q') as [w''|] eqn:Eq.
    + destruct Hl' as [_ Hl']. specialize (Hl' w' Hw'). specialize (Hmax q' w'' Eq Hr'). lia.
    + by destruct (Hl' w').
  - intros q w Hw Hr. pose proof (insert_all_lookup log q Hlog) as Hl. destruct (insert_all ∅ log !! q) as [w'|] eqn:Eq; [|by destruct (Hl w)].
    eapply Hlast; [|exact Eq|exact Hr]. intros q' w'' Hq. pose proof (insert_all_lookup log q' Hlog) as Hl'. rewrite Hq in Hl'.
    destruct Hl' as [Hl' _]. by eapply run_log_pointers.
Qed.

(** ** The table *)

(** The comparison is a strict weak ordering of these elements. *)
Definition orders {A} (cmp : A -> A -> Z) (l : list A) : Prop :=
  (forall x y, x ∈ l -> y ∈ l -> (0 < cmp x y)%Z <-> (cmp y x < 0)%Z) /\
  (forall x y z, x ∈ l -> y ∈ l -> z ∈ l -> (cmp x y <= 0)%Z -> (cmp y z <= 0)%Z -> (cmp x z <= 0)%Z).

Class SlicesSortLaws `{SlicesSort} := {
  sort_permutes : forall {A} (cmp : A -> A -> Z) l, SortFunc cmp l ≡ₚ l;
  sort_sorts : forall {A} (cmp : A -> A -> Z) l, orders cmp l -> StronglySorted (fun x y => (cmp x y <= 0)%Z) (SortFunc cmp l);
}.

Section table.
Context `{AnyCodec, MapRangeLaws, SlicesSortLaws}.

(** The row's columns are those of this write. *)
Definition carries (row : BlameRow) (w : fieldWrite) : Prop :=
  br_TS row = fw_ts w /\ br_Actors row = fw_actors w /\ br_UID row = fw_uid w /\
  br_ResourceVersion row = fw_resourceVersion w /\ br_EventType row = fw_eventType w.

(** What a row standing for these entries says. *)
Record stands_for (writes : gmap string fieldWrite) (row : BlameRow) (members : list fieldEntry) : Prop := {
  sf_some : members <> [];
  sf_path : br_Path row = DisplayPath (br_Pointer row);
  sf_fields : br_Fields row = length members;
  sf_removed : br_Removed row = forallb fe_removed members;
  sf_newest :
    if br_Attributed row
    then exists e w, e ∈ members /\ lastWrite writes (fe_pointer e) = Some w /\ carries row w /\
           forall e' w', e' ∈ members -> lastWrite writes (fe_pointer e') = Some w' -> (fw_ts w' <= fw_ts w)%Z
    else forall e, e ∈ members -> lastWrite writes (fe_pointer e) = None;
}.

Definition shown_entry (fields : list string) (e : fieldEntry) : bool := MatchesFieldPath (fe_pointer e) fields.
Definition under (depth : Z) (key : string) (e : fieldEntry) : bool := bool_decide (collapseTo (fe_pointer e) depth = key).

(** The loop's state after the entries [seen]. *)
Record table_ok (writes : gmap string fieldWrite) (depth : Z) (seen : list fieldEntry) (rows : list BlameRow) (index : gmap string nat) : Prop := {
  to_index : indexed br_Pointer rows index;
  to_rows : forall i row, rows !! i = Some row -> stands_for writes row (List.filter (under depth (br_Pointer row)) seen);
  to_all : forall e, e ∈ seen -> is_Some (index !! collapseTo (fe_pointer e) depth);
  to_sum : sum_list (map br_Fields rows) = length seen;
}.

Lemma apply_pointer writes p row : br_Pointer (applyWrite writes p row) = br_Pointer row /\ br_Fields (applyWrite writes p row) = br_Fields row.
Proof. unfold applyWrite. by repeat case_match. Qed.

(** Folding one more write into a row. *)
Lemma apply_stands writes row members e :
  br_Path row = DisplayPath (br_Pointer row) -> br_Fields row = length (members ++ [e]) ->
  br_Removed row = forallb fe_removed (members ++ [e]) ->
  (if br_Attributed row
   then exists e w, e ∈ members /\ lastWrite writes (fe_pointer e) = Some w /\ carries row w /\
          forall e' w', e' ∈ members -> lastWrite writes (fe_pointer e') = Some w' -> (fw_ts w' <= fw_ts w)%Z
   else forall e, e ∈ members -> lastWrite writes (fe_pointer e) = None) ->
  stands_for writes (applyWrite writes (fe_pointer e) row) (members ++ [e]).
Proof.
  intros Hp Hf Hr Hn. assert (Hin : forall x, x ∈ members ++ [e] <-> x ∈ members \/ x = e) by (intros x; by rewrite elem_of_app, list_elem_of_singleton).
  unfold applyWrite. destruct (lastWrite writes (fe_pointer e)) as [w|] eqn:Ew.
  - destruct (br_Attributed row) eqn:Ea; cbn [andb].
    + destruct Hn as (e0 & w0 & He0 & Hw0 & Hc & Hmax). destruct (bool_decide_reflect (br_TS row < fw_ts w)%Z) as [Hlt|Hlt]; cbn [negb].
      * split; simpl; [by destruct members|done..|]. exists e, w. split_and!; [apply Hin; by right|done|done|].
        intros e' w' [He'| ->]%Hin Hw'; [|by simplify_eq]. specialize (Hmax e' w' He' Hw'). destruct Hc as (Hts & _). lia.
      * split; rewrite ?Ea; [by destruct members|done..|]. exists e0, w0. split_and!; [apply Hin; by left|done|done|].
        intros e' w' [He'| ->]%Hin Hw'; [by eapply Hmax|]. simplify_eq. destruct Hc as (Hts & _). lia.
    + split; simpl; [by destruct members|done..|]. exists e, w. split_and!; [apply Hin; by right|done|done|].
      intros e' w' [He'| ->]%Hin Hw'; [by rewrite (Hn e' He') in Hw'|by simplify_eq].
  - split; [by destruct members|done..|]. destruct (br_Attributed row).
    + destruct Hn as (e0 & w0 & He0 & Hw0 & Hc & Hmax). exists e0, w0. split_and!; [apply Hin; by left|done|done|].
      intros e' w' [He'| ->]%Hin Hw'; [by eapply Hmax|congruence].
    + intros e' [He'| ->]%Hin; [by apply Hn|done].
Qed.

Lemma sum_alter (f : BlameRow -> BlameRow) i rows row : rows !! i = Some row ->
  sum_list (map br_Fields (alter f i rows)) + br_Fields row = sum_list (map br_Fields rows) + br_Fields (f row).
Proof.
  revert i. induction rows as [|r rows IH]; intros [|i]; simpl; [done..|intros [= ->]; lia|]. intros Hi.
  specialize (IH i Hi). unfold alter in IH. lia.
Qed.

Lemma sum_list_app (a b : list nat) : sum_list (a ++ b) = sum_list a + sum_list b.
Proof. induction a as [|x a IH]; simpl; [done|]. lia. Qed.

Lemma alter_compose_at {A} (f g : A -> A) i (l : list A) : alter f i (alter g i l) = alter (f ∘ g) i l.
Proof. revert i. induction l as [|x l IH]; intros [|i]; [done..|]. simpl. f_equal. apply IH. Qed.

Lemma alter_app_end {A} (f : A -> A) (l : list A) x : alter f (length l) (l ++ [x]) = l ++ [f x].
Proof. induction l as [|y l IH]; [done|]. simpl. f_equal. apply IH. Qed.

Lemma filter_snoc {A} (f : A -> bool) l x : List.filter f (l ++ [x]) = List.filter f l ++ (if f x then [x] else []).
Proof. rewrite keep_app. simpl. by destruct (f x). Qed.

Lemma under_none writes depth seen rows index key : table_ok writes depth seen rows index ->
  index !! key = None -> List.filter (under depth key) seen = [].
Proof.
  intros Ht Hi. apply keep_none, Forall_forall. intros e He. unfold under. apply bool_decide_eq_false. intros <-.
  destruct (to_all _ _ _ _ _ Ht e He) as [i Hs]. congruence.
Qed.

(** A key not seen yet starts a row. *)
Lemma blame_entry_new writes depth seen rows index e : table_ok writes depth seen rows index ->
  index !! collapseTo (fe_pointer e) depth = None ->
  let key := collapseTo (fe_pointer e) depth in
  table_ok writes depth (seen ++ [e])
    (rows ++ [applyWrite writes (fe_pointer e) (new_row key (fe_removed e))]) (<[key := length rows]> index).
Proof.
  intros Ht Hi key. destruct (apply_pointer writes (fe_pointer e) (new_row key (fe_removed e))) as [Hp Hfd].
  assert (Hx : indexed br_Pointer (rows ++ [applyWrite writes (fe_pointer e) (new_row key (fe_removed e))]) (<[key := length rows]> index)).
  { pose proof (indexed_snoc br_Pointer rows index (applyWrite writes (fe_pointer e) (new_row key (fe_removed e))) (to_index _ _ _ _ _ Ht)) as Hs.
    rewrite Hp in Hs. by apply Hs. }
  split; [done| | |].
  - intros i row [Hr|[Hle Hr]]%lookup_app_Some.
    + rewrite filter_snoc. assert (Hu : under depth (br_Pointer row) e = false).
      { apply bool_decide_eq_false. intros E. assert (Hs : index !! br_Pointer row = Some i) by (apply (to_index _ _ _ _ _ Ht); by exists row).
        rewrite <-E in Hs. congruence. }
      rewrite Hu, app_nil_r. by eapply to_rows.
    + apply list_lookup_singleton_Some in Hr as [_ <-]. rewrite Hp, filter_snoc.
      assert (Hu : under depth key e = true) by (by apply bool_decide_eq_true). change (br_Pointer (new_row key (fe_removed e))) with key.
      rewrite Hu, (under_none _ _ _ _ _ key Ht Hi). apply (apply_stands writes (new_row key (fe_removed e)) [] e); simpl; [done|done|by rewrite andb_true_r|].
      by intros e' ?%not_elem_of_nil.
  - intros e' [He| ->%list_elem_of_singleton]%elem_of_app; [|by rewrite lookup_insert_eq].
    destruct (decide (key = collapseTo (fe_pointer e') depth)) as [<-|Hne]; [by rewrite lookup_insert_eq|].
    rewrite lookup_insert_ne by done. by eapply to_all.
  - rewrite map_app, sum_list_app. rewrite length_app. simpl. rewrite Hfd. simpl. pose proof (to_sum _ _ _ _ _ Ht). lia.
Qed.

(** A key seen before gains an entry. *)
Lemma blame_entry_joined writes depth seen rows index e i : table_ok writes depth seen rows index ->
  index !! collapseTo (fe_pointer e) depth = Some i ->
  table_ok writes depth (seen ++ [e])
    (alter (applyWrite writes (fe_pointer e)) i (alter (joined_row (fe_removed e)) i rows)) index.
Proof.
  intros Ht Hi. set (f := applyWrite writes (fe_pointer e) ∘ joined_row (fe_removed e)).
  assert (E : alter (applyWrite writes (fe_pointer e)) i (alter (joined_row (fe_removed e)) i rows) = alter f i rows).
  { apply alter_compose_at. }
  rewrite E. destruct (proj1 (to_index _ _ _ _ _ Ht _ i) Hi) as (row & Hrow & Hkey).
  assert (Hfp : forall r, br_Pointer (f r) = br_Pointer r) by (intros r; unfold f, compose; by rewrite (proj1 (apply_pointer _ _ _))).
  split.
  - by apply indexed_alter; [|eapply to_index].
  - intros j r Hj. rewrite filter_snoc. rewrite list_lookup_alter in Hj. case_decide as Hij.
    + subst j. rewrite Hrow in Hj. injection Hj as <-. rewrite Hfp. assert (Hu : under depth (br_Pointer row) e = true) by (by apply bool_decide_eq_true).
      rewrite Hu. destruct (to_rows _ _ _ _ _ Ht i row Hrow) as [Hsome Hpath Hfields Hrem Hnew].
      apply apply_stands; simpl; [done|rewrite length_app; simpl; lia| |done].
      rewrite forallb_app, Hrem. simpl. by rewrite andb_true_r.
    + assert (Hu : under depth (br_Pointer r) e = false).
      { apply bool_decide_eq_false. intros Ek. assert (Hs : index !! br_Pointer r = Some j) by (apply (to_index _ _ _ _ _ Ht); by exists r).
        rewrite <-Ek in Hs. congruence. }
      rewrite Hu, app_nil_r. by eapply to_rows.
  - intros e' [He| ->%list_elem_of_singleton]%elem_of_app; [by eapply to_all|by eexists].
  - rewrite length_app. simpl. pose proof (sum_alter f i rows row Hrow) as Hsum. pose proof (to_sum _ _ _ _ _ Ht).
    unfold f, compose in *. rewrite (proj2 (apply_pointer _ _ _)) in Hsum. simpl in Hsum. lia.
Qed.

Lemma blame_loop writes fields depth l seen rows index :
  table_ok writes depth (List.filter (shown_entry fields) seen) rows index ->
  let '(rows', index') := foldl (blame_entry writes fields depth) (rows, index) l in
  table_ok writes depth (List.filter (shown_entry fields) (seen ++ l)) rows' index'.
Proof.
  revert seen rows index. induction l as [|e l IH]; intros seen rows index Ht; [by rewrite app_nil_r|].
  cbn [foldl]. unfold blame_entry at 2. destruct (MatchesFieldPath (fe_pointer e) fields) eqn:Em; cbn [negb].
  - assert (Hf : List.filter (shown_entry fields) (seen ++ [e]) = List.filter (shown_entry fields) seen ++ [e]).
    { rewrite filter_snoc. unfold shown_entry at 2. by rewrite Em. }
    replace (seen ++ e :: l) with ((seen ++ [e]) ++ l) by (by rewrite <-app_assoc).
    destruct (index !! collapseTo (fe_pointer e) depth) as [i|] eqn:Ei; apply IH; rewrite Hf.
    + by apply blame_entry_joined.
    + pose proof (blame_entry_new _ _ _ _ _ e Ht Ei) as Hn. cbv zeta in Hn. by rewrite alter_app_end.
  - replace (seen ++ e :: l) with ((seen ++ [e]) ++ l) by (by rewrite <-app_assoc). apply IH.
    rewrite filter_snoc. unfold shown_entry at 2. by rewrite Em, app_nil_r.
Qed.

Lemma blame_orders rows : orders comparePointers (map br_Pointer rows) -> orders compareBlameRows rows.
Proof.
  intros [Ha Ht]. assert (Hm : forall r, r ∈ rows -> br_Pointer r ∈ map br_Pointer rows) by (intros r; apply list_elem_of_fmap_2).
  split.
  - intros x y Hx Hy. specialize (Ha _ _ (Hm x Hx) (Hm y Hy)). unfold compareBlameRows.
    destruct (br_Attributed x), (br_Attributed y); simpl; try lia; try done.
    repeat case_bool_decide; simpl; try lia; done.
  - intros x y z Hx Hy Hz. specialize (Ht _ _ _ (Hm x Hx) (Hm y Hy) (Hm z Hz)). unfold compareBlameRows.
    destruct (br_Attributed x), (br_Attributed y), (br_Attributed z); simpl; try lia; try done.
    repeat case_bool_decide; simpl; try lia; done.
Qed.

Lemma entries_NoDup a document : at_state a = Some document -> document <> "" -> forall doc, decode_any document = Some doc -> fits doc ->
  NoDup (map fe_pointer (entries a)) /\ forall p, p ∈ leafPointers doc -> mkFieldEntry p false ∈ entries a.
Proof.
  intros Hs Hne doc Hd Hf. unfold entries. rewrite Hs, bool_decide_eq_false_2 by done. rewrite Hd. simpl. split.
  - rewrite map_app, !map_map. rewrite map_id, (map_ext _ id), map_id by done. apply NoDup_app. split_and!.
    + apply leafPointers_NoDup.
    + intros p Hp. rewrite merge_sort_Permutation. intros Hw. apply list_elem_of_In, filter_In in Hw as [_ Hw].
      destruct (leaf_resolves doc p Hf Hp) as (_ & w & Hv & _). rewrite Hv in Hw. by case_match.
    + rewrite merge_sort_Permutation. apply NoDup_ListNoDup, List.NoDup_filter, NoDup_ListNoDup.
      change (map fst (range (at_writes a))) with ((range (at_writes a)).*1). rewrite range_all. apply NoDup_fst_map_to_list.
  - intros p Hp. apply elem_of_app. left. apply list_elem_of_fmap. by exists p.
Qed.

(** the table shows every field once. For any attribution, field filter and depth,
    the rows have distinct paths - exactly the collapsed paths of the fields shown, and
    with a readable end state every leaf of it is one of the fields, none listed twice -
    and each row speaks for the fields collapsed into it: it counts them, says removed
    only if all of them are, and carries the newest of their writes, or none if none was
    written; the counts add up to the fields shown. When the paths compare consistently,
    the rows come out most recently written first, unattributed ones last. *)
Theorem blame_table_partitions a fields depth :
  let shown := List.filter (shown_entry fields) (entries a) in
  let rows := BlameRows a fields depth in
  NoDup (map br_Pointer rows) /\
  (forall key, key ∈ map br_Pointer rows <-> exists e, e ∈ shown /\ collapseTo (fe_pointer e) depth = key) /\
  (forall row, row ∈ rows -> stands_for (at_writes a) row (List.filter (under depth (br_Pointer row)) shown)) /\
  sum_list (map br_Fields rows) = length shown /\
  (forall text doc, at_state a = Some text -> text <> "" -> decode_any text = Some doc -> fits doc ->
     NoDup (map fe_pointer (entries a)) /\ forall p, p ∈ leafPointers doc -> mkFieldEntry p false ∈ entries a) /\
  (orders comparePointers (map br_Pointer rows) -> StronglySorted (fun r r' => (compareBlameRows r r' <= 0)%Z) rows).
Proof.
  intros shown rows. unfold rows, BlameRows.
  pose proof (blame_loop (at_writes a) fields depth (entries a) [] [] ∅) as Hl.
  destruct (foldl (blame_entry (at_writes a) fields depth) ([], ∅) (entries a)) as [unsorted index]. cbn [fst app] in *. fold shown in Hl.
  assert (Ht : table_ok (at_writes a) depth shown unsorted index).
  { apply Hl. split; [apply indexed_nil|done|by intros e ?%not_elem_of_nil|done]. }
  pose proof (sort_permutes compareBlameRows unsorted) as Hp. split_and!.
  - rewrite Hp. by eapply indexed_NoDup, to_index.
  - intros key. rewrite Hp, (indexed_elem _ _ index) by (by eapply to_index). split.
    + intros [i (row & Hi & <-)%(to_index _ _ _ _ _ Ht)]. destruct (to_rows _ _ _ _ _ Ht i row Hi) as [Hsome _ _ _ _].
      destruct (List.filter (under depth (br_Pointer row)) shown) as [|e es] eqn:E; [done|].
      assert (He : In e (List.filter (under depth (br_Pointer row)) shown)) by (rewrite E; by left).
      apply filter_In in He as [He%list_elem_of_In Hu%bool_decide_eq_true]. by exists e.
    + intros (e & He & <-). by eapply to_all.
  - intros row Hr. rewrite Hp in Hr. apply list_elem_of_lookup in Hr as [i Hi]. by eapply to_rows.
  - rewrite <-(to_sum _ _ _ _ _ Ht). change (sum_list (br_Fields <$> SortFunc compareBlameRows unsorted) = sum_list (br_Fields <$> unsorted)).
    by rewrite Hp.
  - intros text doc Hs Hne Hd Hf. by eapply entries_NoDup.
  - intros Ho. apply sort_sorts, blame_orders. destruct Ho as [Ha Htr].
    assert (Hin : forall x, x ∈ map br_Pointer unsorted -> x ∈ map br_Pointer (SortFunc compareBlameRows unsorted)) by (intros x Hx; by rewrite Hp).
    split; [intros x y Hx Hy; apply Ha; by apply Hin|intros x y z Hx Hy Hz; apply Htr; by apply Hin].
Qed.
End table.

(** ** Prior values *)

(** A recorded patch without a test, the one operation that may look at the spelling of a
    number. *)
Definition testless `{PatchCodec} (diff : string) : Prop :=
  diff <> "" -> exists ops, decode_ops diff = Ok ops /\ Forall (fun op => wo_Op op <> "test") ops.

(** What the codecs and the patch library make of texts: an object decodes the same into
    [any] and into a map, a map with members comes from an object's text; a decoded object
    that is encoded again decodes to itself (numbers are floats by then); and a patch
    without tests acts on the document of a text, not on its spelling. *)
Class DocumentLaws `{Encoders, AnyCodec, PatchCodec, JsonPatch} := {
  decoded_object : forall s o, decode_any s = Some (JObj o) -> json_unmarshal s = Some o;
  decoded_members : forall s o, json_unmarshal s = Some o -> o <> ∅ -> decode_any s = Some (JObj o);
  reencoded : forall s o s', json_unmarshal s = Some o -> o <> ∅ -> json_marshal o = Some s' -> decode_any s' = Some (JObj o);
  apply_reads : forall diff p s s' d n, testless diff -> DecodePatch diff = Ok p ->
    decode_any s = Some d -> decode_any s' = Some d -> patch_Apply p s = Ok n ->
    exists n' d', patch_Apply p s' = Ok n' /\ decode_any n = Some d' /\ decode_any n' = Some d';
}.

Section tracking.
Context `{DocumentLaws}.

(** The document that reconstructing [history] arrives at, as the read plane's replay does. *)
Definition recorded_document (history : list ReplayRow) (d : json) : Prop :=
  exists b base state applied last,
    BaseRow history = Some b /\ history !! b = Some base /\
    replay_loop (drop (S b) history) (rr_Data base) 0 base = Ok (state, applied, last) /\ decode_any state = Some d.

(** Which, an object, is what the read plane answers with. *)
Lemma recorded_is_answered history o : recorded_document history (JObj o) ->
  exists b r, BaseRow history = Some b /\ Replay history b = Ok r /\ rc_Object r = o.
Proof.
  intros (b & base & state & applied & last & Hb & Hbase & Hl & Hd). exists b. unfold Replay. rewrite Hbase, Hl.
  apply decoded_object in Hd. rewrite Hd. by eexists.
Qed.

Definition same_document (s s' : string) : Prop := s = s' \/ exists d, decode_any s = Some d /\ decode_any s' = Some d.

(** The text [s] spells what reconstructing [history] arrives at. *)
Definition tracks (s : string) (history : list ReplayRow) : Prop :=
  exists b base state applied last,
    BaseRow history = Some b /\ history !! b = Some base /\
    replay_loop (drop (S b) history) (rr_Data base) 0 base = Ok (state, applied, last) /\ same_document state s.

Lemma tracks_document s history d : tracks s history -> (decode_any s = Some d <-> recorded_document history d).
Proof.
  intros (b & base & state & applied & last & Hb & Hbase & Hl & Hs). split.
  - intros Hd. exists b, base, state, applied, last. split_and!; [done..|]. destruct Hs as [->|(d' & Hd' & Hs')]; [done|congruence].
  - intros (b' & base' & state' & applied' & last' & Hb' & Hbase' & Hl' & Hd).
    rewrite Hb in Hb'. injection Hb' as <-. rewrite Hbase in Hbase'. injection Hbase' as <-.
    rewrite Hl in Hl'. injection Hl' as -> -> ->. destruct Hs as [->|(d' & Hd' & Hs')]; [done|congruence].
Qed.

Lemma tracks_full history change : ch_Data change <> "" -> tracks (ch_Data change) (history ++ [ArchiveState.replay_row change]).
Proof.
  intros Hd. exists (length history), (ArchiveState.replay_row change). unfold tracks. rewrite BaseRow_app.
  rewrite decide_True by done. rewrite list_lookup_middle by done. rewrite drop_ge by (rewrite length_app; simpl; lia).
  eexists _, _, _. split_and!; [done..|]. by left.
Qed.

Lemma tracks_step s history change s' : testless (ch_Diff change) -> tracks s history -> advanceState s change = Ok s' ->
  tracks s' (history ++ [ArchiveState.replay_row change]).
Proof.
  intros Ht (b & base & state & applied & last & Hb & Hbase & Hl & Hd) Ha. unfold advanceState in Ha.
  destruct (bool_decide_reflect (ch_Data change = "")) as [Ed|Ed]; cbn [negb] in Ha; [|injection Ha as <-; by apply tracks_full].
  assert (Hlt : b < length history) by (by eapply lookup_lt_Some). exists b, base. rewrite BaseRow_app.
  rewrite decide_False by (simpl; intros Hc; by apply Hc). rewrite lookup_app_l by done.
  rewrite drop_app_le by lia. rewrite replay_loop_app, Hl. cbn [replay_loop]. simpl.
  rewrite decide_False by (intros Hc; by apply Hc). destruct (bool_decide_reflect (ch_Diff change = "")) as [Ef|Ef].
  - injection Ha as <-. rewrite decide_False by (intros Hc; by apply Hc). by eexists _, _, _.
  - rewrite decide_True by done. destruct (DecodePatch (ch_Diff change)) as [p|] eqn:Ep; [|done].
    destruct (patch_Apply p s) as [n|] eqn:En; [|done]. injection Ha as <-. destruct Hd as [->|(d & Hd & Hd')].
    + rewrite En. eexists _, _, _. split_and!; [done..|]. by left.
    + destruct (apply_reads (ch_Diff change) p s state d n) as (n' & d' & -> & Hn & Hn'); [done..|].
      eexists _, _, _. split_and!; [done..|]. right. by exists d'.
Qed.

Lemma tracks_reconstruction history b r encoded : rc_Object r <> ∅ ->
  BaseRow history = Some b -> Replay history b = Ok r -> json_marshal (rc_Object r) = Some encoded -> tracks encoded history.
Proof.
  intros Hne Hb Hr Hm. unfold Replay in Hr. destruct (history !! b) as [base|] eqn:Hbase; [|done].
  destruct (replay_loop _ _ _ _) as [[[state applied] last]|] eqn:Hl; [|done].
  destruct (json_unmarshal state) as [o|] eqn:Ho; [|done]. injection Hr as <-. simpl in Hm, Hne.
  exists b, base, state, applied, last. split_and!; [done..|]. right. exists (JObj o).
  split; [by apply decoded_members|by eapply reencoded].
Qed.

(** ** One incarnation's rows *)

Variable state_at : Z -> string -> result stateFailure Reconstruction.
Variable zone : Zone.

Definition changes_at (rows : list TimelineRow) (group : list nat) : list ReplayRow :=
  map (fun i => ArchiveState.replay_row (tr_Change (row_at rows i))) group.

Lemma row_at_lookup rows i row : rows !! i = Some row -> row_at rows i = row.
Proof. unfold row_at. by intros ->. Qed.

Lemma row_at_alter f rows i j : i <> j -> row_at (alter f i rows) j = row_at rows j.
Proof. intros Hne. unfold row_at. by rewrite list_lookup_alter_ne. Qed.

(** What a loop over the rows of a group leaves behind: a row it reached holds the values
    of the state before it, the others are as they were; it reaches all of them unless
    it says so. *)
Lemma replay_group_spec group rows s history rows' notice :
  NoDup group -> (forall i, i ∈ group -> i < length rows) -> (forall i, i ∈ group -> testless (ch_Diff (tr_Change (row_at rows i)))) ->
  tracks s history -> replay_group zone rows group s = (rows', notice) ->
  length rows' = length rows /\
  (forall i, i ∉ group -> rows' !! i = rows !! i) /\
  (forall j i, group !! j = Some i -> exists row, rows !! i = Some row /\
     ((exists s', tracks s' (history ++ changes_at rows (take j group)) /\ rows' !! i = Some (fill_row s' row)) \/
      (notice <> None /\ rows' !! i = Some row))).
Proof.
  revert rows s history. induction group as [|position group IH]; intros rows s history Hnd Hlt Hno Htr E.
  { cbn [replay_group] in E. injection E as <- <-. split_and!; [done|done|]. by intros j i Hj. }
  apply NoDup_cons in Hnd as [Hnin Hnd]. cbn [replay_group] in E.
  destruct (lookup_lt_is_Some_2 rows position) as [row Hrow]; [apply Hlt; by left|].
  rewrite (row_at_lookup _ _ _ Hrow) in E. set (rows1 := alter (fill_row s) position rows) in *.
  assert (Hrow1 : rows1 !! position = Some (fill_row s row)) by (unfold rows1; by rewrite list_lookup_alter_eq, Hrow).
  assert (Hother : forall i, i <> position -> rows1 !! i = rows !! i) by (intros i Hi; unfold rows1; by rewrite list_lookup_alter_ne).
  assert (Hlen : length rows1 = length rows) by (unfold rows1; apply length_alter).
  destruct (advanceState s (tr_Change row)) as [next|err] eqn:Ea.
  - apply (IH rows1 next (history ++ [ArchiveState.replay_row (tr_Change row)])) in E as (Hl & Hout & Hin);
      [|done|intros i Hi; rewrite Hlen; apply Hlt; by right|..].
    2: { intros i Hi. unfold rows1. rewrite row_at_alter by (intros ->; done). apply Hno. by right. }
    2: { eapply tracks_step; [|done|done]. rewrite <-(row_at_lookup _ _ _ Hrow). apply Hno. by left. }
    split_and!; [lia| |].
    + intros i [Hne Hni]%not_elem_of_cons. rewrite Hout by done. by apply Hother.
    + intros [|j] i Hj; simpl in Hj.
      * injection Hj as <-. exists row. split; [done|]. left. exists s. split; [by rewrite app_nil_r|]. by rewrite Hout.
      * assert (Hne : i <> position) by (intros ->; by apply Hnin; eapply list_elem_of_lookup_2).
        destruct (Hin j i Hj) as (row' & Hr & Hor). rewrite (Hother _ Hne) in Hr. exists row'. split; [done|].
        destruct Hor as [(s' & Hs' & Hf)|Hor]; [left|by right]. exists s'. split; [|done].
        change (changes_at rows (take (S j) (position :: group))) with
          (ArchiveState.replay_row (tr_Change (row_at rows position)) :: changes_at rows (take j group)).
        rewrite (row_at_lookup _ _ _ Hrow). rewrite <-app_assoc in Hs'.
        assert (Ec : changes_at rows1 (take j group) = changes_at rows (take j group)); [|by rewrite <-Ec].
        apply map_ext_in. intros k Hk. f_equal. f_equal. apply row_at_alter. intros ->. apply Hnin.
        apply list_elem_of_In in Hk. rewrite <-(take_drop j group). apply elem_of_app. by left.
  - injection E as <- <-. split_and!; [done| |].
    + intros i [Hne _]%not_elem_of_cons. by apply Hother.
    + intros [|j] i Hj; simpl in Hj.
      * injection Hj as <-. exists row. split; [done|]. left. exists s. split; [by rewrite app_nil_r|done].
      * assert (Hne : i <> position) by (intros ->; by apply Hnin; eapply list_elem_of_lookup_2).
        destruct (lookup_lt_is_Some_2 rows i) as [row' Hr]; [apply Hlt; right; by eapply list_elem_of_lookup_2|].
        exists row'. split; [done|]. right. split; [done|]. by rewrite (Hother _ Hne).
Qed.

(** A row of one object's own history, of this incarnation. *)
Definition of_uid (uid : string) (row : TimelineRow) : bool :=
  negb (bool_decide (ch_EventType (tr_Change row) = EventKubernetes)) && bool_decide (ch_UID (tr_Change row) = uid).

Definition positions (uid : string) (rows : list TimelineRow) : list nat :=
  List.filter (fun i => of_uid uid (row_at rows i)) (seq 0 (length rows)).

(** The incarnation's recorded history before position [i]: what is older than the rows
    shown, and its own rows above. *)
Definition history_before (older : string -> list Change) (rows : list TimelineRow) (uid : string) (i : nat) : list ReplayRow :=
  map ArchiveState.replay_row (older uid ++ map tr_Change (List.filter (of_uid uid) (take i rows))).

Lemma take_filter_seq (f : nat -> bool) n j i :
  List.filter f (seq 0 n) !! j = Some i -> take j (List.filter f (seq 0 n)) = List.filter f (seq 0 i).
Proof.
  intros Hj. assert (Hi : f i = true /\ i < n).
  { apply list_elem_of_lookup_2, list_elem_of_In, filter_In in Hj as [Hs Hf]. split; [done|]. apply in_seq in Hs. lia. }
  destruct Hi as [Hf Hi].
  assert (E : List.filter f (seq 0 n) = List.filter f (seq 0 i) ++ i :: List.filter f (seq (S i) (n - S i))).
  { replace n with (i + S (n - S i)) at 1 by lia. rewrite seq_app, keep_app. cbn [seq List.filter]. by rewrite Nat.add_0_l, Hf. }
  assert (Hnd : NoDup (List.filter f (seq 0 n))) by (apply NoDup_ListNoDup, List.NoDup_filter, NoDup_ListNoDup, NoDup_seq).
  rewrite E in *. assert (Hlen : j = length (List.filter f (seq 0 i))); [|subst j; by rewrite take_app_length].
  eapply NoDup_lookup; [exact Hnd|exact Hj|]. by apply list_lookup_middle.
Qed.

Lemma filter_rows_seq rows (f : TimelineRow -> bool) i : i <= length rows ->
  map (row_at rows) (List.filter (fun k => f (row_at rows k)) (seq 0 i)) = List.filter f (take i rows).
Proof.
  induction i as [|i IH]; intros Hi; [by rewrite take_0|]. rewrite seq_S, keep_app, map_app, IH by lia.
  destruct (lookup_lt_is_Some_2 rows i) as [row Hrow]; [lia|]. rewrite (take_S_r _ _ _ Hrow), keep_app. f_equal. simpl.
  rewrite (row_at_lookup _ _ _ Hrow). destruct (f row); [|done]. simpl. by rewrite (row_at_lookup _ _ _ Hrow).
Qed.

Lemma changes_before older rows uid j i : positions uid rows !! j = Some i ->
  map ArchiveState.replay_row (older uid) ++ changes_at rows (take j (positions uid rows)) = history_before older rows uid i.
Proof.
  intros Hj. unfold positions in *. rewrite (take_filter_seq _ _ _ _ Hj). unfold history_before. rewrite map_app. f_equal.
  assert (Hi : i < length rows).
  { apply list_elem_of_lookup_2, list_elem_of_In, filter_In in Hj as [Hs _]. apply in_seq in Hs. lia. }
  unfold changes_at. rewrite <-(filter_rows_seq rows (of_uid uid) i) by lia. by rewrite !map_map.
Qed.

(** The answers of the read plane are reconstructions, with members, of the recorded
    history. *)
Definition answers_truly (older : string -> list Change) (rows : list TimelineRow) : Prop :=
  forall uid i r, positions uid rows !! 0 = Some i -> state_at (ch_TS (tr_Change (row_at rows i)) - 1) uid = Ok r ->
    rc_Object r <> ∅ /\ exists b, BaseRow (map ArchiveState.replay_row (older uid)) = Some b /\ Replay (map ArchiveState.replay_row (older uid)) b = Ok r.

Lemma seed_row_spec rows group n s start : n <= length group -> seed_row rows group n = Some (s, start) ->
  start <= n /\ exists i, group !! (start - 1) = Some i /\ 0 < start /\ s = ch_Data (tr_Change (row_at rows i)) /\ s <> "".
Proof.
  intros Hn. induction n as [|n IH]; [done|]. cbn [seed_row]. destruct (lookup_lt_is_Some_2 group n) as [i Hi]; [lia|]. rewrite Hi.
  destruct (bool_decide_reflect (ch_Data (tr_Change (row_at rows i)) = "")) as [E|E]; cbn [negb].
  - intros Hs. destruct (IH ltac:(lia) Hs) as (? & j & ?). split; [lia|]. by exists j.
  - intros [= <- <-]. split; [lia|]. exists i. rewrite Nat.sub_succ, Nat.sub_0_r. split_and!; [done|lia|done|done].
Qed.

Lemma first_needing_spec rows group k n : first_needing rows group k = Some n ->
  k <= n < k + length group /\ forall j i, group !! j = Some i -> k + j < n -> existsb needsPriorValue (tr_Ops (row_at rows i)) = false.
Proof.
  revert k. induction group as [|p group IH]; intros k; [done|]. cbn [first_needing]. destruct (existsb _ _) eqn:E.
  - intros [= <-]. split; [simpl; lia|]. intros j i Hj Hl. lia.
  - intros (Hb & Hf)%IH. split; [simpl; lia|]. intros [|j] i Hj Hl; simpl in Hj; [by injection Hj as <-|]. apply (Hf j); [done|lia].
Qed.

Lemma first_needing_none rows group k : first_needing rows group k = None ->
  forall i, i ∈ group -> existsb needsPriorValue (tr_Ops (row_at rows i)) = false.
Proof.
  revert k. induction group as [|p group IH]; intros k; [by intros _ i ?%not_elem_of_nil|]. cbn [first_needing].
  destruct (existsb _ _) eqn:E; [done|]. intros Hn i [->|Hi]%elem_of_cons; [done|by eapply IH].
Qed.

Lemma seedState_tracks older rows uid first s start : answers_truly older rows -> first < length (positions uid rows) ->
  seedState state_at rows (positions uid rows) first = Ok (s, start) ->
  start <= first /\ tracks s (map ArchiveState.replay_row (older uid) ++ changes_at rows (take start (positions uid rows))).
Proof.
  intros Ht Hlt. unfold seedState. destruct (seed_row _ _ first) as [[s0 start0]|] eqn:Es.
  - intros [= -> ->]. destruct (seed_row_spec _ _ _ _ _ (Nat.lt_le_incl _ _ Hlt) Es) as (Hle & i & Hi & Hpos & -> & Hne). split; [done|].
    rewrite <-(Nat.succ_pred_pos start Hpos). replace (pred start) with (start - 1) by lia. rewrite (take_S_r _ _ _ Hi). unfold changes_at.
    rewrite map_app, app_assoc. by apply tracks_full.
  - destruct (lookup_lt_is_Some_2 (positions uid rows) 0) as [i Hi]; [lia|]. rewrite Hi. simpl.
    assert (Hu : ch_UID (tr_Change (row_at rows i)) = uid).
    { apply list_elem_of_lookup_2, list_elem_of_In, filter_In in Hi as [_ Hi]. unfold of_uid in Hi. apply andb_true_iff in Hi as [_ Hi].
      by apply bool_decide_eq_true in Hi. }
    rewrite Hu. destruct (state_at _ uid) as [r|] eqn:Er; [|done]. destruct (json_marshal _) as [encoded|] eqn:Em; [|done].
    intros [= <- <-]. split; [lia|]. rewrite take_0, app_nil_r. destruct (Ht uid i r Hi Er) as (Hm & b & Hb & Hr). by eapply tracks_reconstruction.
Qed.

(** The outcome for one row. *)
Definition exact_row (older : string -> list Change) (rows : list TimelineRow) (complete : Prop) (i : nat) (row row' : TimelineRow) : Prop :=
  let uid := ch_UID (tr_Change row) in
  (row' = row \/ exists s, tracks s (history_before older rows uid i) /\ row' = fill_row s row) /\
  (complete -> ch_EventType (tr_Change row) <> EventKubernetes -> existsb needsPriorValue (tr_Ops row) = true ->
   exists s, tracks s (history_before older rows uid i) /\ row' = fill_row s row).

Lemma fill_row_idle s row : existsb needsPriorValue (tr_Ops row) = false -> fill_row s row = row.
Proof. intros E. unfold fill_row, fillOldValues. rewrite E. by destruct row. Qed.

Lemma positions_NoDup uid rows : NoDup (positions uid rows).
Proof. apply NoDup_ListNoDup, List.NoDup_filter, NoDup_ListNoDup, NoDup_seq. Qed.

Lemma NoDup_drop_list {A} n (l : list A) : NoDup l -> NoDup (drop n l).
Proof. rewrite <-(take_drop n l) at 1. by intros (_ & _ & ?)%NoDup_app. Qed.

Lemma positions_elem uid rows i : i ∈ positions uid rows <-> exists row, rows !! i = Some row /\ of_uid uid row = true.
Proof.
  unfold positions. rewrite list_elem_of_In, filter_In, in_seq. split.
  - intros [Hi Hf]. destruct (lookup_lt_is_Some_2 rows i) as [row Hrow]; [lia|]. exists row. by rewrite (row_at_lookup _ _ _ Hrow) in Hf.
  - intros (row & Hrow & Hf). rewrite (row_at_lookup _ _ _ Hrow). apply lookup_lt_Some in Hrow. split; [lia|done].
Qed.

(** The functions of a group read and write the rows of that group only. *)
Lemma first_needing_agree rows rows0 group k : (forall i, i ∈ group -> rows !! i = rows0 !! i) ->
  first_needing rows group k = first_needing rows0 group k.
Proof.
  revert k. induction group as [|p group IH]; intros k Ha; [done|]. cbn [first_needing].
  assert (E : row_at rows p = row_at rows0 p) by (unfold row_at; rewrite Ha by (by left); done). rewrite E.
  rewrite IH by (intros i Hi; apply Ha; by right). done.
Qed.

Lemma seedState_agree rows rows0 group first : group <> [] -> (forall i, i ∈ group -> rows !! i = rows0 !! i) ->
  seedState state_at rows group first = seedState state_at rows0 group first.
Proof.
  intros Hne Ha. assert (E : forall i, i ∈ group -> row_at rows i = row_at rows0 i) by (intros i Hi; unfold row_at; by rewrite Ha).
  assert (Es : forall n, seed_row rows group n = seed_row rows0 group n).
  { induction n as [|n IH]; [done|]. cbn [seed_row]. rewrite IH. destruct (group !! n) as [p|] eqn:Hp; [|done].
    by rewrite (E p) by (by eapply list_elem_of_lookup_2). }
  unfold seedState. rewrite Es. destruct group as [|p group]; [done|]. simpl. by rewrite (E p) by (by left).
Qed.

Lemma group_history older rows rows0 uid start j i : positions uid rows0 !! j = Some i -> start <= j ->
  (forall i, i ∈ positions uid rows0 -> rows !! i = rows0 !! i) ->
  (map ArchiveState.replay_row (older uid) ++ changes_at rows0 (take start (positions uid rows0))) ++
    changes_at rows (take (j - start) (drop start (positions uid rows0))) = history_before older rows0 uid i.
Proof.
  intros Hj Hs Ha. rewrite <-(changes_before older rows0 uid j i Hj). set (group := positions uid rows0) in *.
  assert (Ec : changes_at rows (take (j - start) (drop start group)) = changes_at rows0 (take (j - start) (drop start group))).
  { apply map_ext_in. intros k Hk%list_elem_of_In. unfold row_at. rewrite Ha; [done|].
    rewrite <-(take_drop start group). apply elem_of_app. right. rewrite <-(take_drop (j - start) (drop start group)). apply elem_of_app. by left. }
  rewrite Ec, <-app_assoc. unfold changes_at. rewrite <-map_app. do 2 f_equal.
  rewrite <-(take_drop start (take j group)), take_take, skipn_firstn_comm. by replace (start `min` j) with start by lia.
Qed.

Lemma replayGroup_spec older rows0 uid rows rows' notice : answers_truly older rows0 ->
  (forall row, row ∈ rows0 -> testless (ch_Diff (tr_Change row))) -> positions uid rows0 <> [] ->
  length rows = length rows0 -> (forall i, i ∈ positions uid rows0 -> rows !! i = rows0 !! i) ->
  replayGroup state_at zone rows (positions uid rows0) = (rows', notice) ->
  length rows' = length rows /\ (forall i, i ∉ positions uid rows0 -> rows' !! i = rows !! i) /\
  (forall i row, i ∈ positions uid rows0 -> rows0 !! i = Some row ->
     exists row', rows' !! i = Some row' /\ exact_row older rows0 (notice = None) i row row').
Proof.
  intros Ht Hno Hne Hlen Ha. set (group := positions uid rows0) in *. unfold replayGroup, firstNeedingPriorValue.
  assert (Huid : forall i row, i ∈ group -> rows0 !! i = Some row -> ch_UID (tr_Change row) = uid).
  { intros i row (row2 & Hr & Hu)%positions_elem Hrow. rewrite Hrow in Hr. injection Hr as <-. unfold of_uid in Hu.
    apply andb_true_iff in Hu as [_ Hu]. by apply bool_decide_eq_true in Hu. }
  assert (Hidle : forall i row (c : Prop), rows0 !! i = Some row -> existsb needsPriorValue (tr_Ops row) = false -> exact_row older rows0 c i row row).
  { intros i row c Hr He. split; [by left|]. intros _ _ Hc. congruence. }
  rewrite (first_needing_agree rows rows0 group 0 Ha). destruct (first_needing rows0 group 0) as [first|] eqn:Ef.
  - destruct (first_needing_spec _ _ _ _ Ef) as [Hb Hbefore]. rewrite (seedState_agree rows rows0 group first Hne Ha).
    destruct (seedState state_at rows0 group first) as [[s start]|err] eqn:Es.
    + destruct (seedState_tracks older rows0 uid first s start Ht ltac:(fold group; lia) Es) as [Hle Htr]. fold group in Htr.
      intros E. eapply replay_group_spec in E as (Hl & Hout & Hin);
        [|by apply NoDup_drop_list, positions_NoDup| | |exact Htr].
      2,3: intros i Hi; assert (Hg : i ∈ group) by (rewrite <-(take_drop start group); apply elem_of_app; by right);
          pose proof Hg as (row & Hr & _)%positions_elem.
      2: { apply lookup_lt_Some in Hr. lia. }
      2: { rewrite (row_at_lookup rows i row) by (by rewrite Ha). apply Hno. by eapply list_elem_of_lookup_2. }
      split_and!; [done| |].
      * intros i Hi. apply Hout. intros Hd. apply Hi. rewrite <-(take_drop start group). apply elem_of_app. by right.
      * intros i row Hi Hrow. apply list_elem_of_lookup in Hi as [j Hj]. destruct (decide (j < start)) as [Hlt|Hge].
        -- exists row. split.
           ++ rewrite Hout; [by rewrite Ha by (by eapply list_elem_of_lookup_2)|]. intros Hd.
              pose proof (positions_NoDup uid rows0) as Hnd. fold group in Hnd. rewrite <-(take_drop start group) in Hnd.
              apply NoDup_app in Hnd as (_ & Hdis & _). apply (Hdis i); [|done]. apply list_elem_of_lookup. exists j. by rewrite lookup_take_lt.
           ++ apply Hidle; [done|]. rewrite <-(row_at_lookup _ _ _ Hrow). apply (Hbefore j); [done|lia].
        -- destruct (Hin (j - start) i) as (row2 & Hr2 & Hor); [rewrite lookup_drop; by rewrite Nat.add_sub_assoc, Nat.add_comm, Nat.add_sub by lia|].
           rewrite Ha, Hrow in Hr2 by (by eapply list_elem_of_lookup_2). injection Hr2 as <-.
           assert (Hch : (map ArchiveState.replay_row (older uid) ++ changes_at rows0 (take start group)) ++
                       changes_at rows (take (j - start) (drop start group)) = history_before older rows0 (ch_UID (tr_Change row)) i).
           { rewrite (Huid i row) by (done || by eapply list_elem_of_lookup_2). by apply group_history; [|lia|]. }
           rewrite Hch in Hor.
           destruct Hor as [(s' & Hs' & Hf)|[Hn Hf]].
           ++ exists (fill_row s' row). split; [done|]. split; [right|intros _ _ _]; by exists s'.
           ++ exists row. split; [done|]. split; [by left|]. intros ->. done.
    + intros [= <- <-]. split_and!; [done|done|]. intros i row Hi Hrow. exists row. rewrite Ha by done. split; [done|]. split; [by left|done].
  - intros [= <- <-]. split_and!; [done|done|]. intros i row Hi Hrow. exists row. rewrite Ha by done. split; [done|].
    apply Hidle; [done|]. rewrite <-(row_at_lookup _ _ _ Hrow). by eapply first_needing_none.
Qed.

Lemma positions_snoc uid rows r :
  positions uid (rows ++ [r]) = positions uid rows ++ (if of_uid uid r then [length rows] else []).
Proof.
  unfold positions. rewrite length_app. cbn [length]. rewrite Nat.add_1_r, seq_S, keep_app. simpl.
  rewrite (row_at_lookup (rows ++ [r]) (length rows) r) by (by apply list_lookup_middle). f_equal.
  apply filter_ext_in. intros i Hi%in_seq. unfold row_at. by rewrite lookup_app_l by lia.
Qed.

Lemma group_position_spec u i uids (f : string -> list nat) : NoDup uids ->
  group_position u i (map (fun v => (v, f v)) uids) =
  if decide (u ∈ uids) then map (fun v => (v, if decide (v = u) then f v ++ [i] else f v)) uids
  else map (fun v => (v, f v)) uids ++ [(u, [i])].
Proof.
  induction 1 as [|v uids Hv Hnd IH]; [by rewrite decide_False by apply not_elem_of_nil|]. cbn [map group_position].
  destruct (bool_decide_reflect (v = u)) as [->|Hne].
  - rewrite decide_True by (by left). rewrite decide_True by done. f_equal. apply map_ext_in. intros v Hin%list_elem_of_In.
    rewrite decide_False; [done|]. by intros ->.
  - rewrite IH. destruct (decide (u ∈ uids)) as [Hu|Hu].
    + rewrite decide_True by (by right). by rewrite decide_False.
    + rewrite decide_False; [done|]. by intros [->|?]%elem_of_cons.
Qed.

(** The groups: one per incarnation shown, holding the positions of its rows. *)
Lemma byIncarnation_spec rows : exists uids, NoDup uids /\ byIncarnation rows = map (fun u => positions u rows) uids /\
  (forall u, u ∈ uids <-> positions u rows <> []).
Proof.
  enough (Hg : exists uids, NoDup uids /\ foldl group_row [] (imap pair rows) = map (fun u => (u, positions u rows)) uids /\
            (forall u, u ∈ uids <-> positions u rows <> [])).
  { destruct Hg as (uids & Hnd & E & Hu). exists uids. split_and!; [done| |done]. unfold byIncarnation. by rewrite E, map_map. }
  induction rows as [|r rows (uids & Hnd & E & Hu)] using rev_ind.
  { exists []. split_and!; [constructor|done|]. intros u. split; [by intros ?%not_elem_of_nil|done]. }
  rewrite imap_app. cbn [imap]. rewrite foldl_snoc, E. unfold group_row. cbn [fst snd]. rewrite Nat.add_0_r.
  set (uid := ch_UID (tr_Change r)). unfold compose.
  assert (Hpos : forall u, positions u (rows ++ [r]) = positions u rows ++ (if of_uid u r then [length rows] else [])) by (intros; apply positions_snoc).
  destruct (bool_decide_reflect (ch_EventType (tr_Change r) = EventKubernetes)) as [Ev|Ev].
  - assert (Hno : forall u, of_uid u r = false) by (intros u; unfold of_uid; by rewrite bool_decide_eq_true_2).
    exists uids. split_and!; [done|apply map_ext; intros u; by rewrite Hpos, Hno, app_nil_r|]. intros u. by rewrite Hpos, Hno, app_nil_r.
  - assert (Hof : forall u, of_uid u r = bool_decide (u = uid)).
    { intros u. unfold of_uid. rewrite (bool_decide_eq_false_2 (_ = EventKubernetes)) by done. simpl. fold uid. apply bool_decide_ext. split; congruence. }
    rewrite group_position_spec by done. destruct (decide (uid ∈ uids)) as [Hin|Hin].
    + exists uids. split_and!; [done| |].
      * apply map_ext. intros u. rewrite Hpos, Hof. case_decide; [rewrite bool_decide_eq_true_2 by done; done|].
        by rewrite bool_decide_eq_false_2, app_nil_r.
      * intros u. rewrite Hu, Hpos, Hof. case_bool_decide as Eu; [|by rewrite app_nil_r]. subst u. split; [by intros _ []%app_nil|].
        intros _. by apply Hu.
    + exists (uids ++ [uid]). split_and!.
      * apply NoDup_app. split_and!; [done| |apply NoDup_singleton]. by intros u Hx ->%list_elem_of_singleton.
      * rewrite map_app. f_equal.
        -- apply map_ext_in. intros u Hx%list_elem_of_In. rewrite Hpos, Hof, bool_decide_eq_false_2, app_nil_r; [done|]. by intros ->.
        -- cbn [map]. rewrite Hpos, Hof, bool_decide_eq_true_2 by done. destruct (positions uid rows) eqn:Ep; [done|].
           destruct Hin. apply Hu. by rewrite Ep.
      * intros u. rewrite elem_of_app, list_elem_of_singleton, Hu, Hpos, Hof. case_bool_decide as Eu; [|rewrite app_nil_r; naive_solver].
        split; [by intros _ []%app_nil|by right].
Qed.

Lemma positions_disjoint u v rows i : i ∈ positions u rows -> i ∈ positions v rows -> u = v.
Proof.
  intros (r & Hr & Hu)%positions_elem (r' & Hr' & Hv)%positions_elem. rewrite Hr in Hr'. injection Hr' as <-.
  unfold of_uid in *. apply andb_true_iff in Hu as [_ Hu%bool_decide_eq_true], Hv as [_ Hv%bool_decide_eq_true]. congruence.
Qed.

Lemma prior_groups_spec older rows0 uids rows rows' notices : answers_truly older rows0 ->
  (forall row, row ∈ rows0 -> testless (ch_Diff (tr_Change row))) -> NoDup uids ->
  (forall u, u ∈ uids -> positions u rows0 <> []) -> length rows = length rows0 ->
  (forall u i, u ∈ uids -> i ∈ positions u rows0 -> rows !! i = rows0 !! i) ->
  prior_groups state_at zone rows (map (fun u => positions u rows0) uids) = (rows', notices) ->
  length rows' = length rows0 /\
  (forall i, (forall u, u ∈ uids -> i ∉ positions u rows0) -> rows' !! i = rows !! i) /\
  (forall u i row, u ∈ uids -> i ∈ positions u rows0 -> rows0 !! i = Some row ->
     exists row', rows' !! i = Some row' /\ exact_row older rows0 (notices = []) i row row').
Proof.
  intros Ht Hno Hnd. revert rows rows' notices. induction Hnd as [|u uids Hu Hnd IH]; intros rows rows' notices Hne Hlen Ha; cbn [map prior_groups].
  { intros [= <- <-]. split_and!; [done|done|]. by intros u i row ?%not_elem_of_nil. }
  destruct (replayGroup state_at zone rows (positions u rows0)) as [rows1 notice] eqn:Er.
  destruct (replayGroup_spec older rows0 u rows rows1 notice Ht Hno ltac:(apply Hne; by left) Hlen ltac:(intros i; apply Ha; by left) Er) as (Hl1 & Hout1 & Hin1).
  destruct (prior_groups state_at zone rows1 (map (fun u => positions u rows0) uids)) as [rows2 rest] eqn:Eg. intros [= <- <-].
  assert (Hdis : forall v i, v ∈ uids -> i ∈ positions v rows0 -> i ∉ positions u rows0).
  { intros v i Hv Hi Hi2. apply Hu. by rewrite (positions_disjoint u v rows0 i Hi2 Hi). }
  destruct (IH rows1 rows2 rest) as (Hl2 & Hout2 & Hin2); [intros v Hv; apply Hne; by right|lia| |done|].
  { intros v i Hv Hi. rewrite Hout1 by (by eapply Hdis). apply (Ha v); [by right|done]. }
  split_and!; [done| |].
  - intros i Hi. rewrite Hout2 by (intros v Hv; apply Hi; by right). apply Hout1, Hi. by left.
  - intros v i row [->|Hv]%elem_of_cons Hi Hrow.
    + destruct (Hin1 i row Hi Hrow) as (row' & Hr' & Hx1 & Hx2). exists row'. split.
      * rewrite Hout2; [done|]. intros v Hv Hi2. by eapply Hdis.
      * split; [done|]. intros Hnil. apply Hx2. by destruct notice.
    + destruct (Hin2 v i row Hv Hi Hrow) as (row' & Hr' & Hx1 & Hx2). exists row'. split; [done|]. split; [done|].
      intros Hnil. apply Hx2. by destruct notice.
Qed.

(** ** What a row shows afterwards *)

(** Replacing and removing destroy a value. *)
Definition destroys (op : Op) : Prop := ro_Type op = OpReplace \/ ro_Type op = OpRemove.

(** An operation before and after: all it said it says still; a prior value it gained is the
    one its path holds in the document recorded before it; and, told [complete], it has the
    value if that document holds one. *)
Record exact_op (history : list ReplayRow) (complete : Prop) (op op' : Op) : Prop := {
  eo_same : ro_Type op' = ro_Type op /\ ro_Path op' = ro_Path op /\ ro_From op' = ro_From op /\ ro_Value op' = ro_Value op;
  eo_value : op' = op \/ (destroys op /\ ro_OldKnown op' = true /\
    exists d, recorded_document history d /\ valueAtPointer d (ro_Path op) = Some (ro_Old op'));
  eo_complete : complete -> destroys op -> forall d v, recorded_document history d -> valueAtPointer d (ro_Path op) = Some v ->
    ro_OldKnown op' = true /\ ro_Old op' = v;
}.

Lemma needs_destroys op : needsPriorValue op = true <-> destroys op.
Proof. unfold needsPriorValue, destroys. rewrite orb_true_iff, !bool_decide_eq_true. done. Qed.

Lemma kept_exact history (complete : Prop) op : (complete -> ~ destroys op) -> exact_op history complete op op.
Proof. intros Hc. split; [done|by left|]. intros Hx Hd. by destruct (Hc Hx). Qed.

Lemma filled_exact history complete s op : tracks s history -> forall d, decode_any s = Some d -> exact_op history complete op (fill_op d op).
Proof.
  intros Ht d Hd. unfold fill_op. destruct (needsPriorValue op) eqn:En; [|apply kept_exact; rewrite <-needs_destroys; congruence].
  pose proof (proj1 (tracks_document s history d Ht) Hd) as Hr.
  destruct (valueAtPointer d (ro_Path op)) as [v|] eqn:Ev.
  - split; [done| |].
    + right. split_and!; [by apply needs_destroys|done|]. by exists d.
    + intros _ _ d' v' Hr' Hv'. apply (proj2 (tracks_document s history d' Ht)) in Hr'. rewrite Hd in Hr'. injection Hr' as <-.
      rewrite Ev in Hv'. by injection Hv' as <-.
  - split; [done|by left|]. intros _ _ d' v' Hr' Hv'. apply (proj2 (tracks_document s history d' Ht)) in Hr'. congruence.
Qed.

Lemma fill_ops_exact history complete s ops : tracks s history -> Forall2 (exact_op history complete) ops (fillOldValues s ops).
Proof.
  intros Ht. unfold fillOldValues. destruct (existsb needsPriorValue ops) eqn:En; cbn [negb].
  - destruct (decode_any s) as [d|] eqn:Ed.
    + clear En. induction ops as [|op ops IH]; constructor; [by apply (filled_exact _ _ s)|done].
    + clear En. induction ops as [|op ops IH]; constructor; [|done]. split; [done|by left|].
      intros _ _ d v Hr. apply (proj2 (tracks_document s history d Ht)) in Hr. congruence.
  - apply not_true_iff_false in En. assert (Hn : forall op, op ∈ ops -> ~ destroys op).
    { intros op Ho Hd. apply En, existsb_exists. exists op. split; [by apply list_elem_of_In|by apply needs_destroys]. }
    clear En. induction ops as [|op ops IH]; constructor; [apply kept_exact; intros _; apply Hn; by left|]. apply IH.
    intros op' Ho. apply Hn. by right.
Qed.

(** A row before and after. *)
Definition shows (history : list ReplayRow) (complete : Prop) (row row' : TimelineRow) : Prop :=
  tr_Change row' = tr_Change row /\ tr_PatchErr row' = tr_PatchErr row /\
  Forall2 (exact_op history complete) (tr_Ops row) (tr_Ops row').

Lemma exact_row_shows older rows complete i row row' : ch_EventType (tr_Change row) <> EventKubernetes ->
  exact_row older rows complete i row row' -> shows (history_before older rows (ch_UID (tr_Change row)) i) complete row row'.
Proof.
  intros Hk [[->|(s & Hs & ->)] Hc].
  - split_and!; [done|done|]. destruct (existsb needsPriorValue (tr_Ops row)) eqn:En.
    + assert (Hall : complete -> Forall2 (exact_op (history_before older rows (ch_UID (tr_Change row)) i) complete) (tr_Ops row) (tr_Ops row)).
      { intros Hx. destruct (Hc Hx Hk eq_refl) as (s & Hs & E). pose proof (fill_ops_exact _ complete s (tr_Ops row) Hs) as Hf.
        apply (f_equal tr_Ops) in E. cbn in E. by rewrite <-E in Hf. }
      apply Forall2_same_length_lookup. split; [done|]. intros k op op' Hk1 Hk2. rewrite Hk1 in Hk2. injection Hk2 as <-.
      split; [done|by left|]. intros Hx Hd. specialize (Hall Hx). pose proof (Forall2_lookup_lr _ _ _ _ _ _ Hall Hk1 Hk1) as He.
      by apply (eo_complete _ _ _ _ He).
    + apply not_true_iff_false in En. apply Forall2_same_length_lookup. split; [done|]. intros k op op' Hk1 Hk2.
      rewrite Hk1 in Hk2. injection Hk2 as <-. apply kept_exact. intros _ Hd. apply En, existsb_exists. exists op.
      split; [by apply list_elem_of_In; eapply list_elem_of_lookup_2|by apply needs_destroys].
  - split_and!; [done|done|]. by apply fill_ops_exact.
Qed.
End tracking.

(** C19: an arrow starts at the true past. Take the rows of a timeline - several
    incarnations and merged Events allowed - each incarnation's rows a consecutive run of
    its recorded history, and a read plane whose answers are reconstructions of that
    history. Filling in prior values changes nothing of a row but that an operation which
    replaces or removes may gain one, and the value it gains is what its path holds in the
    document the read plane's replay makes of everything that incarnation recorded before
    that row; Events are untouched; and unless a notice says otherwise, every such
    operation whose path that document holds has the value. *)
Theorem prior_values_exact `{DocumentLaws} state_at zone older rows :
  answers_truly state_at older rows -> (forall row, row ∈ rows -> testless (ch_Diff (tr_Change row))) ->
  let '(rows', notices) := PriorValues state_at zone rows in
  length rows' = length rows /\
  forall i row, rows !! i = Some row -> exists row', rows' !! i = Some row' /\
    (ch_EventType (tr_Change row) = EventKubernetes -> row' = row) /\
    (ch_EventType (tr_Change row) <> EventKubernetes ->
     shows (history_before older rows (ch_UID (tr_Change row)) i) (notices = []) row row').
Proof.
  intros Ht Hno. unfold PriorValues. destruct (byIncarnation_spec rows) as (uids & Hnd & E & Hu). rewrite E.
  destruct (prior_groups state_at zone rows (map (fun u => positions u rows) uids)) as [rows' notices] eqn:Eg.
  destruct (prior_groups_spec state_at zone older rows uids rows rows' notices Ht Hno Hnd ltac:(intros u; apply Hu) eq_refl ltac:(done) Eg)
    as (Hl & Hout & Hin). split; [done|]. intros i row Hrow.
  destruct (bool_decide_reflect (ch_EventType (tr_Change row) = EventKubernetes)) as [Ev|Ev].
  - exists row. split_and!; [|done|done]. rewrite Hout; [done|]. intros u _ (r & Hr & Hof)%positions_elem.
    rewrite Hrow in Hr. injection Hr as <-. unfold of_uid in Hof. by rewrite bool_decide_eq_true_2 in Hof.
  - assert (Hpos : i ∈ positions (ch_UID (tr_Change row)) rows).
    { apply positions_elem. exists row. split; [done|]. unfold of_uid. by rewrite bool_decide_eq_false_2, bool_decide_eq_true_2. }
    destruct (Hin (ch_UID (tr_Change row)) i row) as (row' & Hr' & Hx); [|done|done|].
    + apply Hu. intros En. rewrite En in Hpos. by apply not_elem_of_nil in Hpos.
    + exists row'. split_and!; [done|done|]. intros _. by apply exact_row_shows.
Qed.

(** ** The end state is the read plane's *)

(** Replaying a run for its attribution arrives at the state replaying it for a
    reconstruction arrives at: while the latter succeeds, the former keeps its document,
    says nothing, and the field list is of the same instant. *)
Theorem attribution_state_is_replay `{AnyCodec, PatchCodec, JsonPatch, Encoders} zone seed rows state applied last' base :
  Forall (fun row => ch_EventType (tr_Change row) <> EventKubernetes /\ ch_EventType (tr_Change row) <> EventDeleted /\ tr_PatchErr row = "") rows ->
  replay_loop (map (fun row => ArchiveState.replay_row (tr_Change row)) rows) seed 0 base = Ok (state, applied, last') ->
  at_state (AttributeRun zone (Some seed) rows) = Some state /\ at_stale (AttributeRun zone (Some seed) rows) = false /\
  at_Notices (AttributeRun zone (Some seed) rows) = [].
Proof.
  unfold AttributeRun. intros Hf. generalize 0%Z. revert base.
  assert (Hgen : forall a base n, at_state a = Some seed -> at_stale a = false -> at_Notices a = [] ->
            replay_loop (map (fun row => ArchiveState.replay_row (tr_Change row)) rows) seed n base = Ok (state, applied, last') ->
            let a' := attribute_loop zone rows a in at_state a' = Some state /\ at_stale a' = false /\ at_Notices a' = []);
    [|by intros base n; apply Hgen].
  revert seed. induction Hf as [|row rows (Hk & Hdel & Herr) Hf IH]; intros seed a base n Hs Hst Hno; [by intros [= <- <- <-]|].
  cbn [map replay_loop attribute_loop]. rewrite !bool_decide_eq_false_2 by done. simpl rr_Data. simpl rr_Diff.
  assert (Hrec : exists a0, record zone row a = advance zone row a0 /\ at_state a0 = Some seed /\ at_stale a0 = false /\ at_Notices a0 = []).
  { unfold record. rewrite (bool_decide_eq_true_2 (tr_PatchErr row = "")) by done. cbn [negb]. case_match.
    - eexists. split; [done|]. generalize (tr_Ops row). intros ops. clear -Hs Hst Hno. revert a Hs Hst Hno.
      induction ops as [|op ops IH]; intros a Hs Hst Hno; [done|]. by apply IH.
    - case_match; [|by exists a]. eexists. split; [done|]. unfold recordFullState. destruct (decode_any _); [|done].
      assert (Hfold : forall (f : string -> Attribution -> Attribution) l b,
                (forall x b, at_state (f x b) = at_state b /\ at_stale (f x b) = at_stale b /\ at_Notices (f x b) = at_Notices b) ->
                let b' := foldl (fun b x => f x b) b l in at_state b' = at_state b /\ at_stale b' = at_stale b /\ at_Notices b' = at_Notices b).
      { clear. intros f l. induction l as [|x l IH]; intros b Hx; [done|]. simpl. destruct (IH (f x b) Hx) as (-> & -> & ->). apply Hx. }
      match goal with |- context [foldl ?g (foldl ?h ?b ?l) ?l'] =>
        destruct (Hfold (fun x b => g b x) l' (foldl h b l)) as (-> & -> & ->); [intros; by case_match|];
        destruct (Hfold (fun x b => h b x) l b) as (-> & -> & ->); [intros; case_match; [case_match|]; done|] end. done. }
  destruct Hrec as (a0 & -> & Hs0 & Hst0 & Hno0). unfold advance.
  destruct (bool_decide_reflect (ch_Data (tr_Change row) = "")) as [Ed|Ed]; cbn [negb].
  - rewrite decide_False by (intros Hc; by apply Hc). rewrite Hs0, Hst0. cbn [orb].
    destruct (bool_decide_reflect (ch_Diff (tr_Change row) = "")) as [Ef|Ef].
    + rewrite decide_False by (intros Hc; by apply Hc). by apply IH.
    + rewrite decide_True by done. destruct (DecodePatch _); [|done]. destruct (patch_Apply _ _); [|done]. by apply IH.
  - rewrite decide_True by done. by apply IH.
Qed.

(** ** Evaluation *)

Module BlameSamples.

(** Documents with one member, spelled by its value; a patch is its new value, and does
    not apply to the document [gone]. *)
Definition note (s : string) : gmap string json := {[ "note" := JStr s ]}.
Definition note_any : AnyCodec := {|
  decode_any s := Some (JObj (note s));
  encode_any v := match v with JStr s => Some s | _ => None end;
|}.
Definition note_objects : Encoders := {|
  json_marshal o := match o !! "note" with Some (JStr s) => if decide (o = note s) then Some s else None | _ => None end;
  json_unmarshal s := Some (note s);
  sha256_hex s := s;
|}.
Definition note_patch : JsonPatch := {|
  patch := string;
  DecodePatch s := Ok s;
  patch_Apply p s := if bool_decide (s = "gone") then Err "no such member" else Ok p;
|}.
Definition note_ops : PatchCodec := {| decode_ops s := Ok [mkWireOp OpReplace "/note" "" s] |}.
Definition in_order : MapRange := {| range := map_to_list |}.
Definition not_after {A} (cmp : A -> A -> Z) (x y : A) : Prop := (cmp x y <= 0)%Z.
#[local] Instance not_after_dec {A} (cmp : A -> A -> Z) : RelDecision (not_after cmp).
Proof. intros x y. unfold not_after. apply _. Defined.
Definition insertion : SlicesSort := {| SortFunc A cmp l := stable_sort (not_after cmp) l |}.
#[local] Existing Instances note_any note_objects note_patch note_ops in_order insertion.

Lemma note_inj s t : note s = note t -> s = t.
Proof. intros E. assert (E' : note s !! "note" = note t !! "note") by (by rewrite E). unfold note in E'. rewrite !lookup_singleton_eq in E'. by injection E'. Qed.

#[local] Instance note_laws : DocumentLaws.
Proof.
  split.
  - intros s o E. unfold decode_any, note_any in E. injection E as <-. done.
  - intros s o E _. cbn in E. injection E as <-. done.
  - intros s o s' E _. cbn in E. injection E as <-. cbn [json_marshal note_objects]. unfold note at 1. rewrite lookup_singleton_eq.
    rewrite decide_True by done. by intros [= <-].
  - intros diff p s s' d n _ _ Hs Hs' Hn. change (Some (JObj (note s)) = Some d) in Hs. change (Some (JObj (note s')) = Some d) in Hs'.
    rewrite <-Hs in Hs'. apply (f_equal (fun v => match v with Some (JObj o) => o | _ => ∅ end)) in Hs'. apply note_inj in Hs' as ->.
    by exists n, (JObj (note n)).
Qed.

#[local] Instance in_order_laws : MapRangeLaws.
Proof. split. done. Qed.

#[local] Instance insertion_laws : SlicesSortLaws.
Proof.
  split; intros A cmp l; [apply stable_sort_Permutation|]. simpl. intros [Hanti Htr]. change (StronglySorted (not_after cmp) (stable_sort (not_after cmp) l)).
  induction l as [|x l IH]; simpl; [constructor|].
  assert (Hs : StronglySorted (not_after cmp) (stable_sort (not_after cmp) l)).
  { apply IH; intros; [apply Hanti|eapply Htr]; eauto; by right. }
  assert (Hin : forall y, y ∈ stable_sort (not_after cmp) l -> y ∈ x :: l) by (intros y; rewrite stable_sort_Permutation; by right).
  clear IH. induction Hs as [|y l' Hs' IH' Hf]; simpl; [by repeat constructor|]. case_decide as Hxy.
  - constructor; [by constructor|]. constructor; [done|]. rewrite Forall_forall in Hf |- *. intros z Hz.
    eapply (Htr x y z); [by left|apply Hin; by left|apply Hin; by right|done|by apply Hf].
  - constructor; [apply IH'; intros z Hz; apply Hin; by right|]. rewrite insert_before_Permutation. constructor; [|done].
    assert (Hy : y ∈ x :: l) by (apply Hin; by left). pose proof (Hanti x y ltac:(by left) Hy). unfold not_after in *. lia.
Qed.

Definition change_of (ts : Z) (kind data diff : string) : Change := mkChange ts kind ["kubectl"] "u1" "" "" data diff "" ∅.
Definition sample_rows : list TimelineRow :=
  DecodeRows [change_of 10 "Modified" "" "b"; change_of 20 "Event" "" "x"; change_of 30 "Modified" "" "c"].
Definition older (uid : string) : list Change := [change_of 5 "Added" "a" ""].
Definition sample_state (ts : Z) (uid : string) : result stateFailure Reconstruction :=
  if bool_decide (ts = 9%Z) then Ok (mkReconstruction (note "a") 5 "Added" 0 "") else Err (ObjectNotFound "").

(** The two arrows start at the value before each change: the second at what the first
    wrote, not at what the window began with. *)
Lemma prior_values_exact_witness :
  (fun r => (ro_Old <$> tr_Ops r, ro_OldKnown <$> tr_Ops r)) <$> (PriorValues sample_state UTC sample_rows).1 =
    [([JStr "a"], [true]); ([JNull], [false]); ([JStr "b"], [true])] /\
  (PriorValues sample_state UTC sample_rows).2 = [] /\
  exists row', (PriorValues sample_state UTC sample_rows).1 !! 2 = Some row' /\
    Forall2 (exact_op (history_before older sample_rows "u1" 2) ([] = [] :> list string)) (tr_Ops (row_at sample_rows 2)) (tr_Ops row').
Proof.
  split; [vm_compute; reflexivity|].
  assert (En : (PriorValues sample_state UTC sample_rows).2 = []) by (vm_compute; reflexivity). split; [exact En|].
  assert (Ht : answers_truly sample_state older sample_rows).
  { intros uid i r Hi. unfold sample_state. case_bool_decide; [|done]. intros [= <-]. split; [apply insert_non_empty|]. exists 0. by vm_compute. }
  assert (Hno : forall row, row ∈ sample_rows -> testless (ch_Diff (tr_Change row))).
  { intros row _ _. eexists. split; [done|]. constructor; [discriminate|constructor]. }
  pose proof (prior_values_exact sample_state UTC older sample_rows Ht Hno) as Hp.
  destruct (PriorValues sample_state UTC sample_rows) as [rows' notices]. cbn [fst snd] in *. subst notices.
  destruct (proj2 Hp 2 (row_at sample_rows 2) eq_refl) as (row' & Hr & _ & Hs). exists row'. split; [exact Hr|].
  apply Hs. discriminate.
Defined.

(** The field was last written by the last change, Events aside. *)
Lemma blame_names_newest_witness :
  fw_ts <$> lastWrite (at_writes (AttributeRun UTC (Some "a") sample_rows)) "/note" = Some 30%Z /\
  exists q w, (q, w) ∈ attribution_log UTC (Some "a") sample_rows /\ related q "/note" /\ fw_ts w = 30%Z.
Proof.
  assert (E : fw_ts <$> lastWrite (at_writes (AttributeRun UTC (Some "a") sample_rows)) "/note" = Some 30%Z) by (vm_compute; reflexivity).
  split; [exact E|].
  assert (Hok : pointers_ok sample_rows).
  { intros row op Hr Ho.
    assert (Hin : ro_Path op ∈ concat (map (fun r => map ro_Path (tr_Ops r)) sample_rows)).
    { apply list_elem_of_In, in_concat. exists (map ro_Path (tr_Ops row)).
      split; apply list_elem_of_In, list_elem_of_fmap; eauto. }
    assert (Hall : forallb (String.eqb "/note") (concat (map (fun r => map ro_Path (tr_Ops r)) sample_rows)) = true) by (vm_compute; reflexivity).
    rewrite forallb_forall in Hall. apply list_elem_of_In, Hall, String.eqb_eq in Hin. rewrite <-Hin. exact (slash_is_pointer "note"). }
  pose proof (blame_names_newest UTC (Some "a") sample_rows "/note" ltac:(repeat constructor; simpl; lia) Hok (slash_is_pointer "note")) as Hn.
  destruct (lastWrite _ _) as [w|]; [|done]. destruct Hn as (q & Hq & Hr & _). exists q, w. split_and!; [exact Hq|exact Hr|]. by injection E.
Defined.

Lemma blame_table_partitions_witness :
  (fun r => (br_Path r, br_TS r, br_Fields r)) <$> BlameRows (AttributeRun UTC (Some "a") sample_rows) [] 0 = [("note", 30%Z, 1)] /\
  sum_list (map br_Fields (BlameRows (AttributeRun UTC (Some "a") sample_rows) [] 0)) = 1.
Proof.
  split; [vm_compute; reflexivity|].
  destruct (blame_table_partitions (AttributeRun UTC (Some "a") sample_rows) [] 0) as (_ & _ & _ & Hsum & _). exact Hsum.
Defined.

(** The order of pointers is not one: numbers compare as numbers with each other and as
    text with names. *)
Example compare_pointers_cycle :
  (comparePointers "/data/10" "/data/1a" < 0)%Z /\ (comparePointers "/data/1a" "/data/2" < 0)%Z /\
  (comparePointers "/data/2" "/data/10" < 0)%Z.
Proof. vm_compute. done. Qed.

(** Seeded with the oldest full state of the window, a replay of the changes before it
    runs over a document that already has them: the notice it leaves denies the table a
    state it goes on to have. *)
Example fallback_replays_twice :
  let rows := DecodeRows [change_of 11 "Modified" "" "gone"; change_of 20 "Checkpoint" "gone" ""] in
  let '(seed, _, _) := seedBlameState UTC sample_state None None 100 "u1" rows in
  let a := AttributeRun UTC seed rows in
  seed = Some "gone" /\ at_state a = Some "gone" /\ at_stale a = false /\ length (at_Notices a) = 1.
Proof. vm_compute. split_and!; reflexivity. Qed.
End BlameSamples.
