(* ===== verification/Ownership.v ===== *)
(** * Ownership: the ownership tree of a window

    Models [src/internal/query/ownership.go]: owner references, the breadth-first walk
    with its two bounds, and the gaps it measures. [encoding/json] of a recorded
    document is the class [OwnerCodec]. *)

From S2P Require Import Prelude Calendar HashCache GoJson Diff QueryFilter SinkTypes S3Object ScopeLog Layout Archive.

(** ** Values *)

Record OwnerReference := mkOwner {
  ow_APIVersion : string;
  ow_Kind : string;
  ow_Name : string;
  ow_UID : string;
}.

#[export] Instance OwnerReference_eq_dec : EqDecision OwnerReference.
Proof. solve_decision. Defined.

Record OwnedObject := mkOwned {
  oo_Ref : ObjectRef;
  oo_UID : string;
  oo_StateRecorded : bool;
  oo_Owners : list OwnerReference;
}.

Record OwnedNode := mkNode {
  nd_Ref : ObjectRef;
  nd_UID : string;
  nd_Depth : nat;
  nd_OwnerUID : string;
}.

Record OwnershipTree := mkTree {
  tr_Nodes : list OwnedNode;
  tr_DepthLimited : bool;
  tr_BreadthLimited : bool;
  tr_MissingOwnerKinds : list string;
  tr_MissingOwnerObjects : nat;
  tr_UnreadableKinds : list string;
  tr_UnreadableObjects : nat;
}.

Definition MaxOwnershipDepth : nat := 4.
Definition MaxOwnedObjects : nat := 500.

Class OwnerCodec := {
  (** [json.Unmarshal] into an [ownerReferencesEnvelope], and into the array alone *)
  owners_of_document : string -> option (list OwnerReference);
  owners_of_array : string -> option (list OwnerReference);
}.

Definition keepIdentifiedOwners (owners : list OwnerReference) : list OwnerReference :=
  List.filter (fun o => bool_decide (ow_UID o <> "")) owners.

Definition OwnersOf `{OwnerCodec} (data : string) : list OwnerReference :=
  if bool_decide (data = "") then []
  else match owners_of_document data with None => [] | Some owners => keepIdentifiedOwners owners end.

Definition ParseOwnerReferences `{OwnerCodec} (raw : string) : list OwnerReference :=
  if bool_decide (raw = "") then []
  else match owners_of_array raw with None => [] | Some owners => keepIdentifiedOwners owners end.

Definition Complete (t : OwnershipTree) : bool :=
  negb (tr_DepthLimited t) && negb (tr_BreadthLimited t) &&
  bool_decide (tr_MissingOwnerObjects t = 0) && bool_decide (tr_UnreadableObjects t = 0).

Definition Refs (t : OwnershipTree) : list ObjectRef := map nd_Ref (tr_Nodes t).

Definition UIDsOf (objects : list OwnedObject) (ref : ObjectRef) : list string :=
  map oo_UID (List.filter (fun o => bool_decide (oo_UID o <> "") && bool_decide (oo_Ref o = ref)) objects).

(** ** The walk *)

(** The two maps of the first loop: dependents by owner, and the captured UIDs. *)
Definition index_owner (i : nat) (children : gmap string (list nat)) (owner : OwnerReference) : gmap string (list nat) :=
  if bool_decide (ow_UID owner <> "") then <[ow_UID owner := default [] (children !! ow_UID owner) ++ [i]]> children
  else children.

Fixpoint index_objects (i : nat) (objects : list OwnedObject) (children : gmap string (list nat)) (captured : gset string)
    : gmap string (list nat) * gset string :=
  match objects with
  | [] => (children, captured)
  | object :: rest =>
      if bool_decide (oo_UID object = "") then index_objects (S i) rest children captured
      else index_objects (S i) rest (foldl (index_owner i) children (oo_Owners object)) ({[oo_UID object]} ∪ captured)
  end.

Fixpoint start_roots (roots : list string) (visited : gset string) (frontier : list string) : gset string * list string :=
  match roots with
  | [] => (visited, frontier)
  | root :: rest =>
      if bool_decide (root = "") || bool_decide (root ∈ visited) then start_roots rest visited frontier
      else start_roots rest ({[root]} ∪ visited) (frontier ++ [root])
  end.

Record walkState := mkWalk {
  wa_nodes : list OwnedNode;
  wa_visited : gset string;
  wa_next : list string;
  wa_limited : bool;
}.

Section walk.
Context (objects : list OwnedObject) (children : gmap string (list nat)).

(** The dependents of one owner; a full tree breaks the loop and drops the level. *)
Fixpoint visit_children (depth : nat) (owner : string) (indices : list nat) (s : walkState) : walkState :=
  match indices with
  | [] => s
  | index :: rest =>
      match objects !! index with
      | None => s
      | Some child =>
          if bool_decide (oo_UID child ∈ wa_visited s) then visit_children depth owner rest s
          else if bool_decide (MaxOwnedObjects <= length (wa_nodes s))
          then mkWalk (wa_nodes s) (wa_visited s) [] true
          else visit_children depth owner rest
                 (mkWalk (wa_nodes s ++ [mkNode (oo_Ref child) (oo_UID child) depth owner])
                    ({[oo_UID child]} ∪ wa_visited s) (wa_next s ++ [oo_UID child]) (wa_limited s))
      end
  end.

Fixpoint visit_level (depth : nat) (frontier : list string) (s : walkState) : walkState :=
  match frontier with
  | [] => s
  | owner :: rest =>
      let s := visit_children depth owner (default [] (children !! owner)) s in
      if wa_limited s then s else visit_level depth rest s
  end.

(** The levels from [depth] on, [levels] of them at most. *)
Fixpoint visit_levels (levels depth : nat) (frontier : list string) (s : walkState) : list string * walkState :=
  match levels with
  | O => (frontier, s)
  | S levels =>
      if bool_decide (length frontier = 0) then (frontier, s)
      else
        let s := visit_level depth frontier (mkWalk (wa_nodes s) (wa_visited s) [] (wa_limited s)) in
        visit_levels levels (S depth) (wa_next s) s
  end.

Definition hasUnvisited (frontier : list string) (visited : gset string) : bool :=
  existsb (fun owner => existsb (fun index => match objects !! index with
                                              | Some o => negb (bool_decide (oo_UID o ∈ visited))
                                              | None => false
                                              end) (default [] (children !! owner))) frontier.
End walk.

(** ** The gaps *)

Definition sortedKeys (set : gset string) : list string := merge_sort String.le (elements set).

Definition unreached (visited : gset string) (o : OwnedObject) : bool := negb (bool_decide (oo_UID o ∈ visited)).

(** The first owner the archive does not hold. *)
Definition missing_owner (captured : gset string) (o : OwnedObject) : option OwnerReference :=
  List.find (fun owner => negb (bool_decide (ow_UID owner ∈ captured))) (oo_Owners o).

Fixpoint measureGaps (objects : list OwnedObject) (visited captured : gset string)
    (missing unreadable : gset string) (nmissing nunreadable : nat) : gset string * gset string * nat * nat :=
  match objects with
  | [] => (missing, unreadable, nmissing, nunreadable)
  | o :: rest =>
      if bool_decide (oo_UID o ∈ visited) then measureGaps rest visited captured missing unreadable nmissing nunreadable
      else if negb (oo_StateRecorded o)
      then measureGaps rest visited captured missing ({[or_Kind (oo_Ref o)]} ∪ unreadable) nmissing (S nunreadable)
      else match missing_owner captured o with
           | Some owner => measureGaps rest visited captured ({[ow_Kind owner]} ∪ missing) unreadable (S nmissing) nunreadable
           | None => measureGaps rest visited captured missing unreadable nmissing nunreadable
           end
  end.

Definition Descendants (roots : list string) (objects : list OwnedObject) : OwnershipTree :=
  let '(children, captured) := index_objects 0 objects ∅ ∅ in
  let '(visited, frontier) := start_roots roots ∅ [] in
  let '(frontier, s) := visit_levels objects children MaxOwnershipDepth 1 frontier (mkWalk [] visited [] false) in
  let '(missing, unreadable, nmissing, nunreadable) := measureGaps objects (wa_visited s) captured ∅ ∅ 0 0 in
  mkTree (wa_nodes s) (hasUnvisited objects children frontier (wa_visited s)) (wa_limited s)
    (sortedKeys missing) nmissing (sortedKeys unreadable) nunreadable.

(** ** The indexes *)

(** [v] was recorded naming [u] as an owner. *)
Definition owns (objects : list OwnedObject) (u v : string) : Prop :=
  exists o r, o ∈ objects /\ oo_UID o = v /\ v <> "" /\ r ∈ oo_Owners o /\ ow_UID r = u /\ u <> "".

Lemma index_owners_lookup i owners children u j :
  j ∈ default [] (foldl (index_owner i) children owners !! u) <->
  j ∈ default [] (children !! u) \/ (j = i /\ u <> "" /\ exists r, r ∈ owners /\ ow_UID r = u).
Proof.
  revert children. induction owners as [|r owners IH]; intros children; cbn [foldl].
  - split; [by left|]. intros [?|(_ & _ & r & Hr & _)]; [done|]. by apply elem_of_nil in Hr.
  - rewrite IH. unfold index_owner. case_bool_decide as Hne.
    + destruct (decide (u = ow_UID r)) as [->|Hu].
      * rewrite lookup_insert_eq. cbn. rewrite elem_of_app, list_elem_of_singleton. set_solver.
      * rewrite lookup_insert_ne by done. set_solver.
    + set_solver.
Qed.

Lemma index_objects_spec i objects children captured children' captured' :
  index_objects i objects children captured = (children', captured') ->
  (forall u j, j ∈ default [] (children' !! u) <-> j ∈ default [] (children !! u) \/
     exists k o r, j = i + k /\ objects !! k = Some o /\ oo_UID o <> "" /\ u <> "" /\ r ∈ oo_Owners o /\ ow_UID r = u) /\
  (forall u, u ∈ captured' <-> u ∈ captured \/ (u <> "" /\ exists o, o ∈ objects /\ oo_UID o = u)).
Proof.
  revert i children captured. induction objects as [|o objects IH]; intros i children captured; cbn [index_objects].
  - intros [= <- <-]. split; [intros u j|intros u]; (split; [by left|]); intros [?|Hx]; try done.
    + by destruct Hx as (k & o & r & _ & Hk & _).
    + destruct Hx as (_ & o & Ho & _). by apply elem_of_nil in Ho.
  - assert (Hcons : forall P : nat -> OwnedObject -> Prop,
      (exists k x, (o :: objects) !! k = Some x /\ P (i + k) x) <-> P i o \/ exists k x, objects !! k = Some x /\ P (S i + k) x).
    { intros P. split.
      - intros ([|k] & x & Hk & HP); cbn in Hk; [injection Hk as ->; rewrite Nat.add_0_r in HP; by left|].
        right. exists k, x. split; [done|]. by replace (S i + k) with (i + S k) by lia.
      - intros [HP|(k & x & Hk & HP)]; [exists 0, o; by rewrite Nat.add_0_r|].
        exists (S k), x. split; [done|]. by replace (i + S k) with (S i + k) by lia. }
    case_bool_decide as He; intros (Hc & Hk)%IH; split.
    + intros u j. rewrite Hc. specialize (Hcons (fun n x => exists r, j = n /\ oo_UID x <> "" /\ u <> "" /\ r ∈ oo_Owners x /\ ow_UID r = u)).
      naive_solver.
    + intros u. rewrite Hk. set_solver.
    + intros u j. rewrite Hc, index_owners_lookup.
      specialize (Hcons (fun n x => exists r, j = n /\ oo_UID x <> "" /\ u <> "" /\ r ∈ oo_Owners x /\ ow_UID r = u)).
      naive_solver.
    + intros u. rewrite Hk. set_solver.
Qed.

(** What the index offers under an owner are the positions of its dependents. *)
Definition indexes (objects : list OwnedObject) (children : gmap string (list nat)) : Prop :=
  forall u i, i ∈ default [] (children !! u) <->
    exists o, objects !! i = Some o /\ oo_UID o <> "" /\ owns [o] u (oo_UID o).

Lemma index_objects_indexes objects children captured :
  index_objects 0 objects ∅ ∅ = (children, captured) -> indexes objects children.
Proof.
  intros [Hc _]%index_objects_spec u i. rewrite Hc, lookup_empty. cbn. rewrite elem_of_nil. unfold owns.
  split.
  - intros [[]|(k & o & r & -> & Hk & Ho & Hu & Hr & He)]. exists o. split; [done|]. split; [done|].
    exists o, r. split; [by left|]. done.
  - intros (o & Hi & Hne & o' & r & ->%list_elem_of_singleton & _ & _ & Hr & He & Hu). right.
    by exists i, o, r.
Qed.

Lemma indexed_owns objects children u v : indexes objects children ->
  owns objects u v <-> exists i o, i ∈ default [] (children !! u) /\ objects !! i = Some o /\ oo_UID o = v.
Proof.
  intros Hx. split.
  - intros (o & r & [i Hi]%list_elem_of_lookup & <- & Hne & Hr). exists i, o. split; [|done]. apply Hx. exists o.
    split; [done|]. split; [done|]. exists o, r. split; [by left|]. tauto.
  - intros (i & o & Hi & Ho & <-). apply Hx in Hi as (o' & Ho' & Hne & o'' & r & ->%list_elem_of_singleton & Heq & Hrest).
    rewrite Ho in Ho'. injection Ho' as <-. exists o, r. split; [by eapply list_elem_of_lookup_2|]. done.
Qed.

(** ** One level of the walk *)

Section level.
Context (objects : list OwnedObject) (children : gmap string (list nat)).

(** The walk went from [s] to [s'] over the edges [E], adding the nodes [new] at [depth]. *)
Record grew (depth : nat) (E : string -> string -> Prop) (s s' : walkState) (new : list OwnedNode) : Prop := {
  grew_nodes : wa_nodes s' = wa_nodes s ++ new;
  grew_visited : forall u, u ∈ wa_visited s' <-> u ∈ wa_visited s \/ u ∈ map nd_UID new;
  grew_once : NoDup (map nd_UID new);
  grew_new : forall n, n ∈ new -> (nd_UID n ∉ wa_visited s) /\ nd_Depth n = depth /\ E (nd_OwnerUID n) (nd_UID n) /\
    exists o, o ∈ objects /\ oo_UID o = nd_UID n /\ oo_Ref o = nd_Ref n;
  grew_bound : length (wa_nodes s) <= MaxOwnedObjects -> length (wa_nodes s') <= MaxOwnedObjects;
  grew_stop : if wa_limited s' then wa_next s' = [] /\ MaxOwnedObjects <= length (wa_nodes s') /\ exists u v, E u v /\ v ∉ wa_visited s'
              else wa_next s' = wa_next s ++ map nd_UID new /\ forall u v, E u v -> v ∈ wa_visited s';
}.

Lemma grew_refl depth s : wa_limited s = false -> grew depth (fun _ _ => False) s s [].
Proof.
  intros Hl. split; cbn; [by rewrite app_nil_r|set_solver|constructor|set_solver|done|].
  by rewrite Hl, app_nil_r.
Qed.

Lemma grew_trans depth E1 E2 (E : string -> string -> Prop) s s1 s2 new1 new2 : wa_limited s1 = false ->
  grew depth E1 s s1 new1 -> grew depth E2 s1 s2 new2 ->
  (forall u v, E u v <-> E1 u v \/ E2 u v) -> grew depth E s s2 (new1 ++ new2).
Proof.
  intros Hl G1 G2 HE. pose proof (grew_stop _ _ _ _ _ G1) as T1. rewrite Hl in T1. destruct T1 as [N1 D1].
  assert (Hnew : forall n, n ∈ new2 -> (nd_UID n ∉ wa_visited s) /\ (nd_UID n ∉ map nd_UID new1)).
  { intros n Hn. destruct (grew_new _ _ _ _ _ G2 n Hn) as [Hv _]. rewrite (grew_visited _ _ _ _ _ G1) in Hv. tauto. }
  split.
  - by rewrite (grew_nodes _ _ _ _ _ G2), (grew_nodes _ _ _ _ _ G1), app_assoc.
  - intros u. rewrite (grew_visited _ _ _ _ _ G2), (grew_visited _ _ _ _ _ G1), map_app. set_solver.
  - rewrite map_app. apply NoDup_app. split; [apply G1|]. split; [|apply G2].
    intros u Hu (n & -> & Hn)%list_elem_of_fmap. by destruct (Hnew n Hn).
  - intros n [Hn|Hn]%elem_of_app.
    + destruct (grew_new _ _ _ _ _ G1 n Hn) as (? & ? & ? & ?). rewrite HE. tauto.
    + destruct (grew_new _ _ _ _ _ G2 n Hn) as (? & ? & ? & ?). rewrite HE. destruct (Hnew n Hn). tauto.
  - intros Hb. by apply G2, G1.
  - pose proof (grew_stop _ _ _ _ _ G2) as T2. destruct (wa_limited s2).
    { destruct T2 as (? & ? & u & v & Hc & Hv). split_and!; [done..|]. exists u, v. split; [|done]. apply HE. by right. }
    destruct T2 as [N2 D2].
    split; [by rewrite N2, N1, map_app, app_assoc|].
    intros u v [H|H]%HE; [apply (grew_visited _ _ _ _ _ G2); left; by eapply D1|by eapply D2].
Qed.

(** A walk that stopped may be described by any larger set of edges. *)
Lemma grew_stopped depth (E E' : string -> string -> Prop) s s' new : wa_limited s' = true ->
  (forall u v, E u v -> E' u v) -> grew depth E s s' new -> grew depth E' s s' new.
Proof.
  intros Hl HE [H1 H2 H3 H4 H5 H6]. split; try done.
  - intros n Hn. destruct (H4 n Hn) as (? & ? & ? & ?). auto.
  - rewrite Hl in *. destruct H6 as (? & ? & u & v & ? & ?). split_and!; [done..|]. exists u, v. auto.
Qed.

Lemma grew_iff depth (E E' : string -> string -> Prop) s s' new :
  (forall u v, E u v <-> E' u v) -> grew depth E s s' new -> grew depth E' s s' new.
Proof.
  intros HE [H1 H2 H3 H4 H5 H6]. split; try done.
  - intros n Hn. rewrite <- HE. by apply H4.
  - destruct (wa_limited s').
    + destruct H6 as (? & ? & u & v & ? & ?). split_and!; [done..|]. exists u, v. by rewrite <-HE.
    + destruct H6 as [? H6]. split; [done|]. intros u v ?%HE. by eapply H6.
Qed.

(** The edges a list of positions offers under one owner. *)
Definition offered (owner : string) (indices : list nat) (u v : string) : Prop :=
  u = owner /\ exists i o, i ∈ indices /\ objects !! i = Some o /\ oo_UID o = v.

Lemma visit_children_grew depth owner indices s :
  wa_limited s = false -> (forall i, i ∈ indices -> is_Some (objects !! i)) ->
  exists new, grew depth (offered owner indices) s (visit_children objects depth owner indices s) new.
Proof.
  revert s. induction indices as [|i indices IH]; intros s Hl Hin; cbn [visit_children].
  - exists []. eapply grew_iff; [|by apply grew_refl]. unfold offered. set_solver.
  - destruct (Hin i) as [child Hi]; [by left|]. rewrite Hi.
    assert (Hrest : forall j, j ∈ indices -> is_Some (objects !! j)) by (intros j Hj; apply Hin; by right).
    assert (Hcons : forall u v, offered owner (i :: indices) u v <-> offered owner [i] u v \/ offered owner indices u v).
    { intros u v. unfold offered. setoid_rewrite elem_of_cons. set_solver. }
    case_bool_decide as Hv.
    + destruct (IH s Hl Hrest) as [new Hg]. exists ([] ++ new). eapply grew_trans; [exact Hl| |exact Hg|exact Hcons].
      pose proof (grew_refl depth s Hl) as [H1 H2 H3 H4 H5 H6]. split; try done; [set_solver|].
      rewrite Hl in *. split; [by cbn; rewrite app_nil_r|].
      intros u v (-> & j & o & ->%list_elem_of_singleton & Ho & <-). rewrite Hi in Ho. by injection Ho as <-.
    + case_bool_decide as Hb.
      * exists []. split; cbn [wa_nodes wa_visited wa_next wa_limited map];
          [by rewrite app_nil_r|set_solver|constructor|set_solver|done|].
        split_and!; [done..|]. exists owner, (oo_UID child). split; [|done]. split; [done|]. exists i, child. split; [by left|done].
      * pose (node := mkNode (oo_Ref child) (oo_UID child) depth owner).
        edestruct (IH (mkWalk (wa_nodes s ++ [node]) ({[oo_UID child]} ∪ wa_visited s) (wa_next s ++ [oo_UID child])
                     (wa_limited s)) Hl Hrest) as [new Hg].
        exists ([node] ++ new). eapply grew_trans; [| |exact Hg|exact Hcons]; [exact Hl|].
        split; cbn [wa_nodes wa_visited wa_next wa_limited map].
        -- done.
        -- set_solver.
        -- apply NoDup_singleton.
        -- intros n ->%list_elem_of_singleton. split; [exact Hv|]. split; [done|]. split; [split; [done|]; exists i, child; set_solver|].
           exists child. split; [by eapply list_elem_of_lookup_2|done].
        -- rewrite length_app. cbn [length]. lia.
        -- rewrite Hl. split; [done|]. intros u v (-> & j & o & ->%list_elem_of_singleton & Ho & <-).
           rewrite Hi in Ho. injection Ho as <-. set_solver.
Qed.

Context (Hindex : indexes objects children).

Lemma indexed_in_range u i : i ∈ default [] (children !! u) -> is_Some (objects !! i).
Proof. intros (o & Ho & _)%Hindex. by exists o. Qed.

Lemma visit_level_grew depth frontier s : wa_limited s = false ->
  exists new, grew depth (fun u v => u ∈ frontier /\ owns objects u v) s (visit_level objects children depth frontier s) new.
Proof.
  revert s. induction frontier as [|owner frontier IH]; intros s Hl; cbn [visit_level].
  - exists []. eapply grew_iff; [|by apply grew_refl]. set_solver.
  - destruct (visit_children_grew depth owner (default [] (children !! owner)) s Hl) as [new Hg].
    { intros i. apply indexed_in_range. }
    assert (Hoff : forall u v, offered owner (default [] (children !! owner)) u v <-> u = owner /\ owns objects u v).
    { intros u v. unfold offered. split; intros [-> Ho]; (split; [done|]); by apply (indexed_owns objects children owner v Hindex). }
    destruct (wa_limited (visit_children _ _ _ _ _)) eqn:Hs.
    + exists new. eapply grew_stopped; [exact Hs| |exact Hg]. intros u v [-> Ho]%Hoff. split; [by left|done].
    + destruct (IH _ Hs) as [new' Hg']. exists (new ++ new'). eapply grew_trans; [exact Hs|exact Hg|exact Hg'|].
      intros u v. rewrite Hoff, elem_of_cons. set_solver.
Qed.

End level.

(** ** Ownership chains *)

Section chains.
Context (roots : list string) (objects : list OwnedObject).

(** [v] hangs [k] recorded ownership edges below a root. *)
Inductive chain : nat -> string -> Prop :=
  | chain_root r : r ∈ roots -> r <> "" -> chain 0 r
  | chain_owned k u v : chain k u -> owns objects u v -> chain (S k) v.

(** ... and no fewer. *)
Definition distance (k : nat) (v : string) : Prop := chain k v /\ forall j, j < k -> ~ chain j v.

Lemma distance_unique j k v : distance j v -> distance k v -> j = k.
Proof.
  intros [Hj Hj'] [Hk Hk']. destruct (lt_eq_lt_dec j k) as [[Hl| ->]|Hl]; [by destruct (Hk' j)|done|by destruct (Hj' k)].
Qed.

Lemma closed_has_every_chain (V : gset string) k v :
  (forall r, r ∈ roots -> r <> "" -> r ∈ V) -> (forall u w, u ∈ V -> owns objects u w -> w ∈ V) -> chain k v -> v ∈ V.
Proof. intros Hr Hc. induction 1; eauto. Qed.

(** What [k] levels leave behind when nothing was cut: [V] is what lies within [k] edges,
    [F] the last level, and the edges of everything before it have been followed. *)
Record swept (k : nat) (V : gset string) (F : list string) : Prop := {
  swept_within : forall v, v ∈ V <-> exists j, j <= k /\ chain j v;
  swept_last : forall u, u ∈ F -> distance k u;
  swept_edges : forall u v, u ∈ V -> u ∉ F -> owns objects u v -> v ∈ V;
}.

(** A node stands at its distance, below an owner one edge nearer. *)
Definition placed (n : OwnedNode) : Prop :=
  0 < nd_Depth n /\ distance (nd_Depth n) (nd_UID n) /\ distance (pred (nd_Depth n)) (nd_OwnerUID n) /\
  owns objects (nd_OwnerUID n) (nd_UID n) /\ exists o, o ∈ objects /\ oo_UID o = nd_UID n /\ oo_Ref o = nd_Ref n.

Lemma level_places k s s' F new n : swept k (wa_visited s) F ->
  grew objects (S k) (fun u v => u ∈ F /\ owns objects u v) s s' new -> n ∈ new -> placed n.
Proof.
  intros Hs Hg Hn. destruct (grew_new _ _ _ _ _ _ Hg n Hn) as (Hv & Hd & [HF Ho] & Hobj). unfold placed. rewrite Hd. cbn [pred].
  pose proof (swept_last _ _ _ Hs _ HF) as Hk.
  split; [lia|]. split; [|done]. split; [econstructor; [apply Hk|done]|].
  intros j Hj Hc. apply Hv, Hs. exists j. split; [lia|done].
Qed.

Lemma level_sweeps k s s' F new : swept k (wa_visited s) F -> wa_next s = [] -> wa_limited s' = false ->
  grew objects (S k) (fun u v => u ∈ F /\ owns objects u v) s s' new -> swept (S k) (wa_visited s') (wa_next s').
Proof.
  intros Hs Hn Hl Hg. pose proof (grew_stop _ _ _ _ _ _ Hg) as Ht. rewrite Hl, Hn in Ht. destruct Ht as [-> Hd].
  assert (Hedge : forall u v, u ∈ wa_visited s -> owns objects u v -> v ∈ wa_visited s').
  { intros u v Hu Ho. destruct (decide (u ∈ F)) as [HF|HF]; [by eapply Hd|].
    apply (grew_visited _ _ _ _ _ _ Hg). left. by eapply (swept_edges _ _ _ Hs u). }
  split.
  - intros v. split.
    + intros [Hv|(n & -> & Hin)%list_elem_of_fmap]%(grew_visited _ _ _ _ _ _ Hg).
      * apply Hs in Hv as (j & Hj & Hc). exists j. split; [lia|done].
      * destruct (grew_new _ _ _ _ _ _ Hg n Hin) as (_ & Hdep & _).
        destruct (level_places _ _ _ _ _ _ Hs Hg Hin) as (_ & [Hc _] & _). rewrite Hdep in Hc. by exists (S k).
    + intros (j & Hj & Hc). destruct (decide (j <= k)) as [Hk|Hk].
      * apply (grew_visited _ _ _ _ _ _ Hg). left. apply Hs. by exists j.
      * assert (j = S k) as -> by lia. inversion Hc as [|k' u v' Hu Ho]; subst. eapply (Hedge u); [|done].
        apply Hs. by exists k.
  - intros u (n & -> & Hin)%list_elem_of_fmap. destruct (grew_new _ _ _ _ _ _ Hg n Hin) as (_ & Hdep & _).
    destruct (level_places _ _ _ _ _ _ Hs Hg Hin) as (_ & Hdist & _). by rewrite Hdep in Hdist.
  - intros u v [Hu|Hu]%(grew_visited _ _ _ _ _ _ Hg) HF Ho; [by eapply Hedge|done].
Qed.

(** The nodes so far: each once, each in its place, the visited UIDs being theirs and the
    roots'. *)
Record tidy (s : walkState) : Prop := {
  tidy_once : NoDup (map nd_UID (wa_nodes s));
  tidy_placed : forall n, n ∈ wa_nodes s -> placed n;
  tidy_visited : forall u, u ∈ wa_visited s <-> (u ∈ roots /\ u <> "") \/ u ∈ map nd_UID (wa_nodes s);
  tidy_bound : length (wa_nodes s) <= MaxOwnedObjects;
}.

Lemma level_tidy k s s' F new : swept k (wa_visited s) F -> tidy s ->
  grew objects (S k) (fun u v => u ∈ F /\ owns objects u v) s s' new -> tidy s'.
Proof.
  intros Hs [T1 T2 T3 T4] Hg. pose proof (grew_nodes _ _ _ _ _ _ Hg) as Hn. split.
  - rewrite Hn, map_app. apply NoDup_app. split; [done|]. split; [|apply Hg].
    intros u Hu (n & -> & Hin)%list_elem_of_fmap. apply (grew_new _ _ _ _ _ _ Hg n Hin). apply T3. by right.
  - intros n. rewrite Hn. intros [Hin|Hin]%elem_of_app; [by apply T2|by eapply level_places].
  - intros u. rewrite (grew_visited _ _ _ _ _ _ Hg), T3, Hn, map_app, elem_of_app. tauto.
  - by apply Hg.
Qed.

(** Breadth first: nodes by depth, none deeper than [k]. *)
Definition ranked (k : nat) (nodes : list OwnedNode) : Prop :=
  StronglySorted le (map nd_Depth nodes) /\ Forall (fun n => nd_Depth n <= k) nodes.

Lemma ranked_app k nodes new : ranked k nodes -> Forall (fun n => nd_Depth n = S k) new -> ranked (S k) (nodes ++ new).
Proof.
  intros [Hs Hk] Hn. rewrite List.Forall_forall in Hk, Hn. split.
  - rewrite map_app. apply StronglySorted_app_2; [|done|].
    + intros x y (a & -> & Ha)%list_elem_of_fmap (b & -> & Hb)%list_elem_of_fmap.
      apply list_elem_of_In in Ha, Hb. rewrite (Hn b Hb). pose proof (Hk a Ha). lia.
    + clear Hs Hk. induction new as [|n new IH]; cbn; constructor.
      * apply IH. intros x Hx. apply Hn. by right.
      * apply List.Forall_forall. intros d (m & <- & Hm)%in_map_iff. rewrite (Hn n), (Hn m); [done|by right|by left].
  - apply Forall_app. rewrite !List.Forall_forall. split; intros n Hin; [pose proof (Hk n Hin)|pose proof (Hn n Hin)]; lia.
Qed.

Lemma start_roots_spec rs V F V' F' : start_roots rs V F = (V', F') ->
  (forall u, u ∈ V' <-> u ∈ V \/ (u ∈ rs /\ u <> "")) /\ (forall u, u ∈ F' <-> u ∈ F \/ (u ∈ rs /\ u <> "" /\ u ∉ V)).
Proof.
  revert V F. induction rs as [|r rs IH]; intros V F; cbn [start_roots].
  - intros [= <- <-]. set_solver.
  - destruct (bool_decide_reflect (r = "")) as [->|Hr]; cbn [orb].
    { intros [A B]%IH. set_solver. }
    destruct (bool_decide_reflect (r ∈ V)) as [Hv|Hv]; intros [A B]%IH; [set_solver|].
    split; intros u; [rewrite A; set_solver|]. rewrite B. destruct (decide (u = r)); set_solver.
Qed.

Lemma roots_swept V F : start_roots roots ∅ [] = (V, F) ->
  swept 0 V F /\ tidy (mkWalk [] V [] false) /\ ranked 0 (wa_nodes (mkWalk [] V [] false)).
Proof.
  intros [A B]%start_roots_spec. assert (HV : forall u, u ∈ V <-> u ∈ roots /\ u <> "") by set_solver.
  assert (HF : forall u, u ∈ F <-> u ∈ roots /\ u <> "") by set_solver. split; [|split].
  - split.
    + intros v. rewrite HV. split; [intros []; exists 0; split; [done|by constructor]|].
      intros (j & Hj & Hc). assert (j = 0) as -> by lia. by inversion Hc.
    + intros u [? ?]%HF. split; [by constructor|]. lia.
    + intros u v Hu%HV HnF. by destruct HnF; apply HF.
  - split; cbn; [constructor|set_solver|set_solver|lia].
  - split; constructor.
Qed.

Context (children : gmap string (list nat)) (Hindex : indexes objects children).

Lemma visit_levels_spec levels k F s F' s' :
  visit_levels objects children levels (S k) F s = (F', s') ->
  swept k (wa_visited s) F -> tidy s -> ranked k (wa_nodes s) -> wa_limited s = false ->
  tidy s' /\ ranked (k + levels) (wa_nodes s') /\
  if wa_limited s' then F' = [] /\ MaxOwnedObjects <= length (wa_nodes s') /\
    exists j v, j <= k + levels /\ chain j v /\ v ∉ wa_visited s'
  else exists k', k' <= k + levels /\ swept k' (wa_visited s') F' /\ (k' < k + levels -> F' = []).
Proof.
  revert k F s. induction levels as [|levels IH]; intros k F s; cbn [visit_levels].
  { intros [= <- <-] Hs Ht Hr Hl. rewrite Nat.add_0_r, Hl. split; [done|]. split; [done|]. exists k. split; [done|]. split; [done|lia]. }
  case_bool_decide as Hlen.
  { intros [= <- <-] Hs Ht [Hr Hk] Hl. rewrite Hl. split; [done|]. split.
    - split; [done|]. eapply Forall_impl; [exact Hk|]. cbn. lia.
    - exists k. split; [lia|]. split; [done|]. intros _. by destruct F. }
  intros Hv Hs Ht Hr Hl.
  pose (s0 := mkWalk (wa_nodes s) (wa_visited s) [] (wa_limited s)).
  destruct (visit_level_grew objects children Hindex (S k) F s0 Hl) as [new Hg].
  fold s0 in Hv. cbn zeta in Hv. set (s1 := visit_level _ _ _ _ _) in *.
  assert (Ht1 : tidy s1) by (eapply (level_tidy k s0); [exact Hs|destruct Ht; by split|exact Hg]).
  assert (Hr1 : ranked (S k) (wa_nodes s1)).
  { rewrite (grew_nodes _ _ _ _ _ _ Hg). apply ranked_app; [exact Hr|]. apply List.Forall_forall.
    intros n Hn%list_elem_of_In. by destruct (grew_new _ _ _ _ _ _ Hg n Hn) as (_ & ? & _). }
  destruct (wa_limited s1) eqn:Hl1.
  - pose proof (grew_stop _ _ _ _ _ _ Hg) as Hstop. rewrite Hl1 in Hstop. destruct Hstop as (Hnil & Hmax & u & v & [HF Ho] & Hout).
    rewrite Hnil in Hv. assert (Heq : F' = [] /\ s' = s1) by (destruct levels; cbn in Hv; by injection Hv as <- <-).
    destruct Heq as [-> ->]. rewrite Hl1. split; [done|]. split.
    + destruct Hr1 as [Hr1 Hk1]. split; [done|]. eapply Forall_impl; [exact Hk1|]. cbn. lia.
    + split_and!; [done..|]. exists (S k), v. split; [lia|]. split; [|done].
      econstructor; [apply (swept_last _ _ _ Hs u HF)|done].
  - destruct (IH (S k) _ _ Hv) as (A & B & D); [|done|done|done|].
    { eapply (level_sweeps k s0); [exact Hs|done|done|exact Hg]. }
    rewrite Nat.add_succ_r. done.
Qed.

Lemma hasUnvisited_spec F V : hasUnvisited objects children F V = true <-> exists u v, u ∈ F /\ owns objects u v /\ v ∉ V.
Proof.
  unfold hasUnvisited. rewrite existsb_exists. setoid_rewrite existsb_exists. split.
  - intros (u & Hu%list_elem_of_In & i & Hi%list_elem_of_In & Ho). destruct (objects !! i) as [o|] eqn:Hoi; [|done].
    apply negb_true_iff, bool_decide_eq_false in Ho. exists u, (oo_UID o). split; [done|]. split; [|done].
    apply (indexed_owns objects children u _ Hindex). by exists i, o.
  - intros (u & v & Hu & Ho & Hv). apply (indexed_owns objects children u _ Hindex) in Ho as (i & o & Hi & Ho & <-).
    exists u. split; [by apply list_elem_of_In|]. exists i. split; [by apply list_elem_of_In|]. rewrite Ho.
    by apply negb_true_iff, bool_decide_eq_false.
Qed.

(** When nothing was cut by breadth: what was visited lies within the bound, and the walk
    is short of something exactly when an edge leaves the last level. *)
Lemma swept_to_bound bound k V F : k <= bound -> swept k V F -> (k < bound -> F = []) ->
  (forall v, v ∈ V <-> exists j, j <= bound /\ chain j v) /\
  (hasUnvisited objects children F V = true <-> exists j v, chain j v /\ v ∉ V).
Proof.
  intros Hk Hs HF.
  assert (Hroots : forall r, r ∈ roots -> r <> "" -> r ∈ V).
  { intros r Hr Hne. apply Hs. exists 0. split; [lia|by constructor]. }
  assert (Hclosed : hasUnvisited objects children F V = false -> forall j v, chain j v -> v ∈ V).
  { intros Hu j v. apply closed_has_every_chain; [done|]. intros u w HV Ho.
    destruct (decide (u ∈ F)) as [HuF|HuF]; [|by eapply (swept_edges _ _ _ Hs u)].
    destruct (decide (w ∈ V)) as [|Hw]; [done|]. exfalso. apply not_true_iff_false in Hu. apply Hu, hasUnvisited_spec.
    by exists u, w. }
  split.
  - intros v. split; [intros (j & Hj & Hc)%Hs; exists j; split; [lia|done]|]. intros (j & Hj & Hc).
    destruct (decide (k < bound)) as [Hlt|Hge]; [|apply Hs; exists j; split; [lia|done]].
    eapply Hclosed; [|done]. by rewrite (HF Hlt).
  - split.
    + intros (u & v & Hu & Ho & Hv)%hasUnvisited_spec. exists (S k), v. split; [|done].
      destruct (swept_last _ _ _ Hs u Hu) as [Hc _]. by econstructor.
    + intros (j & v & Hc & Hv). destruct (hasUnvisited _ _ _ _) eqn:Hu; [done|]. by destruct Hv; eapply Hclosed.
Qed.

End chains.

(** ** The gaps *)

Definition unreadable (visited : gset string) (o : OwnedObject) : bool :=
  unreached visited o && negb (oo_StateRecorded o).
Definition unattributed (visited captured : gset string) (o : OwnedObject) : bool :=
  unreached visited o && oo_StateRecorded o && bool_decide (is_Some (missing_owner captured o)).

Definition missing_kind (captured : gset string) (o : OwnedObject) : string :=
  default "" (ow_Kind <$> missing_owner captured o).

Lemma measureGaps_spec objects visited captured missing unread nm nu :
  measureGaps objects visited captured missing unread nm nu =
    (missing ∪ list_to_set (map (missing_kind captured) (List.filter (unattributed visited captured) objects)),
     unread ∪ list_to_set (map (fun o => or_Kind (oo_Ref o)) (List.filter (unreadable visited) objects)),
     nm + length (List.filter (unattributed visited captured) objects),
     nu + length (List.filter (unreadable visited) objects)).
Proof.
  assert (Hadd : forall (a b c : gset string), a ∪ b ∪ c = b ∪ (a ∪ c)) by set_solver.
  revert missing unread nm nu. induction objects as [|o objects IH]; intros missing unread nm nu.
  { cbn. by rewrite !Nat.add_0_r, !(right_id_L ∅ (∪)). }
  assert (Hu : unreadable visited o = negb (bool_decide (oo_UID o ∈ visited)) && negb (oo_StateRecorded o)) by done.
  assert (Ha : unattributed visited captured o = negb (bool_decide (oo_UID o ∈ visited)) && oo_StateRecorded o &&
    bool_decide (is_Some (missing_owner captured o))) by done.
  cbn [measureGaps List.filter]. rewrite Hu, Ha.
  destruct (bool_decide (oo_UID o ∈ visited)); cbn [negb andb]; [by rewrite IH|].
  destruct (oo_StateRecorded o); cbn [negb andb].
  - destruct (missing_owner captured o) as [r|] eqn:Hm; rewrite IH;
      [rewrite bool_decide_true by by eexists|rewrite bool_decide_false by apply is_Some_None; done].
    assert (Hk : missing_kind captured o = ow_Kind r) by (unfold missing_kind; by rewrite Hm).
    cbn [map list_to_set length]. by rewrite Nat.add_succ_r, Hadd, Hk.
  - rewrite IH. cbn [map list_to_set length]. by rewrite Nat.add_succ_r, Hadd.
Qed.

(** ** The tree *)

(** What the tree of [Descendants] is made of. *)
Record walked (roots : list string) (objects : list OwnedObject) (t : OwnershipTree) (V captured : gset string) : Prop := {
  walked_tidy : NoDup (map nd_UID (tr_Nodes t)) /\ (forall n, n ∈ tr_Nodes t -> placed roots objects n) /\
    length (tr_Nodes t) <= MaxOwnedObjects;
  walked_ranked : ranked MaxOwnershipDepth (tr_Nodes t);
  walked_visited : forall u, u ∈ V <-> (u ∈ roots /\ u <> "") \/ u ∈ map nd_UID (tr_Nodes t);
  walked_captured : forall u, u ∈ captured <-> u <> "" /\ exists o, o ∈ objects /\ oo_UID o = u;
  walked_cut : if tr_BreadthLimited t then tr_DepthLimited t = false /\ length (tr_Nodes t) = MaxOwnedObjects /\
      exists j v, j <= MaxOwnershipDepth /\ chain roots objects j v /\ v ∉ V
    else (forall v, v ∈ V <-> exists j, j <= MaxOwnershipDepth /\ chain roots objects j v) /\
         (tr_DepthLimited t = true <-> exists j v, chain roots objects j v /\ v ∉ V);
  walked_gaps :
    tr_MissingOwnerObjects t = length (List.filter (unattributed V captured) objects) /\
    tr_UnreadableObjects t = length (List.filter (unreadable V) objects) /\
    tr_MissingOwnerKinds t = sortedKeys (list_to_set (map (missing_kind captured) (List.filter (unattributed V captured) objects))) /\
    tr_UnreadableKinds t = sortedKeys (list_to_set (map (fun o => or_Kind (oo_Ref o)) (List.filter (unreadable V) objects)));
}.

Lemma Descendants_walked roots objects : exists V captured, walked roots objects (Descendants roots objects) V captured.
Proof.
  unfold Descendants. destruct (index_objects 0 objects ∅ ∅) as [children captured] eqn:Hi.
  pose proof (index_objects_indexes _ _ _ Hi) as Hindex. apply index_objects_spec in Hi as [_ Hcap].
  destruct (start_roots roots ∅ []) as [V0 F0] eqn:Hr. destruct (roots_swept roots objects _ _ Hr) as (Hs & Ht & Hk).
  destruct (visit_levels _ _ _ _ _ _) as [F s] eqn:Hv.
  destruct (visit_levels_spec roots objects children Hindex _ _ _ _ _ _ Hv Hs Ht Hk eq_refl) as ([T1 T2 T3 T4] & HR & Hcut).
  rewrite measureGaps_spec, !(left_id_L ∅ (∪)). cbn zeta match. exists (wa_visited s), captured. split;
    cbn [tr_Nodes tr_DepthLimited tr_BreadthLimited tr_MissingOwnerKinds tr_MissingOwnerObjects tr_UnreadableKinds tr_UnreadableObjects];
    [done|exact HR|exact T3|set_solver| |done].
  destruct (wa_limited s).
  - destruct Hcut as (-> & Hmax & Hout). split_and!; [done|lia|done].
  - destruct Hcut as (k & Hb & Hsw & Hend). by apply (swept_to_bound roots objects children Hindex _ k).
Qed.

(** ** The gaps, said of the tree *)

(** The tree and its roots do not hold the object; the scope holds an incarnation. *)
Definition outside (roots : list string) (t : OwnershipTree) (o : OwnedObject) : bool :=
  negb (existsb (fun n => bool_decide (nd_UID n = oo_UID o)) (tr_Nodes t)) &&
  negb (bool_decide (oo_UID o ∈ roots) && bool_decide (oo_UID o <> "")).
Definition recorded_owner (objects : list OwnedObject) (r : OwnerReference) : bool :=
  bool_decide (ow_UID r <> "") && existsb (fun o => bool_decide (oo_UID o = ow_UID r)) objects.

(** Objects outside the tree of which no state was recorded, and those that name an owner the
    scope does not hold. *)
Definition stateless (roots : list string) (t : OwnershipTree) (o : OwnedObject) : bool := outside roots t o && negb (oo_StateRecorded o).
Definition orphaned (roots : list string) (objects : list OwnedObject) (t : OwnershipTree) (o : OwnedObject) : bool :=
  outside roots t o && oo_StateRecorded o && existsb (fun r => negb (recorded_owner objects r)) (oo_Owners o).

Section said.
Context {roots : list string} {objects : list OwnedObject} {t : OwnershipTree} {V captured : gset string}.
Context (Hw : walked roots objects t V captured).

Lemma outside_unreached o : unreached V o = outside roots t o.
Proof.
  unfold unreached, outside. rewrite <-negb_orb. f_equal. apply eq_true_iff_eq.
  rewrite bool_decide_eq_true, (walked_visited _ _ _ _ _ Hw), orb_true_iff, existsb_exists, andb_true_iff, !bool_decide_eq_true.
  split; [intros [?|(n & -> & Hn)%list_elem_of_fmap]|intros [(n & Hn & E%bool_decide_eq_true)|?]].
  - by right.
  - left. exists n. split; [by apply list_elem_of_In|by apply bool_decide_eq_true].
  - right. rewrite <-E. apply list_elem_of_fmap_2. by apply list_elem_of_In.
  - by left.
Qed.

Lemma recorded_captured r : bool_decide (ow_UID r ∈ captured) = recorded_owner objects r.
Proof.
  apply eq_true_iff_eq. unfold recorded_owner.
  rewrite bool_decide_eq_true, (walked_captured _ _ _ _ _ Hw), andb_true_iff, existsb_exists, bool_decide_eq_true.
  setoid_rewrite bool_decide_eq_true. setoid_rewrite list_elem_of_In. done.
Qed.

Lemma missing_owner_spec o : match missing_owner captured o with
  | Some r => exists before after, oo_Owners o = before ++ r :: after /\ Forall (fun r => recorded_owner objects r = true) before /\ recorded_owner objects r = false
  | None => Forall (fun r => recorded_owner objects r = true) (oo_Owners o)
  end.
Proof.
  unfold missing_owner. induction (oo_Owners o) as [|r owners IH]; cbn [List.find]; [constructor|].
  rewrite recorded_captured. destruct (recorded_owner objects r) eqn:Er; cbn [negb].
  - destruct (List.find _ owners) as [r'|].
    + destruct IH as (before & after & -> & Hb & Hr). exists (r :: before), after. split_and!; [done|by constructor|done].
    + by constructor.
  - exists [], owners. split_and!; [done|constructor|done].
Qed.

Lemma stateless_unreadable o : unreadable V o = stateless roots t o.
Proof. unfold unreadable, stateless. by rewrite outside_unreached. Qed.

Lemma orphaned_unattributed o : unattributed V captured o = orphaned roots objects t o.
Proof.
  unfold unattributed, orphaned. rewrite outside_unreached. f_equal. apply eq_true_iff_eq. rewrite bool_decide_eq_true, existsb_exists.
  pose proof (missing_owner_spec o) as Hm. destruct (missing_owner captured o) as [r|].
  - destruct Hm as (before & after & -> & _ & Hr). split; [|by eexists]. intros _. exists r. rewrite Hr. split; [|done].
    apply in_app_iff. right. by left.
  - split; [by intros [? ?]|]. intros (r & Hr & Hn). rewrite List.Forall_forall in Hm. by rewrite Hm in Hn.
Qed.

(** The kinds an orphan adds to the list: that of the first owner the scope does not hold. *)
Definition first_gone (o : OwnedObject) (kind : string) : Prop :=
  exists before r after, oo_Owners o = before ++ r :: after /\ Forall (fun r => recorded_owner objects r = true) before /\
    recorded_owner objects r = false /\ ow_Kind r = kind.

Lemma missing_kind_spec o kind : orphaned roots objects t o = true -> missing_kind captured o = kind <-> first_gone o kind.
Proof.
  rewrite <-orphaned_unattributed. unfold unattributed, missing_kind. intros Ho. apply andb_true_iff in Ho as [_ [r Hr]%bool_decide_eq_true].
  pose proof (missing_owner_spec o) as Hm. rewrite Hr in *. destruct Hm as (before & after & E & Hb & Hn). cbn. split.
  - intros <-. by exists before, r, after.
  - intros (before' & r' & after' & E' & Hb' & Hn' & <-). rewrite E in E'. f_equal. clear -E' Hb Hb' Hn Hn'.
    revert before' Hb' E'. induction Hb as [|x before Hx Hb IH]; intros [|y before'] Hb' E'; cbn in E'; injection E' as -> E'.
    + done.
    + apply Forall_cons in Hb' as [? _]. congruence.
    + congruence.
    + apply Forall_cons in Hb' as [_ Hb']. by eapply IH.
Qed.

Lemma sortedKeys_spec (set : gset string) : NoDup (sortedKeys set) /\ StronglySorted String.le (sortedKeys set) /\
  forall k, k ∈ sortedKeys set <-> k ∈ set.
Proof.
  unfold sortedKeys. split_and!.
  - rewrite merge_sort_Permutation. apply NoDup_elements.
  - apply (StronglySorted_merge_sort String.le).
  - intros k. rewrite merge_sort_Permutation. apply elem_of_elements.
Qed.

Lemma gaps_said :
  tr_UnreadableObjects t = length (List.filter (stateless roots t) objects) /\
  tr_MissingOwnerObjects t = length (List.filter (orphaned roots objects t) objects) /\
  (forall kind, kind ∈ tr_UnreadableKinds t <-> exists o, o ∈ objects /\ stateless roots t o = true /\ or_Kind (oo_Ref o) = kind) /\
  (forall kind, kind ∈ tr_MissingOwnerKinds t <-> exists o, o ∈ objects /\ orphaned roots objects t o = true /\ first_gone o kind) /\
  Forall (fun kinds => NoDup kinds /\ StronglySorted String.le kinds) [tr_UnreadableKinds t; tr_MissingOwnerKinds t].
Proof.
  destruct (walked_gaps _ _ _ _ _ Hw) as (-> & -> & -> & ->).
  rewrite (List.filter_ext _ _ stateless_unreadable), (List.filter_ext _ _ orphaned_unattributed).
  split_and!; [done|done|..].
  - intros kind. rewrite (proj2 (proj2 (sortedKeys_spec _))), elem_of_list_to_set, list_elem_of_fmap.
    setoid_rewrite list_elem_of_In. setoid_rewrite filter_In. naive_solver.
  - intros kind. rewrite (proj2 (proj2 (sortedKeys_spec _))), elem_of_list_to_set, list_elem_of_fmap.
    setoid_rewrite list_elem_of_In. setoid_rewrite filter_In. split.
    + intros (o & -> & Ho & Hor). exists o. split_and!; [done..|]. by apply missing_kind_spec.
    + intros (o & Ho & Hor & Hk). exists o. split; [symmetry; by apply missing_kind_spec|done].
  - repeat constructor; apply sortedKeys_spec.
Qed.
End said.

Lemma filter_empty {A} (f : A -> bool) (l : list A) : length (List.filter f l) = 0 -> forall x, x ∈ l -> f x = false.
Proof.
  intros Hl x Hx. destruct (f x) eqn:Hf; [|done]. assert (List.In x (List.filter f l)) as Hin.
  { apply filter_In. split; [by apply list_elem_of_In|done]. }
  by destruct (List.filter f l).
Qed.

(** A tree reported complete leaves no reason for an object to be missing from it. *)
Lemma complete_leaves_no_gap roots objects V captured t : walked roots objects t V captured -> Complete t = true ->
  (forall v, v ∈ V <-> exists j, chain roots objects j v) /\
  (forall o, o ∈ objects -> oo_UID o ∉ V -> oo_StateRecorded o = true /\
     forall r, r ∈ oo_Owners o -> ow_UID r <> "" /\ exists o', o' ∈ objects /\ oo_UID o' = ow_UID r).
Proof.
  intros Hw (((Hd%negb_true_iff & Hb%negb_true_iff)%andb_prop & Hm%bool_decide_eq_true)%andb_prop & Hu%bool_decide_eq_true)%andb_prop.
  pose proof (walked_cut _ _ _ _ _ Hw) as Hcut. rewrite Hb, Hd in Hcut. destruct Hcut as [Hin Hall].
  destruct (walked_gaps _ _ _ _ _ Hw) as (Gm & Gu & _ & _). rewrite Hm in Gm. rewrite Hu in Gu. split.
  - intros v. split; [intros (j & _ & Hc)%Hin; by exists j|]. intros [j Hc].
    destruct (decide (v ∈ V)) as [|Hv]; [done|]. assert (false = true) by (apply Hall; by exists j, v). done.
  - intros o Ho Hv. pose proof (filter_empty _ _ (eq_sym Gu) o Ho) as Hread. pose proof (filter_empty _ _ (eq_sym Gm) o Ho) as Hown.
    unfold unreadable, unattributed, unreached in Hread, Hown. rewrite bool_decide_false in Hread, Hown by done.
    destruct (oo_StateRecorded o); [|done]. cbn [negb andb] in Hown. split; [done|]. intros r Hr.
    apply (walked_captured _ _ _ _ _ Hw). apply bool_decide_eq_false, eq_None_not_Some in Hown.
    by apply list_elem_of_In, (find_none _ _ Hown), negb_false_iff, bool_decide_eq_true in Hr.
Qed.

(** C34: [Descendants] returns the recorded ownership tree below the given incarnations,
    breadth first: every node appears once, at its true distance from the roots, below an
    owner one edge nearer that its recorded state names, so cycles and shared dependents
    are harmless. Neither bound is ever exceeded, and a bound that cut something says so:
    if breadth did not, the nodes are exactly the non-root incarnations within
    [MaxOwnershipDepth] edges, and depth is reported precisely when something lies beyond;
    if breadth did, the tree is full and something within the depth is missing from it. The
    gaps are the objects outside the tree: those of which no state was recorded are counted,
    with their own kinds, and those that have one and name an owner the scope does not
    hold, with the kind of the first such owner; both lists sorted and without repetition.
    A tree reported [Complete] holds every incarnation any chain of recorded owners leads
    to, and every object outside it had its state recorded and names only owners the scope
    holds. *)
Theorem ownership_walk_exact (roots : list string) (objects : list OwnedObject) :
  let t := Descendants roots objects in
  NoDup (map nd_UID (tr_Nodes t)) /\ StronglySorted le (map nd_Depth (tr_Nodes t)) /\
  length (tr_Nodes t) <= MaxOwnedObjects /\
  (forall n, n ∈ tr_Nodes t -> nd_Depth n <= MaxOwnershipDepth /\ placed roots objects n) /\
  (tr_BreadthLimited t = true -> length (tr_Nodes t) = MaxOwnedObjects /\ tr_DepthLimited t = false /\
     exists k v, k <= MaxOwnershipDepth /\ chain roots objects k v /\ (v ∉ roots) /\ (v ∉ map nd_UID (tr_Nodes t))) /\
  (tr_BreadthLimited t = false -> forall v, v ∈ map nd_UID (tr_Nodes t) <->
     v ∉ roots /\ exists k, k <= MaxOwnershipDepth /\ chain roots objects k v) /\
  (tr_BreadthLimited t = false -> tr_DepthLimited t = true <->
     exists k v, chain roots objects k v /\ forall j, j <= MaxOwnershipDepth -> ~ chain roots objects j v) /\
  (tr_UnreadableObjects t = length (List.filter (stateless roots t) objects) /\
   tr_MissingOwnerObjects t = length (List.filter (orphaned roots objects t) objects) /\
   (forall kind, kind ∈ tr_UnreadableKinds t <-> exists o, o ∈ objects /\ stateless roots t o = true /\ or_Kind (oo_Ref o) = kind) /\
   (forall kind, kind ∈ tr_MissingOwnerKinds t <->
      exists o, o ∈ objects /\ orphaned roots objects t o = true /\ first_gone (objects := objects) o kind) /\
   Forall (fun kinds => NoDup kinds /\ StronglySorted String.le kinds) [tr_UnreadableKinds t; tr_MissingOwnerKinds t]) /\
  (Complete t = true ->
     (forall v, v ∈ map nd_UID (tr_Nodes t) <-> v ∉ roots /\ exists k, chain roots objects k v) /\
     (forall o, o ∈ objects -> oo_UID o ∉ map nd_UID (tr_Nodes t) -> oo_UID o ∉ roots -> oo_StateRecorded o = true /\
        forall r, r ∈ oo_Owners o -> ow_UID r <> "" /\ exists o', o' ∈ objects /\ oo_UID o' = ow_UID r)).
Proof.
  intros t. destruct (Descendants_walked roots objects) as (V & captured & Hw). fold t in Hw.
  destruct (walked_tidy _ _ _ _ _ Hw) as (Honce & Hplaced & Hlen). destruct (walked_ranked _ _ _ _ _ Hw) as [Hsort Hdeep].
  rewrite List.Forall_forall in Hdeep. pose proof (walked_cut _ _ _ _ _ Hw) as Hcut.
  assert (Hnode : forall v, v ∈ map nd_UID (tr_Nodes t) <-> v ∉ roots /\ v ∈ V).
  { intros v. rewrite (walked_visited _ _ _ _ _ Hw). split; [|tauto].
    intros Hv. split; [|by right]. apply list_elem_of_fmap in Hv as (n & -> & Hn).
    destruct (Hplaced n Hn) as (Hpos & [_ Hmin] & _ & (_ & _ & _ & _ & Hne & _) & _).
    intros Hr. apply (Hmin 0 Hpos). by constructor. }
  split_and!; try done.
  - intros n Hn. split; [|by apply Hplaced]. by apply Hdeep, list_elem_of_In.
  - intros Hb. rewrite Hb in Hcut. destruct Hcut as (Hd & Hn & k & v & Hk & Hc & Hv). split_and!; [done..|]. exists k, v.
    assert (Hne : v ∉ roots \/ v = "") by (destruct (decide (v = "")); [by right|left; intros Hr; apply Hv, (walked_visited _ _ _ _ _ Hw); by left]).
    split_and!; [done|done| |intros Hn'; apply Hv, Hnode; done].
    destruct Hne as [?| ->]; [done|]. inversion Hc as [|k' u v' Hu (o & r & _ & _ & Hbad & _)]; subst; done.
  - intros Hb v. rewrite Hb in Hcut. destruct Hcut as [Hin _]. by rewrite Hnode, Hin.
  - intros Hb. rewrite Hb in Hcut. destruct Hcut as [Hin ->]. split; intros (k & v & Hc & Hv); exists k, v; (split; [done|]).
    + intros j Hj Hj'. apply Hv, Hin. by exists j.
    + intros (j & Hj & Hj')%Hin. by eapply Hv.
  - apply (gaps_said Hw).
  - apply (gaps_said Hw).
  - apply (gaps_said Hw).
  - apply (gaps_said Hw).
  - apply (gaps_said Hw).
  - intros Hc. destruct (complete_leaves_no_gap _ _ _ _ _ Hw Hc) as [Hall Hgap]. split.
    + intros v. by rewrite Hnode, Hall.
    + intros o Ho Hn Hr. apply Hgap; [done|]. intros HV. apply Hn, Hnode. done.
Qed.
