(* ===== verification/ArchiveQueries.v ===== *)
(** * ArchiveQueries: the other questions an archive answers

    Models, of [src/internal/query/objectsource]: [Incarnations] (timeline.go),
    [Coverage] (coverage.go), [ClusterIDs] (clusters.go), [EstimateScan] (estimate.go)
    and [Ownership] (ownership.go). Unlike a timeline these never answer in part: a
    scan that failed anywhere is an error. *)

From S2P Require Import Prelude Identity Calendar HashCache GoJson Diff QueryFilter SinkTypes S3Object ScopeLog Layout Archive ArchiveSpec ArchiveState Ownership.

(** ** Incarnations *)

Record Incarnation := mkIncarnation {
  in_UID : string;
  in_FirstSeen : Z;
  in_LastSeen : Z;
  in_Deleted : bool;
}.

(** [spans] with its index [at]. *)
Definition spansOf_mark (s : list Incarnation * gmap string nat) (mark : incarnationMark) : list Incarnation * gmap string nat :=
  let '(spans, at_) := s in
  match at_ !! im_uid mark with
  | Some i =>
      (alter (fun span => mkIncarnation (in_UID span) (in_FirstSeen span) (im_ts mark) (in_Deleted span || im_deleted mark)) i spans, at_)
  | None =>
      (spans ++ [mkIncarnation (im_uid mark) (im_ts mark) (im_ts mark) (im_deleted mark)], <[im_uid mark := length spans]> at_)
  end.

Definition spansOf (marks : list incarnationMark) : list Incarnation := (foldl spansOf_mark ([], ∅) marks).1.

Definition Incarnations `{ObjectSource, FrameReader} (e : Engine) (ref : ObjectRef) (from to : option Z)
    : result queryError (list Incarnation) :=
  if en_closed e then Err errEngineClosed
  else match requireWindow from to with
       | Err err => Err err
       | Ok (f, t) =>
           let scan := mkRecordScan ref from to None false false [] in
           match scanPartitions acc_zero (scan_decode scan) (fun marks acc => marks ++ ta_marks acc)
                   (en_concurrency e) (recordPrefixes e (or_ClusterID ref) f t) [] with
           | (_, Some failure) => Err (errScan failure)
           | (marks, None) => Ok (spansOf (stable_sort mark_le marks))
           end
       end.

(** ** Coverage *)

Record ScopeQuery := mkScopeQuery {
  sq_ClusterID : string;
  sq_APIGroup : string;
  sq_Kind : string;
  sq_Namespace : string;
  sq_From : option Z;
  sq_To : option Z;
}.

Definition scope_matches (q : ScopeQuery) (line : scopeLine) : bool :=
  if bool_decide (sl_ClusterID line <> sq_ClusterID q) then false
  else if bool_decide (sq_APIGroup q <> "") && bool_decide (sl_APIGroup line <> sq_APIGroup q) then false
  else if bool_decide (sq_Kind q <> "") && bool_decide (sl_Kind line <> sq_Kind q) then false
  else if bool_decide (sq_Namespace q <> "") && bool_decide (sl_Namespace line <> sq_Namespace q) &&
          bool_decide (sl_Namespace line <> "") then false
  else true.

Definition scope_decode `{FrameReader} (q : ScopeQuery) (acc : list ScopeChange) (bytes : string)
    : list ScopeChange * option frameError :=
  decodeScopeFrame (fun acc line => if scope_matches q line then acc ++ [line_scopeChange line] else acc) acc bytes.

Definition Coverage `{ObjectSource, FrameReader} (e : Engine) (q : ScopeQuery) : result queryError (list ScopeInterval) :=
  if en_closed e then Err errEngineClosed
  else match scanPartitions [] (scope_decode q) app (en_concurrency e) [scopesRoot (en_prefix e)] [] with
       | (_, Some failure) => Err (errScan failure)
       | (transitions, None) => Ok (CoverageOf transitions (sq_From q) (sq_To q))
       end.

(** ** Clusters *)

(** The loop over the listing: [seen] and [ids]. *)
Definition cluster_key (root : string) (s : gset string * list string) (key : string) : gset string * list string :=
  let '(seen, ids) := s in
  if negb (isObjectKey key) then s
  else match clusterIDOf key root with
       | None => s
       | Some id => if bool_decide (id ∈ seen) then s else ({[id]} ∪ seen, ids ++ [id])
       end.

Definition ClusterIDs `{ObjectSource} (e : Engine) : result queryError (list string) :=
  if en_closed e then Err errEngineClosed
  else
    let root := joinSegments [en_prefix e; formatPartition] +:+ "/" in
    let l := src_List root in
    match ls_err l, ls_close l with
    | Some reason, _ => Err (errScan (errListing root reason))
    | None, Some reason => Err (errScan (errReleaseListing reason))
    | None, None => Ok (merge_sort String.le (foldl (cluster_key root) (∅, []) (map fst (ls_objects l))).2)
    end.

(** ** The estimate *)

Record ScanEstimate := mkEstimate {
  se_Objects : Z;
  se_Bytes : Z;
  se_Partitions : nat;
}.

Record partitionSize := mkSize {
  ps_objects : Z;
  ps_bytes : Z;
}.

Definition measure `{ObjectSource} (prefix : string) : result scanError partitionSize :=
  let l := src_List prefix in
  let size := foldl (fun size object => if negb (isObjectKey object.1) then size
                                        else mkSize (ps_objects size + 1) (ps_bytes size + object.2))
                (mkSize 0 0) (ls_objects l) in
  match ls_err l, ls_close l with
  | Some reason, _ => Err (errListing prefix reason)
  | None, Some reason => Err (errReleaseListing reason)
  | None, None => Ok size
  end.

Definition EstimateScan `{ObjectSource} (e : Engine) (clusterID : string) (from to : option Z) : result queryError ScanEstimate :=
  if en_closed e then Err errEngineClosed
  else match requireWindow from to with
       | Err err => Err err
       | Ok (f, t) =>
           let prefixes := recordPrefixes e clusterID f t in
           match interrupted prefixes with
           | Some (InListing cause) | Some (InFetching cause _) => Err (errScan (errAbandoned cause))
           | None =>
               match collect (map measure prefixes) with
               | Err failure => Err (errScan failure)
               | Ok sizes =>
                   Ok (foldl (fun est part => mkEstimate (se_Objects est + ps_objects part) (se_Bytes est + ps_bytes part) (se_Partitions est))
                         (mkEstimate 0 0 (length prefixes)) sizes)
               end
           end
       end.

(** ** Ownership *)

Record ownershipMark := mkOwnershipMark {
  om_ref : ObjectRef;
  om_uid : string;
  om_ts : Z;
  om_state : bool;
  om_owners : list OwnerReference;
}.

Record OwnershipQuery := mkOwnershipQuery {
  oq_ClusterID : string;
  oq_Namespace : string;
  oq_From : option Z;
  oq_To : option Z;
}.

(** Whether the decoder keeps a mark of the line, and the mark. *)
Definition ownership_kept (q : OwnershipQuery) (line : recordLine) : bool :=
  if bool_decide (ln_ClusterID line <> oq_ClusterID q) then false
  else if bool_decide (oq_Namespace q <> "") && bool_decide (ln_Namespace line <> oq_Namespace q) then false
  else if bool_decide (ln_UID line = "") then false
  else if isEvent line then false
  else if negb (in_window (oq_From q) (oq_To q) (ln_Timestamp line)) then false
  else true.

Definition line_ref (line : recordLine) : ObjectRef :=
  mkRef (ln_ClusterID line) (ln_APIGroup line) (ln_Kind line) (ln_Namespace line) (ln_Name line).

Definition ownership_mark `{OwnerCodec} (line : recordLine) : ownershipMark :=
  mkOwnershipMark (line_ref line) (ln_UID line) (ln_Timestamp line) (bool_decide (ln_Data line <> "")) (OwnersOf (ln_Data line)).

Definition ownership_decode `{FrameReader, OwnerCodec} (q : OwnershipQuery) (acc : list ownershipMark) (bytes : string)
    : list ownershipMark * option frameError :=
  decodeFrame (fun acc line => if ownership_kept q line then acc ++ [ownership_mark line] else acc) acc bytes.

(** [objects] with [at] and [newest]. *)
Record ownedState := mkOwnedState {
  os_objects : list OwnedObject;
  os_at : gmap string nat;
  os_newest : gmap string Z;
}.

Definition owned_mark (s : ownedState) (mark : ownershipMark) : ownedState :=
  let '(i, objects, at_) :=
    match os_at s !! om_uid mark with
    | Some i => (i, os_objects s, os_at s)
    | None =>
        (length (os_objects s), os_objects s ++ [mkOwned (om_ref mark) (om_uid mark) false []],
         <[om_uid mark := length (os_objects s)]> (os_at s))
    end in
  let objects := alter (fun o => mkOwned (oo_Ref o) (oo_UID o) (oo_StateRecorded o || om_state mark) (oo_Owners o)) i objects in
  if negb (om_state mark) then mkOwnedState objects at_ (os_newest s)
  else if match os_newest s !! om_uid mark with Some when => negb (bool_decide (when < om_ts mark)%Z) | None => false end
  then mkOwnedState objects at_ (os_newest s)
  else mkOwnedState (alter (fun o => mkOwned (oo_Ref o) (oo_UID o) (oo_StateRecorded o) (om_owners mark)) i objects) at_
         (<[om_uid mark := om_ts mark]> (os_newest s)).

Definition compareOwned (a b : OwnedObject) : comparison :=
  cmp_or (String.compare (or_APIGroup (oo_Ref a)) (or_APIGroup (oo_Ref b)))
    (cmp_or (String.compare (or_Kind (oo_Ref a)) (or_Kind (oo_Ref b)))
       (cmp_or (String.compare (or_Namespace (oo_Ref a)) (or_Namespace (oo_Ref b)))
          (cmp_or (String.compare (or_Name (oo_Ref a)) (or_Name (oo_Ref b))) (String.compare (oo_UID a) (oo_UID b))))).

Definition owned_le (a b : OwnedObject) : Prop := compareOwned a b <> Gt.

#[export] Instance owned_le_dec : RelDecision owned_le.
Proof. intros a b. unfold owned_le. destruct (compareOwned a b); [left|left|right]; congruence. Defined.

Definition ownedObjects (marks : list ownershipMark) : list OwnedObject :=
  stable_sort owned_le (os_objects (foldl owned_mark (mkOwnedState [] ∅ ∅) marks)).

Definition Ownership `{ObjectSource, FrameReader, OwnerCodec} (e : Engine) (q : OwnershipQuery)
    : result queryError (list OwnedObject) :=
  if en_closed e then Err errEngineClosed
  else match requireWindow (oq_From q) (oq_To q) with
       | Err err => Err err
       | Ok (f, t) =>
           match scanPartitions [] (ownership_decode q) app (en_concurrency e) (recordPrefixes e (oq_ClusterID q) f t) [] with
           | (_, Some failure) => Err (errScan failure)
           | (marks, None) => Ok (ownedObjects marks)
           end
       end.

(** ** A scan that reports nothing read everything *)

Section whole.
Context `{ObjectSource}.
Context {A T : Type} (zero : A) (decode : A -> string -> A * option frameError) (fold : T -> A -> T).

Lemma first_failure_none {X Y} (results : list (X * option Y)) :
  first_failure results = None -> Forall (fun r => r.2 = None) results.
Proof. induction results as [|[x [y|]] rs IH]; cbn; [constructor|done|]. intros Hf. constructor; [done|by apply IH]. Qed.

Lemma collect_ok {E X} (results : list (result E X)) l : collect results = Ok l -> Forall2 (fun r x => r = Ok x) results l.
Proof.
  revert l. induction results as [|[x|e] rs IH]; intros l; cbn; [by intros [= <-]|destruct (collect rs) as [l'|]|done]; [|done].
  intros [= <-]. constructor; [done|by apply IH].
Qed.

Lemma collect_listed prefixes parts : collect (map listOnePrefix prefixes) = Ok parts ->
  Forall listable prefixes /\ parts = map keys_of prefixes.
Proof.
  intros Hc%collect_ok. apply Forall2_fmap_l in Hc. induction Hc as [|p keys ps parts Hp _ [IH1 IH2]]; [by split|].
  cbn in Hp. split; [constructor; [by exists keys|done]|]. cbn. rewrite <-IH2. unfold keys_of. by rewrite Hp.
Qed.

Lemma whole_group prefixes t t' : scanOneGroup zero decode fold prefixes t = (t', None, false) ->
  Forall listable prefixes /\
  Forall (fun key => (readObject zero decode key).2 = None) (concat (map keys_of prefixes)) /\
  t' = foldl fold t (map (fun key => (readObject zero decode key).1) (concat (map keys_of prefixes))).
Proof.
  unfold scanOneGroup, listObjectKeys, fetchObjects. destruct (interrupted prefixes) as [[|]|]; [done| |].
  { destruct (collect _); done. }
  destruct (collect _) as [parts|] eqn:Hc; [|done]. apply collect_listed in Hc as [Hl ->]. intros [= <- Hf].
  apply first_failure_none, Forall_map in Hf. split; [done|]. split; [exact Hf|]. by rewrite map_map.
Qed.

Lemma group_abort prefixes t t' failure : scanOneGroup zero decode fold prefixes t = (t', failure, true) -> failure <> None.
Proof.
  unfold scanOneGroup. destruct (listObjectKeys prefixes) as [parts|]; [|by intros [= _ <-]].
  destruct (fetchObjects _ _ _ _) as [results [cause|]]; [by intros [= _ <-]|done].
Qed.

Lemma whole_groups groups t failure t' : scan_groups zero decode fold groups t failure = (t', None) ->
  failure = None /\ Forall listable (concat groups) /\
  Forall (fun key => (readObject zero decode key).2 = None) (concat (map keys_of (concat groups))) /\
  t' = foldl fold t (map (fun key => (readObject zero decode key).1) (concat (map keys_of (concat groups)))).
Proof.
  revert t failure. induction groups as [|g gs IH]; intros t failure; cbn [scan_groups concat].
  { intros [= <- ->]. repeat split; constructor. }
  destruct (scanOneGroup _ _ _ g t) as [[t1 err] [|]] eqn:Hg.
  { intros [= _ Hj]. exfalso. apply group_abort in Hg. destruct failure, err; done. }
  intros (Hf & Hl & Hr & ->)%IH. destruct failure as [f|]; [done|]. subst err.
  apply whole_group in Hg as (Hl1 & Hr1 & ->). rewrite map_app, concat_app, map_app, foldl_app, !Forall_app. done.
Qed.

Lemma whole_scan n prefixes t t' : n <> 0 -> scanPartitions zero decode fold n prefixes t = (t', None) ->
  Forall listable prefixes /\
  Forall (fun key => (readObject zero decode key).2 = None) (concat (map keys_of prefixes)) /\
  t' = foldl fold t (map (fun key => (readObject zero decode key).1) (concat (map keys_of prefixes))).
Proof. intros Hn (_ & Hs)%whole_groups. by rewrite concat_chunk in Hs. Qed.
End whole.

Lemma foldl_app_concat {A} (t : list A) l : foldl app t l = t ++ concat l.
Proof. revert t. induction l as [|x l IH]; intros t; cbn; [by rewrite app_nil_r|]. by rewrite IH, app_assoc. Qed.

Lemma foldl_keep {A B} (f : A -> bool) (g : A -> B) (l : list A) acc :
  foldl (fun acc x => if f x then acc ++ [g x] else acc) acc l = acc ++ map g (List.filter f l).
Proof.
  revert acc. induction l as [|x l IH]; intros acc; cbn; [by rewrite app_nil_r|]. rewrite IH.
  destruct (f x); cbn; [by rewrite <-app_assoc|done].
Qed.

Section collected.
Context `{ObjectSource, FrameReader}.

(** What a collecting decoder reads from an object. *)
Lemma read_collected {L B} (stream : string -> list L * option string) (f : L -> bool) (g : L -> B) key :
  (readObject [] (fun acc bytes => let '(lines, failure) := streamFrame stream bytes in
     (foldl (fun acc x => if f x then acc ++ [g x] else acc) acc lines, failure)) key).1 =
  map g (List.filter f (match src_Open key with Ok b => (streamFrame stream (bd_bytes b)).1 | Err _ => [] end)).
Proof.
  unfold readObject. destruct (src_Open key) as [b|[]]; [|done..]. destruct (streamFrame _ _) as [lines failure]. cbn. by rewrite foldl_keep.
Qed.

Lemma concat_read {L B} (f : L -> bool) (g : L -> B) (lines : string -> list L) keys :
  concat (map (fun key => map g (List.filter f (lines key))) keys) = map g (List.filter f (concat (map lines keys))).
Proof. induction keys as [|k ks IH]; cbn; [done|]. by rewrite IH, keep_app, map_app. Qed.

(** An object that was opened and decoded to its end. *)
Definition read_whole (key : string) : Prop :=
  exists b, src_Open key = Ok b /\ (streamFrame record_stream (bd_bytes b)).2 = None.

Lemma read_whole_of {A} zero (visit : A -> recordLine -> A) key :
  (readObject zero (decodeFrame visit) key).2 = None -> read_whole key.
Proof.
  unfold readObject, read_whole, decodeFrame. destruct (src_Open key) as [b|[]]; [|done..]. intros Hn. exists b. split; [done|].
  destruct (streamFrame _ _) as [lines [failure|]]; [|done]. cbn in *. by destruct (bd_close b).
Qed.
End collected.

(** ** One entry per incarnation *)

(** The data-bearing mark of an incarnation that is not older than any other, the
    earliest in scan order among equals. *)
Definition newest_state (marks : list ownershipMark) (uid : string) : option ownershipMark :=
  foldl (fun best m =>
           if bool_decide (om_uid m = uid) && om_state m
           then match best with Some b => if bool_decide (om_ts b < om_ts m)%Z then Some m else best | None => Some m end
           else best) None marks.

Lemma newest_state_snoc marks m uid : newest_state (marks ++ [m]) uid =
  if bool_decide (om_uid m = uid) && om_state m
  then match newest_state marks uid with Some b => if bool_decide (om_ts b < om_ts m)%Z then Some m else Some b | None => Some m end
  else newest_state marks uid.
Proof. unfold newest_state. rewrite foldl_app. cbn. by destruct (foldl _ None marks). Qed.

Lemma newest_state_spec marks uid : match newest_state marks uid with
  | Some m => m ∈ marks /\ om_uid m = uid /\ om_state m = true /\
      forall m', m' ∈ marks -> om_uid m' = uid -> om_state m' = true -> (om_ts m' <= om_ts m)%Z
  | None => forall m, m ∈ marks -> om_uid m = uid -> om_state m = false
  end.
Proof.
  induction marks as [|x marks IH] using rev_ind; [by intros m ?%elem_of_nil|]. rewrite newest_state_snoc.
  assert (Hsnoc : forall m, m ∈ marks ++ [x] <-> m ∈ marks \/ m = x) by set_solver.
  destruct (bool_decide_reflect (om_uid x = uid)) as [Hu|Hu], (om_state x) eqn:Hx; cbn [andb].
  - destruct (newest_state marks uid) as [b|].
    + destruct IH as (Hb & Hbu & Hbs & Hmax). case_bool_decide as Hlt; rewrite Hsnoc; split_and!; try by auto.
      * intros m' [Hm| ->]%Hsnoc Hm' Hs'; [|lia]. specialize (Hmax m' Hm Hm' Hs'). lia.
      * intros m' [Hm| ->]%Hsnoc Hm' Hs'; [by apply Hmax|lia].
    + rewrite Hsnoc. split_and!; try by auto. intros m' [Hm| ->]%Hsnoc Hm' Hs'; [|lia]. by rewrite (IH m' Hm Hm') in Hs'.
  - destruct (newest_state marks uid) as [b|].
    + destruct IH as (Hb & Hbu & Hbs & Hmax). rewrite Hsnoc. split_and!; try by auto.
      intros m' [Hm| ->]%Hsnoc Hm' Hs'; [by apply Hmax|congruence].
    + intros m' [Hm| ->]%Hsnoc Hm'; [by apply IH|done].
  - destruct (newest_state marks uid) as [b|].
    + destruct IH as (Hb & Hbu & Hbs & Hmax). rewrite Hsnoc. split_and!; try by auto.
      intros m' [Hm| ->]%Hsnoc Hm' Hs'; [by apply Hmax|congruence].
    + intros m' [Hm| ->]%Hsnoc Hm'; [by apply IH|congruence].
  - destruct (newest_state marks uid) as [b|].
    + destruct IH as (Hb & Hbu & Hbs & Hmax). rewrite Hsnoc. split_and!; try by auto.
      intros m' [Hm| ->]%Hsnoc Hm' Hs'; [by apply Hmax|congruence].
    + intros m' [Hm| ->]%Hsnoc Hm'; [by apply IH|congruence].
Qed.

(** The entry of an incarnation: the identity its first mark gave, and the owners of
    its newest state. *)
Definition entry_of (marks : list ownershipMark) (o : OwnedObject) : Prop :=
  (exists m, m ∈ marks /\ om_uid m = oo_UID o /\ om_ref m = oo_Ref o) /\
  oo_StateRecorded o = bool_decide (is_Some (newest_state marks (oo_UID o))) /\
  oo_Owners o = from_option om_owners [] (newest_state marks (oo_UID o)).

Record owned_inv (marks : list ownershipMark) (s : ownedState) : Prop := {
  oi_at : indexed oo_UID (os_objects s) (os_at s);
  oi_seen : forall uid, is_Some (os_at s !! uid) <-> uid ∈ map om_uid marks;
  oi_entry : forall i o, os_objects s !! i = Some o -> entry_of marks o;
  oi_newest : forall uid, os_newest s !! uid = om_ts <$> newest_state marks uid;
}.

(** Whether the mark gives its entry new owners. *)
Definition fresher (marks : list ownershipMark) (m : ownershipMark) : bool :=
  om_state m && match newest_state marks (om_uid m) with Some b => bool_decide (om_ts b < om_ts m)%Z | None => true end.

Lemma newest_state_fresher marks m :
  newest_state (marks ++ [m]) (om_uid m) = if fresher marks m then Some m else newest_state marks (om_uid m).
Proof.
  rewrite newest_state_snoc, bool_decide_eq_true_2 by done. unfold fresher. cbn [andb].
  destruct (om_state m); [|done]. cbn. destruct (newest_state marks (om_uid m)); [by case_bool_decide|done].
Qed.

Lemma newest_state_other marks m uid : om_uid m <> uid -> newest_state (marks ++ [m]) uid = newest_state marks uid.
Proof. intros Hu. by rewrite newest_state_snoc, bool_decide_eq_false_2. Qed.

(** The position of the mark's entry and the entries with it. *)
Definition owned_slot (s : ownedState) (mark : ownershipMark) : nat * list OwnedObject * gmap string nat :=
  match os_at s !! om_uid mark with
  | Some i => (i, os_objects s, os_at s)
  | None => (length (os_objects s), os_objects s ++ [mkOwned (om_ref mark) (om_uid mark) false []],
             <[om_uid mark := length (os_objects s)]> (os_at s))
  end.

Lemma alter_twice {A} (f g : A -> A) (i : nat) (l : list A) : alter f i (alter g i l) = alter (fun x => f (g x)) i l.
Proof. revert i. induction l as [|x l IH]; intros [|i]; cbn; [done..|]. f_equal. apply IH. Qed.

Lemma owned_mark_eq marks s m : owned_inv marks s ->
  owned_mark s m =
  let '(i, objects, at_) := owned_slot s m in
  mkOwnedState (alter (fun o => mkOwned (oo_Ref o) (oo_UID o) (oo_StateRecorded o || om_state m)
                                  (if fresher marks m then om_owners m else oo_Owners o)) i objects) at_
    (if fresher marks m then <[om_uid m := om_ts m]> (os_newest s) else os_newest s).
Proof.
  intros Hi. unfold owned_mark. fold (owned_slot s m). destruct (owned_slot s m) as [[i objects] at_].
  rewrite (oi_newest _ _ Hi). unfold fresher. destruct (om_state m); cbn [andb negb]; [|done].
  destruct (newest_state marks (om_uid m)) as [b|]; cbn; [case_bool_decide|]; by rewrite ?alter_twice.
Qed.

(** The entries with the mark's own: a new one stands for no mark yet. *)
Lemma owned_slot_spec marks s m i objects at_ : owned_inv marks s -> owned_slot s m = (i, objects, at_) ->
  indexed oo_UID objects at_ /\
  (forall uid, is_Some (at_ !! uid) <-> uid ∈ map om_uid (marks ++ [m])) /\
  at_ !! om_uid m = Some i /\
  (forall j o, objects !! j = Some o -> entry_of marks o \/
     o = mkOwned (om_ref m) (om_uid m) false [] /\ newest_state marks (om_uid m) = None).
Proof.
  intros [Hat Hseen Hentry Hnew]. unfold owned_slot. destruct (os_at s !! om_uid m) as [k|] eqn:E; intros [= <- <- <-].
  - split; [done|]. split; [|split; [done|by eauto]]. intros uid. rewrite Hseen, map_app, elem_of_app. cbn.
    rewrite list_elem_of_singleton. split; [by left|]. intros [?| ->]; [done|]. apply Hseen. by exists k.
  - split; [|split; [|split]].
    + by apply (indexed_snoc oo_UID _ _ (mkOwned (om_ref m) (om_uid m) false [])).
    + intros uid. rewrite map_app, elem_of_app. cbn. rewrite list_elem_of_singleton, <-Hseen.
      destruct (decide (uid = om_uid m)) as [->|Hne]; [rewrite lookup_insert_eq; split; [by right|by eexists]|rewrite lookup_insert_ne by done; tauto].
    + by rewrite lookup_insert_eq.
    + intros j o [Ho|[_ Ho]]%lookup_app_Some; [left; by eauto|]. apply list_lookup_singleton_Some in Ho as [_ <-]. right. split; [done|].
      pose proof (newest_state_spec marks (om_uid m)) as Hs. destruct (newest_state marks (om_uid m)) as [b|]; [|done].
      destruct Hs as (Hb & Hu & _). exfalso. destruct (proj2 (Hseen (om_uid m))) as [j' Hj']; [|congruence].
      rewrite <-Hu. by apply list_elem_of_fmap_2.
Qed.

Lemma owned_mark_inv marks s m : owned_inv marks s -> owned_inv (marks ++ [m]) (owned_mark s m).
Proof.
  intros Hi. rewrite (owned_mark_eq marks s m Hi). destruct (owned_slot s m) as [[i objects] at_] eqn:Hslot.
  destruct (owned_slot_spec _ _ _ _ _ _ Hi Hslot) as (Hat & Hseen & Hm & Hentry). set (g := fun o => mkOwned _ _ _ _).
  assert (Hg : forall j o, alter g i objects !! j = Some o ->
    exists o0, objects !! j = Some o0 /\ oo_UID o = oo_UID o0 /\ (j = i /\ o = g o0 \/ j <> i /\ o = o0)).
  { intros j o. rewrite list_lookup_alter. case_decide as Hij; [subst j|by eauto 6].
    destruct (objects !! i) as [o0|]; [|done]. intros [= <-]. eauto 6. }
  split; cbn [os_at os_objects os_newest].
  - by apply indexed_alter.
  - exact Hseen.
  - intros j o (o0 & Ho0 & Hu & Hcase)%Hg.
    assert (Hown : j = i <-> oo_UID o0 = om_uid m).
    { split; [intros ->; apply Hat in Hm as (o1 & Ho1 & <-); congruence|].
      intros Hu0. assert (Hj : at_ !! om_uid m = Some j) by (apply Hat; by exists o0). congruence. }
    assert (Hin : forall x, x ∈ marks -> x ∈ marks ++ [m]) by set_solver.
    destruct Hcase as [[-> ->]|[Hne ->]].
    + assert (Hu0 : oo_UID o0 = om_uid m) by (by apply Hown). unfold entry_of. cbn [g oo_UID oo_Ref oo_StateRecorded oo_Owners].
      rewrite Hu0, newest_state_fresher.
      assert (Hfs : fresher marks m = true -> om_state m = true) by (intros [? _]%andb_prop; done).
      destruct (Hentry _ _ Ho0) as [((m0 & Hm0 & Hmu & Hmr) & Hs & Ho)|[-> Hns]].
      * split; [exists m0; rewrite <-Hu0; auto|]. rewrite Hu0 in Hs, Ho. rewrite Hs, Ho.
        destruct (fresher marks m) eqn:Ef; [by rewrite Hfs, orb_true_r by done|]. split; [|done].
        unfold fresher in Ef. destruct (om_state m); [|by rewrite orb_false_r]. cbn in Ef.
        destruct (newest_state marks (om_uid m)); [done|discriminate Ef].
      * split; [exists m; split; [set_solver|done]|]. unfold fresher. rewrite Hns. cbn. destruct (om_state m); done.
    + assert (Hu0 : om_uid m <> oo_UID o0) by (intros Heq; by apply Hne, Hown).
      destruct (Hentry _ _ Ho0) as [((m0 & Hm0 & Hmu & Hmr) & Hs & Ho)|[-> _]]; [|done].
      unfold entry_of. rewrite newest_state_other by done. split; [exists m0; auto|done].
  - intros uid. destruct (decide (om_uid m = uid)) as [<-|Hne].
    + rewrite newest_state_fresher. destruct (fresher marks m); [by rewrite lookup_insert_eq|apply Hi].
    + rewrite newest_state_other by done. destruct (fresher marks m); [rewrite lookup_insert_ne by done|]; apply Hi.
Qed.

Lemma owned_lawful : lawful compareOwned.
Proof. repeat (apply lawful_or; [apply lawful_string|]). apply lawful_string. Qed.

#[export] Instance owned_le_trans : Transitive owned_le.
Proof. intros a b c. apply (lawful_trans _ owned_lawful). Qed.
#[export] Instance owned_le_total : Total owned_le.
Proof. exact (lawful_total _ owned_lawful). Qed.

(** The reduction of the marks: one entry per incarnation seen. *)
Lemma ownedObjects_spec marks :
  StronglySorted owned_le (ownedObjects marks) /\ NoDup (map oo_UID (ownedObjects marks)) /\
  (forall uid, uid ∈ map oo_UID (ownedObjects marks) <-> uid ∈ map om_uid marks) /\
  forall o, o ∈ ownedObjects marks -> entry_of marks o.
Proof.
  assert (Hinv : forall l, owned_inv l (foldl owned_mark (mkOwnedState [] ∅ ∅) l)).
  { intros l. induction l as [|m l IH] using rev_ind.
    - split; cbn; [apply indexed_nil|by intros uid; rewrite lookup_empty; split; [by intros [? ?]|by intros ?%elem_of_nil]|done|done].
    - rewrite foldl_app. by apply owned_mark_inv. }
  specialize (Hinv marks). unfold ownedObjects. set (s := foldl owned_mark _ _) in *. destruct Hinv as [Hat Hseen Hentry _].
  pose proof (stable_sort_Permutation owned_le (os_objects s)) as Hp. split; [apply stable_sort_sorted; apply _|].
  assert (Huids : map oo_UID (stable_sort owned_le (os_objects s)) ≡ₚ map oo_UID (os_objects s)) by (by apply Permutation_map).
  split; [|split].
  - rewrite Huids. by eapply indexed_NoDup.
  - intros uid. by rewrite Huids, <-Hseen, <-(indexed_elem _ _ _ _ Hat).
  - intros o. rewrite Hp. intros [i Hi]%list_elem_of_lookup. by eapply Hentry.
Qed.

(** ** Spans of incarnations *)

(** What the span of an incarnation says about the marks. *)
Definition span_of (marks : list incarnationMark) (s : Incarnation) : Prop :=
  (exists m, m ∈ marks /\ im_uid m = in_UID s /\ im_ts m = in_FirstSeen s) /\
  (exists m, m ∈ marks /\ im_uid m = in_UID s /\ im_ts m = in_LastSeen s) /\
  (forall m, m ∈ marks -> im_uid m = in_UID s -> (in_FirstSeen s <= im_ts m <= in_LastSeen s)%Z) /\
  (in_Deleted s = true <-> exists m, m ∈ marks /\ im_uid m = in_UID s /\ im_deleted m = true).

Record spans_inv (marks : list incarnationMark) (s : list Incarnation * gmap string nat) : Prop := {
  si_at : indexed in_UID s.1 s.2;
  si_seen : forall uid, is_Some (s.2 !! uid) <-> uid ∈ map im_uid marks;
  si_span : forall i span, s.1 !! i = Some span -> span_of marks span;
  si_sorted : StronglySorted Z.le (map in_FirstSeen s.1);
}.

Lemma spans_seen marks spans at_ m k : spans_inv marks (spans, at_) -> Forall (fun x => mark_le x m) marks ->
  at_ !! im_uid m = Some k -> spans_inv (marks ++ [m])
    (alter (fun span => mkIncarnation (in_UID span) (in_FirstSeen span) (im_ts m) (in_Deleted span || im_deleted m)) k spans, at_).
Proof.
  intros [Hat Hseen Hspan Hsort] Hle Hk. cbn in *. set (g := fun span => mkIncarnation _ _ _ _).
  assert (Hin : forall x, x ∈ marks ++ [m] <-> x ∈ marks \/ x = m) by set_solver.
  rewrite Forall_forall in Hle. unfold mark_le in Hle. split; cbn [fst snd].
  - by apply indexed_alter.
  - intros uid. rewrite Hseen, map_app, elem_of_app. cbn. rewrite list_elem_of_singleton. split; [by left|].
    intros [?| ->]; [done|]. apply Hseen. by exists k.
  - intros i s. rewrite list_lookup_alter. case_decide as Hi; [subst i|].
    + destruct (spans !! k) as [s0|] eqn:E; [|done]. intros [= <-].
      assert (Hu : in_UID s0 = im_uid m) by (apply Hat in Hk as (s1 & Hs1 & <-); congruence).
      destruct (Hspan _ _ E) as ((f & Hf & Hfu & Hft) & _ & Hall & Hdel). unfold span_of. cbn [g in_UID in_FirstSeen in_LastSeen in_Deleted].
      split_and!; [exists f; rewrite Hin; auto|exists m; rewrite Hin; auto| |].
      * intros x [Hx| ->]%Hin Hxu; [specialize (Hle x Hx); specialize (Hall x Hx Hxu); lia|].
        specialize (Hle f Hf). lia.
      * rewrite orb_true_iff, Hdel. setoid_rewrite Hin. split; [intros [(x & ? & ? & ?)|?]; eauto|].
        intros (x & [?| ->] & ? & ?); eauto.
    + intros Hs. destruct (Hspan _ _ Hs) as ((f & Hf & Hfu & Hft) & (l & Hl & Hlu & Hlt) & Hall & Hdel). unfold span_of.
      assert (Hu : in_UID s <> im_uid m).
      { intros Hu. assert (at_ !! im_uid m = Some i) by (apply Hat; by exists s). congruence. }
      setoid_rewrite Hin. split_and!; [by exists f; auto|by exists l; auto| |].
      * intros x [Hx| ->] Hxu; [by apply Hall|congruence].
      * rewrite Hdel. split; [intros (x & ? & ? & ?); eauto|]. intros (x & [?| ->] & ? & ?); [eauto|congruence].
  - replace (map in_FirstSeen (alter g k spans)) with (map in_FirstSeen spans); [done|].
    clear. revert k. induction spans as [|x l IH]; intros [|k]; cbn; [done..|]. f_equal. apply IH.
Qed.

Lemma spans_new marks spans at_ m : spans_inv marks (spans, at_) -> Forall (fun x => mark_le x m) marks ->
  at_ !! im_uid m = None -> spans_inv (marks ++ [m])
    (spans ++ [mkIncarnation (im_uid m) (im_ts m) (im_ts m) (im_deleted m)], <[im_uid m := length spans]> at_).
Proof.
  intros [Hat Hseen Hspan Hsort] Hle Hk. cbn in *. rewrite Forall_forall in Hle. unfold mark_le in Hle.
  assert (Hin : forall x, x ∈ marks ++ [m] <-> x ∈ marks \/ x = m) by set_solver.
  assert (Hfresh : forall x, x ∈ marks -> im_uid x <> im_uid m).
  { intros x Hx Hu. destruct (proj2 (Hseen (im_uid m))) as [j Hj]; [|congruence]. rewrite <-Hu. by apply list_elem_of_fmap_2. }
  split; cbn [fst snd].
  - by apply (indexed_snoc in_UID _ _ (mkIncarnation (im_uid m) (im_ts m) (im_ts m) (im_deleted m))).
  - intros uid. rewrite map_app, elem_of_app. cbn. rewrite list_elem_of_singleton, <-Hseen.
    destruct (decide (uid = im_uid m)) as [->|Hne]; [rewrite lookup_insert_eq; split; [by right|by eexists]|rewrite lookup_insert_ne by done; tauto].
  - intros i s [Hs|[_ Hs]]%lookup_app_Some.
    + destruct (Hspan _ _ Hs) as ((f & Hf & Hfu & Hft) & (l & Hl & Hlu & Hlt) & Hall & Hdel). unfold span_of.
      assert (Hu : in_UID s <> im_uid m) by (rewrite <-Hfu; by apply Hfresh).
      setoid_rewrite Hin. split_and!; [by exists f; auto|by exists l; auto| |].
      * intros x [Hx| ->] Hxu; [by apply Hall|congruence].
      * rewrite Hdel. split; [intros (x & ? & ? & ?); eauto|]. intros (x & [?| ->] & ? & ?); [eauto|congruence].
    + apply list_lookup_singleton_Some in Hs as [_ <-]. unfold span_of. cbn. setoid_rewrite Hin. split_and!; [by exists m; auto..| |].
      * intros x [Hx| ->] Hu; [by apply Hfresh in Hx|lia].
      * split; [by exists m; auto|]. intros (x & [Hx| ->] & Hu & Hd); [by apply Hfresh in Hx|done].
  - rewrite map_app. apply StronglySorted_app_2; [|done|repeat constructor].
    intros x y (s & -> & [i Hi]%list_elem_of_lookup)%list_elem_of_fmap ->%list_elem_of_singleton. cbn.
    destruct (Hspan _ _ Hi) as ((f & Hf & _ & <-) & _). by apply Hle.
Qed.

Lemma spansOf_spec marks : StronglySorted mark_le marks ->
  NoDup (map in_UID (spansOf marks)) /\ (forall uid, uid ∈ map in_UID (spansOf marks) <-> uid ∈ map im_uid marks) /\
  StronglySorted Z.le (map in_FirstSeen (spansOf marks)) /\ forall s, s ∈ spansOf marks -> span_of marks s.
Proof.
  intros Hsort. assert (Hinv : spans_inv marks (foldl spansOf_mark ([], ∅) marks)).
  { induction marks as [|m marks IH] using rev_ind.
    - split; cbn; [apply indexed_nil|by intros uid; rewrite lookup_empty; split; [by intros [? ?]|by intros ?%elem_of_nil]|done|constructor].
    - apply StronglySorted_app in Hsort as (Hm & Hs & _). specialize (IH Hs). rewrite foldl_app. cbn.
      assert (Hle : Forall (fun x => mark_le x m) marks) by (apply Forall_forall; intros x Hx; apply Hm; [done|by left]).
      destruct (foldl spansOf_mark _ marks) as [spans at_]. cbn [spansOf_mark].
      destruct (at_ !! im_uid m) eqn:E; [by apply spans_seen|by apply spans_new]. }
  unfold spansOf. destruct (foldl _ _ marks) as [spans at_]. destruct Hinv as [Hat Hseen Hspan Hss]. cbn in *. split_and!; [| |done|].
  - by eapply indexed_NoDup.
  - intros uid. by rewrite <-Hseen, <-(indexed_elem _ _ _ _ Hat).
  - intros s [i Hi]%list_elem_of_lookup. by eapply Hspan.
Qed.

(** ** Properties *)

(** the ownership of a scope is what the archive recorded. When the scan answers at
    all, every object of the window was read to its end - a short read is an error, never
    a smaller tree - and, over an archive filed as the reader expects, there is exactly
    one entry per incarnation the window's lines of the scope name, Events aside, in
    identity order; it is marked as recorded exactly when one of those lines carries
    state, and its owners are those of the newest line that does. *)
Theorem ownership_scan_exact `{ObjectSource, FrameReader, OwnerCodec} e q from to stored objects :
  oq_From q = Some from -> oq_To q = Some to -> askable e (oq_ClusterID q) from to -> holds_keys stored ->
  Forall (filed e (oq_ClusterID q)) stored -> Ownership e q = Ok objects ->
  let lines := List.filter (ownership_kept q) (concat (map key_lines stored)) in
  Forall read_whole (concat (map keys_of (recordPrefixes e (oq_ClusterID q) from to))) /\
  StronglySorted owned_le objects /\ NoDup (map oo_UID objects) /\
  (forall uid, uid ∈ map oo_UID objects <-> uid ∈ map ln_UID lines) /\
  (forall o, o ∈ objects ->
     (exists l, l ∈ lines /\ ln_UID l = oo_UID o /\ line_ref l = oo_Ref o) /\
     (if oo_StateRecorded o
      then exists l, l ∈ lines /\ ln_UID l = oo_UID o /\ ln_Data l <> "" /\ oo_Owners o = OwnersOf (ln_Data l) /\
             forall l', l' ∈ lines -> ln_UID l' = oo_UID o -> ln_Data l' <> "" -> (ln_Timestamp l' <= ln_Timestamp l)%Z
      else oo_Owners o = [] /\ forall l, l ∈ lines -> ln_UID l = oo_UID o -> ln_Data l = "")).
Proof.
  intros Hf Ht Ha Hs Hfiled Ho lines. unfold Ownership, requireWindow in Ho. rewrite Hf, Ht in Ho.
  destruct (en_closed e); [done|]. case_bool_decide; [done|]. destruct (scanPartitions _ _ _ _ _ _) as [marks [f|]] eqn:Hscan; [done|].
  injection Ho as <-. apply whole_scan in Hscan as (_ & Hread & Hm); [|apply Ha]. rewrite foldl_app_concat in Hm. cbn [app] in Hm.
  unfold ownership_decode, decodeFrame in Hm.
  rewrite (map_ext _ (fun key => map ownership_mark (List.filter (ownership_kept q) (key_lines key)))
    (read_collected record_stream (ownership_kept q) ownership_mark)) in Hm.
  rewrite (concat_read (ownership_kept q) ownership_mark key_lines) in Hm.
  assert (Hp : marks ≡ₚ map ownership_mark lines).
  { rewrite Hm. apply Permutation_map. apply window_complete; [done..|]. intros l. unfold ownership_kept. rewrite Hf, Ht.
    case_bool_decide; [done|]. destruct (_ && _); [done|]. case_bool_decide; [done|]. destruct (isEvent l); [done|].
    destruct (in_window _ _ _) eqn:Hw; [|done]. apply in_window_bounds in Hw. intros _. split; [|done].
    by destruct (decide (ln_ClusterID l = oq_ClusterID q)). }
  assert (Hin : forall m, m ∈ marks <-> exists l, m = ownership_mark l /\ l ∈ lines) by (intros m; by rewrite Hp, list_elem_of_fmap).
  destruct (ownedObjects_spec marks) as (Hsort & Hnd & Huids & Hentry). split_and!; [|done|done| |].
  - eapply Forall_impl; [exact Hread|]. intros key. apply read_whole_of.
  - intros uid. rewrite Huids, Hp, map_map. done.
  - intros o ((m & (l & -> & Hl)%Hin & Hu & Hr) & Hst & Hown)%Hentry. split; [by exists l|].
    pose proof (newest_state_spec marks (oo_UID o)) as Hn. rewrite Hst, Hown.
    destruct (newest_state marks (oo_UID o)) as [b|]; cbn.
    + destruct Hn as ((lb & -> & Hlb)%Hin & Hbu & Hbs%bool_decide_eq_true & Hmax). exists lb. split_and!; [done..|].
      intros l' Hl' Hu' Hd'. apply (Hmax (ownership_mark l')); [apply Hin; by exists l'|done|]. by apply bool_decide_eq_true.
    + split; [done|]. intros l' Hl' Hu'. specialize (Hn (ownership_mark l') (proj2 (Hin _) (ex_intro _ l' (conj eq_refl Hl'))) Hu').
      cbn in Hn. apply bool_decide_eq_false in Hn. by destruct (decide (ln_Data l' = "")).
Qed.

(** ** Coverage *)

(** The scope rows of an object. *)
Definition key_scopes `{ObjectSource, FrameReader} (key : string) : list scopeLine :=
  match src_Open key with Ok b => (streamFrame scope_stream (bd_bytes b)).1 | Err _ => [] end.

(** The transitions of an archive a query is about. *)
Definition scope_log `{ObjectSource, FrameReader} (e : Engine) (q : ScopeQuery) (stored : list string) : list ScopeChange :=
  map line_scopeChange (List.filter (scope_matches q)
    (concat (map key_scopes (List.filter (fun key => has_prefix key (scopesRoot (en_prefix e))) stored)))).

(** Coverage of a window is coverage, as far as the window reaches. *)
Lemma coverage_in_window changes from to k t : in_window from to t = true ->
  covered (CoverageOf changes from to) k t <-> covered (CoverageOf changes None None) k t.
Proof.
  unfold in_window. rewrite andb_true_iff, negb_true_iff. intros [Hf Ht].
  unfold covered. split; intros (i & Hi & Hk & Hc); exists i; (split; [|done]); rewrite elem_of_CoverageOf in Hi |- *;
    destruct Hi as [_ Hi]; (split; [|done]).
  - by destruct i as [????? []].
  - destruct Hc as [Hfrom Hto]. unfold overlapsWindow. destruct to as [to|].
    + rewrite negb_true_iff, bool_decide_eq_false in Ht. rewrite bool_decide_eq_false_2 by lia.
      destruct from as [from|]; [|done]. destruct (iv_To i); [|done]. apply bool_decide_eq_false in Hf.
      apply negb_true_iff, bool_decide_eq_false. lia.
    + destruct from as [from|]; [|done]. destruct (iv_To i); [|done]. apply bool_decide_eq_false in Hf.
      apply negb_true_iff, bool_decide_eq_false. lia.
Qed.

Lemma coverage_log_lines `{ObjectSource, FrameReader} e q stored intervals :
  en_concurrency e <> 0 -> holds_keys stored -> Coverage e q = Ok intervals ->
  exists transitions, transitions ≡ₚ scope_log e q stored /\ intervals = CoverageOf transitions (sq_From q) (sq_To q).
Proof.
  intros Hn Hs Hc. unfold Coverage in Hc. destruct (en_closed e); [done|].
  destruct (scanPartitions _ _ _ _ _ _) as [transitions [f|]] eqn:Hscan; [done|]. injection Hc as <-. exists transitions. split; [|done].
  apply whole_scan in Hscan as (_ & _ & ->); [|done]. rewrite foldl_app_concat. cbn [app].
  unfold scope_decode, decodeScopeFrame.
  rewrite (map_ext _ (fun key => map line_scopeChange (List.filter (scope_matches q) (key_scopes key)))
    (read_collected scope_stream (scope_matches q) line_scopeChange)).
  rewrite (concat_read (scope_matches q) line_scopeChange key_scopes). unfold scope_log.
  cbn [map concat]. rewrite app_nil_r.
  pose proof (concat_map_Permutation key_scopes _ _ (holds_keys_of stored (scopesRoot (en_prefix e)) Hs)) as Hp.
  apply Permutation_map. by rewrite Hp.
Qed.

Lemma watched_Permutation log log' k t : log ≡ₚ log' -> watched log k t <-> watched log' k t.
Proof.
  intros Hp. assert (Hin : forall c, c ∈ log <-> c ∈ log') by (intros c; by rewrite Hp). unfold watched.
  split; intros (c & Hc & Hs & Ha & Ht & Hall); exists c; (split; [by apply Hin|]); split_and!; try done; intros c' Hc'; apply Hall; by apply Hin.
Qed.

Lemma distinct_marks_Permutation log log' : log ≡ₚ log' -> distinct_marks log' -> distinct_marks log.
Proof. intros Hp Hd c c'. rewrite !Hp. apply Hd. Qed.

(** The archive says when it was watching. When [Coverage] answers, then - whatever
    order the scope log's objects were listed and read in - an instant of the asked
    window is inside a returned interval of a scope exactly when the latest mark up to it,
    among all rows of the archive's whole scope log the query is about, is a Started:
    a scope opened long before the window is not missed. *)
Theorem archive_coverage_is_watching `{ObjectSource, FrameReader} e q stored intervals k t :
  en_concurrency e <> 0 -> holds_keys stored -> Coverage e q = Ok intervals ->
  distinct_marks (scope_log e q stored) -> in_window (sq_From q) (sq_To q) t = true ->
  covered intervals k t <-> watched (scope_log e q stored) k t.
Proof.
  intros Hn Hs Hc Hd Ht. destruct (coverage_log_lines e q stored intervals Hn Hs Hc) as (transitions & Hp & ->).
  rewrite coverage_in_window, coverage_watched by (done || by eapply distinct_marks_Permutation). by apply watched_Permutation.
Qed.

(** ** Clusters *)

Lemma cut_segment c s t : string_mem c s = false -> cut c (s +:+ String c t) = Some (s, t).
Proof.
  induction s as [|a s IH]; [change (EmptyString +:+ String c t) with (String c t); cbn [cut]; by rewrite bool_decide_eq_true_2|].
  cbn [string_mem]. intros [Ha%bool_decide_eq_false Hs]%orb_false_iff.
  change (String a s +:+ String c t) with (String a (s +:+ String c t)). cbn [cut].
  by rewrite bool_decide_eq_false_2, IH.
Qed.

Definition clusters_root (e : Engine) : string := joinSegments [en_prefix e; formatPartition] +:+ "/".

Section roots.
Context (e : Engine) (Hprefix : trim "/"%char (en_prefix e) = en_prefix e).

Lemma scopesRoot_below : scopesRoot (en_prefix e) = clusters_root e +:+ scopesPartition +:+ "/".
Proof.
  unfold scopesRoot, clusters_root, joinSegments. cbn [List.filter].
  rewrite (bool_decide_eq_true_2 (formatPartition <> "")), (bool_decide_eq_true_2 (scopesPartition <> "")) by done.
  case_bool_decide; cbn [map join]; rewrite ?Hprefix; by rewrite !string_app_assoc.
Qed.

Lemma recordsRoot_below cluster : string_mem "/"%char cluster = false ->
  recordsRoot (en_prefix e) cluster = clusters_root e +:+ clusterSegment +:+ cluster +:+ "/".
Proof.
  intros Hc. unfold recordsRoot, clusters_root, joinSegments. cbn [List.filter].
  rewrite (bool_decide_eq_true_2 (formatPartition <> "")), (bool_decide_eq_true_2 (clusterSegment +:+ cluster <> "")) by done.
  assert (Ht : trim "/"%char (clusterSegment +:+ cluster) = clusterSegment +:+ cluster).
  { apply trim_none. by rewrite string_mem_app, Hc. }
  case_bool_decide; cbn [map join]; rewrite ?Hprefix, Ht; by rewrite !string_app_assoc.
Qed.

Lemma clusterIDOf_record cluster ts hash : string_mem "/"%char cluster = false -> cluster <> "" ->
  clusterIDOf (objectKey (en_prefix e) cluster ts hash) (clusters_root e) = Some cluster.
Proof.
  intros Hc Hne. rewrite objectKey_root, recordsRoot_below by done. rewrite !string_app_assoc. unfold clusterIDOf.
  rewrite cut_prefix_app. match goal with |- context [_ +:+ _ +:+ "/" +:+ ?rest] => generalize rest end. intros rest.
  assert (E : clusterSegment +:+ cluster +:+ "/" +:+ rest = (clusterSegment +:+ cluster) +:+ String "/" rest) by (by rewrite string_app_assoc).
  rewrite E, cut_segment by (by rewrite string_mem_app, Hc). rewrite cut_prefix_app. by rewrite bool_decide_eq_false_2.
Qed.

Lemma clusterIDOf_scope key : has_prefix key (scopesRoot (en_prefix e)) = true -> clusterIDOf key (clusters_root e) = None.
Proof.
  rewrite scopesRoot_below. intros [t ->]%has_prefix_spec. rewrite !string_app_assoc. unfold clusterIDOf. by rewrite cut_prefix_app.
Qed.
End roots.

(** The loop keeps each identifier once, in the order they appear. *)
Lemma cluster_keys_spec root keys seen ids seen' ids' : foldl (cluster_key root) (seen, ids) keys = (seen', ids') ->
  NoDup ids -> (forall id, id ∈ ids <-> id ∈ seen) ->
  NoDup ids' /\ forall id, id ∈ ids' <-> id ∈ ids \/ exists key, key ∈ keys /\ isObjectKey key = true /\ clusterIDOf key root = Some id.
Proof.
  revert seen ids. induction keys as [|key keys IH]; intros seen ids; cbn [foldl].
  { intros [= <- <-] Hn Hs. split; [done|]. intros id. split; [by left|]. intros [?|(? & ?%elem_of_nil & _)]; done. }
  assert (Hcons : forall id, (exists k, k ∈ key :: keys /\ isObjectKey k = true /\ clusterIDOf k root = Some id) <->
    (isObjectKey key = true /\ clusterIDOf key root = Some id) \/ exists k, k ∈ keys /\ isObjectKey k = true /\ clusterIDOf k root = Some id).
  { intros id. setoid_rewrite elem_of_cons. split; [intros (k & [->|?] & ?); eauto|]. intros [?|(k & ? & ?)]; eauto. }
  intros Hf Hn Hs. setoid_rewrite Hcons. unfold cluster_key in Hf at 2. destruct (isObjectKey key); cbn [negb] in Hf.
  2: { destruct (IH _ _ Hf Hn Hs) as [? Hi]. split; [done|]. intros id. rewrite Hi. naive_solver. }
  destruct (clusterIDOf key root) as [x|].
  2: { destruct (IH _ _ Hf Hn Hs) as [? Hi]. split; [done|]. intros id. rewrite Hi. naive_solver. }
  case_bool_decide as Hx.
  - destruct (IH _ _ Hf Hn Hs) as [? Hi]. split; [done|]. intros id. rewrite Hi. apply Hs in Hx. naive_solver.
  - destruct (IH _ _ Hf) as [? Hi]; [|set_solver|].
    { apply NoDup_app. split; [done|]. split; [|apply NoDup_singleton]. intros y Hy ->%list_elem_of_singleton. by apply Hx, Hs. }
    split; [done|]. intros id. rewrite Hi, elem_of_app, list_elem_of_singleton. naive_solver.
Qed.

(** Discovery finds the recorded clusters. Over an archive that holds record objects
    under the writer's keys, for any number of clusters, and scope-log objects, and whose
    listing succeeds, [ClusterIDs] lists exactly the clusters with a record object, each
    once and in byte order, whatever the order of the listing. *)
Theorem clusters_discovered `{ObjectSource} e stored ids :
  trim "/"%char (en_prefix e) = en_prefix e -> holds_keys stored ->
  Forall (fun key => (exists c ts hash, key = objectKey (en_prefix e) c ts hash /\ c <> "" /\ string_mem "/"%char c = false) \/
                     has_prefix key (scopesRoot (en_prefix e)) = true) stored ->
  ClusterIDs e = Ok ids ->
  StronglySorted String.le ids /\ NoDup ids /\
  forall id, id ∈ ids <-> id <> "" /\ string_mem "/"%char id = false /\ exists ts hash, objectKey (en_prefix e) id ts hash ∈ stored.
Proof.
  intros Hp Hs Hkeys Hids. unfold ClusterIDs in Hids. destruct (en_closed e); [done|]. fold (clusters_root e) in Hids.
  destruct (hk_listed _ Hs (clusters_root e)) as (keys & Hk & Hperm). unfold listOnePrefix in Hk.
  destruct (ls_err (src_List (clusters_root e))), (ls_close (src_List (clusters_root e))); try done. injection Hk as <-. injection Hids as <-.
  destruct (foldl _ _ _) as [seen found] eqn:Hf. apply cluster_keys_spec in Hf as [Hn Hin]; [|constructor|set_solver].
  cbn [snd]. split; [apply StronglySorted_merge_sort; apply _|]. rewrite merge_sort_Permutation. split; [done|].
  intros id. rewrite merge_sort_Permutation, Hin. split.
  - intros [?%elem_of_nil|(key & Hkey & Ho & Hc)]; [done|].
    assert (Hst : key ∈ List.filter (fun key => has_prefix key (clusters_root e)) stored).
    { rewrite <-Hperm. apply list_elem_of_In, filter_In. split; [by apply list_elem_of_In|done]. }
    apply list_elem_of_In, filter_In in Hst as [Hst%list_elem_of_In _]. rewrite Forall_forall in Hkeys.
    destruct (Hkeys key Hst) as [(c & ts & hash & -> & Hne & Hm)|Hscope]; [|by rewrite clusterIDOf_scope in Hc].
    rewrite clusterIDOf_record in Hc by done. injection Hc as <-. split; [done|]. split; [done|]. by exists ts, hash.
  - intros (Hne & Hm & ts & hash & Hst). right. exists (objectKey (en_prefix e) id ts hash).
    assert (Hl : objectKey (en_prefix e) id ts hash ∈ List.filter (fun key => has_prefix key (clusters_root e)) stored).
    { apply list_elem_of_In, filter_In. split; [by apply list_elem_of_In|]. rewrite objectKey_root, recordsRoot_below by done.
      rewrite !string_app_assoc. apply has_prefix_spec. by eexists. }
    rewrite <-Hperm in Hl. apply list_elem_of_In, filter_In in Hl as [Hl Ho]. split; [by apply list_elem_of_In|].
    split; [done|]. by apply clusterIDOf_record.
Qed.

(** ** Incarnations *)

Definition marks_scan (ref : ObjectRef) (from to : Z) : recordScan := mkRecordScan ref (Some from) (Some to) None false false [].

Lemma marks_of_lines `{FrameReader} ref from to lines :
  ta_marks (foldl (scan_line (marks_scan ref from to)) acc_zero lines) = map line_mark (named_by (marks_scan ref from to) lines).
Proof.
  rewrite scan_lines_acc, acc_merge_zero_l. induction lines as [|l lines IH]; [done|]. cbn [map merge_all foldr acc_merge ta_marks].
  fold (merge_all (map (scan_line (marks_scan ref from to) acc_zero) lines)). rewrite IH. unfold named_by, scan_line. cbn [List.filter].
  destruct (in_window _ _ _); cbn [negb andb]; [|done]. by destruct (namesObject l _).
Qed.

Lemma marks_of_keys `{ObjectSource, FrameReader} s keys :
  ta_marks (foldl (scan_line s) acc_zero (concat (map key_lines keys))) = concat (map (fun k => ta_marks (read_key s k).1) keys).
Proof.
  induction keys as [|k ks IH]; cbn; [done|]. rewrite foldl_app, scan_lines_acc. cbn [acc_merge ta_marks].
  rewrite <-IH, read_key_lines. f_equal. by rewrite scan_lines_acc, acc_merge_zero_l.
Qed.

Lemma foldl_marks t accs : foldl (fun marks acc => marks ++ ta_marks acc) t accs = t ++ concat (map ta_marks accs).
Proof. revert t. induction accs as [|a accs IH]; intros t; cbn; [by rewrite app_nil_r|]. by rewrite IH, app_assoc. Qed.

(** the list of incarnations is complete. When [Incarnations] answers, every object of
    the window was read to its end, and, over an archive filed as the reader expects, the
    answer has exactly one span per UID the window's lines give the object, oldest first,
    from its earliest to its latest line there, and marked deleted exactly when one of
    them is a deletion. *)
Theorem incarnations_complete `{ObjectSource, FrameReader} e ref from to stored spans :
  askable e (or_ClusterID ref) from to -> holds_keys stored -> Forall (filed e (or_ClusterID ref)) stored ->
  Incarnations e ref (Some from) (Some to) = Ok spans ->
  let lines := named_by (marks_scan ref from to) (concat (map key_lines stored)) in
  Forall read_whole (concat (map keys_of (recordPrefixes e (or_ClusterID ref) from to))) /\
  NoDup (map in_UID spans) /\ (forall uid, uid ∈ map in_UID spans <-> uid ∈ map ln_UID lines) /\
  StronglySorted Z.le (map in_FirstSeen spans) /\ (forall s, s ∈ spans -> span_of (map line_mark lines) s).
Proof.
  intros Ha Hs Hfiled Hi lines. unfold Incarnations, requireWindow in Hi. destruct (en_closed e); [done|].
  case_bool_decide; [done|]. fold (marks_scan ref from to) in Hi. destruct (scanPartitions _ _ _ _ _ _) as [marks [f|]] eqn:Hscan; [done|].
  injection Hi as <-. apply whole_scan in Hscan as (_ & Hread & Hm); [|apply Ha].
  set (keys := concat (map keys_of _)) in *.
  assert (Hmarks : marks = map line_mark (named_by (marks_scan ref from to) (concat (map key_lines keys)))).
  { rewrite Hm, <-marks_of_lines, marks_of_keys. by rewrite foldl_marks, map_map. }
  assert (Hp : marks ≡ₚ map line_mark lines).
  { rewrite Hmarks. apply Permutation_map. apply window_complete; [done..|].
    intros l [Hw%in_window_bounds Hn%namesObject_cluster]%andb_true_iff. done. }
  destruct (spansOf_spec (stable_sort mark_le marks)) as (Hn & Hu & Hss & Hspan); [apply stable_sort_sorted; apply _|].
  assert (Hsp : stable_sort mark_le marks ≡ₚ map line_mark lines) by (by rewrite stable_sort_Permutation). split_and!.
  - eapply Forall_impl; [exact Hread|]. intros key. apply read_whole_of.
  - done.
  - intros uid. rewrite Hu, Hsp, map_map. done.
  - done.
  - intros s Hin%Hspan. clear -Hin Hsp. destruct Hin as ((a & Ha & ?) & (b & Hb & ?) & Hall & Hdel). rewrite Hsp in Ha, Hb.
    split_and!; [by exists a|by exists b|by intros m Hm; apply Hall; rewrite Hsp|]. rewrite Hdel.
    split; intros (x & Hx & ?); exists x; rewrite Hsp in Hx || rewrite Hsp; done.
Qed.

(** ** The estimate *)

Definition stored_bytes `{ObjectSource} (prefix : string) : Z :=
  foldr Z.add 0%Z (map snd (List.filter (fun o => isObjectKey o.1) (ls_objects (src_List prefix)))).

Lemma measure_spec `{ObjectSource} prefix size : measure prefix = Ok size ->
  listOnePrefix prefix = Ok (keys_of prefix) /\ ps_objects size = Z.of_nat (length (keys_of prefix)) /\ ps_bytes size = stored_bytes prefix.
Proof.
  unfold measure, keys_of, listOnePrefix, stored_bytes.
  destruct (ls_err (src_List prefix)), (ls_close (src_List prefix)); try done. intros [= <-]. split; [done|].
  assert (Hg : forall l a b, foldl (fun size object => if negb (isObjectKey object.1) then size
      else mkSize (ps_objects size + 1) (ps_bytes size + object.2)) (mkSize a b) l =
    mkSize (a + Z.of_nat (length (List.filter isObjectKey (map fst l))))
      (b + foldr Z.add 0%Z (map snd (List.filter (fun o => isObjectKey o.1) l)))).
  { induction l as [|[k n] l IH]; intros a b; cbn [foldl map List.filter fst snd foldr length]; [f_equal; lia|].
    destruct (isObjectKey k); cbn [negb length map snd foldr ps_objects ps_bytes]; rewrite IH; f_equal; lia. }
  rewrite Hg. done.
Qed.

(** The estimate is of the scan that will run: as many objects as the listings of the
    window's partitions name, the sum of their sizes, and as many partitions. *)
Lemma estimate_counts_the_scan `{ObjectSource} e cluster from to est :
  EstimateScan e cluster (Some from) (Some to) = Ok est ->
  let prefixes := recordPrefixes e cluster from to in
  Forall listable prefixes /\ se_Partitions est = length prefixes /\
  se_Objects est = Z.of_nat (length (concat (map keys_of prefixes))) /\
  se_Bytes est = foldr Z.add 0%Z (map stored_bytes prefixes).
Proof.
  unfold EstimateScan, requireWindow. destruct (en_closed e); [done|]. case_bool_decide; [done|].
  destruct (interrupted _) as [[|]|]; [done..|]. destruct (collect _) as [sizes|] eqn:Hc; [|done].
  intros [= <-]. apply collect_ok, Forall2_fmap_l in Hc. generalize (length (recordPrefixes e cluster from to)) as n.
  intros n. change (Forall2 (fun p size => measure p = Ok size) (recordPrefixes e cluster from to) sizes) in Hc.
  generalize dependent (recordPrefixes e cluster from to). intros prefixes Hc.
  assert (Hg : forall a b, foldl (fun est part => mkEstimate (se_Objects est + ps_objects part) (se_Bytes est + ps_bytes part) (se_Partitions est))
      (mkEstimate a b n) sizes =
    mkEstimate (a + Z.of_nat (length (concat (map keys_of prefixes)))) (b + foldr Z.add 0%Z (map stored_bytes prefixes)) n).
  { induction Hc as [|p size ps sizes Hp _ IH]; intros a b; cbn [foldl map concat foldr length]; [f_equal; lia|].
    apply measure_spec in Hp as (_ & Ho & Hb). cbn [se_Objects se_Bytes se_Partitions]. rewrite IH, length_app. f_equal; lia. }
  rewrite Hg. cbn. split; [|done]. clear Hg. induction Hc as [|p size ps sizes Hp _ IH]; constructor; [|done].
  apply measure_spec in Hp as (Hl & _). by eexists.
Qed.
