(* ===== verification/Reference.v ===== *)
(** * Reference: the read plane's reference engine

    Models [src/internal/query/conformance]: the deliberately unoptimised engine of
    reference.go - timelines, states, coverage and incarnations over a slice of rows,
    with its own RFC 6902 applier and its iterator - and the rows and transitions of
    conformance.go and support.go it works on. Every backend is measured against it;
    [ReferenceSpec] measures the archive.

    A decoded document is a tree nothing else holds, so the applier's updates in place
    are updates of a value. Messages of errors are left out, their causes are kept. *)

From S2P Require Import Prelude Calendar HashCache GoJson Diff QueryFilter Replay SinkTypes S3Object ScopeLog Layout Archive Pointer Render ArchiveState Ownership ArchiveQueries.

(** ** Histories *)

Record Row := mkRow { row_Ref : ObjectRef; row_Change : Change }.

Definition ScopeStarted : string := "Started".
Definition ScopeStopped : string := "Stopped".

Record ScopeTransition := mkTransition {
  st_Action : string;
  st_APIGroup : string;
  st_Kind : string;
  st_Namespace : string;
  st_RuleRef : string;
  st_TS : Z;
}.

Record History := mkHistory { hi_Rows : list Row; hi_Scopes : list ScopeTransition }.

Record StreamFault := mkFault { sf_AfterChanges : Z; sf_Err : string }.

Record Capabilities := mkCapabilities {
  cap_Backend : string;
  cap_Deletions : bool;
  cap_ServerSideFilter : bool;
  cap_PointQuery : bool;
  cap_TimeBoundRequired : bool;
}.

(** What the archive's engine declares of itself. *)
Definition BackendName : string := "objectsource".
Definition engine_Capabilities : Capabilities := mkCapabilities BackendName false false false true.

Definition retained (caps : Capabilities) (r : Row) : bool :=
  cap_Deletions caps || negb (bool_decide (ch_EventType (row_Change r) = EventDeleted)).

Definition retainedRows (rows : list Row) (caps : Capabilities) : list Row := List.filter (retained caps) rows.

Record referenceEngine := mkReference {
  re_rows : list Row;
  re_scopes : list ScopeTransition;
  re_caps : Capabilities;
}.

Definition newReferenceEngine (h : History) (caps : Capabilities) : referenceEngine :=
  mkReference (retainedRows (hi_Rows h) caps) (hi_Scopes h) caps.

(** A Go map is visited in an order of its own. *)
Class MapOrder := { map_order : forall {K V} `{Countable K}, gmap K V -> list (K * V) }.

(** An element of the decoded [[]patchOp]. *)
Record patchOp := mkPatchOp { po_Op : string; po_Path : string; po_Value : string }.

Class OpCodec := {
  (** [json.Unmarshal] into a [[]patchOp] *)
  decode_patch : string -> option (list patchOp);
}.

(** ** Selecting rows *)

Definition forRef (e : referenceEngine) (ref : ObjectRef) : list Row :=
  List.filter (fun r => bool_decide (row_Ref r = ref)) (re_rows e).

Definition window (rows : list Row) (from to : option Z) : list Row :=
  List.filter (fun r =>
    if match from with Some from => bool_decide (ch_TS (row_Change r) < from)%Z | None => false end then false
    else if match to with Some to => bool_decide (to < ch_TS (row_Change r))%Z | None => false end then false
    else true) rows.

Definition of_uid (uid : string) (r : Row) : bool := bool_decide (ch_UID (row_Change r) = uid).

Definition newest_row (newest r : Row) : Row :=
  if bool_decide (ch_TS (row_Change newest) < ch_TS (row_Change r))%Z then r else newest.

Definition selectIncarnation (rows : list Row) (uid : string) (all : bool) : list Row :=
  if negb (bool_decide (uid = "")) then List.filter (of_uid uid) rows
  else if all then rows
  else match rows with
       | [] => rows
       | first :: rest => List.filter (of_uid (ch_UID (row_Change (foldl newest_row first rest)))) rows
       end.

Definition incarnationOf (rows : list Row) (q : TimelineQuery) : string :=
  if negb (bool_decide (tq_UID q = "")) then tq_UID q
  else if tq_AllIncarnations q then ""
  else match rows with [] => "" | r :: _ => ch_UID (row_Change r) end.

(** ** Events *)

Definition referenceEventKind : string := "Event".
Definition referenceEventGroupModern : string := "events.k8s.io".

Definition isEventKind (ref : ObjectRef) : bool :=
  bool_decide (or_Kind ref = referenceEventKind) &&
  (bool_decide (or_APIGroup ref = "") || bool_decide (or_APIGroup ref = referenceEventGroupModern)).

Definition firstNonEmpty (first second : string) : string := if negb (bool_decide (first = "")) then first else second.

Definition eventSubjectOf `{FrameReader} (data : string) : eventSubject :=
  match event_envelope data with
  | None => mkSubject "" "" "" ""
  | Some (involved, regarding) =>
      mkSubject (firstNonEmpty (es_Kind involved) (es_Kind regarding))
        (firstNonEmpty (es_Namespace involved) (es_Namespace regarding))
        (firstNonEmpty (es_Name involved) (es_Name regarding))
        (firstNonEmpty (es_UID involved) (es_UID regarding))
  end.

Definition names_ref (subject : eventSubject) (ref : ObjectRef) : bool :=
  bool_decide (es_Kind subject = or_Kind ref) && bool_decide (es_Namespace subject = or_Namespace ref) &&
  bool_decide (es_Name subject = or_Name ref).

Definition namesASubject (subject : eventSubject) (subjects : list ObjectRef) : bool := existsb (names_ref subject) subjects.

(** One turn of the loop of [correlatedEvents]. *)
Definition correlates `{FrameReader} (q : TimelineQuery) (uid : string) (r : Row) : bool :=
  if negb (bool_decide (or_ClusterID (row_Ref r) = or_ClusterID (tq_Ref q))) || negb (isEventKind (row_Ref r)) then false
  else
    let subject := eventSubjectOf (ch_Data (row_Change r)) in
    let root := names_ref subject (tq_Ref q) in
    if negb root && negb (namesASubject subject (tq_Subjects q)) then false
    else negb (root && negb (bool_decide (uid = "")) && negb (bool_decide (es_UID subject = uid))).

Definition correlatedEvents `{FrameReader} (e : referenceEngine) (q : TimelineQuery) (uid : string) : list Change :=
  map (fun r => with_type (row_Change r) EventKubernetes)
    (List.filter (correlates q uid) (window (re_rows e) (tq_From q) (tq_To q))).

(** ** Filters *)

Definition dottedPath (pointer : string) : string :=
  join "." (map unescape (split_on "/"%char (trim_slash pointer))).

Definition matchesFieldPaths `{OpCodec} (c : Change) (paths : list string) : bool :=
  if bool_decide (length paths = 0) || bool_decide (ch_Diff c = "") then true
  else match decode_patch (ch_Diff c) with
       | None => true
       | Some ops =>
           existsb (fun op => existsb (fun want => bool_decide (dottedPath (po_Path op) = want) ||
                                                   has_prefix (dottedPath (po_Path op)) (want +:+ ".")) paths) ops
       end.

Definition keepsFilters `{OpCodec} (c : Change) (q : TimelineQuery) : bool :=
  if bool_decide (0 < length (tq_Actors q)) && negb (existsb (fun a => bool_decide (a ∈ tq_Actors q)) (ch_Actors c)) then false
  else if existsb (fun a => bool_decide (a ∈ tq_ExcludeActors q)) (ch_Actors c) then false
  else matchesFieldPaths c (tq_FieldPaths q).

(** ** Timelines *)

Definition Timeline `{FrameReader, OpCodec} (e : referenceEngine) (q : TimelineQuery) : result queryError (list Change) :=
  if cap_TimeBoundRequired (re_caps e) && bool_decide (tq_From q = None) && bool_decide (tq_To q = None)
  then Err ErrTimeBoundRequired
  else
    let rows := if tq_EventsOnly q then []
                else selectIncarnation (window (forRef e (tq_Ref q)) (tq_From q) (tq_To q)) (tq_UID q) (tq_AllIncarnations q) in
    let changes := List.filter (fun c => keepsFilters c q) (map row_Change rows) in
    let changes := if tq_IncludeEvents q then changes ++ correlatedEvents e q (incarnationOf rows q) else changes in
    let changes := stable_sort change_le changes in
    let changes := if tq_Reverse q then reverse changes else changes in
    Ok (if bool_decide (0 < tq_Limit q)%Z && bool_decide (tq_Limit q < Z.of_nat (length changes))%Z
        then take (Z.to_nat (tq_Limit q)) changes else changes).

(** ** The patch applier *)

Definition opAdd : string := "add".
Definition opReplace : string := "replace".
Definition opRemove : string := "remove".

Inductive applyError :=
| errRemoveRoot
| errDescend (token : string)
| errAbsentSegment (key : string)
| errAbsentMember (key : string)
| errUnsupported (op : string)
| errPastEnd
| errNotANumber (token : string)
| errOutOfRange (idx : Z) (len : nat)
| errPatchText
| errOpValue (op path : string)
| errOp (op path : string) (cause : applyError).

Definition pointerTokens (pointer : string) : list string :=
  if bool_decide (pointer = "") || bool_decide (pointer = "/") then []
  else map unescape (split_on "/"%char (trim_slash pointer)).

(** [descend] is [applyAt] on a child with the tokens [rest] and the same operation. *)
Definition applyInObject (descend : json -> result applyError json) (n : gmap string json) (key : string) (rest : list string)
    (op : string) (value : json) : result applyError json :=
  if negb (bool_decide (rest = [])) then
    match n !! key with
    | None => Err (errAbsentSegment key)
    | Some child => match descend child with Err err => Err err | Ok next => Ok (JObj (<[key := next]> n)) end
    end
  else if bool_decide (op = opAdd) || bool_decide (op = opReplace) then Ok (JObj (<[key := value]> n))
  else if bool_decide (op = opRemove) then
    match n !! key with None => Err (errAbsentMember key) | Some _ => Ok (JObj (delete key n)) end
  else Err (errUnsupported op).

Definition applyInArray (descend : json -> result applyError json) (n : list json) (token : string) (rest : list string)
    (op : string) (value : json) : result applyError json :=
  if bool_decide (token = "-") then
    if negb (bool_decide (rest = [])) || negb (bool_decide (op = opAdd)) then Err errPastEnd else Ok (JArr (n ++ [value]))
  else match Atoi token with
  | None => Err (errNotANumber token)
  | Some idx =>
      let appending := bool_decide (op = opAdd) && bool_decide (rest = []) in
      if bool_decide (idx < 0)%Z || bool_decide (Z.of_nat (length n) < idx)%Z ||
         (bool_decide (idx = Z.of_nat (length n)) && negb appending)
      then Err (errOutOfRange idx (length n))
      else
        let i := Z.to_nat idx in
        if negb (bool_decide (rest = [])) then
          match n !! i with
          | None => Err (errOutOfRange idx (length n)) (* not reached: the index was checked *)
          | Some child => match descend child with Err err => Err err | Ok next => Ok (JArr (<[i := next]> n)) end
          end
        else if bool_decide (op = opAdd) then Ok (JArr (take i n ++ value :: drop i n))
        else if bool_decide (op = opReplace) then Ok (JArr (<[i := value]> n))
        else if bool_decide (op = opRemove) then Ok (JArr (take i n ++ drop (S i) n))
        else Err (errUnsupported op)
  end.

Fixpoint applyAt (node : json) (tokens : list string) (op : string) (value : json) {struct tokens} : result applyError json :=
  match tokens with
  | [] => if bool_decide (op = opRemove) then Err errRemoveRoot else Ok value
  | token :: rest =>
      match node with
      | JObj n => applyInObject (fun child => applyAt child rest op value) n token rest op value
      | JArr n => applyInArray (fun child => applyAt child rest op value) n token rest op value
      | _ => Err (errDescend token)
      end
  end.

Section documents.
Context `{AnyCodec, OpCodec}.

(** The value of an operation: an absent one is null. *)
Definition op_value (op : patchOp) : option json :=
  if bool_decide (po_Value op = "") then Some JNull else decode_any (po_Value op).

Fixpoint apply_ops (doc : json) (ops : list patchOp) : result applyError json :=
  match ops with
  | [] => Ok doc
  | op :: rest =>
      match op_value op with
      | None => Err (errOpValue (po_Op op) (po_Path op))
      | Some value =>
          match applyAt doc (pointerTokens (po_Path op)) (po_Op op) value with
          | Err err => Err (errOp (po_Op op) (po_Path op) err)
          | Ok next => apply_ops next rest
          end
      end
  end.

Definition applyPatch (doc : json) (patch : string) : result applyError json :=
  match decode_patch patch with None => Err errPatchText | Some ops => apply_ops doc ops end.

(** ** States *)

Inductive referenceStateError :=
| refNoRows
| refDeleted (uid : string)
| refNoFullState
| refDecodeBase (ts : Z)
| refDecodeState (ts : Z)
| refApply (ts : Z) (cause : applyError)
| refNotAnObject.

Fixpoint replay_rows (rows : list Row) (doc : json) (applied : Z) (last : Change)
    : result referenceStateError (json * Z * Change) :=
  match rows with
  | [] => Ok (doc, applied, last)
  | r :: rest =>
      let change := row_Change r in
      if negb (bool_decide (ch_Data change = "")) then
        match decode_any (ch_Data change) with
        | None => Err (refDecodeState (ch_TS change))
        | Some doc => replay_rows rest doc applied change
        end
      else if negb (bool_decide (ch_Diff change = "")) then
        match applyPatch doc (ch_Diff change) with
        | Err err => Err (refApply (ch_TS change) err)
        | Ok next => replay_rows rest next (applied + 1) change
        end
      else replay_rows rest doc applied change
  end.

Definition replay (rows : list Row) (base : nat) : result referenceStateError Reconstruction :=
  match rows !! base with
  | None => Err refNoFullState (* not reached: the base was found in the rows *)
  | Some b =>
      match decode_any (ch_Data (row_Change b)) with
      | None => Err (refDecodeBase (ch_TS (row_Change b)))
      | Some doc =>
          match replay_rows (drop (S base) rows) doc 0 (row_Change b) with
          | Err err => Err err
          | Ok (JObj object, applied, last) =>
              Ok (mkReconstruction object (ch_TS (row_Change b)) (ch_EventType (row_Change b)) applied (ch_SHA256 last))
          | Ok _ => Err refNotAnObject
          end
      end
  end.

(** The backward loop for the last row that carries state. *)
Fixpoint full_row_below (rows : list Row) (n : nat) : option nat :=
  match n with
  | O => None
  | S i => match rows !! i with
           | Some r => if negb (bool_decide (ch_Data (row_Change r) = "")) then Some i else full_row_below rows i
           | None => full_row_below rows i
           end
  end.

Definition row_le (a b : Row) : Prop := (ch_TS (row_Change a) <= ch_TS (row_Change b))%Z.
#[export] Instance row_le_dec : RelDecision row_le.
Proof. intros a b. apply Z_le_dec. Defined.

Definition StateAt (e : referenceEngine) (ref : ObjectRef) (at_ : Z) (uid : string) : result referenceStateError Reconstruction :=
  let rows := List.filter (fun r => negb (bool_decide (at_ < ch_TS (row_Change r))%Z)) (forRef e ref) in
  let rows := stable_sort row_le rows in
  match last rows with
  | None => Err refNoRows
  | Some newest =>
      let uid := if bool_decide (uid = "") then ch_UID (row_Change newest) else uid in
      let rows := List.filter (of_uid uid) rows in
      if existsb (fun r => bool_decide (ch_EventType (row_Change r) = EventDeleted)) rows then Err (refDeleted uid)
      else match full_row_below rows (length rows) with
           | None => Err refNoFullState
           | Some base => replay rows base
           end
  end.
End documents.

(** ** Coverage *)

Definition transition_key (tr : ScopeTransition) : string * string * string := (st_APIGroup tr, st_Kind tr, st_Namespace tr).

Definition coversScope (q : ScopeQuery) (k : string * string * string) : bool :=
  let '(group, kind, namespace) := k in
  if negb (bool_decide (sq_APIGroup q = "")) && negb (bool_decide (sq_APIGroup q = group)) then false
  else if negb (bool_decide (sq_Kind q = "")) && negb (bool_decide (sq_Kind q = kind)) then false
  else if negb (bool_decide (sq_Namespace q = "")) && negb (bool_decide (namespace = "")) &&
          negb (bool_decide (namespace = sq_Namespace q)) then false
  else true.

(** [out] and [open]. *)
Definition pair_transition (k : string * string * string) (acc : list ScopeInterval * option nat) (tr : ScopeTransition)
    : list ScopeInterval * option nat :=
  let '(out, open) := acc in
  if bool_decide (st_Action tr = ScopeStarted) then
    match open with
    | Some _ => acc
    | None => (out ++ [mkScopeInterval k.1.1 k.1.2 k.2 (st_RuleRef tr) (st_TS tr) None], Some (length out))
    end
  else if bool_decide (st_Action tr = ScopeStopped) then
    match open with
    | None => acc
    | Some i => (alter (close_at (st_TS tr)) i out, None)
    end
  else acc.

Definition pairScope (k : string * string * string) (transitions : list ScopeTransition) : list ScopeInterval :=
  (foldl (pair_transition k) ([], None) transitions).1.

Definition overlapsWindow (iv : ScopeInterval) (from to : option Z) : bool :=
  if match to with Some to => bool_decide (to < iv_From iv)%Z | None => false end then false
  else match from, iv_To iv with
       | Some from, Some stop => if bool_decide (stop < from)%Z then false else true
       | _, _ => true
       end.

Definition transition_le (a b : ScopeTransition) : Prop := (st_TS a <= st_TS b)%Z.
#[export] Instance transition_le_dec : RelDecision transition_le.
Proof. intros a b. apply Z_le_dec. Defined.

Definition by_scope (m : gmap (string * string * string) (list ScopeTransition)) (tr : ScopeTransition)
    : gmap (string * string * string) (list ScopeTransition) :=
  <[transition_key tr := default [] (m !! transition_key tr) ++ [tr]]> m.

Definition Coverage `{MapOrder} (e : referenceEngine) (q : ScopeQuery) : list ScopeInterval :=
  let byScope := foldl by_scope ∅ (re_scopes e) in
  stable_sort from_le
    (concat (map (fun '(k, transitions) =>
       if negb (coversScope q k) then []
       else List.filter (fun iv => overlapsWindow iv (sq_From q) (sq_To q)) (pairScope k (stable_sort transition_le transitions)))
     (map_order byScope))).

(** ** Incarnations *)

Definition index_row (index : gmap string Incarnation) (r : Row) : gmap string Incarnation :=
  let c := row_Change r in
  match index !! ch_UID c with
  | None => <[ch_UID c := mkIncarnation (ch_UID c) (ch_TS c) (ch_TS c) (bool_decide (ch_EventType c = EventDeleted))]> index
  | Some got =>
      <[ch_UID c := mkIncarnation (in_UID got)
          (if bool_decide (ch_TS c < in_FirstSeen got)%Z then ch_TS c else in_FirstSeen got)
          (if bool_decide (in_LastSeen got < ch_TS c)%Z then ch_TS c else in_LastSeen got)
          (in_Deleted got || bool_decide (ch_EventType c = EventDeleted))]> index
  end.

Definition seen_le (a b : Incarnation) : Prop := (in_FirstSeen a <= in_FirstSeen b)%Z.
#[export] Instance seen_le_dec : RelDecision seen_le.
Proof. intros a b. apply Z_le_dec. Defined.

Definition Incarnations `{MapOrder} (e : referenceEngine) (ref : ObjectRef) (from to : option Z)
    : result queryError (list Incarnation) :=
  if cap_TimeBoundRequired (re_caps e) && bool_decide (from = None) && bool_decide (to = None) then Err ErrTimeBoundRequired
  else Ok (stable_sort seen_le (map snd (map_order (foldl index_row ∅ (window (forRef e ref) from to))))).

(** ** The iterator *)

Record sliceIterator := mkIterator {
  it_changes : list Change;
  it_fault : option StreamFault;
  it_index : nat;
  it_cur : option Change;
  it_err : option string;
  it_closed : bool;
}.

Definition newSliceIterator (changes : list Change) (fault : option StreamFault) : sliceIterator :=
  mkIterator changes fault 0 None None false.

(** Cloned slices and maps are equal to the originals. *)
Definition copyChange (c : Change) : Change :=
  mkChange (ch_TS c) (ch_EventType c) (ch_Actors c) (ch_UID c) (ch_ResourceVersion c) (ch_APIVersion c) (ch_Data c)
    (ch_Diff c) (ch_SHA256 c) (ch_Labels c).

Definition iterator_Next (it : sliceIterator) : sliceIterator * bool :=
  if it_closed it || bool_decide (it_err it <> None) then (it, false)
  else if match it_fault it with Some fault => bool_decide (sf_AfterChanges fault <= Z.of_nat (it_index it))%Z | None => false end
  then (mkIterator (it_changes it) (it_fault it) (it_index it) (it_cur it) (sf_Err <$> it_fault it) (it_closed it), false)
  else match it_changes it !! it_index it with
       | None => (it, false)
       | Some c => (mkIterator (it_changes it) (it_fault it) (S (it_index it)) (Some (copyChange c)) (it_err it) (it_closed it), true)
       end.

(** [None] is the zero change, before the first [Next]. *)
Definition iterator_Change (it : sliceIterator) : option Change := it_cur it.
Definition iterator_Err (it : sliceIterator) : option string := it_err it.
Definition iterator_Close (it : sliceIterator) : sliceIterator :=
  mkIterator (it_changes it) (it_fault it) (it_index it) (it_cur it) (it_err it) true.

(** [for it.Next() { out = append(out, it.Change()) }], at most [fuel] rounds. *)
Fixpoint drain (fuel : nat) (it : sliceIterator) : list Change * sliceIterator :=
  match fuel with
  | O => ([], it)
  | S fuel =>
      match iterator_Next it with
      | (it, false) => ([], it)
      | (it, true) => let '(rest, it') := drain fuel it in (match iterator_Change it with Some c => c :: rest | None => rest end, it')
      end
  end.
