(* ===== verification/Rfc6902.v ===== *)
(** * Rfc6902: JSON Patch as its standard states it

    What RFC 6902 says an [add], a [replace] and a [remove] make of a document, as a
    relation on decoded values that never mentions an implementation: members and elements
    are constrained by their lookups. The patch applier of the reference engine
    ([src/internal/query/conformance/reference.go]) is proved to implement it. *)

From S2P Require Import Prelude GoJson Duration Pointer Render Reference.

(** ** The standard *)

(** Elements (section 4.1: those at or above the index are shifted one to the right;
    section 4.2: those above it one to the left). *)
Definition inserted {A} (i : nat) (v : A) (l l' : list A) : Prop :=
  i <= length l /\ l' !! i = Some v /\ (forall j, j < i -> l' !! j = l !! j) /\ (forall j, i <= j -> l' !! S j = l !! j).
Definition replaced {A} (i : nat) (v : A) (l l' : list A) : Prop :=
  i < length l /\ l' !! i = Some v /\ (forall j, j <> i -> l' !! j = l !! j).
Definition removed {A} (i : nat) (l l' : list A) : Prop :=
  i < length l /\ (forall j, j < i -> l' !! j = l !! j) /\ (forall j, i <= j -> l' !! j = l !! S j).

(** Members: one changes, the others do not. *)
Definition member_set (key : string) (v : option json) (m m' : gmap string json) : Prop :=
  m' !! key = v /\ (forall other, other <> key -> m' !! other = m !! other).

(** [edits op value tokens before after]: the operation at the location the reference
    tokens name. An index is spelled without sign or leading zeros, [-] names the
    position past the last element, and every location but the one an [add] creates
    must exist. *)
Inductive edits (op : string) (value : json) : list string -> json -> json -> Prop :=
| edit_root before : op = opAdd \/ op = opReplace -> edits op value [] before value
| edit_in_member key rest m m' child child' : rest <> [] -> m !! key = Some child -> edits op value rest child child' ->
    member_set key (Some child') m m' -> edits op value (key :: rest) (JObj m) (JObj m')
| edit_in_element i rest l l' child child' : rest <> [] -> l !! i = Some child -> edits op value rest child child' ->
    replaced i child' l l' -> edits op value (Itoa i :: rest) (JArr l) (JArr l')
| edit_add_member key m m' : op = opAdd -> member_set key (Some value) m m' -> edits op value [key] (JObj m) (JObj m')
| edit_replace_member key m m' old : op = opReplace -> m !! key = Some old -> member_set key (Some value) m m' ->
    edits op value [key] (JObj m) (JObj m')
| edit_remove_member key m m' old : op = opRemove -> m !! key = Some old -> member_set key None m m' ->
    edits op value [key] (JObj m) (JObj m')
| edit_add_element i l l' : op = opAdd -> inserted i value l l' -> edits op value [Itoa i] (JArr l) (JArr l')
| edit_append l : op = opAdd -> edits op value ["-"] (JArr l) (JArr (l ++ [value]))
| edit_replace_element i l l' : op = opReplace -> replaced i value l l' -> edits op value [Itoa i] (JArr l) (JArr l')
| edit_remove_element i l l' : op = opRemove -> removed i l l' -> edits op value [Itoa i] (JArr l) (JArr l').

(** The operations of a patch in order, a missing value being null. *)
Inductive patches `{AnyCodec} : list patchOp -> json -> json -> Prop :=
| patches_nil doc : patches [] doc doc
| patches_cons op rest value tokens doc next final :
    op_value op = Some value -> po_Path op = pointer_to tokens -> edits (po_Op op) value tokens doc next ->
    patches rest next final -> patches (op :: rest) doc final.

(** The value a location holds. *)
Fixpoint holds (doc : json) (tokens : list string) : Prop :=
  match tokens with
  | [] => True
  | token :: rest =>
      match doc with
      | JObj m => exists child, m !! token = Some child /\ holds child rest
      | JArr l => exists i child, token = Itoa i /\ l !! i = Some child /\ holds child rest
      | _ => False
      end
  end.

(** A token that is an index to [strconv.Atoi] exactly when it is one to the standard. *)
Definition canonical (token : string) : bool :=
  match Atoi token with
  | Some z => bool_decide (token = Itoa (Z.to_nat z))
  | None => negb (all_digits token) || bool_decide (token = "")
  end.

Definition known_op (op : string) : Prop := op = opAdd \/ op = opReplace \/ op = opRemove.

(** ** Lemmas *)

Lemma member_insert key v (m : gmap string json) : member_set key (Some v) m (<[key := v]> m).
Proof. split; [apply lookup_insert_eq|]. intros other Ho. by apply lookup_insert_ne. Qed.

Lemma member_delete key (m : gmap string json) : member_set key None m (delete key m).
Proof. split; [apply lookup_delete_eq|]. intros other Ho. by apply lookup_delete_ne. Qed.

Lemma member_set_fun key v m m1 m2 : member_set key v m m1 -> member_set key v m m2 -> m1 = m2.
Proof.
  intros [H1 H1'] [H2 H2']. apply map_eq. intros k. destruct (decide (k = key)) as [->|Hk]; [congruence|]. by rewrite H1', H2'.
Qed.

Lemma inserted_at {A} i (v : A) l : i <= length l -> inserted i v l (take i l ++ v :: drop i l).
Proof.
  intros Hi. assert (Hlen : length (take i l) = i) by (rewrite length_take; lia). split_and!; [done|by apply list_lookup_middle| |].
  - intros j Hj. rewrite lookup_app_l by lia. by apply lookup_take_lt.
  - intros j Hj. rewrite lookup_app_r, Hlen by lia. replace (S j - i) with (S (j - i)) by lia. simpl.
    rewrite lookup_drop. f_equal. lia.
Qed.

Lemma replaced_at {A} i (v : A) l : i < length l -> replaced i v l (<[i := v]> l).
Proof. intros Hi. split_and!; [done|by apply list_lookup_insert_eq|]. intros j Hj. by apply list_lookup_insert_ne. Qed.

Lemma removed_at_index {A} i (l : list A) : i < length l -> removed i l (take i l ++ drop (S i) l).
Proof.
  intros Hi. assert (Hlen : length (take i l) = i) by (rewrite length_take; lia). split_and!; [done| |].
  - intros j Hj. rewrite lookup_app_l by lia. by apply lookup_take_lt.
  - intros j Hj. rewrite lookup_app_r, Hlen by lia. rewrite lookup_drop. f_equal. lia.
Qed.

Lemma inserted_fun {A} i (v : A) l l1 l2 : inserted i v l l1 -> inserted i v l l2 -> l1 = l2.
Proof.
  intros (_ & H1 & H1' & H1'') (_ & H2 & H2' & H2''). apply list_eq. intros j.
  destruct (decide (j < i)) as [Hj|Hj]; [by rewrite H1', H2'|]. destruct (decide (j = i)) as [->|Hn]; [congruence|].
  replace j with (S (j - 1)) by lia. rewrite H1'', H2'' by lia. done.
Qed.

Lemma replaced_fun {A} i (v : A) l l1 l2 : replaced i v l l1 -> replaced i v l l2 -> l1 = l2.
Proof.
  intros (_ & H1 & H1') (_ & H2 & H2'). apply list_eq. intros j. destruct (decide (j = i)) as [->|Hn]; [congruence|]. by rewrite H1', H2'.
Qed.

Lemma removed_fun {A} i (l l1 l2 : list A) : removed i l l1 -> removed i l l2 -> l1 = l2.
Proof.
  intros (_ & H1 & H1') (_ & H2 & H2'). apply list_eq. intros j.
  destruct (decide (j < i)) as [Hj|Hj]; [by rewrite H1, H2|]. by rewrite H1', H2' by lia.
Qed.

Lemma canonical_index i : canonical (Itoa i) = true -> Atoi (Itoa i) = Some (Z.of_nat i).
Proof.
  unfold canonical. destruct (Atoi (Itoa i)) as [z|] eqn:E.
  - intros Hz%bool_decide_eq_true. apply Itoa_inj in Hz. f_equal. destruct (Itoa_digits i) as (Hd & Hne & Hp).
    unfold Atoi in E. destruct (Itoa i) as [|c rest] eqn:Ei; [done|]. cbn [all_digits] in Hd. apply andb_true_iff in Hd as [Hc _].
    rewrite !(bool_decide_eq_false_2 (c = _)) in E by (by intros ->). rewrite bool_decide_eq_false_2, Hp in E by done.
    case_bool_decide; [|done]. by injection E as <-.
  - destruct (Itoa_digits i) as (Hd & Hne & _). rewrite Hd. cbn. by intros ?%bool_decide_eq_true.
Qed.

Lemma dash_not_index i : "-" <> Itoa i.
Proof. intros E. destruct (Itoa_digits i) as (Hd & _). rewrite <-E in Hd. discriminate Hd. Qed.

(** The applier at an index in range. *)
Lemma array_at d l i rest op value : canonical (Itoa i) = true -> i < length l ->
  applyInArray d l (Itoa i) rest op value =
    if negb (bool_decide (rest = [])) then
      match l !! i with
      | None => Err (errOutOfRange (Z.of_nat i) (length l))
      | Some child => match d child with Err err => Err err | Ok next => Ok (JArr (<[i := next]> l)) end
      end
    else if bool_decide (op = opAdd) then Ok (JArr (take i l ++ value :: drop i l))
    else if bool_decide (op = opReplace) then Ok (JArr (<[i := value]> l))
    else if bool_decide (op = opRemove) then Ok (JArr (take i l ++ drop (S i) l))
    else Err (errUnsupported op).
Proof.
  intros Hc Hi. unfold applyInArray. rewrite (bool_decide_eq_false_2 (Itoa i = "-")) by (intros E; by apply (dash_not_index i)).
  rewrite canonical_index by done. rewrite (bool_decide_eq_false_2 (_ < 0)%Z), (bool_decide_eq_false_2 (_ < Z.of_nat i)%Z),
    (bool_decide_eq_false_2 (Z.of_nat i = _)) by lia. cbn [orb andb]. by rewrite Nat2Z.id.
Qed.

(** What the standard defines is what the applier computes. *)
Lemma edits_applied op value tokens before after : edits op value tokens before after -> Forall (fun t => canonical t = true) tokens ->
  applyAt before tokens op value = Ok after.
Proof.
  induction 1 as [before Hop|key rest m m' child child' Hr Hl He IH Hm|i rest l l' child child' Hr Hl He IH Hm
    |key m m' -> Hm|key m m' old -> Hl Hm|key m m' old -> Hl Hm|i l l' -> Hm|l ->|i l l' -> Hm|i l l' -> Hm];
    intros Hc; cbn [applyAt]; try (apply Forall_cons in Hc as [Ht Hc]).
  - by destruct Hop as [->| ->].
  - unfold applyInObject. rewrite bool_decide_eq_false_2 by done. cbn [negb]. rewrite Hl, IH by done. do 2 f_equal.
    eapply member_set_fun; [apply member_insert|done].
  - rewrite array_at by (done || by eapply lookup_lt_Some). rewrite bool_decide_eq_false_2 by done. cbn [negb]. rewrite Hl, IH by done.
    do 2 f_equal. eapply replaced_fun; [apply replaced_at; by eapply lookup_lt_Some|done].
  - unfold applyInObject. cbn. do 2 f_equal. eapply member_set_fun; [apply member_insert|done].
  - unfold applyInObject. cbn. do 2 f_equal. eapply member_set_fun; [apply member_insert|done].
  - unfold applyInObject. cbn. rewrite Hl. do 2 f_equal. eapply member_set_fun; [apply member_delete|done].
  - pose proof Hm as (Hi & _). destruct (decide (i = length l)) as [->|Hne].
    + unfold applyInArray. rewrite (bool_decide_eq_false_2 (Itoa _ = "-")) by (intros E; by apply (dash_not_index (length l))).
      rewrite canonical_index by done. rewrite (bool_decide_eq_false_2 (_ < 0)%Z), (bool_decide_eq_false_2 (_ < _)%Z) by lia.
      cbn. rewrite andb_false_r, Nat2Z.id. do 2 f_equal. eapply inserted_fun; [by apply inserted_at|done].
    + rewrite array_at by (done || lia). cbn. do 2 f_equal. eapply inserted_fun; [by apply inserted_at|done].
  - done.
  - pose proof Hm as (Hi & _). rewrite array_at by done. cbn. do 2 f_equal. eapply replaced_fun; [by apply replaced_at|done].
  - pose proof Hm as (Hi & _). rewrite array_at by done. cbn. do 2 f_equal. eapply removed_fun; [by apply removed_at_index|done].
Qed.

(** An index the applier accepts is one of the standard's. *)
Lemma accepted_index d l token rest op value next : canonical token = true -> token <> "-" ->
  applyInArray d l token rest op value = Ok next ->
  exists i, token = Itoa i /\ i <= length l /\ (i = length l -> op = opAdd /\ rest = []).
Proof.
  intros Hc Hd. unfold applyInArray. rewrite bool_decide_eq_false_2 by done. destruct (Atoi token) as [z|] eqn:Ea; [|done].
  destruct (_ || _ || _) eqn:Eb; [done|]. intros _. apply orb_false_iff in Eb as [[Hlo%bool_decide_eq_false Hhi%bool_decide_eq_false]%orb_false_iff Hend].
  exists (Z.to_nat z). unfold canonical in Hc. rewrite Ea in Hc. apply bool_decide_eq_true in Hc. split_and!; [done|lia|].
  intros E. rewrite bool_decide_eq_true_2 in Hend by lia. cbn in Hend. apply negb_false_iff, andb_true_iff in Hend as [Ho Hr].
  by apply bool_decide_eq_true in Ho, Hr.
Qed.

(** What the applier computes for a known operation is what the standard defines, provided
    what is replaced is there. *)
Lemma applied_edits op value tokens : known_op op -> Forall (fun t => canonical t = true) tokens -> forall before after,
  (op = opReplace -> holds before tokens) -> applyAt before tokens op value = Ok after -> edits op value tokens before after.
Proof.
  intros Hop. induction 1 as [|token rest Ht Hc IH]; intros before after Hh; cbn [applyAt].
  { destruct Hop as [->|[->| ->]]; cbn; intros [= <-]; apply edit_root; auto. }
  destruct before as [| | | | |l|m]; try done.
  - destruct (decide (token = "-")) as [->|Hd].
    { unfold applyInArray. rewrite (bool_decide_eq_true_2 ("-" = "-")) by done.
      destruct (decide (rest = [])) as [->|Hr]; [|by rewrite (bool_decide_eq_false_2 (rest = []))].
      rewrite (bool_decide_eq_true_2 ([] = [])) by done. cbn [negb orb].
      case_bool_decide as Ho; [|done]. intros [= <-]. by apply edit_append. }
    intros Ha. destruct (accepted_index _ _ _ _ _ _ _ Ht Hd Ha) as (i & -> & Hle & Hend).
    destruct (decide (i = length l)) as [Hi|Hne].
    + destruct (Hend Hi) as [-> ->]. assert (Hu : edits opAdd value [Itoa i] (JArr l) (JArr (take i l ++ value :: drop i l)))
        by (apply edit_add_element; [done|by apply inserted_at]).
      pose proof (edits_applied _ _ _ _ _ Hu ltac:(by constructor)) as Hu'.
      change (applyAt (JArr l) [Itoa i] opAdd value = Ok after) in Ha. rewrite Hu' in Ha. injection Ha as <-. done.
    + rewrite array_at in Ha by (done || lia). destruct (decide (rest = [])) as [->|Hr].
      * cbn in Ha. destruct Hop as [->|[->| ->]]; cbn in Ha; injection Ha as <-.
        -- apply edit_add_element; [done|by apply inserted_at].
        -- apply edit_replace_element; [done|apply replaced_at; lia].
        -- apply edit_remove_element; [done|apply removed_at_index; lia].
      * rewrite bool_decide_eq_false_2 in Ha by done. cbn [negb] in Ha. destruct (l !! i) as [child|] eqn:El; [|done].
        destruct (applyAt child rest op value) as [next|] eqn:En; [|done]. injection Ha as <-.
        apply (edit_in_element _ _ i rest l _ child next); [done|done| |apply replaced_at; lia]. apply IH; [|done].
        intros Ho. destruct (Hh Ho) as (i' & child' & Ei & El' & Hch). apply Itoa_inj in Ei as <-. by simplify_eq.
  - unfold applyInObject. destruct (decide (rest = [])) as [->|Hr].
    + cbn. destruct Hop as [->|[->| ->]]; cbn.
      * intros [= <-]. apply edit_add_member; [done|apply member_insert].
      * intros [= <-]. destruct (Hh eq_refl) as (old & Hold & _). eapply edit_replace_member; [done|done|apply member_insert].
      * destruct (m !! token) as [old|] eqn:Eo; [|done]. intros [= <-]. eapply edit_remove_member; [done|done|apply member_delete].
    + rewrite bool_decide_eq_false_2 by done. cbn [negb]. destruct (m !! token) as [child|] eqn:El; [|done].
      destruct (applyAt child rest op value) as [next|] eqn:En; [|done]. intros [= <-].
      apply (edit_in_member _ _ token rest m _ child next); [done|done| |apply member_insert]. apply IH; [|done].
      intros Ho. destruct (Hh Ho) as (child' & El' & Hch). by simplify_eq.
Qed.

(** An operation below the root leaves an object an object. *)
Lemma edits_object op value tokens m after : tokens <> [] -> edits op value tokens (JObj m) after -> exists m', after = JObj m'.
Proof. intros Hne He. inversion He; subst; eauto. done. Qed.

(** Replacing needs its location. *)
Lemma edits_holds op value tokens before after : edits op value tokens before after -> op = opReplace -> holds before tokens.
Proof.
  induction 1 as [before Hop|key rest m m' child child' Hr Hl He IH Hm|i rest l l' child child' Hr Hl He IH Hm
    |key m m' Ho Hm|key m m' old Ho Hl Hm|key m m' old Ho Hl Hm|i l l' Ho Hm|l Ho|i l l' Ho (Hi & Hm)|i l l' Ho Hm];
    intros Er; try (rewrite Er in Ho; discriminate Ho); cbn [holds]; eauto 6.
  destruct (lookup_lt_is_Some_2 l i Hi) as [v Hv]. eauto 6.
Qed.

(** ** The theorem *)

(** C14: the reference's patch applier implements RFC 6902. Of an add, a replace or a remove
    whose tokens spell indices as the standard does, and for a replace of something that is
    there, the applier accepts exactly what the standard defines and computes exactly its
    document - members and elements beside the path untouched, elements behind an added or
    removed one shifted; and a replace the standard defines is always of something there. *)
Theorem applier_implements_rfc6902 doc tokens op value next :
  known_op op -> Forall (fun t => canonical t = true) tokens ->
  (edits op value tokens doc next -> applyAt doc tokens op value = Ok next /\ (op = opReplace -> holds doc tokens)) /\
  ((op = opReplace -> holds doc tokens) -> applyAt doc tokens op value = Ok next -> edits op value tokens doc next).
Proof.
  intros Hop Hc. split.
  - intros He. split; [by apply edits_applied|]. intros Ho. by eapply edits_holds.
  - intros Hh Ha. by apply applied_edits.
Qed.

(** A replaced element, with its neighbours; and where the applier accepts more: a replace of
    an absent member adds it. *)
Definition ports : json := JObj {[ "ports" := JArr [JStr "a"; JStr "b"; JStr "c"] ]}.

Lemma applier_implements_rfc6902_witness :
  edits opRemove JNull ["ports"; "1"] ports (JObj {[ "ports" := JArr [JStr "a"; JStr "c"] ]}) /\
  edits opAdd (JStr "x") ["ports"; "1"] ports (JObj {[ "ports" := JArr [JStr "a"; JStr "x"; JStr "b"; JStr "c"] ]}).
Proof.
  split.
  - apply (applier_implements_rfc6902 ports ["ports"; "1"] opRemove JNull); [by right; right| |done|vm_compute; reflexivity].
    repeat constructor; vm_compute; reflexivity.
  - apply (applier_implements_rfc6902 ports ["ports"; "1"] opAdd (JStr "x")); [by left| |done|vm_compute; reflexivity].
    repeat constructor; vm_compute; reflexivity.
Defined.

Example replace_of_absent_member_accepted :
  applyAt ports ["name"] opReplace JNull = Ok (JObj {[ "ports" := JArr [JStr "a"; JStr "b"; JStr "c"]; "name" := JNull ]}) /\
  ~ holds ports ["name"].
Proof. split; [vm_compute; reflexivity|]. intros (child & Hl & _). vm_compute in Hl. discriminate Hl. Qed.
