(* ===== verification/ReferenceSpec.v ===== *)
(** * ReferenceSpec: the archive answers like the reference engine

    The archive's engine prunes, scans concurrently, walks newest first and merges; the
    reference engine reads everything and filters. This file proves that they answer the
    same questions the same way - states too, given a patch library that implements RFC 6902. *)

From S2P Require Import Prelude Identity Calendar HashCache GoJson Diff QueryFilter Replay SinkTypes S3Object ScopeLog Layout Archive ArchiveSpec Pointer Render ArchiveState Ownership ArchiveQueries Reference Rfc6902.

(** ** Sorted lists with distinct keys *)

Lemma nodup_map_inj {A B} (f : A -> B) (l : list A) x y : NoDup (map f l) -> x ∈ l -> y ∈ l -> f x = f y -> x = y.
Proof.
  intros Hd (i & Hi)%list_elem_of_lookup (j & Hj)%list_elem_of_lookup E.
  assert (i = j); [|by simplify_eq].
  eapply NoDup_lookup; [exact Hd| |]; change (map f l) with (f <$> l); rewrite list_lookup_fmap; [by rewrite Hi|]. rewrite Hj. cbn. by rewrite E.
Qed.

Lemma sorted_distinct_unique {A} (key : A -> Z) (l l' : list A) :
  StronglySorted (fun a b => key a <= key b)%Z l -> StronglySorted (fun a b => key a <= key b)%Z l' -> l ≡ₚ l' ->
  NoDup (map key l) -> l = l'.
Proof.
  intros Hs Hs' Hp Hd. eapply StronglySorted_unique_strong; [|exact Hs|exact Hs'|exact Hp].
  intros x y Hx Hy Hxy Hyx. rewrite <-Hp in Hy. eapply nodup_map_inj; [exact Hd|done|done|]. cbn in *. lia.
Qed.

Lemma commentary_before_bounds t l : StronglySorted Archive.change_le l ->
  Forall (fun c => (ch_TS c < t)%Z) (commentary_before t l).1 /\ Forall (fun c => (t <= ch_TS c)%Z) (commentary_before t l).2.
Proof.
  induction 1 as [|c l Hs [IH1 IH2] Hc]; cbn [commentary_before]; [done|]. case_bool_decide as Hlt.
  - destruct (commentary_before t l). split; [by constructor|done].
  - split; [done|]. constructor; [lia|]. eapply Forall_impl; [exact Hc|]. unfold Archive.change_le. cbn. lia.
Qed.

Lemma merge_loop_sorted changes commentary : StronglySorted Archive.change_le changes -> StronglySorted Archive.change_le commentary ->
  StronglySorted Archive.change_le (merge_loop changes commentary).
Proof.
  intros Hs. revert commentary. induction Hs as [|c cs Hs IH Hc]; intros commentary Hm; cbn [merge_loop]; [done|].
  pose proof (commentary_before_split (ch_TS c) commentary) as Hsplit.
  destruct (commentary_before_bounds (ch_TS c) commentary Hm) as [Hb Ha].
  destruct (commentary_before (ch_TS c) commentary) as [b a]. cbn [fst snd] in *. subst commentary.
  apply StronglySorted_app in Hm as (_ & Hsb & Hsa). rewrite Forall_forall in Hb, Ha, Hc. unfold Archive.change_le in *.
  assert (Hge : forall y, y ∈ merge_loop cs a -> (ch_TS c <= ch_TS y)%Z).
  { intros y. rewrite merge_loop_Permutation, elem_of_app. intros [Hy|Hy]; [by apply Hc|by apply Ha]. }
  apply StronglySorted_app_2; [|done|].
  2: { constructor; [by apply IH|]. apply Forall_forall. done. }
  - intros x y Hx Hy. specialize (Hb x Hx). apply elem_of_cons in Hy as [->|Hy]; [lia|]. specialize (Hge y Hy). lia.
Qed.

(** ** What a scan collects *)

Section lines.
Context `{FrameReader}.

(** The line is an Event about the object asked for or one of its companions. *)
Definition comments_on (q : TimelineQuery) (l : recordLine) : bool :=
  bool_decide (ln_ClusterID l = or_ClusterID (tq_Ref q)) && isEvent l &&
  (namesTarget (subject l) (tq_Ref q) || existsb (namesTarget (subject l)) (tq_Subjects q)).

Definition in_range_of (q : TimelineQuery) (l : recordLine) : bool := in_window (tq_From q) (tq_To q) (ln_Timestamp l).

Definition correlated (q : TimelineQuery) (l : recordLine) : correlatedEvent :=
  mkCorrelated (with_type (line_change l) EventKubernetes) (es_UID (subject l)) (namesTarget (subject l) (tq_Ref q)).

Definition commentary_of (q : TimelineQuery) (lines : list recordLine) : list recordLine :=
  List.filter (fun l => in_range_of q l && negb (namesObject l (tq_Ref q)) && comments_on q l) lines.

Lemma scan_events `{PatchPaths} q lines :
  ta_events (foldl (scan_line (timelineScan q)) acc_zero lines) =
  if tq_IncludeEvents q then map (correlated q) (commentary_of q lines) else [].
Proof.
  rewrite scan_lines_acc, acc_merge_zero_l.
  induction lines as [|l lines IH]; [by destruct (tq_IncludeEvents q)|]. cbn [map merge_all foldr].
  fold (merge_all (map (scan_line (timelineScan q) acc_zero) lines)). cbn [acc_merge ta_events]. rewrite IH. clear IH.
  unfold commentary_of, in_range_of, comments_on. cbn [List.filter]. unfold scan_line. cbn [timelineScan rs_from rs_to rs_ref rs_retain rs_events rs_keep].
  destruct (in_window _ _ _); cbn [negb andb]; [|by destruct (tq_IncludeEvents q)].
  destruct (namesObject l (tq_Ref q)); cbn [negb andb].
  - destruct (tq_EventsOnly q); cbn [negb]; [by destruct (tq_IncludeEvents q)|]. by destruct (negb _); destruct (tq_IncludeEvents q).
  - unfold namesSubject. cbn [timelineScan rs_subjects]. destruct (tq_IncludeEvents q); cbn [andb]; [|done].
    destruct (bool_decide _); cbn [andb]; [|done]. destruct (isEvent l); cbn [andb]; [|done].
    destruct (namesTarget (subject l) (tq_Ref q)) eqn:En; destruct (existsb _ _); cbn [negb andb orb map app ta_events acc_zero]; try done;
      f_equal; unfold correlated; by rewrite En.
Qed.

Lemma scan_marks `{PatchPaths} q lines :
  ta_marks (foldl (scan_line (timelineScan q)) acc_zero lines) = map line_mark (named q lines) /\
  ta_changes (foldl (scan_line (timelineScan q)) acc_zero lines) =
    if tq_EventsOnly q then [] else map line_change (List.filter (fun l => wanted q (line_change l)) (named q lines)).
Proof.
  destruct (tq_EventsOnly q) eqn:Eo.
  2: { destruct (scan_rows (timelineScan q) lines) as [-> ->]; [cbn; by rewrite Eo|]. done. }
  rewrite scan_lines_acc, acc_merge_zero_l.
  induction lines as [|l lines [IHm IHc]]; [done|]. cbn [map merge_all foldr].
  fold (merge_all (map (scan_line (timelineScan q) acc_zero) lines)). cbn [acc_merge ta_changes ta_marks]. rewrite IHm, IHc. clear IHm IHc.
  unfold named, named_by. cbn [List.filter]. unfold scan_line. cbn [timelineScan rs_from rs_to rs_ref rs_retain rs_events rs_keep]. rewrite Eo.
  destruct (in_window _ _ _); cbn [negb andb]; [|done].
  destruct (namesObject l (tq_Ref q)); [done|]. destruct (_ && _); [|done]. destruct (_ && _); done.
Qed.
End lines.

(** ** The rows of the reference engine *)

Definition row_of (l : recordLine) : Row := mkRow (line_ref l) (line_change l).

Lemma line_ref_names l ref : bool_decide (line_ref l = ref) = namesObject l ref.
Proof.
  unfold namesObject, line_ref. destruct ref. cbn. apply Bool.eq_iff_eq_true.
  rewrite !andb_true_iff, !bool_decide_eq_true. split; [by intros [= -> -> -> -> ->]|by intros ((((-> & ->) & ->) & ->) & ->)].
Qed.

Lemma window_lines (lines : list recordLine) from to :
  window (map row_of lines) from to = map row_of (List.filter (fun l => in_window from to (ln_Timestamp l)) lines).
Proof.
  unfold window. rewrite filter_map_comm. f_equal. apply List.filter_ext. intros l. unfold in_window. cbn.
  repeat case_match; try done; by repeat case_bool_decide.
Qed.

Lemma forRef_lines e lines ref : re_rows e = map row_of lines ->
  forRef e ref = map row_of (List.filter (fun l => namesObject l ref) lines).
Proof.
  intros Hr. unfold forRef. rewrite Hr, filter_map_comm. f_equal. apply List.filter_ext. intros l. cbn. apply line_ref_names.
Qed.

Lemma object_window `{PatchPaths} e lines q : re_rows e = map row_of lines ->
  window (forRef e (tq_Ref q)) (tq_From q) (tq_To q) = map row_of (named q lines).
Proof.
  intros Hr. rewrite (forRef_lines e lines) by done. rewrite window_lines, filter_filter. f_equal.
  unfold named, named_by. cbn. apply List.filter_ext. intros l. apply andb_comm.
Qed.

Lemma subject_same `{FrameReader} l : eventSubjectOf (ln_Data l) = subject l.
Proof.
  unfold eventSubjectOf, subject, firstNonEmpty, coalesce_field. destruct (event_envelope _) as [[i r]|]; [|done].
  f_equal; by repeat case_bool_decide.
Qed.

Lemma event_kind_same l : isEventKind (line_ref l) = isEvent l.
Proof.
  unfold isEventKind, isEvent. cbn. destruct (decide (ln_Kind l = referenceEventKind)) as [E|E].
  - rewrite bool_decide_eq_true_2 by done. by rewrite (bool_decide_eq_false_2 (ln_Kind l <> eventKind)) by (intros Hc; by apply Hc).
  - rewrite bool_decide_eq_false_2 by done. by rewrite (bool_decide_eq_true_2 (ln_Kind l <> eventKind)) by done.
Qed.

Lemma correlates_line `{FrameReader} q uid l :
  correlates q uid (row_of l) = comments_on q l && pinned uid (correlated q l).
Proof.
  unfold correlates, comments_on. cbn [row_of row_Ref row_Change line_ref or_ClusterID]. rewrite event_kind_same.
  cbn [line_change ch_Data]. rewrite subject_same. unfold namesASubject, pinned, correlated. cbn [ce_root ce_subjectUID].
  change (names_ref ?s) with (namesTarget s).
  destruct (bool_decide _); cbn [negb orb andb]; [|done]. destruct (isEvent l); cbn [negb orb andb]; [|done].
  destruct (namesTarget (subject l) (tq_Ref q)); destruct (existsb _ _); cbn [negb orb andb]; try done;
    by repeat case_bool_decide.
Qed.

Lemma events_lines `{FrameReader} e lines q uid : re_rows e = map row_of lines ->
  correlatedEvents e q uid =
  map (fun l => ce_change (correlated q l))
    (List.filter (fun l => in_range_of q l && comments_on q l && pinned uid (correlated q l)) lines).
Proof.
  intros Hr. unfold correlatedEvents. rewrite Hr, window_lines, filter_map_comm, map_map, filter_filter. f_equal.
  apply List.filter_ext. intros l. rewrite correlates_line. by rewrite andb_assoc.
Qed.

(** The reference's decoder and the filter's see the same paths in the patches of the
    object. *)
Definition same_paths `{PatchPaths, OpCodec} (l : recordLine) : Prop :=
  patch_paths (ln_Diff l) = map po_Path <$> decode_patch (ln_Diff l).

Lemma keeps_line `{PatchPaths, OpCodec} q l : same_paths l -> keepsFilters (line_change l) q = wanted q (line_change l).
Proof.
  intros Hs. unfold keepsFilters, wanted, keeps. cbn [timelineScan rs_keep].
  unfold MatchesActors, held, matchesFieldPaths, MatchesFieldPaths. cbn [line_change ch_Diff ch_Actors]. rewrite Hs.
  destruct (bool_decide (0 < length _) && _); [done|]. destruct (existsb _ (ln_Actors l)); [done|]. cbn [negb andb].
  destruct (bool_decide (length (tq_FieldPaths q) = 0)) eqn:Ez; [done|]. cbn [orb].
  destruct (bool_decide (ln_Diff l = "")); [done|]. destruct (decode_patch (ln_Diff l)) as [ops|]; [|done]. cbn.
  induction ops as [|op ops IH]; [done|]. cbn [map existsb]. rewrite IH. f_equal. unfold MatchesFieldPath. by rewrite Ez.
Qed.

(** ** Timelines agree *)

(** What keeps two implementations comparable: no two of the lines a query is about
    carry the same instant - equal ones may come in any order - no Event is about
    itself, the two decoders see the same paths, and every line names an incarnation. *)
Record comparable `{FrameReader, PatchPaths, OpCodec} (q : TimelineQuery) (lines : list recordLine) : Prop := {
  cm_distinct : NoDup (map ln_Timestamp
    (List.filter (fun l => in_range_of q l && (namesObject l (tq_Ref q) || comments_on q l)) lines));
  cm_self : forall l, l ∈ lines -> namesObject l (tq_Ref q) = true -> comments_on q l = false;
  cm_paths : forall l, l ∈ lines -> namesObject l (tq_Ref q) = true -> same_paths l;
  cm_uids : forall l, l ∈ lines -> namesObject l (tq_Ref q) = true -> ln_UID l <> "";
}.

Lemma filter_disjoint {A} (f g : A -> bool) (l : list A) : (forall x, x ∈ l -> f x = true -> g x = false) ->
  List.filter f l ++ List.filter g l ≡ₚ List.filter (fun x => f x || g x) l.
Proof.
  induction l as [|x l IH]; intros Hd; cbn [List.filter]; [done|].
  assert (IH' := IH (fun y Hy => Hd y (list_elem_of_further _ _ _ Hy))). specialize (Hd x (list_elem_of_here _ _)).
  destruct (f x); cbn [orb]; [rewrite Hd by done; cbn; by f_equiv|]. destruct (g x); [|done].
  rewrite <-Permutation_middle. by f_equiv.
Qed.

Lemma filter_sublist {A} (f : A -> bool) (l : list A) : List.filter f l `sublist_of` l.
Proof. induction l as [|x l IH]; cbn; [constructor|]. destruct (f x); by constructor. Qed.

Lemma sublist_map {A B} (f : A -> B) (l l' : list A) : l `sublist_of` l' -> map f l `sublist_of` map f l'.
Proof. induction 1; cbn; by constructor. Qed.

(** The first of the newest rows. *)
Lemma newest_row_spec x l : foldl newest_row x l ∈ x :: l /\
  forall r, r ∈ x :: l -> (ch_TS (row_Change r) <= ch_TS (row_Change (foldl newest_row x l)))%Z.
Proof.
  revert x. induction l as [|y l IH]; intros x; cbn [foldl].
  - split; [by left|]. by intros r ->%list_elem_of_singleton.
  - destruct (IH (newest_row x y)) as [Hin Hmax].
    assert (Hxy : newest_row x y = x \/ newest_row x y = y) by (unfold newest_row; case_bool_decide; auto).
    assert (Hge : (ch_TS (row_Change x) <= ch_TS (row_Change (newest_row x y)) /\
                   ch_TS (row_Change y) <= ch_TS (row_Change (newest_row x y)))%Z).
    { unfold newest_row. case_bool_decide; lia. }
    pose proof (Hmax _ (list_elem_of_here _ _)) as Hn. split.
    + apply elem_of_cons in Hin as [->|Hin]; [|by right; right]. destruct Hxy as [->| ->]; [by left|by right; left].
    + intros r [->|[->|Hr]%elem_of_cons]%elem_of_cons; [lia|lia|]. apply Hmax. by right.
Qed.

Section agreement.
Context `{FrameReader, PatchPaths, OpCodec} (q : TimelineQuery) (lines : list recordLine).
Hypothesis Hcmp : comparable q lines.

(** The rows of an answer about [uid], before they are ordered. *)
Definition answer_rows (uid : string) : list Change :=
  (if tq_EventsOnly q then []
   else map line_change (List.filter (fun l => wanted q (line_change l) && of_incarnation uid (line_change l)) (named q lines))) ++
  (if tq_IncludeEvents q then map ce_change (List.filter (pinned uid) (map (correlated q) (commentary_of q lines))) else []).

(** The incarnation an answer is about. *)
Definition answer_uid : string :=
  if bool_decide (tq_UID q <> "") || tq_EventsOnly q then tq_UID q
  else if tq_AllIncarnations q then ""
  else match map row_of (named q lines) with [] => "" | r :: rest => ch_UID (row_Change (foldl newest_row r rest)) end.

Definition finish (rows : list Change) : list Change :=
  let rows := if tq_Reverse q then reverse rows else rows in
  if bool_decide (0 < tq_Limit q)%Z then take (Z.to_nat (tq_Limit q)) rows else rows.

Lemma named_elem l : l ∈ named q lines <-> l ∈ lines /\ in_range_of q l = true /\ namesObject l (tq_Ref q) = true.
Proof.
  unfold named, named_by. rewrite list_elem_of_In, filter_In, <-list_elem_of_In, andb_true_iff. done.
Qed.

Lemma answer_rows_distinct uid : NoDup (map ch_TS (answer_rows uid)).
Proof.
  destruct Hcmp as [Hd Hself _ _].
  set (fa := fun l => in_range_of q l && namesObject l (tq_Ref q)).
  set (fb := fun l => in_range_of q l && negb (namesObject l (tq_Ref q)) && comments_on q l).
  assert (Hall : List.filter fa lines ++ List.filter fb lines ≡ₚ
                 List.filter (fun l => in_range_of q l && (namesObject l (tq_Ref q) || comments_on q l)) lines).
  { rewrite filter_disjoint; [|intros l _; unfold fa, fb; intros [-> ->]%andb_true_iff; done].
    apply Permutation_refl', List.filter_ext. intros l. unfold fa, fb. destruct (in_range_of q l), (namesObject l (tq_Ref q)), (comments_on q l); done. }
  rewrite <-Hall in Hd. eapply sublist_NoDup; [exact Hd|]. unfold answer_rows. rewrite !map_app.
  change (named q lines) with (List.filter fa lines). unfold commentary_of. fold fb. apply sublist_app.
  - destruct (tq_EventsOnly q); [apply sublist_nil_l|]. rewrite map_map. cbn [line_change ch_TS].
    apply sublist_map, filter_sublist.
  - destruct (tq_IncludeEvents q); [|apply sublist_nil_l]. rewrite map_map, filter_map_comm, map_map. cbn.
    apply sublist_map, filter_sublist.
Qed.

Lemma rows_for_answer uid a :
  ta_changes a ≡ₚ (if tq_EventsOnly q then [] else map line_change (List.filter (fun l => wanted q (line_change l)) (named q lines))) ->
  ta_events a ≡ₚ (if tq_IncludeEvents q then map (correlated q) (commentary_of q lines) else []) ->
  rows_for q uid a ≡ₚ answer_rows uid.
Proof.
  intros Hc He. unfold rows_for, answer_rows. rewrite merge_loop_Permutation.
  apply Permutation_app; [|destruct (tq_IncludeEvents q); [|done]]; rewrite (stable_sort_Permutation Archive.change_le).
  - rewrite Hc. destruct (tq_EventsOnly q); [done|]. by rewrite filter_map_comm, filter_filter.
  - by rewrite He.
Qed.

(** The archive's half: what it merges is the sorted answer. *)
Lemma merged_rows uid a :
  ta_changes a ≡ₚ (if tq_EventsOnly q then [] else map line_change (List.filter (fun l => wanted q (line_change l)) (named q lines))) ->
  ta_events a ≡ₚ (if tq_IncludeEvents q then map (correlated q) (commentary_of q lines) else []) ->
  rows_for q uid a = stable_sort Archive.change_le (answer_rows uid).
Proof.
  intros Hc He. pose proof (rows_for_answer uid a Hc He) as Hp. apply (sorted_distinct_unique ch_TS).
  - apply merge_loop_sorted; [apply (stable_sort_sorted Archive.change_le)|].
    destruct (tq_IncludeEvents q); [apply (stable_sort_sorted Archive.change_le)|constructor].
  - apply (stable_sort_sorted Archive.change_le).
  - by rewrite (stable_sort_Permutation Archive.change_le).
  - rewrite Hp. apply answer_rows_distinct.
Qed.

(** The newest mark and the newest row are of one incarnation. *)
Lemma newest_agree r rest m marks : marks ≡ₚ map line_mark (named q lines) -> map row_of (named q lines) = r :: rest ->
  last (stable_sort mark_le marks) = Some m -> im_uid m = ch_UID (row_Change (foldl newest_row r rest)).
Proof.
  intros Hm Hr El. destruct (newest_row_spec r rest) as [Hin Hmax]. rewrite <-Hr in Hin, Hmax.
  apply list_elem_of_fmap in Hin as (ln & Hn & Hln). rewrite Hn in *.
  assert (Hlast : forall m', m' ∈ marks -> mark_le m' m).
  { intros m' Hm'. apply (sorted_last_max mark_le (stable_sort mark_le marks)); [apply (stable_sort_sorted mark_le)|done|].
    by rewrite (stable_sort_Permutation mark_le). }
  apply last_Some_elem_of in El. rewrite (stable_sort_Permutation mark_le), Hm in El.
  apply list_elem_of_fmap in El as (lm & -> & Hlm).
  assert (E : lm = ln); [|by subst].
  apply (nodup_map_inj ln_Timestamp (named q lines)); [|done|done|].
  - destruct Hcmp as [Hd _ _ _]. eapply sublist_NoDup; [exact Hd|]. apply sublist_map. unfold named, named_by.
    replace (List.filter (fun l => in_window (rs_from (timelineScan q)) (rs_to (timelineScan q)) (ln_Timestamp l) && namesObject l (rs_ref (timelineScan q))) lines)
      with (List.filter (fun l => namesObject l (tq_Ref q)) (List.filter (fun l => in_range_of q l && (namesObject l (tq_Ref q) || comments_on q l)) lines)).
    + apply filter_sublist.
    + rewrite filter_filter. apply List.filter_ext. intros l. unfold in_range_of. cbn.
      destruct (in_window _ _ _), (namesObject l (tq_Ref q)), (comments_on q l); done.
  - pose proof (Hmax (row_of lm) ltac:(by apply list_elem_of_fmap_2)) as Hle. cbn in Hle.
    pose proof (Hlast (line_mark ln) ltac:(rewrite Hm; by apply list_elem_of_fmap_2)) as Hge. unfold mark_le in Hge. cbn in Hge. lia.
Qed.

Lemma resolution_agrees a : ta_marks a ≡ₚ map line_mark (named q lines) ->
  resolution q a = Some answer_uid \/ (resolution q a = None /\ answer_rows answer_uid = []).
Proof.
  intros Hm. unfold resolution, resolveIncarnation, answer_uid, answer_rows.
  destruct (tq_EventsOnly q); [rewrite orb_true_r; destruct (tq_IncludeEvents q); cbn; auto|]. rewrite orb_false_r.
  destruct (bool_decide (tq_UID q <> "")); [by left|]. destruct (tq_AllIncarnations q); [by left|].
  destruct (map row_of (named q lines)) as [|r rest] eqn:Er.
  - apply map_eq_nil in Er. rewrite Er in *. apply Permutation_nil_r in Hm. rewrite Hm. cbn.
    destruct (tq_IncludeEvents q); cbn; auto.
  - destruct (last (stable_sort mark_le (ta_marks a))) as [m|] eqn:El.
    + left. cbn. f_equal. by apply (newest_agree r rest m (ta_marks a)).
    + exfalso. apply last_None in El. pose proof (stable_sort_Permutation mark_le (ta_marks a)) as Hp. rewrite El, Hm in Hp.
      apply Permutation_nil_l in Hp. symmetry in Hp. apply map_eq_nil in Hp. by rewrite Hp in Er.
Qed.

Lemma finish_nil : finish [] = [].
Proof. unfold finish. change (reverse []) with (@nil Change). destruct (tq_Reverse q), (bool_decide _); by rewrite ?take_nil. Qed.

Lemma archive_half a :
  ta_marks a ≡ₚ map line_mark (named q lines) ->
  ta_changes a ≡ₚ (if tq_EventsOnly q then [] else map line_change (List.filter (fun l => wanted q (line_change l)) (named q lines))) ->
  ta_events a ≡ₚ (if tq_IncludeEvents q then map (correlated q) (commentary_of q lines) else []) ->
  assemble q a = finish (stable_sort Archive.change_le (answer_rows answer_uid)).
Proof.
  intros Hm Hc He. rewrite assemble_rows. destruct (resolution_agrees a Hm) as [->|[-> ->]]; [|symmetry; apply finish_nil].
  by rewrite merged_rows by done.
Qed.

(** The reference's half. *)
Lemma selected_rows rows : rows = (if tq_EventsOnly q then []
    else selectIncarnation (map row_of (named q lines)) (tq_UID q) (tq_AllIncarnations q)) ->
  incarnationOf rows q = answer_uid /\
  rows = if tq_EventsOnly q then [] else map row_of (List.filter (fun l => of_incarnation answer_uid (line_change l)) (named q lines)).
Proof.
  intros ->. unfold selectIncarnation, incarnationOf, answer_uid. destruct (decide (tq_UID q = "")) as [Eu|Eu].
  - rewrite (bool_decide_eq_true_2 (tq_UID q = "")), (bool_decide_eq_false_2 (tq_UID q <> "")) by (done || intros Hc; by apply Hc).
    cbn [negb orb]. destruct (tq_EventsOnly q); [by destruct (tq_AllIncarnations q)|].
    destruct (tq_AllIncarnations q); [split; [done|]; by rewrite keep_all by (by apply Forall_true)|].
    destruct (map row_of (named q lines)) as [|r rest] eqn:Er; [split; [done|]; apply map_eq_nil in Er; by rewrite Er|].
    destruct (newest_row_spec r rest) as [Hin _]. set (n := foldl newest_row r rest) in *. rewrite <-Er in *.
    apply list_elem_of_fmap in Hin as (ln & Hn & Hln).
    assert (Hne : ch_UID (row_Change n) <> "").
    { rewrite Hn. apply named_elem in Hln as (Hl & _ & Hno). by apply (cm_uids _ _ Hcmp). }
    split.
    + destruct (List.filter _ (map row_of _)) as [|r' rest'] eqn:Ef.
      * exfalso. assert (Hl : n ∈ List.filter (of_uid (ch_UID (row_Change n))) (map row_of (named q lines))); [|rewrite Ef in Hl; by apply elem_of_nil in Hl].
        apply list_elem_of_In, filter_In. split; [rewrite Hn; by apply list_elem_of_In, list_elem_of_fmap_2|].
        unfold of_uid. by apply bool_decide_eq_true_2.
      * assert (Hl : r' ∈ r' :: rest') by (by left). rewrite <-Ef in Hl. apply list_elem_of_In, filter_In in Hl as [_ Hl].
        unfold of_uid in Hl. by apply bool_decide_eq_true in Hl.
    + rewrite filter_map_comm. f_equal. apply List.filter_ext. intros l. unfold of_uid, of_incarnation. cbn.
      by rewrite (bool_decide_eq_false_2 (ch_UID (row_Change n) = "")).
  - rewrite (bool_decide_eq_false_2 (tq_UID q = "")), (bool_decide_eq_true_2 (tq_UID q <> "")) by done. cbn [negb orb].
    split; [done|]. destruct (tq_EventsOnly q); [done|]. rewrite filter_map_comm. f_equal. apply List.filter_ext. intros l.
    unfold of_uid, of_incarnation. cbn. by rewrite (bool_decide_eq_false_2 (tq_UID q = "")).
Qed.

Lemma commentary_agrees e uid : re_rows e = map row_of lines ->
  correlatedEvents e q uid = map ce_change (List.filter (pinned uid) (map (correlated q) (commentary_of q lines))).
Proof.
  intros Hr. rewrite (events_lines e lines) by done. rewrite filter_map_comm, map_map. f_equal.
  unfold commentary_of. rewrite filter_filter. apply List.filter_ext_in. intros l Hl%list_elem_of_In.
  destruct (namesObject l (tq_Ref q)) eqn:En; cbn [negb]; [|by rewrite andb_true_r].
  rewrite (cm_self _ _ Hcmp l) by done. by rewrite !andb_false_r.
Qed.

Lemma finish_reference rows : finish rows =
  let rows := if tq_Reverse q then reverse rows else rows in
  if bool_decide (0 < tq_Limit q)%Z && bool_decide (tq_Limit q < Z.of_nat (length rows))%Z
  then take (Z.to_nat (tq_Limit q)) rows else rows.
Proof.
  unfold finish. cbv zeta. set (rs := if tq_Reverse q then _ else _). case_bool_decide; [|done]. cbn [andb].
  case_bool_decide; [done|]. apply take_ge. lia.
Qed.

Lemma reference_half e : re_rows e = map row_of lines -> tq_From q <> None ->
  Reference.Timeline e q = Ok (finish (stable_sort Archive.change_le (answer_rows answer_uid))).
Proof.
  intros Hr Hf. unfold Reference.Timeline.
  rewrite (bool_decide_eq_false_2 (tq_From q = None)) by done. rewrite andb_false_r. cbn [andb].
  rewrite (object_window e lines) by done.
  set (rows := if tq_EventsOnly q then [] else _).
  destruct (selected_rows rows eq_refl) as [Hu Hrows]. rewrite Hu, commentary_agrees by done.
  assert (Hch : List.filter (fun c => keepsFilters c q) (map row_Change rows) =
    if tq_EventsOnly q then []
    else map line_change (List.filter (fun l => wanted q (line_change l) && of_incarnation answer_uid (line_change l)) (named q lines))).
  { rewrite Hrows. destruct (tq_EventsOnly q); [done|]. rewrite map_map. cbn [row_of row_Change].
    rewrite filter_map_comm, filter_filter. f_equal. apply List.filter_ext_in. intros l Hl%list_elem_of_In%named_elem.
    rewrite keeps_line by (apply (cm_paths _ _ Hcmp); tauto). apply andb_comm. }
  rewrite Hch, finish_reference. unfold answer_rows. destruct (tq_IncludeEvents q); [done|]. by rewrite app_nil_r.
Qed.
End agreement.

(** Every query reads the archive into the accumulator the halves are about. *)
Lemma collected_lines `{ObjectSource, FrameReader, PatchPaths} e q from to stored :
  tq_From q = Some from -> tq_To q = Some to ->
  askable e (or_ClusterID (tq_Ref q)) from to -> holds_keys stored -> Forall (filed e (or_ClusterID (tq_Ref q))) stored ->
  let lines := concat (map key_lines stored) in
  exists a, (scanTimeline e q from to).1 = assemble q a /\
    ta_marks a ≡ₚ map line_mark (named q lines) /\
    ta_changes a ≡ₚ (if tq_EventsOnly q then [] else map line_change (List.filter (fun l => wanted q (line_change l)) (named q lines))) /\
    ta_events a ≡ₚ (if tq_IncludeEvents q then map (correlated q) (commentary_of q lines) else []).
Proof.
  intros Hf Ht Ha Hs Hfiled lines. set (cluster := or_ClusterID (tq_Ref q)) in *.
  set (read := concat (map key_lines (concat (map keys_of (recordPrefixes e cluster from to))))).
  exists (foldl (scan_line (timelineScan q)) acc_zero read). split.
  - assert (Hfull : (scanForward e q (timelineScan q) from to).1 = foldl (scan_line (timelineScan q)) acc_zero read).
    { unfold scanForward. rewrite (forward_clean (timelineScan q) (hk_calm _ Hs)).
      - cbn [fst]. apply read_all_lines.
      - apply Ha.
      - apply Forall_forall. intros p _. destruct (hk_listed _ Hs p) as (keys & Hk & _). by exists keys. }
    rewrite <-Hfull. destruct (reverseLimited q) eqn:Erl; [by apply (newest_first_full e q from to stored)|].
    unfold scanTimeline. rewrite Erl. by destruct (scanForward _ _ _ _ _).
  - destruct (scan_marks q read) as [-> ->]. rewrite scan_events.
    pose proof (named_complete e q from to stored Hf Ht Ha Hs Hfiled) as Hn. cbv zeta in Hn. fold cluster read lines in Hn.
    assert (Hc : commentary_of q read ≡ₚ commentary_of q lines).
    { apply (window_complete e cluster _ from to stored); [done..|]. unfold in_range_of, comments_on. rewrite Hf, Ht.
      intros l Hl. rewrite !andb_true_iff in Hl. destruct Hl as ((Hw%in_window_bounds & _) & (Hcl%bool_decide_eq_true & _) & _). done. }
    split_and!; [by rewrite Hn|destruct (tq_EventsOnly q); by rewrite ?Hn|destruct (tq_IncludeEvents q); by rewrite ?Hc].
Qed.

(** C11: the archive answers like the reference engine. For every timeline query - either
    direction, limited or not, one incarnation or all, filtered, with Events or of them
    only - whose window has two ends, the archive's engine, which prunes partitions, scans
    forward or walks newest first and merges, returns exactly the rows in the order the
    reference engine computes from the plain list of all stored lines. The archive is filed
    as the reader expects (no record stamped before the one its object is filed under) and
    wholly retained by the reference; no two lines the query is about have one instant, no
    line is both of the object and about it, the object's lines have UIDs, and the
    engine's patch reader and the reference's decode the same paths of their diffs. *)
Theorem archive_agrees_with_reference `{ObjectSource, FrameReader, PatchPaths, OpCodec} e q from to stored scopes caps :
  tq_From q = Some from -> tq_To q = Some to -> (from <= to)%Z -> en_closed e = false ->
  askable e (or_ClusterID (tq_Ref q)) from to -> holds_keys stored -> Forall (filed e (or_ClusterID (tq_Ref q))) stored ->
  let lines := concat (map key_lines stored) in
  comparable q lines -> Forall (fun l => retained caps (row_of l) = true) lines ->
  exists answer failure, Archive.Timeline e q = Ok (answer, failure) /\
    Reference.Timeline (newReferenceEngine (mkHistory (map row_of lines) scopes) caps) q = Ok answer.
Proof.
  intros Hf Ht Hle Hcl Ha Hs Hfiled lines Hcmp Hret.
  destruct (collected_lines e q from to stored Hf Ht Ha Hs Hfiled) as (a & Hscan & Hm & Hc & He).
  unfold Archive.Timeline, requireWindow. rewrite Hcl, Hf, Ht, bool_decide_eq_false_2 by lia.
  exists (assemble q a), (scanTimeline e q from to).2. split; [by destruct (scanTimeline e q from to); cbn in *; subst|].
  rewrite (archive_half q lines Hcmp a Hm Hc He). apply reference_half; [done| |by rewrite Hf].
  cbn. unfold retainedRows. by rewrite keep_all by (by apply Forall_map).
Qed.

(** ** Coverage agrees *)

Lemma stable_sort_map {A B} (R : A -> A -> Prop) (S : B -> B -> Prop) `{!RelDecision R, !RelDecision S} (f : A -> B) l :
  (forall x y, x ∈ l -> y ∈ l -> R x y <-> S (f x) (f y)) -> stable_sort S (map f l) = map f (stable_sort R l).
Proof.
  induction l as [|x l IH]; intros Hf; [done|]. cbn [map stable_sort foldr]. fold (stable_sort S (map f l)) (stable_sort R l).
  rewrite IH by (intros; apply Hf; by right).
  assert (Hin : forall y, y ∈ stable_sort R l -> R x y <-> S (f x) (f y)).
  { intros y. rewrite (stable_sort_Permutation R). intros Hy. apply Hf; [by left|by right]. }
  clear IH Hf. induction (stable_sort R l) as [|y l' IH]; [done|]. cbn [insert_before map].
  destruct (Hin y ltac:(by left)) as [H1 H2].
  destruct (decide (R x y)) as [HR|HR], (decide (S (f x) (f y))) as [HS|HS]; try done; [by destruct HS; auto|by destruct HR; auto|].
  cbn [map]. f_equal. apply IH. intros z Hz. apply Hin. by right.
Qed.

Definition transition_of (c : ScopeChange) : ScopeTransition :=
  mkTransition (sc_Action c) (sc_APIGroup c) (sc_Kind c) (sc_Namespace c) (sc_RuleRef c) (sc_TS c).

Definition triple (k : ScopeKey) : string * string * string := (sk_Group k, sk_Kind k, sk_Namespace k).

Lemma triple_inj k k' : triple k = triple k' -> k = k'.
Proof. destruct k, k'. unfold triple. cbn. by intros [= -> -> ->]. Qed.

Lemma transition_key_of c : transition_key (transition_of c) = triple (change_key c).
Proof. done. Qed.

(** One scope is paired alike. *)
Lemma pairScope_agrees k l : (forall c, c ∈ l -> change_key c = k) ->
  Reference.pairScope (triple k) (map transition_of l) = ScopeLog.pairScope l.
Proof.
  intros Hk. unfold Reference.pairScope, ScopeLog.pairScope.
  assert (Hgen : forall l out open, (forall c, c ∈ l -> change_key c = k) ->
            (foldl (pair_transition (triple k)) (out, open) (map transition_of l)).1 = pair_loop l out open); [|by apply Hgen].
  clear l Hk. induction l as [|c l IH]; intros out open Hk; [done|]. cbn [map foldl pair_loop].
  assert (Hk' : forall c, c ∈ l -> change_key c = k) by (intros; apply Hk; by right).
  specialize (Hk c ltac:(by left)). unfold pair_transition at 2. cbn [transition_of st_Action st_TS st_RuleRef].
  change ScopeStarted with action_Started. change ScopeStopped with action_Stopped.
  case_bool_decide; [destruct open; [by apply IH|]|case_bool_decide; [destruct open|]; by apply IH].
  rewrite IH by done. rewrite <-Hk. cbn. do 2 f_equal. rewrite length_app. cbn. lia.
Qed.

Lemma scoped_sort k (l : list ScopeChange) : scoped k (stable_sort ScopeLog.change_le l) = stable_sort ScopeLog.change_le (scoped k l).
Proof. apply (stable_sort_filter ScopeLog.change_le). Qed.

(** Sorted by scope and instant, one scope's part is that part sorted by instant. *)
Lemma scoped_sorted k (l : list ScopeChange) :
  map transition_of (scoped k (stable_sort ScopeLog.change_le l)) = stable_sort transition_le (map transition_of (scoped k l)).
Proof.
  rewrite scoped_sort. symmetry. apply stable_sort_map. intros x y. rewrite !elem_of_scoped. intros [_ Hx] [_ Hy]. unfold transition_le, ScopeLog.change_le. cbn.
  rewrite compare_changes_split, (proj2 (compare_scope_eq x y)) by (apply sameScope_key; congruence). cbn. by rewrite Z.compare_le_iff.
Qed.

(** The runs of an ordered log are its scopes. *)
Lemma coverage_by_scope fuel from to ordered (keys : list ScopeKey) :
  StronglySorted ScopeLog.change_le ordered -> length ordered <= fuel -> NoDup keys ->
  (forall c, c ∈ ordered -> change_key c ∈ keys) ->
  coverage_loop fuel from to ordered ≡ₚ
  concat (map (fun k => List.filter (fun i => ScopeLog.overlapsWindow i from to) (ScopeLog.pairScope (scoped k ordered))) keys).
Proof.
  revert ordered keys. induction fuel as [|fuel IH]; intros ordered keys Hs Hl Hd Hin.
  { destruct ordered; [|cbn in Hl; lia]. cbn. clear. by induction keys. }
  destruct ordered as [|first l]; [cbn; clear; by induction keys|].
  assert (Ef : sameScope first first = true) by by apply sameScope_key.
  cbn [coverage_loop]. pose proof (scope_run_app first (first :: l)) as Eapp.
  pose proof (scope_run_same first (first :: l)) as Hsame.
  assert (Hrest : forall x, x ∈ (scope_run first (first :: l)).2 -> sameScope x first = false).
  { intros x. cbn. rewrite Ef. cbn. by apply scope_run_rest. }
  assert (Hrun : exists r, (scope_run first (first :: l)).1 = first :: r) by (cbn; rewrite Ef; cbn; eauto).
  destruct (scope_run first (first :: l)) as [run rest]. cbn [fst snd] in Eapp, Hsame, Hrest, Hrun. rewrite Eapp in *.
  assert (Hkey : change_key first ∈ keys).
  { apply Hin. rewrite elem_of_app. left. destruct Hrun as [r ->]. by left. }
  apply elem_of_Permutation in Hkey as [keys' Hp]. rewrite (concat_map_Permutation _ _ _ Hp). cbn [map concat].
  rewrite Hp in Hd. apply NoDup_cons in Hd as [Hnot Hd].
  assert (Hother : forall c, c ∈ rest -> change_key c <> change_key first).
  { intros c Hc E. apply sameScope_key in E. by rewrite Hrest in E. }
  rewrite scoped_app, (scoped_all (change_key first) run) by (intros c Hc; by apply sameScope_key, Hsame).
  rewrite (scoped_none (change_key first) rest), app_nil_r by done. f_equiv.
  rewrite (IH rest keys').
  - apply concat_map_ext_perm. intros k Hk. rewrite scoped_app, (scoped_none k run); [done|].
    intros c Hc E. apply Hnot. rewrite <-(proj1 (sameScope_key c first) (Hsame c Hc)), E. done.
  - by apply StronglySorted_app in Hs as (_ & _ & ?).
  - destruct Hrun as [r Er]. rewrite Er in Hl. cbn in Hl. rewrite length_app in Hl. lia.
  - done.
  - intros c Hc. assert (Hck : change_key c ∈ keys) by (apply Hin, elem_of_app; by right).
    rewrite Hp in Hck. apply elem_of_cons in Hck as [E|?]; [by apply Hother in E|done].
Qed.

Class MapOrderLaws `{MapOrder} := {
  map_order_visits : forall {K V} `{Countable K} (m : gmap K V), map_order m ≡ₚ map_to_list m;
}.

Definition untriple (k : string * string * string) : ScopeKey := mkScopeKey k.1.1 k.1.2 k.2.

Lemma triple_untriple k : triple (untriple k) = k.
Proof. by destruct k as [[? ?] ?]. Qed.

Lemma untriple_triple k : untriple (triple k) = k.
Proof. by destruct k. Qed.

Definition in_key (k : string * string * string) (trs : list ScopeTransition) : list ScopeTransition :=
  List.filter (fun tr => bool_decide (transition_key tr = k)) trs.

Lemma by_scope_lookup trs k :
  foldl by_scope ∅ trs !! k = if bool_decide (in_key k trs = []) then None else Some (in_key k trs).
Proof.
  induction trs as [|tr trs IH] using rev_ind; [by rewrite bool_decide_eq_true_2|].
  rewrite foldl_snoc. unfold by_scope at 1, in_key. rewrite keep_app. fold (in_key k trs). cbn [List.filter].
  destruct (decide (transition_key tr = k)) as [<-|Hne].
  - rewrite lookup_insert_eq, IH, !(bool_decide_eq_true_2 (transition_key tr = transition_key tr)) by done.
    rewrite (bool_decide_eq_false_2 (_ ++ [tr] = [])) by (intros E; by apply app_eq_nil in E as [_ ?]).
    case_bool_decide as E; [by rewrite E|done].
  - rewrite lookup_insert_ne, (bool_decide_eq_false_2 (transition_key tr = k)) by done. by rewrite app_nil_r.
Qed.

Lemma in_key_of k log : in_key (triple k) (map transition_of log) = map transition_of (scoped k log).
Proof.
  unfold in_key, scoped. rewrite filter_map_comm. f_equal. apply List.filter_ext. intros c. rewrite transition_key_of.
  apply bool_decide_ext. split; [apply triple_inj|by intros ->].
Qed.

Definition scope_covered (q : ScopeQuery) (c : ScopeChange) : bool := coversScope q (triple (change_key c)).

Lemma scoped_covered q k log : scoped k (List.filter (scope_covered q) log) = if coversScope q (triple k) then scoped k log else [].
Proof.
  unfold scoped. rewrite filter_filter. unfold scope_covered. destruct (coversScope q (triple k)) eqn:E.
  - apply List.filter_ext. intros c. case_bool_decide as Hk; [by rewrite Hk, E|apply andb_false_r].
  - apply keep_none, Forall_forall. intros c _. case_bool_decide as Hk; [by rewrite Hk, E|apply andb_false_r].
Qed.

Lemma overlaps_same i from to : Reference.overlapsWindow i from to = ScopeLog.overlapsWindow i from to.
Proof. unfold Reference.overlapsWindow, ScopeLog.overlapsWindow. repeat case_match; try done; by case_bool_decide. Qed.

(** The reference's answer, scope by scope, is that of the log's pairing. *)
Lemma coverage_same `{MapOrderLaws} e q log : re_scopes e = map transition_of log ->
  Reference.Coverage e q ≡ₚ CoverageOf (List.filter (scope_covered q) log) (sq_From q) (sq_To q).
Proof.
  intros Hr. unfold Reference.Coverage, CoverageOf. rewrite Hr, !(stable_sort_Permutation from_le).
  set (m := foldl by_scope ∅ (map transition_of log)). set (matching := List.filter (scope_covered q) log).
  rewrite (coverage_by_scope _ _ _ _ (map untriple (map fst (map_to_list m)))); cycle 1.
  - apply (stable_sort_sorted ScopeLog.change_le).
  - done.
  - apply (NoDup_fmap_2_strong untriple); [|apply NoDup_fst_map_to_list].
    intros k k' _ _ E. apply (f_equal triple) in E. by rewrite !triple_untriple in E.
  - intros c. rewrite (stable_sort_Permutation ScopeLog.change_le). intros Hc.
    apply list_elem_of_In, filter_In in Hc as [Hc%list_elem_of_In _].
    assert (Hm : m !! triple (change_key c) = Some (map transition_of (scoped (change_key c) log))).
    { subst m. rewrite by_scope_lookup, in_key_of, bool_decide_eq_false_2; [done|]. intros E%map_eq_nil.
      assert (Hin : c ∈ scoped (change_key c) log) by (by apply elem_of_scoped). rewrite E in Hin. by apply elem_of_nil in Hin. }
    apply elem_of_map_to_list in Hm. apply list_elem_of_fmap. exists (triple (change_key c)).
    split; [by destruct (change_key c)|]. by apply (list_elem_of_fmap_2 fst) in Hm.
  - rewrite (concat_map_Permutation _ _ _ (map_order_visits m)), map_map, map_map. apply concat_map_ext_perm.
    intros [k trs] Hk%elem_of_map_to_list. subst m. rewrite <-(triple_untriple k) in *. generalize dependent (untriple k). intros key Hk.
    rewrite by_scope_lookup, in_key_of in Hk. case_bool_decide; [done|]. injection Hk as <-. cbn [fst]. rewrite untriple_triple.
    rewrite scoped_sort. unfold matching. rewrite scoped_covered.
    destruct (coversScope q (triple key)); cbn [negb]; [|reflexivity]. rewrite <-scoped_sorted, scoped_sort, pairScope_agrees.
    + apply Permutation_refl', List.filter_ext. intros i. apply overlaps_same.
    + intros c. rewrite (stable_sort_Permutation ScopeLog.change_le), elem_of_scoped. tauto.
Qed.

Lemma change_le_antisym c c' : ScopeLog.change_le c c' -> ScopeLog.change_le c' c -> change_key c = change_key c' /\ sc_TS c = sc_TS c'.
Proof.
  unfold ScopeLog.change_le. rewrite !compare_changes_split. unfold cmp_or. rewrite (lawful_sym _ scope_lawful c c').
  destruct (compare_scope_of c c') eqn:E; cbn; try done. rewrite !Z.compare_le_iff. intros ? ?.
  split; [by apply sameScope_key, compare_scope_eq|lia].
Qed.

#[export] Instance from_le_trans : Transitive from_le.
Proof. intros a b c. unfold from_le. lia. Qed.
#[export] Instance from_le_total : Total from_le.
Proof. intros a b. unfold from_le. lia. Qed.

(** The scope lines of the archive that belong to a cluster, as a log. *)
Definition cluster_log `{ObjectSource, FrameReader} (e : Engine) (cluster : string) (stored : list string) : list ScopeChange :=
  map line_scopeChange (List.filter (fun l => bool_decide (sl_ClusterID l = cluster))
    (concat (map key_scopes (List.filter (fun key => has_prefix key (scopesRoot (en_prefix e))) stored)))).

Lemma scope_log_covered `{ObjectSource, FrameReader} e q stored :
  scope_log e q stored = List.filter (scope_covered q) (cluster_log e (sq_ClusterID q) stored).
Proof.
  unfold scope_log, cluster_log. rewrite filter_map_comm, filter_filter. f_equal. apply List.filter_ext. intros l.
  unfold scope_matches, scope_covered, coversScope, line_scopeChange, change_key, triple. cbn.
  repeat case_bool_decide; cbn; try done; exfalso; naive_solver.
Qed.


(** ** States agree *)

(** An operation as the producer records one: known, below the root, at named locations
    whose indices are spelled like the standard's. *)
Definition plain_op (op : patchOp) : Prop :=
  known_op (po_Op op) /\ exists names, names <> [] /\ po_Path op = pointer_to names /\
    Forall (fun name => canonical name = true /\ name <> "") names.

(** The patch library is documented to apply a JSON Patch (RFC 6902): when it applies the
    operations of a text to a document, the document it answers with is the standard's.
    An object decodes the same into [any] and into a map. *)
Class PatchLibrary `{AnyCodec, OpCodec, JsonPatch, Encoders} := {
  library_applies : forall diff ops p text text' m, decode_patch diff = Some ops -> Forall plain_op ops -> DecodePatch diff = Ok p ->
    decode_any text = Some (JObj m) -> patch_Apply p text = Ok text' ->
    exists doc, patches ops (JObj m) doc /\ decode_any text' = Some doc;
  decoded_object : forall text o, decode_any text = Some (JObj o) -> json_unmarshal text = Some o;
}.

(** A recorded diff is a list of such operations. *)
Definition plain_diff `{OpCodec} (diff : string) : Prop := diff <> "" -> exists ops, decode_patch diff = Some ops /\ Forall plain_op ops.
(** A recorded state is an object's text. *)
Definition object_text `{AnyCodec} (data : string) : Prop := data <> "" -> exists m, decode_any data = Some (JObj m).

Lemma tokens_of names : names <> [""] -> Reference.pointerTokens (pointer_to names) = names.
Proof.
  intros Hn. destruct names as [|name names]; [done|]. rewrite <-(pointerSegments_to (name :: names)) at 2 by done.
  unfold Reference.pointerTokens, pointerSegments. destruct (bool_decide (_ = "")); [done|]. cbn [orb].
  case_bool_decide as E; [|by rewrite andb_false_r]. rewrite E. cbn. done.
Qed.

(** The reference's applier computes the standard's document. *)
Lemma patches_applied `{AnyCodec} ops m doc : patches ops (JObj m) doc -> Forall plain_op ops ->
  exists m', doc = JObj m' /\ apply_ops (JObj m) ops = Ok (JObj m').
Proof.
  revert m. induction ops as [|op ops IH]; intros m Hp Hf; inversion Hp as [|? ? value tokens ? next ? Hv Hpath He Hrest]; subst; [by exists m|].
  apply Forall_cons in Hf as [(Hop & names & Hne & Hn & Hc) Hf]. rewrite Hpath in Hn. apply pointer_to_inj in Hn as ->.
  destruct (edits_object _ _ _ _ _ Hne He) as [m' ->]. cbn [apply_ops]. rewrite Hv, Hpath, tokens_of.
  - rewrite (edits_applied _ _ _ _ _ He); [by apply IH|]. eapply Forall_impl; [exact Hc|]. by intros name [? _].
  - intros ->. apply Forall_cons in Hc as [[_ ?] _]. done.
Qed.

Lemma full_row_same rows n : n <= length rows ->
  full_row_below rows n = base_below (map (fun r => replay_row (row_Change r)) rows) n.
Proof.
  induction n as [|n IH]; intros Hn; [done|]. cbn [full_row_below base_below]. change (map ?f rows) with (f <$> rows).
  rewrite list_lookup_fmap. destruct (rows !! n) as [r|] eqn:Er; cbn; [|rewrite IH by lia; done].
  change (?f <$> rows) with (map f rows). rewrite IH by lia. case_bool_decide as E; cbn [negb].
  - by rewrite decide_False by (intros Hc; by apply Hc).
  - by rewrite decide_True.
Qed.

Section replays.
Context `{PatchLibrary}.

(** Patches after the base, step by step. *)
Lemma replays_agree rows text m state applied lastrow base :
  Forall (fun r => ch_Data (row_Change r) = "") rows -> Forall (fun r => plain_diff (ch_Diff (row_Change r))) rows ->
  decode_any text = Some (JObj m) ->
  forall n, replay_loop (map (fun r => replay_row (row_Change r)) rows) text n (replay_row base) = Ok (state, applied, lastrow) ->
  exists o c, decode_any state = Some (JObj o) /\ replay_rows rows (JObj m) n base = Ok (JObj o, applied, c) /\ replay_row c = lastrow.
Proof.
  intros Hd. revert text m base. induction Hd as [|r rows Hr Hd IH]; intros text m base Ha Ht n Hl; cbn [map replay_loop replay_rows] in *.
  - injection Hl as <- <- <-. by exists m, base.
  - apply Forall_cons in Ha as [Har Ha]. cbn [replay_row rr_Data rr_Diff] in Hl. rewrite Hr in *.
    rewrite decide_False in Hl by (intros Hc; by apply Hc). cbn. destruct (decide (ch_Diff (row_Change r) = "")) as [Ed|Ed].
    + rewrite Ed in *. rewrite decide_False in Hl by (intros Hc; by apply Hc). by apply (IH text m (row_Change r) Ha Ht n Hl).
    + rewrite decide_True in Hl by done. rewrite (bool_decide_eq_false_2 (ch_Diff _ = "")) by done. cbn [negb].
      destruct (DecodePatch (ch_Diff (row_Change r))) as [p|] eqn:Ep; [|done]. destruct (patch_Apply p text) as [next|] eqn:En; [|done].
      destruct (Har Ed) as (ops & Hops & Hplain). destruct (library_applies _ ops p text next m Hops Hplain Ep Ht En) as (doc & Hdoc & Hnext).
      destruct (patches_applied ops m doc Hdoc Hplain) as (m' & -> & Happ). unfold applyPatch. rewrite Hops, Happ.
      by apply (IH next m' (row_Change r) Ha Hnext (n + 1)%Z Hl).
Qed.

Lemma base_last_full rows base : full_row_below rows (length rows) = Some base ->
  exists b, rows !! base = Some b /\ ch_Data (row_Change b) <> "" /\ Forall (fun r => ch_Data (row_Change r) = "") (drop (S base) rows).
Proof.
  assert (Hgen : forall n, n <= length rows -> full_row_below rows n = Some base ->
    exists b, rows !! base = Some b /\ ch_Data (row_Change b) <> "" /\
      forall i r, base < i < n -> rows !! i = Some r -> ch_Data (row_Change r) = "").
  { induction n as [|n IH]; intros Hn; [done|]. cbn [full_row_below]. destruct (rows !! n) as [r|] eqn:Er; [|apply lookup_ge_None in Er; lia].
    case_bool_decide as E; cbn [negb].
    - intros Hb. destruct (IH ltac:(lia) Hb) as (b & Hl & Hne & Hrest). exists b. split_and!; [done..|]. intros i r' Hi Hr'.
      destruct (decide (i = n)) as [->|]; [by simplify_eq|]. apply (Hrest i); [lia|done].
    - intros [= <-]. exists r. split_and!; [done..|]. intros i r' Hi. lia. }
  intros Hb. destruct (Hgen (length rows) ltac:(lia) Hb) as (b & Hl & Hne & Hrest). exists b. split_and!; [done..|].
  apply Forall_lookup. intros i r. rewrite lookup_drop. intros Hr. apply (Hrest (S base + i)); [|done].
  apply lookup_lt_Some in Hr. lia.
Qed.

Lemma replay_agrees rows base r : Forall (fun r => plain_diff (ch_Diff (row_Change r))) rows ->
  Forall (fun r => object_text (ch_Data (row_Change r))) rows -> full_row_below rows (length rows) = Some base ->
  Replay (map (fun r => replay_row (row_Change r)) rows) base = Ok r -> replay rows base = Ok r.
Proof.
  intros Ha Ht Hb. destruct (base_last_full rows base Hb) as (b & Hl & Hne & Hrest). unfold Replay, replay.
  destruct (proj1 (Forall_lookup _ _) Ht base b Hl Hne) as [m Hm].
  change (map ?f rows) with (f <$> rows). rewrite list_lookup_fmap, Hl. cbn [fmap option_fmap option_map].
  change (?f <$> rows) with (map f rows). rewrite skipn_map. destruct (replay_loop _ _ _ _) as [[[state applied] lastrow]|] eqn:El; [|done].
  destruct (replays_agree _ _ _ _ _ _ _ Hrest (Forall_drop _ (S base) _ Ha) Hm _ El) as (o & c & Ho & Hr & Hc).
  rewrite (decoded_object _ _ Ho). intros [= <-]. cbn [replay_row rr_Data rr_TS rr_EventType] in *. rewrite Hm, Hr. by subst lastrow.
Qed.
End replays.

#[export] Instance row_le_refl : Reflexive row_le.
Proof. intros a. unfold row_le. lia. Qed.
#[export] Instance row_le_trans : Transitive row_le.
Proof. intros a b c. unfold row_le. lia. Qed.
#[export] Instance row_le_total : Total row_le.
Proof. intros a b. unfold row_le. lia. Qed.

Lemma rows_up_to e all ref at_ : re_rows e = map row_of all ->
  List.filter (fun r => negb (bool_decide (at_ < ch_TS (row_Change r))%Z)) (forRef e ref) =
  map row_of (named_by (state_scan ref at_) all).
Proof.
  intros Hr. rewrite (forRef_lines e all) by done. rewrite filter_map_comm, filter_filter. f_equal. unfold named_by.
  apply List.filter_ext. intros l. cbn. rewrite andb_comm. done.
Qed.

Lemma rows_history lines history : StronglySorted Archive.change_le history -> history ≡ₚ map line_change lines ->
  NoDup (map ln_Timestamp lines) -> map row_Change (stable_sort row_le (map row_of lines)) = history.
Proof.
  intros Hs Hp Hd. rewrite <-(stable_sort_map row_le Archive.change_le row_Change) by done. rewrite map_map. cbn [row_of row_Change].
  apply (sorted_distinct_unique ch_TS); [apply (stable_sort_sorted Archive.change_le)|done| |].
  - by rewrite (stable_sort_Permutation Archive.change_le), Hp.
  - rewrite (stable_sort_Permutation Archive.change_le), map_map. done.
Qed.

(** The newest row belongs to the incarnation of a newest line. *)
Lemma newest_resolved lines newest l : NoDup (map ln_Timestamp lines) -> last (stable_sort row_le (map row_of lines)) = Some newest ->
  l ∈ lines -> (forall l', l' ∈ lines -> (ln_Timestamp l' <= ln_Timestamp l)%Z) -> newest = row_of l.
Proof.
  intros Hd El Hl Hmax. assert (Hlast : forall x, x ∈ map row_of lines -> row_le x newest).
  { intros x Hx. apply (sorted_last_max row_le (stable_sort row_le (map row_of lines))); [apply (stable_sort_sorted row_le)|done|].
    by rewrite (stable_sort_Permutation row_le). }
  apply last_Some_elem_of in El. rewrite (stable_sort_Permutation row_le) in El. apply list_elem_of_fmap in El as (l' & -> & Hl').
  f_equal. apply (nodup_map_inj ln_Timestamp lines); [done..|]. specialize (Hmax l' Hl').
  specialize (Hlast (row_of l) (list_elem_of_fmap_2 _ _ _ Hl)). unfold row_le in Hlast. cbn in Hlast. lia.
Qed.

Lemma incarnation_history rows uid :
  map (fun r => replay_row (row_Change r)) (List.filter (of_uid uid) rows) = replayRows (map row_Change rows) uid.
Proof. unfold replayRows. rewrite filter_map_comm, map_map. done. Qed.


(** ** Incarnations agree *)

Lemma span_unique marks s t : span_of marks s -> span_of marks t -> in_UID s = in_UID t -> s = t.
Proof.
  intros ((f & Hf & Hfu & Hft) & (l & Hl & Hlu & Hlt) & Hall & Hdel) ((f' & Hf' & Hfu' & Hft') & (l' & Hl' & Hlu' & Hlt') & Hall' & Hdel') Hu.
  pose proof (Hall f' Hf' ltac:(congruence)). pose proof (Hall l' Hl' ltac:(congruence)).
  pose proof (Hall' f Hf ltac:(congruence)). pose proof (Hall' l Hl ltac:(congruence)).
  destruct s as [u a b d], t as [u' a' b' d']. cbn in *. assert (Ea : a = a') by lia. assert (Eb : b = b') by lia.
  assert (Ed : d = d') by (apply Bool.eq_iff_eq_true; by rewrite Hdel, Hdel', Hu). congruence.
Qed.

(** How one more mark changes a span: of another incarnation, of this one, the first. *)
Lemma span_other marks m s : span_of marks s -> in_UID s <> im_uid m -> span_of (marks ++ [m]) s.
Proof.
  intros ((f & Hf & Hfu) & (b & Hb & Hbu) & Hall & Hdel) Hne. unfold span_of.
  assert (Hin : forall x, x ∈ marks ++ [m] <-> x ∈ marks \/ x = m) by set_solver. setoid_rewrite Hin.
  split_and!; [by exists f; auto|by exists b; auto|by intros x [Hx| ->] Hxu; [apply Hall|congruence]|].
  rewrite Hdel. split; [intros (x & ? & ? & ?); eauto|]. intros (x & [?| ->] & Hxu & ?); [eauto|congruence].
Qed.

Lemma span_again marks m s : span_of marks s -> in_UID s = im_uid m ->
  span_of (marks ++ [m]) (mkIncarnation (in_UID s)
    (if bool_decide (im_ts m < in_FirstSeen s)%Z then im_ts m else in_FirstSeen s)
    (if bool_decide (in_LastSeen s < im_ts m)%Z then im_ts m else in_LastSeen s) (in_Deleted s || im_deleted m)).
Proof.
  intros ((f & Hf & Hfu & Hft) & (b & Hb & Hbu & Hbt) & Hall & Hdel) Hu. unfold span_of. cbn [in_UID in_FirstSeen in_LastSeen in_Deleted].
  assert (Hin : forall x, x ∈ marks ++ [m] <-> x ∈ marks \/ x = m) by set_solver. setoid_rewrite Hin. split_and!.
  - case_bool_decide; [exists m|exists f]; auto.
  - case_bool_decide; [exists m|exists b]; auto.
  - intros x [Hx| ->] Hxu; [specialize (Hall x Hx Hxu)|specialize (Hall f Hf Hfu)]; repeat case_bool_decide; lia.
  - rewrite orb_true_iff, Hdel. split; [intros [(x & ? & ? & ?)|Hd]; eauto|]. intros (x & [?| ->] & ? & Hd); eauto.
Qed.

Lemma span_first marks m : (forall x, x ∈ marks -> im_uid x <> im_uid m) ->
  span_of (marks ++ [m]) (mkIncarnation (im_uid m) (im_ts m) (im_ts m) (im_deleted m)).
Proof.
  intros Hfresh. unfold span_of. cbn. assert (Hin : forall x, x ∈ marks ++ [m] <-> x ∈ marks \/ x = m) by set_solver.
  setoid_rewrite Hin. split_and!; [exists m; auto|exists m; auto| |].
  - intros x [Hx| ->] Hxu; [by apply Hfresh in Hx|lia].
  - split; [intros Hd; exists m; auto|]. intros (x & [Hx| ->] & Hxu & Hd); [by apply Hfresh in Hx|done].
Qed.

Lemma index_row_spec lines :
  let index := foldl index_row ∅ (map row_of lines) in
  (forall uid, is_Some (index !! uid) <-> uid ∈ map ln_UID lines) /\
  (forall uid s, index !! uid = Some s -> in_UID s = uid /\ span_of (map line_mark lines) s).
Proof.
  induction lines as [|l lines IH] using rev_ind; cbv zeta in *.
  { split; [|done]. intros uid. cbn. rewrite lookup_empty. split; [by intros [? ?]|by intros ?%elem_of_nil]. }
  rewrite map_app, foldl_app, !map_app. cbn [map foldl]. set (index := foldl index_row ∅ (map row_of lines)) in *.
  destruct IH as [Hkeys Hspans].
  assert (Hix : exists s, index_row index (row_of l) = <[ln_UID l := s]> index /\ in_UID s = ln_UID l /\
                  span_of (map line_mark lines ++ [line_mark l]) s).
  { unfold index_row. cbn [row_of row_Change line_change ch_UID ch_TS ch_EventType].
    destruct (index !! ln_UID l) as [got|] eqn:Eg; eexists; (split; [done|]).
    - destruct (Hspans _ _ Eg) as [Hu Hsp]. split; [done|]. by apply (span_again _ (line_mark l)).
    - split; [done|]. apply (span_first _ (line_mark l)). intros x (l' & -> & Hl')%list_elem_of_fmap E. cbn in E.
      assert (Hin : ln_UID l ∈ map ln_UID lines) by (rewrite <-E; by apply list_elem_of_fmap_2).
      apply Hkeys in Hin as [? ?]. congruence. }
  destruct Hix as (s0 & -> & Hu0 & Hsp0). split.
  - intros uid. rewrite elem_of_app, list_elem_of_singleton. destruct (decide (uid = ln_UID l)) as [->|Hne].
    + rewrite lookup_insert_eq. split; [by right|by eexists].
    + rewrite lookup_insert_ne by done. rewrite Hkeys. tauto.
  - intros uid s. destruct (decide (uid = ln_UID l)) as [->|Hne]; [rewrite lookup_insert_eq; by intros [= <-]|].
    rewrite lookup_insert_ne by done. intros [Hu Hsp]%Hspans. split; [done|]. apply span_other; [done|]. cbn. congruence.
Qed.

#[export] Instance seen_le_trans : Transitive seen_le.
Proof. intros a b c. unfold seen_le. lia. Qed.
#[export] Instance seen_le_total : Total seen_le.
Proof. intros a b. unfold seen_le. lia. Qed.

(** Incarnations agree with the reference: the archive's spans are the reference's, each
    once, whatever order it visits its index in, and both list them oldest first. *)
Theorem incarnations_agree_with_reference `{ObjectSource, FrameReader, MapOrderLaws} e ref from to stored spans scopes caps :
  askable e (or_ClusterID ref) from to -> holds_keys stored -> Forall (filed e (or_ClusterID ref)) stored ->
  ArchiveQueries.Incarnations e ref (Some from) (Some to) = Ok spans ->
  let all := concat (map key_lines stored) in
  Forall (fun l => retained caps (row_of l) = true) all ->
  exists answer, Reference.Incarnations (newReferenceEngine (mkHistory (map row_of all) scopes) caps) ref (Some from) (Some to) = Ok answer /\
    answer ≡ₚ spans /\ StronglySorted seen_le answer.
Proof.
  intros Ha Hs Hfiled Hi all Hret.
  destruct (incarnations_complete e ref from to stored spans Ha Hs Hfiled Hi) as (_ & Hnd & Huids & _ & Hspan). fold all in Huids, Hspan.
  set (lines := named_by (marks_scan ref from to) all) in *.
  unfold Reference.Incarnations. rewrite (bool_decide_eq_false_2 (Some from = None)) by done. rewrite andb_false_r. cbn [andb].
  rewrite (forRef_lines _ all) by (cbn; unfold retainedRows; by rewrite keep_all by (by apply Forall_map)).
  rewrite window_lines, filter_filter.
  replace (List.filter _ all) with lines by (unfold lines, named_by; apply List.filter_ext; intros l; cbn; apply andb_comm).
  destruct (index_row_spec lines) as [Hkeys Hentries]. set (index := foldl index_row ∅ (map row_of lines)) in *.
  eexists. split; [done|]. split.
  2: { apply (stable_sort_sorted seen_le). }
  rewrite (stable_sort_Permutation seen_le), map_order_visits.
  assert (Helem : forall s, s ∈ map snd (map_to_list index) <-> index !! in_UID s = Some s).
  { intros s. rewrite list_elem_of_fmap. split.
    - intros ([uid s'] & -> & Hm%elem_of_map_to_list). cbn. by destruct (Hentries _ _ Hm) as [-> _].
    - intros Hm. exists (in_UID s, s). split; [done|]. by apply elem_of_map_to_list. }
  apply NoDup_Permutation; [|by apply NoDup_fmap_1 in Hnd|].
  - apply (NoDup_fmap_1 in_UID). rewrite <-list_fmap_compose.
    rewrite (list_fmap_ext _ fst); [apply NoDup_fst_map_to_list|]. intros i [uid s] Hl. cbn.
    apply (list_elem_of_lookup_2) in Hl. apply elem_of_map_to_list in Hl. by apply Hentries in Hl as [? _].
  - intros s. rewrite Helem. split.
    + intros Hm. assert (Hu : in_UID s ∈ map in_UID spans) by (apply Huids, Hkeys; by exists s).
      apply list_elem_of_fmap in Hu as (t & Hst & Ht). destruct (Hentries _ _ Hm) as [_ Hsp].
      by rewrite (span_unique _ s t Hsp (Hspan t Ht)).
    + intros Hin. destruct (proj2 (Hkeys (in_UID s))) as [t Ht]; [apply Huids; by apply list_elem_of_fmap_2|].
      rewrite Ht. f_equal. destruct (Hentries _ _ Ht) as [Hut Hsp]. by apply (span_unique (map line_mark lines)); [|apply Hspan|].
Qed.

(** ** The iterator *)

Lemma drain_from fuel changes fault index cur : length changes - index < fuel ->
  let '(out, it) := drain fuel (mkIterator changes fault index cur None false) in
  out = match fault with
        | None => drop index changes
        | Some f => take (Z.to_nat (sf_AfterChanges f) - index) (drop index changes)
        end /\
  iterator_Err it = match fault with
                    | Some f => if bool_decide (sf_AfterChanges f <= Z.of_nat (Nat.max index (length changes)))%Z then Some (sf_Err f) else None
                    | None => None
                    end.
Proof.
  revert index cur. induction fuel as [|fuel IH]; intros index cur Hf; [lia|]. cbn [drain]. unfold iterator_Next. cbn [it_closed it_err it_fault it_index it_changes orb].
  change (bool_decide (None <> None)) with false. cbn [orb].
  destruct (match fault with Some f => _ | None => false end) eqn:Ef.
  - destruct fault as [f|]; [|done]. apply bool_decide_eq_true in Ef. cbn. replace (Z.to_nat (sf_AfterChanges f) - index) with 0 by lia.
    split; [done|]. rewrite bool_decide_eq_true_2; [done|]. lia.
  - destruct (changes !! index) as [c|] eqn:Ec.
    + specialize (IH (S index) (Some (copyChange c))). pose proof (lookup_lt_Some _ _ _ Ec) as Hlt. specialize (IH ltac:(lia)).
      destruct (drain fuel _) as [rest it]. cbn [iterator_Change it_cur]. destruct IH as [-> ->].
      rewrite (drop_S _ _ _ Ec). split; [|destruct fault; [|done]; by replace (Nat.max (S index) (length changes)) with (Nat.max index (length changes)) by lia].
      destruct c. cbn [copyChange]. destruct fault as [f|]; [|done]. apply bool_decide_eq_false in Ef.
      replace (Z.to_nat (sf_AfterChanges f) - index) with (S (Z.to_nat (sf_AfterChanges f) - S index)) by lia. done.
    + apply lookup_ge_None in Ec. rewrite (drop_ge changes index) by done. cbn. destruct fault as [f|]; [|done].
      apply bool_decide_eq_false in Ef. rewrite take_nil. split; [done|]. rewrite bool_decide_eq_false_2; [done|]. lia.
Qed.

(** A stream delivers everything it holds in order, or, broken, what precedes the break
    and then the failure: a broken stream never ends like a complete one. *)
Theorem iterator_delivers changes fault :
  let '(out, it) := drain (S (length changes)) (newSliceIterator changes fault) in
  match fault with
  | None => out = changes /\ iterator_Err it = None
  | Some f => out = take (Z.to_nat (sf_AfterChanges f)) changes /\
              (iterator_Err it = Some (sf_Err f) <-> (sf_AfterChanges f <= Z.of_nat (length changes))%Z)
  end /\ (iterator_Next (iterator_Close it)).2 = false.
Proof.
  pose proof (drain_from (S (length changes)) changes fault 0 None ltac:(lia)) as Hd. unfold newSliceIterator.
  destruct (drain _ _) as [out it]. destruct Hd as [-> He]. split; [|done]. rewrite He. clear He. destruct fault as [f|]; [|done].
  rewrite Nat.sub_0_r, drop_0, Nat.max_0_l. split; [done|]. case_bool_decide; by split.
Qed.
