(* ===== verification/Coldscan.v ===== *)
(** * Coldscan: the guard around a scan of the archive

    Models [src/internal/cli/coldscan/coldscan.go] with the exit codes of
    [src/internal/cli/exit] and the notices of [src/internal/cli/render] it writes: the
    estimate of a scan, the question a wide or unmeasured scan becomes, the progress line
    and the circuit breaker of [--max-objects]. Standard error is the list of texts
    written to it, and a write may fail; standard input is what is left to read. The
    engine's optional halves are an estimator and whether it reports progress. *)

From stdpp Require Import pretty.
From S2P Require Import Prelude Calendar Duration Render Archive ArchiveQueries Reference.

(** ** Errors and exit codes *)

(** The read plane's errors that [errors.Is] is asked about. *)
Inductive sentinel := NoCoverageErr | TimeBoundErr | CapabilityErr.

#[export] Instance sentinel_eq_dec : EqDecision sentinel.
Proof. solve_decision. Defined.

(** An [error]: its text, the code of the first [*exit.Error] of its chain, and the
    sentinels it wraps. *)
Record goError := mkGoError {
  er_text : string;
  er_Code : option Z;
  er_wraps : list sentinel;
}.

Definition is_error (s : sentinel) (e : goError) : bool := bool_decide (s ∈ er_wraps e).

Definition Success : Z := 0.
Definition RuntimeError : Z := 1.
Definition UsageError : Z := 2.
Definition NoCoverage : Z := 3.

(** [wrapped] holds the sentinels of the operand of [%w], if there is one. *)
Definition RuntimeErrorf (text : string) (wrapped : list sentinel) : goError := mkGoError text (Some RuntimeError) wrapped.

Definition CodeFor (err : option goError) : Z :=
  match err with
  | None => Success
  | Some e =>
      match er_Code e with
      | Some code => code
      | None => if is_error NoCoverageErr e then NoCoverage else RuntimeError
      end
  end.

(** ** Streams *)

(** [io_ErrOut] is the error a write of the text returns; [io_In] what can be read. *)
Record IOStreams := mkStreams {
  io_In : string;
  io_ErrOut : string -> option string;
}.

(** A command that writes to standard error: what it wrote, and its result. *)
Definition narrated (A : Type) : Type := list string * result goError A.

Definition WarningMarker : string := "!".
Definition ansiYellow : string := bytes [27; 91; 51; 51; 109]%Z.
Definition ansiReset : string := bytes [27; 91; 48; 109]%Z.

Definition paint (enabled : bool) (sequence text : string) : string :=
  if negb enabled || bool_decide (text = "") then text else sequence +:+ text +:+ ansiReset.

Definition notice_line (color : bool) (i : nat) (line : string) : string :=
  (match i with
   | O => WarningMarker +:+ " "
   | S _ => if bool_decide (line = "") then "" else spaces (String.length WarningMarker + 1)
   end) +:+ paint color ansiYellow line +:+ String newline "".

Definition renderNotices (notices : list string) (color : bool) : string :=
  of_runes (flat_map (fun text => imap (notice_line color) (split_on newline text)) notices).

Definition WriteNotices (streams : IOStreams) (notices : list string) (color : bool) : narrated unit :=
  if bool_decide (length notices = 0) then ([], Ok tt)
  else
    let text := renderNotices notices color in
    match io_ErrOut streams text with
    | Some err => ([], Err (mkGoError ("writing the document's notices: " +:+ err) None []))
    | None => ([text], Ok tt)
    end.

Definition WriteLine (streams : IOStreams) (line : string) : narrated unit :=
  let text := line +:+ String newline "" in
  match io_ErrOut streams text with
  | Some err => ([], Err (RuntimeErrorf ("writing output: " +:+ err) []))
  | None => ([text], Ok tt)
  end.

(** ** Figures *)

Fixpoint group_digits (i len : nat) (digits : string) : string :=
  match digits with
  | EmptyString => ""
  | String digit rest =>
      (if bool_decide (0 < i) && bool_decide ((len - i) mod 3 = 0) then "," else "") +:+
      String digit (group_digits (S i) len rest)
  end.

Definition formatCount (n : Z) : string :=
  let digits : string := pretty (Z.to_N (Z.abs n)) in
  (if bool_decide (n < 0)%Z then "-" else "") +:+ group_digits 0 (String.length digits) digits.

(** [a / b] to the nearest integer, ties to even. *)
Definition round_even (a b : Z) : Z :=
  let q := (a / b)%Z in
  let r := (2 * (a `mod` b))%Z in
  if (r <? b)%Z then q else if (b <? r)%Z then (q + 1)%Z else if Z.even q then q else (q + 1)%Z.

(** [float64(n)] for [n >= 0]: 53 significant bits. *)
Definition float64_of (n : Z) : Z :=
  if (n <? 2 ^ 53)%Z then n
  else let unit := (2 ^ (Z.log2 n - 52))%Z in (round_even n unit * unit)%Z.

Definition byteUnits : list (string * Z) := [("TiB", 2 ^ 40); ("GiB", 2 ^ 30); ("MiB", 2 ^ 20); ("KiB", 2 ^ 10)]%Z.

Definition formatBytes (n : Z) : string :=
  if bool_decide (n < 0)%Z then "0 B"
  else match List.find (fun unit => (unit.2 <=? float64_of n)%Z) byteUnits with
       | Some (suffix, scale) =>
           let tenths := round_even (10 * float64_of n) scale in
           (pretty (Z.to_N (tenths / 10)) : string) +:+ "." +:+ (pretty (Z.to_N (tenths `mod` 10)) : string) +:+ " " +:+ suffix
       | None => (pretty (Z.to_N n) : string) +:+ " B"
       end.

Definition DescribeSpan (d : Z) : string :=
  let day := (24 * hour)%Z in
  let count unit suffix := (pretty (Z.to_N (d / unit)) : string) +:+ suffix in
  if bool_decide (d <= 0)%Z then "0s"
  else if bool_decide (d `mod` (7 * day) = 0)%Z then count (7 * day)%Z "w"
  else if bool_decide (d `mod` day = 0)%Z then count day "d"
  else if bool_decide (d `mod` hour = 0)%Z then count hour "h"
  else Duration_String d.

Example figures :
  (map formatCount [0; 999; 1240; 12400; 1234567; -1000]%Z, map formatBytes [-1; 1023; 1024; 1536; 3328599655; 2 ^ 63 - 1]%Z,
   map DescribeSpan [0; 14 * 86400 * second; 90 * 86400 * second; 6 * hour; 90 * 60 * second]%Z) =
  (["0"; "999"; "1,240"; "12,400"; "1,234,567"; "-1,000"], ["0 B"; "1023 B"; "1.0 KiB"; "1.5 KiB"; "3.1 GiB"; "8388608.0 TiB"],
   ["0s"; "2w"; "90d"; "6h"; "1h30m0s"]).
Proof. vm_compute. reflexivity. Qed.

(** ** The estimate and the question *)

Definition FlagMaxObjects : string := "max-objects".
Definition FlagAssumeYes : string := "yes".

Definition DefaultWindow : Z := 24 * hour.
Definition ConfirmWindow : Z := 7 * 24 * hour.

Record Options := mkScanOptions {
  op_AssumeYes : bool;
  op_MaxObjects : Z;
  op_Interactive : bool;
  op_ShowProgress : bool;
  op_Color : bool;
}.

(** The halves of the engine a guard asks for: what it declares, its estimator if it has
    one, and whether it reports progress. *)
Record scanEngine := mkScanEngine {
  sn_Capabilities : Capabilities;
  sn_EstimateScan : option (string -> option Z -> option Z -> result goError ScanEstimate);
  sn_reports : bool;
}.

Record scanEstimate := mkScanEstimate {
  sz_figures : ScanEstimate;
  sz_known : bool;
  sz_unmeasured : bool;
}.

Definition zero_estimate : ScanEstimate := mkEstimate 0 0 0.

Definition writeNotice (streams : IOStreams) (opts : Options) (text : string) : narrated unit :=
  WriteNotices streams [text] (op_Color opts).

Definition estimateColdScan (engine : scanEngine) (clusterID : string) (from to : option Z) (opts : Options)
    (streams : IOStreams) : list string * scanEstimate :=
  match sn_EstimateScan engine with
  | None => ([], mkScanEstimate zero_estimate false false)
  | Some estimate =>
      match estimate clusterID from to with
      | Err err =>
          ((writeNotice streams opts ("the size of this scan could not be estimated (" +:+ er_text err +:+ "), so it is unknown")).1,
           mkScanEstimate zero_estimate false true)
      | Ok figures => ([], mkScanEstimate figures true false)
      end
  end.

Definition measurableWindow (from to : option Z) : bool :=
  match from, to with Some f, Some t => bool_decide (f < t)%Z | _, _ => false end.

(** The width of a window with both ends. *)
Definition window_width (from to : option Z) : Z :=
  match from, to with Some f, Some t => time_sub t f | _, _ => 0%Z end.

Definition describeScanSpan (from to : option Z) : string :=
  if negb (measurableWindow from to) then "" else " for " +:+ DescribeSpan (window_width from to).

Definition describeScanWidth (from to : option Z) : string :=
  if negb (measurableWindow from to) then "an unbounded window" else DescribeSpan (window_width from to).

Definition needsConfirmation (capabilities : Capabilities) (size : scanEstimate) (from to : option Z) : bool :=
  if negb (cap_TimeBoundRequired capabilities) then false
  else if sz_unmeasured size then true
  else match from, to with
       | Some f, Some t => bool_decide (ConfirmWindow < time_sub t f)%Z
       | _, _ => true
       end.

Definition describeEstimate (size : scanEstimate) : string :=
  if negb (sz_known size) then "an unmeasured number of objects"
  else "~" +:+ formatCount (se_Objects (sz_figures size)) +:+ " objects, ~" +:+ formatBytes (se_Bytes (sz_figures size)).

Definition describeConfirmReason (size : scanEstimate) (capabilities : Capabilities) (from to : option Z) : string :=
  if sz_unmeasured size then
    "its size could not be determined against the " +:+ cap_Backend capabilities +:+ " backend, which has no index"
  else describeScanWidth from to +:+ " is wider than " +:+ DescribeSpan ConfirmWindow +:+ " against the " +:+
       cap_Backend capabilities +:+ " backend, which has no index".

Definition dash : string := bytes [226; 128; 148]%Z.

Definition confirmPrompt (size : scanEstimate) : string :=
  if sz_unmeasured size then
    describeEstimate size +:+ ", because its size could not be determined " +:+ dash +:+ " continue? [y/N] "
  else describeEstimate size +:+ " " +:+ dash +:+ " continue? [y/N] ".

Definition assumedReason (opts : Options) : string :=
  if op_AssumeYes opts then "Confirmed by --" +:+ FlagAssumeYes +:+ "."
  else "Not a terminal, so the confirmation was assumed.".

(** [ReadString] up to a newline: what was read, and whether the input ended first. *)
Fixpoint read_line (s : string) : string * bool :=
  match s with
  | EmptyString => ("", true)
  | String a rest =>
      if bool_decide (a = newline) then (String a "", false)
      else let '(line, ended) := read_line rest in (String a line, ended)
  end.

Definition lower_byte (a : Ascii.ascii) : Ascii.ascii :=
  if in_range 65 90 a then Ascii.ascii_of_N (Ascii.N_of_ascii a + 32) else a.

(** [strings.ToLower], on the bytes of ASCII; no other letter has [y], [e] or [s] as its lower case. *)
Fixpoint to_lower (s : string) : string :=
  match s with EmptyString => "" | String a rest => String (lower_byte a) (to_lower rest) end.

Fixpoint drop_spaces (l : list string) : list string :=
  match l with [] => [] | span :: rest => if is_space span then drop_spaces rest else l end.

(** [strings.TrimSpace]. *)
Definition TrimSpace (s : string) : string := of_runes (rev (drop_spaces (rev (drop_spaces (spans s))))).

Definition affirmative (line : string) : bool := bool_decide (to_lower (TrimSpace line) ∈ ["y"; "yes"]).

Definition askConfirmation (streams : IOStreams) (prompt : string) : narrated bool :=
  match io_ErrOut streams prompt with
  | Some err => ([], Err (RuntimeErrorf ("asking for confirmation: " +:+ err) []))
  | None =>
      let '(line, ended) := read_line (io_In streams) in
      if ended && bool_decide (line = "") then
        let '(written, r) := WriteLine streams "" in
        (prompt :: written, match r with Err err => Err err | Ok _ => Ok false end)
      else ([prompt], Ok (affirmative line))
  end.

Definition confirmColdScan (size : scanEstimate) (capabilities : Capabilities) (from to : option Z) (opts : Options)
    (streams : IOStreams) : narrated unit :=
  let figures := describeEstimate size in
  if negb (needsConfirmation capabilities size from to) then
    if negb (sz_known size) then ([], Ok tt)
    else writeNotice streams opts (figures +:+ " to scan" +:+ describeScanSpan from to +:+ ": the " +:+
           cap_Backend capabilities +:+ " backend has no index, so this window is the work")
  else if op_AssumeYes opts || negb (op_Interactive opts) then
    writeNotice streams opts (figures +:+ " to scan: " +:+ describeConfirmReason size capabilities from to +:+ ". " +:+ assumedReason opts)
  else
    let '(written, r) := askConfirmation streams (confirmPrompt size) in
    (written,
     match r with
     | Err err => Err err
     | Ok true => Ok tt
     | Ok false => Err (RuntimeErrorf ("stopped at the confirmation: nothing was read. Narrow the window with --since, cap the work with --"
         +:+ FlagMaxObjects +:+ ", or pass --" +:+ FlagAssumeYes +:+ " to skip this question") [])
     end).

(** ** The monitor *)

Record scanLimitError := mkScanLimit { sl_limit : Z; sl_scanned : Z }.

Definition scanLimit_Error (e : scanLimitError) : string :=
  "the scan reached " +:+ formatCount (sl_scanned e) +:+ " objects, past the --" +:+ FlagMaxObjects +:+ "=" +:+
  (pretty (sl_limit e) : string) +:+ " circuit breaker, and was stopped before it had read the whole window; narrow it with --since, or raise --"
  +:+ FlagMaxObjects.

Record ScanProgress := mkProgress { pg_Objects : Z; pg_Bytes : Z }.

(** The monitor with what it wrote, and [mo_cause]: the cause its context was cancelled
    with, which the first cancellation sets. *)
Record scanMonitor := mkMonitor {
  mo_paint : bool;
  mo_total : ScanEstimate;
  mo_known : bool;
  mo_limit : Z;
  mo_lastAt : Z;
  mo_lastLen : nat;
  mo_tripped : bool;
  mo_unpainted : bool;
  mo_out : list string;
  mo_cause : option scanLimitError;
}.

Definition progressInterval : Z := 100 * millisecond.

Definition line (m : scanMonitor) (progress : ScanProgress) : string :=
  let scanned := formatCount (pg_Objects progress) in
  let scanned := if mo_known m then scanned +:+ "/" +:+ formatCount (se_Objects (mo_total m)) else scanned in
  "scanning " +:+ scanned +:+ " objects, " +:+ formatBytes (pg_Bytes progress) +:+ " read".

Definition return_ : string := String carriage "".

Definition emit (text : string) (len : nat) (m : scanMonitor) : scanMonitor :=
  mkMonitor (mo_paint m) (mo_total m) (mo_known m) (mo_limit m) (mo_lastAt m) len (mo_tripped m) (mo_unpainted m)
    (mo_out m ++ [text]) (mo_cause m).

Definition write_text (text : string) (m : scanMonitor) : scanMonitor :=
  emit (return_ +:+ text +:+ spaces (mo_lastLen m - String.length text) +:+ return_) (String.length text) m.

Definition erase (m : scanMonitor) : scanMonitor :=
  if bool_decide (mo_lastLen m = 0) then m else emit (return_ +:+ spaces (mo_lastLen m) +:+ return_) 0 m.

Definition trip (scanned : Z) (m : scanMonitor) : scanMonitor :=
  mkMonitor (mo_paint m) (mo_total m) (mo_known m) (mo_limit m) (mo_lastAt m) (mo_lastLen m) true (mo_unpainted m) (mo_out m)
    (match mo_cause m with Some cause => Some cause | None => Some (mkScanLimit (mo_limit m) scanned) end).

Definition repaint (now : Z) (m : scanMonitor) : scanMonitor :=
  mkMonitor (mo_paint m) (mo_total m) (mo_known m) (mo_limit m) now (mo_lastLen m) (mo_tripped m) false (mo_out m) (mo_cause m).

(** One call of the callback, at [now]. *)
Definition report (m : scanMonitor) (now : Z) (progress : ScanProgress) : scanMonitor :=
  if bool_decide (0 < mo_limit m)%Z && negb (mo_tripped m) && bool_decide (mo_limit m < pg_Objects progress)%Z then
    erase (trip (pg_Objects progress) m)
  else if negb (mo_paint m) || mo_tripped m then m
  else if mo_unpainted m || bool_decide (progressInterval <= time_sub now (mo_lastAt m))%Z then
    write_text (line m progress) (repaint now m)
  else m.

Definition reports (m : scanMonitor) (calls : list (Z * ScanProgress)) : scanMonitor :=
  foldl (fun m call => report m call.1 call.2) m calls.

(** A scan: its monitor when the callback is installed. Without one the context is the
    caller's. *)
Definition Scan : Type := option scanMonitor.

(** [Stopped] of the scan's context, after the calls of its callback. *)
Definition Stopped (scan : Scan) (calls : list (Z * ScanProgress)) : option scanLimitError :=
  match scan with Some m => mo_cause (reports m calls) | None => None end.

Definition clear (m : scanMonitor) : scanMonitor := erase m.

(** The teardown: the monitor with its line removed, and the scan with nothing left to
    tear down. *)
Definition Stop (scan : Scan) : option scanMonitor * Scan := (clear <$> scan, None).

Definition Begin (engine : scanEngine) (opts : Options) (clusterID : string) (from to : option Z) (now : Z)
    (streams : IOStreams) : narrated Scan :=
  let capabilities := sn_Capabilities engine in
  if cap_PointQuery capabilities then ([], Ok None)
  else
    let '(said, size) := estimateColdScan engine clusterID from to opts streams in
    let '(asked, r) := confirmColdScan size capabilities from to opts streams in
    (said ++ asked,
     match r with
     | Err err => Err err
     | Ok _ =>
         if negb (sn_reports engine) || (negb (op_ShowProgress opts) && bool_decide (op_MaxObjects opts <= 0)%Z) then Ok None
         else Ok (Some (mkMonitor (op_ShowProgress opts) (sz_figures size) (sz_known size) (op_MaxObjects opts) now 0 false true [] None))
     end).

(** ** Consent *)

(** Why a scan is a question: its window has no bound, is wider than
    [ConfirmWindow], or an estimator was asked and could not answer. *)
Definition is_decision (engine : scanEngine) (clusterID : string) (from to : option Z) : Prop :=
  (exists estimate err, sn_EstimateScan engine = Some estimate /\ estimate clusterID from to = Err err) \/
  from = None \/ to = None \/ (exists f t, from = Some f /\ to = Some t /\ (ConfirmWindow < time_sub t f)%Z).

Lemma decision_needs_confirmation engine clusterID from to opts streams :
  cap_TimeBoundRequired (sn_Capabilities engine) = true ->
  needsConfirmation (sn_Capabilities engine) (estimateColdScan engine clusterID from to opts streams).2 from to = true <->
  is_decision engine clusterID from to.
Proof.
  intros Hb. unfold needsConfirmation, estimateColdScan, is_decision. rewrite Hb. cbn. generalize ConfirmWindow. intros bound.
  split.
  - destruct (sn_EstimateScan engine) as [estimate|]; [destruct (estimate clusterID from to) eqn:Hest|]; cbn; [|by left; eauto|];
      destruct from as [f|], to as [t|]; rewrite ?bool_decide_eq_true; intros Hw; right; try (by left); right; try (by left); right; eauto.
  - intros [(estimate & err & -> & ->)|Hw]; [done|].
    destruct (sn_EstimateScan engine) as [estimate|]; [destruct (estimate clusterID from to)|]; cbn; [|done|];
      destruct Hw as [->|[->|(f & t & -> & -> & Hw)]]; rewrite ?bool_decide_eq_true; try done; by destruct from.
Qed.

Lemma confirmed_or_refused size caps from to opts streams written :
  confirmColdScan size caps from to opts streams = (written, Ok tt) ->
  needsConfirmation caps size from to = true ->
  written <> [] /\ (op_AssumeYes opts = true \/ op_Interactive opts = false \/ affirmative (read_line (io_In streams)).1 = true).
Proof.
  unfold confirmColdScan. intros E Hn. rewrite Hn in E. cbn in E.
  destruct (op_AssumeYes opts || negb (op_Interactive opts)) eqn:Ha.
  - split; [|destruct (op_AssumeYes opts), (op_Interactive opts); naive_solver].
    revert E. unfold writeNotice, WriteNotices. cbn. destruct (io_ErrOut streams _); naive_solver.
  - revert E. unfold askConfirmation. destruct (io_ErrOut streams _); [naive_solver|].
    destruct (read_line (io_In streams)) as [text ended]. destruct (ended && _).
    + destruct (WriteLine streams "") as [? [[]|]]; naive_solver.
    + destruct (affirmative text) eqn:Hy; naive_solver.
Qed.

(** Against a backend that must scan and needs a bound, a scan that is a question runs
    only when [--yes] was given, nobody can be asked, or the answer read was a yes; and
    what it costs, or that nobody knows, has been written to standard error before. *)
Theorem scan_needs_consent engine opts clusterID from to now streams written scan :
  Begin engine opts clusterID from to now streams = (written, Ok scan) ->
  cap_PointQuery (sn_Capabilities engine) = false -> cap_TimeBoundRequired (sn_Capabilities engine) = true ->
  is_decision engine clusterID from to ->
  written <> [] /\ (op_AssumeYes opts = true \/ op_Interactive opts = false \/ affirmative (read_line (io_In streams)).1 = true).
Proof.
  unfold Begin. intros E Hp Hb Hd. rewrite Hp in E.
  apply (decision_needs_confirmation engine clusterID from to opts streams Hb) in Hd.
  destruct (estimateColdScan _ _ _ _ _ _) as [said size]. cbn in Hd.
  destruct (confirmColdScan _ _ _ _ _ _) as [asked r] eqn:Hc. destruct r as [[]|]; [|done].
  destruct (confirmed_or_refused _ _ _ _ _ _ _ Hc Hd) as [Hw Hyes]. split; [|done].
  intros ->. injection E as E _. by apply app_eq_nil in E as [_ ->].
Qed.

(** ** The circuit breaker *)

Definition exceeds (limit : Z) (call : Z * ScanProgress) : bool := bool_decide (limit < pg_Objects call.2)%Z.

Lemma tripped_reports m calls : mo_tripped m = true -> reports m calls = m.
Proof.
  intros Ht. induction calls as [|[now p] calls IH]; [done|]. cbn. unfold report at 2.
  rewrite Ht, andb_false_r, orb_true_r. done.
Qed.

Lemma erase_cause m : mo_cause (erase m) = mo_cause m.
Proof. unfold erase. by case_bool_decide. Qed.
Lemma erase_tripped m : mo_tripped (erase m) = mo_tripped m.
Proof. unfold erase. by case_bool_decide. Qed.

(** A monitor that has not tripped and whose breaker is set. *)
Record armed (limit : Z) (m : scanMonitor) : Prop := {
  armed_limit : mo_limit m = limit;
  armed_positive : (0 < limit)%Z;
  armed_untripped : mo_tripped m = false;
  armed_uncancelled : mo_cause m = None;
}.

Lemma report_within limit m now p : armed limit m -> exceeds limit (now, p) = false -> armed limit (report m now p).
Proof.
  intros [<- Hp Ht Hc] Hx. unfold exceeds in Hx. cbn in Hx. unfold report. rewrite Hx, andb_false_r.
  destruct (negb (mo_paint m) || mo_tripped m); [done|]. by destruct (_ || _).
Qed.

Lemma report_excess limit m now p :
  armed limit m -> exceeds limit (now, p) = true ->
  mo_tripped (report m now p) = true /\ mo_cause (report m now p) = Some (mkScanLimit limit (pg_Objects p)).
Proof.
  intros [<- Hp Ht Hc] Hx. unfold exceeds in Hx. cbn in Hx. unfold report.
  rewrite Hx, Ht, (bool_decide_true _ Hp). cbn. rewrite erase_tripped, erase_cause. cbn. by rewrite Hc.
Qed.

(** The context is cancelled by the first report past the bound, with that report's
    count, and by nothing else; afterwards the monitor does nothing more. *)
Theorem breaker_trips_on_first_excess limit m calls :
  armed limit m ->
  mo_cause (reports m calls) = (fun call => mkScanLimit limit (pg_Objects call.2)) <$> List.find (exceeds limit) calls /\
  forall before call after, calls = before ++ call :: after -> exceeds limit call = true ->
    List.find (exceeds limit) before = None -> reports m calls = report (reports m before) call.1 call.2.
Proof.
  intros Hm. revert m Hm. induction calls as [|[now p] calls IH]; intros m Hm.
  - split; [by destruct Hm|]. by intros [] ? ? [=].
  - cbn [List.find reports foldl fst snd]. destruct (exceeds limit (now, p)) eqn:Hx.
    + destruct (report_excess limit m now p Hm Hx) as [Ht Hc].
      change (foldl _ (report m now p) calls) with (reports (report m now p) calls). rewrite tripped_reports by done.
      split; [by rewrite Hc|]. intros [|c before] call after [= <- Eq] Hcall Hbefore; [done|].
      cbn in Hbefore. by rewrite Hx in Hbefore.
    + destruct (IH _ (report_within limit m now p Hm Hx)) as [Hcause Hsplit]. split; [done|].
      intros [|c before] call after [= <- Eq] Hcall Hbefore; [congruence|].
      cbn in Hbefore. rewrite Hx in Hbefore. exact (Hsplit before call after Eq Hcall Hbefore).
Qed.

Module ColdscanSamples.
Definition archive_like : scanEngine :=
  mkScanEngine engine_Capabilities (Some (fun _ _ _ => Ok (mkEstimate 1240 3328599655 90))) true.
Definition terminal (typed : string) : IOStreams := mkStreams typed (fun _ => None).
Definition asking : Options := mkScanOptions false 2 true true false.
Definition ninety_days : Z := 90 * 24 * hour.

(** A wide window asked for on a terminal: "Yes" starts the scan, a bare newline does not. *)
Example wide_window_asks :
  (Begin archive_like asking "c1" (Some 0%Z) (Some ninety_days) 0 (terminal ("Yes" +:+ String newline ""))).2 =
    Ok (Some (mkMonitor true (mkEstimate 1240 3328599655 90) true 2 0 0 false true [] None)) /\
  CodeFor (match (Begin archive_like asking "c1" (Some 0%Z) (Some ninety_days) 0 (terminal (String newline ""))).2 with
           | Err err => Some err | Ok _ => None end) = RuntimeError.
Proof. split; vm_compute; reflexivity. Qed.

Lemma scan_needs_consent_witness :
  (Begin archive_like asking "c1" (Some 0%Z) (Some ninety_days) 0 (terminal "y")).1 <> [] /\
  (op_AssumeYes asking = true \/ op_Interactive asking = false \/ affirmative (read_line "y").1 = true).
Proof.
  eapply (scan_needs_consent archive_like asking "c1" (Some 0%Z) (Some ninety_days) 0%Z (terminal "y")).
  - vm_compute. reflexivity.
  - vm_compute. reflexivity.
  - vm_compute. reflexivity.
  - right. right. right. exists 0%Z, ninety_days. split; [reflexivity|]. split; [reflexivity|]. vm_compute. reflexivity.
Defined.

Definition watching : scanMonitor := mkMonitor true (mkEstimate 3 10 1) true 2 0 0 false true [] None.
Definition calls : list (Z * ScanProgress) := [(0, mkProgress 1 4); (1, mkProgress 3 9); (2, mkProgress 4 10)]%Z.

Lemma breaker_trips_on_first_excess_witness :
  mo_cause (reports watching calls) = Some (mkScanLimit 2 3).
Proof. apply (breaker_trips_on_first_excess 2 watching calls). by constructor. Defined.

Example breaker_erases_its_line :
  mo_out (reports watching calls) =
  [return_ +:+ "scanning 1/3 objects, 4 B read" +:+ return_; return_ +:+ spaces 30 +:+ return_].
Proof. vm_compute. reflexivity. Qed.
End ColdscanSamples.
