(* ===== verification/Gather.v ===== *)
(** * Gather: one question asked of a read plane, and what its silence means

    Models [src/internal/cli/gather.go] with the parts of [timeline.go], [incarnation.go],
    [coverage.go], [structured.go], [owned.go] and [options/window.go] it calls: the window a
    backend insists on, the incarnation shown, the ownership walk, the query, the replay
    of replaced values, the display order, and every notice that qualifies the answer, down to
    the finding that nothing was ever watching. The read plane is the record
    [QueryEngine]: its answers are functions of the questions, its optional halves are
    options. Notices are texts and the absent one is empty; an unset instant is [None]; the
    clock and the calls of the progress callback are arguments. *)

From stdpp Require Import pretty.
From S2P Require Import Prelude Calendar GoJson Diff QueryFilter ScopeLog Replay Pointer RedactParse Render Archive ArchiveState Blame Ownership ArchiveQueries Reference Coldscan.

(** ** The read plane *)

(** What an iterator yields, and how it ends. *)
Record changeIterator := mkIterator {
  it_Changes : list Change;
  it_Err : option goError;
  it_Close : option goError;
}.

Record QueryEngine := mkReadPlane {
  qe_Capabilities : Capabilities;
  qe_Timeline : TimelineQuery -> result goError changeIterator;
  qe_StateAt : ObjectRef -> Z -> string -> result stateFailure Reconstruction;
  qe_Incarnations : ObjectRef -> option Z -> option Z -> result goError (list Incarnation);
  qe_Coverage : ScopeQuery -> result goError (list ScopeInterval);
  qe_Ownership : option (OwnershipQuery -> result goError (list OwnedObject));
  qe_EstimateScan : option (string -> option Z -> option Z -> result goError ScanEstimate);
  qe_reports : bool;
}.

Definition scan_half (engine : QueryEngine) : scanEngine :=
  mkScanEngine (qe_Capabilities engine) (qe_EstimateScan engine) (qe_reports engine).

Definition collectChanges (engine : QueryEngine) (q : TimelineQuery) : result goError (list Change) :=
  match qe_Timeline engine q with
  | Err err => Err err
  | Ok iterator =>
      match it_Err iterator with
      | Some err => Err err
      | None =>
          match it_Close iterator with
          | Some err => Err (mkGoError ("releasing the change stream: " +:+ er_text err) (er_Code err) (er_wraps err))
          | None => Ok (it_Changes iterator)
          end
      end
  end.

(** ** The request *)

Record TimelineRequest := mkRequest {
  rq_Ref : ObjectRef;
  rq_From : option Z;
  rq_To : option Z;
  rq_Now : option Z;
  rq_UID : string;
  rq_AllIncarnations : bool;
  rq_AllIncarnationsOffered : bool;
  rq_Actors : list string;
  rq_ExcludeActors : list string;
  rq_FieldPaths : list string;
  rq_DisplayFieldPaths : list string;
  rq_NoPriorValues : bool;
  rq_Limit : Z;
  rq_Reverse : bool;
  rq_WithEvents : bool;
  rq_EventsOnly : bool;
  rq_Owned : bool;
  rq_Subjects : list ObjectRef;
  rq_Scan : Options;
}.

Definition with_subjects (subjects : list ObjectRef) (r : TimelineRequest) : TimelineRequest :=
  mkRequest (rq_Ref r) (rq_From r) (rq_To r) (rq_Now r) (rq_UID r) (rq_AllIncarnations r) (rq_AllIncarnationsOffered r)
    (rq_Actors r) (rq_ExcludeActors r) (rq_FieldPaths r) (rq_DisplayFieldPaths r) (rq_NoPriorValues r) (rq_Limit r)
    (rq_Reverse r) (rq_WithEvents r) (rq_EventsOnly r) (rq_Owned r) subjects (rq_Scan r).

Definition some {A} (l : list A) : bool := bool_decide (0 < length l).

Definition filtered (r : TimelineRequest) : bool :=
  if rq_EventsOnly r then false else some (rq_Actors r) || some (rq_ExcludeActors r) || some (rq_FieldPaths r).

Definition includeEvents (r : TimelineRequest) : bool := rq_WithEvents r || rq_EventsOnly r || rq_Owned r.

Definition withEventsFlag : string := "--with-events".
Definition eventsOnlyFlag : string := "--events-only".
Definition ownedFlag : string := "--owned".
Definition timelineCommand : string := "timeline".
Definition scopesCommand : string := "scopes".

Definition eventsFlag (r : TimelineRequest) : string :=
  if rq_EventsOnly r then eventsOnlyFlag else if rq_WithEvents r then withEventsFlag else ownedFlag.

Definition describeKind (ref : ObjectRef) : string :=
  if bool_decide (or_APIGroup ref = "") then or_Kind ref else or_APIGroup ref +:+ "/" +:+ or_Kind ref.

Definition describeObject (ref : ObjectRef) : string :=
  if bool_decide (or_Namespace ref = "") then or_Name ref else or_Namespace ref +:+ "/" +:+ or_Name ref.

Definition DescribeWindow (from to : option Z) (zone : Zone) : string :=
  match from, to with
  | None, None => "all recorded history"
  | None, Some t => "everything up to " +:+ Instant zone t
  | Some f, None => Instant zone f +:+ " to now"
  | Some f, Some t => Instant zone f +:+ " to " +:+ Instant zone t
  end.

Definition appendNotice (notices : list string) (notice : string) : list string :=
  if bool_decide (notice = "") then notices else notices ++ [notice].

Definition joinClauses (parts : list string) : string :=
  match parts with
  | [] => "the filter in force"
  | [part] => part
  | _ => join ", " (removelast parts) +:+ " and " +:+ List.last parts ""
  end.

(** The flags of the predicates in force, with their values. *)
Definition predicate_parts (r : TimelineRequest) : list string :=
  (if some (rq_Actors r) then ["--actor " +:+ join ", " (rq_Actors r)] else []) ++
  (if some (rq_ExcludeActors r) then ["--exclude-actor " +:+ join ", " (rq_ExcludeActors r)] else []) ++
  (if some (rq_FieldPaths r) then ["--field " +:+ join ", " (rq_FieldPaths r)] else []).

Definition describePredicates (r : TimelineRequest) : string := joinClauses (predicate_parts r).

Definition inertPredicateNotice (r : TimelineRequest) : string :=
  if negb (rq_EventsOnly r) then ""
  else
    let parts := predicate_parts r ++ (if rq_AllIncarnations r then ["--all-incarnations"] else []) in
    if bool_decide (length parts = 0) then ""
    else joinClauses parts +:+ " narrows the object's own changes, which " +:+ eventsOnlyFlag +:+
      " excludes: this answer holds Kubernetes Events and nothing else, an Event carries no patch, and the actors recorded on one are the field managers of the Event rather than of whoever changed the subject. Nothing here was filtered by it. `"
      +:+ timelineCommand +:+ "` without " +:+ eventsOnlyFlag +:+ " answers the same question about the object's history".

(** The window, completed for a backend that requires one; [clock] is [time.Now]. *)
Definition timelineBounds (r : TimelineRequest) (capabilities : Capabilities) (zone : Zone) (clock : Z)
    : option Z * option Z * string :=
  let from := rq_From r in
  let to := rq_To r in
  let now := default clock (rq_Now r) in
  let completed from to := (from, to,
    "the " +:+ cap_Backend capabilities +:+ " backend needs both ends of a window, so this one was completed to " +:+
    DescribeWindow from to zone +:+ "; pass --since and --until to set it yourself") in
  if negb (cap_TimeBoundRequired capabilities) then (from, to, "")
  else match from, to with
       | Some _, Some _ => (from, to, "")
       | None, None =>
           let from := Some (now - DefaultWindow)%Z in
           let to := Some now in
           (from, to, "the " +:+ cap_Backend capabilities +:+ " backend cannot answer an unbounded question, so the window defaults to " +:+
                      DescribeWindow from to zone +:+ "; pass --since to widen it")
       | None, Some t => completed (Some (t - DefaultWindow)%Z) to
       | Some _, None => completed from (Some now)
       end.

(** ** The incarnation *)

Record incarnationChoice := mkChoice {
  ic_uid : string;
  ic_pinned : string;
  ic_listed : list string;
}.

Definition pinnedUID (r : TimelineRequest) : string := if rq_AllIncarnations r then "" else rq_UID r.

Definition describeIncarnationFailure (err : goError) : string :=
  if is_error CapabilityErr err then
    "this backend cannot list incarnations, so if this name has belonged to more than one object, the others are not named here"
  else "the incarnations of this name could not be listed (" +:+ er_text err +:+
       "), so the timeline below is whichever one the backend chose".

(** The loop's variables: [newest], [first] and [last]. *)
Definition newer_incarnation (acc : string * Z * Z) (i : Incarnation) : string * Z * Z :=
  let '(newest, first, last) := acc in
  if bool_decide (newest = "") || bool_decide (first < in_FirstSeen i)%Z ||
     (bool_decide (in_FirstSeen i = first) && bool_decide (last < in_LastSeen i)%Z)
  then (in_UID i, in_FirstSeen i, in_LastSeen i) else acc.

Definition newestUID (incarnations : list Incarnation) : string := (foldl newer_incarnation ("", 0%Z, 0%Z) incarnations).1.1.

Definition pinnedNotices (r : TimelineRequest) (uids : list string) : list string :=
  if bool_decide (length uids = 0) || bool_decide (rq_UID r ∈ uids) then []
  else ["no changes are recorded for uid " +:+ rq_UID r +:+ " in this window; the incarnations that are here are " +:+ join ", " uids].

Definition incarnationRemedy (r : TimelineRequest) : string :=
  if rq_AllIncarnationsOffered r then "Pass --all-incarnations to see them all, or --uid to pin one"
  else "Pass --uid to pin one, or `" +:+ timelineCommand +:+ " --all-incarnations` to see them all".

Definition pluralIncarnations (count : nat) : string :=
  if bool_decide (count = 2) then "2 incarnations" else Itoa count +:+ " incarnations".

Definition otherIncarnationNotices (r : TimelineRequest) (incarnations : list Incarnation) (newest : string) : list string :=
  if bool_decide (length incarnations < 2) then []
  else [describeObject (rq_Ref r) +:+ " has had " +:+ pluralIncarnations (length incarnations) +:+
        " in this window; showing the newest (" +:+ newest +:+ "). " +:+ incarnationRemedy r].

Definition selectIncarnation (engine : QueryEngine) (r : TimelineRequest) (from to : option Z) : incarnationChoice * list string :=
  match qe_Incarnations engine (rq_Ref r) from to with
  | Err err => (mkChoice (rq_UID r) (pinnedUID r) [], [describeIncarnationFailure err])
  | Ok incarnations =>
      let uids := map in_UID incarnations in
      if negb (bool_decide (rq_UID r = "")) then (mkChoice (rq_UID r) (rq_UID r) [], pinnedNotices r uids)
      else
        let newest := newestUID incarnations in
        if rq_AllIncarnations r then (mkChoice newest "" uids, [])
        else (mkChoice newest newest [], otherIncarnationNotices r incarnations newest)
  end.

Definition chooseIncarnation (engine : QueryEngine) (r : TimelineRequest) (from to : option Z) : incarnationChoice * list string :=
  if rq_EventsOnly r then (mkChoice (rq_UID r) (rq_UID r) [], []) else selectIncarnation engine r from to.

Definition is_commentary (row : TimelineRow) : bool := bool_decide (ch_EventType (tr_Change row) = EventKubernetes).

Definition distinctUIDs (rows : list TimelineRow) : list string :=
  foldl (fun uids row =>
    if is_commentary row then uids
    else if bool_decide (ch_UID (tr_Change row) ∈ uids) then uids else uids ++ [ch_UID (tr_Change row)]) [] rows.

Fixpoint firstObjectUID (rows : list TimelineRow) : string :=
  match rows with
  | [] => ""
  | row :: rest => if is_commentary row then firstObjectUID rest else ch_UID (tr_Change row)
  end.

(** ** The queries *)

Definition timelineQuery (r : TimelineRequest) (selection : incarnationChoice) (from to : option Z) : TimelineQuery :=
  mkTimelineQuery (rq_Ref r) from to (ic_pinned selection) (rq_AllIncarnations r) (rq_Actors r) (rq_ExcludeActors r)
    (rq_FieldPaths r) (rq_Limit r) true (includeEvents r) (rq_EventsOnly r) (rq_Subjects r).

Definition scopeQuery (r : TimelineRequest) (from to : option Z) : ScopeQuery :=
  mkScopeQuery (or_ClusterID (rq_Ref r)) (or_APIGroup (rq_Ref r)) (or_Kind (rq_Ref r)) (or_Namespace (rq_Ref r)) from to.

(** The query without its predicates, its Events and its subjects, limited to one row. *)
Definition probe (q : TimelineQuery) : TimelineQuery :=
  mkTimelineQuery (tq_Ref q) (tq_From q) (tq_To q) (tq_UID q) (tq_AllIncarnations q) [] [] [] 1 (tq_Reverse q) false false [].

Definition anyChangeInWindow (engine : QueryEngine) (r : TimelineRequest) (selection : incarnationChoice) (from to : option Z)
    : result goError bool :=
  match collectChanges engine (probe (timelineQuery r selection from to)) with
  | Err err => Err err
  | Ok changes => Ok (some changes)
  end.

Definition timelineQueryError (stopped : option scanLimitError) (r : TimelineRequest) (err : goError) : goError :=
  let prefix := "reading the timeline of " +:+ describeObject (rq_Ref r) +:+ ": " in
  match stopped with
  | Some limit => RuntimeErrorf (prefix +:+ scanLimit_Error limit) []
  | None =>
      if is_error TimeBoundErr err then
        RuntimeErrorf (er_text err +:+ "; pass --since (and optionally --until) to bound it") (er_wraps err)
      else if is_error NoCoverageErr err then mkGoError (prefix +:+ er_text err) (er_Code err) (er_wraps err)
      else RuntimeErrorf (prefix +:+ er_text err) (er_wraps err)
  end.

(** ** Coverage *)

Record coverageAnswer := mkCoverage {
  ca_Intervals : list ScopeInterval;
  ca_Gap : option goError;
}.

Definition Absent (a : coverageAnswer) : bool := bool_decide (ca_Gap a = None) && bool_decide (length (ca_Intervals a) = 0).

Definition askCoverage (engine : QueryEngine) (q : ScopeQuery) (subject : string) : result goError coverageAnswer :=
  match qe_Coverage engine q with
  | Ok intervals => Ok (mkCoverage intervals None)
  | Err err =>
      if is_error CapabilityErr err then Ok (mkCoverage [] (Some err))
      else Err (RuntimeErrorf ("reading the watch scopes that cover " +:+ subject +:+ ": " +:+ er_text err) (er_wraps err))
  end.

Definition describeRule (interval : ScopeInterval) : string :=
  if bool_decide (iv_RuleRef interval = "") then "rule not recorded" else iv_RuleRef interval.

Definition describeInterval (interval : ScopeInterval) (zone : Zone) : string :=
  let ending := match iv_To interval with Some t => Instant zone t | None => "open" end in
  Instant zone (iv_From interval) +:+ " " +:+ Arrow +:+ " " +:+ ending +:+ " (" +:+ describeRule interval +:+ ")".

(** The zero [time.Time]. *)
Definition zero_time : Z := -62135596800 * second.

Fixpoint span_end (intervals : list ScopeInterval) (latest : Z) (zone : Zone) : string :=
  match intervals with
  | [] => Instant zone latest
  | interval :: rest =>
      match iv_To interval with
      | None => "open"
      | Some t => span_end rest (if bool_decide (latest < t)%Z then t else latest) zone
      end
  end.

Definition describeSpanEnd (intervals : list ScopeInterval) (zone : Zone) : string := span_end intervals zero_time zone.

Definition coverageUnavailable : string := "not reported by this backend".

Definition coverageSummary (intervals : list ScopeInterval) (gap : option goError) (zone : Zone) : string :=
  match gap with
  | Some _ => coverageUnavailable
  | None =>
      match intervals with
      | [] => "none recorded for this scope"
      | [interval] => describeInterval interval zone
      | first :: _ => Instant zone (iv_From first) +:+ " " +:+ Arrow +:+ " " +:+ describeSpanEnd intervals zone +:+ ", " +:+
                      Itoa (length intervals) +:+ " intervals"
      end
  end.

Definition Summary (a : coverageAnswer) (zone : Zone) : string := coverageSummary (ca_Intervals a) (ca_Gap a) zone.

Definition eventKind : string := "Event".
Definition eventGroupCore : string := "".
Definition eventGroupModern : string := "events.k8s.io".

Definition eventScopeQuery (r : TimelineRequest) (from to : option Z) : ScopeQuery :=
  mkScopeQuery (or_ClusterID (rq_Ref r)) "" eventKind (or_Namespace (rq_Ref r)) from to.

Definition eventIntervals (intervals : list ScopeInterval) : list ScopeInterval :=
  List.filter (fun interval => bool_decide (iv_APIGroup interval = eventGroupCore) ||
                               bool_decide (iv_APIGroup interval = eventGroupModern)) intervals.

Definition describeEventScope (r : TimelineRequest) : string :=
  if bool_decide (or_Namespace (rq_Ref r) <> "") then "Kubernetes Events in namespace " +:+ or_Namespace (rq_Ref r)
  else "Kubernetes Events in every namespace".

Definition eventCoverage (engine : QueryEngine) (r : TimelineRequest) (from to : option Z) : result goError coverageAnswer :=
  match askCoverage engine (eventScopeQuery r from to) (describeEventScope r) with
  | Err err => Err err
  | Ok coverage => Ok (mkCoverage (eventIntervals (ca_Intervals coverage)) (ca_Gap coverage))
  end.

Definition relevantCoverage (engine : QueryEngine) (r : TimelineRequest) (from to : option Z) : result goError coverageAnswer :=
  if rq_EventsOnly r then eventCoverage engine r from to
  else askCoverage engine (scopeQuery r from to) (describeObject (rq_Ref r)).

(** ** What a silence means *)

Record timelineShape := mkShape { sh_changes : bool; sh_events : bool }.

Definition sawDeletion (rows : list TimelineRow) : bool :=
  existsb (fun row => bool_decide (ch_EventType (tr_Change row) = EventDeleted)) rows.
Definition sawEvent (rows : list TimelineRow) : bool := existsb is_commentary rows.
Definition sawChange (rows : list TimelineRow) : bool := existsb (fun row => negb (is_commentary row)) rows.
Definition shapeOf (rows : list TimelineRow) : timelineShape := mkShape (sawChange rows) (sawEvent rows).

Definition deletionsNotice (capabilities : Capabilities) (sawDeleted : bool) : string :=
  if cap_Deletions capabilities || sawDeleted then ""
  else "the " +:+ cap_Backend capabilities +:+
    " backend does not record deletions, so this timeline ending is not evidence that the object still exists; it may have been deleted while unobserved. The `"
    +:+ scopesCommand +:+ "` command shows what was being watched".

Definition describeNoChanges (shape : timelineShape) (object window : string) : string :=
  if sh_events shape then "every row here is a Kubernetes Event: no change to " +:+ object +:+ " is recorded in " +:+ window
  else "no changes recorded for " +:+ object +:+ " in " +:+ window.

Definition newline_text : string := String newline "".

Definition countOwnedObjects (n : nat) : string := if bool_decide (n = 1) then "1 object" else Itoa n +:+ " objects".

Definition describeEventTarget (r : TimelineRequest) : string :=
  let object := describeObject (rq_Ref r) in
  if bool_decide (length (rq_Subjects r) = 0) then object
  else object +:+ " or the " +:+ countOwnedObjects (length (rq_Subjects r)) +:+ " it owns".

Section explanations.
Context `{Strconv}.
Variable zone : Zone.

Definition eventRuleFragment : string :=
  "    - group: " +:+ Quote eventGroupCore +:+ newline_text +:+ "      version: v1" +:+ newline_text +:+ "      kind: " +:+ eventKind.

(** [events] is the question that is asked only when its answer is spent. *)
Definition eventsClause (r : TimelineRequest) (events : result goError coverageAnswer) : string * string :=
  let unknown := " " +:+ dash +:+ " and whether any Kubernetes Event about it was recorded cannot be said: " in
  if negb (includeEvents r) then ("", "")
  else match events with
       | Err err => (unknown +:+ er_text err, "")
       | Ok (mkCoverage _ (Some _)) => (unknown +:+ "this backend has no scope log", "")
       | Ok (mkCoverage [] None) =>
           (" " +:+ dash +:+ " and no rule streams Events to this sink either, so these are two gaps rather than one: capturing this object's kind would record its changes, and Events would still be missing until a rule names them as well",
            "." +:+ newline_text +:+ "Add Events to a rule as well:" +:+ newline_text +:+ eventRuleFragment)
       | Ok (mkCoverage (interval :: _) None) =>
           (" " +:+ dash +:+ " and no Kubernetes Event about it was recorded either, which is the same absence rather than a second one to fix: Events were confirmed recorded over "
            +:+ describeInterval interval zone, "")
       end.

Definition no_coverage_text : string := "no watch coverage recorded for the requested scope".

Definition uncoveredNoChanges (r : TimelineRequest) (shape : timelineShape) (object : string)
    (events : result goError coverageAnswer) : list string * option goError :=
  let kind := describeKind (rq_Ref r) in
  let cluster := Quote (or_ClusterID (rq_Ref r)) in
  if sh_events shape then
    (["every row here is a Kubernetes Event: nothing was ever watching " +:+ kind +:+ " " +:+ object +:+ " in cluster " +:+ cluster +:+
      ", so its own changes were never recorded. The Events are here because a rule captures Events, not because this object is watched; the `"
      +:+ scopesCommand +:+ "` command lists what is being recorded"], None)
  else
    let '(clause, fix_) := eventsClause r events in
    ([], Some (mkGoError (no_coverage_text +:+ ": nothing was ever watching " +:+ kind +:+ " " +:+ object +:+ " in cluster " +:+ cluster +:+
      ", so this silence is not evidence that it did not change" +:+ clause +:+ "; the `" +:+ scopesCommand +:+
      "` command lists what is being recorded" +:+ fix_) None [NoCoverageErr])).

Definition explainNoChanges (r : TimelineRequest) (from to : option Z) (shape : timelineShape) (coverage : coverageAnswer)
    (events : result goError coverageAnswer) : list string * option goError :=
  if sh_changes shape then ([], None)
  else
    let object := describeObject (rq_Ref r) in
    let lead := describeNoChanges shape object (DescribeWindow from to zone) in
    match ca_Gap coverage, ca_Intervals coverage with
    | Some _, _ => ([lead +:+ ", and this backend has no scope log: it cannot say whether that means nothing changed or nothing was watching"], None)
    | None, [] => uncoveredNoChanges r shape object events
    | None, earliest :: _ =>
        if match from with None => true | Some f => bool_decide (f < iv_From earliest)%Z end then
          ([lead +:+ ", but " +:+ describeKind (rq_Ref r) +:+ " was not being watched before " +:+ Instant zone (iv_From earliest) +:+
            ", when " +:+ describeRule earliest +:+ " opened the scope: a change before then would not have been recorded"], None)
        else ([lead +:+ ". The scope was confirmed watched over " +:+ describeInterval earliest zone +:+ ", so nothing changed in that period"], None)
    end.

Definition explainNoEvents (r : TimelineRequest) (from to : option Z) (answer : result goError coverageAnswer) : string :=
  let found := eventsFlag r +:+ " found no Events for " +:+ describeEventTarget r +:+ " in " +:+ DescribeWindow from to zone in
  match answer with
  | Err err => found +:+ ", and the watch scopes could not be read to say why: " +:+ er_text err
  | Ok (mkCoverage _ (Some _)) =>
      found +:+ ", and this backend has no scope log: it cannot say whether that means nothing was recorded about it or that no rule streams Events to this sink"
  | Ok (mkCoverage [] None) =>
      eventsFlag r +:+ " found no Events: no rule streams Events to this sink." +:+ newline_text +:+
      "Add them to a rule and they will appear here:" +:+ newline_text +:+ eventRuleFragment
  | Ok (mkCoverage (interval :: _) None) =>
      found +:+ ". Events were confirmed recorded over " +:+ describeInterval interval zone +:+
      ", so nothing was said about it while that scope was open"
  end.

Definition noEventsNotice (r : TimelineRequest) (from to : option Z) (answer : result goError coverageAnswer) (interleaved : bool) : string :=
  if negb (includeEvents r) || interleaved then "" else explainNoEvents r from to answer.

Definition eventsNotice (engine : QueryEngine) (r : TimelineRequest) (from to : option Z) (interleaved : bool) : string :=
  if negb (includeEvents r) || interleaved then ""
  else noEventsNotice r from to (eventCoverage engine r from to) interleaved.

Definition explainNoMatches (r : TimelineRequest) (from to : option Z) (hadChanges : result goError bool) : string * bool :=
  let object := describeObject (rq_Ref r) in
  let window := DescribeWindow from to zone in
  let predicates := describePredicates r in
  match hadChanges with
  | Err err => (predicates +:+ " matched nothing for " +:+ object +:+ " in " +:+ window +:+
      ", and the same window could not be re-read without it to say whether there was anything to match: " +:+ er_text err, true)
  | Ok true => ("changes are recorded for " +:+ object +:+ " in " +:+ window +:+ " and " +:+ predicates +:+
      " matched none of them; the window itself is not empty, so this is the filter's answer rather than the object's", true)
  | Ok false => ("", false)
  end.

Definition predicateNotice (engine : QueryEngine) (r : TimelineRequest) (selection : incarnationChoice) (from to : option Z)
    (renderedChange : bool) : string * bool :=
  if negb (filtered r) || renderedChange then ("", false)
  else explainNoMatches r from to (anyChangeInWindow engine r selection from to).
End explanations.

Definition displayRows `{PatchPaths} (rows : list TimelineRow) (paths : list string) : list TimelineRow :=
  if bool_decide (length paths = 0) then rows
  else List.filter (fun row => MatchesFieldPaths (tr_Change row) paths) rows.

Definition displayFilterNotice (zone : Zone) (r : TimelineRequest) (from to : option Z) (scanned shown : nat) : string :=
  if bool_decide (length (rq_DisplayFieldPaths r) = 0) || bool_decide (scanned = shown) then ""
  else
    let paths := join ", " (rq_DisplayFieldPaths r) in
    if bool_decide (shown = 0) then
      Itoa scanned +:+ " changes are recorded for " +:+ describeObject (rq_Ref r) +:+ " in " +:+ DescribeWindow from to zone +:+
      ", and none of them touched " +:+ paths +:+ "; the window itself is not empty"
    else Itoa shown +:+ " of the " +:+ Itoa scanned +:+ " changes examined touched " +:+ paths +:+
      "; the rest were read and replayed so that the values shown are exact, then set aside. --limit bounds the changes examined, not the ones shown".

(** The rows newest first, with the values their operations replaced. The replay runs
    over a reversed copy that shares the operations, so the rows come back filled in. *)
Definition priorValueNotices `{Encoders, AnyCodec, JsonPatch} (engine : QueryEngine) (r : TimelineRequest)
    (rows : list TimelineRow) (zone : Zone) : list TimelineRow * list string :=
  if bool_decide (length rows = 0) || rq_NoPriorValues r then (rows, [])
  else if filtered r then
    (rows, ["prior values are not shown because a filter is in force: the changes below are not consecutive, and replaying only these patches would report values the object never held"])
  else
    let '(ascending, notices) := PriorValues (qe_StateAt engine (rq_Ref r)) zone (rev rows) in
    (rev ascending, notices).

(** ** The ownership walk *)

Record ownedTree := mkOwnedTree {
  ot_subjects : list ObjectRef;
  ot_summary : string;
  ot_notices : list string;
}.

Definition ownershipQuery (r : TimelineRequest) (from to : option Z) : OwnershipQuery :=
  mkOwnershipQuery (or_ClusterID (rq_Ref r)) (or_Namespace (rq_Ref r)) from to.

Definition ownedRoots (r : TimelineRequest) (selection : incarnationChoice) (objects : list OwnedObject) : list string :=
  if negb (bool_decide (ic_pinned selection = "")) then [ic_pinned selection] else UIDsOf objects (rq_Ref r).

Definition describeOwnedScope (r : TimelineRequest) : string :=
  if bool_decide (or_Namespace (rq_Ref r) <> "") then "namespace " +:+ or_Namespace (rq_Ref r) else "this cluster".

Definition countObjects (n : nat) : string := if bool_decide (n = 1) then "1 object" else Itoa n +:+ " objects".

Definition describeKinds (kinds : list string) : string :=
  match kinds with [kind] => "kind " +:+ kind | _ => "kinds " +:+ join ", " kinds end.

Definition describeTree (tree : OwnershipTree) : string :=
  if bool_decide (length (tr_Nodes tree) = 0) then ""
  else
    let kinds : gset string := list_to_set (map (fun node => or_Kind (nd_Ref node)) (tr_Nodes tree)) in
    countObjects (length (tr_Nodes tree)) +:+ " (" +:+ join ", " (sortedKeys kinds) +:+ ")".

Definition noRootStateNotice (r : TimelineRequest) (from to : option Z) (zone : Zone) : string :=
  ownedFlag +:+ " found no recorded state of " +:+ describeObject (rq_Ref r) +:+ " in " +:+ DescribeWindow from to zone +:+
  ", so there is nothing to walk from: ownership is read from stored rows, and an object with no full state in the window has no ownerReferences to match a descendant against. The Events below are the ones naming "
  +:+ describeObject (rq_Ref r) +:+ " itself. Widen the window with --since, or use `" +:+ scopesCommand +:+
  "` to see which kinds were being recorded".

Definition ownedNotices (r : TimelineRequest) (tree : OwnershipTree) (from to : option Z) (zone : Zone) : list string :=
  let object := describeObject (rq_Ref r) in
  let window := DescribeWindow from to zone in
  if bool_decide (length (tr_Nodes tree) = 0) && Complete tree then
    [ownedFlag +:+ " found no objects owned by " +:+ object +:+ " recorded in " +:+ window +:+
     ". Ownership is read from stored rows rather than from the cluster, so a descendant whose state was never captured cannot be discovered " +:+
     dash +:+ " `" +:+ scopesCommand +:+ "` shows which kinds were being recorded, and --since widens the window"]
  else
    (if bool_decide (0 < tr_MissingOwnerObjects tree) then
       ["the ownership walk could not see the whole tree: " +:+ countObjects (tr_MissingOwnerObjects tree) +:+ " in " +:+
        describeOwnedScope r +:+ " name an owner the archive does not hold, of " +:+ describeKinds (tr_MissingOwnerKinds tree) +:+
        ", so anything beneath them could not be attributed to " +:+ object +:+ ". The walk read " +:+ window +:+
        ": add the kind to a rule so its state is recorded, or pass --since if it was captured before that"] else []) ++
    (if bool_decide (0 < tr_UnreadableObjects tree) then
       [countObjects (tr_UnreadableObjects tree) +:+ " in " +:+ describeOwnedScope r +:+ " have rows in " +:+ window +:+
        " but no full state in it, of " +:+ describeKinds (tr_UnreadableKinds tree) +:+
        ", so their own ownerReferences could not be read and the walk could not place them. Pass --since so a full state of them falls inside the window"] else []) ++
    (if tr_DepthLimited tree then
       ["the ownership walk stops " +:+ Itoa MaxOwnershipDepth +:+ " levels below " +:+ object +:+
        " and this tree is deeper; the Events of anything below that level are not here"] else []) ++
    (if tr_BreadthLimited tree then
       ["the ownership walk stops at " +:+ Itoa MaxOwnedObjects +:+
        " descendants and this tree has more; the Events below are those of the " +:+ Itoa MaxOwnedObjects +:+
        " it reached first. Narrow the window with --since and --until to bring the tree under the bound"] else []).

Definition resolveOwnedTree (engine : QueryEngine) (r : TimelineRequest) (selection : incarnationChoice) (from to : option Z)
    (zone : Zone) : result goError ownedTree :=
  if negb (rq_Owned r) then Ok (mkOwnedTree [] "" [])
  else match qe_Ownership engine with
  | None =>
      Err (RuntimeErrorf ("the " +:+ cap_Backend (qe_Capabilities engine) +:+ " backend cannot resolve ownership, so " +:+ ownedFlag +:+
        " has no tree to walk: it reads metadata.ownerReferences out of recorded state, which this backend does not expose. `" +:+
        timelineCommand +:+ " " +:+ withEventsFlag +:+ "` answers the same question about " +:+ describeObject (rq_Ref r) +:+ " alone") [])
  | Some resolver =>
      match resolver (ownershipQuery r from to) with
      | Err err =>
          Ok (mkOwnedTree [] "" [ownedFlag +:+ " could not read the ownership of " +:+ describeOwnedScope r +:+ ": " +:+ er_text err +:+
            ". The rows below are " +:+ describeObject (rq_Ref r) +:+ "'s own Events; nothing here is about the objects it owns"])
      | Ok objects =>
          let roots := ownedRoots r selection objects in
          if bool_decide (length roots = 0) then Ok (mkOwnedTree [] "" [noRootStateNotice r from to zone])
          else
            let tree := Descendants roots objects in
            Ok (mkOwnedTree (Refs tree) (describeTree tree) (ownedNotices r tree from to zone))
      end
  end.

(** ** The answer *)

Record gatherResult := mkGather {
  gr_UID : string;
  gr_From : option Z;
  gr_To : option Z;
  gr_Incarnations : list string;
  gr_Owned : string;
  gr_Coverage : coverageAnswer;
  gr_Rows : list TimelineRow;
  gr_Notices : list string;
  gr_Empty : option goError;
}.

Section gather.
Context `{Strconv, PatchPaths, PatchCodec, Encoders, AnyCodec, JsonPatch}.

(** From the measured shape of the page to the end: the notices about what is not on it,
    and the finding. *)
Definition explain_page (engine : QueryEngine) (r : TimelineRequest) (selection : incarnationChoice) (from to : option Z)
    (coverage : coverageAnswer) (scanned : nat) (rows : list TimelineRow) (zone : Zone) : list string * option goError :=
  let shape := shapeOf rows in
  if rq_EventsOnly r then (appendNotice [] (noEventsNotice zone r from to (Ok coverage) (sh_events shape)), None)
  else
    let '(predicate, attributed) := predicateNotice zone engine r selection from to (sh_changes shape) in
    let notices := appendNotice [] predicate in
    let '(notices, empty) :=
      if negb attributed && (some rows || bool_decide (scanned = 0)) then
        let '(explained, empty) := explainNoChanges zone r from to shape coverage (eventCoverage engine r from to) in
        (notices ++ explained, empty)
      else (notices, None) in
    (match empty with
     | Some _ => notices
     | None => appendNotice notices (eventsNotice zone engine r from to (sh_events shape))
     end, empty).

(** [clock] is [time.Now], and [calls] the progress reports made until the timeline has
    been read. *)
Definition gatherChanges (engine : QueryEngine) (request : TimelineRequest) (streams : IOStreams) (zone : Zone) (clock : Z)
    (calls : list (Z * ScanProgress)) : narrated gatherResult :=
  let capabilities := qe_Capabilities engine in
  let '(from, to, windowNotice) := timelineBounds request capabilities zone clock in
  let notices := appendNotice (appendNotice [] windowNotice) (inertPredicateNotice request) in
  let '(said, begun) := Begin (scan_half engine) (rq_Scan request) (or_ClusterID (rq_Ref request)) from to clock streams in
  (said,
   let! scan := begun in
   let '(selection, selectionNotices) := chooseIncarnation engine request from to in
   let! owned := resolveOwnedTree engine request selection from to zone in
   let request := with_subjects (ot_subjects owned) request in
   match collectChanges engine (timelineQuery request selection from to) with
   | Err err => Err (timelineQueryError (Stopped scan calls) request err)
   | Ok changes =>
       let rows := DecodeRows changes in
       let incarnations := if rq_AllIncarnations request && bool_decide (length (ic_listed selection) = 0)
                           then distinctUIDs rows else ic_listed selection in
       let uid := if bool_decide (ic_uid selection = "") then firstObjectUID rows else ic_uid selection in
       let '(rows, priorNotices) := priorValueNotices engine request rows zone in
       let scanned := length rows in
       let rows := displayRows rows (rq_DisplayFieldPaths request) in
       let rows := if negb (rq_Reverse request) then rev rows else rows in
       let! coverage := relevantCoverage engine request from to in
       let notices := notices ++ selectionNotices ++ ot_notices owned ++ priorNotices in
       let notices := appendNotice notices (deletionsNotice capabilities (sawDeletion rows)) in
       let notices := appendNotice notices (displayFilterNotice zone request from to scanned (length rows)) in
       let '(explained, empty) := explain_page engine request selection from to coverage scanned rows zone in
       Ok (mkGather uid from to incarnations (ot_summary owned) coverage rows (notices ++ explained) empty)
   end).
End gather.
