(* ===== verification/GatherSpec.v ===== *)
(** * GatherSpec: what a gathered answer says, and what its silence is evidence of

    The command asks its query once and shows every change the engine returned, in the
    order asked for; the header's UID is the UID of every change shown; the finding that
    exits 3 is made exactly when nothing was recorded and nothing was watching; and an
    answer with none of the object's changes always carries the sentence that accounts
    for it. The engine is any [QueryEngine]; the law the header relies on is the class
    [SingleIncarnation], which the archive's engine satisfies. *)

From S2P Require Import Prelude Calendar GoJson Diff QueryFilter ScopeLog Replay Pointer RedactParse Render Archive ArchiveSpec ArchiveState Blame Ownership ArchiveQueries Reference Coldscan Gather.

(** ** The replay keeps the changes *)

Lemma alter_fill_changes state i rows `{AnyCodec} : map tr_Change (alter (fill_row state) i rows) = map tr_Change rows.
Proof. revert i. induction rows as [|row rows IH]; intros [|i]; cbn; [done..|]. f_equal. apply IH. Qed.

Section replayed.
Context `{Encoders, AnyCodec, JsonPatch}.
Variable state_at : Z -> string -> result stateFailure Reconstruction.
Variable zone : Zone.

Lemma replay_group_changes group rows state : map tr_Change (replay_group zone rows group state).1 = map tr_Change rows.
Proof.
  revert rows state. induction group as [|i group IH]; intros rows state; [done|]. cbn.
  destruct (advanceState _ _); [rewrite IH|]; apply alter_fill_changes.
Qed.

Lemma prior_groups_changes groups rows : map tr_Change (prior_groups state_at zone rows groups).1 = map tr_Change rows.
Proof.
  revert rows. induction groups as [|group groups IH]; intros rows; [done|]. cbn.
  destruct (replayGroup state_at zone rows group) as [rows' notice] eqn:Hg.
  assert (map tr_Change rows' = map tr_Change rows) as Hc.
  { revert Hg. unfold replayGroup. destruct (firstNeedingPriorValue rows group); [|naive_solver].
    destruct (seedState _ _ _ _) as [[state start]|]; [|naive_solver].
    intros E. rewrite <- (replay_group_changes (drop start group) rows state), E. done. }
  specialize (IH rows'). destruct (prior_groups state_at zone rows' groups) as [rows'' notices]. cbn in *. congruence.
Qed.
End replayed.

Lemma DecodeRows_changes `{PatchCodec} changes : map tr_Change (DecodeRows changes) = changes.
Proof.
  unfold DecodeRows. rewrite List.map_map. rewrite <- (List.map_id changes) at 2. apply List.map_ext.
  intros c. unfold decode_row. by destruct (PatchOps _).
Qed.

Lemma priorValueNotices_changes `{Encoders, AnyCodec, JsonPatch} engine r rows zone :
  map tr_Change (priorValueNotices engine r rows zone).1 = map tr_Change rows.
Proof.
  unfold priorValueNotices. destruct (bool_decide _ || _); [done|]. destruct (filtered r); [done|].
  pose proof (prior_groups_changes (qe_StateAt engine (rq_Ref r)) zone (byIncarnation (rev rows)) (rev rows)) as E.
  unfold PriorValues. destruct (prior_groups _ _ _ _) as [ascending notices]. cbn in *.
  by rewrite map_rev, E, map_rev, rev_involutive.
Qed.

(** ** Taking an answer apart *)

Section taken_apart.
Context `{Strconv, PatchPaths, PatchCodec, Encoders, AnyCodec, JsonPatch}.

(** The incarnation chosen, the subjects walked to, and the query asked. *)
Definition chosen (engine : QueryEngine) (request : TimelineRequest) (from to : option Z) : incarnationChoice :=
  (chooseIncarnation engine request from to).1.

Definition asked (engine : QueryEngine) (request : TimelineRequest) (from to : option Z) (zone : Zone) : TimelineQuery :=
  let subjects := match resolveOwnedTree engine request (chosen engine request from to) from to zone with
                  | Ok owned => ot_subjects owned | Err _ => [] end in
  timelineQuery (with_subjects subjects request) (chosen engine request from to) from to.

Definition displayed (request : TimelineRequest) (rows : list TimelineRow) : list TimelineRow :=
  let rows := displayRows rows (rq_DisplayFieldPaths request) in
  if rq_Reverse request then rows else rev rows.

(** What an answer was made of. *)
Record gathered (engine : QueryEngine) (request : TimelineRequest) (zone : Zone) (clock : Z) (r : gatherResult)
    (changes : list Change) (subjects : list ObjectRef) : Prop := {
  gd_window : exists notice, timelineBounds request (qe_Capabilities engine) zone clock = (gr_From r, gr_To r, notice);
  gd_changes : collectChanges engine (asked engine request (gr_From r) (gr_To r) zone) = Ok changes;
  gd_asked : asked engine request (gr_From r) (gr_To r) zone =
    timelineQuery (with_subjects subjects request) (chosen engine request (gr_From r) (gr_To r)) (gr_From r) (gr_To r);
  gd_uid : gr_UID r = let uid := ic_uid (chosen engine request (gr_From r) (gr_To r)) in
    if bool_decide (uid = "") then firstObjectUID (DecodeRows changes) else uid;
  gd_rows : gr_Rows r = displayed request (priorValueNotices engine (with_subjects subjects request) (DecodeRows changes) zone).1;
  gd_coverage : relevantCoverage engine request (gr_From r) (gr_To r) = Ok (gr_Coverage r);
  gd_notices : exists before explained,
    gr_Notices r = appendNotice before (displayFilterNotice zone request (gr_From r) (gr_To r) (length changes) (length (gr_Rows r))) ++ explained /\
    explain_page engine (with_subjects subjects request) (chosen engine request (gr_From r) (gr_To r)) (gr_From r) (gr_To r)
      (gr_Coverage r) (length changes) (gr_Rows r) zone = (explained, gr_Empty r);
}.

Lemma gather_inv engine request streams zone clock calls said r :
  gatherChanges engine request streams zone clock calls = (said, Ok r) ->
  exists changes subjects, gathered engine request zone clock r changes subjects.
Proof.
  unfold gatherChanges. destruct (timelineBounds _ _ _ _) as [[from to] windowNotice] eqn:Hw.
  destruct (Begin _ _ _ _ _ _ _) as [said' begun]. intros [= _ E].
  destruct begun as [scan|]; [|done]. cbn [result_bind] in E.
  destruct (chooseIncarnation engine request from to) as [selection snotices] eqn:Hs.
  destruct (resolveOwnedTree engine request selection from to zone) as [owned|] eqn:Ho; [|done]. cbn [result_bind] in E.
  destruct (collectChanges _ _) as [changes|] eqn:Hc; [|done].
  destruct (priorValueNotices _ _ _ _) as [rows prior] eqn:Hp.
  destruct (relevantCoverage _ _ _ _) as [coverage|] eqn:Hcov; [|done]. cbn [result_bind] in E.
  destruct (explain_page _ _ _ _ _ _ _ _ _) as [explained empty] eqn:Hx. injection E as <-.
  assert (chosen engine request from to = selection) as Hsel by (unfold chosen; by rewrite Hs).
  assert (length rows = length changes) as Hlen.
  { rewrite <- (length_map tr_Change), <- (DecodeRows_changes changes). f_equal.
    rewrite <- (priorValueNotices_changes engine (with_subjects (ot_subjects owned) request) (DecodeRows changes) zone), Hp. done. }
  assert (asked engine request from to zone = timelineQuery (with_subjects (ot_subjects owned) request) selection from to) as Hask.
  { unfold asked. by rewrite Hsel, Ho. }
  exists changes, (ot_subjects owned). constructor; cbn [gr_From gr_To gr_UID gr_Rows gr_Coverage gr_Notices gr_Empty].
  - eauto.
  - by rewrite Hask.
  - by rewrite Hask, Hsel.
  - by rewrite Hsel.
  - unfold displayed. rewrite Hp. cbn. by destruct (rq_Reverse request).
  - exact Hcov.
  - rewrite Hsel, <- Hlen. do 2 eexists. split; [reflexivity|exact Hx].
Qed.
End taken_apart.

(** ** The page *)

Section page.
Context `{Strconv, PatchPaths, PatchCodec, Encoders, AnyCodec, JsonPatch}.

Lemma displayRows_changes rows paths :
  map tr_Change (displayRows rows paths) = List.filter (fun c => MatchesFieldPaths c paths) (map tr_Change rows).
Proof.
  unfold displayRows. case_bool_decide as Hp.
  - symmetry. apply keep_all, Forall_true. intros c. unfold MatchesFieldPaths. by rewrite bool_decide_true.
  - symmetry. apply filter_map_comm.
Qed.

Lemma displayed_changes request rows : map tr_Change (displayed request rows) =
  let kept := List.filter (fun c => MatchesFieldPaths c (rq_DisplayFieldPaths request)) (map tr_Change rows) in
  if rq_Reverse request then kept else rev kept.
Proof. unfold displayed. cbn. destruct (rq_Reverse request); by rewrite ?map_rev, displayRows_changes. Qed.

Lemma gathered_page engine request zone clock r changes subjects : gathered engine request zone clock r changes subjects ->
  map tr_Change (gr_Rows r) =
  let kept := List.filter (fun c => MatchesFieldPaths c (rq_DisplayFieldPaths request)) changes in
  if rq_Reverse request then kept else rev kept.
Proof.
  intros G. rewrite (gd_rows _ _ _ _ _ _ _ G), displayed_changes, priorValueNotices_changes, DecodeRows_changes. done.
Qed.

(** The page shows the changes the query returned, those the display filter keeps,
    oldest first unless [--reverse] was given; the replay of replaced values neither
    drops, adds nor reorders one. *)
Theorem page_is_the_answer engine request streams zone clock calls said r :
  gatherChanges engine request streams zone clock calls = (said, Ok r) ->
  exists changes,
    collectChanges engine (asked engine request (gr_From r) (gr_To r) zone) = Ok changes /\
    map tr_Change (gr_Rows r) =
      let kept := List.filter (fun c => MatchesFieldPaths c (rq_DisplayFieldPaths request)) changes in
      if rq_Reverse request then kept else rev kept.
Proof.
  intros E. destruct (gather_inv _ _ _ _ _ _ _ _ E) as (changes & subjects & G).
  exists changes. split; [exact (gd_changes _ _ _ _ _ _ _ G)|exact (gathered_page _ _ _ _ _ _ _ G)].
Qed.

(** ** The finding *)

Lemma shape_rows rows : sawChange rows = false -> sawEvent rows = false -> rows = [].
Proof. destruct rows as [|row rows]; [done|]. unfold sawChange, sawEvent. cbn. by destruct (is_commentary row). Qed.

Lemma asked_nothing {A} (l : list A) : some l = false <-> l = [].
Proof. unfold some. rewrite bool_decide_eq_false. destruct l; cbn; split; intros; (done || lia). Qed.

Lemma askCoverage_none engine q subject a :
  askCoverage engine q subject = Ok a -> ca_Gap a = None -> qe_Coverage engine q = Ok (ca_Intervals a).
Proof. unfold askCoverage. destruct (qe_Coverage engine q); [naive_solver|]. destruct (is_error _ _); naive_solver. Qed.

(** The predicate notice: nothing to say, or an emptiness attributed to the filter. *)
Lemma predicate_cases zone engine r selection from to rendered notice attributed :
  predicateNotice zone engine r selection from to rendered = (notice, attributed) ->
  (attributed = false /\ notice = "" /\
     (rendered = false -> filtered r = true -> collectChanges engine (probe (timelineQuery r selection from to)) = Ok [])) \/
  (attributed = true /\ rendered = false /\ filtered r = true /\ exists outcome,
     anyChangeInWindow engine r selection from to = outcome /\ outcome <> Ok false /\
     notice = (explainNoMatches zone r from to outcome).1).
Proof.
  unfold predicateNotice. destruct (filtered r) eqn:Hf; cbn; [|intros [= <- <-]; left; done].
  destruct rendered; cbn; [intros [= <- <-]; left; done|].
  destruct (anyChangeInWindow engine r selection from to) as [[]|err] eqn:Ha; cbn; intros [= <- <-].
  - right. split; [done|]. split; [done|]. split; [done|]. by exists (Ok true).
  - left. split; [done|]. split; [done|]. intros _ _. revert Ha. unfold anyChangeInWindow.
    destruct (collectChanges _ _) as [changes|]; [|done]. intros [= Hs]. apply asked_nothing in Hs. by subst.
  - right. split; [done|]. split; [done|]. split; [done|]. by exists (Err err).
Qed.

Lemma explainNoChanges_finding zone r from to shape coverage events notices empty :
  explainNoChanges zone r from to shape coverage events = (notices, empty) ->
  empty <> None <-> sh_changes shape = false /\ sh_events shape = false /\ ca_Gap coverage = None /\ ca_Intervals coverage = [].
Proof.
  unfold explainNoChanges, uncoveredNoChanges. destruct (sh_changes shape); [naive_solver|].
  destruct (ca_Gap coverage), (ca_Intervals coverage) as [|iv ivs]; [naive_solver..| |].
  - destruct (sh_events shape); [naive_solver|]. destruct (eventsClause _ _ _). naive_solver.
  - destruct (match from with None => true | Some _ => _ end); naive_solver.
Qed.

Lemma finding_code zone r from to shape coverage events notices empty :
  explainNoChanges zone r from to shape coverage events = (notices, empty) ->
  empty = None \/ CodeFor empty = NoCoverage.
Proof.
  unfold explainNoChanges, uncoveredNoChanges. destruct (sh_changes shape); [naive_solver|].
  destruct (ca_Gap coverage), (ca_Intervals coverage) as [|iv ivs]; [naive_solver..| |].
  - destruct (sh_events shape); [naive_solver|]. destruct (eventsClause _ _ _). intros [= <- <-]. by right.
  - destruct (match from with None => true | Some _ => _ end); naive_solver.
Qed.

Lemma explain_page_finding engine r selection from to coverage scanned rows zone explained empty :
  explain_page engine r selection from to coverage scanned rows zone = (explained, empty) -> length rows <= scanned ->
  (empty = None \/ CodeFor empty = NoCoverage) /\
  (empty <> None <->
     rq_EventsOnly r = false /\ scanned = 0 /\ ca_Gap coverage = None /\ ca_Intervals coverage = [] /\
     (filtered r = true -> collectChanges engine (probe (timelineQuery r selection from to)) = Ok [])).
Proof.
  unfold explain_page. destruct (rq_EventsOnly r); [naive_solver|]. intros E Hle.
  destruct (predicateNotice _ _ _ _ _ _ _) as [predicate attributed] eqn:Hp. apply predicate_cases in Hp.
  destruct (explainNoChanges _ _ _ _ _ _ _) as [notices found] eqn:Hx.
  pose proof (explainNoChanges_finding _ _ _ _ _ _ _ _ _ Hx) as Hfound. apply finding_code in Hx. cbn in Hfound, Hp.
  destruct (negb attributed && (some rows || bool_decide (scanned = 0))) eqn:Hgate.
  - assert (found = empty) as -> by (destruct found; by injection E). split; [done|]. rewrite Hfound.
    apply andb_true_iff in Hgate as [Ha Hgate]. destruct Hp as [(-> & _ & Hprobe)|(-> & _)]; [|done]. split.
    + intros (Hc & Hev & Hgap & Hiv). pose proof (shape_rows _ Hc Hev) as ->. apply orb_true_iff in Hgate as [Hgate|Hgate]; [done|]. apply bool_decide_eq_true in Hgate.
      repeat split; [done..|]. auto.
    + intros (_ & -> & Hgap & Hiv & _). assert (rows = []) as -> by (destruct rows; [done|cbn in Hle; lia]). done.
  - assert (empty = None) as -> by (by injection E). split; [by left|]. split; [done|].
    intros (_ & -> & _ & _ & Hprobe). rewrite bool_decide_true, orb_true_r, andb_true_r in Hgate by done.
    destruct Hp as [(-> & _)|(-> & _ & Hf & outcome & Ha & Hne & _)]; [done|].
    revert Ha. unfold anyChangeInWindow. rewrite (Hprobe Hf). cbn. by intros <-.
Qed.

Lemma displayRows_length rows paths : length (displayRows rows paths) <= length rows.
Proof. unfold displayRows. case_bool_decide; [done|]. apply List.filter_length_le. Qed.

Lemma gathered_length engine request zone clock r changes subjects : gathered engine request zone clock r changes subjects ->
  length (gr_Rows r) <= length changes.
Proof.
  intros G. rewrite <- (length_map tr_Change), (gathered_page _ _ _ _ _ _ _ G). cbn.
  destruct (rq_Reverse request); rewrite ?length_rev; apply List.filter_length_le.
Qed.

Lemma gathered_finding engine request streams zone clock calls said r :
  gatherChanges engine request streams zone clock calls = (said, Ok r) ->
  gr_Empty r = None \/ CodeFor (gr_Empty r) = NoCoverage.
Proof.
  intros E. destruct (gather_inv _ _ _ _ _ _ _ _ E) as (changes & subjects & G).
  pose proof (gathered_length _ _ _ _ _ _ _ G) as Hle. destruct G as [_ _ _ _ _ _ (before & explained & _ & Hx)].
  by destruct (explain_page_finding _ _ _ _ _ _ _ _ _ _ _ Hx Hle).
Qed.

Lemma finding_exact engine request streams zone clock calls said r :
  gatherChanges engine request streams zone clock calls = (said, Ok r) ->
  (CodeFor (gr_Empty r) = Success \/ CodeFor (gr_Empty r) = NoCoverage) /\
  (CodeFor (gr_Empty r) = NoCoverage <->
     rq_EventsOnly request = false /\
     collectChanges engine (asked engine request (gr_From r) (gr_To r) zone) = Ok [] /\
     qe_Coverage engine (scopeQuery request (gr_From r) (gr_To r)) = Ok [] /\
     (filtered request = true -> collectChanges engine (probe (asked engine request (gr_From r) (gr_To r) zone)) = Ok [])).
Proof.
  intros E. destruct (gather_inv _ _ _ _ _ _ _ _ E) as (changes & subjects & G).
  pose proof (gathered_length _ _ _ _ _ _ _ G) as Hle. destruct G as [_ Hc Ha _ _ Hcov (before & explained & _ & Hx)].
  destruct (explain_page_finding _ _ _ _ _ _ _ _ _ _ _ Hx Hle) as [Hcode Hiff].
  split; [destruct Hcode as [->|]; auto|].
  assert (CodeFor (gr_Empty r) = NoCoverage <-> gr_Empty r <> None) as ->.
  { destruct Hcode as [->|Hcode]; [done|]. split; [|done]. intros _ En. by rewrite En in Hcode. }
  rewrite Hiff, <- Ha, Hc. change (filtered (with_subjects subjects request)) with (filtered request).
  change (rq_EventsOnly (with_subjects subjects request)) with (rq_EventsOnly request).
  assert (length changes = 0 <-> Ok changes = Ok (E := goError) []) as Hnil by (destruct changes; naive_solver).
  split; intros (He & Hn & Hrest); (split; [done|]); (split; [by apply Hnil|]);
    unfold relevantCoverage in Hcov; rewrite He in Hcov.
  - destruct Hrest as (Hgap & Hiv & Hprobe). split; [|done]. rewrite <- Hiv. exact (askCoverage_none _ _ _ _ Hcov Hgap).
  - destruct Hrest as (Hlog & Hprobe). unfold askCoverage in Hcov. rewrite Hlog in Hcov. by injection Hcov as <-.
Qed.

(** C17: The exit code of a gathered answer is 0 or 3, and it is 3 exactly when the object's
    own history was asked for, the query returned nothing, the scope log was read
    and has no interval for the object's scope, and - when a predicate was in force - the
    same window without the predicates holds no change either. *)
Theorem no_coverage_finding_exact engine request streams zone clock calls said r :
  gatherChanges engine request streams zone clock calls = (said, Ok r) ->
  (CodeFor (gr_Empty r) = Success \/ CodeFor (gr_Empty r) = NoCoverage) /\
  (CodeFor (gr_Empty r) = NoCoverage <->
     rq_EventsOnly request = false /\
     collectChanges engine (asked engine request (gr_From r) (gr_To r) zone) = Ok [] /\
     qe_Coverage engine (scopeQuery request (gr_From r) (gr_To r)) = Ok [] /\
     (filtered request = true -> collectChanges engine (probe (asked engine request (gr_From r) (gr_To r) zone)) = Ok [])).
Proof. apply finding_exact. Qed.

(** ** No bare silence *)

(** How a sentence about a page without a change begins: a page of Events is said to be
    one. *)
Definition begins (request : TimelineRequest) (from to : option Z) (zone : Zone) (rows : list TimelineRow) (start : string) : Prop :=
  ((exists row, row ∈ rows /\ ch_EventType (tr_Change row) = EventKubernetes) /\
   start = "every row here is a Kubernetes Event: no change to " +:+ describeObject (rq_Ref request) +:+ " is recorded in " +:+ DescribeWindow from to zone) \/
  (rows = [] /\ start = "no changes recorded for " +:+ describeObject (rq_Ref request) +:+ " in " +:+ DescribeWindow from to zone).

(** The sentences that account for a page without a change of the object, word for word, each
    with the evidence it rests on: [q] is the query asked, [changes] what it returned and
    [rows] the page. *)
Inductive accounts (engine : QueryEngine) (request : TimelineRequest) (q : TimelineQuery) (from to : option Z) (zone : Zone)
    (changes : list Change) (rows : list TimelineRow) : string -> Prop :=
| filter_emptied cs : filtered request = true -> collectChanges engine (probe q) = Ok cs -> cs <> [] ->
    accounts engine request q from to zone changes rows
      ("changes are recorded for " +:+ describeObject (rq_Ref request) +:+ " in " +:+ DescribeWindow from to zone +:+ " and " +:+
       describePredicates request +:+
       " matched none of them; the window itself is not empty, so this is the filter's answer rather than the object's")
| filter_unjudged err : filtered request = true -> collectChanges engine (probe q) = Err err ->
    accounts engine request q from to zone changes rows
      (describePredicates request +:+ " matched nothing for " +:+ describeObject (rq_Ref request) +:+ " in " +:+ DescribeWindow from to zone +:+
       ", and the same window could not be re-read without it to say whether there was anything to match: " +:+ er_text err)
| display_emptied : changes <> [] -> Forall (fun c => MatchesFieldPaths c (rq_DisplayFieldPaths request) = false) changes ->
    accounts engine request q from to zone changes rows
      (Itoa (length changes) +:+ " changes are recorded for " +:+ describeObject (rq_Ref request) +:+ " in " +:+ DescribeWindow from to zone +:+
       ", and none of them touched " +:+ join ", " (rq_DisplayFieldPaths request) +:+ "; the window itself is not empty")
| no_scope_log err start : qe_Coverage engine (scopeQuery request from to) = Err err -> is_error CapabilityErr err = true ->
    begins request from to zone rows start ->
    accounts engine request q from to zone changes rows
      (start +:+ ", and this backend has no scope log: it cannot say whether that means nothing changed or nothing was watching")
| watched_later iv ivs start : qe_Coverage engine (scopeQuery request from to) = Ok (iv :: ivs) ->
    (forall f, from = Some f -> (f < iv_From iv)%Z) -> begins request from to zone rows start ->
    accounts engine request q from to zone changes rows
      (start +:+ ", but " +:+ describeKind (rq_Ref request) +:+ " was not being watched before " +:+ Instant zone (iv_From iv) +:+
       ", when " +:+ describeRule iv +:+ " opened the scope: a change before then would not have been recorded")
| watched_from_start iv ivs f start : qe_Coverage engine (scopeQuery request from to) = Ok (iv :: ivs) ->
    from = Some f -> (iv_From iv <= f)%Z -> begins request from to zone rows start ->
    accounts engine request q from to zone changes rows
      (start +:+ ". The scope was confirmed watched over " +:+ describeInterval iv zone +:+ ", so nothing changed in that period")
| only_events : qe_Coverage engine (scopeQuery request from to) = Ok [] ->
    rows <> [] -> Forall (fun row => ch_EventType (tr_Change row) = EventKubernetes) rows ->
    accounts engine request q from to zone changes rows
      ("every row here is a Kubernetes Event: nothing was ever watching " +:+ describeKind (rq_Ref request) +:+ " " +:+
       describeObject (rq_Ref request) +:+ " in cluster " +:+ Quote (or_ClusterID (rq_Ref request)) +:+
       ", so its own changes were never recorded. The Events are here because a rule captures Events, not because this object is watched; the `"
       +:+ scopesCommand +:+ "` command lists what is being recorded").

Lemma all_commentary rows : sawChange rows = false -> Forall (fun row => ch_EventType (tr_Change row) = EventKubernetes) rows.
Proof.
  intros Hc. apply Forall_forall. intros row Hr. apply not_true_iff_false in Hc. destruct (is_commentary row) eqn:Ei.
  - unfold is_commentary in Ei. by apply bool_decide_eq_true in Ei.
  - destruct Hc. apply existsb_exists. exists row. rewrite Ei. split; [by apply list_elem_of_In|done].
Qed.

Lemma page_begins request from to zone rows : sawChange rows = false ->
  begins request from to zone rows (describeNoChanges (shapeOf rows) (describeObject (rq_Ref request)) (DescribeWindow from to zone)).
Proof.
  intros Hc. unfold describeNoChanges, shapeOf. cbn [sh_events]. destruct rows as [|row rows]; [by right|]. left.
  pose proof (all_commentary _ Hc) as Hall. apply Forall_cons in Hall as [Hrow _].
  assert (Hs : sawEvent (row :: rows) = true) by (cbn; unfold is_commentary; by rewrite bool_decide_eq_true_2).
  rewrite Hs. split; [|done]. exists row. split; [by left|done].
Qed.

Lemma string_app_ne s t : t <> "" -> s +:+ t <> "".
Proof. by destruct s. Qed.

Lemma appended notices notice : notice <> "" -> notice ∈ appendNotice notices notice.
Proof. intros Hn. unfold appendNotice. rewrite bool_decide_false by done. set_solver. Qed.

Lemma appended_keeps notices notice n : n ∈ notices -> n ∈ appendNotice notices notice.
Proof. intros Hn. unfold appendNotice. case_bool_decide; set_solver. Qed.

Lemma explainNoChanges_accounts engine request q from to zone changes rows coverage events notices :
  rq_EventsOnly request = false -> relevantCoverage engine request from to = Ok coverage ->
  explainNoChanges zone request from to (shapeOf rows) coverage events = (notices, None) -> sawChange rows = false ->
  exists n, notices = [n] /\ accounts engine request q from to zone changes rows n.
Proof.
  intros He Hcov Hx Hc. unfold relevantCoverage in Hcov. rewrite He in Hcov. unfold askCoverage in Hcov.
  pose proof (page_begins request from to zone rows Hc) as Hb. unfold explainNoChanges in Hx. cbn [sh_changes shapeOf] in Hx. rewrite Hc in Hx.
  destruct (qe_Coverage engine _) as [intervals|err] eqn:Hq.
  - injection Hcov as <-. cbn [ca_Gap ca_Intervals] in Hx. destruct intervals as [|iv ivs].
    + unfold uncoveredNoChanges in Hx. cbn [sh_events shapeOf] in Hx. destruct (sawEvent rows) eqn:Hev.
      * injection Hx as <-. eexists. split; [done|]. apply only_events; [done| |by apply all_commentary]. by intros ->.
      * by destruct (eventsClause _ _ _).
    + destruct from as [f|]; [case_bool_decide as Hlt|]; injection Hx as <-; (eexists; split; [done|]).
      * eapply watched_later; [done| |exact Hb]. by intros ? [= <-].
      * eapply watched_from_start; [done|done|lia|exact Hb].
      * eapply watched_later; [done|done|exact Hb].
  - destruct (is_error CapabilityErr err) eqn:Hcap; [|done]. injection Hcov as <-. cbn in Hx. injection Hx as <-.
    eexists. split; [done|]. by eapply no_scope_log.
Qed.

(** A display filter that keeps none of the changes is in force and rejects each. *)
Lemma display_kept_nothing request changes : length changes <> 0 ->
  (let kept := List.filter (fun c => MatchesFieldPaths c (rq_DisplayFieldPaths request)) changes in
   if rq_Reverse request then kept else rev kept) = [] ->
  length (rq_DisplayFieldPaths request) <> 0 /\
  Forall (fun c => MatchesFieldPaths c (rq_DisplayFieldPaths request) = false) changes.
Proof.
  intros Hs Hpage. cbn in Hpage.
  assert (List.filter (fun c => MatchesFieldPaths c (rq_DisplayFieldPaths request)) changes = []) as Hnone.
  { destruct (rq_Reverse request); [done|]. by apply (f_equal (@rev _)) in Hpage; rewrite rev_involutive in Hpage. }
  assert (Forall (fun c => MatchesFieldPaths c (rq_DisplayFieldPaths request) = false) changes) as Hall.
  { apply Forall_forall. intros c Hin. apply not_true_is_false. intros Hm.
    assert (c ∈ List.filter (fun c => MatchesFieldPaths c (rq_DisplayFieldPaths request)) changes) as Hbad.
    { apply list_elem_of_In, List.filter_In. by rewrite <- list_elem_of_In. }
    rewrite Hnone in Hbad. by apply not_elem_of_nil in Hbad. }
  split; [|done]. intros Hd. destruct changes as [|c changes]; [done|]. inversion Hall as [|? ? Hm]; subst.
  unfold MatchesFieldPaths in Hm. by rewrite bool_decide_true in Hm.
Qed.

(** C16: An answer to a question about an object's own history that shows none of its changes
    never leaves the silence bare. Unless it is the no-coverage finding, one of its
    notices is, word for word, one of seven sentences, and what was read is the evidence it
    calls for: the same window without the predicates holds a change, or could not be read;
    the display filter kept none of the changes returned; the backend has no scope log; the
    first interval of the scope begins after the window's start, or at or before it; or
    every row is an Event and no interval is recorded. (The sentence of an interval that
    begins in time goes on to say that nothing changed while it lasted, which reads past a
    window that ends sooner.) *)
Theorem silence_is_accounted_for engine request streams zone clock calls said r :
  gatherChanges engine request streams zone clock calls = (said, Ok r) ->
  rq_EventsOnly request = false -> sawChange (gr_Rows r) = false -> gr_Empty r = None ->
  exists changes notice,
    collectChanges engine (asked engine request (gr_From r) (gr_To r) zone) = Ok changes /\ notice ∈ gr_Notices r /\
    accounts engine request (asked engine request (gr_From r) (gr_To r) zone) (gr_From r) (gr_To r) zone changes (gr_Rows r) notice.
Proof.
  intros E He Hc Hempty. destruct (gather_inv _ _ _ _ _ _ _ _ E) as (changes & subjects & G).
  pose proof (gathered_page _ _ _ _ _ _ _ G) as Hpage. destruct G as [_ Hch Ha _ _ Hcov (before & explained & Hn & Hx)].
  exists changes. rewrite Hempty in Hx. unfold explain_page in Hx.
  change (rq_EventsOnly (with_subjects subjects request)) with (rq_EventsOnly request) in Hx. rewrite He in Hx.
  destruct (predicateNotice _ _ _ _ _ _ _) as [predicate attributed] eqn:Hp. apply predicate_cases in Hp.
  cbn in Hp. rewrite Hc, <- Ha in Hp.
  destruct Hp as [(-> & -> & _)|(-> & _ & Hf & outcome & Hany & Hne & ->)].
  - cbn [negb andb] in Hx. destruct (some (gr_Rows r) || bool_decide (length changes = 0)) eqn:Hgate.
    + destruct (explainNoChanges _ _ _ _ _ _ _) as [notices found] eqn:Hexp. destruct found; [done|].
      destruct (explainNoChanges_accounts engine request (asked engine request (gr_From r) (gr_To r) zone) _ _ _ changes _ _ _ _ He Hcov Hexp Hc)
        as (n & -> & Hacc).
      exists n. split; [done|]. split; [|done]. rewrite Hn. injection Hx as <-. apply elem_of_app. right.
      apply appended_keeps. set_solver.
    + apply orb_false_iff in Hgate as [Hrows Hs]. apply asked_nothing in Hrows. apply bool_decide_eq_false in Hs.
      rewrite Hrows in Hn, Hpage.
      destruct (display_kept_nothing request changes Hs (eq_sym Hpage)) as [Hd Hnone].
      eexists. split; [done|]. split; [|apply display_emptied; [by intros ->|done]].
      rewrite Hn. apply elem_of_app. left. unfold displayFilterNotice.
      rewrite !bool_decide_false by done. cbn [orb]. rewrite bool_decide_true by done. apply appended. by apply string_app_ne.
  - exists (explainNoMatches zone request (gr_From r) (gr_To r) outcome).1. split; [done|]. split.
    + rewrite Hn. injection Hx as <-. apply elem_of_app. right. apply appended_keeps, appended.
      destruct outcome as [[]|]; cbn; [done|done|]. by apply string_app_ne.
    + unfold anyChangeInWindow in Hany. rewrite <- Ha in Hany. destruct (collectChanges engine (probe _)) as [cs|err] eqn:Hpr.
      * subst outcome. destruct (some cs) eqn:Hs; [|done]. eapply filter_emptied; [done|done|]. intros ->. done.
      * subst outcome. by apply filter_unjudged.
Qed.
End page.

(** ** The header and the rows *)

Definition own_change (c : Change) : Prop := ch_EventType c <> EventKubernetes.

(** What a read plane promises of incarnations: a pinned query returns changes of the pinned
    one, and a query that neither pins one nor asks for all returns changes of a single one. *)
Class SingleIncarnation (engine : QueryEngine) : Prop := {
  pinned_only q it c : qe_Timeline engine q = Ok it -> tq_UID q <> "" -> c ∈ it_Changes it -> own_change c -> ch_UID c = tq_UID q;
  one_incarnation q it c c' : qe_Timeline engine q = Ok it -> tq_UID q = "" -> tq_AllIncarnations q = false ->
    c ∈ it_Changes it -> c' ∈ it_Changes it -> own_change c -> own_change c' -> ch_UID c = ch_UID c';
}.

Lemma collected engine q changes : collectChanges engine q = Ok changes ->
  exists it, qe_Timeline engine q = Ok it /\ it_Changes it = changes.
Proof.
  unfold collectChanges. destruct (qe_Timeline engine q) as [it|]; [|done].
  destruct (it_Err it); [done|]. destruct (it_Close it); [done|]. intros [= <-]. by exists it.
Qed.

Lemma chosen_pinned engine request from to : rq_AllIncarnations request = false ->
  ic_pinned (chosen engine request from to) = ic_uid (chosen engine request from to).
Proof.
  intros Ha. unfold chosen, chooseIncarnation, selectIncarnation, pinnedUID. destruct (rq_EventsOnly request); [done|].
  destruct (qe_Incarnations _ _ _ _); [|by rewrite Ha]. destruct (negb _); [done|]. by rewrite Ha.
Qed.

Lemma firstObjectUID_own `{PatchCodec} changes c : c ∈ changes -> own_change c ->
  exists c', c' ∈ changes /\ own_change c' /\ ch_UID c' = firstObjectUID (DecodeRows changes).
Proof.
  intros Hin Hown. induction changes as [|d changes IH]; [by apply not_elem_of_nil in Hin|]. cbn.
  assert (tr_Change (decode_row d) = d) as Hd by (unfold decode_row; by destruct (PatchOps _)).
  unfold is_commentary. rewrite Hd. case_bool_decide as Hev.
  - apply elem_of_cons in Hin as [->|Hin]; [done|]. destruct (IH Hin) as (c' & Hc' & Ho & Hu). exists c'. set_solver.
  - exists d. set_solver.
Qed.

(** C18: Whatever incarnation is chosen, and whether or not the incarnations could be listed, a
    page that does not ask for all of them shows changes of one object only, and it is the
    object whose UID the header names. *)
Theorem header_names_the_rows `{Strconv, PatchPaths, PatchCodec, Encoders, AnyCodec, JsonPatch} engine `{!SingleIncarnation engine}
    request streams zone clock calls said r :
  gatherChanges engine request streams zone clock calls = (said, Ok r) ->
  rq_AllIncarnations request = false ->
  Forall (fun row => own_change (tr_Change row) -> ch_UID (tr_Change row) = gr_UID r) (gr_Rows r).
Proof.
  intros E Hall. destruct (gather_inv _ _ _ _ _ _ _ _ E) as (changes & subjects & G).
  pose proof (gathered_page _ _ _ _ _ _ _ G) as Hpage. destruct G as [_ Hch Ha Huid _ _ _].
  destruct (collected _ _ _ Hch) as (it & Hit & <-). cbn in Hpage, Huid. rewrite Ha in Hit.
  apply Forall_forall. intros row Hrow Hown.
  assert (tr_Change row ∈ it_Changes it) as Hin.
  { assert (tr_Change row ∈ map tr_Change (gr_Rows r)) as Hm by (apply list_elem_of_In, List.in_map, list_elem_of_In, Hrow).
    rewrite Hpage in Hm. destruct (rq_Reverse request); [|rewrite list_elem_of_In, <- List.in_rev, <- list_elem_of_In in Hm];
      apply list_elem_of_In, List.filter_In in Hm as [Hm _]; by apply list_elem_of_In. }
  pose proof (chosen_pinned engine request (gr_From r) (gr_To r) Hall) as Hpin. rewrite Huid. case_bool_decide as Hu.
  - destruct (firstObjectUID_own _ _ Hin Hown) as (c' & Hc' & Hown' & <-).
    eapply one_incarnation; [exact Hit|cbn; congruence|exact Hall|done..].
  - rewrite <- Hpin. eapply (pinned_only _ _ _ Hit); [cbn; congruence|done..].
Qed.
