(* ===== verification/Table.v ===== *)
(** * Table: the human-readable renderings

    Models [src/internal/cli/render/event.go], [timeline.go], [diff.go], [blame.go],
    [scopes.go] and [severity.go]: the cells of each table and how they are laid out to a
    width, the hunks of a diff, the header above them, and the notices beside them.
    [TableSpec] is about the layout: a row's columns start where the heading's do, and
    no row is wider than the terminal it was asked to fit. *)

From stdpp Require Import pretty.
From S2P Require Import Prelude Calendar GoJson Diff QueryFilter ScopeLog Replay Pointer RedactParse Render Archive ArchiveState Blame Coldscan Gather.

(** ** Options and colours *)

Record renderOptions := mkOptions {
  ro_Width : Z;
  ro_Color : bool;
  ro_Wide : bool;
  ro_Full : bool;
  ro_EventsOnly : bool;
  ro_Owned : bool;
  ro_Zone : Zone;
}.

Definition width (o : renderOptions) : Z := if bool_decide (ro_Width o <= 0)%Z then DefaultWidth else ro_Width o.

Definition ansi (code : list Z) : string := bytes ([27; 91] ++ code ++ [109])%Z.
Definition ansiBold : string := ansi [49]%Z.
Definition ansiDim : string := ansi [50]%Z.
Definition ansiRed : string := ansi [51; 49]%Z.
Definition ansiGreen : string := ansi [51; 50]%Z.
Definition ansiBlue : string := ansi [51; 52]%Z.
Definition ansiMagenta : string := ansi [51; 53]%Z.
Definition ansiCyan : string := ansi [51; 54]%Z.

(** A palette is whether it is enabled, and so is a [Severity]. *)
Definition dim (p : bool) (text : string) : string := paint p ansiDim text.
Definition red (p : bool) (text : string) : string := paint p ansiRed text.
Definition Warning (p : bool) (text : string) : string := paint p ansiYellow text.
Definition Provenance (p : bool) (text : string) : string := dim p text.
Definition Emphasis (p : bool) (text : string) : string := paint p ansiBold text.

Definition EventModified : string := "Modified".
Definition EventSnapshot : string := "Snapshot".
Definition EventCheckpoint : string := "Checkpoint".

Definition eventColor (p : bool) (eventType : string) : string :=
  if bool_decide (eventType = EventAdded) then paint p ansiGreen eventType
  else if bool_decide (eventType = EventModified) then paint p ansiYellow eventType
  else if bool_decide (eventType = EventDeleted) then paint p ansiRed eventType
  else if bool_decide (eventType = EventSnapshot) then paint p ansiBlue eventType
  else if bool_decide (eventType = EventCheckpoint) then paint p ansiCyan eventType
  else if bool_decide (eventType = EventKubernetes) then paint p ansiMagenta eventType
  else eventType.

Definition opColor (p : bool) (opType text : string) : string :=
  if bool_decide (opType = OpAdd) then paint p ansiGreen text
  else if bool_decide (opType = OpRemove) then paint p ansiRed text
  else if bool_decide (opType = OpReplace) then paint p ansiYellow text
  else text.

(** ** event.go *)

(** The whole number a decoded [float64] is equal to; [None] for one with a fraction and
    for a value that is not a number. *)
Class Floats := { whole_number : json -> option Z }.

Definition EventTypeWarning : string := "Warning".
Definition WarningGlyph : string := bytes [226; 154; 160]%Z.
Definition CountGlyph : string := bytes [195; 151]%Z.

Record EventDetail := mkDetail {
  ed_Type : string;
  ed_Reason : string;
  ed_Message : string;
  ed_Reporter : string;
  ed_SubjectKind : string;
  ed_SubjectName : string;
  ed_Count : Z;
}.

Definition detail_Subject (e : EventDetail) : string :=
  if bool_decide (ed_SubjectName e = "") then ""
  else if bool_decide (ed_SubjectKind e = "") then ed_SubjectName e
  else ed_SubjectKind e +:+ "/" +:+ ed_SubjectName e.

Definition detail_Warning (e : EventDetail) : bool := bool_decide (ed_Type e = EventTypeWarning).

Definition stringField (o : object) (name : string) : string := default "" (o !! name ≫= as_str).

Fixpoint firstNonEmpty (values : list string) : string :=
  match values with
  | [] => ""
  | value :: rest => if bool_decide (value = "") then firstNonEmpty rest else value
  end.

Definition maxEventCount : Z := Z.shiftl 1 31 - 1.

Definition numberField `{Floats} (o : object) (name : string) : Z :=
  match o !! name ≫= whole_number with
  | Some value => if bool_decide (value < 1)%Z || bool_decide (maxEventCount < value)%Z then 0 else value
  | None => 0
  end.

Definition eventCount `{Floats} (o : object) : Z :=
  let count := Z.max (numberField o "count") (numberField o "deprecatedCount") in
  match o !! "series" ≫= as_obj with
  | Some series => Z.max count (numberField series "count")
  | None => count
  end.

Definition eventSubject (o : object) : string * string :=
  foldl (fun acc field =>
    match o !! field ≫= as_obj with
    | None => acc
    | Some subject => (firstNonEmpty [acc.1; stringField subject "kind"], firstNonEmpty [acc.2; stringField subject "name"])
    end) ("", "") ["involvedObject"; "regarding"].

Definition eventReporter (o : object) : string :=
  firstNonEmpty (stringField o "reportingController" ::
    map (fun field => match o !! field ≫= as_obj with Some source => stringField source "component" | None => "" end)
      ["source"; "deprecatedSource"]).

(** Decoding [null] leaves the map nil, and anything but an object is an error. *)
Definition ParseEvent `{AnyCodec, Floats} (data : string) : option EventDetail :=
  if blank data then None
  else match decode_any data with
       | Some (JObj o) =>
           let '(kind, name) := eventSubject o in
           Some (mkDetail (stringField o "type") (stringField o "reason")
                   (firstNonEmpty [stringField o "message"; stringField o "note"]) (eventReporter o) kind name (eventCount o))
       | _ => None
       end.

Definition countSuffix (e : EventDetail) : string :=
  if bool_decide (ed_Count e < 2)%Z then "" else " " +:+ CountGlyph +:+ pretty (ed_Count e).

Definition trim_prefix (s p : string) : string := default s (cut_prefix s p).

Definition countPrefix (e : EventDetail) : string :=
  if bool_decide (countSuffix e = "") then "" else trim_prefix (countSuffix e) " " +:+ " ".

Definition detail_Summary (e : EventDetail) : string :=
  let text :=
    if bool_decide (ed_Reason e = "") then
      if bool_decide (ed_Message e = "") then countPrefix e +:+ "Kubernetes Event with no reason or message recorded"
      else countPrefix e +:+ collapseWhitespace (ed_Message e)
    else if negb (bool_decide (ed_Message e = "")) then ed_Reason e +:+ countSuffix e +:+ ": " +:+ collapseWhitespace (ed_Message e)
    else ed_Reason e +:+ countSuffix e in
  if detail_Warning e then WarningGlyph +:+ " " +:+ text else text.

(** ** The header *)

Record documentHeader := mkHeader {
  dh_Kind : string;
  dh_Object : string;
  dh_Cluster : string;
  dh_UID : string;
  dh_Incarnations : list string;
  dh_Window : string;
  dh_Owned : string;
  dh_Base : string;
  dh_Coverage : string;
  dh_CoverageOf : string;
  dh_CoverageAbsent : bool;
}.

Definition incarnationsLabel : string := "Incarnations".
Definition coverageLabel : string := "Coverage".
Definition gutter : string := "  ".

Definition coverageOfLabel (whose : string) : string :=
  if bool_decide (whose = "") then coverageLabel else coverageLabel +:+ " (" +:+ whose +:+ ")".

Definition given (label value : string) : list (string * string * bool) :=
  if bool_decide (value = "") then [] else [(label, value, false)].

(** Label, value, and whether the value is the coverage. *)
Definition header_fields (doc : documentHeader) : list (string * string * bool) :=
  [("Kind", dh_Kind doc, false); ("Object", dh_Object doc, false); ("Cluster", dh_Cluster doc, false)] ++
  (if bool_decide (0 < length (dh_Incarnations doc)) then [(incarnationsLabel, "", false)] else given "UID" (dh_UID doc)) ++
  given "Owned" (dh_Owned doc) ++ given "Window" (dh_Window doc) ++ given "Base" (dh_Base doc) ++
  [(coverageOfLabel (dh_CoverageOf doc), dh_Coverage doc, true)].

Definition widest (texts : list string) : Z := foldl (fun w text => Z.max w (displayWidth text)) 0%Z texts.

(** [strings.Repeat(" ", n)], which panics on a negative count. *)
Definition blanks (n : Z) : string := spaces (Z.to_nat n).

Definition renderIncarnations (doc : documentHeader) (indent : Z) : string :=
  of_runes (imap (fun i uid =>
    (match i with O => "" | S _ => blanks indent end) +:+ uid +:+
    (if bool_decide (uid = dh_UID doc) then " (current)" else "") +:+ newline_text) (dh_Incarnations doc)).

Definition renderHeader (doc : documentHeader) (severity : bool) : string :=
  let fields := header_fields doc in
  let labelWidth := widest (map (fun f => f.1.1) fields) in
  of_runes (map (fun '(label, value, coverage) =>
    let lead := dim severity (label +:+ ":") +:+ blanks (labelWidth - displayWidth label) +:+ " " in
    if bool_decide (label = incarnationsLabel) then lead +:+ renderIncarnations doc (labelWidth + 2)
    else lead +:+ (if coverage && dh_CoverageAbsent doc then Warning severity value else value) +:+ newline_text) fields).

(** ** Cells *)

Definition columnUID : string := "UID".
Definition columnSubject : string := "SUBJECT".
Definition columnEvent : string := "EVENT".
Definition columnRevision : string := "RESOURCE VERSION".
Definition columnActor : string := "ACTOR".
Definition columnChange : string := "CHANGE".
Definition UnknownSubject : string := "unknown".
Definition UnknownActor : string := "unknown".
Definition uidPrefixLength : nat := 8.

Definition formatTimestamp (ts : Z) (wide : bool) (zone : Zone) : string := if wide then Wide zone ts else Narrow zone ts.

Definition valueOrDash (value : string) : string := if bool_decide (value = "") then "-" else value.

Definition formatUID (uid : string) (wide : bool) : string :=
  if wide || bool_decide (String.length uid <= uidPrefixLength) then valueOrDash uid
  else str_take uidPrefixLength uid +:+ Ellipsis.

Definition describeFullState : string := "full state recorded".
Definition describeSnapshot : string := "full state recorded (snapshot)".
Definition describeCheckpoint : string := "full state recorded (checkpoint)".
Definition describeNoPatch : string := "full state recorded (no patch produced)".
Definition describeDeleted : string := "object deleted".
Definition describeNoDetail : string := "no state and no patch recorded".
Definition describeEmptyPatch : string := "patch recorded with no operations".

Definition describeState (change : Change) : string :=
  if bool_decide (ch_Data change = "") then describeNoDetail
  else if bool_decide (ch_EventType change = EventSnapshot) then describeSnapshot
  else if bool_decide (ch_EventType change = EventCheckpoint) then describeCheckpoint
  else if bool_decide (ch_EventType change = EventModified) then describeNoPatch
  else describeFullState.

(** A document's headings are the ones it pads and the last one. *)
Definition headerLine (headings : list string) (widths : list Z) : string :=
  of_runes (imap (fun i heading =>
    (match i with O => "" | S _ => gutter end) +:+
    match widths !! i with Some w => pad heading w | None => heading end) headings).

(** [strings.TrimRight(s, " ")]. *)
Definition trim_spaces (s : string) : string := String.rev (trim_left " "%char (String.rev s)).

Definition raise (widths : list Z) (cells : list string) : list Z := zip_with (fun w cell => Z.max w (displayWidth cell)) widths cells.

(** The widths of the headings, raised to those of the cells. *)
Definition column_widths (headings : list string) (rows : list (list string)) : list Z := foldl raise (map displayWidth headings) rows.

Definition spent (widths : list Z) : Z := foldl (fun n w => (n + (w + Z.of_nat (String.length gutter)))%Z) 0%Z widths.

(** ** timeline.go *)

Record TimelineDocument := mkTimelineDocument {
  td_Kind : string;
  td_Object : string;
  td_Cluster : string;
  td_UID : string;
  td_Incarnations : list string;
  td_Coverage : string;
  td_CoverageOf : string;
  td_CoverageAbsent : bool;
  td_Owned : string;
  td_Subject : string;
  td_Rows : list TimelineRow;
  td_Notices : list string;
}.

Definition showUID (d : TimelineDocument) (opts : renderOptions) : bool :=
  bool_decide (0 < length (td_Incarnations d)) || ro_Wide opts.

Definition timeline_header (d : TimelineDocument) : documentHeader :=
  mkHeader (td_Kind d) (td_Object d) (td_Cluster d) (td_UID d) (td_Incarnations d) "" (td_Owned d) "" (td_Coverage d)
    (td_CoverageOf d) (td_CoverageAbsent d).

Definition fullIndent : string := "    ".

Section rendering.
Context `{AnyCodec, Floats}.
(** The [%v] of a value that will not marshal. *)
Variable rendered : json -> string.

Definition actorCell (row : TimelineRow) : string :=
  let change := tr_Change row in
  if bool_decide (0 < length (ch_Actors change)) then join "," (ch_Actors change)
  else if bool_decide (ch_EventType change = EventKubernetes) then
    match ParseEvent (ch_Data change) with
    | Some detail => if bool_decide (ed_Reporter detail = "") then UnknownActor else ed_Reporter detail
    | None => UnknownActor
    end
  else UnknownActor.

Definition subjectCell (row : TimelineRow) (subject : string) : string :=
  if negb (bool_decide (ch_EventType (tr_Change row) = EventKubernetes)) then subject
  else match ParseEvent (ch_Data (tr_Change row)) with
       | Some detail => if bool_decide (detail_Subject detail = "") then UnknownSubject else detail_Subject detail
       | None => UnknownSubject
       end.

Definition plainCells (row : TimelineRow) (subject : string) (showUID : bool) (opts : renderOptions) : list string :=
  let change := tr_Change row in
  [formatTimestamp (ch_TS change) (ro_Wide opts) (ro_Zone opts)] ++
  (if showUID then [formatUID (ch_UID change) (ro_Wide opts)] else []) ++
  (if ro_Owned opts then [subjectCell row subject] else []) ++
  [ch_EventType change] ++
  (if ro_Wide opts then [valueOrDash (ch_ResourceVersion change)] else []) ++
  [actorCell row].

Definition headings (showUID : bool) (opts : renderOptions) : list string :=
  [TimeColumn (ro_Zone opts)] ++
  (if showUID then [columnUID] else []) ++
  (if ro_Owned opts then [columnSubject] else []) ++
  [columnEvent] ++
  (if ro_Wide opts then [columnRevision] else []) ++
  [columnActor].

Definition eventCell (row : TimelineRow) (width : Z) (p : bool) : string :=
  match ParseEvent (ch_Data (tr_Change row)) with
  | None => truncate "Kubernetes Event with no data recorded" width
  | Some detail =>
      let fitted := truncate (detail_Summary detail) width in
      if negb (detail_Warning detail) then fitted else red p WarningGlyph +:+ trim_prefix fitted WarningGlyph
  end.

Definition changeCell (row : TimelineRow) (width : Z) (p : bool) : string :=
  let change := tr_Change row in
  if bool_decide (ch_EventType change = EventKubernetes) then eventCell row width p
  else if bool_decide (ch_EventType change = EventDeleted) then truncate describeDeleted width
  else if negb (bool_decide (tr_PatchErr row = "")) then truncate ("unreadable patch: " +:+ tr_PatchErr row) width
  else match tr_Ops row with
       | [op] => opText rendered op width
       | _ :: _ => multiOpSummary (length (tr_Ops row))
       | [] => if negb (bool_decide (ch_Diff change = "")) then truncate describeEmptyPatch width
               else truncate (describeState change) width
       end.

Definition elided (row : TimelineRow) (changeWidth : Z) : bool :=
  let eventType := ch_EventType (tr_Change row) in
  if bool_decide (eventType = EventKubernetes) || bool_decide (eventType = EventDeleted) then false
  else match tr_Ops row with
       | [] => false
       | [op] => negb (bool_decide (opText rendered op changeWidth = opText rendered op 0))
       | _ => true
       end.

Definition fullLines (row : TimelineRow) (changeWidth : Z) (p : bool) : list string :=
  if negb (bool_decide (tr_PatchErr row = "")) then [Provenance p ("patch could not be decoded: " +:+ tr_PatchErr row)]
  else if negb (elided row changeWidth) then []
  else map (fun op => let '(marker, detail) := opTextParts rendered op in marker +:+ Provenance p detail) (tr_Ops row).

Definition paintCell (cell heading : string) (p : bool) : string :=
  if bool_decide (heading = columnEvent) then eventColor p cell
  else if bool_decide (heading = columnActor) && bool_decide (cell = UnknownActor) then dim p cell
  else cell.

(** The padded cells, each after a gutter but the first, and the gutter before the change. *)
Definition row_lead (cells headings : list string) (widths : list Z) (p : bool) : string :=
  of_runes (imap (fun i cell =>
    (match i with O => "" | S _ => gutter end) +:+ paintCell cell (default "" (headings !! i)) p +:+
    blanks (Z.max (default 0%Z (widths !! i) - displayWidth cell) 0) +:+
    (if bool_decide (S i = length cells) then gutter else "")) cells).

Definition renderRow (row : TimelineRow) (cells headings : list string) (widths : list Z) (changeWidth : Z) (opts : renderOptions)
    (p : bool) : string :=
  row_lead cells headings widths p +:+ changeCell row changeWidth p +:+ newline_text +:+
  (if ro_Full opts then
     match fullLines row changeWidth p with
     | [] => ""
     | lines => of_runes (map (fun line => fullIndent +:+ line +:+ newline_text) lines) +:+ newline_text
     end
   else "").

Definition table_widths (doc : TimelineDocument) (opts : renderOptions) : list Z :=
  column_widths (headings (showUID doc opts) opts)
    (map (fun row => plainCells row (td_Subject doc) (showUID doc opts) opts) (td_Rows doc)).

Definition change_width (doc : TimelineDocument) (opts : renderOptions) : Z :=
  Z.max (width opts - spent (table_widths doc opts)) minChangeWidth.

Definition renderTable (doc : TimelineDocument) (opts : renderOptions) (p : bool) : string * nat :=
  let fixed := headings (showUID doc opts) opts in
  let widths := table_widths doc opts in
  let changeWidth := change_width doc opts in
  (dim p (trim_spaces (headerLine (fixed ++ [columnChange]) widths)) +:+ newline_text +:+
   of_runes (map (fun row => renderRow row (plainCells row (td_Subject doc) (showUID doc opts) opts) fixed widths changeWidth opts p)
               (td_Rows doc)),
   length (List.filter (fun row => elided row changeWidth) (td_Rows doc))).

Definition renderTimeline (doc : TimelineDocument) (opts : renderOptions) : string * nat :=
  let header := renderHeader (timeline_header doc) (ro_Color opts) in
  if bool_decide (length (td_Rows doc) = 0) then (header, 0)
  else
    let '(table, shortened) := renderTable doc opts (ro_Color opts) in
    (header +:+ newline_text +:+ table, shortened).

Definition fullHint (shortened : nat) (opts : renderOptions) : string :=
  if bool_decide (shortened = 0) || ro_Full opts then ""
  else Itoa shortened +:+ " " +:+ (if bool_decide (shortened = 1) then "row is" else "rows are") +:+
    " shortened to fit the " +:+ columnChange +:+ " column; pass --full to print every operation".

Definition eventsHint (doc : TimelineDocument) (opts : renderOptions) : string :=
  if ro_EventsOnly opts then ""
  else if negb (sawEvent (td_Rows doc)) || negb (sawChange (td_Rows doc)) then ""
  else "this timeline interleaves Kubernetes Events with the object's own changes; pass --events-only for the Events alone".

(** A text and its notices, written to the two streams. *)
Definition write_page (stdout : string -> option string) (streams : IOStreams) (what whose text : string) (notices : list string) (color : bool)
    : list string * narrated unit :=
  match stdout text with
  | Some err => ([], ([], Err (mkGoError ("writing the " +:+ what +:+ ": " +:+ err) None [])))
  | None =>
      ([text],
       if bool_decide (length notices = 0) then ([], Ok tt)
       else
         let said := renderNotices notices color in
         match io_ErrOut streams said with
         | Some err => ([], Err (mkGoError ("writing the " +:+ whose +:+ " notices: " +:+ err) None []))
         | None => ([said], Ok tt)
         end)
  end.

Definition timeline_notices (doc : TimelineDocument) (opts : renderOptions) : list string :=
  appendNotice (appendNotice (td_Notices doc) (fullHint (renderTimeline doc opts).2 opts)) (eventsHint doc opts).

Definition WriteTimeline (stdout : string -> option string) (streams : IOStreams) (doc : TimelineDocument) (opts : renderOptions)
    : list string * narrated unit :=
  write_page stdout streams "timeline" "timeline's" (renderTimeline doc opts).1 (timeline_notices doc opts) (ro_Color opts).

(** ** diff.go *)

Definition RedactionSentinel : string := "[REDACTED]".
Definition redactionMarker : string := "  (redacted by policy)".
Definition MaxValueRunes : Z := 200.
Definition MaxOpsPerChange : nat := 20.
Definition opIndent : string := "  ".
Definition valueIndent : string := "      ".

Record DiffDocument := mkDiffDocument {
  dd_Kind : string;
  dd_Object : string;
  dd_Cluster : string;
  dd_UID : string;
  dd_Coverage : string;
  dd_CoverageAbsent : bool;
  dd_Changes : list TimelineRow;
  dd_Notices : list string;
}.

Definition diff_header (d : DiffDocument) : documentHeader :=
  mkHeader (dd_Kind d) (dd_Object d) (dd_Cluster d) (dd_UID d) [] "" "" "" (dd_Coverage d) "" (dd_CoverageAbsent d).

Definition plural (count : Z) (noun : string) : string := if bool_decide (count = 1)%Z then noun else noun +:+ "s".

Definition changeHeaderLine (row : TimelineRow) (opts : renderOptions) (p : bool) : string :=
  let change := tr_Change row in
  let actor := actorCell row in
  join gutter ([formatTimestamp (ch_TS change) (ro_Wide opts) (ro_Zone opts); eventColor p (ch_EventType change)] ++
    (if ro_Wide opts then ["rv " +:+ valueOrDash (ch_ResourceVersion change)] else []) ++
    [if bool_decide (actor = UnknownActor) then dim p actor else actor]).

(** The bytes left out are counted, not the characters. *)
Definition fitValue (value : string) (full : bool) : string * bool :=
  if bool_decide (value = RedactionSentinel) then (value, true)
  else if full || bool_decide (displayWidth value <= MaxValueRunes)%Z then (value, false)
  else
    let head := of_runes (take (Z.to_nat MaxValueRunes) (runes value)) in
    let remainder := (Z.of_nat (String.length value) - Z.of_nat (String.length head))%Z in
    (head +:+ Ellipsis +:+ "(" +:+ pretty remainder +:+ " more " +:+ plural remainder "byte" +:+ ", --full)", false).

Definition markerOp (marker : string) : string := if bool_decide (marker = "-") then OpRemove else OpAdd.

Definition valueLine (marker value : string) (opts : renderOptions) (p : bool) : string :=
  let '(shown, redacted) := fitValue value (ro_Full opts) in
  valueIndent +:+ opColor p (markerOp marker) (marker +:+ " " +:+ shown) +:+ (if redacted : bool then dim p redactionMarker else "").

Definition oldValueLine (op : Op) (opts : renderOptions) (p : bool) : string :=
  if negb (ro_OldKnown op) then valueIndent +:+ dim p ("-" +:+ " (prior value not established)")
  else valueLine "-" (valueOf rendered (ro_Old op)) opts p.

Definition hunk (op : Op) (opts : renderOptions) (p : bool) : list string :=
  let budget := (width opts - displayWidth opIndent - 2)%Z in
  let path := if bool_decide (0 < budget)%Z then Elide (DisplayPath (ro_Path op)) budget else DisplayPath (ro_Path op) in
  let added := valueLine "+" (valueText (ro_Value op)) opts p in
  (opIndent +:+ opColor p (ro_Type op) (glyph (ro_Type op) +:+ " " +:+ path)) ::
  (if bool_decide (ro_Type op = OpAdd) then [added]
   else if bool_decide (ro_Type op = OpRemove) then [oldValueLine op opts p]
   else if bool_decide (ro_Type op = OpReplace) then [oldValueLine op opts p; added]
   else if negb (bool_decide (ro_From op = "")) then [valueIndent +:+ dim p ("from " +:+ DisplayPath (ro_From op))]
   else [added]).

(** The operations shown, and how many are withheld. *)
Definition shown_ops (ops : list Op) (full : bool) : list Op * nat :=
  if negb full && bool_decide (MaxOpsPerChange < length ops) then (take MaxOpsPerChange ops, length ops - MaxOpsPerChange) else (ops, 0).

Definition hunkLines (row : TimelineRow) (opts : renderOptions) (p : bool) : list string :=
  let change := tr_Change row in
  if bool_decide (ch_EventType change = EventDeleted) then [opIndent +:+ describeDeleted]
  else if negb (bool_decide (tr_PatchErr row = "")) then [opIndent +:+ "unreadable patch: " +:+ tr_PatchErr row]
  else match tr_Ops row with
       | [] => if negb (bool_decide (ch_Diff change = "")) then [opIndent +:+ describeEmptyPatch] else [opIndent +:+ describeState change]
       | ops =>
           let '(shown, withheld) := shown_ops ops (ro_Full opts) in
           flat_map (fun op => hunk op opts p) shown ++
           (if bool_decide (0 < withheld) then
              [opIndent +:+ dim p (Ellipsis +:+ " and " +:+ Itoa withheld +:+ " more " +:+ plural (Z.of_nat withheld) "operation" +:+ " (--full)")]
            else [])
       end.

Definition renderChangeBlock (row : TimelineRow) (opts : renderOptions) (p : bool) : string :=
  of_runes (map (fun line => line +:+ newline_text) (changeHeaderLine row opts p :: hunkLines row opts p)).

Definition renderDiff (doc : DiffDocument) (opts : renderOptions) : string :=
  renderHeader (diff_header doc) (ro_Color opts) +:+
  of_runes (map (fun change => newline_text +:+ renderChangeBlock change opts (ro_Color opts)) (dd_Changes doc)).

Definition WriteDiff (stdout : string -> option string) (streams : IOStreams) (doc : DiffDocument) (opts : renderOptions)
    : list string * narrated unit :=
  write_page stdout streams "diff" "diff's" (renderDiff doc opts) (dd_Notices doc) (ro_Color opts).
End rendering.

(** ** blame.go *)

Definition columnField : string := "FIELD".
Definition columnLastChanged : string := "LAST CHANGED".
Definition columnFields : string := "FIELDS".
Definition RemovedMarker : string := "(removed)".

Record BlameDocument := mkBlameDocument {
  bd_Kind : string;
  bd_Object : string;
  bd_Cluster : string;
  bd_UID : string;
  bd_Window : string;
  bd_Base : string;
  bd_Coverage : string;
  bd_CoverageAbsent : bool;
  bd_Rows : list BlameRow;
  bd_Notices : list string;
}.

Definition blame_header (d : BlameDocument) : documentHeader :=
  mkHeader (bd_Kind d) (bd_Object d) (bd_Cluster d) (bd_UID d) [] (bd_Window d) "" (bd_Base d) (bd_Coverage d) "" (bd_CoverageAbsent d).

Definition collapsed (rows : list BlameRow) : bool := existsb (fun row => bool_decide (1 < br_Fields row)) rows.

Definition blameField (row : BlameRow) : string := if br_Removed row then br_Path row +:+ gutter +:+ RemovedMarker else br_Path row.

Definition lastChangedCell (row : BlameRow) (wide : bool) (zone : Zone) : string :=
  if negb (br_Attributed row) then BeforeWindow else formatTimestamp (br_TS row) wide zone.

Definition blameActor (row : BlameRow) : string :=
  if negb (br_Attributed row) then valueOrDash ""
  else if bool_decide (length (br_Actors row) = 0) then UnknownActor
  else join "," (br_Actors row).

Definition blameCells (row : BlameRow) (showFields : bool) (opts : renderOptions) : list string :=
  [blameField row; lastChangedCell row (ro_Wide opts) (ro_Zone opts)] ++
  (if ro_Wide opts then [valueOrDash (br_ResourceVersion row)] else []) ++
  (if showFields then [Itoa (br_Fields row)] else []) ++ [blameActor row].

Definition blame_headings (showFields : bool) (opts : renderOptions) : list string :=
  [columnField; columnLastChanged] ++ (if ro_Wide opts then [columnRevision] else []) ++
  (if showFields then [columnFields] else []) ++ [columnActor].

(** The first width is the field column's. *)
Definition fieldWidth (widths : list Z) (opts : renderOptions) : Z :=
  Z.max (Z.min (default 0%Z (head widths)) (width opts - spent (tail widths))) minPathWidth.

Definition fieldCell (row : BlameRow) (cell : string) (width : Z) : string :=
  if negb (br_Removed row) then Elide cell width
  else
    let suffix := gutter +:+ RemovedMarker in
    Elide (br_Path row) (Z.max (width - displayWidth suffix) 1) +:+ suffix.

Definition paintBlameCell (row : BlameRow) (cell heading : string) (p : bool) : string :=
  if bool_decide (heading = columnField) && br_Removed row then paint p ansiRed cell
  else if bool_decide (heading = columnLastChanged) && negb (br_Attributed row) then dim p cell
  else if bool_decide (heading = columnActor) && (negb (br_Attributed row) || bool_decide (cell = UnknownActor)) then dim p cell
  else cell.

Definition renderBlameRow (row : BlameRow) (cells headings : list string) (widths : list Z) (p : bool) : string :=
  of_runes (imap (fun i cell =>
    (match i with O => "" | S _ => gutter end) +:+ paintBlameCell row cell (default "" (headings !! i)) p +:+
    (if bool_decide (S i < length cells) then blanks (Z.max (default 0%Z (widths !! i) - displayWidth cell) 0) else "")) cells).

Definition first_cell (f : string -> string) (cells : list string) : list string :=
  match cells with [] => [] | cell :: rest => f cell :: rest end.

Definition renderBlameTable (doc : BlameDocument) (opts : renderOptions) (p : bool) : string :=
  let showFields := collapsed (bd_Rows doc) in
  let headings := blame_headings showFields opts in
  let measured := column_widths headings (map (fun row => blameCells row showFields opts) (bd_Rows doc)) in
  let widths := fieldWidth measured opts :: tail measured in
  let cells row := first_cell (fun cell => fieldCell row cell (fieldWidth measured opts)) (blameCells row showFields opts) in
  dim p (trim_spaces (headerLine headings (removelast widths))) +:+ newline_text +:+
  of_runes (map (fun row => trim_spaces (renderBlameRow row (cells row) headings widths p) +:+ newline_text) (bd_Rows doc)).

Definition renderBlame (doc : BlameDocument) (opts : renderOptions) : string :=
  let header := renderHeader (blame_header doc) (ro_Color opts) in
  if bool_decide (length (bd_Rows doc) = 0) then header
  else header +:+ newline_text +:+ renderBlameTable doc opts (ro_Color opts).

Definition WriteBlame (stdout : string -> option string) (streams : IOStreams) (doc : BlameDocument) (opts : renderOptions)
    : list string * narrated unit :=
  write_page stdout streams "attribution" "attribution's" (renderBlame doc opts) (bd_Notices doc) (ro_Color opts).

(** ** scopes.go *)

Definition OpenInterval : string := "(open)".
Definition AllNamespaces : string := "(all)".
Definition unrecordedRule : string := "(not recorded)".

Record ScopesDocument := mkScopesDocument {
  sd_Cluster : string;
  sd_Scope : string;
  sd_Window : string;
  sd_Intervals : list ScopeInterval;
  sd_Notices : list string;
}.

Definition ScopeKind (apiGroup kind : string) : string := if bool_decide (apiGroup = "") then kind else apiGroup +:+ "/" +:+ kind.
Definition ScopeNamespace (interval : ScopeInterval) : string := if bool_decide (iv_Namespace interval = "") then AllNamespaces else iv_Namespace interval.
Definition ScopeRule (interval : ScopeInterval) : string := if bool_decide (iv_RuleRef interval = "") then unrecordedRule else iv_RuleRef interval.

Definition scopeCells (interval : ScopeInterval) (wide : bool) (zone : Zone) : list string :=
  [ScopeKind (iv_APIGroup interval) (iv_Kind interval); ScopeNamespace interval; formatTimestamp (iv_From interval) wide zone;
   match iv_To interval with Some t => formatTimestamp t wide zone | None => OpenInterval end; ScopeRule interval].

Definition renderScopeRow (cells : list string) (widths : list Z) (p : bool) : string :=
  of_runes (imap (fun i cell =>
    let painted := if bool_decide (cell = OpenInterval) then paint p ansiGreen cell else cell in
    (match i with O => "" | S _ => gutter end) +:+ painted +:+
    match widths !! i with Some w => blanks (Z.max (w - displayWidth cell) 0) | None => "" end) cells).

Definition scope_headings : list string := ["KIND"; "NAMESPACE"; "FROM"; "TO"; "RULE"].

Definition renderScopeTable (doc : ScopesDocument) (opts : renderOptions) (p : bool) : string :=
  let rows := map (fun interval => scopeCells interval (ro_Wide opts) (ro_Zone opts)) (sd_Intervals doc) in
  let widths := column_widths (removelast scope_headings) rows in
  dim p (trim_spaces (headerLine scope_headings widths)) +:+ newline_text +:+
  of_runes (map (fun cells => trim_spaces (renderScopeRow cells widths p) +:+ newline_text) rows).

Definition renderScopeHeader (doc : ScopesDocument) (p : bool) : string :=
  let fields := [("Cluster", sd_Cluster doc); ("Scope", sd_Scope doc); ("Window", sd_Window doc)] in
  let labelWidth := widest (map fst fields) in
  of_runes (map (fun '(label, value) =>
    dim p (label +:+ ":") +:+ blanks (labelWidth - displayWidth label) +:+ " " +:+ value +:+ newline_text) fields).

Definition renderScopes (doc : ScopesDocument) (opts : renderOptions) : string :=
  let header := renderScopeHeader doc (ro_Color opts) in
  if bool_decide (length (sd_Intervals doc) = 0) then header
  else header +:+ newline_text +:+ renderScopeTable doc opts (ro_Color opts).

Definition WriteScopes (stdout : string -> option string) (streams : IOStreams) (doc : ScopesDocument) (opts : renderOptions)
    : list string * narrated unit :=
  write_page stdout streams "watch scopes" "watch scopes'" (renderScopes doc opts) (sd_Notices doc) (ro_Color opts).
