(* ===== verification/TableSpec.v ===== *)
(** * TableSpec: the layout of the tables

    The columns of a timeline's row start where those of its heading do, and no row is
    wider than the terminal it was laid out for, unless the columns before the change
    already leave it less than the least the change is given. *)

From stdpp Require Import pretty.
From S2P Require Import Prelude Calendar GoJson Diff QueryFilter ScopeLog Replay Pointer RedactParse Render Archive ArchiveState Blame Coldscan Gather Table.

(** ** Gutters *)

Lemma gutter_width t : displayWidth (gutter +:+ t) = (2 + displayWidth t)%Z.
Proof.
  change (gutter +:+ t) with (" " +:+ (" " +:+ t)). rewrite !(width_rune " ") by (by apply ascii_rune). lia.
Qed.

(** A gutter before each cell but the first and after the last is one after each. *)
Lemma gutters_between l : of_runes (imap (fun i s => gutter +:+ s +:+ (if bool_decide (S i = length l) then gutter else "")) l) =
  match l with [] => "" | _ => gutter +:+ of_runes (map (fun s => s +:+ gutter) l) end.
Proof.
  induction l as [|s l IH]; [done|]. rewrite imap_cons. cbn [length map of_runes foldr]. fold (of_runes (map (fun s => s +:+ gutter) l)).
  match goal with |- context [imap ?f l] => replace (imap f l) with
    (imap (fun i s => gutter +:+ s +:+ (if bool_decide (S i = length l) then gutter else "")) l) end.
  2: { apply imap_ext. intros i x _. cbn. do 2 f_equal. by destruct (bool_decide_reflect (S i = length l)), (bool_decide_reflect (S (S i) = S (length l))); (lia || done). }
  fold (of_runes (imap (fun i s => gutter +:+ s +:+ (if bool_decide (S i = length l) then gutter else "")) l)). rewrite IH.
  destruct l as [|s' l]; cbn [length].
  - rewrite bool_decide_true by done. by rewrite !string_app_nil_r.
  - rewrite bool_decide_false by lia. by rewrite string_app_nil_r, !string_app_assoc.
Qed.

Lemma gutters_after l : of_runes (imap (fun i s => (match i with O => "" | S _ => gutter end) +:+ s +:+
    (if bool_decide (S i = length l) then gutter else "")) l) = of_runes (map (fun s => s +:+ gutter) l).
Proof.
  destruct l as [|s l]; [done|]. rewrite imap_cons. cbn [length map of_runes foldr]. fold (of_runes (map (fun s => s +:+ gutter) l)).
  match goal with |- context [imap ?f l] => replace (imap f l) with
    (imap (fun i s => gutter +:+ s +:+ (if bool_decide (S i = length l) then gutter else "")) l) end.
  2: { apply imap_ext. intros i x _. cbn. do 2 f_equal. by destruct (bool_decide_reflect (S i = length l)), (bool_decide_reflect (S (S i) = S (length l))); (lia || done). }
  fold (of_runes (imap (fun i s => gutter +:+ s +:+ (if bool_decide (S i = length l) then gutter else "")) l)). rewrite gutters_between.
  destruct l as [|s' l]; cbn [length].
  - rewrite bool_decide_true by done. by rewrite !string_app_nil_r.
  - rewrite bool_decide_false by lia. by rewrite string_app_nil_r, !string_app_assoc.
Qed.

(** Gutters between the cells, and one more. *)
Lemma gutters_last s l : of_runes (imap (fun i s => (match i with O => "" | S _ => gutter end) +:+ s) (s :: l)) +:+ gutter =
  of_runes (map (fun s => s +:+ gutter) (s :: l)).
Proof.
  rewrite imap_cons. replace (imap _ l) with (map (fun s => gutter +:+ s) l).
  2: { change (map (fun s => gutter +:+ s) l) with ((fun s => gutter +:+ s) <$> l). rewrite <- imap_const. by apply imap_ext. }
  revert s. induction l as [|s' l IH]; intros s; [cbn [map of_runes foldr]; by rewrite !string_app_nil_r|].
  specialize (IH s'). cbn [map of_runes foldr] in *. rewrite <- IH. by rewrite !string_app_assoc.
Qed.

Lemma gutters_width l t : displayWidth (of_runes (map (fun s => s +:+ gutter) l) +:+ t) =
  (foldr (fun s n => displayWidth s + 2 + n) 0 l + displayWidth t)%Z.
Proof.
  induction l as [|s l IH]; [change (of_runes (map _ []) +:+ t) with t; cbn [foldr]; lia|].
  cbn [map of_runes foldr]. fold (of_runes (map (fun s => s +:+ gutter) l)). rewrite !string_app_assoc, width_app by done. rewrite gutter_width, IH. lia.
Qed.

(** ** Widths *)

Definition holds_cells (widths : list Z) (cells : list string) : Prop := Forall2 (fun w cell => (displayWidth cell <= w)%Z) widths cells.

Lemma raise_holds widths cells cells' : length cells' = length widths -> holds_cells widths cells ->
  holds_cells (raise widths cells') cells /\ holds_cells (raise widths cells') cells' /\ length (raise widths cells') = length widths.
Proof.
  intros Hl Hh. revert cells' Hl. induction Hh as [|w cell widths cells Hw _ IH]; intros [|c cells']; try done; cbn.
  - intros _. by split_and!; constructor.
  - intros [= Hl]. destruct (IH cells' Hl) as (Ha & Hb & Hc). split_and!; [constructor; [lia|exact Ha]|constructor; [lia|exact Hb]|f_equal; exact Hc].
Qed.

Lemma column_widths_hold headings rows : Forall (fun cells => length cells = length headings) rows ->
  Forall (holds_cells (column_widths headings rows)) (headings :: rows) /\ length (column_widths headings rows) = length headings.
Proof.
  unfold column_widths. intros Hrows.
  assert (forall widths seen, length widths = length headings -> Forall (holds_cells widths) seen -> seen <> [] ->
    Forall (fun cells => length cells = length headings) rows ->
    Forall (holds_cells (foldl raise widths rows)) (seen ++ rows) /\ length (foldl raise widths rows) = length headings) as Hgen.
  { clear Hrows. induction rows as [|cells rows IH]; intros widths seen Hl Hs Hne Hr; [by rewrite app_nil_r|].
    apply Forall_cons in Hr as [Hc Hr]. cbn [foldl]. replace (seen ++ cells :: rows) with ((seen ++ [cells]) ++ rows) by by rewrite <- app_assoc.
    assert (length (raise widths cells) = length headings) as Hlen by (unfold raise; rewrite length_zip_with; lia).
    apply IH; [done| |by destruct seen|done].
    destruct seen as [|s0 seen]; [done|]. apply Forall_app. split.
    - apply Forall_forall. intros s Hin. apply (raise_holds widths s cells); [lia|]. by eapply Forall_forall in Hs.
    - apply Forall_singleton. apply Forall_cons in Hs as [Hs0 _]. apply (raise_holds widths s0 cells); [lia|done]. }
  apply (Hgen _ [headings]); [by rewrite length_map| |done|done].
  apply Forall_singleton. clear. induction headings as [|h hs IH]; cbn; constructor; [lia|done].
Qed.

(** The padded cells take the widths, and a gutter each. *)
Definition padded (cells : list string) (widths : list Z) : list string := zip_with pad cells widths.

Lemma spent_sum widths n : foldl (fun n w => (n + (w + Z.of_nat (String.length gutter)))%Z) n widths = (n + spent widths)%Z.
Proof.
  unfold spent. revert n. induction widths as [|w widths IH]; intros n; cbn [foldl]; [lia|].
  rewrite IH, (IH (0 + _)%Z). lia.
Qed.

Lemma padded_width cells widths : holds_cells widths cells ->
  foldr (fun s n => (displayWidth s + 2 + n)%Z) 0%Z (padded cells widths) = spent widths.
Proof.
  induction 1 as [|w cell widths cells Hw _ IH]; [done|]. unfold padded in *. cbn [zip_with foldr].
  rewrite IH, pad_width. change (spent (w :: widths)) with
    (foldl (fun n w => (n + (w + Z.of_nat (String.length gutter)))%Z) (0 + (w + Z.of_nat (String.length gutter)))%Z widths).
  rewrite spent_sum. change (Z.of_nat (String.length gutter)) with 2%Z. lia.
Qed.

Lemma pad_blanks cell w : cell +:+ blanks (Z.max (w - displayWidth cell) 0) = pad cell w.
Proof.
  unfold pad, blanks. case_bool_decide.
  - by rewrite Z.max_l by lia.
  - rewrite Z.max_r by lia. apply string_app_nil_r.
Qed.

Lemma paint_off sequence text : paint false sequence text = text.
Proof. done. Qed.

Lemma paintCell_off cell heading : paintCell cell heading false = cell.
Proof. unfold paintCell, eventColor, dim. repeat case_bool_decide; done. Qed.

Lemma imap_zip_with {A B C} (f : A -> B -> C) (d : B) (g : nat -> C -> string) l k : length k = length l ->
  imap (fun i x => g i (f x (default d (k !! i)))) l = imap g (zip_with f l k).
Proof.
  revert g k. induction l as [|x l IH]; intros g [|y k]; try done. intros [= Hl]. cbn [zip_with]. rewrite !imap_cons. cbn. f_equal.
  exact (IH (fun i => g (S i)) k Hl).
Qed.

(** The cells before the change, uncoloured. *)
Lemma row_lead_off cells headings widths : length widths = length cells ->
  row_lead cells headings widths false = of_runes (map (fun s => s +:+ gutter) (padded cells widths)).
Proof.
  intros Hl. rewrite <- gutters_after. unfold row_lead, padded.
  rewrite length_zip_with_l_eq by done.
  rewrite <- (imap_zip_with pad 0%Z (fun i s => (match i with O => "" | S _ => gutter end) +:+ s +:+
    (if bool_decide (S i = length cells) then gutter else "")) cells widths Hl).
  f_equal. apply imap_ext. intros i cell _. rewrite paintCell_off, <- pad_blanks. by rewrite !string_app_assoc.
Qed.

Lemma headerLine_lead headings widths last : length widths = length headings -> headings <> [] ->
  headerLine (headings ++ [last]) widths = of_runes (map (fun s => s +:+ gutter) (padded headings widths)) +:+ last.
Proof.
  intros Hl Hne. unfold headerLine. rewrite imap_app, of_runes_app.
  replace (imap _ headings) with (imap (fun i s => (match i with O => "" | S _ => gutter end) +:+ s) (padded headings widths)).
  2: { unfold padded. rewrite <- (imap_zip_with pad 0%Z (fun i s => (match i with O => "" | S _ => gutter end) +:+ s) headings widths Hl).
       apply imap_ext. intros i h Hi. apply lookup_lt_Some in Hi. f_equal.
       destruct (lookup_lt_is_Some_2 widths i ltac:(lia)) as [w Hw]. by rewrite Hw. }
  cbn [imap of_runes foldr]. rewrite string_app_nil_r.
  rewrite (lookup_ge_None_2 widths) by (cbn; lia).
  destruct headings as [|h hs]; [done|]. destruct widths as [|w ws]; [done|]. cbn [length Nat.add].
  change (padded (h :: hs) (w :: ws)) with (pad h w :: padded hs ws). by rewrite <- gutters_last, string_app_assoc.
Qed.

(** ** The change *)

Lemma width_le_length s : (displayWidth s <= Z.of_nat (String.length s))%Z.
Proof.
  unfold displayWidth, runes. rewrite length_map. induction s as [|a s IH] using spans_ind; [done|]. rewrite spans_cons.
  pose proof (str_drop_length (taken a s) s). cbn [length String.length]. lia.
Qed.

Lemma pretty_go_length x s k : (x < 10 ^ k)%N -> String.length (pretty_N_go x s) <= N.to_nat k + String.length s.
Proof.
  revert s k. induction (N.lt_wf_0 x) as [x _ IH]. intros s k Hx.
  destruct (decide (x = 0)%N) as [->|Hne]; [rewrite pretty_N_go_0; lia|].
  rewrite pretty_N_go_step by lia. destruct (decide (k = 0)%N) as [->|Hk]; [rewrite N.pow_0_r in Hx; lia|].
  pose proof (IH (x / 10)%N ltac:(apply N.div_lt; lia) (String (pretty_N_char (x `mod` 10)) s) (N.pred k)) as Hl.
  cbn [String.length] in Hl. etransitivity; [apply Hl|lia].
  apply N.Div0.div_lt_upper_bound. rewrite <- (N.succ_pred k), N.pow_succ_r' in Hx by done. lia.
Qed.

Lemma Itoa_length n k : (N.of_nat n < 10 ^ N.of_nat k)%N -> 0 < k -> String.length (Itoa n) <= k.
Proof.
  intros Hn Hk. unfold Itoa, pretty, pretty_nat, pretty, pretty_N. case_decide; [change (String.length "0") with 1; lia|].
  pose proof (pretty_go_length (N.of_nat n) "" (N.of_nat k) Hn) as Hl. rewrite Nat2N.id in Hl. cbn [String.length] in Hl. lia.
Qed.

Lemma multiOpSummary_fits n : (Z.of_nat n < 10 ^ 28)%Z -> (displayWidth (multiOpSummary n) <= minChangeWidth)%Z.
Proof.
  intros Hn. unfold multiOpSummary. rewrite width_app by done. pose proof (width_le_length (Itoa n)).
  assert (String.length (Itoa n) <= 28); [|change (displayWidth " ops") with 4%Z; unfold minChangeWidth; lia].
  apply Itoa_length; [|lia]. change (10 ^ N.of_nat 28)%N with (Z.to_N (10 ^ 28)). lia.
Qed.

(** A summary that warns still begins with the glyph once it has been cut. *)
Lemma truncate_glyph text w : (2 <= w)%Z -> exists rest, truncate (WarningGlyph +:+ text) w = WarningGlyph +:+ rest.
Proof.
  intros Hw. unfold truncate. rewrite (bool_decide_false (w <= 0)%Z) by lia. case_bool_decide; [by eexists|].
  rewrite (bool_decide_false (w = 1)%Z) by lia.
  assert (runes (WarningGlyph +:+ text) = WarningGlyph :: runes text) as -> by done.
  destruct (Z.to_nat (w - 1)) as [|n] eqn:En; [lia|]. cbn [take of_runes foldr]. rewrite string_app_assoc. by eexists.
Qed.

Section fits.
Context `{AnyCodec, Floats}.
Variable rendered : json -> string.

Lemma eventCell_fits row w : (2 <= w)%Z -> (displayWidth (eventCell row w false) <= w)%Z.
Proof.
  intros Hw. unfold eventCell. destruct (ParseEvent _) as [detail|].
  - pose proof (truncate_fits (detail_Summary detail) w) as Hf. destruct (detail_Warning detail) eqn:Hd; cbn [negb]; [|lia].
    assert (exists text, detail_Summary detail = WarningGlyph +:+ text) as [text Ht] by (unfold detail_Summary; rewrite Hd; by eexists).
    rewrite Ht in Hf |- *. destruct (truncate_glyph text w Hw) as [rest Hr].
    rewrite Hr in Hf |- *. replace (trim_prefix (WarningGlyph +:+ rest) WarningGlyph) with rest by (unfold trim_prefix; by rewrite cut_prefix_app).
    unfold red. rewrite paint_off. lia.
  - pose proof (truncate_fits "Kubernetes Event with no data recorded" w). lia.
Qed.

Lemma changeCell_fits row w : (minChangeWidth <= w)%Z -> (Z.of_nat (length (tr_Ops row)) < 10 ^ 28)%Z ->
  (displayWidth (changeCell rendered row w false) <= w)%Z.
Proof.
  intros Hw Hops. assert (0 < w)%Z as Hpos by (unfold minChangeWidth in Hw; lia).
  assert (forall text, displayWidth (truncate text w) <= w)%Z as Ht by (intros text; pose proof (truncate_fits text w); lia).
  unfold changeCell. case_bool_decide; [apply eventCell_fits; unfold minChangeWidth in Hw; lia|].
  case_bool_decide; [apply Ht|]. destruct (negb _); [apply Ht|].
  destruct (tr_Ops row) as [|op [|op' ops]] eqn:Hr.
  - destruct (negb _); apply Ht.
  - apply (cells_fit rendered op "" "" w Hpos).
  - etransitivity; [apply multiOpSummary_fits; exact Hops|exact Hw].
Qed.

Lemma plainCells_length doc row opts :
  length (plainCells row (td_Subject doc) (showUID doc opts) opts) = length (headings (showUID doc opts) opts).
Proof. unfold plainCells, headings. destruct (showUID doc opts), (ro_Owned opts), (ro_Wide opts); done. Qed.

(** A timeline table is laid out. Uncoloured, and counted in characters, the columns
    before the change take the same room in the heading and in every row, so that each
    change begins under its heading; and a row is no wider than the terminal, unless
    the other columns leave the change less than its least width, and then it is no
    wider than they and that width. *)
Theorem table_is_laid_out doc opts :
  (exists lead, headerLine (headings (showUID doc opts) opts ++ [columnChange]) (table_widths doc opts) = lead +:+ columnChange /\
     displayWidth lead = spent (table_widths doc opts)) /\
  Forall (fun row =>
    let lead := row_lead (plainCells row (td_Subject doc) (showUID doc opts) opts) (headings (showUID doc opts) opts) (table_widths doc opts) false in
    let change := changeCell rendered row (change_width doc opts) false in
    displayWidth lead = spent (table_widths doc opts) /\
    displayWidth (lead +:+ change) = (spent (table_widths doc opts) + displayWidth change)%Z /\
    ((Z.of_nat (length (tr_Ops row)) < 10 ^ 28)%Z ->
     (displayWidth (lead +:+ change) <= Z.max (width opts) (spent (table_widths doc opts) + minChangeWidth))%Z)) (td_Rows doc).
Proof.
  set (heads := headings (showUID doc opts) opts). set (widths := table_widths doc opts).
  destruct (column_widths_hold heads (map (fun row => plainCells row (td_Subject doc) (showUID doc opts) opts) (td_Rows doc))) as [Hall Hlen].
  { apply Forall_map, Forall_true. intros row. apply plainCells_length. }
  fold (table_widths doc opts) in Hall, Hlen. fold widths in Hall, Hlen. apply Forall_cons in Hall as [Hheads Hrows]. split.
  - rewrite headerLine_lead by (done || (unfold heads, headings; done)). eexists. split; [done|].
    rewrite <- (string_app_nil_r (of_runes _)), gutters_width, padded_width by done. change (displayWidth "") with 0%Z. lia.
  - apply Forall_forall. intros row Hin. cbv zeta.
    rewrite Forall_map, Forall_forall in Hrows. specialize (Hrows row Hin).
    rewrite row_lead_off by (rewrite plainCells_length; exact Hlen).
    set (change := changeCell _ _ _ _). assert (forall t, displayWidth (of_runes (map (fun s => s +:+ gutter)
      (padded (plainCells row (td_Subject doc) (showUID doc opts) opts) widths)) +:+ t) = spent widths + displayWidth t)%Z as Hw.
    { intros t. by rewrite gutters_width, padded_width. }
    split; [pose proof (Hw "") as Hn; rewrite string_app_nil_r in Hn; change (displayWidth "") with 0%Z in Hn; lia|].
    split; [apply Hw|]. intros Hops. rewrite Hw.
    assert (displayWidth change <= change_width doc opts)%Z as Hc by (apply changeCell_fits; [apply Z.le_max_r|done]).
    revert Hc. unfold change_width. fold widths. lia.
Qed.
End fits.
