(* ===== verification/Envelope.v ===== *)
(** * Envelope: structured answers

    Models the versioned envelope of [src/internal/cli/render/structured.go] and
    [structured.go]: items, heads and the stream that writes them, line by line or as one
    document. Standard output is the list of texts written to it; a write may fail.
    encoding/json and the YAML library enter as the class [EnvelopeCodec]. *)

From S2P Require Import Prelude Calendar Duration GoJson Diff QueryFilter ScopeLog Replay Pointer RedactParse Render Archive ArchiveState Blame Ownership ArchiveQueries Reference Coldscan Gather.

(** ** Items *)

(** A [json.RawMessage] is its text. *)
Record ChangeItem := mkChangeItem {
  ci_Change : Change;
  ci_Data : string;
  ci_Diff : list string;
}.

Record Hunk := mkHunk {
  hk_Op : string;
  hk_Path : string;
  hk_Pointer : string;
  hk_From : string;
  hk_Old : json;
  hk_OldKnown : bool;
  hk_New : string;
}.

Record DiffItem := mkDiffItem {
  di_ChangeItem : ChangeItem;
  di_PatchError : string;
  di_Hunks : list Hunk;
}.

Record BlameItem := mkBlameItem {
  bi_Path : string;
  bi_Pointer : string;
  bi_Attributed : bool;
  bi_TS : option Z;
  bi_Actors : list string;
  bi_UID : string;
  bi_ResourceVersion : string;
  bi_EventType : string;
  bi_Removed : bool;
  bi_Fields : Z;
}.

Record ObjectItem := mkObjectItem {
  oi_At : Z;
  oi_UID : string;
  oi_BaseTS : Z;
  oi_BaseEvent : string;
  oi_PatchesApplied : Z;
  oi_SHA256 : string;
  oi_Object : object;
}.

Inductive envelopeItem :=
| itemChange (item : ChangeItem)
| itemDiff (item : DiffItem)
| itemBlame (item : BlameItem)
| itemObject (item : ObjectItem)
| itemScope (interval : ScopeInterval).

Definition Hunks (ops : list Op) : list Hunk :=
  map (fun op => mkHunk (ro_Type op) (DisplayPath (ro_Path op)) (ro_Path op) (ro_From op) (ro_Old op) (ro_OldKnown op) (ro_Value op)) ops.

(** ** Heads *)

Record CoverageReport := mkReport {
  cr_Available : bool;
  cr_Summary : string;
  cr_Intervals : list ScopeInterval;
}.

Record ReconstructionReport := mkReconstructed {
  rp_Reconstructed : bool;
  rp_NotDeployable : bool;
  rp_At : Z;
  rp_BaseTS : Z;
  rp_BaseEvent : string;
  rp_PatchesApplied : Z;
}.

Record EnvelopeMetadata := mkMetadata {
  md_ClusterID : string;
  md_Backend : string;
  md_Coverage : CoverageReport;
  md_Reconstruction : option ReconstructionReport;
}.

Record EnvelopeHead := mkHead {
  eh_APIVersion : string;
  eh_Kind : string;
  eh_Metadata : EnvelopeMetadata;
}.

Definition EnvelopeAPIVersion : string := "cli.kuberecord.io/v1alpha1".
Definition KindTimeline : string := "Timeline".
Definition KindDiff : string := "Diff".
Definition KindObject : string := "Object".
Definition KindBlame : string := "Blame".
Definition KindCoverage : string := "Coverage".

(** UTC whatever frame the invocation asked for. *)
Definition Report (a : coverageAnswer) : CoverageReport :=
  mkReport (bool_decide (ca_Gap a = None)) (coverageSummary (ca_Intervals a) (ca_Gap a) UTC) (ca_Intervals a).

(** [clusterID] is the identity the backend was resolved to. *)
Definition envelopeHead (engine : QueryEngine) (clusterID kind : string) (coverage : coverageAnswer) : EnvelopeHead :=
  mkHead EnvelopeAPIVersion kind (mkMetadata clusterID (cap_Backend (qe_Capabilities engine)) (Report coverage) None).

(** ** Encoding *)

Inductive StructuredFormat := StructuredJSON | StructuredJSONL | StructuredYAML.

#[export] Instance StructuredFormat_eq_dec : EqDecision StructuredFormat.
Proof. solve_decision. Defined.

Definition format_name (f : StructuredFormat) : string :=
  match f with StructuredJSON => "json" | StructuredJSONL => "jsonl" | StructuredYAML => "yaml" end.

(** [json.Unmarshal] into a raw message and into a slice of raw messages, [json.Marshal] of
    a head and of an item, and the indented and the YAML rendering of a whole envelope. *)
Class EnvelopeCodec := {
  raw_value : string -> result string string;
  raw_elements : string -> result string (list string);
  marshal_head : EnvelopeHead -> result string string;
  marshal_item : envelopeItem -> result string string;
  marshal_indent : EnvelopeHead -> list envelopeItem -> result string string;
  yaml_document : EnvelopeHead -> list envelopeItem -> result string string;
}.

Definition emptyObject : string := "{}".
Definition emptyArray : string := "[]".

Definition first_byte (s : string) : option Ascii.ascii := match s with EmptyString => None | String a _ => Some a end.

Definition jsonKind (value : string) : string :=
  match first_byte value with
  | None => "empty"
  | Some a =>
      if bool_decide (a = "{"%char) then "a JSON object"
      else if bool_decide (a = "["%char) then "a JSON array"
      else if bool_decide (a = quote_char) then "a JSON string"
      else if bool_decide (a = "t"%char) || bool_decide (a = "f"%char) then "a JSON boolean"
      else if bool_decide (a = "n"%char) then "JSON null"
      else "a JSON number"
  end.

Definition describeUID (uid : string) : string := if bool_decide (uid = "") then "no uid recorded" else "uid " +:+ uid.

(** The layout [time.RFC3339Nano] of an instant in UTC. *)
Definition rfc3339_nano (ts : Z) : string :=
  format_date ts +:+ "T" +:+ format_clock ts +:+ (fmtFrac 9 (ts `mod` second) false "Z").1.

Definition corruptColumn (change : Change) (column want err : string) : goError :=
  mkGoError ("the change recorded at " +:+ rfc3339_nano (ch_TS change) +:+ " (" +:+ describeUID (ch_UID change) +:+ ") has an unreadable " +:+
    column +:+ " column, which must be " +:+ want +:+ ": " +:+ err +:+
    ". That is corrupt evidence rather than a formatting problem, so structured output will not print the raw column in its place; `-o table` still renders the row, and reading the stored value out of the backend is how to judge it")
    None [].

Section encoding.
Context `{EnvelopeCodec, Strconv}.

Definition recordedValue (recorded : string) (open : Ascii.ascii) (empty : string) : result string string :=
  if blank recorded then Ok empty
  else match raw_value recorded with
       | Err err => Err ("it is not valid JSON: " +:+ err)
       | Ok value =>
           if bool_decide (first_byte value = Some open) then Ok value
           else Err ("the recorded value is " +:+ jsonKind value)
       end.

Definition NewChangeItem (change : Change) : result goError ChangeItem :=
  match recordedValue (ch_Data change) "{"%char emptyObject with
  | Err err => Err (corruptColumn change "data" "a JSON object" err)
  | Ok data =>
      match recordedValue (ch_Diff change) "["%char emptyArray with
      | Err err => Err (corruptColumn change "diff" "a JSON array" err)
      | Ok diff =>
          match raw_elements diff with
          | Err err => Err (corruptColumn change "diff" "a JSON array" err)
          | Ok elements => Ok (mkChangeItem change data elements)
          end
      end
  end.

Definition changeItem (change : Change) : result goError ChangeItem :=
  match NewChangeItem change with
  | Err err => Err (RuntimeErrorf (er_text err) (er_wraps err))
  | Ok item => Ok item
  end.

Definition encodeEnvelope (head : EnvelopeHead) (items : list envelopeItem) (format : StructuredFormat) : result goError string :=
  match format with
  | StructuredJSON =>
      match marshal_indent head items with
      | Ok encoded => Ok (encoded +:+ newline_text)
      | Err err => Err (mkGoError ("encoding the " +:+ eh_Kind head +:+ " envelope as JSON: " +:+ err) None [])
      end
  | StructuredYAML =>
      match yaml_document head items with
      | Ok encoded => Ok encoded
      | Err err => Err (mkGoError ("encoding the " +:+ eh_Kind head +:+ " envelope as YAML: " +:+ err) None [])
      end
  | StructuredJSONL => Err (mkGoError (Quote (format_name format) +:+ " is not a structured serialization") None [])
  end.

(** ** The stream *)

(** [sm_out] is what has been written to standard output. *)
Record Stream := mkStream {
  sm_format : StructuredFormat;
  sm_head : EnvelopeHead;
  sm_items : list envelopeItem;
  sm_closed : bool;
  sm_out : list string;
}.

(** The error of a write of the text after the texts already written. *)
Variable stdout : list string -> string -> option string.

Definition emitted_text (s : Stream) (text : string) : Stream :=
  mkStream (sm_format s) (sm_head s) (sm_items s) (sm_closed s) (sm_out s ++ [text]).

Definition writeLine (s : Stream) (encoded : result string string) : Stream * option goError :=
  match encoded with
  | Err err => (s, Some (mkGoError ("encoding a " +:+ eh_Kind (sm_head s) +:+ " item: " +:+ err) None []))
  | Ok text =>
      let text := text +:+ newline_text in
      match stdout (sm_out s) text with
      | Some err => (s, Some (mkGoError ("writing a " +:+ eh_Kind (sm_head s) +:+ " item: " +:+ err) None []))
      | None => (emitted_text s text, None)
      end
  end.

Definition NewStream (format : StructuredFormat) (head : EnvelopeHead) (out : list string) : Stream * option goError :=
  let stream := mkStream format head [] false out in
  match format with
  | StructuredJSONL => writeLine stream (marshal_head head)
  | StructuredJSON | StructuredYAML => (stream, None)
  end.

Definition stream_Write (s : Stream) (item : envelopeItem) : Stream * option goError :=
  if sm_closed s then (s, Some (mkGoError ("writing an item to a closed " +:+ format_name (sm_format s) +:+ " envelope") None []))
  else match sm_format s with
       | StructuredJSONL => writeLine s (marshal_item item)
       | _ => (mkStream (sm_format s) (sm_head s) (sm_items s ++ [item]) (sm_closed s) (sm_out s), None)
       end.

Definition stream_Close (s : Stream) : Stream * option goError :=
  if sm_closed s then (s, Some (mkGoError ("closing an already-closed " +:+ format_name (sm_format s) +:+ " envelope") None []))
  else
    let s := mkStream (sm_format s) (sm_head s) (sm_items s) true (sm_out s) in
    match sm_format s with
    | StructuredJSONL => (s, None)
    | format =>
        match encodeEnvelope (sm_head s) (sm_items s) format with
        | Err err => (s, Some err)
        | Ok encoded =>
            match stdout (sm_out s) encoded with
            | Some err => (s, Some (mkGoError ("writing the " +:+ format_name format +:+ " envelope: " +:+ err) None []))
            | None => (emitted_text s encoded, None)
            end
        end
    end.

Definition runtime (err : goError) : goError := RuntimeErrorf (er_text err) (er_wraps err).

(** [errors.Join]: [errors.As] finds the first code. *)
Definition Join (a b : option goError) : option goError :=
  match a, b with
  | Some a, Some b => Some (mkGoError (er_text a +:+ newline_text +:+ er_text b)
                              (match er_Code a with Some c => Some c | None => er_Code b end) (er_wraps a ++ er_wraps b))
  | Some a, None => Some a
  | None, b => b
  end.

Fixpoint writeItems (s : Stream) (items : list envelopeItem) : Stream * option goError :=
  match items with
  | [] => let '(s, err) := stream_Close s in (s, runtime <$> err)
  | item :: rest =>
      match stream_Write s item with
      | (s, Some err) => let '(s, closeErr) := stream_Close s in (s, Join (Some (runtime err)) closeErr)
      | (s, None) => writeItems s rest
      end
  end.
End encoding.
