(* ===== verification/TimelineStream.v ===== *)
(** * TimelineStream: the streamed timeline

    Models [src/internal/cli/timelinestream.go]: the second path of [timeline], which
    writes each change into the envelope as the iterator yields it and explains the
    answer afterwards. The theorem at the end is the agreement of the two paths: the
    streamed document holds the changes of the gathered page, in its order, with its
    notices and its exit code. *)

From S2P Require Import Prelude Calendar GoJson Diff QueryFilter ScopeLog Replay Pointer RedactParse Render Archive ArchiveSpec ArchiveState Blame Ownership ArchiveQueries Reference Coldscan Gather GatherSpec Envelope.

(** ** Emission *)

Record emission := mkEmission {
  em_items : nat;
  em_sawDeleted : bool;
  em_sawEvent : bool;
  em_sawChange : bool;
}.

Definition no_emission : emission := mkEmission 0 false false false.

Definition observe (change : Change) (e : emission) : emission :=
  if bool_decide (ch_EventType change = EventDeleted) then mkEmission (em_items e) true (em_sawEvent e) true
  else if bool_decide (ch_EventType change = EventKubernetes) then mkEmission (em_items e) (em_sawDeleted e) true (em_sawChange e)
  else mkEmission (em_items e) (em_sawDeleted e) (em_sawEvent e) true.

Definition counted (e : emission) : emission := mkEmission (S (em_items e)) (em_sawDeleted e) (em_sawEvent e) (em_sawChange e).

Definition emission_shape (e : emission) : timelineShape := mkShape (em_sawChange e) (em_sawEvent e).

Definition holdForDisplayOrder (request : TimelineRequest) : bool := negb (rq_Reverse request) && bool_decide (0 < rq_Limit request)%Z.

Definition with_reverse (reverse : bool) (q : TimelineQuery) : TimelineQuery :=
  mkTimelineQuery (tq_Ref q) (tq_From q) (tq_To q) (tq_UID q) (tq_AllIncarnations q) (tq_Actors q) (tq_ExcludeActors q)
    (tq_FieldPaths q) (tq_Limit q) reverse (tq_IncludeEvents q) (tq_EventsOnly q) (tq_Subjects q).

(** What a command did: standard output, standard error, and the error it returns. *)
Record commandRun := mkRun {
  cmd_Out : list string;
  cmd_ErrOut : list string;
  cmd_err : option goError;
}.

Section streaming.
Context `{EnvelopeCodec, Strconv}.
Variable stdout : list string -> string -> option string.

Definition writeChange (stream : Stream) (change : Change) : Stream * option goError :=
  match changeItem change with
  | Err err => (stream, Some err)
  | Ok item =>
      match stream_Write stdout stream (itemChange item) with
      | (stream, Some err) => (stream, Some (runtime err))
      | (stream, None) => (stream, None)
      end
  end.

(** The iterator's loop: what was emitted and what was held back. *)
Fixpoint read_loop (hold : bool) (stream : Stream) (emitted : emission) (held : list Change) (changes : list Change)
    : Stream * emission * list Change * option goError :=
  match changes with
  | [] => (stream, emitted, held, None)
  | change :: rest =>
      let emitted := observe change emitted in
      if hold then read_loop hold stream emitted (held ++ [change]) rest
      else match writeChange stream change with
           | (stream, Some err) => (stream, emitted, held, Some err)
           | (stream, None) => read_loop hold stream (counted emitted) held rest
           end
  end.

Fixpoint write_held (stream : Stream) (emitted : emission) (held : list Change) : Stream * emission * option goError :=
  match held with
  | [] => (stream, emitted, None)
  | change :: rest =>
      match writeChange stream change with
      | (stream, Some err) => (stream, emitted, Some err)
      | (stream, None) => write_held stream (counted emitted) rest
      end
  end.

(** [stopped] is what the scan's context was stopped by. *)
Definition emitChanges (engine : QueryEngine) (request : TimelineRequest) (stopped : option scanLimitError) (q : TimelineQuery)
    (stream : Stream) : Stream * emission * option goError :=
  let hold := holdForDisplayOrder request in
  let q := if hold then q else with_reverse (rq_Reverse request) q in
  match qe_Timeline engine q with
  | Err err => (stream, no_emission, Some (timelineQueryError stopped request err))
  | Ok iterator =>
      let '(stream, emitted, held, writeErr) := read_loop hold stream no_emission [] (it_Changes iterator) in
      match writeErr, it_Err iterator with
      | Some err, _ => (stream, emitted, Some err)
      | None, Some iterErr => (stream, emitted, Some (timelineQueryError stopped request iterErr))
      | None, None =>
          let '(stream, emitted, writeErr) := write_held stream emitted (rev held) in
          match writeErr, it_Close iterator with
          | Some err, _ => (stream, emitted, Some err)
          | None, Some closeErr => (stream, emitted, Some (RuntimeErrorf ("releasing the change stream: " +:+ er_text closeErr) (er_wraps closeErr)))
          | None, None => (stream, emitted, None)
          end
      end
  end.

(** The notices about the shape of the answer, and the finding: [predicate],
    [emptyNotices], [emptyErr] and [eventNotice]. *)
Definition explain_emission (engine : QueryEngine) (r : TimelineRequest) (selection : incarnationChoice) (from to : option Z)
    (coverage : coverageAnswer) (emitted : emission) (zone : Zone) : string * list string * option goError * string :=
  if rq_EventsOnly r then ("", [], None, noEventsNotice zone r from to (Ok coverage) (em_sawEvent emitted))
  else
    let '(predicate, attributed) := predicateNotice zone engine r selection from to (em_sawChange emitted) in
    let '(emptyNotices, emptyErr) :=
      if negb attributed then explainNoChanges zone r from to (emission_shape emitted) coverage (eventCoverage engine r from to)
      else ([], None) in
    (predicate, emptyNotices, emptyErr,
     match emptyErr with None => eventsNotice zone engine r from to (em_sawEvent emitted) | Some _ => "" end).

Definition run_failed (out said : list string) (err : goError) : commandRun := mkRun out said (Some err).

(** The error of a notice that could not be written. *)
Definition notices_error (r : result goError unit) : option goError := match r with Ok _ => None | Err err => Some err end.

(** From the emission to the end. *)
Definition finish_stream (engine : QueryEngine) (request : TimelineRequest) (selection : incarnationChoice) (from to : option Z)
    (coverage : coverageAnswer) (streams : IOStreams) (zone : Zone) (color : bool) (said notices : list string)
    (emission_ : Stream * emission * option goError) : commandRun :=
  let '(stream, emitted, emitErr) := emission_ in
  let '(predicate, emptyNotices, emptyErr, eventNotice) :=
    match emitErr with
    | Some _ => ("", [], None, "")
    | None => explain_emission engine request selection from to coverage emitted zone
    end in
  let '(stream, closeErr) := stream_Close stdout stream in
  let emitErr := match emitErr, closeErr with None, Some err => Some (runtime err) | _, _ => emitErr end in
  match emitErr with
  | Some err =>
      let '(told, written) := WriteNotices streams notices color in
      mkRun (sm_out stream) (said ++ told) (Join (Some err) (notices_error written))
  | None =>
      let notices := appendNotice notices (deletionsNotice (qe_Capabilities engine) (em_sawDeleted emitted)) in
      let notices := appendNotice (appendNotice notices predicate ++ emptyNotices) eventNotice in
      let '(told, written) := WriteNotices streams notices color in
      mkRun (sm_out stream) (said ++ told)
        (match written with Err err => Some (runtime err) | Ok _ => emptyErr end)
  end.

Definition runTimelineStructured (engine : QueryEngine) (clusterID : string) (request : TimelineRequest) (structured : StructuredFormat)
    (streams : IOStreams) (zone : Zone) (color : bool) (clock : Z) (calls : list (Z * ScanProgress)) : commandRun :=
  let capabilities := qe_Capabilities engine in
  let '(from, to, windowNotice) := timelineBounds request capabilities zone clock in
  let notices := appendNotice (appendNotice [] windowNotice) (inertPredicateNotice request) in
  let '(said, begun) := Begin (scan_half engine) (rq_Scan request) (or_ClusterID (rq_Ref request)) from to clock streams in
  match begun with
  | Err err => run_failed [] said err
  | Ok scan =>
      let '(selection, selectionNotices) := chooseIncarnation engine request from to in
      match resolveOwnedTree engine request selection from to zone with
      | Err err => run_failed [] said err
      | Ok owned =>
          let request := with_subjects (ot_subjects owned) request in
          let notices := notices ++ selectionNotices ++ ot_notices owned in
          match relevantCoverage engine request from to with
          | Err err => run_failed [] said err
          | Ok coverage =>
              match NewStream stdout structured (envelopeHead engine clusterID KindTimeline coverage) [] with
              | (stream, Some err) => run_failed (sm_out stream) said (runtime err)
              | (stream, None) =>
                  finish_stream engine request selection from to coverage streams zone color said notices
                    (emitChanges engine request (Stopped scan calls) (timelineQuery request selection from to) stream)
              end
          end
      end
  end.
End streaming.

(** ** The order asked for *)

(** What a read plane promises of an unlimited question: asked oldest first it is the
    newest-first answer reversed, and it ends alike. *)
Class FlipsOrder (engine : QueryEngine) : Prop :=
  flips q it : (tq_Limit q <= 0)%Z -> tq_Reverse q = true -> qe_Timeline engine q = Ok it ->
    qe_Timeline engine (with_reverse false q) = Ok (mkIterator (rev (it_Changes it)) (it_Err it) (it_Close it)).

(** ** The document *)

Fixpoint traverse {E A B} (f : A -> result E B) (l : list A) : result E (list B) :=
  match l with
  | [] => Ok []
  | x :: rest => let! y := f x in let! ys := traverse f rest in Ok (y :: ys)
  end.

Section document.
Context `{EnvelopeCodec, Strconv}.

(** The texts of a whole answer. *)
Definition document (format : StructuredFormat) (head : EnvelopeHead) (items : list envelopeItem) : option (list string) :=
  match format with
  | StructuredJSONL =>
      match marshal_head head, traverse marshal_item items with
      | Ok first, Ok lines => Some (map (fun text => text +:+ newline_text) (first :: lines))
      | _, _ => None
      end
  | _ => match encodeEnvelope head items format with Ok text => Some [text] | Err _ => None end
  end.

(** A stream into which the items have been written, as the lines if it is line by line. *)
Definition stream_of (format : StructuredFormat) (head : EnvelopeHead) (items : list envelopeItem) (lines : list string) : Stream :=
  match format with
  | StructuredJSONL => mkStream format head [] false lines
  | _ => mkStream format head items false []
  end.

(** What the notices of an emission are about. *)
Definition saw (e : emission) (changes : list Change) : Prop :=
  em_sawDeleted e = existsb (fun c => bool_decide (ch_EventType c = EventDeleted)) changes /\
  em_sawEvent e = existsb (fun c => bool_decide (ch_EventType c = EventKubernetes)) changes /\
  em_sawChange e = existsb (fun c => negb (bool_decide (ch_EventType c = EventKubernetes))) changes.

Lemma saw_observe e changes c : saw e changes -> saw (observe c e) (changes ++ [c]).
Proof.
  intros (Hd & He & Hc). unfold saw, observe. rewrite !existsb_app, <- Hd, <- He, <- Hc. cbn [existsb].
  case_bool_decide as E1; [rewrite E1; cbn; by rewrite !orb_false_r, !orb_true_r|].
  case_bool_decide as E2; cbn; by rewrite !orb_false_r, !orb_true_r.
Qed.

Lemma existsb_rev {A} (f : A -> bool) l : existsb f (rev l) = existsb f l.
Proof. induction l as [|x l IH]; [done|]. cbn. rewrite existsb_app, IH. cbn. by rewrite orb_false_r, orb_comm. Qed.

Lemma saw_rev e changes : saw e (rev changes) <-> saw e changes.
Proof. unfold saw. by rewrite !existsb_rev. Qed.

Variable stdout : list string -> string -> option string.
Hypothesis writes : forall out text, stdout out text = None.

(** One change, whose item is [item] and whose line, if lines are written, is [line]. *)
Definition writable (format : StructuredFormat) (c : Change) (item : envelopeItem) (line : string) : Prop :=
  (exists i, changeItem c = Ok i /\ item = itemChange i) /\
  (format = StructuredJSONL -> exists text, marshal_item item = Ok text /\ line = text +:+ newline_text).

Lemma writeChange_of format head items lines c item line : writable format c item line ->
  writeChange stdout (stream_of format head items lines) c = (stream_of format head (items ++ [item]) (lines ++ [line]), None).
Proof.
  intros ((i & Hc & ->) & Hline). unfold writeChange. rewrite Hc. unfold stream_Write, stream_of.
  destruct format; cbn [sm_closed sm_format]; try reflexivity.
  destruct (Hline eq_refl) as (text & Ht & ->). unfold writeLine. rewrite Ht, writes. reflexivity.
Qed.

Lemma read_loop_streams format head changes news lines items0 lines0 e seen held :
  Forall3 (writable format) changes news lines -> saw e seen ->
  exists e', read_loop stdout false (stream_of format head items0 lines0) e held changes =
    (stream_of format head (items0 ++ news) (lines0 ++ lines), e', held, None) /\ saw e' (seen ++ changes).
Proof.
  intros Hw. revert items0 lines0 e seen. induction Hw as [|c item line changes news lines Hc _ IH]; intros items0 lines0 e seen Hs.
  - exists e. by rewrite !app_nil_r.
  - cbn [read_loop]. rewrite (writeChange_of _ _ _ _ _ _ _ Hc).
    destruct (IH (items0 ++ [item]) (lines0 ++ [line]) (counted (observe c e)) (seen ++ [c])) as (e' & -> & Hs');
      [by apply saw_observe|]. exists e'. by rewrite <- !app_assoc in *.
Qed.

Lemma read_loop_holds s changes e seen held : saw e seen ->
  exists e', read_loop stdout true s e held changes = (s, e', held ++ changes, None) /\ saw e' (seen ++ changes).
Proof.
  revert e seen held. induction changes as [|c changes IH]; intros e seen held Hs.
  - exists e. by rewrite !app_nil_r.
  - cbn [read_loop]. destruct (IH (observe c e) (seen ++ [c]) (held ++ [c])) as (e' & -> & Hs'); [by apply saw_observe|].
    exists e'. by rewrite <- !app_assoc in *.
Qed.

Lemma write_held_streams format head changes news lines items0 lines0 e seen :
  Forall3 (writable format) changes news lines -> saw e seen ->
  exists e', write_held stdout (stream_of format head items0 lines0) e changes =
    (stream_of format head (items0 ++ news) (lines0 ++ lines), e', None) /\ saw e' seen.
Proof.
  intros Hw. revert items0 lines0 e. induction Hw as [|c item line changes news lines Hc _ IH]; intros items0 lines0 e Hs.
  - exists e. by rewrite !app_nil_r.
  - cbn [write_held]. rewrite (writeChange_of _ _ _ _ _ _ _ Hc).
    destruct (IH (items0 ++ [item]) (lines0 ++ [line]) (counted e)) as (e' & -> & Hs'); [done|]. exists e'. by rewrite <- !app_assoc in *.
Qed.

(** The emission writes the changes of the newest-first question in display order. *)
Lemma emitChanges_streams engine `{!FlipsOrder engine} request stopped q changes format head first news lines :
  tq_Limit q = rq_Limit request -> tq_Reverse q = true -> collectChanges engine q = Ok changes ->
  Forall3 (writable format) (if rq_Reverse request then changes else rev changes) news lines ->
  exists e, emitChanges stdout engine request stopped q (stream_of format head [] first) =
    (stream_of format head news (first ++ lines), e, None) /\ saw e changes.
Proof.
  intros Hl Hr Hc Hw. unfold emitChanges, holdForDisplayOrder. revert Hc. unfold collectChanges.
  destruct (qe_Timeline engine q) as [it|] eqn:Hq; [|done].
  destruct (it_Err it) eqn:Herr; [done|]. destruct (it_Close it) eqn:Hclose; [done|]. intros [= <-].
  destruct (rq_Reverse request) eqn:Hrev; cbn [negb andb].
  - replace (with_reverse true q) with q by (destruct q; cbn in *; by subst). rewrite Hq.
    destruct (read_loop_streams format head _ _ _ [] first no_emission [] [] Hw) as (e & -> & Hs); [done|].
    rewrite Herr. cbn. rewrite Hclose. by exists e.
  - case_bool_decide as Hlim.
    + rewrite Hq. destruct (read_loop_holds (stream_of format head [] first) (it_Changes it) no_emission [] []) as (e & -> & Hs); [done|].
      rewrite Herr. cbn [app] in *. destruct (write_held_streams format head _ _ _ [] first e _ Hw Hs) as (e' & -> & Hs').
      rewrite Hclose. by exists e'.
    + rewrite (flips q it) by (done || lia). cbn [it_Changes it_Err it_Close].
      destruct (read_loop_streams format head _ _ _ [] first no_emission [] [] Hw) as (e & -> & Hs); [done|].
      rewrite Herr. cbn. rewrite Hclose. exists e. split; [done|]. by apply saw_rev.
Qed.
End document.

(** ** Two paths, one answer *)

Section agreement.
Context `{EnvelopeCodec, Strconv, PatchPaths, PatchCodec, Encoders, AnyCodec, JsonPatch}.
Variable stdout : list string -> string -> option string.
Hypothesis writes : forall out text, stdout out text = None.

Lemma traverse_Forall2 {E A B} (f : A -> result E B) l ys : traverse f l = Ok ys -> Forall2 (fun x y => f x = Ok y) l ys.
Proof.
  revert ys. induction l as [|x l IH]; intros ys; cbn; [intros [= <-]; constructor|].
  destruct (f x) as [y|] eqn:Hx; [|done]. cbn. destruct (traverse f l) as [zs|]; [|done]. intros [= <-]. constructor; auto.
Qed.

(** A document that can be written is written change by change. *)
Lemma document_writable format head changes items texts :
  traverse changeItem changes = Ok items -> document format head (map itemChange items) = Some texts ->
  exists first lines, NewStream stdout format head [] = (stream_of format head [] first, None) /\
    Forall3 (writable format) changes (map itemChange items) lines /\
    exists closed, stream_Close stdout (stream_of format head (map itemChange items) (first ++ lines)) = (closed, None) /\ sm_out closed = texts.
Proof.
  intros Hi%traverse_Forall2. unfold document, NewStream, stream_of. destruct format.
  2: { destruct (marshal_head head) as [h|] eqn:Hh; [|done]. destruct (traverse marshal_item _) as [lines|] eqn:Hl; [|done]. intros [= <-].
       exists [h +:+ newline_text], (map (fun text => text +:+ newline_text) lines). split; [|split].
       - unfold writeLine. by rewrite writes.
       - apply traverse_Forall2 in Hl. clear Hh. revert lines Hl.
         induction Hi as [|c i changes items Hc _ IH]; intros lines Hl; inversion Hl; subst; constructor; [|by apply IH].
         split; [by exists i|]. intros _. by eexists.
       - by eexists. }
  all: destruct (encodeEnvelope _ _ _) as [text|] eqn:He; [|done]; intros [= <-].
  all: exists [], (map (fun _ => "") items); split; [done|]; split;
    [clear He; induction Hi as [|c i changes items Hc _ IH]; cbn; constructor; [|done]; split; [by exists i|done]|].
  all: unfold stream_Close; cbn [sm_closed sm_format sm_head sm_items sm_out]; rewrite He, writes; by eexists.
Qed.

Lemma saw_rows e rows : saw e (map tr_Change rows) ->
  em_sawDeleted e = sawDeletion rows /\ em_sawEvent e = sawEvent rows /\ em_sawChange e = sawChange rows.
Proof.
  assert (forall f, existsb f (map tr_Change rows) = existsb (fun row => f (tr_Change row)) rows) as Hm.
  { intros f. induction rows as [|row rows IH]; [done|]. cbn. by rewrite IH. }
  unfold saw. rewrite !Hm. done.
Qed.

(** The emission is explained as the page is. *)
Lemma explain_emission_page engine r selection from to coverage e rows zone :
  saw e (map tr_Change rows) ->
  explain_page engine r selection from to coverage (length rows) rows zone =
  let '(predicate, emptyNotices, emptyErr, eventNotice) := explain_emission engine r selection from to coverage e zone in
  (appendNotice (appendNotice [] predicate ++ emptyNotices) eventNotice, emptyErr).
Proof.
  intros (_ & He & Hc)%saw_rows. unfold explain_page, explain_emission, emission_shape. rewrite He, Hc. cbn [shapeOf sh_changes sh_events].
  assert (some rows || bool_decide (length rows = 0) = true) as -> by (destruct rows; reflexivity).
  destruct (rq_EventsOnly r); [done|]. destruct (predicateNotice _ _ _ _ _ _ _) as [predicate attributed]. rewrite andb_true_r.
  destruct attributed; cbn [negb]; [by rewrite app_nil_r|]. change (mkShape (sawChange rows) (sawEvent rows)) with (shapeOf rows).
  destruct (explainNoChanges _ _ _ _ _ _ _) as [notices [err|]]; done.
Qed.

Lemma appendNotice_app before l notice : appendNotice (before ++ l) notice = before ++ appendNotice l notice.
Proof. unfold appendNotice. case_bool_decide; by rewrite ?app_assoc. Qed.

Lemma appendNotice_nil l notice : appendNotice l notice = l ++ appendNotice [] notice.
Proof. by rewrite <- appendNotice_app, app_nil_r. Qed.

Lemma WriteNotices_writes streams notices color : (forall text, io_ErrOut streams text = None) ->
  (WriteNotices streams notices color).2 = Ok tt.
Proof. intros Hw. unfold WriteNotices. case_bool_decide; [done|]. by rewrite Hw. Qed.

(** A stream that has taken every change of the page is closed, and its notices are the page's. *)
Lemma finish_stream_page engine r selection from to coverage streams zone color said notices stream e rows closed explained empty :
  saw e (map tr_Change rows) -> (forall text, io_ErrOut streams text = None) ->
  explain_page engine r selection from to coverage (length rows) rows zone = (explained, empty) ->
  stream_Close stdout stream = (closed, None) ->
  finish_stream stdout engine r selection from to coverage streams zone color said notices (stream, e, None) =
    mkRun (sm_out closed)
      (said ++ (WriteNotices streams (notices ++ appendNotice [] (deletionsNotice (qe_Capabilities engine) (sawDeletion rows)) ++ explained) color).1)
      empty.
Proof.
  intros Hsaw Herr Hx Hclose. rewrite (explain_emission_page _ _ _ _ _ _ _ _ _ Hsaw) in Hx.
  apply saw_rows in Hsaw as (Hd & _). unfold finish_stream. rewrite Hclose, Hd.
  destruct (explain_emission _ _ _ _ _ _ _ _) as [[[predicate emptyNotices] emptyErr] eventNotice]. injection Hx as <- <-.
  set (deletions := deletionsNotice _ _).
  replace (appendNotice (appendNotice (appendNotice notices deletions) predicate ++ emptyNotices) eventNotice)
    with (notices ++ appendNotice [] deletions ++ appendNotice (appendNotice [] predicate ++ emptyNotices) eventNotice).
  2: { rewrite (appendNotice_nil notices deletions), (appendNotice_nil (_ ++ _) predicate), <- !app_assoc, !appendNotice_app. done. }
  pose proof (WriteNotices_writes streams (notices ++ appendNotice [] deletions ++
    appendNotice (appendNotice [] predicate ++ emptyNotices) eventNotice) color Herr) as Hok.
  destruct (WriteNotices _ _ _) as [told written]. cbn in *. by subst written.
Qed.

(** The steps of a gathered answer. *)
Lemma gather_steps engine request streams zone clock calls said r : rq_DisplayFieldPaths request = [] ->
  gatherChanges engine request streams zone clock calls = (said, Ok r) ->
  exists windowNotice scan selection snotices owned changes explained,
    timelineBounds request (qe_Capabilities engine) zone clock = (gr_From r, gr_To r, windowNotice) /\
    Begin (scan_half engine) (rq_Scan request) (or_ClusterID (rq_Ref request)) (gr_From r) (gr_To r) clock streams = (said, Ok scan) /\
    chooseIncarnation engine request (gr_From r) (gr_To r) = (selection, snotices) /\
    resolveOwnedTree engine request selection (gr_From r) (gr_To r) zone = Ok owned /\
    let request := with_subjects (ot_subjects owned) request in
    collectChanges engine (timelineQuery request selection (gr_From r) (gr_To r)) = Ok changes /\
    relevantCoverage engine request (gr_From r) (gr_To r) = Ok (gr_Coverage r) /\
    map tr_Change (gr_Rows r) = (if rq_Reverse request then changes else rev changes) /\
    explain_page engine request selection (gr_From r) (gr_To r) (gr_Coverage r) (length (gr_Rows r)) (gr_Rows r) zone = (explained, gr_Empty r) /\
    gr_Notices r = (appendNotice (appendNotice [] windowNotice) (inertPredicateNotice request) ++ snotices ++ ot_notices owned) ++
      (priorValueNotices engine request (DecodeRows changes) zone).2 ++
      appendNotice [] (deletionsNotice (qe_Capabilities engine) (sawDeletion (gr_Rows r))) ++ explained.
Proof.
  intros Hdisplay. unfold gatherChanges. destruct (timelineBounds _ _ _ _) as [[from to] windowNotice] eqn:Hw.
  destruct (Begin _ _ _ _ _ _ _) as [said' begun] eqn:Hb. intros [= -> E].
  destruct begun as [scan|]; [|done]. cbn [result_bind] in E.
  destruct (chooseIncarnation engine request from to) as [selection snotices] eqn:Hs.
  destruct (resolveOwnedTree engine request selection from to zone) as [owned|] eqn:Ho; [|done]. cbn [result_bind] in E.
  destruct (collectChanges _ _) as [changes|] eqn:Hc; [|done].
  pose proof (priorValueNotices_changes engine (with_subjects (ot_subjects owned) request) (DecodeRows changes) zone) as Hkept.
  rewrite DecodeRows_changes in Hkept.
  destruct (priorValueNotices _ _ _ _) as [rows prior] eqn:Hp. cbn [fst] in Hkept. revert E.
  change (rq_DisplayFieldPaths (with_subjects (ot_subjects owned) request)) with (rq_DisplayFieldPaths request).
  change (rq_Reverse (with_subjects (ot_subjects owned) request)) with (rq_Reverse request).
  rewrite Hdisplay. unfold displayRows. rewrite bool_decide_true by done. intros E.
  destruct (relevantCoverage _ _ _ _) as [coverage|] eqn:Hcov; [|done]. cbn [result_bind] in E.
  set (page := if negb (rq_Reverse request) then rev rows else rows) in *.
  assert (length page = length rows) as Hlen by (unfold page; destruct (rq_Reverse request); cbn; by rewrite ?length_rev).
  rewrite <- Hlen in E. destruct (explain_page _ _ _ _ _ _ _ _ _) as [explained empty] eqn:Hx. injection E as <-.
  exists windowNotice, scan, selection, snotices, owned, changes, explained. cbn [gr_From gr_To gr_Rows gr_Coverage gr_Notices gr_Empty].
  split_and!; try done.
  - unfold page. cbn [rq_Reverse with_subjects]. rewrite <- Hkept. destruct (rq_Reverse request); cbn [negb]; by rewrite ?map_rev.
  - rewrite Hp. cbn [snd]. unfold displayFilterNotice.
    change (rq_DisplayFieldPaths (with_subjects (ot_subjects owned) request)) with (rq_DisplayFieldPaths request). rewrite Hdisplay.
    rewrite (bool_decide_true (length [] = 0)) by done. cbn [orb]. rewrite (appendNotice_nil (_ ++ _)).
    change (inertPredicateNotice (with_subjects (ot_subjects owned) request)) with (inertPredicateNotice request).
    unfold appendNotice at 1. rewrite bool_decide_true by done. by rewrite <- !app_assoc.
Qed.

(** The streamed timeline agrees with the gathered one. When every stream can be
    written, an answer the tabular path gathers is written by the structured path
    as the document of the page's own changes, in the page's order, under the page's
    coverage, in each of the three formats; it exits alike; and standard error holds
    the page's notices less those about replaced values, which the document does not
    show. *)
Theorem stream_agrees_with_page engine `{!FlipsOrder engine} clusterID request format streams zone color clock calls said r items texts :
  gatherChanges engine request streams zone clock calls = (said, Ok r) ->
  rq_DisplayFieldPaths request = [] -> (forall text, io_ErrOut streams text = None) ->
  traverse changeItem (map tr_Change (gr_Rows r)) = Ok items ->
  document format (envelopeHead engine clusterID KindTimeline (gr_Coverage r)) (map itemChange items) = Some texts ->
  exists changes before after,
    collectChanges engine (asked engine request (gr_From r) (gr_To r) zone) = Ok changes /\
    gr_Notices r = before ++ (priorValueNotices engine request (DecodeRows changes) zone).2 ++ after /\
    runTimelineStructured stdout engine clusterID request format streams zone color clock calls =
      mkRun texts (said ++ (WriteNotices streams (before ++ after) color).1) (gr_Empty r).
Proof.
  intros E Hdisplay Herr Hitems Hdoc.
  destruct (gather_steps _ _ _ _ _ _ _ _ Hdisplay E)
    as (windowNotice & scan & selection & snotices & owned & changes & explained & Hw & Hb & Hs & Ho & Hc & Hcov & Hpage & Hx & Hn).
  destruct (document_writable _ _ _ _ _ Hitems Hdoc) as (first & lines & Hnew & Hwr & closed & Hclose & <-).
  exists changes. eexists. eexists. split; [|split; [exact Hn|]].
  - unfold asked, chosen. rewrite Hs. cbn [fst]. by rewrite Ho.
  - unfold runTimelineStructured. rewrite Hw, Hb, Hs, Ho, Hcov, Hnew. rewrite Hpage in Hwr.
    destruct (emitChanges_streams stdout writes engine (with_subjects (ot_subjects owned) request) (Stopped scan calls)
      (timelineQuery (with_subjects (ot_subjects owned) request) selection (gr_From r) (gr_To r)) changes format
      (envelopeHead engine clusterID KindTimeline (gr_Coverage r)) first _ _ eq_refl eq_refl Hc Hwr) as (e & -> & Hsaw).
    rewrite (finish_stream_page _ _ _ _ _ _ _ _ _ _ _ _ _ (gr_Rows r) _ _ _ ltac:(rewrite Hpage; destruct (rq_Reverse _); [done|by apply saw_rev]) Herr Hx Hclose).
    by rewrite <- !app_assoc.
Qed.
End agreement.

(** ** Success is completeness *)

Section complete.
Context `{EnvelopeCodec, Strconv}.
Variable stdout : list string -> string -> option string.

Lemma writeChange_inv format head items lines c s : writeChange stdout (stream_of format head items lines) c = (s, None) ->
  exists item line, writable format c item line /\ s = stream_of format head (items ++ [item]) (lines ++ [line]).
Proof.
  unfold writeChange. destruct (changeItem c) as [i|] eqn:Hc; [|done]. unfold stream_Write, stream_of.
  destruct format; cbn [sm_closed sm_format].
  2: { unfold writeLine. destruct (marshal_item (itemChange i)) as [text|] eqn:Ht; [|done].
       destruct (stdout _ _); [done|]. intros [= <-]. exists (itemChange i), (text +:+ newline_text).
       split; [|done]. split; [by exists i|]. intros _. by exists text. }
  all: intros [= <-]; exists (itemChange i), ""; split; [|done]; split; [by exists i|done].
Qed.

Lemma read_loop_inv hold format head changes items lines e held s e' held' :
  read_loop stdout hold (stream_of format head items lines) e held changes = (s, e', held', None) ->
  if hold then s = stream_of format head items lines /\ held' = held ++ changes
  else held' = held /\ exists news newlines, Forall3 (writable format) changes news newlines /\ s = stream_of format head (items ++ news) (lines ++ newlines).
Proof.
  revert items lines e held. induction changes as [|c changes IH]; intros items lines e held; cbn [read_loop].
  - intros [= <- <- <-]. destruct hold; [by rewrite app_nil_r|]. split; [done|]. exists [], []. rewrite !app_nil_r. by split; [constructor|].
  - destruct hold.
    + intros E%IH. by rewrite <- app_assoc in E.
    + destruct (writeChange stdout _ c) as [s1 [err|]] eqn:Hw; [done|]. apply writeChange_inv in Hw as (item & line & Hw & ->).
      intros (Hh & news & newlines & Hall & ->)%IH. split; [done|]. exists (item :: news), (line :: newlines).
      rewrite <- !app_assoc. split; [by constructor|done].
Qed.

Lemma write_held_inv format head changes items lines e s e' :
  write_held stdout (stream_of format head items lines) e changes = (s, e', None) ->
  exists news newlines, Forall3 (writable format) changes news newlines /\ s = stream_of format head (items ++ news) (lines ++ newlines).
Proof.
  revert items lines e. induction changes as [|c changes IH]; intros items lines e; cbn [write_held].
  - intros [= <- <-]. exists [], []. rewrite !app_nil_r. by split; [constructor|].
  - destruct (writeChange stdout _ c) as [s1 [err|]] eqn:Hw; [done|]. apply writeChange_inv in Hw as (item & line & Hw & ->).
    intros (news & newlines & Hall & ->)%IH. exists (item :: news), (line :: newlines). rewrite <- !app_assoc. split; [by constructor|done].
Qed.

(** The question an emission asks. *)
Definition emitted_query (request : TimelineRequest) (q : TimelineQuery) : TimelineQuery :=
  if holdForDisplayOrder request then q else with_reverse (rq_Reverse request) q.

Lemma emitChanges_inv engine request stopped q format head first s e :
  emitChanges stdout engine request stopped q (stream_of format head [] first) = (s, e, None) ->
  exists changes news lines, collectChanges engine (emitted_query request q) = Ok changes /\
    Forall3 (writable format) (if holdForDisplayOrder request then rev changes else changes) news lines /\
    s = stream_of format head news (first ++ lines).
Proof.
  unfold emitChanges, collectChanges. fold (emitted_query request q). destruct (qe_Timeline engine _) as [it|]; [|done].
  destruct (read_loop _ _ _ _ _ _) as [[[s1 e1] held] [err|]] eqn:Hr; [done|]. apply read_loop_inv in Hr.
  destruct (it_Err it); [done|]. destruct (write_held _ _ _ _) as [[s2 e2] [err|]] eqn:Hh; [done|].
  destruct (it_Close it); [done|]. intros [= <- <-]. exists (it_Changes it). destruct (holdForDisplayOrder request).
  - destruct Hr as [-> ->]. apply write_held_inv in Hh as (news & lines & Hall & ->). by exists news, lines.
  - destruct Hr as (-> & news & lines & Hall & ->). cbn in Hh. injection Hh as <- <-. by exists news, lines.
Qed.

Lemma writable_items format changes news lines : Forall3 (writable format) changes news lines ->
  exists items, traverse changeItem changes = Ok items /\ news = map itemChange items /\
    (format = StructuredJSONL -> exists texts, traverse marshal_item news = Ok texts /\ lines = map (fun text => text +:+ newline_text) texts).
Proof.
  induction 1 as [|c item line changes news lines ((i & Hc & ->) & Hl) _ (items & Hi & -> & Hlines)].
  - exists []. split; [done|]. split; [done|]. intros _. by exists [].
  - exists (i :: items). cbn. rewrite Hc. cbn. rewrite Hi. split; [done|]. split; [done|]. intros Hf.
    destruct (Hl Hf) as (text & Ht & ->). destruct (Hlines Hf) as (texts & Hts & ->). exists (text :: texts). rewrite Ht. cbn.
    by rewrite Hts.
Qed.

(** A stream opened, filled and closed without an error wrote the document. *)
Lemma closed_document format head first items lines s closed :
  NewStream stdout format head [] = (s, None) -> s = stream_of format head [] first ->
  (format = StructuredJSONL -> exists texts, traverse marshal_item items = Ok texts /\ lines = map (fun text => text +:+ newline_text) texts) ->
  stream_Close stdout (stream_of format head items (first ++ lines)) = (closed, None) ->
  document format head items = Some (sm_out closed).
Proof.
  unfold NewStream, document, stream_of, stream_Close. intros Hnew Hs Hlines. destruct format; cbn [sm_closed sm_format sm_head sm_items sm_out].
  2: { destruct (Hlines eq_refl) as (texts & -> & ->). revert Hnew. unfold writeLine. destruct (marshal_head head) as [h|]; [|done].
       destruct (stdout _ _); [done|]. intros [= <-]. injection Hs as <-. by intros [= <-]. }
  all: destruct (encodeEnvelope head items _) as [text|]; [|done]; destruct (stdout _ _); [done|]; by intros [= <-].
Qed.

Lemma NewStream_of format head s : NewStream stdout format head [] = (s, None) -> exists first, s = stream_of format head [] first.
Proof.
  unfold NewStream, stream_of. destruct format; [intros [= <-]; by exists []| |intros [= <-]; by exists []].
  unfold writeLine. destruct (marshal_head head); [|done]. destruct (stdout _ _); [done|]. intros [= <-]. by eexists.
Qed.

(** A streamed timeline that returns without an error wrote the whole document: the
    engine answered and ended cleanly, every change it returned is an item, in display
    order, and the texts on standard output are the document of exactly those items -
    whatever standard output does with each write. *)
Theorem success_is_the_whole_document engine clusterID request format streams zone color clock calls :
  cmd_err (runTimelineStructured stdout engine clusterID request format streams zone color clock calls) = None ->
  exists from to notice coverage changes items,
    timelineBounds request (qe_Capabilities engine) zone clock = (from, to, notice) /\
    relevantCoverage engine request from to = Ok coverage /\
    collectChanges engine (emitted_query request (asked engine request from to zone)) = Ok changes /\
    traverse changeItem (if holdForDisplayOrder request then rev changes else changes) = Ok items /\
    document format (envelopeHead engine clusterID KindTimeline coverage) (map itemChange items) =
      Some (cmd_Out (runTimelineStructured stdout engine clusterID request format streams zone color clock calls)).
Proof.
  unfold runTimelineStructured. destruct (timelineBounds _ _ _ _) as [[from to] windowNotice].
  destruct (Begin _ _ _ _ _ _ _) as [said [scan|]]; [|done]. destruct (chooseIncarnation _ _ _ _) as [selection snotices] eqn:Hs.
  destruct (resolveOwnedTree _ _ _ _ _ _) as [owned|] eqn:Ho; [|done]. destruct (relevantCoverage _ _ _ _) as [coverage|] eqn:Hcov; [|done].
  destruct (NewStream _ _ _ _) as [s [err|]] eqn:Hnew; [done|]. destruct (NewStream_of _ _ _ Hnew) as [first ->].
  destruct (emitChanges _ _ _ _ _ _) as [[s e] emitErr] eqn:Hemit. unfold finish_stream.
  set (notices := _ ++ _ ++ _). clearbody notices.
  destruct emitErr as [err|].
  { destruct (stream_Close _ _). destruct (WriteNotices _ _ _) as [told [[]|]]; done. }
  destruct (emitChanges_inv _ _ _ _ _ _ _ _ _ Hemit) as (changes & news & lines & Hc & Hw & ->).
  destruct (explain_emission _ _ _ _ _ _ _ _) as [[[predicate emptyNotices] emptyErr] eventNotice].
  destruct (stream_Close _ _) as [closed [err|]] eqn:Hclose.
  { destruct (WriteNotices _ _ _) as [told [[]|]]; done. }
  destruct (writable_items _ _ _ _ Hw) as (items & Hi & -> & Hlines).
  exists from, to, windowNotice, coverage, changes, items. split; [done|]. split; [done|].
  split; [unfold asked, chosen; rewrite Hs; cbn [fst]; by rewrite Ho|]. split; [done|]. rewrite (closed_document _ _ _ _ _ _ _ Hnew eq_refl Hlines Hclose).
  by destruct (WriteNotices _ _ _).
Qed.
End complete.
