(* ===== verification/Commands.v ===== *)
(** * Commands: timeline and diff

    Models two questions of the command line from an opened read plane to their two
    streams and their exit code: [RunTimeline] of [src/internal/cli/timeline.go] and
    [RunDiff] of [diff.go], and the formats each command accepts. At the end, what the
    exit code of [diff --exit-code] says. *)

From stdpp Require Import pretty.
From S2P Require Import Prelude Calendar Duration GoJson Diff QueryFilter ScopeLog Replay Pointer RedactParse Render Archive ArchiveState Blame Ownership ArchiveQueries Reference Coldscan Gather GatherSpec Table Envelope TimelineStream.

(** ** Formats *)

Inductive OutputFormat := OutputTable | OutputWide | OutputJSON | OutputJSONL | OutputYAML | OutputDiff.

#[export] Instance OutputFormat_eq_dec : EqDecision OutputFormat.
Proof. solve_decision. Defined.

Definition output_name (f : OutputFormat) : string :=
  match f with
  | OutputTable => "table" | OutputWide => "wide" | OutputJSON => "json" | OutputJSONL => "jsonl" | OutputYAML => "yaml" | OutputDiff => "diff"
  end.

Definition UsageErrorf (text : string) : goError := mkGoError text (Some UsageError) [].

Definition structuredFormat (format : OutputFormat) : option StructuredFormat :=
  match format with
  | OutputJSON => Some StructuredJSON
  | OutputJSONL => Some StructuredJSONL
  | OutputYAML => Some StructuredYAML
  | _ => None
  end.

(** The empty format is [None]. *)
Definition structured_or (command : string) (format : OutputFormat) : result goError (option StructuredFormat) :=
  match structuredFormat format with
  | Some structured => Ok (Some structured)
  | None => Err (UsageErrorf (command +:+ " cannot render " +:+ output_name format))
  end.

Definition timelineFormat (format : OutputFormat) : result goError (option StructuredFormat) :=
  match format with
  | OutputTable | OutputWide => Ok None
  | OutputDiff => Err (UsageErrorf ("timeline does not render " +:+ output_name OutputDiff +:+
      ": its rows are one line each by design. The `diff` command spends the whole page on the same changes, with the old value beside the new one"))
  | _ => structured_or "timeline" format
  end.

Definition diffFormat (format : OutputFormat) : result goError (option StructuredFormat) :=
  match format with
  | OutputTable | OutputWide | OutputDiff => Ok None
  | _ => structured_or "diff" format
  end.

Definition blameFormat (format : OutputFormat) : result goError (option StructuredFormat) :=
  match format with
  | OutputTable | OutputWide => Ok None
  | OutputDiff => Err (UsageErrorf ("blame does not render " +:+ output_name OutputDiff +:+
      ": its rows are fields rather than changes, and there is no old value beside a new one to lay out. The `" +:+ output_name OutputDiff +:+
      "` command spends the whole page on the changes themselves"))
  | _ => structured_or "blame" format
  end.

Definition scopesFormat (format : OutputFormat) : result goError (option StructuredFormat) :=
  match format with
  | OutputTable | OutputWide => Ok None
  | OutputDiff => Err (UsageErrorf ("scopes does not render " +:+ output_name OutputDiff +:+
      ": its rows are periods rather than changes, and there is no patch to lay out"))
  | _ => structured_or "scopes" format
  end.

(** [changed] is whether the flag was given. *)
Definition objectFormat (changed : bool) (requested : OutputFormat) : result goError StructuredFormat :=
  if negb changed then Ok StructuredYAML
  else match structuredFormat requested with
       | Some structured => Ok structured
       | None => Err (UsageErrorf ("get renders " +:+ output_name OutputYAML +:+ ", " +:+ output_name OutputJSON +:+ " or " +:+
           output_name OutputJSONL +:+ ", not " +:+ output_name requested +:+
           ": a reconstructed object is a document rather than a row, so there is nothing for the tabular formats to lay out"))
       end.

(** ** Writing an answer *)

(** What was written to the two streams, and the error. *)
Definition written : Type := list string * list string * option goError.

Definition of_page (page : list string * narrated unit) : written :=
  let '(out, (said, r)) := page in (out, said, runtime <$> notices_error r).

Section commands.
Context `{Strconv, PatchPaths, PatchCodec, Encoders, AnyCodec, JsonPatch, EnvelopeCodec, Floats}.
(** The [%v] of a value that will not marshal, and standard output. *)
Variable rendered : json -> string.
Variable stdout : list string -> string -> option string.

(** An envelope's items, and then the notices. *)
Definition write_envelope (streams : IOStreams) (format : StructuredFormat) (head : EnvelopeHead) (items : list envelopeItem)
    (notices : list string) (color : bool) : written :=
  match NewStream stdout format head [] with
  | (stream, Some err) => (sm_out stream, [], Some (runtime err))
  | (stream, None) =>
      match writeItems stdout stream items with
      | (stream, Some err) => (sm_out stream, [], Some err)
      | (stream, None) =>
          let '(said, r) := WriteNotices streams notices color in (sm_out stream, said, runtime <$> notices_error r)
      end
  end.

(** ** timeline *)

Definition coverageSubject (request : TimelineRequest) : string := if rq_EventsOnly request then "Events" else "".
Definition describeSubject (ref : ObjectRef) : string := or_Kind ref +:+ "/" +:+ or_Name ref.

Definition offered (r : TimelineRequest) : TimelineRequest :=
  mkRequest (rq_Ref r) (rq_From r) (rq_To r) (rq_Now r) (rq_UID r) (rq_AllIncarnations r) true
    (rq_Actors r) (rq_ExcludeActors r) (rq_FieldPaths r) (rq_DisplayFieldPaths r) (rq_NoPriorValues r) (rq_Limit r)
    (rq_Reverse r) (rq_WithEvents r) (rq_EventsOnly r) (rq_Owned r) (rq_Subjects r) (rq_Scan r).

Definition timeline_document (request : TimelineRequest) (gathered : gatherResult) (opts : renderOptions) : TimelineDocument :=
  mkTimelineDocument (describeKind (rq_Ref request)) (describeObject (rq_Ref request)) (or_ClusterID (rq_Ref request)) (gr_UID gathered)
    (gr_Incarnations gathered) (Summary (gr_Coverage gathered) (ro_Zone opts)) (coverageSubject request) (Absent (gr_Coverage gathered))
    (gr_Owned gathered) (describeSubject (rq_Ref request)) (gr_Rows gathered) (gr_Notices gathered).

Definition RunTimeline (engine : QueryEngine) (clusterID : string) (request : TimelineRequest) (structured : option StructuredFormat)
    (streams : IOStreams) (opts : renderOptions) (clock : Z) (calls : list (Z * ScanProgress)) : commandRun :=
  let request := offered request in
  match structured with
  | Some format => runTimelineStructured stdout engine clusterID request format streams (ro_Zone opts) (ro_Color opts) clock calls
  | None =>
      let '(said, answer) := gatherChanges engine request streams (ro_Zone opts) clock calls in
      match answer with
      | Err err => mkRun [] said (Some err)
      | Ok gathered =>
          let '(out, told, writeErr) := of_page (WriteTimeline rendered (stdout []) streams (timeline_document request gathered opts) opts) in
          mkRun out (said ++ told) (match writeErr with Some err => Some err | None => gr_Empty gathered end)
      end
  end.

(** ** diff *)

Record DiffRequest := mkDiffRequest {
  dr_Timeline : TimelineRequest;
  dr_Structured : option StructuredFormat;
  dr_ExitCode : bool;
}.

Definition changesFoundNotice (count : nat) : string :=
  Itoa count +:+ " " +:+ plural (Z.of_nat count) "change" +:+ " shown; --exit-code reports that as exit " +:+ pretty RuntimeError +:+
  ", the way `git diff` does. It is not a failure".

Definition diffItems (rows : list TimelineRow) : result goError (list envelopeItem) :=
  traverse (fun row =>
    let! item := changeItem (tr_Change row) in Ok (itemDiff (mkDiffItem item (tr_PatchErr row) (Hunks (tr_Ops row))))) rows.

Definition diff_document (request : DiffRequest) (gathered : gatherResult) (notices : list string) (opts : renderOptions) : DiffDocument :=
  let ref := rq_Ref (dr_Timeline request) in
  mkDiffDocument (describeKind ref) (describeObject ref) (or_ClusterID ref) (gr_UID gathered)
    (Summary (gr_Coverage gathered) (ro_Zone opts)) (Absent (gr_Coverage gathered)) (gr_Rows gathered) notices.

Definition writeDiffAnswer (engine : QueryEngine) (clusterID : string) (request : DiffRequest) (gathered : gatherResult)
    (notices : list string) (streams : IOStreams) (opts : renderOptions) : written :=
  match dr_Structured request with
  | None => of_page (WriteDiff rendered (stdout []) streams (diff_document request gathered notices opts) opts)
  | Some format =>
      match diffItems (gr_Rows gathered) with
      | Err err => ([], [], Some err)
      | Ok items => write_envelope streams format (envelopeHead engine clusterID KindDiff (gr_Coverage gathered)) items notices (ro_Color opts)
      end
  end.

(** [exit.Error] with its [Quiet] flag, which decides only whether the error is printed. *)
Definition errChangesFound : goError := mkGoError "changes were found and --exit-code was requested" (Some RuntimeError) [].

Definition RunDiff (engine : QueryEngine) (clusterID : string) (request : DiffRequest) (streams : IOStreams) (opts : renderOptions)
    (clock : Z) (calls : list (Z * ScanProgress)) : commandRun :=
  let '(said, answer) := gatherChanges engine (dr_Timeline request) streams (ro_Zone opts) clock calls in
  match answer with
  | Err err => mkRun [] said (Some err)
  | Ok gathered =>
      let changed := bool_decide (gr_Empty gathered = None) && some (gr_Rows gathered) in
      let notices := gr_Notices gathered ++
        (if dr_ExitCode request && changed then [changesFoundNotice (length (gr_Rows gathered))] else []) in
      let '(out, told, writeErr) := writeDiffAnswer engine clusterID request gathered notices streams opts in
      mkRun out (said ++ told)
        (match writeErr, gr_Empty gathered with
         | Some err, _ => Some err
         | None, Some empty => Some empty
         | None, None => if dr_ExitCode request && changed then Some errChangesFound else None
         end)
  end.


(** ** The exit code of diff *)

(** The changes a page shows are those the query returned that pass the display filter. *)
Lemma shown_changes engine request streams zone clock calls said r changes :
  gatherChanges engine request streams zone clock calls = (said, Ok r) ->
  collectChanges engine (asked engine request (gr_From r) (gr_To r) zone) = Ok changes ->
  gr_Rows r = [] <-> List.filter (fun c => MatchesFieldPaths c (rq_DisplayFieldPaths request)) changes = [].
Proof.
  intros E Hc. destruct (gather_inv _ _ _ _ _ _ _ _ E) as (changes' & subjects & [_ Hc' _ _ Hrows _ _]).
  assert (changes' = changes) as -> by congruence.
  rewrite <-(DecodeRows_changes changes), <-(priorValueNotices_changes engine (with_subjects subjects request) _ zone).
  rewrite <-displayRows_changes, Hrows. unfold displayed.
  assert (forall A (l : list A), rev l = [] <-> l = []) as Hrev.
  { intros A l. split; [|by intros ->]. intros Hl. rewrite <-(rev_involutive l), Hl. done. }
  destruct (rq_Reverse request); [|rewrite Hrev]; split; [by intros ->|apply map_eq_nil|by intros ->|apply map_eq_nil].
Qed.

(** [diff --exit-code] answers like [git diff], and never vouches for what nobody watched.
    When an answer was gathered and written, the exit code is 3 exactly when the answer is
    the no-coverage finding; otherwise it is 0 exactly when no change the query returned
    passes the field filter, and 1 exactly when one does. *)
Theorem diff_exit_codes engine clusterID request streams opts clock calls said r changes notices :
  gatherChanges engine (dr_Timeline request) streams (ro_Zone opts) clock calls = (said, Ok r) ->
  collectChanges engine (asked engine (dr_Timeline request) (gr_From r) (gr_To r) (ro_Zone opts)) = Ok changes ->
  dr_ExitCode request = true ->
  notices = gr_Notices r ++ (if bool_decide (gr_Empty r = None) && some (gr_Rows r) then [changesFoundNotice (length (gr_Rows r))] else []) ->
  (writeDiffAnswer engine clusterID request r notices streams opts).2 = None ->
  let code := CodeFor (cmd_err (RunDiff engine clusterID request streams opts clock calls)) in
  let shown := List.filter (fun c => MatchesFieldPaths c (rq_DisplayFieldPaths (dr_Timeline request))) changes in
  (code = NoCoverage <-> CodeFor (gr_Empty r) = NoCoverage) /\
  (CodeFor (gr_Empty r) <> NoCoverage -> (code = Success <-> shown = []) /\ (code = RuntimeError <-> shown <> [])).
Proof.
  intros E Hc Hx Hn Hw code shown. pose proof (gathered_finding _ _ _ _ _ _ _ _ E) as Hcode.
  pose proof (shown_changes _ _ _ _ _ _ _ _ _ E Hc) as Hrows. fold shown in Hrows. rewrite <-Hrows. subst code.
  unfold RunDiff. rewrite E, Hx. cbn [andb]. rewrite <-Hn.
  destruct (writeDiffAnswer _ _ _ _ _ _ _) as [[out told] err]. cbn in Hw. subst err. cbn [cmd_err].
  destruct (gr_Empty r) as [empty|] eqn:Ee.
  - split; [done|]. by destruct Hcode.
  - rewrite bool_decide_eq_true_2 by done. unfold some. destruct (gr_Rows r); cbn; split; try done.
Qed.
End commands.
