(* ===== verification/S3ScopeWriter.v ===== *)
(** * S3ScopeWriter: the scope log of the archive sink

    Models [src/internal/sink/s3/scopewriter.go]: the object of a batch of watch-scope
    transitions, its key, and its delivery to the worker of [ScopeWorker]; what lands is
    a batch with its object. The last section composes the writer with the reader's
    [Coverage]. *)

From S2P Require Import Prelude Identity Calendar HashCache GoJson Diff QueryFilter SinkTypes Render S3Object S3Writer ScopeWorker ScopeLog Layout Archive ArchiveSpec ArchiveState Ownership ArchiveQueries.

(** ** One object *)

Record scopeEventLine := mkScopeEventLine {
  sv_TS : Z;
  sv_ClusterID : string;
  sv_APIGroup : string;
  sv_APIVersion : string;
  sv_Kind : string;
  sv_Namespace : string;
  sv_Action : string;
  sv_RuleRef : string;
}.

(** [scopeLine] of the writer; instants are in UTC throughout the model. *)
Definition scopeLine_of (event : ScopeEvent) : scopeEventLine :=
  mkScopeEventLine (se_TS event) (sf_ClusterID (se_Scope event)) (sf_APIGroup (se_Scope event)) (se_APIVersion event)
    (sf_Kind (se_Scope event)) (sf_Namespace (se_Scope event)) (action_text (se_Action event)) (se_RuleRef event).

Definition scopeObjectKey (prefix : string) (ts : Z) (contentHash : string) : string :=
  join "/" ((if bool_decide (prefix <> "") then [prefix] else []) ++
            [formatPartition; scopesPartition; "date=" +:+ format_date ts; contentHash +:+ objectSuffix]).

Class ScopeLineCodec := {
  (** [json.Encoder.Encode] of a line, terminating newline included *)
  encode_scope_line : scopeEventLine -> result string string;
}.

Section scope_object.
Context `{ZstdCodec, Encoders, ScopeLineCodec}.

Fixpoint encode_scope_loop (i : nat) (events : list ScopeEvent) (jsonl : string) : result objectError string :=
  match events with
  | [] => Ok jsonl
  | event :: rest =>
      match encode_scope_line (scopeLine_of event) with
      | Err reason => Err (errMarshal i reason)
      | Ok line => encode_scope_loop (S i) rest (jsonl +:+ line)
      end
  end.

Definition encodeScopeObject (prefix : string) (events : list ScopeEvent) : result objectError Object :=
  match events with
  | [] => Err errEmptyBatch
  | first :: _ =>
      match zstdEncoder with
      | None => Err errNoEncoder
      | Some EncodeAll =>
          match encode_scope_loop 0 events "" with
          | Err e => Err e
          | Ok jsonl =>
              let contentHash := sha256_hex jsonl in
              Ok (mkObject (scopeObjectKey prefix (se_TS first) contentHash) contentHash (EncodeAll jsonl))
          end
      end
  end.
End scope_object.

(** ** Delivery: one object per batch *)

(** The attempts at one PUT, until one is acknowledged. *)
Fixpoint put_scopes (landing : list ScopeEvent * Object) (answers : list putAnswer) (landed : list (list ScopeEvent * Object))
    : bool * list (list ScopeEvent * Object) :=
  match answers with
  | [] => (false, landed)
  | PutAccepted :: _ => (true, landed ++ [landing])
  | PutRefused :: rest => put_scopes landing rest landed
  | PutUnacknowledged :: rest => put_scopes landing rest (landed ++ [landing])
  end.

Section transport.
Context `{ZstdCodec, Encoders, ScopeLineCodec}.
(** The configured prefix, and what the attempts of the n-th flush meet. *)
Context (prefix : string) (answers : nat -> list putAnswer).

(** What [flushScopeBatch] does with a batch before its rows are settled. *)
Definition s3_deliver (n : nat) (batch : list ScopeEvent) (landed : list (list ScopeEvent * Object))
    : delivery * list (list ScopeEvent * Object) :=
  match encodeScopeObject prefix batch with
  | Err _ => (Unencodable, landed)
  | Ok obj =>
      let '(ok, landed) := put_scopes (batch, obj) (answers n) landed in
      (if ok then Delivered else Undelivered, landed)
  end.

Definition s3_scopes : ScopeTransport (list ScopeEvent * Object) := {|
  deliver := s3_deliver;
  contents := fst;
  rendered l := encodeScopeObject prefix l.1 = Ok l.2;
|}.

Lemma put_scopes_landed l ans landed ok landed' : put_scopes l ans landed = (ok, landed') ->
  exists n, landed' = landed ++ replicate n l /\ (ok = true -> n <> 0).
Proof.
  revert landed. induction ans as [|[] ans IH]; intros landed; cbn.
  - intros [= <- <-]. exists 0. by rewrite app_nil_r.
  - intros [= <- <-]. by exists 1.
  - apply IH.
  - intros (n & -> & Hn)%IH. exists (S n). by rewrite <-app_assoc.
Qed.

#[export] Instance s3_scopes_laws : @ScopeTransportLaws _ s3_scopes.
Proof.
  split. intros n batch landed outcome landed'. cbn. unfold s3_deliver.
  destruct (encodeScopeObject prefix batch) as [obj|] eqn:E.
  2: { intros [= <- <-]. exists []. rewrite app_nil_r. set_solver. }
  destruct (put_scopes _ _ _) as [ok landed1] eqn:Ep. apply put_scopes_landed in Ep as (k & -> & Hk). intros [= <- <-].
  exists (replicate k (batch, obj)). split; [done|]. split.
  - by intros l [-> _]%elem_of_replicate.
  - intros Ho e He. exists (batch, obj). split; [|done]. apply elem_of_replicate. destruct ok; [auto|done].
Qed.

(** The worker over this delivery. *)
Definition archive_scopes (ops : list scopeOp) : scopeWriter (list ScopeEvent * Object) :=
  @run_scopes _ s3_scopes ops newScopeWriter.

Definition archive_accepted (ops : list scopeOp) : list ScopeEvent := @scopes_accepted _ s3_scopes ops newScopeWriter.

(** Every non-empty batch of these events makes an object. *)
Definition makes_objects (events : list ScopeEvent) : Prop :=
  forall b, b ⊆ events -> b <> [] -> exists obj, encodeScopeObject prefix b = Ok obj.

Lemma makes_objects_encodable events : makes_objects events -> @encodable _ s3_scopes events.
Proof.
  intros Hm n b landed Hb Hne. cbn. unfold s3_deliver. destruct (Hm b Hb Hne) as [obj ->].
  by destruct (put_scopes _ _ _) as [[] ?].
Qed.

Lemma archive_account ops : @scopes_account _ s3_scopes (archive_accepted ops) (archive_scopes ops).
Proof. apply (run_scopes_account ops [] newScopeWriter), new_scopes_account. Qed.
End transport.

(** ** From the writer to the reader *)

(** A transition as the reader's line, and as a row of the scope log. *)
Definition scopeLine_read (event : ScopeEvent) : scopeLine :=
  mkScopeLine (se_TS event) (sf_ClusterID (se_Scope event)) (sf_APIGroup (se_Scope event)) (se_APIVersion event)
    (sf_Kind (se_Scope event)) (sf_Namespace (se_Scope event)) (action_text (se_Action event)) (se_RuleRef event).

Definition event_log (q : ScopeQuery) (events : list ScopeEvent) : list ScopeChange :=
  map (fun e => line_scopeChange (scopeLine_read e)) (List.filter (fun e => scope_matches q (scopeLine_read e)) events).

(** What the two planes share: the reader's decoder returns the fields the writer's
    encoder rendered into the frame of a batch that is not empty and whose strings are
    valid UTF-8. *)
Definition valid_event (e : ScopeEvent) : bool :=
  forallb ValidString [sf_ClusterID (se_Scope e); sf_APIGroup (se_Scope e); sf_Kind (se_Scope e);
                       sf_Namespace (se_Scope e); se_APIVersion e; se_RuleRef e].

Class ScopeFormatLaws `{ZstdCodec, ScopeLineCodec, FrameReader} := {
  scope_format_read : forall events lines encode, events <> [] -> Forall (fun e => valid_event e = true) events ->
    Forall2 (fun e line => encode_scope_line (scopeLine_of e) = Ok line) events lines -> zstdEncoder = Some encode ->
    streamFrame scope_stream (encode (text lines)) = (map scopeLine_read events, None);
}.

Section reaches.
Context `{ZstdCodec, Encoders, ScopeLineCodec, ObjectSource, FrameReader, !ScopeFormatLaws}.

Lemma encode_scope_lines i events jsonl out : encode_scope_loop i events jsonl = Ok out ->
  exists lines, Forall2 (fun e line => encode_scope_line (scopeLine_of e) = Ok line) events lines /\ out = jsonl +:+ text lines.
Proof.
  revert i jsonl. induction events as [|e events IH]; intros i jsonl; cbn [encode_scope_loop].
  - intros [= <-]. exists []. split; [constructor|]. cbn. by rewrite string_app_nil_r.
  - destruct (encode_scope_line _) as [line|] eqn:El; [|done]. intros (lines & Hl & ->)%IH. exists (line :: lines).
    split; [by constructor|]. change (text (line :: lines)) with (line +:+ text lines). by rewrite string_app_assoc.
Qed.

Lemma scopeObjectKey_below (prefix : string) ts hash : trim "/"%char prefix = prefix ->
  has_prefix (scopeObjectKey prefix ts hash) (scopesRoot prefix) = true.
Proof.
  intros Ht. apply has_prefix_spec. exists ("date=" +:+ format_date ts +:+ "/" +:+ hash +:+ objectSuffix).
  unfold scopeObjectKey, scopesRoot, joinSegments. cbn [List.filter].
  rewrite (bool_decide_eq_true_2 (formatPartition <> "")), (bool_decide_eq_true_2 (scopesPartition <> "")) by done.
  case_bool_decide; cbn [map app join]; rewrite ?Ht; by rewrite !string_app_assoc.
Qed.

(** The object of a batch: filed in the scope log, and read back as the batch. *)
Lemma scope_object_read (prefix : string) b obj : trim "/"%char prefix = prefix -> encodeScopeObject prefix b = Ok obj ->
  Forall (fun e => valid_event e = true) b ->
  has_prefix (o_Key obj) (scopesRoot prefix) = true /\
  streamFrame scope_stream (o_Payload obj) = (map scopeLine_read b, None).
Proof.
  intros Ht. unfold encodeScopeObject. destruct b as [|first rest]; [done|]. destruct zstdEncoder as [enc|] eqn:Ez; [|done].
  destruct (encode_scope_loop _ _ _) as [jsonl|] eqn:El; [|done]. intros [= <-] Hv. cbn [o_Key o_Payload].
  apply encode_scope_lines in El as (lines & Hl & ->). split; [by apply scopeObjectKey_below|].
  by rewrite (scope_format_read (first :: rest) lines).
Qed.

(** The store's scope log holds the objects that landed and nothing else. *)
Definition serves_scopes (prefix : string) (landed : list (list ScopeEvent * Object)) (stored : list string) : Prop :=
  (forall b obj, (b, obj) ∈ landed -> o_Key obj ∈ stored /\ exists close, src_Open (o_Key obj) = Ok (mkBody (o_Payload obj) close)) /\
  (forall key, key ∈ stored -> has_prefix key (scopesRoot prefix) = true -> exists b obj, (b, obj) ∈ landed /\ o_Key obj = key).

(** The rows read back are, as a set, those of the batches that landed. *)
Lemma served_log e q landed stored c : trim "/"%char (en_prefix e) = en_prefix e ->
  serves_scopes (en_prefix e) landed stored ->
  (forall b obj, (b, obj) ∈ landed -> encodeScopeObject (en_prefix e) b = Ok obj /\ Forall (fun ev => valid_event ev = true) b) ->
  c ∈ scope_log e q stored <-> exists b obj, (b, obj) ∈ landed /\ c ∈ event_log q b.
Proof.
  intros Ht [Hserve Honly] Henc.
  assert (Hkey : forall b obj, (b, obj) ∈ landed -> key_scopes (o_Key obj) = map scopeLine_read b).
  { intros b obj Hin. destruct (Hserve b obj Hin) as [_ (close & Hopen)]. unfold key_scopes. rewrite Hopen. cbn [bd_bytes].
    by destruct (scope_object_read _ b obj Ht (proj1 (Henc b obj Hin)) (proj2 (Henc b obj Hin))) as [_ ->]. }
  unfold scope_log, event_log. rewrite list_elem_of_fmap. setoid_rewrite list_elem_of_fmap. split.
  - intros (l & -> & [Hl%in_concat Hm]%list_elem_of_In%filter_In). destruct Hl as (ls & (key & <- & [Hst Hp]%filter_In)%in_map_iff & Hls).
    destruct (Honly key) as (b & obj & Hin & <-); [by apply list_elem_of_In|done|]. rewrite (Hkey b obj Hin) in Hls.
    apply in_map_iff in Hls as (ev & <- & Hev). exists b, obj. split; [done|]. exists ev. split; [done|].
    apply list_elem_of_In, filter_In. done.
  - intros (b & obj & Hin & ev & -> & [Hev Hm]%list_elem_of_In%filter_In). exists (scopeLine_read ev). split; [done|].
    apply list_elem_of_In, filter_In. split; [|done]. apply in_concat. exists (key_scopes (o_Key obj)). split.
    + apply in_map, filter_In. split; [apply list_elem_of_In; by apply (Hserve b)|]. by destruct (Henc b obj Hin); apply (scope_object_read _ b obj Ht).
    + rewrite (Hkey b obj Hin). by apply in_map.
Qed.

Lemma watched_ext log log' k t : (forall c, c ∈ log <-> c ∈ log') -> watched log k t <-> watched log' k t.
Proof.
  intros Hin. unfold watched. split; intros (c & Hc & Hs & Ha & Ht & Hall); exists c; (split; [by apply Hin|]);
    split_and!; try done; intros c' Hc'; apply Hall; by apply Hin.
Qed.
End reaches.

(** ** Properties *)

(** C30: no transition disappears in silence. However recorders, the worker's batches and
    timers, failed and half-acknowledged PUTs, retries and the shutdown interleave: the
    transitions accepted so far are, one for one, those confirmed, those reported as
    dropped, and those still waiting in the retry queue, the batch or the channel; a
    confirmed one is in an object that reached the store, every such object encodes
    accepted transitions only, and the three waiting rooms stay within their bounds.
    If every batch drawn from the accepted transitions can be encoded, and no more of them
    were ever accepted than the retry queue holds, nothing is dropped (a batch that cannot
    be encoded is dropped whole, its other transitions with it). After the shutdown began every receive of the worker leaves less
    to do, and once it has returned nothing is left in the channel or the batch. *)
Theorem scope_events_accounted `{ZstdCodec, Encoders, ScopeLineCodec} prefix answers ops :
  let w := archive_scopes prefix answers ops in
  let acc := archive_accepted prefix answers ops in
  acc ≡ₚ sc_confirmed w ++ sc_dropped w ++ sc_retries w ++ sc_batch w ++ sc_queue w /\
  (forall e, e ∈ sc_confirmed w -> exists b obj, (b, obj) ∈ sc_landed w /\ e ∈ b) /\
  (forall b obj, (b, obj) ∈ sc_landed w -> encodeScopeObject prefix b = Ok obj /\ b ⊆ acc) /\
  length (sc_retries w) <= scopeRetryQueueMaxLen /\ length (sc_batch w) < scopeBatchMaxRows /\
  length (sc_queue w) <= scopeQueueSize /\
  (makes_objects prefix acc -> length acc <= scopeRetryQueueMaxLen -> sc_dropped w = []) /\
  (sc_closing w = true -> sc_exited w = false ->
     scopes_remaining (@step_scopes _ (s3_scopes prefix answers) ScopeReceive w) < scopes_remaining w) /\
  (sc_exited w = true -> sc_batch w = [] /\ sc_queue w = []).
Proof.
  intros w acc. destruct (archive_account prefix answers ops) as [A La C R Q B T X]. fold w acc in A, La, C, R, Q, B, T, X.
  split_and!; try done.
  - intros e ([b obj] & Hl & He)%C. by exists b, obj.
  - by intros b obj [? ?]%La.
  - intros He Hl. apply (run_no_drop (H := s3_scopes prefix answers) ops []); [apply new_scopes_account|done| |exact Hl].
    by apply makes_objects_encodable.
  - apply receive_shrinks.
  - intros (_ & ? & ?)%X. done.
Qed.

(** C29: the archive knows when it was watching. Take any run of the scope writer that has
    nothing left to write and dropped nothing, of transitions whose strings are valid UTF-8
    and of which no scope has two at one instant, a store whose scope log holds the objects
    that landed - several times over, in batches regrouped by retries, whatever order
    they landed in - and a reader that answers: an instant of the asked window is covered
    for a scope exactly when, among the transitions the recorder handed over and the query
    is about, the latest mark up to it is a Started. *)
Theorem scope_events_reach_coverage `{ZstdCodec, Encoders, ScopeLineCodec, ObjectSource, FrameReader, !ScopeFormatLaws}
    e q answers ops stored intervals k t :
  let w := archive_scopes (en_prefix e) answers ops in
  let acc := archive_accepted (en_prefix e) answers ops in
  trim "/"%char (en_prefix e) = en_prefix e -> en_concurrency e <> 0 ->
  Forall (fun ev => valid_event ev = true) acc ->
  sc_dropped w = [] -> sc_retries w = [] -> sc_batch w = [] -> sc_queue w = [] ->
  holds_keys stored -> serves_scopes (en_prefix e) (sc_landed w) stored ->
  Coverage e q = Ok intervals -> distinct_marks (event_log q acc) -> in_window (sq_From q) (sq_To q) t = true ->
  covered intervals k t <-> watched (event_log q acc) k t.
Proof.
  intros w acc Ht Hn Hv Hd Hr Hb Hq Hs Hserve Hc Hdist Hwin.
  destruct (archive_account (en_prefix e) answers ops) as [A L' C' _ _ _ _ _]. fold w acc in A, L', C'.
  assert (L : forall b obj, (b, obj) ∈ sc_landed w -> encodeScopeObject (en_prefix e) b = Ok obj /\ b ⊆ acc) by (by intros b obj [? ?]%L').
  assert (C : forall ev, ev ∈ sc_confirmed w -> exists b obj, (b, obj) ∈ sc_landed w /\ ev ∈ b) by (intros ev ([b obj] & ? & ?)%C'; by exists b, obj).
  rewrite Hd, Hr, Hb, Hq, !app_nil_r in A.
  assert (Hlog : forall c, c ∈ scope_log e q stored <-> c ∈ event_log q acc).
  { intros c. rewrite (served_log e q (sc_landed w) stored c Ht Hserve)
      by (intros b obj Hin; destruct (L b obj Hin) as [He Hsub]; split; [done|]; apply Forall_forall; intros ev Hev%Hsub; by apply (proj1 (Forall_forall _ _) Hv)). unfold event_log.
    setoid_rewrite list_elem_of_fmap. setoid_rewrite list_elem_of_In. setoid_rewrite filter_In. split.
    - intros (b & obj & Hin & ev & -> & Hev & Hm). exists ev. split; [done|]. split; [|done].
      apply list_elem_of_In, (L b obj); by apply list_elem_of_In.
    - intros (ev & -> & Hev & Hm). apply list_elem_of_In in Hev. rewrite A in Hev. destruct (C ev Hev) as (b & obj & Hin & Hb').
      exists b, obj. split; [by apply list_elem_of_In|]. exists ev. split; [done|]. split; [by apply list_elem_of_In|done]. }
  assert (Hd' : distinct_marks (scope_log e q stored)).
  { intros c c' Hin Hin'. apply Hdist; by apply Hlog. }
  destruct (coverage_log_lines e q stored intervals Hn Hs Hc) as (transitions & Hp & ->).
  rewrite coverage_in_window, coverage_watched by (done || by eapply distinct_marks_Permutation).
  rewrite (watched_Permutation _ _ _ _ Hp). by apply watched_ext.
Qed.
