(* ===== verification/CHWriter.v ===== *)
(** * CHWriter: the write path of the ClickHouse sink

    Models [src/internal/sink/clickhouse/writer.go]: the settings a writer is opened
    with, [Enqueue], the workers that batch rows, [flushBatch] with its retries and
    its row-by-row isolation, and the shutdown; and [scopewriter.go], the one worker of
    the scope log. The driver is what an attempt meets: whether a batch can be
    prepared, which rows it accepts, and what becomes of the send, which can fail after
    some of its rows arrived. [ch_table] are the rows the table received, in order;
    ClickHouse collapses repetitions of a row. A commit callback is the number it was
    enqueued under, a call of it an entry of [ch_settled]. *)

From S2P Require Import Prelude Calendar Duration SinkTypes.

(** ** Settings *)

Definition DefaultWriteQueueSize : Z := 5000.
Definition DefaultWriteWorkers : Z := 4.
Definition DefaultBatchMaxRows : Z := 1000.
Definition DefaultBatchMaxWait : Z := 1 * second.
Definition DefaultEnqueueTimeout : Z := 2 * second.
Definition DefaultShutdownDrainTimeout : Z := 15 * second.
Definition DefaultCheckpointEvery : Z := 50.
Definition DefaultCoalesceWindow : Z := 1 * minute.
Definition defaultInsertTimeout : Z := 5 * second.
Definition defaultMaxRetryBackoff : Z := 60 * second.
Definition defaultMaxIsolationPhase : Z := 2 * minute.

(** [clickhouse.Config]. *)
Record chConfig := mkCHConfig {
  cc_Addr : string;
  cc_Database : string;
  cc_Username : string;
  cc_Password : string;
  cc_DialTimeout : Z;
  cc_ReadTimeout : Z;
  cc_AutoCreateSchema : bool;
  cc_BatchMaxRows : Z;
  cc_BatchMaxWait : Z;
  cc_WriteQueueSize : Z;
  cc_WriteWorkers : Z;
  cc_EnqueueTimeout : Z;
  cc_ShutdownDrainTimeout : Z;
  cc_CheckpointEvery : Z;
  cc_CoalesceWindow : Z;
}.

(** The fields of a [CHWriter] that its construction fixes. *)
Record chWriter := mkCHWriter {
  cw_database : string;
  cw_autoCreate : bool;
  cw_queueSize : Z;
  cw_workers : Z;
  cw_batchMaxRows : Z;
  cw_batchMaxWait : Z;
  cw_enqueueTimeout : Z;
  cw_insertTimeout : Z;
  cw_maxRetryBackoff : Z;
  cw_shutdownDrainTimeout : Z;
  cw_checkpointEvery : Z;
  cw_coalesceWindow : Z;
  cw_maxIsolationPhase : Z;
}.

Definition positive_or (value default : Z) : Z := if bool_decide (value <= 0)%Z then default else value.

Definition NewCHWriter (queueSize workers batchMaxRows insertTimeout maxRetryBackoff shutdownDrainTimeout batchMaxWait
    enqueueTimeout : Z) : chWriter := {|
  cw_database := "";
  cw_autoCreate := false;
  cw_queueSize := positive_or queueSize DefaultWriteQueueSize;
  cw_workers := positive_or workers DefaultWriteWorkers;
  cw_batchMaxRows := positive_or batchMaxRows DefaultBatchMaxRows;
  cw_batchMaxWait := positive_or batchMaxWait DefaultBatchMaxWait;
  cw_enqueueTimeout := positive_or enqueueTimeout DefaultEnqueueTimeout;
  cw_insertTimeout := positive_or insertTimeout defaultInsertTimeout;
  cw_maxRetryBackoff := positive_or maxRetryBackoff defaultMaxRetryBackoff;
  cw_shutdownDrainTimeout := positive_or shutdownDrainTimeout DefaultShutdownDrainTimeout;
  cw_checkpointEvery := DefaultCheckpointEvery;
  cw_coalesceWindow := DefaultCoalesceWindow;
  cw_maxIsolationPhase := defaultMaxIsolationPhase;
|}.

(** [Open]; [dialled] is what [clickhouse.Open] answers. *)
Definition Open {E} (dialled : result E unit) (cfg : chConfig) : result E chWriter :=
  match dialled with
  | Err e => Err e
  | Ok _ =>
      let w := NewCHWriter (cc_WriteQueueSize cfg) (cc_WriteWorkers cfg) (cc_BatchMaxRows cfg) (cc_ReadTimeout cfg) 0
                 (cc_ShutdownDrainTimeout cfg) (cc_BatchMaxWait cfg) (cc_EnqueueTimeout cfg) in
      Ok {| cw_database := cc_Database cfg;
            cw_autoCreate := cc_AutoCreateSchema cfg;
            cw_queueSize := cw_queueSize w;
            cw_workers := cw_workers w;
            cw_batchMaxRows := cw_batchMaxRows w;
            cw_batchMaxWait := cw_batchMaxWait w;
            cw_enqueueTimeout := cw_enqueueTimeout w;
            cw_insertTimeout := cw_insertTimeout w;
            cw_maxRetryBackoff := cw_maxRetryBackoff w;
            cw_shutdownDrainTimeout := cw_shutdownDrainTimeout w;
            cw_checkpointEvery := if bool_decide (0 <= cc_CheckpointEvery cfg)%Z then cc_CheckpointEvery cfg else cw_checkpointEvery w;
            cw_coalesceWindow := if bool_decide (0 <= cc_CoalesceWindow cfg)%Z then cc_CoalesceWindow cfg else cw_coalesceWindow w;
            cw_maxIsolationPhase := cw_maxIsolationPhase w |}
  end.

Definition CheckpointEvery (w : chWriter) : Z := cw_checkpointEvery w.
Definition CoalesceWindow (w : chWriter) : Z := cw_coalesceWindow w.

(** The budget of the isolation phase of a batch. *)
Definition isolation_budget (w : chWriter) (rows : nat) : Z :=
  Z.min (Z.of_nat rows * cw_insertTimeout w) (cw_maxIsolationPhase w).

(** ** Jobs and the driver *)

(** A value bound to a column. *)
Inductive column :=
| ColTime (t : Z)
| ColString (s : string)
| ColMap (m : gmap string string)
| ColArray (l : list string).

#[export] Instance column_eq_dec : EqDecision column.
Proof. solve_decision. Defined.

(** [insertArgs], in the order of the columns of [insertResourceStateQuery]. A nil map
    or list of a record is the empty one here, and instants are UTC. *)
Definition insertArgs (rec : Record_) : list column :=
  [ColTime (r_Timestamp rec); ColString (r_ClusterID rec); ColString (r_EventType rec); ColString (r_APIGroup rec);
   ColString (r_APIVersion rec); ColString (r_Kind rec); ColString (r_Namespace rec); ColString (r_Name rec);
   ColString (r_UID rec); ColString (r_ResourceVersion rec); ColMap (r_Labels rec); ColArray (r_Actors rec);
   ColString (r_Data rec); ColString (r_Diff rec); ColString (r_SHA256 rec)].

Record writeJob := mkWriteJob { wj_args : list column; wj_commit : option nat }.

#[export] Instance writeJob_eq_dec : EqDecision writeJob.
Proof. solve_decision. Defined.

(** What [Send] does: it succeeds, or it fails and the rows [arrived] says arrived. *)
Inductive sendAnswer := SendOk | SendFailed (arrived : nat -> bool).

(** What one attempt meets. *)
Record attempt := mkAttempt {
  at_prepared : bool;
  (** whether [Append] takes the row *)
  at_appends : list column -> bool;
  at_send : sendAnswer;
}.

Fixpoint kept_rows {A} (arrived : nat -> bool) (i : nat) (rows : list A) : list A :=
  match rows with
  | [] => []
  | r :: rest => (if arrived i then [r] else []) ++ kept_rows arrived (S i) rest
  end.

(** A batch of rows through one attempt: whether it succeeded, and what arrived. *)
Definition send_rows {A} (prepared : bool) (appends : A -> bool) (send : sendAnswer) (rows table : list A) : bool * list A :=
  if negb prepared then (false, table)
  else if forallb appends rows
       then match send with
            | SendOk => (true, table ++ rows)
            | SendFailed arrived => (false, table ++ kept_rows arrived 0 rows)
            end
       else (false, table).

Definition sendBatchOnce (a : attempt) (batch : list writeJob) (table : list (list column)) : bool * list (list column) :=
  send_rows (at_prepared a) (at_appends a) (at_send a) (map wj_args batch) table.

(** [sendBatch]: the first attempt and the retries the backoff allows. *)
Fixpoint sendBatch (a : attempt) (retries : list attempt) (batch : list writeJob) (table : list (list column)) : bool * list (list column) :=
  let '(ok, table) := sendBatchOnce a batch table in
  if ok then (true, table)
  else match retries with
       | [] => (false, table)
       | next :: rest => sendBatch next rest batch table
       end.

(** What a flush meets: the attempts at the batch, and the one attempt at each row. *)
Record flushWorld := mkFlushWorld {
  fw_first : attempt;
  fw_retries : list attempt;
  fw_row : nat -> attempt;
}.

Record worker := mkWorker { wk_batch : list writeJob; wk_armed : bool; wk_exited : bool }.

Record chState := mkCHState {
  ch_jobs : list writeJob;
  ch_workers : list worker;
  ch_closing : bool;
  ch_settled : list (option nat * bool);
  ch_table : list (list column);
  ch_flushes : nat;
}.

Definition started (workers : nat) : chState := mkCHState [] (replicate workers (mkWorker [] false false)) false [] [] 0.

Definition settle_job (commit : option nat) (ok : bool) (s : chState) : chState :=
  mkCHState (ch_jobs s) (ch_workers s) (ch_closing s) (ch_settled s ++ [(commit, ok)]) (ch_table s) (ch_flushes s).

Definition set_table (table : list (list column)) (s : chState) : chState :=
  mkCHState (ch_jobs s) (ch_workers s) (ch_closing s) (ch_settled s) table (ch_flushes s).

Definition count_flush (s : chState) : chState :=
  mkCHState (ch_jobs s) (ch_workers s) (ch_closing s) (ch_settled s) (ch_table s) (S (ch_flushes s)).

(** The isolation phase of [flushBatch], from the [i]-th row on. *)
Fixpoint isolate (w : flushWorld) (i : nat) (batch : list writeJob) (s : chState) : chState :=
  match batch with
  | [] => s
  | job :: rest =>
      let '(ok, table) := sendBatchOnce (fw_row w i) [job] (ch_table s) in
      isolate w (S i) rest (settle_job (wj_commit job) ok (set_table table s))
  end.

Definition flushBatch (world : nat -> flushWorld) (batch : list writeJob) (s : chState) : chState :=
  let w := world (ch_flushes s) in
  let s := count_flush s in
  let '(ok, table) := sendBatch (fw_first w) (fw_retries w) batch (ch_table s) in
  let s := set_table table s in
  if ok then foldl (fun s job => settle_job (wj_commit job) true s) s batch
  else isolate w 0 batch s.

(** ** Callers, workers and the shutdown *)

Inductive enqueueError := errClosing | errContext | errQueueFull.
Record writerConfig := mkWriterConfig {
  wc_queueSize : nat;
  wc_batchMaxRows : nat;
  (** what the n-th flush meets *)
  wc_world : nat -> flushWorld;
}.

Definition set_jobs (jobs : list writeJob) (s : chState) : chState :=
  mkCHState jobs (ch_workers s) (ch_closing s) (ch_settled s) (ch_table s) (ch_flushes s).

Definition set_worker (i : nat) (w : worker) (s : chState) : chState :=
  mkCHState (ch_jobs s) (<[i := w]> (ch_workers s)) (ch_closing s) (ch_settled s) (ch_table s) (ch_flushes s).

(** [Enqueue]; a send needs room in the channel, without it the call is modelled as its
    timeout. *)
Definition Enqueue (cfg : writerConfig) (record : Record_) (commit : option nat) (outcome : sendOutcome) (s : chState)
    : result enqueueError chState :=
  if ch_closing s then Err errClosing
  else match outcome with
       | Sent => if bool_decide (length (ch_jobs s) < wc_queueSize cfg)
                 then Ok (set_jobs (ch_jobs s ++ [mkWriteJob (insertArgs record) commit]) s)
                 else Err errQueueFull
       | ContextDone => Err errContext
       | TimedOut => Err errQueueFull
       end.

(** A job taken into the batch, which is flushed once it is full. *)
Definition take_job (cfg : writerConfig) (job : writeJob) (w : worker) (s : chState) : worker * chState :=
  let batch := wk_batch w ++ [job] in
  let armed := if bool_decide (length batch = 1) then true else wk_armed w in
  if bool_decide (wc_batchMaxRows cfg <= length batch)
  then (mkWorker [] false (wk_exited w), flushBatch (wc_world cfg) batch s)
  else (mkWorker batch armed (wk_exited w), s).

(** One receive of a worker: a job, or the closed and drained channel. *)
Definition receive (cfg : writerConfig) (i : nat) (s : chState) : chState :=
  match ch_workers s !! i with
  | None => s
  | Some w =>
      if wk_exited w then s
      else match ch_jobs s with
           | job :: rest => let '(w', s') := take_job cfg job w (set_jobs rest s) in set_worker i w' s'
           | [] =>
               if ch_closing s then
                 set_worker i (mkWorker [] false true)
                   (if bool_decide (0 < length (wk_batch w)) then flushBatch (wc_world cfg) (wk_batch w) s else s)
               else s
           end
  end.

(** The batch timer, which is armed while a batch is being filled. *)
Definition batch_timer (cfg : writerConfig) (i : nat) (s : chState) : chState :=
  match ch_workers s !! i with
  | Some w =>
      if wk_armed w && negb (wk_exited w)
      then set_worker i (mkWorker [] false (wk_exited w)) (flushBatch (wc_world cfg) (wk_batch w) s)
      else s
  | None => s
  end.

(** [Start] once its context is done: nothing is accepted any more. *)
Definition shutdown (s : chState) : chState :=
  mkCHState (ch_jobs s) (ch_workers s) true (ch_settled s) (ch_table s) (ch_flushes s).

Inductive writerOp :=
| OpEnqueue (record : Record_) (commit : option nat) (outcome : sendOutcome)
| OpReceive (i : nat)
| OpTimer (i : nat)
| OpShutdown.

Definition step_writer (cfg : writerConfig) (op : writerOp) (s : chState) : chState :=
  match op with
  | OpEnqueue record commit outcome => match Enqueue cfg record commit outcome s with Ok s' => s' | Err _ => s end
  | OpReceive i => receive cfg i s
  | OpTimer i => batch_timer cfg i s
  | OpShutdown => shutdown s
  end.

Definition run_writer (cfg : writerConfig) (ops : list writerOp) (s : chState) : chState :=
  foldl (fun s op => step_writer cfg op s) s ops.

(** ** What a flush does *)

Record progress (s s' : chState) (done_ : list (writeJob * bool)) : Prop := {
  pg_jobs : ch_jobs s' = ch_jobs s;
  pg_workers : ch_workers s' = ch_workers s;
  pg_closing : ch_closing s' = ch_closing s;
  pg_settled : ch_settled s' = ch_settled s ++ map (fun d => (wj_commit d.1, d.2)) done_;
  pg_table : exists more, ch_table s' = ch_table s ++ more /\
    (forall row, row ∈ more -> row ∈ map (fun d => wj_args d.1) done_) /\
    (forall j, (j, true) ∈ done_ -> wj_args j ∈ more);
}.

Lemma kept_rows_sub {A} arrived i (rows : list A) : kept_rows arrived i rows ⊆ rows.
Proof. revert i. induction rows as [|r rows IH]; intros i; [done|]. simpl. destruct (arrived i); set_solver. Qed.

Lemma send_rows_arrived {A} prepared appends send (rows table : list A) ok table' :
  send_rows prepared appends send rows table = (ok, table') ->
  exists more, table' = table ++ more /\ more ⊆ rows /\ (ok = true -> more = rows).
Proof.
  unfold send_rows. destruct prepared; [|intros [= <- <-]; exists []; rewrite app_nil_r; set_solver].
  simpl. destruct (forallb appends rows); [|intros [= <- <-]; exists []; rewrite app_nil_r; set_solver].
  destruct send as [|arrived]; intros [= <- <-]; eexists; (split; [done|]); split; try done. apply kept_rows_sub.
Qed.

Lemma sendBatch_arrived a retries batch table ok table' : sendBatch a retries batch table = (ok, table') ->
  exists more, table' = table ++ more /\ more ⊆ map wj_args batch /\ (ok = true -> map wj_args batch ⊆ more).
Proof.
  revert a table. induction retries as [|next rest IH]; intros a table; simpl;
    destruct (sendBatchOnce a batch table) as [ok1 table1] eqn:E; apply send_rows_arrived in E as (more & -> & Hsub & Hall).
  all: destruct ok1; [intros [= <- <-]; exists more; split_and!; [done|done|by rewrite Hall]|].
  - intros [= <- <-]. by exists more.
  - intros (more' & -> & Hsub' & Hall')%IH. exists (more ++ more'). rewrite app_assoc.
    split; [done|]. split; [set_solver|]. intros Hok. specialize (Hall' Hok). set_solver.
Qed.

Lemma settle_all_eq batch s :
  foldl (fun s job => settle_job (wj_commit job) true s) s batch =
  mkCHState (ch_jobs s) (ch_workers s) (ch_closing s) (ch_settled s ++ map (fun j => (wj_commit j, true)) batch) (ch_table s) (ch_flushes s).
Proof.
  revert s. induction batch as [|j batch IH]; intros s; simpl; [rewrite app_nil_r; by destruct s|].
  rewrite IH. simpl. by rewrite <-app_assoc.
Qed.

Lemma settle_all_progress batch table more (s : chState) : table = ch_table s ++ more -> more ⊆ map wj_args batch ->
  map wj_args batch ⊆ more ->
  progress s (foldl (fun s job => settle_job (wj_commit job) true s) (set_table table s) batch) (map (fun j => (j, true)) batch).
Proof.
  intros -> Hm Hb. rewrite settle_all_eq. split; simpl; try done; [by rewrite map_map|]. exists more. split; [done|]. rewrite map_map. split; [exact Hm|].
  intros j (j' & [= ->] & Hj)%list_elem_of_fmap. by apply Hb, list_elem_of_fmap_2.
Qed.

(** The isolation phase: each row is attempted once and settled by its own outcome. *)
Lemma isolate_progress w i batch s : exists oks, length oks = length batch /\
  progress s (isolate w i batch s) (zip batch oks).
Proof.
  revert i s. induction batch as [|job batch IH]; intros i s; simpl.
  - exists []. split; [done|]. split; try done; [by rewrite app_nil_r|]. exists []. rewrite app_nil_r. set_solver.
  - destruct (sendBatchOnce (fw_row w i) [job] (ch_table s)) as [ok table] eqn:E.
    apply send_rows_arrived in E as (more & -> & Hsub & Hall). simpl in *.
    destruct (IH (S i) (settle_job (wj_commit job) ok (set_table (ch_table s ++ more) s))) as (oks & Hlen & [Pj Pw Pc Ps (more' & Pt & Pin & Pok)]).
    exists (ok :: oks). split; [simpl; lia|]. split; simpl in *; try done; [by rewrite Ps, <-app_assoc|].
    exists (more ++ more'). rewrite Pt, <-app_assoc. split; [done|]. split.
    + intros row [Hr|Hr]%elem_of_app; apply elem_of_cons; [left|right; by apply Pin]. apply Hsub in Hr. by apply list_elem_of_singleton in Hr.
    + intros j [[= -> <-]|Hj]%elem_of_cons; apply elem_of_app; [left|right; by apply Pok].
      rewrite Hall by done. by apply list_elem_of_singleton.
Qed.

Lemma progress_weaken s0 s s' d more : ch_jobs s = ch_jobs s0 -> ch_workers s = ch_workers s0 -> ch_closing s = ch_closing s0 ->
  ch_settled s = ch_settled s0 -> ch_table s = ch_table s0 ++ more -> more ⊆ map (fun d => wj_args d.1) d ->
  progress s s' d -> progress s0 s' d.
Proof.
  intros E1 E2 E3 E4 E5 Hm [Pj Pw Pc Ps (more' & Pt & Pin & Pok)]. split; try congruence.
  exists (more ++ more'). rewrite Pt, E5, <-app_assoc. split; [done|]. split; [set_solver|].
  intros j Hj%Pok. apply elem_of_app. by right.
Qed.

Lemma ch_flush_progress world batch s : exists oks, length oks = length batch /\ progress s (flushBatch world batch s) (zip batch oks).
Proof.
  unfold flushBatch. destruct (sendBatch _ _ _ _) as [ok table] eqn:E.
  apply sendBatch_arrived in E as (more & -> & Hsub & Hall). destruct ok.
  - exists (replicate (length batch) true). rewrite length_replicate. split; [done|].
    replace (zip batch (replicate (length batch) true)) with (map (fun j => (j, true)) batch).
    + destruct (settle_all_progress batch (ch_table s ++ more) more (count_flush s)) as [Pj Pw Pc Ps Pt]; [done|done|auto|].
      by split.
    + clear. induction batch as [|j batch IH]; [done|]. simpl. by rewrite IH.
  - destruct (isolate_progress (world (ch_flushes s)) 0 batch (set_table (ch_table s ++ more) (count_flush s))) as (oks & Hlen & Hp).
    exists oks. split; [done|]. eapply progress_weaken; [..|exact Hp]; try done.
    rewrite <-(map_map fst wj_args). by rewrite fst_zip by lia.
Qed.

(** ** Every accepted job is settled exactly once *)

Definition worker_fills (w : worker) : Prop := (wk_armed w = true <-> wk_batch w <> []) /\ (wk_exited w = true -> wk_batch w = []).

Fixpoint accepted (cfg : writerConfig) (ops : list writerOp) (s : chState) : list writeJob :=
  match ops with
  | [] => []
  | op :: rest =>
      drop (length (ch_jobs s)) (match op with OpEnqueue _ _ _ => ch_jobs (step_writer cfg op s) | _ => [] end) ++
      accepted cfg rest (step_writer cfg op s)
  end.

Definition held (s : chState) : list writeJob := concat (map wk_batch (ch_workers s)).

(** What was settled how, what the workers hold, and what the table got. *)
Record account (cfg : writerConfig) (acc : list writeJob) (s : chState) (done_ : list (writeJob * bool)) : Prop := {
  ac_fills : Forall worker_fills (ch_workers s);
  ac_settled : ch_settled s = map (fun d => (wj_commit d.1, d.2)) done_;
  ac_all : acc ≡ₚ map fst done_ ++ held s ++ ch_jobs s;
  ac_table : ch_table s ⊆ map (fun d => wj_args d.1) done_;
  ac_backed : forall j, (j, true) ∈ done_ -> wj_args j ∈ ch_table s;
  ac_exited : forall w, w ∈ ch_workers s -> wk_exited w = true -> ch_closing s = true /\ ch_jobs s = [];
}.

Lemma held_insert s i w w' : ch_workers s !! i = Some w ->
  exists before after, held s = before ++ wk_batch w ++ after /\ concat (map wk_batch (<[i := w']> (ch_workers s))) = before ++ wk_batch w' ++ after.
Proof.
  intros Hi. pose proof (lookup_lt_Some _ _ _ Hi) as Hlt.
  assert (E : forall x, concat (map wk_batch (<[i := x]> (ch_workers s))) =
            concat (map wk_batch (take i (ch_workers s))) ++ wk_batch x ++ concat (map wk_batch (drop (S i) (ch_workers s)))).
  { intros x. rewrite insert_take_drop by done. by rewrite map_app, concat_app. }
  do 2 eexists. split; [|apply E]. unfold held. rewrite <-E. by rewrite (list_insert_id _ _ _ Hi).
Qed.

(** A worker's move settles the jobs [d] and keeps [wk_batch w']. *)
Lemma ch_account_move cfg acc s done_ i w queued s0 w' s' d :
  account cfg acc s done_ -> ch_workers s !! i = Some w -> ch_jobs s = queued ++ ch_jobs s0 -> s0 = set_jobs (ch_jobs s0) s ->
  progress s0 s' d -> worker_fills w' -> wk_batch w ++ queued = map fst d ++ wk_batch w' ->
  (wk_exited w' = true -> ch_closing s = true /\ ch_jobs s0 = []) ->
  account cfg acc (set_worker i w' s') (done_ ++ d).
Proof.
  intros [Hf Hs Ha Ht Hb He] Hw Hq Hs0 [Pj Pw Pc Ps (more & Pt & Pin & Pok)] Hw' Hsplit Hex.
  assert (Hws : ch_workers s' = ch_workers s) by (rewrite Pw, Hs0; done).
  assert (Hcl : ch_closing s' = ch_closing s) by (rewrite Pc, Hs0; done).
  assert (Hse : ch_settled s0 = ch_settled s) by (rewrite Hs0; done).
  assert (Hta : ch_table s0 = ch_table s) by (rewrite Hs0; done).
  destruct (held_insert s i w w' Hw) as (before & after & Eh & Eh').
  split; unfold set_worker; simpl.
  - rewrite Hws. by apply Forall_insert.
  - by rewrite Ps, Hse, Hs, map_app.
  - unfold held. simpl. rewrite Hws, Eh', Ha, Hq, Pj, map_app, Eh. clear -Hsplit.
    transitivity (map fst done_ ++ before ++ after ++ (wk_batch w ++ queued) ++ ch_jobs s0); [solve_Permutation|].
    rewrite Hsplit. solve_Permutation.
  - rewrite Pt, Hta, map_app. intros row [Hr|Hr]%elem_of_app; apply elem_of_app; [left; by apply Ht|right; by apply Pin].
  - intros j. rewrite Pt, Hta. intros [Hj|Hj]%elem_of_app; apply elem_of_app; [left; by apply Hb|right; by apply Pok].
  - intros w1 Hw1 Hx1. rewrite Hcl, Pj. rewrite Hws in Hw1.
    apply list_elem_of_lookup in Hw1 as [k Hk]. apply list_lookup_insert_Some in Hk as [(<- & <- & _)|[_ Hk]]; [by apply Hex|].
    destruct (He w1) as [Hc Hj]; [by eapply list_elem_of_lookup_2|done|]. rewrite Hq in Hj. by apply app_nil in Hj as [_ ?].
Qed.

Lemma ch_progress_refl s : progress s s [].
Proof. split; try done; [by rewrite app_nil_r|]. exists []. rewrite app_nil_r. set_solver. Qed.

(** A whole batch is flushed: every job of it is settled. *)
Lemma flush_settles world batch s : exists d, map fst d = batch /\ progress s (flushBatch world batch s) d.
Proof.
  destruct (ch_flush_progress world batch s) as (oks & Hlen & Hp). exists (zip batch oks). split; [apply fst_zip; lia|done].
Qed.

Lemma take_job_moves cfg job w s : worker_fills w -> wk_exited w = false -> exists d,
  let '(w', s') := take_job cfg job w s in
  progress s s' d /\ worker_fills w' /\ wk_exited w' = false /\ wk_batch w ++ [job] = map fst d ++ wk_batch w'.
Proof.
  intros [Hf Hx] He. unfold take_job. case_bool_decide.
  - destruct (flush_settles (wc_world cfg) (wk_batch w ++ [job]) s) as (d & Hd & Hp). exists d. split_and!; try done.
    by rewrite Hd, app_nil_r.
  - exists []. split_and!; try done; [apply ch_progress_refl|]. split; simpl; [|congruence].
    split; [by intros _; destruct (wk_batch w)|]. intros _. case_bool_decide as Hl; [done|]. apply Hf. intros E. by rewrite E in Hl.
Qed.

Lemma ch_step_account cfg acc op s done_ : account cfg acc s done_ ->
  exists done', account cfg (acc ++ accepted cfg [op] s) (step_writer cfg op s) done'.
Proof.
  intros Hacc. cbn [accepted]. rewrite app_nil_r. pose proof Hacc as [Hf Hs Ha Ht Hb He].
  destruct op as [r c o|i|i|]; cbn [step_writer]; rewrite ?drop_nil, ?app_nil_r.
  - unfold Enqueue. repeat case_match; simplify_eq; rewrite ?drop_all, ?app_nil_r; try by exists done_.
    case_bool_decide; rewrite ?drop_all, ?app_nil_r; [|by exists done_]. exists done_. cbn.
    rewrite drop_app_length. split; cbn; try done; [by rewrite Ha, <-!app_assoc|].
    intros w Hw Hx. destruct (He w Hw Hx). congruence.
  - unfold receive. destruct (ch_workers s !! i) as [w|] eqn:Ew; [|by exists done_].
    destruct (wk_exited w) eqn:Ex; [by exists done_|]. pose proof (Forall_lookup_1 _ _ _ _ Hf Ew) as Hw.
    destruct (ch_jobs s) as [|job rest] eqn:Ej.
    + destruct (ch_closing s) eqn:Ec; [|by exists done_].
      assert (Hp : exists d, map fst d = wk_batch w /\
                progress s (if bool_decide (0 < length (wk_batch w)) then flushBatch (wc_world cfg) (wk_batch w) s else s) d).
      { case_bool_decide; [apply flush_settles|]. exists []. split; [by destruct (wk_batch w); simpl in *; [|lia]|apply ch_progress_refl]. }
      destruct Hp as (d & Hd & Hp). exists (done_ ++ d).
      eapply (ch_account_move _ _ _ _ _ _ [] s); try done; [by destruct s|by rewrite Hd].
    + destruct (take_job_moves cfg job w (set_jobs rest s) Hw Ex) as (d & Hp).
      destruct (take_job _ _ _ _) as [w' s']. destruct Hp as (Hp & Hw' & Hx' & Hsplit). exists (done_ ++ d).
      eapply (ch_account_move _ _ _ _ _ _ [job] (set_jobs rest s)); try done. congruence.
  - unfold batch_timer. destruct (ch_workers s !! i) as [w|] eqn:Ew; [|by exists done_].
    destruct (_ && _) eqn:Eg; [|by exists done_]. apply andb_true_iff in Eg as [_ Ex%negb_true_iff].
    destruct (flush_settles (wc_world cfg) (wk_batch w) s) as (d & Hd & Hp). exists (done_ ++ d).
    eapply (ch_account_move _ _ _ _ _ _ [] s); try done; [by destruct s|by rewrite Hd|simpl; congruence].
  - exists done_. split; try done. cbn. intros w Hw Hx. by destruct (He w Hw Hx).
Qed.

Lemma ch_run_account cfg ops acc s done_ : account cfg acc s done_ ->
  exists done', account cfg (acc ++ accepted cfg ops s) (run_writer cfg ops s) done'.
Proof.
  revert acc s done_. induction ops as [|op ops IH]; intros acc s done_ Hacc; [cbn; rewrite app_nil_r; by exists done_|].
  destruct (ch_step_account cfg acc op s done_ Hacc) as (done1 & Hacc1). destruct (IH _ _ _ Hacc1) as (done2 & Hacc2).
  exists done2. cbn [accepted] in *. by rewrite app_nil_r, <-app_assoc in Hacc2.
Qed.

Lemma ch_fresh_account cfg n : account cfg [] (started n) [].
Proof.
  split; cbn; try done.
  - apply Forall_replicate. by split.
  - unfold held. simpl. rewrite app_nil_r. induction n; [done|]. cbn. done.
  - intros j Hj. by apply elem_of_nil in Hj.
  - intros w [-> _]%elem_of_replicate. done.
Qed.

Definition running (ws : list worker) : nat := length (List.filter (fun w => negb (wk_exited w)) ws).
Definition remaining (s : chState) : nat := length (ch_jobs s) + running (ch_workers s).

Lemma ch_running_insert ws i w w' : ws !! i = Some w -> wk_exited w = false ->
  running (<[i := w']> ws) + (if wk_exited w' then 1 else 0) = running ws.
Proof.
  unfold running. revert i. induction ws as [|x ws IH]; intros [|i] Hi Hx; try done; simpl in *.
  - injection Hi as ->. rewrite Hx. destruct (wk_exited w'); simpl; lia.
  - specialize (IH i Hi Hx). destruct (wk_exited x); simpl; lia.
Qed.

Lemma ch_receive_remaining cfg acc s done_ i w : account cfg acc s done_ -> ch_closing s = true ->
  ch_workers s !! i = Some w -> wk_exited w = false -> remaining (receive cfg i s) < remaining s.
Proof.
  intros [Hf _ _ _ _ _] Hc Hi Hx. unfold receive, remaining. rewrite Hi, Hx. pose proof (Forall_lookup_1 _ _ _ _ Hf Hi) as Hw.
  destruct (ch_jobs s) as [|job rest] eqn:Ej.
  - rewrite Hc. assert (Hp : exists d, progress s (if bool_decide (0 < length (wk_batch w)) then flushBatch (wc_world cfg) (wk_batch w) s else s) d).
    { case_bool_decide; [by destruct (flush_settles (wc_world cfg) (wk_batch w) s) as (d & _ & ?); exists d|exists []; apply ch_progress_refl]. }
    destruct Hp as (d & [Pj Pw _ _ _]). simpl. rewrite Pj, Pw, Ej.
    pose proof (ch_running_insert (ch_workers s) i w (mkWorker [] false true) Hi Hx) as Hr. simpl in *. lia.
  - destruct (take_job_moves cfg job w (set_jobs rest s) Hw Hx) as (d & Hp).
    destruct (take_job _ _ _ _) as [w' s']. destruct Hp as ([Pj Pw _ _ _] & _ & Hx' & _). simpl in *. rewrite Pj, Pw.
    pose proof (ch_running_insert (ch_workers s) i w w' Hi Hx) as Hr. rewrite Hx' in Hr. lia.
Qed.

Lemma ch_exited_account cfg acc s done_ : account cfg acc s done_ -> ch_workers s <> [] ->
  Forall (fun w => wk_exited w = true) (ch_workers s) -> held s ++ ch_jobs s = [].
Proof.
  intros [Hf _ _ _ _ He] Hne Hall.
  assert (Hj : ch_jobs s = []).
  { destruct (ch_workers s) as [|w ws] eqn:E; [done|]. apply (He w); [by left|]. by apply Forall_cons in Hall as [? _]. }
  rewrite Hj, app_nil_r. unfold held. clear -Hf Hall. induction Hf as [|w ws [_ Hw] Hf IH]; [done|].
  apply Forall_cons in Hall as [Hx Hall]. simpl. by rewrite (Hw Hx), (IH Hall).
Qed.

(** ** Poison rows *)

(** An attempt that succeeds: the batch is prepared, [Append] takes every row and [Send] is
    answered. *)
Definition takes (a : attempt) (rows : list (list column)) : Prop :=
  at_prepared a = true /\ Forall (fun row => at_appends a row = true) rows /\ at_send a = SendOk.

(** What makes rows poison, wherever they are refused, by [Append] or at [Send]: no batch with
    one of them succeeds, and the attempt at a row of its own - the connection answering -
    succeeds exactly when the row is not one. *)
Record answers_for (poison : list column -> bool) (batch : list writeJob) (w : flushWorld) : Prop := {
  af_batch : forall a, a = fw_first w \/ a ∈ fw_retries w -> takes a (map wj_args batch) ->
    Forall (fun j => poison (wj_args j) = false) batch;
  af_row : forall i j, batch !! i = Some j -> (takes (fw_row w i) [wj_args j] <-> poison (wj_args j) = false);
}.

Lemma sendBatchOnce_takes a batch table : (sendBatchOnce a batch table).1 = true <-> takes a (map wj_args batch).
Proof.
  unfold sendBatchOnce, send_rows, takes. destruct (at_prepared a); [|split; [done|by intros (? & _)]]. cbn [negb].
  destruct (forallb (at_appends a) (map wj_args batch)) eqn:Ef.
  - rewrite forallb_forall in Ef. destruct (at_send a); cbn; [|split; [done|by intros (_ & _ & ?)]]. split; [|done]. intros _.
    split_and!; [done| |done]. apply Forall_forall. intros row Hr. by apply Ef, list_elem_of_In.
  - split; [done|]. intros (_ & Hf & _). apply not_true_iff_false in Ef. destruct Ef. apply forallb_forall. intros row Hr.
    rewrite Forall_forall in Hf. by apply Hf, list_elem_of_In.
Qed.

Lemma sendBatch_takes a retries batch table table' : sendBatch a retries batch table = (true, table') ->
  exists b, (b = a \/ b ∈ retries) /\ takes b (map wj_args batch).
Proof.
  revert a table. induction retries as [|next rest IH]; intros a table; simpl;
    pose proof (sendBatchOnce_takes a batch table) as Ht; destruct (sendBatchOnce a batch table) as [[] t1]; cbn in Ht.
  - intros _. exists a. split; [by left|by apply Ht].
  - done.
  - intros _. exists a. split; [by left|by apply Ht].
  - intros (b & Hb & Hr)%IH. exists b. split; [|done]. right. destruct Hb as [->|Hb]; [by left|by right].
Qed.

Lemma isolate_outcomes poison w i batch s :
  (forall k j, batch !! k = Some j -> (takes (fw_row w (i + k)) [wj_args j] <-> poison (wj_args j) = false)) ->
  ch_settled (isolate w i batch s) = ch_settled s ++ map (fun j => (wj_commit j, negb (poison (wj_args j)))) batch.
Proof.
  revert i s. induction batch as [|job batch IH]; intros i s Hr; simpl; [by rewrite app_nil_r|].
  pose proof (sendBatchOnce_takes (fw_row w i) [job] (ch_table s)) as Ht. specialize (Hr 0 job eq_refl) as H0. rewrite Nat.add_0_r in H0.
  change (map wj_args [job]) with [wj_args job] in Ht. rewrite H0 in Ht.
  destruct (sendBatchOnce (fw_row w i) [job] (ch_table s)) as [ok t]. cbn in Ht.
  rewrite IH by (intros k j Hk; rewrite Nat.add_succ_comm; by apply Hr). simpl. rewrite <-app_assoc. simpl.
  replace (negb (poison (wj_args job))) with ok; [done|]. clear -Ht. destruct ok, (poison (wj_args job)); cbn; tauto.
Qed.

Lemma flush_outcomes poison world batch s : answers_for poison batch (world (ch_flushes s)) ->
  ch_settled (flushBatch world batch s) = ch_settled s ++ map (fun j => (wj_commit j, negb (poison (wj_args j)))) batch.
Proof.
  intros [Hb Hr]. unfold flushBatch. destruct (sendBatch _ _ _ _) as [ok table] eqn:E.
  destruct ok; [|by rewrite (isolate_outcomes poison)]. apply sendBatch_takes in E as (b & Hin & Ht%Hb); [|done].
  rewrite settle_all_eq. simpl. f_equal. clear -Ht. induction Ht as [|j batch Hj Hc IH]; [done|]. simpl. by rewrite Hj, IH.
Qed.

(** ** Properties *)

(** C22: every accepted row is settled exactly once, and never on a guess. However
    callers, workers, full batches, timers, refused, lost and half-arrived sends, the
    row-by-row isolation and the shutdown interleave: the callbacks called so far are,
    one for one, those of accepted jobs that are no longer queued or in a batch; a
    callback that reported success belongs to an accepted job whose row is in the table,
    and the table holds nothing but rows of accepted jobs (the row of a job that was
    reported lost may be among them: its acknowledgement was lost). After the shutdown began each
    receive of a worker still running leaves less to do, and when all of them have ended
    nothing is left unsettled. *)
Theorem rows_settle_once cfg n ops :
  let s := run_writer cfg ops (started n) in
  let acc := accepted cfg ops (started n) in
  (exists unsettled, map wj_commit acc ≡ₚ map fst (ch_settled s) ++ map wj_commit unsettled /\
     (ch_workers s <> [] -> Forall (fun w => wk_exited w = true) (ch_workers s) -> unsettled = [])) /\
  (forall c, (c, true) ∈ ch_settled s -> exists job, job ∈ acc /\ wj_commit job = c /\ wj_args job ∈ ch_table s) /\
  (forall row, row ∈ ch_table s -> exists job, job ∈ acc /\ wj_args job = row) /\
  (forall i w, ch_closing s = true -> ch_workers s !! i = Some w -> wk_exited w = false ->
     remaining (step_writer cfg (OpReceive i) s) < remaining s).
Proof.
  intros s acc. destruct (ch_run_account cfg ops _ _ _ (ch_fresh_account cfg n)) as (d & Hacc).
  change ([] ++ accepted cfg ops (started n)) with acc in Hacc. fold s in Hacc.
  pose proof Hacc as [Hf Hs Ha Ht Hb He].
  assert (Hin : forall job ok, (job, ok) ∈ d -> job ∈ acc).
  { intros job ok Hd. rewrite Ha. apply elem_of_app. left. by apply (list_elem_of_fmap_2 fst d (job, ok)). }
  split_and!.
  - exists (held s ++ ch_jobs s). split; [|by apply ch_exited_account with (1 := Hacc)].
    rewrite Ha, Hs, map_app, !map_map. done.
  - intros c. rewrite Hs. intros ([job ok] & [= -> <-] & Hd)%list_elem_of_fmap. exists job. split_and!; [by eapply Hin|done|by apply Hb].
  - intros row ([job ok] & -> & Hd)%Ht%list_elem_of_fmap. exists job. by split; [eapply Hin|].
  - intros i w. by apply ch_receive_remaining with (1 := Hacc).
Qed.

(** C23: one bad row cannot doom its batch. Let some rows be poison - refused by [Append] or at
    [Send], so that no batch with one succeeds - and let the connection answer while rows
    are isolated. Then, whatever becomes of the attempts at the whole batch, a flush
    settles every job by its own row, as a success exactly when that row is not poison;
    every row that is not poison is in the table afterwards, and the flush adds rows of
    the batch only. *)
Theorem poison_rows_isolated world batch s poison :
  answers_for poison batch (world (ch_flushes s)) ->
  let s' := flushBatch world batch s in
  ch_settled s' = ch_settled s ++ map (fun j => (wj_commit j, negb (poison (wj_args j)))) batch /\
  exists more, ch_table s' = ch_table s ++ more /\ more ⊆ map wj_args batch /\
    forall j, j ∈ batch -> poison (wj_args j) = false -> wj_args j ∈ more.
Proof.
  intros Hw s'. pose proof (flush_outcomes poison world batch s Hw) as Hs. split; [exact Hs|].
  destruct (ch_flush_progress world batch s) as (oks & Hlen & [_ _ _ Ps (more & Pt & Pin & Pok)]).
  exists more. split; [exact Pt|]. split.
  - intros row Hrow%Pin. rewrite <-(map_map fst wj_args) in Hrow. rewrite fst_zip in Hrow by lia. exact Hrow.
  - intros j (i & Hi)%list_elem_of_lookup Hp. apply Pok. rewrite Hs in Ps. apply app_inv_head in Ps.
    apply (f_equal (fun l => l !! i)) in Ps. rewrite !list_lookup_fmap, Hi in Ps. cbn in Ps. rewrite Hp in Ps.
    destruct (zip batch oks !! i) as [[j' ok]|] eqn:Ez; [|done]. injection Ps as _ <-.
    apply lookup_zip_Some in Ez as [Ej Eo]. rewrite Hi in Ej. injection Ej as <-. eapply list_elem_of_lookup_2.
    apply lookup_zip_Some. done.
Qed.

(** ** Evaluation *)

Module CHSamples.
Definition row (name : string) : Record_ :=
  mkRecord 1 "c" "Added" "" "v1" "ConfigMap" "ns" name "u" "1" ∅ [] "{}" "" "h".

(** Rows of this name are refused by the driver; attempts at whole batches lose their
    acknowledgement. *)
Definition bad (columns : list column) : bool := bool_decide (columns = insertArgs (row "bad")).
Definition lossy : attempt := mkAttempt true (fun c => negb (bad c)) (SendFailed (fun _ => true)).
Definition sample_world (n : nat) : flushWorld :=
  mkFlushWorld lossy [lossy] (fun _ => mkAttempt true (fun c => negb (bad c)) SendOk).

Definition two_jobs : list writeJob := [mkWriteJob (insertArgs (row "good")) (Some 1); mkWriteJob (insertArgs (row "bad")) (Some 2)].

Lemma poison_rows_isolated_witness :
  ch_settled (flushBatch sample_world two_jobs (started 1)) = [(Some 1, true); (Some 2, false)] /\
  insertArgs (row "good") ∈ ch_table (flushBatch sample_world two_jobs (started 1)).
Proof.
  assert (Ha : answers_for bad two_jobs (sample_world 0)).
  { split.
    - intros a Ha (_ & _ & Hs). destruct Ha as [->|Ha]; [discriminate Hs|]. apply list_elem_of_singleton in Ha as ->. discriminate Hs.
    - intros i j Hj. unfold takes. cbn [sample_world fw_row at_prepared at_appends at_send]. split.
      + intros (_ & Hf & _). apply Forall_cons in Hf as [Hf _]. by apply negb_true_iff in Hf.
      + intros Hb. split_and!; [done| |done]. constructor; [by rewrite Hb|constructor]. }
  destruct (poison_rows_isolated sample_world two_jobs (started 1) bad Ha) as [Hs (more & Ht & _ & Hin)].
  split; [rewrite Hs; vm_compute; reflexivity|]. rewrite Ht. apply elem_of_app. right.
  apply (Hin (mkWriteJob (insertArgs (row "good")) (Some 1))); [by left|vm_compute; reflexivity].
Defined.

(** A queue of one, a worker that fills batches of two, a timer and the drain. *)
Definition sample_config : writerConfig := mkWriterConfig 1 2 sample_world.
Definition sample_run : list writerOp :=
  [OpEnqueue (row "good") (Some 1) Sent; OpEnqueue (row "full") (Some 2) Sent; OpReceive 0; OpTimer 0;
   OpEnqueue (row "bad") (Some 3) Sent; OpShutdown; OpEnqueue (row "late") (Some 4) Sent; OpReceive 0; OpReceive 0].

Example ch_sample_run_settles :
  let s := run_writer sample_config sample_run (started 1) in
  ch_settled s = [(Some 1, true); (Some 3, false)] /\ length (ch_table s) = 3 /\ map wk_exited (ch_workers s) = [true].
Proof. vm_compute. split_and!; reflexivity. Qed.
End CHSamples.
