(* ===== verification/CHScopeWriter.v ===== *)
(** * CHScopeWriter: the scope log of the ClickHouse sink

    Models [src/internal/sink/clickhouse/scopewriter.go]: the columns of a transition
    and the delivery of a batch of them, over the worker of [ScopeWorker]. What lands is
    a transition with the row it was bound to. *)

From S2P Require Import Prelude SinkTypes ScopeLog ScopeWorker CHWriter.

(** [scopeInsertArgs], in the order of the columns of [insertScopeEventQuery]. *)
Definition scopeInsertArgs (event : ScopeEvent) : list column :=
  [ColTime (se_TS event); ColString (sf_ClusterID (se_Scope event)); ColString (sf_APIGroup (se_Scope event));
   ColString (se_APIVersion event); ColString (sf_Kind (se_Scope event)); ColString (sf_Namespace (se_Scope event));
   ColString (action_text (se_Action event)); ColString (se_RuleRef event)].

Definition sendScopeBatchOnce (a : attempt) (batch : list ScopeEvent) (landed : list (ScopeEvent * list column))
    : bool * list (ScopeEvent * list column) :=
  send_rows (at_prepared a) (fun l => at_appends a l.2) (at_send a) (map (fun e => (e, scopeInsertArgs e)) batch) landed.

(** The first attempt and the retries the backoff allows. *)
Fixpoint send_scopes (a : attempt) (retries : list attempt) (batch : list ScopeEvent) (landed : list (ScopeEvent * list column))
    : bool * list (ScopeEvent * list column) :=
  let '(ok, landed) := sendScopeBatchOnce a batch landed in
  if ok then (true, landed)
  else match retries with
       | [] => (false, landed)
       | next :: rest => send_scopes next rest batch landed
       end.

Section transport.
(** What the n-th flush meets: its first attempt and the retries. *)
Context (world : nat -> attempt * list attempt).

(** What [flushScopeBatch] does with a batch before its rows are settled. *)
Definition ch_deliver (n : nat) (batch : list ScopeEvent) (landed : list (ScopeEvent * list column))
    : delivery * list (ScopeEvent * list column) :=
  let '(ok, landed) := send_scopes (world n).1 (world n).2 batch landed in (if ok then Delivered else Undelivered, landed).

Definition ch_scopes : ScopeTransport (ScopeEvent * list column) := {|
  deliver := ch_deliver;
  contents l := [l.1];
  rendered l := l.2 = scopeInsertArgs l.1;
|}.

Lemma send_scopes_arrived a retries batch landed ok landed' : send_scopes a retries batch landed = (ok, landed') ->
  exists more, landed' = landed ++ more /\ more ⊆ map (fun e => (e, scopeInsertArgs e)) batch /\
    (ok = true -> map (fun e => (e, scopeInsertArgs e)) batch ⊆ more).
Proof.
  revert a landed. induction retries as [|next rest IH]; intros a landed; simpl;
    destruct (sendScopeBatchOnce a batch landed) as [ok1 landed1] eqn:E; apply send_rows_arrived in E as (more & -> & Hsub & Hall).
  all: destruct ok1; [intros [= <- <-]; exists more; split_and!; [done|done|by rewrite Hall]|].
  - intros [= <- <-]. by exists more.
  - intros (more' & -> & Hsub' & Hall')%IH. exists (more ++ more'). rewrite app_assoc.
    split; [done|]. split; [set_solver|]. intros Hok. specialize (Hall' Hok). set_solver.
Qed.

#[export] Instance ch_scopes_laws : @ScopeTransportLaws _ ch_scopes.
Proof.
  split. intros n batch landed outcome landed'. cbn. unfold ch_deliver.
  destruct (send_scopes _ _ _ _) as [ok landed1] eqn:E. apply send_scopes_arrived in E as (more & -> & Hsub & Hall).
  intros [= <- <-]. exists more. split; [done|]. split.
  - intros l (e & -> & He)%Hsub%list_elem_of_fmap. cbn. split; [set_solver|done].
  - intros Ho e He. exists (e, scopeInsertArgs e). split; [|by apply list_elem_of_singleton].
    apply Hall; [by destruct ok|]. by apply (list_elem_of_fmap_2 (fun e => (e, scopeInsertArgs e))).
Qed.

Definition table_scopes (ops : list scopeOp) : scopeWriter (ScopeEvent * list column) := @run_scopes _ ch_scopes ops newScopeWriter.
Definition table_accepted (ops : list scopeOp) : list ScopeEvent := @scopes_accepted _ ch_scopes ops newScopeWriter.

Lemma table_account ops : @scopes_account _ ch_scopes (table_accepted ops) (table_scopes ops).
Proof. apply (run_scopes_account ops [] newScopeWriter), new_scopes_account. Qed.

Lemma rows_encodable events : @encodable _ ch_scopes events.
Proof. intros n b landed _ _. cbn. unfold ch_deliver. by destruct (send_scopes _ _ _ _) as [[] ?]. Qed.
End transport.

(** No transition disappears in silence on its way to the table. However recorders,
    batches, timers, failed and half-arrived sends, retries and the shutdown interleave:
    the transitions accepted so far are, one for one, those confirmed, those reported as
    dropped and those still waiting; a confirmed one is in the table, which holds rows
    of accepted transitions only; the waiting rooms stay within their bounds, and
    nothing is dropped before more than the retry queue's bound were accepted. After the
    shutdown began every receive leaves less to do, and once the worker has returned
    nothing is left in the channel or the batch. *)
Theorem scope_rows_accounted world ops :
  let w := table_scopes world ops in
  let acc := table_accepted world ops in
  acc ≡ₚ sc_confirmed w ++ sc_dropped w ++ sc_retries w ++ sc_batch w ++ sc_queue w /\
  (forall e, e ∈ sc_confirmed w -> (e, scopeInsertArgs e) ∈ sc_landed w) /\
  (forall e row, (e, row) ∈ sc_landed w -> row = scopeInsertArgs e /\ e ∈ acc) /\
  length (sc_retries w) <= scopeRetryQueueMaxLen /\ length (sc_batch w) < scopeBatchMaxRows /\
  length (sc_queue w) <= scopeQueueSize /\
  (length acc <= scopeRetryQueueMaxLen -> sc_dropped w = []) /\
  (sc_closing w = true -> sc_exited w = false ->
     scopes_remaining (@step_scopes _ (ch_scopes world) ScopeReceive w) < scopes_remaining w) /\
  (sc_exited w = true -> sc_batch w = [] /\ sc_queue w = []).
Proof.
  intros w acc. destruct (table_account world ops) as [A La C R Q B T X]. fold w acc in A, La, C, R, Q, B, T, X.
  split_and!; try done.
  - intros e ([e' row] & Hl & He)%C. apply list_elem_of_singleton in He as ->. destruct (La _ Hl) as [E _]. cbn in E |- *. by rewrite <-E.
  - intros e row [E He]%La. split; [exact E|]. apply He. by apply list_elem_of_singleton.
  - intros Hl. apply (run_no_drop (H := ch_scopes world) ops []); [apply new_scopes_account|done|apply rows_encodable|exact Hl].
  - apply receive_shrinks.
  - intros (_ & ? & ?)%X. done.
Qed.
