(* ===== verification/Process.v ===== *)
(** * Process: settling one work item

    Models the rest of [src/internal/pipeline/process.go] and the per-sink state
    of [src/internal/pipeline/pipeline.go]. A [sinkState] is a shared mutable
    object: [Process] holds a pointer to it and so do the commit callbacks of the
    jobs it enqueued, which may run after the registry has forgotten the sink. It
    is therefore modelled as a cell of a store ([ps_states], addressed by
    allocation index) that the registry [ps_registry] points into. A commit
    callback is the data it closes over ([commit]), run by [settle]. Everything a
    work item emits is recorded in the state: accepted jobs in order and
    work-queue calls in order. Logging and metrics are left out. *)

From S2P Require Import Prelude Identity HashCache GoJson Redact Normalize Coalesce SinkTypes Diff.

(** ** Close-outs awaiting a retry *)

Abbreviation closeOutRetryQueue := (gmap string (list Record_)).

Definition closeOuts_Add (key : string) (record : Record_) (q : closeOutRetryQueue)
    : closeOutRetryQueue :=
  <[key := default [] (q !! key) ++ [record]]> q.

Definition closeOuts_TakeAll (key : string) (q : closeOutRetryQueue)
    : list Record_ * closeOutRetryQueue :=
  (default [] (q !! key), delete key q).

(** ** Per-sink state *)

Record sinkState := mkSinkState {
  ss_cache : hashCache;
  ss_closeOuts : closeOutRetryQueue;
  ss_coalesce : coalescer;
  ss_warm : gset ScopeKey;
}.

Definition sinkState_zero : sinkState := mkSinkState ∅ ∅ coalescer_zero ∅.

Definition set_cache (c : hashCache) (s : sinkState) : sinkState :=
  mkSinkState c (ss_closeOuts s) (ss_coalesce s) (ss_warm s).
Definition set_closeOuts (q : closeOutRetryQueue) (s : sinkState) : sinkState :=
  mkSinkState (ss_cache s) q (ss_coalesce s) (ss_warm s).
Definition set_coalesce (c : coalescer) (s : sinkState) : sinkState :=
  mkSinkState (ss_cache s) (ss_closeOuts s) c (ss_warm s).
Definition set_warm (w : gset ScopeKey) (s : sinkState) : sinkState :=
  mkSinkState (ss_cache s) (ss_closeOuts s) (ss_coalesce s) w.

Definition scopeWarm (key : Key) (s : sinkState) : bool :=
  let scope := Scope key in
  bool_decide (scope ∈ ss_warm s) ||
  bool_decide (mkScopeKey (sk_Group scope) (sk_Kind scope) "" ∈ ss_warm s).

(** ** Jobs, commit callbacks and the work queue *)

(** An address in the store of sink states. *)
Abbreviation loc := nat.

Inductive commit :=
| CommitUpsert (st : loc) (key : Key) (version : Z) (confirmed : CacheEntry)
    (revert : option CacheEntry) (coalesceHash : string) (stampedAt coalesceWindow : Z)
| CommitDelete (st : loc) (key : Key) (version : Z)
| CommitCloseOut (st : loc) (key : Key) (record : Record_).

Record Job := mkJob { j_Record : Record_; j_Commit : commit }.

Inductive queue_call :=
| QAddRateLimited (key : Key)
| QAddAfter (key : Key) (delay : Z)
| QForget (key : Key).

(** ** Pipeline state *)

Record pstate := mkPState {
  ps_states : list sinkState;
  ps_registry : gmap ID loc;
  ps_jobs : list Job;
  ps_queue : list queue_call;
  (** clock readings and enqueue attempts so far, the indices of the oracles *)
  ps_clock : nat;
  ps_attempts : nat;
}.

Definition pstate_init : pstate := mkPState [] ∅ [] [] 0 0.

Definition set_states (l : list sinkState) (p : pstate) : pstate :=
  mkPState l (ps_registry p) (ps_jobs p) (ps_queue p) (ps_clock p) (ps_attempts p).

(** The sink state at an address. *)
Definition st_at (l : loc) (p : pstate) : sinkState := default sinkState_zero (ps_states p !! l).

(** ** What a work item is processed against

    A live [sink.Writer]: the outcome of its [n]-th [Enqueue] and its two
    optional policies. *)
Record Writer := mkWriter {
  w_accepts : nat -> Record_ -> bool;
  w_checkpointEvery : option Z;
  w_coalesceWindow : option Z;
}.

Record env := mkEnv {
  (** [ListerRegistry.Get]: the object, if found, and [scopeActive]. *)
  e_lister : Key -> result string (option object * bool);
  (** [SinkRouter.WriterFor]. *)
  e_router : ID -> option Writer;
  (** [RedactionRegistry]: absent, or [None] for ok=false. *)
  e_redactions : option (Key -> option (option RedactionPolicy));
  (** the [n]-th reading of the clock *)
  e_now : nat -> Z;
  e_clusterID : string;
}.

Inductive processError :=
| errLister (reason : string)
| errSinkUnavailable
| errRedactionUnavailable
| errNormalize (e : normalizeError)
| errEnqueue.

(** ** Primitive actions *)

Abbreviation M := (state pstate).

(** Run an atomic method of the sink state at [l]. *)
Definition with_st {A} (l : loc) (f : sinkState -> A * sinkState) : M A :=
  fun p => let '(a, s) := f (st_at l p) in (a, set_states (<[l := s]> (ps_states p)) p).

Definition with_cache {A} (l : loc) (f : hashCache -> A * hashCache) : M A :=
  with_st l (fun s => let '(a, c) := f (ss_cache s) in (a, set_cache c s)).

Definition modify_cache (l : loc) (f : hashCache -> hashCache) : M unit :=
  with_cache l (fun c => (tt, f c)).

Definition read_now (e : env) : M Z :=
  fun p => (e_now e (ps_clock p),
            mkPState (ps_states p) (ps_registry p) (ps_jobs p) (ps_queue p)
              (S (ps_clock p)) (ps_attempts p)).

Definition queue (q : queue_call) : M unit :=
  fun p => (tt, mkPState (ps_states p) (ps_registry p) (ps_jobs p) (ps_queue p ++ [q])
                  (ps_clock p) (ps_attempts p)).

(** [writer.Enqueue]: accepted jobs join the in-flight list. *)
Definition enqueue (w : Writer) (j : Job) : M bool :=
  fun p =>
    let ok := w_accepts w (ps_attempts p) (j_Record j) in
    (ok, mkPState (ps_states p) (ps_registry p)
           (if ok then ps_jobs p ++ [j] else ps_jobs p) (ps_queue p)
           (ps_clock p) (S (ps_attempts p))).

(** [sinkStateRegistry.get]: allocate on first use. *)
Definition sinks_get (id : ID) : M loc :=
  fun p =>
    match ps_registry p !! id with
    | Some l => (l, p)
    | None =>
        let l := length (ps_states p) in
        (l, mkPState (ps_states p ++ [sinkState_zero]) (<[id := l]> (ps_registry p))
              (ps_jobs p) (ps_queue p) (ps_clock p) (ps_attempts p))
    end.

(** ** Lifecycle hooks *)

Definition RemoveSink (id : ID) : M unit :=
  state_modify (fun p => mkPState (ps_states p) (delete id (ps_registry p)) (ps_jobs p)
                           (ps_queue p) (ps_clock p) (ps_attempts p)).

Definition evict_state (scope : ScopeKey) (s : sinkState) : sinkState :=
  let prefix := scopeKeyPrefix scope in
  mkSinkState (DeletePrefix prefix (ss_cache s)).2 (ss_closeOuts s)
    (coalescer_deletePrefix prefix (ss_coalesce s)).2 (ss_warm s ∖ {[scope]}).

Definition EvictScope (id : ID) (scope : ScopeKey) : M unit :=
  fun p =>
    match ps_registry p !! id with
    | None => (tt, p)
    | Some l => with_st l (fun s => (tt, evict_state scope s)) p
    end.

Definition MarkScopeWarm (id : ID) (scope : ScopeKey) : M unit :=
  l ← sinks_get id;
  with_st l (fun s => (tt, set_warm ({[scope]} ∪ ss_warm s) s)).

(** ** Rows *)

(** A Deleted row: event_type alone carries the deletion. *)
Definition deleted_record (e : env) (key : Key) (ts : Z) (uid apiVersion : string) : Record_ :=
  mkRecord ts (e_clusterID e) "Deleted" (k_Group key) apiVersion (k_Kind key) (k_Namespace key)
    (k_Name key) uid "" ∅ [] "" "" "".

(** ** Deletions *)

Definition emitDelete (e : env) (key : Key) (st : loc) (writer : Writer) (expectedUID : string)
    : M (deleteClaimOutcome * option processError) :=
  let objectKey := cacheKey key in
  claim ← with_cache st (ReserveDelete objectKey expectedUID);
  if negb (bool_decide (cl_outcome claim = deleteClaimed)) then mret (cl_outcome claim, None)
  else
    ts ← read_now e;
    let record := deleted_record e key ts (UID (cl_entry claim)) (APIVersion (cl_entry claim)) in
    ok ← enqueue writer (mkJob record (CommitDelete st key (cl_version claim)));
    if (ok : bool) then mret (deleteClaimed, None)
    else
      _ ← modify_cache st (UnclaimDelete objectKey (cl_version claim));
      mret (deleteClaimed, Some errEnqueue).

Definition forgetEphemeral (key : Key) (st : loc) : M unit :=
  let objectKey := cacheKey key in
  _ ← with_st st (fun s => (tt, set_coalesce (forget objectKey (ss_coalesce s)) s));
  claim ← with_cache st (ReserveDelete objectKey "");
  if negb (bool_decide (cl_outcome claim = deleteClaimed)) then mret tt
  else
    _ ← with_cache st (DeleteIfCurrent objectKey (cl_version claim));
    mret tt.

Definition remember_close_out (key : Key) (st : loc) (record : Record_) : M unit :=
  _ ← with_st st (fun s => (tt, set_closeOuts (closeOuts_Add (cacheKey key) record (ss_closeOuts s)) s));
  queue (QAddRateLimited key).

Definition enqueueCloseOut (key : Key) (st : loc) (writer : Writer) (record : Record_) : M unit :=
  ok ← enqueue writer (mkJob record (CommitCloseOut st key record));
  if (ok : bool) then mret tt else remember_close_out key st record.

Fixpoint enqueue_close_outs (key : Key) (st : loc) (writer : Writer) (records : list Record_) : M unit :=
  match records with
  | [] => mret tt
  | record :: rest =>
      _ ← enqueueCloseOut key st writer record;
      enqueue_close_outs key st writer rest
  end.

Definition retryPendingCloseOuts (key : Key) (st : loc) (writer : Writer) : M unit :=
  records ← with_st st (fun s =>
    let '(records, q) := closeOuts_TakeAll (cacheKey key) (ss_closeOuts s) in
    (records, set_closeOuts q s));
  enqueue_close_outs key st writer records.

(** ** Upserts *)

(** What the row being assembled looks like: the locals [eventType],
    [diffString], [carriesFullState], [modifiedRun] and [revertEntry]. *)
Record decision := mkDecision {
  d_eventType : string;
  d_diffString : string;
  d_carriesFullState : bool;
  d_modifiedRun : Z;
  d_revertEntry : option CacheEntry;
}.

(** The initial values of those locals. *)
Definition plain_added : decision := mkDecision "Added" "" true 0 None.

Section upsert.
Context `{Unstructured, Encoders, ZstdCodec, JsonDiff}.

(** The ladder of a changed object: full state for an Event, a missing or corrupt
    baseline or a refused diff; a Checkpoint when one is due; a plain diff
    otherwise. *)
Definition modified_decision (writer : Writer) (ephemeral : bool) (cachedEntry : CacheEntry)
    (norm : normalizedObject) : decision :=
  let full := mkDecision "Modified" "" true 0 (Some cachedEntry) in
  if ephemeral then full
  else
    match JSON cachedEntry with
    | None => full
    | Some _ =>
        match decodeBaseline cachedEntry with
        | Err _ => full
        | Ok baseline =>
            match ComputeDiff (default "" baseline) (no_JSON norm) with
            | Err _ => full
            | Ok patchBytes =>
                let run := (ModifiedSinceCheckpoint cachedEntry + 1)%Z in
                match checkpointDue (checkpointEveryFor (w_checkpointEvery writer)) run
                        patchBytes (no_JSON norm) with
                | Some _ => mkDecision "Checkpoint" patchBytes true 0 (Some cachedEntry)
                | None => mkDecision "Modified" patchBytes false run (Some cachedEntry)
                end
            end
        end
    end.

(** The entry stored optimistically and confirmed by the commit. *)
Definition confirmed_entry (ephemeral : bool) (norm : normalizedObject) (modifiedRun : Z) : CacheEntry :=
  let '(data, enc) :=
    if ephemeral then (None, encodingRaw)
    else let '(d, enc, _) := compressBaseline (no_JSON norm) in (Some d, enc) in
  mkCacheEntry (no_Hash norm) data enc (no_UID norm) (no_APIVersion norm) modifiedRun 0 false.

Definition upsert_record (e : env) (key : Key) (norm : normalizedObject) (d : decision)
    (eventType : string) (ts : Z) : Record_ :=
  mkRecord ts (e_clusterID e) eventType (k_Group key) (no_APIVersion norm) (k_Kind key)
    (k_Namespace key) (k_Name key) (no_UID norm) (no_ResourceVersion norm) (no_Labels norm)
    (no_Actors norm) (if d_carriesFullState d then no_JSON norm else "") (d_diffString d)
    (no_Hash norm).

(** [revertVersion]. *)
Definition revert_version (st : loc) (objectKey : string) (version : Z)
    (revertEntry : option CacheEntry) : M unit :=
  modify_cache st (fun c =>
    match revertEntry with
    | Some entry => (CommitIfCurrent objectKey version entry c).2
    | None => (DeleteIfCurrent objectKey version c).2
    end).

(** The Event coalescing window and projection of this item: a failed projection
    turns coalescing off for the row. *)
Definition coalesce_params (writer : Writer) (ephemeral : bool) (norm : normalizedObject) : Z * string :=
  if ephemeral then
    let window := coalesceWindowFor (w_coalesceWindow writer) in
    if decide (window > 0)%Z then
      match eventCoalesceHash (no_normalized norm) with
      | Some hash => (window, hash)
      | None => (0%Z, "")
      end
    else (window, "")
  else (0%Z, "").

(** From the Snapshot tagging to the hand-off. *)
Definition write_upsert (e : env) (key : Key) (st : loc) (writer : Writer) (norm : normalizedObject)
    (coalesceWindow : Z) (coalesceHash : string) (d : decision) (cacheMiss : bool)
    : M (option processError) :=
  let objectKey := cacheKey key in
  let ephemeral := Key_ephemeral key in
  warm ← state_gets (fun p => scopeWarm key (st_at st p));
  let eventType :=
    if cacheMiss && negb ephemeral && negb warm then "Snapshot" else d_eventType d in
  let confirmed := confirmed_entry ephemeral norm (d_modifiedRun d) in
  version ← with_cache st (Reserve objectKey confirmed);
  stampedAt ← read_now e;
  let record := upsert_record e key norm d eventType stampedAt in
  ok ← enqueue writer (mkJob record
         (CommitUpsert st key version confirmed (d_revertEntry d) coalesceHash stampedAt coalesceWindow));
  if (ok : bool) then mret None
  else
    _ ← revert_version st objectKey version (d_revertEntry d);
    mret (Some errEnqueue).

(** Another incarnation holds the name: close the old one's history, unless it is
    an Event or somebody already owns its deletion. *)
Definition close_out_predecessor (e : env) (key : Key) (st : loc) (writer : Writer)
    (cachedEntry : CacheEntry) : M unit :=
  if Key_ephemeral key then mret tt
  else
    claim ← with_cache st (ReserveDelete (cacheKey key) (UID cachedEntry));
    if negb (bool_decide (cl_outcome claim = deleteClaimed)) then mret tt
    else
      ts ← read_now e;
      enqueueCloseOut key st writer
        (deleted_record e key ts (UID (cl_entry claim)) (APIVersion (cl_entry claim))).

Definition redactionFor (e : env) (key : Key) : option (option RedactionPolicy) :=
  match e_redactions e with
  | None => Some None
  | Some registry => registry key
  end.

Definition processUpsert (e : env) (key : Key) (st : loc) (writer : Writer) (obj : object)
    : M (option processError) :=
  match redactionFor e key with
  | None => mret (Some errRedactionUnavailable)
  | Some policy =>
      match normalizeObject obj policy with
      | Err err => mret (Some (errNormalize err))
      | Ok norm =>
          let objectKey := cacheKey key in
          let ephemeral := Key_ephemeral key in
          let '(coalesceWindow, coalesceHash) := coalesce_params writer ephemeral norm in
          let finish := write_upsert e key st writer norm coalesceWindow coalesceHash in
          cached ← state_gets (fun p => Load objectKey (ss_cache (st_at st p)));
          match (cached : option CacheEntry) with
          | None => finish plain_added true
          | Some cachedEntry =>
              if bool_decide (UID cachedEntry <> "") && bool_decide (UID cachedEntry <> no_UID norm)
              then
                _ ← close_out_predecessor e key st writer cachedEntry;
                finish plain_added false
              else if bool_decide (Hash cachedEntry = no_Hash norm) then mret None
              else
                t ← read_now e;
                verdict ← state_gets (fun p =>
                  coalesce_decide objectKey coalesceHash coalesceWindow t (ss_coalesce (st_at st p)));
                match (verdict : option Z) with
                | Some flushAfter =>
                    _ ← queue (QAddAfter key flushAfter);
                    mret None
                | None => finish (modified_decision writer ephemeral cachedEntry norm) false
                end
          end
      end
  end.

(** ** One work item *)

Definition Process (e : env) (key : Key) : M (option processError) :=
  match e_lister e key with
  | Err reason => mret (Some (errLister reason))
  | Ok (found, scopeActive) =>
      if negb scopeActive then mret None
      else
        match found with
        | None =>
            if Key_ephemeral key then
              st ← sinks_get (k_Sink key);
              _ ← forgetEphemeral key st;
              mret None
            else
              match e_router e (k_Sink key) with
              | None => mret (Some errSinkUnavailable)
              | Some writer =>
                  st ← sinks_get (k_Sink key);
                  _ ← retryPendingCloseOuts key st writer;
                  r ← emitDelete e key st writer "";
                  mret r.2
              end
        | Some obj =>
            match e_router e (k_Sink key) with
            | None => mret (Some errSinkUnavailable)
            | Some writer =>
                st ← sinks_get (k_Sink key);
                _ ← retryPendingCloseOuts key st writer;
                processUpsert e key st writer obj
            end
        end
  end.

(** A worker's round for one item: a failure is retried through the rate limiter,
    a settled item clears its backoff. *)
Definition processNext (e : env) (key : Key) : M bool :=
  err ← Process e key;
  match (err : option processError) with
  | Some _ => _ ← queue (QAddRateLimited key); mret true
  | None => _ ← queue (QForget key); mret true
  end.
End upsert.

(** ** Settlement: a sink worker runs a job's commit callback *)

Definition settle (c : commit) (ok : bool) : M unit :=
  match c with
  | CommitUpsert st key version confirmed revert coalesceHash stampedAt window =>
      if ok then
        _ ← modify_cache st (fun c => (CommitIfCurrent (cacheKey key) version confirmed c).2);
        with_st st (fun s => (tt, set_coalesce
          (remember (cacheKey key) coalesceHash stampedAt window (ss_coalesce s)) s))
      else
        _ ← revert_version st (cacheKey key) version revert;
        queue (QAddRateLimited key)
  | CommitDelete st key version =>
      if ok then modify_cache st (fun c => (DeleteIfCurrent (cacheKey key) version c).2)
      else
        _ ← modify_cache st (UnclaimDelete (cacheKey key) version);
        queue (QAddRateLimited key)
  | CommitCloseOut st key record =>
      if ok then mret tt else remember_close_out key st record
  end.
