(* ===== verification/Warm.v ===== *)
(** * Warm: seeding a scope from history and reconciling it with reality

    Models the warm-up, zombie collection, close-out recovery and boot
    reconciliation of [src/internal/pipeline/warm.go]. Each pass runs against a
    [world]: what the routers, the listers, the sink's history reader and the watch
    layer answer while it runs. [backoff.Retry] is the function [retry] over the
    worlds its attempts meet; running out of them is the cancellation of the
    context, the only way an unbounded retry gives up (a time-bounded one gives up
    the same way). The check of the context inside a loop is the world's
    [w_cancelled]. Logging and metrics are left out. *)

From S2P Require Import Prelude Identity HashCache GoJson Redact Normalize Coalesce SinkTypes Incarnations Diff Process.

(** ** What a pass runs against *)

Record StateReader := mkStateReader {
  LastKnownStates : ScopeFilter -> result string (list KnownState);
  ScopeWasActive : ScopeFilter -> Z -> result string bool;
  ActiveScopes : string -> result string (list ScopeFilter);
}.

Record world := mkWorld {
  w_env : env;
  w_readers : ID -> option StateReader;
  (** [ScopeStates]. *)
  w_synced : ID -> ScopeKey -> bool;
  w_desired : ID -> ScopeKey -> bool;
  (** [ctx.Err() != nil] before the [n]-th iteration of the pass's loop *)
  w_cancelled : nat -> bool;
}.

Inductive warmError :=
| errNoStateReader
| errSinkNotLive
| errScopeStopped
| errWarmSinkUnavailable
| errWarmCancelled
| errReader (reason : string)
| errWarmLister (reason : string)
| errWarmEnqueue.

(** [backoff.Permanent], or a context that has ended: no further attempt. *)
Definition permanent (e : warmError) : bool :=
  match e with errNoStateReader | errScopeStopped | errWarmCancelled => true | _ => false end.

Definition readerFor (w : world) (id : ID) : result warmError StateReader :=
  match w_readers w id with
  | Some reader => Ok reader
  | None =>
      match e_router (w_env w) id with
      | Some _ => Err errNoStateReader
      | None => Err errSinkNotLive
      end
  end.

(** [backoff.Retry]: [Err errWarmCancelled] when the context ends first. *)
Fixpoint retry {A} (attempt : world -> M (result warmError A)) (worlds : list world)
    : M (result warmError A) :=
  match worlds with
  | [] => mret (Err errWarmCancelled)
  | w :: rest =>
      r ← attempt w;
      match (r : result warmError A) with
      | Ok a => mret (Ok a)
      | Err e => if permanent e then mret (Err e) else retry attempt rest
      end
  end.

Section warm.
Context `{Unstructured}.

(** ** Seeding *)

(** The entry a warm stores: a hash and a UID, no baseline. *)
Definition seed_entry (s : KnownState) : CacheEntry :=
  mkCacheEntry (ks_SHA256 s) None encodingRaw (ks_UID s) "" 0 0 false.

Definition target_of (s : KnownState) : gcTarget :=
  mkGCTarget (ks_Namespace s) (ks_Name s) (ks_UID s).

Definition reincarnation_of (s : KnownState) : reincarnation :=
  mkReincarnation (ks_Namespace s) (ks_Name s) (ks_UID s) (ks_APIVersion s) (ks_TS s).

Fixpoint seed_groups (ref : scopeRef) (st : loc) (groups : list (list KnownState))
    (seeded : list gcTarget) (priors : list reincarnation) : M (list gcTarget * list reincarnation) :=
  match groups with
  | [] => mret (seeded, priors)
  | group :: rest =>
      match splitIncarnations group with
      | None => mret (seeded, priors)
      | Some (current, unclosed) =>
          let key := scopeRef_key ref (ks_Namespace current) (ks_Name current) in
          _ ← modify_cache st (StoreIfAbsent (cacheKey key) (seed_entry current));
          seed_groups ref st rest (seeded ++ [target_of current])
            (priors ++ map reincarnation_of unclosed)
      end
  end.

Definition seed_attempt (ref : scopeRef) (w : world)
    : M (result warmError (list gcTarget * list reincarnation)) :=
  match readerFor w (sr_sink ref) with
  | Err e => mret (Err e)
  | Ok reader =>
      match LastKnownStates reader (scopeRef_filter ref (e_clusterID (w_env w))) with
      | Err reason => mret (Err (errReader reason))
      | Ok states =>
          st ← sinks_get (sr_sink ref);
          out ← seed_groups ref st (groupByIdentity states) [] [];
          mret (Ok out)
      end
  end.

Definition seedScope (ref : scopeRef) (worlds : list world)
    : M (result warmError (list gcTarget * list reincarnation)) :=
  retry (seed_attempt ref) worlds.

(** ** The gates *)

(** [awaitScopeSync]: polls until synced, undesired or cancelled. *)
Fixpoint awaitScopeSync (ref : scopeRef) (worlds : list world) : bool :=
  match worlds with
  | [] => false
  | w :: rest =>
      if w_synced w (sr_sink ref) (sr_scope ref) then true
      else if negb (w_desired w (sr_sink ref) (sr_scope ref)) then false
      else awaitScopeSync ref rest
  end.

Definition active_attempt (ref : scopeRef) (epochStart : Z) (w : world) : M (result warmError bool) :=
  match readerFor w (sr_sink ref) with
  | Err e => mret (Err e)
  | Ok reader =>
      match ScopeWasActive reader (scopeRef_filter ref (e_clusterID (w_env w))) epochStart with
      | Err reason => mret (Err (errReader reason))
      | Ok active => mret (Ok active)
      end
  end.

Definition scopeWasActive (ref : scopeRef) (epochStart : Z) (worlds : list world)
    : M (result warmError bool) :=
  retry (active_attempt ref epochStart) worlds.

(** ** Close-outs *)

Fixpoint close_out_loop (w : world) (ref : scopeRef) (st : loc) (writer : Writer) (i : nat)
    (priors : list reincarnation) (recovered : nat) : M (result warmError nat) :=
  match priors with
  | [] => mret (Ok recovered)
  | prior :: rest =>
      if w_cancelled w i then mret (Err errWarmCancelled)
      else
        let key := scopeRef_key ref (rn_namespace prior) (rn_name prior) in
        _ ← enqueueCloseOut key st writer (closeOutRecord prior (e_clusterID (w_env w)) key);
        close_out_loop w ref st writer (S i) rest (S recovered)
  end.

Definition close_out_attempt (ref : scopeRef) (priors : list reincarnation) (w : world)
    : M (result warmError nat) :=
  match e_router (w_env w) (sr_sink ref) with
  | None => mret (Err errWarmSinkUnavailable)
  | Some writer =>
      st ← sinks_get (sr_sink ref);
      close_out_loop w ref st writer 0 priors 0
  end.

Definition emitCloseOuts (ref : scopeRef) (priors : list reincarnation) (worlds : list world) : M nat :=
  match priors with
  | [] => mret 0
  | _ =>
      r ← retry (close_out_attempt ref priors) worlds;
      mret (match (r : result warmError nat) with Ok n => n | Err _ => 0 end)
  end.

(** ** The zombie sweep *)

Record gcResult := mkGCResult { zombies : nat; reincarnated : list gcTarget }.

(** The object is live under the UID history recorded. *)
Definition still_alive (found : option object) (target : gcTarget) : bool :=
  match found with Some obj => bool_decide (GetUID obj = gt_uid target) | None => false end.

(** [outcome == deleteClaimUIDMismatch && found && obj.GetUID() != target.uid]. *)
Definition proved_dead (outcome : deleteClaimOutcome) (found : option object) (target : gcTarget) : bool :=
  bool_decide (outcome = deleteClaimUIDMismatch) &&
  match found with Some obj => bool_decide (GetUID obj <> gt_uid target) | None => false end.

Fixpoint gc_loop (w : world) (ref : scopeRef) (st : loc) (writer : Writer) (i : nat)
    (targets : list gcTarget) (acc : gcResult) : M (gcResult * option warmError) :=
  match targets with
  | [] => mret (acc, None)
  | target :: rest =>
      if w_cancelled w i then mret (acc, Some errWarmCancelled)
      else
        let key := scopeRef_key ref (gt_namespace target) (gt_name target) in
        match e_lister (w_env w) key with
        | Err reason => mret (acc, Some (errWarmLister reason))
        | Ok (found, scopeActive) =>
            if negb scopeActive then mret (acc, Some errScopeStopped)
            else if still_alive found target then gc_loop w ref st writer (S i) rest acc
            else
              out ← emitDelete (w_env w) key st writer (gt_uid target);
              match (out : deleteClaimOutcome * option processError) with
              | (_, Some _) => mret (acc, Some errWarmEnqueue)
              | (outcome, None) =>
                  if negb (bool_decide (outcome = deleteClaimed)) then
                    gc_loop w ref st writer (S i) rest
                      (if proved_dead outcome found target
                       then mkGCResult (zombies acc) (reincarnated acc ++ [target]) else acc)
                  else
                    gc_loop w ref st writer (S i) rest (mkGCResult (S (zombies acc)) (reincarnated acc))
              end
        end
  end.

Definition gcPass (ref : scopeRef) (seeded : list gcTarget) (w : world) : M (gcResult * option warmError) :=
  match e_router (w_env w) (sr_sink ref) with
  | None => mret (mkGCResult 0 [], Some errWarmSinkUnavailable)
  | Some writer =>
      st ← sinks_get (sr_sink ref);
      gc_loop w ref st writer 0 seeded (mkGCResult 0 [])
  end.

(** The whole pass is retried; the last attempt's result stands. *)
Fixpoint collectZombies (ref : scopeRef) (seeded : list gcTarget) (worlds : list world) (last : gcResult)
    : M gcResult :=
  match worlds with
  | [] => mret last
  | w :: rest =>
      out ← gcPass ref seeded w;
      match (out : gcResult * option warmError) with
      | (result, None) => mret result
      | (result, Some e) => if permanent e then mret result else collectZombies ref seeded rest result
      end
  end.

(** ** Refused reincarnations *)

(** One attempt's decision on the pending targets, given a fresh read of history:
    closed by somebody, still the newest, or an unclosed prior. *)
Fixpoint classify_pending (rows : gmap gcTarget KnownState) (current : gmap identity string)
    (targets : list gcTarget) (pending : gset gcTarget) (found : list reincarnation)
    : gset gcTarget * list reincarnation :=
  match targets with
  | [] => (pending, found)
  | target :: rest =>
      match rows !! target with
      | None => classify_pending rows current rest (pending ∖ {[target]}) found
      | Some row =>
          if bool_decide (default "" (current !! mkIdentity (gt_namespace target) (gt_name target))
                          = gt_uid target)
          then classify_pending rows current rest pending found
          else classify_pending rows current rest (pending ∖ {[target]}) (found ++ [reincarnation_of row])
      end
  end.

(** The bounded retry: each attempt's world, and the worlds the close-out emission
    of that attempt meets. *)
Fixpoint recover_loop (ref : scopeRef) (pending : gset gcTarget) (recovered : nat)
    (worlds : list (world * list world)) : M nat :=
  match worlds with
  | [] => mret recovered
  | (w, emit_worlds) :: rest =>
      match readerFor w (sr_sink ref) with
      | Err e => if permanent e then mret recovered else recover_loop ref pending recovered rest
      | Ok reader =>
          match LastKnownStates reader (scopeRef_filter ref (e_clusterID (w_env w))) with
          | Err _ => recover_loop ref pending recovered rest
          | Ok states =>
              let '(rows, current) := indexIncarnations states in
              let '(pending', found) := classify_pending rows current (elements pending) pending [] in
              n ← emitCloseOuts ref found emit_worlds;
              if decide (size pending' = 0) then mret (recovered + n)
              else recover_loop ref pending' (recovered + n) rest
          end
      end
  end.

Definition recoverRefusedReincarnations (ref : scopeRef) (refused : list gcTarget)
    (worlds : list (world * list world)) : M nat :=
  match refused with
  | [] => mret 0
  | _ => recover_loop ref (list_to_set refused) 0 worlds
  end.

(** ** One warm *)

(** The worlds each phase of a warm meets. *)
Record schedule := mkSchedule {
  sc_seed : list world;
  sc_sync : list world;
  sc_active : list world;
  sc_close : list world;
  sc_gc : list world;
  sc_recover : list (world * list world);
}.

(** The two passes behind the epoch gate. *)
Definition reconcile_history (ref : scopeRef) (sc : schedule) (seeded : list gcTarget)
    (priors : list reincarnation) : M unit :=
  _ ← emitCloseOuts ref priors (sc_close sc);
  match seeded with
  | [] => mret tt
  | _ =>
      pass ← collectZombies ref seeded (sc_gc sc) (mkGCResult 0 []);
      _ ← recoverRefusedReincarnations ref (reincarnated pass) (sc_recover sc);
      mret tt
  end.

Definition warm (ref : scopeRef) (epochStart : Z) (sc : schedule) : M unit :=
  out ← seedScope ref (sc_seed sc);
  match (out : result warmError (list gcTarget * list reincarnation)) with
  | Err _ => mret tt
  | Ok (seeded, priors) =>
      _ ← MarkScopeWarm (sr_sink ref) (sr_scope ref);
      if ScopeKey_ephemeral (sr_scope ref) then mret tt
      else if bool_decide (length seeded = 0) && bool_decide (length priors = 0) then mret tt
      else if negb (bool_decide (length seeded = 0)) && negb (awaitScopeSync ref (sc_sync sc)) then mret tt
      else
        active ← scopeWasActive ref epochStart (sc_active sc);
        match (active : result warmError bool) with
        | Ok true => reconcile_history ref sc seeded priors
        | _ => mret tt
        end
  end.
End warm.

(** ** Boot reconciliation *)

Record boot_world := mkBootWorld {
  bw_world : world;
  (** [ScopeEventRouter]: whether an event is accepted. *)
  bw_events : ID -> option (ScopeEvent -> bool);
  bw_now : nat -> Z;
}.

Inductive bootError := bootReader (e : warmError) | bootNoScopeLog | bootActiveScopes (reason : string) | bootEnqueue.

Definition stopped_event (filter : ScopeFilter) (ts : Z) : ScopeEvent :=
  mkScopeEvent ScopeActionStopped filter "" "" ts.

Definition scope_of_filter (f : ScopeFilter) : ScopeKey :=
  mkScopeKey (sf_APIGroup f) (sf_Kind f) (sf_Namespace f).

Fixpoint close_scopes (b : boot_world) (id : ID) (accepts : ScopeEvent -> bool) (filters : list ScopeFilter)
    (closed : list ScopeEvent) : result bootError unit * list ScopeEvent :=
  match filters with
  | [] => (Ok tt, closed)
  | filter :: rest =>
      if w_desired (bw_world b) id (scope_of_filter filter) then close_scopes b id accepts rest closed
      else
        let event := stopped_event filter (bw_now b (length closed)) in
        if accepts event then close_scopes b id accepts rest (closed ++ [event])
        else (Err bootEnqueue, closed)
  end.

(** The outcome, the scope events enqueued, and whether the sink was announced as
    writer-only. *)
Definition closeOrphanedScopes (b : boot_world) (id : ID)
    : result bootError unit * list ScopeEvent * bool :=
  match readerFor (bw_world b) id with
  | Err errNoStateReader => (Ok tt, [], true)
  | Err e => (Err (bootReader e), [], false)
  | Ok reader =>
      match bw_events b id with
      | None => (Err bootNoScopeLog, [], false)
      | Some accepts =>
          match ActiveScopes reader (e_clusterID (w_env (bw_world b))) with
          | Err reason => (Err (bootActiveScopes reason), [], false)
          | Ok scopes => (close_scopes b id accepts scopes [], false)
          end
      end
  end.
