(* ===== verification/Coordinator.v ===== *)
(** * Coordinator: which warms run

    Models the bookkeeping of [WarmCoordinator] in [src/internal/pipeline/warm.go]:
    requests, supersession, cancellation and the boot passes. A warm goroutine is
    the index of its launch; [co_cancelled] are the launches whose context was
    cancelled. What a warm does while it runs is [Warm.warm]. *)

From S2P Require Import Prelude Identity SinkTypes Incarnations Process Warm.

Record WarmTarget := mkWarmTarget { wt_sink : ID; wt_scope : ScopeKey; wt_EpochStart : Z }.

Record warmRun := mkWarmRun { wr_epoch : Z; wr_launch : nat }.

#[export] Instance warmRun_eq_dec : EqDecision warmRun.
Proof. solve_decision. Defined.

Record coordinator := mkCoordinator {
  (** [c.ctx != nil] *)
  co_started : bool;
  co_pending : list WarmTarget;
  co_runs : gmap scopeRef warmRun;
  co_bootDone : gset ID;
  co_writerOnly : gset ID;
  co_stopped : bool;
  (** the goroutines launched so far, and those cancelled *)
  co_launched : list (scopeRef * Z);
  co_cancelled : gset nat;
}.

Definition NewWarmCoordinator : coordinator := mkCoordinator false [] ∅ ∅ ∅ false [] ∅.

Definition set_pending (l : list WarmTarget) (c : coordinator) : coordinator :=
  mkCoordinator (co_started c) l (co_runs c) (co_bootDone c) (co_writerOnly c) (co_stopped c)
    (co_launched c) (co_cancelled c).

(** [run.cancel(); delete(c.runs, ref)] for the runs selected by [P]. *)
Definition cancel_runs (P : scopeRef -> Prop) `{!forall r, Decision (P r)} (c : coordinator) : coordinator :=
  mkCoordinator (co_started c) (co_pending c) (filter (fun kv => ~ P kv.1) (co_runs c)) (co_bootDone c)
    (co_writerOnly c) (co_stopped c) (co_launched c)
    (list_to_set (map (fun kv => wr_launch kv.2) (map_to_list (filter (fun kv => P kv.1) (co_runs c))))
     ∪ co_cancelled c).

Definition target_ref (t : WarmTarget) : scopeRef := mkScopeRef (wt_sink t) (wt_scope t).

Definition launch (t : WarmTarget) (c : coordinator) : coordinator :=
  mkCoordinator (co_started c) (co_pending c)
    (<[target_ref t := mkWarmRun (wt_EpochStart t) (length (co_launched c))]> (co_runs c))
    (co_bootDone c) (co_writerOnly c) (co_stopped c)
    (co_launched c ++ [(target_ref t, wt_EpochStart t)]) (co_cancelled c).

Definition cancel_launch (i : nat) (c : coordinator) : coordinator :=
  mkCoordinator (co_started c) (co_pending c) (co_runs c) (co_bootDone c) (co_writerOnly c)
    (co_stopped c) (co_launched c) ({[i]} ∪ co_cancelled c).

Definition startLocked (t : WarmTarget) (c : coordinator) : coordinator :=
  match co_runs c !! target_ref t with
  | Some run =>
      if negb (bool_decide (wr_epoch run < wt_EpochStart t)%Z) then c
      else launch t (cancel_launch (wr_launch run) c)
  | None => launch t c
  end.

Definition WarmScope (t : WarmTarget) (c : coordinator) : coordinator :=
  if co_stopped c then c
  else if negb (co_started c) then set_pending (co_pending c ++ [t]) c
  else startLocked t c.

Definition StopScope (id : ID) (scope : ScopeKey) (c : coordinator) : coordinator :=
  let ref := mkScopeRef id scope in
  let c1 := cancel_runs (fun r => r = ref) c in
  set_pending (filter (fun t => target_ref t <> ref) (co_pending c1)) c1.

Definition ForgetSink (id : ID) (c : coordinator) : coordinator :=
  let c1 := cancel_runs (fun r => sr_sink r = id) c in
  mkCoordinator (co_started c1) (filter (fun t => wt_sink t <> id) (co_pending c1)) (co_runs c1)
    (co_bootDone c1 ∖ {[id]}) (co_writerOnly c1 ∖ {[id]}) (co_stopped c1) (co_launched c1) (co_cancelled c1).

(** The opening of [Start]: install the context, launch what is pending. *)
Definition Start_begin (c : coordinator) : coordinator :=
  foldl (fun c t => startLocked t c)
    (mkCoordinator true [] (co_runs c) (co_bootDone c) (co_writerOnly c) (co_stopped c)
       (co_launched c) (co_cancelled c)) (co_pending c).

(** The shutdown of [Start]. *)
Definition Start_end (c : coordinator) : coordinator :=
  let c1 := cancel_runs (fun _ => True) c in
  mkCoordinator (co_started c1) (co_pending c1) (co_runs c1) (co_bootDone c1) (co_writerOnly c1) true
    (co_launched c1) (co_cancelled c1).

Definition announceWriterOnly (id : ID) (c : coordinator) : coordinator :=
  mkCoordinator (co_started c) (co_pending c) (co_runs c) (co_bootDone c) ({[id]} ∪ co_writerOnly c)
    (co_stopped c) (co_launched c) (co_cancelled c).

Definition bootReconciled (id : ID) (c : coordinator) : bool := bool_decide (id ∈ co_bootDone c).

Definition markBootReconciled (id : ID) (c : coordinator) : coordinator :=
  mkCoordinator (co_started c) (co_pending c) (co_runs c) ({[id]} ∪ co_bootDone c) (co_writerOnly c)
    (co_stopped c) (co_launched c) (co_cancelled c).

(** One tick of the boot loop over the live sinks; [cancelled] is [ctx.Err() != nil]
    after a failure. Returns the scope events enqueued. *)
Fixpoint reconcileScopeEpochs (b : boot_world) (cancelled : bool) (ids : list ID) (c : coordinator)
    : list (ID * ScopeEvent) * coordinator :=
  match ids with
  | [] => ([], c)
  | id :: rest =>
      if bootReconciled id c then reconcileScopeEpochs b cancelled rest c
      else
        let '(outcome, events, writerOnly) := closeOrphanedScopes b id in
        let c1 := if (writerOnly : bool) then announceWriterOnly id c else c in
        match outcome with
        | Err _ =>
            if cancelled then (map (pair id) events, c1)
            else
              let '(more, c2) := reconcileScopeEpochs b cancelled rest c1 in
              (map (pair id) events ++ more, c2)
        | Ok _ =>
            let '(more, c2) := reconcileScopeEpochs b cancelled rest (markBootReconciled id c1) in
            (map (pair id) events ++ more, c2)
        end
  end.

(** ** Invariant *)

Definition registered (c : coordinator) (i : nat) : Prop :=
  exists ref run, co_runs c !! ref = Some run /\ wr_launch run = i.

(** Registered runs are launches of their scope, and a launch is cancelled exactly
    when it is no longer registered. *)
Record bookkept (c : coordinator) : Prop := {
  bk_runs : forall ref run, co_runs c !! ref = Some run ->
    co_launched c !! wr_launch run = Some (ref, wr_epoch run);
  bk_cancelled : forall i, i ∈ co_cancelled c <-> i < length (co_launched c) /\ ~ registered c i;
}.

Lemma runs_inj c ref1 ref2 run1 run2 :
  bookkept c -> co_runs c !! ref1 = Some run1 -> co_runs c !! ref2 = Some run2 ->
  wr_launch run1 = wr_launch run2 -> ref1 = ref2.
Proof.
  intros Hb H1%(bk_runs c Hb) H2%(bk_runs c Hb) E. rewrite E in H1. congruence.
Qed.

Lemma bookkept_same c c' :
  co_runs c' = co_runs c -> co_launched c' = co_launched c -> co_cancelled c' = co_cancelled c ->
  bookkept c -> bookkept c'.
Proof.
  intros E1 E2 E3 [H1 H2]. split; unfold registered; rewrite E1, E2, ?E3; [exact H1|exact H2].
Qed.

Lemma bookkept_cancel_runs (P : scopeRef -> Prop) `{!forall r, Decision (P r)} c :
  bookkept c -> bookkept (cancel_runs P c).
Proof.
  intros Hb. pose proof Hb as [H1 H2]. split; simpl.
  - intros ref run [Hr _]%map_lookup_filter_Some. auto.
  - intros i. rewrite elem_of_union, elem_of_list_to_set, list_elem_of_fmap, H2.
    assert (Hcut : (exists kv : scopeRef * warmRun, i = wr_launch kv.2 /\
        kv ∈ map_to_list (filter (fun kv => P kv.1) (co_runs c))) <->
      exists ref run, co_runs c !! ref = Some run /\ wr_launch run = i /\ P ref).
    { split.
      - intros ([ref run] & -> & [Hr HP]%elem_of_map_to_list%map_lookup_filter_Some). eauto.
      - intros (ref & run & Hr & <- & HP). exists (ref, run). split; [done|].
        apply elem_of_map_to_list, map_lookup_filter_Some. done. }
    rewrite Hcut. unfold registered. simpl. split.
    + intros [(ref & run & Hr & <- & HP)|[Hlt Hn]].
      * split; [by eapply lookup_lt_Some, H1|].
        intros (ref' & run' & [Hr' HnP]%map_lookup_filter_Some & El).
        rewrite (runs_inj c ref' ref run' run Hb Hr' Hr El) in HnP. by apply HnP.
      * split; [done|]. intros (ref' & run' & [Hr' _]%map_lookup_filter_Some & El). apply Hn. by exists ref', run'.
    + intros [Hlt Hn]. destruct (lookup_lt_is_Some_2 _ _ Hlt) as [[ref epoch] Hlch].
      destruct (co_runs c !! ref) as [run|] eqn:Er; [destruct (decide (wr_launch run = i)) as [Ei|Ei]|].
      * destruct (decide (P ref)); [left; eauto 6|]. exfalso. apply Hn. exists ref, run.
        split; [|done]. apply map_lookup_filter_Some. done.
      * right. split; [done|]. intros (ref' & run' & Hr' & <-). apply H1 in Hr' as Hl'. naive_solver.
      * right. split; [done|]. intros (ref' & run' & Hr' & <-). apply H1 in Hr' as Hl'. naive_solver.
Qed.

Lemma bookkept_startLocked t c : bookkept c -> bookkept (startLocked t c).
Proof.
  intros Hb. pose proof Hb as [H1 H2]. unfold startLocked.
  assert (Hruns : forall ref run, <[target_ref t := mkWarmRun (wt_EpochStart t) (length (co_launched c))]>
              (co_runs c) !! ref = Some run ->
            (co_launched c ++ [(target_ref t, wt_EpochStart t)]) !! wr_launch run = Some (ref, wr_epoch run)).
  { intros ref run [[<- <-]|[Hne Hr]]%lookup_insert_Some; simpl; [by apply list_lookup_middle|].
    apply H1 in Hr as Hl. rewrite lookup_app_l; [done|]. by eapply lookup_lt_Some. }
  destruct (co_runs c !! target_ref t) as [old|] eqn:Eo; [case_match; [done|]|];
    (split; [exact Hruns|]); intros i; unfold registered, launch; cbn [co_runs co_launched co_cancelled];
    setoid_rewrite lookup_insert_Some; cbn [co_cancelled cancel_launch co_runs co_launched];
    rewrite ?elem_of_union, ?elem_of_singleton, H2, length_app; unfold registered; simpl.
  - split.
    + intros [->|[Hlt Hn]].
      * pose proof (lookup_lt_Some _ _ _ (H1 _ _ Eo)). split; [lia|].
        intros (ref & run & [[<- <-]|[Hne Hr]] & El); simpl in *; [lia|].
        apply Hne. by eapply runs_inj.
      * split; [lia|]. intros (ref & run & [[<- <-]|[Hne Hr]] & El); simpl in *; [lia|]. apply Hn. eauto.
    + intros [Hlt Hn]. destruct (decide (i = wr_launch old)) as [->|Hio]; [by left|]. right.
      assert (i <> length (co_launched c)) by (intros ->; apply Hn; eauto 10).
      split; [lia|]. intros (ref & run & Hr & El). apply Hn. exists ref, run.
      split; [right|done]. split; [|done]. intros <-. congruence.
  - split.
    + intros [Hlt Hn]. split; [lia|].
      intros (ref & run & [[<- <-]|[Hne Hr]] & El); simpl in *; [lia|]. apply Hn. eauto.
    + intros [Hlt Hn]. assert (i <> length (co_launched c)) by (intros ->; apply Hn; eauto 10).
      split; [lia|]. intros (ref & run & Hr & El). apply Hn. exists ref, run.
      split; [right|done]. split; [|done]. intros <-. congruence.
Qed.

(** ** Runs of the coordinator *)

Inductive coordinator_op :=
| OpWarmScope (t : WarmTarget)
| OpStopScope (id : ID) (scope : ScopeKey)
| OpForgetSink (id : ID)
| OpStart
| OpShutdown
| OpBootTick (b : boot_world) (cancelled : bool) (ids : list ID).

Definition run_coordinator (op : coordinator_op) (c : coordinator) : coordinator :=
  match op with
  | OpWarmScope t => WarmScope t c
  | OpStopScope id scope => StopScope id scope c
  | OpForgetSink id => ForgetSink id c
  | OpStart => Start_begin c
  | OpShutdown => Start_end c
  | OpBootTick b cancelled ids => (reconcileScopeEpochs b cancelled ids c).2
  end.

Definition coordinator_after (ops : list coordinator_op) : coordinator :=
  foldl (fun c op => run_coordinator op c) NewWarmCoordinator ops.

Lemma boot_tick_frame b cancelled ids c :
  let c' := (reconcileScopeEpochs b cancelled ids c).2 in
  co_runs c' = co_runs c /\ co_launched c' = co_launched c /\ co_cancelled c' = co_cancelled c.
Proof.
  revert c. induction ids as [|id ids IH]; intros c; simpl; [done|].
  destruct (bootReconciled id c); [apply IH|].
  destruct (closeOrphanedScopes b id) as [[outcome events] writerOnly].
  set (c1 := if writerOnly then _ else _).
  assert (Hc1 : co_runs c1 = co_runs c /\ co_launched c1 = co_launched c /\ co_cancelled c1 = co_cancelled c)
    by (unfold c1; by destruct writerOnly).
  clearbody c1. destruct Hc1 as (E1 & E2 & E3). destruct outcome; simpl.
  - destruct (IH (markBootReconciled id c1)) as (F1 & F2 & F3).
    destruct (reconcileScopeEpochs b cancelled ids (markBootReconciled id c1)). simpl in *.
    rewrite F1, F2, F3. done.
  - destruct cancelled; [done|]. destruct (IH c1) as (F1 & F2 & F3).
    destruct (reconcileScopeEpochs b false ids c1). simpl in *. rewrite F1, F2, F3. done.
Qed.

Lemma bookkept_op op c : bookkept c -> bookkept (run_coordinator op c).
Proof.
  intros Hb. destruct op as [t|id scope|id| | |b cancelled ids]; simpl.
  - unfold WarmScope. case_match; [done|]. case_match; [by apply (bookkept_same c)|by apply bookkept_startLocked].
  - by apply (bookkept_same (cancel_runs (fun r => r = mkScopeRef id scope) c)); [..|apply bookkept_cancel_runs].
  - by apply (bookkept_same (cancel_runs (fun r => sr_sink r = id) c)); [..|apply bookkept_cancel_runs].
  - unfold Start_begin. set (c0 := mkCoordinator true _ _ _ _ _ _ _).
    assert (bookkept c0) as Hc0 by by apply (bookkept_same c). clearbody c0. revert c0 Hc0.
    induction (co_pending c) as [|t ts IH]; intros c0 Hc0; simpl; [done|].
    apply IH. by apply bookkept_startLocked.
  - by apply (bookkept_same (cancel_runs (fun _ => True) c)); [..|apply bookkept_cancel_runs].
  - destruct (boot_tick_frame b cancelled ids c) as (E1 & E2 & E3). by apply (bookkept_same c).
Qed.

Lemma bookkept_after ops : bookkept (coordinator_after ops).
Proof.
  unfold coordinator_after. induction ops as [|op ops IH] using rev_ind.
  - split; simpl; [done|]. intros i. split; [set_solver|]. intros [? _]. lia.
  - rewrite foldl_app. by apply bookkept_op.
Qed.

(** A warm that runs. *)
Definition running (c : coordinator) (i : nat) (ref : scopeRef) (epoch : Z) : Prop :=
  co_launched c !! i = Some (ref, epoch) /\ i ∉ co_cancelled c.

Lemma running_registered c i ref epoch :
  bookkept c -> running c i ref epoch <-> co_runs c !! ref = Some (mkWarmRun epoch i).
Proof.
  intros Hb. split.
  - intros [Hl Hn]. pose proof (lookup_lt_Some _ _ _ Hl) as Hlt.
    destruct (decide (co_runs c !! ref = Some (mkWarmRun epoch i))) as [|Hne]; [done|]. exfalso.
    apply Hn, (bk_cancelled c Hb). split; [done|]. intros (ref' & [ep j] & Hr & E). simpl in E. subst j.
    pose proof (bk_runs c Hb _ _ Hr) as Hl'. simpl in Hl'. rewrite Hl in Hl'.
    injection Hl' as -> ->. done.
  - intros Hr. pose proof (bk_runs c Hb _ _ Hr) as Hl. simpl in Hl. split; [done|].
    intros [_ Hn]%(bk_cancelled c Hb). apply Hn. by eexists _, _.
Qed.

(** ** Properties *)

(** At most one warm runs per scope, and none outlives its reason. Whatever
    the order of requests, stops, sink removals, boot passes, start and shutdown:
    two running warms of one scope are the same warm; stopping a scope, forgetting
    a sink or shutting down leaves none running for it; after shutdown requests are
    ignored; and repeating a request for an epoch that already runs changes
    nothing, while a newer epoch supersedes. *)
Theorem one_warm_per_scope ops :
  let c := coordinator_after ops in
  (forall ref i j e1 e2, running c i ref e1 -> running c j ref e2 -> i = j /\ e1 = e2) /\
  (forall id scope i e, ~ running (StopScope id scope c) i (mkScopeRef id scope) e) /\
  (forall ref i e, ~ running (ForgetSink (sr_sink ref) c) i ref e) /\
  (forall ref i e, ~ running (Start_end c) i ref e) /\
  (forall t, WarmScope t (Start_end c) = Start_end c) /\
  (co_started c = true -> co_stopped c = false -> forall t,
     WarmScope t (WarmScope t c) = WarmScope t c /\
     exists i e, running (WarmScope t c) i (target_ref t) e /\ (wt_EpochStart t <= e)%Z).
Proof.
  intros c. pose proof (bookkept_after ops) as Hb. fold c in Hb. split_and!.
  - intros ref i j e1 e2 H1%(running_registered c _ _ _ Hb) H2%(running_registered c _ _ _ Hb).
    rewrite H1 in H2. by injection H2 as -> ->.
  - intros id scope i e Hr. apply (running_registered _ _ _ _ (bookkept_op (OpStopScope id scope) c Hb)) in Hr.
    simpl in Hr. by apply map_lookup_filter_Some in Hr as [_ Hr].
  - intros ref i e Hr. apply (running_registered _ _ _ _ (bookkept_op (OpForgetSink (sr_sink ref)) c Hb)) in Hr.
    simpl in Hr. by apply map_lookup_filter_Some in Hr as [_ Hr].
  - intros ref i e Hr. apply (running_registered _ _ _ _ (bookkept_op OpShutdown c Hb)) in Hr.
    simpl in Hr. apply map_lookup_filter_Some in Hr as [_ Hr]. by apply Hr.
  - done.
  - intros Hst Hsp t. unfold WarmScope. rewrite Hsp, Hst. simpl.
    pose proof (bookkept_startLocked t c Hb) as Hb'.
    assert (Hrun : exists i e, co_runs (startLocked t c) !! target_ref t = Some (mkWarmRun e i) /\
              (wt_EpochStart t <= e)%Z /\ co_stopped (startLocked t c) = false /\ co_started (startLocked t c) = true).
    { unfold startLocked. destruct (co_runs c !! target_ref t) as [[ep j]|] eqn:Er.
      - case_bool_decide; simpl in *; [|exists j, ep; rewrite Er; split_and!; [done|lia|done|done]].
        rewrite lookup_insert_eq. eexists _, _. split_and!; [done|lia|done|done].
      - simpl. rewrite lookup_insert_eq. eexists _, _. split_and!; [done|lia|done|done]. }
    destruct Hrun as (i & e & Hr & Hle & Esp & Est). rewrite Esp, Est. simpl. split.
    + unfold startLocked at 1. rewrite Hr. simpl. by rewrite bool_decide_false by lia.
    + exists i, e. split; [|done]. by apply running_registered.
Qed.
