(* ===== verification/SinkManager.v ===== *)
(** * SinkManager: one running instance per sink

    Models [src/internal/sink/manager.go]: the routing table, [Ensure], [Delete], the
    manager's [Start] and shutdown, the drains and delete tails that run beside them, and
    the probe schedule. A pointer to an instance is its position in [mg_instances]; a
    goroutine the manager launched is an entry of [mg_tails] with the statement it has
    reached, and one step of it is what it does without giving up its turn. What the
    backend is - its configuration, its fingerprint, what the factory answers to the n-th
    call - is the class [Backends]; the calls the manager makes on other components are
    logged in [mg_effects]. *)

From S2P Require Import Prelude Identity.

(** ** Options *)

Definition second_ns : Z := 1000000000.
Definition defaultProbeInterval : Z := 60 * second_ns.
Definition defaultProbeMinBackoff : Z := second_ns.
Definition defaultProbeMaxBackoff : Z := 60 * second_ns.
Definition defaultProbeTimeout : Z := 10 * second_ns.
Definition defaultDrainTimeout : Z := 30 * second_ns.
Definition defaultResultBuffer : Z := 64.

Definition ProbeReasonUnreachable : string := "Unreachable".
Definition ProbeReasonSchemaInvalid : string := "SchemaInvalid".
Definition ProbeReasonCredentialsInvalid : string := "CredentialsInvalid".

Class Backends := {
  InstanceConfig : Type;
  Fingerprint : InstanceConfig -> string;
  Backend : Type;
  (** the n-th call of the factory *)
  factory : nat -> ID -> InstanceConfig -> result string Backend;
  (** the optional halves of the sink contract a writer implements *)
  implements_StateReader : Backend -> bool;
  implements_ScopeEventWriter : Backend -> bool;
  implements_Prober : Backend -> bool;
}.

(** A nil dependency is a [false] or a [None]. *)
Record ManagerOptions := mkManagerOptions {
  mo_Factory : bool;
  mo_Pipeline : bool;
  mo_Warm : bool;
  mo_Dependents : option (ID -> list string);
  mo_OnSinkGone : bool;
  mo_ProbeInterval : Z;
  mo_ProbeMinBackoff : Z;
  mo_ProbeMaxBackoff : Z;
  mo_ProbeTimeout : Z;
  mo_DrainTimeout : Z;
  mo_ResultBuffer : Z;
}.

Record managerConfig := mkManagerConfig {
  mc_warm : bool;
  mc_dependents : option (ID -> list string);
  mc_park : bool;
  mc_probeInterval : Z;
  mc_probeMinBackoff : Z;
  mc_probeMaxBackoff : Z;
  mc_probeTimeout : Z;
  mc_drainTimeout : Z;
  mc_resultBuffer : Z;
}.

Inductive managerError :=
| errNoFactory
| errNoPipeline
| errIncompleteID
| errNoConfig
| errManagerStopped
| errBuildSink (reason : string).

Definition or_default (value default : Z) : Z := if bool_decide (value <= 0)%Z then default else value.

(** [NewSinkManager], the fields that never change. *)
Definition NewSinkManager (opts : ManagerOptions) : result managerError managerConfig :=
  if negb (mo_Factory opts) then Err errNoFactory
  else if negb (mo_Pipeline opts) then Err errNoPipeline
  else Ok (mkManagerConfig (mo_Warm opts) (mo_Dependents opts) (mo_OnSinkGone opts)
             (or_default (mo_ProbeInterval opts) defaultProbeInterval)
             (or_default (mo_ProbeMinBackoff opts) defaultProbeMinBackoff)
             (or_default (mo_ProbeMaxBackoff opts) defaultProbeMaxBackoff)
             (or_default (mo_ProbeTimeout opts) defaultProbeTimeout)
             (or_default (mo_DrainTimeout opts) defaultDrainTimeout)
             (or_default (mo_ResultBuffer opts) defaultResultBuffer)).

(** ** State *)

Section manager.
Context `{Backends}.

Record liveSink := mkLiveSink {
  ls_id : ID;
  ls_fingerprint : string;
  ls_writer : Backend;
  ls_reader : bool;
  ls_events : bool;
  ls_prober : bool;
  (** its own [cancel] was called *)
  ls_cancelled : bool;
  (** [done] is closed: the writer's [Start] has returned, and with it its goroutine *)
  ls_done : bool;
  (** the goroutine of [probeLoop] runs *)
  ls_probing : bool;
}.

Definition newLiveSink (id : ID) (fingerprint : string) (writer : Backend) : liveSink :=
  mkLiveSink id fingerprint writer (implements_StateReader writer) (implements_ScopeEventWriter writer)
    (implements_Prober writer) false false false.

(** Where a goroutine stands. A drain is [AtCancel] then [AtWait]; the tail of a delete
    goes on through the check, [RemoveSink], [ForgetSink] and the parking. *)
Inductive position := AtCancel | AtWait | AtCheck | AtRemove | AtForget | AtPark | Ended.

Inductive goroutine :=
| Drain (inst : nat) (at_ : position)
| FinishDelete (id : ID) (inst : option nat) (at_ : position).

Inductive effect :=
| Started (inst : nat)
| RemovedSink (id : ID)
| ForgotSink (id : ID)
| ParkedRules (id : ID) (rules : list string).

Record SinkManager := mkSinkManager {
  mg_live : gmap ID nat;
  (** [ctx] is installed *)
  mg_running : bool;
  (** the context [Start] was given is done *)
  mg_cancelled : bool;
  mg_pending : gmap ID InstanceConfig;
  mg_stopped : bool;
  mg_instances : list liveSink;
  mg_tails : list goroutine;
  mg_built : nat;
  mg_effects : list effect;
}.

Definition newManager : SinkManager := mkSinkManager ∅ false false ∅ false [] [] 0 [].

Definition emit (e : effect) (m : SinkManager) : SinkManager :=
  mkSinkManager (mg_live m) (mg_running m) (mg_cancelled m) (mg_pending m) (mg_stopped m) (mg_instances m) (mg_tails m)
    (mg_built m) (mg_effects m ++ [e]).

Definition spawn (g : goroutine) (m : SinkManager) : SinkManager :=
  mkSinkManager (mg_live m) (mg_running m) (mg_cancelled m) (mg_pending m) (mg_stopped m) (mg_instances m) (mg_tails m ++ [g])
    (mg_built m) (mg_effects m).

(** ** Lifecycle, under the lock *)

Definition swapLocked (id : ID) (inst : option nat) (m : SinkManager) : SinkManager :=
  mkSinkManager (partial_alter (fun _ => inst) id (mg_live m)) (mg_running m) (mg_cancelled m) (mg_pending m) (mg_stopped m)
    (mg_instances m) (mg_tails m) (mg_built m) (mg_effects m).

(** The two goroutines [startLocked] launches: the writer's, and the probe loop's where the
    backend can be probed. *)
Definition launch (inst : liveSink) : liveSink :=
  mkLiveSink (ls_id inst) (ls_fingerprint inst) (ls_writer inst) (ls_reader inst) (ls_events inst) (ls_prober inst)
    (ls_cancelled inst) false (ls_prober inst).

(** [startLocked]: the instance exists from here on, and its goroutines run. *)
Definition startLocked (inst : liveSink) (m : SinkManager) : nat * SinkManager :=
  (length (mg_instances m),
   emit (Started (length (mg_instances m)))
     (mkSinkManager (mg_live m) (mg_running m) (mg_cancelled m) (mg_pending m) (mg_stopped m) (mg_instances m ++ [launch inst])
        (mg_tails m) (mg_built m) (mg_effects m))).

(** The instance's context is [context.WithCancel(m.ctx)]: it ends with its own [cancel] or
    with the context of the manager. *)
Definition context_ended (m : SinkManager) (inst : liveSink) : bool := ls_cancelled inst || mg_cancelled m.

Definition count_build (m : SinkManager) : SinkManager :=
  mkSinkManager (mg_live m) (mg_running m) (mg_cancelled m) (mg_pending m) (mg_stopped m) (mg_instances m) (mg_tails m)
    (S (mg_built m)) (mg_effects m).

Definition ensureLocked (id : ID) (cfg : InstanceConfig) (m : SinkManager) : option managerError * SinkManager :=
  let fingerprint := Fingerprint cfg in
  let current := mg_live m !! id in
  if match current with
     | Some i => match mg_instances m !! i with Some s => bool_decide (ls_fingerprint s = fingerprint) | None => false end
     | None => false
     end
  then (None, m)
  else match factory (mg_built m) id cfg with
       | Err reason => (Some (errBuildSink reason), count_build m)
       | Ok writer =>
           let '(i, m) := startLocked (newLiveSink id fingerprint writer) (count_build m) in
           let m := swapLocked id (Some i) m in
           (None, match current with None => m | Some old => spawn (Drain old AtCancel) m end)
       end.

Definition set_pending (pending : gmap ID InstanceConfig) (m : SinkManager) : SinkManager :=
  mkSinkManager (mg_live m) (mg_running m) (mg_cancelled m) pending (mg_stopped m) (mg_instances m) (mg_tails m) (mg_built m)
    (mg_effects m).

(** A nil configuration is [None]. *)
Definition Ensure (id : ID) (cfg : option InstanceConfig) (m : SinkManager) : option managerError * SinkManager :=
  if bool_decide (ID_Kind id = "") || bool_decide (ID_Name id = "") then (Some errIncompleteID, m)
  else match cfg with
       | None => (Some errNoConfig, m)
       | Some cfg =>
           if mg_stopped m then (Some errManagerStopped, m)
           else if negb (mg_running m) then (None, set_pending (<[id := cfg]> (mg_pending m)) m)
           else ensureLocked id cfg m
       end.

Definition Delete (id : ID) (m : SinkManager) : SinkManager :=
  if mg_stopped m then m
  else
    let m := set_pending (delete id (mg_pending m)) m in
    let current := mg_live m !! id in
    let m := match current with Some _ => swapLocked id None m | None => m end in
    spawn (FinishDelete id current (match current with Some _ => AtCancel | None => AtCheck end)) m.

Definition id_le (a b : ID * InstanceConfig) : Prop := ID_Compare a.1 b.1 <> Gt.
#[export] Instance id_le_dec : RelDecision id_le.
Proof. intros a b. unfold id_le. apply _. Defined.

(** [Start] up to the wait for its context. *)
Definition Start_begin (m : SinkManager) : SinkManager :=
  let pending := mg_pending m in
  let m := mkSinkManager (mg_live m) true (mg_cancelled m) ∅ (mg_stopped m) (mg_instances m) (mg_tails m) (mg_built m) (mg_effects m) in
  foldl (fun m p => (ensureLocked p.1 p.2 m).2) m (stable_sort id_le (map_to_list pending)).

Definition context_done (m : SinkManager) : SinkManager :=
  mkSinkManager (mg_live m) (mg_running m) true (mg_pending m) (mg_stopped m) (mg_instances m) (mg_tails m) (mg_built m) (mg_effects m).

(** The second locked part of [Start], and the drains it launches. *)
Definition Start_stop (m : SinkManager) : SinkManager :=
  let instances := map snd (map_to_list (mg_live m)) in
  mkSinkManager ∅ (mg_running m) (mg_cancelled m) (mg_pending m) true (mg_instances m)
    (mg_tails m ++ map (fun i => Drain i AtCancel) instances) (mg_built m) (mg_effects m).

(** ** The goroutines *)

Definition cancel (i : nat) (m : SinkManager) : SinkManager :=
  mkSinkManager (mg_live m) (mg_running m) (mg_cancelled m) (mg_pending m) (mg_stopped m)
    (alter (fun s => mkLiveSink (ls_id s) (ls_fingerprint s) (ls_writer s) (ls_reader s) (ls_events s) (ls_prober s) true (ls_done s) (ls_probing s))
       i (mg_instances m)) (mg_tails m) (mg_built m) (mg_effects m).

(** The writer's [Start] returns, cancelled or on its own. *)
Definition writer_returns (i : nat) (m : SinkManager) : SinkManager :=
  mkSinkManager (mg_live m) (mg_running m) (mg_cancelled m) (mg_pending m) (mg_stopped m)
    (alter (fun s => mkLiveSink (ls_id s) (ls_fingerprint s) (ls_writer s) (ls_reader s) (ls_events s) (ls_prober s) (ls_cancelled s) true (ls_probing s))
       i (mg_instances m)) (mg_tails m) (mg_built m) (mg_effects m).

(** [probeLoop] returns: whether in an attempt, in a send or in a wait, once the instance's
    context has ended, and not before. *)
Definition probe_ends (i : nat) (m : SinkManager) : SinkManager :=
  mkSinkManager (mg_live m) (mg_running m) (mg_cancelled m) (mg_pending m) (mg_stopped m)
    (alter (fun s => mkLiveSink (ls_id s) (ls_fingerprint s) (ls_writer s) (ls_reader s) (ls_events s) (ls_prober s) (ls_cancelled s) (ls_done s)
                       (ls_probing s && negb (context_ended m s)))
       i (mg_instances m)) (mg_tails m) (mg_built m) (mg_effects m).

Definition is_done (i : nat) (m : SinkManager) : bool :=
  match mg_instances m !! i with Some s => ls_done s | None => false end.

Definition parkDependents (cfg : managerConfig) (id : ID) (m : SinkManager) : SinkManager :=
  if negb (mc_park cfg) then m
  else emit (ParkedRules id (match mc_dependents cfg with Some rules => rules id | None => [] end)) m.

(** One step of a goroutine; [timeout] is whether its drain timer has fired. A wait
    that is not over leaves everything as it is. *)
Definition step_tail (cfg : managerConfig) (timeout : bool) (g : goroutine) (m : SinkManager) : goroutine * SinkManager :=
  match g with
  | Drain i AtCancel => (Drain i AtWait, cancel i m)
  | Drain i AtWait => if is_done i m || timeout then (Drain i Ended, m) else (g, m)
  | FinishDelete id (Some i) AtCancel => (FinishDelete id (Some i) AtWait, cancel i m)
  | FinishDelete id (Some i) AtWait => if is_done i m || timeout then (FinishDelete id (Some i) AtCheck, m) else (g, m)
  | FinishDelete id inst AtCheck =>
      (FinishDelete id inst (match mg_live m !! id with Some _ => Ended | None => AtRemove end), m)
  | FinishDelete id inst AtRemove => (FinishDelete id inst AtForget, emit (RemovedSink id) m)
  | FinishDelete id inst AtForget => (FinishDelete id inst AtPark, if mc_warm cfg then emit (ForgotSink id) m else m)
  | FinishDelete id inst AtPark => (FinishDelete id inst Ended, parkDependents cfg id m)
  | _ => (g, m)
  end.

Definition run_tail (cfg : managerConfig) (j : nat) (timeout : bool) (m : SinkManager) : SinkManager :=
  match mg_tails m !! j with
  | None => m
  | Some g =>
      let '(g', m') := step_tail cfg timeout g m in
      mkSinkManager (mg_live m') (mg_running m') (mg_cancelled m') (mg_pending m') (mg_stopped m') (mg_instances m')
        (<[j := g']> (mg_tails m')) (mg_built m') (mg_effects m')
  end.

(** What [m.wg] counts, and the drains of the shutdown: goroutines that have not ended. *)
Definition ended (g : goroutine) : bool := match g with Drain _ Ended | FinishDelete _ _ Ended => true | _ => false end.
Definition settled_instance (s : liveSink) : bool := ls_done s && negb (ls_probing s).

(** [Start] returns: behind its second locked part it waits for its drains and then for
    [m.wg], the instance writers and probe loops included. *)
Definition Start_returns (m : SinkManager) : bool :=
  mg_stopped m && forallb ended (mg_tails m) && forallb settled_instance (mg_instances m).

(** ** Routing *)

Definition instance_of (id : ID) (m : SinkManager) : option liveSink := i ← mg_live m !! id; mg_instances m !! i.

Definition WriterFor (id : ID) (m : SinkManager) : option Backend := ls_writer <$> instance_of id m.

Definition StateReaderFor (id : ID) (m : SinkManager) : option Backend :=
  match instance_of id m with Some s => if ls_reader s then Some (ls_writer s) else None | None => None end.

Definition ScopeEventWriterFor (id : ID) (m : SinkManager) : option Backend :=
  match instance_of id m with Some s => if ls_events s then Some (ls_writer s) else None | None => None end.

(** [HistoryReadable] of the live instance. *)
Definition capabilities (s : liveSink) : bool := ls_reader s.

Definition CapabilitiesFor (id : ID) (m : SinkManager) : option bool := capabilities <$> instance_of id m.

Definition sinkID_le (a b : ID) : Prop := ID_Compare a b <> Gt.
#[export] Instance sinkID_le_dec : RelDecision sinkID_le.
Proof. intros a b. unfold sinkID_le. apply _. Defined.

Definition SinkIDs (m : SinkManager) : list ID := stable_sort sinkID_le (map fst (map_to_list (mg_live m))).

(** ** Interleavings *)

Inductive managerOp :=
| OpEnsure (id : ID) (cfg : option InstanceConfig)
| OpDelete (id : ID)
| OpStart
| OpContextDone
| OpStop
| OpWriterReturns (i : nat)
| OpProbeEnds (i : nat)
| OpTail (j : nat) (timeout : bool).

(** [Start] is called once, and comes to its second part only after its context is
    done. *)
Definition step_manager (cfg : managerConfig) (op : managerOp) (m : SinkManager) : SinkManager :=
  match op with
  | OpEnsure id c => (Ensure id c m).2
  | OpDelete id => Delete id m
  | OpStart => if mg_running m then m else Start_begin m
  | OpContextDone => context_done m
  | OpStop => if mg_running m && mg_cancelled m && negb (mg_stopped m) then Start_stop m else m
  | OpWriterReturns i => writer_returns i m
  | OpProbeEnds i => probe_ends i m
  | OpTail j timeout => run_tail cfg j timeout m
  end.

Definition run_manager (cfg : managerConfig) (ops : list managerOp) (m : SinkManager) : SinkManager :=
  foldl (fun m op => step_manager cfg op m) m ops.

End manager.

(** ** Probing *)

(** The backoff library's exponential schedule, without jitter or an end. *)
Class BackOff := {
  backoff : Type;
  (** a schedule with an initial and a maximal interval, reset *)
  NewExponentialBackOff : Z -> Z -> backoff;
  bo_Reset : backoff -> backoff;
  NextBackOff : backoff -> Z * backoff;
}.

(** Its documentation: the interval starts at the initial one, grows with every call up to
    the maximal one, and a reset starts over. *)
Class BackOffLaws `{BackOff} := {
  bo_interval : backoff -> Z;
  bo_initial : backoff -> Z;
  bo_maximal : backoff -> Z;
  bo_new : forall a b, bo_interval (NewExponentialBackOff a b) = a /\ bo_initial (NewExponentialBackOff a b) = a /\
    bo_maximal (NewExponentialBackOff a b) = b;
  bo_reset : forall s, bo_interval (bo_Reset s) = bo_initial s /\ bo_initial (bo_Reset s) = bo_initial s /\
    bo_maximal (bo_Reset s) = bo_maximal s;
  bo_next : forall s, (NextBackOff s).1 = bo_interval s /\ bo_initial (NextBackOff s).2 = bo_initial s /\
    bo_maximal (NextBackOff s).2 = bo_maximal s /\
    ((bo_interval s <= bo_maximal s)%Z -> (bo_interval s <= bo_interval (NextBackOff s).2 <= bo_maximal s)%Z);
}.

(** A probe's error, as far as [errors.Is] tells it apart. *)
Record probeError := mkProbeError {
  pe_text : string;
  pe_SchemaInvalid : bool;
  pe_CredentialsUnavailable : bool;
}.

Record ProbeResult := mkProbeResult {
  pr_Sink : ID;
  pr_Err : option probeError;
  pr_Reason : string;
}.

(** [probe], given what the backend answered. *)
Definition probe (id : ID) (answer : option probeError) : ProbeResult :=
  match answer with
  | None => mkProbeResult id None ""
  | Some err =>
      mkProbeResult id (Some err)
        (if pe_SchemaInvalid err then ProbeReasonSchemaInvalid
         else if pe_CredentialsUnavailable err then ProbeReasonCredentialsInvalid
         else ProbeReasonUnreachable)
  end.

Definition nextProbeDelay `{BackOff} (cfg : managerConfig) (eb : backoff) (failed : bool) : Z * backoff :=
  if negb failed then (mc_probeInterval cfg, bo_Reset eb)
  else
    let '(delay, eb) := NextBackOff eb in
    (if bool_decide (delay <= 0)%Z then mc_probeMaxBackoff cfg else delay, eb).

(** One round of [probeLoop]: what the backend answered, and where the context ended
    it, if it did: during the attempt, before the result was taken, or in the wait. *)
Inductive roundEnd := GoesOn | InAttempt | InPost | InWait.

Fixpoint probe_rounds `{BackOff} (cfg : managerConfig) (id : ID) (eb : backoff) (rounds : list (option probeError * roundEnd))
    : list (ProbeResult * Z) :=
  match rounds with
  | [] => []
  | (answer, stop) :: rest =>
      let result := probe id answer in
      match stop with
      | InAttempt | InPost => []
      | _ =>
          let '(delay, eb) := nextProbeDelay cfg eb (bool_decide (is_Some (pr_Err result))) in
          (result, delay) :: match stop with InWait => [] | _ => probe_rounds cfg id eb rest end
      end
  end.

(** The posted results, each with the wait chosen after it. *)
Definition probeLoop `{BackOff} (cfg : managerConfig) (id : ID) (rounds : list (option probeError * roundEnd)) : list (ProbeResult * Z) :=
  probe_rounds cfg id (NewExponentialBackOff (mc_probeMinBackoff cfg) (mc_probeMaxBackoff cfg)) rounds.

(** ** Every instance is routed or on its way out *)

Definition position_of (g : goroutine) : position := match g with Drain _ p | FinishDelete _ _ p => p end.
Definition drains (g : goroutine) : option nat := match g with Drain i _ => Some i | FinishDelete _ inst _ => inst end.

(** A position the goroutine can be at. *)
Definition proper (g : goroutine) : Prop :=
  match g with
  | Drain _ p => p = AtCancel \/ p = AtWait \/ p = Ended
  | FinishDelete _ None p => p <> AtCancel /\ p <> AtWait
  | FinishDelete _ (Some _) _ => True
  end.

Section sound.
Context `{Backends}.
Implicit Types (m : SinkManager) (s : liveSink).

Record sound m : Prop := {
  so_live : forall id i, mg_live m !! id = Some i ->
    exists s, mg_instances m !! i = Some s /\ ls_id s = id /\ ls_cancelled s = false;
  so_tails : forall j g i, mg_tails m !! j = Some g -> drains g = Some i ->
    exists s, mg_instances m !! i = Some s /\ mg_live m !! ls_id s <> Some i /\
      (position_of g <> AtCancel -> ls_cancelled s = true) /\
      match g with FinishDelete id _ _ => ls_id s = id | _ => True end;
  so_once : forall j j' g g' i, mg_tails m !! j = Some g -> mg_tails m !! j' = Some g' ->
    drains g = Some i -> drains g' = Some i -> j = j';
  so_out : forall i s, mg_instances m !! i = Some s ->
    mg_live m !! ls_id s = Some i \/ exists j g, mg_tails m !! j = Some g /\ drains g = Some i;
  so_proper : forall g, g ∈ mg_tails m -> proper g;
  so_stopped : mg_stopped m = true -> mg_live m = ∅ /\ mg_running m = true /\ mg_cancelled m = true;
  so_pending : mg_running m = true -> mg_pending m = ∅;
}.

Lemma new_sound : sound newManager.
Proof. split; cbn; try done; try set_solver. Qed.

(** Only these fields matter. *)
Lemma sound_eq m m' : mg_live m' = mg_live m -> mg_instances m' = mg_instances m -> mg_tails m' = mg_tails m ->
  mg_stopped m' = mg_stopped m -> mg_running m' = mg_running m -> (mg_cancelled m = true -> mg_cancelled m' = true) ->
  (mg_running m = true -> mg_pending m' = ∅) -> sound m -> sound m'.
Proof. intros El Ei Et Es Er Ec Ep [L T O U P S D]. split; rewrite ?El, ?Ei, ?Et, ?Es, ?Er; naive_solver. Qed.

(** A new goroutine that drains nothing, or an instance taken out of the table. *)
Lemma spawn_idle_sound g m : drains g = None -> proper g -> sound m -> sound (spawn g m).
Proof.
  intros Hd Hg [L T O U P S D]. split; cbn; try done.
  - intros j g' i [Hj|[_ [_ ->]%list_lookup_singleton_Some]]%lookup_app_Some; [by eauto|congruence].
  - intros j j' g1 g2 i Hj Hj'. apply lookup_app_Some in Hj as [Hj|[_ [_ <-]%list_lookup_singleton_Some]];
      apply lookup_app_Some in Hj' as [Hj'|[_ [_ <-]%list_lookup_singleton_Some]]; [by eauto|congruence..].
  - intros i s Hi. destruct (U i s Hi) as [?|(j & g' & Hj & Hd')]; [by left|]. right. exists j, g'. split; [by apply lookup_app_l_Some|done].
  - intros g' [?| ->%list_elem_of_singleton]%elem_of_app; [by apply P|done].
Qed.

(** Starting an instance in place of [old]. *)
Lemma replace_sound m id fingerprint writer :
  sound m -> mg_stopped m = false -> mg_running m = true ->
  let current := mg_live m !! id in
  let '(i, m1) := startLocked (newLiveSink id fingerprint writer) (count_build m) in
  let m2 := swapLocked id (Some i) m1 in
  sound (match current with None => m2 | Some old => spawn (Drain old AtCancel) m2 end).
Proof.
  intros [L T O U P S D] Hst Hru current. cbn zeta. cbn [startLocked count_build mg_instances].
  set (n := length (mg_instances m)). set (new := launch (newLiveSink id fingerprint writer)).
  assert (Hlive : forall id', mg_live (swapLocked id (Some n) m) !! id' = if decide (id' = id) then Some n else mg_live m !! id').
  { intros id'. cbn. case_decide; [subst; by rewrite lookup_partial_alter_eq|by rewrite lookup_partial_alter_ne]. }
  cbn in Hlive.
  assert (Hinst : forall i s, mg_instances m !! i = Some s -> (mg_instances m ++ [new]) !! i = Some s) by (intros; by apply lookup_app_l_Some).
  assert (Hlt : forall i s, mg_instances m !! i = Some s -> i <> n) by (intros i s Hi ->; apply lookup_lt_Some in Hi; lia).
  assert (Hnew : (mg_instances m ++ [new]) !! n = Some new) by (by apply list_lookup_middle).
  assert (Hcase : forall i s, (mg_instances m ++ [new]) !! i = Some s -> mg_instances m !! i = Some s \/ i = n /\ s = new).
  { intros i s [?|[Hle [Hz <-]%list_lookup_singleton_Some]]%lookup_app_Some; [by left|right; split; [subst n; lia|done]]. }
  (* the table and the instances *)
  assert (HL : forall id' i, partial_alter (fun _ => Some n) id (mg_live m) !! id' = Some i ->
    exists s, (mg_instances m ++ [new]) !! i = Some s /\ ls_id s = id' /\ ls_cancelled s = false).
  { intros id' i. rewrite Hlive. case_decide as Hid; [intros [= <-]; subst id'; by exists new|].
    intros (s & Hs & ?)%L. exists s. split; [by apply Hinst|done]. }
  assert (HT : forall j g i, mg_tails m !! j = Some g -> drains g = Some i ->
    exists s, (mg_instances m ++ [new]) !! i = Some s /\ partial_alter (fun _ => Some n) id (mg_live m) !! ls_id s <> Some i /\
      (position_of g <> AtCancel -> ls_cancelled s = true) /\ match g with FinishDelete id' _ _ => ls_id s = id' | _ => True end).
  { intros j g i Hj Hd. destruct (T j g i Hj Hd) as (s & Hs & Hn & Hrest). exists s. split; [by apply Hinst|]. split; [|done].
    rewrite Hlive. case_decide; [|done]. intros [= Hz]. by apply (Hlt i s Hs). }
  destruct current as [old|] eqn:Hcur; subst current.
  - destruct (L id old Hcur) as (so & Hso & Hid & Hcan).
    assert (Hfree : forall j g, mg_tails m !! j = Some g -> drains g <> Some old).
    { intros j g Hj Hd. destruct (T j g old Hj Hd) as (s & Hs & Hn & _). rewrite Hso in Hs. injection Hs as <-. by rewrite Hid in Hn. }
    split; cbn; try done.
    + intros j g i [Hj|[_ [_ <-]%list_lookup_singleton_Some]]%lookup_app_Some; [by eauto|]. cbn. intros [= <-].
      exists so. split; [by apply Hinst|]. split; [|done]. rewrite Hlive, Hid, decide_True by done. intros [= Hz]. by apply (Hlt old so Hso).
    + intros j j' g g' i Hj Hj'. apply lookup_app_Some in Hj as [Hj|[Hle [Hz <-]%list_lookup_singleton_Some]];
        apply lookup_app_Some in Hj' as [Hj'|[Hle' [Hz' <-]%list_lookup_singleton_Some]]; cbn; [by eauto|..].
      * intros Hd [= <-]. by destruct (Hfree j g Hj).
      * intros [= <-] Hd. by destruct (Hfree j' g' Hj').
      * lia.
    + intros i s [Hi|[-> ->]]%Hcase; [|left; by rewrite Hlive, decide_True].
      destruct (decide (i = old)) as [->|Hne].
      * right. exists (length (mg_tails m)), (Drain old AtCancel). split; [by apply list_lookup_middle|done].
      * destruct (U i s Hi) as [Hl|(j & g & Hj & Hd)]; [left|right; exists j, g; split; [by apply lookup_app_l_Some|done]].
        rewrite Hlive. case_decide as Hid'; [|done]. rewrite Hid', Hcur in Hl. congruence.
    + intros g [?| ->%list_elem_of_singleton]%elem_of_app; [by apply P|by left].
    + congruence.
  - split; cbn; try done.
    + intros i s [Hi|[-> ->]]%Hcase; [|left; by rewrite Hlive, decide_True].
      destruct (U i s Hi) as [Hl|?]; [left|by right]. rewrite Hlive. case_decide as Hid'; [|done]. rewrite Hid', Hcur in Hl. congruence.
    + congruence.
Qed.

Lemma ensureLocked_sound id cfg m : sound m -> mg_stopped m = false -> mg_running m = true -> sound (ensureLocked id cfg m).2.
Proof.
  intros Hs Hst Hru. unfold ensureLocked. destruct (match mg_live m !! id with Some _ => _ | None => _ end); [done|].
  destruct (factory _ id cfg) as [writer|reason]; cbn [snd].
  - pose proof (replace_sound m id (Fingerprint cfg) writer Hs Hst Hru) as Hr. cbn zeta in Hr.
    destruct (startLocked _ _) as [i m1]. exact Hr.
  - eapply sound_eq; [..|exact Hs]; try done. by destruct Hs.
Qed.

Lemma ensureLocked_flags id cfg m : mg_stopped (ensureLocked id cfg m).2 = mg_stopped m /\
  mg_running (ensureLocked id cfg m).2 = mg_running m /\ mg_cancelled (ensureLocked id cfg m).2 = mg_cancelled m /\
  mg_pending (ensureLocked id cfg m).2 = mg_pending m.
Proof.
  unfold ensureLocked. destruct (match mg_live m !! id with Some _ => _ | None => _ end); [done|].
  destruct (factory _ id cfg); [|done]. by destruct (mg_live m !! id).
Qed.

Lemma Ensure_sound id cfg m : sound m -> sound (Ensure id cfg m).2.
Proof.
  intros Hs. unfold Ensure. destruct (_ || _); [done|]. destruct cfg as [cfg|]; [|done].
  destruct (mg_stopped m) eqn:Hst; [done|]. destruct (mg_running m) eqn:Hru; cbn [negb]; [by apply ensureLocked_sound|].
  eapply sound_eq; [..|exact Hs]; try done. intros Hr. cbn in Hr. congruence.
Qed.

(** Taking an instance out of the table with a goroutine to see it off. *)
Lemma withdraw_sound id i m : sound m -> mg_live m !! id = Some i -> mg_stopped m = false ->
  sound (spawn (FinishDelete id (Some i) AtCancel) (swapLocked id None m)).
Proof.
  intros [L T O U P S D] Hi Hst. destruct (L id i Hi) as (s0 & Hs0 & Hid & Hcan).
  assert (Hlive : forall id', partial_alter (fun _ => None) id (mg_live m) !! id' = if decide (id' = id) then None else mg_live m !! id').
  { intros id'. case_decide; [subst; by rewrite lookup_partial_alter_eq|by rewrite lookup_partial_alter_ne]. }
  assert (Hfree : forall j g, mg_tails m !! j = Some g -> drains g <> Some i).
  { intros j g Hj Hd. destruct (T j g i Hj Hd) as (s & Hs & Hn & _). rewrite Hs0 in Hs. injection Hs as <-. by rewrite Hid in Hn. }
  split; cbn; try done.
  - intros id' i'. rewrite Hlive. case_decide; [done|]. apply L.
  - intros j g i' [Hj|[_ [_ <-]%list_lookup_singleton_Some]]%lookup_app_Some.
    + intros Hd. destruct (T j g i' Hj Hd) as (s & Hs & Hn & ?). exists s. split; [done|]. split; [|done]. rewrite Hlive. by case_decide.
    + cbn. intros [= <-]. exists s0. split; [done|]. split; [|done]. by rewrite Hlive, Hid, decide_True.
  - intros j j' g g' i' Hj Hj'. apply lookup_app_Some in Hj as [Hj|[Hle [Hz <-]%list_lookup_singleton_Some]];
      apply lookup_app_Some in Hj' as [Hj'|[Hle' [Hz' <-]%list_lookup_singleton_Some]]; cbn; [by eauto|..].
    + intros Hd [= <-]. by destruct (Hfree j g Hj).
    + intros [= <-] Hd. by destruct (Hfree j' g' Hj').
    + lia.
  - intros i' s Hs. destruct (decide (i' = i)) as [->|Hne].
    + right. exists (length (mg_tails m)), (FinishDelete id (Some i) AtCancel). split; [by apply list_lookup_middle|done].
    + destruct (U i' s Hs) as [Hl|(j & g & Hj & Hd)]; [left|right; exists j, g; split; [by apply lookup_app_l_Some|done]].
      rewrite Hlive. case_decide as Hid'; [|done]. rewrite Hid', Hi in Hl. congruence.
  - intros g [?| ->%list_elem_of_singleton]%elem_of_app; [by apply P|done].
  - congruence.
Qed.

Lemma Delete_sound id m : sound m -> sound (Delete id m).
Proof.
  intros Hs. unfold Delete. destruct (mg_stopped m) eqn:Hst; [done|]. cbn zeta.
  set (m1 := set_pending (delete id (mg_pending m)) m).
  assert (Hs1 : sound m1).
  { eapply sound_eq; [..|exact Hs]; try done. intros Hr. cbn. rewrite (so_pending _ Hs Hr). apply delete_empty. }
  destruct (mg_live m1 !! id) as [i|] eqn:Hi; [by apply withdraw_sound|]. apply spawn_idle_sound; [done|done|exact Hs1].
Qed.

Lemma live_distinct m : sound m -> NoDup (map snd (map_to_list (mg_live m))).
Proof.
  intros Hs. assert (Hinj : forall p q, p ∈ map_to_list (mg_live m) -> q ∈ map_to_list (mg_live m) -> p.2 = q.2 -> p = q).
  { intros [id i] [id' i'] Hp%elem_of_map_to_list Hq%elem_of_map_to_list. cbn. intros <-.
    destruct (so_live _ Hs id i Hp) as (s & Hi & <- & _). destruct (so_live _ Hs id' i Hq) as (s' & Hi' & <- & _). congruence. }
  pose proof (NoDup_map_to_list (mg_live m)) as Hn. generalize dependent (map_to_list (mg_live m)).
  intros l Hinj Hn. induction Hn as [|p l Hp Hn IH]; cbn; constructor.
  - intros (q & Hq & Hin)%list_elem_of_fmap. assert (p = q) as -> by (apply Hinj; [by left|by right|done]). done.
  - apply IH. intros. apply Hinj; [by right|by right|done].
Qed.

Lemma Start_stop_sound m : sound m -> mg_running m = true -> mg_cancelled m = true -> sound (Start_stop m).
Proof.
  intros Hs Hru Hca. pose proof (live_distinct m Hs) as Hnd. destruct Hs as [L T O U P S D].
  set (out := map snd (map_to_list (mg_live m))) in *.
  assert (Hout : forall i, i ∈ out <-> exists id, mg_live m !! id = Some i).
  { intros i. unfold out. rewrite list_elem_of_fmap. split.
    - intros ([id i'] & -> & Hin%elem_of_map_to_list). by exists id.
    - intros [id Hin]. exists (id, i). split; [done|by apply elem_of_map_to_list]. }
  assert (Hfree : forall j g i, mg_tails m !! j = Some g -> drains g = Some i -> i ∉ out).
  { intros j g i Hj Hd [id Hid]%Hout. destruct (T j g i Hj Hd) as (s & Hi & Hn & _).
    destruct (L id i Hid) as (s' & Hi' & <- & _). rewrite Hi in Hi'. by injection Hi' as <-. }
  assert (Hnew : forall k g, map (fun i => Drain i AtCancel) out !! k = Some g -> exists i, out !! k = Some i /\ g = Drain i AtCancel).
  { intros k g. rewrite list_lookup_fmap. intros (i & -> & Hi)%fmap_Some. by exists i. }
  unfold Start_stop. fold out. split; cbn; try done.
  - intros j g i [Hj|[_ (i' & Hi' & ->)%Hnew]]%lookup_app_Some; cbn.
    + intros Hd. destruct (T j g i Hj Hd) as (s & ? & ? & ?). exists s. by rewrite lookup_empty.
    + intros [= <-]. assert (Hin : i' ∈ out) by (by eapply list_elem_of_lookup_2).
      apply Hout in Hin as [id Hid]. destruct (L id i' Hid) as (s & ? & ?). exists s. by rewrite lookup_empty.
  - intros j j' g g' i Hj Hj'. apply lookup_app_Some in Hj as [Hj|[Hle (i1 & Hi1 & ->)%Hnew]];
      apply lookup_app_Some in Hj' as [Hj'|[Hle' (i2 & Hi2 & ->)%Hnew]]; cbn; [by eauto|..].
    + intros Hd [= ->]. apply list_elem_of_lookup_2 in Hi2. by apply (Hfree _ _ _ Hj Hd) in Hi2.
    + intros [= ->] Hd. apply list_elem_of_lookup_2 in Hi1. by apply (Hfree _ _ _ Hj' Hd) in Hi1.
    + intros [= ->] [= ->]. pose proof (proj1 (NoDup_alt _) Hnd _ _ _ Hi1 Hi2). lia.
  - intros i s Hi. right. destruct (U i s Hi) as [Hl|(j & g & Hj & Hd)].
    + assert (Hin : i ∈ out) by (apply Hout; by eexists). apply list_elem_of_lookup in Hin as [k Hk].
      exists (length (mg_tails m) + k), (Drain i AtCancel). split; [|done].
      rewrite lookup_app_r by lia. replace (_ + k - _) with k by lia. by rewrite list_lookup_fmap, Hk.
    + exists j, g. split; [by apply lookup_app_l_Some|done].
  - intros g [?|Hg]%elem_of_app; [by apply P|]. apply list_elem_of_fmap in Hg as (i & -> & _). by left.
Qed.

Definition set_instances (instances : list liveSink) m : SinkManager :=
  mkSinkManager (mg_live m) (mg_running m) (mg_cancelled m) (mg_pending m) (mg_stopped m) instances (mg_tails m) (mg_built m) (mg_effects m).
Definition set_tails (tails : list goroutine) m : SinkManager :=
  mkSinkManager (mg_live m) (mg_running m) (mg_cancelled m) (mg_pending m) (mg_stopped m) (mg_instances m) tails (mg_built m) (mg_effects m).

(** Marking an instance; one that is routed is not cancelled. *)
Lemma mark_sound f i m : (forall s, ls_id (f s) = ls_id s) -> (forall s, ls_cancelled s = true -> ls_cancelled (f s) = true) ->
  (forall s, mg_instances m !! i = Some s -> mg_live m !! ls_id s = Some i -> ls_cancelled (f s) = ls_cancelled s) ->
  sound m -> sound (set_instances (alter f i (mg_instances m)) m).
Proof.
  intros Hid Hcan Hlive [L T O U P S D].
  assert (Hf : forall k s, mg_instances m !! k = Some s -> exists s', alter f i (mg_instances m) !! k = Some s' /\
    ls_id s' = ls_id s /\ (ls_cancelled s = true -> ls_cancelled s' = true) /\
    (mg_live m !! ls_id s = Some k -> ls_cancelled s' = ls_cancelled s)).
  { intros k s Hk. rewrite list_lookup_alter. case_decide as Hki; [subst k; rewrite Hk; exists (f s); cbn; auto|exists s; auto]. }
  assert (Hb : forall k s', alter f i (mg_instances m) !! k = Some s' -> exists s, mg_instances m !! k = Some s /\ ls_id s' = ls_id s).
  { intros k s'. rewrite list_lookup_alter. case_decide as Hki; [subst k|by eauto].
    destruct (mg_instances m !! i) as [s|]; [|done]. intros [= <-]. by exists s. }
  split; cbn; try done.
  - intros id k Hk. destruct (L id k Hk) as (s & Hs & Hsi & Hc). destruct (Hf k s Hs) as (s' & ? & Hi' & _ & Hcc). exists s'.
    split; [done|]. split; [congruence|]. rewrite Hcc; [done|by rewrite Hsi].
  - intros j g k Hj Hd. destruct (T j g k Hj Hd) as (s & Hs & Hn & Hpos & Hg). destruct (Hf k s Hs) as (s' & ? & Hi' & Hc & _). exists s'.
    split; [done|]. rewrite Hi'. split; [done|]. split; [by intros ?%Hpos; apply Hc|done].
  - intros k s' (s & Hs & ->)%Hb. by apply U.
Qed.

(** A goroutine moves on. *)
Lemma advance_sound j g g' m : mg_tails m !! j = Some g -> drains g' = drains g -> proper g' ->
  match g' with FinishDelete id _ _ => exists p, g = FinishDelete id (drains g) p | _ => True end ->
  (forall i s, position_of g' <> AtCancel -> drains g = Some i -> mg_instances m !! i = Some s -> ls_cancelled s = true) ->
  sound m -> sound (set_tails (<[j := g']> (mg_tails m)) m).
Proof.
  intros Hj Hd Hg Hid Hc [L T O U P S D].
  assert (Hl : forall k h, <[j := g']> (mg_tails m) !! k = Some h -> k = j /\ h = g' \/ k <> j /\ mg_tails m !! k = Some h).
  { intros k h. destruct (decide (k = j)) as [->|Hk]; [rewrite list_lookup_insert_eq by (by eapply lookup_lt_Some)|
      rewrite list_lookup_insert_ne by done]; [intros [= <-]; by left|by right]. }
  assert (Hdr : forall k h, <[j := g']> (mg_tails m) !! k = Some h -> exists h0, mg_tails m !! k = Some h0 /\ drains h = drains h0).
  { intros k h [[-> ->]|[_ Hk]]%Hl; eauto. }
  split; cbn; try done.
  - intros k h i [[-> ->]|[_ Hk]]%Hl Hdi; [|by eauto]. rewrite Hd in Hdi. destruct (T j g i Hj Hdi) as (s & Hs & Hn & Hp & Hgi).
    exists s. split; [done|]. split; [done|]. split; [intros Hpos; by eapply Hc|].
    destruct g' as [|id inst p]; [done|]. destruct Hid as [p' Hgp]. by rewrite Hgp in Hgi.
  - intros k k' h h' i (h0 & Hk & ->)%Hdr (h1 & Hk' & ->)%Hdr. by eauto.
  - intros i s Hi. destruct (U i s Hi) as [?|(k & h & Hk & Hdi)]; [by left|]. right. destruct (decide (k = j)) as [->|Hne].
    + exists j, g'. rewrite list_lookup_insert_eq by (by eapply lookup_lt_Some). split; [done|]. rewrite Hd. congruence.
    + exists k, h. by rewrite list_lookup_insert_ne.
  - intros h (k & [[_ ->]|[_ Hk]]%Hl)%list_elem_of_lookup; [done|]. apply P. by eapply list_elem_of_lookup_2.
Qed.

Lemma cancel_sound j g i m : mg_tails m !! j = Some g -> drains g = Some i -> sound m -> sound (cancel i m).
Proof.
  intros Hj Hd Hs. apply (mark_sound (fun s => mkLiveSink (ls_id s) (ls_fingerprint s) (ls_writer s) (ls_reader s) (ls_events s)
    (ls_prober s) true (ls_done s) (ls_probing s))); [done|done| |done].
  intros s Hi Hl. destruct (so_tails _ Hs j g i Hj Hd) as (s' & Hi' & Hn & _). congruence.
Qed.

Lemma emit_sound e m : sound m -> sound (emit e m).
Proof. intros Hs. eapply sound_eq; [..|exact Hs]; try done. by destruct Hs. Qed.

Lemma writer_returns_sound i m : sound m -> sound (writer_returns i m).
Proof.
  by apply (mark_sound (fun s => mkLiveSink (ls_id s) (ls_fingerprint s) (ls_writer s) (ls_reader s) (ls_events s)
    (ls_prober s) (ls_cancelled s) true (ls_probing s))).
Qed.

Lemma probe_ends_sound i m : sound m -> sound (probe_ends i m).
Proof.
  by apply (mark_sound (fun s => mkLiveSink (ls_id s) (ls_fingerprint s) (ls_writer s) (ls_reader s) (ls_events s)
    (ls_prober s) (ls_cancelled s) (ls_done s) (ls_probing s && negb (context_ended m s)))).
Qed.

(** What one step of a goroutine may do. *)
Lemma step_tail_moves cfg timeout g m g' m' : step_tail cfg timeout g m = (g', m') -> proper g ->
  drains g' = drains g /\ proper g' /\
  match g' with FinishDelete id _ _ => exists p, g = FinishDelete id (drains g) p | _ => True end /\
  (position_of g <> AtCancel /\ (m' = m \/ exists e, m' = emit e m) \/
   exists i, drains g = Some i /\ m' = cancel i m).
Proof.
  unfold parkDependents.
  destruct g as [i []|id [i|] []]; cbn; unfold parkDependents; repeat case_match; intros Heq Hg; simplify_eq; cbn in *;
    try (by destruct Hg as [?|[?|?]]); try (by destruct Hg); split_and!; eauto 6.
Qed.

Lemma run_tail_sound cfg j timeout m : sound m -> sound (run_tail cfg j timeout m).
Proof.
  intros Hs. unfold run_tail. destruct (mg_tails m !! j) as [g|] eqn:Hj; [|done].
  assert (Hg : proper g) by (apply (so_proper _ Hs); by eapply list_elem_of_lookup_2).
  destruct (step_tail cfg timeout g m) as [g' m'] eqn:Hstep.
  destruct (step_tail_moves _ _ _ _ _ _ Hstep Hg) as (Hd & Hg' & Hid & Hm).
  assert (Hs' : sound m').
  { destruct Hm as [[_ [->|[e ->]]]|(i & Hi & ->)]; [done|by apply emit_sound|by eapply cancel_sound]. }
  assert (Ht : mg_tails m' !! j = Some g) by (by destruct Hm as [[_ [->|[e ->]]]|(i & Hi & ->)]).
  apply (advance_sound j g g' m'); [done..| |done]. intros i s _ Hi Hin.
  destruct Hm as [[Hp Hm]|(i' & Hi' & ->)].
  - destruct (so_tails _ Hs j g i Hj Hi) as (s' & Hs'' & _ & Hc & _).
    assert (mg_instances m !! i = Some s) by (by destruct Hm as [->|[e ->]]). rewrite Hs'' in *. simplify_eq. by apply Hc.
  - simplify_eq. cbn in Hin. rewrite list_lookup_alter_eq in Hin. apply fmap_Some in Hin as (s0 & _ & ->). done.
Qed.

Lemma Start_begin_sound m : sound m -> mg_stopped m = false -> sound (Start_begin m).
Proof.
  intros [L T O U P S D] Hst. unfold Start_begin. cbn zeta. set (m0 := mkSinkManager _ true _ _ _ _ _ _ _).
  assert (H0 : sound m0) by (split; cbn; try done; by rewrite Hst).
  assert (Hru : mg_running m0 = true) by done. assert (Hst0 : mg_stopped m0 = false) by done.
  generalize dependent m0. induction (stable_sort id_le (map_to_list (mg_pending m))) as [|p l IH]; intros m0 H0 Hru Hst0; [done|].
  cbn [foldl]. destruct (ensureLocked_flags p.1 p.2 m0) as (E1 & E2 & _). apply IH; [by apply ensureLocked_sound|congruence..].
Qed.

Lemma step_sound cfg op m : sound m -> sound (step_manager cfg op m).
Proof.
  intros Hs. destruct op as [id c|id| | | |i|i|j timeout]; cbn [step_manager].
  - by apply Ensure_sound.
  - by apply Delete_sound.
  - destruct (mg_running m) eqn:Hr; [done|]. apply Start_begin_sound; [done|]. destruct (mg_stopped m) eqn:Hst; [|done].
    destruct (so_stopped _ Hs Hst) as (_ & ? & _). congruence.
  - eapply sound_eq; [..|exact Hs]; try done. by destruct Hs.
  - destruct (mg_running m) eqn:Hr, (mg_cancelled m) eqn:Hc, (mg_stopped m); cbn [andb negb]; try done. by apply Start_stop_sound.
  - by apply writer_returns_sound.
  - by apply probe_ends_sound.
  - by apply run_tail_sound.
Qed.

Lemma run_sound cfg ops m : sound m -> sound (run_manager cfg ops m).
Proof. revert m. induction ops as [|op ops IH]; intros m Hm; [done|]. apply IH. by apply step_sound. Qed.

End sound.

(** ** Routing follows the declarations *)

Section routing.
Context `{Backends}.
Implicit Types (m : SinkManager) (r : gmap ID string).

Definition fingerprint_of m (id : ID) : option string := ls_fingerprint <$> instance_of id m.

(** The declarations: which configuration each sink was last accepted with. *)
Definition declare (id : ID) (cfg : InstanceConfig) (answer : option managerError) r : gmap ID string :=
  match answer with None => <[id := Fingerprint cfg]> r | Some _ => r end.

Definition declare_pending (s : SinkManager * gmap ID string) (p : ID * InstanceConfig) : SinkManager * gmap ID string :=
  let '(answer, m) := ensureLocked p.1 p.2 s.1 in (m, declare p.1 p.2 answer s.2).

Definition begin_running m : SinkManager :=
  mkSinkManager (mg_live m) true (mg_cancelled m) ∅ (mg_stopped m) (mg_instances m) (mg_tails m) (mg_built m) (mg_effects m).

Definition declare_op (op : managerOp) m r : gmap ID string :=
  match op with
  | OpEnsure id (Some cfg) => if mg_running m then declare id cfg (Ensure id (Some cfg) m).1 r else r
  | OpDelete id => if mg_stopped m then r else delete id r
  | OpStart => if mg_running m then r
               else (foldl declare_pending (begin_running m, r) (stable_sort id_le (map_to_list (mg_pending m)))).2
  | OpStop => if mg_running m && mg_cancelled m && negb (mg_stopped m) then ∅ else r
  | _ => r
  end.

Fixpoint declared (cfg : managerConfig) (ops : list managerOp) m r : gmap ID string :=
  match ops with [] => r | op :: rest => declared cfg rest (step_manager cfg op m) (declare_op op m r) end.

Definition routed m r : Prop := forall id, fingerprint_of m id = r !! id.

Lemma ensureLocked_routes id cfg m r : sound m -> routed m r ->
  routed (ensureLocked id cfg m).2 (declare id cfg (ensureLocked id cfg m).1 r).
Proof.
  intros Hs Hr. unfold ensureLocked. set (same := match mg_live m !! id with Some i => _ | None => false end).
  destruct same eqn:Es.
  - cbn. intros id'. destruct (decide (id' = id)) as [->|Hne]; [rewrite lookup_insert_eq|by rewrite lookup_insert_ne].
    subst same. unfold fingerprint_of, instance_of. destruct (mg_live m !! id) as [i|]; [cbn|done].
    destruct (mg_instances m !! i) as [s|]; [|done]. apply bool_decide_eq_true in Es. cbn. by rewrite Es.
  - destruct (factory _ id cfg) as [writer|reason]; [|exact Hr]. cbn [startLocked fst snd declare]. intros id'.
    assert (Hf : fingerprint_of (swapLocked id (Some (length (mg_instances (count_build m))))
        (emit (Started (length (mg_instances (count_build m)))) (mkSinkManager (mg_live (count_build m)) (mg_running (count_build m))
          (mg_cancelled (count_build m)) (mg_pending (count_build m)) (mg_stopped (count_build m))
          (mg_instances (count_build m) ++ [launch (newLiveSink id (Fingerprint cfg) writer)]) (mg_tails (count_build m)) (mg_built (count_build m))
          (mg_effects (count_build m))))) id' = <[id := Fingerprint cfg]> r !! id').
    { unfold fingerprint_of, instance_of. cbn. destruct (decide (id' = id)) as [->|Hne].
      - rewrite lookup_partial_alter_eq, lookup_insert_eq. cbn. by rewrite list_lookup_middle.
      - rewrite lookup_partial_alter_ne, lookup_insert_ne, <-(Hr id') by done. unfold fingerprint_of, instance_of.
        destruct (mg_live m !! id') as [i|] eqn:Hi; [cbn|done]. destruct (so_live _ Hs id' i Hi) as (s & Hs' & _).
        by rewrite Hs', (lookup_app_l_Some _ _ _ _ Hs'). }
    destruct (mg_live m !! id); exact Hf.
Qed.

Lemma routed_eq m m' r : mg_live m' = mg_live m ->
  (forall i, ls_fingerprint <$> mg_instances m' !! i = ls_fingerprint <$> mg_instances m !! i) -> routed m r -> routed m' r.
Proof.
  intros El Ei Hr id. rewrite <-(Hr id). unfold fingerprint_of, instance_of. rewrite El. destruct (mg_live m !! id) as [i|]; [cbn|done]. apply Ei.
Qed.

Lemma pending_routes l m r : sound m -> mg_running m = true -> mg_stopped m = false -> routed m r ->
  routed (foldl (fun m p => (ensureLocked p.1 p.2 m).2) m l) (foldl declare_pending (m, r) l).2.
Proof.
  revert m r. induction l as [|p l IH]; intros m r Hs Hru Hst Hr; [done|]. cbn [foldl].
  pose proof (ensureLocked_routes p.1 p.2 m r Hs Hr) as Hr'. pose proof (ensureLocked_sound p.1 p.2 m Hs Hst Hru) as Hs'.
  destruct (ensureLocked_flags p.1 p.2 m) as (E1 & E2 & _).
  assert (Hd : declare_pending (m, r) p = ((ensureLocked p.1 p.2 m).2, declare p.1 p.2 (ensureLocked p.1 p.2 m).1 r)).
  { unfold declare_pending. cbn [fst snd]. by destruct (ensureLocked p.1 p.2 m). }
  rewrite Hd. apply IH; [done|congruence..|done].
Qed.

Lemma instances_marked f i (l : list liveSink) k : (forall s, ls_fingerprint (f s) = ls_fingerprint s) ->
  ls_fingerprint <$> alter f i l !! k = ls_fingerprint <$> l !! k.
Proof.
  intros Hf. rewrite list_lookup_alter. case_decide as Hi; [subst k|done]. destruct (l !! i); cbn; by rewrite ?Hf.
Qed.

Lemma tail_routes cfg j timeout m r : sound m -> routed m r -> routed (run_tail cfg j timeout m) r.
Proof.
  intros Hs Hr. unfold run_tail. destruct (mg_tails m !! j) as [g|] eqn:Hj; [|done].
  destruct (step_tail cfg timeout g m) as [g' m'] eqn:Hstep.
  assert (Hg : proper g) by (apply (so_proper _ Hs); by eapply list_elem_of_lookup_2).
  destruct (step_tail_moves _ _ _ _ _ _ Hstep Hg) as (_ & _ & _ & [[_ [->|[e ->]]]|(i & _ & ->)]); [exact Hr|exact Hr|].
  eapply routed_eq; [..|exact Hr]; [done|]. intros k. cbn. by apply instances_marked.
Qed.

Lemma step_routes cfg op m r : sound m -> routed m r -> routed (step_manager cfg op m) (declare_op op m r).
Proof.
  intros Hs Hr. destruct op as [id c|id| | | |i|i|j timeout]; cbn [step_manager declare_op].
  - unfold Ensure. destruct c as [c|]; [|by destruct (_ || _)]. destruct (_ || _); [by destruct (mg_running m)|].
    destruct (mg_stopped m); [by destruct (mg_running m)|]. destruct (mg_running m); cbn [negb]; [by apply ensureLocked_routes|exact Hr].
  - unfold Delete. destruct (mg_stopped m); [done|]. cbn zeta. intros id'. unfold fingerprint_of, instance_of.
    destruct (decide (id' = id)) as [->|Hne].
    + rewrite lookup_delete_eq. cbn. destruct (mg_live m !! id) eqn:Hi; cbn; [by rewrite lookup_partial_alter_eq|by rewrite Hi].
    + rewrite lookup_delete_ne, <-(Hr id') by done. unfold fingerprint_of, instance_of.
      destruct (mg_live _ !! id) eqn:Hi; cbn; [by rewrite lookup_partial_alter_ne|done].
  - destruct (mg_running m) eqn:Hru; [done|]. unfold Start_begin. cbn zeta. fold (begin_running m).
    assert (Hst : mg_stopped m = false).
    { destruct (mg_stopped m) eqn:E; [|done]. destruct (so_stopped _ Hs E) as (_ & ? & _). congruence. }
    apply pending_routes; [|done|done|exact Hr]. destruct Hs as [L T O U P S D]. split; cbn; try done. by rewrite Hst.
  - exact Hr.
  - destruct (mg_running m && mg_cancelled m && negb (mg_stopped m)); [|exact Hr]. intros id. done.
  - eapply routed_eq; [..|exact Hr]; [done|]. intros k. cbn. by apply instances_marked.
  - eapply routed_eq; [..|exact Hr]; [done|]. intros k. cbn. by apply instances_marked.
  - by apply tail_routes.
Qed.

Lemma run_routes cfg ops m r : sound m -> routed m r -> routed (run_manager cfg ops m) (declared cfg ops m r).
Proof.
  revert m r. induction ops as [|op ops IH]; intros m r Hs Hr; [done|]. apply IH; [by apply step_sound|by apply step_routes].
Qed.
End routing.

(** ** Probe loops *)

Section probe_loops.
Context `{Backends}.
Implicit Types (m : SinkManager).

(** A loop that was launched runs until the instance's context has ended. *)
Definition probed m : Prop := forall i s, mg_instances m !! i = Some s -> ls_prober s = true -> ls_probing s = true \/ context_ended m s = true.

Lemma probed_alter f i m m' : (forall s, ls_prober (f s) = ls_prober s) -> mg_instances m' = alter f i (mg_instances m) ->
  (forall s, context_ended m s = true -> context_ended m' (f s) = true) ->
  (forall s, ls_probing s = true -> ls_probing (f s) = true \/ context_ended m' (f s) = true) ->
  (forall s, context_ended m s = true -> context_ended m' s = true) -> probed m -> probed m'.
Proof.
  intros Hp Ei Hc Hr Ho Hm k s. rewrite Ei, list_lookup_alter. case_decide as Hk.
  - subst k. destruct (mg_instances m !! i) as [t|] eqn:Et; [|done]. intros [= <-]. rewrite Hp. intros Hb.
    destruct (Hm i t Et Hb) as [?|?]; [by apply Hr|right; by apply Hc].
  - intros Hs Hb. destruct (Hm k s Hs Hb) as [?|?]; [by left|right; by apply Ho].
Qed.

Lemma probed_same m m' : mg_instances m' = mg_instances m -> (mg_cancelled m = true -> mg_cancelled m' = true) -> probed m -> probed m'.
Proof.
  intros Ei Hc Hm i s. rewrite Ei. intros Hs Hb. destruct (Hm i s Hs Hb) as [?|He]; [by left|right].
  unfold context_ended in *. apply orb_true_iff in He as [->|He]; [done|]. by rewrite (Hc He), orb_true_r.
Qed.

Lemma ensureLocked_probed id cfg m : probed m -> probed (ensureLocked id cfg m).2.
Proof.
  intros Hm. unfold ensureLocked. destruct (match mg_live m !! id with Some _ => _ | None => _ end); [done|].
  destruct (factory _ id cfg) as [writer|]; [|by eapply probed_same]. cbn [startLocked].
  assert (Hnew : forall m', mg_instances m' = mg_instances m ++ [launch (newLiveSink id (Fingerprint cfg) writer)] ->
    mg_cancelled m' = mg_cancelled m -> probed m').
  { intros m' Ei Ec i s. rewrite Ei. intros [Hs|[_ [_ <-]%list_lookup_singleton_Some]]%lookup_app_Some; [|intros Hb; by left].
    unfold context_ended. rewrite Ec. exact (Hm i s Hs). }
  by destruct (mg_live m !! id); apply Hnew.
Qed.

Lemma step_probed cfg op m : sound m -> probed m -> probed (step_manager cfg op m).
Proof.
  intros Hs Hm. destruct op as [id c|id| | | |i|i|j timeout]; cbn [step_manager].
  - unfold Ensure. destruct (_ || _); [done|]. destruct c as [c|]; [|done]. destruct (mg_stopped m); [done|].
    destruct (mg_running m); cbn [negb]; [by apply ensureLocked_probed|by eapply probed_same].
  - unfold Delete. destruct (mg_stopped m); [done|]. cbn zeta. eapply probed_same; [..|exact Hm]; by destruct (mg_live _ !! id).
  - destruct (mg_running m); [done|]. unfold Start_begin. cbn zeta.
    match goal with |- probed (foldl _ ?m0 ?l) => assert (Hp0 : probed m0) by (eapply probed_same; [done| |exact Hm]; done); revert Hp0; generalize m0; generalize l end.
    intros l. induction l as [|p l IH]; intros m0 Hp0; [done|]. by apply IH, ensureLocked_probed.
  - apply (probed_same m (context_done m)); done.
  - destruct (_ && _); [|done]. apply (probed_same m (Start_stop m)); done.
  - eapply (probed_alter _ i m); [|done|..|exact Hm]; try done; intros s; unfold context_ended; cbn; auto.
  - eapply (probed_alter _ i m); [|done|..|exact Hm]; try done; intros s; unfold context_ended; cbn; auto. intros ->.
    destruct (ls_cancelled s || mg_cancelled m) eqn:E; auto.
  - unfold run_tail. destruct (mg_tails m !! j) as [g|] eqn:Hj; [|done].
    assert (Hg : proper g) by (apply (so_proper _ Hs); by eapply list_elem_of_lookup_2).
    destruct (step_tail cfg timeout g m) as [g' m'] eqn:Hstep.
    destruct (step_tail_moves _ _ _ _ _ _ Hstep Hg) as (_ & _ & _ & [[_ [->|[e ->]]]|(i & _ & ->)]); [by eapply probed_same..|].
    eapply (probed_alter _ i m); [|done|..|exact Hm]; try done; intros s; unfold context_ended; cbn; auto.
Qed.

Lemma run_probing cfg ops i s : let m := run_manager cfg ops newManager in
  mg_instances m !! i = Some s -> ls_prober s = true -> ls_probing s = true \/ context_ended m s = true.
Proof.
  intros m. enough (Hall : sound m /\ probed m) by (by apply Hall). subst m.
  assert (H0 : sound newManager /\ probed newManager) by (split; [apply new_sound|done]). revert H0. generalize newManager.
  induction ops as [|op ops IH]; intros m0 [Hs Hm]; [done|]. apply IH. split; [by apply step_sound|by apply step_probed].
Qed.
End probe_loops.

(** ** Goroutines end *)

Definition steps_left (g : goroutine) : nat :=
  match position_of g with
  | AtCancel => 6 | AtWait => 5 | AtCheck => 4 | AtRemove => 3 | AtForget => 2 | AtPark => 1 | Ended => 0
  end.

Section ending.
Context `{Backends}.
Implicit Types (m : SinkManager).

(** A step takes a goroutine on, unless it waits for an instance still running. *)
Lemma step_tail_left cfg timeout g m : proper g ->
  steps_left (step_tail cfg timeout g m).1 <= steps_left g /\
  (position_of g <> Ended -> (timeout = true \/ forall i, drains g = Some i -> is_done i m = true) ->
   steps_left (step_tail cfg timeout g m).1 < steps_left g).
Proof.
  intros Hg.
  assert (Hwait : forall i, position_of g = AtWait -> drains g = Some i ->
    (timeout = true \/ forall i, drains g = Some i -> is_done i m = true) -> is_done i m || timeout = true).
  { intros i _ Hi [->|Hd]; [apply orb_true_r|by rewrite (Hd i Hi)]. }
  destruct g as [i p|id inst p].
  - destruct Hg as [->|[->| ->]]; cbn [step_tail]; [unfold steps_left; cbn; lia| |by split].
    destruct (is_done i m || timeout) eqn:E; unfold steps_left; cbn; [lia|]. split; [lia|]. intros _ Hd.
    specialize (Hwait i eq_refl eq_refl Hd). congruence.
  - destruct p; cbn [step_tail]; try (by destruct inst; destruct Hg); destruct inst as [i|]; try (by destruct Hg);
      try (unfold steps_left; cbn; lia); try (destruct (mg_live m !! id); unfold steps_left; cbn; lia); try done.
    destruct (is_done i m || timeout) eqn:E; unfold steps_left; cbn; [lia|]. split; [lia|]. intros _ Hd.
    specialize (Hwait i eq_refl eq_refl Hd). congruence.
Qed.

Lemma ended_spec g : ended g = true <-> steps_left g = 0.
Proof. unfold steps_left. destruct g as [i []|id inst []]; cbn; (split; [lia || done|lia || done]). Qed.

(** Nothing is added to a stopped manager, and nothing in it goes back. *)
Record winds m m' : Prop := {
  wi_stopped : mg_stopped m' = true;
  wi_cancelled : mg_cancelled m' = true;
  wi_tails : length (mg_tails m') = length (mg_tails m);
  wi_instances : length (mg_instances m') = length (mg_instances m);
  wi_tail : forall j g, mg_tails m !! j = Some g -> exists g', mg_tails m' !! j = Some g' /\ steps_left g' <= steps_left g;
  wi_done : forall i s, mg_instances m !! i = Some s -> exists s', mg_instances m' !! i = Some s' /\
    (ls_done s = true -> ls_done s' = true) /\ (ls_probing s = false -> ls_probing s' = false);
}.

Lemma winds_refl m : mg_stopped m = true -> mg_cancelled m = true -> winds m m.
Proof. intros Hs Hc. split; try done; eauto. Qed.

Lemma winds_trans m m' m'' : winds m m' -> winds m' m'' -> winds m m''.
Proof.
  intros [A1 A2 A3 A4 A5 A6] [B1 B2 B3 B4 B5 B6]. split; try congruence.
  - intros j g (g' & Hg' & Hle)%A5. destruct (B5 j g' Hg') as (g'' & ? & ?). exists g''. split; [done|lia].
  - intros i s (t & Ht & H1 & H2)%A6. destruct (B6 i t Ht) as (u & ? & ? & ?). exists u. auto.
Qed.

Lemma alter_winds f i m : mg_stopped m = true -> mg_cancelled m = true ->
  (forall s, (ls_done s = true -> ls_done (f s) = true) /\ (ls_probing s = false -> ls_probing (f s) = false)) ->
  winds m (set_instances (alter f i (mg_instances m)) m).
Proof.
  intros Hs Hc Hf. split; cbn; try done; [apply length_alter|by eauto|]. intros k s Hk. rewrite list_lookup_alter.
  case_decide as Hi; [subst k; rewrite Hk; exists (f s); split; [done|apply Hf]|by exists s].
Qed.

Lemma run_tail_winds cfg j timeout m : sound m -> mg_stopped m = true -> mg_cancelled m = true -> winds m (run_tail cfg j timeout m).
Proof.
  intros Hs Hst Hca. unfold run_tail. destruct (mg_tails m !! j) as [g|] eqn:Hj; [|by apply winds_refl].
  assert (Hg : proper g) by (apply (so_proper _ Hs); by eapply list_elem_of_lookup_2).
  destruct (step_tail_left cfg timeout g m Hg) as [Hle _]. destruct (step_tail cfg timeout g m) as [g' m'] eqn:Hstep. cbn [fst] in Hle.
  assert (Hm : winds m m' /\ mg_tails m' = mg_tails m).
  { destruct (step_tail_moves _ _ _ _ _ _ Hstep Hg) as (_ & _ & _ & [[_ [->|[e ->]]]|(i & _ & ->)]).
    - split; [by apply winds_refl|done].
    - split; [|done]. split; cbn; try done; eauto.
    - split; [|done]. by apply (alter_winds (fun s => mkLiveSink (ls_id s) (ls_fingerprint s) (ls_writer s) (ls_reader s) (ls_events s)
        (ls_prober s) true (ls_done s) (ls_probing s))). }
  destruct Hm as [[W1 W2 W3 W4 W5 W6] Ht]. split; cbn; try done.
  - by rewrite length_insert.
  - intros k h Hk. destruct (decide (k = j)) as [->|Hne].
    + rewrite Hj in Hk. injection Hk as <-. exists g'. rewrite list_lookup_insert_eq; [done|]. rewrite Ht. by eapply lookup_lt_Some.
    + rewrite list_lookup_insert_ne by done. by apply W5.
Qed.

Lemma step_winds cfg op m : sound m -> mg_stopped m = true -> winds m (step_manager cfg op m).
Proof.
  intros Hs Hst. destruct (so_stopped _ Hs Hst) as (_ & Hru & Hca). pose proof (winds_refl m Hst Hca) as Hr.
  destruct op as [id c|id| | | |i|i|j timeout]; cbn [step_manager].
  - unfold Ensure. destruct (_ || _); [done|]. destruct c; [|done]. by rewrite Hst.
  - unfold Delete. by rewrite Hst.
  - by rewrite Hru.
  - split; cbn; try done; eauto.
  - by rewrite Hst, andb_false_r.
  - by apply (alter_winds (fun s => mkLiveSink (ls_id s) (ls_fingerprint s) (ls_writer s) (ls_reader s) (ls_events s)
      (ls_prober s) (ls_cancelled s) true (ls_probing s))).
  - apply (alter_winds (fun s => mkLiveSink (ls_id s) (ls_fingerprint s) (ls_writer s) (ls_reader s) (ls_events s)
      (ls_prober s) (ls_cancelled s) (ls_done s) (ls_probing s && negb (context_ended m s)))); [done|done|]. intros t. split; [done|].
    by intros Ht; cbn; rewrite Ht.
  - by apply run_tail_winds.
Qed.

Lemma run_winds cfg ops m : sound m -> mg_stopped m = true -> winds m (run_manager cfg ops m).
Proof.
  revert m. induction ops as [|op ops IH]; intros m Hs Hst; [apply winds_refl; [done|by apply (so_stopped _ Hs Hst)]|].
  pose proof (step_winds cfg op m Hs Hst) as Hw. eapply winds_trans; [exact Hw|]. apply IH; [by apply step_sound|apply Hw].
Qed.

(** One turn for everybody: each writer returns, each probe loop sees its context, and each
    goroutine takes a step - in any order, among anything else, whatever the timers do. *)
Definition fair_round m (ops : list managerOp) : Prop :=
  (forall i, i < length (mg_instances m) -> OpWriterReturns i ∈ ops /\ OpProbeEnds i ∈ ops) /\
  (forall j, j < length (mg_tails m) -> exists timeout, OpTail j timeout ∈ ops).

Lemma run_reaches cfg op ops m : sound m -> mg_stopped m = true -> op ∈ ops ->
  exists m1, sound m1 /\ winds m m1 /\ winds (step_manager cfg op m1) (run_manager cfg ops m).
Proof.
  intros Hs Hst (before & after & ->)%list_elem_of_split. pose proof (run_winds cfg before m Hs Hst) as Hw.
  pose proof (run_sound cfg before m Hs) as Hs1. exists (run_manager cfg before m). split; [done|]. split; [done|].
  unfold run_manager at 2. rewrite foldl_app. cbn [foldl].
  assert (Hst1 : mg_stopped (run_manager cfg before m) = true) by apply Hw.
  apply run_winds; [by apply step_sound|apply (step_winds cfg op _ Hs1 Hst1)].
Qed.

(** After a round the instances are settled; a round more takes every goroutine on. *)
Lemma round_settles cfg ops m i s : sound m -> mg_stopped m = true -> fair_round m ops ->
  mg_instances (run_manager cfg ops m) !! i = Some s -> ls_done s = true /\ ls_probing s = false.
Proof.
  intros Hs Hst [Hf _] Hi. pose proof (run_winds cfg ops m Hs Hst) as Hw.
  assert (Hlt : i < length (mg_instances m)) by (rewrite <-(wi_instances _ _ Hw); by eapply lookup_lt_Some).
  destruct (Hf i Hlt) as [Hr Hp]. split.
  - destruct (run_reaches cfg _ ops m Hs Hst Hr) as (m1 & _ & W1 & W2). cbn [step_manager] in W2.
    destruct (lookup_lt_is_Some_2 (mg_instances m1) i) as [t Ht]; [by rewrite (wi_instances _ _ W1)|].
    edestruct (wi_done _ _ W2 i) as (u & Hu & Hd & _); [cbn; by rewrite list_lookup_alter_eq, Ht|]. rewrite Hi in Hu. injection Hu as <-. by apply Hd.
  - destruct (run_reaches cfg _ ops m Hs Hst Hp) as (m1 & _ & W1 & W2). cbn [step_manager] in W2.
    destruct (lookup_lt_is_Some_2 (mg_instances m1) i) as [t Ht]; [by rewrite (wi_instances _ _ W1)|].
    edestruct (wi_done _ _ W2 i) as (u & Hu & _ & Hd); [cbn; by rewrite list_lookup_alter_eq, Ht|]. rewrite Hi in Hu. injection Hu as <-. apply Hd. cbn.
    unfold context_ended. by rewrite (wi_cancelled _ _ W1), orb_true_r, andb_false_r.
Qed.

Definition all_settled m : Prop := forall i s, mg_instances m !! i = Some s -> ls_done s = true /\ ls_probing s = false.

Lemma winds_settled m m' : winds m m' -> all_settled m -> all_settled m'.
Proof.
  intros Hw Ha i s Hi. destruct (lookup_lt_is_Some_2 (mg_instances m) i) as [t Ht];
    [rewrite <-(wi_instances _ _ Hw); by eapply lookup_lt_Some|].
  destruct (wi_done _ _ Hw i t Ht) as (s' & Hs' & Hd & Hp). rewrite Hi in Hs'. injection Hs' as <-. destruct (Ha i t Ht). auto.
Qed.

Lemma round_advances cfg ops m k : sound m -> mg_stopped m = true -> all_settled m -> fair_round m ops ->
  (forall g, g ∈ mg_tails m -> steps_left g <= k) -> forall g, g ∈ mg_tails (run_manager cfg ops m) -> steps_left g <= pred k.
Proof.
  intros Hs Hst Hset [_ Hf] Hk g (j & Hj)%list_elem_of_lookup. pose proof (run_winds cfg ops m Hs Hst) as Hw.
  assert (Hlt : j < length (mg_tails m)) by (rewrite <-(wi_tails _ _ Hw); by eapply lookup_lt_Some).
  destruct (Hf j Hlt) as [timeout Hop]. destruct (run_reaches cfg _ ops m Hs Hst Hop) as (m1 & Hs1 & W1 & W2).
  destruct (lookup_lt_is_Some_2 (mg_tails m) j Hlt) as [g0 Hg0]. destruct (wi_tail _ _ W1 j g0 Hg0) as (g1 & Hg1 & Hle1).
  assert (Hp : proper g1) by (apply (so_proper _ Hs1); by eapply list_elem_of_lookup_2).
  destruct (step_tail_left cfg timeout g1 m1 Hp) as [Hle Hlt1].
  assert (Hstep : exists g2, mg_tails (step_manager cfg (OpTail j timeout) m1) !! j = Some g2 /\ steps_left g2 = steps_left (step_tail cfg timeout g1 m1).1).
  { cbn [step_manager]. unfold run_tail. rewrite Hg1. destruct (step_tail cfg timeout g1 m1) as [g2 m2] eqn:E. exists g2. split; [|done].
    cbn. rewrite list_lookup_insert_eq; [done|].
    destruct (step_tail_moves _ _ _ _ _ _ E Hp) as (_ & _ & _ & [[_ [->|[e ->]]]|(i & _ & ->)]); by eapply lookup_lt_Some. }
  destruct Hstep as (g2 & Hg2 & E2). destruct (wi_tail _ _ W2 j g2 Hg2) as (g3 & Hg3 & Hle3). rewrite Hj in Hg3. injection Hg3 as <-.
  specialize (Hk g0 ltac:(by eapply list_elem_of_lookup_2)).
  destruct (decide (steps_left g1 = 0)) as [He|He]; [lia|].
  - assert (steps_left (step_tail cfg timeout g1 m1).1 < steps_left g1); [|lia]. apply Hlt1; [intros Hx; apply He; unfold steps_left; by rewrite Hx|]. right. intros i Hi.
    destruct (so_tails _ Hs1 j g1 i Hg1 Hi) as (s & Hsi & _). unfold is_done. rewrite Hsi.
    by destruct (winds_settled _ _ W1 Hset i s Hsi).
Qed.

Lemma rounds_end cfg rounds m k : sound m -> mg_stopped m = true -> all_settled m -> Forall (fair_round m) rounds ->
  (forall g, g ∈ mg_tails m -> steps_left g <= k) -> k <= length rounds ->
  forall g, g ∈ mg_tails (run_manager cfg (concat rounds) m) -> steps_left g = 0.
Proof.
  revert m k. induction rounds as [|ops rounds IH]; intros m k Hs Hst Hset Hf Hk Hn; cbn [concat length] in *.
  { intros g Hg. specialize (Hk g Hg). lia. }
  apply Forall_cons in Hf as [Hr Hf]. unfold run_manager. rewrite foldl_app. fold (run_manager cfg ops m).
  pose proof (run_winds cfg ops m Hs Hst) as Hw. apply (IH _ (pred k)); [by apply run_sound|apply Hw|by eapply winds_settled| | |lia].
  - eapply Forall_impl; [exact Hf|]. intros l [H1 H2]. split; [by rewrite (wi_instances _ _ Hw)|by rewrite (wi_tails _ _ Hw)].
  - by apply round_advances.
Qed.

Lemma steps_left_max g : steps_left g <= 6.
Proof. unfold steps_left. destruct (position_of g); lia. Qed.

(** ** Evictions *)

(** The tail of a delete that has passed its wait waited for its instance. *)
Definition waited m : Prop := forall id i p, FinishDelete id (Some i) p ∈ mg_tails m -> p <> AtCancel -> p <> AtWait -> is_done i m = true.

Lemma waited_same m m' : (forall g, g ∈ mg_tails m' -> g ∈ mg_tails m \/ exists i, g = Drain i AtCancel \/
    exists id, g = FinishDelete id (Some i) AtCancel \/ g = FinishDelete id None AtCheck) ->
  (forall i, is_done i m = true -> is_done i m' = true) -> waited m -> waited m'.
Proof. intros Ht Hd Hw id i p [Hin|(k & [?|(id' & [?|?])])]%Ht Hc Hwt; simplify_eq; eauto. Qed.

(** The goroutines and the log of the steps that are not a goroutine's. *)
Lemma ensureLocked_waited id cfg m : waited m -> waited (ensureLocked id cfg m).2.
Proof.
  intros Hw. unfold ensureLocked. destruct (match mg_live m !! id with Some _ => _ | None => _ end); [done|].
  destruct (factory _ id cfg) as [writer|]; [|done].
  assert (Hd : forall i, is_done i m = true -> match (mg_instances m ++ [launch (newLiveSink id (Fingerprint cfg) writer)]) !! i with
    Some s => ls_done s | None => false end = true).
  { intros i. unfold is_done. destruct (mg_instances m !! i) as [s|] eqn:E; [|done]. by rewrite (lookup_app_l_Some _ _ _ _ E). }
  destruct (mg_live m !! id) as [old|]; (eapply waited_same; [|exact Hd|exact Hw]); cbn; [|by left].
  intros g [?| ->%list_elem_of_singleton]%elem_of_app; [by left|right; eauto].
Qed.

Lemma fold_waited l m : waited m -> waited (foldl (fun m p => (ensureLocked p.1 p.2 m).2) m l).
Proof. revert m. induction l as [|p l IH]; intros m Hw; [done|]. by apply IH, ensureLocked_waited. Qed.

Lemma step_waited cfg op m : sound m -> match op with OpTail _ true => False | _ => True end -> waited m -> waited (step_manager cfg op m).
Proof.
  intros Hs Hop Hw. destruct op as [id c|id| | | |i|i|j []]; cbn [step_manager]; [..|done|].
  - unfold Ensure. destruct (_ || _); [done|]. destruct c as [c|]; [|done]. destruct (mg_stopped m); [done|].
    destruct (mg_running m); cbn [negb]; [by apply ensureLocked_waited|done].
  - unfold Delete. destruct (mg_stopped m); [done|]. cbn zeta.
    eapply waited_same; [| |exact Hw]; destruct (mg_live _ !! id); cbn; try done;
      intros g [?| ->%list_elem_of_singleton]%elem_of_app; [by left|right; eauto|by left|right; exists 0; eauto].
  - destruct (mg_running m); [done|]. unfold Start_begin. apply fold_waited. exact Hw.
  - done.
  - destruct (_ && _); [|done]. eapply waited_same; [| |exact Hw]; [|done]. cbn.
    intros g [?|(i & -> & _)%list_elem_of_fmap]%elem_of_app; [by left|right; eauto].
  - eapply waited_same; [| |exact Hw]; cbn; [by left|]. intros k. unfold is_done. cbn. rewrite list_lookup_alter.
    case_decide as Hk; [subst k|done]. by destruct (mg_instances m !! i).
  - eapply waited_same; [| |exact Hw]; cbn; [by left|]. intros k. unfold is_done. cbn. rewrite list_lookup_alter.
    case_decide as Hk; [subst k|done]. by destruct (mg_instances m !! i).
  - unfold run_tail. destruct (mg_tails m !! j) as [g|] eqn:Hj; [|done].
    assert (Hg : proper g) by (apply (so_proper _ Hs); by eapply list_elem_of_lookup_2).
    destruct (step_tail cfg false g m) as [g' m'] eqn:Hstep.
    destruct (step_tail_moves _ _ _ _ _ _ Hstep Hg) as (Hd & _ & Hid & Hm).
    assert (Hdone : forall k, is_done k m = true -> is_done k m' = true).
    { destruct Hm as [[_ [->|[e ->]]]|(i & _ & ->)]; [done|done|]. intros k. unfold is_done. cbn. rewrite list_lookup_alter.
      case_decide as Hk; [subst k|done]. by destruct (mg_instances m !! i). }
    assert (Ht : mg_tails m' = mg_tails m) by (by destruct Hm as [[_ [->|[e ->]]]|(i & _ & ->)]).
    intros id i p Hin Hc Hwt. change (is_done i m' = true). cbn in Hin. rewrite Ht in Hin.
    apply list_elem_of_lookup in Hin as [k Hk]. destruct (decide (k = j)) as [->|Hne].
    + rewrite list_lookup_insert_eq in Hk by (by eapply lookup_lt_Some). injection Hk as ->. cbn in Hd. destruct Hid as [p0 Hgp].
      rewrite <-Hd in Hgp. subst g. apply Hdone. destruct p0; cbn in Hstep; try (by injection Hstep as <-);
        try (by injection Hstep; congruence); try (eapply Hw; [by eapply list_elem_of_lookup_2|done|done]).
      rewrite orb_false_r in Hstep. destruct (is_done i m); [done|]. by injection Hstep as <-.
    + rewrite list_lookup_insert_ne in Hk by done. apply Hdone. eapply Hw; [by eapply list_elem_of_lookup_2|done|done].
Qed.

Lemma run_waited cfg ops m : sound m -> Forall (fun op => match op with OpTail _ true => False | _ => True end) ops ->
  waited m -> waited (run_manager cfg ops m).
Proof.
  intros Hs Hops. revert m Hs. induction Hops as [|op ops Hop _ IH]; intros m Hs Hw; [done|].
  apply IH; [by apply step_sound|by apply step_waited].
Qed.

(** The calls a goroutine makes on other components in its next step. *)
Definition calls (cfg : managerConfig) (g : goroutine) : list effect :=
  match g with
  | FinishDelete id _ AtRemove => [RemovedSink id]
  | FinishDelete id _ AtForget => if mc_warm cfg then [ForgotSink id] else []
  | FinishDelete id _ AtPark =>
      if mc_park cfg then [ParkedRules id (match mc_dependents cfg with Some rules => rules id | None => [] end)] else []
  | _ => []
  end.

Lemma run_tail_calls cfg j timeout m g : mg_tails m !! j = Some g ->
  mg_effects (run_tail cfg j timeout m) = mg_effects m ++ calls cfg g.
Proof.
  intros Hj. unfold run_tail. rewrite Hj. destruct g as [i []|id [i|] []]; cbn; unfold parkDependents;
    try destruct (is_done i m || timeout); try destruct (mc_warm cfg); try destruct (mc_park cfg); cbn; by rewrite ?app_nil_r.
Qed.
End ending.

(** ** The probe schedule *)

Section probing.
Context `{BackOffLaws} (cfg : managerConfig) (id : ID).
Hypothesis Hmin : (0 < mc_probeMinBackoff cfg <= mc_probeMaxBackoff cfg)%Z.

(** The schedule a loop is in: between its bounds. *)
Definition scheduled (eb : backoff) : Prop :=
  bo_initial eb = mc_probeMinBackoff cfg /\ bo_maximal eb = mc_probeMaxBackoff cfg /\
  (mc_probeMinBackoff cfg <= bo_interval eb <= mc_probeMaxBackoff cfg)%Z.

Lemma new_scheduled : scheduled (NewExponentialBackOff (mc_probeMinBackoff cfg) (mc_probeMaxBackoff cfg)).
Proof using Hmin. destruct (bo_new (mc_probeMinBackoff cfg) (mc_probeMaxBackoff cfg)) as (E1 & E2 & E3). unfold scheduled. lia. Qed.

Lemma next_delay eb failed delay eb' : scheduled eb -> nextProbeDelay cfg eb failed = (delay, eb') ->
  scheduled eb' /\
  if failed then delay = bo_interval eb /\ (bo_interval eb <= bo_interval eb')%Z
  else delay = mc_probeInterval cfg /\ bo_interval eb' = mc_probeMinBackoff cfg.
Proof using Hmin.
  intros (Hi & Hm & Hb). unfold nextProbeDelay. destruct failed; cbn [negb].
  - destruct (bo_next eb) as (N1 & N2 & N3 & N4). destruct (NextBackOff eb) as [d eb1]. cbn in *. intros [= <- <-].
    specialize (N4 ltac:(lia)). rewrite bool_decide_eq_false_2 by lia. unfold scheduled. lia.
  - destruct (bo_reset eb) as (R1 & R2 & R3). intros [= <- <-]. unfold scheduled. lia.
Qed.

Definition posted (stop : roundEnd) : bool := match stop with InAttempt | InPost => false | _ => true end.

(** The rounds up to the one the context ended. *)
Fixpoint live_rounds (rounds : list (option probeError * roundEnd)) : list (option probeError) :=
  match rounds with
  | [] => []
  | (answer, GoesOn) :: rest => answer :: live_rounds rest
  | (answer, InWait) :: _ => [answer]
  | _ => []
  end.

Definition failed (r : ProbeResult * Z) : bool := bool_decide (is_Some (pr_Err r.1)).

(** What follows a wait of [d]: after a success the schedule starts over, after a failure
    it does not shrink. *)
Fixpoint paced (floor : Z) (l : list (ProbeResult * Z)) : Prop :=
  match l with
  | [] => True
  | r :: rest =>
      if failed r then (floor <= r.2 <= mc_probeMaxBackoff cfg)%Z /\ paced r.2 rest
      else r.2 = mc_probeInterval cfg /\ paced (mc_probeMinBackoff cfg) rest
  end.

(** The first failure after the start or after a success waits the minimum. *)
Fixpoint restarts (fresh : bool) (l : list (ProbeResult * Z)) : Prop :=
  match l with
  | [] => True
  | r :: rest => (failed r = true -> fresh = true -> r.2 = mc_probeMinBackoff cfg) /\ restarts (negb (failed r)) rest
  end.

Lemma rounds_schedule rounds eb fresh : scheduled eb -> (fresh = true -> bo_interval eb = mc_probeMinBackoff cfg) ->
  map fst (probe_rounds cfg id eb rounds) = map (probe id) (live_rounds rounds) /\
  paced (bo_interval eb) (probe_rounds cfg id eb rounds) /\ restarts fresh (probe_rounds cfg id eb rounds).
Proof using Hmin.
  revert eb fresh. induction rounds as [|[answer stop] rounds IH]; intros eb fresh Hs Hf; [done|]. cbn [probe_rounds live_rounds].
  destruct stop; [|done|done|]; destruct (nextProbeDelay cfg eb _) as [delay eb'] eqn:Hd;
    destruct (next_delay _ _ _ _ Hs Hd) as (Hs' & Hcase); pose proof Hs as (_ & _ & Hb);
    (destruct (IH eb' (negb (failed (probe id answer, delay))) Hs') as (I1 & I2 & I3);
     [unfold failed; cbn [fst]; by destruct (bool_decide _); [|intros _; apply Hcase]|]);
    cbn [map fst]; rewrite ?I1; (split; [done|]); cbn [paced restarts]; unfold failed in *; cbn [fst snd] in *;
    destruct (bool_decide (is_Some (pr_Err (probe id answer)))); destruct Hcase as [-> Hcase]; split_and!; try done; try lia.
  - destruct (probe_rounds cfg id eb' rounds) as [|r l]; [done|]. cbn [paced] in I2 |- *. destruct (failed r); [|done]. split; [lia|apply I2].
  - by rewrite <-Hcase.
Qed.
End probing.

(** ** Properties *)

(** C25: every instance is routed or being seen off, never both and never neither. In every
    state the manager reaches, however declarations, deletions, the start, the shutdown,
    returning backends, probe loops and background goroutines interleave: what a sink is
    routed to is an instance built for that sink whose own cancel nothing has called and no
    goroutine drains, so that its context, derived from the manager's, ends only with that;
    every other instance ever started has exactly one goroutine of its own that drains it,
    and one that goroutine has moved past cancelling has an ended context. A probe loop
    that has returned had an ended context. A stopped manager routes nothing. *)
Theorem instances_routed_or_drained `{Backends} cfg ops :
  let m := run_manager cfg ops newManager in
  (forall id i, mg_live m !! id = Some i -> exists s, mg_instances m !! i = Some s /\ ls_id s = id /\
     (context_ended m s = true <-> mg_cancelled m = true) /\
     forall j g, mg_tails m !! j = Some g -> drains g <> Some i) /\
  (forall i s, mg_instances m !! i = Some s -> mg_live m !! ls_id s = Some i \/
     exists j g, mg_tails m !! j = Some g /\ drains g = Some i /\ (position_of g <> AtCancel -> context_ended m s = true) /\
       forall j' g', mg_tails m !! j' = Some g' -> drains g' = Some i -> j' = j) /\
  (forall i s, mg_instances m !! i = Some s -> ls_prober s = true -> ls_probing s = true \/ context_ended m s = true) /\
  (mg_stopped m = true -> forall id, WriterFor id m = None).
Proof.
  intros m. pose proof (run_sound cfg ops newManager new_sound) as Hs. fold m in Hs. split_and!.
  - intros id i Hi. destruct (so_live _ Hs id i Hi) as (s & Hs' & Hid & Hc). exists s. split_and!; try done.
    { unfold context_ended. by rewrite Hc. }
    intros j g Hj Hd. destruct (so_tails _ Hs j g i Hj Hd) as (s' & Hs'' & Hn & _). rewrite Hs' in Hs''. injection Hs'' as <-. by rewrite Hid in Hn.
  - intros i s Hi. destruct (so_out _ Hs i s Hi) as [?|(j & g & Hj & Hd)]; [by left|right]. exists j, g. split_and!; try done.
    + destruct (so_tails _ Hs j g i Hj Hd) as (s' & Hs' & _ & Hp & _). rewrite Hi in Hs'. injection Hs' as <-.
      intros Hx. unfold context_ended. by rewrite (Hp Hx).
    + intros j' g' Hj' Hd'. by eapply (so_once _ Hs).
  - intros i s. by apply run_probing.
  - intros Hst id. unfold WriterFor, instance_of. destruct (so_stopped _ Hs Hst) as (-> & _). done.
Qed.

(** C26: the routing table is what was declared. Whatever else happens in between, the
    instance a sink is routed to was built from the configuration that was last accepted
    for it: a declaration [Ensure] answered with success while the manager runs, or one
    held back until [Start] and accepted then; a refused declaration leaves the sink with
    what it had, one for another sink does not touch it, and a deletion or the shutdown
    leaves it with nothing. *)
Theorem routing_follows_declarations `{Backends} cfg ops id :
  fingerprint_of (run_manager cfg ops newManager) id = declared cfg ops newManager ∅ !! id.
Proof. apply run_routes; [apply new_sound|]. intros id'. done. Qed.

(** C38: the shutdown ends. Once the manager has stopped, the context of every instance has
    ended, declarations are refused and deletions ignored without any effect; and when every
    writer returns from its [Start] (which its context's end asks it to), every probe loop
    sees its context and every drain or delete tail gets its turns - seven rounds of turns,
    in any order and among anything else - [Start] returns: behind its last wait no
    goroutine the manager ever launched is left. *)
Theorem shutdown_ends `{Backends} cfg ops rounds :
  let m := run_manager cfg ops newManager in
  mg_stopped m = true -> 7 <= length rounds -> Forall (fair_round m) rounds ->
  (forall i s, mg_instances m !! i = Some s -> context_ended m s = true) /\
  (forall id c, ID_Kind id <> "" -> ID_Name id <> "" -> Ensure id (Some c) m = (Some errManagerStopped, m)) /\
  (forall id, Delete id m = m) /\
  Start_returns (run_manager cfg (concat rounds) m) = true.
Proof.
  intros m Hst Hn Hf. pose proof (run_sound cfg ops newManager new_sound) as Hs. fold m in Hs.
  destruct (so_stopped _ Hs Hst) as (_ & _ & Hca). split_and!.
  - intros i s _. unfold context_ended. by rewrite Hca, orb_true_r.
  - intros id c Hk Hid. unfold Ensure. rewrite Hst. by rewrite !bool_decide_eq_false_2.
  - intros id. unfold Delete. by rewrite Hst.
  - destruct rounds as [|ops1 rounds]; [cbn in Hn; lia|]. apply Forall_cons in Hf as [Hr Hf]. cbn [concat length] in *.
    unfold run_manager. rewrite foldl_app. fold (run_manager cfg ops1 m). fold (run_manager cfg (concat rounds) (run_manager cfg ops1 m)).
    pose proof (run_winds cfg ops1 m Hs Hst) as Hw. pose proof (run_sound cfg ops1 m Hs) as Hs1. set (m1 := run_manager cfg ops1 m) in *.
    assert (Hset : all_settled m1) by (intros i s; by apply round_settles).
    assert (Hf1 : Forall (fair_round m1) rounds).
    { eapply Forall_impl; [exact Hf|]. intros l [H1 H2]. split; [by rewrite (wi_instances _ _ Hw)|by rewrite (wi_tails _ _ Hw)]. }
    pose proof (rounds_end cfg rounds m1 6 Hs1 (wi_stopped _ _ Hw) Hset Hf1 (fun g _ => steps_left_max g) ltac:(lia)) as Hend.
    pose proof (run_winds cfg (concat rounds) m1 Hs1 (wi_stopped _ _ Hw)) as Hw2.
    unfold Start_returns. rewrite (wi_stopped _ _ Hw2), !andb_true_iff. split_and!; [done| |].
    + apply forallb_forall. intros g Hg%list_elem_of_In. apply ended_spec. by apply Hend.
    + apply forallb_forall. intros s (i & Hi)%list_elem_of_In%list_elem_of_lookup.
      destruct (winds_settled _ _ Hw2 Hset i s Hi) as [Hd Hp]. unfold settled_instance. by rewrite Hd, Hp.
Qed.

(** a sink's state is evicted after its instance. As long as no drain timed out: at the
    moment a goroutine makes the pipeline forget a sink, it is the tail of a deletion of
    that sink, and the instance that deletion took out of the table has been cancelled and
    its writer has returned. *)
Theorem eviction_waits_for_drain `{Backends} cfg ops j g id :
  let m := run_manager cfg ops newManager in
  Forall (fun op => match op with OpTail _ true => False | _ => True end) ops ->
  mg_tails m !! j = Some g -> RemovedSink id ∈ calls cfg g ->
  mg_effects (step_manager cfg (OpTail j false) m) = mg_effects m ++ [RemovedSink id] /\
  exists inst, g = FinishDelete id inst AtRemove /\
    forall i, inst = Some i -> exists s, mg_instances m !! i = Some s /\ ls_id s = id /\ ls_cancelled s = true /\ ls_done s = true.
Proof.
  intros m Hops Hj Hc. pose proof (run_sound cfg ops newManager new_sound) as Hs. fold m in Hs.
  assert (Hw : waited m) by (apply run_waited; [apply new_sound|done|by intros ? ? ? ?%elem_of_nil]).
  assert (Hg : exists inst, g = FinishDelete id inst AtRemove).
  { destruct g as [i p|id' inst []]; cbn in Hc; try (by apply elem_of_nil in Hc).
    - apply list_elem_of_singleton in Hc as [= ->]. by exists inst.
    - destruct (mc_warm cfg); [by apply list_elem_of_singleton in Hc|by apply elem_of_nil in Hc].
    - destruct (mc_park cfg); [by apply list_elem_of_singleton in Hc|by apply elem_of_nil in Hc]. }
  destruct Hg as [inst ->]. split; [cbn [step_manager]; by rewrite (run_tail_calls cfg j false m _ Hj)|].
  exists inst. split; [done|]. intros i ->. destruct (so_tails _ Hs j _ i Hj eq_refl) as (s & Hs' & _ & Hp & Hid). exists s.
  split; [done|]. split; [done|]. split; [by apply Hp|].
  assert (Hd : is_done i m = true) by (eapply (Hw id i AtRemove); [by eapply list_elem_of_lookup_2|done|done]).
  unfold is_done in Hd. by rewrite Hs' in Hd.
Qed.

(** the probe schedule. For a manager built from any options whose (defaulted) backoff
    bounds are in order, and any sequence of probe answers until the instance's context
    ends: every attempt that settled before that is reported, once and in order, with its
    reason; after a success the next probe comes one steady interval later; after the k-th
    failure in a row it comes no sooner than after the one before, never sooner than the
    minimum and never later than the maximum, starting over at the minimum with the first
    failure after a success. *)
Theorem probe_schedule `{BackOffLaws} opts cfg id rounds :
  NewSinkManager opts = Ok cfg ->
  (or_default (mo_ProbeMinBackoff opts) defaultProbeMinBackoff <= or_default (mo_ProbeMaxBackoff opts) defaultProbeMaxBackoff)%Z ->
  map fst (probeLoop cfg id rounds) = map (probe id) (live_rounds rounds) /\
  paced cfg (mc_probeMinBackoff cfg) (probeLoop cfg id rounds) /\ restarts cfg true (probeLoop cfg id rounds).
Proof.
  intros Hn Hle. unfold NewSinkManager in Hn. destruct (mo_Factory opts); [|done]. destruct (mo_Pipeline opts); [|done]. cbn [negb] in Hn.
  injection Hn as <-. set (cfg := mkManagerConfig _ _ _ _ _ _ _ _ _).
  assert (Hb : (0 < mc_probeMinBackoff cfg <= mc_probeMaxBackoff cfg)%Z).
  { cbn. split; [|exact Hle]. unfold or_default, defaultProbeMinBackoff, second_ns. case_bool_decide; lia. }
  destruct (bo_new (mc_probeMinBackoff cfg) (mc_probeMaxBackoff cfg)) as (Hi & _ & _). unfold probeLoop.
  destruct (rounds_schedule cfg id Hb rounds _ true (new_scheduled cfg Hb) (fun _ => Hi)) as (A & B & C). rewrite Hi in B. done.
Qed.

(** ** Evaluation *)

Module ManagerSamples.

(** A backend whose configuration is its fingerprint and which refuses one of them. *)
Definition sample_backends : Backends := {|
  InstanceConfig := string;
  Fingerprint c := c;
  Backend := string;
  factory _ _ c := if bool_decide (c = "broken") then Err "no such host" else Ok c;
  implements_StateReader _ := true;
  implements_ScopeEventWriter _ := true;
  implements_Prober _ := false;
|}.
#[local] Existing Instance sample_backends.

Definition sink_id : ID := mkID "ClickHouseSink" "main".
Definition sample_options : ManagerOptions := mkManagerOptions true true true (Some (fun _ => ["ns/rule"])) true 0 0 0 0 0 0.
Definition sample_manager : managerConfig :=
  mkManagerConfig true (Some (fun _ => ["ns/rule"])) true defaultProbeInterval defaultProbeMinBackoff defaultProbeMaxBackoff
    defaultProbeTimeout defaultDrainTimeout defaultResultBuffer.

Example sample_options_default : NewSinkManager sample_options = Ok sample_manager.
Proof. reflexivity. Qed.

(** Declared before the start, recycled, refused, then deleted and drained. *)
Definition lifecycle : list managerOp :=
  [OpEnsure sink_id (Some "a"); OpStart; OpEnsure sink_id (Some "b"); OpEnsure sink_id (Some "broken"); OpDelete sink_id;
   OpTail 0 false; OpTail 1 false; OpWriterReturns 0; OpWriterReturns 1; OpTail 0 false; OpTail 1 false; OpTail 1 false].

Example lifecycle_routes :
  WriterFor sink_id (run_manager sample_manager (take 4 lifecycle) newManager) = Some "b" /\
  WriterFor sink_id (run_manager sample_manager lifecycle newManager) = None /\
  mg_effects (run_manager sample_manager (lifecycle ++ [OpTail 1 false; OpTail 1 false; OpTail 1 false]) newManager) =
    [Started 0; Started 1; RemovedSink sink_id; ForgotSink sink_id; ParkedRules sink_id ["ns/rule"]].
Proof. vm_compute. done. Qed.

Lemma eviction_waits_for_drain_witness :
  exists s, mg_instances (run_manager sample_manager lifecycle newManager) !! 1 = Some s /\ ls_done s = true.
Proof.
  destruct (eviction_waits_for_drain sample_manager lifecycle 1 (FinishDelete sink_id (Some 1) AtRemove) sink_id)
    as [_ (inst & Hg & Hall)]; [repeat constructor|vm_compute; reflexivity|by left|].
  injection Hg as <-. destruct (Hall 1 eq_refl) as (s & Hs & _ & _ & Hd). exists s. split; [exact Hs|exact Hd].
Defined.

(** A stop with one instance, its drain timing out before the writer has returned. *)
Definition stopping : list managerOp := [OpStart; OpEnsure sink_id (Some "a"); OpContextDone; OpStop].
Definition turns : list managerOp := [OpTail 0 true; OpProbeEnds 0; OpWriterReturns 0].

Lemma shutdown_ends_witness :
  Start_returns (run_manager sample_manager (concat (replicate 7 turns)) (run_manager sample_manager stopping newManager)) = true.
Proof.
  destruct (shutdown_ends sample_manager stopping (replicate 7 turns)) as (_ & _ & _ & Hr); [vm_compute; reflexivity|cbn; lia| |exact Hr].
  apply Forall_replicate. split.
  - intros [|i]; [|vm_compute; lia]. intros _. split; [do 2 right; by left|right; by left].
  - intros [|j]; [|vm_compute; lia]. intros _. exists true. by left.
Defined.

(** A schedule that doubles. *)
Definition doubling : BackOff := {|
  backoff := Z * Z * Z;
  NewExponentialBackOff a b := (a, a, b);
  bo_Reset s := let '(_, a, b) := s in (a, a, b);
  NextBackOff s := let '(i, a, b) := s in (i, (if bool_decide (i <= b)%Z then Z.max i (Z.min (2 * i) b) else i, a, b));
|}.
#[local] Existing Instance doubling.

#[local] Instance doubling_laws : BackOffLaws.
Proof.
  refine {| bo_interval s := s.1.1; bo_initial s := s.1.2; bo_maximal s := s.2 |}.
  - done.
  - by intros [[i a] b].
  - intros [[i a] b]. cbn. split_and!; try done. intros Hi. rewrite bool_decide_eq_true_2 by done. lia.
Defined.

Definition unreachable : probeError := mkProbeError "connection refused" false false.

Example sample_delays : map snd (probeLoop sample_manager sink_id
    [(Some unreachable, GoesOn); (Some unreachable, GoesOn); (None, GoesOn); (Some unreachable, GoesOn); (None, InPost)]) =
  [second_ns; 2 * second_ns; 60 * second_ns; second_ns]%Z.
Proof. vm_compute. reflexivity. Qed.

Lemma probe_schedule_witness : map fst (probeLoop sample_manager sink_id [(Some unreachable, GoesOn); (None, InWait)]) =
  [mkProbeResult sink_id (Some unreachable) "Unreachable"; mkProbeResult sink_id None ""].
Proof.
  rewrite (proj1 (probe_schedule sample_options sample_manager sink_id [(Some unreachable, GoesOn); (None, InWait)] eq_refl
    ltac:(vm_compute; discriminate))).
  reflexivity.
Defined.

(** ** What the ordering does not give *)

(** A deletion right after a recycle waits for the instance it took out of the table, not
    for its predecessor: the sink's state is evicted while that one still has jobs to
    settle. *)
Theorem evicts_while_predecessor_drains :
  let m := run_manager sample_manager
    [OpStart; OpEnsure sink_id (Some "a"); OpEnsure sink_id (Some "b"); OpTail 0 false; OpDelete sink_id; OpTail 1 false;
     OpWriterReturns 1; OpTail 1 false; OpTail 1 false; OpTail 1 false] newManager in
  RemovedSink sink_id ∈ mg_effects m /\ mg_tails m !! 0 = Some (Drain 0 AtWait) /\
  exists s, mg_instances m !! 0 = Some s /\ ls_id s = sink_id /\ ls_done s = false.
Proof. vm_compute. split; [do 2 right; by left|]. split; [done|]. by eexists. Qed.

(** The check for a recreated sink and the eviction are two steps: a sink declared again
    in between is routed, and its state is evicted and its rules parked all the same. *)
Theorem evicts_recreated_sink :
  let m := run_manager sample_manager
    [OpStart; OpEnsure sink_id (Some "a"); OpDelete sink_id; OpTail 0 false; OpWriterReturns 0; OpTail 0 false; OpTail 0 false;
     OpEnsure sink_id (Some "a"); OpTail 0 false; OpTail 0 false; OpTail 0 false] newManager in
  WriterFor sink_id m = Some "a" /\
  mg_effects m = [Started 0; Started 1; RemovedSink sink_id; ForgotSink sink_id; ParkedRules sink_id ["ns/rule"]].
Proof. vm_compute. done. Qed.

(** The drain timeout does not bound the shutdown: a writer whose [Start] never returns is
    given up on by its drain, and then waited for in [m.wg] without a bound. *)
Theorem wedged_writer_holds_shutdown n :
  Start_returns (run_manager sample_manager (stopping ++ concat (replicate n [OpTail 0 true; OpProbeEnds 0])) newManager) = false.
Proof.
  unfold run_manager. rewrite foldl_app. change (foldl _ newManager stopping) with (run_manager sample_manager stopping newManager).
  set (m := run_manager sample_manager stopping newManager).
  assert (Hd : exists s, mg_instances m = [s] /\ ls_done s = false) by (eexists; split; vm_compute; reflexivity).
  clearbody m. revert m Hd. induction n as [|n IH]; intros m (s & Ei & Hs).
  - unfold Start_returns. cbn [foldl replicate concat]. rewrite Ei. cbn. unfold settled_instance. by rewrite Hs, andb_false_r.
  - cbn [replicate concat]. rewrite foldl_app. apply IH. cbn [foldl step_manager]. unfold probe_ends, run_tail. cbn [mg_instances].
    destruct (mg_tails m !! 0) as [g|]; [|rewrite Ei; cbn; eauto].
    assert (Hm : exists s', mg_instances (step_tail sample_manager true g m).2 = [s'] /\ ls_done s' = false).
    { destruct g as [i []|id [i|] []]; cbn; unfold parkDependents; rewrite ?orb_true_r; cbn; try (by exists s);
        rewrite Ei; destruct i as [|i]; cbn; eauto. }
    destruct (step_tail sample_manager true g m) as [g' m']. cbn in Hm |- *. destruct Hm as (s' & -> & Hs'). cbn. eauto.
Qed.
End ManagerSamples.
