(* ===== verification/Conditions.v ===== *)
(** * Conditions: what the control plane reports, and in which words

    Models [src/internal/controller/conditions.go]: condition reasons, rule keys, the
    status writer of a reconcile pass, the conflict-retrying status update and the
    events of a changed verdict; [readyFor] of sink_controller.go; and
    [canonicalRedaction] and [canonicalEventFilter] of redaction.go and eventfilter.go,
    the two projections of API types into strings, with the API types of
    [src/api/v1alpha1/shared_types.go] they read.

    A condition is apimachinery's [metav1.Condition] but for its transition time, which
    nothing here reads. The condition helpers of apimachinery are the class
    [ConditionHelpers]; the wording of an error value is the class [ErrorText]. *)

From S2P Require Import Prelude SinkManager Identity Plan GoJson Redact RedactParse EventFilter Interest.

(** ** Conditions *)

Definition ConditionTrue : string := "True".
Definition ConditionFalse : string := "False".
Definition ConditionUnknown : string := "Unknown".

Record Condition := mkCondition {
  cd_Type : string;
  cd_Status : string;
  cd_Reason : string;
  cd_Message : string;
  cd_ObservedGeneration : Z;
}.

#[export] Instance Condition_eq_dec : EqDecision Condition.
Proof. solve_decision. Defined.

Class ConditionHelpers := {
  (** [apimeta.SetStatusCondition] *)
  SetStatusCondition : list Condition -> Condition -> list Condition;
  (** [apimeta.FindStatusCondition] *)
  FindStatusCondition : list Condition -> string -> option Condition;
}.

(** What their documentation says: the first condition of a type is found; a condition
    set replaces the one of its type, or is appended. *)
Class ConditionLaws `{ConditionHelpers} := {
  find_first : forall l t, FindStatusCondition l t = head (List.filter (fun c => bool_decide (cd_Type c = t)) l);
  find_set : forall l c t,
    FindStatusCondition (SetStatusCondition l c) t =
    if decide (t = cd_Type c) then Some c else FindStatusCondition l t;
  set_types : forall l c,
    map cd_Type (SetStatusCondition l c) =
    if decide (cd_Type c ∈ map cd_Type l) then map cd_Type l else map cd_Type l ++ [cd_Type c];
}.

(** The [Error] method of an error value. *)
Class ErrorText (E : Type) := error_text : E -> string.

(** The condition types of [v1alpha1]. *)
Definition ConditionReady : string := "Ready".
Definition ConditionCredentialsResolved : string := "CredentialsResolved".
Definition ConditionHistoryUnavailable : string := "HistoryUnavailable".
Definition ConditionSchemaValid : string := "SchemaValid".
Definition ConditionBucketReachable : string := "BucketReachable".
Definition ConditionRBACGranted : string := "RBACGranted".
Definition ConditionPolicyAllowed : string := "PolicyAllowed".
Definition ConditionResourceResolved : string := "ResourceResolved".

Definition ReasonSecretResolved : string := "SecretResolved".
Definition ReasonSecretNotFound : string := "SecretNotFound".
Definition ReasonSecretKeyMissing : string := "SecretKeyMissing".
Definition ReasonSchemaMatches : string := "SchemaMatches".
Definition ReasonProbePending : string := "ProbePending".
Definition ReasonConnected : string := "Connected".
Definition ReasonCredentialsUnavailable : string := "CredentialsUnavailable".
Definition ReasonAmbientCredentials : string := "AmbientCredentials".
Definition ReasonBucketWritable : string := "BucketWritable".
Definition ReasonBucketIncompatible : string := "BucketIncompatible".
Definition ReasonBucketUnreachable : string := "BucketUnreachable".
Definition ReasonArchiving : string := "Archiving".
Definition ReasonWriterOnlySink : string := "WriterOnlySink".
Definition ReasonHistoryReadable : string := "HistoryReadable".
Definition ReasonCapabilitiesUnknown : string := "CapabilitiesUnknown".
Definition ReasonSecretsDenied : string := "SecretsDenied".
Definition ReasonNotInAllowList : string := "NotInAllowList".
Definition ReasonAllResourcesPermitted : string := "AllResourcesPermitted".
Definition ReasonAllVerbsGranted : string := "AllVerbsGranted".
Definition ReasonMissingPermissions : string := "MissingPermissions".
Definition ReasonAccessReviewFailed : string := "AccessReviewFailed".
Definition ReasonAllKindsResolved : string := "AllKindsResolved".
Definition ReasonInvalidSelector : string := "InvalidSelector".
Definition ReasonNamespaceSelectorInvalid : string := "NamespaceSelectorInvalid".
Definition ReasonNamespacesUnavailable : string := "NamespacesUnavailable".
Definition ReasonSinkMissing : string := "SinkMissing".
Definition ReasonSinkNotReady : string := "SinkNotReady".
Definition ReasonLegacySinkRef : string := "LegacySinkRef".
Definition ReasonKindsUnresolved : string := "KindsUnresolved".
Definition ReasonNotEvaluated : string := "NotEvaluated".
Definition ReasonStreaming : string := "Streaming".
Definition EventReasonDegraded : string := "Degraded".
Definition EventReasonReady : string := "Ready".
Definition EventReasonHistoryUnavailable : string := "HistoryUnavailable".

Definition writerOnlySinkMessage : string :=
  "This sink cannot read its own history back, so three behaviours are disabled " +:+
  "for it: dedup cache warm-up, zombie garbage collection, and boot reconciliation of scope epochs. " +:+
  "An object first seen by this operator process is therefore always a permanent Snapshot and never an " +:+
  "Added, every object is re-snapshotted in full after each operator restart, and deletions that occur " +:+
  "while the operator is down are never recorded. " +:+
  "kuberecord_safe_mode stays at 1 for every scope on this sink, which is where the same fact is " +:+
  "observable in metrics. This is a declared capability limit of this backend (D12) and not a fault, so " +:+
  "Ready stays True; pair it with a ClickHouseSink over the same resources for a queryable timeline.".

Definition historyReadableMessage : string :=
  "This sink can read its own history back, so dedup cache warm-up, zombie " +:+
  "garbage collection and boot reconciliation of scope epochs all run for it.".

Definition writerOnlySinkRuleMessage (sinkID : string) : string :=
  "Sink " +:+ sinkID +:+ " cannot reconstruct history: an object this rule reports for the first time " +:+
  "is always a permanent Snapshot and never an Added, every object is re-snapshotted in full after " +:+
  "each operator restart, and a deletion that happens while the operator is down is never recorded. " +:+
  "This is a declared limit of that sink's backend (D12), not a fault of this rule — see the sink's " +:+
  "own HistoryUnavailable condition.".

Definition historyReadableRuleMessage (sinkID : string) : string :=
  "Sink " +:+ sinkID +:+ " can reconstruct history, so this rule's records carry accurate event types " +:+
  "and a deletion that happens while the operator is down is recovered on the next boot.".

(** ** Rule keys *)

Record NamespacedName := mkNamespacedName { nn_Namespace : string; nn_Name : string }.

#[export] Instance NamespacedName_eq_dec : EqDecision NamespacedName.
Proof. solve_decision. Defined.

(** [types.NamespacedName.String]. *)
Definition NamespacedName_String (n : NamespacedName) : string := nn_Namespace n +:+ "/" +:+ nn_Name n.

Definition kindStreamRule : string := "streamrule".
Definition kindClusterStreamRule : string := "clusterstreamrule".

Definition RuleKey (kind namespace name : string) : string := kind +:+ "/" +:+ namespace +:+ "/" +:+ name.

Definition parseRuleKey (key : string) : option (string * NamespacedName) :=
  match split_on "/"%char key with
  | [kind; namespace; name] =>
      if bool_decide (kind = "") || bool_decide (name = "") then None
      else if bool_decide (kind = kindStreamRule) || bool_decide (kind = kindClusterStreamRule)
      then Some (kind, mkNamespacedName namespace name)
      else None
  | _ => None
  end.

(** ** The status writer *)

Definition condition (condType status reason message : string) (generation : Z) : Condition :=
  mkCondition condType status reason message generation.

Record statusWriter := mkStatusWriter {
  sw_conditions : list Condition;
  sw_generation : Z;
}.

Section status.
Context `{ConditionHelpers}.

Definition findCondition (conditions : list Condition) (condType : string) : option Condition :=
  FindStatusCondition conditions condType.

Definition status_set (condType status reason message : string) (w : statusWriter) : statusWriter :=
  mkStatusWriter (SetStatusCondition (sw_conditions w) (condition condType status reason message (sw_generation w)))
    (sw_generation w).

Definition status_apply (w : statusWriter) (existing : list Condition) : list Condition :=
  foldl SetStatusCondition existing (sw_conditions w).

(** [readyFor]: the first condition of the order that is not True decides. *)
Fixpoint readyFor (status : statusWriter) (order : list string) (trueReason trueMessage : string)
    : Condition :=
  match order with
  | [] => condition ConditionReady ConditionTrue trueReason trueMessage (sw_generation status)
  | condType :: rest =>
      match findCondition (sw_conditions status) condType with
      | None => readyFor status rest trueReason trueMessage
      | Some c =>
          if bool_decide (cd_Status c = ConditionTrue) then readyFor status rest trueReason trueMessage
          else
            let readyStatus :=
              if bool_decide (cd_Status c = ConditionUnknown) && bool_decide (cd_Reason c = ProbeReasonUnreachable)
              then ConditionFalse else cd_Status c in
            condition ConditionReady readyStatus (cd_Reason c) (cd_Message c) (sw_generation status)
      end
  end.
End status.

(** ** Writing the status *)

(** One attempt of [updateStatus]: what the read returned, and what the update did. *)
Inductive updateOutcome (E : Type) := Updated | UpdateConflict (e : E) | UpdateFailed (e : E).
Arguments Updated {E}.
Arguments UpdateConflict {E}.
Arguments UpdateFailed {E}.

Section update.
Context {E S : Type}.

(** [updateStatus]: [retry.RetryOnConflict] goes on while an attempt ends in a
    conflict; [attempts] are the attempts it makes, the first apart. The answer is the
    error of the last one, or the status it wrote. *)
Fixpoint updateStatus (mutate : S -> S) (attempt : result E S * updateOutcome E)
    (attempts : list (result E S * updateOutcome E)) : result E S :=
  match attempt with
  | (Err e, _) => Err e
  | (Ok fresh, Updated) => Ok (mutate fresh)
  | (Ok _, UpdateFailed e) => Err e
  | (Ok _, UpdateConflict e) =>
      match attempts with
      | [] => Err e
      | next :: rest => updateStatus mutate next rest
      end
  end.

Lemma updateStatus_wrote mutate attempt attempts s :
  updateStatus mutate attempt attempts = Ok s -> exists before, s = mutate before.
Proof.
  revert attempt. induction attempts as [|next rest IH]; intros [[before|e] [|e'|e']]; simpl; try done.
  all: try (intros [= <-]; by exists before). apply IH.
Qed.
End update.

(** ** Events *)

Record clusterEvent := mkClusterEvent { ev_type : string; ev_reason : string; ev_message : string }.

Definition emitReadyEvent (recorder : bool) (previous : option Condition) (ready : Condition) : list clusterEvent :=
  if negb recorder then []
  else if match previous with
          | Some p => bool_decide (cd_Status p = cd_Status ready) && bool_decide (cd_Reason p = cd_Reason ready)
          | None => false
          end then []
  else if bool_decide (cd_Status ready = ConditionTrue) then [mkClusterEvent "Normal" EventReasonReady (cd_Message ready)]
  else if bool_decide (cd_Status ready = ConditionFalse)
  then [mkClusterEvent "Warning" EventReasonDegraded (cd_Reason ready +:+ ": " +:+ cd_Message ready)]
  else [].

Definition emitCapabilityLimitEvent (recorder : bool) (previous : option Condition) (current : Condition)
    : list clusterEvent :=
  if negb recorder || negb (bool_decide (cd_Status current = ConditionTrue)) then []
  else if match previous with
          | Some p => bool_decide (cd_Status p = cd_Status current) && bool_decide (cd_Reason p = cd_Reason current)
          | None => false
          end then []
  else [mkClusterEvent "Warning" EventReasonHistoryUnavailable (cd_Reason current +:+ ": " +:+ cd_Message current)].

(** ** Projections of API types *)

Record RedactionRule := mkRedactionRule { rr_FieldPath : string; rr_Annotation : string }.

(** [v1alpha1.EventFilter]. *)
Record EventFilter_ := mkEventFilter {
  evf_Types : list string;
  evf_Reasons : list string;
  evf_ExcludeReasons : list string;
  evf_SourceComponents : list string;
  evf_SubjectKinds : list string;
  evf_SubjectNames : list string;
}.

(** [redactionPath] of redaction.go. *)
Definition rule_path `{Strconv} (rule : RedactionRule) : string :=
  if bool_decide (rr_Annotation rule <> "") then AnnotationRedactionPath (rr_Annotation rule) else rr_FieldPath rule.

Definition canonicalRedaction `{Strconv} (sinkFloor ruleExtra : list RedactionRule) : string :=
  join (String newline "")
    (compact (merge_sort String.le
       (List.filter (fun path => bool_decide (path <> "")) (map rule_path (sinkFloor ++ ruleExtra))))).

Definition eventTypeStrings (types : list string) : list string := types.

Definition canonicalEventFilter `{FilterCodec} (filter : option EventFilter_) : result string string :=
  match filter with
  | None => Ok ""
  | Some f =>
      match CanonicalEventFilter (mkSpec (eventTypeStrings (evf_Types f)) (evf_Reasons f) (evf_ExcludeReasons f)
               (evf_SourceComponents f) (evf_SubjectKinds f) (evf_SubjectNames f)) with
      | Err e => Err ("canonicalize event filter: " +:+ e)
      | Ok canonical => Ok canonical
      end
  end.

(** ** Lemmas *)

Lemma parse_RuleKey kind namespace name :
  kind = kindStreamRule \/ kind = kindClusterStreamRule -> name <> "" ->
  string_mem "/"%char namespace = false -> string_mem "/"%char name = false ->
  parseRuleKey (RuleKey kind namespace name) = Some (kind, mkNamespacedName namespace name).
Proof.
  intros Hk Hn Hns Hnm. unfold parseRuleKey, RuleKey.
  assert (Hsl : string_mem "/"%char kind = false) by (destruct Hk as [-> | ->]; reflexivity).
  change ("/" +:+ (namespace +:+ ("/" +:+ name))) with (String "/"%char (namespace +:+ String "/"%char name)).
  rewrite !split_on_app, split_on_none by done.
  rewrite (bool_decide_eq_false_2 (name = "")) by done.
  destruct Hk as [-> | ->]; reflexivity.
Qed.

(** What a rule redacts is a line of the canonical form, and nothing else is. *)
Lemma canonicalRedaction_lines `{Strconv} floor extra raw :
  Forall (fun r => string_mem newline (rule_path r) = false) (floor ++ extra) -> raw <> "" ->
  raw ∈ split_on newline (canonicalRedaction floor extra) <-> raw ∈ map rule_path (floor ++ extra).
Proof.
  intros Hf Hne. unfold canonicalRedaction.
  set (paths := compact _).
  assert (Hin : forall p, p ∈ paths <-> p ∈ map rule_path (floor ++ extra) /\ p <> "").
  { intros p. unfold paths. rewrite elem_of_compact, merge_sort_Permutation, list_elem_of_In, filter_In, <-list_elem_of_In.
    by rewrite bool_decide_eq_true. }
  destruct paths as [|p0 paths'] eqn:Ep.
  { cbn. rewrite list_elem_of_singleton. specialize (Hin raw). rewrite elem_of_nil in Hin. naive_solver. }
  rewrite split_on_join; [rewrite Hin; naive_solver|done|].
  apply Forall_forall. intros p [Hp _]%Hin. apply list_elem_of_fmap in Hp as (r & -> & Hr).
  rewrite Forall_forall in Hf. by apply Hf.
Qed.

Section written.
Context `{ConditionLaws}.

(** The conditions of a pass are of different types. *)
Definition distinct_types (w : statusWriter) : Prop := NoDup (map cd_Type (sw_conditions w)).

Lemma set_distinct t st r m w : distinct_types w -> distinct_types (status_set t st r m w).
Proof.
  unfold distinct_types, status_set. simpl. rewrite set_types. simpl. intros Hn.
  case_decide as Hin; [done|]. apply NoDup_app. split_and!; [done| |apply NoDup_singleton].
  intros x Hx ->%list_elem_of_singleton. done.
Qed.

Lemma find_status_set t t' st r m w :
  findCondition (sw_conditions (status_set t st r m w)) t' =
  if decide (t' = t) then Some (condition t st r m (sw_generation w)) else findCondition (sw_conditions w) t'.
Proof. unfold findCondition, status_set. simpl. by rewrite find_set. Qed.

Lemma find_none l t : FindStatusCondition l t = None <-> t ∉ map cd_Type l.
Proof.
  rewrite find_first. induction l as [|c l IH]; [set_solver|]. cbn [List.filter map].
  case_bool_decide as Hc; [subst; split; [done|]; intros Hn; destruct Hn; left|].
  rewrite IH, not_elem_of_cons. naive_solver.
Qed.

Lemma find_cons c l t : FindStatusCondition (c :: l) t = if decide (t = cd_Type c) then Some c else FindStatusCondition l t.
Proof. rewrite !find_first. cbn [List.filter]. repeat case_match; try done; case_bool_decide; naive_solver. Qed.

(** What is written is what the pass decided, over what was there. *)
Lemma find_status_apply w existing t :
  distinct_types w ->
  findCondition (status_apply w existing) t =
  match findCondition (sw_conditions w) t with Some c => Some c | None => findCondition existing t end.
Proof.
  unfold distinct_types, status_apply, findCondition. generalize (sw_conditions w) as l. intros l. revert existing.
  induction l as [|c l IH]; intros existing Hn; simpl.
  - destruct (FindStatusCondition [] t) eqn:E; [|done]. by rewrite find_first in E.
  - apply NoDup_cons in Hn as [Hc Hn]. rewrite (IH _ Hn), find_set, find_cons.
    case_decide as Et; [|done]. subst t. apply find_none in Hc. by rewrite Hc.
Qed.

(** The roll-up is True exactly when no condition of the order stands against it. *)
Lemma readyFor_true status order r m :
  cd_Status (readyFor status order r m) = ConditionTrue <->
  Forall (fun t => match findCondition (sw_conditions status) t with
                   | Some c => cd_Status c = ConditionTrue
                   | None => True
                   end) order.
Proof.
  induction order as [|t order IH]; simpl; [by split|]. rewrite Forall_cons.
  destruct (findCondition (sw_conditions status) t) as [c|]; [|rewrite IH; naive_solver].
  case_bool_decide as Hc; [rewrite IH; naive_solver|]. simpl. split; [|naive_solver].
  case_match; naive_solver.
Qed.

(** A verdict that does not change is not announced again. *)
Lemma ready_event_edge recorder previous ready :
  cd_Status previous = cd_Status ready -> cd_Reason previous = cd_Reason ready ->
  emitReadyEvent recorder (Some previous) ready = [].
Proof. intros Es Er. unfold emitReadyEvent. rewrite Es, Er, !bool_decide_eq_true_2 by done. by destruct recorder. Qed.
End written.

(** ** The helpers on concrete lists *)

Module ConditionSamples.
Fixpoint set_condition (l : list Condition) (c : Condition) : list Condition :=
  match l with
  | [] => [c]
  | d :: rest => if decide (cd_Type d = cd_Type c) then c :: rest else d :: set_condition rest c
  end.

Definition sample_helpers : ConditionHelpers := {|
  SetStatusCondition := set_condition;
  FindStatusCondition l t := head (List.filter (fun c => bool_decide (cd_Type c = t)) l);
|}.

#[local] Existing Instance sample_helpers.

#[local] Instance sample_condition_laws : ConditionLaws.
Proof.
  split; [done|..].
  - intros l c t. induction l as [|d l IH]; simpl; [case_bool_decide; case_decide; naive_solver|].
    destruct (decide (cd_Type d = cd_Type c)) as [E|E]; simpl.
    + rewrite E. repeat case_bool_decide; case_decide; simpl; naive_solver.
    + case_bool_decide as Ed; simpl; [case_decide; [congruence|done]|exact IH].
  - intros l c. induction l as [|d l IH]; [done|]. simpl.
    destruct (decide (cd_Type d = cd_Type c)) as [E|E]; simpl.
    + rewrite E. by rewrite decide_True by left.
    + simpl in IH. rewrite IH. repeat case_decide; set_solver.
Qed.
End ConditionSamples.
