(* ===== verification/RuleController.v ===== *)
(** * RuleController: from rule resources to the desired-state registry

    Models [src/internal/controller/streamrule_controller.go]: the gates a StreamRule or
    ClusterStreamRule passes - sink, policy, resolution, access - the targets that
    survive them, the conditions they leave behind, and the wake-ups of parked rules;
    with the API types of [src/api/v1alpha1/shared_types.go] and
    clusterstreamrule_types.go.

    The API server is the parameter of a pass: a [cluster] holds what the reads, the
    listing of namespaces, the REST mapper, the access reviews and the status updates of
    that pass answer; answers to reviews may change from one to the next. Its errors are
    the class [APIErrors]. Metrics and logging are left out. *)

From S2P Require Import Prelude SinkManager Identity Plan GoJson Redact RedactParse EventFilter Interest Resolver Conditions.

Class APIErrors := {
  api_error : Type;
  (** [apierrors.IsNotFound] *)
  IsNotFound : api_error -> bool;
}.

(** The [String] methods of a kind and of a resource. *)
Class KindStrings := {
  GVK_String : GroupVersionKind -> string;
  GR_String : GroupResource -> string;
}.

(** ** API types *)

Record GVKSelector := mkGVKSelector { gs_Group : string; gs_Version : string; gs_Kinds : list string }.

Record SinkReference := mkSinkReference { sref_Kind : string; sref_Name : string }.

#[export] Instance SinkReference_eq_dec : EqDecision SinkReference.
Proof. solve_decision. Defined.

Record SinkPolicy := mkSinkPolicy { sp_AllowedGVKs : list GVKSelector; sp_Redaction : list RedactionRule }.

Record StreamRuleStatus := mkRuleStatus {
  rst_Conditions : list Condition;
  rst_ActiveWatches : Z;
  rst_ObservedGeneration : Z;
}.

Section types.
Context `{Selectors}.

Record WatchedResource := mkWatchedResource {
  wr_Group : string;
  wr_Version : string;
  wr_Kind : string;
  wr_LabelSelector : option LabelSelector;
  wr_EventFilter : option EventFilter_;
}.

Record StreamRuleSpec := mkRuleSpec {
  rs_Sink : SinkReference;
  rs_Resources : list WatchedResource;
  rs_ExtraRedaction : list RedactionRule;
}.

(** A StreamRule or a ClusterStreamRule: the metadata a pass reads, the shared spec and
    status, and the namespace selector only a ClusterStreamRule has. *)
Record ruleObject := mkRuleObject {
  ro_Namespace : string;
  ro_Name : string;
  ro_Generation : Z;
  ro_deleting : bool;
  ro_Spec : StreamRuleSpec;
  ro_NamespaceSelector : option LabelSelector;
  ro_Status : StreamRuleStatus;
}.

Record ruleKind := mkRuleKind {
  rk_kind : string;
  rk_scope : RuleScope;
  rk_namespaceSelector : ruleObject -> option LabelSelector;
}.

Definition streamRuleKind : ruleKind := mkRuleKind kindStreamRule NamespacedRule (fun _ => None).

Definition clusterStreamRuleKind : ruleKind := mkRuleKind kindClusterStreamRule ClusterRule ro_NamespaceSelector.
End types.

(** The sink a rule names, as far as its verdict depends on it. *)
Record resolvedSink := mkResolvedSink { rsk_policy : SinkPolicy; rsk_conditions : list Condition }.

Record sinkVerdict := mkVerdict { vd_reason : string; vd_message : string }.

Definition no_verdict : sinkVerdict := mkVerdict "" "".

Record policyDenial := mkDenial { pd_reason : string; pd_message : string }.

Definition defaultRuleResyncPeriod : Z := 120000000000.
Definition accessVerbs : list string := ["get"; "list"; "watch"].
Definition deniedGroup : string := "".
Definition deniedKind : string := "Secret".
Definition maxConditionMessage : nat := 4096.
Definition parkChannelCapacity : nat := 128.

(** [clickHouseSinkKind] and [s3SinkKind], and [sinkFetchers] as the kinds it has an
    entry for. *)
Definition clickHouseSinkKind : string := DefaultSinkKind.
Definition s3SinkKind : string := "S3Sink".
Definition sinkFetchers : list string := [clickHouseSinkKind; s3SinkKind].

Definition legacySinkRefMessage : string :=
  "This rule names no sink: spec.sink is empty, which is what a rule written " +:+
  "against v0.1.0's spec.sinkRef string field looks like once that field is pruned as unknown. " +:+
  "There is no conversion webhook and spec.sink is immutable, so it cannot be migrated in place: " +:+
  "delete this rule and recreate it with spec.sink: {kind: ClickHouseSink, name: <the old sinkRef>}.".

Definition gvkString (group version kind : string) : string :=
  if bool_decide (group = "") then version +:+ "/" +:+ kind else group +:+ "/" +:+ version +:+ "/" +:+ kind.

Definition sinkIDFrom (ref : SinkReference) : ID :=
  mkID (if bool_decide (sref_Kind ref = "") then DefaultSinkKind else sref_Kind ref) (sref_Name ref).

Definition ruleReadyOrder : list string := [ConditionPolicyAllowed; ConditionResourceResolved; ConditionRBACGranted].

Definition truncateMessage (message : string) : string :=
  if bool_decide (String.length message <= maxConditionMessage) then message
  else
    let suffix := " […truncated]" in
    String.substring 0 (maxConditionMessage - String.length suffix) message +:+ suffix.

(** ** Policy *)

Section policy.
Context `{Selectors}.

Definition policyAdmits (allowed : list GVKSelector) (res : WatchedResource) : bool :=
  existsb (fun sel =>
    bool_decide (gs_Group sel = wr_Group res) && bool_decide (gs_Version sel = wr_Version res) &&
    (bool_decide ("*" ∈ gs_Kinds sel) || bool_decide (wr_Kind res ∈ gs_Kinds sel))) allowed.

Definition is_denied (res : WatchedResource) : bool :=
  bool_decide (wr_Group res = deniedGroup) && bool_decide (wr_Kind res = deniedKind).

Definition res_text (res : WatchedResource) : string := gvkString (wr_Group res) (wr_Version res) (wr_Kind res).

Definition checkPolicy (resources : list WatchedResource) (policy : SinkPolicy) : option policyDenial :=
  match List.find is_denied resources with
  | Some res => Some (mkDenial ReasonSecretsDenied
      (res_text res +:+ " is never watchable in v1alpha1: Secrets are denied in code and no sink policy can admit them"))
  | None =>
      if bool_decide (length (sp_AllowedGVKs policy) = 0) then None
      else match List.find (fun res => negb (policyAdmits (sp_AllowedGVKs policy) res)) resources with
           | Some res => Some (mkDenial ReasonNotInAllowList (res_text res +:+ " is not in the sink's spec.policy.allowedGVKs"))
           | None => None
           end
  end.
End policy.

(** ** The world of one pass *)

Section controller.
Context `{Selectors, Strconv, FilterCodec, Schema, RESTMapping, APIErrors, KindStrings, ConditionHelpers}.
Context `{!ErrorText api_error, !ErrorText resolveError, !ErrorText string}.

Record cluster := mkCluster {
  (** the read of the rule *)
  cl_rule : result api_error ruleObject;
  (** the read of a sink, by kind and name *)
  cl_sink : string -> string -> result api_error resolvedSink;
  (** the namespaces a selector matches, each with whether it is being deleted *)
  cl_namespaces : LabelSelector -> result api_error (list (string * bool));
  (** what the mapper answers for the n-th resource of the rule, and the clock around it *)
  cl_mapper : nat -> result mapper_error (GroupVersionResource * bool) * Z * Z;
  (** the n-th access review: resource, namespace, verb *)
  cl_review : nat -> GroupVersionResource -> string -> string -> result api_error bool;
  (** the attempts at the status update *)
  cl_update : (result api_error StreamRuleStatus * updateOutcome api_error) *
              list (result api_error StreamRuleStatus * updateOutcome api_error);
}.

Inductive planError :=
| errGetSink (id : ID) (err : api_error)
| errInvalidNamespaceSelector (err : string)
| errListNamespaces (selector : string) (err : api_error)
| errReview (gvr : GroupVersionResource) (verb namespace : string) (err : api_error).

(** The [Error] method of the above. *)
Definition planError_text (e : planError) : string :=
  match e with
  | errGetSink id err => "get " +:+ ID_String id +:+ ": " +:+ error_text err
  | errInvalidNamespaceSelector err => ReasonNamespaceSelectorInvalid +:+ ": " +:+ err
  | errListNamespaces selector err => "list namespaces matching " +:+ Quote selector +:+ ": " +:+ error_text err
  | errReview gvr verb namespace err =>
      "review access to " +:+ GR_String (GVR_GroupResource gvr) +:+ " (verb " +:+ Quote verb +:+ ", namespace " +:+
      Quote namespace +:+ "): " +:+ error_text err
  end.

(** ** The sink *)

Definition resolveSink (w : cluster) (id : ID) : result planError (option resolvedSink * sinkVerdict) :=
  if negb (bool_decide (ID_Kind id ∈ sinkFetchers)) then
    Ok (None, mkVerdict ReasonSinkMissing
      ("Sink " +:+ ID_String id +:+ " does not exist: this operator serves no sink of kind " +:+ Quote (ID_Kind id)))
  else match cl_sink w (ID_Kind id) (ID_Name id) with
       | Err err =>
           if IsNotFound err
           then Ok (None, mkVerdict ReasonSinkMissing ("Sink " +:+ ID_String id +:+ " does not exist"))
           else Err (errGetSink id err)
       | Ok resolved =>
           match findCondition (rsk_conditions resolved) ConditionReady with
           | None => Ok (Some resolved, mkVerdict ReasonSinkNotReady
                                          ("Sink " +:+ ID_String id +:+ " has not reported its health yet"))
           | Some ready =>
               if negb (bool_decide (cd_Status ready = ConditionTrue))
               then Ok (Some resolved, mkVerdict ReasonSinkNotReady
                          ("Sink " +:+ ID_String id +:+ " is not ready (" +:+ cd_Reason ready +:+ ": " +:+
                           cd_Message ready +:+ ")"))
               else Ok (Some resolved, no_verdict)
           end
       end.

Definition setUnevaluated (status : statusWriter) (message : string) : statusWriter :=
  status_set ConditionHistoryUnavailable ConditionUnknown ReasonNotEvaluated message
    (foldl (fun status condType => status_set condType ConditionUnknown ReasonNotEvaluated message status)
       status ruleReadyOrder).

Definition setRuleHistoryUnavailable (status : statusWriter) (id : ID) (boundSink : resolvedSink) : statusWriter :=
  let readable := status_set ConditionHistoryUnavailable ConditionFalse ReasonHistoryReadable
                    (historyReadableRuleMessage (ID_String id)) status in
  match findCondition (rsk_conditions boundSink) ConditionHistoryUnavailable with
  | None => readable
  | Some reported =>
      if bool_decide (cd_Status reported = ConditionTrue) then
        status_set ConditionHistoryUnavailable ConditionTrue ReasonWriterOnlySink
          (writerOnlySinkRuleMessage (ID_String id)) status
      else if bool_decide (cd_Status reported = ConditionUnknown) then
        status_set ConditionHistoryUnavailable ConditionUnknown (cd_Reason reported)
          ("Sink " +:+ ID_String id +:+ " has not reported whether it can reconstruct history: " +:+ cd_Message reported) status
      else readable
  end.

(** ** Namespaces and resources *)

Definition targetNamespaces (k : ruleKind) (w : cluster) (obj : ruleObject) : result planError (list string) :=
  match rk_scope k with
  | NamespacedRule => Ok [ro_Namespace obj]
  | ClusterRule =>
      match rk_namespaceSelector k obj with
      | None => Ok [""]
      | Some selector =>
          match as_selector selector with
          | Err err => Err (errInvalidNamespaceSelector err)
          | Ok text =>
              match cl_namespaces w selector with
              | Err err => Err (errListNamespaces text err)
              | Ok items => Ok (merge_sort String.le (map fst (List.filter (fun ns => negb (snd ns)) items)))
              end
          end
      end
  end.

Definition namespacesFor (namespaced : bool) (expanded : list string) : list string :=
  if negb namespaced then [""] else expanded.

Record resolvedResource := mkResolvedResource {
  rr_gvk : GroupVersionKind;
  rr_gvr : GroupVersionResource;
  rr_selector : string;
  rr_eventFilter : string;
  rr_namespaces : list string;
}.

(** The verdict on one resource, the n-th of the rule: the resource or the failure to
    report, and the resolver afterwards. *)
Definition resolveResource (k : ruleKind) (w : cluster) (namespaces : list string) (n : nat) (res : WatchedResource)
    (rv : Resolver) : result string resolvedResource * Resolver :=
  let gvk := mkGVK (wr_Group res) (wr_Version res) (wr_Kind res) in
  let '(answer, now, later) := cl_mapper w n in
  let '(mapping, rv) := ResolveForScope answer now later gvk (rk_scope k) rv in
  match mapping with
  | Err err => (Err (GVK_String gvk +:+ ": " +:+ error_text err), rv)
  | Ok (gvr, namespaced) =>
      match CanonicalSelector (wr_LabelSelector res) with
      | Err err => (Err (GVK_String gvk +:+ ": " +:+ err), rv)
      | Ok selector =>
          match canonicalEventFilter (wr_EventFilter res) with
          | Err err => (Err (GVK_String gvk +:+ ": " +:+ err), rv)
          | Ok eventFilter =>
              (Ok (mkResolvedResource gvk gvr selector eventFilter (namespacesFor namespaced namespaces)), rv)
          end
      end
  end.

Fixpoint resolve_loop (k : ruleKind) (w : cluster) (namespaces : list string) (n : nat) (resources : list WatchedResource)
    (rv : Resolver) : list (result string resolvedResource) * Resolver :=
  match resources with
  | [] => ([], rv)
  | res :: rest =>
      let '(verdict, rv) := resolveResource k w namespaces n res rv in
      let '(verdicts, rv) := resolve_loop k w namespaces (S n) rest rv in
      (verdict :: verdicts, rv)
  end.

Definition oks {E A} (l : list (result E A)) : list A := omap (fun r => match r with Ok a => Some a | Err _ => None end) l.
Definition errs {E A} (l : list (result E A)) : list E := omap (fun r => match r with Ok _ => None | Err e => Some e end) l.

Definition resolveResources (k : ruleKind) (w : cluster) (namespaces : list string) (resources : list WatchedResource)
    (rv : Resolver) : list resolvedResource * list string * Resolver :=
  let '(verdicts, rv) := resolve_loop k w namespaces 0 resources rv in
  (oks verdicts, errs verdicts, rv).

(** ** Access *)

(** [review]; [n] counts the reviews of the pass. *)
Definition review (w : cluster) (n : nat) (gvr : GroupVersionResource) (namespace verb : string) : result planError bool :=
  match cl_review w n gvr namespace verb with
  | Err err => Err (errReview gvr verb namespace err)
  | Ok allowed => Ok allowed
  end.

(** The verbs that are missing, and the reviews made so far. *)
Fixpoint review_verbs (w : cluster) (gvr : GroupVersionResource) (namespace : string) (verbs : list string) (n : nat)
    (missing : list string) : result planError (list string) * nat :=
  match verbs with
  | [] => (Ok missing, n)
  | verb :: rest =>
      match review w n gvr "" verb with
      | Err e => (Err e, S n)
      | Ok true => review_verbs w gvr namespace rest (S n) missing
      | Ok false =>
          if bool_decide (namespace = "") then review_verbs w gvr namespace rest (S n) (missing ++ [verb])
          else match review w (S n) gvr namespace verb with
               | Err e => (Err e, S (S n))
               | Ok allowed => review_verbs w gvr namespace rest (S (S n)) (if allowed then missing else missing ++ [verb])
               end
      end
  end.

Definition reviewTarget (w : cluster) (gvr : GroupVersionResource) (namespace : string) (n : nat)
    : result planError string * nat :=
  let '(missing, n) := review_verbs w gvr namespace accessVerbs n [] in
  match missing with
  | Err e => (Err e, n)
  | Ok missing =>
      if bool_decide (length missing = 0) then (Ok "", n)
      else
        let scope := if bool_decide (namespace = "") then "at cluster scope" else "in namespace " +:+ Quote namespace in
        (Ok (GR_String (GVR_GroupResource gvr) +:+ ": missing " +:+ join "," missing +:+ " " +:+ scope), n)
  end.

Definition review_key (gvr : GroupVersionResource) (namespace : string) : string := GVR_String gvr +:+ "|" +:+ namespace.

Definition target_of (sinkID : ID) (redaction : string) (res : resolvedResource) (namespace : string) : WatchTarget :=
  mkWatchTarget sinkID (rr_gvk res) namespace (rr_selector res) redaction (rr_eventFilter res).

(** The two nested loops of [reviewTargets], over the pairs they visit. *)
Fixpoint review_loop (w : cluster) (sinkID : ID) (redaction : string) (pairs : list (resolvedResource * string))
    (seen : gmap string string) (n : nat) (targets : list WatchTarget) (denials : list string)
    : result planError (list WatchTarget * list string) :=
  match pairs with
  | [] => Ok (targets, denials)
  | (res, namespace) :: rest =>
      let cacheKey := review_key (rr_gvr res) namespace in
      let '(verdict, n) := match seen !! cacheKey with
                           | Some denial => (Ok denial, n)
                           | None => reviewTarget w (rr_gvr res) namespace n
                           end in
      match verdict with
      | Err e => Err e
      | Ok denial =>
          let seen := <[cacheKey := denial]> seen in
          if bool_decide (denial <> "")
          then review_loop w sinkID redaction rest seen n targets
                 (if bool_decide (denial ∈ denials) then denials else denials ++ [denial])
          else review_loop w sinkID redaction rest seen n (targets ++ [target_of sinkID redaction res namespace]) denials
      end
  end.

Definition expand (resolved : list resolvedResource) : list (resolvedResource * string) :=
  resolved ≫= fun res => map (pair res) (rr_namespaces res).

Definition reviewTargets (w : cluster) (sinkID : ID) (resolved : list resolvedResource) (redaction : string)
    : result planError (list WatchTarget * list string) :=
  review_loop w sinkID redaction (expand resolved) ∅ 0 [] [].

(** ** The gates *)

Definition setGateCondition (status : statusWriter) (condType : string) (failures : list string)
    (trueReason trueMessage falseReason : string) : statusWriter :=
  if bool_decide (length failures = 0) then status_set condType ConditionTrue trueReason trueMessage status
  else status_set condType ConditionFalse falseReason (truncateMessage (join "; " failures)) status.

Record planOutcome := mkOutcome {
  po_targets : list WatchTarget;
  po_verdict : sinkVerdict;
  po_install : bool;
  po_err : option planError;
}.

Definition plan (k : ruleKind) (w : cluster) (obj : ruleObject) (status : statusWriter) (rv : Resolver)
    : planOutcome * statusWriter * Resolver :=
  let spec := ro_Spec obj in
  if bool_decide (rs_Sink spec = mkSinkReference "" "") then
    (mkOutcome [] (mkVerdict ReasonLegacySinkRef legacySinkRefMessage) true None,
     setUnevaluated status legacySinkRefMessage, rv)
  else
    let sinkID := sinkIDFrom (rs_Sink spec) in
    match resolveSink w sinkID with
    | Err e => (mkOutcome [] no_verdict false (Some e), status, rv)
    | Ok (None, verdict) => (mkOutcome [] verdict true None, setUnevaluated status (vd_message verdict), rv)
    | Ok (Some boundSink, verdict) =>
        let status := setRuleHistoryUnavailable status sinkID boundSink in
        match checkPolicy (rs_Resources spec) (rsk_policy boundSink) with
        | Some denied =>
            (mkOutcome [] verdict true None,
             status_set ConditionRBACGranted ConditionUnknown ReasonNotEvaluated
               "Access is not reviewed while the sink's policy denies this rule"
               (status_set ConditionResourceResolved ConditionUnknown ReasonNotEvaluated
                  "Resources are not resolved while the sink's policy denies this rule"
                  (status_set ConditionPolicyAllowed ConditionFalse (pd_reason denied) (pd_message denied) status)), rv)
        | None =>
            let status := status_set ConditionPolicyAllowed ConditionTrue ReasonAllResourcesPermitted
                            ("Every resource this rule names is admitted by sink " +:+ ID_String sinkID) status in
            match targetNamespaces k w obj with
            | Err (errInvalidNamespaceSelector err) =>
                (mkOutcome [] verdict true None,
                 status_set ConditionResourceResolved ConditionFalse ReasonNamespaceSelectorInvalid
                   (planError_text (errInvalidNamespaceSelector err)) status, rv)
            | Err e =>
                (mkOutcome [] verdict false (Some e),
                 status_set ConditionResourceResolved ConditionUnknown ReasonNamespacesUnavailable (planError_text e) status, rv)
            | Ok namespaces =>
                let '(resolved, resolveFailures, rv) := resolveResources k w namespaces (rs_Resources spec) rv in
                let status := setGateCondition status ConditionResourceResolved resolveFailures ReasonAllKindsResolved
                                "Every kind this rule names resolved to a watchable resource" ReasonKindsUnresolved in
                let redaction := canonicalRedaction (sp_Redaction (rsk_policy boundSink)) (rs_ExtraRedaction spec) in
                match reviewTargets w sinkID resolved redaction with
                | Err e =>
                    (mkOutcome [] verdict false (Some e),
                     status_set ConditionRBACGranted ConditionUnknown ReasonAccessReviewFailed (planError_text e) status, rv)
                | Ok (targets, denials) =>
                    (mkOutcome targets verdict true None,
                     setGateCondition status ConditionRBACGranted denials ReasonAllVerbsGranted
                       "The operator may get, list and watch every resource this rule names" ReasonMissingPermissions, rv)
                end
            end
        end
    end.

Definition readyCondition (status : statusWriter) (verdict : sinkVerdict) : Condition :=
  if bool_decide (vd_reason verdict <> "")
  then condition ConditionReady ConditionFalse (vd_reason verdict) (vd_message verdict) (sw_generation status)
  else readyFor status ruleReadyOrder ReasonStreaming
         "Every resource this rule names is admitted, resolved, permitted and installed in the watch plan".

(** ** Reconcile *)

(** What the pass changes outside the API server. *)
Record controlState := mkControl { cs_registry : Registry; cs_resolver : Resolver }.

(** Whether a recorder is wired, and the configured resync period. *)
Record reconcilerConfig := mkReconciler { rc_recorder : bool; rc_ResyncPeriod : Z }.

Definition resyncPeriod (r : reconcilerConfig) : Z :=
  if bool_decide (0 < rc_ResyncPeriod r)%Z then rc_ResyncPeriod r else defaultRuleResyncPeriod.

Inductive reconcileError := errGetRule (err : api_error) | errUpdateStatus (err : api_error) | errPlan (err : planError).

Inductive reconcileResult := Done | RequeueAfter (delay : Z) | Failed (err : reconcileError).

(** The result of a pass, the events it emitted and the status it wrote. *)
Record passResult := mkPass { pr_result : reconcileResult; pr_events : list clusterEvent; pr_written : option StreamRuleStatus }.

Definition i32_wrap (z : Z) : Z := ((z + 2 ^ 31) `mod` 2 ^ 32 - 2 ^ 31)%Z.

Definition Reconcile (r : reconcilerConfig) (k : ruleKind) (req : NamespacedName) (w : cluster) (s : controlState)
    : passResult * controlState :=
  let ruleKey := RuleKey (rk_kind k) (nn_Namespace req) (nn_Name req) in
  let withdraw := mkControl (Remove ruleKey (cs_registry s)) (cs_resolver s) in
  match cl_rule w with
  | Err err => if IsNotFound err then (mkPass Done [] None, withdraw) else (mkPass (Failed (errGetRule err)) [] None, s)
  | Ok obj =>
      if ro_deleting obj then (mkPass Done [] None, withdraw)
      else
        let '(outcome, status, rv) := plan k w obj (mkStatusWriter [] (ro_Generation obj)) (cs_resolver s) in
        let '(registry, status) :=
          if po_install outcome
          then match Upsert ruleKey (po_targets outcome) (cs_registry s) with
               | Ok registry => (registry, status)
               | Err err => (cs_registry s, status_set ConditionResourceResolved ConditionFalse ReasonInvalidSelector (error_text err) status)
               end
          else (cs_registry s, status) in
        let s' := mkControl registry rv in
        let previousReady := findCondition (rst_Conditions (ro_Status obj)) ConditionReady in
        let ready := readyCondition status (po_verdict outcome) in
        let status := status_set ConditionReady (cd_Status ready) (cd_Reason ready) (cd_Message ready) status in
        let activeWatches := i32_wrap (Z.of_nat (TargetCountForRule ruleKey registry)) in
        let mutate fresh := mkRuleStatus (status_apply status (rst_Conditions fresh)) activeWatches (sw_generation status) in
        match updateStatus mutate (fst (cl_update w)) (snd (cl_update w)) with
        | Err err => (mkPass (Failed (errUpdateStatus err)) [] None, s')
        | Ok written =>
            (mkPass (match po_err outcome with Some e => Failed (errPlan e) | None => RequeueAfter (resyncPeriod r) end)
               (emitReadyEvent (rc_recorder r) previousReady ready) (Some written), s')
        end
  end.

(** ** Waking rules *)

Definition requestsFor (objs : list ruleObject) : list NamespacedName :=
  map (fun obj => mkNamespacedName (ro_Namespace obj) (ro_Name obj)) objs.

(** [rules] is what listing the rules of the kind answers; the field index keeps those
    whose [spec.sink.name] is the sink's. *)
Definition rulesForSink (rules : result api_error (list ruleObject)) (name : string) : list NamespacedName :=
  match rules with
  | Err _ => []
  | Ok items => requestsFor (List.filter (fun obj => bool_decide (sref_Name (rs_Sink (ro_Spec obj)) = name)) items)
  end.

Definition rulesForNamespace (rules : result api_error (list ruleObject)) : list NamespacedName :=
  match rules with
  | Err _ => []
  | Ok items => requestsFor (List.filter (fun obj => match ro_NamespaceSelector obj with Some _ => true | None => false end) items)
  end.
End controller.

(** [Parker]: the wake-up channel of each registered rule kind. *)
Abbreviation Parker := (gmap string (list NamespacedName)).

(** [NewParker]; a reconciler whose channel was not created is [None]. *)
Definition NewParker (reconcilers : list (option (string * list NamespacedName))) : Parker :=
  foldl (fun p r => match r with Some (kind, events) => <[kind := events]> p | None => p end) ∅ reconcilers.

(** [Parker.SinkGone]: a non-blocking send per rule. *)
Definition SinkGone (ruleKeys : list string) (p : Parker) : Parker :=
  foldl (fun p key =>
    match parseRuleKey key with
    | None => p
    | Some (kind, ref) =>
        match p !! kind with
        | None => p
        | Some events => if bool_decide (length events < parkChannelCapacity) then <[kind := events ++ [ref]]> p else p
        end
    end) p ruleKeys.
