(* ===== verification/RuleSpec.v ===== *)
(** * RuleSpec: what a rule contributes, and when it may call itself ready

    Lemmas and properties of [RuleController]: which targets survive the gates of a
    pass, what the rule's contribution to the registry is afterwards, and what its
    conditions say about it. *)

From S2P Require Import Prelude SinkManager Identity Plan GoJson Redact RedactParse EventFilter Interest Resolver Conditions RuleController.

(** A selector's rendered form parses to itself. *)
Class SelectorLaws `{Selectors} := {
  selector_fixed : forall ls s, as_selector ls = Ok s -> canonicalizeSelectorString s = Ok s;
}.

Section rules.
Context `{Selectors, Strconv, FilterCodec, Schema, RESTMapping, APIErrors, KindStrings, ConditionHelpers}.
Context `{!ErrorText api_error, !ErrorText resolveError, !ErrorText string}.
Implicit Types (w : cluster) (k : ruleKind) (obj : ruleObject) (rv : Resolver).

(** ** Access *)

(** A review of the pass granted the verb, cluster-wide or in the namespace. *)
Definition allowed_verb w (gvr : GroupVersionResource) (ns verb : string) : Prop :=
  exists n, cl_review w n gvr "" verb = Ok true \/ (ns <> "" /\ cl_review w n gvr ns verb = Ok true).

(** The reviews of the pass refused it, cluster-wide and in the namespace. *)
Definition refused_verb w (gvr : GroupVersionResource) (ns verb : string) : Prop :=
  (exists n, cl_review w n gvr "" verb = Ok false) /\ (ns <> "" -> exists n, cl_review w n gvr ns verb = Ok false).

Definition granted w gvr ns : Prop := forall verb, verb ∈ accessVerbs -> allowed_verb w gvr ns verb.
Definition refused w gvr ns : Prop := exists verb, verb ∈ accessVerbs /\ refused_verb w gvr ns verb.

Lemma review_verbs_spec w gvr ns verbs n missing missing' n' :
  review_verbs w gvr ns verbs n missing = (Ok missing', n') ->
  exists l, missing' = missing ++ l /\ (forall verb, verb ∈ l -> verb ∈ verbs /\ refused_verb w gvr ns verb) /\
    (forall verb, verb ∈ verbs -> verb ∈ l \/ allowed_verb w gvr ns verb).
Proof.
  revert n missing. induction verbs as [|verb verbs IH]; intros n missing; simpl.
  { intros [= <- <-]. exists []. rewrite app_nil_r. set_solver. }
  assert (Hskip : forall n, allowed_verb w gvr ns verb -> review_verbs w gvr ns verbs n missing = (Ok missing', n') ->
    exists l, missing' = missing ++ l /\ (forall v, v ∈ l -> v ∈ verb :: verbs /\ refused_verb w gvr ns v) /\
      (forall v, v ∈ verb :: verbs -> v ∈ l \/ allowed_verb w gvr ns v)).
  { intros m Ha (l & -> & A1 & A2)%IH. exists l. split_and!; [done| |].
    - intros v Hv. destruct (A1 v Hv). split; [by right|done].
    - intros v [-> | Hv]%elem_of_cons; auto. }
  assert (Hadd : forall n, refused_verb w gvr ns verb -> review_verbs w gvr ns verbs n (missing ++ [verb]) = (Ok missing', n') ->
    exists l, missing' = missing ++ l /\ (forall v, v ∈ l -> v ∈ verb :: verbs /\ refused_verb w gvr ns v) /\
      (forall v, v ∈ verb :: verbs -> v ∈ l \/ allowed_verb w gvr ns v)).
  { intros m Hr (l & -> & A1 & A2)%IH. exists (verb :: l). rewrite <-app_assoc. split_and!; [done| |].
    - intros v [-> | Hv]%elem_of_cons; [split; [left|done]|]. destruct (A1 v Hv). split; [by right|done].
    - intros v [-> | Hv]%elem_of_cons; [left; left|]. destruct (A2 v Hv); [left; by right|by right]. }
  unfold review. destruct (cl_review w n gvr "" verb) as [[|]|] eqn:E1; [|case_bool_decide as Hns|done].
  - apply Hskip. exists n. by left.
  - apply Hadd. split; [eauto|done].
  - destruct (cl_review w (S n) gvr ns verb) as [[|]|] eqn:E2; [| |done].
    + apply Hskip. exists (S n). by right.
    + apply Hadd. split; eauto.
Qed.

Lemma reviewTarget_spec w gvr ns n denial n' :
  reviewTarget w gvr ns n = (Ok denial, n') ->
  if bool_decide (denial = "") then granted w gvr ns else refused w gvr ns.
Proof.
  unfold reviewTarget. destruct (review_verbs w gvr ns accessVerbs n []) as [[missing|] m] eqn:E; [|done].
  apply review_verbs_spec in E as (l & -> & Hr & Ha). simpl. case_bool_decide as Hl.
  - intros [= <- <-]. rewrite bool_decide_eq_true_2 by done. intros verb Hv.
    destruct (Ha verb Hv) as [Hin|?]; [|done]. destruct l; [by apply elem_of_nil in Hin|done].
  - intros [= <- <-]. rewrite bool_decide_eq_false_2.
    + destruct l as [|verb l]; [done|]. exists verb. apply Hr. left.
    + intros Hd. apply (f_equal String.length) in Hd. rewrite !string_length_app in Hd. simpl in Hd. lia.
Qed.

(** No two targets of the pass share a place in the cache of verdicts. *)
Definition keys_apart (pairs : list (resolvedResource * string)) : Prop :=
  forall p q, p ∈ pairs -> q ∈ pairs -> review_key (rr_gvr p.1) p.2 = review_key (rr_gvr q.1) q.2 ->
    rr_gvr p.1 = rr_gvr q.1 /\ p.2 = q.2.

Definition pair_granted w (p : resolvedResource * string) : Prop := granted w (rr_gvr p.1) p.2.
Definition pair_refused w (p : resolvedResource * string) : Prop := refused w (rr_gvr p.1) p.2.

(** The cached verdicts are those of targets already visited. *)
Definition cached w (pairs : list (resolvedResource * string)) (seen : gmap string string) : Prop :=
  forall key denial, seen !! key = Some denial -> exists p, p ∈ pairs /\ key = review_key (rr_gvr p.1) p.2 /\
    if bool_decide (denial = "") then pair_granted w p else pair_refused w p.

Lemma review_loop_spec w sinkID redaction all pairs seen n targets denials targets' denials' :
  keys_apart all -> pairs ⊆ all -> cached w all seen ->
  review_loop w sinkID redaction pairs seen n targets denials = Ok (targets', denials') ->
  exists kept, targets' = targets ++ map (fun p => target_of sinkID redaction p.1 p.2) kept /\ sublist kept pairs /\
    (forall p, p ∈ kept -> pair_granted w p) /\ (forall p, p ∈ pairs -> p ∈ kept \/ pair_refused w p) /\
    (denials' = [] <-> denials = [] /\ kept = pairs) /\ (Forall (fun p => ~ pair_refused w p) pairs -> kept = pairs).
Proof.
  intros Hk. revert seen n targets denials.
  induction pairs as [|[res ns] pairs IH]; intros seen n targets denials Hsub Hc; cbn [review_loop].
  { intros [= <- <-]. exists []. rewrite app_nil_r. split_and!; [done|constructor|set_solver..|naive_solver|done]. }
  assert (Hin : (res, ns) ∈ all) by (apply Hsub; left).
  set (key := review_key (rr_gvr res) ns).
  destruct (match seen !! key with Some denial => (Ok denial, n) | None => reviewTarget w (rr_gvr res) ns n end)
    as [[denial|] m] eqn:Ev; [|done].
  assert (Hd : if bool_decide (denial = "") then pair_granted w (res, ns) else pair_refused w (res, ns)).
  { destruct (seen !! key) as [d|] eqn:Es; [|by eapply reviewTarget_spec].
    injection Ev as -> _. destruct (Hc _ _ Es) as (p & Hp & Ek & Hv).
    destruct (Hk (res, ns) p Hin Hp Ek) as [E1 E2]. unfold pair_granted, pair_refused in *. simpl in *.
    by rewrite E1, E2. }
  assert (Hc' : cached w all (<[key := denial]> seen)).
  { intros key' d. destruct (decide (key' = key)) as [->|Hne].
    - rewrite lookup_insert_eq. intros [= <-]. by exists (res, ns).
    - rewrite lookup_insert_ne by done. apply Hc. }
  assert (Hsub' : pairs ⊆ all) by set_solver.
  destruct (decide (denial = "")) as [-> | Hne].
  - rewrite bool_decide_eq_true_2 in Hd by done. rewrite bool_decide_eq_false_2 by auto.
    intros (kept & -> & A1 & A2 & A3 & A4 & A5)%IH; [|done..].
    exists ((res, ns) :: kept). rewrite <-app_assoc. split_and!; [done|by constructor| | | |].
    + intros p [-> | Hp]%elem_of_cons; auto.
    + intros p [-> | Hp]%elem_of_cons; [left; left|]. destruct (A3 p Hp); [left; by right|by right].
    + rewrite A4. naive_solver.
    + intros [_ Hf]%Forall_cons. by rewrite A5.
  - rewrite bool_decide_eq_false_2 in Hd by done. rewrite bool_decide_eq_true_2 by done.
    intros (kept & -> & A1 & A2 & A3 & A4 & A5)%IH; [|done..].
    exists kept. split_and!; [done|by apply sublist_cons|done| | |].
    + intros p [-> | Hp]%elem_of_cons; [by right|auto].
    + apply sublist_length in A1. split.
      * intros [Hden _]%A4. exfalso. case_bool_decide as Hin'; [by rewrite Hden in Hin'; apply elem_of_nil in Hin'|].
        by destruct denials.
      * intros [_ ->]. simpl in A1. lia.
    + by intros [Hf _]%Forall_cons.
Qed.

Lemma reviewTargets_spec w sinkID resolved redaction targets denials :
  keys_apart (expand resolved) -> reviewTargets w sinkID resolved redaction = Ok (targets, denials) ->
  exists kept, targets = map (fun p => target_of sinkID redaction p.1 p.2) kept /\ sublist kept (expand resolved) /\
    (forall p, p ∈ kept -> pair_granted w p) /\ (forall p, p ∈ expand resolved -> p ∈ kept \/ pair_refused w p) /\
    (denials = [] <-> kept = expand resolved) /\ (Forall (fun p => ~ pair_refused w p) (expand resolved) -> kept = expand resolved).
Proof.
  intros Hk Hr. destruct (review_loop_spec w sinkID redaction (expand resolved) (expand resolved) ∅ 0 [] [] targets denials)
    as (kept & -> & A1 & A2 & A3 & A4 & A5); [done|done|by intros ?? ?|done|].
  exists kept. split_and!; [done..| |done]. rewrite A4. naive_solver.
Qed.

(** ** Resolution *)

(** The verdicts on the rule's resources, in their order. *)
Definition verdicts k w nss resources rv : list (result string resolvedResource) :=
  (resolve_loop k w nss 0 resources rv).1.

(** What a resource must be for it to be watched, and as what. *)
Record resolves_to k w nss (n : nat) (res : WatchedResource) (rr : resolvedResource) : Prop := {
  rt_gvk : rr_gvk rr = mkGVK (wr_Group res) (wr_Version res) (wr_Kind res);
  rt_selector : CanonicalSelector (wr_LabelSelector res) = Ok (rr_selector rr);
  rt_filter : canonicalEventFilter (wr_EventFilter res) = Ok (rr_eventFilter rr);
  rt_mapped : exists namespaced, (cl_mapper w n).1.1 = Ok (rr_gvr rr, namespaced) /\
    rr_namespaces rr = namespacesFor namespaced nss /\ (rk_scope k = NamespacedRule -> namespaced = true);
}.

Lemma resolveResource_fields k w nss n res rv rr rv' :
  resolveResource k w nss n res rv = (Ok rr, rv') -> resolves_to k w nss n res rr.
Proof.
  unfold resolveResource. destruct (cl_mapper w n) as [[answer now] later] eqn:Em.
  unfold ResolveForScope, Resolve. destruct (gatedError _ now rv); [done|]. destruct answer as [[gvr namespaced]|]; [|done].
  destruct (checkScope _ _ _ _) eqn:Ec; [done|]. destruct (CanonicalSelector _) eqn:Es; [|done].
  destruct (canonicalEventFilter _) eqn:Ef; [|done]. intros [= <- <-]. split; [done..|].
  exists namespaced. rewrite Em. split_and!; [done..|]. intros Hk. rewrite Hk in Ec. simpl in Ec. by destruct namespaced.
Qed.

Lemma resolve_loop_spec k w nss n resources rv :
  length (resolve_loop k w nss n resources rv).1 = length resources /\
  forall i rr, (resolve_loop k w nss n resources rv).1 !! i = Some (Ok rr) ->
    exists res, resources !! i = Some res /\ resolves_to k w nss (n + i) res rr.
Proof.
  revert n rv. induction resources as [|res resources IH]; intros n rv; simpl; [done|].
  destruct (resolveResource k w nss n res rv) as [verdict rv'] eqn:E.
  specialize (IH (S n) rv'). destruct (resolve_loop k w nss (S n) resources rv') as [vs rv'']. simpl in *.
  destruct IH as [Hl IH]. split; [by rewrite Hl|]. intros [|i] rr; simpl.
  - intros [= ->]. exists res. rewrite Nat.add_0_r. split; [done|]. by eapply resolveResource_fields.
  - intros Hi. destruct (IH i rr Hi) as (res' & ? & ?). exists res'. by rewrite Nat.add_succ_r.
Qed.

Lemma elem_of_oks {E A} (l : list (result E A)) a : a ∈ oks l <-> exists i, l !! i = Some (Ok a).
Proof.
  unfold oks. rewrite list_elem_of_omap. split.
  - intros ([a'|] & Hin & [= ->]). by apply list_elem_of_lookup in Hin.
  - intros [i Hi]. exists (Ok a). split; [by eapply list_elem_of_lookup_2|done].
Qed.

(** ** What a pass installs *)

Definition sink_of obj : ID := sinkIDFrom (rs_Sink (ro_Spec obj)).

(** The gates every resource of the rule must pass together. *)
Record admission k w obj (bound : resolvedSink) (verdict : sinkVerdict) (nss : list string) : Prop := {
  ad_named : rs_Sink (ro_Spec obj) <> mkSinkReference "" "";
  ad_sink : resolveSink w (sink_of obj) = Ok (Some bound, verdict);
  ad_policy : checkPolicy (rs_Resources (ro_Spec obj)) (rsk_policy bound) = None;
  ad_namespaces : targetNamespaces k w obj = Ok nss;
}.

(** The places the rule asks to watch, once admitted. *)
Definition places k w obj nss rv : list (resolvedResource * string) :=
  expand (oks (verdicts k w nss (rs_Resources (ro_Spec obj)) rv)).

Definition redaction_of obj (bound : resolvedSink) : string :=
  canonicalRedaction (sp_Redaction (rsk_policy bound)) (rs_ExtraRedaction (ro_Spec obj)).

Definition place_target obj (bound : resolvedSink) (p : resolvedResource * string) : WatchTarget :=
  target_of (sink_of obj) (redaction_of obj bound) p.1 p.2.

Definition keyed_apart k w obj rv : Prop :=
  forall nss, targetNamespaces k w obj = Ok nss -> keys_apart (places k w obj nss rv).

Lemma plan_targets k w obj status rv outcome status' rv' :
  keyed_apart k w obj rv -> plan k w obj status rv = (outcome, status', rv') ->
  (po_install outcome = true <-> po_err outcome = None) /\
  (po_install outcome = true ->
     (po_targets outcome = [] /\ ~ exists bound verdict nss, admission k w obj bound verdict nss) \/
     exists bound verdict nss kept, admission k w obj bound verdict nss /\
       po_targets outcome = map (place_target obj bound) kept /\ sublist kept (places k w obj nss rv) /\
       (forall p, p ∈ kept -> pair_granted w p) /\ (forall p, p ∈ places k w obj nss rv -> p ∈ kept \/ pair_refused w p)).
Proof.
  intros Hk. unfold plan. fold (sink_of obj). case_bool_decide as Hl.
  { intros [= <- _ _]. split; [done|]. intros _. left. split; [done|]. by intros (? & ? & ? & []). }
  destruct (resolveSink w (sink_of obj)) as [[[bound|] verdict]|e] eqn:Es; cycle 1.
  { intros [= <- _ _]. split; [done|]. intros _. left. split; [done|]. intros (? & ? & ? & [? E ? ?]). congruence. }
  { by intros [= <- _ _]. }
  destruct (checkPolicy _ _) as [denied|] eqn:Ep.
  { intros [= <- _ _]. split; [done|]. intros _. left. split; [done|]. intros (? & ? & ? & [? E ? ?]). congruence. }
  destruct (targetNamespaces k w obj) as [nss|e] eqn:En; cycle 1.
  { destruct e; intros [= <- _ _]; (split; [done|]); try done.
    intros _. left. split; [done|]. intros (? & ? & ? & [? ? ? E]). congruence. }
  unfold resolveResources. destruct (resolve_loop k w nss 0 _ rv) as [vs rv''] eqn:Ev.
  destruct (reviewTargets _ _ _ _) as [[targets denials]|e] eqn:Er; [|by intros [= <- _ _]].
  intros [= <- _ _]. split; [done|]. intros _. right.
  specialize (Hk nss En). unfold places, verdicts in *. rewrite Ev in *. simpl in *.
  apply reviewTargets_spec in Er as (kept & -> & A1 & A2 & A3 & _); [|done].
  exists bound, verdict, nss, kept. split; [split; done|]. rewrite Ev. done.
Qed.

(** ** Conditions *)

Context `{!ConditionLaws}.

(** The status of a condition the pass decided. *)
Definition decided (status : statusWriter) (t : string) : option string :=
  cd_Status <$> findCondition (sw_conditions status) t.

Lemma decided_set t t' st r m status :
  decided (status_set t st r m status) t' = if decide (t' = t) then Some st else decided status t'.
Proof. unfold decided. rewrite find_status_set. by case_decide. Qed.

Lemma decided_gate t t' status failures r m f :
  decided (setGateCondition status t failures r m f) t' =
  if decide (t' = t) then Some (if bool_decide (failures = []) then ConditionTrue else ConditionFalse) else decided status t'.
Proof.
  unfold setGateCondition. destruct failures; simpl; rewrite decided_set; by case_decide.
Qed.

Lemma decided_history status id bound t :
  t <> ConditionHistoryUnavailable -> decided (setRuleHistoryUnavailable status id bound) t = decided status t.
Proof.
  intros Ht. unfold setRuleHistoryUnavailable. repeat case_match; rewrite decided_set; by rewrite decide_False.
Qed.

Lemma ready_true status verdict :
  cd_Status (readyCondition status verdict) = ConditionTrue <->
  vd_reason verdict = "" /\ Forall (fun t => default ConditionTrue (decided status t) = ConditionTrue) ruleReadyOrder.
Proof.
  unfold readyCondition. case_bool_decide as Hr.
  - split; [done|]. naive_solver.
  - rewrite readyFor_true. split.
    + intros Hf. split; [destruct (decide (vd_reason verdict = "")); [done|by destruct Hr]|]. eapply Forall_impl; [exact Hf|]. intros t. simpl. unfold decided.
      by destruct (findCondition _ _).
    + intros [_ Hf]. eapply Forall_impl; [exact Hf|]. intros t. simpl. unfold decided. by destruct (findCondition _ _).
Qed.

Lemma resolveSink_verdict w id bound verdict :
  resolveSink w id = Ok (bound, verdict) ->
  match bound with Some _ => vd_reason verdict = "" -> verdict = no_verdict | None => vd_reason verdict <> "" end.
Proof. unfold resolveSink. intros E. repeat case_match; simplify_eq; done. Qed.

(** The plan's conditions are all True exactly for a rule that passed every gate whole. *)
Lemma plan_ready k w obj gen rv outcome status rv' :
  keyed_apart k w obj rv -> plan k w obj (mkStatusWriter [] gen) rv = (outcome, status, rv') -> po_err outcome = None ->
  (cd_Status (readyCondition status (po_verdict outcome)) = ConditionTrue ->
     exists bound nss, admission k w obj bound no_verdict nss /\ errs (verdicts k w nss (rs_Resources (ro_Spec obj)) rv) = [] /\
       Forall (pair_granted w) (places k w obj nss rv) /\
       po_targets outcome = map (place_target obj bound) (places k w obj nss rv)) /\
  (forall bound nss, admission k w obj bound no_verdict nss -> errs (verdicts k w nss (rs_Resources (ro_Spec obj)) rv) = [] ->
     Forall (fun p => ~ pair_refused w p) (places k w obj nss rv) ->
     cd_Status (readyCondition status (po_verdict outcome)) = ConditionTrue).
Proof.
  intros Hk. rewrite ready_true. unfold plan. fold (sink_of obj). case_bool_decide as Hl.
  { intros [= <- <- _] _. split; [by intros [??]|]. by intros ? ? []. }
  destruct (resolveSink w (sink_of obj)) as [[[bound|] verdict]|e] eqn:Es; cycle 1.
  { intros [= <- <- _] _. split; [|intros ? ? [? E ? ?]; congruence]. apply resolveSink_verdict in Es. by intros [??]. }
  { by intros [= <- _ _]. }
  pose proof (resolveSink_verdict _ _ _ _ Es) as Hv. unfold ruleReadyOrder. rewrite !Forall_cons.
  destruct (checkPolicy _ _) as [denied|] eqn:Ep.
  { intros [= <- <- _] _. split; [|intros ? ? [? E ? ?]; congruence].
    rewrite !decided_set. intros (_ & Hf & _). done. }
  destruct (targetNamespaces k w obj) as [nss|e] eqn:En; cycle 1.
  { destruct e; intros [= <- <- _]; try done. intros _. split; [|intros ? ? [? ? ? E]; congruence].
    rewrite !decided_set. intros (_ & _ & Hf & _). done. }
  unfold resolveResources, places, verdicts. specialize (Hk nss En). unfold places, verdicts in Hk.
  destruct (resolve_loop k w nss 0 _ rv) as [vs rv''] eqn:Ev. simpl in Hk.
  destruct (reviewTargets _ _ _ _) as [[targets denials]|e] eqn:Er; [|by intros [= <- _ _]].
  intros [= <- <- _] _. apply reviewTargets_spec in Er as (kept & -> & A1 & A2 & A3 & A4 & A5); [|done].
  rewrite !decided_gate, !decided_set. simpl. split.
  - intros (Hr & _ & Hf & Hd & _). exists bound, nss. rewrite Ev. simpl.
    destruct (bool_decide_reflect (errs vs = [])) as [Hff|]; [|done].
    destruct (bool_decide_reflect (denials = [])) as [Hdd|]; [|done]. apply A4 in Hdd. subst kept.
    split; [split; try done; by rewrite Es, (Hv Hr)|]. split_and!; [done|by apply Forall_forall|done].
  - intros bound' nss' [_ E _ E']. rewrite Es in E. injection E as <- ->. rewrite En in E'. injection E' as <-.
    rewrite Ev. simpl. intros Hff Hnr. rewrite (proj2 A4 (A5 Hnr)), Hff.
    apply ready_true. unfold ruleReadyOrder. rewrite !Forall_cons, !decided_gate, !decided_set. done.
Qed.

Lemma gate_distinct status t failures r m f :
  distinct_types status -> distinct_types (setGateCondition status t failures r m f).
Proof. unfold setGateCondition. case_bool_decide; apply set_distinct. Qed.

Lemma plan_distinct k w obj status rv outcome status' rv' :
  distinct_types status -> plan k w obj status rv = (outcome, status', rv') ->
  distinct_types status' /\ sw_generation status' = sw_generation status.
Proof.
  intros Hd. unfold plan, setUnevaluated. cbn [foldl ruleReadyOrder].
  assert (Hh : forall id bound, distinct_types (setRuleHistoryUnavailable status id bound) /\
            sw_generation (setRuleHistoryUnavailable status id bound) = sw_generation status).
  { intros id bound. unfold setRuleHistoryUnavailable. repeat case_match; (split; [by apply set_distinct|done]). }
  repeat case_match; intros [= <- <- _]; subst; unfold setGateCondition; repeat case_match;
    (split; [repeat apply set_distinct; first [done|apply Hh]|first [done|apply Hh]]).
Qed.

(** ** Passes *)

(** What a pass does to the registry. *)
Definition pass_op k (req : NamespacedName) w (s : controlState) : option registry_op :=
  let key := RuleKey (rk_kind k) (nn_Namespace req) (nn_Name req) in
  match cl_rule w with
  | Err err => if IsNotFound err then Some (OpRemove key) else None
  | Ok obj =>
      if ro_deleting obj then Some (OpRemove key)
      else
        let outcome := (plan k w obj (mkStatusWriter [] (ro_Generation obj)) (cs_resolver s)).1.1 in
        if po_install outcome then Some (OpUpsert key (po_targets outcome)) else None
  end.

Lemma pass_registry r k req w s :
  cs_registry (Reconcile r k req w s).2 =
  match pass_op k req w s with Some op => run_registry op (cs_registry s) | None => cs_registry s end.
Proof.
  unfold Reconcile, pass_op. destruct (cl_rule w) as [obj|err]; [|by destruct (IsNotFound err)].
  destruct (ro_deleting obj); [done|]. destruct (plan _ _ _ _ _) as [[outcome status] rv]. cbn [fst snd].
  destruct (po_install outcome); cbn [run_registry].
  - destruct (Upsert _ _ _); cbn; by destruct (updateStatus _ _ _).
  - by destruct (updateStatus _ _ _).
Qed.

(** A run of passes over any rules, each in a world of its own. *)
Definition step_pass (r : reconcilerConfig) (s : controlState) (p : ruleKind * NamespacedName * cluster) : controlState :=
  (Reconcile r p.1.1 p.1.2 p.2 s).2.

Definition control_from (r : reconcilerConfig) (s : controlState) (passes : list (ruleKind * NamespacedName * cluster))
    : controlState := foldl (step_pass r) s passes.

Definition control_start : controlState := mkControl New NewResolver.

Definition control_after (r : reconcilerConfig) (passes : list (ruleKind * NamespacedName * cluster)) : controlState :=
  control_from r control_start passes.

Fixpoint control_ops (r : reconcilerConfig) (s : controlState) (passes : list (ruleKind * NamespacedName * cluster))
    : list registry_op :=
  match passes with
  | [] => []
  | p :: rest => option_list (pass_op p.1.1 p.1.2 p.2 s) ++ control_ops r (step_pass r s p) rest
  end.

Lemma control_registry r s passes :
  cs_registry (control_from r s passes) = foldl (fun reg op => run_registry op reg) (cs_registry s) (control_ops r s passes).
Proof.
  revert s. induction passes as [|p passes IH]; intros s; [done|]. cbn [control_from foldl control_ops].
  rewrite foldl_app. unfold control_from in IH. rewrite IH. f_equal. unfold step_pass. rewrite pass_registry.
  by destruct (pass_op _ _ _ s).
Qed.

(** The registry of a run is that of its registry calls. *)
Lemma control_after_registry r passes :
  cs_registry (control_after r passes) = run_all (control_ops r control_start passes).
Proof. apply (control_registry r control_start). Qed.

Definition contribution (s : controlState) (rule : string) : gset WatchTarget := default ∅ (rg_rules (cs_registry s) !! rule).

Lemma control_consistent r passes : consistent (cs_registry (control_after r passes)).
Proof. rewrite control_after_registry. apply run_all_consistent. Qed.

Context `{!SelectorLaws}.

Lemma desired_fixed targets :
  Forall (fun t => canonicalizeSelectorString (wt_Selector t) = Ok (wt_Selector t)) targets ->
  desired_targets targets = Ok (list_to_set targets).
Proof.
  induction 1 as [|t targets Ht _ IH]; [done|]. cbn [desired_targets]. rewrite Ht, IH. by destruct t.
Qed.

Lemma canonical_fixed ls s : CanonicalSelector ls = Ok s -> canonicalizeSelectorString s = Ok s.
Proof.
  destruct ls as [ls|]; simpl; [|by intros [= <-]]. destruct (as_selector ls) eqn:E; [|done].
  intros [= <-]. by eapply selector_fixed.
Qed.

Lemma places_resolved k w obj nss rv p :
  p ∈ places k w obj nss rv -> exists n res, rs_Resources (ro_Spec obj) !! n = Some res /\
    resolves_to k w nss n res p.1 /\ p.2 ∈ rr_namespaces p.1.
Proof.
  unfold places, expand. intros (rr & Hp & Hr)%list_elem_of_bind. apply list_elem_of_fmap in Hp as (ns & -> & Hns).
  apply elem_of_oks in Hr as [i Hi]. apply (proj2 (resolve_loop_spec k w nss 0 _ rv)) in Hi as (res & ? & ?). eauto.
Qed.

Lemma places_fixed k w obj bound nss rv kept :
  sublist kept (places k w obj nss rv) ->
  desired_targets (map (place_target obj bound) kept) = Ok (list_to_set (map (place_target obj bound) kept)).
Proof.
  intros Hs. apply desired_fixed, Forall_forall. intros t (p & -> & Hp)%list_elem_of_fmap.
  eapply sublist_subseteq in Hp; [|exact Hs]. apply places_resolved in Hp as (n & res & _ & Hr & _).
  unfold place_target, target_of. simpl. by eapply canonical_fixed, rt_selector.
Qed.

Lemma plan_fixed k w obj status rv outcome status' rv' :
  keyed_apart k w obj rv -> plan k w obj status rv = (outcome, status', rv') -> po_install outcome = true ->
  desired_targets (po_targets outcome) = Ok (list_to_set (po_targets outcome)).
Proof.
  intros Hk Hp Hi. apply plan_targets in Hp as [_ Hp]; [|done].
  destruct (Hp Hi) as [[-> _]|(bound & verdict & nss & kept & _ & -> & Hs & _)]; [done|]. by eapply places_fixed.
Qed.

(** The rule's registry call, when it installs. *)
Lemma pass_installs k req w s obj :
  cl_rule w = Ok obj -> ro_deleting obj = false ->
  let outcome := (plan k w obj (mkStatusWriter [] (ro_Generation obj)) (cs_resolver s)).1.1 in
  pass_op k req w s = if po_install outcome
                      then Some (OpUpsert (RuleKey (rk_kind k) (nn_Namespace req) (nn_Name req)) (po_targets outcome)) else None.
Proof. intros Ho Hd outcome. unfold pass_op. by rewrite Ho, Hd. Qed.

(** One pass, as a change of the contributions. *)
Lemma pass_contribution r k req w s :
  consistent (cs_registry s) ->
  let s' := (Reconcile r k req w s).2 in
  consistent (cs_registry s') /\
  forall rule, contribution s' rule =
    match pass_op k req w s with Some op => spec_op op (contribution s) rule | None => contribution s rule end.
Proof.
  intros Hc s'. unfold contribution. subst s'. rewrite pass_registry.
  destruct (pass_op k req w s) as [[key targets|key]|]; simpl; [| |done].
  - destruct (Upsert key targets (cs_registry s)) as [r'|e] eqn:E.
    + destruct (consistent_Upsert key targets _ r' Hc E) as (desired & -> & ? & Hr & _). done.
    + split; [done|]. unfold Upsert in E. destruct (desired_targets targets); [|done]. by destruct (foldl _ _ _).
  - destruct (consistent_Remove key _ Hc) as [? Hr]. done.
Qed.

(** ** Properties *)

(** C4: a rule contributes exactly what it is entitled to. After any history of passes
    over any rules, one more pass of a rule leaves every other rule's targets alone.
    A rule that is gone or being deleted contributes nothing. A pass that could not read
    the rule, its sink or the namespaces, or could not complete an access review, leaves
    its targets as they were. Any other pass leaves a rule whose sink is missing, whose
    policy refuses one of its resources or whose selector is malformed with nothing, and
    an admitted one with the targets - its sink, the kinds it names that resolve to a
    resource of a scope it may watch, the namespaces it selects, with its selectors and
    filters and the merged redaction of sink and rule - that the access reviews granted
    for every verb; none that they did not refuse is missing. *)
Theorem rule_contribution_exact r passes k req w :
  let s := control_after r passes in
  let s' := (Reconcile r k req w s).2 in
  let key := RuleKey (rk_kind k) (nn_Namespace req) (nn_Name req) in
  let rv := cs_resolver s in
  (forall obj, cl_rule w = Ok obj -> keyed_apart k w obj rv) ->
  (forall rule, rule <> key -> contribution s' rule = contribution s rule) /\
  match cl_rule w with
  | Err err => contribution s' key = if IsNotFound err then ∅ else contribution s key
  | Ok obj =>
      if ro_deleting obj then contribution s' key = ∅
      else match po_err (plan k w obj (mkStatusWriter [] (ro_Generation obj)) rv).1.1 with
           | Some _ => contribution s' key = contribution s key
           | None =>
               (forall t, t ∈ contribution s' key -> exists bound verdict nss p, admission k w obj bound verdict nss /\
                  p ∈ places k w obj nss rv /\ pair_granted w p /\ t = place_target obj bound p) /\
               (forall bound verdict nss p, admission k w obj bound verdict nss -> p ∈ places k w obj nss rv ->
                  ~ pair_refused w p -> place_target obj bound p ∈ contribution s' key)
           end
  end.
Proof.
  intros s s' key rv Hk. destruct (pass_contribution r k req w s (control_consistent r passes)) as [_ Hc].
  fold s' in Hc. split.
  { intros rule Hr. rewrite Hc. unfold pass_op. fold key. repeat case_match; simplify_eq; simpl; try done.
    all: repeat case_match; simplify_eq; try done. }
  specialize (Hc key). destruct (cl_rule w) as [obj|err] eqn:Ew; cycle 1.
  { unfold pass_op in Hc. rewrite Ew in Hc. fold key in Hc. destruct (IsNotFound err); [|done].
    simpl in Hc. by rewrite decide_True in Hc. }
  destruct (ro_deleting obj) eqn:Ed.
  { unfold pass_op in Hc. rewrite Ew, Ed in Hc. fold key in Hc. simpl in Hc. by rewrite decide_True in Hc. }
  rewrite (pass_installs k req w s obj Ew Ed) in Hc. fold key rv in Hc. specialize (Hk obj eq_refl).
  destruct (plan k w obj _ rv) as [[outcome status] rv'] eqn:Ep. cbn [fst snd] in *.
  pose proof (plan_fixed _ _ _ _ _ _ _ _ Hk Ep) as Hfix. apply plan_targets in Ep as [Hi Hp]; [|done].
  destruct (po_err outcome) as [e|].
  { destruct (po_install outcome); [|exact Hc]. by discriminate (proj1 Hi eq_refl). }
  rewrite (proj2 Hi eq_refl) in *. simpl in Hc. rewrite (Hfix eq_refl), decide_True in Hc by done. rewrite Hc.
  destruct (Hp eq_refl) as [[-> Hn]|(bound & verdict & nss & kept & Had & -> & Hs & Hg & Hr)].
  - split; [by intros t Ht%elem_of_empty|]. intros bound verdict nss p Had. destruct Hn. eauto.
  - setoid_rewrite elem_of_list_to_set. split.
    + intros t (p & -> & Hin)%list_elem_of_fmap. exists bound, verdict, nss, p. split; [done|].
      split; [by eapply sublist_subseteq|auto].
    + intros bound' verdict' nss' p Had' Hin Hnr. destruct Had as [_ E1 _ E2], Had' as [_ E1' _ E2'].
      rewrite E1 in E1'. rewrite E2 in E2'. simplify_eq. apply list_elem_of_fmap. exists p. split; [done|].
      by destruct (Hr p Hin).
Qed.

(** What a pass that read its rule writes, if it writes. *)
Lemma pass_written r k req w s obj outcome status rv' result events written s' :
  cl_rule w = Ok obj -> ro_deleting obj = false ->
  plan k w obj (mkStatusWriter [] (ro_Generation obj)) (cs_resolver s) = (outcome, status, rv') ->
  (po_install outcome = true -> exists registry,
     Upsert (RuleKey (rk_kind k) (nn_Namespace req) (nn_Name req)) (po_targets outcome) (cs_registry s) = Ok registry) ->
  Reconcile r k req w s = (mkPass result events (Some written), s') ->
  let ready := readyCondition status (po_verdict outcome) in
  findCondition (rst_Conditions written) ConditionReady =
    Some (condition ConditionReady (cd_Status ready) (cd_Reason ready) (cd_Message ready) (ro_Generation obj)) /\
  rst_ActiveWatches written = i32_wrap (Z.of_nat (TargetCountForRule (RuleKey (rk_kind k) (nn_Namespace req) (nn_Name req)) (cs_registry s'))) /\
  result = match po_err outcome with Some e => Failed (errPlan e) | None => RequeueAfter (resyncPeriod r) end.
Proof.
  intros Hw Hd Hp Hu. unfold Reconcile. rewrite Hw, Hd, Hp.
  destruct (plan_distinct _ _ _ _ _ _ _ _ (NoDup_nil_2 : distinct_types (mkStatusWriter [] (ro_Generation obj))) Hp) as [Hdis Hgen].
  assert (E : (if po_install outcome
               then match Upsert (RuleKey (rk_kind k) (nn_Namespace req) (nn_Name req)) (po_targets outcome) (cs_registry s) with
                    | Ok registry => (registry, status)
                    | Err err => (cs_registry s, status_set ConditionResourceResolved ConditionFalse ReasonInvalidSelector (error_text err) status)
                    end
               else (cs_registry s, status)).2 = status).
  { destruct (po_install outcome); [|done]. by destruct (Hu eq_refl) as [? ->]. }
  destruct (if po_install outcome then _ else _) as [registry status']. simpl in E. subst status'.
  set (final := status_set ConditionReady _ _ _ status).
  assert (Hf : forall conds, findCondition (status_apply final conds) ConditionReady =
            Some (condition ConditionReady (cd_Status (readyCondition status (po_verdict outcome)))
              (cd_Reason (readyCondition status (po_verdict outcome))) (cd_Message (readyCondition status (po_verdict outcome))) (ro_Generation obj))).
  { intros conds. rewrite find_status_apply by by apply set_distinct. unfold final. rewrite find_status_set, decide_True by done.
    by rewrite Hgen. }
  destruct (updateStatus _ _ _) as [fresh|e] eqn:Eu; [|done]. apply updateStatus_wrote in Eu as [before ->].
  intros [= <- <- <- <-]. simpl. by rewrite Hf.
Qed.

Lemma plan_upserts k w obj status rv outcome status' rv' key registry :
  keyed_apart k w obj rv -> plan k w obj status rv = (outcome, status', rv') -> po_install outcome = true ->
  exists registry', Upsert key (po_targets outcome) registry = Ok registry'.
Proof.
  intros Hk Hp Hi. unfold Upsert. rewrite (plan_fixed _ _ _ _ _ _ _ _ Hk Hp Hi). destruct (foldl _ _ _). eauto.
Qed.

(** C5: Ready means streaming. When a pass ends without an error to retry, the status it
    wrote carries a Ready condition of the rule's generation and the number of distinct
    targets now installed. If that condition is True, the rule's sink exists and reports
    itself ready, its policy admits every resource, every kind resolved, every place the
    rule asks to watch was granted, and the installed targets are exactly all of those
    places. Conversely a rule of which all this holds, the reviews having refused
    nothing, is reported Ready. *)
Theorem ready_means_streaming r passes k req w obj delay events written s' :
  let s := control_after r passes in
  let key := RuleKey (rk_kind k) (nn_Namespace req) (nn_Name req) in
  let rv := cs_resolver s in
  cl_rule w = Ok obj -> ro_deleting obj = false -> keyed_apart k w obj rv ->
  Reconcile r k req w s = (mkPass (RequeueAfter delay) events (Some written), s') ->
  exists c, findCondition (rst_Conditions written) ConditionReady = Some c /\ cd_ObservedGeneration c = ro_Generation obj /\
    rst_ActiveWatches written = i32_wrap (Z.of_nat (size (set_map WatchTarget_Key (contribution s' key) : gset TargetKey))) /\
    (cd_Status c = ConditionTrue ->
       exists bound nss, admission k w obj bound no_verdict nss /\
         errs (verdicts k w nss (rs_Resources (ro_Spec obj)) rv) = [] /\ Forall (pair_granted w) (places k w obj nss rv) /\
         contribution s' key = list_to_set (map (place_target obj bound) (places k w obj nss rv))) /\
    (forall bound nss, admission k w obj bound no_verdict nss ->
       errs (verdicts k w nss (rs_Resources (ro_Spec obj)) rv) = [] ->
       Forall (fun p => ~ pair_refused w p) (places k w obj nss rv) -> cd_Status c = ConditionTrue).
Proof.
  intros s key rv Hw Hd Hk Hr. destruct (plan k w obj (mkStatusWriter [] (ro_Generation obj)) rv) as [[outcome status] rv'] eqn:Hp.
  destruct (pass_written r k req w s obj outcome status rv' (RequeueAfter delay) events written s' Hw Hd Hp) as (Hf & Hn & He); [|done|].
  { intros Hi. by eapply plan_upserts. }
  eexists. split; [exact Hf|]. split; [done|]. split; [exact Hn|].
  assert (Herr : po_err outcome = None) by (by destruct (po_err outcome)).
  destruct (plan_ready _ _ _ _ _ _ _ _ Hk Hp Herr) as [Htrue Hback]. simpl. split; [|exact Hback].
  intros Hst. destruct (Htrue Hst) as (bound & nss & Had & Hff & Hg & Ht). exists bound, nss. split_and!; try done.
  destruct (pass_contribution r k req w s (control_consistent r passes)) as [_ Hc]. rewrite Hr in Hc.
  rewrite Hc, (pass_installs k req w s obj Hw Hd). fold key rv. rewrite Hp. simpl.
  rewrite (proj2 (proj1 (plan_targets _ _ _ _ _ _ _ _ Hk Hp)) Herr). simpl.
  rewrite (plan_fixed _ _ _ _ _ _ _ _ Hk Hp) by (apply (plan_targets _ _ _ _ _ _ _ _ Hk Hp); done).
  by rewrite decide_True, Ht by done.
Qed.

(** A pass that could not read the sink reports the rule as streaming. No gate has run
    and nothing was installed; the conditions the roll-up reads are all absent, which it
    takes for True. *)
Theorem ready_despite_unread_sink r k req w s obj err events written s' result :
  cl_rule w = Ok obj -> ro_deleting obj = false -> ID_Kind (sink_of obj) ∈ sinkFetchers ->
  rs_Sink (ro_Spec obj) <> mkSinkReference "" "" ->
  cl_sink w (ID_Kind (sink_of obj)) (ID_Name (sink_of obj)) = Err err -> IsNotFound err = false ->
  Reconcile r k req w s = (mkPass result events (Some written), s') ->
  result = Failed (errPlan (errGetSink (sink_of obj) err)) /\ cs_registry s' = cs_registry s /\
  exists c, findCondition (rst_Conditions written) ConditionReady = Some c /\
    cd_Status c = ConditionTrue /\ cd_Reason c = ReasonStreaming.
Proof.
  intros Hw Hd Hin Hne Hs Hnf Hr.
  assert (Hp : plan k w obj (mkStatusWriter [] (ro_Generation obj)) (cs_resolver s) =
            (mkOutcome [] no_verdict false (Some (errGetSink (sink_of obj) err)), mkStatusWriter [] (ro_Generation obj), cs_resolver s)).
  { unfold plan. rewrite bool_decide_eq_false_2 by done. fold (sink_of obj). unfold resolveSink.
    by rewrite bool_decide_eq_true_2, Hs, Hnf by done. }
  destruct (pass_written r k req w s obj _ _ _ result events written s' Hw Hd Hp) as (Hf & _ & He); [done|done|].
  split; [done|]. split.
  - pose proof (pass_registry r k req w s) as Hreg. rewrite Hr, (pass_installs k req w s obj Hw Hd), Hp in Hreg. done.
  - eexists. split; [exact Hf|]. unfold readyCondition. simpl. unfold findCondition. by rewrite !find_first.
Qed.
End rules.
