(* ===== verification/SinkConfig.v ===== *)
(** * SinkConfig: from a sink object to the instance it runs as

    Models the sink specifications of [src/api/v1alpha1] (clickhousesink_types.go,
    s3sink_types.go), the configurations of the two backends with their fingerprints
    ([Config.Fingerprint] of clickhouse/instance.go, [SinkConfig.Fingerprint] of
    s3/instanceconfig.go), the settings [s3.NewWriter] fixes, and the translation
    between them in [src/cmd/main.go]: the two configuration builders and the factory.
    [operator_backends] is the operator's instance of the sink manager's [Backends].

    A nil pointer of an optional field is [None]; durations are nanoseconds. What is
    used of [strconv.Quote] beyond [Strconv] is [QuoteLaws]: the text is a string
    literal, and reading it gives the string back. *)

From stdpp Require Import pretty.
From S2P Require Import Prelude Identity Calendar Duration Plan GoJson RedactParse SinkTypes CHWriter SinkManager Conditions RuleController.

(** ** Specifications *)

Record SecretReference := mkSecretReference { sr_Name : string; sr_Namespace : string }.

Record ConnectionSpec := mkConnectionSpec {
  cn_Addr : string;
  cn_Database : string;
  cn_Username : string;
  cn_CredentialsSecretRef : SecretReference;
  cn_DialTimeout : option Z;
  cn_ReadTimeout : option Z;
}.

Record WriterSpec := mkWriterSpec {
  ws_QueueSize : option Z;
  ws_Workers : option Z;
  ws_BatchMaxRows : option Z;
  ws_BatchMaxWait : option Z;
  ws_EnqueueTimeout : option Z;
  ws_DrainTimeout : option Z;
  ws_CheckpointEvery : option Z;
  ws_CoalesceWindow : option Z;
}.

Record ClickHouseSinkSpec := mkClickHouseSinkSpec { cs_Connection : ConnectionSpec; cs_Writer : WriterSpec; cs_Policy : SinkPolicy }.

(** [S3CredentialsSpec]: its optional [secretRef]. *)
Record S3CredentialsSpec := mkS3CredentialsSpec { s3c_SecretRef : option SecretReference }.
Record S3RotationSpec := mkS3RotationSpec { s3r_MaxObjectBytes : option Z; s3r_MaxObjectAge : option Z }.
Record S3ObjectLockSpec := mkS3ObjectLockSpec { s3l_Mode : string; s3l_RetainDays : Z }.

Record S3WriterSpec := mkS3WriterSpec {
  s3w_QueueSize : option Z;
  s3w_Workers : option Z;
  s3w_EnqueueTimeout : option Z;
  s3w_DrainTimeout : option Z;
  s3w_CoalesceWindow : option Z;
}.

Record S3SinkSpec := mkS3SinkSpec {
  s3_Bucket : string;
  s3_Prefix : string;
  s3_Region : string;
  s3_Endpoint : string;
  s3_ForcePathStyle : bool;
  s3_Credentials : option S3CredentialsSpec;
  s3_Format : string;
  s3_Rotation : S3RotationSpec;
  s3_ObjectLock : option S3ObjectLockSpec;
  s3_Writer : S3WriterSpec;
  s3_Policy : SinkPolicy;
}.

(** ** Configurations *)

(** [s3.Credentials], and [S3Credentials] of the controller, which is translated field
    by field. *)
Record Credentials := mkCredentials { cr_AccessKeyID : string; cr_SecretAccessKey : string; cr_SessionToken : string }.

Definition IsAmbient (c : Credentials) : bool :=
  bool_decide (cr_AccessKeyID c = "") && bool_decide (cr_SecretAccessKey c = "") && bool_decide (cr_SessionToken c = "").

Record ClientConfig := mkClientConfig {
  cl_Region : string;
  cl_Endpoint : string;
  cl_ForcePathStyle : bool;
  cl_Credentials : Credentials;
}.

Record ObjectLock := mkObjectLock { ol_Mode : string; ol_RetainDays : Z }.

(** [s3.Config]. *)
Record s3Config := mkS3Config {
  sc_Bucket : string;
  sc_Prefix : string;
  sc_MaxObjectBytes : Z;
  sc_MaxObjectAge : Z;
  sc_ObjectLock : option ObjectLock;
  sc_QueueSize : Z;
  sc_Workers : Z;
  sc_EnqueueTimeout : Z;
  sc_DrainTimeout : Z;
  sc_CoalesceWindow : Z;
}.

(** [s3.SinkConfig]. *)
Record SinkConfig := mkSinkConfig { sk_Client : ClientConfig; sk_Writer : s3Config }.

(** What [s3.NewWriter] fixes, the bucket and the channel aside. *)
Record s3Writer := mkS3Writer {
  sw_config : s3Config;
  sw_maxObjectBytes : Z;
  sw_maxObjectAge : Z;
  sw_queueSize : Z;
  sw_workers : Z;
  sw_enqueueTimeout : Z;
  sw_drainTimeout : Z;
  sw_coalesceWindow : Z;
}.

Module S3Defaults.
Definition defaultQueueSize : Z := 5000.
Definition defaultWorkers : Z := 4.
Definition defaultMaxObjectBytes : Z := 64 * 2 ^ 20.
Definition defaultMaxObjectAge : Z := 5 * minute.
Definition defaultEnqueueTimeout : Z := 2 * second.
Definition defaultDrainTimeout : Z := 15 * second.
Definition DefaultCoalesceWindow : Z := 1 * minute.
End S3Defaults.

Definition NewWriter (cfg : s3Config) : s3Writer := {|
  sw_config := cfg;
  sw_maxObjectBytes := positive_or (sc_MaxObjectBytes cfg) S3Defaults.defaultMaxObjectBytes;
  sw_maxObjectAge := positive_or (sc_MaxObjectAge cfg) S3Defaults.defaultMaxObjectAge;
  sw_queueSize := positive_or (sc_QueueSize cfg) S3Defaults.defaultQueueSize;
  sw_workers := positive_or (sc_Workers cfg) S3Defaults.defaultWorkers;
  sw_enqueueTimeout := positive_or (sc_EnqueueTimeout cfg) S3Defaults.defaultEnqueueTimeout;
  sw_drainTimeout := positive_or (sc_DrainTimeout cfg) S3Defaults.defaultDrainTimeout;
  sw_coalesceWindow := if bool_decide (sc_CoalesceWindow cfg < 0)%Z then S3Defaults.DefaultCoalesceWindow else sc_CoalesceWindow cfg;
|}.

(** ** Builders *)

Definition defaultSinkDialTimeout : Z := 5 * second.
Definition defaultSinkReadTimeout : Z := 10 * second.

Record writerTuning := mkWriterTuning {
  wt_queueSize : Z;
  wt_workers : Z;
  wt_batchMaxRows : Z;
  wt_batchMaxWait : Z;
  wt_enqueueTimeout : Z;
  wt_drainTimeout : Z;
}.

Definition int64OrZero (n : option Z) : Z := default 0%Z n.
Definition durationOrDefault (d : option Z) (def : Z) : Z := default def d.
Definition intOrDefault (n : option Z) (def : Z) : Z := default def n.

(** The literal of the code names no [CoalesceWindow]: it is the zero value. *)
Definition newSinkConfigBuilder (defaults : writerTuning) (autoCreateSchema : bool) (name : string) (spec : ClickHouseSinkSpec)
    (password : string) : chConfig :=
  let conn := cs_Connection spec in
  let w := cs_Writer spec in
  {| cc_Addr := cn_Addr conn;
     cc_Database := cn_Database conn;
     cc_Username := cn_Username conn;
     cc_Password := password;
     cc_DialTimeout := durationOrDefault (cn_DialTimeout conn) defaultSinkDialTimeout;
     cc_ReadTimeout := durationOrDefault (cn_ReadTimeout conn) defaultSinkReadTimeout;
     cc_AutoCreateSchema := autoCreateSchema;
     cc_BatchMaxRows := intOrDefault (ws_BatchMaxRows w) (wt_batchMaxRows defaults);
     cc_BatchMaxWait := durationOrDefault (ws_BatchMaxWait w) (wt_batchMaxWait defaults);
     cc_WriteQueueSize := intOrDefault (ws_QueueSize w) (wt_queueSize defaults);
     cc_WriteWorkers := intOrDefault (ws_Workers w) (wt_workers defaults);
     cc_EnqueueTimeout := durationOrDefault (ws_EnqueueTimeout w) (wt_enqueueTimeout defaults);
     cc_ShutdownDrainTimeout := durationOrDefault (ws_DrainTimeout w) (wt_drainTimeout defaults);
     cc_CheckpointEvery := intOrDefault (ws_CheckpointEvery w) DefaultCheckpointEvery;
     cc_CoalesceWindow := 0 |}.

Definition newS3SinkConfigBuilder (defaults : writerTuning) (name : string) (spec : S3SinkSpec) (creds : Credentials) : SinkConfig :=
  let w := s3_Writer spec in
  {| sk_Client := {| cl_Region := s3_Region spec;
                     cl_Endpoint := s3_Endpoint spec;
                     cl_ForcePathStyle := s3_ForcePathStyle spec;
                     cl_Credentials := mkCredentials (cr_AccessKeyID creds) (cr_SecretAccessKey creds) (cr_SessionToken creds) |};
     sk_Writer := {| sc_Bucket := s3_Bucket spec;
                     sc_Prefix := s3_Prefix spec;
                     sc_MaxObjectBytes := int64OrZero (s3r_MaxObjectBytes (s3_Rotation spec));
                     sc_MaxObjectAge := durationOrDefault (s3r_MaxObjectAge (s3_Rotation spec)) 0;
                     sc_ObjectLock := match s3_ObjectLock spec with
                                      | None => None
                                      | Some lock => Some (mkObjectLock (s3l_Mode lock) (s3l_RetainDays lock))
                                      end;
                     sc_QueueSize := intOrDefault (s3w_QueueSize w) (wt_queueSize defaults);
                     sc_Workers := intOrDefault (s3w_Workers w) (wt_workers defaults);
                     sc_EnqueueTimeout := durationOrDefault (s3w_EnqueueTimeout w) (wt_enqueueTimeout defaults);
                     sc_DrainTimeout := durationOrDefault (s3w_DrainTimeout w) (wt_drainTimeout defaults);
                     sc_CoalesceWindow := 0 |} |}.

(** ** Fingerprints *)

(** A verb of the format with its argument: [%q], [%d] and [%t]. *)
Inductive verb := VQuoted (s : string) | VInt (z : Z) | VBool (b : bool).

Section fingerprint.
Context `{Encoders, Strconv}.

Definition render_verb (v : verb) : string :=
  match v with
  | VQuoted s => Quote s
  | VInt z => pretty z
  | VBool b => if b then "true" else "false"
  end.

(** The formatted text: name=value pairs, separated by spaces. *)
Definition format_fields (fields : list (string * verb)) : string :=
  join " " (map (fun f => f.1 +:+ "=" +:+ render_verb f.2) fields).

Definition ch_fields (c : chConfig) : list (string * verb) :=
  [("addr", VQuoted (cc_Addr c)); ("db", VQuoted (cc_Database c)); ("user", VQuoted (cc_Username c));
   ("pass", VQuoted (cc_Password c)); ("dial", VQuoted (Duration_String (cc_DialTimeout c)));
   ("read", VQuoted (Duration_String (cc_ReadTimeout c))); ("autocreate", VBool (cc_AutoCreateSchema c));
   ("batchrows", VInt (cc_BatchMaxRows c)); ("batchwait", VQuoted (Duration_String (cc_BatchMaxWait c)));
   ("queue", VInt (cc_WriteQueueSize c)); ("workers", VInt (cc_WriteWorkers c));
   ("enqueue", VQuoted (Duration_String (cc_EnqueueTimeout c)));
   ("drain", VQuoted (Duration_String (cc_ShutdownDrainTimeout c))); ("checkpoint", VInt (cc_CheckpointEvery c));
   ("coalesce", VQuoted (Duration_String (cc_CoalesceWindow c)))].

(** [Config.Fingerprint]. *)
Definition ch_Fingerprint (c : chConfig) : string := sha256_hex (format_fields (ch_fields c)).

Definition objectLockFingerprint (lock : option ObjectLock) : string :=
  match lock with
  | None => "none"
  | Some l => ol_Mode l +:+ "/" +:+ pretty (ol_RetainDays l)
  end.

Definition s3_fields (c : SinkConfig) : list (string * verb) :=
  let client := sk_Client c in
  let creds := cl_Credentials client in
  let w := sk_Writer c in
  [("region", VQuoted (cl_Region client)); ("endpoint", VQuoted (cl_Endpoint client)); ("pathstyle", VBool (cl_ForcePathStyle client));
   ("akid", VQuoted (cr_AccessKeyID creds)); ("secret", VQuoted (cr_SecretAccessKey creds)); ("token", VQuoted (cr_SessionToken creds));
   ("bucket", VQuoted (sc_Bucket w)); ("prefix", VQuoted (sc_Prefix w)); ("maxbytes", VInt (sc_MaxObjectBytes w));
   ("maxage", VQuoted (Duration_String (sc_MaxObjectAge w))); ("lock", VQuoted (objectLockFingerprint (sc_ObjectLock w)));
   ("queue", VInt (sc_QueueSize w)); ("workers", VInt (sc_Workers w)); ("enqueue", VQuoted (Duration_String (sc_EnqueueTimeout w)));
   ("drain", VQuoted (Duration_String (sc_DrainTimeout w))); ("coalesce", VQuoted (Duration_String (sc_CoalesceWindow w)))].

(** [SinkConfig.Fingerprint]. *)
Definition s3_Fingerprint (c : SinkConfig) : string := sha256_hex (format_fields (s3_fields c)).
End fingerprint.

(** ** The factory *)

Inductive instanceConfig := CHInstance (c : chConfig) | S3Instance (c : SinkConfig).
Inductive backend := CHBackend (w : chWriter) | S3Backend (w : s3Writer).

Section backends.
Context `{Encoders, Strconv}.
(** What [clickhouse.Open] of the driver and [awsstore.New] answer to the n-th call. *)
Context (dial : nat -> chConfig -> result string unit) (store : nat -> ClientConfig -> result string unit).

Definition newSinkFactory (n : nat) (id : ID) (cfg : instanceConfig) : result string backend :=
  match cfg with
  | CHInstance typed => match Open (dial n typed) typed with Err e => Err e | Ok w => Ok (CHBackend w) end
  | S3Instance typed =>
      match store n (sk_Client typed) with
      | Err e => Err ("sink " +:+ ID_String id +:+ ": build the object store: " +:+ e)
      | Ok _ => Ok (S3Backend (NewWriter (sk_Writer typed)))
      end
  end.

(** A [CHWriter] implements all of the sink contract, the archive's writer all but
    [StateReader]. *)
Definition operator_backends : Backends := {|
  InstanceConfig := instanceConfig;
  Fingerprint cfg := match cfg with CHInstance c => ch_Fingerprint c | S3Instance c => s3_Fingerprint c end;
  Backend := backend;
  factory := newSinkFactory;
  implements_StateReader b := match b with CHBackend _ => true | S3Backend _ => false end;
  implements_ScopeEventWriter _ := true;
  implements_Prober _ := true;
|}.
End backends.

(** The window a running backend declares to the pipeline. *)
Definition coalesce_window (b : backend) : Z := match b with CHBackend w => CoalesceWindow w | S3Backend w => sw_coalesceWindow w end.

(** ** A fingerprint's text determines the configuration *)

Definition backslash : Ascii.ascii := Ascii.ascii_of_nat 92.

(** The inside of a string literal: a backslash takes the next character with it, and
    no other quote is met. *)
Fixpoint literal (s : string) : bool :=
  match s with
  | EmptyString => true
  | String c rest =>
      if bool_decide (c = backslash) then match rest with String _ rest' => literal rest' | EmptyString => false end
      else negb (bool_decide (c = quote_char)) && literal rest
  end.

Class QuoteLaws `{Strconv} := {
  Quote_literal : forall s, exists body, Quote s = String quote_char (body +:+ String quote_char "") /\ literal body = true;
  Unquote_Quote_any : forall s, Unquote (Quote s) = Some s;
}.

Lemma literal_quote rest : literal (String quote_char rest) = false.
Proof. cbn [literal]. rewrite bool_decide_eq_false_2 by done. by rewrite bool_decide_eq_true_2. Qed.

Lemma literal_split_len n : forall b1 b2 r1 r2, String.length b1 <= n -> literal b1 = true -> literal b2 = true ->
  b1 +:+ String quote_char r1 = b2 +:+ String quote_char r2 -> b1 = b2 /\ r1 = r2.
Proof.
  induction n as [|n IH]; intros [|c1 b1] [|c2 b2] r1 r2 Hlen H1 H2; rewrite ?string_app_cons;
    try (simpl in Hlen; lia); try (intros [= ->]; done).
  - intros [= <- _]. by rewrite literal_quote in H2.
  - intros [= <- _]. by rewrite literal_quote in H2.
  - intros [= <- Heq]. cbn in H1, H2. destruct (decide (c1 = backslash)) as [Eb|Eb].
    + rewrite bool_decide_eq_true_2 in H1, H2 by done. destruct b1 as [|d1 b1], b2 as [|d2 b2]; try done.
      rewrite !string_app_cons in Heq. injection Heq as <- Heq.
      destruct (IH b1 b2 r1 r2) as [-> ->]; [simpl in Hlen; lia|done..].
    + rewrite bool_decide_eq_false_2 in H1, H2 by done. apply andb_true_iff in H1 as [_ H1], H2 as [_ H2].
      destruct (IH b1 b2 r1 r2) as [-> ->]; [simpl in Hlen; lia|done..].
Qed.

Lemma string_app_same_l a b c : a +:+ b = a +:+ c -> b = c.
Proof. by apply string_app_inj. Qed.

(** What ends a value: the end of the text, or a space. *)
Definition ends (rest : string) : Prop := rest = "" \/ exists r, rest = String " " r.

Lemma spaceless_split a b r1 r2 : string_mem " "%char a = false -> string_mem " "%char b = false -> ends r1 -> ends r2 ->
  a +:+ r1 = b +:+ r2 -> a = b /\ r1 = r2.
Proof.
  intros Ha Hb H1 H2. revert b Hb. induction a as [|c a IH]; intros [|d b] Hb; rewrite ?string_app_cons.
  - done.
  - cbn in Hb. destruct H1 as [-> |[r ->]]; [done|]. by intros [= <- _].
  - cbn in Ha. destruct H2 as [-> |[r ->]]; [done|]. by intros [= -> _].
  - cbn in Ha, Hb. apply orb_false_iff in Ha as [_ Ha], Hb as [_ Hb]. intros [= -> Heq]. by destruct (IH Ha b Hb Heq) as [-> ->].
Qed.

Lemma pretty_mem (c : Ascii.ascii) (z : Z) : digit_ok c = false -> c <> "-"%char -> string_mem c (pretty z) = false.
Proof.
  intros Hc Hm.
  assert (Hn : forall (x : N) s, string_mem c s = false -> string_mem c (pretty_N_go x s) = false).
  { intros x. induction (N.lt_wf_0 x) as [x _ IH]; intros s Hs. destruct (decide (x = 0)%N) as [-> |Hx]; [by rewrite pretty_N_go_0|].
    rewrite pretty_N_go_step by lia. apply IH; [apply N.div_lt; lia|]. cbn. rewrite Hs, orb_false_r.
    apply bool_decide_eq_false_2. intros <-. assert (Hlt : (x `mod` 10 < 10)%N) by (apply N.mod_lt; lia).
    rewrite (pretty_char_digit _ Hlt) in Hc.
    destruct (digit_char_reads (Z.of_N (x `mod` 10))) as [Hd _]; [|congruence]. split; [apply N2Z.is_nonneg|rewrite <-(N2Z.inj_le _ 9); lia]. }
  assert (HN : forall x : N, string_mem c (pretty x) = false).
  { intros x. unfold pretty, pretty_N. case_decide; [|by apply Hn]. cbn. rewrite orb_false_r. apply bool_decide_eq_false_2. by intros <-. }
  destruct z as [|p|p]; unfold pretty, pretty_Z.
  - apply (HN 0%N).
  - apply (HN (Npos p)).
  - change (bool_decide ("-"%char = c) || string_mem c (pretty (Npos p)) = false).
    rewrite bool_decide_eq_false_2 by congruence. apply (HN (Npos p)).
Qed.

Section injective.
Context `{Encoders, Strconv, !QuoteLaws}.

#[export] Instance Quote_inj : Inj (=) (=) Quote.
Proof. intros a b E. enough (Some a = Some b) by congruence. by rewrite <-!Unquote_Quote_any, E. Qed.

Lemma Quote_split a b r1 r2 : Quote a +:+ r1 = Quote b +:+ r2 -> a = b /\ r1 = r2.
Proof.
  destruct (Quote_literal a) as (ba & Ea & Ha), (Quote_literal b) as (bb & Eb & Hb). rewrite Ea, Eb, !string_app_cons, !string_app_assoc.
  intros [= Heq]. rewrite !string_app_cons in Heq. change (EmptyString +:+ ?r) with r in Heq.
  destruct (literal_split_len _ ba bb r1 r2 (le_n _) Ha Hb Heq) as [<- <-]. split; [|done].
  apply (inj Quote). by rewrite Ea, Eb.
Qed.

(** Same verbs. *)
Definition same_kind (v w : verb) : bool :=
  match v, w with VQuoted _, VQuoted _ | VInt _, VInt _ | VBool _, VBool _ => true | _, _ => false end.

Lemma render_split v w r1 r2 : same_kind v w = true -> ends r1 -> ends r2 ->
  render_verb v +:+ r1 = render_verb w +:+ r2 -> v = w /\ r1 = r2.
Proof.
  destruct v as [a|a|a], w as [b|b|b]; try done; intros _ A1 A2 E; cbn in E.
  - by apply Quote_split in E as [-> ->].
  - apply spaceless_split in E as [E ->]; [|by apply pretty_mem..|done|done]. split; [|done]. f_equal. by apply (inj pretty).
  - by destruct a, b; simplify_eq.
Qed.

Definition same_shape (f g : string * verb) : Prop := f.1 = g.1 /\ same_kind f.2 g.2 = true.

Definition tail_text (l : list (string * verb)) : string := match l with [] => "" | _ => String " " (format_fields l) end.

Lemma tail_ends l : ends (tail_text l).
Proof. destruct l; [by left|right; by eexists]. Qed.

Lemma format_cons f l : format_fields (f :: l) = f.1 +:+ ("=" +:+ (render_verb f.2 +:+ tail_text l)).
Proof.
  destruct l as [|g l].
  - unfold format_fields, tail_text. simpl. by rewrite string_app_nil_r.
  - transitivity ((f.1 +:+ ("=" +:+ render_verb f.2)) +:+ String " " (format_fields (g :: l))); [done|]. by rewrite !string_app_assoc.
Qed.

Lemma format_fields_inj l1 l2 : Forall2 same_shape l1 l2 -> format_fields l1 = format_fields l2 -> l1 = l2.
Proof.
  induction 1 as [|[n v] [n' v'] l1 l2 [Hn Hk] Hl IH]; [done|]. simpl in Hn, Hk. subst n'. rewrite !format_cons. simpl.
  intros E%string_app_same_l%string_app_same_l. apply render_split in E as [-> E]; [|done|apply tail_ends..]. f_equal. apply IH.
  destruct Hl; [done|]. by injection E.
Qed.

Lemma lock_text_inj a b : objectLockFingerprint a = objectLockFingerprint b -> a = b.
Proof.
  assert (Hsplit : forall m m' (d d' : Z), m +:+ ("/" +:+ pretty d) = m' +:+ ("/" +:+ pretty d') -> m = m' /\ d = d').
  { intros m m' d d' E. assert (Hd : forall x : Z, string_mem "/"%char (pretty x) = false) by (intros; by apply pretty_mem).
    revert m' E. induction m as [|c m IH]; intros [|c' m']; rewrite ?string_app_cons.
    - intros E. split; [done|]. apply (inj pretty). by injection E.
    - intros [= <- E]. exfalso. pose proof (Hd d) as Hm. change ("" +:+ ?x) with x in E. rewrite E, string_mem_app, orb_false_iff in Hm. by destruct Hm.
    - intros [= -> E]. exfalso. pose proof (Hd d') as Hm. change ("" +:+ ?x) with x in E. rewrite <-E, string_mem_app, orb_false_iff in Hm. by destruct Hm.
    - intros [= -> E]. by destruct (IH m' E) as [-> ->]. }
  assert (Hnone : forall l, objectLockFingerprint (Some l) <> "none").
  { intros [m d] E. assert (Hm : string_mem "/"%char "none" = true) by (rewrite <-E; cbn; rewrite !string_mem_app; cbn; by rewrite orb_true_r). done. }
  destruct a as [[m d]|], b as [[m' d']|]; try done.
  - intros [E1 E2]%Hsplit. simpl in E1, E2. by subst.
  - intros E. by destruct (Hnone _ E).
  - intros E. by destruct (Hnone _ (eq_sym E)).
Qed.

Lemma ch_text_inj a b : format_fields (ch_fields a) = format_fields (ch_fields b) -> a = b.
Proof.
  intros E%format_fields_inj; [|by repeat constructor]. destruct a, b. unfold ch_fields in E. simpl in E. by simplify_eq.
Qed.

Lemma s3_text_inj a b : format_fields (s3_fields a) = format_fields (s3_fields b) -> a = b.
Proof.
  intros E%format_fields_inj; [|by repeat constructor]. destruct a as [[? ? ? []] []], b as [[? ? ? []] []].
  unfold s3_fields in E. simpl in E. simplify_eq.
  repeat match goal with H : objectLockFingerprint _ = objectLockFingerprint _ |- _ => apply lock_text_inj in H as -> end. done.
Qed.

(** The text of whichever backend. *)
Definition config_text (cfg : instanceConfig) : string :=
  match cfg with CHInstance c => format_fields (ch_fields c) | S3Instance c => format_fields (s3_fields c) end.

Lemma config_text_inj a b : config_text a = config_text b -> a = b.
Proof.
  destruct a as [a|a], b as [b|b]; simpl; [by intros ->%ch_text_inj| | |by intros ->%s3_text_inj].
  - unfold ch_fields, s3_fields. rewrite !format_cons. done.
  - unfold ch_fields, s3_fields. rewrite !format_cons. done.
Qed.

(** Two configurations of the same fingerprint are one configuration, or a collision of
    SHA-256 is at hand. *)
Lemma fingerprint_determines dial store (a b : instanceConfig) :
  @Fingerprint (operator_backends dial store) a = @Fingerprint (operator_backends dial store) b ->
  a = b \/ exists x y, x <> y /\ sha256_hex x = sha256_hex y.
Proof.
  assert (Hf : forall c, @Fingerprint (operator_backends dial store) c = sha256_hex (config_text c)) by (by intros []).
  rewrite !Hf. destruct (decide (config_text a = config_text b)) as [E|E].
  - intros _. left. by apply config_text_inj.
  - intros Hh. right. by exists (config_text a), (config_text b).
Qed.
End injective.
