(* ===== verification/SinkController.v ===== *)
(** * SinkController: the reconcile passes of the two sink kinds

    Models [src/internal/controller/sink_controller.go] and [s3sink_controller.go]: the
    credentials a sink authenticates with, the declaration of its configuration to the
    sink runtime, the conditions drawn from the latest health verdict, and
    [SinkProbeHub], which brings the verdicts of the runtime to the reconcilers.

    The sink runtime is the class [SinkRuntime], the interface the package declares;
    [SinkManager] is its production instance. The configuration builders are injected
    in the code and arguments here. The answers of the API server during one pass are a
    [sinkWorld]. *)

From S2P Require Import Prelude Identity Plan GoJson RedactParse CHWriter SinkManager Conditions RuleController SinkConfig.

(** ** The runtime *)

Class SinkRuntime (S : Type) := {
  rt_config : Type;
  rt_error : Type;
  rt_Ensure : ID -> rt_config -> S -> option rt_error * S;
  rt_Delete : ID -> S -> S;
  (** [CapabilitiesFor]: whether history can be read back, if an instance runs *)
  rt_CapabilitiesFor : ID -> S -> option bool;
}.

#[export] Instance manager_runtime `{Backends} : SinkRuntime SinkManager := {|
  rt_config := InstanceConfig;
  rt_error := managerError;
  rt_Ensure id cfg m := Ensure id (Some cfg) m;
  rt_Delete := Delete;
  rt_CapabilitiesFor := CapabilitiesFor;
|}.

(** ** The probe hub *)

Definition probeEventCapacity : nat := 128.

(** The verdict store, the wake-up channel of each registered kind, whether the hub was
    added to the manager, and the wake-up its loop is waiting to send. *)
Record SinkProbeHub := mkHub {
  hub_store : gmap ID ProbeResult;
  hub_targets : gmap string (list string);
  hub_added : bool;
  hub_sending : option (string * string);
}.

Definition NewSinkProbeHub : SinkProbeHub := mkHub ∅ ∅ false None.

Definition hub_SetupWithManager (h : SinkProbeHub) : option SinkProbeHub :=
  if hub_added h then None else Some (mkHub (hub_store h) (hub_targets h) true (hub_sending h)).

Definition register (kind : string) (h : SinkProbeHub) : option SinkProbeHub :=
  match hub_targets h !! kind with
  | Some _ => None
  | None => Some (mkHub (hub_store h) (<[kind := []]> (hub_targets h)) (hub_added h) (hub_sending h))
  end.

(** [probeStore.record], [latest] and [forget]. *)
Definition record_verdict (result : ProbeResult) (h : SinkProbeHub) : SinkProbeHub :=
  mkHub (<[pr_Sink result := result]> (hub_store h)) (hub_targets h) (hub_added h) (hub_sending h).

Definition latest (id : ID) (h : SinkProbeHub) : option ProbeResult := hub_store h !! id.

Definition forget (id : ID) (h : SinkProbeHub) : SinkProbeHub :=
  mkHub (delete id (hub_store h)) (hub_targets h) (hub_added h) (hub_sending h).

(** The loop of [Start]: a result is received unless a wake-up is waiting to be sent. *)
Definition hub_receive (result : ProbeResult) (h : SinkProbeHub) : SinkProbeHub :=
  match hub_sending h with
  | Some _ => h
  | None =>
      let h := record_verdict result h in
      match hub_targets h !! ID_Kind (pr_Sink result) with
      | None => h
      | Some _ => mkHub (hub_store h) (hub_targets h) (hub_added h) (Some (ID_Kind (pr_Sink result), ID_Name (pr_Sink result)))
      end
  end.

(** The send of the waiting wake-up, once the channel has room. *)
Definition hub_send (h : SinkProbeHub) : SinkProbeHub :=
  match hub_sending h with
  | None => h
  | Some (kind, name) =>
      match hub_targets h !! kind with
      | Some events =>
          if bool_decide (length events < probeEventCapacity)
          then mkHub (hub_store h) (<[kind := events ++ [name]]> (hub_targets h)) (hub_added h) None
          else h
      | None => h
      end
  end.

(** A reconciler takes a wake-up. *)
Definition hub_take (kind : string) (h : SinkProbeHub) : option string * SinkProbeHub :=
  match hub_targets h !! kind with
  | Some (name :: rest) => (Some name, mkHub (hub_store h) (<[kind := rest]> (hub_targets h)) (hub_added h) (hub_sending h))
  | _ => (None, h)
  end.

(** One round of the hub's loop, of a reconciler, or of a deletion. *)
Inductive hubOp := HubResult (result : ProbeResult) | HubSend | HubTake (kind : string) | HubForget (id : ID).

Definition step_hub (op : hubOp) (h : SinkProbeHub) : SinkProbeHub :=
  match op with
  | HubResult result => hub_receive result h
  | HubSend => hub_send h
  | HubTake kind => (hub_take kind h).2
  | HubForget id => forget id h
  end.

Definition run_hub (ops : list hubOp) (h : SinkProbeHub) : SinkProbeHub := foldl (fun h op => step_hub op h) h ops.

(** ** Sink objects *)

Record sinkStatus := mkSinkStatus { ss_Conditions : list Condition; ss_ObservedGeneration : Z }.

(** A sink object with the specification of its kind. *)
Record sinkObject (Spec : Type) := mkSinkObject {
  so_Name : string;
  so_Generation : Z;
  so_Spec : Spec;
  so_Status : sinkStatus;
}.
Arguments mkSinkObject {Spec}.
Arguments so_Name {Spec}.
Arguments so_Generation {Spec}.
Arguments so_Spec {Spec}.
Arguments so_Status {Spec}.

Definition DefaultCredentialsSecretKey : string := "password".
Definition DefaultAccessKeyIDSecretKey : string := "accessKeyId".
Definition DefaultSecretAccessKeySecretKey : string := "secretAccessKey".
Definition DefaultSessionTokenSecretKey : string := "sessionToken".

Definition defaultSinkResyncPeriod : Z := 2 * Duration.minute.

Definition clickHouseSinkID (name : string) : ID := mkID clickHouseSinkKind name.
Definition s3SinkID (name : string) : ID := mkID s3SinkKind name.

Definition sinkReadyOrder : list string := [ConditionCredentialsResolved; ConditionSchemaValid].
Definition s3SinkReadyOrder : list string := [ConditionCredentialsResolved; ConditionBucketReachable].

Record credentialError := mkCredentialError { ce_reason : string; ce_message : string }.

(** The answers a pass meets: the sink, the data of a Secret, the status update. *)
Record sinkWorld (E Spec : Type) := mkSinkWorld {
  sw_sink : result E (sinkObject Spec);
  sw_secret : NamespacedName -> result E (gmap string string);
  sw_update : (result E sinkStatus * updateOutcome E) * list (result E sinkStatus * updateOutcome E);
}.
Arguments mkSinkWorld {E Spec}.
Arguments sw_sink {E Spec}.
Arguments sw_secret {E Spec}.
Arguments sw_update {E Spec}.

Record sinkReconciler := mkSinkReconciler {
  sk_recorder : bool;
  sk_OperatorNamespace : string;
  sk_ResyncPeriod : Z;
}.

Definition sink_resyncPeriod (r : sinkReconciler) : Z :=
  if bool_decide (0 < sk_ResyncPeriod r)%Z then sk_ResyncPeriod r else defaultSinkResyncPeriod.

(** An omitted namespace is the operator's. *)
Definition resolve_ref (r : sinkReconciler) (ref : SecretReference) : NamespacedName :=
  mkNamespacedName (if bool_decide (sr_Namespace ref = "") then sk_OperatorNamespace r else sr_Namespace ref) (sr_Name ref).

Definition ch_secretRef (r : sinkReconciler) (spec : ClickHouseSinkSpec) : NamespacedName :=
  resolve_ref r (cn_CredentialsSecretRef (cs_Connection spec)).

(** [hasSecretRef] and [secretRef] of an S3 sink. *)
Definition s3_secretRef (r : sinkReconciler) (spec : S3SinkSpec) : option NamespacedName :=
  match s3_Credentials spec with
  | Some c => resolve_ref r <$> s3c_SecretRef c
  | None => None
  end.

Section passes.
Context `{ConditionHelpers, APIErrors, Strconv, !ErrorText api_error}.

Definition resolveCredential (r : sinkReconciler) (w : sinkWorld api_error ClickHouseSinkSpec) (spec : ClickHouseSinkSpec)
    : result credentialError string :=
  let ref := ch_secretRef r spec in
  match sw_secret w ref with
  | Err err =>
      Err (mkCredentialError ReasonSecretNotFound
             (if IsNotFound err then "Secret " +:+ NamespacedName_String ref +:+ " does not exist"
              else "Secret " +:+ NamespacedName_String ref +:+ " could not be read: " +:+ error_text err))
  | Ok data =>
      match data !! DefaultCredentialsSecretKey with
      | Some password =>
          if bool_decide (password = "") then
            Err (mkCredentialError ReasonSecretKeyMissing
                   ("Secret " +:+ NamespacedName_String ref +:+ " carries no non-empty " +:+ Quote DefaultCredentialsSecretKey +:+ " key"))
          else Ok password
      | None =>
          Err (mkCredentialError ReasonSecretKeyMissing
                 ("Secret " +:+ NamespacedName_String ref +:+ " carries no non-empty " +:+ Quote DefaultCredentialsSecretKey +:+ " key"))
      end
  end.

Definition presentKeys (data : gmap string string) : string :=
  if bool_decide (data = ∅) then "no keys"
  else join ", " (merge_sort String.le (map (fun kv => Quote kv.1) (map_to_list data))).

Definition resolveCredentials (r : sinkReconciler) (w : sinkWorld api_error S3SinkSpec) (spec : S3SinkSpec)
    : result credentialError Credentials :=
  match s3_secretRef r spec with
  | None => Ok (mkCredentials "" "" "")
  | Some ref =>
      match sw_secret w ref with
      | Err err =>
          Err (mkCredentialError ReasonSecretNotFound
                 (if IsNotFound err then "Secret " +:+ NamespacedName_String ref +:+ " does not exist"
                  else "Secret " +:+ NamespacedName_String ref +:+ " could not be read: " +:+ error_text err))
      | Ok data =>
          let creds := mkCredentials (default "" (data !! DefaultAccessKeyIDSecretKey)) (default "" (data !! DefaultSecretAccessKeySecretKey))
                         (default "" (data !! DefaultSessionTokenSecretKey)) in
          if bool_decide (cr_AccessKeyID creds = "") || bool_decide (cr_SecretAccessKey creds = "") then
            Err (mkCredentialError ReasonSecretKeyMissing
                   ("Secret " +:+ NamespacedName_String ref +:+ " must carry non-empty " +:+ Quote DefaultAccessKeyIDSecretKey +:+ " and " +:+
                    Quote DefaultSecretAccessKeySecretKey +:+ " keys (it carries " +:+ presentKeys data +:+ ")"))
          else Ok creds
      end
  end.

(** [setHealthConditions] of the ClickHouse sink. *)
Definition ch_setHealthConditions (verdict : option ProbeResult) (credErr : option credentialError) (status : statusWriter) : statusWriter :=
  match credErr with
  | Some _ =>
      status_set ConditionSchemaValid ConditionUnknown ReasonCredentialsUnavailable
        "The schema cannot be checked until the sink's credentials resolve" status
  | None =>
      match verdict with
      | None => status_set ConditionSchemaValid ConditionUnknown ReasonProbePending "Waiting for the first health probe to settle" status
      | Some result =>
          match pr_Err result with
          | None => status_set ConditionSchemaValid ConditionTrue ReasonSchemaMatches
                      "The live ClickHouse schema matches the schema this operator writes" status
          | Some err =>
              if bool_decide (pr_Reason result = ProbeReasonSchemaInvalid) then
                status_set ConditionSchemaValid ConditionFalse ProbeReasonSchemaInvalid
                  ("The live ClickHouse schema does not match the schema this operator writes: " +:+ pe_text err) status
              else status_set ConditionSchemaValid ConditionUnknown ProbeReasonUnreachable
                     ("ClickHouse did not answer, so its schema is unknown: " +:+ pe_text err) status
          end
      end
  end.

Definition setCredentialsResolved (r : sinkReconciler) (spec : S3SinkSpec) (creds : Credentials) (status : statusWriter) : statusWriter :=
  if IsAmbient creds then
    status_set ConditionCredentialsResolved ConditionTrue ReasonAmbientCredentials
      ("This sink names no Secret and authenticates from the ambient credential chain " +:+
       "(IRSA, workload identity or an instance role)") status
  else status_set ConditionCredentialsResolved ConditionTrue ReasonSecretResolved
         ("Read the access key from Secret " +:+
          match s3_secretRef r spec with Some ref => NamespacedName_String ref | None => "" end) status.

(** [setHealthConditions] of the S3 sink. *)
Definition s3_setHealthConditions (r : sinkReconciler) (spec : S3SinkSpec) (verdict : option ProbeResult)
    (creds : result credentialError Credentials) (status : statusWriter) : statusWriter :=
  let unreachable := status_set ConditionBucketReachable ConditionUnknown ReasonCredentialsUnavailable
                       "The bucket cannot be checked until the sink's credentials resolve" in
  match creds with
  | Err credErr => unreachable (status_set ConditionCredentialsResolved ConditionFalse (ce_reason credErr) (ce_message credErr) status)
  | Ok creds =>
      match verdict with
      | None =>
          status_set ConditionBucketReachable ConditionUnknown ReasonProbePending "Waiting for the first health probe to settle"
            (setCredentialsResolved r spec creds status)
      | Some result =>
          if bool_decide (pr_Reason result = ProbeReasonCredentialsInvalid) then
            unreachable (status_set ConditionCredentialsResolved ConditionFalse ReasonCredentialsUnavailable
              ("No credential could be obtained for this sink: " +:+ match pr_Err result with Some e => pe_text e | None => "<nil>" end) status)
          else
            let status := setCredentialsResolved r spec creds status in
            match pr_Err result with
            | None => status_set ConditionBucketReachable ConditionTrue ReasonBucketWritable
                        ("Bucket " +:+ s3_Bucket spec +:+ " accepted a probe object") status
            | Some err =>
                if bool_decide (pr_Reason result = ProbeReasonSchemaInvalid) then
                  status_set ConditionBucketReachable ConditionFalse ReasonBucketIncompatible
                    ("Bucket " +:+ s3_Bucket spec +:+ " will not accept the objects this sink writes: " +:+ pe_text err) status
                else status_set ConditionBucketReachable ConditionFalse ReasonBucketUnreachable
                       ("Bucket " +:+ s3_Bucket spec +:+ " did not answer: " +:+ pe_text err) status
            end
      end
  end.

(** [setHistoryUnavailable], given what the runtime reports. *)
Definition setHistoryUnavailable (capabilities : option bool) (status : statusWriter) : statusWriter :=
  match capabilities with
  | None => status_set ConditionHistoryUnavailable ConditionUnknown ReasonCapabilitiesUnknown
              "This sink has no running instance yet, so what its backend can do has not been detected" status
  | Some true => status_set ConditionHistoryUnavailable ConditionFalse ReasonHistoryReadable historyReadableMessage status
  | Some false => status_set ConditionHistoryUnavailable ConditionTrue ReasonWriterOnlySink writerOnlySinkMessage status
  end.
End passes.

(** ** Reconcile *)

Inductive sinkError (E R : Type) :=
| errGetSinkObject (name : string) (err : E)
| errBuildConfig (name err : string)
| errNoLiveConfig (name : string)
| errEnsure (err : R)
| errUpdateSinkStatus (name : string) (err : E).
Arguments errGetSinkObject {E R}.
Arguments errBuildConfig {E R}.
Arguments errNoLiveConfig {E R}.
Arguments errEnsure {E R}.
Arguments errUpdateSinkStatus {E R}.

Inductive sinkResult (E R : Type) := SinkDone | SinkRequeue (delay : Z) | SinkFailed (err : sinkError E R).
Arguments SinkDone {E R}.
Arguments SinkRequeue {E R}.
Arguments SinkFailed {E R}.

(** The result of a pass, the events it emitted and the status it wrote. *)
Record sinkPass (E R : Type) := mkSinkPass {
  sp_result : sinkResult E R;
  sp_events : list clusterEvent;
  sp_written : option sinkStatus;
}.
Arguments mkSinkPass {E R}.
Arguments sp_result {E R}.
Arguments sp_events {E R}.
Arguments sp_written {E R}.

Section reconcile.
Context `{ConditionHelpers, APIErrors, Strconv, !ErrorText api_error, SinkRuntime RT}.

(** What the pass works on: the runtime and the hub. *)
Record sinkPlane := mkSinkPlane { pl_runtime : RT; pl_hub : SinkProbeHub }.

(** [declare]: a builder answers with an error, a nil configuration, or one. *)
Definition declare (id : ID) (built : result string (option rt_config)) (s : RT) : option (sinkError api_error rt_error) * RT :=
  match built with
  | Err e => (Some (errBuildConfig (ID_Name id) e), s)
  | Ok None => (Some (errNoLiveConfig (ID_Name id)), s)
  | Ok (Some cfg) => let '(err, s) := rt_Ensure id cfg s in (errEnsure <$> err, s)
  end.

(** The tail of both passes: the Ready roll-up, the status write and its events. *)
Definition finish_pass (r : sinkReconciler) {Spec} (obj : sinkObject Spec) (w : sinkWorld api_error Spec) (status : statusWriter)
    (ready : Condition) (history : bool) : sinkPass api_error rt_error :=
  let previousReady := findCondition (ss_Conditions (so_Status obj)) ConditionReady in
  let previousHistory := findCondition (ss_Conditions (so_Status obj)) ConditionHistoryUnavailable in
  let status := status_set ConditionReady (cd_Status ready) (cd_Reason ready) (cd_Message ready) status in
  let mutate fresh := mkSinkStatus (status_apply status (ss_Conditions fresh)) (sw_generation status) in
  match updateStatus mutate (sw_update w).1 (sw_update w).2 with
  | Err err => mkSinkPass (SinkFailed (errUpdateSinkStatus (so_Name obj) err)) [] None
  | Ok written =>
      mkSinkPass (SinkRequeue (sink_resyncPeriod r))
        (emitReadyEvent (sk_recorder r) previousReady ready ++
         (if history
          then match findCondition (sw_conditions status) ConditionHistoryUnavailable with
               | Some current => emitCapabilityLimitEvent (sk_recorder r) previousHistory current
               | None => []
               end
          else []))
        (Some written)
  end.

(** A sink that is gone is forgotten and withdrawn. *)
Definition withdraw (id : ID) (s : sinkPlane) : sinkPlane := mkSinkPlane (rt_Delete id (pl_runtime s)) (forget id (pl_hub s)).

(** [SinkReconciler.Reconcile]. *)
Definition ch_Reconcile (r : sinkReconciler) (build : string -> ClickHouseSinkSpec -> string -> result string (option rt_config))
    (name : string) (w : sinkWorld api_error ClickHouseSinkSpec) (s : sinkPlane) : sinkPass api_error rt_error * sinkPlane :=
  match sw_sink w with
  | Err err =>
      if IsNotFound err then (mkSinkPass SinkDone [] None, withdraw (clickHouseSinkID name) s)
      else (mkSinkPass (SinkFailed (errGetSinkObject name err)) [] None, s)
  | Ok obj =>
      let id := clickHouseSinkID (so_Name obj) in
      let status := mkStatusWriter [] (so_Generation obj) in
      let spec := so_Spec obj in
      let go credErr status runtime :=
        let status := ch_setHealthConditions (latest id (pl_hub s)) credErr status in
        let ready := readyFor status sinkReadyOrder ReasonConnected "ClickHouse is reachable, authenticated and carries the expected schema" in
        (finish_pass r obj w status ready false, mkSinkPlane runtime (pl_hub s)) in
      match resolveCredential r w spec with
      | Err credErr =>
          go (Some credErr) (status_set ConditionCredentialsResolved ConditionFalse (ce_reason credErr) (ce_message credErr) status) (pl_runtime s)
      | Ok password =>
          let status := status_set ConditionCredentialsResolved ConditionTrue ReasonSecretResolved
                          ("Read the password from Secret " +:+ NamespacedName_String (ch_secretRef r spec)) status in
          let '(err, runtime) := declare id (build (so_Name obj) spec password) (pl_runtime s) in
          match err with
          | Some e => (mkSinkPass (SinkFailed e) [] None, mkSinkPlane runtime (pl_hub s))
          | None => go None status runtime
          end
      end
  end.

(** [S3SinkReconciler.Reconcile]. *)
Definition s3_Reconcile (r : sinkReconciler) (build : string -> S3SinkSpec -> Credentials -> result string (option rt_config))
    (name : string) (w : sinkWorld api_error S3SinkSpec) (s : sinkPlane) : sinkPass api_error rt_error * sinkPlane :=
  match sw_sink w with
  | Err err =>
      if IsNotFound err then (mkSinkPass SinkDone [] None, withdraw (s3SinkID name) s)
      else (mkSinkPass (SinkFailed (errGetSinkObject name err)) [] None, s)
  | Ok obj =>
      let id := s3SinkID (so_Name obj) in
      let spec := so_Spec obj in
      let creds := resolveCredentials r w spec in
      let '(err, runtime) :=
        match creds with
        | Ok c => declare id (build (so_Name obj) spec c) (pl_runtime s)
        | Err _ => (None, pl_runtime s)
        end in
      match err with
      | Some e => (mkSinkPass (SinkFailed e) [] None, mkSinkPlane runtime (pl_hub s))
      | None =>
          let status := s3_setHealthConditions r spec (latest id (pl_hub s)) creds (mkStatusWriter [] (so_Generation obj)) in
          let status := setHistoryUnavailable (rt_CapabilitiesFor id runtime) status in
          let ready := readyFor status s3SinkReadyOrder ReasonArchiving
                         ("Bucket " +:+ s3_Bucket spec +:+ " accepted a write from this sink's credentials") in
          (finish_pass r obj w status ready true, mkSinkPlane runtime (pl_hub s))
      end
  end.

(** [sinksForSecret]: [sinks] is what listing the sinks of the kind answers; the field
    index keeps those that read the Secret. *)
Definition ch_sinksForSecret (r : sinkReconciler) (sinks : result api_error (list (sinkObject ClickHouseSinkSpec))) (secret : NamespacedName)
    : list string :=
  match sinks with
  | Err _ => []
  | Ok items => map so_Name (List.filter (fun obj =>
      bool_decide (NamespacedName_String (ch_secretRef r (so_Spec obj)) = NamespacedName_String secret)) items)
  end.

Definition s3_sinksForSecret (r : sinkReconciler) (sinks : result api_error (list (sinkObject S3SinkSpec))) (secret : NamespacedName)
    : list string :=
  match sinks with
  | Err _ => []
  | Ok items => map so_Name (List.filter (fun obj =>
      match s3_secretRef r (so_Spec obj) with
      | Some ref => bool_decide (NamespacedName_String ref = NamespacedName_String secret)
      | None => false
      end) items)
  end.
End reconcile.
Arguments sinkPlane : clear implicits.
