(* ===== verification/SinkSpec.v ===== *)
(** * SinkSpec: what a ready sink is

    Properties of [SinkController] against the interface of the sink runtime, and of its
    composition with the sink manager and the operator's configuration builders: when a
    sink calls itself ready, that a changed setting replaces the running instance, what
    the probe hub delivers, and two things the code does otherwise than it says. *)

From S2P Require Import Prelude Identity Plan GoJson RedactParse Coalesce CHWriter SinkManager Conditions RuleController SinkConfig SinkController.

Section ready.
Context `{ConditionLaws, APIErrors, Strconv, !ErrorText api_error, SinkRuntime RT}.

Lemma finish_written r {Spec} (obj : sinkObject Spec) w status ready history written :
  distinct_types status -> sp_written (finish_pass r obj w status ready history) = Some written ->
  findCondition (ss_Conditions written) ConditionReady =
    Some (condition ConditionReady (cd_Status ready) (cd_Reason ready) (cd_Message ready) (sw_generation status)) /\
  ss_ObservedGeneration written = sw_generation status.
Proof.
  intros Hd. unfold finish_pass. destruct (updateStatus _ _ _) as [fresh|] eqn:Eu; [|done]. intros [= <-].
  apply updateStatus_wrote in Eu as [before ->]. split; [|done]. cbn [ss_Conditions].
  rewrite find_status_apply by (by apply set_distinct). by rewrite find_status_set, decide_True.
Qed.

Definition healthy (verdict : option ProbeResult) : Prop := exists v, verdict = Some v /\ pr_Err v = None.

(** ** ClickHouse *)

Lemma ch_health_ready verdict credErr status r m :
  findCondition (sw_conditions status) ConditionCredentialsResolved =
    Some (condition ConditionCredentialsResolved (match credErr : option credentialError with Some _ => ConditionFalse | None => ConditionTrue end) r m (sw_generation status)) ->
  forall r' m', cd_Status (readyFor (ch_setHealthConditions verdict credErr status) sinkReadyOrder r' m') = ConditionTrue <->
    credErr = None /\ healthy verdict.
Proof.
  intros Hc r' m'. rewrite readyFor_true. unfold sinkReadyOrder. rewrite !Forall_cons, Forall_nil.
  assert (Hkeep : forall a b c, findCondition (sw_conditions (status_set ConditionSchemaValid a b c status)) ConditionCredentialsResolved =
            findCondition (sw_conditions status) ConditionCredentialsResolved) by (intros; by rewrite find_status_set, decide_False).
  unfold ch_setHealthConditions, healthy. destruct credErr as [e|].
  - rewrite Hkeep, Hc. simpl. split; [by intros [? _]|by intros [? _]].
  - destruct verdict as [v|]; [destruct (pr_Err v) as [err|] eqn:Ev; [destruct (bool_decide _)|]|];
      rewrite Hkeep, Hc, find_status_set, decide_True by done; simpl; naive_solver.
Qed.

Lemma ch_health_distinct verdict credErr status : distinct_types status ->
  distinct_types (ch_setHealthConditions verdict credErr status) /\
  sw_generation (ch_setHealthConditions verdict credErr status) = sw_generation status.
Proof. intros Hd. unfold ch_setHealthConditions. repeat case_match; (split; [by apply set_distinct|done]). Qed.

(** ** S3 *)

Lemma s3_health_ready r spec verdict creds status r' m' : distinct_types status ->
  let status' := s3_setHealthConditions r spec verdict creds status in
  distinct_types status' /\ sw_generation status' = sw_generation status /\
  forall caps, cd_Status (readyFor (setHistoryUnavailable caps status') s3SinkReadyOrder r' m') = ConditionTrue <->
    (exists c, creds = Ok c) /\ exists v, verdict = Some v /\ pr_Err v = None /\ pr_Reason v <> ProbeReasonCredentialsInvalid.
Proof.
  intros Hd status'. assert (Hset : forall c, distinct_types (setCredentialsResolved r spec c status) /\
      sw_generation (setCredentialsResolved r spec c status) = sw_generation status /\
      exists a b, findCondition (sw_conditions (setCredentialsResolved r spec c status)) ConditionCredentialsResolved =
        Some (condition ConditionCredentialsResolved ConditionTrue a b (sw_generation status))).
  { intros c. unfold setCredentialsResolved. destruct (IsAmbient c);
      (split; [by apply set_distinct|]); (split; [done|]); do 2 eexists; by rewrite find_status_set, decide_True. }
  assert (Hhist : forall caps st t, t <> ConditionHistoryUnavailable ->
            findCondition (sw_conditions (setHistoryUnavailable caps st)) t = findCondition (sw_conditions st) t).
  { intros caps st t Ht. unfold setHistoryUnavailable. destruct caps as [[]|]; by rewrite find_status_set, decide_False. }
  assert (Hready : forall st caps, cd_Status (readyFor (setHistoryUnavailable caps st) s3SinkReadyOrder r' m') = ConditionTrue <->
            cd_Status (readyFor st s3SinkReadyOrder r' m') = ConditionTrue).
  { intros st caps. rewrite !readyFor_true. unfold s3SinkReadyOrder. rewrite !Forall_cons, !Forall_nil. by rewrite !Hhist by done. }
  subst status'. unfold s3_setHealthConditions.
  destruct creds as [c|credErr].
  - destruct (Hset c) as (Hd' & Hg' & a & b & Hf). destruct verdict as [v|].
    + case_bool_decide as Er.
      * split_and!; [by apply set_distinct, set_distinct|done|]. intros caps. rewrite Hready, readyFor_true.
        unfold s3SinkReadyOrder. rewrite Forall_cons, !find_status_set, decide_False, decide_True by done. simpl. naive_solver.
      * destruct (pr_Err v) as [err|] eqn:Ev; [case_bool_decide|];
          (split_and!; [by apply set_distinct|done|]); intros caps; rewrite Hready, readyFor_true;
          unfold s3SinkReadyOrder; rewrite !Forall_cons, Forall_nil, !find_status_set, decide_False, decide_True, Hf by done; simpl; naive_solver.
    + split_and!; [by apply set_distinct|done|]. intros caps. rewrite Hready, readyFor_true.
      unfold s3SinkReadyOrder. rewrite !Forall_cons, Forall_nil, !find_status_set, decide_False, decide_True, Hf by done. simpl. naive_solver.
  - split_and!; [by apply set_distinct, set_distinct|done|]. intros caps. rewrite Hready, readyFor_true.
    unfold s3SinkReadyOrder. rewrite Forall_cons, !find_status_set, decide_False, decide_True by done. simpl. naive_solver.
Qed.

(** The credential a ClickHouse sink names: the Secret's non-empty password. *)
Definition names_password r (w : sinkWorld api_error ClickHouseSinkSpec) spec password : Prop :=
  exists data, sw_secret w (ch_secretRef r spec) = Ok data /\ data !! DefaultCredentialsSecretKey = Some password /\ password <> "".

Lemma resolveCredential_ok r w spec password : resolveCredential r w spec = Ok password <-> names_password r w spec password.
Proof.
  unfold resolveCredential, names_password. destruct (sw_secret w _) as [data|err]; [|naive_solver].
  destruct (data !! DefaultCredentialsSecretKey) as [p|] eqn:E; [|naive_solver]. case_bool_decide; naive_solver.
Qed.

(** The credential an S3 sink names: none, or both halves of a key with a token that
    may be missing. *)
Definition names_key r (w : sinkWorld api_error S3SinkSpec) spec creds : Prop :=
  (s3_secretRef r spec = None /\ creds = mkCredentials "" "" "") \/
  exists ref data, s3_secretRef r spec = Some ref /\ sw_secret w ref = Ok data /\
    data !! DefaultAccessKeyIDSecretKey = Some (cr_AccessKeyID creds) /\ cr_AccessKeyID creds <> "" /\
    data !! DefaultSecretAccessKeySecretKey = Some (cr_SecretAccessKey creds) /\ cr_SecretAccessKey creds <> "" /\
    cr_SessionToken creds = default "" (data !! DefaultSessionTokenSecretKey).

Lemma resolveCredentials_ok r w spec creds : resolveCredentials r w spec = Ok creds <-> names_key r w spec creds.
Proof.
  unfold resolveCredentials, names_key. destruct (s3_secretRef r spec) as [ref|].
  2: { split; [intros [= <-]; by left|]. by intros [[_ ->]|(? & ? & ? & _)]. }
  destruct (sw_secret w ref) as [data|err] eqn:Es.
  2: { split; [done|]. intros [[? _]|(ref' & data & [= <-] & E & _)]; congruence. }
  cbn [cr_AccessKeyID cr_SecretAccessKey].
  destruct (_ || _) eqn:Eg.
  - split; [done|]. apply orb_true_iff in Eg. rewrite !bool_decide_eq_true in Eg.
    intros [[? _]|(ref' & data' & [= <-] & E & Ha & Hna & Hb & Hnb & _)]; [done|]. rewrite Es in E. injection E as <-.
    rewrite Ha, Hb in Eg. simpl in Eg. tauto.
  - apply orb_false_iff in Eg as [Hna%bool_decide_eq_false_1 Hnb%bool_decide_eq_false_1]. split.
    + intros [= <-]. right. exists ref, data. cbn [cr_AccessKeyID cr_SecretAccessKey cr_SessionToken].
      destruct (data !! DefaultAccessKeyIDSecretKey), (data !! DefaultSecretAccessKeySecretKey); done.
    + intros [[? _]|(ref' & data' & [= <-] & E & Ha & _ & Hb & _ & Ht)]; [done|]. rewrite Es in E. injection E as <-.
      rewrite Ha, Hb, <-Ht. by destruct creds.
Qed.

(** A pass whose status says Ready: the sink's own credential, accepted, and healthy. *)
Definition ch_usable r (build : string -> ClickHouseSinkSpec -> string -> result string (option rt_config)) (obj : sinkObject ClickHouseSinkSpec) w (s s' : sinkPlane RT) : Prop :=
  exists password cfg, names_password r w (so_Spec obj) password /\ build (so_Name obj) (so_Spec obj) password = Ok (Some cfg) /\
    rt_Ensure (clickHouseSinkID (so_Name obj)) cfg (pl_runtime s) = (None, pl_runtime s') /\
    healthy (latest (clickHouseSinkID (so_Name obj)) (pl_hub s)).

Definition s3_usable r (build : string -> S3SinkSpec -> Credentials -> result string (option rt_config)) (obj : sinkObject S3SinkSpec) w (s s' : sinkPlane RT) : Prop :=
  exists creds cfg, names_key r w (so_Spec obj) creds /\ build (so_Name obj) (so_Spec obj) creds = Ok (Some cfg) /\
    rt_Ensure (s3SinkID (so_Name obj)) cfg (pl_runtime s) = (None, pl_runtime s') /\
    exists v, latest (s3SinkID (so_Name obj)) (pl_hub s) = Some v /\ pr_Err v = None /\ pr_Reason v <> ProbeReasonCredentialsInvalid.

Lemma declare_ok id built (m m' : RT) : declare id built m = (None, m') <->
  exists cfg, built = Ok (Some cfg) /\ rt_Ensure id cfg m = (None, m').
Proof.
  unfold declare. destruct built as [[cfg|]|e]; [|naive_solver..].
  destruct (rt_Ensure id cfg m) as [[err|] m1] eqn:E; simpl; split; [naive_solver| |naive_solver|];
    intros (cfg' & [= <-] & E'); congruence.
Qed.

Lemma ch_pass_ready r build name w s obj delay events written s' :
  sw_sink w = Ok obj -> ch_Reconcile r build name w s = (mkSinkPass (SinkRequeue delay) events (Some written), s') ->
  pl_hub s' = pl_hub s /\ exists c, findCondition (ss_Conditions written) ConditionReady = Some c /\
    cd_ObservedGeneration c = so_Generation obj /\ (cd_Status c = ConditionTrue <-> ch_usable r build obj w s s').
Proof.
  intros Hw. unfold ch_Reconcile. rewrite Hw. cbv zeta.
  destruct (resolveCredential r w (so_Spec obj)) as [password|credErr] eqn:Ec.
  - destruct (declare _ _ _) as [[e|] m'] eqn:Ed; [done|]. intros [Hp <-]%pair_equal_spec. split; [done|].
    match type of Hp with finish_pass _ _ _ (ch_setHealthConditions ?v ?ce ?st) _ _ = _ =>
      destruct (ch_health_distinct v ce st) as [Hd Hg]; [apply set_distinct; constructor|] end.
    apply (f_equal sp_written) in Hp. destruct (finish_written _ _ _ _ _ _ _ Hd Hp) as [Hf _].
    eexists. split; [exact Hf|]. split; [exact Hg|]. cbn [cd_Status condition].
    rewrite ch_health_ready by (by rewrite find_status_set, decide_True).
    apply declare_ok in Ed as (cfg & Hb & He). unfold ch_usable. simpl. split.
    + intros [_ Hh]. exists password, cfg. by rewrite <-resolveCredential_ok.
    + intros (p & c & _ & _ & _ & Hh). done.
  - intros [Hp <-]%pair_equal_spec. split; [done|].
    match type of Hp with finish_pass _ _ _ (ch_setHealthConditions ?v ?ce ?st) _ _ = _ =>
      destruct (ch_health_distinct v ce st) as [Hd Hg]; [apply set_distinct; constructor|] end.
    apply (f_equal sp_written) in Hp. destruct (finish_written _ _ _ _ _ _ _ Hd Hp) as [Hf _].
    eexists. split; [exact Hf|]. split; [exact Hg|]. cbn [cd_Status condition].
    rewrite ch_health_ready by (by rewrite find_status_set, decide_True). unfold ch_usable. split; [by intros [? _]|].
    intros (p & c & Hn%resolveCredential_ok & _). congruence.
Qed.

Lemma s3_pass_ready r build name w s obj delay events written s' :
  sw_sink w = Ok obj -> s3_Reconcile r build name w s = (mkSinkPass (SinkRequeue delay) events (Some written), s') ->
  pl_hub s' = pl_hub s /\ exists c, findCondition (ss_Conditions written) ConditionReady = Some c /\
    cd_ObservedGeneration c = so_Generation obj /\ (cd_Status c = ConditionTrue <-> s3_usable r build obj w s s').
Proof.
  intros Hw. unfold s3_Reconcile. rewrite Hw.
  set (creds := resolveCredentials r w (so_Spec obj)). set (id := s3SinkID (so_Name obj)).
  destruct (match creds with Ok c => _ | Err _ => _ end) as [[e|] m'] eqn:Ed; [done|]. cbv zeta. intros [Hp <-]%pair_equal_spec. split; [done|].
  set (st0 := mkStatusWriter [] (so_Generation obj)) in Hp.
  match type of Hp with finish_pass _ _ _ _ (readyFor _ _ ?a ?b) _ = _ =>
    destruct (s3_health_ready r (so_Spec obj) (latest id (pl_hub s)) creds st0 a b) as (Hd & Hg & Hr); [constructor|] end.
  apply (f_equal sp_written) in Hp.
  match type of Hp with sp_written (finish_pass _ _ _ (setHistoryUnavailable ?caps ?st) _ _) = _ =>
    assert (Hh : distinct_types (setHistoryUnavailable caps st) /\ sw_generation (setHistoryUnavailable caps st) = so_Generation obj)
      by (unfold setHistoryUnavailable; repeat case_match; (split; [by apply set_distinct|exact Hg])) end.
  destruct Hh as [Hd' Hg']. destruct (finish_written _ _ _ _ _ _ _ Hd' Hp) as [Hf _].
  eexists. split; [exact Hf|]. split; [exact Hg'|]. cbn [cd_Status condition]. rewrite Hr. unfold s3_usable. fold id. simpl. split.
  - intros [[c Hc] Hv]. rewrite Hc in Ed. apply declare_ok in Ed as (cfg & Hb & He). exists c, cfg.
    rewrite <-resolveCredentials_ok. done.
  - intros (c & cfg & Hn%resolveCredentials_ok & _ & _ & Hv). split; [by exists c|done].
Qed.
End ready.

(** ** The operator's sinks *)

Section operator.
Context `{ConditionLaws, APIErrors, Encoders, Strconv, !QuoteLaws, !ErrorText api_error}.
Context (dial : nat -> chConfig -> result string unit) (store : nat -> ClientConfig -> result string unit).
Context (tuning : writerTuning) (autoCreate : bool).

#[local] Existing Instance operator_backends.
#[local] Instance sinks : Backends := operator_backends dial store.

Definition ch_build (name : string) (spec : ClickHouseSinkSpec) (password : string) : result string (option InstanceConfig) :=
  Ok (Some (CHInstance (newSinkConfigBuilder tuning autoCreate name spec password))).

Definition s3_build (name : string) (spec : S3SinkSpec) (creds : Credentials) : result string (option InstanceConfig) :=
  Ok (Some (S3Instance (newS3SinkConfigBuilder tuning name spec creds))).

Definition collision : Prop := exists x y, x <> y /\ sha256_hex x = sha256_hex y.

(** The instance [i] of a sink made way for another: a goroutine drains it. *)
Definition replaced (m m' : SinkManager) (id : ID) (i : nat) : Prop :=
  exists j, mg_live m' !! id = Some j /\ j <> i /\ Drain i AtCancel ∈ mg_tails m'.

(** The sink runs with exactly this configuration; an instance that ran with the same
    one was left alone, one that ran with any other was replaced. *)
Definition runs_exactly (m m' : SinkManager) (id : ID) (c : instanceConfig) : Prop :=
  (exists inst, instance_of id m' = Some inst /\ ls_fingerprint inst = Fingerprint c) /\
  forall i old c0, mg_live m !! id = Some i -> mg_instances m !! i = Some old -> ls_fingerprint old = Fingerprint c0 ->
    (c0 = c /\ m' = m) \/ (c0 <> c /\ replaced m m' id i) \/ collision.

Lemma ensure_runs (id : ID) (c : instanceConfig) (m m' : SinkManager) : sound m -> mg_running m = true -> mg_stopped m = false ->
  ID_Kind id <> "" -> ID_Name id <> "" -> Ensure id (Some c) m = (None, m') -> runs_exactly m m' id c.
Proof.
  intros Hsound Hrun Hstop Hk Hn. unfold Ensure. rewrite Hstop, Hrun, !bool_decide_eq_false_2 by done. simpl. unfold ensureLocked.
  destruct (mg_live m !! id) as [i|] eqn:El.
  - destruct (mg_instances m !! i) as [old|] eqn:Ei.
    + case_bool_decide as Ef.
      * intros [= <-]. split; [exists old; split; [unfold instance_of; rewrite El; simpl; exact Ei|done]|].
        intros i' old' c0 Hi E' Hc0. rewrite El in Hi. injection Hi as <-. rewrite Ei in E'. injection E' as <-. rewrite Hc0 in Ef.
        destruct (fingerprint_determines dial store c0 c Ef) as [-> |?]; auto.
      * destruct (factory _ _ _) as [writer|] eqn:Efac; [|done]. intros [= <-]. split.
        -- eexists. unfold instance_of. simpl. rewrite lookup_partial_alter, decide_True by done. simpl.
           rewrite lookup_app_r, Nat.sub_diag by done. split; [done|]. done.
        -- intros i' old' c0 Hi E' Hc0. rewrite El in Hi. injection Hi as <-. rewrite Ei in E'. injection E' as <-. right. left. split; [congruence|].
           exists (length (mg_instances m)). simpl. rewrite lookup_partial_alter, decide_True by done. split; [done|].
           apply lookup_lt_Some in Ei. split; [lia|]. apply elem_of_app. right. by apply list_elem_of_singleton.
    + by destruct (so_live _ Hsound _ _ El) as (x & ? & _); simplify_eq.
  - destruct (factory _ _ _) as [writer|] eqn:Efac; [|done]. intros [= <-]. split; [|intros; congruence].
    eexists. unfold instance_of. simpl. rewrite lookup_partial_alter, decide_True by done. simpl.
    rewrite lookup_app_r, Nat.sub_diag by done. done.
Qed.

(** A refused declaration leaves every route as it was. *)
Lemma ensure_refused (id : ID) (c : instanceConfig) (m m' : SinkManager) e : Ensure id (Some c) m = (Some e, m') ->
  mg_live m' = mg_live m /\ mg_instances m' = mg_instances m /\ mg_tails m' = mg_tails m.
Proof.
  unfold Ensure. destruct (_ || _); [by intros [= _ <-]|]. destruct (mg_stopped m); [by intros [= _ <-]|].
  destruct (negb _); [done|]. unfold ensureLocked.
  destruct (match mg_live m !! id with Some _ => _ | None => _ end); [done|].
  destruct (factory _ _ _) as [writer|reason]; [done|]. by intros [= _ <-].
Qed.

(** What a pass whose credential resolved does to the manager. *)
Definition declares (m m' : SinkManager) (id : ID) (c : instanceConfig) (pass : sinkPass api_error managerError) : Prop :=
  match sp_result pass with
  | SinkFailed (errEnsure _) => mg_live m' = mg_live m /\ mg_instances m' = mg_instances m /\ mg_tails m' = mg_tails m
  | _ => runs_exactly m m' id c
  end.

Lemma finish_result r {Spec} (obj : sinkObject Spec) w status ready history :
  match sp_result (finish_pass (RT := SinkManager) r obj w status ready history) with SinkFailed (errEnsure _) => False | _ => True end.
Proof. unfold finish_pass. by destruct (updateStatus _ _ _). Qed.

Lemma declares_pass m m' id c (err : option managerError) (p : sinkPass api_error managerError) : sound m -> mg_running m = true -> mg_stopped m = false ->
  ID_Kind id <> "" -> ID_Name id <> "" -> Ensure id (Some c) m = (err, m') ->
  (forall e, err = Some e -> sp_result p = SinkFailed (errEnsure e)) ->
  (err = None -> match sp_result p with SinkFailed (errEnsure _) => False | _ => True end) -> declares m m' id c p.
Proof.
  intros Hs Hr Hst Hk Hn He Hfail Hok. unfold declares. destruct err as [e|].
  - rewrite (Hfail e eq_refl). by eapply ensure_refused.
  - specialize (Hok eq_refl). pose proof (ensure_runs id c m m' Hs Hr Hst Hk Hn He).
    destruct (sp_result p) as [| |[]]; done.
Qed.
End operator.

(** ** The probe hub *)

(** What a run of the hub took from the runtime and handed to the reconcilers of a kind,
    and what a sink's verdict is after it. *)
Fixpoint hub_received (kind : string) (ops : list hubOp) (h : SinkProbeHub) : list string :=
  match ops with
  | [] => []
  | op :: rest =>
      match op, hub_sending h with
      | HubResult r, None => if bool_decide (ID_Kind (pr_Sink r) = kind) then [ID_Name (pr_Sink r)] else []
      | _, _ => []
      end ++ hub_received kind rest (step_hub op h)
  end.

Fixpoint hub_woken (kind : string) (ops : list hubOp) (h : SinkProbeHub) : list string :=
  match ops with
  | [] => []
  | op :: rest =>
      match op with
      | HubTake k => if bool_decide (k = kind) then match (hub_take k h).1 with Some name => [name] | None => [] end else []
      | _ => []
      end ++ hub_woken kind rest (step_hub op h)
  end.

Fixpoint last_verdict (id : ID) (ops : list hubOp) (h : SinkProbeHub) (v : option ProbeResult) : option ProbeResult :=
  match ops with
  | [] => v
  | op :: rest =>
      last_verdict id rest (step_hub op h)
        (match op, hub_sending h with
         | HubResult r, None => if bool_decide (pr_Sink r = id) then Some r else v
         | HubForget id', _ => if bool_decide (id' = id) then None else v
         | _, _ => v
         end)
  end.

(** The wake-ups on their way to the reconcilers of a kind. *)
Definition hub_pending (kind : string) (h : SinkProbeHub) : list string :=
  default [] (hub_targets h !! kind) ++
  match hub_sending h with Some (k, name) => if bool_decide (k = kind) then [name] else [] | None => [] end.

Lemma hub_pending_lookup kind h events : hub_targets h !! kind = Some events ->
  hub_pending kind h = events ++ match hub_sending h with Some (k, name) => if bool_decide (k = kind) then [name] else [] | None => [] end.
Proof. unfold hub_pending. by intros ->. Qed.

Lemma step_hub_targets op h kind : is_Some (hub_targets (step_hub op h) !! kind) <-> is_Some (hub_targets h !! kind).
Proof.
  assert (Hins : forall k (x : list string) (m : gmap string (list string)), is_Some (m !! k) -> is_Some (<[k := x]> m !! kind) <-> is_Some (m !! kind)).
  { intros k x m Hk. destruct (decide (k = kind)) as [-> |Hne]; [rewrite lookup_insert_eq; naive_solver|by rewrite lookup_insert_ne]. }
  destruct op as [r| |k|id]; simpl; [|..|done].
  - unfold hub_receive. destruct (hub_sending h); [done|]. by destruct (hub_targets (record_verdict r h) !! _).
  - unfold hub_send. destruct (hub_sending h) as [[k name]|]; [|done]. destruct (hub_targets h !! k) eqn:E; [|done].
    case_bool_decide; [|done]. simpl. apply Hins. by rewrite E.
  - unfold hub_take. destruct (hub_targets h !! k) as [[|name rest]|] eqn:E; try done. simpl. apply Hins. by rewrite E.
Qed.

Lemma step_hub_pending op h kind : is_Some (hub_targets h !! kind) ->
  hub_pending kind h ++ hub_received kind [op] h = hub_woken kind [op] h ++ hub_pending kind (step_hub op h).
Proof.
  intros [events He]. rewrite (hub_pending_lookup kind h events He). cbn [hub_received hub_woken]. rewrite !app_nil_r.
  destruct op as [r| |k|id]; cbn [step_hub].
  - unfold hub_receive. destruct (hub_sending h) as [[k name]|] eqn:Es.
    + rewrite app_nil_r, (hub_pending_lookup _ _ events He), Es. done.
    + destruct (hub_targets (record_verdict r h) !! _) as [ev|] eqn:Et.
      * rewrite (hub_pending_lookup _ _ events) by done. by rewrite app_nil_r.
      * rewrite bool_decide_eq_false_2 by (intros <-; simpl in Et; congruence). rewrite (hub_pending_lookup _ _ events) by done.
        simpl. rewrite Es. by rewrite !app_nil_r.
  - unfold hub_send. rewrite app_nil_r. destruct (hub_sending h) as [[k name]|] eqn:Es; [|by rewrite (hub_pending_lookup _ _ events He), Es].
    destruct (hub_targets h !! k) as [ev|] eqn:Et; [|by rewrite (hub_pending_lookup _ _ events He), Es].
    destruct (bool_decide_reflect (length ev < probeEventCapacity)); [|by rewrite (hub_pending_lookup _ _ events He), Es]. unfold hub_pending. simpl. rewrite app_nil_r.
    destruct (decide (k = kind)) as [-> |Hne].
    + rewrite lookup_insert_eq, bool_decide_eq_true_2 by done. simpl. congruence.
    + rewrite lookup_insert_ne, He, bool_decide_eq_false_2 by done. by rewrite app_nil_r.
  - unfold hub_take. rewrite app_nil_r. destruct (decide (k = kind)) as [-> |Hne].
    + rewrite bool_decide_eq_true_2, He by done. destruct events as [|name rest]; simpl; [by rewrite (hub_pending_lookup _ _ [] He)|].
      unfold hub_pending. simpl. by rewrite lookup_insert_eq.
    + rewrite bool_decide_eq_false_2 by done. destruct (hub_targets h !! k) as [[|name rest]|]; simpl; try by rewrite (hub_pending_lookup _ _ events He).
      unfold hub_pending. simpl. by rewrite lookup_insert_ne, He by done.
  - rewrite app_nil_r. unfold hub_pending. simpl. by rewrite He.
Qed.

Lemma step_hub_latest op h id :
  latest id (step_hub op h) = last_verdict id [op] h (latest id h).
Proof.
  unfold latest. destruct op as [r| |k|id']; simpl.
  - unfold hub_receive. destruct (hub_sending h); [done|].
    assert (E : hub_store (match hub_targets (record_verdict r h) !! ID_Kind (pr_Sink r) with
              | None => record_verdict r h
              | Some _ => mkHub (hub_store (record_verdict r h)) (hub_targets (record_verdict r h)) (hub_added (record_verdict r h))
                            (Some (ID_Kind (pr_Sink r), ID_Name (pr_Sink r))) end) = <[pr_Sink r := r]> (hub_store h)) by (by case_match).
    rewrite E. case_bool_decide as Hid; [by rewrite Hid, lookup_insert_eq|by rewrite lookup_insert_ne].
  - unfold hub_send. destruct (hub_sending h) as [[k name]|]; [|done]. repeat case_match; done.
  - unfold hub_take. repeat case_match; done.
  - case_bool_decide as Hid; [by rewrite Hid, lookup_delete_eq|by rewrite lookup_delete_ne].
Qed.

Lemma run_hub_delivers ops h kind : is_Some (hub_targets h !! kind) ->
  hub_pending kind h ++ hub_received kind ops h = hub_woken kind ops h ++ hub_pending kind (run_hub ops h).
Proof.
  revert h. induction ops as [|op ops IH]; intros h Hk; [simpl; by rewrite app_nil_r|].
  assert (Hk' : is_Some (hub_targets (step_hub op h) !! kind)) by (by apply step_hub_targets).
  specialize (IH _ Hk'). pose proof (step_hub_pending op h kind Hk) as Hs. cbn [hub_received hub_woken] in Hs |- *.
  rewrite !app_nil_r in Hs. rewrite app_assoc, Hs, <-!app_assoc. by f_equal.
Qed.

Lemma run_hub_latest ops h id : latest id (run_hub ops h) = last_verdict id ops h (latest id h).
Proof. revert h. induction ops as [|op ops IH]; intros h; [done|]. simpl. rewrite IH. by rewrite step_hub_latest. Qed.

(** ** Properties *)

(** The hub loses and reorders nothing. For a kind that is registered, however results
    arrive, sends block on a full channel, reconcilers take wake-ups and sinks are
    forgotten: the names of the results taken from the runtime are, in order, the
    wake-ups reconcilers took followed by those on their way; and the verdict a
    reconciler reads about a sink is that of the last result about it taken since the
    sink was last forgotten. *)
Theorem hub_wakes_in_order ops h kind id :
  is_Some (hub_targets h !! kind) -> hub_pending kind h = [] ->
  hub_received kind ops h = hub_woken kind ops h ++ hub_pending kind (run_hub ops h) /\
  latest id (run_hub ops h) = last_verdict id ops h (latest id h).
Proof.
  intros Hk Hp. split; [|apply run_hub_latest]. pose proof (run_hub_delivers ops h kind Hk) as Hd. by rewrite Hp in Hd.
Qed.

(** Once the credential resolved and the configuration was built, the pass hands it to
    the runtime, whatever comes of the status. *)
Lemma ch_pass_ensures `{ConditionLaws, APIErrors, Strconv, !ErrorText api_error, SinkRuntime RT} r build name w (s : sinkPlane RT) obj password cfg :
  sw_sink w = Ok obj -> names_password r w (so_Spec obj) password -> build (so_Name obj) (so_Spec obj) password = Ok (Some cfg) ->
  pl_runtime (ch_Reconcile r build name w s).2 = (rt_Ensure (clickHouseSinkID (so_Name obj)) cfg (pl_runtime s)).2.
Proof.
  intros Hw Hp%resolveCredential_ok Hb. unfold ch_Reconcile. rewrite Hw. cbv zeta. rewrite Hp. unfold declare. rewrite Hb.
  by destruct (rt_Ensure _ _ _) as [[e|] m'].
Qed.

(** C6: Ready means usable. When a pass of either sink kind writes a status, the status
    carries a Ready condition of the object's generation, and the condition is True
    exactly when the credential the sink names - in the namespace it names, or the
    operator's - was there with every part non-empty, the configuration built from it
    was accepted by the runtime in this pass, and the latest verdict about this very
    sink, kind and name, is a healthy one. The pass itself records no verdict. *)
Theorem sink_ready_exact `{ConditionLaws, APIErrors, Strconv, !ErrorText api_error, SinkRuntime RT} r name (s s' : sinkPlane RT) delay events written :
  (forall build w obj, sw_sink w = Ok obj ->
     ch_Reconcile r build name w s = (mkSinkPass (SinkRequeue delay) events (Some written), s') ->
     pl_hub s' = pl_hub s /\ exists c, findCondition (ss_Conditions written) ConditionReady = Some c /\
       cd_ObservedGeneration c = so_Generation obj /\ (cd_Status c = ConditionTrue <-> ch_usable r build obj w s s')) /\
  (forall build w obj, sw_sink w = Ok obj ->
     s3_Reconcile r build name w s = (mkSinkPass (SinkRequeue delay) events (Some written), s') ->
     pl_hub s' = pl_hub s /\ exists c, findCondition (ss_Conditions written) ConditionReady = Some c /\
       cd_ObservedGeneration c = so_Generation obj /\ (cd_Status c = ConditionTrue <-> s3_usable r build obj w s s')).
Proof. split; intros build w obj; [apply ch_pass_ready|apply s3_pass_ready]. Qed.

(** C7: a changed setting replaces the running instance, and nothing else does. In any
    state a running sink manager can reach, a pass of the operator's reconcilers whose
    credential resolved leaves the sink running with exactly the configuration the
    builders make of its specification and that credential - or, when the runtime refuses
    it, leaves every route as it was. An instance that ran with the same configuration is
    left alone; one whose configuration differs in any setting, a rotated password or key
    included, made way for another and is drained; only a collision of SHA-256 could hide
    the difference. (The builders leave [spec.writer.coalesceWindow] out, so a change of
    that field alone is no change of configuration: [coalesce_window_never_set].) *)
Theorem changed_setting_recycles `{ConditionLaws, APIErrors, Encoders, Strconv, !QuoteLaws, !ErrorText api_error}
    dial store tuning autoCreate mcfg (ops : list (@managerOp (operator_backends dial store))) r name hub :
  let B := operator_backends dial store in
  let m := run_manager mcfg ops newManager in
  mg_running m = true -> mg_stopped m = false ->
  (forall w obj password, sw_sink w = Ok obj -> so_Name obj <> "" -> names_password r w (so_Spec obj) password ->
     let '(pass, s') := ch_Reconcile r (ch_build dial store tuning autoCreate) name w (mkSinkPlane m hub) in
     declares dial store m (pl_runtime s') (clickHouseSinkID (so_Name obj))
       (CHInstance (newSinkConfigBuilder tuning autoCreate (so_Name obj) (so_Spec obj) password)) pass) /\
  (forall w obj creds, sw_sink w = Ok obj -> so_Name obj <> "" -> names_key r w (so_Spec obj) creds ->
     let '(pass, s') := s3_Reconcile r (s3_build dial store tuning) name w (mkSinkPlane m hub) in
     declares dial store m (pl_runtime s') (s3SinkID (so_Name obj))
       (S3Instance (newS3SinkConfigBuilder tuning (so_Name obj) (so_Spec obj) creds)) pass).
Proof.
  intros B m Hrun Hstop. assert (Hsound : sound m) by (apply run_sound, new_sound). split.
  - intros w obj password Hw Hn Hp%resolveCredential_ok. unfold ch_Reconcile. rewrite Hw. cbv zeta. rewrite Hp. unfold declare, ch_build. simpl.
    match goal with |- context [@Ensure ?b ?i ?c ?mm] => destruct (@Ensure b i c mm) as [err m'] eqn:E end. destruct err as [e|]; simpl;
      (eapply declares_pass; [exact Hsound|exact Hrun|exact Hstop|done|exact Hn|exact E|naive_solver|]); [done|]. intros _. apply finish_result.
  - intros w obj creds Hw Hn Hp%resolveCredentials_ok. unfold s3_Reconcile. rewrite Hw. cbv zeta. rewrite Hp. unfold declare, s3_build. simpl.
    match goal with |- context [@Ensure ?b ?i ?c ?mm] => destruct (@Ensure b i c mm) as [err m'] eqn:E end. destruct err as [e|]; simpl;
      (eapply declares_pass; [exact Hsound|exact Hrun|exact Hstop|done|exact Hn|exact E|naive_solver|]); [done|]. intros _. apply finish_result.
Qed.

(** The coalescing window of a sink's specification reaches no instance: whatever the
    specification says, the backend the operator builds for it declares a window of zero
    to the pipeline, which then holds no Event back. *)
Theorem coalesce_window_never_set `{Encoders, Strconv} dial store tuning autoCreate n id cfg b :
  (exists name spec password, cfg = CHInstance (newSinkConfigBuilder tuning autoCreate name spec password)) \/
  (exists name spec creds, cfg = S3Instance (newS3SinkConfigBuilder tuning name spec creds)) ->
  newSinkFactory dial store n id cfg = Ok b ->
  coalesce_window b = 0%Z /\
  forall key hash now c, coalesce_decide key hash (coalesceWindowFor (Some (coalesce_window b))) now c = None.
Proof.
  intros Hc Hb. assert (E : coalesce_window b = 0%Z); [|by rewrite E].
  destruct Hc as [(name & spec & password & ->)|(name & spec & creds & ->)]; simpl in Hb.
  - destruct (dial n _) as [[]|]; [|done]. simpl in Hb. by injection Hb as <-.
  - destruct (store n _); [|done]. by injection Hb as <-.
Qed.

(** A sink created anew under the name of one that is gone can report its predecessor's
    health: a verdict the runtime posted before the deletion, and the hub took after it,
    is the latest one when the new object is reconciled. *)
Theorem recreated_sink_inherits_verdict `{ConditionLaws, APIErrors, Strconv, !ErrorText api_error, SinkRuntime RT}
    r build name w (s : sinkPlane RT) obj password cfg m' verdict pass s' written :
  let id := clickHouseSinkID (so_Name obj) in
  let gone := withdraw id s in
  pr_Sink verdict = id -> pr_Err verdict = None -> hub_sending (pl_hub s) = None ->
  sw_sink w = Ok obj -> names_password r w (so_Spec obj) password -> build (so_Name obj) (so_Spec obj) password = Ok (Some cfg) ->
  rt_Ensure id cfg (pl_runtime gone) = (None, m') ->
  ch_Reconcile r build name w (mkSinkPlane (pl_runtime gone) (hub_receive verdict (pl_hub gone))) = (pass, s') ->
  sp_written pass = Some written ->
  latest id (pl_hub gone) = None /\
  exists c, findCondition (ss_Conditions written) ConditionReady = Some c /\ cd_Status c = ConditionTrue.
Proof.
  intros id gone Hid Herr Hidle Hw Hp Hb He Hr Hwr. split; [apply lookup_delete_eq|].
  assert (Hl : latest id (hub_receive verdict (pl_hub gone)) = Some verdict).
  { unfold hub_receive. simpl. rewrite Hidle. rewrite <-Hid. case_match; apply lookup_insert_eq. }
  destruct pass as [result events written0]. simpl in Hwr. subst written0.
  assert (Hreq : exists delay, result = SinkRequeue delay).
  { unfold ch_Reconcile in Hr. rewrite Hw in Hr. cbv zeta in Hr. apply resolveCredential_ok in Hp. rewrite Hp in Hr. unfold declare in Hr.
    rewrite Hb in Hr. fold id in Hr. simpl in Hr. simpl in He. rewrite He in Hr. simpl in Hr. apply pair_equal_spec in Hr as [Hf _].
    unfold finish_pass in Hf. destruct (updateStatus _ _ _); [|done]. injection Hf as <- _ _. by eexists. }
  destruct Hreq as [delay ->]. pose proof Hr as Hr'.
  destruct (ch_pass_ready r build name w _ obj delay events written s' Hw Hr) as (_ & c & Hc & _ & Hiff).
  exists c. split; [done|]. apply Hiff. exists password, cfg. split_and!; [done|done| |by exists verdict].
  pose proof (ch_pass_ensures r build name w (mkSinkPlane (pl_runtime gone) (hub_receive verdict (pl_hub gone))) obj password cfg Hw Hp Hb) as Hm.
  rewrite Hr' in Hm. simpl in Hm, He |- *. fold id in Hm. rewrite He in Hm. simpl in Hm. by rewrite Hm.
Qed.

(** ** Evaluation on concrete sinks *)

Lemma pair_of_projections {A B} (p : A * B) a b : p.1 = a -> b = p.2 -> p = (a, b).
Proof. destruct p. by intros <- ->. Qed.

Module SinkSamples.
#[local] Existing Instances ConditionSamples.sample_helpers ConditionSamples.sample_condition_laws.

(** Quoting that escapes quotes and backslashes, and its reader. *)
Fixpoint escape (s : string) : string :=
  match s with
  | EmptyString => EmptyString
  | String c rest =>
      if bool_decide (c = backslash) || bool_decide (c = quote_char) then String backslash (String c (escape rest))
      else String c (escape rest)
  end.

Fixpoint unescape (s : string) : option string :=
  match s with
  | EmptyString => None
  | String c rest =>
      if bool_decide (c = backslash)
      then match rest with String d rest' => String d <$> unescape rest' | EmptyString => None end
      else if bool_decide (c = quote_char) then Some EmptyString
      else String c <$> unescape rest
  end.

Definition escaping : Strconv := {|
  Quote s := String quote_char (escape s +:+ String quote_char "");
  Unquote s := match s with String _ rest => unescape rest | EmptyString => None end;
|}.
#[local] Existing Instance escaping.

#[local] Instance escaping_laws : QuoteLaws.
Proof.
  split.
  - intros s. exists (escape s). split; [done|]. induction s as [|c s IH]; [done|]. cbn [escape].
    destruct (_ || _) eqn:E; cbn [literal].
    + by rewrite bool_decide_eq_true_2.
    + apply orb_false_iff in E as [-> ->]. done.
  - intros s. cbn. induction s as [|c s IH]; [done|]. cbn [escape]. destruct (_ || _) eqn:E; rewrite !string_app_cons; cbn [unescape].
    + rewrite bool_decide_eq_true_2 by done. by rewrite IH.
    + apply orb_false_iff in E as [-> ->]. by rewrite IH.
Qed.

Definition sample_api : APIErrors := {| api_error := string; IsNotFound e := bool_decide (e = "not found") |}.
#[local] Existing Instance sample_api.
#[local] Instance api_text : ErrorText api_error := fun e => e.
Definition identity_hash : Encoders := {| json_marshal _ := None; json_unmarshal _ := None; sha256_hex s := s |}.
#[local] Existing Instance identity_hash.

Definition dial (n : nat) (c : chConfig) : result string unit := Ok tt.
Definition store (n : nat) (c : ClientConfig) : result string unit := Ok tt.
#[local] Instance sample_sinks : Backends := operator_backends dial store.

Definition tuning : writerTuning := mkWriterTuning 100 1 10 0 0 0.
Definition ch_spec : ClickHouseSinkSpec :=
  mkClickHouseSinkSpec
    (mkConnectionSpec "ch:9000" "kuberecord" "default" (mkSecretReference "creds" "") None None)
    (mkWriterSpec None None None None None None None (Some (60 * Calendar.second)%Z)) (mkSinkPolicy [] []).
Definition ch_object : sinkObject ClickHouseSinkSpec := mkSinkObject "main" 3 ch_spec (mkSinkStatus [] 0).

(** The operator's namespace holds the Secret, with this password. *)
Definition secret_world (password : string) : sinkWorld api_error ClickHouseSinkSpec :=
  mkSinkWorld (Ok ch_object)
    (fun ref => if bool_decide (ref = mkNamespacedName "system" "creds") then Ok {[ "password" := password ]} else Err "not found")
    (Ok (mkSinkStatus [] 0), Updated, []).

Definition sample_reconciler : sinkReconciler := mkSinkReconciler true "system" 0.
Definition ch_config (password : string) : instanceConfig := CHInstance (newSinkConfigBuilder tuning false "main" ch_spec password).
Definition main_id : ID := clickHouseSinkID "main".

(** A manager that runs the sink with its first password. *)
Definition first_ops : list managerOp := [OpStart; OpEnsure main_id (Some (ch_config "one"))].
Definition first_manager : SinkManager := run_manager ManagerSamples.sample_manager first_ops newManager.
Definition healthy_hub : SinkProbeHub := record_verdict (mkProbeResult main_id None "") NewSinkProbeHub.

Definition rotated : sinkPass api_error managerError * sinkPlane SinkManager :=
  ch_Reconcile sample_reconciler (ch_build dial store tuning false) "main" (secret_world "two") (mkSinkPlane first_manager healthy_hub).

Lemma password_named password : password <> "" -> names_password sample_reconciler (secret_world password) ch_spec password.
Proof. intros Hp. exists {[ "password" := password ]}. split_and!; [reflexivity|apply lookup_singleton_eq|done]. Qed.

(** The rotated password starts a second instance, and the first one is being drained. *)
Lemma changed_setting_recycles_witness :
  map (fun s => ls_fingerprint s) (mg_instances (pl_runtime rotated.2)) = [Fingerprint (ch_config "one"); Fingerprint (ch_config "two")] /\
  declares dial store first_manager (pl_runtime rotated.2) main_id (ch_config "two") rotated.1.
Proof.
  split; [vm_compute; reflexivity|].
  assert (Hrun : mg_running first_manager = true) by (vm_compute; reflexivity).
  assert (Hstop : mg_stopped first_manager = false) by (vm_compute; reflexivity).
  destruct (changed_setting_recycles dial store tuning false ManagerSamples.sample_manager first_ops sample_reconciler "main" healthy_hub Hrun Hstop)
    as [Hch _].
  specialize (Hch (secret_world "two") ch_object "two" eq_refl ltac:(discriminate) (password_named "two" ltac:(discriminate))).
  unfold rotated. fold first_manager in Hch. destruct (ch_Reconcile _ _ _ _ _) as [pass s']. exact Hch.
Defined.

Lemma rotated_written : exists events written,
  rotated = (mkSinkPass (SinkRequeue defaultSinkResyncPeriod) events (Some written), rotated.2).
Proof.
  assert (Hr : sp_result rotated.1 = SinkRequeue defaultSinkResyncPeriod) by (vm_compute; reflexivity).
  assert (Hw : bool_decide (is_Some (sp_written rotated.1)) = true) by (vm_compute; reflexivity).
  apply bool_decide_eq_true_1 in Hw as [written Hw].
  destruct rotated as [[res events wr] s']. simpl in Hr, Hw. subst. by exists events, written.
Qed.

(** With a healthy verdict the rotated sink is Ready. *)
Lemma sink_ready_exact_witness : exists written c, sp_written rotated.1 = Some written /\
  findCondition (ss_Conditions written) ConditionReady = Some c /\ cd_Status c = ConditionTrue.
Proof.
  destruct rotated_written as (events & written & E).
  destruct (sink_ready_exact sample_reconciler "main" (mkSinkPlane first_manager healthy_hub) rotated.2 defaultSinkResyncPeriod events written)
    as [Hch _].
  destruct (Hch (ch_build dial store tuning false) (secret_world "two") ch_object eq_refl E) as (_ & c & Hc & _ & Hiff).
  exists written, c. split; [by rewrite E|]. split; [exact Hc|]. apply Hiff.
  exists "two", (ch_config "two"). split; [apply password_named; discriminate|]. split; [reflexivity|]. split; [|].
  { assert (Hnone : (rt_Ensure main_id (ch_config "two") first_manager).1 = None) by (vm_compute; reflexivity).
    pose proof (ch_pass_ensures sample_reconciler (ch_build dial store tuning false) "main" (secret_world "two") (mkSinkPlane first_manager healthy_hub)
      ch_object "two" (ch_config "two") eq_refl (password_named "two" ltac:(discriminate)) eq_refl) as Hm.
    exact (pair_of_projections _ _ _ Hnone Hm). }
  exists (mkProbeResult main_id None ""). split; vm_compute; reflexivity.
Defined.

(** A deleted and recreated sink whose predecessor's last verdict was still on its way. *)
Example stale_verdict_ready :
  let gone := (ch_Reconcile sample_reconciler (ch_build dial store tuning false) "main"
                 (mkSinkWorld (Err "not found") (fun _ => Err "not found") (Ok (mkSinkStatus [] 0), Updated, []))
                 (mkSinkPlane first_manager healthy_hub)).2 in
  let late := mkSinkPlane (pl_runtime gone) (hub_receive (mkProbeResult main_id None "") (pl_hub gone)) in
  latest main_id (pl_hub gone) = None /\
  (fun st => cd_Status <$> findCondition (ss_Conditions st) ConditionReady) <$>
    sp_written (ch_Reconcile sample_reconciler (ch_build dial store tuning false) "main" (secret_world "two") late).1 = Some (Some ConditionTrue).
Proof. vm_compute. split; reflexivity. Qed.
End SinkSamples.
