(* ===== verification/Samples.v ===== *)
(** * Samples: concrete instances of the parameters

    Implementations of the parameter classes that satisfy their laws, and a small
    environment, used to evaluate the model on concrete inputs. *)

From stdpp Require Import pretty.
From S2P Require Import Prelude Identity HashCache GoJson Redact Normalize Coalesce SinkTypes Diff Replay Process.

(** ** A codec that frames without compressing *)

Fixpoint drop_bytes (n : nat) (s : string) : string :=
  match n, s with
  | S n, String _ rest => drop_bytes n rest
  | _, _ => s
  end.

Definition framing_codec : ZstdCodec := {|
  zstdEncoder := Some (fun raw => zstdMagic +:+ raw);
  zstdDecoder := Some (fun frame => Ok (drop_bytes 4 frame));
|}.

#[export] Instance framing_codec_laws : @ZstdLaws framing_codec.
Proof.
  split.
  - intros encode raw [= <-] _. destruct raw; reflexivity.
  - intros encode decode raw [= <-] [= <-] _. reflexivity.
Qed.

(** ** A differ that replaces the whole document *)

Definition whole_document_diff : JsonDiff := {|
  CompareJSON before after :=
    if bool_decide (before = after) then Ok []
    else Ok [mkOperation "replace" "" "" after];
  marshal_patch ops := Some (if decide (length ops = 0) then "[]" else join "," (map op_Value ops));
|}.

(** ** A ConfigMap watched for one sink *)

Definition sample_sink : ID := mkID "ClickHouseSink" "default".
Definition sample_key : Key := mkKey sample_sink "" "ConfigMap" "ns" "cm".
Definition sample_event : Key := mkKey sample_sink "" "Event" "ns" "cm.1".

Definition config_map (uid value : string) : object :=
  {["kind" := JStr "ConfigMap";
    "metadata" := JObj {["uid" := JStr uid; "name" := JStr "cm"]};
    "data" := JObj {["k" := JStr value]}]}.

(** A writer that accepts everything and asks for a Checkpoint every [n] changes. *)
Definition sample_writer (n : Z) : Writer := mkWriter (fun _ _ => true) (Some n) None.

(** A writer whose queue is full. *)
Definition full_writer : Writer := mkWriter (fun _ _ => false) None None.

Definition sample_env (w : Writer) (observation : option object) : env :=
  mkEnv (fun _ => Ok (observation, true)) (fun _ => Some w) None Z.of_nat "cluster".

(** ** Encoders and a patch consumer that invert one another

    [json_marshal] accepts documents of one member, a string or an integer; an integer is
    decoded as a float. The patch of [whole_document_diff] is the new document, or an
    empty list of operations. *)

Definition note (value : string) : object := {["v" := JStr value]}.
Definition tally (n : Z) : object := {["v" := JInt n]}.

Definition note_encoders : Encoders := {|
  json_marshal o :=
    if decide (size o = 1) then
      match o !! "v" with
      | Some (JStr s) => Some (String "v" s)
      | Some (JInt n) => Some (String "n" (pretty.pretty n))
      | Some (JFloat repr) => Some (String "n" repr)
      | _ => None
      end
    else None;
  json_unmarshal text :=
    match text with String "v" s => Some (note s) | String "n" repr => Some {["v" := JFloat repr]} | _ => None end;
  sha256_hex s := "sha:" +:+ s;
|}.

Definition whole_document_patch : JsonPatch := {|
  patch := string;
  DecodePatch bytes := Ok bytes;
  patch_Apply p state := Ok (if decide (p = "[]") then state else p);
|}.

#[export] Instance whole_document_laws :
  @PatchLaws note_encoders whole_document_diff whole_document_patch.
Proof.
  split.
  - intros o text. simpl. case_decide as Hsz; [|done].
    destruct (o !! "v") as [[| |n|repr|s| |]|]; try done; intros [= <-] _; (eexists; split; [done|apply insert_non_empty]).
  - done.
  - intros x y before after o o' ops bytes _ _ Hb Ha _ _. simpl. case_bool_decide as Heq; intros [= <-] [= <-] _.
    + split; [done|]. exists "[]". split; [done|]. intros state Hs. exists state.
      split; [done|]. rewrite Heq in Hb. congruence.
    + assert (after <> "") as Hne by (intros ->; done).
      assert (after <> "[]") as Hne' by (intros ->; done).
      simpl. split; [done|]. exists after. split; [done|]. intros state Hs. exists after.
      by rewrite decide_False.
Qed.
