(* ===== verification/ArchiveSamples.v ===== *)
(** * ArchiveSamples: archives to evaluate on

    Codecs that satisfy the laws of the archive's parameters, a store made of a list of
    objects, and the evaluations that show the archive theorems' hypotheses can be
    met. *)

From S2P Require Import Prelude Calendar HashCache GoJson Diff Replay QueryFilter SinkTypes Process Samples Render S3Object S3Writer ScopeLog Layout Archive ArchiveSpec ArchiveEndToEnd ArchiveState.

(** ** Codecs *)

(** The records these archives are made of; a line is the byte of a record's number and the newline. *)
Definition instant (h m : Z) : Z := (1709164800 + h * 3600 + m * 60) * second.

Definition sample_record (ts : Z) (eventType uid data diff : string) : Record_ :=
  mkRecord ts "c1" eventType "" "v1" "ConfigMap" "ns" "cm" uid "1" ∅ [] data diff "".

Definition first_sighting : Record_ := sample_record (instant 12 10) "Added" "u1" "va" "".
Definition modification : Record_ := sample_record (instant 12 50) "Modified" "u1" "" "vb".
Definition early_modification : Record_ := sample_record (instant 11 58) "Modified" "u1" "" "vc".
Definition old_base : Record_ := sample_record (instant 0 30) "Added" "u1" "va" "".
Definition straddling : Record_ := sample_record (instant 0 40) "Modified" "u1" "" "vb".
Definition evening : Record_ := sample_record (instant (-1) 50) "Added" "u0" "vz" "".

Definition catalog : list Record_ :=
  [first_sighting; modification; early_modification; old_base; straddling; evening].

Fixpoint parse_lines (s : string) : list Record_ :=
  match s with
  | EmptyString => []
  | String c rest => match catalog !! Ascii.nat_of_ascii c with Some r => r :: parse_lines rest | None => parse_lines rest end
  end.

Definition catalog_lines : LineCodec := {|
  encode_json r := match list_find (r =.) catalog with
                   | Some (i, _) => Ok (String (Ascii.ascii_of_nat i) "")
                   | None => Err "unknown record"
                   end;
  decode_lines s := (parse_lines s, None);
|}.

Definition plain_frames : FrameWriter := {|
  frame := string;
  NewWriter := Ok "";
  frame_Write f line := Ok (f +:+ line);
  frame_Flush f := Ok f;
  frame_Len f := Z.of_nat (String.length f);
  frame_Close f := Ok (zstdMagic +:+ f);
|}.

Definition catalog_reader : FrameReader := {|
  record_stream bytes := (map line_of (parse_lines (drop_bytes 4 bytes)), None);
  scope_stream _ := ([], None);
  event_envelope _ := None;
|}.

#[export] Instance plain_frame_laws : @FrameLaws framing_codec plain_frames.
Proof.
  refine (@Build_FrameLaws framing_codec plain_frames (fun f => f) _ _ _ _); cbn.
  - by intros f [= <-].
  - by intros f line f' [= <-].
  - by intros f f' [= <-].
  - intros f payload decode [= <-] [= <-] _. split; [by destruct f|done].
Defined.

Lemma parse_text records lines : Forall2 (fun r line => @encode_line catalog_lines r = Ok line) records lines ->
  parse_lines (text lines) = records.
Proof.
  induction 1 as [|r line records lines Hr _ IH]; [done|]. unfold encode_line in Hr. cbn [encode_json catalog_lines] in Hr.
  destruct (list_find (r =.) catalog) as [[i r']|] eqn:E; [|done]. injection Hr as <-.
  apply list_find_Some in E as (Hi & <- & _). cbn [text foldr]. fold (text lines). rewrite !string_app_cons. cbn [parse_lines].
  rewrite Ascii.nat_ascii_embedding by (apply lookup_lt_Some in Hi; cbn in Hi; lia). rewrite Hi. f_equal. exact IH.
Qed.

#[export] Instance catalog_line_laws : @LineLaws catalog_lines.
Proof. split. intros records lines _ Hl. cbn. by rewrite (parse_text _ _ Hl). Qed.

Lemma zstdMagic_drop payload : has_prefix payload zstdMagic = true ->
  String.length zstdMagic <= String.length payload.
Proof. intros [rest ->]%has_prefix_spec. rewrite string_length_app. lia. Qed.

#[export] Instance catalog_format_laws : @FormatLaws framing_codec catalog_lines catalog_reader.
Proof.
  split. intros records lines payload _ Hl Hd. unfold decompress in Hd.
  destruct (has_prefix payload zstdMagic) eqn:Hm; [|done]. cbn [negb zstdDecoder framing_codec] in Hd. injection Hd as Hd.
  unfold streamFrame. rewrite bool_decide_eq_false_2 by (pose proof (zstdMagic_drop _ Hm); lia).
  rewrite Hm. cbn. by rewrite Hd, (parse_text _ _ Hl).
Qed.

(** ** A store made of a list of objects *)

Definition store_of (objects : list (string * string)) : ObjectSource := {|
  src_List prefix := mkListing (map (fun o => (o.1, Z.of_nat (String.length o.2)))
                                  (List.filter (fun o => has_prefix o.1 prefix) objects)) None None;
  src_Open key := match List.find (fun o => bool_decide (o.1 = key)) objects with
                  | Some o => Ok (mkBody o.2 None)
                  | None => Err ErrKeyNotFound
                  end;
  interrupted _ := None;
|}.

Lemma store_holds objects : NoDup (map fst objects) -> Forall (fun o => isObjectKey o.1 = true) objects ->
  @holds_keys (store_of objects) (map fst objects).
Proof.
  intros Hn Ho. split; [done| |done]. intros prefix. unfold listOnePrefix. cbn.
  eexists. split; [done|]. rewrite map_map. cbn. rewrite keep_all.
  - clear. induction objects as [|o os IH]; cbn; [done|]. destruct (has_prefix o.1 prefix); cbn; by rewrite IH.
  - apply Forall_map. apply keep_Forall. done.
Qed.

(** ** Evaluation *)

Module ArchiveWitnesses.
#[local] Existing Instance framing_codec.
#[local] Existing Instance note_encoders.
#[local] Existing Instance catalog_lines.
#[local] Existing Instance plain_frames.
#[local] Existing Instance catalog_reader.
#[local] Existing Instance whole_document_patch.

Definition line_byte (i : nat) : string := String (Ascii.ascii_of_nat i) (String newline "").

Definition sample_paths : PatchPaths := {| patch_paths _ := None |}.
#[local] Existing Instance sample_paths.

Definition sample_ref : ObjectRef := mkRef "c1" "" "ConfigMap" "ns" "cm".
Definition sample_engine : Engine := mkEngine "archive" 8 hour DefaultStateLookback false.

Definition sample_query (reverse : bool) (limit : Z) : TimelineQuery :=
  mkTimelineQuery sample_ref (Some (instant 11 50)) (Some (instant 13 0)) "" false [] [] [] limit reverse false false [].

(** A run of the sink: two records, one worker, a refused and an acknowledged PUT. *)
Definition sample_config : writerConfig := mkWriterConfig "archive" 1000 10 (fun _ => [PutRefused; PutAccepted]).
Definition sample_ops : list writerOp :=
  [OpEnqueue first_sighting (Some 0) Sent; OpEnqueue modification (Some 1) Sent; OpReceive 0; OpReceive 0;
   OpShutdown; OpReceive 0].

Definition sample_run : writerState := run_writer sample_config sample_ops (NewWriter_state 1).
Definition sample_objects : list (string * string) := map (fun o => (o_Key o, o_Payload o)) (sw_landed sample_run).
Definition sample_store : ObjectSource := store_of sample_objects.

Example sample_run_settles :
  sw_settled sample_run = [(Some 0, true); (Some 1, true)] /\
  map o_Key (sw_landed sample_run) = [objectKey "archive" "c1" (instant 12 10) (sha256_hex (text [line_byte 0; line_byte 1]))].
Proof. split; vm_compute; reflexivity. Qed.

Lemma sample_holds : @holds_keys sample_store (map fst sample_objects).
Proof.
  apply store_holds.
  - vm_compute. repeat constructor. by intros ?%elem_of_nil.
  - repeat constructor.
Qed.

Ltac solve_representable := split; [vm_compute; discriminate|vm_compute; reflexivity].

Ltac solve_filed ts hash :=
  left; exists ts, hash; split; [vm_compute; reflexivity|]; split; [solve_representable|];
  match goal with |- Forall _ ?l => let v := eval vm_compute in l in replace l with v by (vm_compute; reflexivity) end;
  repeat (apply Forall_cons; split; [split; vm_compute; discriminate|]); apply Forall_nil; exact I.

Lemma sample_filed : Forall (@filed sample_store catalog_reader sample_engine "c1") (map fst sample_objects).
Proof.
  constructor; [|constructor].
  solve_filed (instant 12 10) (sha256_hex (text [line_byte 0; line_byte 1])).
Qed.

Lemma sample_askable : askable sample_engine "c1" (instant 11 50) (instant 13 0).
Proof. split; [discriminate|reflexivity|reflexivity|solve_representable|solve_representable]. Qed.

Lemma builder_agrees_with_encode_witness : exists obj',
  Encode "archive" [first_sighting; modification] = Ok obj' /\
  o_Key obj' = "archive/format=jsonl-v1/cluster_id=c1/date=2024-02-29/hour=12/" +:+
               sha256_hex (text [line_byte 0; line_byte 1]) +:+ ".jsonl.zst".
Proof.
  destruct (builder_agrees_with_encode (fun raw => zstdMagic +:+ raw) (fun f => Ok (drop_bytes 4 f)) "archive" 1000
              [first_sighting; modification]
              (@mkBuilder plain_frames 1000 "" "" 0 0 0 "" 0)
              (@mkBuilder plain_frames 1000 (text [line_byte 0; line_byte 1]) (text [line_byte 0; line_byte 1]) 2 0 4 "c1" (instant 12 10))
              (mkObject (objectKey "archive" "c1" (instant 12 10) (sha256_hex (text [line_byte 0; line_byte 1])))
                 (sha256_hex (text [line_byte 0; line_byte 1])) (zstdMagic +:+ text [line_byte 0; line_byte 1])))
    as (obj' & He & Hk & _); [reflexivity|reflexivity|reflexivity|vm_compute; reflexivity|vm_compute; reflexivity|].
  exists obj'. split; [exact He|]. rewrite Hk. vm_compute. reflexivity.
Defined.

Lemma accepted_jobs_settle_once_witness :
  (exists unsettled, map wj_commit (accepted sample_config sample_ops (NewWriter_state 1)) ≡ₚ
     map fst (sw_settled sample_run) ++ map wj_commit unsettled /\ unsettled = []).
Proof.
  destruct (proj1 (accepted_jobs_settle_once sample_config 1 sample_ops)) as (unsettled & Hp & Hz).
  exists unsettled. split; [exact Hp|]. apply Hz; vm_compute; [discriminate|repeat constructor].
Defined.

Lemma newest_first_is_full_scan_witness :
  (@scanTimeline sample_store _ _ sample_engine (sample_query true 1) (instant 11 50) (instant 13 0)).1 =
  [line_change (line_of modification)].
Proof.
  rewrite (proj1 (@newest_first_is_full_scan sample_store _ _ sample_engine (sample_query true 1) (instant 11 50) (instant 13 0)
    (map fst sample_objects) sample_askable sample_holds sample_filed eq_refl)).
  vm_compute. reflexivity.
Defined.

Lemma timeline_is_complete_witness : exists answer failure,
  @Timeline sample_store _ _ sample_engine (sample_query false 0) = Ok (answer, failure) /\ StronglySorted change_le answer.
Proof.
  destruct (@timeline_is_complete sample_store _ _ sample_engine (sample_query false 0) (instant 11 50) (instant 13 0)
    (map fst sample_objects) eq_refl eq_refl ltac:(vm_compute; discriminate) eq_refl sample_askable sample_holds sample_filed
    eq_refl eq_refl eq_refl ltac:(vm_compute; discriminate)) as (answer & failure & uid & Hr & _ & Hs & _).
  exists answer, failure. split; [exact Hr|exact Hs].
Defined.

Definition sample_object : Object :=
  mkObject (objectKey "archive" "c1" (instant 12 10) (sha256_hex (text [line_byte 0; line_byte 1])))
    (sha256_hex (text [line_byte 0; line_byte 1])) (zstdMagic +:+ text [line_byte 0; line_byte 1]).

Lemma sample_landed : sw_landed (run_writer sample_config sample_ops (NewWriter_state 1)) = [sample_object].
Proof. vm_compute. reflexivity. Qed.

Lemma sample_settled : sw_settled (run_writer sample_config sample_ops (NewWriter_state 1)) = [(Some 0, true); (Some 1, true)].
Proof. vm_compute. reflexivity. Qed.

Lemma sample_opens : @src_Open sample_store (o_Key sample_object) = Ok (mkBody (o_Payload sample_object) None).
Proof. vm_compute. reflexivity. Qed.

Lemma sample_keys : map fst sample_objects = [o_Key sample_object].
Proof. vm_compute. reflexivity. Qed.

Lemma sample_serves :
  @serves sample_store (sw_landed (run_writer sample_config sample_ops (NewWriter_state 1))) (map fst sample_objects).
Proof.
  rewrite sample_landed, sample_keys. intros obj ->%list_elem_of_singleton. split; [by left|].
  exists None. exact sample_opens.
Qed.

Lemma sample_valid : Forall (fun op => valid_op op = true) sample_ops.
Proof. repeat constructor. Qed.

(** Every incarnation of the object, whoever but the kubelet wrote it. *)
Definition confirmed_query : TimelineQuery :=
  mkTimelineQuery sample_ref (Some (instant 11 50)) (Some (instant 13 0)) "" true [] ["kubelet"] [] 0 false false false [].

Lemma enqueued_second r : OpEnqueue r (Some 1) Sent ∈ sample_ops -> r = modification.
Proof. unfold sample_ops. rewrite !elem_of_cons, elem_of_nil. intros [[=]|[[=]|Hr]]; [done|]. by destruct_or! Hr. Qed.

(** The second record: confirmed, and in the timeline. *)
Lemma confirmed_records_are_found_witness :
  line_change (line_of modification) ∈
    (@scanTimeline sample_store _ _ sample_engine confirmed_query (instant 11 50) (instant 13 0)).1.
Proof.
  destruct (@confirmed_records_are_found framing_codec note_encoders catalog_lines plain_frames plain_frame_laws sample_store
    catalog_reader catalog_format_laws sample_paths (fun f => Ok (drop_bytes 4 f)) sample_config 1 sample_ops
    sample_engine confirmed_query (instant 11 50) (instant 13 0) (map fst sample_objects) (Some 1)
    eq_refl eq_refl sample_valid sample_serves eq_refl eq_refl sample_askable sample_holds sample_filed eq_refl eq_refl eq_refl)
    as (r & Hr & Hfound); [discriminate|rewrite sample_settled; by right; left|].
  apply enqueued_second in Hr as ->. apply Hfound; [vm_compute; reflexivity|split; vm_compute; discriminate
    |right; split; reflexivity|vm_compute; reflexivity].
Defined.

(** An object opened by a record of 12:10 and holding one of 11:58 is under no prefix
    of a window that ends at 11:59. *)
Lemma early_arrival_is_missed_witness :
  Forall (fun prefix => has_prefix
            (objectKey "archive" "c1" (instant 12 10) (sha256_hex (text [line_byte 0; line_byte 2]))) prefix = false)
    (recordPrefixes sample_engine "c1" (instant 11 50) (instant 11 59)).
Proof.
  refine (early_arrival_is_missed sample_engine "c1" (instant 11 50) (instant 11 59) 1000
    (@mkBuilder plain_frames 1000 "" "" 0 0 0 "" 0)
    (@mkBuilder plain_frames 1000 (text [line_byte 0; line_byte 2]) (text [line_byte 0; line_byte 2]) 2 0 4 "c1" (instant 12 10))
    (mkObject (objectKey "archive" "c1" (instant 12 10) (sha256_hex (text [line_byte 0; line_byte 2])))
       (sha256_hex (text [line_byte 0; line_byte 2])) (zstdMagic +:+ text [line_byte 0; line_byte 2]))
    first_sighting [early_modification] _ _ _ _ _ _ _);
    [split; [discriminate|reflexivity|reflexivity|solve_representable|solve_representable]|solve_representable|reflexivity
    |reflexivity|vm_compute; reflexivity|vm_compute; reflexivity|vm_compute; reflexivity].
Defined.

Lemma state_replays_whole_history_witness : exists history resolved base,
  BaseRow (replayRows history resolved) = Some base /\
  Replay (replayRows history resolved) base = Ok (mkReconstruction (note "b") (instant 12 10) "Added" 1 "").
Proof.
  destruct (@state_replays_whole_history sample_store _ _ _ _ sample_engine sample_ref (instant 13 0) "" (map fst sample_objects)
    (mkReconstruction (note "b") (instant 12 10) "Added" 1 "")) as (history & resolved & base & _ & _ & _ & Hb & Hr);
    [discriminate|reflexivity|reflexivity|solve_representable|solve_representable|discriminate|exact sample_holds
    |exact sample_filed|vm_compute; reflexivity|vm_compute; reflexivity|].
  exists history, resolved, base. split; [exact Hb|exact Hr].
Defined.

(** ** The edge of the lookback

    An object filed at 23:50 holds a patch of 00:40; another one, filed at 00:30 of the
    first day the lookback reaches, holds the state it patches. *)

Definition edge_engine : Engine := mkEngine "archive" 8 hour (6 * hour) false.
Definition edge_object (first : Z) (lines : list string) : string * string :=
  (objectKey "archive" "c1" first (sha256_hex (text lines)), zstdMagic +:+ text lines).
Definition edge_objects : list (string * string) :=
  [edge_object (instant (-1) 50) [line_byte 5; line_byte 4]; edge_object (instant 0 30) [line_byte 3]].
Definition edge_store : ObjectSource := store_of edge_objects.

Lemma edge_filed : Forall (@filed edge_store catalog_reader edge_engine "c1") (map fst edge_objects).
Proof.
  apply Forall_cons; split; [|apply Forall_cons; split; [|by apply Forall_nil]].
  - solve_filed (instant (-1) 50) (sha256_hex (text [line_byte 5; line_byte 4])).
  - solve_filed (instant 0 30) (sha256_hex (text [line_byte 3])).
Qed.

(** When the lookback ends before the base it found is settled, the walk answers all
    the same: here without the patch that follows the base, which a properly filed
    object holds. *)
Theorem lookback_edge_misses_patch : exists r,
  @StateAt edge_store _ _ _ edge_engine sample_ref (Some (instant 12 0)) "" = Ok r /\ rc_PatchesApplied r = 0%Z /\
  (rc_BaseTS r < ln_Timestamp (line_of straddling) <= instant 12 0)%Z /\
  line_of straddling ∈ @named_by (state_scan sample_ref (instant 12 0))
    (concat (map (@key_lines edge_store catalog_reader) (map fst edge_objects))).
Proof.
  exists (mkReconstruction (note "a") (instant 0 30) "Added" 0 ""). split; [vm_compute; reflexivity|].
  split; [reflexivity|]. split; [split; [vm_compute; reflexivity|vm_compute; discriminate]|].
  assert (Hl : named_by (state_scan sample_ref (instant 12 0)) (concat (map (@key_lines edge_store catalog_reader) (map fst edge_objects))) =
    [line_of evening; line_of straddling; line_of old_base]) by (vm_compute; reflexivity).
  rewrite Hl. by right; left.
Qed.
End ArchiveWitnesses.
