(* ===== verification/QuerySamples.v ===== *)
(** * QuerySamples: evaluations of the archive's other questions

    A scope codec that satisfies its law, runs of the scope writer, and the evaluations
    of the theorems of [Ownership], [ArchiveQueries] and [S3ScopeWriter]. *)

From S2P Require Import Prelude Identity Calendar HashCache GoJson Diff Replay QueryFilter SinkTypes Process Samples Render S3Object S3Writer ScopeLog Layout Archive ArchiveSpec ArchiveEndToEnd ArchiveState Ownership ArchiveQueries ScopeWorker S3ScopeWriter ArchiveSamples.

(** ** A scope codec: a line is the byte of an event's number and the newline *)

Definition sample_event (action : ScopeAction) (rule : string) (ts : Z) : ScopeEvent :=
  mkScopeEvent action (mkScopeFilter "c1" "apps" "Deployment" "web") "v1" rule ts.

Definition scope_catalog : list ScopeEvent :=
  [sample_event ScopeActionStarted "r1" 100; sample_event ScopeActionStopped "r1" 200; sample_event ScopeActionStarted "r2" 300].

#[export] Instance ScopeEvent_eq_dec : EqDecision ScopeEvent.
Proof. solve_decision. Defined.
#[export] Instance scopeEventLine_eq_dec : EqDecision scopeEventLine.
Proof. solve_decision. Defined.

Fixpoint parse_scopes (s : string) : list ScopeEvent :=
  match s with
  | EmptyString => []
  | String c rest => match scope_catalog !! Ascii.nat_of_ascii c with Some e => e :: parse_scopes rest | None => parse_scopes rest end
  end.

Definition scope_line_codec : ScopeLineCodec := {|
  encode_scope_line l := match list_find (fun e => scopeLine_of e = l) scope_catalog with
                         | Some (i, _) => Ok (String (Ascii.ascii_of_nat i) (String newline ""))
                         | None => Err "unknown transition"
                         end;
|}.

Definition archive_reader : FrameReader := {|
  record_stream := @record_stream catalog_reader;
  scope_stream bytes := (map scopeLine_read (parse_scopes (drop_bytes 4 bytes)), None);
  event_envelope _ := None;
|}.

Lemma scopeLine_inj e e' : scopeLine_of e = scopeLine_of e' -> e = e'.
Proof.
  destruct e as [a [c g k n] v r t], e' as [a' [c' g' k' n'] v' r' t']. unfold scopeLine_of. cbn. intros [= -> -> -> -> -> -> Ha ->].
  by destruct a, a'.
Qed.

Lemma parse_scope_text events lines :
  Forall2 (fun e line => @encode_scope_line scope_line_codec (scopeLine_of e) = Ok line) events lines -> parse_scopes (text lines) = events.
Proof.
  induction 1 as [|e line events lines He _ IH]; [done|]. cbn [encode_scope_line scope_line_codec] in He.
  destruct (list_find _ scope_catalog) as [[i e']|] eqn:E; [|done]. injection He as <-.
  apply list_find_Some in E as (Hi & Heq%scopeLine_inj & _). subst e'. cbn [text foldr]. fold (text lines).
  rewrite !string_app_cons. cbn [parse_scopes].
  rewrite Ascii.nat_ascii_embedding by (apply lookup_lt_Some in Hi; cbn in Hi; lia). rewrite Hi. f_equal. exact IH.
Qed.

#[export] Instance scope_format_laws : @ScopeFormatLaws framing_codec scope_line_codec archive_reader.
Proof.
  split. intros events lines encode _ _ Hl [= <-]. unfold streamFrame.
  rewrite bool_decide_eq_false_2 by (rewrite string_length_app; lia).
  assert (Hp : has_prefix (zstdMagic +:+ text lines) zstdMagic = true) by (apply has_prefix_spec; by eexists).
  rewrite Hp. cbn [negb]. pose proof (parse_scope_text _ _ Hl) as Ht. by rewrite <-Ht.
Qed.

(** ** Evaluation *)

Module QueryWitnesses.
#[local] Existing Instance framing_codec.
#[local] Existing Instance note_encoders.
#[local] Existing Instance scope_line_codec.
#[local] Existing Instance archive_reader.
Import ArchiveWitnesses.

(** *** Ownership *)

(** A Deployment owning a ReplicaSet owning two Pods, one of which claims to own the
    Deployment, and a Job whose owner was never captured. *)
Definition owner (kind uid : string) : OwnerReference := mkOwner "v1" kind uid uid.
Definition owned (kind uid : string) (owners : list OwnerReference) : OwnedObject :=
  mkOwned (mkRef "c1" "" kind "ns" uid) uid true owners.
Definition sample_tree : list OwnedObject :=
  [owned "Deployment" "d" [owner "Pod" "p2"]; owned "ReplicaSet" "rs" [owner "Deployment" "d"];
   owned "Pod" "p1" [owner "ReplicaSet" "rs"]; owned "Pod" "p2" [owner "ReplicaSet" "rs"];
   owned "Job" "j" [owner "CronJob" "gone"]].

Example sample_descendants :
  map (fun n => (nd_UID n, nd_Depth n, nd_OwnerUID n)) (tr_Nodes (Descendants ["d"] sample_tree)) =
    [("rs", 1, "d"); ("p1", 2, "rs"); ("p2", 2, "rs")] /\
  Complete (Descendants ["d"] sample_tree) = false /\
  tr_MissingOwnerKinds (Descendants ["d"] sample_tree) = ["CronJob"] /\
  Complete (Descendants ["d"] (take 4 sample_tree)) = true.
Proof. vm_compute. done. Qed.

Lemma ownership_walk_exact_witness : exists k, k <= MaxOwnershipDepth /\ chain ["d"] sample_tree k "p2".
Proof.
  destruct (ownership_walk_exact ["d"] sample_tree) as (_ & _ & _ & _ & _ & Hall & _).
  apply (Hall ltac:(vm_compute; reflexivity) "p2"). vm_compute. do 2 right. by left.
Defined.

Definition sample_owners : OwnerCodec := {|
  owners_of_document data := if bool_decide (data = "va") then Some [owner "Deployment" "d"; mkOwner "" "" "" ""] else None;
  owners_of_array _ := None;
|}.
#[local] Existing Instance sample_owners.

Definition sample_ownership_query : OwnershipQuery := mkOwnershipQuery "c1" "ns" (Some (instant 11 50)) (Some (instant 13 0)).

Lemma sample_filed' : Forall (@filed sample_store archive_reader sample_engine "c1") (map fst sample_objects).
Proof.
  constructor; [|constructor]. solve_filed (instant 12 10) (sha256_hex (text [line_byte 0; line_byte 1])).
Qed.

Lemma sample_ownership : @Ownership sample_store _ _ sample_engine sample_ownership_query =
  Ok [mkOwned sample_ref "u1" true [owner "Deployment" "d"]].
Proof. vm_compute. reflexivity. Qed.

Lemma ownership_scan_exact_witness : NoDup (map oo_UID [mkOwned sample_ref "u1" true [owner "Deployment" "d"]]).
Proof.
  destruct (@ownership_scan_exact sample_store _ _ sample_engine sample_ownership_query (instant 11 50) (instant 13 0)
    (map fst sample_objects) _ eq_refl eq_refl sample_askable sample_holds sample_filed' sample_ownership) as (_ & _ & Hn & _).
  exact Hn.
Defined.

(** *** Incarnations and clusters *)

Lemma sample_incarnations : @Incarnations sample_store _ sample_engine sample_ref (Some (instant 11 50)) (Some (instant 13 0)) =
  Ok [mkIncarnation "u1" (instant 12 10) (instant 12 50) false].
Proof. vm_compute. reflexivity. Qed.

Lemma incarnations_complete_witness : "u1" ∈ map ln_UID (named_by (marks_scan sample_ref (instant 11 50) (instant 13 0))
  (concat (map (@key_lines sample_store archive_reader) (map fst sample_objects)))).
Proof.
  destruct (@incarnations_complete sample_store _ sample_engine sample_ref (instant 11 50) (instant 13 0) (map fst sample_objects) _
    sample_askable sample_holds sample_filed' sample_incarnations) as (_ & _ & Hu & _). apply Hu. by left.
Defined.

Lemma clusters_discovered_witness : NoDup ["c1"].
Proof.
  destruct (@clusters_discovered sample_store sample_engine (map fst sample_objects) ["c1"]) as (_ & Hn & _);
    [reflexivity|exact sample_holds| |vm_compute; reflexivity|exact Hn].
  constructor; [|constructor]. left. exists "c1", (instant 12 10), (sha256_hex (text [line_byte 0; line_byte 1])).
  split; [vm_compute; reflexivity|done].
Defined.

(** *** The scope log *)

(** A first PUT that is refused throughout its budget; everything after it succeeds. *)
Definition shaky (n : nat) : list putAnswer := if bool_decide (n = 0) then [PutRefused] else [PutUnacknowledged; PutAccepted].

Definition scope_ops : list scopeOp :=
  [ScopeEnqueue (sample_event ScopeActionStarted "r1" 100) Sent; ScopeReceive; ScopeTimer;
   ScopeEnqueue (sample_event ScopeActionStopped "r1" 200) Sent; ScopeReceive; ScopeTick; ScopeClose; ScopeReceive].

Definition scope_run : scopeWriter (list ScopeEvent * Object) := archive_scopes "archive" shaky scope_ops.
Definition scope_object : Object :=
  mkObject (scopeObjectKey "archive" 100 (sha256_hex (text [line_byte 0; line_byte 1])))
    (sha256_hex (text [line_byte 0; line_byte 1])) (zstdMagic +:+ text [line_byte 0; line_byte 1]).
Definition scope_objects : list (string * string) := [(o_Key scope_object, o_Payload scope_object)].
Definition scope_store : ObjectSource := store_of scope_objects.
Definition scope_query : ScopeQuery := mkScopeQuery "c1" "apps" "Deployment" "web" (Some 120%Z) (Some 400%Z).
Definition web : ScopeKey := mkScopeKey "apps" "Deployment" "web".

Lemma scope_run_landed : sc_landed (archive_scopes "archive" shaky scope_ops) =
  [(take 2 scope_catalog, scope_object); (take 2 scope_catalog, scope_object)].
Proof. vm_compute. reflexivity. Qed.

Lemma scope_holds : @holds_keys scope_store (map fst scope_objects).
Proof. apply store_holds; [vm_compute; repeat constructor; by intros ?%elem_of_nil|repeat constructor]. Qed.

Lemma scope_coverage : @Coverage scope_store _ sample_engine scope_query =
  Ok [mkScopeInterval "apps" "Deployment" "web" "r1" 100 (Some 200%Z)].
Proof. vm_compute. reflexivity. Qed.

Lemma scope_rows_distinct : distinct_marks (event_log scope_query (take 2 scope_catalog)).
Proof.
  intros c c' Hc Hc'. vm_compute in Hc, Hc'.
  repeat (apply elem_of_cons in Hc as [->|Hc]); repeat (apply elem_of_cons in Hc' as [->|Hc']);
    try (by apply elem_of_nil in Hc); try (by apply elem_of_nil in Hc'); intros _ _ _ E; try reflexivity; discriminate E.
Qed.

Lemma scope_log_rows : @scope_log scope_store _ sample_engine scope_query (map fst scope_objects) =
  event_log scope_query (take 2 scope_catalog).
Proof. vm_compute. reflexivity. Qed.

Lemma archive_coverage_is_watching_witness : watched (event_log scope_query (take 2 scope_catalog)) web 150.
Proof.
  rewrite <-scope_log_rows.
  apply (@archive_coverage_is_watching scope_store _ sample_engine scope_query (map fst scope_objects)
    [mkScopeInterval "apps" "Deployment" "web" "r1" 100 (Some 200%Z)] web 150);
    [discriminate|exact scope_holds|exact scope_coverage|rewrite scope_log_rows; exact scope_rows_distinct|reflexivity|].
  eexists. split; [by left|]. split; [split_and!; reflexivity|]. split; cbn; lia.
Defined.

Lemma scope_events_reach_coverage_witness : watched (event_log scope_query (take 2 scope_catalog)) web 150.
Proof.
  assert (Hacc : archive_accepted "archive" shaky scope_ops = take 2 scope_catalog) by (vm_compute; reflexivity).
  rewrite <-Hacc.
  apply (@scope_events_reach_coverage _ _ _ scope_store _ _ sample_engine scope_query shaky scope_ops (map fst scope_objects)
    [mkScopeInterval "apps" "Deployment" "web" "r1" 100 (Some 200%Z)] web 150);
    [reflexivity|discriminate
    |change (Forall (fun e => valid_event e = true) (archive_accepted "archive" shaky scope_ops)); rewrite Hacc; repeat constructor
    |vm_compute; reflexivity..|exact scope_holds| |exact scope_coverage
    |change (distinct_marks (event_log scope_query (archive_accepted "archive" shaky scope_ops))); rewrite Hacc; exact scope_rows_distinct
    |reflexivity|].
  - change (en_prefix sample_engine) with "archive". rewrite scope_run_landed. split.
    + intros b obj Hin. assert (obj = scope_object) as -> by set_solver. split; [by left|]. exists None. vm_compute. reflexivity.
    + intros key ->%list_elem_of_singleton _. exists (take 2 scope_catalog), scope_object. split; [by left|done].
  - eexists. split; [by left|]. split; [split_and!; reflexivity|]. split; cbn; lia.
Defined.

(** The one worker does not keep a scope's rows in order once a PUT has failed: a batch
    whose timer fires before the retry tick overtakes the rows that wait for a retry. *)
Theorem retried_transitions_land_late :
  map fst (sc_landed (archive_scopes "archive" (fun n => if bool_decide (n = 0) then [PutRefused] else [PutAccepted])
    [ScopeEnqueue (sample_event ScopeActionStarted "r1" 100) Sent; ScopeReceive; ScopeTimer;
     ScopeEnqueue (sample_event ScopeActionStopped "r1" 200) Sent; ScopeReceive; ScopeTimer; ScopeTick])) =
  [[sample_event ScopeActionStopped "r1" 200]; [sample_event ScopeActionStarted "r1" 100]].
Proof. vm_compute. reflexivity. Qed.
End QueryWitnesses.
