(* ===== verification/ReferenceSamples.v ===== *)
(** * ReferenceSamples: the archive and the reference on one history

    An archive of four lines - an object's first sighting, two changes and an Event about
    it - on which the agreement theorems of [ReferenceSpec] are evaluated, and where the
    reference departs from what the archive declares of itself. *)

From S2P Require Import Prelude Identity Calendar HashCache GoJson Diff Replay QueryFilter SinkTypes Process Samples S3Object S3Writer ScopeLog Layout Archive ArchiveSpec ArchiveEndToEnd ArchiveState Ownership ArchiveQueries ScopeWorker S3ScopeWriter ArchiveSamples QuerySamples Pointer Render Reference Rfc6902 ReferenceSpec.

Lemma named_by_in s lines l : l ∈ named_by s lines -> l ∈ lines.
Proof. unfold named_by. rewrite !list_elem_of_In, filter_In. tauto. Qed.

Module ReferenceWitnesses.
Import ArchiveWitnesses QueryWitnesses.

(** ** Parameters *)

(** A document [v<text>] has one member, [=<text>] is a string; a patch is the text that
    replaces the member. *)
Definition text_any : AnyCodec := {|
  decode_any s := match s with String "v" t => Some (JObj (note t)) | String "=" t => Some (JStr t) | _ => None end;
  encode_any v := match v with JStr s => Some s | _ => None end;
|}.
Definition member_patch : JsonPatch := {|
  patch := string;
  DecodePatch s := if bool_decide (s = "") then Err "no patch" else Ok s;
  patch_Apply p text := match text with String "v" _ => Ok (String "v" p) | _ => Err "not a document" end;
|}.
Definition member_ops : OpCodec := {| decode_patch s := if bool_decide (s = "") then None else Some [mkPatchOp opReplace "/v" (String "=" s)] |}.
Definition member_paths : PatchPaths := {| patch_paths s := if bool_decide (s = "") then None else Some ["/v"] |}.
Definition in_key_order : MapOrder := {| map_order _ _ _ _ m := map_to_list m |}.
#[local] Existing Instances note_encoders text_any member_patch member_ops member_paths in_key_order.

#[local] Instance in_key_order_laws : MapOrderLaws.
Proof. split. done. Qed.

Lemma text_objects text m : decode_any text = Some (JObj m) -> exists t, text = String "v" t /\ m = note t.
Proof.
  destruct text as [|c t]; [done|]. destruct (decide (c = "v"%char)) as [->|Hv]; [intros [= <-]; by exists t|].
  destruct c as [[] [] [] [] [] [] [] []]; try done; by destruct Hv.
Qed.

#[local] Instance member_library : PatchLibrary.
Proof.
  split.
  - intros diff ops p text text' m. cbn [decode_patch member_ops DecodePatch member_patch]. case_bool_decide as Ed; [done|].
    intros [= <-] _ [= <-] (t & -> & ->)%text_objects [= <-]. exists (JObj (note diff)). split; [|done].
    eapply (patches_cons (mkPatchOp opReplace "/v" (String "=" diff)) [] (JStr diff) ["v"]); [done|vm_compute; reflexivity| |constructor].
    apply (edit_replace_member _ _ "v" _ _ (JStr t)); [done|by apply lookup_singleton_Some|].
    split; [by apply lookup_singleton_Some|]. intros other Ho. unfold note. by rewrite !lookup_singleton_ne.
  - intros text o (t & -> & ->)%text_objects. done.
Qed.

Definition story_line (ts : Z) (eventType kind name uid : string) (actors : list string) (data diff : string) : recordLine :=
  mkLine ts "c1" eventType "" "v1" kind "ns" name uid "1" ∅ actors data diff "".

Definition story : list recordLine :=
  [story_line (instant 12 10) "Added" "ConfigMap" "cm" "u1" ["kubectl"] "va" "";
   story_line (instant 12 20) "Modified" "ConfigMap" "cm" "u1" ["kubectl"] "" "b";
   story_line (instant 12 30) "Added" "Event" "cm.1" "e1" [] "event" "";
   story_line (instant 12 40) "Modified" "ConfigMap" "cm" "u1" ["bot"] "" "c"].

Fixpoint story_lines (s : string) : list recordLine :=
  match s with
  | EmptyString => []
  | String c rest => match story !! Ascii.nat_of_ascii c with Some l => l :: story_lines rest | None => story_lines rest end
  end.

Definition story_reader : FrameReader := {|
  record_stream bytes := (story_lines (drop_bytes 4 bytes), None);
  scope_stream := @scope_stream archive_reader;
  event_envelope data := if bool_decide (data = "event") then Some (mkSubject "ConfigMap" "ns" "" "u1", mkSubject "" "" "cm" "") else None;
|}.
#[local] Existing Instance story_reader.

(** Two objects, filed under the hours their first lines are of. *)
Definition story_objects : list (string * string) :=
  [edge_object (instant 12 10) [line_byte 0; line_byte 1]; edge_object (instant 12 30) [line_byte 3; line_byte 2]].
Definition story_store : ObjectSource := store_of story_objects.
#[local] Existing Instance story_store.

Lemma story_holds : holds_keys (map fst story_objects).
Proof.
  apply store_holds.
  - apply (bool_decide_unpack (NoDup (map fst story_objects))). vm_compute. exact I.
  - repeat constructor.
Qed.

Lemma story_filed : Forall (filed sample_engine "c1") (map fst story_objects).
Proof.
  apply Forall_cons; split; [|apply Forall_cons; split; [|by apply Forall_nil]].
  - solve_filed (instant 12 10) (sha256_hex (text [line_byte 0; line_byte 1])).
  - solve_filed (instant 12 30) (sha256_hex (text [line_byte 3; line_byte 2])).
Qed.

Definition all_lines : list recordLine := concat (map key_lines (map fst story_objects)).

Lemma all_lines_story : all_lines = [story_line (instant 12 10) "Added" "ConfigMap" "cm" "u1" ["kubectl"] "va" "";
   story_line (instant 12 20) "Modified" "ConfigMap" "cm" "u1" ["kubectl"] "" "b";
   story_line (instant 12 40) "Modified" "ConfigMap" "cm" "u1" ["bot"] "" "c";
   story_line (instant 12 30) "Added" "Event" "cm.1" "e1" [] "event" ""].
Proof. vm_compute. reflexivity. Qed.

(** The two newest rows, with Events, of what the bot did not do to the member. *)
Definition story_query : TimelineQuery :=
  mkTimelineQuery sample_ref (Some (instant 11 50)) (Some (instant 13 0)) "" false [] ["bot"] ["v"] 2 true true false [].

Definition deletions_kept : Capabilities := mkCapabilities "reference" true false false true.

Ltac each_line Hl := rewrite all_lines_story in Hl; repeat (apply elem_of_cons in Hl as [->|Hl]); [..|by apply elem_of_nil in Hl].

Lemma story_comparable : comparable story_query all_lines.
Proof.
  split.
  - apply (bool_decide_unpack (NoDup _)). vm_compute. exact I.
  - intros l Hl Hn. each_line Hl; vm_compute in Hn |- *; congruence.
  - intros l Hl Hn. each_line Hl; vm_compute; reflexivity.
  - intros l Hl Hn. each_line Hl; discriminate.
Qed.

Definition story_reference (caps : Capabilities) : referenceEngine :=
  newReferenceEngine (mkHistory (map row_of all_lines) (map transition_of (cluster_log sample_engine "c1" (map fst story_objects)))) caps.

Lemma archive_agrees_with_reference_witness : exists answer failure,
  Archive.Timeline sample_engine story_query = Ok (answer, failure) /\
  Reference.Timeline (story_reference deletions_kept) story_query = Ok answer /\
  map ch_TS answer = [instant 12 30; instant 12 20].
Proof.
  destruct (archive_agrees_with_reference sample_engine story_query (instant 11 50) (instant 13 0) (map fst story_objects)
    (map transition_of (cluster_log sample_engine "c1" (map fst story_objects))) deletions_kept eq_refl eq_refl
    ltac:(vm_compute; discriminate) eq_refl sample_askable story_holds story_filed story_comparable) as (answer & failure & Ha & Hr).
  { apply Forall_forall. done. }
  exists answer, failure. split; [exact Ha|]. split; [exact Hr|].
  assert (E : exists out, Archive.Timeline sample_engine story_query = Ok out /\ map ch_TS out.1 = [instant 12 30; instant 12 20])
    by (eexists; split; vm_compute; reflexivity).
  destruct E as (out & E & Ets). rewrite Ha in E. injection E as <-. exact Ets.
Defined.

Lemma member_plain diff : plain_diff diff.
Proof.
  intros Hd. cbn. rewrite bool_decide_eq_false_2 by done. eexists. split; [done|]. constructor; [|constructor].
  split; [by right; left|]. exists ["v"]. split_and!; [done|vm_compute; reflexivity|]. constructor; [|constructor]. by vm_compute.
Qed.

Lemma story_named l : l ∈ named_by (state_scan sample_ref (instant 13 0)) all_lines -> l ∈ all_lines.
Proof. apply named_by_in. Qed.

Lemma story_not_event l : l ∈ named_by (state_scan sample_ref (instant 13 0)) all_lines -> ln_Kind l = "ConfigMap".
Proof.
  intros Hl. assert (Hk : Forall (fun k => k = "ConfigMap") (map ln_Kind (named_by (state_scan sample_ref (instant 13 0)) all_lines)))
    by (apply (bool_decide_unpack (Forall _ _)); vm_compute; exact I).
  rewrite Forall_map, Forall_forall in Hk. by apply Hk.
Qed.



(** ** Where they part *)

(** The archive's engine declares that its storage holds no deletions. A line of a
    deletion is read back all the same, while a reference built for that declaration
    never has it. *)
Definition deletion : recordLine := story_line (instant 12 50) "Deleted" "ConfigMap" "cm" "u1" [] "" "".

Example declared_without_deletions :
  ta_changes (foldl (scan_line (timelineScan (sample_query false 0))) acc_zero [deletion]) = [line_change deletion] /\
  Reference.Timeline (newReferenceEngine (mkHistory [row_of deletion] []) engine_Capabilities) (sample_query false 0) = Ok [].
Proof. split; vm_compute; reflexivity. Qed.

(** The pointer of the member with the empty name replaces the whole document in the
    reference's applier; the reader looks the member up. *)
Example empty_name_replaces_document :
  applyAt (JObj {[ "labels" := JNull ]}) (Reference.pointerTokens "/") opReplace (JStr "y") = Ok (JStr "y") /\
  valueAtPointer (JObj {[ "" := JStr "x" ]}) "/" = Some (JStr "x").
Proof. split; vm_compute; reflexivity. Qed.
End ReferenceWitnesses.
