(* ===== verification/GatherArchive.v ===== *)
(** * GatherArchive: the command over the archive

    The archive's engine as a [QueryEngine]: it keeps the promise about incarnations the
    page's header relies on, and the finding that nothing was ever watching, which exits 3,
    is true of the archive: no stored line of the window names the object, and no
    instant of the window was watched. The wording of the engine's errors is an argument.
    Samples and witnesses of [Gather] are at the end. *)

From S2P Require Import Prelude Calendar HashCache GoJson Diff QueryFilter SinkTypes S3Object ScopeLog Replay Pointer RedactParse Render Layout Archive ArchiveSpec ArchiveEndToEnd ArchiveState Blame Ownership ArchiveQueries Reference Coldscan Gather GatherSpec Samples ArchiveSamples QuerySamples.

(** ** The archive's engine as a read plane *)

Section plane.
Context `{ObjectSource, FrameReader, PatchPaths, Encoders, JsonPatch, OwnerCodec}.
(** The texts of the engine's errors. *)
Variable query_text : queryError -> string.
Variable state_text : stateError -> string.

Definition query_failure (err : queryError) : goError :=
  mkGoError (query_text err) None (match err with ErrTimeBoundRequired => [TimeBoundErr] | _ => [] end).

(** [ErrObjectNotFound] is wrapped when nothing was found, the object was deleted before, or no base survives. *)
Definition state_failure (err : stateError) : stateFailure :=
  match err with
  | errNothingFound | errDeletedBefore _ | errNoBase _ => ObjectNotFound (state_text err)
  | errStateQuery _ | errStateScan _ | errReplay _ => OtherFailure (state_text err)
  end.

Definition plane_result {A} (r : result queryError A) : result goError A :=
  match r with Ok a => Ok a | Err err => Err (query_failure err) end.

Definition archive_plane (e : Engine) : QueryEngine := {|
  qe_Capabilities := engine_Capabilities;
  qe_Timeline q := plane_result
    (match Archive.Timeline e q with
     | Ok (changes, failure) => Ok (mkIterator changes ((fun f => query_failure (errScan f)) <$> failure) None)
     | Err err => Err err
     end);
  qe_StateAt ref at_ uid := match ArchiveState.StateAt e ref (Some at_) uid with Ok rc => Ok rc | Err err => Err (state_failure err) end;
  qe_Incarnations ref from to := plane_result (ArchiveQueries.Incarnations e ref from to);
  qe_Coverage q := plane_result (ArchiveQueries.Coverage e q);
  qe_Ownership := Some (fun q => plane_result (Ownership e q));
  qe_EstimateScan := Some (fun cluster from to => plane_result (EstimateScan e cluster from to));
  qe_reports := true;
|}.

(** ** One incarnation *)

(** Every record the reader decodes carries a UID. *)
Class Identified : Prop := identified : forall bytes, Forall (fun l => ln_UID l <> "") (record_stream bytes).1.

(** What a scan collects: commentary marked as such, marks that name an incarnation, and
    no change without a mark or when changes are not retained. *)
Record sound_acc (s : recordScan) (a : timelineAccumulator) : Prop := {
  sa_events : Forall (fun ev => ch_EventType (ce_change ev) = EventKubernetes) (ta_events a);
  sa_marks : Forall (fun m => im_uid m <> "") (ta_marks a);
  sa_marked : ta_marks a = [] -> ta_changes a = [];
  sa_retained : rs_retain s = false -> ta_changes a = [];
}.

Lemma sound_zero s : sound_acc s acc_zero.
Proof. by constructor. Qed.

Lemma sound_merge s a b : sound_acc s a -> sound_acc s b -> sound_acc s (acc_merge a b).
Proof.
  intros [Ae Am Ac Ar] [Be Bm Bc Br]. constructor; cbn.
  - by apply Forall_app.
  - by apply Forall_app.
  - intros [Ha Hb]%app_eq_nil. by rewrite Ac, Bc.
  - intros Hr. by rewrite Ar, Br.
Qed.

Lemma sound_line s a l : ln_UID l <> "" -> sound_acc s a -> sound_acc s (scan_line s a l).
Proof.
  intros Hu Hs. rewrite scan_line_acc. apply sound_merge; [done|]. unfold scan_line.
  destruct (negb (in_window _ _ _)); [apply sound_zero|]. destruct (namesObject l (rs_ref s)).
  - destruct (rs_retain s) eqn:Hr; cbn [negb]; [destruct (match rs_keep s with Some keep => negb (keep _) | None => false end)|];
      (constructor; cbn; [done|by repeat constructor|done|congruence]).
  - destruct (_ && _); [|apply sound_zero]. destruct (_ && _); [apply sound_zero|].
    constructor; cbn; [by repeat constructor|done|done|done].
Qed.

Lemma sound_lines s lines a : Forall (fun l => ln_UID l <> "") lines -> sound_acc s a -> sound_acc s (foldl (scan_line s) a lines).
Proof.
  revert a. induction lines as [|l lines IH]; intros a Hl Ha; [done|]. apply Forall_cons in Hl as [Hu Hl]. cbn.
  apply IH; [done|]. by apply sound_line.
Qed.

Context `{!Identified}.

Lemma sound_read s key : sound_acc s (readObject acc_zero (scan_decode s) key).1.
Proof.
  unfold readObject. destruct (src_Open key) as [b|[]]; [|apply sound_zero..].
  unfold scan_decode, decodeFrame, streamFrame.
  destruct (bool_decide _); [apply sound_zero|]. destruct (negb _); [apply sound_zero|].
  pose proof (identified (bd_bytes b)) as Hid. destruct (record_stream (bd_bytes b)) as [lines failure]. cbn in *.
  by apply sound_lines, sound_zero.
Qed.

Lemma sound_folds s t accs : sound_acc s t -> Forall (sound_acc s) accs -> sound_acc s (foldl acc_merge t accs).
Proof.
  revert t. induction accs as [|a accs IH]; intros t Ht Ha; [done|]. apply Forall_cons in Ha as [Hs Ha]. cbn.
  apply IH; [|done]. by apply sound_merge.
Qed.

Lemma sound_group s prefixes t : sound_acc s t -> sound_acc s (scanOneGroup acc_zero (scan_decode s) acc_merge prefixes t).1.1.
Proof.
  intros Ht. unfold scanOneGroup. destruct (listObjectKeys prefixes) as [parts|]; [|done].
  destruct (fetchObjects acc_zero (scan_decode s) prefixes parts) as [results cancelled] eqn:Hf.
  assert (Forall (sound_acc s) (map fst results)) as Hr.
  { revert Hf. unfold fetchObjects.
    destruct (interrupted prefixes) as [[|cause ran]|]; intros [= <- <-]; apply Forall_map, Forall_forall.
    - intros p Hp. apply list_elem_of_fmap in Hp as (key & -> & _). apply sound_read.
    - intros p Hp. apply list_elem_of_lookup in Hp as [i Hp]. rewrite list_lookup_imap in Hp.
      destruct (concat parts !! i) as [key|]; [|done]. cbn in Hp. injection Hp as <-. destruct (ran i); [apply sound_read|apply sound_zero].
    - intros p Hp. apply list_elem_of_fmap in Hp as (key & -> & _). apply sound_read. }
  destruct cancelled; by apply sound_folds.
Qed.

Lemma sound_forward s groups t failure : sound_acc s t -> sound_acc s (scan_groups acc_zero (scan_decode s) acc_merge groups t failure).1.
Proof.
  revert t failure. induction groups as [|group groups IH]; intros t failure Ht; [done|]. cbn.
  pose proof (sound_group s group t Ht) as Hg. destruct (scanOneGroup _ _ _ group t) as [[t' err] abort]. cbn in Hg.
  destruct abort; [done|]. by apply IH.
Qed.

Lemma sound_walk s fuel e q spans end_ width steps : Forall (fun step => sound_acc s (ws_acc step)) steps ->
  Forall (fun step => sound_acc s (ws_acc step)) (walk fuel e q s spans end_ width steps).
Proof.
  revert end_ width steps. induction fuel as [|fuel IH]; intros end_ width steps Hs; [done|]. cbn [walk].
  destruct (bool_decide (end_ = 0)); [done|].
  pose proof (sound_group s (prefixesOf (drop (end_ - width) (take end_ spans))) acc_zero (sound_zero s)) as Hg.
  destruct (scanOneGroup _ _ _ _ _) as [[acc failure] abort]. cbn in Hg.
  assert (Forall (fun step => sound_acc s (ws_acc step)) (steps ++ [mkWalkStep acc failure])) as Hs'
    by (apply Forall_app; split; [done|by apply Forall_singleton]).
  destruct (abort || _); [done|]. by apply IH.
Qed.

Lemma sound_timeline e q from to : exists a,
  (scanTimeline e q from to).1 = assemble q a /\ sound_acc (timelineScan q) a.
Proof.
  unfold scanTimeline. destruct (reverseLimited q).
  - unfold scanNewestFirst. set (spans := recordPartitions _ _ _ _).
    pose proof (sound_walk (timelineScan q) (length spans) e q spans (length spans) 1 [] (Forall_nil_2 _)) as Hw.
    set (steps := walk _ _ _ _ _ _ _ _) in *. rewrite fold_steps_eq. eexists. split; [reflexivity|].
    apply sound_merge; [apply sound_zero|].
    assert (Forall (sound_acc (timelineScan q)) (map ws_acc (reverse steps))) as Hs by (by apply Forall_map, Forall_reverse).
    clear -Hs. induction Hs as [|a accs Ha _ IH]; [apply sound_zero|]. by apply sound_merge.
  - pose proof (sound_forward (timelineScan q) (chunk (en_concurrency e) (recordPrefixes e (or_ClusterID (tq_Ref q)) from to))
                  acc_zero None (sound_zero _)) as Hs.
    unfold scanForward, scanPartitions. destruct (scan_groups _ _ _ _ _ _) as [a failure]. by exists a.
Qed.

(** An object's own change in an answer was collected, and is of the resolved incarnation. *)
Lemma own_rows q a c : sound_acc (timelineScan q) a -> c ∈ assemble q a -> own_change c ->
  exists uid, resolution q a = Some uid /\ c ∈ ta_changes a /\ of_incarnation uid c = true.
Proof.
  intros Hs Hin Hown. rewrite assemble_rows in Hin. destruct (resolution q a) as [uid|]; [|by apply not_elem_of_nil in Hin].
  exists uid. split; [done|].
  assert (c ∈ rows_for q uid a) as Hrow.
  { revert Hin. cbn. case_bool_decide; [intros Hin%elem_of_take|intros Hin];
      [destruct Hin as (i & Hin & _); apply list_elem_of_lookup_2 in Hin|]; destruct (tq_Reverse q); by rewrite ?elem_of_reverse in Hin. }
  unfold rows_for in Hrow. rewrite merge_loop_Permutation in Hrow. apply elem_of_app in Hrow as [Hc|He].
  - rewrite (stable_sort_Permutation change_le) in Hc. apply list_elem_of_In, List.filter_In in Hc as [Hc Hu].
    split; [by apply list_elem_of_In|done].
  - exfalso. destruct (tq_IncludeEvents q); [|by apply not_elem_of_nil in He].
    rewrite (stable_sort_Permutation change_le) in He. apply list_elem_of_fmap in He as (ev & -> & He).
    apply list_elem_of_In, List.filter_In in He as [He _]. apply Hown.
    by apply (proj1 (Forall_forall _ _) (sa_events _ _ Hs)), list_elem_of_In.
Qed.

(** The archive promises what the header relies on. *)
#[export] Instance archive_single_incarnation e : SingleIncarnation (archive_plane e).
Proof.
  assert (forall q it, qe_Timeline (archive_plane e) q = Ok it -> exists a, it_Changes it = assemble q a /\ sound_acc (timelineScan q) a) as Hit.
  { intros q it. cbn. unfold Archive.Timeline. destruct (en_closed e); [done|]. destruct (requireWindow _ _) as [[from to]|]; [|done].
    destruct (sound_timeline e q from to) as (a & Ha & Hs). destruct (scanTimeline e q from to) as [changes failure].
    intros [= <-]. by exists a. }
  constructor.
  - intros q it c Hq Hu Hin Hown. destruct (Hit q it Hq) as (a & Ha & Hs). rewrite Ha in Hin.
    destruct (own_rows q a c Hs Hin Hown) as (uid & Hres & _ & Hof). revert Hres. unfold resolution, resolveIncarnation.
    rewrite (bool_decide_true (tq_UID q <> "")) by done. destruct (tq_EventsOnly q); cbn.
    all: try (destruct (tq_IncludeEvents q); cbn; [|done]); intros [= <-]; revert Hof; unfold of_incarnation.
    all: rewrite (bool_decide_false (tq_UID q = "")) by done; apply bool_decide_eq_true.
  - intros q it c c' Hq Hu Hall Hin Hin' Hown Hown'. destruct (Hit q it Hq) as (a & Ha & Hs). rewrite Ha in Hin, Hin'.
    destruct (own_rows q a c Hs Hin Hown) as (uid & Hres & Hc & Hof).
    destruct (own_rows q a c' Hs Hin' Hown') as (uid' & Hres' & _ & Hof'). rewrite Hres in Hres'. injection Hres' as <-.
    assert (uid <> "") as Hne.
    { intros ->. revert Hres. unfold resolution, resolveIncarnation. destruct (tq_EventsOnly q) eqn:Heo.
      - rewrite (sa_retained _ _ Hs) in Hc by (cbn; by rewrite Heo). by apply not_elem_of_nil in Hc.
      - rewrite bool_decide_false, Hall by (by intros Hx). destruct (last _) as [m|] eqn:El; cbn.
        + intros [= Hm]. apply last_Some_elem_of in El. rewrite (stable_sort_Permutation mark_le) in El.
          by apply (proj1 (Forall_forall _ _) (sa_marks _ _ Hs) m El).
        + intros _. apply last_None in El. pose proof (stable_sort_Permutation mark_le (ta_marks a)) as Hp. rewrite El in Hp.
          apply Permutation_nil_l in Hp. rewrite (sa_marked _ _ Hs) in Hc by done. by apply not_elem_of_nil in Hc. }
    revert Hof Hof'. unfold of_incarnation. rewrite bool_decide_false by done. cbn. rewrite !bool_decide_eq_true. congruence.
Qed.
End plane.

(** ** The finding is true of the archive *)

Section finding.
Context `{ObjectSource, FrameReader, PatchPaths}.

(** A query without predicates. *)
Definition unfiltered (q : TimelineQuery) : Prop := tq_Actors q = [] /\ tq_ExcludeActors q = [] /\ tq_FieldPaths q = [].

Lemma held_nobody c : held c [] = false.
Proof.
  unfold held. induction (ch_Actors c) as [|a l IH]; [done|]. cbn [existsb]. rewrite IH, (bool_decide_false (a ∈ [])); [done|].
  apply not_elem_of_nil.
Qed.

Lemma unfiltered_wanted q c : unfiltered q -> wanted q c = true.
Proof. intros (Ha & He & Hf). unfold wanted, keeps. cbn. rewrite Ha, He, Hf. unfold MatchesActors. by rewrite held_nobody. Qed.

Lemma rows_for_nil q uid a : (let rows := if tq_Reverse q then reverse (rows_for q uid a) else rows_for q uid a in
    if bool_decide (0 < tq_Limit q)%Z then take (Z.to_nat (tq_Limit q)) rows else rows) = [] ->
  List.filter (of_incarnation uid) (ta_changes a) = [].
Proof.
  intros Hnil. assert (rows_for q uid a = []) as Hrows.
  { assert (forall rows : list Change, (if bool_decide (0 < tq_Limit q)%Z then take (Z.to_nat (tq_Limit q)) rows else rows) = [] -> rows = []) as Hcut.
    { intros [|c rows]; [done|]. case_bool_decide; [|done]. destruct (Z.to_nat (tq_Limit q)) eqn:El; [lia|done]. }
    apply Hcut in Hnil. destruct (tq_Reverse q); [|done]. by rewrite <- (reverse_involutive (rows_for q uid a)), Hnil. }
  unfold rows_for in Hrows. pose proof (merge_loop_Permutation (stable_sort change_le (List.filter (of_incarnation uid) (ta_changes a)))
    (if tq_IncludeEvents q then stable_sort change_le (map ce_change (List.filter (pinned uid) (ta_events a))) else [])) as Hp.
  rewrite Hrows in Hp. apply Permutation_nil_l, eq_sym, app_eq_nil in Hp as [Hp _].
  pose proof (stable_sort_Permutation change_le (List.filter (of_incarnation uid) (ta_changes a))) as Hs. rewrite Hp in Hs.
  by apply Permutation_nil_l in Hs.
Qed.

(** An unfiltered answer is assembled from the lines of the archive that name the object
    in the window. *)
Lemma unfiltered_collected e q from to stored :
  tq_From q = Some from -> tq_To q = Some to ->
  askable e (or_ClusterID (tq_Ref q)) from to -> holds_keys stored -> Forall (filed e (or_ClusterID (tq_Ref q))) stored ->
  unfiltered q -> tq_EventsOnly q = false ->
  exists a read, (scanTimeline e q from to).1 = assemble q a /\ ta_changes a = map line_change read /\
    ta_marks a = map line_mark read /\ read ≡ₚ named q (concat (map key_lines stored)).
Proof.
  intros Hf Ht Ha Hs Hfiled Hun Heo. set (prefixes := recordPrefixes e (or_ClusterID (tq_Ref q)) from to).
  exists (read_all (timelineScan q) prefixes), (named q (concat (map key_lines (concat (map keys_of prefixes))))).
  assert (scanForward e q (timelineScan q) from to = (read_all (timelineScan q) prefixes, read_failure (timelineScan q) prefixes)) as Hfwd.
  { apply forward_clean; [apply Hs|apply Ha|]. apply Forall_forall. intros p _. destruct (hk_listed _ Hs p) as (keys & Hk & _). by exists keys. }
  destruct (scan_rows (timelineScan q) (concat (map key_lines (concat (map keys_of prefixes))))) as [Hc Hm]; [cbn; by rewrite Heo|].
  rewrite <- read_all_lines in Hc, Hm. split_and!.
  - destruct (reverseLimited q) eqn:Hrl.
    + destruct (newest_first_full e q from to stored Ha Hs Hfiled Hrl) as [-> _]. by rewrite Hfwd.
    + unfold scanTimeline. by rewrite Hrl, Hfwd.
  - rewrite Hc. f_equal. apply keep_all, Forall_true. intros l. by apply unfiltered_wanted.
  - exact Hm.
  - by apply (named_complete e q from to stored).
Qed.

(** Without rows, no line of the archive in the window names the object under the pinned
    UID, and without a pin none names it at all. *)
Lemma silent_archive e q from to stored l :
  tq_From q = Some from -> tq_To q = Some to ->
  askable e (or_ClusterID (tq_Ref q)) from to -> holds_keys stored -> Forall (filed e (or_ClusterID (tq_Ref q))) stored ->
  unfiltered q -> tq_EventsOnly q = false -> (scanTimeline e q from to).1 = [] ->
  l ∈ named q (concat (map key_lines stored)) -> tq_UID q <> "" /\ ln_UID l <> tq_UID q.
Proof.
  intros Hf Ht Ha Hs Hfiled Hun Heo Hnil Hl.
  destruct (unfiltered_collected e q from to stored Hf Ht Ha Hs Hfiled Hun Heo) as (a & read & Hans & Hc & Hm & Hn).
  rewrite Hnil in Hans. rewrite <- Hn in Hl.
  assert (forall uid l', l' ∈ read -> List.filter (of_incarnation uid) (ta_changes a) = [] -> uid <> "" /\ ln_UID l' <> uid) as Hnone.
  { intros uid l' Hl' Hempty.
    assert (of_incarnation uid (line_change l') = false) as Hof.
    { apply not_true_is_false. intros Hof. assert (line_change l' ∈ List.filter (of_incarnation uid) (ta_changes a)) as Hbad.
      { apply list_elem_of_In, List.filter_In. rewrite <- list_elem_of_In, Hc. split; [by apply (list_elem_of_fmap_2 line_change)|done]. }
      rewrite Hempty in Hbad. by apply not_elem_of_nil in Hbad. }
    unfold of_incarnation in Hof. rewrite orb_false_iff, !bool_decide_eq_false in Hof. exact Hof. }
  rewrite assemble_rows in Hans. unfold resolution, resolveIncarnation in Hans. rewrite Heo in Hans. symmetry in Hans.
  destruct (bool_decide_reflect (tq_UID q <> "")) as [Hu|Hu]; [apply Hnone; [done|exact (rows_for_nil _ _ _ Hans)]|]. exfalso.
  destruct (tq_AllIncarnations q); [by destruct (Hnone "" l Hl (rows_for_nil _ _ _ Hans)) as [? _]|].
  destruct (last (stable_sort mark_le (ta_marks a))) as [m|] eqn:El.
  - cbn [negb andb] in Hans. apply rows_for_nil in Hans. apply last_Some_elem_of in El.
    rewrite (stable_sort_Permutation mark_le), Hm in El. apply list_elem_of_fmap in El as (l' & -> & Hl').
    by destruct (Hnone _ l' Hl' Hans) as [_ ?].
  - apply last_None in El. pose proof (stable_sort_Permutation mark_le (ta_marks a)) as Hp. rewrite El in Hp.
    apply Permutation_nil_l in Hp. rewrite Hm in Hp. symmetry in Hp. apply map_eq_nil in Hp. subst read. by apply not_elem_of_nil in Hl.
Qed.
End finding.

Lemma newestUID_listed incarnations : newestUID incarnations <> "" -> newestUID incarnations ∈ map in_UID incarnations.
Proof.
  unfold newestUID. assert (forall acc, (foldl newer_incarnation acc incarnations).1.1 = acc.1.1 \/
    (foldl newer_incarnation acc incarnations).1.1 ∈ map in_UID incarnations) as Hl.
  { induction incarnations as [|i l IH]; intros acc; [by left|]. cbn [foldl map].
    destruct (IH (newer_incarnation acc i)) as [->|Hin]; [|right; by apply elem_of_cons; right].
    destruct acc as [[newest first] last]. unfold newer_incarnation. destruct (_ || _); [right; by apply elem_of_cons; left|by left]. }
  destruct (Hl ("", 0%Z, 0%Z)) as [->|]; done.
Qed.

Lemma filtered_none request : rq_EventsOnly request = false -> filtered request = false ->
  rq_Actors request = [] /\ rq_ExcludeActors request = [] /\ rq_FieldPaths request = [].
Proof.
  intros He. unfold filtered. rewrite He, !orb_false_iff, !asked_nothing. tauto.
Qed.

Section over_archive.
Context `{ObjectSource, FrameReader, PatchPaths, Encoders, JsonPatch, OwnerCodec, Strconv, PatchCodec, AnyCodec}.
Variable query_text : queryError -> string.
Variable state_text : stateError -> string.

Lemma collected_scan e q from to : tq_From q = Some from -> tq_To q = Some to ->
  collectChanges (archive_plane query_text state_text e) q = Ok [] -> (scanTimeline e q from to).1 = [].
Proof.
  intros Hf Ht Hc. destruct (collected _ _ _ Hc) as (it & Hit & Hnil). revert Hit. cbn. unfold Archive.Timeline.
  destruct (en_closed e); [done|]. unfold requireWindow. rewrite Hf, Ht. destruct (bool_decide _); [done|].
  destruct (scanTimeline e q from to) as [changes failure]. intros [= <-]. done.
Qed.

(** No line of the window carries the UID a bare invocation pins. *)
Lemma pin_is_recorded e request from to stored : let cluster := or_ClusterID (rq_Ref request) in
  askable e cluster from to -> holds_keys stored -> Forall (filed e cluster) stored ->
  rq_UID request = "" -> rq_EventsOnly request = false ->
  ic_pinned (chosen (archive_plane query_text state_text e) request (Some from) (Some to)) <> "" ->
  exists l, l ∈ named_by (marks_scan (rq_Ref request) from to) (concat (map key_lines stored)) /\
    ln_UID l = ic_pinned (chosen (archive_plane query_text state_text e) request (Some from) (Some to)).
Proof.
  intros cluster Ha Hs Hfiled Hu He. unfold chosen, chooseIncarnation, selectIncarnation, pinnedUID. rewrite He. cbn. rewrite Hu.
  destruct (ArchiveQueries.Incarnations e (rq_Ref request) (Some from) (Some to)) as [spans|] eqn:Hi; cbn.
  - destruct (incarnations_complete e (rq_Ref request) from to stored spans Ha Hs Hfiled Hi) as (_ & _ & Huid & _).
    destruct (rq_AllIncarnations request); cbn; [done|]. intros Hne. apply newestUID_listed, Huid in Hne.
    apply list_elem_of_fmap in Hne as (l & -> & Hl). by exists l.
  - by destruct (rq_AllIncarnations request).
Qed.

End over_archive.

(** ** Samples *)

Module GatherSamples.
Import ArchiveWitnesses QueryWitnesses.
Definition no_ops : PatchCodec := {| decode_ops _ := Ok [] |}.
Definition text_values : AnyCodec := {| decode_any s := Some (JStr s); encode_any _ := None |}.
Definition bare_quotes : Strconv := {| Quote s := String quote_char (s +:+ String quote_char ""); Unquote _ := None |}.
#[local] Existing Instances sample_store archive_reader sample_paths note_encoders whole_document_patch sample_owners no_ops
  text_values bare_quotes.

Definition plane : QueryEngine := archive_plane (fun _ => "refused") (fun _ => "no state") sample_engine.

Definition quiet : Coldscan.Options := mkScanOptions true 0 false false false.
Definition nowhere : IOStreams := mkStreams "" (fun _ => None).

(** A request for the newest hundred changes of an object between 11:50 and 13:00. *)
Definition ask (ref : ObjectRef) (actors : list string) : TimelineRequest :=
  mkRequest ref (Some (instant 11 50)) (Some (instant 13 0)) None "" false true actors [] [] [] false 100 false false false false [] quiet.

Definition answer (request : TimelineRequest) : result goError gatherResult := (gatherChanges plane request nowhere UTC 0 []).2.

Definition unknown_ref : ObjectRef := mkRef "c1" "apps" "Deployment" "ns" "gone".

Definition gathered_or_none (r : result goError gatherResult) : gatherResult :=
  match r with Ok g => g | Err _ => mkGather "" None None [] "" (mkCoverage [] None) [] [] None end.

Definition known : gatherResult := Eval vm_compute in gathered_or_none (answer (ask sample_ref [])).
Definition missing : gatherResult := Eval vm_compute in gathered_or_none (answer (ask unknown_ref [])).
Definition masked : gatherResult := Eval vm_compute in gathered_or_none (answer (ask sample_ref ["nobody"])).

Lemma known_gathered : gatherChanges plane (ask sample_ref []) nowhere UTC 0 [] =
  ((gatherChanges plane (ask sample_ref []) nowhere UTC 0 []).1, Ok known).
Proof. vm_compute. reflexivity. Qed.
Lemma missing_gathered : gatherChanges plane (ask unknown_ref []) nowhere UTC 0 [] =
  ((gatherChanges plane (ask unknown_ref []) nowhere UTC 0 []).1, Ok missing).
Proof. vm_compute. reflexivity. Qed.
Lemma masked_gathered : gatherChanges plane (ask sample_ref ["nobody"]) nowhere UTC 0 [] =
  ((gatherChanges plane (ask sample_ref ["nobody"]) nowhere UTC 0 []).1, Ok masked).
Proof. vm_compute. reflexivity. Qed.

Example pages :
  (gr_UID known, map (fun row => ch_EventType (tr_Change row)) (gr_Rows known)) = ("u1", ["Added"; "Modified"]) /\
  CodeFor (gr_Empty missing) = NoCoverage /\
  gr_Rows masked = [] /\ CodeFor (gr_Empty masked) = Success /\
  last (gr_Notices masked) = Some ("changes are recorded for ns/cm in 2024-02-29T11:50:00Z to 2024-02-29T13:00:00Z and --actor nobody matched none of them; the window itself is not empty, so this is the filter's answer rather than the object's").
Proof. split_and!; vm_compute; reflexivity. Qed.

#[local] Instance archive_identified : Identified.
Proof.
  intros bytes. change (Forall (fun l => ln_UID l <> "") (map line_of (parse_lines (drop_bytes 4 bytes)))). apply Forall_map.
  generalize (drop_bytes 4 bytes). intros text. induction text as [|c rest IH]; [constructor|]. cbn [parse_lines].
  destruct (catalog !! Ascii.nat_of_ascii c) as [record|] eqn:Hc; [|done]. apply Forall_cons. split; [|done].
  apply list_elem_of_lookup_2 in Hc. clear IH. unfold catalog in Hc.
  repeat (apply elem_of_cons in Hc as [->|Hc]; [done|]). by apply elem_of_nil in Hc.
Qed.

Lemma header_names_the_rows_witness :
  Forall (fun row => own_change (tr_Change row) -> ch_UID (tr_Change row) = "u1") (gr_Rows known) /\ length (gr_Rows known) = 2.
Proof.
  split; [|reflexivity].
  exact (header_names_the_rows plane (ask sample_ref []) nowhere UTC 0 [] _ known known_gathered eq_refl).
Defined.

Lemma page_is_the_answer_witness : exists changes,
  collectChanges plane (asked plane (ask sample_ref []) (gr_From known) (gr_To known) UTC) = Ok changes /\
  map tr_Change (gr_Rows known) = rev (List.filter (fun c => MatchesFieldPaths c []) changes).
Proof. exact (page_is_the_answer plane (ask sample_ref []) nowhere UTC 0 [] _ known known_gathered). Defined.

Lemma no_coverage_finding_exact_witness :
  CodeFor (gr_Empty missing) = NoCoverage /\
  collectChanges plane (asked plane (ask unknown_ref []) (gr_From missing) (gr_To missing) UTC) = Ok [].
Proof.
  split; [reflexivity|].
  destruct (no_coverage_finding_exact plane (ask unknown_ref []) nowhere UTC 0 [] _ missing missing_gathered) as [_ [Hfound _]].
  exact (proj1 (proj2 (Hfound eq_refl))).
Defined.

Lemma silence_is_accounted_for_witness : exists changes notice,
  collectChanges plane (asked plane (ask sample_ref ["nobody"]) (gr_From masked) (gr_To masked) UTC) = Ok changes /\
  notice ∈ gr_Notices masked /\
  accounts plane (ask sample_ref ["nobody"]) (asked plane (ask sample_ref ["nobody"]) (gr_From masked) (gr_To masked) UTC)
    (gr_From masked) (gr_To masked) UTC changes (gr_Rows masked) notice.
Proof.
  exact (silence_is_accounted_for plane (ask sample_ref ["nobody"]) nowhere UTC 0 [] _ masked masked_gathered eq_refl eq_refl eq_refl).
Defined.


(** A read plane with one recorded change, at 12:10, under a scope watched since 12:00. *)
Definition one_change : Change := mkChange (instant 12 10) "Modified" ["kubectl"] "u1" "1" "v1" "" "" "" ∅.
Definition toy : QueryEngine := {|
  qe_Capabilities := mkCapabilities "toy" true true true false;
  qe_Timeline q := Ok (mkIterator (if in_window (tq_From q) (tq_To q) (ch_TS one_change) then [one_change] else []) None None);
  qe_StateAt _ _ _ := Err (OtherFailure "none");
  qe_Incarnations _ from to := Ok (if in_window from to (ch_TS one_change) then [mkIncarnation "u1" (ch_TS one_change) (ch_TS one_change) false] else []);
  qe_Coverage _ := Ok [mkScopeInterval "" "ConfigMap" "ns" "r1" (instant 12 0) None];
  qe_Ownership := None;
  qe_EstimateScan := None;
  qe_reports := false;
|}.

Definition between (from to : Z) : TimelineRequest :=
  mkRequest sample_ref (Some from) (Some to) None "" false true [] [] [] [] false 100 false false false false [] quiet.

(** Asked about 13:00 to 14:00, the answer prints the scope's whole interval, from 12:00
    on, and says that nothing changed in that period; the change of 12:10 is in it. *)
Example silence_reaches_past_the_window :
  let said request := gr_Notices (gathered_or_none (gatherChanges toy request nowhere UTC 0 []).2) in
  let rows request := map tr_Change (gr_Rows (gathered_or_none (gatherChanges toy request nowhere UTC 0 []).2)) in
  said (between (instant 13 0) (instant 14 0)) =
    ["no changes recorded for ns/cm in 2024-02-29T13:00:00Z to 2024-02-29T14:00:00Z. The scope was confirmed watched over 2024-02-29T12:00:00Z "
     +:+ Arrow +:+ " open (r1), so nothing changed in that period"] /\
  rows (between (instant 13 0) (instant 14 0)) = [] /\ rows (between (instant 12 0) (instant 14 0)) = [one_change].
Proof. cbv zeta. split_and!; vm_compute; reflexivity. Qed.
End GatherSamples.
