(* ===== verification/ProcessSpec.v ===== *)
(** * ProcessSpec: what one work item does, branch by branch

    The observable effect of [processNext] (src/internal/pipeline/process.go) -
    rows handed over, work-queue calls, cache contents - for an object that is
    unchanged, changed, new, replaced or gone, and for each way a write can be
    lost. *)

From S2P Require Import Prelude Identity HashCache GoJson Redact Normalize Coalesce SinkTypes Diff Process Samples.

(** ** Caches up to versions

    A rolled-back write leaves the version counter of its key advanced; nothing
    reads a version except the settlements it guards. [same_entries] is equality
    of caches up to versions. *)

Definition unversioned (c : hashCache) : hashCache := with_Version 0 <$> c.

Definition same_entries (c1 c2 : hashCache) : Prop := unversioned c1 = unversioned c2.

#[export] Instance same_entries_equiv : Equivalence same_entries.
Proof. split; unfold same_entries; [done|by intros ?? ->|by intros ??? -> ->]. Qed.

#[export] Instance insert_same_entries k :
  Proper ((fun e1 e2 => with_Version 0 e1 = with_Version 0 e2) ==> same_entries ==> same_entries)
    (insert k).
Proof.
  intros e1 e2 He c1 c2 Hc. unfold same_entries, unversioned in *. by rewrite !fmap_insert, He, Hc.
Qed.

#[export] Instance delete_same_entries k : Proper (same_entries ==> same_entries) (delete k).
Proof. intros c1 c2 Hc. unfold same_entries, unversioned in *. by rewrite !fmap_delete, Hc. Qed.

Lemma same_entries_lookup c1 c2 k :
  same_entries c1 c2 -> with_Version 0 <$> c1 !! k = with_Version 0 <$> c2 !! k.
Proof.
  intros Hc. unfold same_entries, unversioned in Hc.
  by rewrite <-!lookup_fmap, Hc.
Qed.

(** [revertVersion] on the cache. *)
Definition rollback (k : string) (version : Z) (revert : option CacheEntry) (c : hashCache) : hashCache :=
  match revert with
  | Some entry => (CommitIfCurrent k version entry c).2
  | None => (DeleteIfCurrent k version c).2
  end.

(** Rolling back a reservation restores what it replaced. *)
Lemma rollback_Reserve k entry c :
  same_entries (rollback k (Reserve k entry c).1 (c !! k) (Reserve k entry c).2) c.
Proof.
  destruct (c !! k) as [old|] eqn:Ek; unfold rollback, CommitIfCurrent, DeleteIfCurrent, Reserve; simpl;
    rewrite lookup_insert_eq; simpl; rewrite decide_True by done; simpl.
  - rewrite insert_insert_eq.
    transitivity (<[k := old]> c); [by apply insert_same_entries|by rewrite insert_id].
  - rewrite delete_insert_eq. by rewrite delete_id.
Qed.

(** ** Framing: which state an action touches *)

(** [touches l s p p']: [p'] differs from [p] in the sink state at [l], which is
    now [s], and possibly in jobs, queue and counters. *)
Record touches (l : loc) (s : sinkState) (p p' : pstate) : Prop := {
  t_states : ps_states p' = <[l := s]> (ps_states p);
  t_registry : ps_registry p' = ps_registry p;
}.

(** The sink [id] is registered at [l]. *)
Definition mounted (p : pstate) (id : ID) (l : loc) : Prop :=
  ps_registry p !! id = Some l /\ l < length (ps_states p).

Lemma st_at_insert l s states r j q c a :
  l < length states -> st_at l (mkPState (<[l := s]> states) r j q c a) = s.
Proof. intros Hl. unfold st_at. simpl. by rewrite list_lookup_insert_eq. Qed.

Lemma touches_at l s p p' : touches l s p p' -> l < length (ps_states p) -> st_at l p' = s.
Proof. intros [Hs _] Hl. unfold st_at. by rewrite Hs, list_lookup_insert_eq. Qed.

Lemma touches_other l l' s p p' : touches l s p p' -> l <> l' -> st_at l' p' = st_at l' p.
Proof. intros [Hs _] Hl. unfold st_at. by rewrite Hs, list_lookup_insert_ne. Qed.

Lemma touches_mounted l s p p' id l' : touches l s p p' -> mounted p id l' -> mounted p' id l'.
Proof. intros [Hs Hr] [H1 H2]. split; [by rewrite Hr|]. by rewrite Hs, length_insert. Qed.

Lemma touches_trans l s1 s2 p1 p2 p3 :
  touches l s1 p1 p2 -> touches l s2 p2 p3 -> touches l s2 p1 p3.
Proof.
  intros [S1 R1] [S2 R2]. split; [|congruence]. rewrite S2, S1. by rewrite list_insert_insert_eq.
Qed.

Lemma touches_id p l : l < length (ps_states p) -> touches l (st_at l p) p p.
Proof.
  intros Hl. split; [|done]. unfold st_at. destruct (lookup_lt_is_Some_2 _ _ Hl) as [s Es].
  rewrite Es. simpl. by rewrite list_insert_id.
Qed.

Lemma set_cache_same s : set_cache (ss_cache s) s = s.
Proof. by destruct s. Qed.

(** Writing back what a cell holds changes nothing. *)
Lemma write_back l p :
  l < length (ps_states p) -> set_states (<[l := st_at l p]> (ps_states p)) p = p.
Proof.
  intros Hl. destruct (touches_id p l Hl) as [Hs _]. unfold set_states. rewrite <-Hs. by destruct p.
Qed.

(** ** The write *)

Section write.
Context `{Unstructured, Encoders, ZstdCodec, JsonDiff}.

(** The event type of a row: a first observation outside a warmed scope is a
    Snapshot, except for Events. *)
Definition tagged (key : Key) (s : sinkState) (miss : bool) (d : decision) : string :=
  if miss && negb (Key_ephemeral key) && negb (scopeWarm key s) then "Snapshot" else d_eventType d.

(** What [write_upsert] does: an accepted write reserves a version and hands the
    row over; a refused one leaves the cache as it was. *)
Record write_effect (e : env) (key : Key) (l : loc) (w : Writer) (norm : normalizedObject)
    (window : Z) (hash : string) (d : decision) (miss : bool) (p : pstate)
    (err : option processError) (p' : pstate) : Prop := {
  we_queue : ps_queue p' = ps_queue p;
  we_accepted :
    let s := st_at l p in
    let confirmed := confirmed_entry (Key_ephemeral key) norm (d_modifiedRun d) in
    let row := upsert_record e key norm d (tagged key s miss d) (e_now e (ps_clock p)) in
    let '(version, c) := Reserve (cacheKey key) confirmed (ss_cache s) in
    if w_accepts w (ps_attempts p) row then
      err = None /\ touches l (set_cache c s) p p' /\
      ps_jobs p' = ps_jobs p ++ [mkJob row (CommitUpsert l key version confirmed (d_revertEntry d) hash
                                   (e_now e (ps_clock p)) window)]
    else
      err = Some errEnqueue /\
      touches l (set_cache (rollback (cacheKey key) version (d_revertEntry d) c) s) p p' /\
      ps_jobs p' = ps_jobs p;
}.

Lemma write_upsert_effect e key l w norm window hash d miss p :
  l < length (ps_states p) ->
  write_effect e key l w norm window hash d miss p
    (write_upsert e key l w norm window hash d miss p).1
    (write_upsert e key l w norm window hash d miss p).2.
Proof.
  intros Hl. unfold write_upsert, mbind, state_bind, state_gets, with_cache, with_st, read_now, enqueue.
  cbn -[upsert_record confirmed_entry scopeWarm].
  destruct (w_accepts _ _ _) eqn:Ea.
  - split; [done|]. cbn -[upsert_record confirmed_entry scopeWarm]. unfold tagged. rewrite Ea.
    split_and!; [done|by split|done].
  - cbn -[upsert_record confirmed_entry scopeWarm rollback].
    split; [done|]. cbn -[upsert_record confirmed_entry scopeWarm]. unfold tagged. rewrite Ea.
    split_and!; [done| |done]. split; [|done].
    cbn -[upsert_record confirmed_entry scopeWarm st_at]. rewrite !st_at_insert by done.
    by rewrite list_insert_insert_eq.
Qed.

(** ** The branches of an observation *)

(** The work item [key] observes an object that normalizes to [norm], for a sink
    whose writer is [w] and whose state is at [l], with no close-out pending. *)
Record sighted (e : env) (key : Key) (w : Writer) (norm : normalizedObject) (l : loc) (p : pstate)
    : Prop := {
  sg_obj : exists obj policy, e_lister e key = Ok (Some obj, true) /\
    redactionFor e key = Some policy /\ normalizeObject obj policy = Ok norm;
  sg_writer : e_router e (k_Sink key) = Some w;
  sg_mounted : mounted p (k_Sink key) l;
  sg_quiet : ss_closeOuts (st_at l p) !! cacheKey key = None;
}.

(** The cached entry of the key. *)
Definition cached (key : Key) (l : loc) (p : pstate) : option CacheEntry :=
  ss_cache (st_at l p) !! cacheKey key.

(** The cached incarnation is the one observed. *)
Definition same_incarnation (c : CacheEntry) (norm : normalizedObject) : Prop :=
  UID c = "" \/ UID c = no_UID norm.

#[export] Instance same_incarnation_dec c norm : Decision (same_incarnation c norm).
Proof. unfold same_incarnation. apply _. Defined.

Lemma not_replaced c norm :
  bool_decide (UID c <> "") && bool_decide (UID c <> no_UID norm) =
  negb (bool_decide (same_incarnation c norm)).
Proof.
  unfold same_incarnation. repeat case_bool_decide; simpl; try done; tauto.
Qed.

Definition tick (p : pstate) : pstate :=
  mkPState (ps_states p) (ps_registry p) (ps_jobs p) (ps_queue p) (S (ps_clock p)) (ps_attempts p).

Lemma take_nothing key l w p :
  l < length (ps_states p) -> ss_closeOuts (st_at l p) !! cacheKey key = None ->
  retryPendingCloseOuts key l w p = (tt, p).
Proof.
  intros Hl Hq. unfold retryPendingCloseOuts, mbind, state_bind, with_st, closeOuts_TakeAll.
  rewrite Hq, delete_id by done. simpl. unfold mret, state_ret. f_equal.
  assert (set_closeOuts (ss_closeOuts (st_at l p)) (st_at l p) = st_at l p) as ->.
  { by destruct (st_at l p). }
  by apply write_back.
Qed.

(** What the observation of a non-Event object comes down to. *)
Lemma Process_sighted e key w norm l p :
  sighted e key w norm l p -> Key_ephemeral key = false ->
  Process e key p =
  match cached key l p with
  | None => write_upsert e key l w norm 0 "" plain_added true p
  | Some c =>
      if decide (same_incarnation c norm) then
        if decide (Hash c = no_Hash norm) then (None, p)
        else write_upsert e key l w norm 0 "" (modified_decision w false c norm) false (tick p)
      else
        write_upsert e key l w norm 0 "" plain_added false (close_out_predecessor e key l w c p).2
  end.
Proof.
  intros [(obj & policy & Hg & Hr & Hn) Hw [Hm Hl] Hq] Heph.
  unfold Process. rewrite Hg, Hw. simpl.
  assert (Hget : sinks_get (k_Sink key) p = (l, p)) by (unfold sinks_get; by rewrite Hm).
  unfold mbind, state_bind. rewrite Hget, (take_nothing key l w p Hl Hq).
  unfold processUpsert. rewrite Hr, Hn. unfold coalesce_params. rewrite Heph.
  unfold mbind, state_bind, state_gets, cached, Load.
  destruct (ss_cache (st_at l p) !! cacheKey key) as [c|]; [|done].
  rewrite not_replaced. case_bool_decide as Hinc; simpl.
  - rewrite decide_True by done. case_bool_decide; [by rewrite decide_True|].
    rewrite decide_False by done. by destruct (ss_coalesce (st_at l p)).
  - rewrite decide_False by done. by destruct (close_out_predecessor e key l w c p).
Qed.

Lemma Process_unchanged e key w norm l p c :
  sighted e key w norm l p -> cached key l p = Some c -> same_incarnation c norm ->
  Hash c = no_Hash norm -> Process e key p = (None, p).
Proof.
  intros [(obj & policy & Hg & Hr & Hn) Hw [Hm Hl] Hq] Hc Hinc Hh.
  unfold Process. rewrite Hg, Hw. simpl.
  assert (Hget : sinks_get (k_Sink key) p = (l, p)) by (unfold sinks_get; by rewrite Hm).
  unfold mbind, state_bind. rewrite Hget, (take_nothing key l w p Hl Hq).
  unfold processUpsert. rewrite Hr, Hn. destruct (coalesce_params _ _ _).
  unfold mbind, state_bind, state_gets, Load. unfold cached in Hc. rewrite Hc.
  rewrite not_replaced, bool_decide_true by done. simpl. by rewrite bool_decide_true.
Qed.

Definition queued (q : queue_call) (p : pstate) : pstate :=
  mkPState (ps_states p) (ps_registry p) (ps_jobs p) (ps_queue p ++ [q]) (ps_clock p) (ps_attempts p).

Lemma processNext_queued e key p :
  (processNext e key p).2 =
  queued (match (Process e key p).1 with Some _ => QAddRateLimited key | None => QForget key end)
    (Process e key p).2.
Proof. unfold processNext, mbind, state_bind. by destruct (Process e key p) as [[err|] p']. Qed.

(** The write a new or changed object calls for: the row, and what is confirmed. *)
Definition next_decision (w : Writer) (c : option CacheEntry) (norm : normalizedObject) : decision :=
  match c with None => plain_added | Some c => modified_decision w false c norm end.

Definition is_miss {A} (c : option A) : bool := match c with None => true | Some _ => false end.

Definition next_row (e : env) (key : Key) (w : Writer) (norm : normalizedObject) (l : loc)
    (p : pstate) (ts : Z) : Record_ :=
  let d := next_decision w (cached key l p) norm in
  upsert_record e key norm d (tagged key (st_at l p) (is_miss (cached key l p)) d) ts.

(** The object is new, or the cached incarnation with different content. *)
Definition to_write (c : option CacheEntry) (norm : normalizedObject) : Prop :=
  match c with None => True | Some c => same_incarnation c norm /\ Hash c <> no_Hash norm end.

Lemma next_decision_revert w c norm : d_revertEntry (next_decision w c norm) = c.
Proof. destruct c; simpl; [|done]. unfold modified_decision. by split_cases. Qed.

Lemma Process_to_write e key w norm l p :
  sighted e key w norm l p -> Key_ephemeral key = false -> to_write (cached key l p) norm ->
  exists p0, st_at l p0 = st_at l p /\ ps_states p0 = ps_states p /\ ps_registry p0 = ps_registry p /\
    ps_jobs p0 = ps_jobs p /\ ps_queue p0 = ps_queue p /\ ps_attempts p0 = ps_attempts p /\
    Process e key p =
    write_upsert e key l w norm 0 "" (next_decision w (cached key l p) norm) (is_miss (cached key l p)) p0.
Proof.
  intros Hs Heph Hw. rewrite (Process_sighted _ _ _ _ _ _ Hs Heph).
  destruct (cached key l p) as [c|] eqn:Ec; [|by exists p].
  destruct Hw as [Hinc Hh]. rewrite decide_True, decide_False by done. by exists (tick p).
Qed.

Definition with_revert (r : option CacheEntry) (d : decision) : decision :=
  mkDecision (d_eventType d) (d_diffString d) (d_carriesFullState d) (d_modifiedRun d) r.

Lemma modified_decision_version w ephemeral c v norm :
  modified_decision w ephemeral (with_Version v c) norm =
  with_revert (Some (with_Version v c)) (modified_decision w ephemeral c norm).
Proof.
  unfold modified_decision. change (JSON (with_Version v c)) with (JSON c).
  change (decodeBaseline (with_Version v c)) with (decodeBaseline c).
  change (ModifiedSinceCheckpoint (with_Version v c)) with (ModifiedSinceCheckpoint c).
  by repeat case_match.
Qed.

(** Nothing of the row depends on the version of the cached entry. *)
Lemma next_row_same_entries e key w norm l p p' ts :
  same_entries (ss_cache (st_at l p)) (ss_cache (st_at l p')) ->
  ss_warm (st_at l p) = ss_warm (st_at l p') ->
  next_row e key w norm l p ts = next_row e key w norm l p' ts.
Proof.
  intros Hc Hwm. unfold next_row, tagged, scopeWarm. rewrite Hwm.
  apply (same_entries_lookup _ _ (cacheKey key)) in Hc. fold (cached key l p) (cached key l p') in Hc.
  assert (Hd : forall c c', with_Version 0 c = with_Version 0 c' ->
    upsert_record e key norm (modified_decision w false c norm)
      (d_eventType (modified_decision w false c norm)) ts =
    upsert_record e key norm (modified_decision w false c' norm)
      (d_eventType (modified_decision w false c' norm)) ts).
  { intros c c' E. assert (c' = with_Version (Version c') c) as ->.
    { destruct c, c'. injection E as -> -> -> -> -> -> ->. reflexivity. }
    by rewrite modified_decision_version. }
  destruct (cached key l p) as [c|], (cached key l p') as [c'|]; [|discriminate Hc|discriminate Hc|reflexivity].
  apply (inj Some) in Hc. by apply Hd.
Qed.

(** A new or changed object: one row is offered; accepted it is in flight over the
    reservation, refused the reservation is rolled back. *)
Lemma Process_write e key w norm l p :
  sighted e key w norm l p -> Key_ephemeral key = false -> to_write (cached key l p) norm ->
  let k := cacheKey key in
  let s := st_at l p in
  let conf := confirmed_entry false norm (d_modifiedRun (next_decision w (cached key l p) norm)) in
  let v := (Reserve k conf (ss_cache s)).1 in
  let c := (Reserve k conf (ss_cache s)).2 in
  exists ts err p', Process e key p = (err, p') /\ ps_queue p' = ps_queue p /\
    let row := next_row e key w norm l p ts in
    (w_accepts w (ps_attempts p) row = true /\ err = None /\ touches l (set_cache c s) p p' /\
     ps_jobs p' = ps_jobs p ++ [mkJob row (CommitUpsert l key v conf (cached key l p) "" ts 0)] \/
     w_accepts w (ps_attempts p) row = false /\ err = Some errEnqueue /\
     touches l (set_cache (rollback k v (cached key l p) c) s) p p' /\ ps_jobs p' = ps_jobs p).
Proof.
  intros Hs Heph Hw k s conf v c. pose proof (sg_mounted _ _ _ _ _ _ Hs) as [_ Hl].
  destruct (Process_to_write _ _ _ _ _ _ Hs Heph Hw)
    as (p0 & E0 & Es & Er & Ej & Eq & Ea & HP). rewrite <-Es in Hl.
  destruct (write_upsert_effect e key l w norm 0 "" (next_decision w (cached key l p) norm)
              (is_miss (cached key l p)) p0 Hl) as [Hq He].
  rewrite <-HP in *. exists (e_now e (ps_clock p0)), (Process e key p).1, (Process e key p).2.
  split; [by destruct (Process e key p)|]. split; [congruence|].
  rewrite next_decision_revert, E0, Ea, Ej, Heph in He. cbn zeta in He.
  assert (Htr : forall s' p', touches l s' p0 p' -> touches l s' p p').
  { intros s' p' [H3 H4]. split; congruence. }
  change (Reserve (cacheKey key) _ _) with (v, c) in He. cbn iota in He.
  unfold next_row. destruct (w_accepts _ _ _); [left|right]; naive_solver.
Qed.

Lemma settle_upsert_failed l key version confirmed revert hash ts window p :
  (settle (CommitUpsert l key version confirmed revert hash ts window) false p).2 =
  queued (QAddRateLimited key)
    (set_states (<[l := set_cache (rollback (cacheKey key) version revert (ss_cache (st_at l p)))
                          (st_at l p)]> (ps_states p)) p).
Proof. done. Qed.

(** A state whose only change is a rolled-back cache offers the same row next. *)
Lemma rolled_back e key w norm l p p' c :
  l < length (ps_states p) -> touches l (set_cache c (st_at l p)) p p' ->
  same_entries c (ss_cache (st_at l p)) ->
  same_entries (ss_cache (st_at l p')) (ss_cache (st_at l p)) /\
  forall ts, next_row e key w norm l p' ts = next_row e key w norm l p ts.
Proof.
  intros Hl Ht Hc. assert (Hst := touches_at _ _ _ _ Ht Hl).
  assert (same_entries (ss_cache (st_at l p')) (ss_cache (st_at l p))) as Hsame by by rewrite Hst.
  split; [done|]. intros ts. apply next_row_same_entries; [done|]. by rewrite Hst.
Qed.

Lemma touches_queued l s q p p' : touches l s p (queued q p') <-> touches l s p p'.
Proof. split; intros []; by split. Qed.
End write.

(** ** Properties *)

(** Deduplication. Observing the cached incarnation with the cached hash
    writes nothing and changes nothing; the work item is only forgotten by the
    rate limiter. *)
Theorem unchanged_object_deduplicated `{Unstructured, Encoders, ZstdCodec, JsonDiff}
    e key w norm l p c :
  sighted e key w norm l p -> cached key l p = Some c -> same_incarnation c norm ->
  Hash c = no_Hash norm -> processNext e key p = (true, queued (QForget key) p).
Proof.
  intros Hs Hc Hinc Hh. unfold processNext, mbind, state_bind.
  by rewrite (Process_unchanged _ _ _ _ _ _ _ Hs Hc Hinc Hh).
Qed.

Section samples.
#[local] Existing Instance tree_unstructured.
#[local] Existing Instance sample_encoders.
#[local] Existing Instance framing_codec.
#[local] Existing Instance whole_document_diff.

Definition sample_norm (uid value : string) : normalizedObject :=
  match normalizeObject (config_map uid value) None with
  | Ok norm => norm
  | Err _ => mkNormalized "" "" "" "" "" ∅ [] ∅
  end.

(** The state after the first observation of the ConfigMap. *)
Definition sample_seen (w : Writer) : pstate :=
  (processNext (sample_env w (Some (config_map "u1" "a"))) sample_key pstate_init).2.

Lemma sample_sighted w uid value :
  sighted (sample_env w (Some (config_map uid value))) sample_key w (sample_norm uid value) 0
    (sample_seen (sample_writer 5)).
Proof.
  split.
  - exists (config_map uid value), None. split; [reflexivity|]. split; reflexivity.
  - reflexivity.
  - split; [vm_compute; reflexivity|]. apply Nat.ltb_lt. vm_compute. reflexivity.
  - vm_compute. reflexivity.
Qed.
End samples.

Lemma unchanged_object_deduplicated_witness :
  let p := sample_seen (sample_writer 5) in
  @processNext tree_unstructured sample_encoders framing_codec whole_document_diff
    (sample_env (sample_writer 5) (Some (config_map "u1" "a"))) sample_key p =
  (true, queued (QForget sample_key) p).
Proof.
  intros p. destruct (cached sample_key 0 p) as [c|] eqn:Ec; [|vm_compute in Ec; discriminate].
  apply (@unchanged_object_deduplicated tree_unstructured sample_encoders framing_codec
           whole_document_diff _ _ (sample_writer 5) (sample_norm "u1" "a") 0 p c).
  - apply sample_sighted.
  - exact Ec.
  - right. vm_compute in Ec. injection Ec as <-. reflexivity.
  - vm_compute in Ec. injection Ec as <-. vm_compute. reflexivity.
Defined.

(** C31: a lost write is rolled back and retried with the same row. When an object is
    observed that is not an Event and is either not cached or a changed version of the
    cached incarnation, exactly one row is offered to the writer. Refused, the cache is
    unchanged up to versions, nothing is in flight and the key is requeued with backoff;
    accepted and then reported as failed before anything else happens to the pipeline,
    the same holds after the settlement. In both cases the next attempt computes the same
    row up to its timestamp. (A reincarnation also closes its predecessor, and a failure
    that a newer reservation overtook is not rolled back: [Lifecycle], [History].) *)
Theorem lost_write_rolls_back `{Unstructured, Encoders, ZstdCodec, JsonDiff} e key w norm l p :
  sighted e key w norm l p -> Key_ephemeral key = false -> to_write (cached key l p) norm ->
  let p1 := (processNext e key p).2 in
  exists ts, let row := next_row e key w norm l p ts in
    if w_accepts w (ps_attempts p) row then
      exists commit, ps_jobs p1 = ps_jobs p ++ [mkJob row commit] /\
        ps_queue p1 = ps_queue p ++ [QForget key] /\
        let p2 := (settle commit false p1).2 in
        ps_queue p2 = ps_queue p1 ++ [QAddRateLimited key] /\
        same_entries (ss_cache (st_at l p2)) (ss_cache (st_at l p)) /\
        forall ts', next_row e key w norm l p2 ts' = next_row e key w norm l p ts'
    else
      ps_jobs p1 = ps_jobs p /\ ps_queue p1 = ps_queue p ++ [QAddRateLimited key] /\
      same_entries (ss_cache (st_at l p1)) (ss_cache (st_at l p)) /\
      forall ts', next_row e key w norm l p1 ts' = next_row e key w norm l p ts'.
Proof.
  intros Hs Heph Hw. pose proof (sg_mounted _ _ _ _ _ _ Hs) as [_ Hl].
  destruct (Process_write _ _ _ _ _ _ Hs Heph Hw)
    as (ts & err & p' & HP & Hq & [(Ha & -> & Ht & Hj)|(Ha & -> & Ht & Hj)]);
    rewrite processNext_queued, HP; exists ts; simpl; rewrite Ha.
  - eexists. split; [exact Hj|]. split; [by rewrite <-Hq|]. rewrite settle_upsert_failed.
    split; [done|]. eapply rolled_back; [done| |apply rollback_Reserve].
    apply touches_queued. eapply touches_trans; [exact Ht|]. split; [|done].
    assert (st_at l (queued (QForget key) p') = st_at l p') as -> by done.
    rewrite (touches_at _ _ _ _ Ht Hl). done.
  - split; [done|]. split; [by rewrite <-Hq|].
    eapply rolled_back; [done|by apply touches_queued|apply rollback_Reserve].
Qed.

Lemma lost_write_rolls_back_witness :
  let p := sample_seen (sample_writer 5) in
  let p1 := (@processNext tree_unstructured sample_encoders framing_codec whole_document_diff
               (sample_env full_writer (Some (config_map "u1" "b"))) sample_key p).2 in
  ps_jobs p1 = ps_jobs p /\ same_entries (ss_cache (st_at 0 p1)) (ss_cache (st_at 0 p)).
Proof.
  intros p p1.
  destruct (@lost_write_rolls_back tree_unstructured sample_encoders framing_codec
              whole_document_diff (sample_env full_writer (Some (config_map "u1" "b"))) sample_key
              full_writer (sample_norm "u1" "b") 0 p) as (ts & H1 & _ & H2 & _).
  - apply sample_sighted.
  - reflexivity.
  - destruct (cached sample_key 0 p) as [c|] eqn:Ec; [|vm_compute in Ec; discriminate].
    vm_compute in Ec. injection Ec as <-. split; [right; reflexivity|vm_compute; discriminate].
  - split; [exact H1|exact H2].
Defined.
