(* ===== verification/System.v ===== *)
(** * System: the data plane as a transition system

    The pipeline's reachable states. A step is a worker's round on some work item
    against some environment, the settlement of any in-flight job with either
    outcome (sinks confirm out of order), or one of the lifecycle calls of the
    watch layer, the sink manager and the warm-up. Steps are the atomic units the
    work queue and the cache mutex give; what may interleave inside one of them
    is covered by the cache-level properties of [HashCache]. *)

From S2P Require Import Prelude Identity HashCache GoJson Redact Normalize Coalesce SinkTypes Diff Process.

(** ** Hoare triples over the pipeline monad *)

Definition hoare {A} (P : pstate -> Prop) (m : M A) (Q : A -> pstate -> Prop) : Prop :=
  forall p, P p -> Q (m p).1 (m p).2.

Lemma hoare_ret {A} P (a : A) (Q : A -> pstate -> Prop) :
  (forall p, P p -> Q a p) -> hoare P (mret a) Q.
Proof. intros Hq p Hp. by apply Hq. Qed.

Lemma hoare_bind {A B} P (m : M A) (k : A -> M B) Q R :
  hoare P m Q -> (forall a, hoare (Q a) (k a) R) -> hoare P (m ≫= k) R.
Proof.
  intros Hm Hk p Hp. unfold mbind, state_bind. specialize (Hm p Hp).
  destruct (m p) as [a p']. by apply (Hk a).
Qed.

Lemma hoare_gets {A} P (f : pstate -> A) (Q : A -> pstate -> Prop) :
  (forall p, P p -> Q (f p) p) -> hoare P (state_gets f) Q.
Proof. intros Hq p Hp. by apply Hq. Qed.

Lemma hoare_pre {A} (P P' : pstate -> Prop) (m : M A) Q :
  (forall p, P p -> P' p) -> hoare P' m Q -> hoare P m Q.
Proof. intros Hp Hm p H. by apply Hm, Hp. Qed.

(** A pure fact of the precondition becomes a hypothesis. *)
Lemma hoare_fact {A} (P : pstate -> Prop) (F : Prop) (m : M A) Q :
  (F -> hoare P m Q) -> hoare (fun p => P p /\ F) m Q.
Proof. intros Hm p [Hp Hf]. by apply Hm. Qed.

(** ** Steps *)

(** The removal of the job at [i] from the in-flight list. *)
Definition drop_job (i : nat) (p : pstate) : pstate :=
  mkPState (ps_states p) (ps_registry p) (delete i (ps_jobs p)) (ps_queue p) (ps_clock p)
    (ps_attempts p).

Section step.
Context `{Unstructured, Encoders, ZstdCodec, JsonDiff}.

(** [step ok]: one transition; the work items processed, and the environments they
    are processed against, satisfy [ok]. *)
Inductive step (ok : env -> Key -> Prop) : pstate -> pstate -> Prop :=
| step_process e key p : ok e key -> step ok p (processNext e key p).2
| step_settle i job outcome p :
    ps_jobs p !! i = Some job ->
    step ok p (settle (j_Commit job) outcome (drop_job i p)).2
| step_evict id scope p : step ok p (EvictScope id scope p).2
| step_remove id p : step ok p (RemoveSink id p).2
| step_get id p : step ok p (sinks_get id p).2
| step_warm id scope p : step ok p (MarkScopeWarm id scope p).2
| step_seed st key hash uid p :
    st < length (ps_states p) ->
    step ok p (modify_cache st (StoreIfAbsent (cacheKey key)
                 (mkCacheEntry hash None encodingRaw uid "" 0 0 false)) p).2
| step_gc_delete e key st w uid p :
    Key_ephemeral key = false -> st < length (ps_states p) ->
    step ok p (emitDelete e key st w uid p).2
| step_gc_close_out e key st w ts uid apiVersion p :
    Key_ephemeral key = false -> st < length (ps_states p) ->
    step ok p (enqueueCloseOut key st w (deleted_record e key ts uid apiVersion) p).2.

Definition reachable (ok : env -> Key -> Prop) : pstate -> Prop := rtc (step ok) pstate_init.

Lemma reachable_mono (ok ok' : env -> Key -> Prop) p :
  (forall e key, ok e key -> ok' e key) -> reachable ok p -> reachable ok' p.
Proof.
  intros Hok. apply rtc_subrel. intros p1 p2 Hs. destruct Hs; econstructor; eauto.
Qed.
End step.

(** ** A family of invariants

    [good R E]: every row in flight or awaiting a retry satisfies [R], every cache
    entry - stored, or held by a pending commit - satisfies [E] at its key. *)

Definition good_commit (R : Record_ -> Prop) (E : string -> CacheEntry -> Prop) (c : commit) : Prop :=
  match c with
  | CommitUpsert _ key _ confirmed revert _ _ _ =>
      E (cacheKey key) confirmed /\ (forall e, revert = Some e -> E (cacheKey key) e)
  | CommitDelete _ _ _ => True
  | CommitCloseOut _ _ r => R r
  end.

Definition good_state (R : Record_ -> Prop) (E : string -> CacheEntry -> Prop) (s : sinkState) : Prop :=
  map_Forall E (ss_cache s) /\
  map_Forall (fun _ l => Forall R l) (ss_closeOuts s).

Definition good (R : Record_ -> Prop) (E : string -> CacheEntry -> Prop) (p : pstate) : Prop :=
  Forall (good_state R E) (ps_states p) /\
  Forall (fun j => R (j_Record j) /\ good_commit R E (j_Commit j)) (ps_jobs p).

Section good.
Context (R : Record_ -> Prop) (E : string -> CacheEntry -> Prop).
Context (E_version : forall v k e, E k e -> E k (with_Version v e)).
Context (E_pending : forall b k e, E k e -> E k (with_PendingDelete b e)).

Abbreviation Inv := (good R E).

Lemma good_st_at p l : Inv p -> good_state R E (st_at l p).
Proof.
  intros [Hs _]. unfold st_at. destruct (ps_states p !! l) as [s|] eqn:El; simpl.
  - rewrite Forall_lookup in Hs. eauto.
  - split; apply map_Forall_empty.
Qed.

Lemma hoare_with_st {A} l (f : sinkState -> A * sinkState) (Q : A -> Prop) :
  (forall s, good_state R E s -> good_state R E (f s).2 /\ Q (f s).1) ->
  hoare Inv (with_st l f) (fun a p => Inv p /\ Q a).
Proof.
  intros Hf p Hp. unfold with_st. pose proof (good_st_at p l Hp) as Hs.
  destruct (f (st_at l p)) as [a s'] eqn:Ef. destruct (Hf _ Hs) as [Hs' Hq]. rewrite Ef in *.
  simpl in *. split; [|done]. destruct Hp as [Hst Hjb]. split; [|done]. simpl. by apply Forall_insert.
Qed.

Lemma hoare_with_cache {A} l (f : hashCache -> A * hashCache) (Q : A -> Prop) :
  (forall c, map_Forall E c ->
     map_Forall E (f c).2 /\ Q (f c).1) ->
  hoare Inv (with_cache l f) (fun a p => Inv p /\ Q a).
Proof.
  intros Hf. apply hoare_with_st. intros s [Hc Hq]. destruct (Hf _ Hc) as [Hc' HQ].
  destruct (f (ss_cache s)) as [a c']. done.
Qed.

(** The same when nothing is claimed of the returned value. *)
Lemma hoare_st {A} l (f : sinkState -> A * sinkState) :
  (forall s, good_state R E s -> good_state R E (f s).2) ->
  hoare Inv (with_st l f) (fun _ p => Inv p).
Proof. intros Hf p Hp. eapply (hoare_with_st l f (fun _ => True)); auto. Qed.

Lemma hoare_cache {A} l (f : hashCache -> A * hashCache) :
  (forall c, map_Forall E c -> map_Forall E (f c).2) ->
  hoare Inv (with_cache l f) (fun _ p => Inv p).
Proof. intros Hf p Hp. eapply (hoare_with_cache l f (fun _ => True)); auto. Qed.

Lemma hoare_modify_cache l (f : hashCache -> hashCache) :
  (forall c, map_Forall E c -> map_Forall E (f c)) ->
  hoare Inv (modify_cache l f) (fun _ p => Inv p).
Proof. intros Hf. by apply hoare_cache. Qed.

Lemma hoare_read_now e : hoare Inv (read_now e) (fun _ p => Inv p).
Proof. intros p Hp. exact Hp. Qed.

Lemma hoare_queue q : hoare Inv (queue q) (fun _ p => Inv p).
Proof. intros p Hp. exact Hp. Qed.

Lemma hoare_enqueue w j :
  R (j_Record j) -> good_commit R E (j_Commit j) -> hoare Inv (enqueue w j) (fun _ p => Inv p).
Proof.
  intros Hr Hc p [H1 H2]. unfold enqueue. split; [done|]. simpl.
  case_match; [|done]. apply Forall_app. auto.
Qed.

Lemma hoare_sinks_get id : hoare Inv (sinks_get id) (fun _ p => Inv p).
Proof.
  intros p [H1 H2]. unfold sinks_get. case_match; [done|]. split; [|done]. simpl.
  apply Forall_app. split; [done|]. constructor; [|done]. split; apply map_Forall_empty.
Qed.

(** Cache methods keep entry predicates that ignore version and claim flag. *)
Lemma Reserve_good k e c :
  E k e -> map_Forall E c -> map_Forall E (Reserve k e c).2.
Proof. intros He Hc. simpl. apply map_Forall_insert_2; auto. Qed.

Lemma Commit_good k v e c :
  E k e -> map_Forall E c -> map_Forall E (CommitIfCurrent k v e c).2.
Proof. intros He Hc. unfold CommitIfCurrent. split_cases; apply map_Forall_insert_2; auto. Qed.

Lemma DeleteIf_good k v c :
  map_Forall E c -> map_Forall E (DeleteIfCurrent k v c).2.
Proof. intros Hc. unfold DeleteIfCurrent. split_cases; by apply map_Forall_delete. Qed.

Lemma ReserveDelete_good k uid c :
  map_Forall E c ->
  map_Forall E (ReserveDelete k uid c).2.
Proof.
  intros Hc. unfold ReserveDelete. split_cases. apply map_Forall_insert_2; [|done].
  apply E_pending, E_version. eauto.
Qed.

Lemma Unclaim_good k v c :
  map_Forall E c -> map_Forall E (UnclaimDelete k v c).
Proof. intros Hc. unfold UnclaimDelete. split_cases. apply map_Forall_insert_2; eauto. Qed.

Lemma StoreIfAbsent_good k e c :
  E k e -> map_Forall E c -> map_Forall E (StoreIfAbsent k e c).
Proof. intros He Hc. unfold StoreIfAbsent. split_cases. apply map_Forall_insert_2; auto. Qed.

Lemma DeletePrefix_good prefix c :
  map_Forall E c -> map_Forall E (DeletePrefix prefix c).2.
Proof. intros Hc k e. simpl. rewrite map_lookup_filter_Some. intros [? _]. eauto. Qed.

(** ** Each pipeline action *)

Lemma good_remember_close_out key st record :
  R record -> hoare Inv (remember_close_out key st record) (fun _ p => Inv p).
Proof.
  intros Hr. eapply hoare_bind; [apply hoare_st|intros a; apply hoare_queue].
  intros s [Hc Hq]. split; [done|]. simpl. unfold closeOuts_Add.
  apply map_Forall_insert_2; [|done]. apply Forall_app. split; [|by repeat constructor].
  destruct (ss_closeOuts s !! cacheKey key) eqn:Eq; simpl; [by eapply Hq|constructor].
Qed.

Lemma good_enqueueCloseOut key st w record :
  R record -> hoare Inv (enqueueCloseOut key st w record) (fun _ p => Inv p).
Proof.
  intros Hr. eapply hoare_bind; [by apply hoare_enqueue|]. intros []; [by apply hoare_ret|].
  by apply good_remember_close_out.
Qed.

Lemma good_enqueue_close_outs key st w records :
  Forall R records -> hoare Inv (enqueue_close_outs key st w records) (fun _ p => Inv p).
Proof.
  induction 1 as [|r rs Hr Hrs IH]; [by apply hoare_ret|].
  eapply hoare_bind; [by apply good_enqueueCloseOut|done].
Qed.

Lemma good_retryPendingCloseOuts key st w :
  hoare Inv (retryPendingCloseOuts key st w) (fun _ p => Inv p).
Proof.
  eapply hoare_bind.
  - apply (hoare_with_st st _ (Forall R)). intros s [Hc Hq]. simpl. split.
    + split; [done|]. by apply map_Forall_delete.
    + destruct (ss_closeOuts s !! cacheKey key) eqn:Eq; simpl; [by eapply Hq|constructor].
  - intros records p [Hp Hr]. by apply good_enqueue_close_outs.
Qed.

Lemma good_emitDelete e key st w uid :
  (forall ts u v, R (deleted_record e key ts u v)) ->
  hoare Inv (emitDelete e key st w uid) (fun _ p => Inv p).
Proof.
  intros Hr. eapply hoare_bind; [apply hoare_cache; intros; by apply ReserveDelete_good|].
  intros cl. case_match; [by apply hoare_ret|].
  eapply hoare_bind; [apply hoare_read_now|]. intros ts.
  eapply hoare_bind; [apply hoare_enqueue; [apply Hr|done]|]. intros []; [by apply hoare_ret|].
  eapply hoare_bind; [apply hoare_modify_cache; intros; by apply Unclaim_good|].
  intros ?. by apply hoare_ret.
Qed.

Lemma good_forgetEphemeral key st : hoare Inv (forgetEphemeral key st) (fun _ p => Inv p).
Proof.
  eapply hoare_bind; [by apply hoare_st; intros s [??]|]. intros ?.
  eapply hoare_bind; [apply hoare_cache; intros; by apply ReserveDelete_good|].
  intros cl. case_match; [by apply hoare_ret|].
  eapply hoare_bind; [apply hoare_cache; intros; by apply DeleteIf_good|].
  intros b. by apply hoare_ret.
Qed.

Lemma good_revert_version st k v revert :
  (forall e, revert = Some e -> E k e) ->
  hoare Inv (revert_version st k v revert) (fun _ p => Inv p).
Proof.
  intros Hr. apply hoare_modify_cache. intros c Hc.
  destruct revert; [apply Commit_good; auto|by apply DeleteIf_good].
Qed.

Lemma good_settle c ok : good_commit R E c -> hoare Inv (settle c ok) (fun _ p => Inv p).
Proof.
  intros Hc. destruct c as [st key v conf rev h ts w|st key v|st key r]; destruct ok; simpl.
  - destruct Hc as [Hc _]. eapply hoare_bind.
    + apply hoare_modify_cache. intros c Hcc. by apply Commit_good.
    + intros ?. by apply hoare_st; intros s [??].
  - eapply hoare_bind; [by apply good_revert_version; destruct Hc|]. intros ?. apply hoare_queue.
  - apply hoare_modify_cache. intros c Hcc. by apply DeleteIf_good.
  - eapply hoare_bind; [apply hoare_modify_cache; intros c Hcc; by apply Unclaim_good|].
    intros ?. apply hoare_queue.
  - by apply hoare_ret.
  - by apply good_remember_close_out.
Qed.
End good.

(** ** Policies: what the rows and entries a step produces satisfy *)

Section policy.
Context `{Unstructured, Encoders, ZstdCodec, JsonDiff}.

(** [norm] is an observation of [key] normalized under the policy of [e]. *)
Definition observed (e : env) (key : Key) (norm : normalizedObject) : Prop :=
  exists obj policy, redactionFor e key = Some policy /\ normalizeObject obj policy = Ok norm.

Record row_policy (ok : env -> Key -> Prop) (R : Record_ -> Prop) (E : string -> CacheEntry -> Prop) := {
  rp_version : forall v k c, E k c -> E k (with_Version v c);
  rp_pending : forall b k c, E k c -> E k (with_PendingDelete b c);
  rp_seed : forall k hash uid, E k (mkCacheEntry hash None encodingRaw uid "" 0 0 false);
  rp_deleted : forall e key ts uid apiVersion,
    Key_ephemeral key = false -> R (deleted_record e key ts uid apiVersion);
  rp_added : forall e key norm eventType ts,
    ok e key -> observed e key norm ->
    eventType = "Added" \/ eventType = "Snapshot" /\ Key_ephemeral key = false ->
    R (upsert_record e key norm plain_added eventType ts) /\
    E (cacheKey key) (confirmed_entry (Key_ephemeral key) norm 0);
  rp_modified : forall e key norm w cached ts,
    ok e key -> observed e key norm -> e_router e (k_Sink key) = Some w -> E (cacheKey key) cached ->
    let d := modified_decision w (Key_ephemeral key) cached norm in
    R (upsert_record e key norm d (d_eventType d) ts) /\
    E (cacheKey key) (confirmed_entry (Key_ephemeral key) norm (d_modifiedRun d));
}.

Lemma modified_revert w ephemeral cached norm :
  d_revertEntry (modified_decision w ephemeral cached norm) = Some cached.
Proof. unfold modified_decision. by split_cases. Qed.

Context {ok : env -> Key -> Prop} {R : Record_ -> Prop} {E : string -> CacheEntry -> Prop}.
Context (P : row_policy ok R E).

Let P_version := rp_version _ _ _ P.
Let P_pending := rp_pending _ _ _ P.
Let P_seed := rp_seed _ _ _ P.
Let P_deleted := rp_deleted _ _ _ P.


Abbreviation Inv := (good R E).

Lemma good_write_upsert e key st w norm window hash d miss :
  (forall ts, R (upsert_record e key norm d (d_eventType d) ts) /\
    (Key_ephemeral key = false -> miss = true -> R (upsert_record e key norm d "Snapshot" ts))) ->
  E (cacheKey key) (confirmed_entry (Key_ephemeral key) norm (d_modifiedRun d)) ->
  (forall c, d_revertEntry d = Some c -> E (cacheKey key) c) ->
  hoare Inv (write_upsert e key st w norm window hash d miss) (fun _ p => Inv p).
Proof.
  intros HR HE Hrev. eapply hoare_bind; [apply (hoare_gets _ _ (fun _ => Inv)); auto|]. intros warm. simpl.
  eapply hoare_bind; [apply hoare_cache; intros; apply Reserve_good; auto|].
  intros v. eapply hoare_bind; [apply hoare_read_now|]. intros ts.
  eapply hoare_bind.
  - apply hoare_enqueue; [|done]. simpl. destruct (HR ts) as [HR1 HR2].
    destruct miss, (Key_ephemeral key), warm; simpl; auto.
  - intros []; [by apply hoare_ret|].
    eapply hoare_bind; [apply good_revert_version; eauto|].
    intros ?. by apply hoare_ret.
Qed.

Lemma good_close_out_predecessor e key st w cached :
  hoare Inv (close_out_predecessor e key st w cached) (fun _ p => Inv p).
Proof.
  unfold close_out_predecessor. destruct (Key_ephemeral key) eqn:Eph; [by apply hoare_ret|].
  eapply hoare_bind.
  { apply hoare_cache. intros. apply ReserveDelete_good; eauto. }
  intros cl. case_match; [by apply hoare_ret|].
  eapply hoare_bind; [apply hoare_read_now|]. intros ts.
  apply good_enqueueCloseOut. by apply P_deleted.
Qed.

Lemma good_load st k :
  hoare Inv (state_gets (fun p => Load k (ss_cache (st_at st p))))
    (fun c p => Inv p /\ forall entry, c = Some entry -> E k entry).
Proof.
  apply hoare_gets. intros p Hp. split; [done|]. intros entry He.
  destruct (good_st_at _ _ p st Hp) as [Hc _]. by apply (Hc k).
Qed.

Lemma good_processUpsert e key st w obj :
  ok e key -> e_router e (k_Sink key) = Some w ->
  hoare Inv (processUpsert e key st w obj) (fun _ p => Inv p).
Proof.
  intros Hok Hw. unfold processUpsert.
  destruct (redactionFor e key) as [policy|] eqn:Ered; [|by apply hoare_ret].
  destruct (normalizeObject obj policy) as [norm|err] eqn:Enorm; [|by apply hoare_ret].
  assert (observed e key norm) as Hobs by (exists obj, policy; done).
  destruct (coalesce_params w (Key_ephemeral key) norm) as [window hash].
  eapply hoare_bind; [apply good_load|]. intros cached.
  assert (forall miss, hoare Inv (write_upsert e key st w norm window hash plain_added miss)
            (fun _ p => Inv p)) as Hadded.
  { intros miss. apply good_write_upsert; [|by eapply (rp_added _ _ _ P); auto|done].
    intros ts. split; [|intros Heph _]; eapply (rp_added _ _ _ P); auto. }
  destruct cached as [cached|]; [|eapply hoare_pre; [by intros p [??]|done]].
  apply hoare_fact. intros Hc. specialize (Hc _ eq_refl).
  case_match.
  { eapply hoare_bind; [apply good_close_out_predecessor|done]. }
  case_match; [by apply hoare_ret|].
  eapply hoare_bind; [apply hoare_read_now|]. intros t.
  eapply hoare_bind; [apply (hoare_gets _ _ (fun _ => Inv)); auto|]. intros [after|].
  { eapply hoare_bind; [apply hoare_queue|]. intros ?. by apply hoare_ret. }
  apply good_write_upsert.
  - intros ts. split; [|done]. by eapply (rp_modified _ _ _ P).
  - by eapply (rp_modified _ _ _ P _ _ _ _ _ 0%Z).
  - intros c. rewrite modified_revert. by intros [= <-].
Qed.

Lemma good_Process e key :
  ok e key -> hoare Inv (Process e key) (fun _ p => Inv p).
Proof.
  intros Hok. unfold Process.
  destruct (e_lister e key) as [[found active]|]; [|by apply hoare_ret].
  destruct active; simpl; [|by apply hoare_ret].
  destruct found as [obj|].
  - destruct (e_router e (k_Sink key)) as [w|] eqn:Ew; [|by apply hoare_ret].
    eapply hoare_bind; [apply hoare_sinks_get|]. intros st.
    eapply hoare_bind; [apply good_retryPendingCloseOuts|]. intros ?.
    by apply good_processUpsert.
  - destruct (Key_ephemeral key) eqn:Eph.
    + eapply hoare_bind; [apply hoare_sinks_get|]. intros st.
      eapply hoare_bind; [apply good_forgetEphemeral; eauto|].
      intros ?. by apply hoare_ret.
    + destruct (e_router e (k_Sink key)) as [w|]; [|by apply hoare_ret].
      eapply hoare_bind; [apply hoare_sinks_get|]. intros st.
      eapply hoare_bind; [apply good_retryPendingCloseOuts|]. intros ?.
      eapply hoare_bind; [apply good_emitDelete; eauto|].
      intros ?. by apply hoare_ret.
Qed.

Lemma good_processNext e key :
  ok e key -> hoare Inv (processNext e key) (fun _ p => Inv p).
Proof.
  intros Hok. eapply hoare_bind; [by apply good_Process|].
  intros [err|]; (eapply hoare_bind; [apply hoare_queue|]); intros ?; by apply hoare_ret.
Qed.

Lemma good_MarkScopeWarm id scope : hoare Inv (MarkScopeWarm id scope) (fun _ p => Inv p).
Proof.
  eapply hoare_bind; [apply hoare_sinks_get|]. intros l. apply hoare_st. by intros s [??].
Qed.

Lemma good_step p p' : step ok p p' -> Inv p -> Inv p'.
Proof.
  destruct 1 as [e key p Hok|i job outcome p Hj|id scope p|id p|id p|id scope p|st key hash uid p Hst
    |e key st w uid p Heph Hst|e key st w ts uid v p Heph Hst]; intros Hp.
  - by apply (good_processNext e key Hok p).
  - assert (Inv (drop_job i p)) as Hd.
    { destruct Hp as [Hst Hjb]. split; [done|]. simpl. by apply Forall_delete. }
    destruct Hp as [_ Hjobs]. rewrite Forall_lookup in Hjobs. destruct (Hjobs _ _ Hj) as [_ Hc].
    eapply good_settle; eauto.
  - unfold EvictScope. case_match; [|done].
    eapply hoare_st; [|done]. intros s [Hc Hq]. split; [|done]. by apply DeletePrefix_good.
  - done.
  - by apply hoare_sinks_get.
  - by apply (good_MarkScopeWarm id scope p).
  - eapply hoare_modify_cache; [|done]. intros c. apply StoreIfAbsent_good; eauto.
  - eapply good_emitDelete; eauto.
  - eapply good_enqueueCloseOut; eauto.
Qed.

Lemma good_reachable p : reachable ok p -> Inv p.
Proof.
  intros Hr. assert (Inv pstate_init) as Hi by (split; constructor). revert Hi.
  induction Hr as [|p1 p2 p3 Hs Hrs IH]; eauto using good_step.
Qed.
End policy.
