(* ===== verification/Lifecycle.v ===== *)
(** * Lifecycle: appearance, replacement and disappearance of an object

    How [processNext] (src/internal/pipeline/process.go) opens and closes the
    recorded history of an identity: the Snapshot tag of a first observation, the
    close-out of a replaced incarnation and the exactly-once Deleted row. *)

From S2P Require Import Prelude Identity HashCache GoJson Redact Normalize Coalesce SinkTypes Diff Process Samples ProcessSpec System.

Section lifecycle.
Context `{Unstructured, Encoders, ZstdCodec, JsonDiff}.

(** ** Replacement *)

Definition close_out_row (e : env) (key : Key) (c : CacheEntry) (ts : Z) : Record_ :=
  deleted_record e key ts (UID c) (APIVersion c).

(** The close-out of the cached incarnation [c]: in flight, or kept for a retry. *)
Record close_out_effect (e : env) (key : Key) (l : loc) (w : Writer) (c : CacheEntry)
    (p p' : pstate) : Prop := {
  co_claimed : ss_cache (st_at l p') =
    (ReserveDelete (cacheKey key) (UID c) (ss_cache (st_at l p))).2;
  co_warm : ss_warm (st_at l p') = ss_warm (st_at l p);
  co_length : length (ps_states p') = length (ps_states p);
  co_row :
    if PendingDelete c then p' = p
    else exists ts, let row := close_out_row e key c ts in
      (ps_jobs p' = ps_jobs p ++ [mkJob row (CommitCloseOut l key row)] /\
       ss_closeOuts (st_at l p') = ss_closeOuts (st_at l p) /\ ps_queue p' = ps_queue p) \/
      (ps_jobs p' = ps_jobs p /\
       ss_closeOuts (st_at l p') = closeOuts_Add (cacheKey key) row (ss_closeOuts (st_at l p)) /\
       ps_queue p' = ps_queue p ++ [QAddRateLimited key]);
}.

Lemma close_out_predecessor_effect e key l w c p :
  l < length (ps_states p) -> Key_ephemeral key = false -> cached key l p = Some c ->
  close_out_effect e key l w c p (close_out_predecessor e key l w c p).2.
Proof.
  intros Hl Heph Hc. unfold cached in Hc.
  unfold close_out_predecessor. rewrite Heph. unfold mbind, state_bind, with_cache, with_st.
  destruct (PendingDelete c) eqn:Ep.
  - unfold ReserveDelete. rewrite Hc, Ep. simpl.
    rewrite set_cache_same, write_back by done.
    split; [unfold ReserveDelete; by rewrite Hc, Ep|done|done|by rewrite Ep].
  - assert (E : ReserveDelete (cacheKey key) (UID c) (ss_cache (st_at l p)) =
      (mkClaim c (u64_succ (Version c)) deleteClaimed,
       <[cacheKey key := with_PendingDelete true (with_Version (u64_succ (Version c)) c)]>
         (ss_cache (st_at l p)))).
    { unfold ReserveDelete. rewrite Hc, Ep, decide_False; [done|naive_solver]. }
    rewrite E. simpl. unfold enqueueCloseOut, mbind, state_bind, enqueue. simpl.
    destruct (w_accepts w _ _); simpl; unfold with_st, set_states; simpl;
      rewrite ?(st_at_insert l) by (rewrite ?length_insert; done).
    + split; rewrite ?Ep, ?(st_at_insert l), ?E by done; [done|done|by simpl; rewrite length_insert|].
      exists (e_now e (ps_clock p)). by left.
    + split; rewrite ?Ep, ?(st_at_insert l), ?E by (rewrite ?length_insert; done);
        [done|done|by simpl; rewrite !length_insert|].
      exists (e_now e (ps_clock p)). by right.
Qed.

(** The history of the replaced incarnation [c] ends with a Deleted row that is in
    flight ahead of the new rows or kept for a retry - or somebody else already
    owns its deletion. *)
Definition history_closed (e : env) (key : Key) (l : loc) (c : CacheEntry) (p p' : pstate)
    (rows : list Job) : Prop :=
  if PendingDelete c then rows = [] /\ ss_closeOuts (st_at l p') = ss_closeOuts (st_at l p)
  else exists ts, let row := close_out_row e key c ts in
    rows = [mkJob row (CommitCloseOut l key row)] \/
    rows = [] /\ ss_closeOuts (st_at l p') !! cacheKey key = Some [row] /\
    QAddRateLimited key ∈ ps_queue p'.

Lemma close_out_closed e key l w c p p0 :
  ss_closeOuts (st_at l p) !! cacheKey key = None -> close_out_effect e key l w c p p0 ->
  exists rows, ps_jobs p0 = ps_jobs p ++ rows /\
    forall q p', ss_closeOuts (st_at l p') = ss_closeOuts (st_at l p0) ->
      ps_queue p' = ps_queue p0 -> history_closed e key l c p (queued q p') rows.
Proof.
  intros Hquiet [_ _ _ Hrow]. unfold history_closed. destruct (PendingDelete c).
  - exists []. rewrite Hrow, app_nil_r. split; [done|]. intros q p' E1 E2. split; [done|exact E1].
  - destruct Hrow as (ts & [(Ej & Eo & Eq)|(Ej & Eo & Eq)]).
    + exists [mkJob (close_out_row e key c ts) (CommitCloseOut l key (close_out_row e key c ts))].
      split; [done|]. intros q p' E1 E2. exists ts. by left.
    + exists []. rewrite app_nil_r. split; [done|]. intros q p' E1 E2. exists ts. right.
      split; [done|]. change (st_at l (queued q p')) with (st_at l p'). rewrite E1, Eo.
      unfold closeOuts_Add. rewrite Hquiet, lookup_insert_eq. split; [done|].
      simpl. rewrite E2, Eq. set_solver.
Qed.

(** ** Disappearance *)

(** The work item [key] finds its object gone from an active scope. *)
Record gone (e : env) (key : Key) (w : Writer) (l : loc) (p : pstate) : Prop := {
  gn_lister : e_lister e key = Ok (None, true);
  gn_writer : e_router e (k_Sink key) = Some w;
  gn_mounted : mounted p (k_Sink key) l;
  gn_quiet : ss_closeOuts (st_at l p) !! cacheKey key = None;
}.

Lemma Process_gone e key w l p :
  gone e key w l p -> Key_ephemeral key = false ->
  Process e key p = let '(r, p') := emitDelete e key l w "" p in (r.2, p').
Proof.
  intros [Hg Hw [Hm Hl] Hq] Heph. unfold Process. rewrite Hg, Heph, Hw. simpl.
  assert (Hget : sinks_get (k_Sink key) p = (l, p)) by (unfold sinks_get; by rewrite Hm).
  unfold mbind, state_bind. rewrite Hget, (take_nothing key l w p Hl Hq).
  by destruct (emitDelete e key l w "" p).
Qed.

(** An unclaimed entry: the claim, then the row or the release of the claim. *)
Lemma emitDelete_effect e key l w p c :
  l < length (ps_states p) -> cached key l p = Some c -> PendingDelete c = false ->
  let k := cacheKey key in
  let v := u64_succ (Version c) in
  let claimed := with_PendingDelete true (with_Version v c) in
  exists err p', emitDelete e key l w "" p = ((deleteClaimed, err), p') /\
    ps_queue p' = ps_queue p /\ ss_closeOuts (st_at l p') = ss_closeOuts (st_at l p) /\
    let row := close_out_row e key c (e_now e (ps_clock p)) in
    (w_accepts w (ps_attempts p) row = true /\ err = None /\
     ps_jobs p' = ps_jobs p ++ [mkJob row (CommitDelete l key v)] /\
     touches l (set_cache (<[k := claimed]> (ss_cache (st_at l p))) (st_at l p)) p p' \/
     w_accepts w (ps_attempts p) row = false /\ err = Some errEnqueue /\ ps_jobs p' = ps_jobs p /\
     touches l (set_cache (<[k := with_PendingDelete false claimed]> (ss_cache (st_at l p))) (st_at l p)) p p').
Proof.
  intros Hl Hc Hp k v claimed. unfold cached in Hc.
  unfold emitDelete, mbind, state_bind, with_cache, with_st.
  assert (E : ReserveDelete (cacheKey key) "" (ss_cache (st_at l p)) =
    (mkClaim c v deleteClaimed, <[cacheKey key := claimed]> (ss_cache (st_at l p)))).
  { unfold ReserveDelete. rewrite Hc, Hp, decide_False; [done|naive_solver]. }
  rewrite E. simpl. unfold enqueue. simpl. fold (close_out_row e key c (e_now e (ps_clock p))).
  destruct (w_accepts w _ _) eqn:Ea; simpl.
  - eexists _, _. split; [done|]. simpl. rewrite st_at_insert by done. split; [done|]. split; [done|].
    left. by split_and!.
  - eexists _, _. split; [done|]. simpl. unfold set_states. simpl.
    rewrite !st_at_insert by (rewrite ?length_insert; done).
    split; [done|]. split; [done|]. right. split_and!; [done..|]. split; [|done].
    simpl. rewrite list_insert_insert_eq. unfold UnclaimDelete. simpl.
    rewrite lookup_insert_eq, decide_True by done. simpl. by rewrite insert_insert_eq.
Qed.

(** Releasing a claim restores the entry up to its version. *)
Lemma unclaimed_same (m : hashCache) k c v :
  m !! k = Some c -> PendingDelete c = false ->
  same_entries (<[k := with_PendingDelete false (with_PendingDelete true (with_Version v c))]> m) m.
Proof.
  intros Hc Hp. transitivity (<[k := c]> m); [|by rewrite insert_id].
  apply insert_same_entries; [|done]. destruct c. simpl in Hp. by subst.
Qed.

(** While a claim is held, finding the object gone again does nothing. *)
Lemma emitDelete_in_flight e key l w p c :
  l < length (ps_states p) -> cached key l p = Some c -> PendingDelete c = true ->
  emitDelete e key l w "" p = ((deleteClaimInFlight, None), p).
Proof.
  intros Hl Hc Hp. unfold cached in Hc. unfold emitDelete, mbind, state_bind, with_cache, with_st.
  unfold ReserveDelete. rewrite Hc, Hp. simpl. by rewrite set_cache_same, write_back.
Qed.
End lifecycle.

(** ** Properties *)

(** C33: a replaced object. When the cache holds another incarnation of the name,
    the old one's history is closed by a Deleted row under the old UID and API
    version - in flight ahead of the new row, or remembered for a retry with the
    key requeued, and left out exactly when another path already claimed that
    deletion - and the new incarnation is offered as an Added row with full state;
    if that is refused the key is left uncached and requeued. *)
Theorem replaced_object_closes_history `{Unstructured, Encoders, ZstdCodec, JsonDiff}
    e key w norm l p c :
  sighted e key w norm l p -> Key_ephemeral key = false ->
  cached key l p = Some c -> ~ same_incarnation c norm ->
  let p1 := (processNext e key p).2 in
  exists rows ts, history_closed e key l c p p1 rows /\
    let row := upsert_record e key norm plain_added "Added" ts in
    ((exists commit, ps_jobs p1 = ps_jobs p ++ rows ++ [mkJob row commit] /\
        UID <$> cached key l p1 = Some (no_UID norm)) \/
     (ps_jobs p1 = ps_jobs p ++ rows /\ cached key l p1 = None /\
        QAddRateLimited key ∈ ps_queue p1)).
Proof.
  intros Hs Heph Hc Hinc. pose proof (sg_mounted _ _ _ _ _ _ Hs) as [_ Hl].
  pose proof (close_out_predecessor_effect e key l w c p Hl Heph Hc) as [Hclaim Hwarm Hlen Hrow].
  rewrite processNext_queued, (Process_sighted _ _ _ _ _ _ Hs Heph), Hc, decide_False by done.
  set (p0 := (close_out_predecessor e key l w c p).2) in *.
  assert (Hl0 : l < length (ps_states p0)) by by rewrite Hlen.
  destruct (write_upsert_effect e key l w norm 0 "" plain_added false p0 Hl0) as [Hq He].
  set (out := write_upsert e key l w norm 0 "" plain_added false p0) in *.
  cbn -[upsert_record confirmed_entry] in He. unfold tagged in He. simpl in He.
  destruct (close_out_closed e key l w c p p0 (sg_quiet _ _ _ _ _ _ Hs)) as (rows & Hjobs & Hclosed);
    [by split|].
  exists rows, (e_now e (ps_clock p0)).
  destruct (w_accepts w _ _); destruct He as (Herr & Ht & Hj); rewrite Herr;
    pose proof (touches_at _ _ _ _ Ht Hl0) as Hst; (split; [apply Hclosed; [by rewrite Hst|done]|]).
  - left. eexists. simpl. rewrite Hj, Hjobs, <-app_assoc. split; [done|].
    unfold cached. change (st_at l (queued (QForget key) out.2)) with (st_at l out.2). rewrite Hst. simpl.
    rewrite lookup_insert_eq. simpl. unfold confirmed_entry. rewrite Heph.
    by destruct (compressBaseline (no_JSON norm)) as [[d enc] b].
  - right. simpl. rewrite Hj, Hjobs. split; [done|]. split; [|set_solver].
    unfold cached. change (st_at l (queued (QAddRateLimited key) out.2)) with (st_at l out.2).
    rewrite Hst. simpl. unfold DeleteIfCurrent. rewrite lookup_insert_eq. simpl.
    rewrite decide_True by done. simpl. by rewrite delete_insert_eq, lookup_delete_eq.
Qed.

Lemma replaced_object_closes_history_witness :
  let p := sample_seen (sample_writer 5) in
  let e := sample_env (sample_writer 5) (Some (config_map "u2" "a")) in
  let p1 := (@processNext tree_unstructured sample_encoders framing_codec whole_document_diff
               e sample_key p).2 in
  map (fun j => (r_EventType (j_Record j), r_UID (j_Record j))) (ps_jobs p1) =
    [("Snapshot", "u1"); ("Deleted", "u1"); ("Added", "u2")] /\
  exists c rows, cached sample_key 0 p = Some c /\ history_closed e sample_key 0 c p p1 rows.
Proof.
  intros p e p1. split; [vm_compute; reflexivity|].
  destruct (cached sample_key 0 p) as [c|] eqn:Ec; [|vm_compute in Ec; discriminate].
  destruct (@replaced_object_closes_history tree_unstructured sample_encoders framing_codec
              whole_document_diff e sample_key (sample_writer 5) (sample_norm "u2" "a") 0 p c)
    as (rows & ts & Hrows & _).
  - apply sample_sighted.
  - reflexivity.
  - exact Ec.
  - vm_compute in Ec. injection Ec as <-. intros [Hn|Hn]; vm_compute in Hn; discriminate.
  - exists c, rows. split; [reflexivity|exact Hrows].
Defined.

(** C32: a deletion is recorded exactly once. Finding a cached object gone hands
    over one Deleted row under its UID and claims the entry: until that row
    settles, finding it gone again writes nothing. Settled, the entry is removed;
    failed or refused, the entry is exactly what it was up to its version - free
    to be claimed again - and the key is requeued. *)
Theorem deleted_exactly_once `{Unstructured, Encoders, ZstdCodec, JsonDiff} e key w l p c :
  gone e key w l p -> Key_ephemeral key = false ->
  cached key l p = Some c -> PendingDelete c = false ->
  let p1 := (processNext e key p).2 in
  exists ts, let row := close_out_row e key c ts in
    if w_accepts w (ps_attempts p) row then
      exists commit, ps_jobs p1 = ps_jobs p ++ [mkJob row commit] /\
        (forall e' w', gone e' key w' l p1 -> processNext e' key p1 = (true, queued (QForget key) p1)) /\
        cached key l (settle commit true p1).2 = None /\
        same_entries (ss_cache (st_at l (settle commit false p1).2)) (ss_cache (st_at l p)) /\
        ps_queue (settle commit false p1).2 = ps_queue p1 ++ [QAddRateLimited key]
    else
      ps_jobs p1 = ps_jobs p /\ ps_queue p1 = ps_queue p ++ [QAddRateLimited key] /\
      same_entries (ss_cache (st_at l p1)) (ss_cache (st_at l p)).
Proof.
  intros Hg Heph Hc Hp. pose proof (gn_mounted _ _ _ _ _ Hg) as [_ Hl].
  rewrite processNext_queued, (Process_gone _ _ _ _ _ Hg Heph). exists (e_now e (ps_clock p)).
  destruct (emitDelete_effect e key l w p c Hl Hc Hp)
    as (err & p' & -> & Hq & Ho & [(Ha & -> & Hj & Ht)|(Ha & -> & Hj & Ht)]); simpl; rewrite Ha;
    assert (Hst := touches_at _ _ _ _ Ht Hl).
  - assert (Hl' : l < length (ps_states p')) by (destruct Ht as [-> _]; by rewrite length_insert).
    eexists. split; [exact Hj|]. split_and!.
    + intros e' w' Hg'. unfold processNext, mbind, state_bind.
      rewrite (Process_gone _ _ _ _ _ Hg' Heph).
      erewrite emitDelete_in_flight; [done|done| |].
      * unfold cached. change (st_at l (queued (QForget key) p')) with (st_at l p').
        rewrite Hst. simpl. apply lookup_insert_eq.
      * done.
    + unfold cached. simpl. unfold modify_cache, with_cache, with_st, set_states. simpl.
      rewrite st_at_insert by done. change (st_at l (queued (QForget key) p')) with (st_at l p').
      rewrite Hst. simpl. unfold DeleteIfCurrent. rewrite lookup_insert_eq. simpl.
      rewrite decide_True by done. simpl. by rewrite lookup_delete_eq.
    + simpl. unfold set_states. rewrite st_at_insert by done. simpl.
      change (st_at l (queued (QForget key) p')) with (st_at l p'). rewrite Hst. simpl.
      unfold UnclaimDelete. rewrite lookup_insert_eq. simpl. rewrite decide_True by done.
      rewrite insert_insert_eq. by eapply unclaimed_same.
    + done.
  - split; [done|]. split; [by rewrite Hq|].
    change (st_at l (queued (QAddRateLimited key) p')) with (st_at l p'). rewrite Hst. simpl.
    by eapply unclaimed_same.
Qed.

Lemma deleted_exactly_once_witness :
  let p := sample_seen (sample_writer 5) in
  let e := sample_env (sample_writer 5) None in
  let p1 := (@processNext tree_unstructured sample_encoders framing_codec whole_document_diff
               e sample_key p).2 in
  exists ts c, cached sample_key 0 p = Some c /\
    exists commit, ps_jobs p1 = ps_jobs p ++ [mkJob (close_out_row e sample_key c ts) commit] /\
      cached sample_key 0 (settle commit true p1).2 = None.
Proof.
  intros p e p1. destruct (cached sample_key 0 p) as [c|] eqn:Ec; [|vm_compute in Ec; discriminate].
  destruct (@deleted_exactly_once tree_unstructured sample_encoders framing_codec
              whole_document_diff e sample_key (sample_writer 5) 0 p c)
    as (ts & commit & Hj & _ & Hd & _).
  - split; [reflexivity|reflexivity| |vm_compute; reflexivity].
    split; [vm_compute; reflexivity|]. apply Nat.ltb_lt. vm_compute. reflexivity.
  - reflexivity.
  - exact Ec.
  - vm_compute in Ec. injection Ec as <-. reflexivity.
  - exists ts, c. split; [reflexivity|]. exists commit. split; [exact Hj|exact Hd].
Defined.

(** The Snapshot tag. The first row of an object that is not cached is a full
    row, a Snapshot exactly while neither the object's own scope nor the
    cluster-wide scope of its kind has been warmed - so marking any scope that
    covers the object warm makes later first observations Added, and evicting the
    scopes that cover it makes them Snapshots again. *)
Theorem snapshot_until_warm `{Unstructured, Encoders, ZstdCodec, JsonDiff} e key w norm l p :
  sighted e key w norm l p -> Key_ephemeral key = false -> cached key l p = None ->
  (forall row, w_accepts w (ps_attempts p) row = true) ->
  (exists ts commit,
     ps_jobs (processNext e key p).2 = ps_jobs p ++
       [mkJob (upsert_record e key norm plain_added
                 (if scopeWarm key (st_at l p) then "Added" else "Snapshot") ts) commit]) /\
  (scopeWarm key (st_at l p) = true <-> exists scope, scope ∈ ss_warm (st_at l p) /\ in_scope scope key) /\
  (forall scope, in_scope scope key ->
     scopeWarm key (st_at l (MarkScopeWarm (k_Sink key) scope p).2) = true /\
     (ss_warm (st_at l p) = {[scope]} ->
      scopeWarm key (st_at l (EvictScope (k_Sink key) scope p).2) = false)).
Proof.
  intros Hs Heph Hc Hacc. pose proof (sg_mounted _ _ _ _ _ _ Hs) as [Hm Hl].
  assert (Hwarm : forall s, scopeWarm key s = true <-> exists scope, scope ∈ ss_warm s /\ in_scope scope key).
  { intros s. unfold scopeWarm, in_scope, Scope. rewrite orb_true_iff, !bool_decide_eq_true. simpl. split.
    - intros [Hin|Hin]; eexists; (split; [exact Hin|]); simpl; auto.
    - intros ([g k ns] & Hin & E1 & E2 & Hns). simpl in *. subst.
      destruct Hns as [->| ->]; [by right|by left]. }
  split_and!; [|apply Hwarm|].
  - destruct (Process_write e key w norm l p Hs Heph) as
      (ts & err & p' & HP & _ & [(_ & -> & _ & Hj)|(Ha & _)]); [by rewrite Hc| |by rewrite Hacc in Ha].
    exists ts. eexists. rewrite processNext_queued, HP. simpl. rewrite Hj. do 3 f_equal.
    unfold next_row, tagged. rewrite Hc, Heph. simpl. by destruct (scopeWarm key (st_at l p)).
  - intros scope Hin. split.
    + apply Hwarm. exists scope. split; [|done]. unfold MarkScopeWarm, mbind, state_bind, sinks_get.
      rewrite Hm. unfold with_st, set_states. simpl. rewrite st_at_insert by done. simpl. set_solver.
    + intros Hw. apply not_true_iff_false. rewrite Hwarm. intros (scope' & Hin' & _). revert Hin'.
      unfold EvictScope. rewrite Hm. unfold with_st, set_states. simpl.
      rewrite st_at_insert by done. simpl. rewrite Hw. set_solver.
Qed.

Lemma snapshot_until_warm_witness :
  let p := (MarkScopeWarm sample_sink (mkScopeKey "" "ConfigMap" "") pstate_init).2 in
  scopeWarm sample_key (st_at 0 p) = true /\
  exists ts commit,
    ps_jobs (@processNext tree_unstructured sample_encoders framing_codec whole_document_diff
      (sample_env (sample_writer 5) (Some (config_map "u1" "a"))) sample_key p).2 =
    [mkJob (upsert_record (sample_env (sample_writer 5) (Some (config_map "u1" "a"))) sample_key
              (sample_norm "u1" "a") plain_added "Added" ts) commit].
Proof.
  intros p. split; [vm_compute; reflexivity|].
  destruct (@snapshot_until_warm tree_unstructured sample_encoders framing_codec whole_document_diff
             (sample_env (sample_writer 5) (Some (config_map "u1" "a"))) sample_key (sample_writer 5)
             (sample_norm "u1" "a") 0 p) as [(ts & commit & Hj) _].
  - split; [|reflexivity| |reflexivity].
    + exists (config_map "u1" "a"), None. split; [reflexivity|]. split; reflexivity.
    + split; [vm_compute; reflexivity|]. apply Nat.ltb_lt. vm_compute. reflexivity.
  - reflexivity.
  - vm_compute. reflexivity.
  - reflexivity.
  - exists ts, commit. exact Hj.
Defined.
