(* ===== verification/Isolation.v ===== *)
(** * Isolation: sinks do not share fate

    Each sink's pipeline state is its own object, reached through the registry of
    src/internal/pipeline/pipeline.go and captured by the commit callbacks of the
    jobs enqueued for it. Work for one sink never touches another's state, and a
    sink that is removed and added again starts from a fresh state that the
    settlements still in flight for the old one cannot reach. *)

From S2P Require Import Prelude Identity HashCache GoJson Redact Normalize Coalesce SinkTypes Diff Process Samples System.

(** The sink state a commit callback closes over. *)
Definition commit_loc (c : commit) : loc :=
  match c with
  | CommitUpsert st _ _ _ _ _ _ _ | CommitDelete st _ _ | CommitCloseOut st _ _ => st
  end.

(** From [p] to [p'] only the cell [l] changed, and new jobs point to it. *)
Record framed (l : loc) (p p' : pstate) : Prop := {
  fr_registry : ps_registry p' = ps_registry p;
  fr_length : length (ps_states p') = length (ps_states p);
  fr_states : forall l', l' <> l -> st_at l' p' = st_at l' p;
  fr_jobs : forall j, j ∈ ps_jobs p' -> j ∈ ps_jobs p \/ commit_loc (j_Commit j) = l;
}.

#[export] Instance framed_preorder l : PreOrder (framed l).
Proof.
  split.
  - intros p. split; auto.
  - intros p1 p2 p3 [R1 L1 S1 J1] [R2 L2 S2 J2]. split; [congruence..| |].
    + intros l' Hl. rewrite S2, S1 by done. done.
    + intros j Hj. destruct (J2 j Hj); auto.
Qed.

Definition acts_on {A} (l : loc) (m : M A) : Prop := forall p, framed l p (m p).2.

Lemma acts_ret {A} l (a : A) : acts_on l (mret a).
Proof. intros p. reflexivity. Qed.

Lemma acts_bind {A B} l (m : M A) (k : A -> M B) :
  acts_on l m -> (forall a, acts_on l (k a)) -> acts_on l (m ≫= k).
Proof.
  intros Hm Hk p. unfold mbind, state_bind. specialize (Hm p). destruct (m p) as [a p'].
  etransitivity; [exact Hm|apply Hk].
Qed.

Lemma acts_with_st {A} l (f : sinkState -> A * sinkState) : acts_on l (with_st l f).
Proof.
  intros p. unfold with_st. destruct (f (st_at l p)) as [a s]. simpl. split; simpl; [done| | |auto].
  - apply length_insert.
  - intros l' Hl. unfold st_at. simpl. by rewrite list_lookup_insert_ne.
Qed.

Lemma acts_with_cache {A} l (f : hashCache -> A * hashCache) : acts_on l (with_cache l f).
Proof. apply acts_with_st. Qed.

Lemma acts_read_now l e : acts_on l (read_now e).
Proof. intros p. split; auto. Qed.

Lemma acts_queue l q : acts_on l (queue q).
Proof. intros p. split; auto. Qed.

Lemma acts_gets {A} l (f : pstate -> A) : acts_on l (state_gets f).
Proof. intros p. reflexivity. Qed.

Lemma acts_enqueue l w j : commit_loc (j_Commit j) = l -> acts_on l (enqueue w j).
Proof.
  intros Hj p. split; [done..|]. simpl. intros j'. case_match; [|auto].
  rewrite elem_of_app, list_elem_of_singleton. intros [?| ->]; auto.
Qed.

#[export] Hint Resolve acts_ret acts_with_st acts_with_cache acts_read_now acts_queue acts_gets
  acts_enqueue : kr.

(** Decompose an action into its primitive ones. *)
Ltac acts :=
  repeat first
    [ progress eauto with kr
    | apply acts_bind; [|intros ?]
    | case_match ].

Section acts.
Context `{Unstructured, Encoders, ZstdCodec, JsonDiff}.

Lemma acts_remember_close_out key l record : acts_on l (remember_close_out key l record).
Proof. unfold remember_close_out. acts. Qed.

Lemma acts_enqueueCloseOut key l w record : acts_on l (enqueueCloseOut key l w record).
Proof. unfold enqueueCloseOut. acts. Qed.

Lemma acts_enqueue_close_outs key l w records : acts_on l (enqueue_close_outs key l w records).
Proof.
  induction records as [|r rs IH]; simpl; [acts|].
  apply acts_bind; [apply acts_enqueueCloseOut|done].
Qed.

Lemma acts_retryPendingCloseOuts key l w : acts_on l (retryPendingCloseOuts key l w).
Proof. unfold retryPendingCloseOuts. acts. apply acts_enqueue_close_outs. Qed.

Lemma acts_emitDelete e key l w uid : acts_on l (emitDelete e key l w uid).
Proof. unfold emitDelete, modify_cache. acts. Qed.

Lemma acts_forgetEphemeral key l : acts_on l (forgetEphemeral key l).
Proof. unfold forgetEphemeral. acts. Qed.

Lemma acts_write_upsert e key l w norm window hash d miss :
  acts_on l (write_upsert e key l w norm window hash d miss).
Proof. unfold write_upsert, revert_version, modify_cache. acts. Qed.

Lemma acts_processUpsert e key l w obj : acts_on l (processUpsert e key l w obj).
Proof.
  unfold processUpsert, close_out_predecessor.
  acts; try apply acts_write_upsert; apply acts_enqueueCloseOut.
Qed.

Lemma acts_settle c ok : acts_on (commit_loc c) (settle c ok).
Proof.
  destruct c; simpl; unfold revert_version, modify_cache; acts.
Qed.

(** ** The registry *)

(** Addresses are allocated, one per sink, and jobs point to allocated cells. *)
Record wf_registry (p : pstate) : Prop := {
  wr_range : forall id l, ps_registry p !! id = Some l -> l < length (ps_states p);
  wr_inj : forall id1 id2 l, ps_registry p !! id1 = Some l -> ps_registry p !! id2 = Some l -> id1 = id2;
  wr_jobs : forall j, j ∈ ps_jobs p -> commit_loc (j_Commit j) < length (ps_states p);
}.

Lemma framed_wf l p p' : framed l p p' -> l < length (ps_states p) -> wf_registry p -> wf_registry p'.
Proof.
  intros [Er El _ Ej] Hl [Hrng Hinj Hjobs]. split; rewrite ?Er, ?El; [done..|].
  intros j Hj. destruct (Ej j Hj) as [?| ->]; auto.
Qed.

(** Looking a sink up, allocating its state on first use. *)
Lemma sinks_get_spec id p :
  wf_registry p ->
  let l := (sinks_get id p).1 in
  let p' := (sinks_get id p).2 in
  wf_registry p' /\ l < length (ps_states p') /\ ps_registry p' !! id = Some l /\
  (forall l', l' < length (ps_states p) -> st_at l' p' = st_at l' p) /\
  (forall id' l', id' <> id -> ps_registry p' !! id' = Some l' <-> ps_registry p !! id' = Some l').
Proof.
  intros Hwf. pose proof Hwf as [Hr Hi Hj]. unfold sinks_get.
  destruct (ps_registry p !! id) as [l|] eqn:El; simpl; [naive_solver|].
  split_and!.
  - split; simpl.
    + intros id' l'. rewrite length_app. simpl. rewrite lookup_insert_Some.
      intros [[<- <-]|[_ Hl']]; [lia|]. apply Hr in Hl'. lia.
    + intros id1 id2 l'. rewrite !lookup_insert_Some.
      intros [[? ?]|[? Hl1]] [[? ?]|[? Hl2]]; subst; eauto.
      * apply Hr in Hl2. lia.
      * apply Hr in Hl1. lia.
    + intros j Hin. rewrite length_app. apply Hj in Hin. simpl. lia.
  - rewrite length_app. simpl. lia.
  - apply lookup_insert_eq.
  - intros l' Hl'. unfold st_at. simpl. by rewrite lookup_app_l.
  - intros id' l' Hne. by rewrite lookup_insert_ne.
Qed.

(** A round on [key] acts on the cell of its sink, looked up or allocated. *)
Lemma processNext_frame e key p :
  (exists q, (processNext e key p).2 = (queue q p).2) \/
  (exists l, (sinks_get (k_Sink key) p).1 = l /\ framed l (sinks_get (k_Sink key) p).2 (processNext e key p).2).
Proof.
  assert (HP : (Process e key p).2 = p \/
    framed (sinks_get (k_Sink key) p).1 (sinks_get (k_Sink key) p).2 (Process e key p).2).
  { unfold Process, mbind, state_bind. destruct (e_lister e key) as [[found active]|]; [|by left].
    destruct active; simpl; [|by left].
    assert (Hrun : forall (k : loc -> M (option processError)), (forall l, acts_on l (k l)) ->
      framed (sinks_get (k_Sink key) p).1 (sinks_get (k_Sink key) p).2
        (let '(a, s') := sinks_get (k_Sink key) p in k a s').2).
    { intros k Hk. destruct (sinks_get (k_Sink key) p) as [l p']. apply Hk. }
    destruct found as [obj|]; [|destruct (Key_ephemeral key)];
      try (destruct (e_router e (k_Sink key)) as [w|]; [|by left]); right; apply Hrun; intros l.
    - apply (acts_bind l (retryPendingCloseOuts key l w)); [apply acts_retryPendingCloseOuts|].
      intros _. apply acts_processUpsert.
    - apply (acts_bind l (forgetEphemeral key l)); [apply acts_forgetEphemeral|].
      intros r. apply acts_ret.
    - apply (acts_bind l (retryPendingCloseOuts key l w)); [apply acts_retryPendingCloseOuts|].
      intros _. apply (acts_bind l (emitDelete e key l w "")); [apply acts_emitDelete|].
      intros r. apply acts_ret. }
  unfold processNext, mbind, state_bind. destruct (Process e key p) as [err p']. simpl in HP.
  destruct HP as [->|HP].
  - left. destruct err; by eexists.
  - right. eexists. split; [done|]. etransitivity; [exact HP|].
    destruct err; apply (acts_queue _ _ p').
Qed.
End acts.

Section wf.
Context `{Unstructured, Encoders, ZstdCodec, JsonDiff}.

Lemma wf_step ok p p' : step ok p p' -> wf_registry p -> wf_registry p'.
Proof.
  destruct 1 as [e key p Hok|i job outcome p Hj|id scope p|id p|id p|id scope p|st key hash uid p Hst
    |e key st w uid p Heph Hst|e key st w ts uid v p Heph Hst]; intros Hp.
  - destruct (processNext_frame e key p) as [[q ->]|(l & El & Hf)].
    + by destruct Hp; split.
    + destruct (sinks_get_spec (k_Sink key) p Hp) as (Hp' & Hl & _). subst l.
      by eapply framed_wf.
  - assert (wf_registry (drop_job i p)) as Hd.
    { destruct Hp as [Hrng Hinj Hjobs]. split; [done..|]. simpl. intros j Hin. apply Hjobs.
      eapply elem_of_submseteq; [exact Hin|]. apply sublist_submseteq, sublist_delete. }
    eapply framed_wf; [apply acts_settle| |exact Hd].
    apply (wr_jobs p Hp job). by eapply list_elem_of_lookup_2.
  - unfold EvictScope. destruct (ps_registry p !! id) as [l|] eqn:El; [|done].
    eapply framed_wf; [apply acts_with_st| |done]. by eapply wr_range.
  - destruct Hp as [Hrng Hinj Hjobs]. split; simpl; [| |done].
    + intros id' l. rewrite lookup_delete_Some. naive_solver.
    + intros id1 id2 l. rewrite !lookup_delete_Some. naive_solver.
  - by destruct (sinks_get_spec id p Hp).
  - unfold MarkScopeWarm, mbind, state_bind.
    destruct (sinks_get_spec id p Hp) as (Hp' & Hl & _).
    destruct (sinks_get id p) as [l p1]. by eapply framed_wf; [apply acts_with_st| |].
  - eapply framed_wf; [apply acts_with_cache|done..].
  - eapply framed_wf; [apply acts_emitDelete|done..].
  - eapply framed_wf; [apply acts_enqueueCloseOut|done..].
Qed.

Lemma wf_reachable ok p : reachable ok p -> wf_registry p.
Proof.
  intros Hr. assert (wf_registry pstate_init) as Hi by (split; [done..|by intros j ?%elem_of_nil]).
  revert Hi. induction Hr; eauto using wf_step.
Qed.
End wf.

(** ** Properties *)

(** In every reachable state, work for one sink leaves the state of every
    other sink untouched and still registered, and a sink that is removed and
    comes back gets a fresh empty state that no settlement in flight - they hold
    pointers to the old one - can modify. *)
Theorem sinks_are_isolated `{Unstructured, Encoders, ZstdCodec, JsonDiff} ok p :
  reachable ok p ->
  (forall e key id l, id <> k_Sink key -> ps_registry p !! id = Some l ->
     st_at l (processNext e key p).2 = st_at l p /\
     ps_registry (processNext e key p).2 !! id = Some l) /\
  (forall id j outcome, j ∈ ps_jobs p ->
     let '(l, p1) := sinks_get id (RemoveSink id p).2 in
     st_at l p1 = sinkState_zero /\
     st_at l (settle (j_Commit j) outcome p1).2 = sinkState_zero).
Proof.
  intros Hr. pose proof (wf_reachable ok p Hr) as Hwf. split.
  - intros e key id l Hne Hl. destruct (processNext_frame e key p) as [[q ->]|(l1 & El1 & Hf)]; [done|].
    destruct (sinks_get_spec (k_Sink key) p Hwf) as (Hwf' & _ & Hreg & Hst & Hoth).
    rewrite El1 in Hreg. specialize (Hoth id l Hne). pose proof (proj2 Hoth Hl) as Hl'.
    split; [|by rewrite (fr_registry _ _ _ Hf)].
    rewrite (fr_states _ _ _ Hf); [apply Hst; by eapply wr_range|].
    intros ->. by apply Hne, (wr_inj _ Hwf' _ _ l1).
  - intros id j outcome Hj. unfold sinks_get. simpl. rewrite lookup_delete_eq.
    assert (Hz : st_at (length (ps_states p)) (mkPState (ps_states p ++ [sinkState_zero])
              (<[id := length (ps_states p)]> (delete id (ps_registry p)))
              (ps_jobs p) (ps_queue p) (ps_clock p) (ps_attempts p)) = sinkState_zero).
    { unfold st_at. simpl. by rewrite list_lookup_middle. }
    split; [exact Hz|]. rewrite (fr_states _ _ _ (acts_settle (j_Commit j) outcome _)); [exact Hz|].
    pose proof (wr_jobs p Hwf j Hj). lia.
Qed.

Definition other_sink : ID := mkID "S3Sink" "archive".

Lemma sinks_are_isolated_witness :
  let p := (MarkScopeWarm other_sink (mkScopeKey "" "ConfigMap" "") pstate_init).2 in
  st_at 0 (@processNext tree_unstructured sample_encoders framing_codec whole_document_diff
    (sample_env (sample_writer 5) (Some (config_map "u1" "a"))) sample_key p).2 = st_at 0 p.
Proof.
  intros p.
  refine (proj1 (proj1 (@sinks_are_isolated tree_unstructured sample_encoders framing_codec
    whole_document_diff (fun _ _ => True) p _) _ sample_key other_sink 0 _ _)).
  - apply rtc_once. constructor.
  - discriminate.
  - reflexivity.
Defined.
