(* ===== verification/WarmSpec.v ===== *)
(** * WarmSpec: what a warm may and may not do

    Properties of the warm-up and reconciliation passes of
    src/internal/pipeline/warm.go: they are made of the steps of [System], they
    write rows only behind both gates, they never touch a live object, and they
    never clobber what a worker already recorded. *)

From S2P Require Import Prelude Identity HashCache GoJson Redact Normalize Coalesce SinkTypes Incarnations Diff Process Warm Samples ProcessSpec System Isolation.

(** ** Warm passes as runs of the system *)

Section runs.
Context `{Unstructured, Encoders, ZstdCodec, JsonDiff} (ok : env -> Key -> Prop).

(** From any state in which the cell [l] exists, [m] is a sequence of steps. *)
Definition runs_at {A} (l : loc) (m : M A) : Prop :=
  forall p, l < length (ps_states p) ->
    rtc (step ok) p (m p).2 /\ l < length (ps_states (m p).2).

Definition runs {A} (m : M A) : Prop := forall p, wf_registry p -> rtc (step ok) p (m p).2.

Lemma runs_at_ret {A} l (a : A) : runs_at l (mret a).
Proof. intros p Hl. split; [apply rtc_refl|done]. Qed.

Lemma runs_at_bind {A B} l (m : M A) (k : A -> M B) :
  runs_at l m -> (forall a, runs_at l (k a)) -> runs_at l (m ≫= k).
Proof.
  intros Hm Hk p Hl. unfold mbind, state_bind. specialize (Hm p Hl).
  destruct (m p) as [a p']. destruct Hm as [Hs Hl']. destruct (Hk a p' Hl') as [Hs' Hl''].
  split; [by etransitivity|done].
Qed.

Lemma runs_at_step {A} l (m : M A) :
  acts_on l m -> (forall p, l < length (ps_states p) -> step ok p (m p).2) -> runs_at l m.
Proof.
  intros Ha Hs p Hl. split; [by apply rtc_once, Hs|]. by rewrite (fr_length _ _ _ (Ha p)).
Qed.

Lemma runs_wf {A} (m : M A) p : runs m -> wf_registry p -> wf_registry (m p).2.
Proof.
  intros Hm Hp. specialize (Hm p Hp). induction Hm as [|p1 p2 p3 Hs _ IH]; [done|].
  apply IH. by eapply wf_step.
Qed.

Lemma runs_ret {A} (a : A) : runs (mret a).
Proof. intros p _. apply rtc_refl. Qed.

Lemma runs_bind {A B} (m : M A) (k : A -> M B) :
  runs m -> (forall a, runs (k a)) -> runs (m ≫= k).
Proof.
  intros Hm Hk p Hp. unfold mbind, state_bind. pose proof (runs_wf m p Hm Hp) as Hp'.
  specialize (Hm p Hp). destruct (m p) as [a p']. etransitivity; [exact Hm|]. by apply Hk.
Qed.

(** Resolving the sink's state, then working on it. *)
Lemma runs_get {A} id (k : loc -> M A) :
  (forall l, runs_at l (k l)) -> runs (sinks_get id ≫= k).
Proof.
  intros Hk p Hp. unfold mbind, state_bind.
  assert (Hstep : step ok p (sinks_get id p).2) by constructor.
  destruct (sinks_get_spec id p Hp) as (_ & Hl & _).
  destruct (sinks_get id p) as [l p']. eapply rtc_l; [exact Hstep|]. by apply Hk.
Qed.

Lemma runs_retry {A} (attempt : world -> M (result warmError A)) worlds :
  (forall w, runs (attempt w)) -> runs (retry attempt worlds).
Proof.
  intros Ha. induction worlds as [|w ws IH]; simpl; [apply runs_ret|].
  apply runs_bind; [done|]. intros [a|e]; [apply runs_ret|]. case_match; [apply runs_ret|done].
Qed.

Lemma runs_seed_groups ref l groups seeded priors : runs_at l (seed_groups ref l groups seeded priors).
Proof.
  revert seeded priors. induction groups as [|g gs IH]; intros seeded priors; simpl; [apply runs_at_ret|].
  destruct (splitIncarnations g) as [[current unclosed]|]; [|apply runs_at_ret].
  apply runs_at_bind; [|done]. apply runs_at_step; [apply acts_with_cache|]. intros p Hl. by constructor.
Qed.

Lemma runs_seed ref worlds : runs (seedScope ref worlds).
Proof.
  apply runs_retry. intros w. unfold seed_attempt. destruct (readerFor w _); [|apply runs_ret].
  destruct (LastKnownStates _ _); [|apply runs_ret]. apply runs_get. intros l.
  apply runs_at_bind; [apply runs_seed_groups|]. intros out. apply runs_at_ret.
Qed.

Lemma runs_active ref epochStart worlds : runs (scopeWasActive ref epochStart worlds).
Proof.
  apply runs_retry. intros w. unfold active_attempt. destruct (readerFor w _); [|apply runs_ret].
  destruct (ScopeWasActive _ _ _); apply runs_ret.
Qed.

(** Every key of a scope is an Event's exactly when the scope is. *)
Lemma scope_key_ephemeral ref ns name :
  Key_ephemeral (scopeRef_key ref ns name) = ScopeKey_ephemeral (sr_scope ref).
Proof. done. Qed.

Lemma runs_close_out_loop w ref l writer i priors n :
  ScopeKey_ephemeral (sr_scope ref) = false -> runs_at l (close_out_loop w ref l writer i priors n).
Proof.
  intros Heph. revert i n. induction priors as [|r rs IH]; intros i n; simpl; [apply runs_at_ret|].
  case_match; [apply runs_at_ret|]. apply runs_at_bind; [|done].
  apply runs_at_step; [apply acts_enqueueCloseOut|]. intros p Hl.
  by apply (step_gc_close_out _ (w_env w) (scopeRef_key ref (rn_namespace r) (rn_name r)) l writer
              (rn_ts r) (rn_uid r) (rn_apiVersion r) p).
Qed.

Lemma runs_emitCloseOuts ref priors worlds :
  ScopeKey_ephemeral (sr_scope ref) = false -> runs (emitCloseOuts ref priors worlds).
Proof.
  intros Heph. unfold emitCloseOuts. destruct priors; [apply runs_ret|].
  apply runs_bind; [|intros; apply runs_ret]. apply runs_retry. intros w. unfold close_out_attempt.
  destruct (e_router _ _); [|apply runs_ret]. apply runs_get. intros l. by apply runs_close_out_loop.
Qed.

Lemma runs_gc_loop w ref l writer i targets acc :
  ScopeKey_ephemeral (sr_scope ref) = false -> runs_at l (gc_loop w ref l writer i targets acc).
Proof.
  intros Heph. revert i acc. induction targets as [|t ts IH]; intros i acc; simpl; [apply runs_at_ret|].
  destruct (w_cancelled w i); [apply runs_at_ret|].
  destruct (e_lister _ _) as [[found active]|]; [|apply runs_at_ret].
  destruct active; simpl; [|apply runs_at_ret]. destruct (still_alive found t); [done|].
  apply runs_at_bind.
  - apply runs_at_step; [apply acts_emitDelete|]. intros p Hl. by constructor.
  - intros [outcome [err|]]; [apply runs_at_ret|]. by case_match.
Qed.

Lemma runs_collectZombies ref seeded worlds last :
  ScopeKey_ephemeral (sr_scope ref) = false -> runs (collectZombies ref seeded worlds last).
Proof.
  intros Heph. revert last. induction worlds as [|w ws IH]; intros last; simpl; [apply runs_ret|].
  apply runs_bind.
  - unfold gcPass. destruct (e_router _ _); [|apply runs_ret]. apply runs_get. intros l.
    by apply runs_gc_loop.
  - intros [result [e|]]; [|apply runs_ret]. case_match; [apply runs_ret|done].
Qed.

Lemma runs_recover ref refused worlds :
  ScopeKey_ephemeral (sr_scope ref) = false -> runs (recoverRefusedReincarnations ref refused worlds).
Proof.
  intros Heph. unfold recoverRefusedReincarnations. destruct refused as [|t ts]; [apply runs_ret|].
  generalize 0. generalize (list_to_set (t :: ts) : gset gcTarget).
  induction worlds as [|[w ews] ws IH]; intros pending n; simpl; [apply runs_ret|].
  destruct (readerFor w _); [|case_match; [apply runs_ret|done]].
  destruct (LastKnownStates _ _); [|done]. destruct (indexIncarnations _) as [rows current].
  destruct (classify_pending _ _ _ _ _) as [pending' found].
  apply runs_bind; [by apply runs_emitCloseOuts|]. intros k. case_decide; [apply runs_ret|done].
Qed.

Lemma runs_warm ref epochStart sc : runs (warm ref epochStart sc).
Proof.
  unfold warm. apply runs_bind; [apply runs_seed|]. intros [[seeded priors]|]; [|apply runs_ret].
  apply runs_bind; [intros p _; apply rtc_once; constructor|]. intros _.
  destruct (ScopeKey_ephemeral (sr_scope ref)) eqn:Heph; [apply runs_ret|].
  case_match; [apply runs_ret|]. case_match; [apply runs_ret|].
  apply runs_bind; [apply runs_active|]. intros [[]|]; try apply runs_ret.
  unfold reconcile_history. apply runs_bind; [by apply runs_emitCloseOuts|]. intros _.
  destruct seeded; [apply runs_ret|]. apply runs_bind; [by apply runs_collectZombies|]. intros pass.
  apply runs_bind; [by apply runs_recover|]. intros n. apply runs_ret.
Qed.
End runs.

(** ** Silence: actions that hand nothing over *)

(** No row, no work-queue call, no remembered close-out. *)
Definition silent {A} (m : M A) : Prop :=
  forall p, ps_jobs (m p).2 = ps_jobs p /\ ps_queue (m p).2 = ps_queue p /\
    forall l, ss_closeOuts (st_at l (m p).2) = ss_closeOuts (st_at l p).

Lemma silent_ret {A} (a : A) : silent (mret a).
Proof. done. Qed.

Lemma silent_bind {A B} (m : M A) (k : A -> M B) : silent m -> (forall a, silent (k a)) -> silent (m ≫= k).
Proof.
  intros Hm Hk p. unfold mbind, state_bind. destruct (Hm p) as (E1 & E2 & E3).
  destruct (m p) as [a p']. destruct (Hk a p') as (F1 & F2 & F3). simpl in *.
  split_and!; [congruence..|]. intros l. by rewrite F3, E3.
Qed.

Lemma silent_st {A} l (f : sinkState -> A * sinkState) :
  (forall s, ss_closeOuts (f s).2 = ss_closeOuts s) -> silent (with_st l f).
Proof.
  intros Hf p. unfold with_st. specialize (Hf (st_at l p)). destruct (f (st_at l p)) as [a s].
  split; [done|]. split; [done|]. intros l'. unfold st_at. simpl.
  destruct (decide (l = l')) as [<-|Hne]; [|by rewrite list_lookup_insert_ne].
  destruct (decide (l < length (ps_states p))) as [Hlt|Hge].
  - by rewrite list_lookup_insert_eq.
  - by rewrite list_insert_ge by lia.
Qed.

Lemma silent_cache {A} l (f : hashCache -> A * hashCache) : silent (with_cache l f).
Proof. apply silent_st. intros s. by destruct (f (ss_cache s)). Qed.

Lemma silent_get id : silent (sinks_get id).
Proof.
  intros p. unfold sinks_get. case_match; [done|]. split; [done|]. split; [done|].
  intros l. unfold st_at. simpl. destruct (decide (l < length (ps_states p))).
  - by rewrite lookup_app_l.
  - rewrite (lookup_ge_None_2 (ps_states p)) by lia. rewrite lookup_app_r by lia.
    by destruct (l - length (ps_states p)).
Qed.

Lemma silent_retry {A} (attempt : world -> M (result warmError A)) worlds :
  (forall w, silent (attempt w)) -> silent (retry attempt worlds).
Proof.
  intros Ha. induction worlds as [|w ws IH]; simpl; [apply silent_ret|].
  apply silent_bind; [done|]. intros [a|e]; [apply silent_ret|]. case_match; [apply silent_ret|done].
Qed.

Lemma silent_seed ref worlds : silent (seedScope ref worlds).
Proof.
  apply silent_retry. intros w. unfold seed_attempt. destruct (readerFor w _); [|apply silent_ret].
  destruct (LastKnownStates _ _) as [states|]; [|apply silent_ret].
  apply silent_bind; [apply silent_get|]. intros st. apply silent_bind; [|intros; apply silent_ret].
  generalize (@nil gcTarget), (@nil reincarnation).
  induction (groupByIdentity states) as [|g gs IH]; intros seeded priors; simpl; [apply silent_ret|].
  destruct (splitIncarnations g) as [[current unclosed]|]; [|apply silent_ret].
  apply silent_bind; [apply silent_cache|done].
Qed.

Lemma silent_mark id scope : silent (MarkScopeWarm id scope).
Proof. apply silent_bind; [apply silent_get|]. intros l. by apply silent_st. Qed.

(** The scope log confirmed, in some world of the retry, that the scope was watched
    before this epoch. *)
Definition epoch_confirmed (ref : scopeRef) (epochStart : Z) (worlds : list world) : Prop :=
  exists w reader, w ∈ worlds /\ readerFor w (sr_sink ref) = Ok reader /\
    ScopeWasActive reader (scopeRef_filter ref (e_clusterID (w_env w))) epochStart = Ok true.

Lemma scopeWasActive_confirmed ref epochStart worlds p :
  (scopeWasActive ref epochStart worlds p).2 = p /\
  ((scopeWasActive ref epochStart worlds p).1 = Ok true -> epoch_confirmed ref epochStart worlds).
Proof.
  unfold scopeWasActive. induction worlds as [|w ws [IH1 IH2]]; simpl; [done|].
  assert (Hcons : epoch_confirmed ref epochStart ws -> epoch_confirmed ref epochStart (w :: ws)).
  { intros (w' & reader & Hw & Hr). exists w', reader. split; [by right|done]. }
  unfold mbind, state_bind, active_attempt.
  destruct (readerFor w (sr_sink ref)) as [reader|e] eqn:Er; simpl.
  - destruct (ScopeWasActive reader _ _) as [[]|reason] eqn:Ea; simpl; [|done|].
    + split; [done|]. intros _. exists w, reader. split; [by left|done].
    + split; [done|]. intros Hx. auto.
  - destruct (permanent e); [done|]. split; [done|]. intros Hx. auto.
Qed.

(** The informers of the scope finished their initial list. *)
Lemma awaitScopeSync_synced ref worlds :
  awaitScopeSync ref worlds = true -> exists w, w ∈ worlds /\ w_synced w (sr_sink ref) (sr_scope ref) = true.
Proof.
  induction worlds as [|w ws IH]; simpl; [done|].
  destruct (w_synced w _ _) eqn:Es; [intros _; exists w; split; [by left|done]|].
  case_match; [done|]. intros (w' & Hw & Hs)%IH. exists w'. split; [by right|done].
Qed.

(** ** The sweep, one target at a time *)

Definition target_key (ref : scopeRef) (t : gcTarget) : Key :=
  scopeRef_key ref (gt_namespace t) (gt_name t).

(** The watch cache of an active scope does not hold this incarnation. *)
Definition dead `{Unstructured} (w : world) (ref : scopeRef) (t : gcTarget) : Prop :=
  exists found, e_lister (w_env w) (target_key ref t) = Ok (found, true) /\ still_alive found t = false.

(** A UID-gated deletion writes a row for that UID only, and changes no entry of
    another incarnation. *)
Lemma emitDelete_gated e key l w uid p :
  l < length (ps_states p) -> uid <> "" ->
  let p1 := (emitDelete e key l w uid p).2 in
  (forall j, j ∈ ps_jobs p1 -> j ∈ ps_jobs p \/ exists ts v, j_Record j = deleted_record e key ts uid v) /\
  (forall k entry, ss_cache (st_at l p) !! k = Some entry -> (k = cacheKey key -> UID entry <> uid) ->
     ss_cache (st_at l p1) !! k = Some entry).
Proof.
  intros Hl Hu. unfold emitDelete, mbind, state_bind, with_cache, with_st. unfold ReserveDelete.
  assert (Hsame : set_states (<[l := set_cache (ss_cache (st_at l p)) (st_at l p)]> (ps_states p)) p = p).
  { by rewrite set_cache_same, write_back. }
  destruct (ss_cache (st_at l p) !! cacheKey key) as [cur|] eqn:Ec; [|simpl; rewrite Hsame; auto].
  destruct (PendingDelete cur); [simpl; rewrite Hsame; auto|].
  case_decide as Hd; [simpl; rewrite Hsame; auto|].
  assert (UID cur = uid) as <- by (destruct (decide (UID cur = uid)); tauto). simpl. unfold enqueue. simpl.
  destruct (w_accepts w _ _); simpl.
  - split.
    + intros j [?| ->%list_elem_of_singleton]%elem_of_app; [by left|]. right. simpl. eauto.
    + intros k entry Hk Hn. rewrite st_at_insert by done. simpl.
      rewrite lookup_insert_ne; [done|]. intros <-. rewrite Ec in Hk. by injection Hk as <-; apply Hn.
  - split; [by left|]. intros k entry Hk Hn. unfold set_states. simpl.
    rewrite !st_at_insert by (rewrite ?length_insert; done). simpl.
    assert (cacheKey key <> k) by (intros <-; rewrite Ec in Hk; by injection Hk as <-; apply Hn).
    autorewrite with kr. by rewrite lookup_insert_ne.
Qed.

Lemma gc_loop_spares `{Unstructured} w ref l writer i targets acc p :
  l < length (ps_states p) -> Forall (fun t => gt_uid t <> "") targets ->
  let p' := (gc_loop w ref l writer i targets acc p).2 in
  (forall j, j ∈ ps_jobs p' -> j ∈ ps_jobs p \/ exists t ts v, t ∈ targets /\ dead w ref t /\
     j_Record j = deleted_record (w_env w) (target_key ref t) ts (gt_uid t) v) /\
  (forall k entry, ss_cache (st_at l p) !! k = Some entry ->
     (forall t, t ∈ targets -> dead w ref t -> cacheKey (target_key ref t) = k -> UID entry <> gt_uid t) ->
     ss_cache (st_at l p') !! k = Some entry).
Proof.
  intros Hl Huids. revert i acc p Hl. induction Huids as [|t ts Hu Huids IH]; intros i acc p Hl; simpl; [auto|].
  destruct (w_cancelled w i); [auto|]. fold (target_key ref t).
  destruct (e_lister (w_env w) (target_key ref t)) as [[found active]|] eqn:El; [|auto].
  destruct active; simpl; [|auto]. destruct (still_alive found t) eqn:Ea.
  { destruct (IH (S i) acc p Hl) as [IH1 IH2]. split.
    - intros j Hj. destruct (IH1 j Hj) as [?|(t' & ts' & v & Hin & Hrest)]; [by left|].
      right. exists t', ts', v. split; [by right|done].
    - intros k entry Hk Hn. apply IH2; [done|]. intros t' Hin. apply Hn. by right. }
  assert (Hdead : dead w ref t) by (exists found; done).
  unfold mbind, state_bind.
  destruct (emitDelete_gated (w_env w) (target_key ref t) l writer (gt_uid t) p Hl Hu) as [Hj1 Hc1].
  pose proof (fr_length _ _ _ (acts_emitDelete (w_env w) (target_key ref t) l writer (gt_uid t) p)) as Hlen.
  destruct (emitDelete (w_env w) (target_key ref t) l writer (gt_uid t) p) as [[outcome err] p1].
  simpl in Hj1, Hc1, Hlen.
  assert (Hfirst : forall k entry, ss_cache (st_at l p) !! k = Some entry ->
     (forall t', t' ∈ t :: ts -> dead w ref t' -> cacheKey (target_key ref t') = k -> UID entry <> gt_uid t') ->
     ss_cache (st_at l p1) !! k = Some entry).
  { intros k entry Hk Hn. apply Hc1; [done|]. intros ->. apply Hn; [by left|done|done]. }
  assert (Hstep : forall acc', let p' := (gc_loop w ref l writer (S i) ts acc' p1).2 in
    (forall j, j ∈ ps_jobs p' -> j ∈ ps_jobs p \/ exists t' ts' v, t' ∈ t :: ts /\ dead w ref t' /\
       j_Record j = deleted_record (w_env w) (target_key ref t') ts' (gt_uid t') v) /\
    (forall k entry, ss_cache (st_at l p) !! k = Some entry ->
       (forall t', t' ∈ t :: ts -> dead w ref t' -> cacheKey (target_key ref t') = k -> UID entry <> gt_uid t') ->
       ss_cache (st_at l p') !! k = Some entry)).
  { intros acc'. destruct (IH (S i) acc' p1) as [IH1 IH2]; [by rewrite Hlen|]. split.
    - intros j Hj. destruct (IH1 j Hj) as [Hold|(t' & ts' & v & Hin & Hrest)].
      + destruct (Hj1 j Hold) as [?|(ts' & v & E)]; [by left|]. right. exists t, ts', v. split; [by left|done].
      + right. exists t', ts', v. split; [by right|done].
    - intros k entry Hk Hn. apply IH2; [by apply Hfirst|]. intros t' Hin. apply Hn. by right. }
  destruct err as [err|]; simpl.
  - split; [|by apply Hfirst]. intros j Hj. destruct (Hj1 j Hj) as [?|(ts' & v & E)]; [by left|].
    right. exists t, ts', v. split; [by left|done].
  - case_match; apply Hstep.
Qed.

(** ** Seeding *)

(** The current incarnation of each identity of the history. *)
Definition currents (groups : list (list KnownState)) : list KnownState :=
  omap (fun g => fst <$> splitIncarnations g) groups.

Definition state_key (ref : scopeRef) (s : KnownState) : string :=
  cacheKey (scopeRef_key ref (ks_Namespace s) (ks_Name s)).

Lemma groups_nonempty states : Forall (fun g => g <> []) (groupByIdentity states).
Proof.
  rewrite groupByIdentity_spec. apply Forall_forall. intros g (id & -> & Hid)%list_elem_of_fmap.
  apply elem_of_first_seen in Hid as (s & Hs & Hid). unfold rows_of. intros Hn.
  assert (s ∈ filter (fun s => identity_of s = id) states) as Hx by (by apply list_elem_of_filter).
  rewrite Hn in Hx. by apply elem_of_nil in Hx.
Qed.

Lemma seed_groups_spec ref l groups seeded priors p :
  l < length (ps_states p) -> Forall (fun g => g <> []) groups ->
  let out := seed_groups ref l groups seeded priors p in
  let c := ss_cache (st_at l p) in
  let c' := ss_cache (st_at l out.2) in
  out.1.1 = seeded ++ map target_of (currents groups) /\
  (forall k entry, c !! k = Some entry -> c' !! k = Some entry) /\
  (forall s, s ∈ currents groups -> is_Some (c' !! state_key ref s)) /\
  (forall k entry, c' !! k = Some entry -> c !! k = Some entry \/
     exists s, s ∈ currents groups /\ k = state_key ref s /\ entry = with_Version 1 (seed_entry s)).
Proof.
  intros Hl Hne. revert seeded priors p Hl. induction Hne as [|g gs Hg Hgs IH]; intros seeded priors p Hl.
  { simpl. rewrite app_nil_r. split_and!; auto. by intros s ?%elem_of_nil. }
  destruct g as [|first rest]; [done|]. simpl. unfold mbind, state_bind. simpl.
  set (current := newest first rest). fold (state_key ref current).
  set (p1 := set_states _ p).
  assert (Hc1 : ss_cache (st_at l p1) = StoreIfAbsent (state_key ref current) (seed_entry current)
                                          (ss_cache (st_at l p))).
  { unfold p1, set_states. by rewrite st_at_insert. }
  destruct (IH (seeded ++ [target_of current])
              (priors ++ map reincarnation_of (filter (fun state => ks_UID state <> ks_UID current) (first :: rest)))
              p1) as (E1 & E2 & E3 & E4).
  { unfold p1. simpl. by rewrite length_insert. }
  rewrite Hc1 in E2, E4. clearbody p1. simpl in *.
  assert (Hkeep : forall k entry, ss_cache (st_at l p) !! k = Some entry ->
            StoreIfAbsent (state_key ref current) (seed_entry current) (ss_cache (st_at l p)) !! k = Some entry).
  { intros k entry Hk. unfold StoreIfAbsent. case_match eqn:Es; [done|].
    rewrite lookup_insert_ne; [done|]. intros <-. congruence. }
  split; [by rewrite E1, <-app_assoc|]. split; [auto|]. split.
  - intros s [->|Hs]%elem_of_cons; [|auto].
    assert (is_Some (StoreIfAbsent (state_key ref current) (seed_entry current) (ss_cache (st_at l p))
                       !! state_key ref current)) as [e He].
    { unfold StoreIfAbsent. case_match eqn:Es; [by eexists|]. rewrite lookup_insert_eq. by eexists. }
    exists e. by apply E2.
  - intros k entry Hk. destruct (E4 k entry Hk) as [Hold|(s & Hs & Hrest)].
    + unfold StoreIfAbsent in Hold. case_match eqn:Es; [by left|].
      apply lookup_insert_Some in Hold as [[<- <-]|[_ ?]]; [|by left]. right.
      exists current. split; [by left|done].
    + right. exists s. split; [by right|done].
Qed.

(** ** Properties *)

(** A warm is nothing but steps of the system. Whatever the sink, the watch
    layer and the retries do, and whatever restriction [ok] the work items processed
    so far obeyed, the state after a warm of any scope is reachable under the same
    restriction, so every invariant of reachable states - row shapes, checkpoint
    spacing, redaction, isolation - covers warm-up, zombie collection and close-out
    recovery too. *)
Theorem warm_is_a_run `{Unstructured, Encoders, ZstdCodec, JsonDiff} ok ref epochStart sc p :
  reachable ok p -> reachable ok (warm ref epochStart sc p).2.
Proof.
  intros Hr. unfold reachable in *. etransitivity; [exact Hr|].
  apply runs_warm. by eapply wf_reachable.
Qed.

(** deletions are never manufactured. A warm hands over no row, remembers no
    close-out and requeues nothing unless the scope is not a Kubernetes Events
    scope and the sink's own scope log answered that the scope was watched before
    this epoch; and the zombie sweep, which compares with the informers, runs only
    after they finished their initial list. *)
Theorem warm_writes_behind_gates `{Unstructured, Encoders, ZstdCodec, JsonDiff} ref epochStart sc p :
  let p' := (warm ref epochStart sc p).2 in
  (ps_jobs p' = ps_jobs p /\ ps_queue p' = ps_queue p /\
   forall l, ss_closeOuts (st_at l p') = ss_closeOuts (st_at l p)) \/
  (ScopeKey_ephemeral (sr_scope ref) = false /\ epoch_confirmed ref epochStart (sc_active sc) /\
   ((exists w, w ∈ sc_sync sc /\ w_synced w (sr_sink ref) (sr_scope ref) = true) \/
    exists priors p0, p' = (emitCloseOuts ref priors (sc_close sc) p0).2)).
Proof.
  intros p'. assert (Hp : (warm ref epochStart sc p).2 = p') by done. clearbody p'. revert Hp.
  unfold warm. unfold mbind at 1, state_bind at 1.
  pose proof (silent_seed ref (sc_seed sc) p) as Hs.
  destruct (seedScope ref (sc_seed sc) p) as [[[seeded priors]|e] p1]; [|intros <-; left; exact Hs].
  unfold mbind at 1, state_bind at 1. pose proof (silent_mark (sr_sink ref) (sr_scope ref) p1) as Hm.
  destruct (MarkScopeWarm (sr_sink ref) (sr_scope ref) p1) as [[] p2]. simpl in Hs, Hm.
  assert (Hsilent : ps_jobs p2 = ps_jobs p /\ ps_queue p2 = ps_queue p /\
            forall l, ss_closeOuts (st_at l p2) = ss_closeOuts (st_at l p)).
  { destruct Hs as (S1 & S2 & S3), Hm as (M1 & M2 & M3). split_and!; [congruence..|].
    intros l. by rewrite M3, S3. }
  destruct (ScopeKey_ephemeral (sr_scope ref)) eqn:Heph; [by intros <-; left|].
  destruct (bool_decide (length seeded = 0) && bool_decide (length priors = 0)); [by intros <-; left|].
  destruct (negb (bool_decide (length seeded = 0)) && negb (awaitScopeSync ref (sc_sync sc))) eqn:Egate;
    [by intros <-; left|].
  unfold mbind at 1, state_bind at 1.
  destruct (scopeWasActive_confirmed ref epochStart (sc_active sc) p2) as [Ep Hact].
  destruct (scopeWasActive ref epochStart (sc_active sc) p2) as [active p3]. simpl in Ep, Hact. subst p3.
  destruct active as [[]|]; [|by intros <-; left..]. intros <-. right. split; [done|]. split; [by apply Hact|].
  destruct seeded as [|t ts].
  - right. exists priors, p2. unfold reconcile_history, mbind, state_bind.
    by destruct (emitCloseOuts ref priors (sc_close sc) p2).
  - left. apply awaitScopeSync_synced. simpl in Egate. by destruct (awaitScopeSync ref (sc_sync sc)).
Qed.

Section samples.
#[local] Existing Instance tree_unstructured.
#[local] Existing Instance sample_encoders.
#[local] Existing Instance framing_codec.
#[local] Existing Instance whole_document_diff.

Definition sample_ref : scopeRef := mkScopeRef sample_sink (mkScopeKey "" "ConfigMap" "ns").

(** A sink whose history holds one object, and whose scope log has an open epoch. *)
Definition sample_reader (uid : string) : StateReader :=
  mkStateReader (fun _ => Ok [mkKnownState "ns" "cm" uid "sha:old" "v1" 3]) (fun _ _ => Ok true)
    (fun _ => Ok []).

Definition sample_world (uid : string) (observation : option object) : world :=
  mkWorld (sample_env (sample_writer 5) observation) (fun _ => Some (sample_reader uid))
    (fun _ _ => true) (fun _ _ => true) (fun _ => false).

Definition sample_schedule (w : world) : schedule := mkSchedule [w] [w] [w] [w] [w] [].

(** The object vanished while the process was down. *)
Definition warmed : pstate :=
  (warm sample_ref 10 (sample_schedule (sample_world "u1" None)) pstate_init).2.

Lemma warm_is_a_run_witness :
  map (fun j => (r_EventType (j_Record j), r_UID (j_Record j))) (ps_jobs warmed) = [("Deleted", "u1")] /\
  reachable (fun _ _ => True) warmed.
Proof.
  split; [vm_compute; reflexivity|]. apply warm_is_a_run. apply rtc_refl.
Defined.
End samples.

(** C35: the zombie sweep never touches a live object. Every row a sweep hands over
    is a Deleted row, under the UID history recorded, of a target the watch cache
    of an active scope does not hold under that UID; and a cached entry is left
    exactly as it is unless it is the very incarnation such a target names - in
    particular the entry of a live successor survives. *)
Theorem gc_pass_spares_live `{Unstructured} ref seeded w l p :
  mounted p (sr_sink ref) l -> Forall (fun t => gt_uid t <> "") seeded ->
  let p' := (gcPass ref seeded w p).2 in
  (forall j, j ∈ ps_jobs p' -> j ∈ ps_jobs p \/ exists t ts v, t ∈ seeded /\ dead w ref t /\
     j_Record j = deleted_record (w_env w) (target_key ref t) ts (gt_uid t) v) /\
  (forall k entry, ss_cache (st_at l p) !! k = Some entry ->
     (forall t, t ∈ seeded -> dead w ref t -> cacheKey (target_key ref t) = k -> UID entry <> gt_uid t) ->
     ss_cache (st_at l p') !! k = Some entry).
Proof.
  intros [Hm Hl] Huids. unfold gcPass. destruct (e_router (w_env w) (sr_sink ref)) as [writer|]; [|simpl; auto].
  unfold mbind, state_bind, sinks_get. rewrite Hm. by apply gc_loop_spares.
Qed.

Lemma gc_pass_spares_live_witness :
  let p := sample_seen (sample_writer 5) in
  let w := sample_world "u0" (Some (config_map "u1" "a")) in
  let p' := (@gcPass tree_unstructured sample_ref [mkGCTarget "ns" "cm" "u0"] w p).2 in
  cached sample_key 0 p' = cached sample_key 0 p /\ is_Some (cached sample_key 0 p).
Proof.
  intros p w p'. destruct (cached sample_key 0 p) as [entry|] eqn:Ec; [|vm_compute in Ec; discriminate].
  split; [|by eexists].
  refine (proj2 (@gc_pass_spares_live tree_unstructured sample_ref [mkGCTarget "ns" "cm" "u0"] w 0 p _ _)
            (cacheKey sample_key) entry Ec _).
  - split; [vm_compute; reflexivity|]. apply Nat.ltb_lt. vm_compute. reflexivity.
  - constructor; [discriminate|constructor].
  - intros t Ht _ _. apply list_elem_of_singleton in Ht. subst t.
    vm_compute in Ec. injection Ec as <-. vm_compute. discriminate.
Defined.

(** A restart is silent. A successful seeding attempt hands nothing over and
    never changes an entry a worker already recorded; it leaves an entry for the
    current incarnation of every identity in the history, with no baseline; and an
    object that history holds under the same UID and hash is deduplicated when it
    is next observed, instead of being recorded again. *)
Theorem restart_is_silent `{Unstructured, Encoders, ZstdCodec, JsonDiff} ref w reader states l p :
  readerFor w (sr_sink ref) = Ok reader ->
  LastKnownStates reader (scopeRef_filter ref (e_clusterID (w_env w))) = Ok states ->
  mounted p (sr_sink ref) l ->
  let current := currents (groupByIdentity states) in
  exists priors p', seed_attempt ref w p = (Ok (map target_of current, priors), p') /\
    ps_jobs p' = ps_jobs p /\ ps_queue p' = ps_queue p /\
    (forall k entry, ss_cache (st_at l p) !! k = Some entry -> ss_cache (st_at l p') !! k = Some entry) /\
    (forall s, s ∈ current -> is_Some (ss_cache (st_at l p') !! state_key ref s)) /\
    (forall e key wr norm, sighted e key wr norm l p' -> cached key l p = None ->
       (exists s, s ∈ current /\ state_key ref s = cacheKey key) ->
       (forall s, s ∈ current -> state_key ref s = cacheKey key ->
          ks_UID s = no_UID norm /\ ks_SHA256 s = no_Hash norm) ->
       processNext e key p' = (true, queued (QForget key) p')).
Proof.
  intros Hr Hs [Hm Hl] current.
  destruct (seed_groups_spec ref l (groupByIdentity states) [] [] p Hl (groups_nonempty states))
    as (E1 & E2 & E3 & E4).
  pose proof (silent_seed ref [w] p) as Hsil. unfold seedScope in Hsil. simpl in Hsil.
  assert (E : seed_attempt ref w p =
            (Ok (seed_groups ref l (groupByIdentity states) [] [] p).1,
             (seed_groups ref l (groupByIdentity states) [] [] p).2)).
  { unfold seed_attempt. rewrite Hr, Hs. unfold mbind, state_bind, sinks_get. rewrite Hm.
    by destruct (seed_groups _ _ _ _ _ _). }
  unfold mbind, state_bind in Hsil. rewrite E in Hsil. rewrite E.
  destruct (seed_groups ref l (groupByIdentity states) [] [] p) as [[seeded priors] p']. simpl in *.
  subst seeded. exists priors, p'. destruct Hsil as (J & Q & _).
  split; [done|]. split; [done|]. split; [done|]. split; [done|]. split; [done|].
  intros e key wr norm Hsg Hc (s & Hin & Hk) Hall. destruct (E3 s Hin) as [entry He].
  rewrite Hk in He. destruct (E4 _ _ He) as [Hold|(s' & Hin' & Hk' & ->)].
  { unfold cached in Hc. congruence. }
  destruct (Hall s' Hin' (eq_sym Hk')) as [HU HH].
  unfold processNext, mbind, state_bind.
  rewrite (Process_unchanged e key wr norm l p' _ Hsg He); [done|by right|done].
Qed.

Lemma restart_is_silent_witness :
  let w := sample_world "u1" None in
  let p := (sinks_get sample_sink pstate_init).2 in
  exists priors p', @seed_attempt sample_ref w p = (Ok ([mkGCTarget "ns" "cm" "u1"], priors), p') /\
    is_Some (cached sample_key 0 p').
Proof.
  intros w p.
  destruct (@restart_is_silent tree_unstructured sample_encoders framing_codec whole_document_diff
              sample_ref w (sample_reader "u1") [mkKnownState "ns" "cm" "u1" "sha:old" "v1" 3] 0 p)
    as (priors & p' & E & _ & _ & _ & Hs & _).
  - reflexivity.
  - reflexivity.
  - split; [vm_compute; reflexivity|]. apply Nat.ltb_lt. vm_compute. reflexivity.
  - exists priors, p'. split; [exact E|].
    exact (Hs (mkKnownState "ns" "cm" "u1" "sha:old" "v1" 3) ltac:(apply list_elem_of_here)).
Defined.

(** Boot reconciliation tells the truth about scopes. It hands over nothing
    but Stopped events; when it succeeds there is exactly one for each scope the
    sink's log shows open and no rule wants, in order, none for a scope still
    wanted; a sink that cannot read its history gets none. *)
Theorem boot_closes_only_orphans b id :
  let '(outcome, events, writerOnly) := closeOrphanedScopes b id in
  Forall (fun ev => se_Action ev = ScopeActionStopped /\
                    w_desired (bw_world b) id (scope_of_filter (se_Scope ev)) = false) events /\
  (writerOnly = true -> outcome = Ok tt /\ events = []) /\
  (outcome = Ok tt -> writerOnly = false -> exists reader scopes,
     readerFor (bw_world b) id = Ok reader /\
     ActiveScopes reader (e_clusterID (w_env (bw_world b))) = Ok scopes /\
     map se_Scope events = filter (fun f => w_desired (bw_world b) id (scope_of_filter f) = false) scopes).
Proof.
  assert (Hloop : forall accepts filters closed,
    let out := close_scopes b id accepts filters closed in
    exists new, out.2 = closed ++ new /\
      Forall (fun ev => se_Action ev = ScopeActionStopped /\
                        w_desired (bw_world b) id (scope_of_filter (se_Scope ev)) = false) new /\
      (out.1 = Ok tt ->
       map se_Scope new = filter (fun f => w_desired (bw_world b) id (scope_of_filter f) = false) filters)).
  { intros accepts filters. induction filters as [|f fs IH]; intros closed; simpl.
    - exists []. by rewrite app_nil_r.
    - destruct (w_desired (bw_world b) id (scope_of_filter f)) eqn:Ed.
      + destruct (IH closed) as (new & E & Hf & Hm). exists new. split_and!; [done..|].
        rewrite filter_cons_False by congruence. done.
      + destruct (accepts _); cycle 1.
        { exists []. rewrite app_nil_r. split_and!; [done|constructor|done]. }
        destruct (IH (closed ++ [stopped_event f (bw_now b (length closed))])) as (new & E & Hf & Hm).
        eexists (_ :: new). rewrite E, <-app_assoc. split; [done|]. split; [by constructor|].
        intros Hok. simpl. rewrite filter_cons_True by done. by rewrite Hm. }
  unfold closeOrphanedScopes. destruct (readerFor (bw_world b) id) as [reader|e].
  - destruct (bw_events b id) as [accepts|]; [|by split_and!].
    destruct (ActiveScopes reader _) as [scopes|] eqn:Ea; [|by split_and!].
    destruct (Hloop accepts scopes []) as (new & E & Hf & Hm).
    destruct (close_scopes b id accepts scopes []) as [outcome events]. simpl in *. subst events.
    split; [done|]. split; [done|]. intros Hok _. exists reader, scopes. auto.
  - destruct e; by split_and!.
Qed.
