(* ===== verification/Invariants.v ===== *)
(** * Invariants: what holds of every row and cache entry in every reachable state

    Instances of the invariant family of [System]: the shape of the rows a sink is
    handed, the bound that checkpoints put on a run of diff-only rows, and the
    absence of redacted values from everything that leaves the pipeline. *)

From S2P Require Import Prelude Identity HashCache GoJson Redact Normalize Coalesce SinkTypes Diff Process Samples System.

Section invariants.
Context `{Unstructured, Encoders, ZstdCodec, JsonDiff}.

(** Everything the pipeline has handed over or owes: rows in flight, and
    close-outs awaiting their retry. *)
Definition emitted (p : pstate) (r : Record_) : Prop :=
  (exists j, j ∈ ps_jobs p /\ j_Record j = r) \/
  (exists s k l, s ∈ ps_states p /\ ss_closeOuts s !! k = Some l /\ r ∈ l).

Lemma good_emitted R E p r : good R E p -> emitted p r -> R r.
Proof.
  intros [Hs Hj] [(j & Hin & <-)|(s & k & l & Hin & Hl & Hr)].
  - rewrite Forall_forall in Hj. by apply Hj.
  - rewrite Forall_forall in Hs. destruct (Hs _ Hin) as [_ Hq]. specialize (Hq _ _ Hl).
    rewrite Forall_forall in Hq. auto.
Qed.

Lemma good_entry R E p s k entry :
  good R E p -> s ∈ ps_states p -> ss_cache s !! k = Some entry -> E k entry.
Proof.
  intros [Hs _] Hin Hl. rewrite Forall_forall in Hs. destruct (Hs _ Hin) as [Hc _]. by apply Hc.
Qed.

(** ** The decision ladder *)

(** The three kinds of row a changed object produces. *)
Inductive ladder (w : Writer) (ephemeral : bool) (cached : CacheEntry) (norm : normalizedObject)
    : decision -> Prop :=
| ladder_full : ladder w ephemeral cached norm (mkDecision "Modified" "" true 0 (Some cached))
| ladder_checkpoint old patch reason :
    ephemeral = false -> is_Some (JSON cached) -> decodeBaseline cached = Ok old ->
    ComputeDiff (default "" old) (no_JSON norm) = Ok patch ->
    checkpointDue (checkpointEveryFor (w_checkpointEvery w)) (ModifiedSinceCheckpoint cached + 1)
      patch (no_JSON norm) = Some reason ->
    ladder w ephemeral cached norm (mkDecision "Checkpoint" patch true 0 (Some cached))
| ladder_diff old patch :
    ephemeral = false -> is_Some (JSON cached) -> decodeBaseline cached = Ok old ->
    ComputeDiff (default "" old) (no_JSON norm) = Ok patch ->
    checkpointDue (checkpointEveryFor (w_checkpointEvery w)) (ModifiedSinceCheckpoint cached + 1)
      patch (no_JSON norm) = None ->
    ladder w ephemeral cached norm
      (mkDecision "Modified" patch false (ModifiedSinceCheckpoint cached + 1) (Some cached)).

Lemma modified_ladder w ephemeral cached norm :
  ladder w ephemeral cached norm (modified_decision w ephemeral cached norm).
Proof.
  unfold modified_decision. destruct ephemeral; [constructor|].
  destruct (JSON cached) eqn:EJ; [|constructor].
  destruct (decodeBaseline cached) as [old|] eqn:Ed; [|constructor].
  destruct (ComputeDiff _ _) as [patch|] eqn:Ec; [|constructor].
  destruct (checkpointDue _ _ _ _) eqn:Ek; econstructor; eauto.
Qed.

Lemma observed_json e key norm :
  observed e key norm ->
  exists o, json_marshal o = Some (no_JSON norm) /\ no_Hash norm = sha256_hex (no_JSON norm).
Proof.
  intros (obj & policy & _ & Hn). unfold normalizeObject in Hn.
  destruct (Apply _ _) as [o|]; [|done]. destruct (json_marshal o) eqn:Em; [|done].
  injection Hn as <-. by exists o.
Qed.

(** ** Row shape *)

(** A row holding the whole object: its bytes, hashed. *)
Definition full_row (r : Record_) : Prop :=
  (exists o, json_marshal o = Some (r_Data r)) /\ r_SHA256 r = sha256_hex (r_Data r).

Definition is_event_row (r : Record_) : bool := ephemeralKind (r_APIGroup r) (r_Kind r).

(** The five event types and what each carries. *)
Inductive row_shape (r : Record_) : Prop :=
| shape_full : r_EventType r = "Added" \/ r_EventType r = "Snapshot" /\ is_event_row r = false ->
    full_row r -> r_Diff r = "" -> row_shape r
| shape_modified_full : r_EventType r = "Modified" -> full_row r -> r_Diff r = "" -> row_shape r
| shape_modified_diff old new :
    r_EventType r = "Modified" -> is_event_row r = false -> r_Data r = "" ->
    ComputeDiff old new = Ok (r_Diff r) -> r_SHA256 r = sha256_hex new -> row_shape r
| shape_checkpoint old :
    r_EventType r = "Checkpoint" -> is_event_row r = false -> full_row r ->
    ComputeDiff old (r_Data r) = Ok (r_Diff r) -> row_shape r
| shape_deleted :
    r_EventType r = "Deleted" -> is_event_row r = false ->
    r_Data r = "" -> r_Diff r = "" -> r_SHA256 r = "" -> r_Actors r = [] -> row_shape r.

(** An entry that retains a baseline is not an Event's. *)
Definition baseline_owner (k : string) (entry : CacheEntry) : Prop :=
  is_Some (JSON entry) -> exists key, cacheKey key = k /\ Key_ephemeral key = false.

Lemma confirmed_owner key norm run :
  baseline_owner (cacheKey key) (confirmed_entry (Key_ephemeral key) norm run).
Proof.
  unfold baseline_owner, confirmed_entry. destruct (Key_ephemeral key) eqn:Eph; simpl.
  - by intros [].
  - intros _. by exists key.
Qed.

Lemma shape_policy : row_policy (fun _ _ => True) row_shape baseline_owner.
Proof.
  split.
  - done.
  - done.
  - intros k hash uid [? Hn]. done.
  - intros e key ts uid v Heph. by apply shape_deleted.
  - intros e key norm et ts _ Hobs Het. split; [|apply confirmed_owner].
    destruct (observed_json _ _ _ Hobs) as (o & Hm & Hh).
    apply shape_full; [done| |done]. split; [by exists o|done].
  - intros e key norm w cached ts _ Hobs _ _. split; [|apply confirmed_owner].
    destruct (observed_json _ _ _ Hobs) as (o & Hm & Hh).
    destruct (modified_ladder w (Key_ephemeral key) cached norm) as
      [|old patch reason Heph _ _ Hd _|old patch Heph _ _ Hd _].
    + apply shape_modified_full; [done| |done]. split; [by exists o|done].
    + eapply shape_checkpoint; [done|done| |done]. split; [by exists o|done].
    + by eapply shape_modified_diff.
Qed.

(** ** Checkpoint spacing *)

Definition run_below (n : Z) (_ : string) (entry : CacheEntry) : Prop :=
  (0 <= ModifiedSinceCheckpoint entry < n)%Z.

(** Every writer asks for a Checkpoint at least every [n] changes. *)
Definition checkpoints_every (n : Z) (e : env) (key : Key) : Prop :=
  forall w, e_router e (k_Sink key) = Some w ->
    (0 < checkpointEveryFor (w_checkpointEvery w) <= n)%Z.

Lemma confirmed_run ephemeral norm run :
  ModifiedSinceCheckpoint (confirmed_entry ephemeral norm run) = run.
Proof.
  unfold confirmed_entry. destruct ephemeral; [done|].
  by destruct (compressBaseline (no_JSON norm)) as [[d enc] ok].
Qed.

Lemma run_policy n :
  (0 < n)%Z -> row_policy (checkpoints_every n) (fun _ => True) (run_below n).
Proof.
  intros Hn. unfold run_below. split; [by intros v k []|by intros b k []|..|].
  - intros. simpl. lia.
  - done.
  - intros. rewrite confirmed_run. split; [done|lia].
  - intros e key norm w cached ts Hok _ Hw Hc d. rewrite confirmed_run. split; [done|].
    destruct (modified_ladder w (Key_ephemeral key) cached norm) as
      [|old patch reason|old patch _ _ _ _ Hk]; simpl; [lia..|].
    specialize (Hok w Hw). unfold checkpointDue in Hk. repeat case_decide; try done; lia.
Qed.

(** ** Redaction *)

Section redaction.
Context `{!ZstdLaws}.
Context (group kind : string) (path : redactionPath).

(** Bytes that are the marshalling of an object scrubbed at [path]. *)
Definition clean (b : string) : Prop :=
  exists o, json_marshal o = Some b /\ scrubbed (rp_segments path) (JObj o).

(** Keys are well-formed, and every policy in force for the type has the path. *)
Definition redacts (e : env) (key : Key) : Prop :=
  wf_Key key /\
  (k_Group key = group -> k_Kind key = kind -> forall policy, redactionFor e key = Some policy ->
     wf_policy policy /\ path ∈ rp_paths (default builtinRedaction policy)).

Definition clean_row (r : Record_) : Prop :=
  r_APIGroup r = group -> r_Kind r = kind ->
  (r_Data r = "" \/ clean (r_Data r)) /\
  (r_Diff r = "" \/ exists old new, clean old /\ clean new /\ ComputeDiff old new = Ok (r_Diff r)).

Definition clean_entry (k : string) (entry : CacheEntry) : Prop :=
  forall key baseline, wf_Key key -> cacheKey key = k -> k_Group key = group -> k_Kind key = kind ->
    decodeBaseline entry = Ok (Some baseline) -> clean baseline.

Lemma observed_clean e key norm :
  redacts e key -> k_Group key = group -> k_Kind key = kind -> observed e key norm ->
  clean (no_JSON norm).
Proof.
  intros [_ Hred] Hg Hk (obj & policy & Hp & Hn). destruct (Hred Hg Hk policy Hp) as [Hwf Hin].
  unfold normalizeObject, Apply in Hn.
  destruct (apply_paths_spec _ (stripVolatileFields obj (hasActorsAnnotation obj)) Hwf)
    as (o & Ha & Es). rewrite Ha in Hn.
  destruct (json_marshal o) eqn:Em; [|done]. injection Hn as <-. exists o. split; [done|].
  rewrite Es. by apply scrub_all_scrubbed.
Qed.

Lemma confirmed_baseline ephemeral norm run b :
  decodeBaseline (confirmed_entry ephemeral norm run) = Ok (Some b) -> b = no_JSON norm.
Proof.
  unfold confirmed_entry. destruct ephemeral; [done|].
  unfold compressBaseline, decodeBaseline. destruct zstdEncoder as [encode|] eqn:Henc; simpl.
  - case_decide as Hne; simpl; [by intros [= <-]|]. rewrite (zstd_frame encode _ Henc Hne). simpl.
    destruct zstdDecoder as [decode|] eqn:Hdec; [|done].
    rewrite (zstd_roundtrip encode decode _ Henc Hdec Hne). by intros [= <-].
  - by intros [= <-].
Qed.

Lemma confirmed_clean e key norm run :
  redacts e key -> observed e key norm ->
  clean_entry (cacheKey key) (confirmed_entry (Key_ephemeral key) norm run).
Proof.
  intros Hred Hobs key' b Hwf' Heq Hg Hk Hd. apply confirmed_baseline in Hd as ->.
  pose proof (proj1 Hred) as Hwf. apply cacheKey_eq_iff in Heq as (Eg & Ek & _); [|done..].
  eapply observed_clean; [done|congruence..|done].
Qed.

Lemma redaction_policy : row_policy redacts clean_row clean_entry.
Proof.
  split; try done.
  - intros e key ts uid v Heph Hg Hk. split; by left.
  - intros e key norm et ts Hred Hobs _. split; [|by eapply confirmed_clean].
    intros Hg Hk. split; [right|by left]. by eapply observed_clean.
  - intros e key norm w cached ts Hred Hobs _ Hc. split; [|by eapply confirmed_clean].
    intros Hg Hk. simpl in Hg, Hk.
    assert (Hnew : clean (no_JSON norm)) by by eapply observed_clean.
    assert (Hold : forall old, is_Some (JSON cached) -> decodeBaseline cached = Ok old ->
                     clean (default "" old)).
    { intros [old|] HJ Hd; [exact (Hc key old (proj1 Hred) eq_refl Hg Hk Hd)|].
      exfalso. destruct HJ as [data HJ]. unfold decodeBaseline in Hd. rewrite HJ in Hd.
      by repeat case_match. }
    destruct (modified_ladder w (Key_ephemeral key) cached norm) as
      [|old patch reason Heph HJ Hb Hd _|old patch Heph HJ Hb Hd _]; simpl.
    + auto.
    + split; [by right|]. right. exists (default "" old), (no_JSON norm). auto.
    + split; [by left|]. right. exists (default "" old), (no_JSON norm). auto.
Qed.
End redaction.
End invariants.

(** ** Properties *)

(** C27: whatever happens - refused and failed writes, out-of-order settlements,
    evictions, removed sinks, restarts of a scope - every row handed to a sink or
    awaiting a retry has the shape of its event type: the full object with the
    hash of exactly those bytes, a patch that [ComputeDiff] accepted with the hash
    of its target, both, or nothing for a Deleted row; Kubernetes Events are never
    Deleted, Snapshot, Checkpoint or diff-only rows; and a cached entry that
    retains a baseline is never an Event's. *)
Theorem rows_well_formed `{Unstructured, Encoders, ZstdCodec, JsonDiff} p :
  reachable (fun _ _ => True) p ->
  (forall r, emitted p r -> row_shape r) /\
  (forall s k entry, s ∈ ps_states p -> ss_cache s !! k = Some entry -> baseline_owner k entry).
Proof.
  intros Hr. pose proof (good_reachable shape_policy p Hr) as Hg.
  split; intros; [by eapply good_emitted|by eapply good_entry].
Qed.

Section samples.
#[local] Existing Instance tree_unstructured.
#[local] Existing Instance sample_encoders.
#[local] Existing Instance framing_codec.
#[local] Existing Instance whole_document_diff.

(** The states after an object appears, changes, and vanishes. *)
Definition appeared (w : Writer) : pstate :=
  (processNext (sample_env w (Some (config_map "u1" "a"))) sample_key pstate_init).2.
Definition changed (w : Writer) : pstate :=
  (processNext (sample_env w (Some (config_map "u1" "b"))) sample_key (appeared w)).2.
Definition vanished (w : Writer) : pstate :=
  (processNext (sample_env w None) sample_key (changed w)).2.

Lemma reachable_changed ok w :
  (forall observation, ok (sample_env w observation) sample_key) -> reachable ok (changed w).
Proof.
  intros Hok. unfold changed, appeared, reachable.
  eapply rtc_l; apply rtc_once || idtac; by apply step_process.
Qed.

Lemma reachable_vanished ok w :
  (forall observation, ok (sample_env w observation) sample_key) -> reachable ok (vanished w).
Proof. intros Hok. eapply rtc_r; [by apply reachable_changed|]. by apply step_process. Qed.

Lemma rows_well_formed_witness :
  map (fun j => r_EventType (j_Record j)) (ps_jobs (vanished (sample_writer 2))) =
    ["Snapshot"; "Modified"; "Deleted"] /\
  Forall (fun j => row_shape (j_Record j)) (ps_jobs (vanished (sample_writer 2))).
Proof.
  split; [vm_compute; reflexivity|]. apply Forall_forall. intros j Hj.
  apply (proj1 (rows_well_formed (vanished (sample_writer 2))
                  (reachable_vanished (fun _ _ => True) _ (fun _ => Logic.I)))).
  left. by exists j.
Defined.
End samples.

(** The counter a checkpoint is decided by. When every writer asks for one at least every
    [n] changes, no reachable cache entry counts [n] rows, through failed writes, reverts,
    out-of-order settlements and restarts. ([History.replay_is_bounded] says what that is
    worth to a reader of the rows.) *)
Theorem checkpoint_spacing `{Unstructured, Encoders, ZstdCodec, JsonDiff} n p s k entry :
  (0 < n)%Z -> reachable (checkpoints_every n) p ->
  s ∈ ps_states p -> ss_cache s !! k = Some entry ->
  (0 <= ModifiedSinceCheckpoint entry < n)%Z.
Proof.
  intros Hn Hr Hs Hk. exact (good_entry _ _ p s k entry (good_reachable (run_policy n Hn) p Hr) Hs Hk).
Qed.

Lemma checkpoint_spacing_witness :
  let p := changed (sample_writer 2) in
  exists s entry, s ∈ ps_states p /\ ss_cache s !! cacheKey sample_key = Some entry /\
    ModifiedSinceCheckpoint entry = 1%Z /\ (0 <= ModifiedSinceCheckpoint entry < 2)%Z.
Proof.
  intros p. destruct (ps_states p) as [|s [|? ?]] eqn:Es; [vm_compute in Es; discriminate| |vm_compute in Es; discriminate].
  destruct (ss_cache s !! cacheKey sample_key) as [entry|] eqn:Ee; cycle 1.
  { exfalso. vm_compute in Es. injection Es as <-. vm_compute in Ee. discriminate. }
  exists s, entry. split; [|split; [|split]].
  - rewrite ?Es. apply list_elem_of_here.
  - exact Ee.
  - vm_compute in Es. injection Es as <-. vm_compute in Ee. injection Ee as <-. reflexivity.
  - apply (@checkpoint_spacing tree_unstructured sample_encoders framing_codec whole_document_diff
             2 p s (cacheKey sample_key) entry); [reflexivity| | |exact Ee].
    + apply reachable_changed. intros o w [= <-]. vm_compute. split; [reflexivity|discriminate].
    + rewrite Es. apply list_elem_of_here.
Defined.

(** No redacted value reaches a sink. When every policy in force for a type
    contains [path], then in every reachable state each row of the type that was
    handed over or is awaiting a retry carries at most the bytes of an object in
    which everything [path] reaches is the sentinel, and a patch computed between
    two such texts; cached baselines, from which later patches are computed, are
    such texts too. *)
Theorem redacted_values_never_emitted
    `{Unstructured, Encoders, ZstdCodec, !ZstdLaws, JsonDiff} group kind path p :
  reachable (redacts group kind path) p ->
  (forall r, emitted p r -> clean_row group kind path r) /\
  (forall s k entry, s ∈ ps_states p -> ss_cache s !! k = Some entry ->
     clean_entry group kind path k entry).
Proof.
  intros Hr. pose proof (good_reachable (redaction_policy group kind path) p Hr) as Hg.
  split; intros; [by eapply good_emitted|by eapply good_entry].
Qed.

Lemma redacted_values_never_emitted_witness :
  let p := vanished (sample_writer 2) in
  Forall (fun j => @clean_row sample_encoders whole_document_diff "" "ConfigMap" builtinPath
                     (j_Record j)) (ps_jobs p).
Proof.
  intros p. apply Forall_forall. intros j Hj.
  apply (proj1 (@redacted_values_never_emitted tree_unstructured sample_encoders framing_codec _
                  whole_document_diff "" "ConfigMap" builtinPath p
                  (reachable_vanished (redacts "" "ConfigMap" builtinPath) (sample_writer 2)
                     ltac:(intros o; split; [repeat split|];
                           intros _ _ policy [= <-]; split;
                           [repeat constructor; discriminate|apply list_elem_of_here])))).
  left. exists j. split; [exact Hj|reflexivity].
Defined.
