(* ===== verification/EndToEnd.v ===== *)
(** * EndToEnd: from the rules to the rows

    Composes the registry, the watch manager and the pipeline: work items are
    processed against environments whose lister and redaction registry are those of
    a watch manager that reconciled the rules. *)

From S2P Require Import Prelude Identity HashCache Plan GoJson Redact RedactParse EventFilter Interest Watch WatchSpec Normalize Coalesce SinkTypes Diff Process Samples ProcessSpec System Invariants QueryFilter Pointer.

(** ** Policies of compiled interests *)

Section policies.
Context `{Strconv}.

(** Every path of the policy is the parse of its text. *)
Definition parsed_policy (p : option RedactionPolicy) : Prop :=
  match p with
  | None => True
  | Some q => Forall (fun path => parseRedactionPath (rp_raw path) = Ok path) (rp_paths q)
  end.

Lemma compiled_parsed paths p : CompileRedaction paths = Ok p -> parsed_policy (Some p).
Proof.
  unfold CompileRedaction. destruct (compile_loop ∅ _) as [ps|] eqn:E; simpl; [|done]. intros [= <-].
  apply compile_loop_Ok in E as (Hf & _). simpl. unfold sort_paths. rewrite merge_sort_Permutation.
  eapply Forall_impl; [exact Hf|]. naive_solver.
Qed.

Lemma compiled_has paths p raw path :
  CompileRedaction paths = Ok p -> raw ∈ paths -> parseRedactionPath raw = Ok path -> path ∈ rp_paths p.
Proof.
  intros Hc Hr Hp. pose proof (compiled_parsed _ _ Hc) as Hf. simpl in Hf. rewrite Forall_forall in Hf.
  unfold CompileRedaction in Hc. destruct (compile_loop ∅ _) as [ps|] eqn:E; simpl in Hc; [|done].
  injection Hc as <-. apply compile_loop_Ok in E as (_ & _ & Hall & _).
  assert (Hin : raw ∈ map rp_raw ps) by (apply Hall; set_solver).
  apply list_elem_of_fmap in Hin as (q & -> & Hq). simpl in *. apply elem_of_sort_paths in Hq.
  pose proof (Hf q Hq). congruence.
Qed.

Lemma elem_of_collect raws seen raw :
  raw ∈ collect_redactions raws seen <-> raw ∈ raws /\ raw <> "" /\ raw ∉ seen.
Proof.
  revert seen. induction raws as [|x raws IH]; intros seen; simpl; [by rewrite elem_of_nil; naive_solver|].
  rewrite elem_of_cons. repeat case_bool_decide; subst.
  - rewrite IH. naive_solver.
  - rewrite IH. naive_solver.
  - rewrite elem_of_cons, IH, not_elem_of_union, elem_of_singleton.
    destruct (decide (raw = x)); naive_solver.
Qed.

Lemma redaction_set_has redactions policy text raw path :
  compile_redaction_set redactions = Ok policy -> text ∈ redactions -> raw ∈ split_on newline text ->
  raw <> "" -> parseRedactionPath raw = Ok path ->
  exists q, policy = Some q /\ path ∈ rp_paths q.
Proof.
  intros Hc Ht Hr Hne Hp.
  assert (Hin : raw ∈ redactionPaths redactions).
  { unfold redactionPaths. rewrite merge_sort_Permutation, elem_of_collect.
    split_and!; [|done|apply not_elem_of_empty]. apply list_elem_of_bind. eauto. }
  unfold compile_redaction_set in Hc. case_bool_decide as Hl.
  - destruct (CompileRedaction _) as [q|] eqn:E; [|done]. injection Hc as <-. exists q.
    split; [done|]. by eapply compiled_has.
  - destruct (redactionPaths redactions); [by apply elem_of_nil in Hin|]. simpl in Hl. lia.
Qed.

Lemma redaction_set_parsed redactions policy :
  compile_redaction_set redactions = Ok policy -> parsed_policy policy.
Proof.
  unfold compile_redaction_set. case_bool_decide; [|by intros [= <-]].
  destruct (CompileRedaction _) eqn:E; [|done]. intros [= <-]. by eapply compiled_parsed.
Qed.

Lemma parsed_wf q : parsed_policy (Some q) -> wf_policy (Some q).
Proof.
  unfold wf_policy. simpl. intros Hf. eapply Forall_impl; [exact Hf|]. intros path Hp. by apply parse_path_spec in Hp as [_ ?].
Qed.

(** The union of parsed policies that all have a path is parsed and has it. *)
Lemma merged_has policies path :
  policies <> [] -> Forall (fun p => exists q, p = Some q /\ parsed_policy p /\ path ∈ rp_paths q) policies ->
  exists q, MergeRedaction policies = Some q /\ parsed_policy (Some q) /\ path ∈ rp_paths q.
Proof.
  intros Hne Hall. rewrite Forall_forall in Hall.
  assert (Hparse : forall x, x ∈ policy_paths policies -> parseRedactionPath (rp_raw x) = Ok x).
  { intros x (q & Hq & Hx)%elem_of_policy_paths. destruct (Hall _ Hq) as (q' & [= <-] & Hp & _).
    simpl in Hp. rewrite Forall_forall in Hp. by apply Hp. }
  assert (Hd : texts_determine (policy_paths policies)).
  { intros x y Hx Hy E. pose proof (Hparse x Hx). pose proof (Hparse y Hy). congruence. }
  assert (Hin : path ∈ collect_paths ∅ (policy_paths policies)).
  { apply elem_of_collect_paths; [done|]. destruct policies as [|p rest]; [done|].
    destruct (Hall p) as (q & -> & _ & Hq); [left|]. apply elem_of_policy_paths. exists q. split; [left|done]. }
  unfold MergeRedaction. destruct (collect_paths ∅ _) as [|a l] eqn:E; [by apply elem_of_nil in Hin|].
  eexists. split; [done|]. split; [|by apply elem_of_sort_paths]. simpl. apply Forall_forall.
  intros x Hx. rewrite elem_of_sort_paths, <-E in Hx. apply Hparse.
  by apply collect_paths_sub in Hx as [? _].
Qed.
End policies.

Section watched.
Context `{Selectors, LabelSelectors, Strconv, FilterCodec, FieldSelectors, Schema}.

(** Every rule's target of the type asks for the path. *)
Definition rules_ask (ops : list registry_op) (group kind raw : string) : Prop :=
  forall rule t, t ∈ asked_after ops rule -> gvk_Group (wt_GVK t) = group -> gvk_Kind (wt_GVK t) = kind ->
    raw ∈ split_on newline (wt_Redaction t).

(** A manager that has just reconciled the rules, whatever it did before. *)
Definition reconciled (ops : list registry_op) (m : WatchManager) : Prop :=
  exists ws x, Forall valid_wake ws /\ resolves_distinctly (in_resolve x) /\
    in_snapshot x = Snapshot (run_all ops) /\ m = (reconcilePool x (run_wakes ws manager_New).2).2.

Lemma snapshot_keyed ops : keyed (Snapshot (run_all ops)).
Proof. intros key st Hs. by apply snapshot_contribution in Hs as [? _]. Qed.

Lemma reconciled_inv ops m : reconciled ops m -> manager_inv m.
Proof.
  intros (ws & x & Hws & Hd & Hs & ->). apply reconcile_inv.
  - split; [|done]. rewrite Hs. apply snapshot_keyed.
  - apply run_wakes_inv; [done|apply manager_inv_New].
Qed.

(** An installed interest goes back to a target some rule asks for, and has compiled its
    redaction. *)
Lemma installed_asked ops m i :
  reconciled ops m -> installed m i ->
  exists rule t redactions, t ∈ asked_after ops rule /\ gvk_Group (wt_GVK t) = sk_Group (si_scope i) /\
    gvk_Kind (wt_GVK t) = sk_Kind (si_scope i) /\ compile_redaction_set redactions = Ok (si_redaction i) /\
    (wt_Redaction t <> "" -> wt_Redaction t ∈ redactions).
Proof.
  intros (ws & x & Hws & Hd & Hs & ->) [id Hi].
  assert (Hx : valid_inputs x) by (split; [rewrite Hs; apply snapshot_keyed|done]).
  rewrite reconcilePool_eq in Hi. simpl in Hi.
  destruct (tr_sound _ _ _ _ (pass_translated x Hx) _ _ Hi) as (key & st & i0 & sel & Hst & Hc & -> & _).
  destruct (candidate_fields _ _ _ _ Hc (proj1 Hx _ _ Hst)) as (gvr & b & _ & _ & _ & _ & Esc & En).
  destruct (newScopeInterest_fields _ _ _ En) as (_ & _ & _ & _ & Er & _). simpl in *.
  rewrite Hs in Hst. destruct (snapshot_contribution _ _ _ Hst) as (_ & rule & t & Ht & Hkey & Hred).
  rewrite Esc, <-Hkey. exists rule, t, (ts_Redactions st). done.
Qed.

(** The policy of an installed interest has what the rules of its type ask for. *)
Lemma installed_policy ops m group kind raw path i :
  reconciled ops m -> rules_ask ops group kind raw -> raw <> "" -> parseRedactionPath raw = Ok path ->
  installed m i -> sk_Group (si_scope i) = group -> sk_Kind (si_scope i) = kind ->
  exists q, si_redaction i = Some q /\ parsed_policy (si_redaction i) /\ path ∈ rp_paths q.
Proof.
  intros Hrec Hask Hne Hp Hi Hg Hk.
  destruct (installed_asked ops m i Hrec Hi) as (rule & t & redactions & Ht & Eg & Ek & Er & Hred).
  pose proof (Hask rule t Ht (eq_trans Eg Hg) (eq_trans Ek Hk)) as Hline.
  assert (Htext : wt_Redaction t <> "").
  { intros E. rewrite E in Hline. simpl in Hline. apply list_elem_of_singleton in Hline. done. }
  destruct (redaction_set_has _ _ _ _ _ Er (Hred Htext) Hline Hne Hp) as (q & E & Hin).
  exists q. split_and!; [done|by eapply redaction_set_parsed|done].
Qed.

Lemma RedactionFor_has ops m group kind raw path key policy :
  reconciled ops m -> rules_ask ops group kind raw -> raw <> "" -> parseRedactionPath raw = Ok path ->
  k_Group key = group -> k_Kind key = kind -> RedactionFor m key = Some policy ->
  exists q, policy = Some q /\ parsed_policy policy /\ path ∈ rp_paths q.
Proof.
  intros Hrec Hask Hne Hp Hg Hk. pose proof (reconciled_inv _ _ Hrec) as Hm.
  assert (Hall : Forall (fun p => exists q, p = Some q /\ parsed_policy p /\ path ∈ rp_paths q)
                   (map si_redaction (lookupIdentity (wm_table m) key))).
  { apply Forall_forall. intros p Hin. apply list_elem_of_fmap in Hin as (i & -> & Hi).
    apply (elem_of_covering _ _ _ Hm) in Hi as (Hinst & _ & Esg & Esk & _).
    apply (installed_policy ops m group kind raw path i); try done; congruence. }
  unfold RedactionFor. destruct (lookupIdentity (wm_table m) key) as [|i [|j rest]]; [done|..].
  - intros [= <-]. exact (Forall_inv Hall).
  - intros [= <-]. destruct (merged_has (map si_redaction (i :: j :: rest)) path) as (q & E & ? & ?); [done|exact Hall|].
    exists q. simpl in E. rewrite E. done.
Qed.

(** The pipeline reads the cluster through a watch manager. *)
Definition lister_answer (r : result getError (option object * bool)) : result string (option object * bool) :=
  match r with
  | Ok a => Ok a
  | Err (errLookup reason) => Err reason
  | Err errNotUnstructured => Err "not an unstructured object"
  | Err (errInformerNotRunning k) => Err (informerKey_String k)
  end.

Definition wired (e : env) (view : caches) (m : WatchManager) : Prop :=
  e_redactions e = Some (RedactionFor m) /\ forall key, e_lister e key = lister_answer (Get view m key).

(** A work item of an identity nothing covers hands over nothing. *)
Lemma uncovered_inert `{Unstructured, Encoders, ZstdCodec, JsonDiff} e view m key p :
  wired e view m -> lookupIdentity (wm_table m) key = [] -> ps_jobs (processNext e key p).2 = ps_jobs p.
Proof.
  intros [_ Hlist] El. unfold processNext, Process, mbind, state_bind. rewrite Hlist. unfold Get. by rewrite El.
Qed.

(** Work items read through managers that reconciled rules asking for a path. *)
Definition asked_for group kind raw (e : env) (key : Key) : Prop :=
  wf_Key key /\ exists ops view m, rules_ask ops group kind raw /\ reconciled ops m /\ wired e view m.

Lemma redacted_rows `{Unstructured, Encoders, ZstdCodec, !ZstdLaws, JsonDiff} group kind raw path p :
  raw <> "" -> parseRedactionPath raw = Ok path -> reachable (asked_for group kind raw) p ->
  (forall r, emitted p r -> clean_row group kind path r) /\
  (forall s k entry, s ∈ ps_states p -> ss_cache s !! k = Some entry -> clean_entry group kind path k entry).
Proof.
  intros Hne Hp Hr. apply (reachable_mono _ (redacts group kind path)) in Hr.
  - pose proof (good_reachable (redaction_policy group kind path) p Hr) as Hg.
    split; intros; [by eapply good_emitted|by eapply good_entry].
  - intros e key (Hwf & ops & view & m & Hask & Hrec & Hred & _). split; [done|].
    intros Hgk Hkk policy Hpol. unfold redactionFor in Hpol. rewrite Hred in Hpol.
    destruct (RedactionFor_has _ _ _ _ _ _ _ _ Hrec Hask Hne Hp Hgk Hkk Hpol) as (q & -> & Hpp & Hq).
    split; [by apply parsed_wf|done].
Qed.
End watched.

(** ** Properties *)

(** C8: what the rules redact is not in the payloads of a sink. Suppose that whenever a work
    item is processed, the manager it reads through had reconciled rules of which every one
    that watches the type asks for a path. Then in every reachable state the Data of each
    row of the type that was handed over or awaits a retry is bytes of an object in which
    everything the path reaches is the sentinel, its Diff a patch between two such texts,
    and every cached baseline, from which later patches are computed, such a text -
    whatever selectors, namespaces, API versions, sinks and further paths the rules name,
    and whatever the watch and the sinks do. (The Labels column is not covered: it is read
    before redaction, see [labels_not_redacted].) *)
Theorem rules_redact_end_to_end
    `{Selectors, LabelSelectors, Strconv, FilterCodec, FieldSelectors, Schema,
      Unstructured, Encoders, ZstdCodec, !ZstdLaws, JsonDiff} group kind raw path p :
  raw <> "" -> parseRedactionPath raw = Ok path ->
  reachable (fun e key => wf_Key key /\ exists ops view m,
               rules_ask ops group kind raw /\ reconciled ops m /\ wired e view m) p ->
  (forall r, emitted p r -> clean_row group kind path r) /\
  (forall s k entry, s ∈ ps_states p -> ss_cache s !! k = Some entry -> clean_entry group kind path k entry).
Proof. intros Hne Hp Hr. by eapply redacted_rows. Qed.

(** C28: every row is backed by the watch. When a work item read through a reconciled
    manager hands over any row at all, some installed interest covers its identity,
    and either a running informer that covers it holds the object, or every informer
    that covers it runs and none holds it: neither a stopped rule nor an informer that
    is not up yet nor a failing cache is ever recorded as a deletion. *)
Theorem rows_backed_by_watch
    `{Selectors, LabelSelectors, Strconv, FilterCodec, FieldSelectors, Schema,
      Unstructured, Encoders, ZstdCodec, JsonDiff} ops view m e key p :
  reconciled ops m -> wired e view m ->
  ps_jobs (processNext e key p).2 <> ps_jobs p ->
  let ck := watch_cache_key key in
  (exists i, covers m key i) /\
  ((exists i o, covers m key i /\ serving m i /\ GetByKey view (si_informer i) ck = Ok (Some (DUnstructured o))) \/
   (forall i, covers m key i -> serving m i /\ GetByKey view (si_informer i) ck = Ok None)).
Proof.
  intros Hrec [_ Hlist] Hjobs ck. pose proof (reconciled_inv _ _ Hrec) as Hm.
  unfold processNext, Process, mbind, state_bind in Hjobs. rewrite Hlist in Hjobs.
  unfold Get in Hjobs. fold ck in Hjobs.
  destruct (lookupIdentity (wm_table m) key) as [|i rest] eqn:El; [by destruct Hjobs|].
  assert (Hcov : forall j, j ∈ i :: rest <-> covers m key j).
  { intros j. rewrite <-El. by apply elem_of_covering. }
  pose proof (get_loop_spec view m ck (i :: rest) None) as Hg.
  split; [exists i; apply Hcov; left|].
  destruct (get_loop _ _ _ _ _) as [[[o|] active]|err].
  - left. destruct Hg as (_ & j & Hj & ? & ?). exists j, o. split; [by apply Hcov|done].
  - right. destruct Hg as (_ & _ & Hg). intros j Hj. by apply Hg, Hcov.
  - destruct Hjobs. by destruct err.
Qed.

(** ** Evaluation on a concrete cluster *)

Module EndToEndSamples.

Definition plain_selectors : Selectors := {|
  LabelSelector := unit;
  parse_selector s := Ok s;
  as_selector _ := Ok "";
|}.

#[local] Existing Instances plain_selectors sample_label_selectors plain_strconv text_filters text_selectors
  sample_schema tree_unstructured sample_encoders framing_codec whole_document_diff.

(** A rule that watches the ConfigMaps of a namespace and redacts their data. *)
Definition config_maps : WatchTarget :=
  mkWatchTarget sample_sink (mkGVK "" "v1" "ConfigMap") "ns" "" "data.k" "".

Definition ops : list registry_op := [OpUpsert "rule" [config_maps]].

Definition resolve : resolution := fun key =>
  if bool_decide (tk_GVK key = mkGVK "" "v1" "ConfigMap") then Some (mkGVR "" "v1" "configmaps", true) else None.

Definition pass : inputs := mkInputs (Snapshot (run_all ops)) resolve (fun _ => true) 1.

Definition manager : WatchManager := (reconcilePool pass (run_wakes [] manager_New).2).2.

Definition view : caches :=
  mkCaches (fun _ key => Ok (if bool_decide (key = "ns/cm") then Some (DUnstructured (config_map "u1" "secret")) else None))
    (fun _ => true).

Definition watch_env : env :=
  mkEnv (fun key => lister_answer (Get view manager key)) (fun _ => Some (sample_writer 2))
    (Some (RedactionFor manager)) Z.of_nat "cluster".

Lemma manager_reconciled : reconciled ops manager.
Proof.
  exists [], pass. split_and!; [constructor| |done..].
  intros [? k1 ?] [? k2 ?] gvr b1 b2. unfold pass, resolve. simpl. repeat case_bool_decide; simpl; congruence.
Qed.

Lemma env_wired : wired watch_env view manager.
Proof. split; done. Qed.

Lemma asks : rules_ask ops "" "ConfigMap" "data.k".
Proof.
  intros rule t Ht _ _. unfold asked_after, ops in Ht. cbn [foldl spec_op] in Ht.
  assert (E : desired_targets [config_maps] = Ok ({[config_maps]} ∪ ∅)) by reflexivity.
  rewrite E in Ht. destruct (decide (rule = "rule")); [|destruct (not_elem_of_empty (C := gset WatchTarget) t Ht)].
  apply elem_of_union in Ht as [Ht|Ht]; [|destruct (not_elem_of_empty (C := gset WatchTarget) t Ht)].
  apply elem_of_singleton in Ht. subst t. left.
Qed.

Definition key_path : redactionPath := mkPath "data.k" [mkSegment "data" false; mkSegment "k" false].

Definition observed_state : pstate := (processNext watch_env sample_key pstate_init).2.

Lemma rules_redact_end_to_end_witness :
  length (ps_jobs observed_state) = 1 /\
  Forall (fun j => clean_row "" "ConfigMap" key_path (j_Record j)) (ps_jobs observed_state).
Proof.
  split; [vm_compute; reflexivity|]. apply Forall_forall. intros j Hj.
  destruct (rules_redact_end_to_end "" "ConfigMap" "data.k" key_path observed_state) as [Hrows _]; [..|apply Hrows].
  - discriminate.
  - vm_compute. reflexivity.
  - apply rtc_once. apply step_process. split; [by vm_compute|].
    exists ops, view, manager. split; [exact asks|]. split; [exact manager_reconciled|exact env_wired].
  - left. exists j. split; [exact Hj|reflexivity].
Defined.

Lemma rows_backed_by_watch_witness :
  ps_jobs observed_state <> [] /\ exists i, covers manager sample_key i.
Proof.
  assert (Hn : ps_jobs observed_state <> []) by (vm_compute; discriminate). split; [exact Hn|].
  exact (proj1 (rows_backed_by_watch ops view manager watch_env sample_key pstate_init
                  manager_reconciled env_wired Hn)).
Defined.

(** A path into the labels scrubs them in the stored object; the Labels column of the same
    row has the value, because it is read before redaction. *)
Definition labelled : object :=
  {["kind" := JStr "ConfigMap"; "metadata" := JObj {["name" := JStr "cm"; "labels" := JObj {["team" := JStr "blue"]}]}]}.

Example labels_not_redacted : exists path norm,
  parseRedactionPath "metadata.labels.team" = Ok path /\ normalizeObject labelled (Some (mkPolicy [path])) = Ok norm /\
  valueAtPointer (JObj (no_normalized norm)) "/metadata/labels/team" = Some (JStr RedactionSentinel) /\
  no_Labels norm !! "team" = Some "blue".
Proof. eexists _, _. split; [vm_compute; reflexivity|]. split; [vm_compute; reflexivity|]. split; vm_compute; reflexivity. Qed.
End EndToEndSamples.
