(* ===== verification/ControlPlane.v ===== *)
(** * ControlPlane: from rule and sink resources to the rows

    Composes the rule controller with the registry, the watch manager and the pipeline:
    the registry a watch manager reconciles is the one a run of reconcile passes left
    behind. *)

From S2P Require Import Prelude SinkManager Identity HashCache Plan GoJson Redact RedactParse EventFilter Interest Resolver Watch WatchSpec Normalize Coalesce SinkTypes Diff Process Samples ProcessSpec System Invariants EndToEnd Conditions RuleController RuleSpec.

Section installs.
Context `{Selectors, Strconv, FilterCodec, Schema, RESTMapping, APIErrors, KindStrings, ConditionHelpers}.
Context `{!ErrorText api_error, !ErrorText resolveError, !ErrorText string}.

(** ** What the passes of a run asked for *)

Lemma review_loop_sub w sinkID redaction pairs seen n targets denials targets' denials' :
  review_loop w sinkID redaction pairs seen n targets denials = Ok (targets', denials') ->
  targets' ⊆ targets ++ map (fun p => target_of sinkID redaction p.1 p.2) pairs.
Proof.
  revert seen n targets denials. induction pairs as [|[res ns] pairs IH]; intros seen n targets denials; cbn [review_loop].
  { intros [= <- <-]. by rewrite app_nil_r. }
  destruct (match seen !! _ with Some denial => _ | None => _ end) as [[denial|] m]; [|done].
  case_bool_decide; intros Hs%IH; etrans; [exact Hs|set_solver|exact Hs|]. rewrite <-app_assoc. set_solver.
Qed.

(** Every target a pass installs is a place of an admitted rule. *)
Lemma plan_sound k w obj status rv outcome status' rv' t :
  plan k w obj status rv = (outcome, status', rv') -> t ∈ po_targets outcome ->
  exists bound verdict nss p, admission k w obj bound verdict nss /\ p ∈ places k w obj nss rv /\
    t = place_target obj bound p.
Proof.
  unfold plan. fold (sink_of obj). case_bool_decide as Hl; [by intros [= <- _ _] ?%elem_of_nil|].
  destruct (resolveSink w (sink_of obj)) as [[[bound|] verdict]|e] eqn:Es; [|by intros [= <- _ _] ?%elem_of_nil..].
  destruct (checkPolicy _ _) as [denied|] eqn:Ep; [by intros [= <- _ _] ?%elem_of_nil|].
  destruct (targetNamespaces k w obj) as [nss|e] eqn:En; [|destruct e; by intros [= <- _ _] ?%elem_of_nil].
  unfold resolveResources, places, verdicts. destruct (resolve_loop k w nss 0 _ rv) as [vs rv''] eqn:Ev.
  destruct (reviewTargets _ _ _ _) as [[targets denials]|e] eqn:Er; [|by intros [= <- _ _] ?%elem_of_nil].
  intros [= <- _ _] Ht. apply review_loop_sub in Er. apply Er in Ht. apply list_elem_of_fmap in Ht as (p & -> & Hp).
  exists bound, verdict, nss, p. rewrite Ev. split; [by split|]. done.
Qed.

Lemma elem_of_desired targets desired t :
  desired_targets targets = Ok desired -> t ∈ desired -> exists t0, t0 ∈ targets /\
    wt_Sink t = wt_Sink t0 /\ wt_GVK t = wt_GVK t0 /\ wt_Namespace t = wt_Namespace t0 /\ wt_Redaction t = wt_Redaction t0.
Proof.
  revert desired. induction targets as [|t1 targets IH]; intros desired; cbn [desired_targets].
  { intros [= <-]. by intros ?%elem_of_empty. }
  destruct (canonicalizeSelectorString _); [|done]. destruct (desired_targets targets) as [d|] eqn:E; [|done].
  intros [= <-] [->%elem_of_singleton|Ht]%elem_of_union.
  - exists t1. split; [left|done].
  - destruct (IH d eq_refl Ht) as (t0 & ? & ?). exists t0. split; [by right|done].
Qed.

Lemma elem_of_asked ops rule t :
  t ∈ asked_after ops rule -> exists key targets t0, OpUpsert key targets ∈ ops /\ t0 ∈ targets /\
    wt_Sink t = wt_Sink t0 /\ wt_GVK t = wt_GVK t0 /\ wt_Namespace t = wt_Namespace t0 /\ wt_Redaction t = wt_Redaction t0.
Proof.
  unfold asked_after. induction ops as [|op ops IH] using rev_ind; [by intros ?%elem_of_empty|].
  rewrite foldl_app. simpl. set (asked := foldl _ _ ops) in *.
  assert (Hold : t ∈ asked rule -> exists key targets t0, OpUpsert key targets ∈ ops ++ [op] /\ t0 ∈ targets /\
    wt_Sink t = wt_Sink t0 /\ wt_GVK t = wt_GVK t0 /\ wt_Namespace t = wt_Namespace t0 /\ wt_Redaction t = wt_Redaction t0).
  { intros (key & targets & t0 & Hin & Ht)%IH. exists key, targets, t0. split; [apply elem_of_app; by left|done]. }
  destruct op as [key targets|key]; simpl; [|case_decide; [by intros ?%elem_of_empty|done]].
  destruct (desired_targets targets) as [desired|] eqn:E; [|done]. case_decide as Hr; [|done].
  intros Ht. destruct (elem_of_desired _ _ _ E Ht) as (t0 & ? & ?). exists key, targets, t0.
  split; [apply elem_of_app; right; left|done].
Qed.

Lemma elem_of_control_ops r s passes op :
  op ∈ control_ops r s passes -> exists p s0, p ∈ passes /\ pass_op p.1.1 p.1.2 p.2 s0 = Some op.
Proof.
  revert s. induction passes as [|p passes IH]; intros s; cbn [control_ops]; [by intros ?%elem_of_nil|].
  intros [Hin|Hin]%elem_of_app.
  - exists p, s. split; [left|]. destruct (pass_op _ _ _ s); simpl in Hin; [by apply list_elem_of_singleton in Hin as ->|by apply elem_of_nil in Hin].
  - destruct (IH _ Hin) as (p' & s0 & ? & ?). exists p', s0. split; [by right|done].
Qed.

(** What a rule asks for after a run is what some pass of the run found it entitled to. *)
Lemma control_asked r passes rule t :
  t ∈ asked_after (control_ops r control_start passes) rule ->
  exists pass obj bound verdict nss rv p, pass ∈ passes /\ cl_rule pass.2 = Ok obj /\
    admission pass.1.1 pass.2 obj bound verdict nss /\ p ∈ places pass.1.1 pass.2 obj nss rv /\
    let t0 := place_target obj bound p in
    wt_Sink t = wt_Sink t0 /\ wt_GVK t = wt_GVK t0 /\ wt_Namespace t = wt_Namespace t0 /\ wt_Redaction t = wt_Redaction t0.
Proof.
  intros (key & targets & t0 & Hop & Ht0 & Hf)%elem_of_asked.
  apply elem_of_control_ops in Hop as (pass & s0 & Hin & Hop). unfold pass_op in Hop.
  destruct (cl_rule pass.2) as [obj|err] eqn:Ew; [|by destruct (IsNotFound err)].
  destruct (ro_deleting obj); [done|].
  destruct (plan pass.1.1 pass.2 obj _ _) as [[outcome status] rv'] eqn:Ep. simpl in Hop.
  destruct (po_install outcome); [|done]. injection Hop as _ <-.
  destruct (plan_sound _ _ _ _ _ _ _ _ _ Ep Ht0) as (bound & verdict & nss & p & Had & Hp & ->).
  exists pass, obj, bound, verdict, nss, (cs_resolver s0), p. done.
Qed.

Lemma policy_spares_secrets resources policy res :
  checkPolicy resources policy = None -> res ∈ resources -> ~ (wr_Group res = deniedGroup /\ wr_Kind res = deniedKind).
Proof.
  unfold checkPolicy. destruct (List.find is_denied resources) eqn:E; [done|]. intros _ Hin [Hg Hk].
  apply list_elem_of_In, (List.find_none _ _ E) in Hin. unfold is_denied in Hin.
  by rewrite Hg, Hk, !bool_decide_eq_true_2 in Hin.
Qed.

Lemma no_secret_asked r passes rule t :
  t ∈ asked_after (control_ops r control_start passes) rule ->
  ~ (gvk_Group (wt_GVK t) = deniedGroup /\ gvk_Kind (wt_GVK t) = deniedKind).
Proof.
  intros (pass & obj & bound & verdict & nss & rv & p & _ & _ & Had & Hp & _ & Eg & _)%control_asked.
  apply places_resolved in Hp as (n & res & Hres & Hr & _). rewrite Eg. simpl. rewrite (rt_gvk _ _ _ _ _ _ Hr). simpl.
  eapply policy_spares_secrets; [exact (ad_policy _ _ _ _ _ _ Had)|by eapply list_elem_of_lookup_2].
Qed.
End installs.

(** ** Properties *)

(** C2: Secrets are never recorded. Take any run of reconcile passes - whatever rules
    exist, whatever sinks and policies they meet, whatever the API server answers - any
    watch manager that reconciled the registry the run left behind, and any state of the
    pipeline: processing a work item of the core kind Secret hands no row to any sink.
    No allow-list can change that. *)
Theorem secrets_never_recorded
    `{Selectors, Strconv, FilterCodec, Schema, RESTMapping, APIErrors, KindStrings, ConditionHelpers,
      !ErrorText api_error, !ErrorText resolveError, !ErrorText string, LabelSelectors, FieldSelectors,
      Unstructured, Encoders, ZstdCodec, JsonDiff} r passes view m e key p :
  reconciled (control_ops r control_start passes) m -> wired e view m ->
  k_Group key = deniedGroup -> k_Kind key = deniedKind ->
  ps_jobs (processNext e key p).2 = ps_jobs p.
Proof.
  intros Hrec Hw Hg Hk. apply (uncovered_inert e view m key p Hw).
  destruct (lookupIdentity (wm_table m) key) as [|i rest] eqn:El; [done|exfalso].
  assert (Hi : covers m key i).
  { apply (elem_of_covering _ _ _ (reconciled_inv _ _ Hrec)). rewrite El. left. }
  destruct Hi as (Hinst & _ & Eg & Ek & _).
  destruct (installed_asked _ _ _ Hrec Hinst) as (rule & t & _ & Ht & Etg & Etk & _).
  apply (no_secret_asked r passes rule t Ht). rewrite Etg, Etk. split; congruence.
Qed.

(** Every sink the passes of a run met has the redaction rule in its policy, and no rule
    or policy they met spells a line break. *)
Definition floored `{Selectors, Strconv, RESTMapping, APIErrors} (rule : RedactionRule) (w : cluster) : Prop :=
  (forall obj, cl_rule w = Ok obj -> Forall (fun r => string_mem newline (rule_path r) = false) (rs_ExtraRedaction (ro_Spec obj))) /\
  forall kind name bound, cl_sink w kind name = Ok bound -> rule ∈ sp_Redaction (rsk_policy bound) /\
    Forall (fun r => string_mem newline (rule_path r) = false) (sp_Redaction (rsk_policy bound)).

Lemma resolveSink_read `{Selectors, Strconv, RESTMapping, APIErrors, ConditionHelpers} w id bound verdict :
  resolveSink w id = Ok (Some bound, verdict) -> cl_sink w (ID_Kind id) (ID_Name id) = Ok bound.
Proof. unfold resolveSink. intros E. repeat case_match; simplify_eq; done. Qed.

Lemma floor_asked
    `{Selectors, Strconv, FilterCodec, Schema, RESTMapping, APIErrors, KindStrings, ConditionHelpers,
      !ErrorText api_error, !ErrorText resolveError, !ErrorText string} r passes rule group kind :
  Forall (fun p => floored rule p.2) passes -> rule_path rule <> "" ->
  rules_ask (control_ops r control_start passes) group kind (rule_path rule).
Proof.
  intros Hf Hne owner t Ht _ _.
  destruct (control_asked r passes owner t Ht) as (pass & obj & bound & verdict & nss & rv & p & Hin & Hobj & Had & _ & _ & _ & _ & Er).
  rewrite Forall_forall in Hf. destruct (Hf pass Hin) as [Hextra Hsink].
  destruct (Hsink _ _ _ (resolveSink_read _ _ _ _ (ad_sink _ _ _ _ _ _ Had))) as [Hrule Hfloor].
  rewrite Er. unfold place_target, target_of, redaction_of. simpl.
  apply canonicalRedaction_lines; [|done|].
  - apply Forall_app. split; [done|by apply Hextra].
  - apply list_elem_of_fmap. exists rule. split; [done|]. apply elem_of_app. by left.
Qed.

(** C3: a sink's redaction floor holds whatever the rules say. Suppose every sink
    resource any reconcile pass met carries a redaction rule in its policy. Then, whoever
    wrote which rules with which additions of their own, in every reachable state of the
    pipeline behind watch managers that reconciled the registry of such a run, the Data of
    each row of whatever type that was handed over or awaits a retry is bytes of an object
    in which everything the rule's path reaches is the sentinel, its Diff a patch between
    two such texts, and every cached baseline of whatever type such a text. (The Labels
    column is not covered: it is read before redaction.) *)
Theorem sink_floor_holds
    `{Selectors, Strconv, FilterCodec, Schema, RESTMapping, APIErrors, KindStrings, ConditionHelpers,
      !ErrorText api_error, !ErrorText resolveError, !ErrorText string, LabelSelectors, FieldSelectors,
      Unstructured, Encoders, ZstdCodec, !ZstdLaws, JsonDiff} rule path p :
  rule_path rule <> "" -> parseRedactionPath (rule_path rule) = Ok path ->
  reachable (fun e key => wf_Key key /\ exists r passes view m, Forall (fun p => floored rule p.2) passes /\
               reconciled (control_ops r control_start passes) m /\ wired e view m) p ->
  (forall r, emitted p r -> clean_row (r_APIGroup r) (r_Kind r) path r) /\
  (forall group kind s k entry, s ∈ ps_states p -> ss_cache s !! k = Some entry -> clean_entry group kind path k entry).
Proof.
  intros Hne Hp Hr.
  assert (Hall : forall group kind, reachable (asked_for group kind (rule_path rule)) p).
  { intros group kind. eapply reachable_mono; [|exact Hr]. intros e key (Hwf & cfg & passes & view & m & Hf & Hrec & Hw). split; [done|].
    exists (control_ops cfg control_start passes), view, m. split; [by apply floor_asked|done]. }
  split.
  - intros r. by apply (redacted_rows _ _ _ _ _ Hne Hp (Hall (r_APIGroup r) (r_Kind r))).
  - intros group kind. by apply (redacted_rows _ _ _ _ _ Hne Hp (Hall group kind)).
Qed.

(** ** Evaluation on a concrete cluster *)

Module ControlSamples.
Import EndToEndSamples.

#[local] Existing Instances plain_selectors sample_label_selectors plain_strconv text_filters text_selectors
  sample_schema tree_unstructured sample_encoders framing_codec whole_document_diff.

(** Errors are either "not found" or something else. *)
Definition sample_mapping : RESTMapping := {| mapper_error := string; IsNoMatchError _ := true |}.
Definition sample_api : APIErrors := {| api_error := string; IsNotFound e := bool_decide (e = "not found") |}.
Definition sample_kinds : KindStrings := {| GVK_String := gvk_Kind; GR_String := gr_Resource |}.

#[local] Existing Instances sample_mapping sample_api sample_kinds ConditionSamples.sample_helpers ConditionSamples.sample_condition_laws.
#[local] Instance api_text : ErrorText api_error := fun e => e.
#[local] Instance resolve_text : ErrorText resolveError := fun _ => "unresolved".
#[local] Instance string_text : ErrorText string := fun e => e.

#[local] Instance sample_selector_laws : SelectorLaws.
Proof. split. by intros [] s [= <-]. Qed.

(** A rule for the ConfigMaps of a namespace, and its sink, whose floor is their data. *)
Definition floor_rule : RedactionRule := mkRedactionRule "data.k" "".

Definition config_rule (resource : string) : ruleObject :=
  mkRuleObject "ns" "r" 1 false
    (mkRuleSpec (mkSinkReference (ID_Kind sample_sink) (ID_Name sample_sink)) [mkWatchedResource "" "v1" resource None None] [])
    None (mkRuleStatus [] 0 0).

Definition sample_bound : resolvedSink :=
  mkResolvedSink (mkSinkPolicy [] [floor_rule]) [mkCondition ConditionReady ConditionTrue ReasonConnected "" 1].

Definition world (sink : result string resolvedSink) (resource : string) : cluster :=
  mkCluster (Ok (config_rule resource)) (fun _ _ => sink) (fun _ => Ok [])
    (fun _ => (Ok (mkGVR "" "v1" "configmaps", true), 0%Z, 0%Z)) (fun _ _ _ _ => Ok true)
    ((Ok (mkRuleStatus [] 0 0), Updated), []).

Definition reconciler : reconcilerConfig := mkReconciler true 0.
Definition request : NamespacedName := mkNamespacedName "ns" "r".
Definition passes : list (ruleKind * NamespacedName * cluster) := [(streamRuleKind, request, world (Ok sample_bound) "ConfigMap")].
Definition control_rules : list registry_op := control_ops reconciler control_start passes.

Example passes_install : control_rules = [OpUpsert "streamrule/ns/r" [config_maps]].
Proof. vm_compute. reflexivity. Qed.

Definition control_pass : inputs := mkInputs (Snapshot (run_all control_rules)) EndToEndSamples.resolve (fun _ => true) 1.
Definition control_manager : WatchManager := (reconcilePool control_pass (run_wakes [] manager_New).2).2.

Lemma control_reconciled : reconciled control_rules control_manager.
Proof.
  exists [], control_pass. split_and!; [constructor| |done..].
  intros [? k1 ?] [? k2 ?] gvr b1 b2. unfold control_pass, EndToEndSamples.resolve. simpl.
  repeat case_bool_decide; simpl; congruence.
Qed.

Definition control_env : env :=
  mkEnv (fun key => lister_answer (Get EndToEndSamples.view control_manager key)) (fun _ => Some (sample_writer 2))
    (Some (RedactionFor control_manager)) Z.of_nat "cluster".

Lemma control_wired : wired control_env EndToEndSamples.view control_manager.
Proof. split; done. Qed.

Definition secret_key : Key := mkKey sample_sink "" "Secret" "ns" "s".

(** The item of a ConfigMap is recorded; that of a Secret the same manager is asked about
    is not. *)
Lemma secrets_never_recorded_witness :
  length (ps_jobs (processNext control_env sample_key pstate_init).2) = 1 /\
  ps_jobs (processNext control_env secret_key pstate_init).2 = [].
Proof.
  split; [vm_compute; reflexivity|].
  apply (secrets_never_recorded reconciler passes EndToEndSamples.view control_manager control_env secret_key pstate_init).
  - exact control_reconciled.
  - exact control_wired.
  - reflexivity.
  - reflexivity.
Defined.

Definition control_observed : pstate := (processNext control_env sample_key pstate_init).2.

Lemma sink_floor_holds_witness :
  length (ps_jobs control_observed) = 1 /\
  Forall (fun j => clean_row (r_APIGroup (j_Record j)) (r_Kind (j_Record j)) key_path (j_Record j)) (ps_jobs control_observed).
Proof.
  split; [vm_compute; reflexivity|]. apply Forall_forall. intros j Hj.
  destruct (sink_floor_holds floor_rule key_path control_observed) as [Hrows _]; [..|apply Hrows].
  - discriminate.
  - vm_compute. reflexivity.
  - apply rtc_once. apply step_process. split; [by vm_compute|].
    exists reconciler, passes, EndToEndSamples.view, control_manager.
    split; [|split; [exact control_reconciled|exact control_wired]].
    constructor; [|constructor]. split; [by intros obj [= <-]; constructor|].
    intros kind name bound [= <-]. split; [left|]. constructor; [reflexivity|constructor].
  - left. exists j. split; [exact Hj|reflexivity].
Defined.

Lemma places_apart sink resource rv : keyed_apart streamRuleKind (world sink resource) (config_rule resource) rv.
Proof.
  intros nss [= <-] p q Hp Hq _.
  assert (Hone : forall p, p ∈ places streamRuleKind (world sink resource) (config_rule resource) ["ns"] rv ->
            rr_gvr p.1 = mkGVR "" "v1" "configmaps" /\ p.2 = "ns").
  { intros p' (n & res & _ & Hr & Hns)%places_resolved. destruct (rt_mapped _ _ _ _ _ _ Hr) as (b & [= <- <-] & En & _).
    rewrite En in Hns. by apply list_elem_of_singleton in Hns. }
  destruct (Hone p Hp) as [-> ->], (Hone q Hq) as [-> ->]. done.
Qed.

(** The first pass installs the target; a pass for a Secret then withdraws it. *)
Lemma rule_contribution_exact_witness :
  bool_decide (config_maps ∈ contribution (control_after reconciler passes) "streamrule/ns/r") = true /\
  (forall t, t ∈ contribution (Reconcile reconciler streamRuleKind request (world (Ok sample_bound) "Secret")
     (control_after reconciler passes)).2 "streamrule/ns/r" -> False).
Proof.
  split; [vm_compute; reflexivity|].
  pose proof (rule_contribution_exact reconciler passes streamRuleKind request (world (Ok sample_bound) "Secret")) as Hex.
  destruct Hex as [_ [Hsound _]]; [intros obj [= <-]; apply places_apart|].
  intros t Ht. destruct (Hsound t Ht) as (bound & verdict & nss & p & [_ _ Hp _] & _).
  assert (E : checkPolicy (rs_Resources (ro_Spec (config_rule "Secret"))) (rsk_policy sample_bound) <> None) by (vm_compute; discriminate).
  apply E. exact Hp.
Defined.

(** The pass that finds nothing installed yet. *)
Definition first_pass : passResult * controlState := Reconcile reconciler streamRuleKind request (world (Ok sample_bound) "ConfigMap") (control_after reconciler []).

Lemma first_pass_written : exists events written s', first_pass = (mkPass (RequeueAfter defaultRuleResyncPeriod) events (Some written), s').
Proof.
  assert (Hr : pr_result first_pass.1 = RequeueAfter defaultRuleResyncPeriod) by (vm_compute; reflexivity).
  assert (Hw : bool_decide (is_Some (pr_written first_pass.1)) = true) by (vm_compute; reflexivity).
  apply bool_decide_eq_true_1 in Hw as [written Hw].
  destruct first_pass as [[res events wr] s']. simpl in Hr, Hw. subst. by exists events, written, s'.
Qed.

Lemma ready_means_streaming_witness : exists written c,
  pr_written first_pass.1 = Some written /\ findCondition (rst_Conditions written) ConditionReady = Some c /\ cd_Status c = ConditionTrue.
Proof.
  destruct first_pass_written as (events & written & s' & E).
  destruct (ready_means_streaming reconciler [] streamRuleKind request (world (Ok sample_bound) "ConfigMap") (config_rule "ConfigMap")
    defaultRuleResyncPeriod events written s') as (c & Hc & _ & _ & _ & Hback); [reflexivity|reflexivity|apply places_apart|exact E|].
  exists written, c. split; [by rewrite E|]. split; [exact Hc|].
  apply (Hback sample_bound ["ns"]).
  - split; [discriminate|reflexivity|reflexivity|reflexivity].
  - vm_compute. reflexivity.
  - apply Forall_forall. intros p _ (verb & _ & (n & Hn) & _). discriminate Hn.
Defined.

(** A rule the sink's policy refuses - it names Secrets - is reported as streaming when
    the API server cannot be asked about the sink. *)
Example refused_rule_reported_ready : exists written c,
  pr_written (Reconcile reconciler streamRuleKind request (world (Err "timeout") "Secret") (control_after reconciler passes)).1 = Some written /\
  findCondition (rst_Conditions written) ConditionReady = Some c /\
  cd_Status c = ConditionTrue /\ cd_Reason c = ReasonStreaming.
Proof. eexists _, _. vm_compute. repeat split; reflexivity. Qed.
End ControlSamples.
