(* ===== verification/History.v ===== *)
(** * History: what is recorded can be reconstructed

    Joins the write plane (src/internal/pipeline/process.go) and the read plane
    (src/internal/query/replay.go): the rows a sequence of observations of one
    incarnation produces, replayed, give the object last observed. *)

From stdpp Require Import pretty.
From S2P Require Import Prelude Identity HashCache GoJson Redact Normalize Coalesce SinkTypes Diff Replay Process Samples ProcessSpec System Invariants.

Definition replay_row (r : Record_) : ReplayRow :=
  mkReplayRow (r_Timestamp r) (r_EventType r) (r_Data r) (r_Diff r) (r_SHA256 r).

(** ** Runs over one identity

    A worker observes the object, or a sink confirms some in-flight row. *)

Inductive hop :=
| Observe (e : env) (norm : normalizedObject)
| Confirm (i : nat).

Section history.
Context `{Unstructured, Encoders, ZstdCodec, JsonDiff}.

(** One hop on the state and on the rows handed over so far. *)
Definition run_hop (key : Key) (h : hop) (st : pstate * list Record_) : pstate * list Record_ :=
  let '(p, rows) := st in
  match h with
  | Observe e _ =>
      let p' := (processNext e key p).2 in
      (p', rows ++ map j_Record (drop (length (ps_jobs p)) (ps_jobs p')))
  | Confirm i =>
      match ps_jobs p !! i with
      | Some job => ((settle (j_Commit job) true (drop_job i p)).2, rows)
      | None => (p, rows)
      end
  end.

Definition run_hops (key : Key) (hops : list hop) (st : pstate * list Record_) : pstate * list Record_ :=
  foldl (fun st h => run_hop key h st) st hops.

(** The environment shows incarnation [uid] of [key], normalizing to [norm], an object with
    members, and the sink accepts rows. *)
Definition views (key : Key) (uid : string) (e : env) (norm : normalizedObject) : Prop :=
  exists w obj policy,
    e_lister e key = Ok (Some obj, true) /\ redactionFor e key = Some policy /\
    normalizeObject obj policy = Ok norm /\ no_UID norm = uid /\ no_normalized norm <> ∅ /\
    e_router e (k_Sink key) = Some w /\ (forall n row, w_accepts w n row = true).

Definition hop_ok (key : Key) (uid : string) (h : hop) : Prop :=
  match h with Observe e norm => views key uid e norm | Confirm _ => True end.

Definition last_seen (hops : list hop) (norm : normalizedObject) : normalizedObject :=
  foldl (fun acc h => match h with Observe _ n => n | Confirm _ => acc end) norm hops.

(** ** Rows since full state *)

(** The rows after the last one that carries full state. *)
Definition trailing (history : list ReplayRow) : Z :=
  foldl (fun n r => if decide (rr_Data r <> "") then 0 else n + 1)%Z 0%Z history.

Lemma trailing_snoc history row : trailing (history ++ [row]) = if decide (rr_Data row <> "") then 0%Z else (trailing history + 1)%Z.
Proof. unfold trailing. by rewrite foldl_snoc. Qed.

Lemma trailing_base history i : BaseRow history = Some i -> trailing history = (Z.of_nat (length history) - Z.of_nat i - 1)%Z.
Proof.
  revert i. induction history as [|row history IH] using rev_ind; intros i; [done|].
  rewrite BaseRow_app, trailing_snoc, length_app. cbn [length]. case_decide; [intros [= <-]; lia|].
  intros Hb. rewrite (IH i Hb). lia.
Qed.

Context `{!JsonPatch}.

Lemma replay_loop_applied rows state applied last state' applied' last' :
  replay_loop rows state applied last = Ok (state', applied', last') -> (applied <= applied' <= applied + Z.of_nat (length rows))%Z.
Proof.
  revert state applied last. induction rows as [|row rows IH]; intros state applied last; cbn [replay_loop length].
  { intros [= _ <- _]. lia. }
  case_decide; [intros Hl%IH; lia|]. case_decide; [|intros Hl%IH; lia].
  destruct (DecodePatch _); [|done]. destruct (patch_Apply _ _); [|done]. intros Hl%IH. lia.
Qed.

Lemma replay_applies history i r : BaseRow history = Some i -> Replay history i = Ok r -> (0 <= rc_PatchesApplied r <= trailing history)%Z.
Proof.
  intros Hb. rewrite (trailing_base _ _ Hb). unfold Replay. destruct (history !! i) as [b|] eqn:Hi; [|done].
  destruct (replay_loop _ _ _ _) as [[[state applied] last]|] eqn:El; [|done]. destruct (json_unmarshal state); [|done]. intros [= <-].
  apply replay_loop_applied in El. rewrite length_drop in El. apply lookup_lt_Some in Hi. cbn. lia.
Qed.

(** ** The invariant of a run *)

(** The in-flight jobs are upserts of the key, none newer than the entry, and the
    one carrying its version confirms exactly it. *)
Definition jobs_follow (key : Key) (l : loc) (entry : CacheEntry) (jobs : list Job) : Prop :=
  forall j, j ∈ jobs -> exists v conf rev h ts win,
    j_Commit j = CommitUpsert l key v conf rev h ts win /\ (v <= Version entry)%Z /\
    (v = Version entry -> with_Version 0 conf = with_Version 0 entry).

Context `{!ZstdLaws, !PatchLaws}.

(** What is kept of the counter of rows since full state: it holds of a fresh counter, and the
    decisions of a writer keep it. *)
Context (run_ok : Z -> Prop) (run_fresh : run_ok 0%Z).
Definition keeps_run (key : Key) (e : env) : Prop :=
  forall w c norm, e_router e (k_Sink key) = Some w -> run_ok (ModifiedSinceCheckpoint c) -> run_ok (d_modifiedRun (modified_decision w false c norm)).
Definition hop_keeps (key : Key) (h : hop) : Prop := match h with Observe e _ => keeps_run key e | Confirm _ => True end.

(** Canonical bytes one of the observations had, of an object with members, and what they decode to. *)
Definition canonical (texts : list string) (text : string) (o : object) : Prop :=
  text ∈ texts /\ (exists x, json_marshal x = Some text) /\ json_unmarshal text = Some o /\ o <> ∅.

(** The rows rebuild [o]; the cached entry is [o]'s. *)
Record tracked (key : Key) (l : loc) (uid : string) (texts : list string) (n : Z) (hash : string)
    (st : pstate * list Record_) : Prop := {
  tk_mounted : mounted st.1 (k_Sink key) l;
  tk_quiet : ss_closeOuts (st_at l st.1) !! cacheKey key = None;
  tk_entry : exists entry o text, cached key l st.1 = Some entry /\
    canonical texts text o /\ hash = sha256_hex text /\ Hash entry = hash /\ UID entry = uid /\
    (0 < Version entry <= n)%Z /\ jobs_follow key l entry (ps_jobs st.1) /\
    (forall b, decodeBaseline entry = Ok (Some b) -> b = text) /\
    rebuilds (map replay_row st.2) o hash /\
    trailing (map replay_row st.2) = ModifiedSinceCheckpoint entry /\ run_ok (ModifiedSinceCheckpoint entry);
}.

Lemma canonical_nonempty texts text o : canonical texts text o -> text <> "".
Proof. intros (_ & _ & Hu & _) ->. by rewrite unmarshal_empty in Hu. Qed.

Lemma canonical_more texts new text o : canonical texts text o -> canonical (texts ++ new) text o.
Proof. intros (Hin & Hrest). split; [|done]. by apply elem_of_app; left. Qed.

Lemma canonical_last texts x text : json_marshal x = Some text -> x <> ∅ -> exists o, canonical (texts ++ [text]) text o.
Proof.
  intros Hm Hne. destruct (marshal_reads x text Hm Hne) as (o & Hu & Ho). exists o. split; [set_solver|]. eauto.
Qed.

Lemma decode_some entry b :
  is_Some (JSON entry) -> decodeBaseline entry = Ok b -> exists x, b = Some x.
Proof.
  intros [data HJ]. unfold decodeBaseline. rewrite HJ. repeat case_match; naive_solver.
Qed.

Lemma views_sighted key uid e norm l p :
  views key uid e norm -> mounted p (k_Sink key) l ->
  ss_closeOuts (st_at l p) !! cacheKey key = None ->
  exists w, sighted e key w norm l p /\ (forall n row, w_accepts w n row = true).
Proof.
  intros (w & obj & policy & Hg & Hr & Hn & Hu & _ & Hw & Ha) Hm Hq.
  exists w. split; [|done]. split; eauto.
Qed.

Lemma views_marshal key uid e norm :
  views key uid e norm ->
  json_marshal (no_normalized norm) = Some (no_JSON norm) /\ no_Hash norm = sha256_hex (no_JSON norm) /\
  no_UID norm = uid /\ no_normalized norm <> ∅.
Proof.
  intros (w & obj & policy & _ & _ & Hn & Hu & Hne & _). unfold normalizeObject in Hn.
  destruct (Apply _ _) as [o|]; [|done]. destruct (json_marshal o) eqn:Em; [|done].
  by injection Hn as <-.
Qed.

(** An observation that writes: the row extends the history to the new object. *)
Lemma row_rebuilds rows w c norm e key et ts texts o text hash texts' o' :
  canonical texts text o -> (forall b, decodeBaseline c = Ok (Some b) -> b = text) ->
  rebuilds (map replay_row rows) o hash ->
  canonical texts' (no_JSON norm) o' ->
  rebuilds (map replay_row (rows ++ [upsert_record e key norm (modified_decision w false c norm) et ts])) o' (no_Hash norm).
Proof.
  intros (_ & [x Hx] & Hux & Hox) Hb Hreb Hm. rewrite map_app. cbn [map].
  assert (Hne := canonical_nonempty _ _ _ Hm). destruct Hm as (_ & [y Hy] & Hu & Hoy).
  destruct (modified_ladder w false c norm) as [|old patch reason|old patch _ HJ Hd Hc _].
  - apply (rebuilds_full _ (replay_row (upsert_record e key norm _ et ts))); [exact Hne|exact Hu].
  - apply (rebuilds_full _ (replay_row (upsert_record e key norm _ et ts))); [exact Hne|exact Hu].
  - destruct (decode_some _ _ HJ Hd) as [b ->]. rewrite (Hb b Hd) in Hc. simpl in Hc.
    eapply (rebuilds_diff _ (replay_row (upsert_record e key norm _ et ts)));
      [exact Hreb|reflexivity|exact Hc|exact Hx|exact Hy|exact Hux|exact Hu|exact Hox|exact Hoy].
Qed.

Lemma row_trailing rows w c norm e key et ts texts o : canonical texts (no_JSON norm) o ->
  trailing (map replay_row rows) = ModifiedSinceCheckpoint c ->
  trailing (map replay_row (rows ++ [upsert_record e key norm (modified_decision w false c norm) et ts])) = d_modifiedRun (modified_decision w false c norm).
Proof.
  intros Hm%canonical_nonempty Ht. rewrite map_app. cbn [map]. rewrite trailing_snoc, Ht.
  destruct (modified_ladder w false c norm) as [|old patch reason|old patch _ HJ Hd Hc _];
    cbn [replay_row rr_Data upsert_record r_Data d_carriesFullState d_modifiedRun].
  - by rewrite decide_True.
  - by rewrite decide_True.
  - rewrite decide_False; [done|]. intros Hn. by apply Hn.
Qed.

Lemma jobs_follow_commit key l entry jobs job (c : hashCache) :
  jobs_follow key l entry jobs -> job ∈ jobs -> c !! cacheKey key = Some entry ->
  exists v conf rev h ts win, j_Commit job = CommitUpsert l key v conf rev h ts win /\
    (CommitIfCurrent (cacheKey key) v conf c).2 = c.
Proof.
  intros Hf Hin Hc. destruct (Hf _ Hin) as (v & conf & rev & h & ts & win & E & _ & Hv).
  exists v, conf, rev, h, ts, win. split; [done|]. unfold CommitIfCurrent. rewrite Hc.
  case_decide as Hd; [|done]. simpl. apply insert_id. rewrite Hc. f_equal.
  specialize (Hv (eq_sym Hd)). rewrite <-Hd. destruct conf, entry. by injection Hv as -> -> -> -> -> -> ->.
Qed.

(** A confirmation changes neither the cache nor the rows. *)
Lemma tracked_confirm key l uid texts n hash st i :
  tracked key l uid texts n hash st -> tracked key l uid texts n hash (run_hop key (Confirm i) st).
Proof.
  destruct st as [p rows]. intros [Hm Hq (entry & o & text & He & Ho & Hh & Hhe & Hu & Hv & Hj & Hb & Hreb & Htr & Hrun)].
  simpl in *. destruct (ps_jobs p !! i) as [job|] eqn:Ei; [|split; [done|done|]; exists entry, o, text; split_and!; try (done || lia); by apply Hb].
  pose proof (list_elem_of_lookup_2 _ _ _ Ei) as Hin. pose proof Hm as [Hreg Hl].
  destruct (jobs_follow_commit _ _ _ _ _ (ss_cache (st_at l p)) Hj Hin He)
    as (v & conf & rev & h & ts & win & Ec & Hcommit).
  assert (Hst : ss_cache (st_at l (settle (j_Commit job) true (drop_job i p)).2) = ss_cache (st_at l p) /\
    ss_closeOuts (st_at l (settle (j_Commit job) true (drop_job i p)).2) = ss_closeOuts (st_at l p)).
  { rewrite Ec. cbn -[CommitIfCurrent remember]. unfold mbind, state_bind. simpl. unfold set_states. simpl.
    rewrite !st_at_insert by (simpl; rewrite ?length_insert; done). simpl. split; [exact Hcommit|done]. }
  assert (Hjobs : ps_jobs (settle (j_Commit job) true (drop_job i p)).2 = delete i (ps_jobs p) /\
    ps_registry (settle (j_Commit job) true (drop_job i p)).2 = ps_registry p /\
    length (ps_states (settle (j_Commit job) true (drop_job i p)).2) = length (ps_states p)).
  { rewrite Ec. simpl. split_and!; [done|done|]. simpl. by rewrite !length_insert. }
  destruct Hst as [Hcache Hclose], Hjobs as (Ej & Er & El).
  split; simpl; [split; [by rewrite Er|by rewrite El]|by rewrite Hclose|].
  exists entry, o, text. unfold cached. rewrite Hcache. split_and!; try (done || lia).
  rewrite Ej. intros j Hjin. apply Hj. eapply elem_of_submseteq; [exact Hjin|].
  apply sublist_submseteq, sublist_delete.
Qed.

(** The entry an accepted write leaves. *)
Lemma confirmed_fields norm run :
  let c := confirmed_entry false norm run in
  Hash c = no_Hash norm /\ UID c = no_UID norm.
Proof. unfold confirmed_entry. by destruct (compressBaseline (no_JSON norm)) as [[d enc] b]. Qed.

Lemma tracked_write key l uid texts n hash hash0 p rows norm w p' v conf rev ts row o :
  (n + 1 < u64_modulus)%Z -> hash = no_Hash norm -> no_UID norm = uid ->
  canonical (texts ++ [no_JSON norm]) (no_JSON norm) o -> no_Hash norm = sha256_hex (no_JSON norm) ->
  mounted p (k_Sink key) l -> ss_closeOuts (st_at l p) !! cacheKey key = None ->
  (cached key l p = None /\ ps_jobs p = [] /\ n = 0%Z \/ tracked key l uid texts n hash0 (p, rows)) ->
  conf = confirmed_entry false norm (d_modifiedRun (next_decision w (cached key l p) norm)) ->
  v = (Reserve (cacheKey key) conf (ss_cache (st_at l p))).1 ->
  touches l (set_cache (Reserve (cacheKey key) conf (ss_cache (st_at l p))).2 (st_at l p)) p p' ->
  ps_jobs p' = ps_jobs p ++ [mkJob row (CommitUpsert l key v conf rev "" ts 0)] ->
  rebuilds (map replay_row (rows ++ [row])) o (no_Hash norm) ->
  trailing (map replay_row (rows ++ [row])) = d_modifiedRun (next_decision w (cached key l p) norm) ->
  run_ok (d_modifiedRun (next_decision w (cached key l p) norm)) ->
  tracked key l uid (texts ++ [no_JSON norm]) (n + 1) hash (p', rows ++ [row]).
Proof.
  intros Hn -> Hu Hm Hh Hmt Hq Hprev Hconf Hv Ht Hj Hreb Htrail Hrun. pose proof Hmt as [_ Hl].
  pose proof (touches_at _ _ _ _ Ht Hl) as Hst.
  split; simpl; [by eapply touches_mounted|by rewrite Hst|].
  assert (Hver : (0 < v <= n + 1)%Z /\ forall j, j ∈ ps_jobs p ->
    exists v' conf' rev' h' ts' win', j_Commit j = CommitUpsert l key v' conf' rev' h' ts' win' /\ (v' < v)%Z).
  { subst v. simpl. unfold currentVersion. fold (cached key l p). destruct Hprev as [(-> & -> & ->)|Htk].
    - split; [done|]. by intros j ?%elem_of_nil.
    - destruct Htk as [_ _ (entry & ob & text & He & _ & _ & _ & _ & Hvr & Hjf & _)]. simpl in *.
      rewrite He, u64_succ_no_wrap by lia. split; [lia|]. intros j Hin.
      destruct (Hjf j Hin) as (v' & ? & ? & ? & ? & ? & -> & ? & _). do 6 eexists. split; [done|lia]. }
  destruct (confirmed_fields norm (d_modifiedRun (next_decision w (cached key l p) norm))) as [Fh Fu].
  exists (with_Version v conf), o, (no_JSON norm).
  unfold cached. rewrite Hst. split_and!; try done; try (simpl; lia).
  - simpl. rewrite lookup_insert_eq. simpl in Hv. by rewrite <-Hv.
  - subst conf. exact Fh.
  - subst conf. rewrite <-Hu. exact Fu.
  - rewrite Hj. intros j. rewrite elem_of_app, list_elem_of_singleton. intros [Hin| ->].
    + destruct Hver as [_ Hold]. destruct (Hold j Hin) as (v' & ? & ? & ? & ? & ? & E & Hlt).
      do 6 eexists. split; [exact E|]. simpl. split; [lia|]. intros ->. lia.
    + by do 6 eexists.
  - intros b Hb. change (decodeBaseline (with_Version v conf)) with (decodeBaseline conf) in Hb.
    subst conf. by apply confirmed_baseline in Hb.
  - subst conf. change (ModifiedSinceCheckpoint (with_Version v ?c)) with (ModifiedSinceCheckpoint c). by rewrite confirmed_run.
  - subst conf. change (ModifiedSinceCheckpoint (with_Version v ?c)) with (ModifiedSinceCheckpoint c). by rewrite confirmed_run.
Qed.

Lemma new_rows (jobs jobs' : list Job) new :
  jobs' = jobs ++ new -> drop (length jobs) jobs' = new.
Proof. intros ->. by rewrite drop_app_length. Qed.

Lemma first_observation key l uid e norm p :
  Key_ephemeral key = false -> views key uid e norm -> mounted p (k_Sink key) l ->
  ss_closeOuts (st_at l p) !! cacheKey key = None -> cached key l p = None -> ps_jobs p = [] ->
  tracked key l uid [no_JSON norm] 1 (no_Hash norm) (run_hop key (Observe e norm) (p, [])).
Proof.
  intros Heph Hv Hmt Hq Hc Hj. destruct (views_sighted _ _ _ _ _ _ Hv Hmt Hq) as (w & Hs & Hacc).
  destruct (views_marshal _ _ _ _ Hv) as (Hm & Hh & Hu & Hne).
  destruct (Process_write e key w norm l p Hs Heph) as
    (ts & err & p' & HP & _ & [(_ & _ & Ht & Hj')|(Ha & _)]);
    [by rewrite Hc| |by rewrite Hacc in Ha].
  cbn [run_hop]. rewrite processNext_queued, HP. cbn [fst snd].
  erewrite (new_rows (ps_jobs p)) by exact Hj'. cbn [map j_Record app].
  destruct (canonical_last [] _ _ Hm Hne) as [o Hcan].
  eapply (tracked_write key l uid [] 0 (no_Hash norm) "" p [] norm w);
    [done|done|done|done|done|done|done|by left|reflexivity|reflexivity
    |apply touches_queued; exact Ht|exact Hj'|..]; cbn [map app]; unfold next_row; rewrite Hc; [| |exact run_fresh].
  - match goal with |- rebuilds [replay_row ?r] _ _ => apply (rebuilds_full [] (replay_row r)) end;
      [by eapply canonical_nonempty|exact (proj1 (proj2 (proj2 Hcan)))].
  - match goal with |- trailing [replay_row ?r] = _ => pose proof (trailing_snoc [] (replay_row r)) as Hs0 end.
    cbn [app] in Hs0. rewrite Hs0, decide_True; [done|]. by eapply canonical_nonempty.
Qed.

Lemma tracked_observe key l uid texts n hash e norm st :
  Key_ephemeral key = false -> (0 <= n)%Z -> (n + 1 < u64_modulus)%Z ->
  views key uid e norm -> keeps_run key e -> tracked key l uid texts n hash st ->
  tracked key l uid (texts ++ [no_JSON norm]) (n + 1) (no_Hash norm) (run_hop key (Observe e norm) st).
Proof.
  destruct st as [p rows]. intros Heph Hn0 Hn Hv Hkeep Htk. pose proof Htk as [Hmt Hq Hentry].
  simpl in Hmt, Hq. destruct (views_sighted _ _ _ _ _ _ Hv Hmt Hq) as (w & Hs & Hacc).
  destruct (views_marshal _ _ _ _ Hv) as (Hm & Hh & Hu & Hne). cbn [run_hop].
  destruct Hentry as (entry & o & text & He & Ho & Eh & Ehe & Eu & Evr & Hjf & Hb & Hreb & Htr & Hrun).
  simpl in He, Hjf, Hreb, Htr.
  assert (Hinc : same_incarnation entry norm) by (right; congruence).
  destruct (decide (Hash entry = no_Hash norm)) as [Hsame|Hdiff].
  - rewrite processNext_queued, (Process_unchanged _ _ _ _ _ _ _ Hs He Hinc Hsame). cbn [fst snd].
    erewrite (new_rows _ _ []) by (simpl; by rewrite app_nil_r). rewrite app_nil_r.
    split; simpl; [done|done|]. exists entry, o, text. rewrite <-Hsame, Ehe. split_and!; try done; try lia. by apply canonical_more.
  - destruct (Process_write e key w norm l p Hs Heph) as
      (ts & err & p' & HP & _ & [(_ & _ & Ht & Hj')|(Ha & _)]);
      [by rewrite He| |by rewrite Hacc in Ha].
    rewrite processNext_queued, HP. cbn [fst snd].
    erewrite (new_rows (ps_jobs p)) by exact Hj'. cbn [map j_Record].
    destruct (canonical_last texts _ _ Hm Hne) as [o' Hcan].
    eapply (tracked_write key l uid texts n (no_Hash norm) hash p rows norm w);
      [done|done|done|done|done|done|done|by right|reflexivity|reflexivity
      |apply touches_queued; exact Ht|exact Hj'|..]; unfold next_row; rewrite He;
      change (next_decision w (Some entry) norm) with (modified_decision w false entry norm).
    + eapply row_rebuilds; [exact Ho|exact Hb|exact Hreb|exact Hcan].
    + eapply row_trailing; [exact Hcan|exact Htr].
    + apply Hkeep; [|exact Hrun]. apply Hs.
Qed.

(** The canonical bytes observed along the hops. *)
Definition observed (hops : list hop) : list string :=
  flat_map (fun h => match h with Observe _ n => [no_JSON n] | Confirm _ => [] end) hops.

Lemma tracked_hops key l uid texts hops n norm st :
  Key_ephemeral key = false -> (0 <= n)%Z -> (n + Z.of_nat (length hops) < u64_modulus)%Z ->
  Forall (hop_ok key uid) hops -> Forall (hop_keeps key) hops -> tracked key l uid texts n (no_Hash norm) st ->
  exists n', tracked key l uid (texts ++ observed hops) n' (no_Hash (last_seen hops norm)) (run_hops key hops st).
Proof.
  intros Heph. revert texts n norm st. induction hops as [|h hops IH]; intros texts n norm st Hn0 Hn Hok Hkeep Htk.
  { exists n. by rewrite app_nil_r. }
  inversion_clear Hok. apply Forall_cons in Hkeep as [Hk Hkeep]. simpl in Hn. destruct h as [e norm'|i]; simpl.
  - change (no_JSON norm' :: observed hops) with ([no_JSON norm'] ++ observed hops). rewrite app_assoc.
    apply (IH _ (n + 1)%Z norm'); [lia|lia|done|done|]. eapply tracked_observe; eauto. lia.
  - apply (IH texts n norm); [lia|lia|done|done|]. by apply tracked_confirm.
Qed.

(** A whole run from a fresh key. *)
Lemma run_tracked key l uid e norm hops p :
  Key_ephemeral key = false -> mounted p (k_Sink key) l ->
  ss_closeOuts (st_at l p) !! cacheKey key = None -> cached key l p = None -> ps_jobs p = [] ->
  views key uid e norm -> Forall (hop_ok key uid) hops -> Forall (hop_keeps key) hops ->
  (1 + Z.of_nat (length hops) < u64_modulus)%Z ->
  exists n, tracked key l uid (observed (Observe e norm :: hops)) n (no_Hash (last_seen hops norm)) (run_hops key (Observe e norm :: hops) (p, [])).
Proof.
  intros Heph Hm Hq Hc Hj Hv Hok Hk Hn. pose proof (first_observation key l uid e norm p Heph Hv Hm Hq Hc Hj) as Hfirst.
  exact (tracked_hops key l uid _ hops 1 norm _ Heph ltac:(lia) Hn Hok Hk Hfirst).
Qed.
End history.

(** ** Properties *)

(** C1: what is recorded can be reconstructed. Start from any state in which an
    object is not cached and nothing is in flight, observe it, then let workers
    observe it any number of times - every version changed or not - interleaved
    with confirmations of in-flight rows in any order. Whatever mix of Added,
    Snapshot, Modified, Checkpoint and full-state fallback rows results, the
    history has a base row, the replay of it succeeds, and it gives what
    decoding the canonical bytes of an observation gives - one whose bytes hash to the
    digest of the last row, which is the hash of the last observation. *)
Theorem recorded_history_rebuilds
    `{Unstructured, Encoders, ZstdCodec, !ZstdLaws, JsonDiff, JsonPatch, !PatchLaws}
    key l uid e norm hops p :
  Key_ephemeral key = false -> mounted p (k_Sink key) l ->
  ss_closeOuts (st_at l p) !! cacheKey key = None -> cached key l p = None -> ps_jobs p = [] ->
  views key uid e norm -> Forall (hop_ok key uid) hops ->
  (1 + Z.of_nat (length hops) < u64_modulus)%Z ->
  let history := map replay_row (run_hops key (Observe e norm :: hops) (p, [])).2 in
  exists base r text, BaseRow history = Some base /\ Replay history base = Ok r /\
    json_unmarshal text = Some (rc_Object r) /\ text ∈ observed (Observe e norm :: hops) /\
    rc_SHA256 r = sha256_hex text /\ rc_SHA256 r = no_Hash (last_seen hops norm).
Proof.
  intros Heph Hm Hq Hc Hj Hv Hok Hn.
  destruct (run_tracked (fun _ => True) I key l uid e norm hops p Heph Hm Hq Hc Hj Hv Hok) as [n' [_ _ Hentry]];
    [apply Forall_forall; intros [e' ?|i] _; done|done|].
  destruct Hentry as (entry & o & text & _ & (Hin & _ & Ho & _) & Hh & _ & _ & _ & _ & _ & Hreb & _).
  destruct Hreb as (i & r & Hb & Hr & Eo & Es).
  exists i, r, text. rewrite Eo, Es. by rewrite <-Hh.
Qed.

Lemma checkpoints_keep `{Unstructured, Encoders, ZstdCodec, JsonDiff} n key e : (0 < n)%Z -> checkpoints_every n e key ->
  keeps_run (fun z => 0 <= z < n)%Z key e.
Proof.
  intros Hn Hok w c norm Hw Hc. specialize (Hok w Hw).
  destruct (modified_ladder w false c norm) as [|old patch reason|old patch _ _ _ _ Hk]; simpl; [lia..|].
  unfold checkpointDue in Hk. repeat case_decide; try done; lia.
Qed.

(** C39: checkpoints bound replay. In the runs of C1, when every writer met asks for a
    checkpoint at least every [n] changes, the rows recorded since the last one with full
    state are fewer than [n] at every moment, so that a reconstruction from what is
    recorded applies fewer than [n] patches. *)
Theorem replay_is_bounded
    `{Unstructured, Encoders, ZstdCodec, !ZstdLaws, JsonDiff, JsonPatch, !PatchLaws}
    n key l uid e norm hops p :
  (0 < n)%Z -> Key_ephemeral key = false -> mounted p (k_Sink key) l ->
  ss_closeOuts (st_at l p) !! cacheKey key = None -> cached key l p = None -> ps_jobs p = [] ->
  views key uid e norm -> Forall (hop_ok key uid) hops ->
  Forall (fun h => match h with Observe e' _ => checkpoints_every n e' key | Confirm _ => True end) hops ->
  (1 + Z.of_nat (length hops) < u64_modulus)%Z ->
  let history := map replay_row (run_hops key (Observe e norm :: hops) (p, [])).2 in
  (trailing history < n)%Z /\
  exists base r, BaseRow history = Some base /\ Replay history base = Ok r /\ (rc_PatchesApplied r < n)%Z.
Proof.
  intros Hpos Heph Hm Hq Hc Hj Hv Hok Hcheck Hn history.
  destruct (run_tracked (fun z => 0 <= z < n)%Z (conj (Z.le_refl 0) Hpos) key l uid e norm hops p Heph Hm Hq Hc Hj Hv Hok) as [n' [_ _ Hentry]];
    [eapply Forall_impl; [exact Hcheck|]; intros [e' ?|i] Hx; [by apply checkpoints_keep|done]|done|].
  destruct Hentry as (entry & o & text & _ & _ & _ & _ & _ & _ & _ & _ & (i & r & Hb & Hr & _ & _) & Ht & Hrun).
  fold history in Hb, Hr, Ht. pose proof (replay_applies history i r Hb Hr). split; [lia|]. exists i, r. split_and!; [done|done|lia].
Qed.

Section samples.
#[local] Existing Instance tree_unstructured.
#[local] Existing Instance note_encoders.
#[local] Existing Instance framing_codec.
#[local] Existing Instance whole_document_diff.
#[local] Existing Instance whole_document_patch.

Definition note_env (value : string) : env := sample_env (sample_writer 5) (Some (note value)).

Definition note_norm (value : string) : normalizedObject :=
  mkNormalized (String "v" value) ("sha:v" +:+ value) "" "" "" ∅ [] (note value).

(** The sink's state exists and is empty. *)
Definition mounted_init : pstate := (sinks_get sample_sink pstate_init).2.

Lemma note_views value : views sample_key "" (note_env value) (note_norm value).
Proof.
  exists (sample_writer 5), (note value), None. split; [reflexivity|]. split; [reflexivity|].
  split; [reflexivity|]. split; [reflexivity|]. split; [apply insert_non_empty|]. split; reflexivity.
Qed.

(** An object holding an integer, which is decoded as a float. *)
Definition tally_env (n : Z) : env := sample_env (sample_writer 5) (Some (tally n)).
Definition tally_norm (n : Z) : normalizedObject :=
  mkNormalized (String "n" (pretty n)) ("sha:n" +:+ pretty n) "" "" "" ∅ [] (tally n).

Lemma tally_views n : views sample_key "" (tally_env n) (tally_norm n).
Proof.
  exists (sample_writer 5), (tally n), None. split; [reflexivity|]. split; [reflexivity|].
  split; [reflexivity|]. split; [reflexivity|]. split; [apply insert_non_empty|]. split; reflexivity.
Qed.

Lemma recorded_history_rebuilds_witness :
  let hops := [Observe (note_env "b") (note_norm "b"); Confirm 1; Observe (note_env "b") (note_norm "b");
               Observe (tally_env 7) (tally_norm 7); Confirm 0] in
  let history := map replay_row
    (run_hops sample_key (Observe (note_env "a") (note_norm "a") :: hops) (mounted_init, [])).2 in
  map rr_EventType history = ["Snapshot"; "Modified"; "Modified"] /\
  exists base r text, BaseRow history = Some base /\ Replay history base = Ok r /\
    json_unmarshal text = Some (rc_Object r) /\ rc_SHA256 r = "sha:n7".
Proof.
  intros hops history. split; [vm_compute; reflexivity|].
  destruct (recorded_history_rebuilds sample_key 0 "" (note_env "a") (note_norm "a") hops mounted_init)
    as (base & r & text & Hb & Hr & Hu & _ & _ & Hlast).
  - reflexivity.
  - split; [vm_compute; reflexivity|]. apply Nat.ltb_lt. vm_compute. reflexivity.
  - reflexivity.
  - reflexivity.
  - reflexivity.
  - apply note_views.
  - repeat constructor; (apply note_views || apply tally_views).
  - vm_compute. reflexivity.
  - exists base, r, text. split; [exact Hb|]. split; [exact Hr|]. split; [exact Hu|]. rewrite Hlast. reflexivity.
Defined.

(** Every third change would be the second diff-only row in a row: it is a checkpoint. *)
Definition busy_env (value : string) : env := sample_env (sample_writer 2) (Some (note value)).

Lemma busy_views value : views sample_key "" (busy_env value) (note_norm value).
Proof.
  exists (sample_writer 2), (note value), None. split; [reflexivity|]. split; [reflexivity|].
  split; [reflexivity|]. split; [reflexivity|]. split; [apply insert_non_empty|]. split; reflexivity.
Qed.

Lemma replay_is_bounded_witness :
  let hops := map (fun value => Observe (busy_env value) (note_norm value)) ["b"; "c"; "d"] in
  let history := map replay_row (run_hops sample_key (Observe (busy_env "a") (note_norm "a") :: hops) (mounted_init, [])).2 in
  map rr_EventType history = ["Snapshot"; "Modified"; "Checkpoint"; "Modified"] /\ trailing history = 1%Z /\ (trailing history < 2)%Z.
Proof.
  intros hops history. split; [vm_compute; reflexivity|]. split; [vm_compute; reflexivity|].
  apply (replay_is_bounded 2 sample_key 0 "" (busy_env "a") (note_norm "a") hops mounted_init).
  - reflexivity.
  - reflexivity.
  - split; [vm_compute; reflexivity|]. apply Nat.ltb_lt. vm_compute. reflexivity.
  - reflexivity.
  - reflexivity.
  - reflexivity.
  - apply busy_views.
  - repeat constructor; apply busy_views.
  - repeat (apply Forall_cons; split; [intros w [= <-]; vm_compute; split; (reflexivity || discriminate)|]). apply Forall_nil. exact I.
  - vm_compute. reflexivity.
Defined.

(** A lost write that a newer one overtook is mistaken for a confirmed one.
    The first row of an object is in flight; the object changes, and the change is
    recorded as a patch against the unconfirmed state. The first write is then
    abandoned: its revert is a no-op, because the newer reservation holds the key,
    and the requeued key deduplicates against the newer entry. Once the second
    write is confirmed nothing is in flight, nothing will be written again for
    this content, and the stored history is a single patch without a base row, so
    the object cannot be reconstructed. *)
Theorem overtaken_lost_write_breaks_history :
  let p1 := (processNext (note_env "a") sample_key mounted_init).2 in
  let p2 := (processNext (note_env "b") sample_key p1).2 in
  exists first second, ps_jobs p2 = [first; second] /\
    let p3 := (settle (j_Commit first) false (drop_job 0 p2)).2 in
    let p4 := (settle (j_Commit second) true (drop_job 0 p3)).2 in
    QAddRateLimited sample_key ∈ ps_queue p3 /\
    ps_jobs (processNext (note_env "b") sample_key p4).2 = [] /\
    BaseRow (map replay_row [j_Record second]) = None.
Proof.
  eexists _, _. split; [vm_compute; reflexivity|]. split; [|split; vm_compute; reflexivity].
  vm_compute. repeat constructor.
Qed.
End samples.
